(* ===== verification/_CoqProject ===== *)
-Q . S2P
Prelude.v
Text.v
Engine.v
PgTypes.v
FkGraph.v
CyclicFk.v
PgPreflight.v
MyTypes.v
MeshIds.v
Calls.v
ApplyTx.v
Plan.v
Contract.v
Apply.v
ParDrain.v
Postgres.v
PgDrain.v
Purge.v
Store.v
Copy.v
PgCyclicCopy.v
Reseed.v
Mesh.v
Syncer.v
PgCapture.v
Stream.v
RedisFrame.v
RedisKeys.v
RedisScan.v
RedisSync.v
RedisMesh.v
LoadData.v
Migrate.v
Env.v
Config.v
Daemon.v
Verify.v
RedisVerify.v
MySession.v
MyApply.v
MyPreflight.v
Introspect.v
MyMesh.v
MyPlan.v
MyCapture.v
MyLoad.v
MyRefine.v
MyCases.v
