(* ===== verification/Prelude.v ===== *)
(** * replicare: a verification library for the replication daemon

    replicare copies the selected tables of a source database to a target, and then
    keeps the target in step by replaying what triggers on the source capture. This
    library models its core as executable definitions and programs, and proves what
    makes the replication correct.

    ** The program and the files

    A sync is driven by the pipeline ([src/internal/pipeline]). It plans the foreign-key
    components of the selection, installs capture, copies every component, cuts over and
    streams: every pass drains the deltas, enforces retention and reseeds a target that
    fell behind. The pipeline acts through three interfaces, the engine's [Source],
    [Sink] and [ApplyTx] ([src/internal/engine]) and the state store
    ([src/internal/state]). The library follows that layering.

    - [Engine]: the vocabulary of [internal/engine] (tables, keys, deltas, chunks, errors,
      pre-flight reports).
    - [FkGraph]: [internal/fkgraph], union-find components and the topological order.
    - [CyclicFk]: [cyclicfk.go], [fkcomponents.go] and the planning half of [cyclic.go] of
      the Postgres engine, classification of the foreign keys on cycles; [PgCyclicCopy]: the
      other half, the copy of such a component statement by statement, with its retries.
    - [Calls]: one constructor per interface method, and [prog], the type of the programs
      over them. A Go function of the engine-neutral packages is a [prog]: its nodes are
      the calls, its branches the results it may get. [safe] is the program logic: an
      invariant holds at every point between two calls, where a crash can stop the
      program, for every result every call may give.
    - [ApplyTx]: rows and what the statements of an apply transaction do to the target.
    - [Plan]: [chunk.go] and [copy.go] of the Postgres engine, chunk plans and the rows a
      chunk selects.
    - [Contract]: what the doc comments of the engine interfaces promise, as a step
      relation, and the class [Engine] of its implementations.
    - [Apply]: [internal/apply], the drain of a table, of a component, and the retry;
      [ParDrain]: the component drain over a connection pool, its goroutines interleaved by
      a schedule.
    - [Postgres]: the Postgres engine as one state (capture tables, transactions of the
      application, apply transactions) and the proof that it keeps the contract;
      [PgDrain]: the drain on it; [Purge]: [purge.go], purge and retention.
    - [Store]: [internal/state/postgres], progress, cursors, syncs and the ownership lock.
    - [Copy]: [internal/copy], the chunked, resumable initial copy.
    - [Reseed]: [internal/reseed], retention enforcement and the reseed of a target.
    - [Syncer], [Stream]: [internal/pipeline], bring-up, cutover and the streaming loop;
      [PgCapture]: [capture.go] of the Postgres engine, the installation of capture that
      bring-up calls.
    - [Mesh]: the active-active mode of the Postgres engine ([mesh.go], [apply_mesh.go],
      [mesh_gc.go]), clock, versions, tombstones, the two statements of an apply and what
      commits between them.
    - The Redis engine: [RedisFrame], [RedisKeys] ([framing.go], [selection.go]),
      the records and the names of keys; [RedisScan], [RedisSync] ([stream.go], [copy.go],
      [apply.go], [sink.go]), the rolling scan, the re-read, the restore and the delete
      sweep of a one-way sync; [RedisMesh] ([mesh_source.go], [mesh_sink.go]), the registers,
      the commands of the stamping re-read and the version-guarded script of a mesh member.
    - The MySQL engine: [LoadData], the bulk-load text; [MySession], the session as the
      sink's statements see it (transaction, FOREIGN_KEY_CHECKS, TEMPORARY tables, the one
      pooled connection) with the effect of each statement and a monad of statements that
      may fail; [MyApply] ([apply_tx.go]), the apply transaction; [MyLoad] ([merge.go],
      [sink_load.go], [cyclic.go]), the loaders; [MyRefine], the one-table apply against the
      contract; [MyCases], runs on concrete servers; [MyPlan] ([chunk.go]), the boundary walk;
      [MyCapture] ([capture.go], [capture_ddl.go], [consume.go], [purge.go]), the source side;
      [MyMesh] ([mesh.go], [apply_mesh.go]), the statements of a mesh member.
    - [Migrate]: [internal/migrate] and its two database adapters.
    - [PgTypes], [PgPreflight], [MyTypes], [MyPreflight]: [typecompat.go] and [preflight.go]
      of the Postgres and the MySQL engine, the type rules with the values a column holds,
      and the report they end in; [Introspect]: [introspect.go] and [selection.go] of the
      two engines, the schema from the rows of the catalog.
    - [Env], [Config]: [internal/config], the expansion of environment references, the
      defaults, the inheritance and the validation of a decoded configuration.
    - [Verify], [RedisVerify]: [internal/observability/live/verify.go] and the engines'
      [verify.go], the report of the verify command and the fingerprints it compares.
    - [MeshIds], [Daemon]: [internal/engine/preflight_mesh.go], [internal/daemon] and
      [internal/observability/health], the check of a mesh member's keys, the jobs of a
      configuration, the construction of a sync and the liveness record.
    - [Text]: the functions of Go's [strings] and [strconv] the sources above use.

    ** The central invariant

    [Contract.Inv T v]: every row of a table in [T] is the same on source and target, or
    its key has a delta the target has not consumed. Applications write between any two
    calls ([rely]), a call may fail before or after it took effect, and the program may
    stop at any call. The drain, the copy, bring-up, the reseed and the streaming loop
    keep this invariant or establish it ([DrainComponentRetryingPool_safe],
    [Component_copies], [Bringup_streams], [Run_recovers], [streamOnce_in_step],
    [Stream_safe]); [DrainAll_converges] and [pg_drain_safe] instantiate it on the
    Postgres engine, where the first also shows that the drain terminates with source and
    target equal. [CopyCyclicComponent_copies] is the theorem of the copy of a component
    with cycles. [Bringup_streams] is for an engine that installs capture in one transaction
    per table ([Transactional]), which [PgCapture.installCapture_transactional] shows of
    Postgres; with statements that commit one by one, as on MySQL, it fails
    ([Autocommit_loses_write], [reinstall_misses_write]). In the streaming theorems the world
    has a flag that is up from a purge that sacrificed the target until [Enforce] has
    recorded it; while it is down, the rows are in step or the target is marked.

    [mesh_converges] is the theorem of the mesh: it is for undisturbed runs, in which no
    commit changes the winners of an apply between its two statements and no tombstone is
    collected. The step relation has both, under a kind of its own, and
    [overtaken_apply_diverges] and [gc_resurrects_deleted_row] are runs with them that end
    with members that differ.

    The MySQL engine is related to the same notions. [ApplyPass_refines] is a refinement of
    the contract's apply pass, [source_refines] a simulation of the Postgres source by the
    MySQL one, the first for columns that keep their values and keys that are compared
    exactly ([lossless]), the second for updates whose keys the collation tells apart
    ([tells]), [PlanChunks_agrees] an equivalence of the two chunk planners. Of what is
    its own: [pass_consistent] (no pass publishes a dangling foreign key),
    [LoadCyclicFKChecks_verified] (a load with the checks off is verified before it is
    committed) and [installCapture_installs] (installation resumes from any prefix).
    [my_mesh_converges] is proved by a simulation of the Postgres mesh, for a collation that
    orders the ids of the members; [case_insensitive_nodes_diverge] is a run where it does not.

    Redis has no triggers, so its guarantee is convergence by repeated scans:
    [rolling_pass_covers] says what a pass of the scan sees while the keys change,
    [redis_converges] that boundedly many passes bring the target to the source when nobody
    writes ([quiet_sync]), [mesh_round_converges] that one drain of every edge brings the
    members of a mesh together after an undisturbed run, whose states [registers_typed]
    describes. The events of the run are the single commands of the members; a re-read that
    another event at its key overtakes is an event of its own kind, and
    [concurrent_rereads_diverge] shows for any member and values that such re-reads give two
    values one version.

    The other groups: the planners are exact ([topoOrder_correct], [Components_connected],
    [computeComponents_ordered], [classifyCyclicFKs_exact], [planChunks_partition]);
    retention deletes only what every kept target consumed ([purge_respects_targets],
    [purgeConsumedBy_exact], [overCapTargets_justified]); one owner with a live session per
    sync ([acquire_exclusive]; [lost_session_two_owners] for an owner whose session ended);
    formats round-trip ([readAll_writes], [load_data_writeRow]); matchers agree with a
    declarative language ([globMatch_equiv]); migrations resume ([Apply_resumes_pg],
    [Apply_resumes_mysql]); a pre-flight report without a violation admits every value of
    the source, NULL included, column by column ([preflight_admits], [my_preflight_admits],
    and [classifyTypes_overlooks], [my_classification_overlooks], [nullability_unchecked],
    [my_nullability_unchecked] for the pairs of columns they leave out), and the schema it
    judges is the selected part of the catalog ([introspectConn_exact],
    [introspectDB_exact], [selectTables_exact]); a sync that starts has passed it and a sync
    that does not start leaves no connection open ([buildSyncerCore_safe]); a configuration
    is accepted exactly when its entries are not null, every engine accepts its block, the
    state store's included, it is well-formed and its topology has no cycle ([Load_exact]);
    an environment reference expands to its value ([expandString_render]); the verify
    command reports convergence on equal contents and drift in one row or key
    ([Verify_finds_drift], [fingerprint_tells]). Theorems of kind error exhibit a run on
    which the code does less than its comments say.

    ** Fuel and bounds

    Loops without a structural measure take fuel and return [None] when it runs out; each
    has a lemma or a property that a stated fuel is enough (the number of deltas for
    [DrainAll], the number of rows for the batched purge, tables plus edges for the graph
    searches, the bytes of the stream for the frame reader, the server's bound on the SCANs
    of a pass for the Redis scan). The retry loops are bounded in the code (five drain
    attempts, ten cyclic copies, the copy's attempts) and by the same numbers here; so is
    the boundary walk of the MySQL planner. The streaming loop has no bound in the code: its
    theorem is for every number of passes. Go integers are [Z]; where a product or a
    conversion can leave 64 bits ([deltaBacklogByRel], the frame lengths) the wrap-around is
    written out.

    ** Assumptions

    Code outside the repository is a parameter, as are the calls of an engine where the
    daemon builds a sync: the key order of the database, the block statistics, the wall
    clock, the meaning of a migration's statements ([run_sql]), the environment, the text of
    an error that quotes a value. Where the code ranges over a Go map, the order is a
    parameter. The engine contract is assumed of an engine only where a theorem is stated
    against it, and Postgres discharges it. [InstallCapture] is a call of the pipeline whose
    steps depend on how the engine commits; [PgCapture] and [MyCapture] model it statement
    by statement. [CopyCyclicComponent] is a program of the engine, of which bring-up uses
    what the class [CyclicCopier] says and Postgres discharges. A MySQL server is given by
    its collations, the values a column coerces and the foreign keys of the target, all of
    them RESTRICT; a Redis server by what SCAN documents (class [ScanLaws]), its clock and
    the payloads RESTORE accepts. The theorems of the Redis mesh suppose that the
    fingerprint tells the values written to a key apart ([fingerprints]; [stream_collision]
    shows values it does not) and clocks and counters that Lua's numbers carry exactly; the
    theorem on the fingerprints of a keyspace that its scans return no key twice
    ([no_repeats]), which a server does not promise ([duplicate_hides_key]). The md5 sum is
    any function. The character sets of a MySQL server are given by the bytes each character
    takes (classes [Charsets], [CharsetLaws]). Each of these hypotheses is in the statement
    of the theorem that needs it.

    ** Not modelled

    Drivers, DSNs, TLS, HTTP, metrics, flag parsing and printing are input and output
    without decisions of their own. The SQL text is not parsed: a statement is modelled by
    its effect. The streaming pass drains over one connection ([ApplyConcurrency] 1, the
    default); the drain over a pool is proved by itself. The logical counter of the Postgres and
    the MySQL mesh is unbounded. Keyspace notifications are not part
    of the convergence theorem of Redis. The initial copy of Redis is the same
    scan and restore as its streaming pass, which does not depend on it, and is not modelled
    by itself. A configuration is modelled from its decoded form on:
    YAML and the units of sizes and durations are not. The catalog queries are represented by the
    rows they return. Of the daemon, the waiting for its jobs, the
    HTTP servers and telemetry are not modelled, nor is the command line, which starts and
    reports on the parts above. *)

From stdpp Require Export prelude gmap strings list sorting pretty.
From Stdlib Require Export ZArith Lia Ascii.
Export ListNotations.

#[global] Set Default Goal Selector "!".

Declare Scope replicare_scope.
Delimit Scope replicare_scope with repl.

(** ** Automation shared by the components *)

(** [replicare] collects the lemmas that close the routine side conditions of
    the components (membership after sorting, order facts on names, ...). *)
Create HintDb replicare.

(** Case analysis on the boolean test, option or decision a goal is stuck on. *)
Ltac case_test :=
  match goal with
  | |- context [ if decide ?P then _ else _ ] => destruct (decide P)
  | |- context [ if ?b then _ else _ ] => destruct b eqn:?
  | |- context [ match ?o with Some _ => _ | None => _ end ] => destruct o eqn:?
  | |- context [ match ?o with inl _ => _ | inr _ => _ end ] => destruct o eqn:?
  end.

(** The same in a hypothesis, followed by the clean-up of the equations. *)
Ltac case_test_in H :=
  match type of H with
  | context [ if decide ?P then _ else _ ] => destruct (decide P)
  | context [ if ?b then _ else _ ] => destruct b eqn:?
  | context [ match ?o with Some _ => _ | None => _ end ] => destruct o eqn:?
  | context [ match ?o with inl _ => _ | inr _ => _ end ] => destruct o eqn:?
  end; simplify_eq/=.

(** ** Byte-wise string order (the order of Go's [<] on strings) *)

Definition str_le (a b : string) : Prop := String.leb a b = true.
Definition str_lt (a b : string) : Prop := String.ltb a b = true.

#[global] Instance str_le_dec : RelDecision str_le :=
  fun a b => decide (String.leb a b = true).
#[global] Instance str_lt_dec : RelDecision str_lt :=
  fun a b => decide (String.ltb a b = true).

Lemma ascii_compare_N (a b : ascii) :
  Ascii.compare a b = N.compare (N_of_ascii a) (N_of_ascii b).
Proof. reflexivity. Qed.

Lemma string_compare_refl (s : string) : String.compare s s = Eq.
Proof.
  induction s as [|a s IH]; simpl; [done|].
  by rewrite ascii_compare_N, N.compare_refl.
Qed.

Lemma string_compare_trans_le (a b c : string) :
  String.compare a b ≠ Gt → String.compare b c ≠ Gt → String.compare a c ≠ Gt.
Proof.
  revert b c.
  induction a as [|x a IH]; intros [|y b] [|z c]; simpl; try done.
  rewrite !ascii_compare_N.
  destruct (N.compare_spec (N_of_ascii x) (N_of_ascii y)) as [Hxy|Hxy|Hxy];
    destruct (N.compare_spec (N_of_ascii y) (N_of_ascii z)) as [Hyz|Hyz|Hyz];
    destruct (N.compare_spec (N_of_ascii x) (N_of_ascii z)) as [Hxz|Hxz|Hxz];
    intros H1 H2; try done; try lia; try (by eapply IH; eauto).
Qed.

Lemma str_le_compare (a b : string) : str_le a b ↔ String.compare a b ≠ Gt.
Proof. unfold str_le, String.leb. destruct (String.compare a b); naive_solver. Qed.

#[global] Instance str_le_trans : Transitive str_le.
Proof.
  intros a b c. rewrite !str_le_compare. apply string_compare_trans_le.
Qed.
#[global] Instance str_le_total : Total str_le.
Proof. intros a b. apply String.leb_total. Qed.
#[global] Instance str_le_antisym : AntiSymm (=) str_le.
Proof. intros a b. apply String.leb_antisym. Qed.
#[global] Instance str_le_refl : Reflexive str_le.
Proof. intros a. apply str_le_compare. by rewrite string_compare_refl. Qed.

Lemma str_lt_compare (a b : string) : str_lt a b ↔ String.compare a b = Lt.
Proof. unfold str_lt, String.ltb. destruct (String.compare a b); naive_solver. Qed.

Lemma str_lt_le_ne (a b : string) : str_lt a b ↔ str_le a b ∧ a ≠ b.
Proof.
  rewrite str_lt_compare, str_le_compare. split.
  - intros H. split; [by rewrite H|]. intros ->.
    by rewrite string_compare_refl in H.
  - intros [H1 H2]. destruct (String.compare a b) eqn:E; [|done|done].
    apply String.compare_eq_iff in E. done.
Qed.

Lemma str_not_lt (a b : string) : ¬ str_lt a b ↔ str_le b a.
Proof.
  rewrite str_lt_le_ne. split.
  - intros H. destruct (decide (a = b)) as [->|Hne]; [done|].
    destruct (str_le_total a b); [|done]. naive_solver.
  - intros Hba [Hab Hne]. by apply Hne, (anti_symm str_le).
Qed.

(** ** Sorting by a name ([sort.Slice] on a string key)

    Go's [sort.Slice] is not stable; the lemmas below use only what holds of
    every outcome: a permutation in ascending key order. *)

Definition key_le {A} (key : A → string) (a b : A) : Prop :=
  str_le (key a) (key b).

#[global] Instance key_le_dec {A} (key : A → string) : RelDecision (key_le key) :=
  fun a b => str_le_dec (key a) (key b).

Definition sort_by {A} (key : A → string) (l : list A) : list A :=
  merge_sort (key_le key) l.

Section sort_by.
Context {A : Type} (key : A → string).
Implicit Types l : list A.

#[global] Instance key_le_trans : Transitive (key_le key).
Proof. intros a b c. apply str_le_trans. Qed.
#[global] Instance key_le_total : Total (key_le key).
Proof. intros a b. apply str_le_total. Qed.

Lemma sort_by_perm l : sort_by key l ≡ₚ l.
Proof. apply merge_sort_Permutation. Qed.

Lemma elem_of_sort_by x l : x ∈ sort_by key l ↔ x ∈ l.
Proof. by rewrite sort_by_perm. Qed.

Lemma NoDup_sort_by l : NoDup (sort_by key l) ↔ NoDup l.
Proof. by rewrite sort_by_perm. Qed.

Lemma length_sort_by l : length (sort_by key l) = length l.
Proof. by rewrite sort_by_perm. Qed.

Lemma sort_by_sorted l :
  StronglySorted (key_le key) (sort_by key l).
Proof. apply StronglySorted_merge_sort; apply _. Qed.
End sort_by.

(** ** Lists *)

(** [x] occurs strictly before [y] in [l]. *)
Definition before {A} (x y : A) (l : list A) : Prop :=
  ∃ l1 l2 l3, l = l1 ++ x :: l2 ++ y :: l3.

Lemma before_app_r {A} (x y : A) l k : before x y l → before x y (l ++ k).
Proof.
  intros (l1 & l2 & l3 & ->). exists l1, l2, (l3 ++ k).
  by rewrite <-app_assoc, <-app_comm_cons, <-app_assoc, <-app_comm_cons.
Qed.

Lemma before_snoc {A} (x y : A) l : x ∈ l → before x y (l ++ [y]).
Proof.
  intros (l1 & l2 & ->)%list_elem_of_split. exists l1, l2, [].
  by rewrite <-app_assoc.
Qed.

Lemma filter_app_perm {A} (P : A → Prop) `{!∀ x, Decision (P x)} (l : list A) :
  filter P l ++ filter (λ x, ¬ P x) l ≡ₚ l.
Proof.
  induction l as [|x l IH]; [done|].
  rewrite !filter_cons. destruct (decide (P x)) as [HP|HP].
  - rewrite (decide_False (P := ¬ P x)) by tauto. simpl. by rewrite IH.
  - rewrite (decide_True (P := ¬ P x)) by done.
    by rewrite <-Permutation_middle, IH.
Qed.

Lemma foldl_mjoin {A B C} (f : A → C → A) (g : B → list C) (a : A) (l : list B) :
  foldl (λ x b, foldl f x (g b)) a l = foldl f a (mjoin (g <$> l)).
Proof.
  revert a. induction l as [|b l IH]; intros a; simpl; [done|].
  by rewrite foldl_app, IH.
Qed.

(** Adding one undirected edge [c - p] to a symmetric relation. *)
Lemma rtc_add_edge {A} (R S : relation A) (c p : A) :
  Symmetric R →
  (∀ x y, S x y ↔ R x y ∨ (x = c ∧ y = p) ∨ (x = p ∧ y = c)) →
  ∀ x y, rtc S x y ↔
    rtc R x y ∨ (rtc R x c ∧ rtc R p y) ∨ (rtc R x p ∧ rtc R c y).
Proof.
  intros Hsym HS x y. split.
  - induction 1 as [x|x z y Hxz H IH]; [left; apply rtc_refl|].
    apply HS in Hxz as [Hxz|[[-> ->]|[-> ->]]].
    + destruct IH as [IH|[[IH ?]|[IH ?]]]; eauto 6 using rtc_l.
    + destruct IH as [IH|[[IH ?]|[IH ?]]]; eauto 6 using rtc_refl.
    + destruct IH as [IH|[[IH ?]|[IH ?]]]; eauto 6 using rtc_refl.
  - assert (∀ u v, rtc R u v → rtc S u v) as Hsub.
    { intros u v. apply rtc_subrel. intros ??. rewrite HS. tauto. }
    intros [H|[[H1 H2]|[H1 H2]]]; [by auto|..].
    + transitivity c; [by auto|]. apply (rtc_l _ _ p); [|by auto]. rewrite HS. tauto.
    + transitivity p; [by auto|]. apply (rtc_l _ _ c); [|by auto]. rewrite HS. tauto.
Qed.

Lemma rtc_symmetric {A} (R : relation A) : Symmetric R → Symmetric (rtc R).
Proof.
  intros HR x y. induction 1 as [|x z y Hxz H IH]; [apply rtc_refl|].
  eapply rtc_r; [done|]. by apply HR.
Qed.

Lemma filter_none {A} (P : A → Prop) `{!∀ x, Decision (P x)} (l : list A) :
  (∀ x, x ∈ l → ¬ P x) → filter P l = [].
Proof.
  induction l as [|x l IH]; intros Hl; [done|]. rewrite filter_cons_False by (apply Hl; by left).
  apply IH. intros y Hy. apply Hl. by right.
Qed.

Lemma filter_all {A} (P : A → Prop) `{!∀ x, Decision (P x)} (l : list A) :
  (∀ x, x ∈ l → P x) → filter P l = l.
Proof.
  induction l as [|x l IH]; intros Hl; [done|]. rewrite filter_cons_True by (apply Hl; by left).
  f_equal. apply IH. intros y Hy. apply Hl. by right.
Qed.

Lemma filter_ext_elem {A} (P Q : A → Prop)
    `{!∀ x, Decision (P x), !∀ x, Decision (Q x)} (l : list A) :
  (∀ x, x ∈ l → P x ↔ Q x) → filter P l = filter Q l.
Proof.
  induction l as [|x l IH]; intros Hpq; [done|]. rewrite !filter_cons.
  rewrite IH by (intros y ?; apply Hpq; by right).
  by rewrite (decide_ext (P x) (Q x)) by (apply Hpq; by left).
Qed.

(** The predicate gains exactly one element of a duplicate-free list. *)
Lemma length_filter_gain {A} `{EqDecision A} (P Q : A → Prop)
    `{!∀ x, Decision (P x), !∀ x, Decision (Q x)} (l : list A) (a : A) :
  NoDup l → a ∈ l → ¬ P a → (∀ x, Q x ↔ P x ∨ x = a) →
  length (filter Q l) = S (length (filter P l)).
Proof.
  intros Hnd Ha HPa HQ. induction l as [|x l IH]; [by apply elem_of_nil in Ha|].
  apply NoDup_cons in Hnd as [Hx Hnd]. rewrite !filter_cons.
  destruct (decide (x = a)) as [->|Hne].
  - rewrite decide_True by (apply HQ; by right). rewrite decide_False by done. simpl.
    do 2 f_equal. apply filter_ext_elem. intros y Hy. rewrite HQ.
    split; [|by left]. intros [?| ->]; done.
  - apply elem_of_cons in Ha as [->|Ha]; [done|]. specialize (IH Hnd Ha).
    destruct (decide (P x)) as [HP|HP].
    + rewrite decide_True by (apply HQ; by left). simpl. by rewrite IH.
    + rewrite decide_False; [done|]. rewrite HQ. tauto.
Qed.

(** Position of the first occurrence. *)
Fixpoint pos {A} `{EqDecision A} (x : A) (l : list A) : nat :=
  match l with
  | [] => 0
  | y :: l => if decide (x = y) then 0 else S (pos x l)
  end.

Lemma pos_app_here {A} `{EqDecision A} (x : A) l k : x ∉ l → pos x (l ++ x :: k) = length l.
Proof.
  induction l as [|y l IH]; simpl; intros Hx.
  - by rewrite decide_True.
  - rewrite not_elem_of_cons in Hx. destruct Hx. rewrite decide_False by done. by rewrite IH.
Qed.

Lemma before_pos {A} `{EqDecision A} (x y : A) l : NoDup l → before x y l → pos x l < pos y l.
Proof.
  intros Hnd (l1 & l2 & l3 & ->). rewrite pos_app_here.
  2: { apply NoDup_app in Hnd as (_ & Hd & _). intros Hx. apply (Hd _ Hx). by left. }
  replace (l1 ++ x :: l2 ++ y :: l3) with ((l1 ++ x :: l2) ++ y :: l3) in *
    by by rewrite <-app_assoc.
  rewrite pos_app_here.
  2: { apply NoDup_app in Hnd as (_ & Hd & _). intros Hy. apply (Hd _ Hy). by left. }
  rewrite length_app. simpl. lia.
Qed.

(** ** Maps *)

Lemma lookup_filter_fst `{Countable K} {A} (P : K → Prop) `{!∀ k, Decision (P k)}
    (m : gmap K A) (k : K) :
  filter (λ '(k, _), P k) m !! k = if decide (P k) then m !! k else None.
Proof.
  case_decide as HP.
  - destruct (m !! k) as [x|] eqn:E.
    + by apply map_lookup_filter_Some.
    + apply map_lookup_filter_None. by left.
  - apply map_lookup_filter_None. right. by intros.
Qed.

Lemma lookup_union_r_if `{Countable K} {A} (m1 m2 : gmap K A) (k : K) :
  (m1 ∪ m2) !! k = match m1 !! k with Some x => Some x | None => m2 !! k end.
Proof. rewrite lookup_union. by destruct (m1 !! k), (m2 !! k). Qed.
