(* ===== verification/Text.v ===== *)
(** * Text as the Go standard library handles it

    The functions of [strings] and [strconv] the configuration and the pre-flight
    checks use, on byte strings. A byte above 127 is neither a space nor a letter here:
    the texts are type names and configuration values in ASCII. *)

From S2P Require Import Prelude.

Module Text.

Abbreviation text := (list ascii).

Definition txt (s : string) : text := String.list_ascii_of_string s.
Definition untxt (l : text) : string := String.string_of_list_ascii l.

Definition code (a : ascii) : N := N_of_ascii a.

(** [unicode.IsSpace] on ASCII *)
Definition is_space (a : ascii) : bool := ((9 <=? code a) && (code a <=? 13) || (code a =? 32))%N.

Definition is_digit (a : ascii) : bool := ((48 <=? code a) && (code a <=? 57))%N.

Definition lower_byte (a : ascii) : ascii :=
  if ((65 <=? code a) && (code a <=? 90))%N then ascii_of_N (code a + 32) else a.

(** [strings.ToLower] *)
Definition ToLower (l : text) : text := lower_byte <$> l.

(** The longest prefix of bytes in [p], and the rest. *)
Fixpoint span (p : ascii → bool) (l : text) : text * text :=
  match l with
  | [] => ([], [])
  | a :: r => if p a then let '(w, r') := span p r in (a :: w, r') else ([], l)
  end.

Definition trim_left (l : text) : text := (span is_space l).2.

(** [strings.TrimSpace] *)
Definition TrimSpace (l : text) : text := reverse (trim_left (reverse (trim_left l))).

(** [strings.Split] on one byte *)
Fixpoint split_on (c : ascii) (l : text) : list text :=
  match l with
  | [] => [[]]
  | a :: r =>
      if Ascii.eqb a c then [] :: split_on c r
      else match split_on c r with w :: ws => (a :: w) :: ws | [] => [[a]] end
  end.

(** [strings.Fields] *)
Definition Fields (l : text) : list text :=
  filter (λ w, w ≠ []) (split_on " " ((λ a, if is_space a then " "%char else a) <$> l)).

(** [strings.Join] *)
Fixpoint Join (ws : list text) (sep : text) : text :=
  match ws with
  | [] => []
  | [w] => w
  | w :: ws => w ++ sep ++ Join ws sep
  end.

(** [strings.HasPrefix], with what follows the prefix. *)
Fixpoint strip_prefix (pre l : text) : option text :=
  match pre, l with
  | [], _ => Some l
  | a :: pre, b :: l => if Ascii.eqb a b then strip_prefix pre l else None
  | _ :: _, [] => None
  end.

(** [strings.Index]: what precedes and follows the first occurrence. *)
Fixpoint cut (sep l : text) : option (text * text) :=
  match strip_prefix sep l with
  | Some r => Some ([], r)
  | None => match l with [] => None | a :: l' => (λ '(x, y), (a :: x, y)) <$> cut sep l' end
  end.

(** [strings.ReplaceAll] for a non-empty [old]; every step consumes a byte. *)
Fixpoint replace_loop (fuel : nat) (old new l : text) : text :=
  match fuel with
  | 0 => l
  | S fuel =>
      match strip_prefix old l with
      | Some r => new ++ replace_loop fuel old new r
      | None => match l with [] => [] | a :: l' => a :: replace_loop fuel old new l' end
      end
  end.

Definition ReplaceAll (old new l : text) : text := replace_loop (S (length l)) old new l.

Fixpoint digits_val (acc : Z) (l : text) : option Z :=
  match l with
  | [] => Some acc
  | a :: l => if is_digit a then digits_val (acc * 10 + (Z.of_N (code a) - 48)) l else None
  end.

(** [strconv.Atoi]: a signed decimal number of 64 bits. *)
Definition Atoi (l : text) : option Z :=
  let '(neg, l) := match l with
                   | a :: r => if Ascii.eqb a "-" then (true, r)
                               else if Ascii.eqb a "+" then (false, r) else (false, l)
                   | [] => (false, l)
                   end in
  match l with
  | [] => None
  | _ =>
      n ← digits_val 0 l;
      let z := if (neg : bool) then (- n)%Z else n in
      if decide (- 2 ^ 63 ≤ z < 2 ^ 63)%Z then Some z else None
  end.

(** [%d] of a number *)
Definition fmt_int (n : Z) : string := pretty n.

(** ** Lemmas *)

Lemma strip_prefix_spec (pre l r : text) : strip_prefix pre l = Some r ↔ l = pre ++ r.
Proof.
  revert l. induction pre as [|a pre IH]; intros [|b l]; simpl; [naive_solver..|].
  destruct (Ascii.eqb_spec a b) as [->|Hne]; [rewrite IH|]; naive_solver.
Qed.

Lemma strip_prefix_None (pre l : text) : strip_prefix pre l = None ↔ ∀ r, l ≠ pre ++ r.
Proof.
  destruct (strip_prefix pre l) as [r|] eqn:E.
  - apply strip_prefix_spec in E. naive_solver.
  - split; [|done]. intros _ r Hr. apply strip_prefix_spec in Hr. congruence.
Qed.

(** [sep] occurs in [l]. *)
Definition occurs (sep l : text) : Prop := ∃ x y, l = x ++ sep ++ y.

Lemma occurs_cons (sep l : text) (a : ascii) : occurs sep l → occurs sep (a :: l).
Proof. intros (x & y & ->). by exists (a :: x), y. Qed.

(** [replace_loop] does not depend on the fuel once it exceeds the length. *)
Lemma replace_loop_fuel (old new l : text) (n m : nat) :
  old ≠ [] → length l < n → length l < m → replace_loop n old new l = replace_loop m old new l.
Proof.
  intros Hold. revert l m. induction n as [|n IH]; intros l [|m] Hn Hm; [lia..|]. simpl.
  destruct (strip_prefix old l) as [r|] eqn:E.
  - apply strip_prefix_spec in E as ->. rewrite length_app in *.
    destruct old as [|a old]; [done|]. simpl in *. f_equal. apply IH; lia.
  - destruct l as [|a l]; [done|]. simpl in *. f_equal. apply IH; lia.
Qed.

Lemma ReplaceAll_cons (old new l : text) (a : ascii) :
  old ≠ [] → strip_prefix old (a :: l) = None →
  ReplaceAll old new (a :: l) = a :: ReplaceAll old new l.
Proof.
  intros Hold E. unfold ReplaceAll. cbn [replace_loop length]. rewrite E. f_equal.
Qed.

Lemma ReplaceAll_app (old new r : text) :
  old ≠ [] → ReplaceAll old new (old ++ r) = new ++ ReplaceAll old new r.
Proof.
  intros Hold. unfold ReplaceAll at 1. cbn [replace_loop].
  rewrite (proj2 (strip_prefix_spec old (old ++ r) r)) by done. f_equal.
  apply replace_loop_fuel; [done| |lia]. rewrite length_app. destruct old; [done|]. simpl. lia.
Qed.

Lemma ReplaceAll_nil (old new : text) : old ≠ [] → ReplaceAll old new [] = [].
Proof. intros ?. unfold ReplaceAll. simpl. by destruct old. Qed.

(** A text the pattern does not occur in is unchanged. *)
Lemma ReplaceAll_absent (old new l : text) : old ≠ [] → ¬ occurs old l → ReplaceAll old new l = l.
Proof.
  intros Hold. induction l as [|a l IH]; intros Hno; [by apply ReplaceAll_nil|].
  rewrite ReplaceAll_cons; [|done|].
  - rewrite IH; [done|]. intros Ho. by apply Hno, occurs_cons.
  - apply strip_prefix_None. intros r Hr. apply Hno. by exists [], r.
Qed.

Lemma txt_untxt (l : text) : txt (untxt l) = l.
Proof. apply String.list_ascii_of_string_of_list_ascii. Qed.

Lemma untxt_txt (s : string) : untxt (txt s) = s.
Proof. apply String.string_of_list_ascii_of_string. Qed.
End Text.
