(* ===== verification/Engine.v ===== *)
(** * The engine-neutral vocabulary ([internal/engine])

    The types every part of the pipeline is written against: table
    references, introspected tables, keys, deltas, chunks, retention policies,
    errors and pre-flight reports ([types.go], [engine.go], [preflight.go],
    [registry.go]), with the operations those files define on them. *)

From S2P Require Import Prelude.

(** ** Names ([types.go]) *)

Record TableRef := mkRef { Schema : string; Name : string }.

#[global] Instance TableRef_eq_dec : EqDecision TableRef.
Proof. solve_decision. Defined.
#[global] Instance TableRef_countable : Countable TableRef.
Proof.
  apply (inj_countable' (λ t, (Schema t, Name t)) (λ p, mkRef p.1 p.2)).
  by intros [].
Defined.

(** The zero value of the struct, which a Go map returns for an absent key. *)
Definition zeroRef : TableRef := mkRef "" "".

(** [TableRef.String] *)
Definition ref_string (t : TableRef) : string :=
  if decide (Schema t = "") then Name t
  else (Schema t +:+ "." +:+ Name t)%string.

Definition TargetID := string.
Definition DeltaID := Z.

(** ** Keys: [KeyValues] is a slice of [any]; the values that occur are text
    (the faithful key form), SQL NULL, and a block number for ctid chunks. *)

Inductive Value :=
| VText (s : string)
| VNull
| VInt (n : Z).

#[global] Instance Value_eq_dec : EqDecision Value.
Proof. solve_decision. Defined.
#[global] Instance Value_countable : Countable Value.
Proof.
  apply (inj_countable'
    (λ v, match v with VText s => inl (inl s) | VNull => inl (inr tt) | VInt n => inr n end)
    (λ x, match x with inl (inl s) => VText s | inl (inr _) => VNull | inr n => VInt n end)).
  by intros [].
Defined.

Definition KeyValues := list Value.

(** A row's non-key columns: a column that is absent from the map is NULL. *)
Abbreviation Row := (gmap string string).

(** ** Introspected schema ([types.go]) *)

Record Column := mkColumn {
  col_Name : string;
  col_DataType : string;
  col_Nullable : bool;
  col_Generated : bool;
  col_Identity : bool;
  col_DefaultSequence : bool;
  col_AutoUpdate : bool;
  col_Charset : string
}.

Record Key := mkKey {
  key_Name : string;
  key_Columns : list string;
  key_IsPrimary : bool
}.

Record ForeignKey := mkFK {
  fk_Name : string;
  fk_Child : TableRef;
  fk_ChildCols : list string;
  fk_Parent : TableRef;
  fk_ParentCols : list string;
  fk_Deferrable : bool
}.

Record Table := mkTable {
  tbl_Ref : TableRef;
  tbl_Columns : list Column;
  tbl_PrimaryKey : option Key;
  tbl_UniqueKeys : list Key;
  tbl_ForeignKeys : list ForeignKey;
  tbl_Partitioned : bool;
  tbl_StorageEngine : string
}.

#[global] Instance ForeignKey_eq_dec : EqDecision ForeignKey.
Proof. solve_decision. Defined.
#[global] Instance Column_eq_dec : EqDecision Column.
Proof. solve_decision. Defined.

(** [Table.HasUsableKey] *)
Definition HasUsableKey (t : Table) : bool :=
  match tbl_PrimaryKey t with
  | Some _ => true
  | None => negb (Nat.eqb (length (tbl_UniqueKeys t)) 0)
  end.

(** [subtractCols] *)
Definition subtractCols (cols remove : list string) : list string :=
  filter (λ c, c ∉ remove) cols.

Record Selection := mkSelection {
  sel_Include : list string;
  sel_Exclude : list string
}.

(** ** Errors ([engine.go])

    [Errorf m e] is [fmt.Errorf("m: %w", e)], which keeps [e] in the unwrap
    chain; [Failure m] is an error with nothing below it; [Canceled] is the
    context's own error; [PgError code m] is the server's, with its SQLSTATE, and
    [MyError n m] that of a MySQL server, with its number. *)
Inductive error :=
| TransientConstraintError (e : error)
| Errorf (msg : string) (e : error)
| Failure (msg : string)
| Canceled
| PgError (code msg : string)
| MyError (num : Z) (msg : string).

(** The [Error] method. *)
Fixpoint Error (e : error) : string :=
  match e with
  | TransientConstraintError e => Error e
  | Errorf msg e => msg +:+ ": " +:+ Error e
  | Failure msg => msg
  | Canceled => "context canceled"
  | PgError code msg => msg +:+ " (SQLSTATE " +:+ code +:+ ")"
  | MyError num msg => "Error " +:+ pretty num +:+ ": " +:+ msg
  end.

(** [IsTransientConstraint]: [errors.As] walks the unwrap chain. *)
Fixpoint IsTransientConstraint (e : error) : bool :=
  match e with
  | TransientConstraintError _ => true
  | Errorf _ e => IsTransientConstraint e
  | Failure _ | Canceled | PgError _ _ | MyError _ _ => false
  end.

(** A Go pair [(v, err)] whose value is meaningless when [err] is not nil. *)
Abbreviation result A := (error + A)%type.

(** ** Copy, deltas, retention ([engine.go]) *)

Inductive ChunkMethod := ChunkKeyset | ChunkCTID.

Record Chunk := mkChunk {
  chunk_Table : TableRef;
  chunk_Method : ChunkMethod;
  chunk_Lo : option KeyValues;  (** inclusive lower bound, [None] = unbounded *)
  chunk_Hi : option KeyValues   (** exclusive upper bound, [None] = unbounded *)
}.

Record ChunkOptions := mkChunkOptions {
  opt_Method : option ChunkMethod;
  opt_TargetRows : Z;
  opt_Lo : option KeyValues
}.

Inductive Op := OpInsert | OpUpdate | OpDelete.

Record DirtyKey := mkDirty {
  dk_DeltaID : DeltaID;
  dk_Op : Op;
  dk_Key : KeyValues
}.

Inductive LoadMode := LoadDirect | LoadMerge.

#[global] Instance ChunkMethod_eq_dec : EqDecision ChunkMethod.
Proof. solve_decision. Defined.
#[global] Instance Op_eq_dec : EqDecision Op.
Proof. solve_decision. Defined.
#[global] Instance LoadMode_eq_dec : EqDecision LoadMode.
Proof. solve_decision. Defined.
#[global] Instance DirtyKey_eq_dec : EqDecision DirtyKey.
Proof. solve_decision. Defined.

Record RetentionPolicy := mkRetention {
  MaxAgeSeconds : Z;  (** 0 = unbounded by age *)
  MaxBytes : Z        (** 0 = unbounded by size *)
}.

Record PurgeStats := mkPurgeStats {
  DeltasPurged : Z;
  TargetsReseeded : list TargetID
}.

Record DeltaBacklog := mkBacklog {
  bl_Rows : Z;
  bl_Bytes : Z;
  bl_OldestAge : Z;      (** nanoseconds, as [time.Duration] *)
  bl_HasBacklog : bool
}.

(** ** Pre-flight reports ([preflight.go]) *)

Inductive Severity := SevInfo | SevWarn | SevBlock.

#[global] Instance Severity_eq_dec : EqDecision Severity.
Proof. solve_decision. Defined.

Record Finding := mkFinding {
  fnd_Severity : Severity;
  fnd_Table : TableRef;
  fnd_Category : string;
  fnd_Message : string
}.

Record Component := mkComponent {
  comp_Tables : list TableRef;
  comp_Order : list TableRef;
  comp_Cyclic : list TableRef
}.

(** [Component.HasCycle] *)
Definition HasCycle (c : Component) : bool := negb (Nat.eqb (length (comp_Cyclic c)) 0).

(** [PreflightReport.Blocked] over the report's findings *)
Fixpoint Blocked (fs : list Finding) : bool :=
  match fs with
  | [] => false
  | f :: fs => if decide (fnd_Severity f = SevBlock) then true else Blocked fs
  end.

(** [PreflightReport.Counts]: findings at each severity *)
Fixpoint Counts (fs : list Finding) : nat * nat * nat :=
  match fs with
  | [] => (0, 0, 0)
  | f :: fs =>
      let '(info, warn, block) := Counts fs in
      match fnd_Severity f with
      | SevInfo => (S info, warn, block)
      | SevWarn => (info, S warn, block)
      | SevBlock => (info, warn, S block)
      end
  end.

(** ** Lemmas *)

Lemma IsTransient_Errorf msg e :
  IsTransientConstraint (Errorf msg e) = IsTransientConstraint e.
Proof. done. Qed.

Lemma HasCycle_false c : HasCycle c = false ↔ comp_Cyclic c = [].
Proof. unfold HasCycle. destruct (comp_Cyclic c); simpl; naive_solver. Qed.

Lemma Blocked_Exists fs :
  Blocked fs = true ↔ Exists (λ f, fnd_Severity f = SevBlock) fs.
Proof.
  induction fs as [|f fs IH]; simpl.
  - split; [done|]. by intros ?%Exists_nil.
  - rewrite Exists_cons, <-IH. case_decide; naive_solver.
Qed.
