(* ===== verification/PgTypes.v ===== *)
(** * Type compatibility of the Postgres engine ([internal/engine/postgres/typecompat.go])

    Pre-flight classifies every pair of a source and a target column type before a sync
    may start. [holds] says which values a column of a type can store, as the Postgres
    documentation defines the types, and is what the classification is judged by: a pair
    classified as identical or widening should lose no value. NULL and computed columns are a
    matter of the column and judged in [PgPreflight] ([contains], [stores]). *)

From S2P Require Import Prelude Text Engine.
Import Text.

Module PgTypes.

(** ** Levels *)

Inductive CompatLevel := CompatIdentical | CompatWiden | CompatRisky | CompatIncompatible.

#[global] Instance CompatLevel_eq_dec : EqDecision CompatLevel.
Proof. solve_decision. Defined.

Definition level_OK (l : CompatLevel) : bool :=
  match l with CompatIdentical | CompatWiden => true | _ => false end.

Definition level_Blocks (l : CompatLevel) : bool := bool_decide (l = CompatIncompatible).

(** ** Parsing of type names *)

Inductive fam :=
| famInt | famDecimal | famFloat | famText | famBool | famUUID | famDate | famTimestamp | famTimestampTZ
| famTime | famTimeTZ | famJSON | famJSONB | famBytea | famInterval | famOther.

#[global] Instance fam_eq_dec : EqDecision fam.
Proof. solve_decision. Defined.

(** The constants' values. *)
Definition fam_name (f : fam) : string :=
  match f with
  | famInt => "integer" | famDecimal => "numeric" | famFloat => "float" | famText => "text"
  | famBool => "boolean" | famUUID => "uuid" | famDate => "date" | famTimestamp => "timestamp"
  | famTimestampTZ => "timestamptz" | famTime => "time" | famTimeTZ => "timetz" | famJSON => "json"
  | famJSONB => "jsonb" | famBytea => "bytea" | famInterval => "interval" | famOther => "other"
  end.

Record pgType := mkPgType { base : string; mods : list Z }.

(** [\s] of the regular expression *)
Definition re_space (a : ascii) : bool :=
  (code a =? 9)%N || (code a =? 10)%N || (code a =? 12)%N || (code a =? 13)%N || (code a =? 32)%N.

(** The expression's group [[0-9]+(?:\s*,\s*[0-9]+)*] followed by [\s*\)]: the text of the group
    and what follows the parenthesis. The classes of neighbouring parts are disjoint, so
    the greedy choice is the only one that can match. *)
Fixpoint mod_group (fuel : nat) (l : text) : option (text * text) :=
  match fuel with
  | 0 => None
  | S fuel =>
      let '(d, r) := span is_digit l in
      match d with
      | [] => None
      | _ =>
          let '(w, r1) := span re_space r in
          match r1 with
          | a :: r2 =>
              if Ascii.eqb a ")" then Some (d, r2)
              else if Ascii.eqb a "," then
                let '(w', r3) := span re_space r2 in
                '(g, rest) ← mod_group fuel r3;
                Some (d ++ w ++ (","%char :: w' ++ g), rest)
              else None
          | [] => None
          end
      end
  end.

(** [typeModRE] at the start of [l]. *)
Definition mod_match (l : text) : option (text * text) :=
  match l with
  | a :: r => if Ascii.eqb a "(" then mod_group (length l) (span re_space r).2 else None
  | [] => None
  end.

(** [FindStringSubmatch]: the group of the leftmost match. *)
Fixpoint mod_find (l : text) : option text :=
  match mod_match l with
  | Some (g, _) => Some g
  | None => match l with [] => None | _ :: r => mod_find r end
  end.

(** [ReplaceAllString] with the empty string; every step consumes a byte. *)
Fixpoint mod_remove (fuel : nat) (l : text) : text :=
  match fuel with
  | 0 => l
  | S fuel =>
      match mod_match l with
      | Some (_, rest) => mod_remove fuel rest
      | None => match l with [] => [] | a :: r => a :: mod_remove fuel r end
      end
  end.

Definition parseType (s : string) : pgType :=
  let l := ToLower (TrimSpace (txt s)) in
  let mods := match mod_find l with
              | Some g => omap (λ part, Atoi (TrimSpace part)) (split_on "," g)
              | None => []
              end in
  let b := TrimSpace (mod_remove (S (length l)) l) in
  mkPgType (untxt (Join (Fields b) (txt " "))) mods.

Definition hasMods (p : pgType) : bool := negb (bool_decide (mods p = [])).

Definition firstMod (p : pgType) (d : Z) : Z := match mods p with n :: _ => n | [] => d end.

Definition quote_char : string := String "034" "char" +:+ String "034" "".

(** The cases of [family], in order. *)
Definition families : list (list string * fam) :=
  [(["smallint"; "int2"; "integer"; "int"; "int4"; "bigint"; "int8"], famInt);
   (["numeric"; "decimal"], famDecimal);
   (["real"; "float4"; "double precision"; "float8"], famFloat);
   (["text"; "character varying"; "varchar"; "character"; "char"; "bpchar"; quote_char], famText);
   (["boolean"; "bool"], famBool);
   (["uuid"], famUUID);
   (["date"], famDate);
   (["timestamp without time zone"; "timestamp"], famTimestamp);
   (["timestamp with time zone"; "timestamptz"], famTimestampTZ);
   (["time without time zone"; "time"], famTime);
   (["time with time zone"; "timetz"], famTimeTZ);
   (["json"], famJSON);
   (["jsonb"], famJSONB);
   (["bytea"], famBytea);
   (["interval"], famInterval)].

(** A [switch] on the base name: the value of the first case that lists it. *)
Fixpoint switch {A} (cases : list (list string * A)) (d : A) (b : string) : A :=
  match cases with
  | [] => d
  | (names, v) :: cases => if decide (b ∈ names) then v else switch cases d b
  end.

Definition family (p : pgType) : fam := switch families famOther (base p).

Definition intWidth (p : pgType) : Z :=
  switch [(["smallint"; "int2"], 16%Z); (["integer"; "int"; "int4"], 32%Z); (["bigint"; "int8"], 64%Z)] 0%Z
    (base p).

Definition floatWidth (p : pgType) : Z :=
  switch [(["real"; "float4"], 32%Z); (["double precision"; "float8"], 64%Z)] 0%Z (base p).

Definition textLimit (p : pgType) : Z :=
  switch [(["text"], (-1)%Z);
          (["character varying"; "varchar"], firstMod p (-1));
          (["character"; "char"; "bpchar"], firstMod p 1)] (-1)%Z (base p).

Definition numericPrecisionScale (p : pgType) : Z * Z :=
  match mods p with
  | [] => (0, 0)%Z
  | [pr] => (pr, 0)%Z
  | pr :: sc :: _ => (pr, sc)
  end.

Definition numericHoldsIntegers (p : pgType) : bool :=
  if hasMods p then
    let '(prec, scale) := numericPrecisionScale p in bool_decide (scale = 0%Z) && bool_decide (prec >= 19)%Z
  else true.

(** ** Classification *)

Definition widenOrRisky (ok : bool) : CompatLevel := if ok then CompatWiden else CompatRisky.

Definition classifyToText (s t : pgType) : CompatLevel * string :=
  let limit := textLimit t in
  if decide (limit < 0)%Z then (CompatWiden, "target holds any value as text")
  else if decide (family s = famText ∧ (0 ≤ textLimit s)%Z ∧ (textLimit s ≤ limit)%Z)
  then (CompatWiden, "target text length accommodates source")
  else (CompatRisky, "target length " +:+ fmt_int limit +:+ " may truncate the source value").

Definition classifyNumeric (s t : pgType) : CompatLevel * string :=
  if negb (hasMods t) then (CompatWiden, "unconstrained numeric target")
  else if negb (hasMods s) then (CompatRisky, "constraining an unconstrained numeric may overflow")
  else
    let '(sp, ss) := numericPrecisionScale s in
    let '(tp, ts) := numericPrecisionScale t in
    if decide (tp >= sp ∧ ts >= ss)%Z then (CompatWiden, "wider or equal numeric precision/scale")
    else (CompatRisky, "narrower numeric precision/scale may lose data").

Definition classifyPrecision (s t : pgType) : CompatLevel * string :=
  if decide (firstMod t 6 >= firstMod s 6)%Z then (CompatWiden, "equal or higher temporal precision")
  else (CompatRisky, "lower temporal precision truncates fractional seconds").

Definition unrecognized : string :=
  "unrecognized type pair; verify the target accepts the source text form".

Definition classifySameFamily (f : fam) (s t : pgType) : CompatLevel * string :=
  match f with
  | famInt =>
      if decide (intWidth t >= intWidth s)%Z then (CompatWiden, "wider or equal integer")
      else (CompatRisky, "narrower integer may overflow")
  | famDecimal => classifyNumeric s t
  | famFloat =>
      if decide (floatWidth t >= floatWidth s)%Z then (CompatWiden, "wider or equal float")
      else (CompatRisky, "narrower float loses precision")
  | famTimestamp | famTimestampTZ | famTime | famTimeTZ => classifyPrecision s t
  | famOther => (CompatRisky, unrecognized)
  | _ => (CompatWiden, "same type family")
  end.

(** The table of rules. *)
Definition cross_rule (sf tf : fam) (t : pgType) : option (CompatLevel * string) :=
  match sf, tf with
  | famInt, famDecimal => Some (widenOrRisky (numericHoldsIntegers t), "integer into numeric")
  | famInt, famFloat => Some (CompatRisky, "large integers lose precision as float")
  | famDecimal, famInt => Some (CompatRisky, "numeric into integer loses the fractional part")
  | famDecimal, famFloat => Some (CompatRisky, "numeric into float may lose precision")
  | famFloat, famDecimal => Some (CompatRisky, "float into numeric may lose precision")
  | famFloat, famInt => Some (CompatRisky, "float into integer loses the fractional part")
  | famDate, famTimestamp => Some (CompatWiden, "date widens to timestamp")
  | famDate, famTimestampTZ => Some (CompatRisky, "date into timestamptz assumes a time zone")
  | famTimestamp, famTimestampTZ => Some (CompatRisky, "timestamp into timestamptz reinterprets the wall clock")
  | famTimestampTZ, famTimestamp => Some (CompatRisky, "timestamptz into timestamp drops the zone")
  | famTimestamp, famDate => Some (CompatRisky, "timestamp into date drops the time")
  | famTimestampTZ, famDate => Some (CompatRisky, "timestamptz into date drops the time")
  | famTime, famTimeTZ => Some (CompatRisky, "time into timetz assumes a zone")
  | famTimeTZ, famTime => Some (CompatRisky, "timetz into time drops the zone")
  | famJSON, famJSONB => Some (CompatWiden, "json into jsonb")
  | famJSONB, famJSON => Some (CompatWiden, "jsonb into json")
  | _, _ => None
  end.

Definition classifyCrossFamily (sf tf : fam) (s t : pgType) : CompatLevel * string :=
  match cross_rule sf tf t with
  | Some r => r
  | None =>
      if decide (sf = famOther ∨ tf = famOther) then (CompatRisky, unrecognized)
      else (CompatIncompatible, fam_name sf +:+ " and " +:+ fam_name tf +:+ " are not compatible")
  end.

Definition classifyTypes (srcType tgtType : string) : CompatLevel * string :=
  if decide (srcType = tgtType) then (CompatIdentical, "")
  else
    let s := parseType srcType in
    let t := parseType tgtType in
    let sf := family s in
    let tf := family t in
    if decide (tf = famText) then classifyToText s t
    else if decide (sf = tf) then classifySameFamily sf s t
    else classifyCrossFamily sf tf s t.
(** ** What a column can store

    Values as Postgres documents its types: numbers [m / 10^s], binary floats [m * 2^e],
    character strings, days and microseconds since 2000-01-01; [VAtom f] stands for the
    values of a family with one form. *)
Inductive value :=
| VNumber (m : Z) (s : nat)
| VFloat (m e : Z)
| VString (chars : text)
| VDate (days : Z)
| VTimestamp (us : Z)
| VTimestampTZ (us : Z)
| VTime (us : Z)
| VTimeTZ (us zone : Z)
| VInterval (us : Z)
| VAtom (f : fam).

(** The number [m / 10^s] is [k / 10^sc]; a negative scale counts powers of ten. *)
Definition scaled (m : Z) (s : nat) (k sc : Z) : Prop :=
  (m * 10 ^ Z.max sc 0 = k * 10 ^ Z.of_nat s * 10 ^ Z.max (- sc) 0)%Z.

(** Microseconds with the digits a precision keeps. *)
Definition on_tick (p : pgType) (us : Z) : Prop := (10 ^ (6 - Z.min (firstMod p 6) 6) | us)%Z.

Definition day_us : Z := 86400000000.

(** 4713 BC to 294276 AD *)
Definition in_timestamp_range (us : Z) : Prop := (-211813488000000000 ≤ us < 9223371331200000000)%Z.

(** 4713 BC to 5874897 AD *)
Definition in_date_range (d : Z) : Prop := (-2451545 ≤ d < 2145031949)%Z.

(** The number of characters a string type stores, [None] without a limit; the internal
    type with the quoted name stores one byte, and a bare bpchar is unlimited. *)
Definition char_limit (p : pgType) : option Z :=
  switch [([quote_char], Some 1%Z);
          (["character varying"; "varchar"; "bpchar"], head (mods p));
          (["character"; "char"], Some (firstMod p 1))] None (base p).

(** A column of type [p] accepts [v] and keeps it: no overflow, rounding or truncation.
    Blank padding is not counted as a loss; a value of another family is stored in a
    string column by its text form, which fits when there is no limit. *)
Definition holds (p : pgType) (v : value) : Prop :=
  match family p, v with
  | famInt, VNumber m s =>
      ∃ z, scaled m s z 0 ∧ (- 2 ^ (intWidth p - 1) ≤ z < 2 ^ (intWidth p - 1))%Z
  | famDecimal, VNumber m s =>
      mods p = [] ∨
      let '(prec, scale) := numericPrecisionScale p in ∃ k, scaled m s k scale ∧ (Z.abs k < 10 ^ prec)%Z
  | famFloat, VFloat m e =>
      if decide (floatWidth p = 32%Z) then (Z.abs m < 2 ^ 24 ∧ -149 ≤ e ≤ 104)%Z
      else (Z.abs m < 2 ^ 53 ∧ -1074 ≤ e ≤ 971)%Z
  | famText, VString l => match char_limit p with Some n => (Z.of_nat (length l) ≤ n)%Z | None => True end
  | famText, _ => char_limit p = None
  | famDate, VDate d => in_date_range d
  | famTimestamp, VDate d => in_timestamp_range (d * day_us)
  | famTimestamp, VTimestamp us => on_tick p us ∧ in_timestamp_range us
  | famTimestampTZ, VTimestampTZ us => on_tick p us ∧ in_timestamp_range us
  | famTime, VTime us => on_tick p us ∧ (0 ≤ us ≤ day_us)%Z
  | famTimeTZ, VTimeTZ us zone => on_tick p us ∧ (0 ≤ us ≤ day_us)%Z ∧ (-57599 ≤ zone ≤ 57599)%Z
  | famInterval, VInterval us => on_tick p us
  | (famBool | famUUID | famJSON | famJSONB | famBytea | famOther) as f, VAtom g => f = g
  | _, _ => False
  end.

(** The pairs the classification calls widening although values can be lost: fewer
    digits before the decimal point, the one-byte string type as a target, an unlimited
    bpchar into a limited string, intervals of any precision, and a date beyond the range
    of timestamps. Documents (json, jsonb) are not judged. *)
Definition overlooked (s t : pgType) : bool :=
  match family s, family t with
  | famDecimal, famDecimal =>
      let '(sp, ss) := numericPrecisionScale s in
      let '(tp, ts) := numericPrecisionScale t in
      hasMods s && hasMods t && bool_decide (tp - ts < sp - ss)%Z
  | famInterval, famInterval => bool_decide (firstMod t 6 < firstMod s 6)%Z
  | famDate, famTimestamp => true
  | famJSON, famJSONB | famJSONB, famJSON => true
  | _, famText => bool_decide (base t = quote_char) ||
                  (bool_decide (base s = "bpchar") && negb (hasMods s) && bool_decide (char_limit t ≠ None))
  | _, _ => false
  end.

(** ** Soundness *)

(** A switch over names: the value is the default or one of the cases, whose names include
    the name. *)
Lemma switch_case {A} (cases : list (list string * A)) (d : A) (b : string) :
  (switch cases d b = d ∧ Forall (λ c, b ∉ c.1) cases) ∨
  ∃ c, c ∈ cases ∧ b ∈ c.1 ∧ switch cases d b = c.2.
Proof.
  induction cases as [|[names v] cases IH]; [by left|]. simpl. case_decide as Hb.
  - right. exists (names, v). split_and!; [by left|done|done].
  - destruct IH as [[-> HF]|(c & Hc & Hin & ->)].
    + left. split; [done|]. by constructor.
    + right. exists c. split_and!; [by right|done|done].
Qed.

(** The base names of a family. *)
Lemma family_names (p : pgType) (f : fam) :
  family p = f → f ≠ famOther → ∃ names, (names, f) ∈ families ∧ base p ∈ names.
Proof.
  intros Hf Hne. destruct (switch_case families famOther (base p)) as [[H _]|([names g] & Hc & Hin & H)].
  - unfold family in Hf. congruence.
  - exists names. unfold family in Hf. simpl in *. split; [|done]. congruence.
Qed.

(** Case analysis on the base name of a type of a known family. *)
Ltac base_cases H Hb :=
  let Hc := fresh "Hc" in
  destruct (family_names _ _ H ltac:(done)) as (? & Hc & Hb);
  unfold families in Hc;
  repeat (apply elem_of_cons in Hc as [Hc|Hc]; [try discriminate Hc; injection Hc as ->|]);
  try (by apply elem_of_nil in Hc);
  repeat (apply elem_of_cons in Hb as [Hb|Hb]); try (by apply elem_of_nil in Hb).

Lemma scaled_up (m : Z) (s : nat) (k sc sc' : Z) :
  (sc ≤ sc')%Z → scaled m s k sc → scaled m s (k * 10 ^ (sc' - sc)) sc'.
Proof.
  intros Hle Hs. unfold scaled in *.
  assert (10 ^ Z.max sc' 0 * 10 ^ Z.max (- sc) 0 =
          10 ^ (sc' - sc) * 10 ^ Z.max (- sc') 0 * 10 ^ Z.max sc 0)%Z as Hp.
  { rewrite <-!Z.pow_add_r by lia. f_equal. lia. }
  assert (0 < 10 ^ Z.max sc 0)%Z as Hpos by (apply Z.pow_pos_nonneg; lia).
  assert (0 < 10 ^ Z.max (- sc) 0)%Z as Hneg by (apply Z.pow_pos_nonneg; lia).
  apply (Z.mul_reg_r _ _ (10 ^ Z.max sc 0)); [lia|].
  transitivity (m * 10 ^ Z.max sc 0 * 10 ^ Z.max sc' 0)%Z; [ring|]. rewrite Hs.
  transitivity (k * 10 ^ Z.of_nat s * (10 ^ Z.max sc' 0 * 10 ^ Z.max (- sc) 0))%Z; [ring|].
  rewrite Hp. ring.
Qed.

Lemma on_tick_finer (s t : pgType) (us : Z) :
  (firstMod t 6 >= firstMod s 6)%Z → on_tick s us → on_tick t us.
Proof.
  unfold on_tick. intros Hge. apply Z.divide_trans.
  exists (10 ^ (Z.min (firstMod t 6) 6 - Z.min (firstMod s 6) 6))%Z.
  rewrite <-Z.pow_add_r by lia. f_equal. lia.
Qed.

Lemma numeric_sound (s t : pgType) (v : value) :
  family s = famDecimal → family t = famDecimal → overlooked s t = false →
  level_OK (classifyNumeric s t).1 = true → holds s v → holds t v.
Proof.
  unfold overlooked, holds, classifyNumeric. intros -> -> Ho Hl.
  destruct (hasMods t) eqn:Ht; simpl in Hl.
  2: { destruct v; try done. intros _. left. unfold hasMods in Ht.
       by apply negb_false_iff, bool_decide_eq_true in Ht. }
  destruct (hasMods s) eqn:Hs; simpl in Hl; [|done].
  destruct (numericPrecisionScale s) as [sp ss] eqn:Es, (numericPrecisionScale t) as [tp ts] eqn:Et.
  simpl in Ho. case_decide as Hd; [|done]. apply bool_decide_eq_false in Ho.
  destruct v as [m n| | | | | | | | |]; try done.
  intros [Hm|(k & Hk & Hb)].
  { unfold hasMods in Hs. by rewrite bool_decide_true in Hs. }
  right. exists (k * 10 ^ (ts - ss))%Z. split; [apply scaled_up; [lia|done]|].
  assert (0 ≤ sp)%Z. { destruct (decide (0 ≤ sp)%Z); [done|]. rewrite Z.pow_neg_r in Hb; lia. }
  rewrite Z.abs_mul, (Z.abs_eq (10 ^ _)) by (apply Z.pow_nonneg; lia).
  apply (Z.lt_le_trans _ (10 ^ sp * 10 ^ (ts - ss))).
  - apply Zmult_lt_compat_r; [apply Z.pow_pos_nonneg; lia|done].
  - rewrite <-Z.pow_add_r by lia. apply Z.pow_le_mono_r; lia.
Qed.

Lemma int_sound (s t : pgType) (v : value) :
  family s = famInt → family t = famInt → (intWidth t >= intWidth s)%Z → holds s v → holds t v.
Proof.
  unfold holds. intros Hs -> Hw. rewrite Hs. destruct v; try done. intros (z & Hz & Hb).
  exists z. split; [done|].
  assert (1 ≤ intWidth s)%Z by (base_cases Hs Hn; unfold intWidth; rewrite Hn; vm_compute; done).
  assert (2 ^ (intWidth s - 1) ≤ 2 ^ (intWidth t - 1))%Z by (apply Z.pow_le_mono_r; lia). lia.
Qed.
Lemma float_sound (s t : pgType) (v : value) :
  family s = famFloat → family t = famFloat → (floatWidth t >= floatWidth s)%Z → holds s v → holds t v.
Proof.
  unfold holds. intros Hs Ht Hw. rewrite Hs, Ht. destruct v; try done.
  destruct (decide (floatWidth s = 32%Z)), (decide (floatWidth t = 32%Z)) as [|Hne]; try done; [intros; lia|].
  exfalso. base_cases Hs Hn; unfold floatWidth in *; rewrite Hn in *; simpl in *; lia.
Qed.

(** *** Modifiers are not negative *)

Lemma span_app (p : ascii → bool) (l w r : text) : span p l = (w, r) → l = w ++ r ∧ Forall (λ a, p a = true) w.
Proof.
  revert w r. induction l as [|a l IH]; intros w r; simpl; [naive_solver|].
  destruct (p a) eqn:Ha; [|naive_solver]. destruct (span p l) as [w' r'].
  intros [= <- <-]. destruct (IH w' r' eq_refl) as [-> HF]. split; [done|]. by constructor.
Qed.

Definition minus : ascii := "-".

Lemma no_minus (p : ascii → bool) (w : text) : p minus = false → Forall (λ a, p a = true) w → minus ∉ w.
Proof. intros Hp HF Hin. rewrite Forall_forall in HF. apply HF in Hin. congruence. Qed.

Lemma mod_group_no_minus (fuel : nat) (l g rest : text) : mod_group fuel l = Some (g, rest) → minus ∉ g.
Proof.
  revert l g rest. induction fuel as [|fuel IH]; intros l g rest; simpl; [done|].
  destruct (span is_digit l) as [d r] eqn:Ed. apply span_app in Ed as [_ Hd].
  apply (no_minus is_digit) in Hd; [|done].
  destruct d as [|d0 d]; [done|]. destruct (span re_space r) as [w r1] eqn:Ew.
  apply span_app in Ew as [_ Hw]. apply (no_minus re_space) in Hw; [|done].
  destruct r1 as [|a r2]; [done|]. destruct (Ascii.eqb a ")"); [naive_solver|].
  destruct (Ascii.eqb a ","); [|done]. destruct (span re_space r2) as [w' r3] eqn:Ew'.
  apply span_app in Ew' as [_ Hw']. apply (no_minus re_space) in Hw'; [|done].
  destruct (mod_group fuel r3) as [[g' rest']|] eqn:Eg; simpl; [|done]. intros [= <- <-].
  apply IH in Eg. change (minus ∉ ((d0 :: d) ++ w ++ (","%char :: w' ++ g'))).
  intros [?|[?|[[=]|[?|?]%elem_of_app]%elem_of_cons]%elem_of_app]%elem_of_app; done.
Qed.

Lemma mod_find_no_minus (l g : text) : mod_find l = Some g → minus ∉ g.
Proof.
  assert (∀ l g r, mod_match l = Some (g, r) → minus ∉ g) as Hm.
  { intros l' g' r'. unfold mod_match. destruct l' as [|a l']; [done|].
    destruct (Ascii.eqb a "("); [|done]. apply mod_group_no_minus. }
  induction l as [|a l IH]; cbn [mod_find]; [done|].
  destruct (mod_match (a :: l)) as [[g' r']|] eqn:E; [|done]. intros [= <-]. by eapply Hm.
Qed.

Lemma split_on_elem (c a : ascii) (l w : text) : w ∈ split_on c l → a ∈ w → a ∈ l.
Proof.
  revert w. induction l as [|b l IH]; intros w; simpl.
  { intros ->%list_elem_of_singleton. done. }
  destruct (Ascii.eqb b c).
  { intros [->|Hw]%elem_of_cons; [by intros ?%elem_of_nil|]. intros Ha. right. by apply (IH w). }
  destruct (split_on c l) as [|w0 ws].
  { intros ->%list_elem_of_singleton. intros ->%list_elem_of_singleton. by left. }
  intros [->|Hw]%elem_of_cons Ha.
  - apply elem_of_cons in Ha as [->|Ha]; [by left|]. right. apply (IH w0); [by left|done].
  - right. apply (IH w); [by right|done].
Qed.

Lemma trim_left_elem (a : ascii) (l : text) : a ∈ trim_left l → a ∈ l.
Proof.
  unfold trim_left. destruct (span is_space l) as [w r] eqn:E. apply span_app in E as [-> _].
  intros. apply elem_of_app. by right.
Qed.

Lemma TrimSpace_elem (a : ascii) (l : text) : a ∈ TrimSpace l → a ∈ l.
Proof.
  unfold TrimSpace. rewrite elem_of_reverse. intros Ha%trim_left_elem. rewrite elem_of_reverse in Ha.
  by apply trim_left_elem.
Qed.

Lemma digits_val_nonneg (acc n : Z) (l : text) : (0 ≤ acc)%Z → digits_val acc l = Some n → (0 ≤ n)%Z.
Proof.
  revert acc. induction l as [|a l IH]; intros acc Hacc; simpl; [naive_solver|].
  destruct (is_digit a) eqn:Hd; [|done]. apply IH.
  unfold is_digit in Hd. apply andb_true_iff in Hd as [Hd _]. apply N.leb_le in Hd. lia.
Qed.

Lemma Atoi_nonneg (l : text) (n : Z) : minus ∉ l → Atoi l = Some n → (0 ≤ n)%Z.
Proof.
  unfold Atoi. destruct l as [|a r]; [done|]. intros Hm.
  destruct (Ascii.eqb_spec a "-") as [->|_]. { exfalso. apply Hm. by left. }
  set (l' := if Ascii.eqb a "+" then (false, r) else (false, a :: r)).
  destruct l' as [neg l] eqn:El. assert (neg = false) as -> by (unfold l' in El; destruct (Ascii.eqb a "+"); congruence).
  destruct l as [|b l]; [done|]. destruct (digits_val 0 (b :: l)) as [z|] eqn:Ez; [|done].
  cbn [mbind option_bind]. intros Hz. case_decide; [|done]. injection Hz as <-.
  by apply (digits_val_nonneg 0 z (b :: l)).
Qed.

Lemma parseType_mods (s : string) : Forall (λ n, 0 ≤ n)%Z (mods (parseType s)).
Proof.
  unfold parseType. simpl. destruct (mod_find _) as [g|] eqn:Eg; [|constructor].
  apply mod_find_no_minus in Eg. apply Forall_forall. intros n Hn.
  apply list_elem_of_omap in Hn as (part & Hp & Ha). apply (Atoi_nonneg _ _) in Ha; [done|].
  intros Hm. apply Eg. by apply (split_on_elem "," minus g part), TrimSpace_elem.
Qed.

(** *** Strings *)

Lemma char_limit_unlimited (t : pgType) :
  family t = famText → base t ≠ quote_char → Forall (λ n, 0 ≤ n)%Z (mods t) → (textLimit t < 0)%Z →
  char_limit t = None.
Proof.
  intros Ht Hq Hm Hl.
  base_cases Ht Hn; unfold char_limit, textLimit in *; try done; rewrite Hn in *; simpl in *; unfold firstMod in *;
    destruct (mods t) as [|n ?]; try done; simpl in *; try lia; apply Forall_cons in Hm as [??]; lia.
Qed.

Lemma char_limit_target (t : pgType) :
  family t = famText → base t ≠ quote_char → (0 ≤ textLimit t)%Z →
  char_limit t = Some (textLimit t) ∨ char_limit t = None.
Proof.
  intros Ht Hq Hl. base_cases Ht Hn; unfold char_limit, textLimit in *; try done; rewrite Hn in *; simpl in *;
    unfold firstMod in *; destruct (mods t); simpl in *; try (by left); by right.
Qed.

Lemma char_limit_source (s : pgType) :
  family s = famText → (0 ≤ textLimit s)%Z →
  char_limit s = Some (textLimit s) ∨ (base s = "bpchar" ∧ mods s = []).
Proof.
  intros Hs Hl. base_cases Hs Hn; unfold char_limit, textLimit in *; rewrite Hn in *; simpl in *;
    unfold firstMod in *; destruct (mods s); simpl in *; try done; try (by left); by right.
Qed.

Lemma text_sound (s t : pgType) (v : value) :
  family t = famText → Forall (λ n, 0 ≤ n)%Z (mods t) → overlooked s t = false →
  level_OK (classifyToText s t).1 = true → holds s v → holds t v.
Proof.
  intros Ht Hm Ho Hl Hv.
  assert (base t ≠ quote_char ∧ (base s = "bpchar" → mods s = [] → char_limit t = None)) as [Hq Hbp].
  { unfold overlooked in Ho. rewrite Ht in Ho.
    assert (bool_decide (base t = quote_char)
            || bool_decide (base s = "bpchar") && negb (hasMods s) && bool_decide (char_limit t ≠ None) = false) as H'
      by (destruct (family s); done). clear Ho.
    apply orb_false_iff in H' as [Hq%bool_decide_eq_false H']. split; [done|]. intros Hs Hms.
    rewrite (bool_decide_true (base s = _)) in H' by done. unfold hasMods in H'.
    rewrite (bool_decide_true (mods s = _)) in H' by done. simpl in H'.
    apply bool_decide_eq_false in H'. by destruct (char_limit t); [exfalso; apply H'|]. }
  assert (char_limit t = None → holds t v) as Hnone.
  { intros Hn. unfold holds. rewrite Ht, Hn. by destruct v. }
  unfold classifyToText in Hl. case_decide as Hneg.
  { by apply Hnone, char_limit_unlimited. }
  case_decide as Hd; [|done]. destruct Hd as (Hs & H0 & Hle).
  destruct (char_limit_target t) as [Hc|Hc]; [done|done|lia| |by apply Hnone].
  destruct (char_limit_source s Hs H0) as [Hcs|[Hb Hms]]; [|by apply Hnone, Hbp].
  unfold holds in *. rewrite Ht, Hc. rewrite Hs, Hcs in Hv. destruct v; try done. lia.
Qed.

Lemma integer_numeric_sound (s t : pgType) (v : value) :
  family s = famInt → family t = famDecimal → numericHoldsIntegers t = true → holds s v → holds t v.
Proof.
  unfold holds. intros Hs -> Hh. rewrite Hs. destruct v as [m n| | | | | | | | |]; try done.
  intros (z & Hz & Hb). unfold numericHoldsIntegers, hasMods in Hh.
  destruct (bool_decide (mods t = [])) eqn:Hm; [left; by apply bool_decide_eq_true in Hm|]. right.
  simpl in Hh. destruct (numericPrecisionScale t) as [prec scale].
  apply andb_true_iff in Hh as [->%bool_decide_eq_true Hp%bool_decide_eq_true].
  exists z. split; [done|].
  assert (intWidth s ≤ 64)%Z by (base_cases Hs Hn; unfold intWidth; rewrite Hn; vm_compute; done).
  assert (2 ^ (intWidth s - 1) ≤ 2 ^ 63)%Z by (apply Z.pow_le_mono_r; lia).
  apply (Z.lt_le_trans _ (10 ^ 19)); [|apply Z.pow_le_mono_r; lia].
  assert (2 ^ 63 < 10 ^ 19)%Z by done. lia.
Qed.

Lemma precision_sound (s t : pgType) (f : fam) (v : value) :
  f ∈ [famTimestamp; famTimestampTZ; famTime; famTimeTZ] → family s = f → family t = f →
  level_OK (classifyPrecision s t).1 = true → holds s v → holds t v.
Proof.
  intros Hf Hs Ht Hl Hv. unfold classifyPrecision in Hl. case_decide as Hge; [|done].
  pose proof (λ us, on_tick_finer s t us Hge) as Htick. unfold holds in *. rewrite Ht, Hs in *.
  rewrite !elem_of_cons, elem_of_nil in Hf. destruct Hf as [->|[->|[->|[->|[]]]]]; destruct v; naive_solver.
Qed.

(** A pair the classification accepts loses no value, the overlooked pairs apart. *)
Lemma classify_sound (src tgt : string) (v : value) :
  level_OK (classifyTypes src tgt).1 = true →
  overlooked (parseType src) (parseType tgt) = false ∨ src = tgt →
  holds (parseType src) v → holds (parseType tgt) v.
Proof.
  intros Hl Ho Hv. unfold classifyTypes in Hl. destruct (decide (src = tgt)) as [->|Hne]; [exact Hv|].
  assert (overlooked (parseType src) (parseType tgt) = false) as Hno by (destruct Ho; [assumption|contradiction]).
  clear Ho. rename Hno into Ho.
  pose proof (parseType_mods tgt) as Hm.
  set (s := parseType src) in *. set (t := parseType tgt) in *. clearbody s t.
  case_decide as Ht; [by apply (text_sound s t v)|].
  case_decide as Hst.
  - destruct (family s) eqn:Hs; symmetry in Hst; cbn [classifySameFamily] in Hl.
    + case_decide; [|done]. by apply (int_sound s t v).
    + by apply (numeric_sound s t v).
    + case_decide; [|done]. by apply (float_sound s t v).
    + done.
    + unfold holds in *. rewrite Hs in Hv. rewrite Hst. by destruct v.
    + unfold holds in *. rewrite Hs in Hv. rewrite Hst. by destruct v.
    + unfold holds in *. rewrite Hs in Hv. rewrite Hst. by destruct v.
    + apply (precision_sound s t famTimestamp v); [set_solver|done..].
    + apply (precision_sound s t famTimestampTZ v); [set_solver|done..].
    + apply (precision_sound s t famTime v); [set_solver|done..].
    + apply (precision_sound s t famTimeTZ v); [set_solver|done..].
    + unfold holds in *. rewrite Hs in Hv. rewrite Hst. by destruct v.
    + unfold holds in *. rewrite Hs in Hv. rewrite Hst. by destruct v.
    + unfold holds in *. rewrite Hs in Hv. rewrite Hst. by destruct v.
    + unfold overlooked in Ho. rewrite Hs, Hst in Ho. apply bool_decide_eq_false in Ho.
      unfold holds in *. rewrite Hs in Hv. rewrite Hst. destruct v; try done.
      apply (on_tick_finer s t); [lia|done].
    + done.
  - unfold classifyCrossFamily in Hl.
    destruct (family s) eqn:Hs, (family t) eqn:Ht'; simpl in Hl; try done;
      try (unfold overlooked in Ho; rewrite Hs, Ht' in Ho; done).
    apply (integer_numeric_sound s t v); [done|done| |done]. by destruct (numericHoldsIntegers t).
Qed.
(** The source holds a value that the target does not. *)
Definition loses (src tgt : string) : Prop := ∃ v, holds (parseType src) v ∧ ¬ holds (parseType tgt) v.

(** Pairs the classification accepts as widening, without a warning, although the
    target cannot store every source value: a numeric with more digits after the point and
    not more in total, the one-byte internal string type as a target, an unlimited
    bpchar into a limited string, an interval of lower precision, a date beyond the year
    294276 into a timestamp. *)
Theorem classifyTypes_overlooks :
  Forall (λ '(src, tgt), (classifyTypes src tgt).1 = CompatWiden ∧ loses src tgt)
    [("numeric(10,2)", "numeric(10,4)"); ("text", quote_char); ("bpchar", "character varying(5)");
     ("interval(6)", "interval(0)"); ("date", "timestamp without time zone")].
Proof.
  repeat (apply Forall_cons; split); [..|by apply Forall_nil]; (split; [vm_compute; reflexivity|]); unfold loses, holds.
  - exists (VNumber 9999999999 2).
    assert (parseType "numeric(10,2)" = (mkPgType "numeric" [10; 2]%Z)) as -> by (vm_compute; reflexivity).
    assert (parseType "numeric(10,4)" = (mkPgType "numeric" [10; 4]%Z)) as -> by (vm_compute; reflexivity). simpl. unfold scaled. split.
    + right. exists 9999999999%Z. split; vm_compute; reflexivity.
    + intros [[=]|(k & Hk & Hb)]. assert (9999999999 * 10000 = k * 100 * 1)%Z by exact Hk.
      assert (Z.abs k < 10000000000)%Z by exact Hb. lia.
  - exists (VString ["a"%char; "b"%char]).
    assert (parseType "text" = (mkPgType "text" [])) as -> by (vm_compute; reflexivity).
    assert (parseType quote_char = (mkPgType quote_char [])) as -> by (vm_compute; reflexivity). simpl. split; [done|lia].
  - exists (VString (replicate 6 "a"%char)).
    assert (parseType "bpchar" = (mkPgType "bpchar" [])) as -> by (vm_compute; reflexivity).
    assert (parseType "character varying(5)" = (mkPgType "character varying" [5%Z])) as -> by (vm_compute; reflexivity). simpl. split; [done|lia].
  - exists (VInterval 1). assert (parseType "interval(6)" = (mkPgType "interval" [6%Z])) as -> by (vm_compute; reflexivity).
    assert (parseType "interval(0)" = (mkPgType "interval" [0%Z])) as -> by (vm_compute; reflexivity). simpl. unfold on_tick. simpl.
    split; [by exists 1%Z|]. intros [k Hk]. assert (1 = k * 1000000)%Z by exact Hk. lia.
  - exists (VDate 200000000). assert (parseType "date" = (mkPgType "date" [])) as -> by (vm_compute; reflexivity).
    assert (parseType "timestamp without time zone" = (mkPgType "timestamp without time zone" [])) as -> by (vm_compute; reflexivity).
    simpl. unfold in_date_range, in_timestamp_range, day_us. lia.
Qed.
End PgTypes.
