(* ===== verification/FkGraph.v ===== *)
(** * FK connected components ([internal/fkgraph/fkgraph.go])

    Within a sync's selected tables, the foreign keys between selected tables
    partition the tables into connected components (union-find); every
    component gets a topological apply order (Kahn's algorithm) with the
    members the algorithm cannot order appended in name order.

    Go maps are [gmap]s; the iteration order of a Go map is unspecified, and
    the code sorts after every such iteration, so the model iterates in the
    order of [map_to_list] and sorts as the code does. *)

From S2P Require Import Prelude Engine.

Module FkGraph.

(** ** Union-find ([unionFind]) *)

Record unionFind := mkUF {
  uf_parent : gmap TableRef TableRef;
  uf_rank : gmap TableRef nat
}.

Definition newUnionFind : unionFind := mkUF ∅ ∅.

(** Reading a Go map: the zero value for an absent key. *)
Definition parent_of (p : gmap TableRef TableRef) (x : TableRef) : TableRef :=
  default zeroRef (p !! x).
Definition rank_of (rk : gmap TableRef nat) (x : TableRef) : nat :=
  default 0 (rk !! x).

(** [unionFind.add] *)
Definition add (u : unionFind) (x : TableRef) : unionFind :=
  match uf_parent u !! x with
  | Some _ => u
  | None => mkUF (<[x := x]> (uf_parent u)) (<[x := 0]> (uf_rank u))
  end.

(** [unionFind.find]: the loop with path halving. [None] stands for a loop
    that has not stopped within the fuel; [find_total] shows it never is. *)
Fixpoint find_loop (fuel : nat) (u : unionFind) (x : TableRef)
    : option (unionFind * TableRef) :=
  let p := uf_parent u in
  if decide (parent_of p x = x) then Some (u, x)
  else match fuel with
  | 0 => None
  | S fuel =>
      let p' := <[x := parent_of p (parent_of p x)]> p in
      find_loop fuel (mkUF p' (uf_rank u)) (parent_of p' x)
  end.

Definition find (u : unionFind) (x : TableRef) : option (unionFind * TableRef) :=
  find_loop (size (uf_parent u)) u x.

(** The tail of [unionFind.union], once the two roots are known. *)
Definition link (u : unionFind) (ra rb : TableRef) : unionFind :=
  if decide (ra = rb) then u
  else
    let '(ra, rb) :=
      if decide (rank_of (uf_rank u) ra < rank_of (uf_rank u) rb)
      then (rb, ra) else (ra, rb) in
    let p := <[rb := ra]> (uf_parent u) in
    let rk :=
      if decide (rank_of (uf_rank u) ra = rank_of (uf_rank u) rb)
      then <[ra := S (rank_of (uf_rank u) ra)]> (uf_rank u)
      else uf_rank u in
    mkUF p rk.

(** [unionFind.union] *)
Definition union (u : unionFind) (a b : TableRef) : option unionFind :=
  let u := add (add u a) b in
  '(u, ra) ← find u a;
  '(u, rb) ← find u b;
  Some (link u ra rb).

(** ** Topological order ([topoOrder]) *)

(** The maps the first half of [topoOrder] fills. *)
Record topoState := mkTopo {
  ts_children : gmap TableRef (gset TableRef);
  ts_indeg : gmap TableRef nat;
  ts_selfCycle : gset TableRef
}.

Definition kids_of (ch : gmap TableRef (gset TableRef)) (x : TableRef) : gset TableRef :=
  default ∅ (ch !! x).
Definition indeg_of (d : gmap TableRef nat) (x : TableRef) : nat := default 0 (d !! x).

Definition init_indeg (members : list Table) : gmap TableRef nat :=
  foldl (λ d m, match d !! tbl_Ref m with
                | Some _ => d
                | None => <[tbl_Ref m := 0]> d
                end) ∅ members.

(** One iteration of the edge loop. *)
Definition add_edge (memberSet inSel : gset TableRef) (s : topoState) (fk : ForeignKey)
    : topoState :=
  if decide (fk_Parent fk ∉ inSel ∨ fk_Parent fk ∉ memberSet) then s
  else if decide (fk_Child fk = fk_Parent fk) then
    mkTopo (ts_children s) (ts_indeg s) ({[fk_Child fk]} ∪ ts_selfCycle s)
  else if decide (fk_Child fk ∈ kids_of (ts_children s) (fk_Parent fk)) then s
  else
    mkTopo
      (<[fk_Parent fk := {[fk_Child fk]} ∪ kids_of (ts_children s) (fk_Parent fk)]>
         (ts_children s))
      (<[fk_Child fk := S (indeg_of (ts_indeg s) (fk_Child fk))]> (ts_indeg s))
      (ts_selfCycle s).

Definition build_graph (members : list Table) (memberSet inSel : gset TableRef) : topoState :=
  foldl (λ s m, foldl (add_edge memberSet inSel) s (tbl_ForeignKeys m))
    (mkTopo ∅ (init_indeg members) ∅) members.

Definition sortRefs (l : list TableRef) : list TableRef := sort_by ref_string l.

(** The inner loop over the children of the table just emitted. *)
Fixpoint relax (selfCycle : gset TableRef) (kids : list TableRef)
    (indeg : gmap TableRef nat) (queue : list TableRef)
    : gmap TableRef nat * list TableRef :=
  match kids with
  | [] => (indeg, queue)
  | c :: kids =>
      let indeg := <[c := indeg_of indeg c - 1]> indeg in
      let queue :=
        if decide (indeg_of indeg c = 0 ∧ c ∉ selfCycle)
        then sortRefs (queue ++ [c]) else queue in
      relax selfCycle kids indeg queue
  end.

(** The queue loop; the result is the emitted order and what is left in the
    queue when the fuel runs out ([kahn_drains]: nothing). *)
Fixpoint kahn (fuel : nat) (ch : gmap TableRef (gset TableRef)) (selfCycle : gset TableRef)
    (indeg : gmap TableRef nat) (queue order : list TableRef)
    : list TableRef * list TableRef :=
  match fuel, queue with
  | _, [] => (order, [])
  | 0, _ => (order, queue)
  | S fuel, n :: queue =>
      let '(indeg, queue) :=
        relax selfCycle (sortRefs (elements (kids_of ch n))) indeg queue in
      kahn fuel ch selfCycle indeg queue (order ++ [n])
  end.

Definition initial_queue (s : topoState) : list TableRef :=
  sortRefs (filter (λ r, r ∉ ts_selfCycle s)
    (filter (λ '(_, d), d = 0) (map_to_list (ts_indeg s))).*1).

(** [topoOrder]: the total order and its cyclic suffix. *)
Definition topoOrder (members : list Table) (memberSet inSel : gset TableRef)
    : list TableRef * list TableRef :=
  let s := build_graph members memberSet inSel in
  let '(order, _) :=
    kahn (length members) (ts_children s) (ts_selfCycle s) (ts_indeg s)
      (initial_queue s) [] in
  let cyclic := sortRefs (filter (λ r, r ∉ order) (tbl_Ref <$> members)) in
  (order ++ cyclic, cyclic).

(** ** Components ([Components], [buildComponent]) *)

Definition inSelOf (selected : list Table) : gset TableRef :=
  list_to_set (tbl_Ref <$> selected).

Definition buildComponent (members : list Table) (inSel : gset TableRef) : Component :=
  let refs := sortRefs (tbl_Ref <$> members) in
  let memberSet := inSelOf members in
  let '(order, cyclic) := topoOrder members memberSet inSel in
  mkComponent refs order cyclic.

Definition union_fk (inSel : gset TableRef) (u : option unionFind) (fk : ForeignKey)
    : option unionFind :=
  u ← u; if decide (fk_Parent fk ∈ inSel) then union u (fk_Child fk) (fk_Parent fk) else Some u.

Definition union_all (selected : list Table) : option unionFind :=
  let u := foldl (λ u t, add u (tbl_Ref t)) newUnionFind selected in
  foldl (λ u t, foldl (union_fk (inSelOf selected)) u (tbl_ForeignKeys t)) (Some u) selected.

Definition group_step (acc : option (unionFind * gmap TableRef (list Table))) (t : Table)
    : option (unionFind * gmap TableRef (list Table)) :=
  '(u, groups) ← acc;
  '(u, root) ← find u (tbl_Ref t);
  Some (u, <[root := default [] (groups !! root) ++ [t]]> groups).

Definition group_all (selected : list Table) (u : unionFind)
    : option (unionFind * gmap TableRef (list Table)) :=
  foldl group_step (Some (u, ∅)) selected.

(** The sort key of a component: the name of its first table. *)
Definition comp_key (c : Component) : string :=
  match comp_Tables c with [] => "" | r :: _ => ref_string r end.

Definition Components (selected : list Table) : option (list Component) :=
  u ← union_all selected;
  '(_, groups) ← group_all selected u;
  Some (sort_by comp_key
    ((λ '(_, members), buildComponent members (inSelOf selected)) <$> map_to_list groups)).

(** ** Warnings ([DetectGiant], [DanglingEdges]) *)

Record Giant := mkGiant { giant_Present : bool; giant_Component : option Component }.

Definition minTablesForGiantWarning : nat := 5.

Fixpoint biggest_of (best : Component) (comps : list Component) : Component :=
  match comps with
  | [] => best
  | c :: comps =>
      biggest_of
        (if decide (length (comp_Tables best) < length (comp_Tables c)) then c else best)
        comps
  end.

(** [DetectGiant]. The float test [frac < 0.6] compares the rounded quotient of
    two table counts with the rounded 3/5; two such fractions that differ, differ
    by at least [1 / (5 * total)], far more than a rounding step, so the test
    is [5 * members < 3 * total] here. The record's float [Fraction] is left
    out. *)
Definition DetectGiant (comps : list Component) (totalTables : nat) : Giant :=
  match comps with
  | [] => mkGiant false None
  | c0 :: _ =>
      if decide (totalTables < minTablesForGiantWarning) then mkGiant false None
      else
        let biggest := biggest_of c0 comps in
        if decide (5 * length (comp_Tables biggest) < 3 * totalTables)
        then mkGiant false None
        else mkGiant true (Some biggest)
  end.

(** The comparison of [DanglingEdges]: by child name, then by parent name. *)
Definition dangling_le (a b : ForeignKey) : Prop :=
  if decide (ref_string (fk_Child a) = ref_string (fk_Child b))
  then str_le (ref_string (fk_Parent a)) (ref_string (fk_Parent b))
  else str_le (ref_string (fk_Child a)) (ref_string (fk_Child b)).

#[global] Instance dangling_le_dec : RelDecision dangling_le.
Proof. intros a b. unfold dangling_le. case_decide; apply _. Defined.

(** [DanglingEdges] *)
Definition DanglingEdges (selected : list Table) : list ForeignKey :=
  merge_sort dangling_le
    (filter (λ fk, fk_Parent fk ∉ inSelOf selected)
       (mjoin (tbl_ForeignKeys <$> selected))).

(** ** Union-find: the forest invariant *)

(** [root p x r]: following parents from [x] stops at [r]. *)
Inductive root (p : gmap TableRef TableRef) : TableRef → TableRef → Prop :=
| root_here x : p !! x = Some x → root p x x
| root_up x y r : p !! x = Some y → x ≠ y → root p y r → root p x r.

(** Every parent is a node, and ranks strictly increase towards the root. *)
Definition ranked (p : gmap TableRef TableRef) (rk : gmap TableRef nat) : Prop :=
  ∀ x y, p !! x = Some y →
    is_Some (p !! y) ∧ (x ≠ y → rank_of rk x < rank_of rk y).

Definition uf_wf (u : unionFind) : Prop := ranked (uf_parent u) (uf_rank u).

(** Two nodes have the same representative. *)
Definition same (p : gmap TableRef TableRef) (a b : TableRef) : Prop :=
  ∃ r, root p a r ∧ root p b r.

#[local] Hint Constructors root : replicare.

Lemma root_fun p x r1 r2 : root p x r1 → root p x r2 → r1 = r2.
Proof.
  intros H. revert r2.
  induction H as [x Hx|x y r Hx Hne H IH]; intros r2 H2; inversion H2; simplify_eq; eauto.
Qed.

Lemma root_is_root p x r : root p x r → p !! r = Some r.
Proof. induction 1; eauto. Qed.

Lemma root_dom p x r : root p x r → is_Some (p !! x).
Proof. inversion 1; eauto. Qed.

Section forest.
Context (p : gmap TableRef TableRef) (rk : gmap TableRef nat).
Context (Hrk : ranked p rk).

(** Nodes of rank above [x]: the number of steps the walk from [x] has left. *)
Definition above (x : TableRef) : gset TableRef :=
  filter (λ y, rank_of rk x < rank_of rk y) (dom p).

Lemma above_decreases x y :
  p !! x = Some y → x ≠ y → size (above y) < size (above x).
Proof.
  intros Hx Hne. destruct (Hrk _ _ Hx) as [Hy Hlt]. specialize (Hlt Hne).
  apply subset_size. split.
  - intros z. unfold above. rewrite !elem_of_filter. intros [? ?]. split; [lia|done].
  - intros Hsub. assert (y ∈ above x) as Hin.
    { unfold above. rewrite elem_of_filter, elem_of_dom. done. }
    apply Hsub in Hin. unfold above in Hin. rewrite elem_of_filter in Hin. lia.
Qed.

Lemma root_exists x : is_Some (p !! x) → ∃ r, root p x r.
Proof.
  remember (size (above x)) as n eqn:Hn. revert x Hn.
  induction (lt_wf n) as [n _ IH]. intros x -> [y Hx].
  destruct (decide (x = y)) as [<-|Hne]; [by eauto with replicare|].
  destruct (IH _ (above_decreases _ _ Hx Hne) y eq_refl) as [r Hr];
    [apply (Hrk _ _ Hx)|]. eauto with replicare.
Qed.

Lemma root_rank x r : root p x r → x ≠ r → rank_of rk x < rank_of rk r.
Proof.
  induction 1 as [|x y r Hx Hne H IH]; [done|]. intros Hxr.
  destruct (Hrk _ _ Hx) as [_ Hlt]. specialize (Hlt Hne).
  destruct (decide (y = r)) as [->|Hyr]; [done|]. specialize (IH Hyr). lia.
Qed.

(** Path halving at [x]. *)
Section halving.
Context (x px gp : TableRef).
Context (Hx : p !! x = Some px) (Hpx : p !! px = Some gp) (Hne : x ≠ px).

Lemma halving_ne : gp ≠ x.
Proof.
  intros ->. destruct (Hrk _ _ Hx) as [_ H1]. destruct (Hrk _ _ Hpx) as [_ H2].
  specialize (H1 Hne). specialize (H2 (not_eq_sym Hne)). lia.
Qed.

Lemma halving_ranked : ranked (<[x := gp]> p) rk.
Proof.
  pose proof halving_ne as Hgx. intros y z Hy. rewrite !lookup_insert_is_Some.
  destruct (decide (x = y)) as [<-|Hxy].
  - rewrite lookup_insert_eq in Hy. injection Hy as <-. split.
    + right. split; [done|]. apply (Hrk _ _ Hpx).
    + intros _. destruct (Hrk _ _ Hx) as [_ H1]. destruct (Hrk _ _ Hpx) as [_ H2].
      specialize (H1 Hne). destruct (decide (px = gp)) as [<-|Hpg]; [done|].
      specialize (H2 Hpg). lia.
  - rewrite lookup_insert_ne in Hy by done. destruct (Hrk _ _ Hy) as [Hz Hlt].
    split; [|done]. destruct (decide (x = z)); auto.
Qed.

Lemma halving_root_1 y r : root p y r → root (<[x := gp]> p) y r.
Proof.
  pose proof halving_ne as Hgx.
  induction 1 as [y Hy|y z r Hy Hyz H IH].
  - apply root_here. rewrite lookup_insert_ne; [done|]. intros ->. simplify_eq.
  - destruct (decide (x = y)) as [<-|Hxy].
    + assert (z = px) as -> by congruence.
      destruct (decide (gp = px)) as [Hgz|Hgz].
      { eapply root_up; [by rewrite lookup_insert_eq|done|by rewrite Hgz at 2]. }
      eapply root_up; [by rewrite lookup_insert_eq|done|].
      assert (<[x := gp]> p !! px = Some gp) as Hl by by rewrite lookup_insert_ne.
      inversion IH as [? Hself|? ? ? Hup ? Hrest]; subst; [congruence|].
      assert (y = gp) as -> by congruence. done.
    + eapply root_up; [by rewrite lookup_insert_ne|done|done].
Qed.

Lemma halving_root y r : root (<[x := gp]> p) y r ↔ root p y r.
Proof.
  split; [|apply halving_root_1]. intros H.
  destruct (root_exists y) as [r' Hr'].
  { destruct (decide (x = y)) as [<-|]; [by eauto|].
    destruct (root_dom _ _ _ H) as [z Hz].
    rewrite lookup_insert_ne in Hz by done. by eexists. }
  assert (r' = r) as ->; [|done].
  eapply root_fun; [by apply halving_root_1|done].
Qed.
End halving.
End forest.

(** Two forests with the same representatives. *)
Definition same_roots (p q : gmap TableRef TableRef) : Prop :=
  ∀ y r, root q y r ↔ root p y r.

Lemma same_roots_dom u v y :
  uf_wf u → uf_wf v → same_roots (uf_parent u) (uf_parent v) →
  is_Some (uf_parent v !! y) ↔ is_Some (uf_parent u !! y).
Proof.
  intros Hu Hv Hs. split; intros H.
  - destruct (root_exists _ _ Hv _ H) as [r Hr%Hs]. by eapply root_dom.
  - destruct (root_exists _ _ Hu _ H) as [r Hr%Hs]. by eapply root_dom.
Qed.

Lemma parent_of_Some p x y : p !! x = Some y → parent_of p x = y.
Proof. unfold parent_of. by intros ->. Qed.

Lemma find_loop_spec fuel u x :
  uf_wf u → is_Some (uf_parent u !! x) →
  size (above (uf_parent u) (uf_rank u) x) ≤ fuel →
  ∃ u' r, find_loop fuel u x = Some (u', r) ∧ root (uf_parent u) x r ∧
    uf_wf u' ∧ uf_rank u' = uf_rank u ∧ same_roots (uf_parent u) (uf_parent u').
Proof.
  revert u x. induction fuel as [|fuel IH]; intros u x Hwf [px Hx] Hfuel; simpl;
    rewrite (parent_of_Some _ _ _ Hx).
  all: case_decide as Hpx; [subst px; exists u, x; split_and!; [done|by apply root_here|done|done|by intros ??]|].
  { pose proof (above_decreases _ _ Hwf _ _ Hx (not_eq_sym Hpx)). lia. }
  destruct (Hwf _ _ Hx) as [[gp Hgp] _]. rewrite (parent_of_Some _ _ _ Hgp).
  rewrite (parent_of_Some (<[x:=gp]> _) x gp) by apply lookup_insert_eq.
  pose proof (not_eq_sym Hpx) as Hne.
  pose proof (halving_ne _ _ Hwf _ _ _ Hx Hgp Hne) as Hgx.
  destruct (IH (mkUF (<[x:=gp]> (uf_parent u)) (uf_rank u)) gp)
    as (u' & r & Hf & Hr & Hwf' & Hrk & Hs); simpl in *.
  - by eapply halving_ranked.
  - rewrite lookup_insert_ne by done. apply (Hwf _ _ Hgp).
  - enough (size (above (<[x:=gp]> (uf_parent u)) (uf_rank u) gp)
      < size (above (uf_parent u) (uf_rank u) x)) by lia.
    pose proof (above_decreases _ _ (halving_ranked _ _ Hwf _ _ _ Hx Hgp Hne) x gp
      ltac:(apply lookup_insert_eq) (not_eq_sym Hgx)) as Hdec.
    unfold above in *. rewrite dom_insert_lookup_L in * by done. done.
  - exists u', r. split_and!; [done| |done|done|].
    + rewrite (halving_root _ _ Hwf _ _ _ Hx Hgp Hne) in Hr.
      eapply root_up; [done|done|]. destruct (decide (px = gp)) as [->|Hpg]; [done|].
      by eapply root_up.
    + intros y s. rewrite (Hs y s). by eapply halving_root.
Qed.

(** [find] always returns: the fuel is the number of nodes. *)
Lemma find_total u x :
  uf_wf u → is_Some (uf_parent u !! x) →
  ∃ u' r, find u x = Some (u', r) ∧ root (uf_parent u) x r ∧
    uf_wf u' ∧ uf_rank u' = uf_rank u ∧ same_roots (uf_parent u) (uf_parent u').
Proof.
  intros Hwf Hx. apply find_loop_spec; [done|done|].
  unfold above. transitivity (size (dom (D:=gset TableRef) (uf_parent u))); [apply subseteq_size; set_solver|].
  by rewrite size_dom.
Qed.

(** *** [add] *)

Lemma add_wf u x : uf_wf u → uf_wf (add u x).
Proof.
  intros Hwf. unfold add. destruct (uf_parent u !! x) eqn:E; [done|].
  intros y z. simpl. destruct (decide (x = y)) as [<-|Hxy].
  - rewrite lookup_insert_eq. intros [= <-]. rewrite lookup_insert_eq. by eauto.
  - rewrite lookup_insert_ne by done. intros Hy. destruct (Hwf _ _ Hy) as [Hz Hlt].
    assert (x ≠ z) by (intros ->; rewrite E in Hz; by destruct Hz).
    rewrite lookup_insert_ne by done. split; [done|]. intros Hne. specialize (Hlt Hne).
    unfold rank_of in *. by rewrite !lookup_insert_ne.
Qed.

Lemma add_dom u x y :
  is_Some (uf_parent (add u x) !! y) ↔ y = x ∨ is_Some (uf_parent u !! y).
Proof.
  unfold add. destruct (uf_parent u !! x) eqn:E.
  - split; [by right|]. intros [->|]; [by eexists|done].
  - simpl. rewrite lookup_insert_is_Some. destruct (decide (x = y)); naive_solver.
Qed.

Lemma add_root u x y r :
  uf_wf u → root (uf_parent (add u x)) y r ↔
    root (uf_parent u) y r ∨ (uf_parent u !! x = None ∧ y = x ∧ r = x).
Proof.
  intros Hwf. unfold add. destruct (uf_parent u !! x) eqn:E; [naive_solver|]. simpl.
  assert (∀ y r, root (uf_parent u) y r → root (<[x:=x]> (uf_parent u)) y r) as Hmono.
  { induction 1 as [z Hz|z z' s Hz Hne H IH].
    - apply root_here. rewrite lookup_insert_ne; [done|congruence].
    - eapply root_up; [|done|done]. rewrite lookup_insert_ne; [done|congruence]. }
  split.
  - induction 1 as [z Hz|z z' s Hz Hne H IH].
    + destruct (decide (x = z)) as [<-|]; [by right|].
      rewrite lookup_insert_ne in Hz by done. left. by apply root_here.
    + destruct (decide (x = z)) as [<-|].
      { rewrite lookup_insert_eq in Hz. congruence. }
      rewrite lookup_insert_ne in Hz by done. destruct IH as [?|(_ & -> & ->)].
      * left. by eapply root_up.
      * destruct (Hwf _ _ Hz) as [[? ?] _]. congruence.
  - intros [?|(_ & -> & ->)]; [by auto|]. apply root_here. apply lookup_insert_eq.
Qed.

(** *** [link] and [union] *)

Section link.
Context (p : gmap TableRef TableRef) (rk : gmap TableRef nat) (a b : TableRef).
Context (Hrk : ranked p rk) (Ha : p !! a = Some a) (Hb : p !! b = Some b) (Hab : a ≠ b).

Lemma link_root z r :
  root (<[b := a]> p) z r ↔ (root p z r ∧ r ≠ b) ∨ (root p z b ∧ r = a).
Proof.
  assert (root (<[b := a]> p) a a) as Haa.
  { apply root_here. by rewrite lookup_insert_ne. }
  split.
  - induction 1 as [z Hz|z y r Hz Hne H IH].
    + assert (b ≠ z) by (intros ->; rewrite lookup_insert_eq in Hz; congruence).
      rewrite lookup_insert_ne in Hz by done. left. split; [by apply root_here|congruence].
    + destruct (decide (b = z)) as [<-|Hbz].
      * rewrite lookup_insert_eq in Hz. injection Hz as ->. right.
        split; [by apply root_here|]. by eapply root_fun.
      * rewrite lookup_insert_ne in Hz by done.
        destruct IH as [[IH ?]|[IH ->]]; [left|right]; split; try done; by eapply root_up.
  - assert (∀ z r, root p z r → root (<[b := a]> p) z (if decide (r = b) then a else r)) as Hto.
    { induction 1 as [x Hx|x y s Hx Hne H IH].
      - case_decide as Hxb; [subst x|].
        + eapply root_up; [by rewrite lookup_insert_eq|congruence|done].
        + apply root_here. by rewrite lookup_insert_ne.
      - eapply root_up; [|done|done]. rewrite lookup_insert_ne; [done|congruence]. }
    intros [[H Hr]|[H ->]].
    + specialize (Hto _ _ H). by rewrite decide_False in Hto.
    + specialize (Hto _ _ H). by rewrite decide_True in Hto.
Qed.

Lemma link_same x y :
  same (<[b := a]> p) x y ↔
    same p x y ∨ (root p x a ∧ root p y b) ∨ (root p x b ∧ root p y a).
Proof.
  unfold same. setoid_rewrite link_root. split.
  - intros (r & [[H1 Hr1]|[H1 ->]] & [[H2 Hr2]|[H2 He]]); subst; eauto.
  - intros [(r & H1 & H2)|[[H1 H2]|[H1 H2]]].
    + destruct (decide (r = b)) as [->|]; [exists a|exists r]; tauto.
    + exists a. tauto.
    + exists a. tauto.
Qed.

Lemma link_ranked :
  ¬ rank_of rk a < rank_of rk b →
  ranked (<[b := a]> p)
    (if decide (rank_of rk a = rank_of rk b) then <[a := S (rank_of rk a)]> rk else rk).
Proof.
  intros Hle. set (rk' := if decide _ then _ else _).
  assert (rank_of rk' b = rank_of rk b) as Hrb.
  { unfold rk'. case_decide; [|done]. unfold rank_of. by rewrite lookup_insert_ne. }
  assert (rank_of rk b < rank_of rk' a) as Hra.
  { unfold rk'. case_decide; [|lia]. unfold rank_of at 2. rewrite lookup_insert_eq. simpl. lia. }
  assert (∀ z, z ≠ a → rank_of rk' z = rank_of rk z) as Hrz.
  { intros z Hz. unfold rk'. case_decide; [|done]. unfold rank_of. by rewrite lookup_insert_ne. }
  assert (∀ z, rank_of rk z ≤ rank_of rk' z) as Hmono.
  { intros z. destruct (decide (z = a)) as [->|]; [|by rewrite Hrz]. unfold rk'.
    case_decide; [|lia]. unfold rank_of at 2. rewrite lookup_insert_eq. simpl. lia. }
  intros x y Hxy. destruct (decide (b = x)) as [<-|Hbx].
  - rewrite lookup_insert_eq in Hxy. injection Hxy as <-.
    rewrite lookup_insert_ne by done. split; [by eexists|]. intros _. lia.
  - rewrite lookup_insert_ne in Hxy by done. destruct (Hrk _ _ Hxy) as [Hy Hlt].
    split; [rewrite lookup_insert_is_Some; destruct (decide (b = y)); naive_solver|].
    intros Hne. assert (x ≠ a) by congruence.
    rewrite Hrz by done. specialize (Hlt Hne). specialize (Hmono y). lia.
Qed.
End link.

Lemma link_spec u ra rb :
  uf_wf u → uf_parent u !! ra = Some ra → uf_parent u !! rb = Some rb →
  uf_wf (link u ra rb) ∧
  (∀ x y, same (uf_parent (link u ra rb)) x y ↔
     same (uf_parent u) x y ∨ (root (uf_parent u) x ra ∧ root (uf_parent u) y rb)
       ∨ (root (uf_parent u) x rb ∧ root (uf_parent u) y ra)).
Proof.
  intros Hwf Ha Hb. unfold link. case_decide as Hab.
  { subst rb. split; [done|]. unfold same. naive_solver. }
  case_decide as Hlt; split; simpl.
  - apply link_ranked; [done..|lia].
  - intros x y. rewrite (link_same (uf_parent u) rb ra) by done. tauto.
  - by apply link_ranked.
  - intros x y. by apply link_same.
Qed.

Lemma same_iff p q x y : same_roots p q → same q x y ↔ same p x y.
Proof. intros H. unfold same. by setoid_rewrite (H _ _). Qed.

Lemma union_spec u a b :
  uf_wf u → is_Some (uf_parent u !! a) → is_Some (uf_parent u !! b) →
  ∃ u', union u a b = Some u' ∧ uf_wf u' ∧
    (∀ x y, same (uf_parent u') x y ↔
       same (uf_parent u) x y ∨ (same (uf_parent u) x a ∧ same (uf_parent u) y b)
         ∨ (same (uf_parent u) x b ∧ same (uf_parent u) y a)).
Proof.
  intros Hwf Ha Hb. unfold union.
  assert (∀ x, is_Some (uf_parent u !! x) → add u x = u) as Hadd.
  { intros x [y Hy]. unfold add. by rewrite Hy. }
  rewrite !Hadd by done.
  destruct (find_total u a Hwf Ha) as (u1 & ra & -> & Hra & Hwf1 & _ & Hs1); simpl.
  destruct (find_total u1 b Hwf1) as (u2 & rb & -> & Hrb & Hwf2 & _ & Hs2); simpl.
  { by apply (same_roots_dom u u1). }
  assert (same_roots (uf_parent u) (uf_parent u2)) as Hs.
  { intros y r. rewrite (Hs2 y r). apply Hs1. }
  apply Hs1 in Hrb.
  destruct (link_spec u2 ra rb) as [Hwf3 Hsame]; [done|..].
  1,2: eapply root_is_root; apply Hs; eassumption.
  eexists. split; [done|]. split; [done|]. intros x y. rewrite Hsame.
  rewrite (same_iff _ _ x y Hs), !(Hs _ _).
  assert (∀ z c rc, root (uf_parent u) c rc → same (uf_parent u) z c ↔ root (uf_parent u) z rc)
    as Hrc.
  { intros z c rc Hc. split; [|by exists rc]. intros (r & H1 & H2).
    by rewrite (root_fun _ _ _ _ Hc H2). }
  by rewrite !(Hrc _ _ _ Hra), !(Hrc _ _ _ Hrb).
Qed.

(** ** Components are the FK-connected components of the selection *)

(** [x] and [y] are the two ends of one of [fks] whose parent is selected. *)
Definition joined (inSel : gset TableRef) (fks : list ForeignKey) (x y : TableRef) : Prop :=
  ∃ fk, fk ∈ fks ∧ fk_Parent fk ∈ inSel ∧
    ((x = fk_Child fk ∧ y = fk_Parent fk) ∨ (x = fk_Parent fk ∧ y = fk_Child fk)).

Definition all_fks (selected : list Table) : list ForeignKey :=
  mjoin (tbl_ForeignKeys <$> selected).

(** Connected by in-selection FK edges, in either direction. *)
Definition connected (selected : list Table) : relation TableRef :=
  rtc (joined (inSelOf selected) (all_fks selected)).

(** What introspection guarantees: a table's FK edges start at the table. *)
Definition own_fks (selected : list Table) : Prop :=
  ∀ t fk, t ∈ selected → fk ∈ tbl_ForeignKeys t → fk_Child fk = tbl_Ref t.

Lemma joined_sym inSel fks : Symmetric (joined inSel fks).
Proof. intros x y (fk & ? & ? & ?). exists fk. tauto. Qed.

Lemma joined_snoc inSel fks fk x y :
  fk_Parent fk ∈ inSel →
  joined inSel (fks ++ [fk]) x y ↔ joined inSel fks x y ∨
    (x = fk_Child fk ∧ y = fk_Parent fk) ∨ (x = fk_Parent fk ∧ y = fk_Child fk).
Proof.
  intros Hin. split.
  - intros (fk' & Hf & HP & HE). apply elem_of_app in Hf as [Hf|Hf].
    + left. by exists fk'.
    + apply list_elem_of_singleton in Hf as ->. tauto.
  - intros [(fk' & Hf & HP & HE)|HE].
    + exists fk'. split; [|done]. apply elem_of_app. by left.
    + exists fk. split; [|done]. apply elem_of_app. right. by apply list_elem_of_singleton.
Qed.

Lemma elem_of_inSel selected r : r ∈ inSelOf selected ↔ r ∈ (tbl_Ref <$> selected).
Proof. unfold inSelOf. by rewrite elem_of_list_to_set. Qed.

Lemma elem_of_all_fks selected fk :
  fk ∈ all_fks selected ↔ ∃ t, t ∈ selected ∧ fk ∈ tbl_ForeignKeys t.
Proof.
  unfold all_fks. rewrite list_elem_of_join. setoid_rewrite list_elem_of_fmap. naive_solver.
Qed.

Lemma own_child_selected selected fk :
  own_fks selected → fk ∈ all_fks selected → fk_Child fk ∈ inSelOf selected.
Proof.
  intros Hown (t & Ht & Hfk)%elem_of_all_fks.
  rewrite (Hown t fk Ht Hfk), elem_of_inSel. by apply list_elem_of_fmap_2.
Qed.

(** The forest before any edge: every selected table on its own. *)
Lemma init_forest (l : list Table) :
  let u := foldl (λ u t, add u (tbl_Ref t)) newUnionFind l in
  uf_wf u ∧ (∀ x, is_Some (uf_parent u !! x) ↔ x ∈ (tbl_Ref <$> l)) ∧
  (∀ x r, root (uf_parent u) x r → r = x).
Proof.
  induction l as [|t l IH] using rev_ind; simpl.
  - split_and!.
    + intros x y H. simpl in H. by rewrite lookup_empty in H.
    + intros x. simpl. rewrite lookup_empty, elem_of_nil. split; [by intros []|done].
    + intros x r H%root_dom. simpl in H. rewrite lookup_empty in H. by destruct H.
  - rewrite foldl_snoc, fmap_app. destruct IH as (Hwf & Hdom & Hroot). split_and!.
    + by apply add_wf.
    + intros x. rewrite add_dom, Hdom, elem_of_app. simpl. rewrite list_elem_of_singleton. tauto.
    + intros x r. rewrite add_root by done. intros [?|(_ & -> & ->)]; eauto.
Qed.

(** Processing a list of FK edges joins exactly the classes they connect. *)
Lemma union_fks_spec (inSel : gset TableRef) (u0 : unionFind) (fks : list ForeignKey) :
  uf_wf u0 → (∀ x, x ∈ inSel → is_Some (uf_parent u0 !! x)) →
  (∀ x r, root (uf_parent u0) x r → r = x) →
  (∀ fk, fk ∈ fks → fk_Child fk ∈ inSel) →
  ∃ u, foldl (union_fk inSel) (Some u0) fks = Some u ∧ uf_wf u ∧
    (∀ x, x ∈ inSel → is_Some (uf_parent u !! x)) ∧
    (∀ x y, x ∈ inSel → y ∈ inSel →
       same (uf_parent u) x y ↔ rtc (joined inSel fks) x y).
Proof.
  intros Hwf0 Hdom0 Hroot0. induction fks as [|fk fks IH] using rev_ind; intros Hch.
  - exists u0. split_and!; [done..|]. intros x y Hx Hy. split.
    + intros (r & H1 & H2). rewrite (Hroot0 _ _ H1) in H2. apply Hroot0 in H2 as ->.
      apply rtc_refl.
    + intros H. assert (x = y) as ->.
      { inversion H as [|? z ? (fk & Hfk & _)]; [done|]. by apply elem_of_nil in Hfk. }
      destruct (root_exists _ _ Hwf0 _ (Hdom0 _ Hy)) as [r Hr]. by exists r.
  - destruct IH as (u & Hu & Hwf & Hdom & Hsame).
    { intros fk' ?. apply Hch. set_solver. }
    rewrite foldl_snoc, Hu. simpl. case_decide as Hin.
    + assert (fk_Child fk ∈ inSel) as Hc by (apply Hch; set_solver).
      destruct (union_spec u (fk_Child fk) (fk_Parent fk) Hwf) as (u' & -> & Hwf' & Hs);
        [by auto..|].
      exists u'. split_and!; [done..| |].
      * intros x Hx. destruct (root_exists _ _ Hwf x (Hdom x Hx)) as [r Hr].
        destruct (proj2 (Hs x x)) as (r' & Hr' & _); [left; by exists r|].
        by eapply root_dom.
      * intros x y Hx Hy. rewrite Hs, !Hsame by done.
        rewrite (rtc_add_edge (joined inSel fks) (joined inSel (fks ++ [fk])) (fk_Child fk) (fk_Parent fk)).
        -- assert (Symmetric (rtc (joined inSel fks))) as Hsym
             by (apply rtc_symmetric, joined_sym).
           split; intros [?|[[? ?]|[? ?]]]; eauto 7.
        -- apply joined_sym.
        -- intros a b. by apply joined_snoc.
    + exists u. split_and!; [done..|]. intros x y Hx Hy. rewrite Hsame by done.
      split; apply rtc_subrel; intros a b (fk' & Hfk' & HP & HE); exists fk';
        (split; [|done]); set_solver.
Qed.

Lemma union_all_spec selected :
  own_fks selected →
  ∃ u, union_all selected = Some u ∧ uf_wf u ∧
    (∀ x, x ∈ inSelOf selected → is_Some (uf_parent u !! x)) ∧
    (∀ x y, x ∈ inSelOf selected → y ∈ inSelOf selected →
       same (uf_parent u) x y ↔ connected selected x y).
Proof.
  intros Hown. unfold union_all. rewrite foldl_mjoin.
  destruct (init_forest selected) as (Hwf & Hdom & Hroot).
  apply union_fks_spec; [done| |done|].
  - intros x. by rewrite Hdom, elem_of_inSel.
  - intros fk ?. by apply own_child_selected.
Qed.

(** Grouping by representative: the groups partition the tables, and a group
    holds the tables of one class. *)
Definition groups_ok (p : gmap TableRef TableRef) (l : list Table)
    (groups : gmap TableRef (list Table)) : Prop :=
  mjoin (map_to_list groups).*2 ≡ₚ l ∧
  ∀ r ms, groups !! r = Some ms → ms ≠ [] ∧ ∀ t, t ∈ ms → root p (tbl_Ref t) r.

Lemma groups_ok_insert p l groups r t :
  groups_ok p l groups → root p (tbl_Ref t) r →
  groups_ok p (l ++ [t]) (<[r := default [] (groups !! r) ++ [t]]> groups).
Proof.
  intros [Hperm Hms] Hr. split.
  - rewrite <-insert_delete_eq, map_to_list_insert by apply lookup_delete_eq. simpl.
    assert (mjoin (map_to_list groups).*2 ≡ₚ
      default [] (groups !! r) ++ mjoin (map_to_list (delete r groups)).*2) as Hd.
    { destruct (groups !! r) as [ms|] eqn:E; simpl; [|by rewrite delete_id].
      rewrite <-(insert_delete_id groups r ms E) at 1.
      by rewrite map_to_list_insert by apply lookup_delete_eq. }
    rewrite <-Hperm, Hd. solve_Permutation.
  - intros r' ms. destruct (decide (r = r')) as [<-|Hne].
    + rewrite lookup_insert_eq. intros [= <-]. split; [by destruct (default [] _)|].
      intros t'. rewrite elem_of_app, list_elem_of_singleton. intros [Ht| ->]; [|done].
      destruct (groups !! r) as [ms|] eqn:E; simpl in Ht; [|by apply elem_of_nil in Ht].
      by apply (Hms _ _ E).
    + rewrite lookup_insert_ne by done. apply Hms.
Qed.

Lemma group_all_spec selected u :
  uf_wf u → (∀ x, x ∈ inSelOf selected → is_Some (uf_parent u !! x)) →
  ∃ u' groups, group_all selected u = Some (u', groups) ∧
    groups_ok (uf_parent u) selected groups.
Proof.
  intros Hwf Hdom.
  assert (∀ l, (∀ t, t ∈ l → is_Some (uf_parent u !! tbl_Ref t)) →
    ∃ u' groups, foldl group_step (Some (u, ∅)) l = Some (u', groups) ∧ uf_wf u' ∧
      same_roots (uf_parent u) (uf_parent u') ∧ groups_ok (uf_parent u) l groups) as Hind.
  { induction l as [|t l IH] using rev_ind; intros Hl.
    - exists u, ∅. split_and!; [done|done|by intros ??|].
      split; [by rewrite map_to_list_empty|]. intros r ms H. by rewrite lookup_empty in H.
    - destruct IH as (u' & groups & Hf & Hwf' & Hs & Hok).
      { intros t' ?. apply Hl. set_solver. }
      rewrite foldl_snoc, Hf. simpl.
      destruct (find_total u' (tbl_Ref t) Hwf') as (u2 & r & -> & Hr & Hwf2 & _ & Hs2).
      { apply (same_roots_dom u u'); [done..|]. apply Hl. set_solver. }
      eexists _, _. split; [done|]. split_and!; [done| |].
      + intros y s. by rewrite (Hs2 y s), (Hs y s).
      + apply groups_ok_insert; [done|]. by apply Hs. }
  destruct (Hind selected) as (u' & groups & Hf & _ & _ & Hok); [|by exists u', groups].
  intros t Ht. apply Hdom. rewrite elem_of_inSel. by apply list_elem_of_fmap_2.
Qed.

Lemma comp_Tables_build members inSel :
  comp_Tables (buildComponent members inSel) = sortRefs (tbl_Ref <$> members).
Proof. unfold buildComponent. by destruct (topoOrder _ _ _). Qed.

Lemma mjoin_perm_inner {A} (f g : A → list TableRef) (l : list A) :
  (∀ x, f x ≡ₚ g x) → mjoin (f <$> l) ≡ₚ mjoin (g <$> l).
Proof. intros Hfg. induction l as [|x l IH]; simpl; [done|]. by rewrite IH, (Hfg x). Qed.

Lemma mjoin_fmap {A B} (f : A → B) (ls : list (list A)) :
  f <$> mjoin ls = mjoin (fmap f <$> ls).
Proof. induction ls as [|l ls IH]; simpl; [done|]. by rewrite fmap_app, IH. Qed.

(** The tables of the components, read back from the groups. *)
Lemma components_of_groups (build : list Table → Component) p selected groups :
  (∀ ms, comp_Tables (build ms) = sortRefs (tbl_Ref <$> ms)) →
  groups_ok p selected groups →
  let comps := (λ '(_, ms), build ms) <$> map_to_list groups in
  mjoin (comp_Tables <$> comps) ≡ₚ tbl_Ref <$> selected ∧
  ∀ c, c ∈ comps → ∃ r ms, groups !! r = Some ms ∧ c = build ms.
Proof.
  intros Hb [Hperm Hms]. split.
  - rewrite <-Hperm, mjoin_fmap, <-!list_fmap_compose. apply mjoin_perm_inner.
    intros [r ms]. simpl. rewrite Hb. apply sort_by_perm.
  - intros c ([r ms] & -> & Hin%elem_of_map_to_list)%list_elem_of_fmap. by exists r, ms.
Qed.

(** A group holds every table of its class. *)
Lemma groups_complete p selected groups r ms t :
  groups_ok p selected groups → groups !! r = Some ms →
  t ∈ selected → root p (tbl_Ref t) r → t ∈ ms.
Proof.
  intros [Hperm Hms] Hr Ht Hroot. rewrite <-Hperm in Ht.
  apply list_elem_of_join in Ht as (ms' & Ht & Hin).
  apply list_elem_of_fmap in Hin as ([r' ms''] & -> & Hin%elem_of_map_to_list). simpl in *.
  assert (r' = r) as ->; [|congruence].
  eapply root_fun; [|done]. by apply (Hms _ _ Hin).
Qed.

(** The members of one group come from the selection. *)
Lemma groups_sub p selected groups r ms :
  groups_ok p selected groups → groups !! r = Some ms → ms ⊆+ selected.
Proof.
  intros [Hperm _] Hr. rewrite <-Hperm.
  rewrite <-(insert_delete_id groups r ms Hr), map_to_list_insert by apply lookup_delete_eq.
  simpl. by apply submseteq_inserts_r.
Qed.

(** Whatever builds a component from its members, grouping by the union-find
    classes partitions the selection into its connected components. *)
Lemma grouped_connected (build : list Table → Component) (selected : list Table) :
  (∀ ms, comp_Tables (build ms) = sortRefs (tbl_Ref <$> ms)) →
  own_fks selected →
  ∃ u u' groups, union_all selected = Some u ∧ group_all selected u = Some (u', groups) ∧
    groups_ok (uf_parent u) selected groups ∧
    let comps := sort_by comp_key ((λ '(_, ms), build ms) <$> map_to_list groups) in
    mjoin (comp_Tables <$> comps) ≡ₚ tbl_Ref <$> selected ∧
    (∀ c, c ∈ comps → ∃ ms, ms ⊆+ selected ∧ c = build ms) ∧
    ∀ c a b, c ∈ comps → a ∈ comp_Tables c → b ∈ tbl_Ref <$> selected →
      (b ∈ comp_Tables c ↔ connected selected a b).
Proof.
  intros Hbuild Hown.
  destruct (union_all_spec _ Hown) as (u & Hu & Hwf & Hdom & Hsame).
  destruct (group_all_spec _ u Hwf Hdom) as (u' & groups & Hg & Hok).
  destruct (components_of_groups build _ _ _ Hbuild Hok) as [Hperm Hcs].
  exists u, u', groups. do 3 (split; [done|]). intros comps. unfold comps. split_and!.
  { etransitivity; [|exact Hperm]. apply join_Permutation, fmap_Permutation, sort_by_perm. }
  { intros c Hc. rewrite elem_of_sort_by in Hc. destruct (Hcs c Hc) as (r & ms & Hr & ->).
    exists ms. split; [|done]. by eapply groups_sub. }
  intros c a b Hc Ha Hb. rewrite elem_of_sort_by in Hc.
  destruct (Hcs c Hc) as (r & ms & Hr & ->). rewrite Hbuild in *.
  unfold sortRefs in *. rewrite elem_of_sort_by in *.
  apply list_elem_of_fmap in Ha as (ta & -> & Hta), Hb as (tb & -> & Htb).
  assert (root (uf_parent u) (tbl_Ref ta) r) as Hra by by apply (proj2 Hok _ _ Hr).
  assert (ta ∈ selected) as Hsa.
  { eapply elem_of_submseteq; [done|by eapply groups_sub]. }
  rewrite <-Hsame; [|rewrite elem_of_inSel; by apply list_elem_of_fmap_2..]. split.
  - intros (t & Heq & Ht)%list_elem_of_fmap. exists r. split; [done|].
    rewrite Heq. by apply (proj2 Hok _ _ Hr).
  - intros (r' & H1 & H2). assert (r' = r) as -> by exact (root_fun _ _ _ _ H1 Hra).
    apply list_elem_of_fmap_2. by eapply groups_complete.
Qed.

(** C25: [Components] never fails on an introspected selection: its components
    partition the selected tables, and two selected tables share a component
    exactly when a path of foreign keys between selected tables joins them. So
    no FK edge between selected tables crosses a component boundary. *)
Theorem Components_connected (selected : list Table) :
  own_fks selected →
  ∃ comps, Components selected = Some comps ∧
    mjoin (comp_Tables <$> comps) ≡ₚ tbl_Ref <$> selected ∧
    ∀ c a b, c ∈ comps → a ∈ comp_Tables c → b ∈ tbl_Ref <$> selected →
      (b ∈ comp_Tables c ↔ connected selected a b).
Proof.
  intros Hown. unfold Components.
  destruct (grouped_connected (λ ms, buildComponent ms (inSelOf selected)) selected)
    as (u & u' & groups & -> & Hg & _ & H1 & _ & H2); [|done|].
  { intros ms. apply comp_Tables_build. }
  simpl. rewrite Hg. simpl. eexists. split; [done|]. by split.
Qed.

(** ** Kahn's algorithm *)

(** [c] is a child of [p] in the graph that [build_graph] fills. *)
Definition edge (ch : gmap TableRef (gset TableRef)) (p c : TableRef) : Prop :=
  c ∈ kids_of ch p.

#[global] Instance edge_dec ch p c : Decision (edge ch p c).
Proof. unfold edge. apply _. Defined.

(** The parents of [c] that have not been emitted yet. *)
Definition waiting (ch : gmap TableRef (gset TableRef)) (refs order : list TableRef)
    (c : TableRef) : list TableRef :=
  filter (λ p, edge ch p c ∧ p ∉ order) refs.

(** What the graph built from a component satisfies. *)
Record graph_ok (refs : list TableRef) (s : topoState) : Prop := {
  go_edge p c : edge (ts_children s) p c → p ∈ refs ∧ c ∈ refs ∧ p ≠ c;
  go_indeg c : indeg_of (ts_indeg s) c = length (waiting (ts_children s) refs [] c);
  go_dom x : is_Some (ts_indeg s !! x) ↔ x ∈ refs
}.

(** The FK edges of a component, as the code reads them. *)
Definition fk_in (memberSet inSel : gset TableRef) (fk : ForeignKey) : Prop :=
  fk_Parent fk ∈ inSel ∧ fk_Parent fk ∈ memberSet.

Lemma init_indeg_spec members :
  (∀ x, is_Some (init_indeg members !! x) ↔ x ∈ (tbl_Ref <$> members)) ∧
  (∀ x, indeg_of (init_indeg members) x = 0).
Proof.
  unfold init_indeg. induction members as [|m l IH] using rev_ind; simpl.
  - split; intros x; [rewrite lookup_empty, elem_of_nil; split; [by intros []|done]|].
    unfold indeg_of. by rewrite lookup_empty.
  - rewrite foldl_snoc, fmap_app. destruct IH as [IH1 IH2].
    set (d := foldl _ _ l) in *. simpl.
    destruct (d !! tbl_Ref m) eqn:E; split; intros x.
    + rewrite IH1, elem_of_app, list_elem_of_singleton. split; [by left|].
      intros [?| ->]; [done|]. apply IH1. by eexists.
    + apply IH2.
    + rewrite lookup_insert_is_Some, IH1, elem_of_app, list_elem_of_singleton.
      destruct (decide (tbl_Ref m = x)); naive_solver.
    + unfold indeg_of in *. destruct (decide (tbl_Ref m = x)) as [<-|].
      * by rewrite lookup_insert_eq.
      * by rewrite lookup_insert_ne.
Qed.

Section build.
Context (refs : list TableRef) (memberSet inSel : gset TableRef).
Context (Hnd : NoDup refs) (Hms : ∀ x, x ∈ memberSet ↔ x ∈ refs).

Lemma kids_of_insert ch p S x :
  kids_of (<[p := S]> ch) x = if decide (p = x) then S else kids_of ch x.
Proof. unfold kids_of. rewrite lookup_insert. by case_decide. Qed.

Lemma indeg_of_insert d c n x :
  indeg_of (<[c := n]> d) x = if decide (c = x) then n else indeg_of d x.
Proof. unfold indeg_of. rewrite lookup_insert. by case_decide. Qed.

Lemma add_edge_ok s fk :
  graph_ok refs s → fk_Child fk ∈ refs → graph_ok refs (add_edge memberSet inSel s fk).
Proof.
  intros [He Hi Hd] Hc. unfold add_edge.
  case_decide as Hout; [done|]. case_decide as Hself; [done|].
  case_decide as Hdup; [done|].
  assert (fk_Parent fk ∈ refs) as Hp.
  { apply Hms. destruct (decide (fk_Parent fk ∈ memberSet)); tauto. }
  assert (∀ p c, edge (<[fk_Parent fk := {[fk_Child fk]} ∪ kids_of (ts_children s) (fk_Parent fk)]>
      (ts_children s)) p c ↔
    edge (ts_children s) p c ∨ (p = fk_Parent fk ∧ c = fk_Child fk)) as Hedge.
  { intros p c. unfold edge. rewrite kids_of_insert. case_decide; set_solver. }
  split; simpl.
  - intros p c [?|[-> ->]]%Hedge; [by apply He|]. naive_solver.
  - intros c. rewrite indeg_of_insert. case_decide as Hcc.
    + subst c. rewrite Hi. symmetry. apply (length_filter_gain _ _ _ (fk_Parent fk)); [done..| |].
      * intros [H _]. done.
      * intros x. rewrite Hedge. set_solver.
    + rewrite Hi. f_equal. apply filter_ext_elem. intros x _. rewrite Hedge. naive_solver.
  - intros x. rewrite lookup_insert_is_Some, Hd.
    destruct (decide (fk_Child fk = x)); naive_solver.
Qed.

(** The edges and self-references the fold has recorded. *)
Lemma add_edges_ok s fks :
  graph_ok refs s → (∀ fk, fk ∈ fks → fk_Child fk ∈ refs) →
  graph_ok refs (foldl (add_edge memberSet inSel) s fks).
Proof.
  revert s. induction fks as [|fk fks IH]; intros s Hs Hfks; simpl; [done|].
  apply IH; [|intros ??; apply Hfks; by right].
  apply add_edge_ok; [done|]. apply Hfks. by left.
Qed.

End build.

Lemma add_edges_mono (memberSet inSel : gset TableRef) s fks fk :
  fk ∈ fks → fk_in memberSet inSel fk →
  let s' := foldl (add_edge memberSet inSel) s fks in
  if decide (fk_Child fk = fk_Parent fk) then fk_Child fk ∈ ts_selfCycle s'
  else edge (ts_children s') (fk_Parent fk) (fk_Child fk).
Proof.
  assert (∀ s fk, (∀ p c, edge (ts_children s) p c →
      edge (ts_children (add_edge memberSet inSel s fk)) p c) ∧
      ts_selfCycle s ⊆ ts_selfCycle (add_edge memberSet inSel s fk)) as Hstep.
  { clear. intros s fk. unfold add_edge. repeat case_decide; simpl; (split; [|set_solver]);
      try done. intros p c. unfold edge. rewrite kids_of_insert. case_decide; set_solver. }
  assert (∀ fks s, (∀ p c, edge (ts_children s) p c →
      edge (ts_children (foldl (add_edge memberSet inSel) s fks)) p c) ∧
      ts_selfCycle s ⊆ ts_selfCycle (foldl (add_edge memberSet inSel) s fks)) as Hmono.
  { clear -Hstep. induction fks as [|fk fks IH]; intros s; simpl; [done|].
    destruct (IH (add_edge memberSet inSel s fk)), (Hstep s fk). split; [by auto|].
    by etransitivity. }
  intros (l1 & l2 & ->)%list_elem_of_split [H1 H2]. simpl. rewrite foldl_app. simpl.
  set (s1 := foldl _ s l1). destruct (Hmono l2 (add_edge memberSet inSel s1 fk)) as [Hm1 Hm2].
  case_decide as Hself.
  - apply Hm2. unfold add_edge. rewrite decide_False by tauto. rewrite decide_True by done. set_solver.
  - apply Hm1. unfold add_edge. rewrite decide_False by tauto. rewrite decide_False by done.
    case_decide as Hin; [done|]. unfold edge. simpl. rewrite kids_of_insert, decide_True by done.
    set_solver.
Qed.

Lemma relax_spec self ks d q :
  NoDup ks →
  (∀ c, indeg_of (relax self ks d q).1 c
        = (if decide (c ∈ ks) then indeg_of d c - 1 else indeg_of d c)) ∧
  (relax self ks d q).2 ≡ₚ q ++ filter (λ c, indeg_of d c - 1 = 0 ∧ c ∉ self) ks.
Proof.
  revert d q. induction ks as [|k ks IH]; intros d q Hnd; simpl.
  { split; [done|]. by rewrite app_nil_r. }
  apply NoDup_cons in Hnd as [Hk Hnd].
  destruct (IH (<[k := indeg_of d k - 1]> d)
    (if decide (indeg_of (<[k := indeg_of d k - 1]> d) k = 0 ∧ k ∉ self)
     then sortRefs (q ++ [k]) else q) Hnd) as [IH1 IH2].
  split.
  - intros c. rewrite IH1, indeg_of_insert.
    destruct (decide (k = c)) as [->|].
    + rewrite decide_False by done. by rewrite decide_True by set_solver.
    + rewrite (decide_ext (c ∈ k :: ks) (c ∈ ks)); [done|]. set_solver.
  - rewrite IH2, indeg_of_insert, (decide_True (P := k = k)) by done.
    rewrite filter_cons.
    rewrite (filter_ext_elem _ (λ c, indeg_of d c - 1 = 0 ∧ c ∉ self) ks).
    2: { intros x Hx. rewrite indeg_of_insert. destruct (decide (k = x)) as [->|]; [by destruct Hk|done]. }
    destruct (decide (indeg_of d k - 1 = 0 ∧ k ∉ self)) as [Hz|Hz].
    + unfold sortRefs. rewrite sort_by_perm. solve_Permutation.
    + done.
Qed.

Section kahn.
Context (ch : gmap TableRef (gset TableRef)) (refs : list TableRef) (self : gset TableRef).
Context (Hnd : NoDup refs).
Context (Hedge : ∀ p c, edge ch p c → p ∈ refs ∧ c ∈ refs ∧ p ≠ c).

Lemma elem_of_waiting order p c : p ∈ waiting ch refs order c ↔ edge ch p c ∧ p ∉ order.
Proof. unfold waiting. rewrite list_elem_of_filter. naive_solver. Qed.

Lemma waiting_nil order c : waiting ch refs order c = [] ↔ ∀ p, edge ch p c → p ∈ order.
Proof.
  split.
  - intros Hw p Hp. destruct (decide (p ∈ order)); [done|].
    assert (p ∈ waiting ch refs order c) as Hin by by apply elem_of_waiting.
    rewrite Hw in Hin. by apply elem_of_nil in Hin.
  - intros Hall. destruct (waiting ch refs order c) as [|p l] eqn:E; [done|].
    assert (p ∈ waiting ch refs order c) as [Hp Hn]%elem_of_waiting by (rewrite E; by left).
    by destruct (Hn (Hall _ Hp)).
Qed.

(** Emitting [n] takes it off the waiting list of its children, and of no
    other table. *)
Lemma waiting_emit order n c :
  n ∉ order →
  length (waiting ch refs order c)
  = length (waiting ch refs (order ++ [n]) c) + (if decide (edge ch n c) then 1 else 0).
Proof.
  intros Hn. unfold waiting. case_decide as He; [rewrite Nat.add_1_r|rewrite Nat.add_0_r].
  - apply (length_filter_gain _ _ _ n); [done|by apply (Hedge n c)|set_solver|].
    intros x. rewrite not_elem_of_app, list_elem_of_singleton.
    destruct (decide (x = n)); naive_solver.
  - f_equal. apply filter_ext_elem. intros x _.
    rewrite not_elem_of_app, list_elem_of_singleton.
    destruct (decide (x = n)); naive_solver.
Qed.

Record kahn_inv (order queue : list TableRef) (d : gmap TableRef nat) : Prop := {
  ki_nodup : NoDup (order ++ queue);
  ki_mem x : x ∈ (order ++ queue) ↔
    x ∈ refs ∧ (x ∉ self) ∧ length (waiting ch refs order x) = 0;
  ki_indeg c : indeg_of d c = length (waiting ch refs order c);
  ki_before p x : x ∈ order → edge ch p x → before p x order
}.

Lemma kahn_step order n queue d :
  kahn_inv order (n :: queue) d →
  let r := relax self (sortRefs (elements (kids_of ch n))) d queue in
  kahn_inv (order ++ [n]) r.2 r.1.
Proof.
  intros [Hd Hm Hi Hb]. simpl.
  assert (NoDup (sortRefs (elements (kids_of ch n)))) as Hks.
  { apply NoDup_sort_by, NoDup_elements. }
  assert (∀ c, c ∈ sortRefs (elements (kids_of ch n)) ↔ edge ch n c) as Hin.
  { intros c. unfold sortRefs. by rewrite elem_of_sort_by, elem_of_elements. }
  destruct (relax_spec self _ d queue Hks) as [Hd' Hq].
  set (r := relax _ _ _ _) in *. clearbody r.
  assert (n ∉ order) as Hno.
  { apply NoDup_app in Hd as (_ & Hdis & _). intros Hx. apply (Hdis _ Hx). by left. }
  assert (∀ c, length (waiting ch refs (order ++ [n]) c)
     = (if decide (edge ch n c) then indeg_of d c - 1 else indeg_of d c)) as Hw.
  { intros c. rewrite Hi, (waiting_emit order n c Hno). case_decide; lia. }
  split.
  - rewrite Hq, app_assoc. apply NoDup_app. split_and!.
    + by rewrite <-app_assoc.
    + intros x Hx (_ & He%Hin)%list_elem_of_filter.
      rewrite <-app_assoc in Hx. apply Hm in Hx as (_ & _ & Hx).
      rewrite (waiting_emit order n x Hno), decide_True in Hx by done. lia.
    + by apply NoDup_filter.
  - intros x. rewrite Hq, app_assoc, elem_of_app, list_elem_of_filter, Hin, Hw.
    replace ((order ++ [n]) ++ queue) with (order ++ n :: queue) by by rewrite <-app_assoc.
    rewrite Hm, <-Hi. case_decide as He; [|naive_solver lia].
    assert (x ∈ refs) by by apply (Hedge n x). split; [|naive_solver].
    intros [(?&?&?)|?]; [|naive_solver]. split_and!; [done..|lia].
  - intros c. rewrite Hd', Hw. by rewrite (decide_ext _ _ _ _ (Hin c)).
  - intros p x [Hx|Hx]%elem_of_app He; [by apply before_app_r, Hb|].
    apply list_elem_of_singleton in Hx as ->. apply before_snoc.
    assert (n ∈ order ++ n :: queue) as (_ & _ & Hz)%Hm by set_solver.
    apply length_zero_iff_nil in Hz. by eapply waiting_nil.
Qed.

(** The queue is empty when the loop stops: every emitted table is a member,
    and none is emitted twice. *)
Lemma kahn_drains fuel queue d order :
  kahn_inv order queue d → length refs ≤ fuel + length order →
  ∃ order' d', kahn fuel ch self d queue order = (order', []) ∧ kahn_inv order' [] d'.
Proof.
  revert queue d order. induction fuel as [|fuel IH]; intros [|n queue] d order HI Hf; simpl.
  1, 3: by exists order, d.
  - exfalso. assert (length (order ++ n :: queue) ≤ length refs) as Hlen.
    { apply submseteq_length, NoDup_submseteq; [apply HI|]. intros x Hx%HI. tauto. }
    rewrite length_app in Hlen. simpl in Hlen. lia.
  - apply kahn_step in HI. simpl in HI.
    destruct (relax _ _ _ _) as [d' q']. apply IH; [done|]. rewrite length_app. simpl. lia.
Qed.
End kahn.

(** ** The apply order *)

(** [p] is the FK parent of [c] among the members. *)
Definition fk_edge (members : list Table) (p c : TableRef) : Prop :=
  p ∈ (tbl_Ref <$> members) ∧
  ∃ fk, fk ∈ all_fks members ∧ fk_Parent fk = p ∧ fk_Child fk = c.

Lemma build_graph_foldl members ms sel :
  build_graph members ms sel
  = foldl (add_edge ms sel) (mkTopo ∅ (init_indeg members) ∅) (all_fks members).
Proof. unfold build_graph, all_fks. by rewrite foldl_mjoin. Qed.

(** Everything the graph records comes from a foreign key of the component. *)
Lemma add_edges_sound ms sel fks s :
  (∀ p c, edge (ts_children (foldl (add_edge ms sel) s fks)) p c →
     edge (ts_children s) p c ∨
     p ≠ c ∧ ∃ fk, fk ∈ fks ∧ fk_in ms sel fk ∧ fk_Parent fk = p ∧ fk_Child fk = c) ∧
  (∀ x, x ∈ ts_selfCycle (foldl (add_edge ms sel) s fks) →
     x ∈ ts_selfCycle s ∨
     ∃ fk, fk ∈ fks ∧ fk_in ms sel fk ∧ fk_Parent fk = x ∧ fk_Child fk = x).
Proof.
  assert (∀ s fk, (∀ p c, edge (ts_children (add_edge ms sel s fk)) p c →
      edge (ts_children s) p c ∨
        p ≠ c ∧ fk_in ms sel fk ∧ fk_Parent fk = p ∧ fk_Child fk = c) ∧
      (∀ x, x ∈ ts_selfCycle (add_edge ms sel s fk) → x ∈ ts_selfCycle s ∨
         fk_in ms sel fk ∧ fk_Parent fk = x ∧ fk_Child fk = x)) as Hstep.
  { clear. intros s fk. unfold add_edge, fk_in.
    case_decide as H1; [by auto|]. apply Decidable.not_or in H1 as [H1%dec_stable H2%dec_stable].
    case_decide as H3; simpl; [set_solver|]. case_decide as H4; [by auto|]. split; [|by auto].
    intros p c. unfold edge. simpl. rewrite kids_of_insert.
    case_decide; subst; [|by auto]. intros [->%elem_of_singleton|]%elem_of_union; [|by auto].
    right. split_and!; [by apply not_eq_sym|done..]. }
  revert s. induction fks as [|fk fks IH]; intros s; simpl; [by auto|].
  destruct (IH (add_edge ms sel s fk)) as [IH1 IH2], (Hstep s fk) as [S1 S2].
  split.
  - intros p c [He|(?&fk'&?&?)]%IH1; [|set_solver].
    apply S1 in He as [?|(?&?&?&?)]; [by left|]. right. split; [done|]. exists fk. set_solver.
  - intros x [He|(fk'&?&?)]%IH2; [|set_solver].
    apply S2 in He as [?|(?&?&?)]; [by left|]. right. exists fk. set_solver.
Qed.

Section topo.
Context (members : list Table) (inSel : gset TableRef).
Context (Hnd : NoDup (tbl_Ref <$> members)) (Hown : own_fks members).
Context (Hsel : inSelOf members ⊆ inSel).
Abbreviation refs := (tbl_Ref <$> members).
Abbreviation graph := (build_graph members (inSelOf members) inSel).

Lemma graph_is_ok : graph_ok refs graph.
Proof.
  rewrite build_graph_foldl. apply add_edges_ok; [done|by apply elem_of_inSel| |].
  - destruct (init_indeg_spec members) as [H1 H2]. split; simpl.
    + intros p c. unfold edge, kids_of. by rewrite lookup_empty.
    + intros c. rewrite H2. unfold waiting. symmetry. apply length_zero_iff_nil.
      destruct (filter _ _) as [|p l] eqn:E; [done|].
      assert (p ∈ p :: l) as Hp by by left.
      rewrite <-E in Hp. apply list_elem_of_filter in Hp as [[He _] _].
      unfold edge, kids_of in He. by rewrite lookup_empty in He.
    + done.
  - intros fk Hfk. rewrite <-elem_of_inSel. by apply own_child_selected.
Qed.

Lemma graph_edge p c : edge (ts_children graph) p c ↔ p ≠ c ∧ fk_edge members p c.
Proof.
  rewrite build_graph_foldl. split.
  - intros [He|(?&fk&?&[? Hin]&?&?)]%add_edges_sound.
    { unfold edge, kids_of in He. simpl in He. by rewrite lookup_empty in He. }
    apply elem_of_inSel in Hin. subst. split; [done|]. split; [done|]. by exists fk.
  - intros (Hne & Hp & fk & Hfk & <- & <-).
    rewrite <-elem_of_inSel in Hp.
    pose proof (add_edges_mono (inSelOf members) inSel
      (mkTopo ∅ (init_indeg members) ∅) _ fk Hfk) as Hm. simpl in Hm.
    rewrite decide_False in Hm by congruence. apply Hm. split; [set_solver|done].
Qed.

Lemma graph_self x : x ∈ ts_selfCycle graph ↔ fk_edge members x x.
Proof.
  rewrite build_graph_foldl. split.
  - intros [He|(fk&?&[? Hin]&?&?)]%add_edges_sound; [set_solver|].
    apply elem_of_inSel in Hin. subst. split; [done|]. by exists fk.
  - intros (Hp & fk & Hfk & <- & Hc).
    rewrite <-elem_of_inSel in Hp.
    pose proof (add_edges_mono (inSelOf members) inSel
      (mkTopo ∅ (init_indeg members) ∅) _ fk Hfk) as Hm. simpl in Hm.
    rewrite decide_True in Hm by done. rewrite <-Hc at 1. apply Hm. split; [set_solver|done].
Qed.

Lemma initial_inv :
  kahn_inv (ts_children graph) refs (ts_selfCycle graph) [] (initial_queue graph) (ts_indeg graph).
Proof.
  destruct graph_is_ok as [He Hi Hd]. split.
  - simpl. apply NoDup_sort_by, NoDup_filter.
    apply (sublist_NoDup _ _ (NoDup_fst_map_to_list (ts_indeg graph))).
    apply fmap_sublist, sublist_filter.
  - intros x. simpl. unfold initial_queue, sortRefs.
    rewrite elem_of_sort_by, list_elem_of_filter, <-Hi, <-Hd, list_elem_of_fmap. unfold indeg_of.
    split.
    + intros [Hs ([y n] & -> & [Hz Hin%elem_of_map_to_list]%list_elem_of_filter)]. simpl in *.
      rewrite Hin. simpl. by eauto.
    + intros ([n Hn] & Hs & Hz). rewrite Hn in Hz. simpl in Hz. subst n. split; [done|].
      exists (x, 0). split; [done|]. apply list_elem_of_filter. split; [done|].
      by apply elem_of_map_to_list.
  - done.
  - intros p x Hx. by apply elem_of_nil in Hx.
Qed.

(** What the queue loop has emitted when it stops. *)
Lemma topoOrder_emitted :
  ∃ order, topoOrder members (inSelOf members) inSel
      = (order ++ sortRefs (filter (λ r, r ∉ order) refs),
         sortRefs (filter (λ r, r ∉ order) refs)) ∧
    NoDup order ∧
    (∀ x, x ∈ order ↔ x ∈ refs ∧ ¬ fk_edge members x x ∧
       ∀ p, fk_edge members p x → p ∈ order) ∧
    (∀ p x, x ∈ order → fk_edge members p x → before p x order).
Proof.
  unfold topoOrder.
  destruct graph_is_ok as [He Hi Hd].
  destruct (kahn_drains (ts_children graph) refs (ts_selfCycle graph) Hnd He (length members)
    (initial_queue graph) (ts_indeg graph) []) as (order & d & Hk & [H1 H2 H3 H4]);
    [apply initial_inv|rewrite length_fmap; simpl; lia|].
  rewrite Hk. exists order. rewrite app_nil_r in *.
  assert (∀ x, x ∈ order ↔ x ∈ refs ∧ ¬ fk_edge members x x ∧
       ∀ p, fk_edge members p x → p ∈ order) as Hmem.
  { intros x. rewrite H2, graph_self, length_zero_iff_nil, waiting_nil by done.
    setoid_rewrite graph_edge. split.
    - intros (?&?&Hp). split_and!; [done..|]. intros p Hpx. apply Hp.
      split; [by intros ->|done].
    - intros (?&?&Hp). split_and!; [done..|]. intros p [_ ?]. by apply Hp. }
  split; [done|]. split_and!; [done..|].
  intros p x Hx Hpx. apply H4; [done|]. apply graph_edge. split; [|done].
  intros ->. by apply Hmem in Hx as (?&?&?).
Qed.
End topo.

#[global] Instance fk_edge_dec members p c : Decision (fk_edge members p c).
Proof.
  refine (cast_if (decide (p ∈ (tbl_Ref <$> members) ∧
    Exists (λ fk, fk_Parent fk = p ∧ fk_Child fk = c) (all_fks members))));
    unfold fk_edge; rewrite Exists_exists in *; naive_solver.
Defined.

(** Walking up from [x] through tables that are never emitted must revisit one. *)
Lemma walk_up (E : relation TableRef) (refs : list TableRef) (stuck : TableRef → Prop) x :
  (∀ y, stuck y → y ∈ refs ∧ ∃ p, E p y ∧ stuck p) →
  stuck x → ∃ y, tc E y y ∧ rtc E y x.
Proof.
  intros Hup.
  assert (∀ n h l, length refs - length l ≤ n → NoDup (h :: l) → (h :: l) ⊆ refs → stuck h →
    (∀ y, y ∈ h :: l → rtc E h y ∧ rtc E y x) → ∃ y, tc E y y ∧ rtc E y x) as Hind.
  { induction n as [|n IH]; intros h l Hn Hnd Hsub Hst Hpath.
    - exfalso. assert (length (h :: l) ≤ length refs).
      { apply submseteq_length. by apply NoDup_submseteq. }
      simpl in *. lia.
    - destruct (Hup h Hst) as [_ (p & Hp & Hsp)].
      destruct (decide (p ∈ h :: l)) as [Hin|Hin].
      + destruct (Hpath p Hin) as [H1 H2]. exists p. split; [|done].
        eapply tc_rtc_r; [by apply tc_once|done].
      + apply (IH p (h :: l)); [|by constructor| |done|].
        * assert (length (h :: l) ≤ length refs).
          { apply submseteq_length. by apply NoDup_submseteq. }
          simpl in *. lia.
        * intros y [->|Hy]%elem_of_cons; [by apply Hup|by apply Hsub].
        * destruct (Hpath h) as [_ Hhx]; [by left|].
          intros y [->|Hy]%elem_of_cons.
          { split; [apply rtc_refl|]. by apply rtc_l with h. }
          destruct (Hpath y Hy). split; [|done]. by apply rtc_l with h. }
  intros Hst. apply (Hind (length refs) x []); [simpl; lia|apply NoDup_singleton| |done|].
  - intros y ->%list_elem_of_singleton. by apply Hup.
  - intros y ->%list_elem_of_singleton. split; apply rtc_refl.
Qed.

(** C24: the apply order of a component lists every member exactly once, puts
    every FK parent before each child that is outside the cyclic suffix, and
    the cyclic suffix holds exactly the members that an FK cycle (a
    self-reference included) reaches: those on a cycle and all their
    descendants. *)
Theorem topoOrder_correct (members : list Table) (inSel : gset TableRef) :
  NoDup (tbl_Ref <$> members) → own_fks members → inSelOf members ⊆ inSel →
  let '(order, cyclic) := topoOrder members (inSelOf members) inSel in
  order ≡ₚ tbl_Ref <$> members ∧
  (∀ p c, fk_edge members p c → c ∉ cyclic → before p c order) ∧
  (∀ x, x ∈ cyclic ↔ x ∈ tbl_Ref <$> members ∧
     ∃ y, tc (fk_edge members) y y ∧ rtc (fk_edge members) y x).
Proof.
  intros Hnd Hown Hsel.
  destruct (topoOrder_emitted members inSel Hnd Hown Hsel) as (order & -> & Hno & Hmem & Hbef).
  unfold sortRefs. split_and!.
  - rewrite sort_by_perm. etransitivity; [|apply (filter_app_perm (λ r, r ∈ order))].
    apply Permutation_app_tail. apply NoDup_Permutation; [done|by apply NoDup_filter|].
    intros x. rewrite list_elem_of_filter. rewrite Hmem. tauto.
  - intros p c Hpc Hc. apply before_app_r, Hbef; [|done].
    rewrite elem_of_sort_by, list_elem_of_filter in Hc.
    destruct (decide (c ∈ order)); [done|]. destruct Hc. split; [done|].
    destruct Hpc as (_ & fk & Hfk & _ & <-). rewrite <-elem_of_inSel.
    by apply own_child_selected.
  - assert (∀ y x, rtc (fk_edge members) y x → x ∈ order → y ∈ order ∧ pos y order ≤ pos x order)
      as Hback.
    { induction 1 as [x|x z y Hxz _ IH]; [done|]. intros [Hz Hle]%IH.
      split; [apply Hmem in Hz as (_ & _ & Hz); by apply Hz|]. apply Hbef in Hxz; [|done]. apply before_pos in Hxz; [|done]. lia. }
    intros x. rewrite elem_of_sort_by, list_elem_of_filter. split.
    + intros [Hx Hr]. split; [done|].
      apply (walk_up _ (tbl_Ref <$> members) (λ y, y ∈ (tbl_Ref <$> members) ∧ y ∉ order)); [|done].
      intros y [Hy Hyo]. split; [done|].
      destruct (decide (Exists (λ p, (p ∉ order) ∧ fk_edge members p y) (tbl_Ref <$> members)))
        as [(p & Hp & Hpo & Hpy)%Exists_exists|Hnone].
      { by exists p. }
      destruct (decide (fk_edge members y y)) as [Hyy|Hyy]; [by exists y|].
      destruct Hyo. apply Hmem. split_and!; [done..|]. intros p Hpy.
      destruct (decide (p ∈ order)); [done|]. destruct Hnone. apply Exists_exists.
      exists p. split; [apply Hpy|done].
    + intros [Hr (y & Hyy & Hyx)]. split; [|done]. intros Hx.
      destruct (Hback y x Hyx Hx) as [Hy _]. 
      assert (∃ z, fk_edge members y z ∧ rtc (fk_edge members) z y) as (z & Hyz & Hzy).
      { inversion Hyy; subst; eauto using rtc_refl, tc_rtc. }
      destruct (Hback z y Hzy Hy) as [Hz Hle].
      apply Hbef in Hyz; [|done]. apply before_pos in Hyz; [|done]. lia.
Qed.

Lemma biggest_of_spec best comps :
  (biggest_of best comps = best ∨ biggest_of best comps ∈ comps) ∧
  length (comp_Tables best) ≤ length (comp_Tables (biggest_of best comps)) ∧
  ∀ c, c ∈ comps → length (comp_Tables c) ≤ length (comp_Tables (biggest_of best comps)).
Proof.
  revert best. induction comps as [|c comps IH]; intros best; simpl.
  { split_and!; [by left|done|]. intros c Hc. by apply elem_of_nil in Hc. }
  destruct (decide _) as [Hlt|Hge].
  - destruct (IH c) as ([->|?] & ? & Hall); (split_and!; [set_solver|lia|]);
      intros c' [->|?]%elem_of_cons; auto; lia.
  - destruct (IH best) as ([->|?] & ? & Hall); (split_and!; [set_solver|lia|]);
      intros c' [->|?]%elem_of_cons; auto; lia.
Qed.

(** [DetectGiant] reports exactly when the selection has at least five
    tables and some component holds at least 60% of them; the component it
    names is then a largest one. *)
Theorem DetectGiant_spec (comps : list Component) (total : nat) :
  (giant_Present (DetectGiant comps total) = true ↔
     5 ≤ total ∧ ∃ c, c ∈ comps ∧ 3 * total ≤ 5 * length (comp_Tables c)) ∧
  (∀ c, giant_Component (DetectGiant comps total) = Some c →
     c ∈ comps ∧ ∀ c', c' ∈ comps → length (comp_Tables c') ≤ length (comp_Tables c)).
Proof.
  unfold DetectGiant, minTablesForGiantWarning. destruct comps as [|c0 comps].
  { split; [|done]. split; [done|]. intros (_ & c & Hc & _). by apply elem_of_nil in Hc. }
  destruct (decide (total < 5)) as [Hlt|Hge]; [split; [simpl; split; [done|lia]|done]|].
  destruct (biggest_of_spec c0 (c0 :: comps)) as (Hin & _ & Hmax).
  set (b := biggest_of c0 (c0 :: comps)) in *.
  assert (b ∈ c0 :: comps) as Hb by (destruct Hin as [->|]; [by left|done]).
  destruct (decide _) as [Hs|Hs].
  - split; [|done]. split; [done|]. intros (_ & c & Hc%Hmax & Hf). lia.
  - split; [|by intros c [= <-]]. split; [|done]. intros _. split; [lia|].
    exists b. split; [done|lia].
Qed.

(** ** Concrete selections *)

Definition sample_table (name : string) (parents : list string) : Table :=
  mkTable (mkRef "app" name) [] None []
    ((λ p, mkFK (name +:+ "_fk") (mkRef "app" name) ["ref"] (mkRef "app" p) ["id"] false)
       <$> parents) false EmptyString.

(** [orders -> customers], [audit] on its own. *)
Definition sample_selection : list Table :=
  [sample_table "orders" ["customers"]; sample_table "audit" []; sample_table "customers" []].

(** [tree -> tree] and [leaf -> tree]. *)
Definition sample_tree : list Table := [sample_table "leaf" ["tree"]; sample_table "tree" ["tree"]].

Lemma sample_own l : own_fks ((λ '(n, ps), sample_table n ps) <$> l).
Proof.
  intros t fk ([n ps] & -> & _)%list_elem_of_fmap Hfk. simpl in *.
  by apply list_elem_of_fmap in Hfk as (p & -> & _).
Qed.

Lemma Components_connected_witness :
  ∃ comps, Components sample_selection = Some comps ∧
    mjoin (comp_Tables <$> comps) ≡ₚ tbl_Ref <$> sample_selection ∧
    ∀ c a b, c ∈ comps → a ∈ comp_Tables c → b ∈ tbl_Ref <$> sample_selection →
      (b ∈ comp_Tables c ↔ connected sample_selection a b).
Proof.
  apply (Components_connected sample_selection),
    (sample_own [("orders", ["customers"]); ("audit", []); ("customers", [])]).
Defined.

Example Components_sample :
  Components sample_selection = Some
    [mkComponent [mkRef "app" "audit"] [mkRef "app" "audit"] [];
     mkComponent [mkRef "app" "customers"; mkRef "app" "orders"]
       [mkRef "app" "customers"; mkRef "app" "orders"] []].
Proof. vm_compute. reflexivity. Qed.

Lemma topoOrder_correct_witness :
  let '(order, cyclic) := topoOrder sample_selection (inSelOf sample_selection)
      (inSelOf sample_selection) in
  order ≡ₚ tbl_Ref <$> sample_selection ∧
  (∀ p c, fk_edge sample_selection p c → c ∉ cyclic → before p c order) ∧
  (∀ x, x ∈ cyclic ↔ x ∈ tbl_Ref <$> sample_selection ∧
     ∃ y, tc (fk_edge sample_selection) y y ∧ rtc (fk_edge sample_selection) y x).
Proof.
  apply (topoOrder_correct sample_selection).
  - apply (bool_decide_unpack _). vm_compute. exact I.
  - apply (sample_own [("orders", ["customers"]); ("audit", []); ("customers", [])]).
  - done.
Defined.

(** A table on no cycle can still be reported cyclic and ordered before its
    own parent: with [tree] referencing itself and [leaf] referencing [tree],
    both are in the cyclic suffix and the apply order is [leaf], [tree]. *)
Theorem topoOrder_leaf_before_tree :
  topoOrder sample_tree (inSelOf sample_tree) (inSelOf sample_tree)
    = ([mkRef "app" "leaf"; mkRef "app" "tree"], [mkRef "app" "leaf"; mkRef "app" "tree"]) ∧
  fk_edge sample_tree (mkRef "app" "tree") (mkRef "app" "leaf") ∧
  ¬ tc (fk_edge sample_tree) (mkRef "app" "leaf") (mkRef "app" "leaf").
Proof.
  split; [vm_compute; reflexivity|].
  split; [apply (bool_decide_unpack _); vm_compute; exact I|].
  assert (∀ c, ¬ fk_edge sample_tree (mkRef "app" "leaf") c) as Hno.
  { intros c (_ & fk & Hfk & Hp & _). revert Hfk Hp. unfold all_fks, sample_tree. simpl.
    rewrite !elem_of_cons, elem_of_nil. by intros [->|[->|[]]]. }
  inversion 1; subst; by eapply Hno.
Qed.

(** [DanglingEdges] returns exactly the foreign keys of selected tables
    whose parent is not selected, ordered by child name and then by parent name. *)
Theorem DanglingEdges_spec (selected : list Table) :
  (∀ fk, fk ∈ DanglingEdges selected ↔
     fk ∈ all_fks selected ∧ fk_Parent fk ∉ inSelOf selected) ∧
  StronglySorted dangling_le (DanglingEdges selected).
Proof.
  split.
  - intros fk. unfold DanglingEdges. rewrite merge_sort_Permutation, list_elem_of_filter. tauto.
  - apply StronglySorted_merge_sort.
    + intros a b c. unfold dangling_le.
      generalize (ref_string (fk_Child a)) (ref_string (fk_Child b)) (ref_string (fk_Child c)).
      intros x y z. repeat case_decide; subst; try congruence; intros Hab Hbc; try done.
      * by etransitivity.
      * exfalso. by apply H, (anti_symm str_le).
      * by etransitivity.
    + intros a b. unfold dangling_le. rewrite (decide_ext (_ (fk_Child b) = _) _ _ _ (symmetry_iff (=) _ _)).
      case_decide; apply str_le_total.
Qed.
End FkGraph.
