(* ===== verification/CyclicFk.v ===== *)
(** * Cyclic foreign keys of the Postgres engine
    ([internal/engine/postgres/cyclicfk.go], [fkcomponents.go] and the planning
    half of [cyclic.go])

    Every foreign key on a cycle (or a self-reference) between the selected
    tables is found by a depth-first search and classified by how its component
    can be loaded without touching the target's constraints. The Postgres engine
    orders a component by its remaining foreign keys: they form no cycle, so
    every member gets a position after all its other parents.

    [fkcomponents.go] repeats [fkgraph.go]'s union-find, so the model of
    [FkGraph] is shared. *)

From S2P Require Import Prelude Engine FkGraph.

Module CyclicFk.
Import FkGraph.

(** ** Classification ([cyclicfk.go]) *)

Inductive CyclicFKStrategy := CyclicDeferred | CyclicNullThenFill | CyclicBlocked.

#[global] Instance CyclicFKStrategy_eq_dec : EqDecision CyclicFKStrategy.
Proof. solve_decision. Defined.

Record CyclicFK := mkCyclicFK {
  cf_FK : ForeignKey;
  cf_Strategy : CyclicFKStrategy;
  cf_Nullable : bool;
  cf_Reason : string
}.

(** [CyclicFK.Blocked] *)
Definition cf_Blocked (c : CyclicFK) : bool := bool_decide (cf_Strategy c = CyclicBlocked).

Definition fkKey (fk : ForeignKey) : string :=
  ref_string (fk_Child fk) +:+ "->" +:+ ref_string (fk_Parent fk) +:+ ":" +:+ fk_Name fk.

Definition adj_of (adj : gmap TableRef (list TableRef)) (x : TableRef) : list TableRef :=
  default [] (adj !! x).

(** [reachable]: the loop, with the stack's top at the head; one unit of fuel per
    iteration. *)
Fixpoint reach_loop (fuel : nat) (adj : gmap TableRef (list TableRef)) (to : TableRef)
    (seen : gset TableRef) (stack : list TableRef) : option bool :=
  match stack, fuel with
  | [], _ => Some false
  | _, 0 => None
  | n :: stack, S fuel =>
      if decide (n = to) then Some true
      else if decide (n ∈ seen) then reach_loop fuel adj to seen stack
      else reach_loop fuel adj to ({[n]} ∪ seen) (reverse (adj_of adj n) ++ stack)
  end.

(** The adjacency entries of the tables not seen yet. *)
Definition weight (seen : gset TableRef) (adj : gmap TableRef (list TableRef)) : nat :=
  sum_list_with (λ '(x, l), if decide (x ∈ seen) then 0 else length l) (map_to_list adj).

Definition reachable (adj : gmap TableRef (list TableRef)) (from to : TableRef) : option bool :=
  reach_loop (S (weight ∅ adj)) adj to ∅ [from].

(** The child-to-parents adjacency of [classifyCyclicFKs]. *)
Definition add_adj (inSel : gset TableRef) (adj : gmap TableRef (list TableRef)) (fk : ForeignKey)
    : gmap TableRef (list TableRef) :=
  if decide (fk_Parent fk ∈ inSel)
  then <[fk_Child fk := adj_of adj (fk_Child fk) ++ [fk_Parent fk]]> adj else adj.

Definition adjacency (tables : list Table) : gmap TableRef (list TableRef) :=
  foldl (λ adj t, foldl (add_adj (inSelOf tables)) adj (tbl_ForeignKeys t)) ∅ tables.

Definition byRefOf (tables : list Table) : gmap TableRef Table :=
  foldl (λ m t, <[tbl_Ref t := t]> m) ∅ tables.

Definition anyChildColNullable (fk : ForeignKey) (byRef : gmap TableRef Table) : bool :=
  match byRef !! fk_Child fk with
  | None => false
  | Some child =>
      let nullableByName : gmap string bool :=
        foldl (λ m c, <[col_Name c := col_Nullable c]> m) ∅ (tbl_Columns child) in
      existsb (λ col, default false (nullableByName !! col)) (fk_ChildCols fk)
  end.

Definition classifyOne (fk : ForeignKey) (byRef : gmap TableRef Table) : CyclicFK :=
  let nullable := anyChildColNullable fk byRef in
  if fk_Deferrable fk then
    mkCyclicFK fk CyclicDeferred nullable
      "DEFERRABLE: load the component in one transaction with SET CONSTRAINTS DEFERRED"
  else if nullable then
    mkCyclicFK fk CyclicNullThenFill true "nullable FK column(s): NULL-then-fill two-pass load"
  else
    mkCyclicFK fk CyclicBlocked false
      "NOT NULL and non-deferrable FK on a cycle: cannot load without disabling the constraint; make the FK DEFERRABLE or break the cycle".

Definition onCycle (adj : gmap TableRef (list TableRef)) (fk : ForeignKey) : bool :=
  bool_decide (fk_Child fk = fk_Parent fk) ||
  default false (reachable adj (fk_Parent fk) (fk_Child fk)).

Definition classifyCyclicFKs (tables : list Table) : list CyclicFK :=
  let inSel := inSelOf tables in
  let byRef := byRefOf tables in
  let adj := adjacency tables in
  sort_by (λ c, fkKey (cf_FK c))
    ((λ fk, classifyOne fk byRef) <$>
       filter (λ fk, fk_Parent fk ∈ inSel ∧ onCycle adj fk = true)
         (mjoin (tbl_ForeignKeys <$> tables))).

(** The inner loop of [cyclicColsByTable]: [seen] is the set of the columns
    already in [out]. *)
Definition add_cols (cols : list string) (new : list string) : list string :=
  foldl (λ cols c, if decide (c ∈ cols) then cols else cols ++ [c]) cols new.

Definition cols_of (m : gmap TableRef (list string)) (x : TableRef) : list string := default [] (m !! x).

Definition cyclicColsByTable (cyc : list CyclicFK) : gmap TableRef (list string) :=
  foldl (λ out c, let cols := add_cols (cols_of out (fk_Child (cf_FK c))) (fk_ChildCols (cf_FK c)) in
                  match cols with [] => out | _ => <[fk_Child (cf_FK c) := cols]> out end) ∅ cyc.

Definition nullFillColsByTable (cyc : list CyclicFK) : gmap TableRef (list string) :=
  cyclicColsByTable (filter (λ c, cf_Strategy c = CyclicNullThenFill) cyc).

Definition anyBlockedCyclicFK (cs : list CyclicFK) : bool := existsb cf_Blocked cs.

(** ** The order of a component ([cyclic.go], [fkcomponents.go]) *)

(** The in-component foreign keys that impose an order. *)
Definition kept (inComp : gset TableRef) (cyclicEdge : gset string) (fk : ForeignKey) : Prop :=
  fk_Parent fk ∈ inComp ∧ (fkKey fk ∉ cyclicEdge) ∧ fk_Child fk ≠ fk_Parent fk.

#[global] Instance kept_dec inComp ce fk : Decision (kept inComp ce fk).
Proof. unfold kept. apply _. Defined.

Definition nc_add (inComp : gset TableRef) (cyclicEdge : gset string)
    (s : gmap TableRef (list TableRef) * gmap TableRef nat) (fk : ForeignKey)
    : gmap TableRef (list TableRef) * gmap TableRef nat :=
  if decide (kept inComp cyclicEdge fk) then
    (<[fk_Parent fk := adj_of s.1 (fk_Parent fk) ++ [fk_Child fk]]> s.1,
     <[fk_Child fk := S (indeg_of s.2 (fk_Child fk))]> s.2)
  else s.

Definition nc_graph (members : list Table) (cyclicEdge : gset string)
    : gmap TableRef (list TableRef) * gmap TableRef nat :=
  foldl (λ s t, foldl (nc_add (inSelOf members) cyclicEdge) s (tbl_ForeignKeys t))
    (∅, foldl (λ d t, <[tbl_Ref t := 0]> d) ∅ members) members.

(** The loop over the children of the table just emitted. *)
Fixpoint nc_relax (kids : list TableRef) (indeg : gmap TableRef nat) (ready : list TableRef)
    : gmap TableRef nat * list TableRef :=
  match kids with
  | [] => (indeg, ready)
  | c :: kids =>
      let indeg := <[c := indeg_of indeg c - 1]> indeg in
      nc_relax kids indeg (if decide (indeg_of indeg c = 0) then ready ++ [c] else ready)
  end.

Fixpoint nc_kahn (fuel : nat) (children : gmap TableRef (list TableRef)) (indeg : gmap TableRef nat)
    (queue order : list TableRef) : list TableRef * list TableRef :=
  match fuel, queue with
  | _, [] => (order, [])
  | 0, _ => (order, queue)
  | S fuel, n :: queue =>
      let '(indeg, ready) := nc_relax (adj_of children n) indeg [] in
      nc_kahn fuel children indeg (queue ++ sortRefs ready) (order ++ [n])
  end.

Definition nonCyclicTopoOrder (members : list Table) (cyclicEdge : gset string) : list TableRef :=
  let '(children, indeg) := nc_graph members cyclicEdge in
  let queue := sortRefs (filter (λ '(_, d), d = 0) (map_to_list indeg)).*1 in
  let order := (nc_kahn (length members) children indeg queue []).1 in
  if decide (length order < length members)
  then order ++ sortRefs (filter (λ r, r ∉ order) (tbl_Ref <$> members))
  else order.

(** [nonCyclicParents]: the distinct parents of one table, then of all members. *)
Definition kept_parents (inComp : gset TableRef) (cyclicEdge : gset string) (t : Table) : list TableRef :=
  foldl (λ ps p, if decide (p ∈ ps) then ps else ps ++ [p]) []
    (fk_Parent <$> filter (kept inComp cyclicEdge) (tbl_ForeignKeys t)).

Definition nonCyclicParents (members : list Table) (cyclicEdge : gset string)
    : gmap TableRef (list TableRef) :=
  foldl (λ out t,
    match adj_of out (tbl_Ref t) ++ kept_parents (inSelOf members) cyclicEdge t with
    | [] => out
    | ps => <[tbl_Ref t := sortRefs ps]> out
    end) ∅ members.

Definition allDeferrable (cyc : list CyclicFK) : bool :=
  match cyc with
  | [] => false
  | _ => forallb (λ c, bool_decide (cf_Strategy c = CyclicDeferred)) cyc
  end.

Definition cyclicEdgesOf (cyc : list CyclicFK) : gset string := list_to_set ((λ c, fkKey (cf_FK c)) <$> cyc).

(** [topoOrder] of [fkcomponents.go] *)
Definition topoOrder (members : list Table) (memberSet inSel : gset TableRef)
    : list TableRef * list TableRef :=
  let cyc := classifyCyclicFKs members in
  let cyclicMember : gset TableRef :=
    foldl (λ s c, {[fk_Parent (cf_FK c)]} ∪ ({[fk_Child (cf_FK c)]} ∪ s)) ∅ cyc in
  (nonCyclicTopoOrder members (cyclicEdgesOf cyc), sortRefs (elements cyclicMember)).

Definition buildComponent (members : list Table) (inSel : gset TableRef) : Component :=
  let refs := sortRefs (tbl_Ref <$> members) in
  let '(order, cyclic) := topoOrder members (inSelOf members) inSel in
  mkComponent refs order cyclic.

Definition computeComponents (selected : list Table) : option (list Component) :=
  u ← union_all selected;
  '(_, groups) ← group_all selected u;
  Some (sort_by comp_key
    ((λ '(_, members), buildComponent members (inSelOf selected)) <$> map_to_list groups)).

(** ** The depth-first search *)

Definition adj_edge (adj : gmap TableRef (list TableRef)) (x y : TableRef) : Prop := y ∈ adj_of adj x.

Lemma weight_skip seen n (ks : list (TableRef * list TableRef)) :
  n ∉ ks.*1 →
  sum_list_with (λ '(x, l), if decide (x ∈ seen) then 0 else length l) ks
  = sum_list_with (λ '(x, l), if decide (x ∈ ({[n]} ∪ seen : gset TableRef)) then 0 else length l) ks.
Proof.
  induction ks as [|[x lx] ks IH]; simpl; [done|]. intros [Hx Hks]%not_elem_of_cons.
  rewrite (IH Hks), (decide_ext (x ∈ seen) (x ∈ ({[n]} ∪ seen : gset TableRef))); [done|set_solver].
Qed.

Lemma weight_see adj seen n :
  n ∉ seen → weight seen adj = weight ({[n]} ∪ seen) adj + length (adj_of adj n).
Proof.
  intros Hn. unfold weight, adj_of. destruct (adj !! n) as [l|] eqn:E; simpl.
  - rewrite <-(insert_delete_id adj n l E), map_to_list_insert by apply lookup_delete_eq. simpl.
    rewrite decide_False by done. rewrite decide_True by set_solver.
    rewrite (weight_skip seen n); [lia|]. intros ([x lx] & Hx & Hin%elem_of_map_to_list)%list_elem_of_fmap.
    simpl in Hx. subst x. by rewrite lookup_delete_eq in Hin.
  - rewrite Nat.add_0_r. apply weight_skip. intros ([x lx] & Hx & Hin%elem_of_map_to_list)%list_elem_of_fmap.
    simpl in Hx. congruence.
Qed.

(** With a unit of fuel per pending entry the search answers, and its answer is
    reachability. *)
Lemma reach_loop_spec adj from to fuel seen stack :
  length stack + weight seen adj ≤ fuel →
  (∀ x, x ∈ stack → rtc (adj_edge adj) from x) →
  (from ∈ seen ∨ from ∈ stack) → to ∉ seen →
  (∀ x y, x ∈ seen → adj_edge adj x y → y ∈ seen ∨ y ∈ stack) →
  ∃ b, reach_loop fuel adj to seen stack = Some b ∧ (b = true ↔ rtc (adj_edge adj) from to).
Proof.
  revert seen stack. induction fuel as [|fuel IH]; intros seen [|n stack] Hf Hst Hfrom Hto Hcl; simpl.
  1, 3: exists false; split; [done|]; split; [done|]; intros Hr; exfalso; apply Hto;
    destruct Hfrom as [Hfrom|Hfrom]; [|by apply elem_of_nil in Hfrom]; clear -Hr Hfrom Hcl;
    induction Hr as [x|x y z Hxy _ IH]; [done|]; apply IH;
    destruct (Hcl x y Hfrom Hxy) as [?|Hy]; [done|by apply elem_of_nil in Hy].
  - simpl in Hf. lia.
  - simpl in Hf. case_decide as Hn.
    { subst n. exists true. split; [done|]. split; [|done]. intros _. apply Hst. by left. }
    case_decide as Hs.
    + apply IH; [lia|set_solver|set_solver|done|set_solver].
    + pose proof (weight_see adj seen n Hs) as Hw. apply IH.
      * rewrite length_app, length_reverse. lia.
      * intros x [Hx|Hx]%elem_of_app; [rewrite reverse_Permutation in Hx|apply Hst; by right].
        apply (rtc_r _ n); [apply Hst; by left|exact Hx].
      * set_solver.
      * set_solver.
      * intros x y Hx Hxy. rewrite elem_of_app, reverse_Permutation.
        destruct (decide (x = n)) as [->|Hxn]; [by right; left|].
        assert (x ∈ seen) as Hx' by set_solver. destruct (Hcl x y Hx' Hxy) as [?|?]; set_solver.
Qed.

Lemma reachable_spec adj from to :
  ∃ b, reachable adj from to = Some b ∧ (b = true ↔ rtc (adj_edge adj) from to).
Proof.
  apply reach_loop_spec; simpl; [lia|intros x ->%list_elem_of_singleton; apply rtc_refl|set_solver..].
Qed.

(** ** Which foreign keys are on a cycle *)

Lemma adjacency_edge tables x y : adj_edge (adjacency tables) x y ↔ fk_edge tables y x.
Proof.
  unfold fk_edge, adjacency. rewrite foldl_mjoin. fold (all_fks tables).
  setoid_rewrite <-elem_of_inSel. generalize (inSelOf tables) as sel. intros sel.
  assert (∀ fks adj, adj_edge (foldl (add_adj sel) adj fks) x y ↔
    adj_edge adj x y ∨ y ∈ sel ∧ ∃ fk, fk ∈ fks ∧ fk_Parent fk = y ∧ fk_Child fk = x) as Hind.
  { induction fks as [|fk fks IH]; intros adj; simpl; [set_solver|].
    rewrite IH. unfold add_adj at 1. case_decide as Hp; [|set_solver].
    unfold adj_edge at 1, adj_of at 1. destruct (decide (fk_Child fk = x)) as [Hc|Hc].
    - subst x. rewrite lookup_insert_eq. simpl. rewrite elem_of_app, list_elem_of_singleton.
      unfold adj_edge. set_solver.
    - rewrite lookup_insert_ne by done. unfold adj_edge, adj_of. set_solver. }
  rewrite Hind. unfold adj_edge, adj_of. rewrite lookup_empty. simpl. set_solver.
Qed.

Lemma rtc_flip {A} (R S : relation A) x y : (∀ a b, R a b ↔ S b a) → rtc R x y ↔ rtc S y x.
Proof.
  intros HRS. split.
  - induction 1 as [x|x z y Hxz _ IH]; [done|]. eapply rtc_r; [done|]. by apply HRS.
  - induction 1 as [x|x z y Hxz _ IH]; [done|]. eapply rtc_r; [done|]. by apply HRS.
Qed.

(** A selected edge is on a cycle when its parent is reachable from its child,
    following foreign keys from parents to children. *)
Definition on_cycle (tables : list Table) (fk : ForeignKey) : Prop :=
  fk_Parent fk ∈ (tbl_Ref <$> tables) ∧ rtc (fk_edge tables) (fk_Child fk) (fk_Parent fk).

Lemma onCycle_spec tables fk :
  onCycle (adjacency tables) fk = true ↔ rtc (fk_edge tables) (fk_Child fk) (fk_Parent fk).
Proof.
  unfold onCycle. rewrite orb_true_iff, bool_decide_eq_true.
  destruct (reachable_spec (adjacency tables) (fk_Parent fk) (fk_Child fk)) as (b & -> & Hb). simpl.
  rewrite Hb, (rtc_flip _ (fk_edge tables)) by apply adjacency_edge.
  split; [|by right]. intros [E|?]; [|done]. by rewrite E.
Qed.

Lemma elem_of_classify tables c :
  c ∈ classifyCyclicFKs tables ↔
  ∃ fk, fk ∈ all_fks tables ∧ on_cycle tables fk ∧ c = classifyOne fk (byRefOf tables).
Proof.
  unfold classifyCyclicFKs. rewrite elem_of_sort_by, list_elem_of_fmap.
  setoid_rewrite list_elem_of_filter. setoid_rewrite onCycle_spec. setoid_rewrite elem_of_inSel.
  unfold on_cycle, all_fks. naive_solver.
Qed.

Lemma classifyOne_FK fk byRef : cf_FK (classifyOne fk byRef) = fk.
Proof. unfold classifyOne. by repeat case_match. Qed.

(** ** The order of the kept edges *)

Definition count (c : TableRef) (l : list TableRef) : nat := length (filter (λ x, x = c) l).

Lemma count_zero c l : count c l = 0 ↔ c ∉ l.
Proof.
  unfold count. rewrite length_zero_iff_nil. split.
  - intros Hn Hc. assert (c ∈ filter (λ x, x = c) l) as H by by apply list_elem_of_filter.
    rewrite Hn in H. by apply elem_of_nil in H.
  - intros Hc. destruct (filter _ l) as [|x k] eqn:E; [done|].
    assert (x ∈ filter (λ x, x = c) l) as [-> H]%list_elem_of_filter by (rewrite E; by left). done.
Qed.

Lemma count_cons c x l : count c (x :: l) = (if decide (x = c) then 1 else 0) + count c l.
Proof. unfold count. rewrite filter_cons. case_decide; done. Qed.

Lemma nc_relax_spec ks d ready :
  (∀ c, count c ks ≤ indeg_of d c) →
  (∀ c, indeg_of (nc_relax ks d ready).1 c = indeg_of d c - count c ks) ∧
  (∀ c, c ∈ (nc_relax ks d ready).2 ↔ c ∈ ready ∨ c ∈ ks ∧ indeg_of d c = count c ks) ∧
  (NoDup ready → (∀ c, c ∈ ready → c ∉ ks) → NoDup (nc_relax ks d ready).2).
Proof.
  revert d ready. induction ks as [|k ks IH]; intros d ready Hle; simpl.
  { split_and!; [intros c; unfold count; simpl; lia|set_solver|done]. }
  set (d1 := <[k := indeg_of d k - 1]> d).
  assert (∀ c, indeg_of d1 c = indeg_of d c - (if decide (k = c) then 1 else 0)) as Hd1.
  { intros c. unfold d1. rewrite indeg_of_insert. case_decide; subst; lia. }
  assert (∀ c, count c ks ≤ indeg_of d1 c) as Hle1.
  { intros c. specialize (Hle c). rewrite count_cons in Hle. rewrite Hd1. lia. }
  destruct (IH d1 (if decide (indeg_of d1 k = 0) then ready ++ [k] else ready) Hle1) as (H1 & H2 & H3).
  assert (indeg_of d1 k = 0 → k ∉ ks) as Hk.
  { intros Hz. apply count_zero. specialize (Hle1 k). lia. }
  split_and!.
  - intros c. rewrite H1, Hd1, count_cons. lia.
  - intros c. rewrite H2, (Hd1 c), count_cons, elem_of_cons. specialize (Hle c). rewrite count_cons in Hle.
    destruct (decide (k = c)) as [->|Hne].
    + case_decide as Hz.
      * pose proof (Hk Hz) as Hnk. apply count_zero in Hnk. rewrite Hd1, decide_True in Hz by done. rewrite elem_of_app, list_elem_of_singleton. split; [|by auto].
        intros _. destruct (decide (c ∈ ready)); [by left|]. right. split; [by left|]. lia.
      * split; [intros [?|[? ?]]; [by left|right; split; [by right|lia]]|].
        intros [?|[? Heq]]; [by left|]. right. rewrite Hd1, decide_True in Hz by done.
        split; [|lia]. destruct (decide (c ∈ ks)) as [|Hn%count_zero]; [done|lia].
    + case_decide; [rewrite elem_of_app, list_elem_of_singleton|]; simpl; rewrite Nat.sub_0_r; naive_solver.
  - intros Hnd Hdis. apply H3.
    + case_decide; [|done]. apply NoDup_app. split; [done|]. split; [|apply NoDup_singleton].
      intros x Hx ->%list_elem_of_singleton. apply (Hdis k Hx). by left.
    + case_decide as Hz; [|set_solver]. intros c [Hc|Hc]%elem_of_app; [set_solver|].
      apply list_elem_of_singleton in Hc as ->. by apply Hk.
Qed.

Abbreviation edges := (list (TableRef * TableRef)).

(** The edges into [c] whose parent is not emitted. *)
Definition remaining (E : edges) (order : list TableRef) (c : TableRef) : nat :=
  length (filter (λ e, e.2 = c ∧ e.1 ∉ order) E).

Definition kids (E : edges) (p : TableRef) : list TableRef := (filter (λ e, e.1 = p) E).*2.

Lemma remaining_emit E order n c :
  n ∉ order → remaining E order c = remaining E (order ++ [n]) c + count c (kids E n).
Proof.
  intros Hn. unfold remaining, kids. induction E as [|[p x] E IH]; [done|].
  rewrite !filter_cons. simpl.
  destruct (decide (p = n)) as [->|Hpn].
  - rewrite fmap_cons, count_cons. simpl.
    rewrite (decide_False (P := x = c ∧ n ∉ order ++ [n])) by set_solver.
    destruct (decide (x = c)) as [->|Hx].
    + rewrite decide_True by done. simpl. lia.
    + rewrite decide_False by tauto. lia.
  - rewrite (decide_ext (x = c ∧ p ∉ order ++ [n]) (x = c ∧ p ∉ order)) by set_solver.
    case_decide; simpl; lia.
Qed.

Lemma remaining_zero E order c : remaining E order c = 0 ↔ ∀ p, (p, c) ∈ E → p ∈ order.
Proof.
  unfold remaining. rewrite length_zero_iff_nil. split.
  - intros Hn p Hp. destruct (decide (p ∈ order)) as [|Hpo]; [done|].
    assert ((p, c) ∈ filter (λ e, e.2 = c ∧ e.1 ∉ order) E) as H by by apply list_elem_of_filter.
    rewrite Hn in H. by apply elem_of_nil in H.
  - intros Hall. destruct (filter _ E) as [|[p x] k] eqn:Ef; [done|].
    assert ((p, x) ∈ filter (λ e, e.2 = c ∧ e.1 ∉ order) E) as [[Hx Hp] H]%list_elem_of_filter
      by (rewrite Ef; by left). simpl in *. subst x. by destruct Hp; apply Hall.
Qed.

Lemma elem_of_kids E p c : c ∈ kids E p ↔ (p, c) ∈ E.
Proof.
  unfold kids. rewrite list_elem_of_fmap. setoid_rewrite list_elem_of_filter. split.
  - intros ([a b] & -> & Ha & Hin). simpl in *. by subst.
  - intros H. by exists (p, c).
Qed.

Section nc_kahn.
Context (E : edges) (refs : list TableRef) (ch : gmap TableRef (list TableRef)).
Context (Hnd : NoDup refs) (Hrefs : ∀ p c, (p, c) ∈ E → p ∈ refs ∧ c ∈ refs).
Context (Hch : ∀ p, adj_of ch p = kids E p).

Record nc_inv (order queue : list TableRef) (d : gmap TableRef nat) : Prop := {
  nc_nodup : NoDup (order ++ queue);
  nc_mem x : x ∈ (order ++ queue) ↔ x ∈ refs ∧ remaining E order x = 0;
  nc_indeg c : indeg_of d c = remaining E order c;
  nc_before p x : x ∈ order → (p, x) ∈ E → before p x order
}.

Lemma nc_step order n queue d :
  nc_inv order (n :: queue) d →
  let r := nc_relax (adj_of ch n) d [] in nc_inv (order ++ [n]) (queue ++ sortRefs r.2) r.1.
Proof.
  intros [Hd Hm Hi Hb]. simpl. rewrite Hch.
  assert (n ∉ order) as Hno.
  { apply NoDup_app in Hd as (_ & Hdis & _). intros Hx. apply (Hdis _ Hx). by left. }
  assert (∀ c, remaining E (order ++ [n]) c = indeg_of d c - count c (kids E n)) as Hw.
  { intros c. rewrite Hi, (remaining_emit E order n c Hno). lia. }
  destruct (nc_relax_spec (kids E n) d []) as (R1 & R2 & R3).
  { intros c. rewrite Hi, (remaining_emit E order n c Hno). lia. }
  set (r := nc_relax _ _ _) in *. clearbody r.
  assert (∀ c, c ∈ r.2 ↔ (n, c) ∈ E ∧ remaining E (order ++ [n]) c = 0) as Hready.
  { intros c. rewrite R2, elem_of_kids, Hw. split.
    - intros [Hc|[? ?]]; [by apply elem_of_nil in Hc|split; [done|lia]].
    - intros [? Hz]. right. split; [done|]. rewrite Hi, (remaining_emit E order n c Hno), Hw, Hz. lia. }
  assert (∀ x, x ∈ (order ++ n :: queue) → x ∉ r.2) as Hdisj.
  { intros x [_ Hx]%Hm [He _]%Hready. rewrite remaining_zero in Hx. by apply Hno, (Hx n). }
  split.
  - rewrite app_assoc. unfold sortRefs. rewrite (sort_by_perm ref_string r.2).
    apply NoDup_app. split_and!.
    + by rewrite <-app_assoc.
    + intros x Hx. apply Hdisj. by rewrite <-app_assoc in Hx.
    + apply R3; [apply NoDup_nil_2|]. intros c Hc. by apply elem_of_nil in Hc.
  - intros x. rewrite app_assoc, elem_of_app. unfold sortRefs. rewrite elem_of_sort_by, Hready.
    replace ((order ++ [n]) ++ queue) with (order ++ n :: queue) by by rewrite <-app_assoc.
    rewrite Hm. rewrite !remaining_zero. setoid_rewrite elem_of_app. setoid_rewrite list_elem_of_singleton.
    split.
    + intros [[Hx Hz]|[He Hz]]; [by eauto|]. split; [by apply (Hrefs n x)|done].
    + intros [Hx Hz]. destruct (decide ((n, x) ∈ E)) as [He|He]; [by right|]. left. split; [done|].
      intros p Hp. destruct (Hz p Hp) as [?|Heq]; [done|]. by subst p.
  - intros c. by rewrite R1, Hw.
  - intros p x [Hx|Hx]%elem_of_app He; [by apply before_app_r, Hb|].
    apply list_elem_of_singleton in Hx as ->. apply before_snoc.
    assert (n ∈ order ++ n :: queue) as [_ Hz]%Hm by set_solver.
    rewrite remaining_zero in Hz. by apply Hz.
Qed.

Lemma nc_drains fuel queue d order :
  nc_inv order queue d → length refs ≤ fuel + length order →
  ∃ order' d', nc_kahn fuel ch d queue order = (order', []) ∧ nc_inv order' [] d'.
Proof.
  revert queue d order. induction fuel as [|fuel IH]; intros [|n queue] d order HI Hf; simpl.
  1, 3: by exists order, d.
  - exfalso. assert (length (order ++ n :: queue) ≤ length refs) as Hlen.
    { apply submseteq_length, NoDup_submseteq; [apply HI|]. intros x Hx%HI. tauto. }
    rewrite length_app in Hlen. simpl in Hlen. lia.
  - apply nc_step in HI. simpl in HI.
    destruct (nc_relax _ _ _) as [d' q']. apply IH; [done|]. rewrite length_app. simpl. lia.
Qed.
End nc_kahn.

(** The kept edges of the members. *)
Definition kept_edges (members : list Table) (ce : gset string) : edges :=
  (λ fk, (fk_Parent fk, fk_Child fk)) <$> filter (kept (inSelOf members) ce) (all_fks members).

Lemma elem_of_kept_edges members ce p c :
  (p, c) ∈ kept_edges members ce ↔
  ∃ fk, fk ∈ all_fks members ∧ kept (inSelOf members) ce fk ∧ fk_Parent fk = p ∧ fk_Child fk = c.
Proof.
  unfold kept_edges. rewrite list_elem_of_fmap. setoid_rewrite list_elem_of_filter. naive_solver.
Qed.

Lemma zero_indeg (members : list Table) :
  let d := foldl (λ d t, <[tbl_Ref t := 0]> d) ∅ members in
  (∀ c, indeg_of d c = 0) ∧ (∀ x, is_Some (d !! x) ↔ x ∈ tbl_Ref <$> members).
Proof.
  induction members as [|t l IH] using rev_ind; simpl.
  { split; [done|]. intros x. rewrite lookup_empty, elem_of_nil. split; [by intros []|done]. }
  rewrite foldl_snoc, fmap_app. simpl in IH. destruct IH as [H1 H2]. split.
  - intros c. rewrite indeg_of_insert. by case_decide.
  - intros x. rewrite elem_of_app, list_elem_of_fmap. simpl. rewrite lookup_insert_is_Some, H2, list_elem_of_fmap.
    destruct (decide (tbl_Ref t = x)); set_solver.
Qed.

Lemma nc_graph_spec members ce :
  own_fks members →
  (∀ p, adj_of (nc_graph members ce).1 p = kids (kept_edges members ce) p) ∧
  (∀ c, indeg_of (nc_graph members ce).2 c = remaining (kept_edges members ce) [] c) ∧
  (∀ x, is_Some ((nc_graph members ce).2 !! x) ↔ x ∈ tbl_Ref <$> members).
Proof.
  intros Hown. unfold nc_graph, kept_edges. rewrite foldl_mjoin. fold (all_fks members).
  pose proof (own_child_selected members) as Hch. setoid_rewrite <-elem_of_inSel.
  destruct (zero_indeg members) as [Hz Hdom]. setoid_rewrite <-elem_of_inSel in Hdom.
  assert (∀ fk, fk ∈ all_fks members → fk_Child fk ∈ inSelOf members) as Hall by by auto.
  revert Hz Hdom Hall. generalize (inSelOf members) as sel, (all_fks members) as fks.
  intros sel fks. set (d0 := foldl _ ∅ members). clearbody d0. intros Hz Hdom Hall.
  induction fks as [|fk fks IH] using rev_ind; simpl.
  { split_and!; [done|intros c; by rewrite Hz|done]. }
  destruct IH as (H1 & H2 & H3); [set_solver|]. rewrite foldl_snoc, filter_app, fmap_app.
  set (s := foldl _ _ fks) in *. unfold nc_add. rewrite filter_cons, filter_nil.
  case_decide as Hk; simpl; [|by rewrite app_nil_r].
  split_and!.
  - intros p. unfold kids. rewrite filter_app, fmap_app, filter_cons, filter_nil. fold (kids (
      (λ fk, (fk_Parent fk, fk_Child fk)) <$> filter (kept sel ce) fks) p). rewrite <-H1.
    unfold adj_of at 1. simpl. destruct (decide (fk_Parent fk = p)) as [<-|Hp].
    + by rewrite lookup_insert_eq.
    + rewrite lookup_insert_ne by done. by rewrite app_nil_r.
  - intros c. rewrite indeg_of_insert. unfold remaining. rewrite filter_app, length_app, filter_cons, filter_nil.
    fold (remaining ((λ fk, (fk_Parent fk, fk_Child fk)) <$> filter (kept sel ce) fks) [] c).
    rewrite <-H2. simpl. destruct (decide (fk_Child fk = c)) as [->|Hc].
    + rewrite decide_True by (split; [done|apply not_elem_of_nil]). simpl. lia.
    + rewrite decide_False by tauto. simpl. lia.
  - intros x. rewrite lookup_insert_is_Some, H3. split; [|destruct (decide (fk_Child fk = x)); by auto].
    intros [<-|[_ ?]]; [|done]. apply Hall. set_solver.
Qed.

(** The loop emits every member whose parents it emitted, parents first; the
    rest follows in name order. *)
Lemma nonCyclicTopoOrder_emitted members ce :
  NoDup (tbl_Ref <$> members) → own_fks members →
  ∃ order, nonCyclicTopoOrder members ce ≡ₚ tbl_Ref <$> members ∧
    nonCyclicTopoOrder members ce = order ++ sortRefs (filter (λ r, r ∉ order) (tbl_Ref <$> members)) ∧
    (∀ x, x ∈ order ↔ x ∈ tbl_Ref <$> members ∧ ∀ p, (p, x) ∈ kept_edges members ce → p ∈ order) ∧
    (∀ p x, x ∈ order → (p, x) ∈ kept_edges members ce → before p x order).
Proof.
  intros Hnd Hown. unfold nonCyclicTopoOrder.
  destruct (nc_graph_spec members ce Hown) as (Hc & Hi & Hd).
  destruct (nc_graph members ce) as [ch d]. simpl in *.
  set (queue := sortRefs (filter (λ '(_, d), d = 0) (map_to_list d)).*1).
  assert (nc_inv (kept_edges members ce) (tbl_Ref <$> members) [] queue d) as Hinit.
  { split; [| |done|intros p x Hx; by apply elem_of_nil in Hx].
    - simpl. apply NoDup_sort_by. apply (sublist_NoDup _ _ (NoDup_fst_map_to_list d)).
      apply fmap_sublist, sublist_filter.
    - intros x. simpl. unfold queue, sortRefs. rewrite elem_of_sort_by, <-Hi, <-Hd, list_elem_of_fmap. unfold indeg_of.
      split.
      + intros ([y n] & -> & [Hz Hin%elem_of_map_to_list]%list_elem_of_filter). simpl in *.
        rewrite Hin. simpl. by eauto.
      + intros ([n Hn] & Hz). rewrite Hn in Hz. simpl in Hz. subst n.
        exists (x, 0). split; [done|]. apply list_elem_of_filter. split; [done|].
        by apply elem_of_map_to_list. }
  assert (∀ p c, (p, c) ∈ kept_edges members ce → p ∈ tbl_Ref <$> members ∧ c ∈ tbl_Ref <$> members) as Hrefs.
  { intros p c (fk & Hfk & Hk & <- & <-)%elem_of_kept_edges. rewrite <-!elem_of_inSel.
    split; [apply Hk|by apply own_child_selected]. }
  destruct (nc_drains _ _ _ Hnd Hrefs Hc (length members) queue d [] Hinit) as (order & d' & -> & [H1 H2 _ H4]).
  { rewrite length_fmap. simpl. lia. }
  exists order. rewrite app_nil_r in *. simpl. setoid_rewrite remaining_zero in H2.
  assert (order ++ sortRefs (filter (λ r, r ∉ order) (tbl_Ref <$> members)) ≡ₚ tbl_Ref <$> members) as Hp.
  { unfold sortRefs. rewrite sort_by_perm.
    etransitivity; [|apply (filter_app_perm (λ r, r ∈ order))].
    apply Permutation_app_tail. apply NoDup_Permutation; [done|by apply NoDup_filter|].
    intros x. rewrite list_elem_of_filter, H2. tauto. }
  case_decide as Hl; [by split_and!|].
  apply Permutation_length in Hp as Hlen. rewrite length_app, length_fmap in Hlen.
  destruct (sortRefs (filter _ _)) as [|? ?]; [|simpl in *; lia].
  rewrite app_nil_r in *. by split_and!.
Qed.

(** Foreign keys of one selection have distinct keys, as constraint names are
    unique per table. *)
Definition distinct_fks (members : list Table) : Prop :=
  ∀ f g, f ∈ all_fks members → g ∈ all_fks members → fkKey f = fkKey g → f = g.

Lemma elem_of_cyclicEdges members fk :
  distinct_fks members → fk ∈ all_fks members →
  fkKey fk ∈ cyclicEdgesOf (classifyCyclicFKs members) ↔ on_cycle members fk.
Proof.
  intros Hinj Hfk. unfold cyclicEdgesOf. rewrite elem_of_list_to_set, list_elem_of_fmap. split.
  - intros (c & Hk & Hc). apply elem_of_classify in Hc as (g & Hg & Hon & ->).
    rewrite classifyOne_FK in Hk. by rewrite (Hinj fk g Hfk Hg Hk).
  - intros Hon. exists (classifyOne fk (byRefOf members)). rewrite classifyOne_FK. split; [done|].
    apply elem_of_classify. by exists fk.
Qed.

(** Off the cycles no kept edge is lost, and the kept edges form no cycle. *)
Lemma kept_acyclic members y :
  distinct_fks members → own_fks members →
  ¬ tc (λ p c, (p, c) ∈ kept_edges members (cyclicEdgesOf (classifyCyclicFKs members))) y y.
Proof.
  intros Hinj Hown Hy. set (K := λ p c, (p, c) ∈ kept_edges members _) in Hy.
  assert (∀ p c, K p c → fk_edge members p c) as Hsub.
  { intros p c (fk & Hfk & [Hp _] & <- & <-)%elem_of_kept_edges. split; [by apply elem_of_inSel|]. by exists fk. }
  assert (∃ z, K y z ∧ rtc K z y) as (z & Hyz & Hzy).
  { inversion Hy; subst; eauto using rtc_refl, tc_rtc. }
  apply elem_of_kept_edges in Hyz as (fk & Hfk & (Hp & Hk & _) & Hpp & Hc).
  apply Hk, elem_of_cyclicEdges; [done..|]. split; [by apply elem_of_inSel|]. rewrite Hc, Hpp.
  clear -Hzy Hsub. induction Hzy as [x|x w y Hxw _ IH]; [done|]. eapply rtc_l; [by apply Hsub|done].
Qed.

Lemma topoOrder_fst members ms sel :
  (topoOrder members ms sel).1 = nonCyclicTopoOrder members (cyclicEdgesOf (classifyCyclicFKs members)).
Proof. done. Qed.

Lemma elem_of_cyclic_list members ms sel x :
  x ∈ (topoOrder members ms sel).2 ↔
  ∃ fk, fk ∈ all_fks members ∧ on_cycle members fk ∧ (x = fk_Child fk ∨ x = fk_Parent fk).
Proof.
  unfold topoOrder, sortRefs. simpl. rewrite elem_of_sort_by, elem_of_elements.
  assert (∀ cyc s, x ∈ (foldl (λ s c, {[fk_Parent (cf_FK c)]} ∪ ({[fk_Child (cf_FK c)]} ∪ s)) s cyc : gset TableRef) ↔
    x ∈ s ∨ ∃ c, c ∈ cyc ∧ (x = fk_Child (cf_FK c) ∨ x = fk_Parent (cf_FK c))) as Hind.
  { induction cyc as [|c cyc IH]; intros s; simpl; [set_solver|]. rewrite IH. set_solver. }
  rewrite Hind. split.
  - intros [?|(c & (fk & Hfk & Hon & ->)%elem_of_classify & Hx)]; [set_solver|].
    rewrite classifyOne_FK in Hx. by exists fk.
  - intros (fk & Hfk & Hon & Hx). right. exists (classifyOne fk (byRefOf members)).
    rewrite classifyOne_FK. split; [|done]. apply elem_of_classify. by exists fk.
Qed.

(** The order of one component's members: each once, and the parent of every
    foreign key that is on no cycle before its child. *)
Lemma topoOrder_spec (members : list Table) (inSel : gset TableRef) :
  NoDup (tbl_Ref <$> members) → own_fks members → distinct_fks members →
  let '(order, cyclic) := topoOrder members (inSelOf members) inSel in
  order ≡ₚ tbl_Ref <$> members ∧
  (∀ fk, fk ∈ all_fks members → fk_Parent fk ∈ tbl_Ref <$> members → ¬ on_cycle members fk →
     before (fk_Parent fk) (fk_Child fk) order) ∧
  (∀ x, x ∈ cyclic ↔ ∃ fk, fk ∈ all_fks members ∧ on_cycle members fk ∧ (x = fk_Child fk ∨ x = fk_Parent fk)).
Proof.
  intros Hnd Hown Hinj. rewrite (surjective_pairing (topoOrder _ _ _)), topoOrder_fst.
  set (ce := cyclicEdgesOf (classifyCyclicFKs members)).
  destruct (nonCyclicTopoOrder_emitted members ce Hnd Hown) as (order & Hperm & Heq & Hmem & Hbef).
  split_and!; [done| |intros x; apply elem_of_cyclic_list].
  assert (∀ x, x ∈ tbl_Ref <$> members → x ∈ order) as Hall.
  { intros x Hx. destruct (decide (x ∈ order)) as [|Hn]; [done|]. exfalso.
    destruct (walk_up (λ p c, (p, c) ∈ kept_edges members ce) (tbl_Ref <$> members)
      (λ y, y ∈ tbl_Ref <$> members ∧ y ∉ order) x) as (y & Hy & _); [|done|by eapply kept_acyclic].
    intros y [Hy Hyo]. split; [done|].
    destruct (decide (Exists (λ e, e.2 = y ∧ e.1 ∉ order) (kept_edges members ce))) as [He|He].
    - apply Exists_exists in He as ([p c] & Hin & Hc & Hp). simpl in *. subst c. exists p. split; [done|].
      split; [|done]. apply elem_of_kept_edges in Hin as (fk & _ & [Hpar _] & <- & _). by apply elem_of_inSel.
    - destruct Hyo. apply Hmem. split; [done|]. intros p Hp. destruct (decide (p ∈ order)); [done|].
      destruct He. apply Exists_exists. by exists (p, y). }
  intros fk Hfk Hpar Hoff. rewrite Heq. apply before_app_r, Hbef.
  - apply Hall. rewrite <-elem_of_inSel. by apply own_child_selected.
  - apply elem_of_kept_edges. exists fk. split; [done|]. split; [|done]. split_and!.
    + by apply elem_of_inSel.
    + unfold ce. by rewrite elem_of_cyclicEdges.
    + intros Hself. apply Hoff. split; [done|]. rewrite Hself. apply rtc_refl.
Qed.

(** ** The load strategy *)

Lemma lookup_byRef tables t :
  NoDup (tbl_Ref <$> tables) → t ∈ tables → byRefOf tables !! tbl_Ref t = Some t.
Proof.
  unfold byRefOf. induction tables as [|u l IH] using rev_ind; [by intros _ ?%elem_of_nil|].
  rewrite fmap_app, foldl_snoc. intros (Hl & Hd & _)%NoDup_app [Ht|Ht]%elem_of_app.
  - rewrite lookup_insert_ne; [by apply IH|]. intros E. apply (Hd (tbl_Ref t)); [by apply list_elem_of_fmap_2|].
    simpl. rewrite E. by left.
  - apply list_elem_of_singleton in Ht as ->. by rewrite lookup_insert_eq.
Qed.

Lemma lookup_nullable (cols : list Column) c :
  NoDup (col_Name <$> cols) → c ∈ cols →
  (foldl (λ (m : gmap string bool) c, <[col_Name c := col_Nullable c]> m) ∅ cols) !! col_Name c = Some (col_Nullable c).
Proof.
  induction cols as [|u l IH] using rev_ind; [by intros _ ?%elem_of_nil|].
  rewrite fmap_app, foldl_snoc. intros (Hl & Hd & _)%NoDup_app [Ht|Ht]%elem_of_app.
  - rewrite lookup_insert_ne; [by apply IH|]. intros E. apply (Hd (col_Name c)); [by apply list_elem_of_fmap_2|].
    simpl. rewrite E. by left.
  - apply list_elem_of_singleton in Ht as ->. by rewrite lookup_insert_eq.
Qed.

Lemma lookup_nullable_inv (cols : list Column) name b :
  (foldl (λ (m : gmap string bool) c, <[col_Name c := col_Nullable c]> m) ∅ cols) !! name = Some b →
  ∃ c, c ∈ cols ∧ col_Name c = name ∧ col_Nullable c = b.
Proof.
  induction cols as [|u l IH] using rev_ind; simpl; [by rewrite lookup_empty|].
  rewrite foldl_snoc, lookup_insert_Some. intros [[<- <-]|[_ H]].
  - exists u. set_solver.
  - destruct (IH H) as (c & ? & ? & ?). exists c. set_solver.
Qed.

(** What introspection guarantees of a selection. *)
Record tables_wf (tables : list Table) : Prop := {
  tw_refs : NoDup (tbl_Ref <$> tables);
  tw_own : own_fks tables;
  tw_cols t : t ∈ tables → NoDup (col_Name <$> tbl_Columns t)
}.

(** A child column of the foreign key that may be NULL. *)
Definition has_nullable_col (t : Table) (fk : ForeignKey) : Prop :=
  ∃ c, c ∈ tbl_Columns t ∧ col_Name c ∈ fk_ChildCols fk ∧ col_Nullable c = true.

Lemma anyChildColNullable_spec tables t fk :
  tables_wf tables → t ∈ tables → fk ∈ tbl_ForeignKeys t →
  anyChildColNullable fk (byRefOf tables) = true ↔ has_nullable_col t fk.
Proof.
  intros [Hr Ho Hc] Ht Hfk. unfold anyChildColNullable, has_nullable_col.
  rewrite (Ho t fk Ht Hfk), lookup_byRef, existsb_exists by done. split.
  - intros (col & Hin & Hn). destruct (_ !! col) as [b|] eqn:E; simpl in Hn; [|done]. subst b.
    apply lookup_nullable_inv in E as (c & ? & <- & ?). exists c. split_and!; [done|by apply list_elem_of_In|done].
  - intros (c & Hin & Hcol & Hn). exists (col_Name c). split; [by apply list_elem_of_In|].
    rewrite lookup_nullable; [|by apply Hc|done]. done.
Qed.

Definition strategy_of (t : Table) (fk : ForeignKey) (s : CyclicFKStrategy) : Prop :=
  match s with
  | CyclicDeferred => fk_Deferrable fk = true
  | CyclicNullThenFill => fk_Deferrable fk = false ∧ has_nullable_col t fk
  | CyclicBlocked => fk_Deferrable fk = false ∧ ¬ has_nullable_col t fk
  end.

Lemma classifyOne_strategy tables t fk :
  tables_wf tables → t ∈ tables → fk ∈ tbl_ForeignKeys t →
  strategy_of t fk (cf_Strategy (classifyOne fk (byRefOf tables))).
Proof.
  intros Hwf Ht Hfk. pose proof (anyChildColNullable_spec tables t fk Hwf Ht Hfk) as Hn.
  unfold classifyOne. destruct (fk_Deferrable fk) eqn:Hd; simpl; [done|].
  destruct (anyChildColNullable fk (byRefOf tables)); simpl; (split; [done|]); naive_solver.
Qed.

(** C23: the pre-flight classification finds exactly the foreign keys on a cycle of
    the selection, each with the strategy its columns allow, in the order of
    their keys; and the sync is blocked exactly when one of them is neither
    deferrable nor has a nullable column. *)
Theorem classifyCyclicFKs_exact (tables : list Table) :
  tables_wf tables →
  (∀ fk s, (∃ c, c ∈ classifyCyclicFKs tables ∧ cf_FK c = fk ∧ cf_Strategy c = s) ↔
     ∃ t, t ∈ tables ∧ fk ∈ tbl_ForeignKeys t ∧ on_cycle tables fk ∧ strategy_of t fk s) ∧
  StronglySorted (key_le (λ c, fkKey (cf_FK c))) (classifyCyclicFKs tables) ∧
  (anyBlockedCyclicFK (classifyCyclicFKs tables) = true ↔
     ∃ t fk, t ∈ tables ∧ fk ∈ tbl_ForeignKeys t ∧ on_cycle tables fk ∧
       fk_Deferrable fk = false ∧ ¬ has_nullable_col t fk).
Proof.
  intros Hwf.
  assert (∀ fk s, (∃ c, c ∈ classifyCyclicFKs tables ∧ cf_FK c = fk ∧ cf_Strategy c = s) ↔
     ∃ t, t ∈ tables ∧ fk ∈ tbl_ForeignKeys t ∧ on_cycle tables fk ∧ strategy_of t fk s) as Hspec.
  { intros fk s. split.
    - intros (c & (g & (t & Ht & Hg)%elem_of_all_fks & Hon & ->)%elem_of_classify & <- & <-).
      rewrite classifyOne_FK. exists t. split_and!; [done..|]. by apply classifyOne_strategy.
    - intros (t & Ht & Hfk & Hon & Hs). exists (classifyOne fk (byRefOf tables)).
      pose proof (classifyOne_strategy tables t fk Hwf Ht Hfk) as Hs'.
      split_and!; [|apply classifyOne_FK|].
      + apply elem_of_classify. exists fk. split_and!; [|done..]. apply elem_of_all_fks. by exists t.
      + destruct (cf_Strategy _), s; simpl in *; try done; naive_solver congruence. }
  split_and!; [done|apply sort_by_sorted|].
  unfold anyBlockedCyclicFK. rewrite existsb_exists. split.
  - intros (c & Hc & Hb). unfold cf_Blocked in Hb. apply bool_decide_eq_true in Hb.
    destruct (Hspec (cf_FK c) CyclicBlocked) as [H _]. destruct H as (t & ? & ? & ? & ? & ?).
    { exists c. split; [by apply list_elem_of_In|done]. }
    by exists t, (cf_FK c).
  - intros (t & fk & ? & ? & ? & ? & ?). destruct (Hspec fk CyclicBlocked) as [_ Hex].
    destruct Hex as (c & ? & _ & Hs). { by exists t. }
    exists c. split; [by apply list_elem_of_In|]. unfold cf_Blocked. by rewrite Hs.
Qed.

(** ** Components *)

Lemma NoDup_sub_refs (ms selected : list Table) :
  ms ⊆+ selected → NoDup (tbl_Ref <$> selected) → NoDup (tbl_Ref <$> ms).
Proof.
  intros (k & ->)%submseteq_Permutation. rewrite fmap_app. by intros (? & _)%NoDup_app.
Qed.

Lemma comp_Tables_build_pg members inSel :
  comp_Tables (buildComponent members inSel) = sortRefs (tbl_Ref <$> members).
Proof. unfold buildComponent. by destruct (topoOrder _ _ _). Qed.

Lemma all_fks_mono (ms selected : list Table) fk : ms ⊆ selected → fk ∈ all_fks ms → fk ∈ all_fks selected.
Proof. rewrite !elem_of_all_fks. intros Hs (t & Ht & Hf). exists t. by auto. Qed.

Lemma on_cycle_mono (ms selected : list Table) fk :
  ms ⊆ selected → on_cycle ms fk → on_cycle selected fk.
Proof.
  intros Hs [Hp Hr]. assert (∀ r, r ∈ tbl_Ref <$> ms → r ∈ tbl_Ref <$> selected) as Hr'.
  { intros r (t & -> & Ht)%list_elem_of_fmap. apply list_elem_of_fmap_2. by apply Hs. }
  split; [by apply Hr'|]. clear Hp. induction Hr as [x|x y z (Hx & f & Hf & H1 & H2) _ IH]; [done|].
  eapply rtc_l; [|done]. split; [by apply Hr'|]. exists f. split; [by eapply all_fks_mono|done].
Qed.

Lemma own_edge_connected selected fk :
  own_fks selected → fk ∈ all_fks selected → fk_Parent fk ∈ tbl_Ref <$> selected →
  connected selected (fk_Child fk) (fk_Parent fk).
Proof.
  intros Hown Hfk Hp. apply rtc_once. exists fk. split; [done|]. split; [by apply elem_of_inSel|]. by left.
Qed.

(** A foreign key whose child is a member belongs to a member. *)
Lemma fk_of_member ms selected fk :
  NoDup (tbl_Ref <$> selected) → own_fks selected → ms ⊆ selected →
  fk ∈ all_fks selected → fk_Child fk ∈ tbl_Ref <$> ms → fk ∈ all_fks ms.
Proof.
  intros Hnd Hown Hs (t & Ht & Hfk)%elem_of_all_fks (t' & Heq & Ht')%list_elem_of_fmap.
  assert (byRefOf selected !! tbl_Ref t = Some t) as H1 by by apply lookup_byRef.
  assert (byRefOf selected !! tbl_Ref t' = Some t') as H2 by by apply lookup_byRef; auto.
  rewrite <-Heq, (Hown t fk Ht Hfk), H1 in H2. injection H2 as <-. apply elem_of_all_fks. by exists t.
Qed.

Lemma computeComponents_total (selected : list Table) :
  own_fks selected → ∃ comps, computeComponents selected = Some comps.
Proof.
  intros Hown. unfold computeComponents.
  destruct (grouped_connected (λ ms, buildComponent ms (inSelOf selected)) selected)
    as (u & u' & groups & -> & Hg & _); [intros ms; apply comp_Tables_build_pg|done|].
  simpl. rewrite Hg. by eexists.
Qed.

(** C22: [computeComponents] of the Postgres engine, for tables with distinct names whose
    foreign keys are their own and are told apart by child, parent and name
    ([distinct_fks], the key the code classifies them by). The components partition the
    selection along its foreign keys; each component's order lists its tables
    once and puts the parent of every selected foreign key that is on no cycle
    before the child, also for tables that sit on or below cycles (where the
    order of [fkgraph.go] gives up). So the tables on a cycle are not appended last, as the
    comment of [Component] says they are ([mixed_cycle]); with the columns of the cyclic
    foreign keys NULL, loading in this order never meets a missing parent table. *)
Theorem computeComponents_ordered (selected : list Table) :
  NoDup (tbl_Ref <$> selected) → own_fks selected → distinct_fks selected →
  ∃ comps, computeComponents selected = Some comps ∧
    mjoin (comp_Tables <$> comps) ≡ₚ tbl_Ref <$> selected ∧
    (∀ c a b, c ∈ comps → a ∈ comp_Tables c → b ∈ tbl_Ref <$> selected →
       (b ∈ comp_Tables c ↔ connected selected a b)) ∧
    (∀ c, c ∈ comps → comp_Order c ≡ₚ comp_Tables c) ∧
    (∀ c fk, c ∈ comps → fk ∈ all_fks selected → fk_Child fk ∈ comp_Tables c →
       fk_Parent fk ∈ tbl_Ref <$> selected → ¬ on_cycle selected fk →
       before (fk_Parent fk) (fk_Child fk) (comp_Order c)).
Proof.
  intros Hnd Hown Hinj. unfold computeComponents.
  destruct (grouped_connected (λ ms, buildComponent ms (inSelOf selected)) selected)
    as (u & u' & groups & -> & Hg & _ & H1 & Hb & H2); [intros ms; apply comp_Tables_build_pg|done|].
  simpl. rewrite Hg. simpl. eexists. split; [done|].
  assert (∀ ms, ms ⊆+ selected → let c := buildComponent ms (inSelOf selected) in
    comp_Order c ≡ₚ tbl_Ref <$> ms ∧
    ∀ fk, fk ∈ all_fks ms → fk_Parent fk ∈ tbl_Ref <$> ms → ¬ on_cycle ms fk →
      before (fk_Parent fk) (fk_Child fk) (comp_Order c)) as Hord.
  { intros ms Hms. assert (ms ⊆ selected) as Hs by (intros t Ht; by eapply elem_of_submseteq).
    unfold buildComponent. pose proof (topoOrder_spec ms (inSelOf selected)) as Ht.
    destruct (topoOrder _ _ _) as [order cyclic]. simpl. destruct Ht as (? & ? & _); [..|done].
    - by eapply NoDup_sub_refs.
    - intros t fk Hin. apply Hown. by apply Hs.
    - intros f g Hf Hg'. apply Hinj; by eapply all_fks_mono. }
  split_and!; [done|done| |].
  - intros c Hc. destruct (Hb c Hc) as (ms & Hms & ->). destruct (Hord ms Hms) as [Hp _].
    rewrite comp_Tables_build_pg. unfold sortRefs. by rewrite sort_by_perm.
  - intros c fk Hc Hfk Hch Hpar Hoff. destruct (Hb c Hc) as (ms & Hms & Heq). subst c.
    assert (ms ⊆ selected) as Hs by (intros t Ht; by eapply elem_of_submseteq).
    assert (fk_Parent fk ∈ comp_Tables (buildComponent ms (inSelOf selected))) as Hpm.
    { apply (H2 _ (fk_Child fk)); [done..|]. by apply own_edge_connected. }
    rewrite comp_Tables_build_pg in Hch, Hpm. unfold sortRefs in Hch, Hpm. rewrite elem_of_sort_by in Hch, Hpm.
    apply (Hord ms Hms); [by apply (fk_of_member ms selected)|done|].
    intros Hon. apply Hoff. by eapply on_cycle_mono.
Qed.

(** ** The columns loaded NULL *)

Lemma add_cols_spec cols new :
  (∀ x, x ∈ add_cols cols new ↔ x ∈ cols ∨ x ∈ new) ∧ (NoDup cols → NoDup (add_cols cols new)).
Proof.
  unfold add_cols. revert cols. induction new as [|n new IH]; intros cols; simpl; [set_solver|].
  destruct (IH (if decide (n ∈ cols) then cols else cols ++ [n])) as [H1 H2]. split.
  - intros x. rewrite H1. case_decide; set_solver.
  - intros Hnd. apply H2. case_decide; [done|]. apply NoDup_app. split_and!; [done| |apply NoDup_singleton].
    intros x Hx ->%list_elem_of_singleton. done.
Qed.

Lemma cyclicColsByTable_spec cyc r :
  (∀ col, col ∈ cols_of (cyclicColsByTable cyc) r ↔
     ∃ c, c ∈ cyc ∧ fk_Child (cf_FK c) = r ∧ col ∈ fk_ChildCols (cf_FK c)) ∧
  NoDup (cols_of (cyclicColsByTable cyc) r).
Proof.
  unfold cyclicColsByTable. induction cyc as [|c cyc IH] using rev_ind.
  { unfold cols_of. simpl. rewrite lookup_empty. simpl. split; [set_solver|apply NoDup_nil_2]. }
  rewrite foldl_snoc. set (out := foldl _ ∅ cyc) in *. cbv zeta.
  set (ch := fk_Child (cf_FK c)). destruct (add_cols_spec (cols_of out ch) (fk_ChildCols (cf_FK c))) as [A1 A2].
  assert (∀ x, cols_of match add_cols (cols_of out ch) (fk_ChildCols (cf_FK c)) with
                  | [] => out | _ => <[ch := add_cols (cols_of out ch) (fk_ChildCols (cf_FK c))]> out end x
            = if decide (ch = x) then add_cols (cols_of out x) (fk_ChildCols (cf_FK c)) else cols_of out x) as Hx.
  { intros x. destruct (add_cols _ _) as [|y l] eqn:Ea.
    - case_decide as Hc; [|done]. subst x. rewrite Ea. destruct (cols_of out ch) as [|z k]; [done|].
      exfalso. assert (z ∈ @nil string) as Hz by (apply A1; left; by left). by apply elem_of_nil in Hz.
    - unfold cols_of at 1. case_decide as Hc; [subst x; by rewrite lookup_insert_eq, Ea|].
      by rewrite lookup_insert_ne. }
  rewrite Hx. destruct IH as [I1 I2]. case_decide as Hc; [subst r|]; (split; [|by auto]); intros col.
  - rewrite A1, I1. set_solver.
  - rewrite I1. set_solver.
Qed.

(** The columns the streaming apply leaves NULL and fills later are exactly the
    child columns of the cyclic foreign keys that are not deferrable and have a
    nullable column, each once. When every such key has a single column, all of
    them may be NULL. *)
Theorem nullFillColsByTable_exact (tables : list Table) (r : TableRef) :
  tables_wf tables →
  let cols := cols_of (nullFillColsByTable (classifyCyclicFKs tables)) r in
  NoDup cols ∧
  (∀ col, col ∈ cols ↔ ∃ t fk, t ∈ tables ∧ tbl_Ref t = r ∧ fk ∈ tbl_ForeignKeys t ∧ on_cycle tables fk ∧
     fk_Deferrable fk = false ∧ has_nullable_col t fk ∧ col ∈ fk_ChildCols fk) ∧
  ((∀ fk, fk ∈ all_fks tables → length (fk_ChildCols fk) = 1) →
   ∀ t c, t ∈ tables → tbl_Ref t = r → c ∈ tbl_Columns t → col_Name c ∈ cols → col_Nullable c = true).
Proof.
  intros Hwf. cbv zeta. unfold nullFillColsByTable.
  set (cyc := filter _ _). destruct (cyclicColsByTable_spec cyc r) as [Hin Hnd].
  assert (∀ col, col ∈ cols_of (cyclicColsByTable cyc) r ↔ ∃ t fk, t ∈ tables ∧ tbl_Ref t = r ∧
    fk ∈ tbl_ForeignKeys t ∧ on_cycle tables fk ∧ fk_Deferrable fk = false ∧ has_nullable_col t fk ∧
    col ∈ fk_ChildCols fk) as Hspec.
  { intros col. rewrite Hin. split.
    - intros (c & [Hs Hc]%list_elem_of_filter & Hr & Hcol).
      apply elem_of_classify in Hc as (fk & Hfk & Hon & ->). rewrite classifyOne_FK in *.
      apply elem_of_all_fks in Hfk as (t & Ht & Hfk). exists t, fk.
      pose proof (classifyOne_strategy tables t fk Hwf Ht Hfk) as Hst. rewrite Hs in Hst.
      destruct Hst. split_and!; [done| |done..]. by rewrite <-(tw_own _ Hwf t fk Ht Hfk).
    - intros (t & fk & Ht & Hr & Hfk & Hon & Hd & Hn & Hcol). exists (classifyOne fk (byRefOf tables)).
      pose proof (classifyOne_strategy tables t fk Hwf Ht Hfk) as Hst. rewrite classifyOne_FK.
      split_and!; [|by rewrite (tw_own _ Hwf t fk Ht Hfk)|done].
      apply list_elem_of_filter. split.
      + destruct (cf_Strategy _); simpl in Hst; naive_solver congruence.
      + apply elem_of_classify. exists fk. split_and!; [|done..]. apply elem_of_all_fks. by exists t. }
  split_and!; [done|done|].
  intros H1 t c Ht Hr Hc (t' & fk & Ht' & Hr' & Hfk & _ & _ & (c' & Hc' & Hn' & Hnull) & Hcol)%Hspec.
  assert (t' = t) as ->.
  { pose proof (lookup_byRef tables t (tw_refs _ Hwf) Ht) as E1.
    pose proof (lookup_byRef tables t' (tw_refs _ Hwf) Ht') as E2. rewrite Hr in E1. rewrite Hr' in E2. congruence. }
  assert (col_Name c = col_Name c') as E.
  { specialize (H1 fk). destruct (fk_ChildCols fk) as [|x [|y l]].
    - by apply elem_of_nil in Hcol.
    - apply list_elem_of_singleton in Hcol, Hn'. congruence.
    - exfalso. assert (length (x :: y :: l) = 1) as H; [|simpl in H; lia]. apply H1.
      apply elem_of_all_fks. by exists t. }
  pose proof (lookup_nullable (tbl_Columns t) c (tw_cols _ Hwf t Ht) Hc) as L1.
  pose proof (lookup_nullable (tbl_Columns t) c' (tw_cols _ Hwf t Ht) Hc') as L2.
  rewrite E, L2 in L1. injection L1 as L1. by rewrite <-L1.
Qed.

(** ** Concrete schemas *)

Definition column (name : string) (nullable : bool) : Column :=
  mkColumn name "bigint" nullable false false false false EmptyString.

(** A tree per tenant: the composite self-reference has one nullable column. *)
Definition tenant_tree : list Table :=
  [mkTable (mkRef "app" "node") [column "tenant" false; column "id" false; column "parent" true]
     (Some (mkKey "node_pkey" ["tenant"; "id"] true)) []
     [mkFK "node_parent" (mkRef "app" "node") ["tenant"; "parent"] (mkRef "app" "node") ["tenant"; "id"] false]
     false EmptyString].

(** Two tables that reference each other: [users] through a deferrable NOT NULL
    column, [orders] through a nullable one; [items] below them. *)
Definition mixed_cycle : list Table :=
  [mkTable (mkRef "app" "items") [column "id" false; column "order_id" false]
     (Some (mkKey "items_pkey" ["id"] true)) []
     [mkFK "items_order" (mkRef "app" "items") ["order_id"] (mkRef "app" "orders") ["id"] false] false EmptyString;
   mkTable (mkRef "app" "orders") [column "id" false; column "user_id" true]
     (Some (mkKey "orders_pkey" ["id"] true)) []
     [mkFK "orders_user" (mkRef "app" "orders") ["user_id"] (mkRef "app" "users") ["id"] false] false EmptyString;
   mkTable (mkRef "app" "users") [column "id" false; column "first_order" false]
     (Some (mkKey "users_pkey" ["id"] true)) []
     [mkFK "users_order" (mkRef "app" "users") ["first_order"] (mkRef "app" "orders") ["id"] true] false EmptyString].

Lemma decide_wf tables :
  NoDup (tbl_Ref <$> tables) →
  Forall (λ t, Forall (λ fk, fk_Child fk = tbl_Ref t) (tbl_ForeignKeys t)) tables →
  Forall (λ t, NoDup (col_Name <$> tbl_Columns t)) tables → tables_wf tables.
Proof.
  rewrite !Forall_forall. intros H1 H2 H3. split; [done| |done]. intros t fk Ht Hfk.
  specialize (H2 t Ht). rewrite Forall_forall in H2. by apply H2.
Qed.

Lemma tenant_tree_wf : tables_wf tenant_tree.
Proof. apply decide_wf; apply (bool_decide_unpack _); vm_compute; exact I. Qed.

Lemma mixed_cycle_wf : tables_wf mixed_cycle.
Proof. apply decide_wf; apply (bool_decide_unpack _); vm_compute; exact I. Qed.

Lemma decide_distinct tables :
  Forall (λ f, Forall (λ g, fkKey f = fkKey g → f = g) (all_fks tables)) (all_fks tables) → distinct_fks tables.
Proof.
  rewrite Forall_forall. intros H f g Hf Hg. specialize (H f Hf). rewrite Forall_forall in H. by apply H.
Qed.

(** The columns loaded NULL can include one that is NOT NULL: the classification
    accepts a composite foreign key with one nullable column, and all its
    columns are then left out of the first pass. In a tree keyed by tenant the
    tenant column, which is also part of the primary key, is left out. *)
Theorem nullFill_nulls_not_null :
  tables_wf tenant_tree ∧ anyBlockedCyclicFK (classifyCyclicFKs tenant_tree) = false ∧
  cols_of (nullFillColsByTable (classifyCyclicFKs tenant_tree)) (mkRef "app" "node") = ["tenant"; "parent"] ∧
  subtractCols ["tenant"; "id"; "parent"]
    (cols_of (cyclicColsByTable (classifyCyclicFKs tenant_tree)) (mkRef "app" "node")) = ["id"] ∧
  column "tenant" false ∈ tenant_tree ≫= tbl_Columns.
Proof.
  split; [apply tenant_tree_wf|]. split_and!; [vm_compute; reflexivity..|].
  apply (bool_decide_unpack _). vm_compute. exact I.
Qed.

(** A component whose cycle mixes a deferrable NOT NULL foreign key with a
    nullable one passes pre-flight but cannot be loaded: not all of its cyclic
    keys are deferrable, so the NULL-then-fill copy runs, and it leaves the NOT
    NULL column of the deferrable key out of the first pass as well. *)
Theorem mixed_cycle_nulls_not_null :
  tables_wf mixed_cycle ∧ anyBlockedCyclicFK (classifyCyclicFKs mixed_cycle) = false ∧
  allDeferrable (classifyCyclicFKs mixed_cycle) = false ∧
  subtractCols ["id"; "first_order"]
    (cols_of (cyclicColsByTable (classifyCyclicFKs mixed_cycle)) (mkRef "app" "users")) = ["id"] ∧
  column "first_order" false ∈ mixed_cycle ≫= tbl_Columns.
Proof.
  split; [apply mixed_cycle_wf|]. split_and!; [vm_compute; reflexivity..|].
  apply (bool_decide_unpack _). vm_compute. exact I.
Qed.

Example mixed_cycle_component :
  computeComponents mixed_cycle = Some
    [mkComponent [mkRef "app" "items"; mkRef "app" "orders"; mkRef "app" "users"]
       [mkRef "app" "orders"; mkRef "app" "users"; mkRef "app" "items"]
       [mkRef "app" "orders"; mkRef "app" "users"]].
Proof. vm_compute. reflexivity. Qed.

Lemma computeComponents_ordered_witness :
  ∃ comps, computeComponents mixed_cycle = Some comps ∧
    (∀ c, c ∈ comps → comp_Order c ≡ₚ comp_Tables c).
Proof.
  destruct (computeComponents_ordered mixed_cycle) as (comps & H1 & _ & _ & H2 & _).
  - apply (bool_decide_unpack _). vm_compute. exact I.
  - apply mixed_cycle_wf.
  - apply decide_distinct. apply (bool_decide_unpack _). vm_compute. exact I.
  - exists comps. split; [exact H1|exact H2].
Defined.

Lemma classifyCyclicFKs_exact_witness :
  StronglySorted (key_le (λ c, fkKey (cf_FK c))) (classifyCyclicFKs mixed_cycle) ∧
  ¬ ∃ t fk, t ∈ mixed_cycle ∧ fk ∈ tbl_ForeignKeys t ∧ on_cycle mixed_cycle fk ∧
      fk_Deferrable fk = false ∧ ¬ has_nullable_col t fk.
Proof.
  destruct (classifyCyclicFKs_exact mixed_cycle mixed_cycle_wf) as (_ & H1 & H2).
  split; [exact H1|]. intros Hex. apply H2 in Hex. vm_compute in Hex. discriminate.
Defined.

Lemma nullFillColsByTable_exact_witness :
  let cols := cols_of (nullFillColsByTable (classifyCyclicFKs mixed_cycle)) (mkRef "app" "orders") in
  cols = ["user_id"] ∧ ∀ t c, t ∈ mixed_cycle → tbl_Ref t = mkRef "app" "orders" →
    c ∈ tbl_Columns t → col_Name c ∈ cols → col_Nullable c = true.
Proof.
  split; [vm_compute; reflexivity|].
  destruct (nullFillColsByTable_exact mixed_cycle (mkRef "app" "orders") mixed_cycle_wf) as (_ & _ & H).
  apply H. apply Forall_forall. apply (bool_decide_unpack _). vm_compute. exact I.
Defined.
End CyclicFk.
