(* ===== verification/PgPreflight.v ===== *)
(** * Pre-flight of the Postgres engine ([internal/engine/postgres/preflight.go] and the table
    comparison of [typecompat.go])

    Before a sync starts, the introspected schemas of source and target are compared and
    every problem becomes a finding; one of severity BLOCK refuses the start. The quoting
    of a name ([%q]) and the rounding of a percentage ([%.0f%%]) in a message are
    parameters. *)

From S2P Require Import Prelude Text Engine PgTypes FkGraph CyclicFk.
Import Text PgTypes FkGraph CyclicFk.

Module PgPreflight.

(** ** Table comparison ([compareTable]) *)

Record ColumnCompat := mkColumnCompat {
  cc_Column : string;
  cc_SourceType : string;
  cc_TargetType : string;
  cc_Level : CompatLevel;
  cc_Detail : string
}.

Record TableCompat := mkTableCompat {
  tc_Table : TableRef;
  tc_TargetExists : bool;
  tc_Columns : list ColumnCompat;
  tc_MissingInTarget : list string;
  tc_ExtraNotNull : list string
}.

(** [TableCompat.Blocks] *)
Definition tc_Blocks (tc : TableCompat) : bool :=
  if negb (tc_TargetExists tc) then true
  else if negb (bool_decide (tc_MissingInTarget tc = [])) then true
  else existsb (λ c, level_Blocks (cc_Level c)) (tc_Columns tc).

(** The map of the target's columns. *)
Definition by_name (cols : list Column) : gmap string Column :=
  foldl (λ m c, <[col_Name c := c]> m) ∅ cols.

(** One source column: what it adds to the matched and to the missing columns. *)
Definition compare_column (tgtByName : gmap string Column) (acc : list ColumnCompat * list string) (sc : Column)
    : list ColumnCompat * list string :=
  if col_Generated sc then acc
  else
    match tgtByName !! col_Name sc with
    | None => (acc.1, acc.2 ++ [col_Name sc])
    | Some tc =>
        let '(level, detail) := classifyTypes (col_DataType sc) (col_DataType tc) in
        (acc.1 ++ [mkColumnCompat (col_Name sc) (col_DataType sc) (col_DataType tc) level detail], acc.2)
    end.

Definition compareTable (src : Table) (tgt : option Table) : TableCompat :=
  match tgt with
  | None => mkTableCompat (tbl_Ref src) false [] [] []
  | Some tgt =>
      let '(cols, missing) := foldl (compare_column (by_name (tbl_Columns tgt))) ([], []) (tbl_Columns src) in
      let srcNames := col_Name <$> filter (λ c, col_Generated c = false) (tbl_Columns src) in
      let extra := col_Name <$> filter (λ c, (col_Name c ∉ srcNames) ∧ col_Nullable c = false ∧ col_Generated c = false)
                                  (tbl_Columns tgt) in
      mkTableCompat (tbl_Ref src) true (sort_by cc_Column cols) (sort_by id missing) (sort_by id extra)
  end.

(** What a column may contain, [None] being NULL, and what can be written to it and stays. *)
Definition contains (c : Column) (v : option value) : Prop :=
  match v with Some v => holds (parseType (col_DataType c)) v | None => col_Nullable c = true end.
Definition stores (c : Column) (v : option value) : Prop := col_Generated c = false ∧ contains c v.

(** The pairs of columns whose losses the comparison does not report: the overlooked pairs of
    different types, a target column that is computed by the server, and a target column that
    refuses the NULLs of the source column. *)
Definition overlooked_column (sc tc : Column) : bool :=
  (negb (bool_decide (col_DataType sc = col_DataType tc)) && overlooked (parseType (col_DataType sc)) (parseType (col_DataType tc))) ||
  col_Generated tc || (col_Nullable sc && negb (col_Nullable tc)).

(** ** Assembly *)

Record TablePreflight := mkTablePreflight {
  tp_Table : TableRef;
  tp_Identity : option Key;
  tp_Compat : TableCompat
}.

Record Preflight := mkPreflight {
  pf_Sync : string;
  pf_SourceVersion : Z;
  pf_TargetVersion : Z;
  pf_Replicable : list TablePreflight;
  pf_Skipped : list (TableRef * string);
  pf_Components : list Component;
  pf_Giant : Giant;
  pf_Dangling : list ForeignKey;
  pf_CyclicFKs : list CyclicFK;
  pf_Findings : list Finding
}.

(** The engine-neutral report ([engine.PreflightReport]) and [Preflight.toReport]. *)
Record PreflightReport := mkReport {
  rp_Sync : string;
  rp_SourceVersion : Z;
  rp_TargetVersion : Z;
  rp_Replicable : list TableRef;
  rp_Skipped : list (TableRef * string);
  rp_Components : list Component;
  rp_Findings : list Finding
}.

Definition toReport (p : Preflight) : PreflightReport :=
  mkReport (pf_Sync p) (pf_SourceVersion p) (pf_TargetVersion p) (tp_Table <$> pf_Replicable p) (pf_Skipped p)
    ((λ c, mkComponent (comp_Tables c) (comp_Order c) (comp_Cyclic c)) <$> pf_Components p) (pf_Findings p).

(** [replicationKey]: the primary key, else the first unique key. *)
Definition replicationKey (t : Table) : option Key :=
  match tbl_PrimaryKey t with
  | Some k => Some k
  | None => head (tbl_UniqueKeys t)
  end.

(** [captureColsFor]: the columns of the replication key with their types, none when the
    table has no usable key. *)
Definition type_of (cols : list Column) (name : string) : string :=
  default EmptyString ((list_to_map (reverse ((λ c, (col_Name c, col_DataType c)) <$> cols))
                          : gmap string string) !! name).

Definition captureColsFor (t : Table) : list (string * string) :=
  match replicationKey t with
  | None => []
  | Some key => (λ name, (name, type_of (tbl_Columns t) name)) <$> key_Columns key
  end.

Definition sev_rank (s : Severity) : nat := match s with SevInfo => 0 | SevWarn => 1 | SevBlock => 2 end.

Definition strategy_name (s : CyclicFKStrategy) : string :=
  match s with
  | CyclicDeferred => "set_constraints_deferred"
  | CyclicNullThenFill => "null_then_fill"
  | CyclicBlocked => "blocked"
  end.

(** The comparison of the final sort: by table name, the most severe first, then by
    category. *)
Definition finding_le (a b : Finding) : Prop :=
  if decide (ref_string (fnd_Table a) = ref_string (fnd_Table b)) then
    if decide (fnd_Severity a = fnd_Severity b) then str_le (fnd_Category a) (fnd_Category b)
    else sev_rank (fnd_Severity b) < sev_rank (fnd_Severity a)
  else str_le (ref_string (fnd_Table a)) (ref_string (fnd_Table b)).

#[global] Instance finding_le_dec : RelDecision finding_le.
Proof. intros a b. unfold finding_le. repeat case_decide; apply _. Defined.

(** The target's tables by name. *)
Definition tables_by_ref (target : option (list Table)) : gmap TableRef Table :=
  match target with
  | None => ∅
  | Some ts => foldl (λ m t, <[tbl_Ref t := t]> m) ∅ ts
  end.

Section preflight.
Context (quote : string → string) (percent : nat → nat → string).

Definition column_findings (ref : TableRef) (cc : ColumnCompat) : list Finding :=
  let arrow := "column " +:+ quote (cc_Column cc) +:+ ": " +:+ cc_SourceType cc +:+ " -> " +:+ cc_TargetType cc in
  match cc_Level cc with
  | CompatIncompatible =>
      [mkFinding SevBlock ref "type" (arrow +:+ " is incompatible (" +:+ cc_Detail cc +:+ ")")]
  | CompatRisky => [mkFinding SevWarn ref "type" (arrow +:+ " is risky (" +:+ cc_Detail cc +:+ ")")]
  | _ => []
  end.

(** [addCompatFindings]: what it appends. *)
Definition addCompatFindings (ref : TableRef) (c : TableCompat) : list Finding :=
  if negb (tc_TargetExists c) then [mkFinding SevBlock ref "missing-table" "target table does not exist"]
  else
    ((λ col, mkFinding SevBlock ref "missing-column" ("column " +:+ quote col +:+ " is absent from the target"))
       <$> tc_MissingInTarget c) ++
    mjoin (column_findings ref <$> tc_Columns c) ++
    ((λ col, mkFinding SevWarn ref "extra-not-null"
               ("target column " +:+ quote col +:+
                " is NOT NULL but not supplied by the source; inserts will fail unless it has a default"))
       <$> tc_ExtraNotNull c).

Definition cyclic_finding (c : CyclicFK) : Finding :=
  if cf_Blocked c
  then mkFinding SevBlock (fk_Child (cf_FK c)) "cyclic-fk" ("FK " +:+ fk_Name (cf_FK c) +:+ ": " +:+ cf_Reason c)
  else mkFinding SevInfo (fk_Child (cf_FK c)) "cyclic-fk"
         ("FK " +:+ fk_Name (cf_FK c) +:+ " cyclic; load strategy: " +:+ strategy_name (cf_Strategy c)).

Definition giant_findings (g : Giant) (total : nat) : list Finding :=
  match giant_Component g with
  | Some c =>
      if giant_Present g then
        let n := length (comp_Tables c) in
        [mkFinding SevWarn zeroRef "giant-component"
           ("one FK component spans " +:+ percent n total +:+ "% of selected tables (" +:+ fmt_int (Z.of_nat n) +:+
            " of " +:+ fmt_int (Z.of_nat total) +:+ "), limiting parallelism")]
      else []
  | None => []
  end.

Definition dangling_finding (fk : ForeignKey) : Finding :=
  mkFinding SevWarn (fk_Child fk) "dangling-fk"
    ("FK " +:+ fk_Name fk +:+ " references unselected table " +:+ ref_string (fk_Parent fk) +:+
     "; the target must already satisfy it").

Definition no_key_finding (t : Table) : Finding :=
  mkFinding SevWarn (tbl_Ref t) "no-key" "skipped: no primary key or usable unique key".

Definition replicable_tables (source : list Table) : list Table := filter (λ t, HasUsableKey t = true) source.

Definition preflight_table (tgtByRef : gmap TableRef Table) (t : Table) : TablePreflight :=
  mkTablePreflight (tbl_Ref t) (replicationKey t) (compareTable t (tgtByRef !! tbl_Ref t)).

(** [buildPreflight]; [None] only if a graph routine ran out of fuel. *)
Definition buildPreflight (syncName : string) (srcVersion tgtVersion : Z) (source : list Table)
    (target : option (list Table)) : option Preflight :=
  let skipped := filter (λ t, HasUsableKey t = false) source in
  let replicable := replicable_tables source in
  comps ← computeComponents replicable;
  let giant := DetectGiant comps (length replicable) in
  let dangling := DanglingEdges replicable in
  let cyclic := classifyCyclicFKs replicable in
  let tables := preflight_table (tables_by_ref target) <$> replicable in
  let findings :=
    (no_key_finding <$> skipped) ++
    giant_findings giant (length replicable) ++
    (dangling_finding <$> dangling) ++
    (cyclic_finding <$> cyclic) ++
    mjoin ((λ tp, addCompatFindings (tp_Table tp) (tp_Compat tp)) <$> tables) in
  Some (mkPreflight syncName srcVersion tgtVersion tables
          ((λ t, (tbl_Ref t, "no primary key or usable unique key")) <$> skipped)
          comps giant dangling cyclic (merge_sort finding_le findings)).

(** ** Lemmas *)

(** The matched and the missing columns of a comparison. *)
Definition matched (m : gmap string Column) (sc : Column) : option ColumnCompat :=
  if col_Generated sc then None
  else tc ← m !! col_Name sc;
       let '(level, detail) := classifyTypes (col_DataType sc) (col_DataType tc) in
       Some (mkColumnCompat (col_Name sc) (col_DataType sc) (col_DataType tc) level detail).

Definition absent (m : gmap string Column) (sc : Column) : option string :=
  if col_Generated sc then None
  else match m !! col_Name sc with None => Some (col_Name sc) | Some _ => None end.

Lemma compare_columns (m : gmap string Column) (l : list Column) (acc : list ColumnCompat * list string) :
  foldl (compare_column m) acc l = (acc.1 ++ omap (matched m) l, acc.2 ++ omap (absent m) l).
Proof.
  revert acc. induction l as [|sc l IH]; intros [cs ms]; simpl; [by rewrite !app_nil_r|].
  rewrite IH. unfold compare_column, matched, absent. simpl. destruct (col_Generated sc); simpl; [done|].
  destruct (m !! col_Name sc) as [tc|]; simpl.
  - destruct (classifyTypes _ _). simpl. by rewrite <-app_assoc.
  - by rewrite <-app_assoc.
Qed.

Lemma insert_all_lookup {A K} `{Countable K} (key : A → K) (l : list A) (k : K) (x : A) (m : gmap K A) :
  foldl (λ m a, <[key a := a]> m) m l !! k = Some x → (x ∈ l ∧ key x = k) ∨ m !! k = Some x.
Proof.
  revert m. induction l as [|a l IH]; intros m; simpl; [by right|].
  intros [[Hx Hk]|Hm]%IH; [left; split; [by right|done]|].
  apply lookup_insert_Some in Hm as [[<- <-]|[_ Hm]]; [left; split; [by left|done]|by right].
Qed.

Lemma tables_by_ref_lookup (target : option (list Table)) (r : TableRef) (t : Table) :
  tables_by_ref target !! r = Some t → ∃ ts, target = Some ts ∧ t ∈ ts ∧ tbl_Ref t = r.
Proof.
  destruct target as [ts|]; simpl; [|done]. intros [[??]|[=]]%(insert_all_lookup tbl_Ref). by exists ts.
Qed.

Lemma by_name_lookup (cols : list Column) (n : string) (c : Column) :
  by_name cols !! n = Some c → c ∈ cols ∧ col_Name c = n.
Proof. intros [?|[=]]%(insert_all_lookup col_Name). done. Qed.

Lemma sort_by_nil {A} (key : A → string) (l : list A) : sort_by key l = [] → l = [].
Proof. intros Hl. pose proof (length_sort_by key l) as Hn. rewrite Hl in Hn. by destruct l. Qed.

(** The findings of a table have a BLOCK exactly when its comparison blocks. *)
Lemma addCompat_blocks (ref : TableRef) (tc : TableCompat) :
  Exists (λ f, fnd_Severity f = SevBlock) (addCompatFindings ref tc) ↔ tc_Blocks tc = true.
Proof.
  unfold addCompatFindings, tc_Blocks. destruct (tc_TargetExists tc); simpl.
  2: { split; [done|]. intros _. by left. }
  rewrite !Exists_app. destruct (tc_MissingInTarget tc) as [|m ms]; simpl.
  - rewrite existsb_exists. split.
    + intros [?%Exists_nil|[Hc|He]]; [done|..].
      * apply Exists_exists in Hc as (f & Hf & Hs). apply list_elem_of_join in Hf as (fs & Hf & Hfs).
        apply list_elem_of_fmap in Hfs as (c & -> & Hc). exists c. split; [by apply list_elem_of_In|].
        unfold column_findings in Hf. unfold level_Blocks.
        destruct (cc_Level c); try (by apply elem_of_nil in Hf); [|done].
        apply list_elem_of_singleton in Hf as ->. done.
      * exfalso. apply Exists_exists in He as (f & Hf & Hs). by apply list_elem_of_fmap in Hf as (? & -> & ?).
    + intros (c & Hc%list_elem_of_In & Hb). right. left. apply Exists_exists.
      unfold level_Blocks in Hb. apply bool_decide_eq_true in Hb.
      eexists. split; [|shelve]. apply list_elem_of_join. exists (column_findings ref c).
      split; [|apply list_elem_of_fmap; by exists c]. unfold column_findings. rewrite Hb. by left.
      Unshelve. done.
  - split; [done|]. intros _. left. by left.
Qed.

Lemma column_findings_risky (ref : TableRef) (c : ColumnCompat) :
  cc_Level c = CompatRisky →
  Exists (λ f, fnd_Severity f = SevWarn ∧ fnd_Table f = ref ∧ fnd_Category f = "type") (column_findings ref c).
Proof. intros Hl. unfold column_findings. rewrite Hl. by left. Qed.

Lemma tc_Blocks_false (tc : TableCompat) :
  tc_Blocks tc = false →
  tc_TargetExists tc = true ∧ tc_MissingInTarget tc = [] ∧
  ∀ c, c ∈ tc_Columns tc → cc_Level c ≠ CompatIncompatible.
Proof.
  unfold tc_Blocks. destruct (tc_TargetExists tc); [|done]. simpl.
  case_bool_decide as Hm; [|done]. simpl. intros Hb. split_and!; [done|done|].
  intros c Hc Hl. apply not_true_iff_false in Hb. apply Hb, existsb_exists. exists c.
  split; [by apply list_elem_of_In|]. unfold level_Blocks. by apply bool_decide_eq_true.
Qed.

Lemma compareTable_Some (t tt : Table) :
  let m := by_name (tbl_Columns tt) in
  let r := compareTable t (Some tt) in
  (∀ c, c ∈ tc_Columns r ↔ c ∈ omap (matched m) (tbl_Columns t)) ∧
  (∀ n, n ∈ tc_MissingInTarget r ↔ n ∈ omap (absent m) (tbl_Columns t)).
Proof.
  unfold compareTable. rewrite compare_columns. simpl. split; intros; by rewrite elem_of_sort_by.
Qed.

(** A transported column of a table that does not block has its counterpart. *)
Lemma compareTable_column (t : Table) (tt : option Table) (sc : Column) :
  tc_Blocks (compareTable t tt) = false → sc ∈ tbl_Columns t → col_Generated sc = false →
  ∃ tt' tc, tt = Some tt' ∧ by_name (tbl_Columns tt') !! col_Name sc = Some tc ∧
    let '(level, detail) := classifyTypes (col_DataType sc) (col_DataType tc) in
    level ≠ CompatIncompatible ∧
    mkColumnCompat (col_Name sc) (col_DataType sc) (col_DataType tc) level detail ∈ tc_Columns (compareTable t tt).
Proof.
  intros Hb Hsc Hg. apply tc_Blocks_false in Hb as (Hex & Hm & Hc).
  destruct tt as [tt|]; [|done]. destruct (compareTable_Some t tt) as [Hcols Hmiss].
  destruct (by_name (tbl_Columns tt) !! col_Name sc) as [tc|] eqn:Htc.
  - exists tt, tc. split_and!; [done|done|].
    destruct (classifyTypes (col_DataType sc) (col_DataType tc)) as [level detail] eqn:Hcl.
    set (c := mkColumnCompat _ _ _ level detail).
    assert (c ∈ tc_Columns (compareTable t (Some tt))) as Hin; [|split; [by apply (Hc c)|done]].
    apply Hcols, list_elem_of_omap. exists sc. split; [done|]. unfold matched. rewrite Hg, Htc. simpl. by rewrite Hcl.
  - exfalso. assert (col_Name sc ∈ tc_MissingInTarget (compareTable t (Some tt))) as Hin.
    { apply Hmiss, list_elem_of_omap. exists sc. split; [done|]. unfold absent. by rewrite Hg, Htc. }
    rewrite Hm in Hin. by apply elem_of_nil in Hin.
Qed.

(** A risky column is a type warning of its table. *)
Lemma addCompat_risky (ref : TableRef) (tc : TableCompat) (c : ColumnCompat) :
  tc_TargetExists tc = true → c ∈ tc_Columns tc → cc_Level c = CompatRisky →
  ∃ f, f ∈ addCompatFindings ref tc ∧ fnd_Severity f = SevWarn ∧ fnd_Table f = ref ∧ fnd_Category f = "type".
Proof.
  intros Hex Hc Hl. apply (column_findings_risky ref), Exists_exists in Hl as (f & Hf & Hs).
  exists f. split; [|done]. unfold addCompatFindings. rewrite Hex. simpl. rewrite !elem_of_app. right; left.
  apply list_elem_of_join. exists (column_findings ref c). split; [done|]. apply list_elem_of_fmap. by exists c.
Qed.

(** The findings of a report with their sources. *)
Lemma buildPreflight_findings (name : string) (sv tv : Z) (source : list Table) (target : option (list Table))
    (p : Preflight) (f : Finding) :
  buildPreflight name sv tv source target = Some p →
  f ∈ pf_Findings p ↔
    f ∈ no_key_finding <$> filter (λ t, HasUsableKey t = false) source ∨
    f ∈ giant_findings (pf_Giant p) (length (replicable_tables source)) ∨
    f ∈ dangling_finding <$> DanglingEdges (replicable_tables source) ∨
    f ∈ cyclic_finding <$> classifyCyclicFKs (replicable_tables source) ∨
    ∃ t, t ∈ replicable_tables source ∧
      f ∈ addCompatFindings (tbl_Ref t) (compareTable t (tables_by_ref target !! tbl_Ref t)).
Proof.
  unfold buildPreflight. destruct (computeComponents (replicable_tables source)) as [comps|]; simpl; [|done].
  intros [= <-]. simpl. rewrite merge_sort_Permutation, !elem_of_app, list_elem_of_join.
  apply or_iff_compat_l, or_iff_compat_l, or_iff_compat_l, or_iff_compat_l. split.
  - intros (fs & Hf & Hfs). rewrite <-list_fmap_compose in Hfs.
    apply list_elem_of_fmap in Hfs as (t & -> & Ht). by exists t.
  - intros (t & Ht & Hf). eexists. split; [exact Hf|]. rewrite <-list_fmap_compose.
    apply list_elem_of_fmap. by exists t.
Qed.

(** Only blocked cyclic foreign keys and blocked tables block. *)
Lemma buildPreflight_blocked (name : string) (sv tv : Z) (source : list Table) (target : option (list Table))
    (p : Preflight) :
  buildPreflight name sv tv source target = Some p →
  Blocked (pf_Findings p) = true ↔
    anyBlockedCyclicFK (classifyCyclicFKs (replicable_tables source)) = true ∨
    ∃ t, t ∈ replicable_tables source ∧ tc_Blocks (compareTable t (tables_by_ref target !! tbl_Ref t)) = true.
Proof.
  intros Hp. rewrite Blocked_Exists, Exists_exists.
  setoid_rewrite (buildPreflight_findings _ _ _ _ _ _ _ Hp).
  unfold anyBlockedCyclicFK. rewrite existsb_exists. split.
  - intros (f & Hf & Hs). destruct Hf as [Hf|[Hf|[Hf|[Hf|(t & Ht & Hf)]]]].
    + by apply list_elem_of_fmap in Hf as (? & -> & _).
    + unfold giant_findings in Hf. destruct (giant_Component _); [|by apply elem_of_nil in Hf].
      destruct (giant_Present _); [|by apply elem_of_nil in Hf].
      apply list_elem_of_singleton in Hf as ->. done.
    + by apply list_elem_of_fmap in Hf as (? & -> & _).
    + left. apply list_elem_of_fmap in Hf as (c & -> & Hc). exists c. split; [by apply list_elem_of_In|].
      unfold cyclic_finding in Hs. by destruct (cf_Blocked c).
    + right. exists t. split; [done|]. apply (addCompat_blocks (tbl_Ref t)), Exists_exists. by exists f.
  - intros [(c & Hc%list_elem_of_In & Hb)|(t & Ht & Hb)].
    + exists (cyclic_finding c). split; [|unfold cyclic_finding; by rewrite Hb].
      right; right; right; left. apply list_elem_of_fmap. by exists c.
    + apply (addCompat_blocks (tbl_Ref t)), Exists_exists in Hb as (f & Hf & Hs).
      exists f. split; [|done]. right; right; right; right. by exists t.
Qed.

(** C38: pre-flight of the Postgres engine. It always produces a report; the start is
    refused exactly when a foreign key on a cycle cannot be loaded or the comparison of
    a keyed table blocks, and every table without a key is reported. When the report does not
    block, every transported column of every replicated table has a column of the same name
    in the table of the same name on the target whose type is not incompatible; and when
    it has no type warning for the table either, the target column stores every value of the source
    column, NULL included, without loss, for all pairs of columns but the overlooked ones: certain
    pairs of types, computed target columns, and NULLs into NOT NULL columns
    ([overlooked_column]). *)
Theorem preflight_admits (name : string) (sv tv : Z) (source : list Table) (target : option (list Table)) :
  own_fks (replicable_tables source) →
  ∃ p, buildPreflight name sv tv source target = Some p ∧
    rp_Replicable (toReport p) = tbl_Ref <$> replicable_tables source ∧
    (Blocked (pf_Findings p) = true ↔
       anyBlockedCyclicFK (classifyCyclicFKs (replicable_tables source)) = true ∨
       Exists (λ tp, tc_Blocks (tp_Compat tp) = true) (pf_Replicable p)) ∧
    (∀ t, t ∈ source → HasUsableKey t = false →
       ∃ f, f ∈ pf_Findings p ∧ fnd_Table f = tbl_Ref t ∧ fnd_Severity f = SevWarn) ∧
    (Blocked (pf_Findings p) = false → ∀ t sc, t ∈ source → HasUsableKey t = true →
       sc ∈ tbl_Columns t → col_Generated sc = false →
       ∃ tts tt tc, target = Some tts ∧ tt ∈ tts ∧ tbl_Ref tt = tbl_Ref t ∧
         tc ∈ tbl_Columns tt ∧ col_Name tc = col_Name sc ∧
         (classifyTypes (col_DataType sc) (col_DataType tc)).1 ≠ CompatIncompatible ∧
         (Forall (λ f, ¬ (fnd_Severity f = SevWarn ∧ fnd_Table f = tbl_Ref t ∧ fnd_Category f = "type"))
            (pf_Findings p) →
          overlooked_column sc tc = false → ∀ v, contains sc v → stores tc v)).
Proof.
  intros Hown. destruct (computeComponents_total _ Hown) as [comps Hc].
  destruct (buildPreflight name sv tv source target) as [p|] eqn:Hp.
  2: { unfold buildPreflight in Hp. by rewrite Hc in Hp. }
  pose proof (λ f, buildPreflight_findings _ _ _ _ _ _ f Hp) as Hfs.
  pose proof (buildPreflight_blocked _ _ _ _ _ _ Hp) as Hbl.
  assert (pf_Replicable p = preflight_table (tables_by_ref target) <$> replicable_tables source) as Hrep.
  { unfold buildPreflight in Hp. rewrite Hc in Hp. simpl in Hp. by injection Hp as <-. }
  exists p. split_and!; [done|..].
  - simpl. rewrite Hrep, <-list_fmap_compose. by apply list_fmap_ext.
  - rewrite Hbl, Hrep, Exists_exists. apply or_iff_compat_l. split.
    + intros (t & Ht & Hb). exists (preflight_table (tables_by_ref target) t). split; [|done].
      apply list_elem_of_fmap. by exists t.
    + intros (tp & (t & -> & Ht)%list_elem_of_fmap & Hb). by exists t.
  - intros t Ht Hk. exists (no_key_finding t). split; [|done]. apply Hfs. left.
    apply list_elem_of_fmap. exists t. split; [done|]. by apply list_elem_of_filter.
  - intros Hnb t sc Ht Hk Hsc Hg.
    assert (t ∈ replicable_tables source) as Htr by by apply list_elem_of_filter.
    assert (tc_Blocks (compareTable t (tables_by_ref target !! tbl_Ref t)) = false) as Hntb.
    { apply not_true_iff_false. intros Hb. assert (Blocked (pf_Findings p) = true); [|congruence].
      apply Hbl. right. by exists t. }
    destruct (compareTable_column t _ sc Hntb Hsc Hg) as (tt & tc & Htt & Htc & Hcl).
    apply tables_by_ref_lookup in Htt as Htt'. destruct Htt' as (tts & -> & Hin & Href).
    destruct (by_name_lookup _ _ _ Htc) as [Htcin Hn]. exists tts, tt, tc. do 5 (split; [done|]).
    destruct (classifyTypes (col_DataType sc) (col_DataType tc)) as [level detail] eqn:Hl.
    destruct Hcl as [Hinc Hcc]. split; [done|]. intros Hw Ho v Hv.
    apply orb_false_iff in Ho as [[Hty Hgen]%orb_false_iff Hnull]. split; [done|].
    destruct v as [v|]; [|unfold contains in *; rewrite Hv in Hnull; by destruct (col_Nullable tc)].
    assert (overlooked (parseType (col_DataType sc)) (parseType (col_DataType tc)) = false ∨ col_DataType sc = col_DataType tc) as Ho.
    { apply andb_false_iff in Hty as [Hty|Hty]; [right|by left]. by apply negb_false_iff, bool_decide_eq_true in Hty. }
    simpl in Hv |- *. revert Hv. apply classify_sound; [|done]. rewrite Hl. simpl. destruct level; [done|done| |done].
    exfalso. destruct (addCompat_risky (tbl_Ref t) _ _ (proj1 (tc_Blocks_false _ Hntb)) Hcc eq_refl) as (f & Hf & Hs).
    rewrite Forall_forall in Hw. apply (Hw f); [|done]. apply Hfs. right; right; right; right. by exists t.
Qed.
End preflight.

(** ** A report on sample schemas *)

Definition sample_column (name type : string) : Column := mkColumn name type false false false false false "".

Definition sample_source : list Table :=
  [mkTable (mkRef "app" "users") [sample_column "id" "integer"; sample_column "name" "character varying(30)"]
     (Some (mkKey "users_pkey" ["id"] true)) [] [] false "";
   mkTable (mkRef "app" "log") [sample_column "line" "text"] None [] [] false ""].

Definition sample_target : list Table :=
  [mkTable (mkRef "app" "users") [sample_column "id" "bigint"; sample_column "name" "character varying(50)"]
     (Some (mkKey "users_pkey" ["id"] true)) [] [] false ""].

Example sample_report (quote : string → string) (percent : nat → nat → string) :
  match buildPreflight quote percent "s" 15 16 sample_source (Some sample_target) with
  | Some p => fnd_Category <$> pf_Findings p = ["no-key"] ∧ Blocked (pf_Findings p) = false
  | None => False
  end.
Proof. vm_compute. done. Qed.

Lemma preflight_admits_witness :
  ∃ p, buildPreflight id (λ _ _, "") "s" 15 16 sample_source (Some sample_target) = Some p ∧
    ∀ v, contains (sample_column "id" "integer") v → stores (sample_column "id" "bigint") v.
Proof.
  destruct (preflight_admits id (λ _ _, "") "s" 15 16 sample_source (Some sample_target))
    as (p & Hp & _ & _ & _ & H).
  { intros t fk Ht Hfk. cbn in Ht. apply list_elem_of_singleton in Ht as ->. by apply elem_of_nil in Hfk. }
  exists p. split; [exact Hp|].
  assert (Blocked (pf_Findings p) = false ∧ Forall (λ f, fnd_Category f ≠ "type") (pf_Findings p)) as [Hb Hf].
  { vm_compute in Hp. injection Hp as <-. split; [reflexivity|]. repeat constructor. discriminate. }
  destruct (H Hb (mkTable (mkRef "app" "users")
    [sample_column "id" "integer"; sample_column "name" "character varying(30)"]
    (Some (mkKey "users_pkey" ["id"] true)) [] [] false "") (sample_column "id" "integer"))
    as (tts & tt & tc & [= <-] & Htt & _ & Htc & Hn & _ & Hv); [by left|reflexivity|by left|reflexivity|].
  apply list_elem_of_singleton in Htt as ->.
  apply elem_of_cons in Htc as [->|Htc]; [|apply list_elem_of_singleton in Htc as ->; discriminate Hn].
  apply Hv.
  - apply (Forall_impl _ _ _ Hf). intros f Hc (_ & _ & Ht). by apply Hc.
  - vm_compute. reflexivity.
Defined.

(** A nullable source column and a NOT NULL target column, or a target column the server
    computes: no finding, and values of the source cannot be stored. *)
Definition users_with (name : Column) : Table :=
  mkTable (mkRef "app" "users") [sample_column "id" "integer"; name] (Some (mkKey "users_pkey" ["id"] true)) [] [] false "".

Theorem nullability_unchecked (quote : string → string) (percent : nat → nat → string) :
  let src := mkColumn "name" "text" true false false false false "" in
  Forall (λ tgt, option_map pf_Findings (buildPreflight quote percent "s" 15 16 [users_with src] (Some [users_with tgt])) = Some [] ∧
                 overlooked_column src tgt = true ∧ ∃ v, contains src v ∧ ¬ stores tgt v)
    [sample_column "name" "text"; mkColumn "name" "text" true true false false false ""].
Proof.
  repeat (apply Forall_cons; split); [..|by apply Forall_nil]; (split; [vm_compute; reflexivity|]); (split; [vm_compute; reflexivity|]); exists None.
  - split; [done|]. by intros [_ ?].
  - split; [done|]. by intros [? _].
Qed.
End PgPreflight.
