(* ===== verification/MyTypes.v ===== *)
(** * Type compatibility of the MySQL engine ([internal/engine/mysql/typecompat.go])

    The pre-flight check classifies every pair of a source and a target column, by the column type
    and the character set the catalog reports. [holds] says which values a column stores as
    the MySQL documentation defines the types, and [classifyColumn_sound] judges the
    classification by it: what it calls identical or widening keeps every value, the pairs
    of [overlooked] apart. NULL and computed columns are a matter of the column and judged in
    [MyPreflight] ([contains], [stores]). *)

From S2P Require Import Prelude Text Engine PgTypes.
Import Text.

Module MyTypes.

(** ** Levels *)

Inductive compatLevel := compatIdentical | compatWiden | compatRisky | compatIncompatible.

#[global] Instance compatLevel_eq_dec : EqDecision compatLevel.
Proof. solve_decision. Defined.

(** The constants' values, which [classifyColumn] compares. *)
Definition level_rank (l : compatLevel) : nat :=
  match l with compatIdentical => 0 | compatWiden => 1 | compatRisky => 2 | compatIncompatible => 3 end.

Definition blocks (l : compatLevel) : bool := bool_decide (l = compatIncompatible).

(** ** Parsing of a column type *)

Record myType := mkMyType {
  raw : text;
  base : string;
  unsigned : bool;
  args : list Z
}.

(** [strings.IndexByte] as a split: what precedes and follows the first occurrence. *)
Definition cut_byte (c : ascii) (l : text) : option (text * text) := cut [c] l.

(** The type without its trailing modifiers: up to the first space, unless a parenthesis
    comes before it. *)
Definition type_body (r : text) : text :=
  match cut_byte " " r with
  | None => r
  | Some (pre, _) =>
      match cut_byte "(" r with
      | None => pre
      | Some (b, _) => if decide (length pre < length b) then pre else r
      end
  end.

Definition parseMyType (s : string) : myType :=
  let r := TrimSpace (ToLower (txt s)) in
  let u := bool_decide (is_Some (cut (txt "unsigned") r)) in
  let body := type_body r in
  match cut_byte "(" body with
  | Some (b, inner) =>
      let inner := match cut_byte ")" inner with Some (i, _) => i | None => inner end in
      mkMyType r (untxt b) u (omap (λ part, Atoi (TrimSpace part)) (split_on "," inner))
  | None => mkMyType r (untxt body) u []
  end.

(** [myType.arg] *)
Definition arg (t : myType) (i : nat) (def : Z) : Z := default def (args t !! i).

Inductive fam :=
| fInt | fDecimal | fFloat | fBit | fChar | fText | fBinary | fBlob | fDate | fTime | fDatetime | fTimestamp
| fYear | fEnum | fSet | fJson | fOther.

#[global] Instance fam_eq_dec : EqDecision fam.
Proof. solve_decision. Defined.

(** The names [family] returns. *)
Definition fam_name (f : fam) : string :=
  match f with
  | fInt => "int" | fDecimal => "decimal" | fFloat => "float" | fBit => "bit" | fChar => "char"
  | fText => "text" | fBinary => "binary" | fBlob => "blob" | fDate => "date" | fTime => "time"
  | fDatetime => "datetime" | fTimestamp => "timestamp" | fYear => "year" | fEnum => "enum"
  | fSet => "set" | fJson => "json" | fOther => "geometry-or-other"
  end.

(** The cases of [family], in order. *)
Definition families : list (list string * fam) :=
  [(["tinyint"; "smallint"; "mediumint"; "int"; "integer"; "bigint"], fInt);
   (["decimal"; "numeric"; "dec"; "fixed"], fDecimal);
   (["float"; "double"; "real"; "double precision"], fFloat);
   (["bit"], fBit);
   (["char"; "varchar"], fChar);
   (["tinytext"; "text"; "mediumtext"; "longtext"], fText);
   (["binary"; "varbinary"], fBinary);
   (["tinyblob"; "blob"; "mediumblob"; "longblob"], fBlob);
   (["date"], fDate); (["time"], fTime); (["datetime"], fDatetime); (["timestamp"], fTimestamp);
   (["year"], fYear); (["enum"], fEnum); (["set"], fSet); (["json"], fJson)].

Definition family (t : myType) : fam := PgTypes.switch families fOther (base t).

(** A lookup in a map of ranks; an absent name has rank zero. *)
Definition intRank : string → Z :=
  PgTypes.switch [(["tinyint"], 1); (["smallint"], 2); (["mediumint"], 3); (["int"; "integer"], 4); (["bigint"], 5)]%Z 0%Z.
Definition textRank : string → Z :=
  PgTypes.switch [(["tinytext"], 1); (["text"], 2); (["mediumtext"], 3); (["longtext"], 4)]%Z 0%Z.
Definition blobRank : string → Z :=
  PgTypes.switch [(["tinyblob"], 1); (["blob"], 2); (["mediumblob"], 3); (["longblob"], 4)]%Z 0%Z.

(** ** Classification *)

(** [s.raw -> t.raw] of the messages *)
Definition arrow (s t : myType) : string := untxt (raw s) +:+ " -> " +:+ untxt (raw t).

Definition classifySameFamily (f : fam) (s t : myType) : compatLevel * string :=
  match f with
  | fInt =>
      if decide (unsigned s ≠ unsigned t)
      then (compatRisky, "integer signedness change (" +:+ arrow s t +:+ ") may lose values")
      else if decide (intRank (base t) >= intRank (base s))%Z then (compatWiden, "")
      else (compatRisky, "integer narrowing " +:+ arrow s t +:+ " may overflow")
  | fDecimal =>
      if decide (arg t 0 10 >= arg s 0 10 ∧ arg t 1 0 >= arg s 1 0)%Z then (compatWiden, "")
      else (compatRisky, "decimal precision/scale narrowing " +:+ arrow s t)
  | fFloat =>
      if decide (base s = "float" ∧ base t ∈ ["double"; "real"; "double precision"]) then (compatWiden, "")
      else if decide (base s = base t) then (compatIdentical, "")
      else (compatRisky, "floating-point change " +:+ arrow s t)
  | fChar =>
      if decide (arg t 0 0 >= arg s 0 0)%Z then (compatWiden, "")
      else (compatRisky, "string length narrowing " +:+ arrow s t +:+ " may truncate")
  | fText =>
      if decide (textRank (base t) >= textRank (base s))%Z then (compatWiden, "")
      else (compatRisky, "text narrowing " +:+ arrow s t +:+ " may truncate")
  | fBinary =>
      if decide (arg t 0 0 >= arg s 0 0)%Z then (compatWiden, "")
      else (compatRisky, "binary length narrowing " +:+ arrow s t +:+ " may truncate")
  | fBlob =>
      if decide (blobRank (base t) >= blobRank (base s))%Z then (compatWiden, "")
      else (compatRisky, "blob narrowing " +:+ arrow s t +:+ " may truncate")
  | fDatetime | fTimestamp | fTime =>
      if decide (arg t 0 0 >= arg s 0 0)%Z then (compatWiden, "")
      else (compatRisky, "fractional-seconds precision narrowing " +:+ arrow s t)
  | fEnum | fSet =>
      if decide (raw s = raw t) then (compatIdentical, "")
      else (compatRisky, fam_name f +:+ " member-set change " +:+ arrow s t)
  | _ => (compatIdentical, "")
  end.

Definition isNumeric (f : fam) : bool := match f with fInt | fDecimal | fFloat | fBit => true | _ => false end.
Definition isStringish (f : fam) : bool := match f with fChar | fText => true | _ => false end.
Definition isTemporal (f : fam) : bool :=
  match f with fDate | fTime | fDatetime | fTimestamp | fYear => true | _ => false end.
Definition isStructured (f : fam) : bool := match f with fJson | fOther => true | _ => false end.
Definition isEnumSet (f : fam) : bool := match f with fEnum | fSet => true | _ => false end.
(** [f == "binary" || f == "blob"] *)
Definition isBytes (f : fam) : bool := match f with fBinary | fBlob => true | _ => false end.

Definition classifyCrossFamily (sf tf : fam) : compatLevel * string :=
  let msg := "cross-type change " +:+ fam_name sf +:+ " -> " +:+ fam_name tf in
  if isNumeric sf && isNumeric tf then (compatRisky, msg)
  else if isStringish sf && isStringish tf then (compatWiden, "")
  else if isBytes sf && isBytes tf then (compatWiden, "")
  else if isTemporal sf && isTemporal tf then (compatRisky, msg +:+ " (temporal semantics differ)")
  else if (isEnumSet sf && isStringish tf) || (isStringish sf && isEnumSet tf) then (compatRisky, msg)
  else if isStructured sf || isStructured tf || isEnumSet sf || isEnumSet tf
  then (compatIncompatible, msg +:+ " (structurally incompatible)")
  else if isStringish tf then (compatRisky, msg)
  else (compatIncompatible, msg).

Definition classifyTypes (srcType tgtType : string) : compatLevel * string :=
  let s := parseMyType srcType in
  let t := parseMyType tgtType in
  if decide (raw s = raw t) then (compatIdentical, "")
  else if decide (family s = family t) then classifySameFamily (family s) s t
  else classifyCrossFamily (family s) (family t).

Definition normCharset (c : string) : string :=
  let c := untxt (ToLower (txt c)) in
  if decide (c = "utf8") then "utf8mb3" else c.

Definition classifyCharset (src tgt : Column) : compatLevel * string :=
  let sc := normCharset (col_Charset src) in
  let tc := normCharset (col_Charset tgt) in
  if decide (sc = "" ∨ tc = "" ∨ sc = tc) then (compatIdentical, "")
  else if decide (sc = "utf8mb4" ∧ tc = "utf8mb3")
  then (compatRisky, "charset narrowing utf8mb4 -> utf8mb3 truncates 4-byte characters")
  else if decide (sc = "utf8mb3" ∧ tc = "utf8mb4") then (compatWiden, "")
  else (compatRisky, "charset change " +:+ col_Charset src +:+ " -> " +:+ col_Charset tgt).

Definition classifyColumn (src tgt : Column) : compatLevel * string :=
  let '(lvl, reason) := classifyTypes (col_DataType src) (col_DataType tgt) in
  let '(cl, cr) := classifyCharset src tgt in
  if decide (level_rank lvl < level_rank cl) then (cl, cr) else (lvl, reason).

(** ** What a column stores

    Values as MySQL documents its types: numbers [m / 10^s], binary floats [m * 2^e], bit
    fields, strings of characters, byte strings, days, microseconds, labels of an
    enumeration or set; [VDocument] stands for a document and [VShape] for a value of a spatial type. *)
Inductive value :=
| VNumber (m : Z) (s : nat)
| VFloat (m e : Z)
| VBits (n : Z)
| VString (chars : list N)
| VBytes (bytes : text)
| VDate (days : Z)
| VTime (us : Z)
| VDatetime (us : Z)
| VTimestamp (us : Z)
| VYear (y : Z)
| VLabel (l : text)
| VLabels (ls : list text)
| VDocument
| VShape (b : string).

(** The server's character sets: the bytes a character takes, [None] when the character set does
    not have it, and the most a character takes. *)
Class Charsets := {
  enc : string → N → option nat;
  maxlen : string → nat
}.

(** What the documentation says of them: a character takes one to [maxlen] bytes, and
    utf8mb4 encodes every character of utf8mb3 as utf8mb3 does. *)
Class CharsetLaws `{Charsets} : Prop := {
  enc_bounds cs c k : enc cs c = Some k → 1 ≤ k ≤ maxlen cs;
  enc_utf8 c k : enc "utf8mb3" c = Some k → enc "utf8mb4" c = Some k
}.

(** The bytes of an encoded string. *)
Fixpoint encoded `{Charsets} (cs : string) (l : list N) : option nat :=
  match l with
  | [] => Some 0
  | c :: l => k ← enc cs c; n ← encoded cs l; Some (k + n)
  end.

(** The widths of the integer types and the byte limits of the text and blob types. *)
Definition int_bits (b : string) : Z :=
  PgTypes.switch [(["tinyint"], 8); (["smallint"], 16); (["mediumint"], 24); (["int"; "integer"], 32); (["bigint"], 64)]%Z
    0%Z b.
Definition lob_bytes (b : string) : Z :=
  PgTypes.switch [(["tinytext"; "tinyblob"], 255); (["text"; "blob"], 65535); (["mediumtext"; "mediumblob"], 16777215);
                  (["longtext"; "longblob"], 4294967295)]%Z 0%Z b.

Definition int_range (t : myType) (z : Z) : Prop :=
  if unsigned t then (0 ≤ z < 2 ^ int_bits (base t))%Z
  else (- 2 ^ (int_bits (base t) - 1) ≤ z < 2 ^ (int_bits (base t) - 1))%Z.

(** Microseconds with the digits the precision keeps. *)
Definition on_tick (t : myType) (us : Z) : Prop := (10 ^ (6 - Z.min (arg t 0 0) 6) | us)%Z.

Definition quote : ascii := "'".

(** The labels of an enumeration as declared: quoted, a quote in a label doubled. *)
Fixpoint labels_from (cur : option text) (l : text) : list text :=
  match l, cur with
  | [], _ => []
  | a :: l', None => if Ascii.eqb a quote then labels_from (Some []) l' else labels_from None l'
  | a :: l', Some w =>
      if Ascii.eqb a quote then
        match l' with
        | b :: l'' => if Ascii.eqb b quote then labels_from (Some (quote :: w)) l'' else reverse w :: labels_from None l'
        | [] => [reverse w]
        end
      else labels_from (Some (a :: w)) l'
  end.
Definition labels (s : string) : list text := labels_from None (txt s).

Definition spatial : list string :=
  ["geometry"; "point"; "linestring"; "polygon"; "multipoint"; "multilinestring"; "multipolygon";
   "geomcollection"; "geometrycollection"].

Section values.
Context `{Charsets}.

(** The column accepts the value and returns it: no overflow, rounding, truncation, padding
    or stripping of spaces (a CHAR column loses trailing spaces, a BINARY column pads with zero
    bytes). The catalog always reports a length. The display digits of a floating-point type are
    not interpreted, a pair whose target has them is not judged. *)
Definition holds (c : Column) (v : value) : Prop :=
  let t := parseMyType (col_DataType c) in
  let cs := normCharset (col_Charset c) in
  match family t, v with
  | fInt, VNumber m s => ∃ z, PgTypes.scaled m s z 0 ∧ int_range t z
  | fDecimal, VNumber m s =>
      ∃ k, PgTypes.scaled m s k (arg t 1 0) ∧ (Z.abs k < 10 ^ arg t 0 10)%Z ∧ (unsigned t = true → 0 ≤ k)%Z
  | fFloat, VFloat m e =>
      (unsigned t = true → 0 ≤ m)%Z ∧
      if decide (base t = "float") then (Z.abs m < 2 ^ 24 ∧ -149 ≤ e ≤ 104)%Z
      else (Z.abs m < 2 ^ 53 ∧ -1074 ≤ e ≤ 971)%Z
  | fBit, VBits n => (0 ≤ n < 2 ^ arg t 0 1)%Z
  | fChar, VString l =>
      is_Some (encoded cs l) ∧ (Z.of_nat (length l) ≤ arg t 0 0)%Z ∧ (base t = "char" → last l ≠ Some 32%N)
  | fText, VString l => ∃ n, encoded cs l = Some n ∧ (Z.of_nat n ≤ lob_bytes (base t))%Z
  | fBinary, VBytes l =>
      (Z.of_nat (length l) ≤ arg t 0 0)%Z ∧ (base t = "binary" → Z.of_nat (length l) = arg t 0 0)
  | fBlob, VBytes l => (Z.of_nat (length l) ≤ lob_bytes (base t))%Z
  | fDate, VDate _ => True
  | fTime, VTime us => on_tick t us ∧ (Z.abs us ≤ 3020399000000)%Z
  | fDatetime, VDatetime us => on_tick t us
  | fTimestamp, VTimestamp us => on_tick t us
  | fYear, VYear y => y = 0%Z ∨ (1901 ≤ y ≤ 2155)%Z
  | fEnum, VLabel l => l ∈ labels (col_DataType c)
  | fSet, VLabels ls => Forall (λ l, l ∈ labels (col_DataType c)) ls
  | fJson, VDocument => True
  | fOther, VShape b => b = base t ∨ (base t = "geometry" ∧ b ∈ spatial)
  | _, _ => False
  end.

(** The pairs of different types classified as identical or widening that can lose values. *)
Definition overlooked_types (s t : myType) (scs : string) : bool :=
  match family s, family t with
  | fDecimal, fDecimal =>
      bool_decide (arg t 0 10 - arg t 1 0 < arg s 0 10 - arg s 1 0)%Z || (unsigned t && negb (unsigned s))
  | fFloat, fFloat => negb (bool_decide (args t = [])) || (unsigned t && negb (unsigned s))
  | fBit, fBit => bool_decide (arg t 0 1 < arg s 0 1)%Z
  | fChar, fChar => bool_decide (base t = "char" ∧ base s ≠ "char")
  | fText, fChar => bool_decide (base t = "char" ∨ (arg t 0 0 < lob_bytes (base s))%Z)
  | fChar, fText => bool_decide (lob_bytes (base t) < arg s 0 0 * Z.of_nat (maxlen scs))%Z
  | fBinary, fBinary => bool_decide (base t = "binary")
  | fBlob, fBinary => bool_decide (base t = "binary" ∨ (arg t 0 0 < lob_bytes (base s))%Z)
  | fBinary, fBlob => bool_decide (lob_bytes (base t) < arg s 0 0)%Z
  | fOther, fOther =>
      negb (bool_decide (base s = base t ∧ args s = args t)) &&
      negb (bool_decide (base s ∈ spatial ∧ base t = "geometry"))
  | _, _ => false
  end.

(** With them: labels that differ in the case of letters only, which the lower-cased
    types do not show, and a string column without a character set against one with. *)
Definition overlooked (src tgt : Column) : bool :=
  let s := parseMyType (col_DataType src) in
  let t := parseMyType (col_DataType tgt) in
  let scs := normCharset (col_Charset src) in
  let tcs := normCharset (col_Charset tgt) in
  (isStringish (family s) && negb (bool_decide (scs = "" ↔ tcs = ""))) ||
  if decide (raw s = raw t) then isEnumSet (family s) && negb (bool_decide (col_DataType src = col_DataType tgt))
  else overlooked_types s t scs.

Definition level_ok (l : compatLevel) : bool := match l with compatIdentical | compatWiden => true | _ => false end.

End values.

(** ** Soundness *)

Lemma parseMyType_raw (a b : string) :
  raw (parseMyType a) = raw (parseMyType b) → parseMyType a = parseMyType b.
Proof.
  unfold parseMyType. set (ra := TrimSpace (ToLower (txt a))). set (rb := TrimSpace (ToLower (txt b))).
  clearbody ra rb. intros Hr. assert (ra = rb) as ->; [|done].
  destruct (cut_byte "(" (type_body ra)) as [[??]|], (cut_byte "(" (type_body rb)) as [[??]|]; exact Hr.
Qed.

(** The base names of a family. *)
Lemma my_family_names (t : myType) (f : fam) :
  family t = f → f ≠ fOther → ∃ names, (names, f) ∈ families ∧ base t ∈ names.
Proof.
  intros Hf Hne. destruct (PgTypes.switch_case families fOther (base t)) as [[Hd _]|([names g] & Hc & Hin & Hg)].
  - unfold family in Hf. congruence.
  - exists names. unfold family in Hf. simpl in *. split; [|done]. congruence.
Qed.

(** Case analysis on the base name of a type of a known family. *)
Ltac base_names H Hb :=
  let Hc := fresh "Hc" in
  destruct (my_family_names _ _ H ltac:(done)) as (? & Hc & Hb);
  unfold families in Hc;
  repeat (apply elem_of_cons in Hc as [Hc|Hc]; [try discriminate Hc; injection Hc as ->|]);
  try (by apply elem_of_nil in Hc);
  repeat (apply elem_of_cons in Hb as [Hb|Hb]); try (by apply elem_of_nil in Hb).

(** A higher rank is a wider type. *)
Lemma int_bits_rank (s t : myType) :
  family s = fInt → family t = fInt → (intRank (base t) >= intRank (base s))%Z →
  (1 ≤ int_bits (base s) ≤ int_bits (base t))%Z.
Proof.
  intros Hs Ht Hr.
  base_names Hs Hn; base_names Ht Hm; rewrite Hn, Hm in *; unfold intRank, int_bits in *; simpl in *; lia.
Qed.

Lemma text_bytes_rank (s t : myType) :
  family s = fText → family t = fText → (textRank (base t) >= textRank (base s))%Z →
  (lob_bytes (base s) ≤ lob_bytes (base t))%Z.
Proof.
  intros Hs Ht Hr.
  base_names Hs Hn; base_names Ht Hm; rewrite Hn, Hm in *; unfold textRank, lob_bytes in *; simpl in *; lia.
Qed.

Lemma blob_bytes_rank (s t : myType) :
  family s = fBlob → family t = fBlob → (blobRank (base t) >= blobRank (base s))%Z →
  (lob_bytes (base s) ≤ lob_bytes (base t))%Z.
Proof.
  intros Hs Ht Hr.
  base_names Hs Hn; base_names Ht Hm; rewrite Hn, Hm in *; unfold blobRank, lob_bytes in *; simpl in *; lia.
Qed.

Lemma int_range_wider (s t : myType) (z : Z) :
  (1 ≤ int_bits (base s) ≤ int_bits (base t))%Z → unsigned s = unsigned t → int_range s z → int_range t z.
Proof.
  unfold int_range. intros Hb <-.
  assert (2 ^ int_bits (base s) ≤ 2 ^ int_bits (base t))%Z by (apply Z.pow_le_mono_r; lia).
  assert (2 ^ (int_bits (base s) - 1) ≤ 2 ^ (int_bits (base t) - 1))%Z by (apply Z.pow_le_mono_r; lia).
  destruct (unsigned s); lia.
Qed.

Lemma tick_finer (s t : myType) (us : Z) : (arg t 0 0 >= arg s 0 0)%Z → on_tick s us → on_tick t us.
Proof.
  unfold on_tick. intros Hge. apply Z.divide_trans.
  exists (10 ^ (Z.min (arg t 0 0) 6 - Z.min (arg s 0 0) 6))%Z. rewrite <-Z.pow_add_r by lia. f_equal. lia.
Qed.

(** A decimal with as many digits on either side of the point. *)
Lemma decimal_wider (m : Z) (n : nat) (k sp ss tp ts : Z) :
  (ss ≤ ts)%Z → (sp - ss ≤ tp - ts)%Z → PgTypes.scaled m n k ss → (Z.abs k < 10 ^ sp)%Z →
  PgTypes.scaled m n (k * 10 ^ (ts - ss)) ts ∧ (Z.abs (k * 10 ^ (ts - ss)) < 10 ^ tp)%Z.
Proof.
  intros Hss Hd Hk Hb. split; [by apply PgTypes.scaled_up|].
  assert (0 ≤ sp)%Z. { destruct (decide (0 ≤ sp)%Z); [done|]. rewrite Z.pow_neg_r in Hb; lia. }
  rewrite Z.abs_mul, (Z.abs_eq (10 ^ _)) by (apply Z.pow_nonneg; lia).
  apply (Z.lt_le_trans _ (10 ^ sp * 10 ^ (ts - ss))).
  - apply Zmult_lt_compat_r; [apply Z.pow_pos_nonneg; lia|done].
  - rewrite <-Z.pow_add_r by lia. apply Z.pow_le_mono_r; lia.
Qed.

Section soundness.
Context `{CharsetLaws}.

(** An encoded string has at least a byte and at most [maxlen] bytes per character. *)
Lemma encoded_bounds (cs : string) (l : list N) (n : nat) :
  encoded cs l = Some n → length l ≤ n ≤ length l * maxlen cs.
Proof.
  revert n. induction l as [|c l IH]; intros n; simpl; [intros [= <-]; lia|].
  destruct (enc cs c) as [k|] eqn:Ek; [|done]. simpl. destruct (encoded cs l) as [n'|]; [|done].
  intros [= <-]. specialize (IH n' eq_refl). apply enc_bounds in Ek. lia.
Qed.

Lemma encoded_utf8 (l : list N) (n : nat) : encoded "utf8mb3" l = Some n → encoded "utf8mb4" l = Some n.
Proof.
  revert n. induction l as [|c l IH]; intros n; simpl; [done|].
  destruct (enc "utf8mb3" c) as [k|] eqn:Ek; [|done]. rewrite (enc_utf8 _ _ Ek). simpl.
  destruct (encoded "utf8mb3" l) as [n'|]; [|done]. by rewrite (IH n' eq_refl).
Qed.

(** An accepted pair of character sets encodes every string of the source alike. *)
Lemma charset_sound (src tgt : Column) (l : list N) (n : nat) :
  level_ok (classifyCharset src tgt).1 = true →
  (normCharset (col_Charset src) = "" ↔ normCharset (col_Charset tgt) = "") →
  encoded (normCharset (col_Charset src)) l = Some n → encoded (normCharset (col_Charset tgt)) l = Some n.
Proof.
  unfold classifyCharset. set (sc := normCharset (col_Charset src)). set (tc := normCharset (col_Charset tgt)).
  clearbody sc tc. intros Hl He.
  destruct (decide (sc = "" ∨ tc = "" ∨ sc = tc)) as [Hd|_].
  { assert (sc = tc) as <- by (destruct Hd as [?|[?|?]]; [|symmetry|]; intuition congruence). done. }
  destruct (decide (sc = "utf8mb4" ∧ tc = "utf8mb3")); [done|].
  destruct (decide (sc = "utf8mb3" ∧ tc = "utf8mb4")) as [[-> ->]|]; [|done]. apply encoded_utf8.
Qed.

(** Both classifications accept what the column's accepts. *)
Lemma classifyColumn_ok (src tgt : Column) :
  level_ok (classifyColumn src tgt).1 = true →
  level_ok (classifyTypes (col_DataType src) (col_DataType tgt)).1 = true ∧
  level_ok (classifyCharset src tgt).1 = true.
Proof.
  unfold classifyColumn. destruct (classifyTypes _ _) as [l r], (classifyCharset src tgt) as [cl cr]. simpl.
  destruct (decide _) as [Hlt|Hge]; simpl; destruct l, cl; simpl in *; try done; lia.
Qed.

Section pair.
Context (src tgt : Column).
Let s := parseMyType (col_DataType src).
Let t := parseMyType (col_DataType tgt).
Context (Henc : isStringish (family s) = true → ∀ l n,
  encoded (normCharset (col_Charset src)) l = Some n → encoded (normCharset (col_Charset tgt)) l = Some n).

Lemma same_family_sound (v : value) :
  family s = family t → raw s ≠ raw t → level_ok (classifySameFamily (family s) s t).1 = true →
  overlooked_types s t (normCharset (col_Charset src)) = false → holds src v → holds tgt v.
Proof.
  intros Hf Hraw Hl Ho. unfold holds, overlooked_types in *. fold s t in Ho |- *.
  destruct (family s) eqn:Hs; try rewrite <-Hf in Ho; rewrite <-Hf; symmetry in Hf; cbn [classifySameFamily] in Hl;
    destruct v; try done.
  - destruct (decide (unsigned s ≠ unsigned t)) as [|Hu%dec_stable]; [done|].
    destruct (decide (intRank (base t) >= intRank (base s))%Z); [|done].
    intros (z & Hz & Hr). exists z. split; [done|]. apply (int_range_wider s); [|done..]. by apply int_bits_rank.
  - destruct (decide (_ ∧ _)) as [[Hp Hsc]|]; [|done].
    apply orb_false_iff in Ho as [Ho%bool_decide_eq_false Hu]. intros (k & Hk & Hb & Hpos).
    destruct (decimal_wider m s0 k (arg s 0 10) (arg s 1 0) (arg t 0 10) (arg t 1 0)) as [Hk' Hb'];
      [lia|lia|done|done|].
    eexists. split_and!; [exact Hk'|exact Hb'|]. intros Ht. rewrite Ht in Hu. apply negb_false_iff in Hu.
    apply Z.mul_nonneg_nonneg; [by apply Hpos|apply Z.pow_nonneg; lia].
  - apply orb_false_iff in Ho as [_ Hu]. intros [Hpos Hr]. split.
    { intros Ht. rewrite Ht in Hu. by apply Hpos, negb_false_iff. }
    destruct (decide (base s = "float" ∧ _)) as [[Hb Hin]|_].
    + rewrite Hb in Hr. simpl in Hr. destruct (decide (base t = "float")); [done|]. lia.
    + destruct (decide (base s = base t)) as [<-|]; [done|done].
  - apply bool_decide_eq_false in Ho. intros Hr. assert (2 ^ arg s 0 1 ≤ 2 ^ arg t 0 1)%Z; [|lia].
    apply Z.pow_le_mono_r; lia.
  - destruct (decide (arg t 0 0 >= arg s 0 0)%Z); [|done]. apply bool_decide_eq_false in Ho.
    intros ([n Hn] & Hlen & Hlast). split_and!; [exists n; by apply Henc|lia|].
    intros Ht. apply Hlast. destruct (decide (base s = "char")); [done|]. by exfalso; apply Ho.
  - destruct (decide (textRank (base t) >= textRank (base s))%Z); [|done]. intros (n & Hn & Hb).
    exists n. split; [by apply Henc|]. pose proof (text_bytes_rank s t Hs Hf). lia.
  - destruct (decide (arg t 0 0 >= arg s 0 0)%Z); [|done]. apply bool_decide_eq_false in Ho.
    intros [Hlen _]. split; [lia|done].
  - destruct (decide (blobRank (base t) >= blobRank (base s))%Z); [|done]. intros Hb.
    pose proof (blob_bytes_rank s t Hs Hf). lia.
  - destruct (decide (arg t 0 0 >= arg s 0 0)%Z); [|done]. intros [Ht Hr]. split; [|done]. by apply (tick_finer s t).
  - destruct (decide (arg t 0 0 >= arg s 0 0)%Z); [|done]. by apply (tick_finer s t).
  - destruct (decide (arg t 0 0 >= arg s 0 0)%Z); [|done]. by apply (tick_finer s t).
  - by destruct (decide (raw s = raw t)).
  - by destruct (decide (raw s = raw t)).
  - apply andb_false_iff in Ho as [Ho%negb_false_iff%bool_decide_eq_true|Ho%negb_false_iff%bool_decide_eq_true].
    + destruct Ho as [<- _]. done.
    + destruct Ho as [Hin ->]. intros [->|[Hg Hb]]; right; done.
Qed.

Lemma cross_family_sound (v : value) :
  family s ≠ family t → level_ok (classifyCrossFamily (family s) (family t)).1 = true →
  overlooked_types s t (normCharset (col_Charset src)) = false → holds src v → holds tgt v.
Proof.
  intros Hne Hl Ho. unfold holds, overlooked_types in *. fold s t in Ho |- *.
  destruct (family s) eqn:Hs, (family t) eqn:Ht; try done; destruct v; try done; apply bool_decide_eq_false in Ho.
  - intros ([n Hn] & Hlen & _). exists n. split; [by apply Henc|].
    pose proof (encoded_bounds _ _ _ Hn). nia.
  - intros (n & Hn & Hb). pose proof (encoded_bounds _ _ _ Hn).
    split_and!; [exists n; by apply Henc| |intros ?; exfalso; apply Ho; by left].
    assert (¬ (arg t 0 0 < lob_bytes (base s))%Z) by tauto. lia.
  - intros [Hlen _]. lia.
  - intros Hb. split; [|intros ?; exfalso; apply Ho; by left].
    assert (¬ (arg t 0 0 < lob_bytes (base s))%Z) by tauto. lia.
Qed.
End pair.

(** What the classification accepts keeps every value, the overlooked pairs apart. *)
Lemma classifyColumn_sound (src tgt : Column) (v : value) :
  level_ok (classifyColumn src tgt).1 = true → overlooked src tgt = false → holds src v → holds tgt v.
Proof.
  intros [Hl Hc]%classifyColumn_ok Ho Hv. unfold overlooked in Ho. apply orb_false_iff in Ho as [Hcs Ho].
  assert (isStringish (family (parseMyType (col_DataType src))) = true →
    ∀ l n, encoded (normCharset (col_Charset src)) l = Some n → encoded (normCharset (col_Charset tgt)) l = Some n)
    as Henc.
  { intros Hs l n. rewrite Hs in Hcs. apply negb_false_iff, bool_decide_eq_true in Hcs. by apply charset_sound. }
  unfold classifyTypes in Hl. destruct (decide (raw _ = raw _)) as [Hr|Hr].
  - apply parseMyType_raw in Hr. unfold holds in *. rewrite <-Hr.
    destruct (family (parseMyType (col_DataType src))) eqn:Hf, v; try done;
      try (by apply negb_false_iff, bool_decide_eq_true in Ho as <-).
    + destruct Hv as ([n Hn] & Hlen & Hlast). split_and!; [exists n; by apply Henc|done|done].
    + destruct Hv as (n & Hn & Hb). exists n. split; [by apply Henc|done].
  - destruct (decide (family _ = family _)) as [Hf|Hf].
    + by apply (same_family_sound src tgt Henc v).
    + by apply (cross_family_sound src tgt Henc v).
Qed.
End soundness.

(** ** The Unicode character sets *)

(** The bytes of a code point in UTF-8. *)
Definition utf8_len (c : N) : nat :=
  if decide (c < 128)%N then 1 else if decide (c < 2048)%N then 2 else if decide (c < 65536)%N then 3 else 4.

#[local] Instance utf8_charsets : Charsets := {
  enc cs c := if decide (cs = "utf8mb4" ∧ (c < 1114112)%N ∨ cs = "utf8mb3" ∧ (c < 65536)%N) then Some (utf8_len c) else None;
  maxlen cs := if decide (cs = "utf8mb3") then 3 else 4
}.

#[local] Instance utf8_laws : CharsetLaws.
Proof.
  split.
  - intros cs c k. simpl. unfold utf8_len. destruct (decide (_ ∨ _)) as [Hd|]; [|done]. intros [= <-].
    destruct (decide (cs = "utf8mb3")) as [->|]; repeat destruct (decide _); try lia.
    destruct Hd as [[[=] _]|[_ ?]]. lia.
  - intros c k. simpl. destruct (decide (_ ∨ _)) as [[[[=] _]|[_ Hc]]|]; [|done]. intros [= <-].
    rewrite decide_True; [done|]. left. split; [done|lia].
Qed.

(** A column of a type and a character set. *)
Definition column (type charset : string) : Column := mkColumn "c" type false false false false false charset.

(** The source column holds a value that the target column does not. *)
Definition loses (src tgt : Column) : Prop := ∃ v, holds src v ∧ ¬ holds tgt v.

(** The types of the columns evaluated. *)
Ltac eval_types :=
  unfold holds, column; cbn [col_DataType col_Charset];
  repeat match goal with
  | |- context [parseMyType ?s] =>
      let t := eval vm_compute in (parseMyType s) in
      let H := fresh in assert (parseMyType s = t) as H by (vm_compute; reflexivity); rewrite H; clear H
  end;
  cbn [family base raw unsigned args].

(** The pairs of [overlooked] are real: the classification accepts each of these without a
    warning and the target column cannot keep a value of the source column. *)
Theorem my_classification_overlooks :
  Forall (λ '(src, tgt), level_ok (classifyColumn src tgt).1 = true ∧ overlooked src tgt = true ∧ loses src tgt)
    [(column "text" "utf8mb4", column "varchar(10)" "utf8mb4");
     (column "varchar(300)" "utf8mb4", column "tinytext" "utf8mb4");
     (column "varchar(10)" "utf8mb4", column "char(10)" "utf8mb4");
     (column "decimal(10,2)" "", column "decimal(10,4)" "");
     (column "decimal(10,2)" "", column "decimal(10,2) unsigned" "");
     (column "double" "", column "double unsigned" "");
     (column "bit(8)" "", column "bit(1)" "");
     (column "blob" "", column "varbinary(16)" "");
     (column "binary(4)" "", column "binary(8)" "");
     (column "enum('A','B')" "utf8mb4", column "enum('a','b')" "utf8mb4");
     (column "point" "", column "polygon" "")].
Proof.
  repeat (apply Forall_cons; split); [..|by apply Forall_nil];
    (split_and!; [vm_compute; reflexivity|vm_compute; reflexivity|]); unfold loses.
  - exists (VString (replicate 11 97%N)). eval_types. split.
    + exists 11. split; [vm_compute; reflexivity|]. vm_compute. discriminate.
    + intros (_ & Hlen & _). by vm_compute in Hlen.
  - exists (VString (replicate 256 97%N)). eval_types. split.
    + split_and!; [exists 256; vm_compute; reflexivity|vm_compute; discriminate|discriminate].
    + intros (n & Hn & Hb). vm_compute in Hn. injection Hn as <-. by vm_compute in Hb.
  - exists (VString [97; 32]%N). eval_types. split.
    + split_and!; [exists 2; vm_compute; reflexivity|vm_compute; discriminate|discriminate].
    + intros (_ & _ & Hlast). by apply Hlast.
  - exists (VNumber 9999999999 2). eval_types. split.
    + exists 9999999999%Z. split_and!; [vm_compute; reflexivity..|discriminate].
    + intros (k & Hk & Hb & _). assert (9999999999 * 10000 = k * 100 * 1)%Z by exact Hk.
      assert (Z.abs k < 10000000000)%Z by exact Hb. lia.
  - exists (VNumber (-1) 0). eval_types. split.
    + exists (-100)%Z. split_and!; [vm_compute; reflexivity..|discriminate].
    + intros (k & Hk & _ & Hu). specialize (Hu eq_refl). assert (-1 * 100 = k * 1 * 1)%Z by exact Hk. lia.
  - exists (VFloat (-1) 0). eval_types. split.
    + split; [discriminate|]. vm_compute. intuition discriminate.
    + intros [Hu _]. specialize (Hu eq_refl). lia.
  - exists (VBits 2). eval_types. split; [vm_compute; intuition discriminate|].
    intros [_ Hb]. by vm_compute in Hb.
  - exists (VBytes (replicate 17 "a"%char)). eval_types. split; [vm_compute; discriminate|].
    intros [Hlen _]. by vm_compute in Hlen.
  - exists (VBytes (replicate 4 "a"%char)). eval_types. split; [split; [vm_compute; discriminate|reflexivity]|].
    intros [_ Hlen]. specialize (Hlen eq_refl). discriminate Hlen.
  - exists (VLabel (txt "A")). eval_types. split; [by left|].
    intros [[=]|[[=]|[]%elem_of_nil]%elem_of_cons]%elem_of_cons.
  - exists (VShape "point"). eval_types. split; [by left|]. intros [[=]|[[=] _]].
Qed.

End MyTypes.
