(* ===== verification/MeshIds.v ===== *)
(** * Id allocation in a mesh ([internal/engine/preflight_mesh.go])

    A member of an active-active cluster must not number rows from a local counter: two members
    would give one id to different rows and the last writer would win. The check finds the
    integer key columns the database allocates and refuses the start. The quoting of a
    name ([%q]) in a message is a parameter. *)

From S2P Require Import Prelude Text Engine.
Import Text.

Module MeshIds.

Definition MeshIDAllocCategory : string := "mesh-id-alloc".

Definition wide_names : list string := ["bigint"; "int8"; "bigserial"; "serial8"].
Definition narrow_names : list string :=
  ["integer"; "int"; "int4"; "serial"; "serial4"; "smallint"; "int2"; "smallserial"; "serial2"; "mediumint"; "tinyint"].

(** [classifyIntType]: whether the type is an integer and whether it is narrow; [None] is the
    panic on a type without a word before its modifiers ([Fields(...)[0]]). *)
Definition classifyIntType (dataType : string) : option (bool * bool) :=
  let base := ToLower (TrimSpace (txt dataType)) in
  let base := match cut ["("%char] base with Some (b, _) => b | None => base end in
  match Fields (base ++ [" "%char]) with
  | [] => None
  | w :: _ =>
      let b := untxt (TrimSpace w) in
      Some (if decide (b ∈ wide_names) then (true, false)
            else if decide (b ∈ narrow_names) then (true, true)
            else (false, false))
  end.

(** The role of a column: part of the primary key, and the first unique key it is part of. *)
Record role := mkRole { inPrimary : bool; uniqueKey : string }.

(** [roles] and [order] *)
Definition notes := (gmap string role * list string)%type.

(** [note] with the change of the role it returns. *)
Definition note (f : role → role) (n : notes) (col : string) : notes :=
  match n.1 !! col with
  | Some r => (<[col := f r]> n.1, n.2)
  | None => (<[col := f (mkRole false "")]> n.1, n.2 ++ [col])
  end.

Definition note_primary (r : role) : role := mkRole true (uniqueKey r).
Definition note_unique (name : string) (r : role) : role :=
  if decide (uniqueKey r = "") then mkRole (inPrimary r) name else r.

Definition key_roles (t : Table) : notes :=
  let n := match tbl_PrimaryKey t with
           | Some k => foldl (note note_primary) (∅, []) (key_Columns k)
           | None => (∅, [])
           end in
  foldl (λ n k, foldl (note (note_unique (key_Name k))) n (key_Columns k)) n (tbl_UniqueKeys t).

(** [cols] *)
Definition cols_of (t : Table) : gmap string Column := foldl (λ m c, <[col_Name c := c]> m) ∅ (tbl_Columns t).

Example int_types :
  classifyIntType <$> ["BIGINT unsigned"; " int(11) unsigned"; "serial"; "uuid"; "character varying(36)"; "double precision"; ""] =
  [Some (true, false); Some (true, true); Some (true, true); Some (false, false); Some (false, false);
   Some (false, false); None].
Proof. vm_compute. reflexivity. Qed.

Section findings.
Context (quote : string → string).

Definition narrow_note : string :=
  " (This key is 32-bit or narrower, so even the deferred integer-window fallback would have little range.)".

Definition alloc_finding (t : Table) (col : Column) (r : role) (narrow : bool) : Finding :=
  let keyRole := if inPrimary r then "the primary key"
                 else if decide (uniqueKey r ≠ "") then "unique key " +:+ quote (uniqueKey r)
                 else "a unique key" in
  let msg := ref_string (tbl_Ref t) +:+ "." +:+ col_Name col +:+ " is a locally-allocated integer (" +:+
    untxt (TrimSpace (txt (col_DataType col))) +:+ ") in " +:+ keyRole +:+
    " — in an active-active mesh every node allocates from the same counter, so two nodes mint the same id for different rows and HLC last-write-wins silently drops one. Use globally-unique keys (UUID v7 / ULID); see docs/multi-master.md §5.6." in
  mkFinding SevBlock (tbl_Ref t) MeshIDAllocCategory (if narrow then msg +:+ narrow_note else msg).

(** One column of [order]: what it appends, [None] for the panic. *)
Definition column_finding (t : Table) (roles : gmap string role) (name : string) : option (list Finding) :=
  match cols_of t !! name with
  | None => Some []
  | Some col =>
      if negb (col_Identity col) && negb (col_DefaultSequence col) then Some []
      else
        '(isInt, narrow) ← classifyIntType (col_DataType col);
        Some (if (isInt : bool) then [alloc_finding t col (default (mkRole false "") (roles !! name)) narrow] else [])
  end.

Definition meshFindingsForTable (t : Table) : option (list Finding) :=
  let '(roles, order) := key_roles t in mjoin <$> mapM (column_finding t roles) order.

(** [MeshIDAllocationFindings]; a nil schema is the empty list of tables. *)
Definition MeshIDAllocationFindings (tables : list Table) : option (list Finding) :=
  mjoin <$> mapM meshFindingsForTable tables.

(** ** What it finds *)

(** The columns of the table's keys. *)
Definition key_columns (t : Table) : list string :=
  default [] (key_Columns <$> tbl_PrimaryKey t) ++ mjoin (key_Columns <$> tbl_UniqueKeys t).

(** A column of the table is an integer the database allocates. *)
Definition local_counter (col : Column) : Prop :=
  (col_Identity col = true ∨ col_DefaultSequence col = true) ∧ ∃ narrow, classifyIntType (col_DataType col) = Some (true, narrow).

(** The column is part of a key and a local counter. *)
Definition offending (t : Table) (name : string) : Prop :=
  name ∈ key_columns t ∧ ∃ col, cols_of t !! name = Some col ∧ local_counter col.

(** The columns have a type name. *)
Definition typed (t : Table) : Prop :=
  ∀ c, c ∈ tbl_Columns t → is_Some (classifyIntType (col_DataType c)).

(** [order] lists each noted column once. *)
Definition notes_ok (n : notes) (seen : list string) : Prop :=
  NoDup n.2 ∧ (∀ c, c ∈ n.2 ↔ c ∈ seen) ∧ (∀ c, is_Some (n.1 !! c) ↔ c ∈ seen).

Lemma note_ok (f : role → role) (n : notes) (seen : list string) (col : string) :
  notes_ok n seen → notes_ok (note f n col) (seen ++ [col]).
Proof.
  intros (Hnd & Ho & Hr). unfold note, notes_ok. destruct (n.1 !! col) as [r|] eqn:Hc; simpl.
  - assert (col ∈ seen) by (apply Hr; by eexists). split_and!; [done|..]; intros c.
    + rewrite elem_of_app, list_elem_of_singleton, Ho. naive_solver.
    + rewrite lookup_insert_is_Some', Hr, elem_of_app, list_elem_of_singleton. naive_solver.
  - assert (col ∉ n.2) by (rewrite Ho, <-Hr, Hc; by intros []). split_and!.
    + apply NoDup_app. split_and!; [done| |apply NoDup_singleton]. intros c Hin ->%list_elem_of_singleton. done.
    + intros c. by rewrite !elem_of_app, Ho.
    + intros c. rewrite lookup_insert_is_Some', Hr, elem_of_app, list_elem_of_singleton. naive_solver.
Qed.

Lemma note_all_ok (f : role → role) (l : list string) (n : notes) (seen : list string) :
  notes_ok n seen → notes_ok (foldl (note f) n l) (seen ++ l).
Proof.
  revert n seen. induction l as [|c l IH]; intros n seen Hn; [by rewrite app_nil_r|].
  change (c :: l) with ([c] ++ l). rewrite app_assoc. apply IH. by apply note_ok.
Qed.

Lemma key_roles_ok (t : Table) : notes_ok (key_roles t) (key_columns t).
Proof.
  unfold key_roles, key_columns. set (n := match tbl_PrimaryKey t with Some _ => _ | None => _ end).
  assert (notes_ok n (default [] (key_Columns <$> tbl_PrimaryKey t))) as Hn.
  { assert (notes_ok (∅, []) []).
    { split_and!; [constructor|done|]. intros c. simpl. rewrite lookup_empty, elem_of_nil. by split; [intros []|]. }
    unfold n. destruct (tbl_PrimaryKey t) as [k|]; simpl; [|done]. by apply (note_all_ok _ _ _ []). }
  clearbody n. revert n Hn. generalize (default [] (key_Columns <$> tbl_PrimaryKey t)).
  induction (tbl_UniqueKeys t) as [|k ks IH]; intros seen n Hn; simpl; [by rewrite app_nil_r|].
  rewrite app_assoc. by apply IH, note_all_ok.
Qed.

Definition blocking (t : Table) (f : Finding) : Prop :=
  fnd_Severity f = SevBlock ∧ fnd_Table f = tbl_Ref t ∧ fnd_Category f = MeshIDAllocCategory.

Lemma cols_of_lookup (t : Table) (name : string) (c : Column) : cols_of t !! name = Some c → c ∈ tbl_Columns t.
Proof.
  unfold cols_of. assert (∀ (l : list Column) (m : gmap string Column), foldl (λ m c, <[col_Name c := c]> m) m l !! name = Some c →
    c ∈ l ∨ m !! name = Some c) as Hl.
  { induction l as [|a l IH]; intros m; simpl; [by right|].
    intros [?|Hm]%IH; [left; by right|]. apply lookup_insert_Some in Hm as [[_ <-]|[_ ?]]; [left; by left|by right]. }
  by intros [?|[=]]%Hl.
Qed.

(** A column of a key has one finding if it is a local counter, and none otherwise. *)
Lemma column_finding_spec (t : Table) (roles : gmap string role) (name : string) :
  typed t →
  ∃ fs, column_finding t roles name = Some fs ∧
    ((fs = [] ∧ ∀ c, cols_of t !! name = Some c → ¬ local_counter c) ∨
     (∃ f c, fs = [f] ∧ blocking t f ∧ cols_of t !! name = Some c ∧ local_counter c)).
Proof.
  intros Ht. unfold column_finding, local_counter. destruct (cols_of t !! name) as [c|] eqn:Hc; [|by eexists; split; [|left]].
  destruct (negb (col_Identity c) && negb (col_DefaultSequence c)) eqn:Ha.
  { eexists. split; [done|]. left. split; [done|]. intros ? [= <-] [Hl _].
    destruct (col_Identity c), (col_DefaultSequence c); naive_solver. }
  destruct (Ht c (cols_of_lookup _ _ _ Hc)) as [[isInt narrow] Hi]. rewrite Hi. simpl.
  eexists. split; [done|]. destruct isInt.
  - right. do 2 eexists. split_and!; [done|done|done| |by exists narrow].
    destruct (col_Identity c), (col_DefaultSequence c); naive_solver.
  - left. split; [done|]. intros ? [= <-] [_ [? Hn]]. by rewrite Hi in Hn.
Qed.

(** The findings of a list of columns, one for each local counter. *)
Lemma columns_findings (t : Table) (roles : gmap string role) (l : list string) :
  typed t → NoDup l →
  ∃ fs names, mapM (column_finding t roles) l = Some fs ∧ Forall (blocking t) (mjoin fs) ∧
    length (mjoin fs) = length names ∧ NoDup names ∧
    ∀ n, n ∈ names ↔ n ∈ l ∧ ∃ c, cols_of t !! n = Some c ∧ local_counter c.
Proof.
  intros Ht. induction l as [|a l IH]; intros Hnd.
  { exists [], []. split_and!; [done|constructor|done|constructor|]. intros n. rewrite elem_of_nil. naive_solver. }
  apply NoDup_cons in Hnd as [Ha Hnd]. destruct (IH Hnd) as (fs & names & HM & HB & Hlen & HN & Hin).
  destruct (column_finding_spec t roles a Ht) as (fa & Hfa & Hcase). cbn [mapM]. rewrite Hfa, HM.
  destruct Hcase as [[-> Hno]|(f & c & -> & Hb & Hc & Hl)].
  - exists ([] :: fs), names. split_and!; [done|done|done|done|]. intros n. rewrite Hin, elem_of_cons. naive_solver.
  - exists ([f] :: fs), (a :: names). split_and!; [done|by constructor|by simpl; rewrite Hlen| |].
    + constructor; [|done]. rewrite Hin. naive_solver.
    + intros n. rewrite !elem_of_cons, Hin. naive_solver.
Qed.

Lemma table_alloc (t : Table) :
  typed t →
  ∃ fs names, meshFindingsForTable t = Some fs ∧ Forall (blocking t) fs ∧ length fs = length names ∧ NoDup names ∧
    ∀ n, n ∈ names ↔ offending t n.
Proof.
  intros Ht. unfold meshFindingsForTable. pose proof (key_roles_ok t) as Hk. destruct (key_roles t) as [roles order].
  destruct Hk as (Hnd & Ho & _). simpl in *. destruct (columns_findings t roles order Ht Hnd) as (fs & names & -> & HB & Hlen & HN & Hin).
  exists (mjoin fs), names. split_and!; [done..|]. intros n. rewrite Hin, Ho. done.
Qed.

(** The check finds exactly the key columns that are local counters: it always ends, every
    finding blocks, the findings of a table are as many as its offending columns, and there is
    none when every key is allocated by the applications. *)
Lemma alloc_exact (tables : list Table) :
  Forall typed tables →
  ∃ fs, MeshIDAllocationFindings tables = Some fs ∧
    Forall (λ f, ∃ t, t ∈ tables ∧ blocking t f) fs ∧
    (fs = [] ↔ ∀ t n, t ∈ tables → ¬ offending t n).
Proof.
  unfold MeshIDAllocationFindings. induction 1 as [|t tables Ht HF (fs & Hfs & HB & Hnil)].
  { exists []. split_and!; [done|constructor|]. split; [|done]. intros _ t n ?%elem_of_nil. done. }
  destruct (table_alloc t Ht) as (ft & names & Hft & Hbt & Hlen & _ & Hin).
  cbn [mapM]. rewrite Hft. destruct (mapM meshFindingsForTable tables) as [l|]; [|done].
  simpl in Hfs. injection Hfs as <-. exists (ft ++ mjoin l). split_and!; [done|..].
  - apply Forall_app. split.
    + apply (Forall_impl _ _ _ Hbt). intros f Hf. exists t. split; [by left|done].
    + apply (Forall_impl _ _ _ HB). intros f (t' & Ht' & Hf). exists t'. split; [by right|done].
  - split.
    + intros [-> Hl]%app_eq_nil t' n Hin'. apply elem_of_cons in Hin' as [->|Hin']; [|by apply (proj1 Hnil Hl)].
      destruct names as [|]; [|done]. rewrite <-Hin. apply not_elem_of_nil.
    + intros Hno. assert (mjoin l = []) as -> by (apply Hnil; intros t' n ?; apply Hno; by right).
      rewrite app_nil_r. destruct names as [|a names]; [by apply nil_length_inv|]. exfalso.
      apply (Hno t a); [by left|]. apply Hin. by left.
Qed.

End findings.
End MeshIds.
