(* ===== verification/Calls.v ===== *)
(** * The interfaces of the pipeline, and programs over them

    The engine-neutral packages ([apply], [copy], [reseed], [pipeline]) act on
    the world only through the methods of [engine.Source], [engine.Sink],
    [engine.ApplyTx] ([internal/engine/engine.go]) and [state.StateStore]
    ([internal/state/state.go]). [call] has one constructor per method they
    use and [resp] gives its result type; a Go function of these packages
    becomes a [prog], a finite tree whose nodes are the calls the function makes
    and whose branches are the results it can get back. What a call does is
    not part of the tree: it is a step relation, given by the engine
    ([Contract.v], [Postgres.v]).

    The program logic at the end states that a program keeps an invariant at
    every point between two calls, which is where a crash can stop it. *)

From S2P Require Import Prelude Engine.

(** ** Stored state ([state.go]) *)

Inductive Phase := PhaseInitialCopy | PhaseStreaming.

Record CompletedRange := mkRange { rng_Lo : option KeyValues; rng_Hi : option KeyValues }.

Record CopyProgress := mkProgress {
  cp_Target : TargetID;
  cp_Table : TableRef;
  cp_Done : bool;
  cp_Watermark : option KeyValues;
  cp_Completed : list CompletedRange
}.

Record Cursor := mkCursor {
  cur_Target : TargetID;
  cur_Table : TableRef;
  cur_Phase : Phase;
  cur_LastDelta : DeltaID;
  cur_NeedsReseed : bool
}.

(** An event of the audit trail, without its free-form attributes. *)
Record Event := mkEvent {
  evt_Sync : string;
  evt_Target : TargetID;
  evt_Table : TableRef;
  evt_Level : string;
  evt_Event : string;
  evt_Message : string
}.

#[global] Instance Phase_eq_dec : EqDecision Phase.
Proof. solve_decision. Defined.
#[global] Instance Cursor_eq_dec : EqDecision Cursor.
Proof. solve_decision. Defined.
#[global] Instance CompletedRange_eq_dec : EqDecision CompletedRange.
Proof. solve_decision. Defined.
#[global] Instance CopyProgress_eq_dec : EqDecision CopyProgress.
Proof. solve_decision. Defined.

(** ** Calls *)

(** What an [io.Pipe] delivers: the rows, by key, or the writer's error. *)
Abbreviation reader := (result (gmap KeyValues Row)).

(** The statements the Postgres engine's copy of a cyclic component sends itself, on the
    source ([SCopyTo]) and on the sink. *)
Inductive stmt :=
| SCopyTo (t : TableRef) (cols : list string) (lo hi : option KeyValues)
| STableMeta (t : TableRef)
| SExistsRow (t : TableRef)
| SBegin
| SSetDeferred
| SCreateStaging (t : TableRef)
| SCopyStaging (t : TableRef) (cols : list string) (r : reader)
| SCopyTable (t : TableRef) (cols : list string) (r : reader)
| SMergeInsert (t : TableRef) (cols : list string) (lo hi : option KeyValues)
| SUpdateFrom (t : TableRef) (fkCols : list string).

Definition stmt_resp (q : stmt) : Type :=
  match q with
  | SCopyTo _ _ _ _ => gmap KeyValues Row
  | STableMeta _ => Table
  | SExistsRow _ => bool
  | _ => unit
  end.

Inductive call :=
(* engine.Source *)
| ReadDirtyKeys (t : TableRef) (target : TargetID) (max : Z)
| Introspect (sel : Selection)
| InstallCapture (tables : list TableRef)
| InstallOriginCapture (tables : list TableRef) (nodeID : string)
| RereadCurrent (t : TableRef) (keys : list KeyValues)
| ConfirmConsumed (t : TableRef) (target : TargetID) (ids : list DeltaID)
| Purge (t : TableRef) (targets : list TargetID) (ret : RetentionPolicy)
| PlanChunks (t : TableRef) (opts : ChunkOptions)
| CopyChunk (c : Chunk)
| SrcHealthCheck
| SrcReconnect
| DeltaBacklogOf (t : TableRef) (target : TargetID)
| GCTombstones (t : TableRef)
| MissingAtSource (t : TableRef) (keys : list KeyValues)
(* engine.Sink and its optional interfaces *)
| BulkLoad (t : TableRef) (cols : list string) (r : reader) (mode : LoadMode)
| DeleteRange (t : TableRef) (lo hi : option KeyValues)
| CountRows (t : TableRef)
| ApplyPass (t : TableRef) (cols : list string) (dirtyKeys : list KeyValues) (r : reader)
| CyclicCols (componentTables : list TableRef)
| BeginApply (cyclic : bool) (componentTables : list TableRef)
| SinkHealthCheck
| SinkReconnect
| SinkServerVersion
| ReseedSequences (t : TableRef)
| ScanTargetKeys (t : TableRef) (cursor : Z) (batch : Z)
(* engine.DBSizer, of the source or of the sink *)
| DatabaseSize (sink : bool)
| ReplicatedSize (sink : bool) (tables : list TableRef)
(* engine.ApplyTx *)
| StageUpsert (t : TableRef) (cols : list string) (r : reader)
| DeleteAbsent (t : TableRef) (dirtyKeys : list KeyValues)
| FillCyclic
| Commit
| Rollback
(* state.StateStore *)
| LoadCopyProgress (sync : string) (target : TargetID) (t : TableRef)
| SaveCopyProgress (sync : string) (p : CopyProgress)
| LoadCursor (sync : string) (target : TargetID) (t : TableRef)
| SaveCursor (sync : string) (c : Cursor)
| ListCursors (sync : string)
| RecordEvent (e : Event)
| RecordApplied (sync : string) (target : TargetID) (t : TableRef) (rows : Z)
(* context and time *)
| CtxErr
| Now
| After (d : Z)
(* inside the Postgres engine *)
| Exec (q : stmt).

Definition resp (o : call) : Type :=
  match o with
  | ReadDirtyKeys _ _ _ => list DirtyKey
  | Introspect _ => list Table
  | InstallCapture _ => unit
  | InstallOriginCapture _ _ => unit
  | RereadCurrent _ _ => gmap KeyValues Row
  | ConfirmConsumed _ _ _ => unit
  | Purge _ _ _ => PurgeStats
  | PlanChunks _ _ => list Chunk
  | CopyChunk _ => gmap KeyValues Row
  | SrcHealthCheck | SrcReconnect => unit
  | DeltaBacklogOf _ _ => DeltaBacklog
  | GCTombstones _ => Z
  | MissingAtSource _ _ => list KeyValues
  | BulkLoad _ _ _ _ => Z
  | DeleteRange _ _ _ => unit
  | CountRows _ => Z
  | ApplyPass _ _ _ _ => unit
  | CyclicCols _ => gmap TableRef (list string)
  | BeginApply _ _ => unit
  | SinkHealthCheck | SinkReconnect => unit
  | SinkServerVersion => string
  | ReseedSequences _ => unit
  | ScanTargetKeys _ _ _ => list KeyValues * Z
  | DatabaseSize _ | ReplicatedSize _ _ => Z
  | StageUpsert _ _ _ => unit
  | DeleteAbsent _ _ => unit
  | FillCyclic | Commit | Rollback => unit
  | LoadCopyProgress _ _ _ => CopyProgress
  | SaveCopyProgress _ _ => unit
  | LoadCursor _ _ _ => Cursor
  | SaveCursor _ _ => unit
  | ListCursors _ => list Cursor
  | RecordEvent _ => unit
  | RecordApplied _ _ _ _ => unit
  | Now => Z
  | CtxErr | After _ => unit
  | Exec q => stmt_resp q
  end.

(** ** Programs *)

(** [Call c o k]: make call [o] on connection pair [c] (an index in the pool) and
    go on with its result. *)
Inductive prog (A : Type) : Type :=
| Ret (a : A)
| Call (c : nat) (o : call) (k : result (resp o) → prog A).
Arguments Ret {A} a.
Arguments Call {A} c o k.

Fixpoint prog_bind {A B} (f : A → prog B) (p : prog A) : prog B :=
  match p with
  | Ret a => f a
  | Call c o k => Call c o (λ r, prog_bind f (k r))
  end.

#[global] Instance prog_mbind : MBind prog := @prog_bind.
#[global] Instance prog_mret : MRet prog := @Ret.

Definition do_call (c : nat) (o : call) : prog (result (resp o)) := Call c o Ret.

(** [x, err := call; if err != nil { return h(err) }], in continuation style. *)
Definition on_error {A B} (h : error → B) (k : A → prog B) (r : result A) : prog B :=
  match r with inl e => Ret (h e) | inr a => k a end.

(** A Go [for _, x := range l] whose body updates [s] and can return early. *)
Fixpoint for_each {A S B} (l : list A) (body : A → S → prog (B + S)) (s : S) : prog (B + S) :=
  match l with
  | [] => Ret (inr s)
  | x :: l =>
      r ← body x s;
      match r with
      | inl b => Ret (inl b)
      | inr s => for_each l body s
      end
  end.

(** ** Program logic *)

Section safe.
Context {W : Type} (step : nat → ∀ o : call, W → result (resp o) → W → Prop).
Context (pre : nat → call → W → Prop) (I : W → Prop).

(** [safe p Q w]: from [w], whatever the calls of [p] return, every call is made
    under its precondition [pre], [I] holds between any two calls and at the
    end, and the result satisfies [Q]. *)
Fixpoint safe {A} (p : prog A) (Q : A → W → Prop) (w : W) : Prop :=
  I w ∧
  match p with
  | Ret a => Q a w
  | Call c o k => pre c o w ∧ ∀ r w', step c o w r w' → safe (k r) Q w'
  end.

Lemma safe_I {A} (p : prog A) Q w : safe p Q w → I w.
Proof. by destruct p; intros []. Qed.

Lemma safe_mono {A} (p : prog A) (Q Q' : A → W → Prop) w :
  (∀ a w, I w → Q a w → Q' a w) → safe p Q w → safe p Q' w.
Proof.
  intros HQ. revert w. induction p as [a|c o k IH]; intros w [HI Hp]; simpl.
  - split; [done|]. by apply HQ.
  - destruct Hp as [Hpre Hp]. split_and!; [done..|]. intros r w' Hs. by apply IH, Hp.
Qed.

Lemma safe_bind {A B} (p : prog A) (f : A → prog B) Q w :
  safe p (λ a, safe (f a) Q) w → safe (p ≫= f) Q w.
Proof.
  revert w. induction p as [a|c o k IH]; intros w [HI Hp]; simpl.
  - done.
  - destruct Hp as [Hpre Hp]. split_and!; [done..|]. intros r w' Hs. by apply IH, Hp.
Qed.

Lemma safe_call c o Q w :
  I w → pre c o w → (∀ r w', step c o w r w' → I w' ∧ Q r w') → safe (do_call c o) Q w.
Proof. intros HI Hpre Hs. split_and!; [done..|]. intros r w' H. split; apply Hs in H; tauto. Qed.

Lemma safe_ret {A} (a : A) (Q : A → W → Prop) w : I w → Q a w → safe (Ret a) Q w.
Proof. by split. Qed.

(** The loop rule: [J done rest s] is the loop invariant. *)
Lemma safe_for_each {A S B} (body : A → S → prog (B + S)) (J : list A → S → W → Prop)
    (Q : B + S → W → Prop) :
  (∀ x l s w, I w → J (x :: l) s w →
     safe (body x s) (λ r w, match r with inl b => Q (inl b) w | inr s => J l s w end) w) →
  (∀ s w, I w → J [] s w → Q (inr s) w) →
  ∀ l s w, I w → J l s w → safe (for_each l body s) Q w.
Proof.
  intros Hbody Hend l. induction l as [|x l IH]; intros s w HI HJ; simpl.
  - apply safe_ret; auto.
  - apply safe_bind. eapply safe_mono; [|by apply Hbody].
    intros [b|s'] w' HI' Hr; [by apply safe_ret|by apply IH].
Qed.
End safe.

(** A program that is safe for an invariant is safe for a weaker one. *)
Lemma safe_weaken {W} (step : nat → ∀ o : call, W → result (resp o) → W → Prop)
    (pre : nat → call → W → Prop) (I I' : W → Prop) {A} (p : prog A) Q w :
  (∀ w, I w → I' w) → safe step pre I p Q w → safe step pre I' p Q w.
Proof.
  intros HI. revert w. induction p as [a|c o k IH]; intros w [Hi Hp]; simpl.
  - auto.
  - destruct Hp as [Hpre Hp]. split_and!; [auto..|]. intros r w' Hs. by apply IH, Hp.
Qed.

(** *** Which calls a program makes *)

Fixpoint only (P : call → Prop) {A} (p : prog A) : Prop :=
  match p with
  | Ret _ => True
  | Call _ o k => P o ∧ ∀ r, only P (k r)
  end.

Lemma only_bind P {A B} (p : prog A) (f : A → prog B) :
  only P p → (∀ a, only P (f a)) → only P (p ≫= f).
Proof.
  intros Hp Hf. induction p as [a|c o k IH]; [apply Hf|]. destruct Hp as [Ho Hk]. split; [done|].
  intros r. by apply IH.
Qed.

Lemma only_call P c o : P o → only P (do_call c o).
Proof. by split. Qed.

Lemma only_for_each P {A S B} (l : list A) (body : A → S → prog (B + S)) s :
  (∀ x s, only P (body x s)) → only P (for_each l body s).
Proof.
  intros Hb. revert s. induction l as [|x l IH]; intros s; simpl; [done|].
  apply only_bind; [apply Hb|]. by intros [b|s'].
Qed.

Lemma only_mono (P P' : call → Prop) {A} (p : prog A) : (∀ o, P o → P' o) → only P p → only P' p.
Proof. intros HP. induction p as [a|c o k IH]; [done|]. intros [Ho Hk]. split; [auto|]. auto. Qed.

(** A program all of whose calls are allowed and keep the invariant. *)
Lemma safe_only {W} (step : nat → ∀ o : call, W → result (resp o) → W → Prop)
    (pre : nat → call → W → Prop) (I : W → Prop) (P : call → Prop) {A} (p : prog A) w :
  (∀ c o w r w', P o → step c o w r w' → I w → I w') → (∀ c o w, P o → pre c o w) →
  only P p → I w → safe step pre I p (λ _ _, True) w.
Proof.
  intros HI Hpre. revert w. induction p as [a|c o k IH]; intros w Hp Hw; simpl; [done|].
  destruct Hp as [Ho Hk]. split_and!; [done|by apply Hpre|]. intros r w' Hs. apply IH; [done|]. by eapply HI.
Qed.

(** What none of a program's calls can change holds on. *)
Lemma safe_frame {W} (step : nat → ∀ o : call, W → result (resp o) → W → Prop)
    (pre : nat → call → W → Prop) (I F : W → Prop) (P : call → Prop) {A} (p : prog A) Q w :
  (∀ c o w r w', P o → step c o w r w' → F w → F w') →
  only P p → F w → safe step pre I p Q w →
  safe step pre (λ w, I w ∧ F w) p (λ a w, Q a w ∧ F w) w.
Proof.
  intros HF. revert w. induction p as [a|c o k IH]; intros w Hp Hw [Hi Hs]; simpl.
  - done.
  - destruct Hp as [Ho Hk], Hs as [Hpre Hs]. split_and!; [done..|]. intros r w' Hst.
    apply IH; [done|by eapply HF|by apply Hs].
Qed.

(** ** Running a program

    [exec h p s] answers every call with a handler over some state; a handler
    that follows the step relation runs a program inside it. *)
Section exec.
Context {S : Type} (h : nat → ∀ o : call, S → result (resp o) * S).

Fixpoint exec {A} (p : prog A) (s : S) : A * S :=
  match p with
  | Ret a => (a, s)
  | Call c o k => let '(r, s') := h c o s in exec (k r) s'
  end.

Lemma exec_bind {A B} (p : prog A) (f : A → prog B) s :
  exec (p ≫= f) s = let '(a, s') := exec p s in exec (f a) s'.
Proof.
  revert s. induction p as [a|c o k IH]; intros s; [done|]. simpl.
  destruct (h c o s) as [r s']. apply IH.
Qed.
End exec.

(** A run of a safe program ends in its postcondition. *)
Lemma safe_exec {W} (step : nat → ∀ o : call, W → result (resp o) → W → Prop)
    (pre : nat → call → W → Prop) (I : W → Prop) (h : nat → ∀ o : call, W → result (resp o) * W) {A} (p : prog A) Q w :
  (∀ c o w, step c o w (h c o w).1 (h c o w).2) →
  safe step pre I p Q w → I (exec h p w).2 ∧ Q (exec h p w).1 (exec h p w).2.
Proof.
  intros Hh. revert w. induction p as [a|c o k IH]; intros w [HI Hp]; [done|]. simpl.
  specialize (Hh c o w). destruct (h c o w) as [r w']. destruct Hp as [_ Hp]. by apply IH, Hp.
Qed.
