(* ===== verification/ApplyTx.v ===== *)
(** * The target transaction ([internal/engine/postgres/apply_tx.go], [apply.go])

    The rows a drain pass writes and what each statement of an apply
    transaction does to them. A transaction keeps its writes as an overlay on
    the committed target rows until [Commit]; the staging tables keep the
    re-read rows with all their columns.

    A target table is a finite map from keys to rows, all target tables
    together are one map over (table, key). A row is the map of its columns to
    their text form, an absent column being NULL. *)

From S2P Require Import Prelude Engine Calls.

Module ApplyTx.

Abbreviation tkey := (TableRef * KeyValues)%type.
Abbreviation rows := (gmap tkey Row).

(** ** Rows *)

(** A row as the column list [cols] transports it. *)
Definition proj (cols : list string) (r : Row) : Row := filter (λ '(c, _), c ∈ cols) r.

(** [INSERT (cols) ... ON CONFLICT DO UPDATE SET cols] and [UPDATE SET cols]: the
    listed columns come from [new], the others keep their old value. *)
Definition set_cols (cols : list string) (new old : Row) : Row :=
  filter (λ '(c, _), c ∈ cols) new ∪ filter (λ '(c, _), c ∉ cols) old.

(** ** Transactions ([pgApplyTx]) *)

Record pgApplyTx := mkTx {
  tx_cyclicCols : gmap TableRef (list string);
  tx_staging : gmap TableRef (gmap KeyValues Row);
  tx_writes : gmap tkey (option Row)
}.

Definition begin_tx (cyclicCols : gmap TableRef (list string)) : pgApplyTx :=
  mkTx cyclicCols ∅ ∅.

(** A row as the transaction sees it. *)
Definition visible (tx : pgApplyTx) (tgt : rows) (tk : tkey) : option Row :=
  match tx_writes tx !! tk with Some o => o | None => tgt !! tk end.

Definition cyclic_of (tx : pgApplyTx) (t : TableRef) : list string :=
  default [] (tx_cyclicCols tx !! t).

(** Writes on one table, by key. *)
Definition on_table (t : TableRef) (m : gmap KeyValues (option Row)) : gmap tkey (option Row) :=
  kmap (λ k, (t, k)) m.

(** [StageUpsert]: stage the re-read rows and upsert them without the cyclic FK
    columns; a new row gets the table's column defaults [dflt] in the columns the
    INSERT omits. *)
Definition stageUpsert (dflt : TableRef → Row) (tgt : rows) (t : TableRef) (cols : list string)
    (stg : gmap KeyValues Row) (tx : pgApplyTx) : pgApplyTx :=
  let nc := cyclic_of tx t in
  let upsertCols := if decide (nc = []) then cols else subtractCols cols nc in
  let up k r := Some (set_cols upsertCols r (default (dflt t) (visible tx tgt (t, k)))) in
  mkTx (tx_cyclicCols tx) (<[t := stg]> (tx_staging tx))
    (on_table t (map_imap (λ k r, Some (up k r)) stg) ∪ tx_writes tx).

(** [DeleteAbsent]: [None] when the table has not been staged. *)
Definition deleteAbsent (t : TableRef) (dirtyKeys : list KeyValues) (tx : pgApplyTx)
    : option pgApplyTx :=
  stg ← tx_staging tx !! t;
  Some (mkTx (tx_cyclicCols tx) (tx_staging tx)
    (on_table t (list_to_map ((λ k, (k, @None Row)) <$> filter (λ k, stg !! k = None) dirtyKeys))
       ∪ tx_writes tx)).

(** One UPDATE of [FillCyclic]: the staged values of the cyclic columns, for
    the staged rows that exist on the target. *)
Definition fill_table (tgt : rows) (t : TableRef) (stg : gmap KeyValues Row) (tx : pgApplyTx)
    : pgApplyTx :=
  let cols := cyclic_of tx t in
  if decide (cols = []) then tx
  else
    mkTx (tx_cyclicCols tx) (tx_staging tx)
      (on_table t (map_imap (λ k r, (λ old, Some (set_cols cols r old)) <$> visible tx tgt (t, k)) stg)
         ∪ tx_writes tx).

(** [FillCyclic]: every staged table in turn. *)
Definition fillCyclic (tgt : rows) (tx : pgApplyTx) : pgApplyTx :=
  foldr (λ '(t, stg) tx, fill_table tgt t stg tx) tx (map_to_list (tx_staging tx)).

(** Publishing a set of row writes. *)
Definition apply_writes (ws : gmap tkey (option Row)) (m : rows) : rows :=
  omap id ws ∪ filter (λ '(tk, _), ws !! tk = None) m.

(** [Commit] publishes the overlay. *)
Definition commit (tx : pgApplyTx) (tgt : rows) : rows := apply_writes (tx_writes tx) tgt.

(** [Sink.ApplyPass]: one transaction that upserts the staged rows in all their
    columns and deletes the dirty keys that are absent from them. *)
Definition applyPass (dflt : TableRef → Row) (tgt : rows) (t : TableRef) (cols : list string)
    (dirtyKeys : list KeyValues) (stg : gmap KeyValues Row) : option rows :=
  if decide (dirtyKeys = []) then Some tgt
  else
    tx ← deleteAbsent t dirtyKeys (stageUpsert dflt tgt t cols stg (begin_tx ∅));
    Some (commit tx tgt).

(** [RereadCurrent]: the current rows of the given keys, in the transport columns. *)
Definition reread (cols : list string) (src : rows) (t : TableRef) (keys : list KeyValues)
    : gmap KeyValues Row :=
  list_to_map (omap (λ k, (λ r : Row, (k, proj cols r)) <$> src !! (t, k)) keys).

(** ** Loading a chunk ([Sink.BulkLoad]) and clearing a table ([DeleteRange]) *)

(** The upsert of a set of rows in the columns [cols]. *)
Definition upsert_rows (dflt : TableRef → Row) (tgt : rows) (t : TableRef) (cols : list string)
    (stg : gmap KeyValues Row) : rows :=
  apply_writes (on_table t
    (map_imap (λ k r, Some (Some (set_cols cols r (default (dflt t) (tgt !! (t, k)))))) stg)) tgt.

(** [directLoad] is a plain COPY, which fails on a key that is present;
    [mergeLoad] stages and upserts. [None]: the statement fails. *)
Definition bulkLoad (dflt : TableRef → Row) (tgt : rows) (t : TableRef) (cols : list string)
    (stg : gmap KeyValues Row) (mode : LoadMode) : option rows :=
  if decide (cols = []) then None
  else match mode with
       | LoadDirect =>
           if decide (map_Forall (λ k _, tgt !! (t, k) = None) stg)
           then Some (upsert_rows dflt tgt t cols stg) else None
       | LoadMerge => Some (upsert_rows dflt tgt t cols stg)
       end.

(** ** The statements of the cyclic copy ([cyclic.go])

    A staging table is named by the table it is for: the names the code gives to two
    staging tables of one transaction differ. *)

(** [CREATE TEMP TABLE ... ON COMMIT DROP] fails on a name that is taken. *)
Definition createStaging (t : TableRef) (tx : pgApplyTx) : option pgApplyTx :=
  match tx_staging tx !! t with
  | Some _ => None
  | None => Some (mkTx (tx_cyclicCols tx) (<[t := ∅]> (tx_staging tx)) (tx_writes tx))
  end.

(** [COPY stg (cols) FROM STDIN] *)
Definition copyStaging (t : TableRef) (stg : gmap KeyValues Row) (tx : pgApplyTx) : option pgApplyTx :=
  s ← tx_staging tx !! t;
  Some (mkTx (tx_cyclicCols tx) (<[t := stg ∪ s]> (tx_staging tx)) (tx_writes tx)).

(** The upsert of rows inside the transaction. *)
Definition upsert_tx (dflt : TableRef → Row) (tgt : rows) (t : TableRef) (cols : list string)
    (stg : gmap KeyValues Row) (tx : pgApplyTx) : pgApplyTx :=
  mkTx (tx_cyclicCols tx) (tx_staging tx)
    (on_table t (map_imap (λ k r, Some (Some (set_cols cols r (default (dflt t) (visible tx tgt (t, k)))))) stg)
       ∪ tx_writes tx).

(** [INSERT INTO t (cols) SELECT cols FROM stg WHERE range ON CONFLICT ...]
    ([mergeInsertRangeSQL], [mergeInsertSQL] without a range). *)
Definition mergeInsert (dflt : TableRef → Row) (tgt : rows) (t : TableRef) (cols : list string)
    (P : KeyValues → Prop) `{!∀ k, Decision (P k)} (tx : pgApplyTx) : option pgApplyTx :=
  stg ← tx_staging tx !! t;
  Some (upsert_tx dflt tgt t cols (filter (λ '(k, _), P k) stg) tx).

(** [UPDATE t SET fkCols FROM stg WHERE the keys agree] *)
Definition updateFrom (tgt : rows) (t : TableRef) (fkCols : list string) (tx : pgApplyTx) : option pgApplyTx :=
  stg ← tx_staging tx !! t;
  Some (mkTx (tx_cyclicCols tx) (tx_staging tx)
    (on_table t (map_imap (λ k r, (λ old, Some (set_cols fkCols r old)) <$> visible tx tgt (t, k)) stg)
       ∪ tx_writes tx)).

(** [COPY t (cols) FROM STDIN] inside the transaction: it fails on a key that is present. *)
Definition copyInto (dflt : TableRef → Row) (tgt : rows) (t : TableRef) (cols : list string)
    (stg : gmap KeyValues Row) (tx : pgApplyTx) : option pgApplyTx :=
  if decide (map_Forall (λ k _, visible tx tgt (t, k) = None) stg)
  then Some (upsert_tx dflt tgt t cols stg tx) else None.

Definition deleteRows (P : KeyValues → Prop) `{!∀ k, Decision (P k)} (t : TableRef) (tgt : rows) : rows :=
  filter (λ '(tk, _), ¬ (tk.1 = t ∧ P tk.2)) tgt.

Definition countRows (t : TableRef) (tgt : rows) : Z :=
  Z.of_nat (size (filter (λ '(tk, _), tk.1 = t) tgt)).

(** ** Lemmas *)

#[global] Instance on_table_inj (t : TableRef) : Inj (=) (=) (λ k : KeyValues, (t, k)).
Proof. by intros k1 k2 [= ->]. Qed.

Lemma lookup_on_table t m t' k :
  on_table t m !! (t', k) = if decide (t' = t) then m !! k else None.
Proof.
  unfold on_table. case_decide as Ht.
  - subst. by rewrite (lookup_kmap (λ k, (t, k))).
  - apply lookup_kmap_None; [apply _|]. intros k' [= -> ->]. done.
Qed.

Lemma visible_union cc st tx tgt t m t' k :
  visible (mkTx cc st (on_table t m ∪ tx_writes tx)) tgt (t', k)
  = if decide (t' = t) then
      match m !! k with Some o => o | None => visible tx tgt (t', k) end
    else visible tx tgt (t', k).
Proof.
  unfold visible. simpl.
  rewrite lookup_union_r_if, lookup_on_table. case_decide; [|done]. by destruct (m !! k).
Qed.

Lemma lookup_apply_writes ws m tk :
  apply_writes ws m !! tk = match ws !! tk with Some o => o | None => m !! tk end.
Proof.
  unfold apply_writes. rewrite lookup_union_r_if, lookup_omap.
  rewrite (lookup_filter_fst (λ tk, ws !! tk = None)).
  destruct (ws !! tk) as [[r|]|]; [done|by rewrite decide_False|by rewrite decide_True].
Qed.

Lemma lookup_commit tx tgt tk : commit tx tgt !! tk = visible tx tgt tk.
Proof. unfold commit, visible. apply lookup_apply_writes. Qed.

Lemma lookup_reread cols src t keys k :
  reread cols src t keys !! k = if decide (k ∈ keys) then proj cols <$> src !! (t, k) else None.
Proof.
  unfold reread. induction keys as [|k' keys IH].
  { by rewrite decide_False by apply not_elem_of_nil. }
  cbn [omap list_omap].
  destruct (src !! (t, k')) as [r|] eqn:E; simpl.
  - destruct (decide (k = k')) as [->|Hne].
    + rewrite lookup_insert_eq, decide_True by set_solver. by rewrite E.
    + rewrite lookup_insert_ne, IH by done. apply decide_ext. set_solver.
  - rewrite IH. destruct (decide (k = k')) as [->|Hne].
    + rewrite (decide_True (P := k' ∈ k' :: keys)) by set_solver. rewrite E. by case_decide.
    + apply decide_ext. set_solver.
Qed.

(** *** Columns *)

Lemma lookup_proj cols r c : proj cols r !! c = if decide (c ∈ cols) then r !! c else None.
Proof. unfold proj. by rewrite (lookup_filter_fst (λ c, c ∈ cols)). Qed.

Lemma lookup_set_cols cols new old c :
  set_cols cols new old !! c = if decide (c ∈ cols) then new !! c else old !! c.
Proof.
  unfold set_cols. rewrite lookup_union_r_if, (lookup_filter_fst (λ c, c ∈ cols)),
    (lookup_filter_fst (λ c, c ∉ cols)).
  destruct (decide (c ∈ cols)).
  - destruct (new !! c); [done|]. by rewrite decide_False by tauto.
  - by rewrite decide_True.
Qed.

Lemma proj_proj cols r : proj cols (proj cols r) = proj cols r.
Proof. apply map_eq. intros c. rewrite !lookup_proj. by case_decide. Qed.

(** All transport columns set: the row is the staged one, as transported. *)
Lemma proj_set_cols cols r old : proj cols (set_cols cols r old) = proj cols r.
Proof. apply map_eq. intros c. rewrite !lookup_proj. case_decide; [|done].
  rewrite lookup_set_cols. by rewrite decide_True. Qed.

(** The two-step write of a cyclic table: the plain columns, then the rest. *)
Lemma proj_set_cols_fill cols nc r old :
  proj cols (set_cols nc r (set_cols (subtractCols cols nc) r old)) = proj cols r.
Proof.
  apply map_eq. intros c. rewrite !lookup_proj. case_decide; [|done].
  rewrite !lookup_set_cols. case_decide; [done|]. rewrite decide_True; [done|].
  by apply list_elem_of_filter.
Qed.

(** *** What each statement changes *)

(** The columns [StageUpsert] writes. *)
Definition upsert_cols (tx : pgApplyTx) (t : TableRef) (cols : list string) : list string :=
  if decide (cyclic_of tx t = []) then cols else subtractCols cols (cyclic_of tx t).

Lemma stageUpsert_visible dflt tgt t cols stg tx t' k :
  visible (stageUpsert dflt tgt t cols stg tx) tgt (t', k)
  = if decide (t' = t) then
      match stg !! k with
      | Some r => Some (set_cols (upsert_cols tx t cols) r
                          (default (dflt t) (visible tx tgt (t, k))))
      | None => visible tx tgt (t', k)
      end
    else visible tx tgt (t', k).
Proof.
  unfold stageUpsert. rewrite visible_union. case_decide as Ht; [|done].
  rewrite map_lookup_imap. by destruct (stg !! k).
Qed.

Lemma deleteAbsent_visible tgt t keys tx tx' stg t' k :
  deleteAbsent t keys tx = Some tx' → tx_staging tx !! t = Some stg →
  visible tx' tgt (t', k)
  = if decide (t' = t ∧ k ∈ keys ∧ stg !! k = None) then None else visible tx tgt (t', k).
Proof.
  unfold deleteAbsent. intros Hd Hs. rewrite Hs in Hd. simplify_eq/=.
  rewrite visible_union. case_decide as Ht; [subst|by rewrite decide_False by naive_solver].
  set (l := filter (λ k, stg !! k = None) keys).
  assert (∀ k, (list_to_map ((λ k, (k, @None Row)) <$> l) : gmap KeyValues (option Row)) !! k
    = if decide (k ∈ l) then Some None else None) as Hl.
  { clear. intros k. induction l as [|k' l IH]; [done|].
    rewrite fmap_cons, list_to_map_cons, lookup_insert, IH. destruct (decide (k' = k)) as [->|].
    - by rewrite decide_True by set_solver.
    - apply decide_ext. set_solver. }
  rewrite Hl. subst l.
  rewrite (decide_ext _ (t = t ∧ k ∈ keys ∧ stg !! k = None));
    [by case_decide|]. rewrite list_elem_of_filter. tauto.
Qed.

Lemma deleteAbsent_staged t keys tx :
  is_Some (tx_staging tx !! t) → is_Some (deleteAbsent t keys tx).
Proof. intros [stg Hs]. unfold deleteAbsent. rewrite Hs. by eexists. Qed.

(** With one staged table, [FillCyclic] is its UPDATE. *)
Lemma fillCyclic_visible tgt tx t stg t' k :
  tx_staging tx = {[t := stg]} → cyclic_of tx t ≠ [] →
  visible (fillCyclic tgt tx) tgt (t', k)
  = if decide (t' = t) then
      match stg !! k with
      | Some r => set_cols (cyclic_of tx t) r <$> visible tx tgt (t, k)
      | None => visible tx tgt (t', k)
      end
    else visible tx tgt (t', k).
Proof.
  intros Hs Hc. unfold fillCyclic. rewrite Hs, map_to_list_singleton. simpl.
  unfold fill_table. rewrite decide_False by done. rewrite visible_union.
  case_decide as Ht; [|done]. subst. rewrite map_lookup_imap.
  destruct (stg !! k); simpl; [|done]. by destruct (visible tx tgt (t, k)).
Qed.

(** *** One-table transactions, from [BEGIN] to [COMMIT] *)

Lemma visible_begin cc tgt tk : visible (begin_tx cc) tgt tk = tgt !! tk.
Proof. unfold visible. simpl. by rewrite lookup_empty. Qed.

Lemma upsert_cols_begin cc t cols :
  cc !! t = None → upsert_cols (begin_tx cc) t cols = cols.
Proof. intros Hc. unfold upsert_cols, cyclic_of. simpl. by rewrite Hc. Qed.

(** Stage and delete: every dirty key ends as staged, in the columns the upsert
    wrote; other tables are untouched. *)
Lemma stage_delete_commit dflt tgt t cols keys stg cc tx' t' k :
  deleteAbsent t keys (stageUpsert dflt tgt t cols stg (begin_tx cc)) = Some tx' →
  commit tx' tgt !! (t', k)
  = if decide (t' = t) then
      match stg !! k with
      | Some r => Some (set_cols (upsert_cols (begin_tx cc) t cols) r
                          (default (dflt t) (tgt !! (t, k))))
      | None => if decide (k ∈ keys) then None else tgt !! (t', k)
      end
    else tgt !! (t', k).
Proof.
  intros Hd. rewrite lookup_commit.
  rewrite (deleteAbsent_visible tgt _ _ _ _ stg _ _ Hd) by (simpl; by rewrite lookup_insert_eq).
  rewrite stageUpsert_visible, !visible_begin.
  destruct (decide (t' = t)) as [->|Ht].
  - destruct (stg !! k) eqn:E; [by rewrite decide_False by naive_solver|].
    apply decide_ext. tauto.
  - by rewrite decide_False by tauto.
Qed.

Lemma stage_commit dflt tgt t cols stg cc t' k :
  commit (stageUpsert dflt tgt t cols stg (begin_tx cc)) tgt !! (t', k)
  = if decide (t' = t) then
      match stg !! k with
      | Some r => Some (set_cols (upsert_cols (begin_tx cc) t cols) r
                          (default (dflt t) (tgt !! (t, k))))
      | None => tgt !! (t', k)
      end
    else tgt !! (t', k).
Proof. by rewrite lookup_commit, stageUpsert_visible, !visible_begin. Qed.

(** Stage and fill: every staged row ends whole, absent keys are left alone. *)
Lemma stage_fill_commit dflt tgt t cols stg cc nc t' k :
  cc !! t = Some nc → nc ≠ [] →
  proj cols <$> commit (fillCyclic tgt (stageUpsert dflt tgt t cols stg (begin_tx cc))) tgt !! (t', k)
  = if decide (t' = t) then
      match stg !! k with
      | Some r => Some (proj cols r)
      | None => proj cols <$> tgt !! (t', k)
      end
    else proj cols <$> tgt !! (t', k).
Proof.
  intros Hc Hnc. rewrite lookup_commit.
  assert (cyclic_of (stageUpsert dflt tgt t cols stg (begin_tx cc)) t = nc) as Hcy.
  { unfold cyclic_of. simpl. by rewrite Hc. }
  rewrite (fillCyclic_visible _ _ t stg); [|done|by rewrite Hcy].
  rewrite !stageUpsert_visible, !visible_begin, Hcy.
  destruct (decide (t' = t)) as [->|]; [|done]. rewrite decide_True by done.
  destruct (stg !! k); simpl; [|done]. f_equal.
  unfold upsert_cols, cyclic_of. simpl. rewrite Hc. simpl. rewrite decide_False by done.
  apply proj_set_cols_fill.
Qed.

Lemma lookup_upsert_rows dflt tgt t cols stg t' k :
  upsert_rows dflt tgt t cols stg !! (t', k) =
  if decide (t' = t) then
    match stg !! k with
    | Some r => Some (set_cols cols r (default (dflt t) (tgt !! (t, k))))
    | None => tgt !! (t', k)
    end
  else tgt !! (t', k).
Proof.
  unfold upsert_rows. rewrite lookup_apply_writes, lookup_on_table. case_decide; [|done]. subst.
  rewrite map_lookup_imap. by destruct (stg !! k).
Qed.

Lemma bulkLoad_Some dflt tgt t cols stg mode tgt' :
  bulkLoad dflt tgt t cols stg mode = Some tgt' → tgt' = upsert_rows dflt tgt t cols stg.
Proof. unfold bulkLoad. by repeat case_match; intros [= <-]. Qed.

(** *** The statements of the cyclic copy *)

Lemma upsert_tx_visible dflt tgt t cols stg tx t' k :
  visible (upsert_tx dflt tgt t cols stg tx) tgt (t', k)
  = if decide (t' = t) then
      match stg !! k with
      | Some r => Some (set_cols cols r (default (dflt t) (visible tx tgt (t, k))))
      | None => visible tx tgt (t', k)
      end
    else visible tx tgt (t', k).
Proof.
  unfold upsert_tx. rewrite visible_union. case_decide as Ht; [|done].
  rewrite map_lookup_imap. by destruct (stg !! k).
Qed.

Lemma mergeInsert_visible dflt tgt t cols (P : KeyValues → Prop) `{!∀ k, Decision (P k)} stg tx tx' t' k :
  tx_staging tx !! t = Some stg → mergeInsert dflt tgt t cols P tx = Some tx' →
  tx_staging tx' = tx_staging tx ∧
  visible tx' tgt (t', k)
  = if decide (t' = t ∧ P k) then
      match stg !! k with
      | Some r => Some (set_cols cols r (default (dflt t) (visible tx tgt (t, k))))
      | None => visible tx tgt (t', k)
      end
    else visible tx tgt (t', k).
Proof.
  unfold mergeInsert. intros -> [= <-]. split; [done|]. rewrite upsert_tx_visible.
  rewrite (lookup_filter_fst P). destruct (decide (t' = t)) as [->|Hne]; [|by rewrite decide_False by tauto].
  destruct (decide (P k)); [by rewrite decide_True by tauto|by rewrite decide_False by tauto].
Qed.

Lemma updateFrom_visible tgt t fkCols stg tx tx' t' k :
  tx_staging tx !! t = Some stg → updateFrom tgt t fkCols tx = Some tx' →
  visible tx' tgt (t', k)
  = if decide (t' = t) then
      match stg !! k with
      | Some r => set_cols fkCols r <$> visible tx tgt (t, k)
      | None => visible tx tgt (t', k)
      end
    else visible tx tgt (t', k).
Proof.
  unfold updateFrom. intros -> [= <-]. rewrite visible_union. case_decide as Ht; [|done]. subst t'.
  rewrite map_lookup_imap. destruct (stg !! k); simpl; [|done]. by destruct (visible tx tgt (t, k)).
Qed.

Lemma lookup_deleteRows (P : KeyValues → Prop) `{!∀ k, Decision (P k)} t tgt t' k :
  deleteRows P t tgt !! (t', k) = if decide (t' = t ∧ P k) then None else tgt !! (t', k).
Proof.
  unfold deleteRows. rewrite (lookup_filter_fst (λ tk : tkey, ¬ (tk.1 = t ∧ P tk.2))). simpl.
  destruct (decide (t' = t ∧ P k)); [by rewrite decide_False by tauto|by rewrite decide_True by tauto].
Qed.
End ApplyTx.
