(* ===== verification/Plan.v ===== *)
(** * Chunk planning ([internal/engine/postgres/chunk.go], [copy.go])

    Planning splits a table's key space into half-open ranges of about
    [targetRows] rows each; a chunk selects the rows of its range. The order of
    keys is the database's ([klt]), a parameter of the definitions. *)

From S2P Require Import Prelude Engine Calls ApplyTx.
Import ApplyTx.

Module Plan.

(** ** Planning ([buildKeysetRangesFrom], [buildCtidRanges], [planCtidChunks]) *)

Fixpoint buildKeysetRangesFrom (t : TableRef) (start : option KeyValues)
    (boundaries : list KeyValues) : list Chunk :=
  match boundaries with
  | [] => [mkChunk t ChunkKeyset start None]
  | b :: bs => mkChunk t ChunkKeyset start (Some b) :: buildKeysetRangesFrom t (Some b) bs
  end.

Fixpoint ctid_ranges_from (t : TableRef) (prev : option KeyValues) (boundaries : list Z) : list Chunk :=
  match boundaries with
  | [] => [mkChunk t ChunkCTID prev None]
  | b :: bs => mkChunk t ChunkCTID prev (Some [VInt b]) :: ctid_ranges_from t (Some [VInt b]) bs
  end.

Definition buildCtidRanges (t : TableRef) (boundaries : list Z) : list Chunk :=
  ctid_ranges_from t None boundaries.

(** [for b := step; b < relpages; b += step]; every step is at least one block,
    so [relpages] iterations are enough. *)
Fixpoint block_boundaries (fuel : nat) (b step relpages : Z) : list Z :=
  match fuel with
  | 0 => []
  | S fuel =>
      if decide (b < relpages)%Z then b :: block_boundaries fuel (b + step) step relpages else []
  end.

(** [blocks]: the float estimate of blocks per chunk, before it is clamped. *)
Definition planCtidChunks (t : TableRef) (relpages blocks : Z) : list Chunk :=
  if decide (relpages <= 0)%Z then [mkChunk t ChunkCTID None None]
  else
    let blocksPerChunk := if decide (blocks < 1)%Z then 1%Z else blocks in
    buildCtidRanges t (block_boundaries (Z.to_nat relpages) blocksPerChunk blocksPerChunk relpages).

Definition defaultChunkRows : Z := 100000.

(** The boundary query: of the rows at or above [lo] in key order, the keys of
    the rows number [n+1], [2n+1], ... *)
Fixpoint every_nth (n i : nat) (keys : list KeyValues) : list KeyValues :=
  match keys with
  | [] => []
  | k :: ks =>
      match i with
      | 0 => k :: every_nth n (n - 1) ks
      | S i => every_nth n i ks
      end
  end.

Definition keysetBoundaries (n : nat) (keys : list KeyValues) : list KeyValues :=
  match keys with [] => [] | _ :: ks => every_nth n (n - 1) ks end.

(** [PlanChunks]. [hasKey]: the table has a usable key; [keys]: its keys at or
    above the resume bound, in order; [relpages], [blocks]: block statistics. *)
Definition planChunks (hasKey : bool) (keys : list KeyValues) (relpages : Z) (blocks : Z → Z)
    (t : TableRef) (opts : ChunkOptions) : result (list Chunk) :=
  let method := default ChunkKeyset (opt_Method opts) in
  let targetRows := if decide (opt_TargetRows opts <= 0)%Z then defaultChunkRows else opt_TargetRows opts in
  match method with
  | ChunkKeyset =>
      if hasKey
      then inr (buildKeysetRangesFrom t (opt_Lo opts) (keysetBoundaries (Z.to_nat targetRows) keys))
      else inr (planCtidChunks t relpages (blocks targetRows))
  | ChunkCTID =>
      match opt_Lo opts with
      | Some _ => inl (Failure "postgres: ctid chunking does not support a resume lower bound")
      | None => inr (planCtidChunks t relpages (blocks targetRows))
      end
  end.

(** ** Selecting a chunk's rows ([keysetPredicate], [CopyChunk]) *)

Section order.
Context (klt : KeyValues → KeyValues → Prop) `{!RelDecision klt}.

(** [(cols) >= (lo) AND (cols) < (hi)], an absent bound being no condition *)
Definition in_range (lo hi : option KeyValues) (k : KeyValues) : Prop :=
  match lo with None => True | Some l => ¬ klt k l end ∧
  match hi with None => True | Some h => klt k h end.

#[global] Instance in_range_dec lo hi k : Decision (in_range lo hi k).
Proof. unfold in_range. destruct lo, hi; apply _. Defined.

(** COPY (SELECT cols FROM t WHERE predicate) TO STDOUT *)
Definition copyChunkRows (cols : list string) (src : rows) (ch : Chunk) : gmap KeyValues Row :=
  list_to_map (omap (λ '(tk, r),
    if decide (tk.1 = chunk_Table ch ∧ in_range (chunk_Lo ch) (chunk_Hi ch) tk.2)
    then Some (tk.2, proj cols r) else None) (map_to_list src)).

Definition kle (a b : KeyValues) : Prop := ¬ klt b a.

#[global] Instance kle_dec : RelDecision kle.
Proof. intros a b. unfold kle. apply _. Defined.

(** The keys of a table at or above [lo], in key order. *)
Definition keys_from (src : rows) (t : TableRef) (lo : option KeyValues) : list KeyValues :=
  merge_sort kle
    (filter (in_range lo None) (snd <$> filter (λ tk, tk.1 = t) (fst <$> map_to_list src))).

Lemma lookup_copyChunkRows cols src ch k :
  copyChunkRows cols src ch !! k =
  if decide (in_range (chunk_Lo ch) (chunk_Hi ch) k)
  then proj cols <$> src !! (chunk_Table ch, k) else None.
Proof.
  unfold copyChunkRows. set (f := λ '(tk, r), if decide _ then _ else _ : option (KeyValues * Row)).
  assert (∀ k r, (k, r) ∈ omap f (map_to_list src) ↔
    in_range (chunk_Lo ch) (chunk_Hi ch) k ∧ ∃ r0, src !! (chunk_Table ch, k) = Some r0 ∧ r = proj cols r0)
    as Hin.
  { intros k' r. rewrite list_elem_of_omap. split.
    - intros ([[t'' k''] r''] & Hin%elem_of_map_to_list & Hf). simpl in Hf.
      case_decide as Hd; [|done]. injection Hf as -> <-. destruct Hd as [-> Hd]. eauto.
    - intros (Hr & r0 & Hl & ->). exists ((chunk_Table ch, k'), r0).
      split; [by apply elem_of_map_to_list|]. simpl. by rewrite decide_True. }
  case_decide as Hd.
  - destruct (src !! (chunk_Table ch, k)) as [r0|] eqn:Hl; simpl.
    + apply elem_of_list_to_map_1'; [|apply Hin; eauto].
      intros r [_ (r1 & Hl1 & ->)]%Hin. congruence.
    + apply not_elem_of_list_to_map_1. intros ([k' r] & -> & [_ (r1 & ? & _)]%Hin)%list_elem_of_fmap.
      simpl in *. congruence.
  - apply not_elem_of_list_to_map_1. by intros ([k' r] & -> & [? _]%Hin)%list_elem_of_fmap.
Qed.

(** ** Contiguous chunks *)

(** [chain lo chs]: the chunks follow each other without a gap, from [lo] to the
    end of the key space. *)
Fixpoint chain (lo : option KeyValues) (chs : list Chunk) : Prop :=
  match chs with
  | [] => False
  | [ch] => chunk_Lo ch = lo ∧ chunk_Hi ch = None
  | ch :: chs => chunk_Lo ch = lo ∧ is_Some (chunk_Hi ch) ∧ chain (chunk_Hi ch) chs
  end.

Definition plan_ok (t : TableRef) (lo : option KeyValues) (chs : list Chunk) : Prop :=
  chain lo chs ∧ Forall (λ ch, chunk_Table ch = t ∧ chunk_Method ch = ChunkKeyset) chs.

Lemma buildKeysetRangesFrom_ok t start bs : plan_ok t start (buildKeysetRangesFrom t start bs).
Proof.
  revert start. induction bs as [|b bs IH]; intros start; simpl.
  - split; [done|]. by repeat constructor.
  - destruct (IH (Some b)) as [Hc Hf]. split; [|by constructor].
    destruct (buildKeysetRangesFrom t (Some b) bs) as [|ch chs] eqn:E; [by destruct bs|].
    simpl. split_and!; [done|by eexists|done].
Qed.

Lemma chain_length lo chs : chain lo chs → 0 < length chs.
Proof. destruct chs; simpl; [done|lia]. Qed.

(** A key is in one of the first [n] chunks, or at or above the end of the last
    of them. *)
Lemma chain_prefix lo chs n k :
  chain lo chs → in_range lo None k → n < length chs →
  (∃ i ch, i ≤ n ∧ chs !! i = Some ch ∧ in_range (chunk_Lo ch) (chunk_Hi ch) k) ∨
  ∃ ch h, chs !! n = Some ch ∧ chunk_Hi ch = Some h ∧ ¬ klt k h.
Proof.
  revert lo n. induction chs as [|ch chs IH]; intros lo n; [done|].
  intros Hc Hk Hn.
  assert (chunk_Lo ch = lo) as Hlo by (destruct chs; apply Hc).
  destruct (decide (in_range (chunk_Lo ch) (chunk_Hi ch) k)) as [Hin|Hout].
  { left. exists 0, ch. split_and!; [lia|done..]. }
  assert (∃ h, chunk_Hi ch = Some h ∧ ¬ klt k h) as (h & Hh & Hkh).
  { subst lo. destruct Hk as [Hk _]. destruct (chunk_Hi ch) as [h|] eqn:E.
    - exists h. split; [done|]. intros ?. by apply Hout.
    - destruct Hout. split; [|done]. by destruct (chunk_Lo ch). }
  destruct n as [|n]; [right; by exists ch, h|].
  destruct chs as [|ch' chs]; [simpl in Hn; lia|]. destruct Hc as (_ & _ & Hc). rewrite Hh in Hc.
  destruct (IH (Some h) n) as [(i & c' & Hi & Hl & Hr)|(c' & h' & Hl & Hr)].
  - done.
  - by split.
  - simpl in *. lia.
  - left. exists (S i), c'. split_and!; [lia|done..].
  - right. by exists c', h'.
Qed.

Lemma chain_last lo chs ch : chain lo chs → chs !! (length chs - 1) = Some ch → chunk_Hi ch = None.
Proof.
  revert lo. induction chs as [|c chs IH]; intros lo; [done|].
  destruct chs as [|c' chs]; [by intros [_ Hh] [= <-]|].
  intros (_ & _ & Hc). specialize (IH _ Hc). simpl in *. intros Hl. apply IH.
  by rewrite Nat.sub_0_r.
Qed.

Lemma chain_inner lo chs i ch :
  chain lo chs → chs !! i = Some ch → S i < length chs → is_Some (chunk_Hi ch).
Proof.
  revert lo i. induction chs as [|c chs IH]; intros lo i; [done|].
  destruct chs as [|c' chs]; [simpl; intros; lia|]. intros (_ & Hs & Hc) Hl Hi.
  destruct i as [|i]; [by injection Hl as <-|]. apply (IH _ i Hc Hl). simpl in *. lia.
Qed.

(** Every key from [lo] on is in some chunk. *)
Lemma chain_covers lo chs k :
  chain lo chs → in_range lo None k →
  ∃ i ch, chs !! i = Some ch ∧ in_range (chunk_Lo ch) (chunk_Hi ch) k.
Proof.
  intros Hc Hk. pose proof (chain_length _ _ Hc).
  destruct (chain_prefix lo chs (length chs - 1) k Hc Hk) as [(i & ch & _ & H1 & H2)|(ch & h & H1 & H2 & _)];
    [lia|by exists i, ch|].
  rewrite (chain_last _ _ _ Hc H1) in H2. done.
Qed.

(** ** Chunks partition the key space and are balanced

    Row-value comparison is a strict weak order; on the keys of one table it is
    total, since the key is unique. *)
Context (klt_asym : ∀ a b, klt a b → ¬ klt b a).
Context (klt_cotrans : ∀ a b c, klt a b → klt a c ∨ klt c b).

Lemma kle_trans a b c : kle a b → kle b c → kle a c.
Proof. intros H1 H2 H. destruct (klt_cotrans c a b H); [by apply H2|by apply H1]. Qed.

Lemma klt_kle_trans a b c : klt a b → kle b c → klt a c.
Proof. intros H1 H2. destruct (klt_cotrans a b c H1); [done|by destruct H2]. Qed.

#[global] Instance kle_transitive : Transitive kle.
Proof. intros a b c. apply kle_trans. Qed.
#[global] Instance kle_total : Total kle.
Proof. intros a b. destruct (decide (klt b a)); [right; by apply klt_asym|by left]. Qed.

Lemma elem_of_keys_from src t lo k :
  k ∈ keys_from src t lo ↔ in_range lo None k ∧ is_Some (src !! (t, k)).
Proof.
  unfold keys_from. rewrite merge_sort_Permutation, list_elem_of_filter, list_elem_of_fmap.
  apply and_iff_compat_l. split.
  - intros ([t' k'] & -> & [Ht Hin]%list_elem_of_filter).
    apply list_elem_of_fmap in Hin as ([tk r] & Htk & Hin%elem_of_map_to_list). simpl in *. subst.
    by exists r.
  - intros [r Hr]. exists (t, k). split; [done|]. apply list_elem_of_filter. split; [done|].
    apply list_elem_of_fmap. exists ((t, k), r). split; [done|]. by apply elem_of_map_to_list.
Qed.

Lemma NoDup_keys_from src t lo : NoDup (keys_from src t lo).
Proof.
  unfold keys_from. rewrite merge_sort_Permutation. apply NoDup_filter.
  assert (NoDup (filter (λ tk : tkey, tk.1 = t) (map_to_list src).*1)) as Hnd
    by apply NoDup_filter, NoDup_fst_map_to_list.
  assert (∀ x, x ∈ filter (λ tk : tkey, tk.1 = t) (map_to_list src).*1 → x.1 = t) as Ht
    by by intros x [? _]%list_elem_of_filter.
  apply NoDup_fmap_2_strong; [|done]. intros [t1 k1] [t2 k2] H1%Ht H2%Ht. simpl in *. congruence.
Qed.

Lemma keys_from_sorted src t lo : StronglySorted kle (keys_from src t lo).
Proof. unfold keys_from. apply (StronglySorted_merge_sort kle). Qed.

Lemma elem_of_every_nth n i ks k : k ∈ every_nth n i ks → k ∈ ks.
Proof.
  revert i. induction ks as [|x ks IH]; intros i; simpl; [done|].
  destruct i; [rewrite !elem_of_cons; intros [->|?]; [by left|right; by eapply IH]|].
  intros ?. right. by eapply IH.
Qed.

Lemma every_nth_sorted n i ks : StronglySorted kle ks → StronglySorted kle (every_nth n i ks).
Proof.
  intros Hs. revert i. induction Hs as [|x ks Hs IH Hx]; intros i; simpl; [constructor|].
  destruct i; [|done]. constructor; [done|]. apply Forall_forall. intros y Hy%elem_of_every_nth.
  by eapply Forall_forall in Hy.
Qed.

(** Sorted boundaries at or above the start make the chunks disjoint. *)
Lemma build_lo t start bs j ch :
  buildKeysetRangesFrom t start bs !! j = Some ch →
  (j = 0 ∧ chunk_Lo ch = start) ∨ (∃ b, 0 < j ∧ b ∈ bs ∧ chunk_Lo ch = Some b).
Proof.
  revert start j. induction bs as [|b bs IH]; intros start [|j]; simpl; intros Hj;
    try (injection Hj as <-; by left); [done|].
  right. destruct (IH _ _ Hj) as [[-> ->]|(b' & ? & ? & ->)].
  - exists b. split_and!; [lia|set_solver|done].
  - exists b'. split_and!; [lia|set_solver|done].
Qed.

Lemma build_disjoint t start bs i j ci cj k :
  StronglySorted kle bs →
  buildKeysetRangesFrom t start bs !! i = Some ci → buildKeysetRangesFrom t start bs !! j = Some cj →
  in_range (chunk_Lo ci) (chunk_Hi ci) k → in_range (chunk_Lo cj) (chunk_Hi cj) k → i < j → False.
Proof.
  intros Hs. revert start i j. induction Hs as [|b bs Hs IH Hb]; intros start i j; simpl.
  { destruct i, j; simpl; try lia; done. }
  destruct i as [|i], j as [|j]; simpl; try lia; intros Hi Hj Hki Hkj Hlt.
  - injection Hi as <-. simpl in Hki. destruct Hki as [_ Hki].
    destruct Hkj as [Hkj _]. destruct (build_lo _ _ _ _ _ Hj) as [[-> Hlo]|(b' & _ & Hb' & Hlo)];
      rewrite Hlo in Hkj; [done|].
    eapply Forall_forall in Hb; [|done]. apply Hkj. by eapply klt_kle_trans.
  - apply (IH (Some b) i j); done || lia.
Qed.

Lemma build_start t start bs k :
  in_range start None k → ∃ i ch, buildKeysetRangesFrom t start bs !! i = Some ch ∧
    in_range (chunk_Lo ch) (chunk_Hi ch) k.
Proof. intros Hk. eapply chain_covers; [apply buildKeysetRangesFrom_ok|done]. Qed.

Definition count (ch : Chunk) (ks : list KeyValues) : nat :=
  length (filter (in_range (chunk_Lo ch) (chunk_Hi ch)) ks).

(** At most [i] of the keys are in the first chunk, at most [n] in the others. *)
Lemma build_balanced t start n i ks j ch :
  0 < n → StronglySorted klt ks →
  buildKeysetRangesFrom t start (every_nth n i ks) !! j = Some ch →
  count ch ks ≤ if decide (j = 0) then i else n.
Proof.
  intros Hn Hs. revert start i j. induction Hs as [|k ks Hs IH Hk]; intros start i j Hj; simpl.
  { unfold count. simpl. case_decide; lia. }
  assert (∀ b, b ∈ ks → klt k b) as Hlt by (intros b Hb; by eapply Forall_forall in Hb).
  assert (∀ start' i' j' c', 0 < j' →
    buildKeysetRangesFrom t start' (every_nth n i' ks) !! j' = Some c' →
    count c' (k :: ks) = count c' ks) as Hskip.
  { intros start' i' j' c' Hj' Hc'. unfold count. rewrite filter_cons_False; [done|].
    destruct (build_lo _ _ _ _ _ Hc') as [[-> _]|(b & _ & Hb & ->)]; [lia|].
    intros [Hkb _]. apply Hkb, Hlt. by eapply elem_of_every_nth. }
  destruct i as [|i]; simpl in Hj.
  - destruct j as [|j]; simpl in Hj.
    + injection Hj as <-. unfold count. simpl. rewrite filter_cons_False.
      2: { intros [_ H]. simpl in H. by apply (klt_asym k k). }
      destruct (filter _ ks) as [|b bs] eqn:E; [simpl; lia|].
      assert (b ∈ filter (in_range start (Some k)) ks) as [[_ Hb] Hin]%list_elem_of_filter
        by (rewrite E; by left).
      by destruct (klt_asym k b (Hlt b Hin)).
    + specialize (IH _ _ _ Hj). rewrite decide_False by lia. destruct j as [|j].
      * rewrite decide_True in IH by done. unfold count in *. rewrite filter_cons.
        case_decide; simpl; lia.
      * rewrite (Hskip _ _ (S j) _ ltac:(lia) Hj). rewrite decide_False in IH by lia. done.
  - specialize (IH _ _ _ Hj). destruct j as [|j].
    + rewrite decide_True in * by done. unfold count in *. rewrite filter_cons.
      case_decide; simpl; lia.
    + rewrite (Hskip _ _ (S j) _ ltac:(lia) Hj). by rewrite decide_False in * by lia.
Qed.

(** A size bound through an injection into a list. *)
Lemma size_le_length (m : gmap KeyValues Row) (l : list KeyValues) :
  (∀ k, is_Some (m !! k) → k ∈ l) → size m ≤ length l.
Proof.
  intros H. rewrite <-length_map_to_list, <-(length_fmap fst).
  apply submseteq_length, NoDup_submseteq; [apply NoDup_fst_map_to_list|].
  intros k ([k' r] & -> & Hin%elem_of_map_to_list)%list_elem_of_fmap. apply H. by eexists.
Qed.

Lemma keys_from_strict src t lo :
  (∀ k1 k2, is_Some (src !! (t, k1)) → is_Some (src !! (t, k2)) → k1 ≠ k2 → klt k1 k2 ∨ klt k2 k1) →
  StronglySorted klt (keys_from src t lo).
Proof.
  intros Huniq. pose proof (keys_from_sorted src t lo) as Hs. pose proof (NoDup_keys_from src t lo) as Hnd.
  assert (∀ k, k ∈ keys_from src t lo → is_Some (src !! (t, k))) as Hin
    by by intros k [_ ?]%elem_of_keys_from.
  induction Hs as [|k ks Hs IH Hk]; [constructor|]. apply NoDup_cons in Hnd as [Hn Hnd].
  constructor; [apply IH; [done|]; intros; apply Hin; by right|].
  apply Forall_forall. intros k' Hk'. eapply Forall_forall in Hk; [|done].
  destruct (Huniq k k') as [?|?]; [apply Hin; by left|apply Hin; by right|by intros ->|done|].
  by destruct Hk.
Qed.

Definition rows_per_chunk (opts : ChunkOptions) : nat :=
  Z.to_nat (if decide (opt_TargetRows opts <= 0)%Z then defaultChunkRows else opt_TargetRows opts).

Lemma rows_per_chunk_pos opts : 0 < rows_per_chunk opts.
Proof. unfold rows_per_chunk, defaultChunkRows. case_decide; lia. Qed.

Lemma planChunks_keyset hasKey keys relpages blocks t opts :
  opt_Method opts ≠ Some ChunkCTID → hasKey = true →
  planChunks hasKey keys relpages blocks t opts
  = inr (buildKeysetRangesFrom t (opt_Lo opts) (keysetBoundaries (rows_per_chunk opts) keys)).
Proof.
  intros Hm ->. unfold planChunks, rows_per_chunk. by destruct (opt_Method opts) as [[]|].
Qed.

Lemma keysetBoundaries_elem n keys b : b ∈ keysetBoundaries n keys → b ∈ keys.
Proof. destruct keys; simpl; [done|]. intros ?%elem_of_every_nth. by right. Qed.

(** No chunk reaches below the start. *)
Lemma build_above t start bs j ch k :
  (∀ b, b ∈ bs → in_range start None b) →
  buildKeysetRangesFrom t start bs !! j = Some ch → in_range (chunk_Lo ch) (chunk_Hi ch) k →
  in_range start None k.
Proof.
  intros Hbs Hj [Hk _]. split; [|done].
  destruct (build_lo _ _ _ _ _ Hj) as [[_ Hlo]|(b & _ & Hb & Hlo)]; rewrite Hlo in Hk; [done|].
  destruct start as [s|]; [|done]. destruct (Hbs b Hb) as [Hsb _]. by apply (kle_trans s b k).
Qed.

Lemma build_count t lo n keys j ch :
  0 < n → StronglySorted klt keys →
  buildKeysetRangesFrom t lo (keysetBoundaries n keys) !! j = Some ch → count ch keys ≤ n.
Proof.
  intros Hn Hs Hj. destruct Hs as [|k ks Hs Hk]; [unfold count; simpl; lia|]. simpl in Hj.
  destruct n as [|n]; [lia|]. rewrite Nat.sub_succ, Nat.sub_0_r in Hj.
  assert (count ch (k :: ks) ≤ if decide (j = 0) then S n else S n) as Hc; [|case_decide; lia].
  apply (build_balanced t lo (S n) (S n) (k :: ks) j ch Hn); [by constructor|done].
Qed.

(** C27: a keyset plan is a partition: every key from the resume bound on (from the
    start of the key space without one) falls in exactly one chunk, also a key
    inserted after the plan was made, no chunk reaches below the bound, and no
    chunk holds more than the target number of the rows present. *)
Theorem planChunks_partition (src : rows) (t : TableRef) (opts : ChunkOptions)
    (cols : list string) (relpages : Z) (blocks : Z → Z) :
  opt_Method opts ≠ Some ChunkCTID →
  (∀ k1 k2, is_Some (src !! (t, k1)) → is_Some (src !! (t, k2)) → k1 ≠ k2 → klt k1 k2 ∨ klt k2 k1) →
  ∃ chs, planChunks true (keys_from src t (opt_Lo opts)) relpages blocks t opts = inr chs ∧
    (∀ k, in_range (opt_Lo opts) None k →
       ∃ i ch, chs !! i = Some ch ∧ in_range (chunk_Lo ch) (chunk_Hi ch) k ∧
         ∀ j ch', chs !! j = Some ch' → in_range (chunk_Lo ch') (chunk_Hi ch') k → j = i) ∧
    (∀ ch k, ch ∈ chs → in_range (chunk_Lo ch) (chunk_Hi ch) k → in_range (opt_Lo opts) None k) ∧
    (∀ ch, ch ∈ chs → size (copyChunkRows cols src ch) ≤ rows_per_chunk opts).
Proof.
  intros Hm Huniq. rewrite planChunks_keyset by done. set (n := rows_per_chunk opts).
  set (keys := keys_from src t (opt_Lo opts)).
  eexists. split; [done|].
  pose proof (keys_from_sorted src t (opt_Lo opts)) as Hsort.
  assert (StronglySorted kle (keysetBoundaries n keys)) as Hbs.
  { unfold keysetBoundaries. fold keys in Hsort. destruct Hsort; [constructor|].
    by apply every_nth_sorted. }
  assert (∀ j ch k, buildKeysetRangesFrom t (opt_Lo opts) (keysetBoundaries n keys) !! j = Some ch →
    in_range (chunk_Lo ch) (chunk_Hi ch) k → in_range (opt_Lo opts) None k) as Habove.
  { intros j ch k. apply build_above.
    intros b Hb%keysetBoundaries_elem. by apply elem_of_keys_from in Hb as []. }
  split_and!.
  - intros k Hk. destruct (build_start t (opt_Lo opts) (keysetBoundaries n keys) k Hk)
      as (i & ch & Hi & Hr). exists i, ch. split_and!; [done..|]. intros j ch' Hj Hr'.
    destruct (Nat.lt_trichotomy i j) as [H|[H|H]]; [exfalso|done|exfalso].
    + by apply (build_disjoint t (opt_Lo opts) _ i j ch ch' k Hbs).
    + by apply (build_disjoint t (opt_Lo opts) _ j i ch' ch k Hbs).
  - intros ch k [j Hj]%list_elem_of_lookup. by apply (Habove j).
  - intros ch [j Hj]%list_elem_of_lookup. transitivity (count ch keys).
    + apply size_le_length. intros k. rewrite lookup_copyChunkRows. case_decide as Hr; [|by intros []].
      destruct (buildKeysetRangesFrom_ok t (opt_Lo opts) (keysetBoundaries n keys)) as [_ Hf].
      eapply Forall_lookup_1 in Hf as [Ht _]; [|done]. rewrite Ht, fmap_is_Some. intros Hs.
      apply list_elem_of_filter. split; [done|]. apply elem_of_keys_from. split; [by apply (Habove j ch)|done].
    + eapply build_count; [apply rows_per_chunk_pos|by apply keys_from_strict|done].
Qed.
End order.

(** ** Block ranges *)

Lemma block_boundaries_spec fuel b step relpages x :
  (1 <= step)%Z → x ∈ block_boundaries fuel b step relpages → (b <= x < relpages)%Z.
Proof.
  intros Hstep. revert b. induction fuel as [|fuel IH]; intros b; simpl; [by intros ?%elem_of_nil|].
  case_decide; [|by intros ?%elem_of_nil].
  intros [->|Hx]%elem_of_cons; [lia|]. apply IH in Hx. lia.
Qed.

(** The fuel of the block loop is enough: more of it gives the same boundaries. *)
Lemma block_boundaries_fuel fuel fuel' b step relpages :
  (1 <= step)%Z → (relpages - b <= Z.of_nat fuel)%Z → fuel ≤ fuel' →
  block_boundaries fuel' b step relpages = block_boundaries fuel b step relpages.
Proof.
  intros Hstep. revert fuel' b. induction fuel as [|fuel IH]; intros fuel' b Hf Hle.
  - destruct fuel'; simpl; [done|]. rewrite decide_False by lia. done.
  - destruct fuel' as [|fuel']; [lia|]. simpl. case_decide; [|done]. f_equal. apply IH; lia.
Qed.

Definition ctid_chunk_has (ch : Chunk) (b : Z) : Prop :=
  match chunk_Lo ch with Some [VInt l] => (l <= b)%Z | None => True | _ => False end ∧
  match chunk_Hi ch with Some [VInt h] => (b < h)%Z | None => True | _ => False end.

Lemma ctid_ranges_lo t x bs q j ch :
  (∀ y, y ∈ bs → (x <= y)%Z) → (x <= q)%Z → ctid_ranges_from t (Some [VInt q]) bs !! j = Some ch →
  ∃ l, chunk_Lo ch = Some [VInt l] ∧ (x <= l)%Z.
Proof.
  revert q j. induction bs as [|y bs IH]; intros q j Hx Hq Hj; destruct j as [|j]; simpl in Hj.
  - injection Hj as <-. by exists q.
  - done.
  - injection Hj as <-. by exists q.
  - apply (IH y j); [intros z Hz; apply Hx; by right|apply Hx; by left|done].
Qed.

Lemma ctid_ranges_partition t prev bs b :
  (∀ x, x ∈ bs → (prev <= x)%Z) → StronglySorted Z.lt bs → (prev <= b)%Z →
  ∀ p, (p = Some [VInt prev] ∨ p = None) →
  ∃ i ch, ctid_ranges_from t p bs !! i = Some ch ∧ ctid_chunk_has ch b ∧
    ∀ j ch', ctid_ranges_from t p bs !! j = Some ch' → ctid_chunk_has ch' b → j = i.
Proof.
  revert prev. induction bs as [|x bs IH]; intros prev Hp Hs Hb p Hpp; simpl.
  { eexists 0, _. split_and!; [done|split; simpl; [by destruct Hpp as [-> | ->]|done]|].
    by intros [|j]. }
  apply StronglySorted_inv in Hs as [Hs Hx]. rewrite Forall_forall in Hx.
  destruct (decide (b < x)%Z) as [Hlt|Hge].
  - eexists 0, _. split_and!; [done|split; simpl; [by destruct Hpp as [-> | ->]|done]|].
    intros [|j] ch' Hj [Hlo _]; [done|]. exfalso. simpl in Hj.
    assert (∃ l, chunk_Lo ch' = Some [VInt l] ∧ (x <= l)%Z) as (l & Hl & Hxl).
    { apply (ctid_ranges_lo t x bs x j); [|lia|done]. intros y Hy. by apply Z.lt_le_incl, Hx. }
    rewrite Hl in Hlo. lia.
  - destruct (IH x) with (p := Some [VInt x]) as (i & ch & Hi & Hc & Hu);
      [intros y Hy; apply Z.lt_le_incl; by apply Hx|done|lia|by left|].
    exists (S i), ch. split_and!; [done..|]. intros [|j] ch' Hj Hc'.
    + injection Hj as <-. destruct Hc' as [_ Hh]. simpl in Hh. lia.
    + f_equal. by apply (Hu j ch').
Qed.

Lemma block_boundaries_sorted fuel b step relpages :
  (1 <= step)%Z → StronglySorted Z.lt (block_boundaries fuel b step relpages).
Proof.
  intros Hstep. revert b. induction fuel as [|fuel IH]; intros b; simpl; [constructor|].
  case_decide; [|constructor]. constructor; [done|]. apply Forall_forall.
  intros x Hx%block_boundaries_spec; lia.
Qed.

(** Whatever the table statistics are, the block ranges of a ctid plan put
    every block of the table, also one added later, in exactly one chunk. *)
Theorem planCtidChunks_partition (t : TableRef) (relpages blocks b : Z) :
  (0 <= b)%Z →
  ∃ i ch, planCtidChunks t relpages blocks !! i = Some ch ∧ ctid_chunk_has ch b ∧
    ∀ j ch', planCtidChunks t relpages blocks !! j = Some ch' → ctid_chunk_has ch' b → j = i.
Proof.
  intros Hb. unfold planCtidChunks. case_decide.
  { eexists 0, _. split_and!; [done..|]. by intros [|j]. }
  set (step := if decide (blocks < 1)%Z then 1%Z else blocks).
  assert (1 <= step)%Z by (unfold step; case_decide; lia).
  apply (ctid_ranges_partition t 0); [|by apply block_boundaries_sorted|done|by right].
  intros x Hx%block_boundaries_spec; lia.
Qed.

(** ** Witnesses: single-column text keys under the C collation *)

Definition key_text (k : KeyValues) : string :=
  match k with VText s :: _ => s | _ => EmptyString end.
Definition text_lt (a b : KeyValues) : Prop := str_lt (key_text a) (key_text b).

#[global] Instance text_lt_dec : RelDecision text_lt.
Proof. intros a b. unfold text_lt. apply _. Defined.

Lemma text_lt_asym a b : text_lt a b → ¬ text_lt b a.
Proof. unfold text_lt. rewrite str_lt_le_ne, str_not_lt. tauto. Qed.

Lemma text_lt_cotrans a b c : text_lt a b → text_lt a c ∨ text_lt c b.
Proof.
  unfold text_lt. intros Hab. destruct (decide (str_lt (key_text a) (key_text c))) as [|Hn]; [by left|].
  right. apply str_not_lt in Hn. apply str_lt_le_ne in Hab as [Hle Hne].
  apply str_lt_le_ne. split; [by transitivity (key_text a)|].
  intros Heq. rewrite Heq in Hn. apply Hne. by apply (anti_symm str_le).
Qed.

Definition sample_users : TableRef := mkRef "public" "users".
Definition sample_src : rows :=
  list_to_map ((λ s, ((sample_users, [VText s]), {[ "id" := s ]})) <$> ["a"; "b"; "c"; "d"; "e"]).

Example sample_plan :
  planChunks true (keys_from text_lt sample_src sample_users None) 0 id sample_users
    (mkChunkOptions None 2 None)
  = inr [mkChunk sample_users ChunkKeyset None (Some [VText "c"]);
         mkChunk sample_users ChunkKeyset (Some [VText "c"]) (Some [VText "e"]);
         mkChunk sample_users ChunkKeyset (Some [VText "e"]) None].
Proof. vm_compute. reflexivity. Qed.

Lemma sample_keys_total k1 k2 :
  is_Some (sample_src !! (sample_users, k1)) → is_Some (sample_src !! (sample_users, k2)) → k1 ≠ k2 →
  text_lt k1 k2 ∨ text_lt k2 k1.
Proof.
  assert (∀ k, is_Some (sample_src !! (sample_users, k)) → ∃ s, k = [VText s]) as Hk.
  { intros k [r Hr]. apply elem_of_list_to_map_2, list_elem_of_fmap in Hr as (s & [= -> _] & _).
    by exists s. }
  intros [s1 ->]%Hk [s2 ->]%Hk Hne. unfold text_lt. simpl.
  destruct (total str_le s1 s2); [left|right]; apply str_lt_le_ne; split; congruence || done.
Qed.

Lemma planChunks_partition_witness :
  ∃ chs, planChunks true (keys_from text_lt sample_src sample_users (Some [VText "b"])) 0 id
      sample_users (mkChunkOptions None 2 (Some [VText "b"])) = inr chs ∧
    (∀ k, in_range text_lt (Some [VText "b"]) None k →
       ∃ i ch, chs !! i = Some ch ∧ in_range text_lt (chunk_Lo ch) (chunk_Hi ch) k ∧
         ∀ j ch', chs !! j = Some ch' → in_range text_lt (chunk_Lo ch') (chunk_Hi ch') k → j = i) ∧
    (∀ ch k, ch ∈ chs → in_range text_lt (chunk_Lo ch) (chunk_Hi ch) k →
       in_range text_lt (Some [VText "b"]) None k) ∧
    (∀ ch, ch ∈ chs → size (copyChunkRows text_lt ["id"] sample_src ch) ≤
       rows_per_chunk (mkChunkOptions None 2 (Some [VText "b"]))).
Proof.
  apply (planChunks_partition text_lt text_lt_asym text_lt_cotrans sample_src sample_users
    (mkChunkOptions None 2 (Some [VText "b"])) ["id"] 0 id).
  - done.
  - apply sample_keys_total.
Defined.

Lemma planCtidChunks_partition_witness :
  ∃ i ch, planCtidChunks sample_users 10 3 !! i = Some ch ∧ ctid_chunk_has ch 12 ∧
    ∀ j ch', planCtidChunks sample_users 10 3 !! j = Some ch' → ctid_chunk_has ch' 12 → j = i.
Proof. apply (planCtidChunks_partition sample_users 10 3 12). lia. Defined.
End Plan.
