(* ===== verification/Contract.v ===== *)
(** * The engine contract

    What the doc comments of [engine.Source], [engine.Sink] and [engine.ApplyTx]
    promise to the engine-neutral pipeline, as a step relation on an abstract
    state of one sync and one target. [Postgres.v] proves that the Postgres
    model keeps the contract; the theorems about the drain ([Apply.v]) and the
    copy use nothing else.

    Every call is allowed to fail, a COMMIT or an INSERT may be reported as
    failed although it took effect, and application transactions commit on
    the source between any two steps ([rely]). *)

From S2P Require Import Prelude Engine FkGraph PgPreflight Calls ApplyTx Plan.
Import FkGraph PgPreflight ApplyTx Plan.

Module Contract.

(** ** The static part: schema and identity of the sync *)

Class Schema := {
  (** transport columns of a table: source order, GENERATED excluded *)
  cols_of : TableRef → list string;
  (** nullable cyclic FK columns of a component, per table *)
  cyc_of : list TableRef → gmap TableRef (list string);
  (** column defaults of a target table *)
  dflt_of : TableRef → Row;
  (** the target this sync's sink writes to *)
  sync_target : TargetID;
  (** the number of key columns of a table *)
  key_arity : TableRef → nat;
  (** the tables of the source *)
  src_tables : list TableRef;
  (** the order of a table's keys *)
  key_lt : TableRef → KeyValues → KeyValues → Prop;
  key_lt_dec t :: RelDecision (key_lt t)
}.

(** The faithful text form of a key: one text value per key column, and no
    text contains the NUL character (Postgres rejects it). *)
Fixpoint nul_free (s : string) : bool :=
  match s with
  | EmptyString => true
  | String c s => negb (bool_decide (c = Ascii.zero)) && nul_free s
  end.

Definition text_ok (v : Value) : bool :=
  match v with VText s => nul_free s | _ => false end.

Definition key_ok `{Schema} (t : TableRef) (k : KeyValues) : Prop :=
  length k = key_arity t ∧ forallb text_ok k = true.

(** The columns [Introspect] leads [transportColumns] to. *)
Definition columns_of (t : Table) : list string :=
  col_Name <$> filter (λ c, col_Generated c = false) (tbl_Columns t).

(** What introspection finds: each table once, with its own foreign keys, and every table
    of the source that the selection names. *)
Record introspected `{Schema} (sel : Selection) (tabs : list Table) : Prop := {
  int_cols tbl : tbl ∈ tabs → columns_of tbl = cols_of (tbl_Ref tbl);
  int_tables t : t ∈ src_tables → ref_string t ∈ sel_Include sel → t ∈ tbl_Ref <$> tabs;
  int_nodup : NoDup (tbl_Ref <$> tabs);
  int_own : own_fks tabs
}.

(** ** Abstract state *)

Record astate := mkA {
  a_src : rows;                              (** committed source rows *)
  a_tgt : rows;                              (** committed target rows *)
  a_pend : gmap (TableRef * DeltaID) KeyValues;  (** delta MINUS track, for [sync_target] *)
  a_seen : TableRef → DeltaID → Prop;        (** ids that can no longer appear *)
  a_tx : gmap nat pgApplyTx                  (** open apply transaction per connection *)
}.

Definition set_tgt (v : astate) (x : rows) : astate :=
  mkA (a_src v) x (a_pend v) (a_seen v) (a_tx v).
Definition set_pend (v : astate) (x : gmap (TableRef * DeltaID) KeyValues) : astate :=
  mkA (a_src v) (a_tgt v) x (a_seen v) (a_tx v).
Definition set_tx (v : astate) (x : gmap nat pgApplyTx) : astate :=
  mkA (a_src v) (a_tgt v) (a_pend v) (a_seen v) x.

(** Consumption by delta id. *)
Definition consume (t : TableRef) (ids : list DeltaID) (p : gmap (TableRef * DeltaID) KeyValues)
    : gmap (TableRef * DeltaID) KeyValues :=
  filter (λ '(ti, _), ¬ (ti.1 = t ∧ ti.2 ∈ ids)) p.

(** ** Interference: application transactions committing on the source

    The target is only written by the sync. A source row changes together with
    a new delta for its key, whose id has not been seen before; the deltas
    that are already visible stay as they are. *)
Record rely `{Schema} (v v' : astate) : Prop := {
  rely_tgt : a_tgt v' = a_tgt v;
  rely_tx : a_tx v' = a_tx v;
  rely_seen t i : a_seen v t i → a_seen v' t i;
  rely_pend t i : a_seen v t i → a_pend v' !! (t, i) = a_pend v !! (t, i);
  rely_new t i k : a_pend v' !! (t, i) = Some k → a_seen v' t i ∧ key_ok t k;
  rely_src t k : a_src v' !! (t, k) = a_src v !! (t, k) ∨
    ∃ i, (¬ a_seen v t i) ∧ a_pend v' !! (t, i) = Some k
}.

(** ** Effects *)

Section effect.
Context `{Sch : Schema}.

(** A statement on the open transaction of connection [c]. *)
Definition tx_effect (c : nat) (f : pgApplyTx → option pgApplyTx) (v v' : astate)
    (r : result unit) : Prop :=
  ∃ tx tx', a_tx v !! c = Some tx ∧ f tx = Some tx' ∧ r = inr tt ∧
    v' = set_tx v (<[c := tx']> (a_tx v)).

(** The statements of the cyclic copy. [COPY] into a table is part of the open transaction,
    or on its own when none is open. *)
Definition stmt_effect (c : nat) (q : stmt) (v : astate) : result (stmt_resp q) → astate → Prop :=
  match q return result (stmt_resp q) → astate → Prop with
  | SCopyTo t cols lo hi => λ r v', v' = v ∧
      r = inr (copyChunkRows (key_lt t) cols (a_src v) (mkChunk t ChunkKeyset lo hi))
  | STableMeta t => λ r v', v' = v ∧ ∃ tbl, r = inr tbl ∧ tbl_Ref tbl = t ∧
      length (captureColsFor tbl) = key_arity t
  | SExistsRow t => λ r v', v' = v ∧ r = inr (bool_decide (0 < countRows t (a_tgt v))%Z)
  | SBegin => λ r v', r = inr tt ∧
      v' = set_tx v (<[c := mkTx ∅ ∅ (default ∅ (tx_writes <$> a_tx v !! c))]> (a_tx v))
  | SSetDeferred => λ _ v', v' = v
  | SCreateStaging t => λ r v', tx_effect c (createStaging t) v v' r
  | SCopyStaging t _ rd => λ r v', ∃ stg, rd = inr stg ∧ tx_effect c (copyStaging t stg) v v' r
  | SCopyTable t cols rd => λ _ v', ∃ stg, rd = inr stg ∧
      match a_tx v !! c with
      | Some tx => ∃ tx', copyInto dflt_of (a_tgt v) t cols stg tx = Some tx' ∧
          v' = set_tx v (<[c := tx']> (a_tx v))
      | None => ∃ tgt', bulkLoad dflt_of (a_tgt v) t cols stg LoadDirect = Some tgt' ∧ v' = set_tgt v tgt'
      end
  | SMergeInsert t cols lo hi => λ r v',
      tx_effect c (mergeInsert dflt_of (a_tgt v) t cols (in_range (key_lt t) lo hi)) v v' r
  | SUpdateFrom t fkCols => λ r v', tx_effect c (updateFrom (a_tgt v) t fkCols) v v' r
  end.

(** What a call can do when it does not simply fail; [inl] results in here are
    the failures reported after the effect. Nothing is promised here about
    purging and the state store, which are not part of the engine's row
    interface ([requires]). *)
Definition effect (c : nat) (o : call) (v : astate) : result (resp o) → astate → Prop :=
  match o return result (resp o) → astate → Prop with
  | ReadDirtyKeys t target _ => λ r v', v' = v ∧ ∃ ds, r = inr ds ∧
      (target = sync_target → ∀ d, d ∈ ds → a_pend v !! (t, dk_DeltaID d) = Some (dk_Key d))
  | Introspect sel => λ r v', v' = v ∧ ∃ tabs, r = inr tabs ∧ introspected sel tabs
  | RereadCurrent t keys => λ r v', v' = v ∧ r = inr (reread (cols_of t) (a_src v) t keys)
  | ConfirmConsumed t target ids => λ _ v',
      v' = if decide (target = sync_target) then set_pend v (consume t ids (a_pend v)) else v
  | ApplyPass t cols keys rd => λ _ v', ∃ stg tgt', rd = inr stg ∧
      applyPass dflt_of (a_tgt v) t cols keys stg = Some tgt' ∧ v' = set_tgt v tgt'
  | CyclicCols tables => λ r v', v' = v ∧ r = inr (cyc_of tables)
  | BeginApply cyclic tables => λ r v', r = inr tt ∧
      v' = set_tx v (<[c := mkTx (if cyclic then cyc_of tables else ∅) ∅
                              (default ∅ (tx_writes <$> a_tx v !! c))]> (a_tx v))
  | StageUpsert t cols rd => λ r v', ∃ stg, rd = inr stg ∧
      tx_effect c (λ tx, Some (stageUpsert dflt_of (a_tgt v) t cols stg tx)) v v' r
  | DeleteAbsent t keys => λ r v', tx_effect c (deleteAbsent t keys) v v' r
  | FillCyclic => λ r v', tx_effect c (λ tx, Some (fillCyclic (a_tgt v) tx)) v v' r
  | Commit => λ r v',
      (∃ tx, a_tx v !! c = Some tx ∧
         v' = set_tx (set_tgt v (commit tx (a_tgt v))) (delete c (a_tx v))) ∨
      ((∃ e, r = inl e) ∧ v' = set_tx v (delete c (a_tx v)))
  | Rollback => λ _ v', v' = set_tx v (delete c (a_tx v))
  | PlanChunks t opts => λ r v', v' = v ∧ ∃ chs, r = inr chs ∧ plan_ok t (opt_Lo opts) chs
  | CopyChunk ch => λ r v', v' = v ∧
      r = inr (copyChunkRows (key_lt (chunk_Table ch)) (cols_of (chunk_Table ch)) (a_src v) ch)
  | BulkLoad t cols rd mode => λ _ v', ∃ stg tgt', rd = inr stg ∧
      bulkLoad dflt_of (a_tgt v) t cols stg mode = Some tgt' ∧ v' = set_tgt v tgt'
  | DeleteRange t lo hi => λ _ v',
      v' = set_tgt v (deleteRows (in_range (key_lt t) lo hi) t (a_tgt v))
  | CountRows t => λ r v', v' = v ∧ r = inr (countRows t (a_tgt v))
  | SrcHealthCheck | SrcReconnect | SinkHealthCheck => λ _ v', v' = v
  | SinkReconnect => λ _ v', v' = set_tx v (delete c (a_tx v))
  | CtxErr | After _ => λ r v', v' = v
  | Exec q => stmt_effect c q v
  | _ => λ _ _, True
  end.

(** What the pipeline owes the engine: a confirmation names deltas of this sync's
    target that have been read, chunks are key ranges of a keyed table, and only
    the calls below are made. *)
Definition requires (c : nat) (o : call) (v : astate) : Prop :=
  match o with
  | ConfirmConsumed t target ids => target = sync_target ∧ ∀ i, i ∈ ids → a_seen v t i
  | ReadDirtyKeys _ _ _ | Introspect _ | RereadCurrent _ _ | ApplyPass _ _ _ _ | CyclicCols _
  | BeginApply _ _ | StageUpsert _ _ _ | DeleteAbsent _ _ | FillCyclic | Commit | Rollback
  | CtxErr | After _ => True
  | PlanChunks t opts => opt_Method opts ≠ Some ChunkCTID ∧ 0 < key_arity t
  | CopyChunk ch => chunk_Method ch = ChunkKeyset
  | BulkLoad _ _ _ _ | DeleteRange _ _ _ | CountRows _ | SrcHealthCheck | SrcReconnect
  | SinkHealthCheck | SinkReconnect | Exec _ => True
  | _ => False
  end.

(** A failed call leaves the state alone; [ROLLBACK] closes the transaction even
    then, since the server drops it with the connection. *)
Definition may_fail (o : call) : Prop := o ≠ Rollback.

Definition contract (c : nat) (o : call) (v : astate) (r : result (resp o)) (v' : astate) : Prop :=
  ∃ v1 v2, rely v v1 ∧
    (effect c o v1 r v2 ∨ (may_fail o ∧ (∃ e, r = inl e) ∧ v2 = v1)) ∧ rely v2 v'.
End effect.

(** ** Engines

    An engine implements the calls over its own state and shows, through an
    abstraction of that state, that every call made as [requires] says keeps
    the contract and the engine's own invariant. *)
Class Engine `{Schema} (W : Type) := {
  engine_step : nat → ∀ o : call, W → result (resp o) → W → Prop;
  engine_ok : W → Prop;
  engine_view : W → astate;
  engine_contract c o w r w' :
    engine_ok w → requires c o (engine_view w) → engine_step c o w r w' →
    engine_ok w' ∧ contract c o (engine_view w) r (engine_view w')
}.

(** A program that is safe under the contract is safe on every engine. *)
Lemma safe_engine `{Engine W} (I : astate → Prop) {A} (p : prog A) Q w :
  engine_ok w → safe contract requires I p Q (engine_view w) →
  safe engine_step (λ c o w, requires c o (engine_view w)) (λ w, I (engine_view w)) p
    (λ a w, Q a (engine_view w)) w.
Proof.
  revert w. induction p as [a|c o k IH]; intros w Hok [HI Hp]; simpl.
  - done.
  - destruct Hp as [Hpre Hp]. split_and!; [done..|]. intros r w' Hs.
    destruct (engine_contract c o w r w' Hok Hpre Hs) as [Hok' Hc]. apply IH; [done|]. by apply Hp.
Qed.

(** ** The convergence invariant *)

Section inv.
Context `{Sch : Schema}.

(** The target row of [k] is the source row, in the transported columns. *)
Definition synced (v : astate) (t : TableRef) (k : KeyValues) : Prop :=
  proj (cols_of t) <$> a_tgt v !! (t, k) = proj (cols_of t) <$> a_src v !! (t, k).

(** Some unconsumed delta names [k]. *)
Definition dirty (v : astate) (t : TableRef) (k : KeyValues) : Prop :=
  ∃ i, a_pend v !! (t, i) = Some k.

(** Of the tables in [T]: every row is in sync or has a delta on its way; and every
    visible delta is accounted for. *)
Record Inv (T : TableRef → Prop) (v : astate) : Prop := {
  inv_sync t k : T t → synced v t k ∨ dirty v t k;
  inv_seen t i k : a_pend v !! (t, i) = Some k → a_seen v t i ∧ key_ok t k
}.

(** [covered ids v t P k]: [P] holds of the key, or a delta other than the
    ones in [ids] is still going to bring it. *)
Definition covered (ids : list DeltaID) (v : astate) (t : TableRef) (P : Prop) (k : KeyValues) : Prop :=
  P ∨ ∃ i, (i ∉ ids) ∧ a_pend v !! (t, i) = Some k.

Lemma rely_refl v :
  (∀ t i k, a_pend v !! (t, i) = Some k → a_seen v t i ∧ key_ok t k) → rely v v.
Proof. intros Hs. split; auto. Qed.

Lemma rely_Inv {T} v v' : rely v v' → Inv T v → Inv T v'.
Proof.
  intros [Ht Hx Hs Hp Hn Hsrc] [HI Hseen]. split; [|done].
  intros t k HT. unfold synced. rewrite Ht.
  destruct (Hsrc t k) as [->|(i & _ & Hi)]; [|right; by exists i].
  destruct (HI t k HT) as [?|(i & Hi)]; [by left|]. right. exists i.
  rewrite Hp; [done|]. by eapply (Hseen t i k).
Qed.

Lemma rely_trans (v1 v2 v3 : astate) : rely v1 v2 → rely v2 v3 → rely v1 v3.
Proof.
  intros [T1 X1 S1 P1 N1 C1] [T2 X2 S2 P2 N2 C2]. split; [congruence|congruence|auto| |done|].
  - intros t i Hi. rewrite P2; auto.
  - intros t k. destruct (C2 t k) as [->|(i & Hi & Hk)].
    + destruct (C1 t k) as [->|(i & Hi & Hk)]; [by left|]. right. exists i.
      split; [done|]. rewrite P2; [done|]. by apply (N1 _ _ k).
    + right. exists i. split; [|done]. intros ?. by apply Hi, S1.
Qed.

Lemma requires_rely c o v v' : rely v v' → requires c o v → requires c o v'.
Proof.
  intros R. destruct o; simpl; try done. intros [-> Hs]. split; [done|].
  intros i Hi. by apply (rely_seen _ _ R), Hs.
Qed.

(** A fact about the source row of a key survives interference, or the key
    becomes dirty through a delta outside [ids]. *)
Lemma covered_rely ids v v' t k (P P' : Prop) :
  rely v v' → (∀ i k, a_pend v !! (t, i) = Some k → a_seen v t i) →
  (∀ i, i ∈ ids → a_seen v t i) →
  (a_src v' !! (t, k) = a_src v !! (t, k) → P → P') →
  covered ids v t P k → covered ids v' t P' k.
Proof.
  intros [Ht Hx Hs Hp Hn Hsrc] Hseen Hids HP [H|(i & Hi & Hk)].
  - destruct (Hsrc t k) as [Heq|(i & Hi & Hk)]; [left; auto|].
    right. exists i. split; [|done]. intros ?. by apply Hi, Hids.
  - right. exists i. split; [done|]. rewrite Hp; [done|]. by eapply Hseen.
Qed.

Lemma lookup_consume t ids p t' i :
  consume t ids p !! (t', i) = if decide (t' = t ∧ i ∈ ids) then None else p !! (t', i).
Proof.
  unfold consume. rewrite (lookup_filter_fst (λ ti : TableRef * DeltaID, ¬ (ti.1 = t ∧ ti.2 ∈ ids))).
  simpl. destruct (decide (t' = t ∧ i ∈ ids)).
  - by rewrite decide_False by tauto.
  - by rewrite decide_True by tauto.
Qed.
End inv.


(** ** Steps of the contract *)

Section steps.
Context `{Sch : Schema}.

(** What any run of steps leaves true of the source side of a table: ids stay
    seen, the deltas that were visible stay as they are, and a source row changes
    only together with a new delta. *)
Record evolve_on (t : TableRef) (v v' : astate) : Prop := {
  ev_seen i : a_seen v t i → a_seen v' t i;
  ev_pend i : a_seen v t i → a_pend v' !! (t, i) = a_pend v !! (t, i);
  ev_src k : a_src v' !! (t, k) = a_src v !! (t, k) ∨
    ∃ i, (¬ a_seen v t i) ∧ a_pend v' !! (t, i) = Some k
}.

Definition evolve (v v' : astate) : Prop := ∀ t, evolve_on t v v'.

Lemma evolve_refl v : evolve v v.
Proof. intros t. split; auto. Qed.

Lemma rely_evolve v v' : rely v v' → evolve v v'.
Proof. intros [] t. split; auto. Qed.

Lemma evolve_on_trans T t v1 v2 v3 :
  Inv T v2 → evolve_on t v1 v2 → evolve_on t v2 v3 → evolve_on t v1 v3.
Proof.
  intros HI [S1 P1 C1] [S2 P2 C2]. split.
  - auto.
  - intros i Hi. rewrite P2, P1; auto.
  - intros k. destruct (C2 k) as [->|(i & Hi & Hk)].
    + destruct (C1 k) as [->|(i & Hi & Hk)]; [by left|]. right. exists i.
      split; [done|]. rewrite P2; [done|]. by apply (inv_seen _ _ HI) in Hk as [].
    + right. exists i. split; [|done]. intros ?. by apply Hi, S1.
Qed.

Lemma evolve_trans T v1 v2 v3 : Inv T v2 → evolve v1 v2 → evolve v2 v3 → evolve v1 v3.
Proof. intros HI H1 H2 t. by apply (evolve_on_trans T t v1 v2 v3). Qed.

(** The calls that do not change committed state. *)
Definition quiet (o : call) : Prop :=
  match o with
  | ReadDirtyKeys _ _ _ | Introspect _ | RereadCurrent _ _ | CyclicCols _ | BeginApply _ _
  | StageUpsert _ _ _ | DeleteAbsent _ _ | FillCyclic | Rollback | CtxErr | After _ => True
  | _ => False
  end.

(** Equal but for the open transactions. *)
Definition same_data (v v' : astate) : Prop :=
  a_src v' = a_src v ∧ a_tgt v' = a_tgt v ∧ a_pend v' = a_pend v ∧ a_seen v' = a_seen v.

Lemma same_data_refl v : same_data v v.
Proof. done. Qed.

(** A statement leaves the transactions of the other connections, and the source. *)
Lemma tx_effect_other c f v v' r c' :
  tx_effect c f v v' r → c' ≠ c → a_tx v' !! c' = a_tx v !! c'.
Proof. intros (tx & tx' & _ & _ & _ & ->) Hc. simpl. by rewrite lookup_insert_ne by done. Qed.

Lemma stmt_other_conn c q v r v' c' :
  stmt_effect c q v r v' → c' ≠ c → a_tx v' !! c' = a_tx v !! c'.
Proof.
  intros He Hc. destruct q; simpl in He;
    try (by eapply tx_effect_other); try (by subst); try by destruct He as [-> _].
  - destruct He as [_ ->]. simpl. by rewrite lookup_insert_ne by done.
  - destruct He as (stg & _ & He). by eapply tx_effect_other.
  - destruct He as (stg & _ & He). destruct (a_tx v !! c); destruct He as (? & _ & ->); [|done].
    simpl. by rewrite lookup_insert_ne by done.
Qed.

Lemma effect_quiet c o v r v' : quiet o → effect c o v r v' → same_data v v'.
Proof.
  destruct o; simpl; try done; unfold tx_effect; intros _ He;
    repeat match goal with
    | H : _ ∧ _ |- _ => destruct H
    | H : ∃ _, _ |- _ => destruct H
    end; by subst.
Qed.

Lemma same_data_Inv {T} v v' : same_data v v' → Inv T v → Inv T v'.
Proof.
  intros (Hs & Ht & Hp & Hn) [HI Hse]. split.
  - intros t k. unfold synced, dirty. rewrite Hs, Ht, Hp. apply HI.
  - intros t i k. rewrite Hp, Hn. apply Hse.
Qed.

Lemma same_data_evolve v v' : same_data v v' → evolve v v'.
Proof. intros (Hs & _ & Hp & Hn) t. split; rewrite ?Hs, ?Hp, ?Hn; auto. Qed.

(** A quiet call: the invariant holds on, the target is unchanged. *)
Lemma quiet_step {T} c o v r v' :
  quiet o → Inv T v → contract c o v r v' → Inv T v' ∧ evolve v v' ∧ a_tgt v' = a_tgt v.
Proof.
  intros Hq HI (v1 & v2 & R1 & He & R2).
  assert (same_data v1 v2) as Hsd.
  { destruct He as [He|(_ & _ & ->)]; [by eapply effect_quiet|apply same_data_refl]. }
  assert (Inv T v1) as HI1 by by eapply rely_Inv.
  assert (Inv T v2) as HI2 by by eapply same_data_Inv.
  split_and!.
  - by eapply rely_Inv.
  - apply (evolve_trans T _ v1); [done|by apply rely_evolve|].
    apply (evolve_trans T _ v2); [done|by apply same_data_evolve|by apply rely_evolve].
  - rewrite (rely_tgt _ _ R2). destruct Hsd as (_ & -> & _). by apply rely_tgt.
Qed.

(** A new target whose rows differ only in dirty keys keeps the invariant. *)
Lemma set_tgt_Inv {T} v tgt' :
  Inv T v → (∀ t k, tgt' !! (t, k) = a_tgt v !! (t, k) ∨ dirty v t k) → Inv T (set_tgt v tgt').
Proof.
  intros [HI Hse] Hd. split; [|done]. intros t k HT.
  destruct (Hd t k) as [Heq|]; [|by right].
  destruct (HI t k HT) as [Hs|]; [|by right]. left. unfold synced in *. simpl. by rewrite Heq.
Qed.
End steps.

End Contract.
