(* ===== verification/Apply.v ===== *)
(** * The streaming drain ([internal/apply])

    [Drain] and [DrainAll] for a single table ([apply.go]), the FK-ordered
    component drains ([component.go]) and the bounded retry ([retry.go]), as
    programs over the calls of [Calls.v]. The pass-scoped row counters of
    [counts.go] do not influence the drain; [Stream.v] threads them around it.

    The component drains here are the ones of a one-connection pool
    ([ApplyConcurrency] 1, the default): the calls are made strictly one after
    the other on connection pair [c]. [ParDrain.v] has the drain over a pool. *)

From S2P Require Import Prelude Engine Calls ApplyTx Contract.
Import ApplyTx Contract.

Module Apply.

(** ** Coalescing ([keySignature], [coalesce]) *)

(** [fmt.Sprint] on the values a key can hold. *)
Definition sprint (v : Value) : string :=
  match v with
  | VText s => s
  | VNull => "<nil>"
  | VInt n => pretty n
  end.

(** [strings.Join] *)
Fixpoint join (sep : string) (parts : list string) : string :=
  match parts with
  | [] => EmptyString
  | [p] => p
  | p :: parts => p +:+ sep +:+ join sep parts
  end.

Definition nul : string := String Ascii.zero EmptyString.

Definition keySignature (kv : KeyValues) : string := join nul (sprint <$> kv).

(** The loop of [coalesce]; [seen] is the set of signatures met so far. *)
Fixpoint coalesce_loop (dirty : list DirtyKey) (seen : gset string) : list KeyValues :=
  match dirty with
  | [] => []
  | d :: dirty =>
      let sig := keySignature (dk_Key d) in
      if decide (sig ∈ seen) then coalesce_loop dirty seen
      else dk_Key d :: coalesce_loop dirty ({[sig]} ∪ seen)
  end.

Definition coalesce (dirty : list DirtyKey) : list KeyValues * list DeltaID :=
  (coalesce_loop dirty ∅, dk_DeltaID <$> dirty).

(** ** Columns ([transportColumns]) *)

Fixpoint find_columns (ref : TableRef) (tables : list Table) : option (list string) :=
  match tables with
  | [] => None
  | tbl :: tables =>
      if decide (tbl_Ref tbl = ref) then Some (columns_of tbl) else find_columns ref tables
  end.

Definition transportColumns (c : nat) (ref : TableRef) : prog (result (list string)) :=
  schema ← do_call c (Introspect (mkSelection [ref_string ref] []));
  Ret (match schema with
       | inl e => inl (Errorf "introspect columns" e)
       | inr tables =>
           match find_columns ref tables with
           | Some cols => inr cols
           | None => inl (Failure "table not found on source")
           end
       end).

(** ** One table ([Drain], [DrainAll], [pipeApply]) *)

(** [pipeApply]. The re-read error wins over the apply error. *)
Definition pipeApply (c : nat) (t : TableRef) (cols : list string) (keys : list KeyValues)
    : prog (option error) :=
  rd ← do_call c (RereadCurrent t keys);
  ap ← do_call c (ApplyPass t cols keys rd);
  Ret (match rd, ap with
       | inl e, _ => Some (Errorf "re-read" e)
       | inr _, inl e => Some (Errorf "apply" e)
       | inr _, inr _ => None
       end).

(** The number of deltas consumed and the error. *)
Definition Drain (c : nat) (t : TableRef) (target : TargetID) (maxBatch : Z)
    : prog (nat * option error) :=
  r ← do_call c (ReadDirtyKeys t target maxBatch);
  match r with
  | inl e => Ret (0, Some (Errorf "read dirty keys" e))
  | inr [] => Ret (0, None)
  | inr dirty =>
      let '(distinct, ids) := coalesce dirty in
      r ← transportColumns c t;
      match r with
      | inl e => Ret (0, Some e)
      | inr cols =>
          r ← pipeApply c t cols distinct;
          match r with
          | Some e => Ret (0, Some (Errorf "apply" e))
          | None =>
              r ← do_call c (ConfirmConsumed t target ids);
              match r with
              | inl e => Ret (0, Some (Errorf "confirm consumed" e))
              | inr _ => Ret (length dirty, None)
              end
          end
      end
  end.

(** [DrainAll]: the loop has no bound of its own; [None] as the error result
    stands for a loop that has not stopped after [fuel] passes. *)
Fixpoint DrainAll (fuel : nat) (c : nat) (t : TableRef) (target : TargetID) (batch : Z)
    (total : nat) : prog (option (nat * option error)) :=
  match fuel with
  | 0 => Ret None
  | S fuel =>
      r ← Drain c t target batch;
      match r with
      | (_, Some e) => Ret (Some (total, Some e))
      | (0, None) => Ret (Some (total, None))
      | (n, None) => DrainAll fuel c t target batch (total + n)
      end
  end.

(** ** A component's work ([tableWork], [gatherWork]) *)

Record tableWork := mkWork {
  tw_ref : TableRef;
  tw_distinct : list KeyValues;
  tw_ids : list DeltaID;
  tw_cols : list string
}.

Definition gather_table (c : nat) (target : TargetID) (batch : Z) (ref : TableRef)
    (acc : list tableWork * nat) : prog (error + (list tableWork * nat)) :=
  let '(work, total) := acc in
  r ← do_call c (ReadDirtyKeys ref target batch);
  match r with
  | inl e => Ret (inl (Errorf "apply component: read dirty" e))
  | inr [] => Ret (inr (work, total))
  | inr dirty =>
      r ← transportColumns c ref;
      match r with
      | inl e => Ret (inl e)
      | inr cols =>
          let '(distinct, ids) := coalesce dirty in
          Ret (inr (work ++ [mkWork ref distinct ids cols], total + length dirty))
      end
  end.

Definition gatherWork (c : nat) (tablesTopoOrder : list TableRef) (target : TargetID) (batch : Z)
    : prog (error + (list tableWork * nat)) :=
  for_each tablesTopoOrder (gather_table c target batch) ([], 0).

(** ** Target transactions of one pass *)

(** [pipeStageUpsert] *)
Definition pipeStageUpsert (c : nat) (ref : TableRef) (cols : list string) (keys : list KeyValues)
    : prog (option error) :=
  rd ← do_call c (RereadCurrent ref keys);
  st ← do_call c (StageUpsert ref cols rd);
  Ret (match rd, st with
       | inl e, _ => Some (Errorf "re-read" e)
       | inr _, inl e => Some e
       | inr _, inr _ => None
       end).

(** [call; if err != nil { return err }] for a call without a value. *)
Definition try_call (c : nat) (o : call) (k : prog (option error)) : prog (option error) :=
  r ← do_call c o;
  match r with inl e => Ret (Some e) | inr _ => k end.

(** The deferred [Rollback] of a function whose body ends with a commit. *)
Definition rollback_if (c : nat) (r : option error) : prog (option error) :=
  match r with
  | Some e => _ ← do_call c Rollback; Ret (Some e)
  | None => Ret None
  end.

Definition with_rollback (c : nat) (body : prog (option error)) : prog (option error) :=
  body ≫= rollback_if c.

(** [err := p; if err != nil { return err }] *)
Definition try_prog (p : prog (option error)) (k : prog (option error)) : prog (option error) :=
  r ← p;
  match r with Some e => Ret (Some e) | None => k end.

(** [perTableUpsert] *)
Definition perTableUpsert (c : nat) (w : tableWork) : prog (option error) :=
  try_call c (BeginApply false [tw_ref w])
    (with_rollback c
      (try_prog (pipeStageUpsert c (tw_ref w) (tw_cols w) (tw_distinct w))
        (try_call c Commit (Ret None)))).

(** [perTableDelete] *)
Definition perTableDelete (c : nat) (w : tableWork) : prog (option error) :=
  try_call c (BeginApply false [tw_ref w])
    (with_rollback c
      (try_prog (pipeStageUpsert c (tw_ref w) (tw_cols w) (tw_distinct w))
        (try_call c (DeleteAbsent (tw_ref w) (tw_distinct w))
          (try_call c Commit (Ret None))))).

(** [perTableApplyCyclic] *)
Definition perTableApplyCyclic (c : nat) (w : tableWork) (componentTables : list TableRef)
    (del fill : bool) : prog (option error) :=
  try_call c (BeginApply true componentTables)
    (with_rollback c
      (try_prog (pipeStageUpsert c (tw_ref w) (tw_cols w) (tw_distinct w))
        (let finish :=
           let commit := try_call c Commit (Ret None) in
           if del then try_call c (DeleteAbsent (tw_ref w) (tw_distinct w)) commit
           else commit in
         if fill then try_call c FillCyclic finish else finish))).

(** ** The acyclic drain ([drainAcyclicSeq]) *)

(** The error handling of one table in a phase: [Some (inl e)] halts with [e],
    otherwise the flag of the table and the last transient error. *)
Definition phase_outcome (msg : string) (r : option error) (transient : option error)
    : error + (bool * option error) :=
  match r with
  | None => inr (true, transient)
  | Some e =>
      if IsTransientConstraint e then inr (false, Some e) else inl (Errorf msg e)
  end.

Definition upsert_step (c : nat) (w : tableWork)
    (s : list (tableWork * bool) * option error)
    : prog ((nat * option error) + (list (tableWork * bool) * option error)) :=
  let '(acc, transient) := s in
  r ← perTableUpsert c w;
  Ret (match phase_outcome "apply component: upsert" r transient with
       | inl e => inl (0, Some e)
       | inr (ok, transient) => inr (acc ++ [(w, ok)], transient)
       end).

Definition delete_step (c : nat) (target : TargetID) (wu : tableWork * bool)
    (s : nat * option error) : prog ((nat * option error) + (nat * option error)) :=
  let '(w, upserted) := wu in
  let '(total, transient) := s in
  if negb upserted then Ret (inr (total, transient))
  else
    r ← perTableDelete c w;
    match phase_outcome "apply component: delete" r transient with
    | inl e => Ret (inl (total, Some e))
    | inr (false, transient) => Ret (inr (total, transient))
    | inr (true, transient) =>
        r ← do_call c (ConfirmConsumed (tw_ref w) target (tw_ids w));
        match r with
        | inl e => Ret (inl (total, Some (Errorf "apply component: confirm" e)))
        | inr _ => Ret (inr (total + length (tw_ids w), transient))
        end
    end.

(** The end of a loop that either returned early or ended with its state. *)
Definition finish {A} (r : A + A) : prog A :=
  match r with inl a => Ret a | inr a => Ret a end.

Definition drainAcyclicSeq (c : nat) (work : list tableWork) (target : TargetID)
    : prog (nat * option error) :=
  r ← for_each work (upsert_step c) ([], None);
  match r with
  | inl res => Ret res
  | inr (upserted, transient) =>
      r ← for_each (reverse upserted) (delete_step c target) (0, transient);
      finish r
  end.

(** ** The cyclic NULL-then-fill drain ([drainCyclicNullFillSeq]) *)

Record cyclicWork := mkCW {
  cw_work : tableWork; cw_upserted : bool; cw_deleted : bool; cw_filled : bool
}.

Definition cyclic_upsert_step (c : nat) (tables : list TableRef) (w : tableWork)
    (s : list cyclicWork * option error)
    : prog ((nat * option error) + (list cyclicWork * option error)) :=
  let '(acc, transient) := s in
  r ← perTableApplyCyclic c w tables false false;
  Ret (match phase_outcome "apply component: upsert" r transient with
       | inl e => inl (0, Some e)
       | inr (ok, transient) => inr (acc ++ [mkCW w ok false false], transient)
       end).

(** The loop runs from the last table to the first, so it rebuilds the list
    from its end. *)
Definition cyclic_delete_step (c : nat) (tables : list TableRef) (x : cyclicWork)
    (s : list cyclicWork * option error)
    : prog ((nat * option error) + (list cyclicWork * option error)) :=
  let '(acc, transient) := s in
  if negb (cw_upserted x) then Ret (inr (x :: acc, transient))
  else
    r ← perTableApplyCyclic c (cw_work x) tables true false;
    Ret (match phase_outcome "apply component: delete" r transient with
         | inl e => inl (0, Some e)
         | inr (ok, transient) => inr (mkCW (cw_work x) (cw_upserted x) ok false :: acc, transient)
         end).

Definition cyclic_fill_step (c : nat) (tables : list TableRef)
    (cyclicCols : gmap TableRef (list string)) (x : cyclicWork)
    (s : list cyclicWork * option error)
    : prog ((nat * option error) + (list cyclicWork * option error)) :=
  let '(acc, transient) := s in
  if decide (default [] (cyclicCols !! tw_ref (cw_work x)) = []) then
    Ret (inr (acc ++ [mkCW (cw_work x) (cw_upserted x) (cw_deleted x) true], transient))
  else if negb (cw_upserted x && cw_deleted x) then Ret (inr (acc ++ [x], transient))
  else
    r ← perTableApplyCyclic c (cw_work x) tables false true;
    Ret (match phase_outcome "apply component: fill" r transient with
         | inl e => inl (0, Some e)
         | inr (ok, transient) =>
             inr (acc ++ [mkCW (cw_work x) (cw_upserted x) (cw_deleted x) ok], transient)
         end).

Definition cyclic_confirm_step (c : nat) (target : TargetID) (x : cyclicWork) (total : nat)
    : prog ((nat * option error) + nat) :=
  if cw_upserted x && cw_deleted x && cw_filled x then
    let w := cw_work x in
    r ← do_call c (ConfirmConsumed (tw_ref w) target (tw_ids w));
    Ret (match r with
         | inl e => inl (total, Some (Errorf "apply component: confirm" e))
         | inr _ => inr (total + length (tw_ids w))
         end)
  else Ret (inr total).

Definition drainCyclicNullFillSeq (c : nat) (work : list tableWork) (tables : list TableRef)
    (target : TargetID) (cyclicCols : gmap TableRef (list string)) : prog (nat * option error) :=
  r ← for_each work (cyclic_upsert_step c tables) ([], None);
  match r with
  | inl res => Ret res
  | inr (xs, transient) =>
      r ← for_each (reverse xs) (cyclic_delete_step c tables) ([], transient);
      match r with
      | inl res => Ret res
      | inr (xs, transient) =>
          r ← for_each xs (cyclic_fill_step c tables cyclicCols) ([], transient);
          match r with
          | inl res => Ret res
          | inr (xs, transient) =>
              r ← for_each xs (cyclic_confirm_step c target) 0;
              match r with
              | inl res => Ret res
              | inr total => Ret (total, transient)
              end
          end
      end
  end.

(** ** The atomic cyclic pass (the tail of [DrainComponentPool]) *)

Definition stage_step (c : nat) (w : tableWork) (_ : unit) : prog (error + unit) :=
  r ← pipeStageUpsert c (tw_ref w) (tw_cols w) (tw_distinct w);
  Ret (match r with Some e => inl (Errorf "apply component: stage" e) | None => inr tt end).

Definition delete_absent_step (c : nat) (w : tableWork) (_ : unit) : prog (error + unit) :=
  r ← do_call c (DeleteAbsent (tw_ref w) (tw_distinct w));
  Ret (match r with inl e => inl (Errorf "apply component: delete" e) | inr _ => inr tt end).

Definition confirm_step (c : nat) (target : TargetID) (w : tableWork) (_ : unit)
    : prog (error + unit) :=
  r ← do_call c (ConfirmConsumed (tw_ref w) target (tw_ids w));
  Ret (match r with inl e => inl (Errorf "apply component: confirm" e) | inr _ => inr tt end).

(** The transaction: [None] once it has committed. *)
Definition atomic_tx (c : nat) (work : list tableWork) : prog (option error) :=
  with_rollback c
    (r ← for_each work (stage_step c) tt;
     match r with
     | inl e => Ret (Some e)
     | inr _ =>
         r ← for_each (reverse work) (delete_absent_step c) tt;
         match r with
         | inl e => Ret (Some e)
         | inr _ => try_call c Commit (Ret None)
         end
     end).

Definition drainAtomic (c : nat) (work : list tableWork) (total : nat) (tables : list TableRef)
    (target : TargetID) (cyclic : bool) : prog (nat * option error) :=
  r ← do_call c (BeginApply cyclic tables);
  match r with
  | inl e => Ret (0, Some (Errorf "apply component: begin" e))
  | inr _ =>
      r ← atomic_tx c work;
      match r with
      | Some e => Ret (0, Some e)
      | None =>
          r ← for_each work (confirm_step c target) tt;
          match r with
          | inl e => Ret (total, Some e)
          | inr _ => Ret (total, None)
          end
      end
  end.

(** ** The component drain ([DrainComponentPool] with one connection) *)

Definition gathered (c : nat) (tables : list TableRef) (target : TargetID) (batch : Z)
    (k : list tableWork → nat → prog (nat * option error)) : prog (nat * option error) :=
  r ← gatherWork c tables target batch;
  match r with
  | inl e => Ret (0, Some e)
  | inr ([], _) => Ret (0, None)
  | inr (work, total) => k work total
  end.

(** [nullFill]: whether the sink implements [engine.NullFillCyclicSink]. *)
Definition DrainComponent (nullFill : bool) (c : nat) (tables : list TableRef) (target : TargetID)
    (batch : Z) (cyclic : bool) : prog (nat * option error) :=
  let atomic :=
    gathered c tables target batch
      (λ work total, drainAtomic c work total tables target cyclic) in
  if negb cyclic then
    gathered c tables target batch (λ work _, drainAcyclicSeq c work target)
  else if nullFill then
    r ← do_call c (CyclicCols tables);
    match r with
    | inl e => Ret (0, Some (Errorf "apply component: resolve cyclic FK columns" e))
    | inr cyclicCols =>
        if decide (cyclicCols = ∅) then atomic
        else gathered c tables target batch
               (λ work _, drainCyclicNullFillSeq c work tables target cyclicCols)
    end
  else atomic.

(** ** Bounded retry ([DrainComponentRetryingPool]) *)

Record RetryPolicy := mkPolicy { MaxAttempts : nat; BaseBackoff : Z; MaxBackoff : Z }.

(** Durations in nanoseconds. *)
Definition DefaultRetryPolicy : RetryPolicy := mkPolicy 5 200000000 5000000000.

(** [tries] attempts remain; [lastErr] is the error of the previous one. The
    wait is [After], which fails when the context ends first. [attempt n] is the
    attempt that leaves [n] more. *)
Fixpoint retry_loop (attempt : nat → prog (nat * option error)) (c : nat) (policy : RetryPolicy)
    (tries : nat) (backoff : Z) (total : nat) (lastErr : error) : prog (nat * option error) :=
  match tries with
  | 0 => Ret (total, Some (Errorf "apply component HALTED: FK dependency unresolved" lastErr))
  | S tries =>
      r ← attempt tries;
      let '(n, err) := r in
      let total := total + n in
      match err with
      | None => Ret (total, None)
      | Some e =>
          if negb (IsTransientConstraint e) then Ret (total, Some e)
          else if Nat.eqb tries 0 then
            Ret (total, Some (Errorf "apply component HALTED: FK dependency unresolved" e))
          else
            r ← do_call c (After backoff);
            match r with
            | inl ctxErr => Ret (total, Some ctxErr)
            | inr _ =>
                let backoff := (backoff * 2)%Z in
                let backoff := if decide (MaxBackoff policy < backoff)%Z
                               then MaxBackoff policy else backoff in
                retry_loop attempt c policy tries backoff total e
            end
      end
  end.

Definition DrainComponentRetrying (nullFill : bool) (c : nat) (tables : list TableRef)
    (target : TargetID) (batch : Z) (cyclic : bool) (policy : RetryPolicy)
    : prog (nat * option error) :=
  retry_loop (λ _, DrainComponent nullFill c tables target batch cyclic) c policy
    (MaxAttempts policy) (BaseBackoff policy) 0 (Failure "nil").

(** ** Coalescing is exact *)

Lemma app_nul_inj (s1 s2 r1 r2 : string) :
  nul_free s1 = true → nul_free s2 = true →
  s1 +:+ nul +:+ r1 = s2 +:+ nul +:+ r2 → s1 = s2 ∧ r1 = r2.
Proof.
  revert s2. induction s1 as [|a s1 IH]; intros [|b s2] H1 H2 Heq; simpl in *.
  - injection Heq as Heq. split; [done|]. exact Heq.
  - injection Heq as <- _. by rewrite bool_decide_eq_true_2 in H2.
  - injection Heq as -> _. by rewrite bool_decide_eq_true_2 in H1.
  - injection Heq as -> Heq. apply andb_true_iff in H1 as [_ H1], H2 as [_ H2].
    by destruct (IH s2 H1 H2 Heq) as [-> ->].
Qed.

(** On keys of one table in text form, equal signatures mean equal keys. *)
Lemma keySignature_inj (k1 k2 : KeyValues) :
  length k1 = length k2 → forallb text_ok k1 = true → forallb text_ok k2 = true →
  keySignature k1 = keySignature k2 → k1 = k2.
Proof.
  unfold keySignature. revert k2.
  induction k1 as [|v1 k1 IH]; intros [|v2 k2] Hlen H1 H2 Heq; simplify_eq/=; [done|].
  apply andb_true_iff in H1 as [Hv1 H1], H2 as [Hv2 H2].
  destruct v1 as [s1| |], v2 as [s2| |]; simplify_eq/=.
  destruct k1 as [|w1 k1], k2 as [|w2 k2]; simplify_eq/=; [done|].
  destruct (app_nul_inj s1 s2 _ _ Hv1 Hv2 Heq) as [-> Heq']. f_equal. apply IH; simpl; [congruence|done..].
Qed.

Lemma coalesce_loop_complete t `{Schema} dirty seen d :
  (∀ d, d ∈ dirty → key_ok t (dk_Key d)) → d ∈ dirty →
  keySignature (dk_Key d) ∉ seen → dk_Key d ∈ coalesce_loop dirty seen.
Proof.
  intros Hok. revert seen. induction dirty as [|d' dirty IH]; intros seen Hd Hs.
  { by apply elem_of_nil in Hd. }
  simpl. apply elem_of_cons in Hd as [->|Hd].
  - rewrite decide_False by done. by left.
  - destruct (decide (keySignature (dk_Key d) = keySignature (dk_Key d'))) as [Heq|Hne].
    + rewrite decide_False by congruence.
      assert (dk_Key d = dk_Key d') as ->; [|by left].
      destruct (Hok d) as [L1 T1]; [by right|]. destruct (Hok d') as [L2 T2]; [by left|].
      by apply keySignature_inj; [congruence|..].
    + case_decide; [|right]; (apply IH; [intros ? ?; apply Hok; by right|done|set_solver]).
Qed.

Lemma coalesce_loop_sound dirty seen k :
  k ∈ coalesce_loop dirty seen → ∃ d, d ∈ dirty ∧ dk_Key d = k ∧ keySignature k ∉ seen.
Proof.
  revert seen. induction dirty as [|d dirty IH]; intros seen; simpl.
  { by intros ?%elem_of_nil. }
  case_decide as Hs.
  - intros (d' & ? & ? & ?)%IH. exists d'. split_and!; [by right|done..].
  - intros [->|(d' & ? & ? & Hn)%IH]%elem_of_cons.
    + exists d. split_and!; [by left|done..].
    + exists d'. split_and!; [by right|done|set_solver].
Qed.

Lemma coalesce_loop_NoDup dirty seen : NoDup (coalesce_loop dirty seen).
Proof.
  revert seen. induction dirty as [|d dirty IH]; intros seen; simpl; [constructor|].
  case_decide; [done|]. constructor; [|done].
  intros (d' & _ & Heq & Hn)%coalesce_loop_sound. set_solver.
Qed.

(** A pass re-reads every dirty key exactly once and consumes every delta it
    read: on keys of one table in faithful text form, the coalesced key list has no
    duplicates and the same elements as the keys of the batch, and the id list is
    exactly the ids of the batch. *)
Theorem coalesce_exact `{Schema} (t : TableRef) (dirty : list DirtyKey) :
  (∀ d, d ∈ dirty → key_ok t (dk_Key d)) →
  NoDup (coalesce dirty).1 ∧
  (∀ k, k ∈ (coalesce dirty).1 ↔ k ∈ dk_Key <$> dirty) ∧
  (coalesce dirty).2 = dk_DeltaID <$> dirty.
Proof.
  intros Hok. split_and!; [apply coalesce_loop_NoDup| |done].
  intros k. rewrite list_elem_of_fmap. split.
  - intros (d & ? & <- & _)%coalesce_loop_sound. by exists d.
  - intros (d & -> & Hd). by apply (coalesce_loop_complete t).
Qed.

(** Without the text-form restriction the signature is not collision-free:
    two different composite keys that contain the NUL character share one
    signature, so a batch holding a delta for each re-reads only the first
    key while both delta ids are consumed. *)
Theorem keySignature_collision :
  let k1 := [VText "a"; VText (nul +:+ "b")] in
  let k2 := [VText ("a" +:+ nul); VText "b"] in
  k1 ≠ k2 ∧ keySignature k1 = keySignature k2 ∧
  coalesce [mkDirty 1%Z OpUpdate k1; mkDirty 2%Z OpUpdate k2] = ([k1], [1%Z; 2%Z]).
Proof. split_and!; [done|done|vm_compute; reflexivity]. Qed.

(** ** Safety of the drain: the assertions a pass carries *)

Section safety.
Context `{Sch : Schema} (c : nat) (T : TableRef → Prop).
Abbreviation Inv := (Contract.Inv T).

(** One table's work: its deltas have been seen, the ones still pending name
    keys of the work, and every key of the work is still dirty. *)
Record item_ok (v : astate) (w : tableWork) : Prop := {
  io_seen i : i ∈ tw_ids w → a_seen v (tw_ref w) i;
  io_keys i k : i ∈ tw_ids w → a_pend v !! (tw_ref w, i) = Some k → k ∈ tw_distinct w;
  io_dirty k : k ∈ tw_distinct w → ∃ i, i ∈ tw_ids w ∧ a_pend v !! (tw_ref w, i) = Some k;
  io_cols : tw_cols w = cols_of (tw_ref w)
}.

(** [about v w P]: [P] holds of every key of the work, or the key is going to
    be brought by a delta the work does not consume. *)
Definition about (v : astate) (w : tableWork) (P : KeyValues → Prop) : Prop :=
  ∀ k, k ∈ tw_distinct w → covered (tw_ids w) v (tw_ref w) (P k) k.

(** The re-read rows are the source's. *)
Definition rows_ok (v : astate) (w : tableWork) (stg : gmap KeyValues Row) : Prop :=
  about v w (λ k, stg !! k = proj (tw_cols w) <$> a_src v !! (tw_ref w, k)) ∧
  ∀ k, k ∉ tw_distinct w → stg !! k = None.

(** The target has what the source has. *)
Definition landed (v : astate) (w : tableWork) : Prop :=
  about v w (synced v (tw_ref w)).

(** Rows deleted on the source are gone from the target. *)
Definition absent_ok (v : astate) (w : tableWork) : Prop :=
  about v w (λ k, a_src v !! (tw_ref w, k) = None → a_tgt v !! (tw_ref w, k) = None).

Definition same_tgt_on (t : TableRef) (v v' : astate) : Prop :=
  ∀ k, a_tgt v' !! (t, k) = a_tgt v !! (t, k).

Lemma item_ok_evolve v v' w : evolve_on (tw_ref w) v v' → item_ok v w → item_ok v' w.
Proof.
  intros [Es Ep _] [Hs Hk Hd Hc]. split; [by auto| | |done].
  - intros i k Hi. rewrite Ep by auto. by apply Hk.
  - intros k (i & Hi & Hp)%Hd. exists i. split; [done|]. by rewrite Ep by auto.
Qed.

Lemma about_evolve v v' w (P P' : KeyValues → Prop) :
  Inv v → evolve_on (tw_ref w) v v' → item_ok v w →
  (∀ k, a_src v' !! (tw_ref w, k) = a_src v !! (tw_ref w, k) → P k → P' k) →
  about v w P → about v' w P'.
Proof.
  intros HI [Es Ep Ec] Hw HP Ha k Hk. destruct (Ha k Hk) as [H|(i & Hi & Hp)].
  - destruct (Ec k) as [Heq|(i & Hi & Hp)]; [left; by apply HP|].
    right. exists i. split; [|done]. intros ?. by apply Hi, (io_seen _ _ Hw).
  - right. exists i. split; [done|]. rewrite Ep; [done|].
    by apply (inv_seen _ _ HI) in Hp as [].
Qed.

Lemma rows_ok_evolve v v' w stg :
  Inv v → evolve v v' → item_ok v w → rows_ok v w stg → rows_ok v' w stg.
Proof.
  intros HI He Hw [Ha Hn]. split; [|done]. eapply about_evolve; [done..| |exact Ha].
  simpl. by intros k ->.
Qed.

Lemma landed_evolve v v' w :
  Inv v → evolve_on (tw_ref w) v v' → same_tgt_on (tw_ref w) v v' → item_ok v w →
  landed v w → landed v' w.
Proof.
  intros HI He Ht Hw. apply about_evolve; [done..|].
  intros k Hs. unfold synced. by rewrite Ht, Hs.
Qed.

Lemma absent_ok_evolve v v' w :
  Inv v → evolve_on (tw_ref w) v v' → same_tgt_on (tw_ref w) v v' → item_ok v w →
  absent_ok v w → absent_ok v' w.
Proof.
  intros HI He Ht Hw. apply about_evolve; [done..|].
  intros k Hs. by rewrite Ht, Hs.
Qed.

(** ** The calls of a phase *)

(** A program that only makes quiet calls. *)
Lemma safe_quiet o Q v :
  quiet o → Inv v →
  (∀ r v', contract c o v r v' → Inv v' → evolve v v' → a_tgt v' = a_tgt v → Q r v') →
  safe contract requires Inv (do_call c o) Q v.
Proof.
  intros Hq HI HQ. apply safe_call; [done|by destruct o|]. intros r v' Hc.
  destruct (quiet_step _ _ _ _ _ Hq HI Hc) as (? & ? & ?). split; [done|]. by apply HQ.
Qed.

Lemma reread_step v w r v' :
  Inv v → item_ok v w →
  contract c (RereadCurrent (tw_ref w) (tw_distinct w)) v r v' →
  match r with inl _ => True | inr stg => rows_ok v' w stg end.
Proof.
  intros HI Hw (v1 & v2 & R1 & [[-> ->]|(_ & [e ->] & ->)] & R2); [|done].
  assert (Inv v1) as HI1 by by eapply rely_Inv.
  assert (item_ok v1 w) as Hw1 by (eapply item_ok_evolve; [by apply rely_evolve|done]).
  eapply rows_ok_evolve; [exact HI1|by apply rely_evolve|done|]. split.
  - intros k Hk. left. rewrite lookup_reread, decide_True by done. by rewrite (io_cols _ _ Hw).
  - intros k Hk. by rewrite lookup_reread, decide_False by done.
Qed.

(** The transaction of connection [c] after a call, in terms of before. *)
Lemma begin_step v cyclic tables r v' :
  a_tx v !! c = None → contract c (BeginApply cyclic tables) v r v' →
  match r with
  | inl _ => a_tx v' !! c = None
  | inr _ => a_tx v' !! c = Some (begin_tx (if cyclic then cyc_of tables else ∅))
  end.
Proof.
  intros Hx (v1 & v2 & R1 & [[-> ->]|(_ & [e ->] & ->)] & R2);
    rewrite (rely_tx _ _ R2); simpl; rewrite ?(rely_tx _ _ R1), ?Hx; [|done].
  by rewrite lookup_insert_eq.
Qed.

Lemma quiet_tx_step o (f : astate → pgApplyTx → option pgApplyTx) tx v r v' :
  (∀ v v' r, effect c o v r v' → tx_effect c (f v) v v' (match r with inl e => inl e | inr _ => inr tt end)) →
  (∀ v v', a_tgt v = a_tgt v' → f v = f v') →
  quiet o → Inv v → a_tx v !! c = Some tx → contract c o v r v' →
  match r with
  | inl _ => is_Some (a_tx v' !! c)
  | inr _ => ∃ tx', f v tx = Some tx' ∧ a_tx v' !! c = Some tx'
  end.
Proof.
  intros Hf Hext Hq HI Hx (v1 & v2 & R1 & He & R2). rewrite (rely_tx _ _ R2).
  rewrite <-(rely_tx _ _ R1) in Hx.
  destruct He as [(tx0 & tx' & Hx0 & Hfx & Hr & ->)%Hf|(_ & [e ->] & ->)].
  2: { rewrite Hx. by eexists. }
  destruct r as [e|u]; [done|]. exists tx'. simpl.
  rewrite Hx in Hx0. injection Hx0 as <-.
  rewrite lookup_insert_eq. split; [|done].
  by rewrite (Hext v v1) by (symmetry; by apply rely_tgt).
Qed.

Lemma rollback_step v r v' : contract c Rollback v r v' → a_tx v' !! c = None.
Proof.
  intros (v1 & v2 & R1 & [->|(Hmf & _)] & R2); [|by destruct Hmf].
  rewrite (rely_tx _ _ R2). simpl. apply lookup_delete_eq.
Qed.

Lemma dirty_evolve v v' t k : Inv v → evolve v v' → dirty v t k → dirty v' t k.
Proof.
  intros HI He (i & Hi). exists i. rewrite (ev_pend _ _ _ (He t)); [done|].
  by apply (inv_seen _ _ HI) in Hi as [].
Qed.

(** A commit that writes dirty keys only; it may land and still report failure. *)
Lemma commit_step v r v' tx :
  Inv v → a_tx v !! c = Some tx →
  (∀ t k, commit tx (a_tgt v) !! (t, k) = a_tgt v !! (t, k) ∨ dirty v t k) →
  contract c Commit v r v' →
  Inv v' ∧ evolve v v' ∧ (a_tgt v' = a_tgt v ∨ a_tgt v' = commit tx (a_tgt v)) ∧
  match r with
  | inl _ => True
  | inr _ => a_tgt v' = commit tx (a_tgt v) ∧ a_tx v' !! c = None
  end.
Proof.
  intros HI Hx Hd (v1 & v2 & R1 & He & R2).
  assert (Inv v1) as HI1 by by eapply rely_Inv.
  assert (evolve v v1) as E1 by by apply rely_evolve.
  assert (a_tx v1 !! c = Some tx) as Hx1 by by rewrite (rely_tx _ _ R1).
  assert (a_tgt v1 = a_tgt v) as Ht1 by by apply rely_tgt.
  assert (∀ v2, Inv v2 → evolve v1 v2 → rely v2 v' → Inv v' ∧ evolve v v') as Hfin.
  { intros w2 HI2 E2 R. split; [by eapply rely_Inv|].
    apply (evolve_trans T _ v1); [done..|]. apply (evolve_trans T _ w2); [done..|].
    by apply rely_evolve. }
  rewrite (rely_tgt _ _ R2), (rely_tx _ _ R2).
  destruct He as [[(tx' & Hx' & ->)|([e ->] & ->)]|(_ & [e ->] & ->)]; simpl.
  - rewrite Hx1 in Hx'. injection Hx' as <-. rewrite Ht1 in *.
    destruct (Hfin (set_tx (set_tgt v1 (commit tx (a_tgt v))) (delete c (a_tx v1)))) as [? ?].
    + eapply same_data_Inv; [|apply (set_tgt_Inv v1 (commit tx (a_tgt v)) HI1)]; [done|].
      intros t k. rewrite Ht1. destruct (Hd t k) as [?|?]; [by left|right].
      by apply (dirty_evolve v v1).
    + intros t. split; simpl; auto.
    + done.
    + split_and!; [done|done|by right|]. destruct r; [done|]. split; [done|apply lookup_delete_eq].
  - destruct (Hfin (set_tx v1 (delete c (a_tx v1)))) as [? ?]; [by apply (same_data_Inv v1)| |done|].
    { by apply same_data_evolve. }
    split_and!; [done|done|by left|done].
  - destruct (Hfin v1) as [? ?]; [done|apply evolve_refl|done|].
    split_and!; [done|done|by left|done].
Qed.

(** ** One phase on one table

    [perTableUpsert], [perTableDelete] and [perTableApplyCyclic] are one shape. *)

Definition phase (cyclic : bool) (tables : list TableRef) (w : tableWork) (del fill : bool)
    : prog (option error) :=
  try_call c (BeginApply cyclic tables)
    (with_rollback c
      (try_prog (pipeStageUpsert c (tw_ref w) (tw_cols w) (tw_distinct w))
        (let finish :=
           let commit := try_call c Commit (Ret None) in
           if del then try_call c (DeleteAbsent (tw_ref w) (tw_distinct w)) commit
           else commit in
         if fill then try_call c FillCyclic finish else finish))).

(** The transaction just before its commit. *)
Definition final_tx (cc : gmap TableRef (list string)) (w : tableWork) (del fill : bool)
    (tgt : rows) (stg : gmap KeyValues Row) : option pgApplyTx :=
  let tx := stageUpsert dflt_of tgt (tw_ref w) (tw_cols w) stg (begin_tx cc) in
  let tx := if fill then fillCyclic tgt tx else tx in
  if del then deleteAbsent (tw_ref w) (tw_distinct w) tx else Some tx.

Lemma fillCyclic_nil tgt tx t stg :
  tx_staging tx = {[t := stg]} → cyclic_of tx t = [] → fillCyclic tgt tx = tx.
Proof.
  intros Hs Hc. unfold fillCyclic. rewrite Hs, map_to_list_singleton. simpl.
  unfold fill_table. by rewrite decide_True.
Qed.

(** A phase writes the keys of its work and nothing else. *)
Lemma final_tx_frame cc w del fill tgt stg tx t k :
  (∀ k, k ∉ tw_distinct w → stg !! k = None) → del && fill = false →
  final_tx cc w del fill tgt stg = Some tx →
  commit tx tgt !! (t, k) = tgt !! (t, k) ∨ (t = tw_ref w ∧ k ∈ tw_distinct w).
Proof.
  intros Hn Hdf Hf. destruct (decide (t = tw_ref w ∧ k ∈ tw_distinct w)) as [?|Hout]; [by right|].
  left. unfold final_tx in Hf.
  assert (t = tw_ref w → stg !! k = None) as Hk by (intros ->; apply Hn; tauto).
  set (tx1 := stageUpsert _ _ _ _ _ _) in Hf.
  assert (visible tx1 tgt (t, k) = tgt !! (t, k)) as Hv1.
  { subst tx1. rewrite stageUpsert_visible, !visible_begin.
    case_decide; [|done]. by rewrite Hk. }
  destruct del, fill; simplify_eq/=.
  - rewrite lookup_commit, (deleteAbsent_visible tgt _ _ _ _ stg _ _ Hf)
      by (simpl; by rewrite lookup_insert_eq).
    by rewrite decide_False by tauto.
  - rewrite lookup_commit. destruct (decide (cyclic_of tx1 (tw_ref w) = [])) as [Hc|Hc].
    + by rewrite (fillCyclic_nil tgt tx1 (tw_ref w) stg).
    + rewrite (fillCyclic_visible tgt tx1 (tw_ref w) stg) by done.
      case_decide; [|done]. by rewrite Hk.
  - by rewrite lookup_commit.
Qed.

Definition phase_post (v : astate) (w : tableWork) (cc : gmap TableRef (list string))
    (del fill : bool) (r : option error) (v' : astate) : Prop :=
  a_tx v' !! c = None ∧ evolve v v' ∧ (∀ t, t ≠ tw_ref w → same_tgt_on t v v') ∧
  (r = None → ∃ stg tx, rows_ok v' w stg ∧ final_tx cc w del fill (a_tgt v) stg = Some tx ∧
     a_tgt v' = commit tx (a_tgt v)).

(** The state reached inside a transaction: nothing is published yet. *)
Definition in_tx (v v' : astate) : Prop := Inv v' ∧ evolve v v' ∧ a_tgt v' = a_tgt v.

Lemma in_tx_step v v1 v2 : in_tx v v1 → Inv v2 → evolve v1 v2 → a_tgt v2 = a_tgt v1 → in_tx v v2.
Proof.
  intros (HI & He & Ht) HI2 He2 Ht2. split_and!; [done|by apply (evolve_trans T _ v1)|congruence].
Qed.

(** The commit of a phase, with the deferred rollback when it fails. *)
Lemma phase_commit v v1 w cc del fill stg tx :
  in_tx v v1 → item_ok v1 w → rows_ok v1 w stg → del && fill = false →
  final_tx cc w del fill (a_tgt v) stg = Some tx → a_tx v1 !! c = Some tx →
  safe contract requires Inv (try_call c Commit (Ret None))
    (λ r, safe contract requires Inv (rollback_if c r) (phase_post v w cc del fill)) v1.
Proof.
  intros (HI & He & Ht) Hw Hr Hdf Hf Hx.
  assert (∀ t k, commit tx (a_tgt v1) !! (t, k) = a_tgt v1 !! (t, k) ∨ dirty v1 t k) as Hd.
  { intros t k. rewrite Ht.
    destruct (final_tx_frame _ _ _ _ _ _ _ t k (proj2 Hr) Hdf Hf) as [?|[-> Hk]]; [by left|].
    right. destruct (io_dirty _ _ Hw k Hk) as (i & _ & Hi). by exists i. }
  assert (∀ v2, a_tgt v2 = a_tgt v1 ∨ a_tgt v2 = commit tx (a_tgt v1) →
    ∀ t, t ≠ tw_ref w → same_tgt_on t v v2) as Hoth.
  { intros v2 Hv2 t Hne k. destruct Hv2 as [-> | ->]; rewrite Ht; [done|].
    destruct (final_tx_frame _ _ _ _ _ _ _ t k (proj2 Hr) Hdf Hf) as [?|[-> _]]; done. }
  unfold try_call. apply safe_bind. apply safe_call; [done|done|].
  intros r v2 Hc. destruct (commit_step _ _ _ _ HI Hx Hd Hc) as (HI2 & He2 & Ht2 & Hr2).
  split; [done|]. assert (evolve v v2) as Hev by by apply (evolve_trans T _ v1).
  destruct r as [e|u]; apply safe_ret; [done| |done|].
  - apply safe_bind. apply safe_quiet; [done..|]. intros r v3 Hc3 HI3 He3 Ht3.
    apply safe_ret; [done|]. split_and!.
    + by eapply rollback_step.
    + by apply (evolve_trans T _ v2).
    + apply Hoth. by rewrite Ht3.
    + done.
  - destruct Hr2 as [Ht2' Hx2]. apply safe_ret; [done|]. split_and!; [done|done|by apply Hoth|].
    intros _. exists stg, tx. split_and!; [by apply (rows_ok_evolve v1)|done|congruence].
Qed.

Lemma phase_abort v v1 w cc del fill e :
  in_tx v v1 → safe contract requires Inv (rollback_if c (Some e)) (phase_post v w cc del fill) v1.
Proof.
  intros Hin. apply safe_bind. apply safe_quiet; [done|apply Hin|].
  intros r v2 Hc HI He Ht. destruct (in_tx_step _ _ _ Hin HI He Ht) as (_ & Hev & Htg).
  apply safe_ret; [done|]. split_and!; [by eapply rollback_step|done| |done].
  intros t _ k. by rewrite Htg.
Qed.

(** A statement inside the transaction: it fails and the phase aborts, or the
    transaction moves on. *)
Lemma phase_stmt o f tx v v1 w cc del fill (k : prog (option error)) :
  (∀ v v' r, effect c o v r v' → tx_effect c (f v) v v' (match r with inl e => inl e | inr _ => inr tt end)) →
  (∀ v v', a_tgt v = a_tgt v' → f v = f v') →
  quiet o → in_tx v v1 → a_tx v1 !! c = Some tx →
  (∀ tx' v2, in_tx v v2 → evolve v1 v2 → f v1 tx = Some tx' → a_tx v2 !! c = Some tx' →
     safe contract requires Inv k (λ r, safe contract requires Inv (rollback_if c r) (phase_post v w cc del fill)) v2) →
  safe contract requires Inv (try_call c o k)
    (λ r, safe contract requires Inv (rollback_if c r) (phase_post v w cc del fill)) v1.
Proof.
  intros Hf Hext Hq Hin Hx Hk. unfold try_call. apply safe_bind.
  apply safe_quiet; [done|apply Hin|]. intros r v2 Hc HI He Ht.
  assert (in_tx v v2) as Hin2 by by apply (in_tx_step v v1).
  pose proof (quiet_tx_step _ _ _ _ _ _ Hf Hext Hq (proj1 Hin) Hx Hc) as Hr.
  destruct r as [e|u].
  - apply safe_ret; [done|]. by apply phase_abort.
  - destruct Hr as (tx' & Hfx & Hx2). by eapply Hk.
Qed.

Lemma phase_spec cyclic tables w del fill v :
  Inv v → item_ok v w → a_tx v !! c = None → del && fill = false →
  safe contract requires Inv (phase cyclic tables w del fill)
    (phase_post v w (if cyclic then cyc_of tables else ∅) del fill) v.
Proof.
  intros HI Hw Hx Hdf. set (cc := if cyclic then cyc_of tables else ∅).
  unfold phase. unfold try_call at 1. apply safe_bind. apply safe_quiet; [done..|].
  intros r v1 Hc HI1 He1 Ht1. pose proof (begin_step _ _ _ _ _ Hx Hc) as Hb.
  destruct r as [e|u].
  { apply safe_ret; [done|]. split_and!; [done|done| |done]. intros t _ k. by rewrite Ht1. }
  fold cc in Hb. apply safe_bind. unfold try_prog, pipeStageUpsert.
  do 2 apply safe_bind.
  assert (in_tx v v1) as Hin1 by done.
  apply safe_quiet; [done..|]. intros rd v2 Hc2 HI2 He2 Ht2.
  assert (item_ok v1 w) as Hw1 by (eapply item_ok_evolve; [apply He1|done]).
  pose proof (reread_step _ _ _ _ HI1 Hw1 Hc2) as Hrd.
  assert (in_tx v v2) as Hin2 by by apply (in_tx_step v v1).
  assert (item_ok v2 w) as Hw2 by (eapply item_ok_evolve; [apply He2|done]).
  assert (a_tx v2 !! c = Some (begin_tx cc)) as Hx2.
  { destruct Hc2 as (u1 & u2 & R1 & [[-> ->]|(_ & _ & ->)] & R2);
      by rewrite (rely_tx _ _ R2), (rely_tx _ _ R1). }
  apply safe_bind. apply safe_quiet; [done..|]. intros st v3 Hc3 HI3 He3 Ht3.
  assert (in_tx v v3) as Hin3 by by apply (in_tx_step v v2).
  destruct rd as [e|stg].
  { apply safe_ret; [done|]. apply safe_ret; [done|]. by apply phase_abort. }
  pose proof (quiet_tx_step (StageUpsert (tw_ref w) (tw_cols w) (inr stg))
    (λ v tx, Some (stageUpsert dflt_of (a_tgt v) (tw_ref w) (tw_cols w) stg tx))
    (begin_tx cc) v2 st v3) as Hst.
  destruct st as [e|[]].
  { apply safe_ret; [done|]. apply safe_ret; [done|]. by apply phase_abort. }
  destruct Hst as (tx1 & [= <-] & Hx3); [|by intros ?? ->|done..|].
  { intros x x' r (stg' & [= <-] & He). by destruct r as [?|[]]. }
  apply safe_ret; [done|].
  assert (item_ok v3 w) as Hw3 by (eapply item_ok_evolve; [apply He3|done]).
  assert (rows_ok v3 w stg) as Hr3 by by apply (rows_ok_evolve v2).
  destruct Hin2 as (_ & _ & Htg2). rewrite Htg2 in Hx3.
  destruct del, fill; [done|..].
  - eapply (phase_stmt _ (λ _, deleteAbsent (tw_ref w) (tw_distinct w)));
      [by intros ?? [?|[]] ?|done|done|done|exact Hx3|].
    intros tx' v4 Hin4 He4 Hf Hx4. eapply phase_commit; [done| | |done|exact Hf|done].
    + eapply item_ok_evolve; [apply He4|done].
    + by apply (rows_ok_evolve v3).
  - eapply (phase_stmt _ (λ v tx, Some (fillCyclic (a_tgt v) tx)));
      [by intros ?? [?|[]] ?|by intros ?? ->|done|done|exact Hx3|].
    intros tx' v4 Hin4 He4 [= <-] Hx4. destruct Hin3 as (_ & _ & Htg3). rewrite Htg3 in Hx4.
    eapply phase_commit; [done| | |done|done|exact Hx4].
    + eapply item_ok_evolve; [apply He4|done].
    + by apply (rows_ok_evolve v3).
  - by eapply phase_commit.
Qed.

(** ** What a completed phase achieves *)

Lemma phase_del_landed v w cc v' :
  item_ok v' w → default [] (cc !! tw_ref w) = [] →
  phase_post v w cc true false None v' → landed v' w.
Proof.
  intros Hw Hc (_ & _ & _ & Hpost). destruct (Hpost eq_refl) as (stg & tx & [Hr Hn] & Hf & Ht).
  intros k Hk. destruct (Hr k Hk) as [Hs|Hd]; [left|by right].
  unfold synced. rewrite Ht, <-(io_cols _ _ Hw).
  rewrite (stage_delete_commit _ _ _ _ _ stg _ _ _ _ Hf), decide_True by done.
  rewrite <-Hs. destruct (stg !! k) as [r|] eqn:E.
  - simpl. unfold upsert_cols, cyclic_of. simpl. rewrite Hc. simpl.
    rewrite proj_set_cols. symmetry in Hs. apply fmap_Some in Hs as (r0 & _ & ->).
    by rewrite proj_proj.
  - by rewrite decide_True by done.
Qed.

Lemma phase_del_absent v w cc v' :
  phase_post v w cc true false None v' → absent_ok v' w.
Proof.
  intros (_ & _ & _ & Hpost). destruct (Hpost eq_refl) as (stg & tx & [Hr Hn] & Hf & Ht).
  intros k Hk. destruct (Hr k Hk) as [Hs|Hd]; [left|by right].
  intros Hnone. rewrite Hnone in Hs. rewrite Ht.
  rewrite (stage_delete_commit _ _ _ _ _ stg _ _ _ _ Hf), decide_True by done.
  rewrite Hs. simpl. by rewrite decide_True by done.
Qed.

Lemma phase_fill_landed v w cc nc v' :
  Inv v → item_ok v w → absent_ok v w → cc !! tw_ref w = Some nc → nc ≠ [] →
  phase_post v w cc false true None v' → landed v' w.
Proof.
  intros HI Hw Ha Hc Hnc (_ & Hev & _ & Hpost).
  destruct (Hpost eq_refl) as (stg & tx & [Hr Hn] & Hf & Ht). simpl in Hf. injection Hf as <-.
  assert (about v' w (λ k, a_src v' !! (tw_ref w, k) = None → a_tgt v !! (tw_ref w, k) = None)) as Ha'.
  { eapply about_evolve; [exact HI|apply Hev|done| |exact Ha]. by intros k ->. }
  intros k Hk. destruct (Hr k Hk) as [Hs|Hd]; [|by right].
  destruct (Ha' k Hk) as [Hab|Hd]; [left|by right].
  unfold synced. rewrite Ht, <-(io_cols _ _ Hw).
  rewrite (stage_fill_commit _ _ _ _ stg _ nc), decide_True by done.
  rewrite <-Hs. destruct (stg !! k) as [r|] eqn:E.
  - symmetry in Hs. apply fmap_Some in Hs as (r0 & _ & ->). by rewrite proj_proj.
  - symmetry in Hs. apply fmap_None in Hs. by rewrite (Hab Hs).
Qed.

(** ** Consumption *)

Lemma consume_Inv v w :
  Inv v → item_ok v w → landed v w →
  Inv (set_pend v (consume (tw_ref w) (tw_ids w) (a_pend v))).
Proof.
  intros [HI Hse] Hw Hl. split; simpl.
  - intros t k HT. destruct (HI t k HT) as [Hs|(i & Hi)]; [by left|].
    destruct (decide (t = tw_ref w ∧ i ∈ tw_ids w)) as [[-> Hin]|Hout].
    + assert (k ∈ tw_distinct w) as Hk by by apply (io_keys _ _ Hw i).
      destruct (Hl k Hk) as [Hs|(j & Hj & Hp)]; [by left|]. right. exists j. simpl.
      by rewrite lookup_consume, decide_False by tauto.
    + right. exists i. simpl. by rewrite lookup_consume, decide_False by tauto.
  - intros t i k. rewrite lookup_consume. case_decide; [done|]. apply Hse.
Qed.

(** [ConfirmConsumed] after the table has landed. *)
Lemma confirm_ok v w r v' :
  Inv v → item_ok v w → landed v w →
  contract c (ConfirmConsumed (tw_ref w) sync_target (tw_ids w)) v r v' →
  Inv v' ∧ (∀ t, t ≠ tw_ref w → evolve_on t v v') ∧ a_tgt v' = a_tgt v ∧ a_tx v' = a_tx v.
Proof.
  intros HI Hw Hl (v1 & v2 & R1 & He & R2).
  assert (Inv v1) as HI1 by by eapply rely_Inv.
  assert (evolve v v1) as E1 by by apply rely_evolve.
  assert (Inv v2 ∧ (∀ t, t ≠ tw_ref w → evolve_on t v1 v2) ∧ a_tgt v2 = a_tgt v1 ∧ a_tx v2 = a_tx v1)
    as (HI2 & E2 & Ht2 & Hx2).
  { destruct He as [He|(_ & _ & ->)]; [|split_and!; [done| |done..]; by intros; apply evolve_refl].
    simpl in He. rewrite decide_True in He by done. subst v2. split_and!; [| |done..].
    - apply consume_Inv; [done|by eapply item_ok_evolve|].
      eapply landed_evolve; [exact HI|apply E1| |done..]. intros k. by rewrite (rely_tgt _ _ R1).
    - intros t Hne. split; simpl; [done| |by left].
      intros i _. by rewrite lookup_consume, decide_False by tauto. }
  split_and!.
  - by eapply rely_Inv.
  - intros t Hne. apply (evolve_on_trans T _ _ v1); [done|apply E1|].
    apply (evolve_on_trans T _ _ v2); [done|by apply E2|by apply rely_evolve].
  - by rewrite (rely_tgt _ _ R2), Ht2, (rely_tgt _ _ R1).
  - by rewrite (rely_tx _ _ R2), Hx2, (rely_tx _ _ R1).
Qed.

(** ** Gathering the work of a pass *)

(** The calls that also leave the transactions alone. *)
Definition plain (o : call) : Prop :=
  match o with
  | ReadDirtyKeys _ _ _ | Introspect _ | RereadCurrent _ _ | CyclicCols _ | CtxErr | After _ => True
  | _ => False
  end.

Lemma plain_quiet o : plain o → quiet o.
Proof. by destruct o. Qed.

Lemma plain_tx o v r v' : plain o → contract c o v r v' → a_tx v' = a_tx v.
Proof.
  intros Ho (v1 & v2 & R1 & He & R2). rewrite (rely_tx _ _ R2), <-(rely_tx _ _ R1).
  destruct He as [He|(_ & _ & ->)]; [|done].
  destruct o; simpl in *; try done; naive_solver.
Qed.

(** Between passes: the invariant, and no transaction open on [c]. *)
Definition idle (v : astate) : Prop := Inv v ∧ a_tx v !! c = None.

Lemma safe_plain o Q v :
  plain o → idle v →
  (∀ r v', contract c o v r v' → idle v' → evolve v v' → a_tgt v' = a_tgt v → Q r v') →
  safe contract requires Inv (do_call c o) Q v.
Proof.
  intros Ho [HI Hx] HQ. apply safe_quiet; [by apply plain_quiet|done|].
  intros r v' Hc HI' He Ht. apply HQ; [done| |done..]. split; [done|].
  by rewrite (plain_tx _ _ _ _ Ho Hc).
Qed.

Lemma find_columns_spec ref tables cols :
  (∀ tbl, tbl ∈ tables → columns_of tbl = cols_of (tbl_Ref tbl)) →
  find_columns ref tables = Some cols → cols = cols_of ref.
Proof.
  intros Ht. induction tables as [|tbl tables IH]; simpl; [done|]. case_decide.
  - intros [= <-]. subst. apply Ht. by left.
  - apply IH. intros ??. apply Ht. by right.
Qed.

Lemma transportColumns_ok ref v Q :
  idle v →
  (∀ r v', idle v' → evolve v v' → (∀ cols, r = inr cols → cols = cols_of ref) → Q r v') →
  safe contract requires Inv (transportColumns c ref) Q v.
Proof.
  intros Hid HQ. apply safe_bind. apply safe_plain; [done..|]. intros r v' Hc Hid' He _.
  apply safe_ret; [apply Hid'|]. apply HQ; [done..|].
  destruct Hc as (v1 & v2 & R1 & [(_ & tabs & -> & [Htabs _ _ _])|(_ & [e ->] & _)] & R2); [|done].
  destruct (find_columns ref tabs) as [cs|] eqn:E; [|done].
  intros cols [= <-]. exact (find_columns_spec ref tabs cs Htabs E).
Qed.

(** The keys of a batch as it was read. *)
Definition batch_ok (v : astate) (t : TableRef) (ds : list DirtyKey) : Prop :=
  ∀ d, d ∈ ds → a_pend v !! (t, dk_DeltaID d) = Some (dk_Key d).

Lemma batch_ok_evolve v v' t ds : Inv v → evolve v v' → batch_ok v t ds → batch_ok v' t ds.
Proof.
  intros HI He Hb d Hd. rewrite (ev_pend _ _ _ (He t)); [by apply Hb|].
  apply Hb in Hd. by apply (inv_seen _ _ HI) in Hd as [].
Qed.

Lemma read_step v t max r v' :
  Inv v → contract c (ReadDirtyKeys t sync_target max) v r v' →
  match r with inl _ => True | inr ds => batch_ok v' t ds end.
Proof.
  intros HI (v1 & v2 & R1 & [(-> & ds & -> & Hds)|(_ & [e ->] & ->)] & R2); [|done].
  apply (batch_ok_evolve v1); [by apply (rely_Inv v)|by apply rely_evolve|]. exact (Hds eq_refl).
Qed.

Lemma batch_item v t ds :
  Inv v → batch_ok v t ds →
  item_ok v (mkWork t (coalesce ds).1 (coalesce ds).2 (cols_of t)).
Proof.
  intros HI Hb.
  assert (∀ d, d ∈ ds → key_ok t (dk_Key d)) as Hok.
  { intros d Hd%Hb. by apply (inv_seen _ _ HI) in Hd as []. }
  split; simpl.
  - intros i (d & -> & Hd)%list_elem_of_fmap. apply Hb in Hd. by apply (inv_seen _ _ HI) in Hd as [].
  - intros i k (d & -> & Hd)%list_elem_of_fmap Hp. pose proof (Hb d Hd) as Hp'.
    rewrite Hp in Hp'. injection Hp' as ->. apply (coalesce_loop_complete t); [done..|set_solver].
  - intros k (d & Hd & <- & _)%coalesce_loop_sound. exists (dk_DeltaID d).
    split; [by apply list_elem_of_fmap_2|]. by apply Hb.
  - done.
Qed.

Definition work_ok (v : astate) (work : list tableWork) : Prop :=
  Forall (item_ok v) work ∧ NoDup (tw_ref <$> work).

Lemma work_ok_evolve v v' work : evolve v v' → work_ok v work → work_ok v' work.
Proof.
  intros He [Hw Hnd]. split; [|done]. eapply Forall_impl; [exact Hw|].
  intros w. by apply item_ok_evolve.
Qed.

Lemma gatherWork_ok tables batch v Q :
  idle v → NoDup tables →
  (∀ r v', idle v' →
     match r with inl _ => True | inr (work, _) => work_ok v' work end → Q r v') →
  safe contract requires Inv (gatherWork c tables sync_target batch) Q v.
Proof.
  intros Hid Hnd HQ. unfold gatherWork.
  apply (safe_for_each _ _ _ _ (λ rest (s : list tableWork * nat) v, idle v ∧
    Forall (item_ok v) s.1 ∧ NoDup ((tw_ref <$> s.1) ++ rest))); [| |apply Hid|done].
  2: { intros [work total] w _ (Hw & Hf & Hn). apply HQ; [done|].
       simpl in *. rewrite app_nil_r in Hn. done. }
  clear v Hid. intros t rest [work total] v _ (Hid & Hf & Hn). simpl in Hf, Hn. unfold gather_table.
  apply safe_bind. apply safe_plain; [done..|]. intros r v1 Hc Hid1 He1 _.
  pose proof (read_step _ _ _ _ _ (proj1 Hid) Hc) as Hb.
  assert (Forall (item_ok v1) work) as Hf1.
  { eapply Forall_impl; [exact Hf|]. intros w. by apply item_ok_evolve. }
  destruct r as [e|ds]; [by apply safe_ret; [apply Hid1|apply HQ]|].
  destruct ds as [|d ds'] eqn:Hds.
  { apply safe_ret; [apply Hid1|]. split_and!; [done..|]. simpl.
    apply (sublist_NoDup _ _ Hn). apply sublist_app; [done|]. by constructor. }
  rewrite <-Hds in *. clear Hds d ds'.
  apply safe_bind. apply transportColumns_ok; [done|]. intros r v2 Hid2 He2 Hcols.
  destruct r as [e|cols]; [by apply safe_ret; [apply Hid2|apply HQ]|].
  rewrite (Hcols cols eq_refl). destruct (coalesce ds) as [distinct ids] eqn:Hco.
  apply safe_ret; [apply Hid2|]. split_and!; [done| |]; simpl.
  - apply Forall_app. split.
    + eapply Forall_impl; [exact Hf1|]. intros w. by apply item_ok_evolve.
    + apply Forall_singleton. pose proof (batch_item v2 t ds (proj1 Hid2)) as Hi.
      rewrite Hco in Hi. apply Hi. by apply (batch_ok_evolve v1); [apply Hid1|..].
  - by rewrite fmap_app, <-app_assoc.
Qed.

(** ** The acyclic drain *)

Lemma phase_idle v w cc del fill r v' :
  Inv v' → phase_post v w cc del fill r v' → idle v' ∧ evolve v v'.
Proof. intros HI (Hx & He & _). done. Qed.

Lemma upsert_loop_ok work v Q :
  idle v → work_ok v work →
  (∀ r v', idle v' →
     match r with inl _ => True | inr (acc, _) => work_ok v' (fst <$> acc) end → Q r v') →
  safe contract requires Inv (for_each work (upsert_step c) ([], None)) Q v.
Proof.
  intros Hid Hw HQ.
  apply (safe_for_each _ _ _ _ (λ rest (s : list (tableWork * bool) * option error) v,
    idle v ∧ work_ok v ((fst <$> s.1) ++ rest))); [| |apply Hid|done].
  2: { intros [acc tr] v' _ [Hid' Hw']. rewrite app_nil_r in Hw'. by apply HQ. }
  clear v Hid Hw. intros w rest [acc tr] v _ [Hid Hw]. simpl in Hw.
  assert (item_ok v w) as Hi.
  { destruct Hw as [Hw _]. rewrite Forall_app, Forall_cons in Hw. tauto. }
  unfold upsert_step. apply safe_bind.
  eapply safe_mono; [|apply (phase_spec false [tw_ref w] w false false v); [apply Hid|done|apply Hid|done]].
  intros r v' HI' Hp. destruct (phase_idle _ _ _ _ _ _ _ HI' Hp) as [Hid' He].
  apply safe_ret; [done|].
  destruct (phase_outcome _ r tr) as [e|[ok tr']]; [by apply HQ|].
  split; [done|]. simpl. rewrite fmap_app, <-app_assoc. by apply (work_ok_evolve v).
Qed.

(** Work on the other tables is not disturbed by one table's consumption. *)
Lemma items_confirm v v' w ws :
  (∀ t, t ≠ tw_ref w → evolve_on t v v') → tw_ref w ∉ tw_ref <$> ws →
  Forall (item_ok v) ws → Forall (item_ok v') ws.
Proof.
  intros He Hn. rewrite !Forall_forall. intros Hw w' Hin. eapply item_ok_evolve; [|by apply Hw].
  apply He. intros Heq. apply Hn. rewrite <-Heq. by apply list_elem_of_fmap_2.
Qed.

Lemma delete_loop_ok (ws : list (tableWork * bool)) total tr v Q :
  idle v → work_ok v (fst <$> ws) →
  (∀ r v', idle v' → Q r v') →
  safe contract requires Inv (for_each ws (delete_step c sync_target) (total, tr)) Q v.
Proof.
  intros Hid Hw HQ.
  apply (safe_for_each _ _ _ _ (λ rest (_ : nat * option error) v,
    idle v ∧ work_ok v (fst <$> rest))); [|by intros ??? []; apply HQ|apply Hid|done].
  clear v Hid Hw. intros [w up] rest [tot tr'] v _ [Hid [Hw Hnd]].
  rewrite fmap_cons in Hw. rewrite !fmap_cons in Hnd.
  apply Forall_cons in Hw as [Hi Hw]. apply NoDup_cons in Hnd as [Hn Hnd].
  unfold delete_step. destruct up; cbn [negb]; [|by apply safe_ret; [apply Hid|]].
  apply safe_bind.
  eapply safe_mono; [|apply (phase_spec false [tw_ref w] w true false v); [apply Hid|done|apply Hid|done]].
  intros r v1 HI1 Hp. destruct (phase_idle _ _ _ _ _ _ _ HI1 Hp) as [Hid1 He1].
  assert (work_ok v1 (fst <$> rest)) as Hw1 by by apply (work_ok_evolve v).
  destruct r as [e|]; unfold phase_outcome.
  { destruct (IsTransientConstraint e); (apply safe_ret; [done|]); [done|by apply HQ]. }
  assert (item_ok v1 w) as Hi1 by (eapply item_ok_evolve; [apply He1|done]).
  assert (landed v1 w) as Hl by (by eapply phase_del_landed; [done| |exact Hp]).
  apply safe_bind. apply safe_call; [done|split; [done|apply Hi1]|]. intros r v2 Hc.
  destruct (confirm_ok _ _ _ _ HI1 Hi1 Hl Hc) as (HI2 & He2 & _ & Hx2).
  assert (idle v2) as Hid2 by (split; [done|]; rewrite Hx2; apply Hid1).
  split; [done|]. destruct r as [e|u]; (apply safe_ret; [done|]); [by apply HQ|].
  split; [done|]. split; [|done]. apply (items_confirm v1 v2 w); [done..|apply Hw1].
Qed.

Lemma reverse_work_ok v (ws : list (tableWork * bool)) :
  work_ok v (fst <$> ws) → work_ok v (fst <$> reverse ws).
Proof. intros [Hw Hnd]. unfold work_ok. by rewrite (reverse_Permutation ws). Qed.

Lemma drainAcyclicSeq_ok work v :
  idle v → work_ok v work →
  safe contract requires Inv (drainAcyclicSeq c work sync_target) (λ _, idle) v.
Proof.
  intros Hid Hw. unfold drainAcyclicSeq. apply safe_bind.
  apply upsert_loop_ok; [done..|]. intros r v1 Hid1 Hr.
  destruct r as [res|[acc tr]]; [by apply safe_ret; [apply Hid1|]|].
  apply safe_bind. apply delete_loop_ok; [done|by apply reverse_work_ok|].
  intros [r|r] v2 Hid2; (apply safe_ret; [apply Hid2|done]).
Qed.

(** ** The cyclic NULL-then-fill drain *)

Section nullfill.
Context (tables : list TableRef).
Abbreviation cc := (cyc_of tables).

(** Before the fill phase: what a committed delete phase is known to have done. *)
Definition cw_mid (v : astate) (x : cyclicWork) : Prop :=
  item_ok v (cw_work x) ∧
  (cw_deleted x = true → absent_ok v (cw_work x) ∧
     (default [] (cc !! tw_ref (cw_work x)) = [] → landed v (cw_work x))).

(** After it: a table with all three flags has landed. *)
Definition cw_done (v : astate) (x : cyclicWork) : Prop :=
  item_ok v (cw_work x) ∧
  (cw_upserted x && cw_deleted x && cw_filled x = true → landed v (cw_work x)).

Definition cw_ref (x : cyclicWork) : TableRef := tw_ref (cw_work x).

Lemma cw_mid_other v v' x :
  Inv v → evolve_on (cw_ref x) v v' → same_tgt_on (cw_ref x) v v' → cw_mid v x → cw_mid v' x.
Proof.
  intros HI He Ht [Hi Hd]. split; [by eapply item_ok_evolve|]. intros Hx.
  destruct (Hd Hx) as [Ha Hl]. split.
  - by apply (absent_ok_evolve v).
  - intros Hc. by apply (landed_evolve v); auto.
Qed.

Lemma cw_done_other v v' x :
  Inv v → evolve_on (cw_ref x) v v' → same_tgt_on (cw_ref x) v v' → cw_done v x → cw_done v' x.
Proof.
  intros HI He Ht [Hi Hd]. split; [by eapply item_ok_evolve|]. intros Hx.
  apply (landed_evolve v); auto.
Qed.

(** All entries but the current one survive its phase. *)
Lemma others_phase (P : astate → cyclicWork → Prop) v w fcc del fill r v' xs :
  (∀ x, Inv v → evolve_on (cw_ref x) v v' → same_tgt_on (cw_ref x) v v' → P v x → P v' x) →
  Inv v → phase_post v w fcc del fill r v' → tw_ref w ∉ cw_ref <$> xs →
  Forall (P v) xs → Forall (P v') xs.
Proof.
  intros HP HI (_ & He & Ht & _) Hn. rewrite !Forall_forall. intros Hx x Hin.
  apply HP; [done|apply He| |by apply Hx]. apply Ht. intros Heq. apply Hn.
  rewrite <-Heq. by apply (list_elem_of_fmap_2 cw_ref).
Qed.

Lemma cyclic_upsert_loop_ok work v Q :
  idle v → work_ok v work →
  (∀ r v', idle v' →
     match r with
     | inl _ => True
     | inr (acc, _) => Forall (cw_mid v') acc ∧ NoDup (cw_ref <$> acc)
     end → Q r v') →
  safe contract requires Inv (for_each work (cyclic_upsert_step c tables) ([], None)) Q v.
Proof.
  intros Hid Hw HQ.
  apply (safe_for_each _ _ _ _ (λ rest (s : list cyclicWork * option error) v,
    idle v ∧ work_ok v ((cw_work <$> s.1) ++ rest) ∧ Forall (λ x, cw_deleted x = false) s.1));
    [| |apply Hid|done].
  2: { intros [acc tr] v' _ (Hid' & [Hw' Hn'] & Hf). simpl in Hf. rewrite app_nil_r in Hw', Hn'.
       apply HQ; [done|]. split; [|by rewrite <-list_fmap_compose in Hn'].
       rewrite Forall_fmap in Hw'. rewrite Forall_forall in *. intros x Hx.
       split; [by apply Hw'|]. by rewrite (Hf x Hx). }
  clear v Hid Hw. intros w rest [acc tr] v _ (Hid & Hw & Hf). simpl in Hw, Hf.
  assert (item_ok v w) as Hi.
  { destruct Hw as [Hw _]. rewrite Forall_app, Forall_cons in Hw. tauto. }
  unfold cyclic_upsert_step. apply safe_bind.
  eapply safe_mono; [|apply (phase_spec true tables w false false v); [apply Hid|done|apply Hid|done]].
  intros r v' HI' Hp. destruct (phase_idle _ _ _ _ _ _ _ HI' Hp) as [Hid' He].
  apply safe_ret; [done|].
  destruct (phase_outcome _ r tr) as [e|[ok tr']]; [by apply HQ|].
  split_and!; [done| |]; simpl.
  - rewrite fmap_app, <-app_assoc. by apply (work_ok_evolve v).
  - by apply Forall_app; split; [|apply Forall_singleton].
Qed.

Lemma cyclic_delete_loop_ok xs tr v Q :
  idle v → Forall (cw_mid v) xs → NoDup (cw_ref <$> xs) →
  (∀ r v', idle v' →
     match r with
     | inl _ => True
     | inr (acc, _) => Forall (cw_mid v') acc ∧ NoDup (cw_ref <$> acc)
     end → Q r v') →
  safe contract requires Inv (for_each xs (cyclic_delete_step c tables) ([], tr)) Q v.
Proof.
  intros Hid Hw Hn HQ.
  apply (safe_for_each _ _ _ _ (λ rest (s : list cyclicWork * option error) v,
    idle v ∧ Forall (cw_mid v) (rest ++ s.1) ∧ NoDup (cw_ref <$> (rest ++ s.1))));
    [|by intros [acc tr'] v' _ (? & ? & ?); apply HQ|apply Hid|simpl; by rewrite app_nil_r].
  clear v Hid Hw Hn. intros x rest [acc tr'] v _ (Hid & Hw & Hn). cbn [fst] in Hw, Hn.
  unfold cyclic_delete_step. destruct (cw_upserted x) eqn:Hup; cbn [negb].
  2: { apply safe_ret; [apply Hid|]. split; [done|].
       rewrite <-(Permutation_middle rest acc x). by split. }
  simpl in Hw, Hn. apply Forall_cons in Hw as [[Hi _] Hw]. apply NoDup_cons in Hn as [Hx Hn].
  apply safe_bind.
  eapply safe_mono; [|apply (phase_spec true tables (cw_work x) true false v);
    [apply Hid|done|apply Hid|done]].
  intros r v' HI' Hp. destruct (phase_idle _ _ _ _ _ _ _ HI' Hp) as [Hid' He].
  apply safe_ret; [done|].
  assert (Forall (cw_mid v') (rest ++ acc)) as Hw'.
  { eapply (others_phase cw_mid); [|apply Hid|exact Hp|exact Hx|done]. apply cw_mid_other. }
  assert (item_ok v' (cw_work x)) as Hi' by (eapply item_ok_evolve; [apply He|done]).
  assert (∀ ok, (ok = true → r = None) → cw_mid v' (mkCW (cw_work x) true ok false)) as Hmid.
  { intros ok Hok. split; [done|]. simpl. intros Ht. specialize (Hok Ht). subst r. split.
    - by eapply phase_del_absent.
    - intros Hc. by eapply phase_del_landed. }
  assert (∀ ok, (ok = true → r = None) → idle v' ∧
      Forall (cw_mid v') (rest ++ mkCW (cw_work x) true ok false :: acc) ∧
      NoDup (cw_ref <$> (rest ++ mkCW (cw_work x) true ok false :: acc))) as Hgoal.
  { intros ok Hok. split; [done|]. rewrite <-(Permutation_middle rest acc).
    split; [constructor; [by apply Hmid|done]|]. simpl. by constructor. }
  destruct r as [e|]; unfold phase_outcome; [destruct (IsTransientConstraint e)|].
  - by apply Hgoal.
  - by apply HQ.
  - by apply Hgoal.
Qed.

Lemma cyclic_fill_loop_ok xs tr v Q :
  idle v → Forall (cw_mid v) xs → NoDup (cw_ref <$> xs) →
  (∀ r v', idle v' →
     match r with
     | inl _ => True
     | inr (acc, _) => Forall (cw_done v') acc ∧ NoDup (cw_ref <$> acc)
     end → Q r v') →
  safe contract requires Inv (for_each xs (cyclic_fill_step c tables cc) ([], tr)) Q v.
Proof.
  intros Hid Hw Hn HQ.
  apply (safe_for_each _ _ _ _ (λ rest (s : list cyclicWork * option error) v,
    idle v ∧ Forall (cw_mid v) rest ∧ Forall (cw_done v) s.1 ∧
    NoDup (cw_ref <$> (s.1 ++ rest))));
    [|intros [acc tr'] v' _ (? & _ & ? & Hn'); rewrite app_nil_r in Hn'; by apply HQ
     |apply Hid|done].
  clear v Hid Hw Hn. intros x rest [acc tr'] v _ (Hid & Hw & Hd & Hn). cbn [fst] in Hd, Hn.
  apply Forall_cons in Hw as [[Hi Hm] Hw].
  rewrite <-(Permutation_middle acc rest x) in Hn. apply NoDup_cons in Hn as [Hx Hn].
  change (cw_ref x ∉ cw_ref <$> (acc ++ rest)) in Hx. change (NoDup (cw_ref <$> (acc ++ rest))) in Hn.
  assert (∀ v' up del fil, Forall (cw_mid v') rest → Forall (cw_done v') acc → idle v' →
      cw_done v' (mkCW (cw_work x) up del fil) →
      idle v' ∧ Forall (cw_mid v') rest ∧
      Forall (cw_done v') (acc ++ [mkCW (cw_work x) up del fil]) ∧
      NoDup (cw_ref <$> ((acc ++ [mkCW (cw_work x) up del fil]) ++ rest))) as Hgoal.
  { intros v' up del fil Hw' Hd' Hid' Hx'. split_and!; [done..| |].
    - by apply Forall_app; split; [|apply Forall_singleton].
    - rewrite <-app_assoc. simpl. rewrite <-(Permutation_middle acc rest). simpl.
      by constructor. }
  unfold cyclic_fill_step. destruct (decide _) as [Hnil|Hcols].
  { apply safe_ret; [apply Hid|]. apply Hgoal; [done..|]. split; [done|]. simpl.
    intros [[_ Hdel]%andb_true_iff _]%andb_true_iff. by apply Hm. }
  destruct (cw_upserted x && cw_deleted x) eqn:Hud; cbn [negb].
  2: { apply safe_ret; [apply Hid|]. destruct x as [w up del fil]. apply Hgoal; [done..|].
       split; [done|]. simpl in *. by rewrite Hud. }
  apply andb_true_iff in Hud as [Hup Hdel]. destruct (Hm Hdel) as [Habs _].
  rewrite fmap_app in Hx. apply not_elem_of_app in Hx as [Hxa Hxr].
  apply safe_bind.
  eapply safe_mono; [|apply (phase_spec true tables (cw_work x) false true v);
    [apply Hid|done|apply Hid|done]].
  intros r v' HI' Hp. destruct (phase_idle _ _ _ _ _ _ _ HI' Hp) as [Hid' He].
  apply safe_ret; [done|].
  assert (Forall (cw_mid v') rest) as Hw'.
  { eapply (others_phase cw_mid); [|apply Hid|exact Hp|exact Hxr|done]. apply cw_mid_other. }
  assert (Forall (cw_done v') acc) as Hd'.
  { eapply (others_phase cw_done); [|apply Hid|exact Hp|exact Hxa|done]. apply cw_done_other. }
  assert (∀ ok, (ok = true → r = None) →
    cw_done v' (mkCW (cw_work x) (cw_upserted x) (cw_deleted x) ok)) as Hdone.
  { intros ok Hok. split; [eapply item_ok_evolve; [apply He|done]|]. simpl.
    intros [_ Ht]%andb_true_iff. specialize (Hok Ht). subst r.
    destruct (cc !! tw_ref (cw_work x)) as [nc|] eqn:Hcc; [|done].
    by eapply phase_fill_landed; [apply Hid|..]. }
  destruct r as [e|]; unfold phase_outcome; [destruct (IsTransientConstraint e)|].
  - by apply Hgoal; [..|apply Hdone].
  - by apply HQ.
  - by apply Hgoal; [..|apply Hdone].
Qed.

Lemma cyclic_confirm_loop_ok xs v Q :
  idle v → Forall (cw_done v) xs → NoDup (cw_ref <$> xs) →
  (∀ r v', idle v' → Q r v') →
  safe contract requires Inv (for_each xs (cyclic_confirm_step c sync_target) 0) Q v.
Proof.
  intros Hid Hw Hn HQ.
  apply (safe_for_each _ _ _ _ (λ rest (_ : nat) v,
    idle v ∧ Forall (cw_done v) rest ∧ NoDup (cw_ref <$> rest)));
    [|by intros ??? [??]; apply HQ|apply Hid|done].
  clear v Hid Hw Hn. intros x rest total v _ (Hid & Hw & Hn).
  apply Forall_cons in Hw as [[Hi Hd] Hw]. rewrite fmap_cons in Hn.
  apply NoDup_cons in Hn as [Hx Hn].
  unfold cyclic_confirm_step. destruct (_ && _ && _) eqn:Hf; [|by apply safe_ret; [apply Hid|]].
  apply safe_bind. apply safe_call; [apply Hid|split; [done|apply Hi]|]. intros r v2 Hc.
  destruct (confirm_ok _ _ _ _ (proj1 Hid) Hi (Hd eq_refl) Hc) as (HI2 & He2 & Ht2 & Hx2).
  assert (idle v2) as Hid2 by (split; [done|]; rewrite Hx2; apply Hid).
  split; [done|]. destruct r as [e|u]; (apply safe_ret; [done|]); [by apply HQ|].
  split_and!; [done| |done]. rewrite Forall_forall in *. intros y Hy.
  eapply cw_done_other; [apply Hid| | |by apply Hw].
  - apply He2. intros Heq. apply Hx. change (cw_ref y = cw_ref x) in Heq. rewrite <-Heq.
    by apply (list_elem_of_fmap_2 cw_ref).
  - intros k. by rewrite Ht2.
Qed.

Lemma drainCyclicNullFillSeq_ok work v :
  idle v → work_ok v work →
  safe contract requires Inv (drainCyclicNullFillSeq c work tables sync_target cc) (λ _, idle) v.
Proof.
  intros Hid Hw. unfold drainCyclicNullFillSeq. apply safe_bind.
  apply cyclic_upsert_loop_ok; [done..|]. intros [res|[xs tr]] v1 Hid1 Hr;
    [by apply safe_ret; [apply Hid1|]|]. destruct Hr as [Hm Hn].
  apply safe_bind. apply cyclic_delete_loop_ok; [done|by rewrite (reverse_Permutation xs)..|].
  intros [res|[xs2 tr2]] v2 Hid2 Hr; [by apply safe_ret; [apply Hid2|]|]. destruct Hr as [Hm2 Hn2].
  apply safe_bind. apply cyclic_fill_loop_ok; [done..|].
  intros [res|[xs3 tr3]] v3 Hid3 Hr; [by apply safe_ret; [apply Hid3|]|]. destruct Hr as [Hm3 Hn3].
  apply safe_bind. apply cyclic_confirm_loop_ok; [done..|].
  intros [res|total] v4 Hid4; (apply safe_ret; [apply Hid4|done]).
Qed.
End nullfill.

(** ** The atomic pass *)

(** What the open transaction holds for one staged table; [del] once its
    absent keys have been deleted. *)
Definition tab_ok (v : astate) (tx : pgApplyTx) (del : bool) (w : tableWork) : Prop :=
  ∃ stg, tx_staging tx !! tw_ref w = Some stg ∧ rows_ok v w stg ∧
    ∀ k, visible tx (a_tgt v) (tw_ref w, k) =
      match stg !! k with
      | Some r => Some (set_cols (tw_cols w) r (default (dflt_of (tw_ref w)) (a_tgt v !! (tw_ref w, k))))
      | None => if del && bool_decide (k ∈ tw_distinct w) then None else a_tgt v !! (tw_ref w, k)
      end.

(** The transaction with the tables of [dels] staged and deleted, those of
    [ups] staged, and nothing else written. *)
Record atomic_ok (v : astate) (dels ups rest : list tableWork) (tx : pgApplyTx) : Prop := {
  ao_tx : a_tx v !! c = Some tx;
  ao_work : work_ok v (dels ++ ups ++ rest);
  ao_cyc : tx_cyclicCols tx = ∅;
  ao_del : Forall (tab_ok v tx true) dels;
  ao_up : Forall (tab_ok v tx false) ups;
  ao_else t k : t ∉ tw_ref <$> (dels ++ ups) → visible tx (a_tgt v) (t, k) = a_tgt v !! (t, k)
}.

Lemma tab_ok_evolve v v' tx del w :
  Inv v → evolve v v' → a_tgt v' = a_tgt v → item_ok v w → tab_ok v tx del w → tab_ok v' tx del w.
Proof.
  intros HI He Ht Hi (stg & Hs & Hr & Hv). exists stg. split; [done|].
  split; [by apply (rows_ok_evolve v)|]. by rewrite Ht.
Qed.

(** Writing another table leaves a staged table as it is. *)
Lemma tab_ok_other v tx tx' del w t :
  tw_ref w ≠ t → tx_staging tx' !! tw_ref w = tx_staging tx !! tw_ref w →
  (∀ k, visible tx' (a_tgt v) (tw_ref w, k) = visible tx (a_tgt v) (tw_ref w, k)) →
  tab_ok v tx del w → tab_ok v tx' del w.
Proof.
  intros Hne Hs Hv (stg & Hst & Hr & Hk). exists stg. rewrite Hs. split_and!; [done..|].
  intros k. by rewrite Hv.
Qed.

Lemma atomic_ok_evolve v v' dels ups rest tx :
  Inv v → evolve v v' → a_tgt v' = a_tgt v → a_tx v' = a_tx v →
  atomic_ok v dels ups rest tx → atomic_ok v' dels ups rest tx.
Proof.
  intros HI He Ht Hx [H1 [Hw Hn] H3 H4 H5 H6].
  apply Forall_app in Hw as [Hwd [Hwu Hwr]%Forall_app].
  split; rewrite ?Ht, ?Hx; try done.
  - apply (work_ok_evolve v); [done|]. split; [|done]. rewrite !Forall_app. done.
  - rewrite Forall_forall in *. intros w Hin. apply (tab_ok_evolve v); auto.
  - rewrite Forall_forall in *. intros w Hin. apply (tab_ok_evolve v); auto.
Qed.

(** Staging one more table. *)
Lemma atomic_stage v ups w rest tx stg :
  atomic_ok v [] ups (w :: rest) tx → rows_ok v w stg →
  let tx' := stageUpsert dflt_of (a_tgt v) (tw_ref w) (tw_cols w) stg tx in
  atomic_ok (set_tx v (<[c := tx']> (a_tx v))) [] (ups ++ [w]) rest tx'.
Proof.
  intros [H1 [Hw Hn] H3 _ H5 H6] Hr tx'. simpl in Hw, Hn.
  assert (tw_ref w ∉ tw_ref <$> ups) as Hne.
  { rewrite fmap_app in Hn. apply NoDup_app in Hn as (_ & Hd & _). intros Hin.
    apply (Hd _ Hin). by left. }
  split; simpl.
  - by rewrite lookup_insert_eq.
  - rewrite <-app_assoc. split; [|done]. eapply Forall_impl; [exact Hw|]. by intros ? [].
  - done.
  - constructor.
  - apply Forall_app. split.
    + rewrite Forall_forall in *. intros u Hu.
      assert (tw_ref u ≠ tw_ref w) as Huw.
      { intros Heq. apply Hne. rewrite <-Heq. by apply list_elem_of_fmap_2. }
      apply (tab_ok_other v tx tx' false u (tw_ref w)); [done| | |by apply H5].
      * simpl. by rewrite lookup_insert_ne.
      * intros k. unfold tx'. rewrite stageUpsert_visible. by rewrite decide_False.
    + apply Forall_singleton. exists stg. simpl. rewrite lookup_insert_eq.
      split_and!; [done..|]. intros k. unfold tx'. rewrite stageUpsert_visible, decide_True by done.
      rewrite (H6 (tw_ref w) k) by done. unfold upsert_cols, cyclic_of. rewrite H3. done.
  - intros t k Ht. rewrite fmap_app, not_elem_of_app in Ht. destruct Ht as [Ht1 Ht2].
    unfold tx'. rewrite stageUpsert_visible, decide_False; [by apply H6|].
    intros ->. apply Ht2. by left.
Qed.

(** Deleting the absent keys of one staged table. *)
Lemma atomic_delete v dels w ups tx tx' :
  atomic_ok v dels (w :: ups) [] tx →
  deleteAbsent (tw_ref w) (tw_distinct w) tx = Some tx' →
  atomic_ok (set_tx v (<[c := tx']> (a_tx v))) (w :: dels) ups [] tx'.
Proof.
  intros [H1 [Hw Hn] H3 H4 H5 H6] Hd. rewrite app_nil_r in Hw, Hn.
  apply Forall_cons in H5 as [Hwt H5]. destruct Hwt as (stg & Hs & Hr & Hv).
  assert (tx_staging tx' = tx_staging tx ∧ tx_cyclicCols tx' = tx_cyclicCols tx) as [Hst Hcy].
  { unfold deleteAbsent in Hd. rewrite Hs in Hd. simpl in Hd. by injection Hd as <-. }
  rewrite <-(Permutation_middle dels ups w) in Hw, Hn. rewrite fmap_cons in Hn.
  apply NoDup_cons in Hn as [Hne Hn].
  assert (∀ u del, u ∈ dels ++ ups → tab_ok v tx del u → tab_ok v tx' del u) as Hoth.
  { intros u del Hu. assert (tw_ref u ≠ tw_ref w) as Huw.
    { intros Heq. apply Hne. rewrite <-Heq. by apply list_elem_of_fmap_2. }
    apply (tab_ok_other v tx tx' del u (tw_ref w)); [done|by rewrite Hst|].
    intros k. rewrite (deleteAbsent_visible _ _ _ _ _ stg _ _ Hd Hs). by rewrite decide_False by tauto. }
  split; simpl.
  - by rewrite lookup_insert_eq.
  - rewrite app_nil_r. split; [|by constructor].
    eapply Forall_impl; [exact Hw|]. by intros ? [].
  - by rewrite Hcy.
  - constructor.
    + exists stg. rewrite Hst. split_and!; [done..|]. intros k.
      simpl. rewrite (deleteAbsent_visible _ _ _ _ _ stg _ _ Hd Hs), Hv.
      destruct (stg !! k) eqn:E; [by rewrite decide_False by naive_solver|].
      destruct (decide (k ∈ tw_distinct w)).
      * rewrite decide_True by done. by rewrite bool_decide_eq_true_2 by done.
      * rewrite decide_False by tauto. by rewrite bool_decide_eq_false_2 by done.
    + rewrite Forall_forall in *. intros u Hu. apply Hoth; [set_solver|by apply H4].
  - rewrite Forall_forall in *. intros u Hu. apply Hoth; [set_solver|by apply H5].
  - intros t k Ht. apply not_elem_of_cons in Ht as [Ht1 Ht2].
    rewrite (deleteAbsent_visible _ _ _ _ _ stg _ _ Hd Hs). rewrite decide_False by tauto.
    apply H6. rewrite !fmap_app, fmap_cons in *. set_solver.
Qed.

Lemma atomic_ok_perm v dels ups ups' tx :
  ups ≡ₚ ups' → atomic_ok v dels ups [] tx → atomic_ok v dels ups' [] tx.
Proof.
  intros Hp [H1 [Hw Hn] H3 H4 H5 H6]. split; [done| |done|done|by rewrite <-Hp|].
  - split; by rewrite <-Hp.
  - intros t k. rewrite <-Hp. apply H6.
Qed.

(** At the commit: only dirty keys are written, and every table has landed. *)
Lemma atomic_writes v dels tx t k :
  Inv v → atomic_ok v dels [] [] tx →
  commit tx (a_tgt v) !! (t, k) = a_tgt v !! (t, k) ∨ dirty v t k.
Proof.
  intros HI [H1 [Hw Hn] H3 H4 _ H6]. rewrite !app_nil_r in *. rewrite lookup_commit.
  destruct (decide (t ∈ tw_ref <$> dels)) as [Hin|Hout]; [|left; by apply H6].
  apply list_elem_of_fmap in Hin as (w & -> & Hin).
  rewrite Forall_forall in *. destruct (H4 w Hin) as (stg & _ & [_ Hr] & Hv). rewrite Hv.
  destruct (decide (k ∈ tw_distinct w)) as [Hk|Hk].
  - right. destruct (io_dirty _ _ (Hw w Hin) k Hk) as (i & _ & Hi). by exists i.
  - left. rewrite (Hr k Hk). simpl. by rewrite bool_decide_eq_false_2.
Qed.

Lemma atomic_landed v v' dels tx :
  Inv v → evolve v v' → atomic_ok v dels [] [] tx → a_tgt v' = commit tx (a_tgt v) →
  Forall (landed v') dels.
Proof.
  intros HI He [H1 [Hw Hn] H3 H4 _ H6] Ht. rewrite !app_nil_r in *.
  rewrite Forall_forall in *. intros w Hin. destruct (H4 w Hin) as (stg & _ & Hr & Hv).
  pose proof (Hw w Hin) as Hi.
  destruct (rows_ok_evolve v v' w stg HI He Hi Hr) as [Hr' _].
  intros k Hk. destruct (Hr' k Hk) as [Hs|Hd]; [left|by right].
  unfold synced. rewrite Ht, lookup_commit, Hv, <-(io_cols _ _ Hi), <-Hs.
  destruct (stg !! k) as [r|] eqn:E; simpl.
  - rewrite proj_set_cols. symmetry in Hs. apply fmap_Some in Hs as (r0 & _ & ->).
    by rewrite proj_proj.
  - by rewrite bool_decide_eq_true_2.
Qed.

Definition atomic_post (work : list tableWork) (r : option error) (v : astate) : Prop :=
  idle v ∧ (r = None → work_ok v work ∧ Forall (landed v) work).

Lemma atomic_abort work e v :
  Inv v → safe contract requires Inv (rollback_if c (Some e)) (atomic_post work) v.
Proof.
  intros HI. apply safe_bind. apply safe_quiet; [done..|]. intros r v' Hc HI' _ _.
  apply safe_ret; [done|]. split; [|done]. split; [done|]. by eapply rollback_step.
Qed.

Lemma atomic_ok_rely v v' dels ups rest tx :
  Inv v → rely v v' → atomic_ok v dels ups rest tx → atomic_ok v' dels ups rest tx.
Proof.
  intros HI R. apply atomic_ok_evolve; [done|by apply rely_evolve|apply R..].
Qed.

Lemma stage_call v ups w rest tx stg r v' :
  Inv v → atomic_ok v [] ups (w :: rest) tx → rows_ok v w stg →
  contract c (StageUpsert (tw_ref w) (tw_cols w) (inr stg)) v r v' →
  match r with inl _ => True | inr _ => ∃ tx', atomic_ok v' [] (ups ++ [w]) rest tx' end.
Proof.
  intros HI Ha Hr (v1 & v2 & R1 & [He|(_ & [e ->] & ->)] & R2); [|done].
  destruct He as (stg' & [= <-] & tx0 & tx' & Hx & [= <-] & -> & ->).
  assert (Inv v1) as HI1 by by apply (rely_Inv v).
  assert (atomic_ok v1 [] ups (w :: rest) tx) as Ha1 by by apply (atomic_ok_rely v).
  rewrite (ao_tx _ _ _ _ _ Ha1) in Hx. injection Hx as <-.
  assert (item_ok v w) as Hi.
  { destruct (ao_work _ _ _ _ _ Ha) as [Hw _]. simpl in Hw.
    rewrite Forall_app, Forall_cons in Hw. tauto. }
  assert (rows_ok v1 w stg) as Hr1 by (apply (rows_ok_evolve v); [done|by apply rely_evolve|done..]).
  eexists. eapply atomic_ok_rely; [|exact R2|by apply atomic_stage].
  by apply (same_data_Inv v1).
Qed.

Lemma delete_call v dels w ups tx r v' :
  Inv v → atomic_ok v dels (w :: ups) [] tx →
  contract c (DeleteAbsent (tw_ref w) (tw_distinct w)) v r v' →
  match r with inl _ => True | inr _ => ∃ tx', atomic_ok v' (w :: dels) ups [] tx' end.
Proof.
  intros HI Ha (v1 & v2 & R1 & [He|(_ & [e ->] & ->)] & R2); [|done].
  destruct He as (tx0 & tx' & Hx & Hd & -> & ->).
  assert (Inv v1) as HI1 by by apply (rely_Inv v).
  assert (atomic_ok v1 dels (w :: ups) [] tx) as Ha1 by by apply (atomic_ok_rely v).
  rewrite (ao_tx _ _ _ _ _ Ha1) in Hx. injection Hx as <-.
  eexists. eapply atomic_ok_rely; [|exact R2|by eapply atomic_delete].
  by apply (same_data_Inv v1).
Qed.

Lemma stage_loop_ok work tx v Q :
  Inv v → atomic_ok v [] [] work tx →
  (∀ r v', Inv v' →
     match r with inl _ => True | inr _ => ∃ tx, atomic_ok v' [] work [] tx end → Q r v') →
  safe contract requires Inv (for_each work (stage_step c) tt) Q v.
Proof.
  intros HI Ha HQ.
  apply (safe_for_each _ _ _ _ (λ rest (_ : unit) v, ∃ ups tx,
    work = ups ++ rest ∧ atomic_ok v [] ups rest tx)); [| |done|by exists [], tx].
  2: { intros s v' HI' (ups & tx' & -> & Ha'). rewrite app_nil_r in *. apply HQ; [done|]. by exists tx'. }
  clear v HI Ha tx. intros w rest [] v HI (ups & tx & Heq & Ha).
  assert (item_ok v w) as Hi.
  { destruct (ao_work _ _ _ _ _ Ha) as [Hw _]. simpl in Hw.
    rewrite Forall_app, Forall_cons in Hw. tauto. }
  unfold stage_step, pipeStageUpsert. do 2 apply safe_bind.
  apply safe_quiet; [done..|]. intros rd v1 Hc HI1 He1 Ht1.
  pose proof (reread_step _ _ _ _ HI Hi Hc) as Hr.
  assert (atomic_ok v1 [] ups (w :: rest) tx) as Ha1.
  { apply (atomic_ok_evolve v); [done..| |done]. by apply (plain_tx (RereadCurrent (tw_ref w) (tw_distinct w)) v rd). }
  apply safe_bind. apply safe_quiet; [done..|]. intros st v2 Hc2 HI2 He2 Ht2.
  destruct rd as [e|stg]; [apply safe_ret; [done|]; apply safe_ret; [done|]; by apply HQ|].
  pose proof (stage_call _ _ _ _ _ _ _ _ HI1 Ha1 Hr Hc2) as Hs.
  destruct st as [e|u]; apply safe_ret; [done| |done|]; apply safe_ret; [done| |done|].
  - by apply HQ.
  - destruct Hs as (tx' & Ha2). exists (ups ++ [w]), tx'. split; [|done].
    by rewrite <-app_assoc.
Qed.

Lemma delete_absent_loop_ok work tx v Q :
  Inv v → atomic_ok v [] work [] tx →
  (∀ r v', Inv v' →
     match r with
     | inl _ => True
     | inr _ => ∃ dels tx, dels ≡ₚ work ∧ atomic_ok v' dels [] [] tx
     end → Q r v') →
  safe contract requires Inv (for_each work (delete_absent_step c) tt) Q v.
Proof.
  intros HI Ha HQ.
  apply (safe_for_each _ _ _ _ (λ rest (_ : unit) v, ∃ dels tx,
    dels ++ rest ≡ₚ work ∧ atomic_ok v dels rest [] tx)); [| |done|by exists [], tx].
  2: { intros s v' HI' (dels & tx' & Hp & Ha'). rewrite app_nil_r in Hp.
       apply HQ; [done|]. by exists dels, tx'. }
  clear v HI Ha tx. intros w rest [] v HI (dels & tx & Hp & Ha).
  unfold delete_absent_step. apply safe_bind. apply safe_quiet; [done..|].
  intros r v1 Hc HI1 He1 Ht1. pose proof (delete_call _ _ _ _ _ _ _ HI Ha Hc) as Hd.
  destruct r as [e|u]; apply safe_ret; [done| |done|]; [by apply HQ|].
  destruct Hd as (tx' & Ha1). exists (w :: dels), tx'. split; [|done].
  by rewrite <-Hp, <-Permutation_middle.
Qed.

Lemma atomic_tx_ok work v :
  Inv v → work_ok v work → a_tx v !! c = Some (begin_tx ∅) →
  safe contract requires Inv (atomic_tx c work) (atomic_post work) v.
Proof.
  intros HI Hw Hx. unfold atomic_tx, with_rollback. apply safe_bind, safe_bind.
  apply (stage_loop_ok work (begin_tx ∅)); [done| |].
  { split; [done|done|done|constructor|constructor|]. intros t k _. apply visible_begin. }
  intros r v1 HI1 Hr. destruct r as [e|u]; [apply safe_ret; [done|by apply atomic_abort]|].
  destruct Hr as (tx & Ha). apply safe_bind.
  apply (delete_absent_loop_ok (reverse work) tx); [done| |].
  { eapply atomic_ok_perm; [|exact Ha]. by rewrite reverse_Permutation. }
  intros r v2 HI2 Hr. destruct r as [e|u']; [apply safe_ret; [done|by apply atomic_abort]|].
  destruct Hr as (dels & tx2 & Hp & Ha2). rewrite reverse_Permutation in Hp.
  unfold try_call. apply safe_bind. apply safe_call; [done|done|]. intros r v3 Hc.
  destruct (commit_step _ _ _ _ HI2 (ao_tx _ _ _ _ _ Ha2)
    (λ t k, atomic_writes v2 dels tx2 t k HI2 Ha2) Hc) as (HI3 & He3 & _ & Hr3).
  split; [done|]. destruct r as [e|u2]; (apply safe_ret; [done|]); [by apply atomic_abort|].
  destruct Hr3 as [Ht3 Hx3]. apply safe_ret; [done|]. split; [done|]. intros _. split.
  - pose proof (ao_work _ _ _ _ _ Ha2) as Hw2. rewrite !app_nil_r in Hw2.
    apply (work_ok_evolve v2) with (v' := v3) in Hw2; [|done].
    destruct Hw2 as [Hf Hn]. split; by rewrite <-Hp.
  - rewrite <-Hp. by apply (atomic_landed v2 v3 dels tx2).
Qed.

Lemma confirm_loop_ok work v Q :
  idle v → work_ok v work → Forall (landed v) work → (∀ r v', idle v' → Q r v') →
  safe contract requires Inv (for_each work (confirm_step c sync_target) tt) Q v.
Proof.
  intros Hid Hw Hl HQ.
  apply (safe_for_each _ _ _ _ (λ rest (_ : unit) v,
    idle v ∧ work_ok v rest ∧ Forall (landed v) rest));
    [|by intros ??? [??]; apply HQ|apply Hid|done].
  clear v Hid Hw Hl. intros w rest [] v _ (Hid & [Hw Hn] & Hl).
  apply Forall_cons in Hw as [Hi Hw], Hl as [Hlw Hl].
  rewrite fmap_cons in Hn. apply NoDup_cons in Hn as [Hx Hn].
  unfold confirm_step. apply safe_bind. apply safe_call; [apply Hid|split; [done|apply Hi]|]. intros r v2 Hc.
  destruct (confirm_ok _ _ _ _ (proj1 Hid) Hi Hlw Hc) as (HI2 & He2 & Ht2 & Hx2).
  assert (idle v2) as Hid2 by (split; [done|]; rewrite Hx2; apply Hid).
  split; [done|]. destruct r as [e|u]; (apply safe_ret; [done|]); [by apply HQ|].
  split_and!; [done| |].
  - split; [|done]. by apply (items_confirm v v2 w).
  - rewrite Forall_forall in *. intros w' Hin.
    apply (landed_evolve v); [apply Hid| | |by apply Hw|by apply Hl].
    + apply He2. intros Heq. apply Hx. rewrite <-Heq. by apply list_elem_of_fmap_2.
    + intros k. by rewrite Ht2.
Qed.

Lemma drainAtomic_ok work total tables v :
  idle v → work_ok v work → cyc_of tables = ∅ →
  safe contract requires Inv (drainAtomic c work total tables sync_target true) (λ _, idle) v.
Proof.
  intros Hid Hw Hcc. unfold drainAtomic. apply safe_bind. apply safe_quiet; [done|apply Hid|].
  intros r v1 Hc HI1 He1 Ht1. pose proof (begin_step _ _ _ _ _ (proj2 Hid) Hc) as Hb.
  destruct r as [e|u]; [by apply safe_ret|]. rewrite Hcc in Hb.
  apply safe_bind. eapply safe_mono; [|apply (atomic_tx_ok work v1); [done| |done]].
  2: by apply (work_ok_evolve v).
  intros r v2 HI2 [Hid2 Hr]. destruct r as [e|]; [by apply safe_ret|].
  destruct (Hr eq_refl) as [Hw2 Hl2]. apply safe_bind.
  apply confirm_loop_ok; [done..|]. intros [e|u2] v3 Hid3; (apply safe_ret; [apply Hid3|done]).
Qed.

(** ** The component drain and its retries *)

Lemma gathered_ok tables batch k v :
  idle v → NoDup tables →
  (∀ work total v', idle v' → work_ok v' work → safe contract requires Inv (k work total) (λ _, idle) v') →
  safe contract requires Inv (gathered c tables sync_target batch k) (λ _, idle) v.
Proof.
  intros Hid Hnd Hk. unfold gathered. apply safe_bind. apply gatherWork_ok; [done..|].
  intros r v' Hid' Hr. destruct r as [e|[[|w work] total]].
  1, 2: by apply safe_ret; [apply Hid'|].
  by apply Hk.
Qed.

Lemma DrainComponent_ok nullFill tables batch cyclic v :
  idle v → NoDup tables → (nullFill = false → cyc_of tables = ∅) →
  safe contract requires Inv (DrainComponent nullFill c tables sync_target batch cyclic) (λ _, idle) v.
Proof.
  intros Hid Hnd Hcc. unfold DrainComponent.
  assert (∀ v, idle v → cyc_of tables = ∅ →
    safe contract requires Inv (gathered c tables sync_target batch
      (λ work total, drainAtomic c work total tables sync_target true)) (λ _, idle) v) as Hat.
  { intros v0 Hid0 H0. apply gathered_ok; [done..|]. intros. by apply drainAtomic_ok. }
  destruct cyclic; cbn [negb].
  - destruct nullFill; [|by apply Hat; auto].
    apply safe_bind. apply safe_plain; [done..|]. intros r v1 Hc Hid1 _ _.
    destruct r as [e|m]; [by apply safe_ret; [apply Hid1|]|].
    assert (m = cyc_of tables) as ->.
    { destruct Hc as (u1 & u2 & _ & [[_ [= ->]]|(_ & [e ?] & _)] & _); done. }
    case_decide; [by apply Hat|].
    apply gathered_ok; [done..|]. intros. by apply drainCyclicNullFillSeq_ok.
  - apply gathered_ok; [done..|]. intros. by apply drainAcyclicSeq_ok.
Qed.

(** [J]: what every attempt starts from and ends in. *)
Lemma retry_loop_keeps (J : astate → Prop) attempt policy tries backoff total lastErr v :
  (∀ v, J v → Inv v) → (∀ v d r v', J v → contract c (After d) v r v' → J v') →
  (∀ n v, J v → safe contract requires Inv (attempt n) (λ _, J) v) → J v →
  safe contract requires Inv (retry_loop attempt c policy tries backoff total lastErr) (λ _, J) v.
Proof.
  intros HJ Hafter Hat. revert backoff total lastErr v.
  induction tries as [|tries IH]; intros backoff total lastErr v Hid; cbn [retry_loop].
  { by apply safe_ret; [apply HJ|]. }
  apply safe_bind. eapply safe_mono; [|by apply Hat]. intros [n err] v1 HI1 Hid1.
  destruct err as [e|]; [|by apply safe_ret].
  destruct (IsTransientConstraint e); cbn [negb]; [|by apply safe_ret].
  destruct (Nat.eqb tries 0); [by apply safe_ret|].
  apply safe_bind. apply safe_quiet; [done..|]. intros r v2 Hc HI2 _ _.
  assert (J v2) as Hid2 by by apply (Hafter v1 backoff r).
  destruct r as [e'|u]; [by apply safe_ret|]. by apply IH.
Qed.

Lemma retry_loop_ok attempt policy tries backoff total lastErr v :
  (∀ n v, idle v → safe contract requires Inv (attempt n) (λ _, idle) v) → idle v →
  safe contract requires Inv (retry_loop attempt c policy tries backoff total lastErr) (λ _, idle) v.
Proof.
  intros Hat Hid. apply retry_loop_keeps; [by intros ? []| |done..].
  intros v0 d r v' [HI Hx] Hc. split; [by destruct (quiet_step c (After d) _ _ _ I HI Hc)|].
  by rewrite (plain_tx (After d) _ _ _ I Hc).
Qed.

(** ** The single-table drain *)

Lemma applyPass_step v w stg r v' :
  Inv v → item_ok v w → rows_ok v w stg →
  contract c (ApplyPass (tw_ref w) (tw_cols w) (tw_distinct w) (inr stg)) v r v' →
  Inv v' ∧ evolve v v' ∧ a_tx v' = a_tx v ∧ (∀ u, r = inr u → landed v' w).
Proof.
  intros HI Hi Hr (v1 & v2 & R1 & He & R2).
  assert (Inv v1) as HI1 by by apply (rely_Inv v).
  assert (evolve v v1) as E1 by by apply rely_evolve.
  assert (item_ok v1 w) as Hi1 by (eapply item_ok_evolve; [apply E1|done]).
  assert (rows_ok v1 w stg) as Hr1 by by apply (rows_ok_evolve v).
  assert (Inv v2 ∧ evolve v1 v2 ∧ a_tx v2 = a_tx v1 ∧ (∀ u, r = inr u → landed v2 w))
    as (HI2 & E2 & Hx2 & Hl2).
  2: { split_and!.
       - by apply (rely_Inv v2).
       - apply (evolve_trans T _ v1); [done..|]. apply (evolve_trans T _ v2); [done..|by apply rely_evolve].
       - by rewrite (rely_tx _ _ R2), Hx2, (rely_tx _ _ R1).
       - intros u Hu. apply (landed_evolve v2); [done|by apply rely_evolve| | |by eapply Hl2].
         + intros k. by rewrite (rely_tgt _ _ R2).
         + eapply item_ok_evolve; [apply E2|done]. }
  destruct He as [(stg' & tgt' & [= <-] & Hap & ->)|(_ & [e ->] & ->)];
    [|split_and!; [done|apply evolve_refl|done|done]].
  unfold applyPass in Hap. case_decide as Hne.
  { injection Hap as <-. split_and!; [by apply (same_data_Inv v1)|by apply same_data_evolve|done|].
    intros u _ k Hk. rewrite Hne in Hk. by apply elem_of_nil in Hk. }
  destruct (deleteAbsent _ _ _) as [tx|] eqn:Hd; simpl in Hap; [|done]. injection Hap as <-.
  assert (phase_post v1 w ∅ true false None
    (set_tx (set_tgt v1 (commit tx (a_tgt v1))) (delete c (a_tx v1)))) as Hpost.
  { split_and!; simpl.
    - apply lookup_delete_eq.
    - intros t. split; simpl; auto.
    - intros t Hne' k. simpl.
      destruct (final_tx_frame ∅ w true false (a_tgt v1) stg tx t k (proj2 Hr1) eq_refl Hd)
        as [?|[-> _]]; done.
    - intros _. exists stg, tx. split_and!; [|done..].
      apply (rows_ok_evolve v1); [done| |done..]. intros t. split; simpl; auto. }
  split_and!.
  - apply set_tgt_Inv; [done|]. intros t k.
    destruct (final_tx_frame ∅ w true false (a_tgt v1) stg tx t k (proj2 Hr1) eq_refl Hd)
      as [?|[-> Hk]]; [by left|right].
    destruct (io_dirty _ _ Hi1 k Hk) as (i & _ & Hp). by exists i.
  - intros t. split; simpl; auto.
  - done.
  - intros u _. eapply (phase_del_landed v1 w ∅) in Hpost; [exact Hpost| |done].
    apply (item_ok_evolve v1); [|done]. split; simpl; auto.
Qed.

Lemma Drain_ok t batch v :
  idle v → safe contract requires Inv (Drain c t sync_target batch) (λ _, idle) v.
Proof.
  intros Hid. unfold Drain. apply safe_bind. apply safe_plain; [done..|].
  intros r v1 Hc Hid1 He1 _. pose proof (read_step _ _ _ _ _ (proj1 Hid) Hc) as Hb.
  destruct r as [e|ds]; [by apply safe_ret; [apply Hid1|]|].
  destruct ds as [|d ds'] eqn:Hds; [by apply safe_ret; [apply Hid1|]|].
  rewrite <-Hds in *. clear Hds d ds'. destruct (coalesce ds) as [distinct ids] eqn:Hco.
  apply safe_bind. apply transportColumns_ok; [done|]. intros r v2 Hid2 He2 Hcols.
  destruct r as [e|cols]; [by apply safe_ret; [apply Hid2|]|].
  rewrite (Hcols cols eq_refl). set (w := mkWork t distinct ids (cols_of t)).
  assert (item_ok v2 w) as Hi.
  { pose proof (batch_item v2 t ds (proj1 Hid2)) as Hi. rewrite Hco in Hi. apply Hi.
    by apply (batch_ok_evolve v1); [apply Hid1|..]. }
  apply safe_bind. unfold pipeApply. apply safe_bind.
  apply safe_plain; [done..|]. intros rd v3 Hc3 Hid3 He3 _.
  pose proof (reread_step v2 w _ _ (proj1 Hid2) Hi Hc3) as Hr.
  assert (item_ok v3 w) as Hi3 by (eapply item_ok_evolve; [apply He3|done]).
  apply safe_bind. destruct rd as [e|stg].
  { apply safe_call; [apply Hid3|done|].
    intros r v4 (u1 & u2 & R1 & [(stg & tgt' & [=] & _)|(_ & _ & ->)] & R2).
    assert (idle v4) as Hid4.
    { split; [apply (rely_Inv u1); [done|]; apply (rely_Inv v3); [done|apply Hid3]|].
      rewrite (rely_tx _ _ R2), (rely_tx _ _ R1). apply Hid3. }
    split; [apply Hid4|]. apply safe_ret; [apply Hid4|]. by apply safe_ret; [apply Hid4|]. }
  apply safe_call; [apply Hid3|done|]. intros r v4 Hc4.
  destruct (applyPass_step v3 w stg r v4 (proj1 Hid3) Hi3 Hr Hc4) as (HI4 & He4 & Hx4 & Hl4).
  assert (idle v4) as Hid4 by (split; [done|]; rewrite Hx4; apply Hid3).
  split; [done|]. destruct r as [e|u]; (apply safe_ret; [done|]); [by apply safe_ret|].
  assert (item_ok v4 w) as Hi4 by (eapply item_ok_evolve; [apply He4|done]).
  apply safe_bind. apply safe_call; [done|split; [done|apply Hi4]|]. intros r v5 Hc5.
  destruct (confirm_ok v4 w r v5 HI4 Hi4 (Hl4 u eq_refl) Hc5) as (HI5 & _ & _ & Hx5).
  assert (idle v5) as Hid5 by (split; [done|]; rewrite Hx5; apply Hid4).
  split; [done|]. destruct r; by apply safe_ret.
Qed.

Lemma DrainAll_ok fuel t batch total v :
  idle v → safe contract requires Inv (DrainAll fuel c t sync_target batch total) (λ _, idle) v.
Proof.
  revert total v. induction fuel as [|fuel IH]; intros total v Hid; cbn [DrainAll].
  { by apply safe_ret; [apply Hid|]. }
  apply safe_bind. eapply safe_mono; [|by apply Drain_ok]. intros [n err] v1 _ Hid1.
  destruct n, err; try (by apply safe_ret; [apply Hid1|]). by apply IH.
Qed.

(** Crash safety of the component drain on one connection. Whatever the calls return (failures, a
    COMMIT or a consumption that took effect although it was reported failed)
    and whatever applications commit on the source meanwhile, between any two
    calls of a retrying component drain every key of the tables in [T] whose target row differs from
    its source row is named by a delta that is still unconsumed, and the drain
    leaves no transaction open. The acyclic, the NULL-then-fill and the atomic
    strategy are all covered. *)
Theorem DrainComponentRetrying_safe (nullFill : bool) (tables : list TableRef) (batch : Z)
    (cyclic : bool) (policy : RetryPolicy) (v : astate) :
  Inv v → a_tx v !! c = None → NoDup tables → (nullFill = false → cyc_of tables = ∅) →
  safe contract requires Inv
    (DrainComponentRetrying nullFill c tables sync_target batch cyclic policy)
    (λ _ v', a_tx v' !! c = None) v.
Proof.
  intros HI Hx Hnd Hcc. eapply (safe_mono _ _ _ _ (λ _, idle)); [by intros ?? _ []|].
  apply retry_loop_ok; [|done]. intros _ v0 Hid0. by apply DrainComponent_ok.
Qed.

(** The same for the single-table drain [DrainAll], for any number of passes. *)
Theorem DrainAll_safe (fuel : nat) (t : TableRef) (batch : Z) (v : astate) :
  Inv v → a_tx v !! c = None →
  safe contract requires Inv (DrainAll fuel c t sync_target batch 0) (λ _ v', a_tx v' !! c = None) v.
Proof.
  intros HI Hx. eapply (safe_mono _ _ _ _ (λ _, idle)); [by intros ?? _ []|]. by apply DrainAll_ok.
Qed.
End safety.
End Apply.
