(* ===== verification/ParDrain.v ===== *)
(** * The drain over a connection pool ([internal/apply/component.go], [retry.go])

    [DrainComponentPool] with [ApplyConcurrency] above 1: the tables of a phase are
    applied by goroutines that take their connection from a free-list. The goroutines
    and the dispatching loop are interleaved by a schedule, a list of choices of who
    moves next, one call at a time; the interleaved run is again a program over the calls, so the
    contract and the program logic of the sequential drain apply to it.

    The proof is by the table: the tasks of a phase work on different tables and on
    different connections, so what one of them sees of the state ([view]) moves under
    the steps of another only as it does under the application's transactions ([rely]).
    Each task is then as safe as it is alone. *)

From S2P Require Import Prelude Engine Calls ApplyTx Contract Apply.
Import ApplyTx Contract Apply.

Module ParDrain.

(** ** The pool ([applyPhase]) *)

(** A goroutine of the phase: the index it works for, its connection, what is left
    of its task. *)
Record goroutine := mkGo {
  go_idx : nat; go_conn : nat; go_prog : prog (option error)
}.

(** [ps_queue] is what the dispatching loop has still to do, [ps_wait] the index that has
    passed the context check and waits for a connection, [ps_free] the channel of
    free connections. *)
Record poolState := mkPool {
  ps_queue : list nat;
  ps_wait : option nat;
  ps_free : list nat;
  ps_run : list goroutine;
  ps_errs : list (option error)
}.

(** [errs[i] = task(ctx, c, i)] and the deferred [connCh <- c]. *)
Definition finished (i c : nat) (r : option error) (run : list goroutine) (s : poolState)
    : poolState :=
  mkPool (ps_queue s) (ps_wait s) (ps_free s ++ [c]) run (<[i := r]> (ps_errs s)).

(** The head of the loop: [if ctx.Err() != nil { errs[idx] = ctx.Err(); continue }]. *)
Definition check_ctx (c0 i : nat) (q : list nat) (s : poolState) : prog poolState :=
  r ← do_call c0 CtxErr;
  Ret (match r with
       | inl e => mkPool q None (ps_free s) (ps_run s) (<[i := Some e]> (ps_errs s))
       | inr _ => mkPool q (Some i) (ps_free s) (ps_run s) (ps_errs s)
       end).

(** The dispatching loop moves: it checks the context for the next index, or takes a
    connection for the waiting one and starts its goroutine; it is blocked when no
    connection is free. *)
Definition dispatch (task : nat → nat → prog (option error)) (c0 : nat) (s : poolState)
    : prog poolState :=
  match ps_wait s, ps_free s, ps_queue s with
  | Some i, c :: free, q =>
      Ret (mkPool q None free (ps_run s ++ [mkGo i c (task c i)]) (ps_errs s))
  | Some _, [], _ => Ret s
  | None, _, i :: q => check_ctx c0 i q s
  | None, _, [] => Ret s
  end.

(** The [k]-th goroutine moves: it makes its next call, or it ends. *)
Definition go_step (k : nat) (s : poolState) : prog poolState :=
  match ps_run s !! k with
  | None => Ret s
  | Some (mkGo i c (Ret r)) => Ret (finished i c r (delete k (ps_run s)) s)
  | Some (mkGo i c (Call c' o f)) =>
      r ← do_call c' o;
      Ret (mkPool (ps_queue s) (ps_wait s) (ps_free s)
             (<[k := mkGo i c (f r)]> (ps_run s)) (ps_errs s))
  end.

(** A choice of the schedule: 0 is the dispatching loop, [S k] the [k]-th goroutine. *)
Definition turn (task : nat → nat → prog (option error)) (c0 choice : nat) (s : poolState)
    : prog poolState :=
  match choice with 0 => dispatch task c0 s | S k => go_step k s end.

Fixpoint turns (task : nat → nat → prog (option error)) (c0 : nat) (sched : list nat)
    (s : poolState) : prog poolState :=
  match sched with
  | [] => Ret s
  | choice :: sched => s ← turn task c0 choice s; turns task c0 sched s
  end.

(** [wg.Wait()]: when the schedule has ended, what is left runs in order. *)
Fixpoint join_running (run : list goroutine) (s : poolState) : prog poolState :=
  match run with
  | [] => Ret s
  | g :: run => r ← go_prog g; join_running run (finished (go_idx g) (go_conn g) r run s)
  end.

Definition serve_waiting (task : nat → nat → prog (option error)) (s : poolState) : prog poolState :=
  match ps_wait s, ps_free s with
  | Some i, c :: free =>
      r ← task c i;
      Ret (finished i c r [] (mkPool (ps_queue s) None free [] (ps_errs s)))
  | _, _ => Ret s
  end.

Fixpoint serve_queue (task : nat → nat → prog (option error)) (c0 : nat) (queue : list nat)
    (s : poolState) : prog poolState :=
  match queue with
  | [] => Ret s
  | i :: queue =>
      s ← check_ctx c0 i queue s;
      s ← serve_waiting task s;
      serve_queue task c0 queue s
  end.

(** The context is shared; its check is put on connection [c0]. *)
Definition applyPhase (sched : list nat) (c0 : nat) (pool : list nat) (n : nat) (order : list nat)
    (task : nat → nat → prog (option error)) : prog (list (option error)) :=
  s ← turns task c0 sched (mkPool order None pool [] (replicate n None));
  s ← join_running (ps_run s) s;
  s ← serve_waiting task s;
  s ← serve_queue task c0 (ps_queue s) s;
  Ret (ps_errs s).

(** [forwardIdx], [reverseIdx] *)
Definition forwardIdx (n : nat) : list nat := seq 0 n.

Definition reverseIdx (n : nat) (mask : list bool) : list nat :=
  filter (λ i, mask !! i = Some true) (reverse (seq 0 n)).

(** ** Reading the errors of a phase *)

(** [for i, e := range errs]: the flags of the indices with a nil error, the last
    transient error; the first other error halts. [skip i]: the case that is passed
    over ([case !upserted[i]:]). *)
Fixpoint scan (skip : nat → bool) (msg : string) (i : nat) (errs : list (option error))
    (transient : option error) : error + (list bool * option error) :=
  match errs with
  | [] => inr ([], transient)
  | e :: errs =>
      let rest ok transient :=
        match scan skip msg (S i) errs transient with
        | inl e => inl e
        | inr (oks, transient) => inr (ok :: oks, transient)
        end in
      if skip i then rest false transient
      else match e with
           | None => rest true transient
           | Some e =>
               if IsTransientConstraint e then rest false (Some e) else inl (Errorf msg e)
           end
  end.

(** ** The acyclic drain ([drainAcyclicParallel]) *)

Definition upsert_task (work : list tableWork) (c i : nat) : prog (option error) :=
  match work !! i with Some w => perTableUpsert c w | None => Ret None end.

Definition delete_task (work : list tableWork) (target : TargetID) (c i : nat)
    : prog (option error) :=
  match work !! i with
  | Some w =>
      try_prog (perTableDelete c w)
        (try_call c (ConfirmConsumed (tw_ref w) target (tw_ids w)) (Ret None))
  | None => Ret None
  end.

(** [total]: each task adds the size of its batch when it has confirmed it. *)
Definition consumed_total (work : list tableWork) (order : list nat) (errs : list (option error))
    : nat :=
  sum_list ((λ i, match errs !! i, work !! i with
                  | Some None, Some w => length (tw_ids w)
                  | _, _ => 0
                  end) <$> order).

(** [sched k] is the schedule of the [k]-th phase. *)
Definition drainAcyclicParallel (sched : nat → list nat) (c0 : nat) (pool : list nat)
    (work : list tableWork) (target : TargetID) : prog (nat * option error) :=
  let n := length work in
  e1 ← applyPhase (sched 0) c0 pool n (forwardIdx n) (upsert_task work);
  match scan (λ _, false) "apply component: upsert" 0 e1 None with
  | inl e => Ret (0, Some e)
  | inr (upserted, transient) =>
      let order := reverseIdx n upserted in
      e2 ← applyPhase (sched 1) c0 pool n order (delete_task work target);
      let total := consumed_total work order e2 in
      Ret (match scan (λ _, false) "apply component: delete/confirm" 0 e2 transient with
           | inl e => (total, Some e)
           | inr (_, transient) => (total, transient)
           end)
  end.

(** ** The NULL-then-fill drain ([drainCyclicNullFillParallel]) *)

Definition cyclic_task (work : list tableWork) (tables : list TableRef) (del fill : bool)
    (c i : nat) : prog (option error) :=
  match work !! i with
  | Some w => perTableApplyCyclic c w tables del fill
  | None => Ret None
  end.

Definition flag (l : list bool) (i : nat) : bool := default false (l !! i).

(** Whether the table of an index has columns to fill. *)
Definition fills (work : list tableWork) (cyclicCols : gmap TableRef (list string)) (i : nat) : bool :=
  match work !! i with
  | Some w => negb (bool_decide (default [] (cyclicCols !! tw_ref w) = []))
  | None => false
  end.

(** The loop of the confirmations runs over the tables with their flags. *)
Definition flagged (work : list tableWork) (cyclicCols : gmap TableRef (list string))
    (upserted deleted filled : list bool) : list cyclicWork :=
  imap (λ i w, mkCW w (flag upserted i) (flag deleted i)
                 (negb (fills work cyclicCols i) || flag filled i)) work.

Definition drainCyclicNullFillParallel (sched : nat → list nat) (c0 : nat) (pool : list nat)
    (work : list tableWork) (tables : list TableRef) (target : TargetID)
    (cyclicCols : gmap TableRef (list string)) : prog (nat * option error) :=
  let n := length work in
  e1 ← applyPhase (sched 0) c0 pool n (forwardIdx n) (cyclic_task work tables false false);
  match scan (λ _, false) "apply component: upsert" 0 e1 None with
  | inl e => Ret (0, Some e)
  | inr (upserted, transient) =>
      e2 ← applyPhase (sched 1) c0 pool n (reverseIdx n upserted) (cyclic_task work tables true false);
      match scan (λ i, negb (flag upserted i)) "apply component: delete" 0 e2 transient with
      | inl e => Ret (0, Some e)
      | inr (deleted, transient) =>
          let fillIdx :=
            filter (λ i, fills work cyclicCols i && flag upserted i && flag deleted i = true) (seq 0 n) in
          e3 ← applyPhase (sched 2) c0 pool n fillIdx (cyclic_task work tables false true);
          match scan (λ i, negb (bool_decide (i ∈ fillIdx))) "apply component: fill" 0 e3 transient with
          | inl e => Ret (0, Some e)
          | inr (filled, transient) =>
              r ← for_each (flagged work cyclicCols upserted deleted filled)
                    (cyclic_confirm_step c0 target) 0;
              match r with
              | inl res => Ret res
              | inr total => Ret (total, transient)
              end
          end
      end
  end.

(** ** [DrainComponentPool] and its retries *)

Definition drainAcyclic (sched : nat → list nat) (c0 : nat) (pool : list nat) (concurrency : Z)
    (tables : list TableRef) (target : TargetID) (batch : Z) : prog (nat * option error) :=
  gathered c0 tables target batch (λ work _,
    if bool_decide (concurrency <= 1)%Z || Nat.leb (length pool) 1
    then drainAcyclicSeq c0 work target
    else drainAcyclicParallel sched c0 pool work target).

Definition drainCyclicNullFill (sched : nat → list nat) (c0 : nat) (pool : list nat)
    (concurrency : Z) (tables : list TableRef) (target : TargetID) (batch : Z)
    (cyclicCols : gmap TableRef (list string)) : prog (nat * option error) :=
  gathered c0 tables target batch (λ work _,
    if bool_decide (concurrency <= 1)%Z || Nat.leb (length pool) 1
    then drainCyclicNullFillSeq c0 work tables target cyclicCols
    else drainCyclicNullFillParallel sched c0 pool work tables target cyclicCols).

Definition clamp (concurrency : Z) (pool : list nat) : Z :=
  let concurrency := if decide (Z.of_nat (length pool) < concurrency)%Z
                     then Z.of_nat (length pool) else concurrency in
  if decide (concurrency < 1)%Z then 1%Z else concurrency.

Definition DrainComponentPool (nullFill : bool) (sched : nat → list nat) (pool : list nat)
    (concurrency : Z) (tables : list TableRef) (target : TargetID) (batch : Z) (cyclic : bool)
    : prog (nat * option error) :=
  match pool with
  | [] => Ret (0, Some (Failure "apply component: empty connection pool"))
  | c0 :: _ =>
      let concurrency := clamp concurrency pool in
      let atomic :=
        gathered c0 tables target batch
          (λ work total, drainAtomic c0 work total tables target cyclic) in
      if negb cyclic then drainAcyclic sched c0 pool concurrency tables target batch
      else if nullFill then
        r ← do_call c0 (CyclicCols tables);
        match r with
        | inl e => Ret (0, Some (Errorf "apply component: resolve cyclic FK columns" e))
        | inr cyclicCols =>
            if decide (cyclicCols = ∅) then atomic
            else drainCyclicNullFill sched c0 pool concurrency tables target batch cyclicCols
        end
      else atomic
  end.

(** [sched n k] is the schedule of phase [k] of the attempt that leaves [n] more. *)
Definition DrainComponentRetryingPool (nullFill : bool) (sched : nat → nat → list nat)
    (pool : list nat) (concurrency : Z) (tables : list TableRef) (target : TargetID) (batch : Z)
    (cyclic : bool) (policy : RetryPolicy) : prog (nat * option error) :=
  retry_loop
    (λ n, DrainComponentPool nullFill (sched n) pool concurrency tables target batch cyclic)
    (default 0 (head pool)) policy (MaxAttempts policy) (BaseBackoff policy) 0 (Failure "nil").

(** ** What a task sees: one table and one connection *)

Section view.
Context `{Sch : Schema}.

Definition only_table `{Countable K} {A} (t : TableRef) (m : gmap (TableRef * K) A)
    : gmap (TableRef * K) A :=
  filter (λ '(tk, _), tk.1 = t) m.

Lemma lookup_only_table `{Countable K} {A} (t : TableRef) (m : gmap (TableRef * K) A) (t' : TableRef) (k : K) :
  only_table t m !! (t', k) = if decide (t' = t) then m !! (t', k) else None.
Proof. unfold only_table. by rewrite (lookup_filter_fst (λ tk : TableRef * K, tk.1 = t)). Qed.

Lemma lookup_only_table_eq `{Countable K} {A} (t : TableRef) (m : gmap (TableRef * K) A) (k : K) :
  only_table t m !! (t, k) = m !! (t, k).
Proof. by rewrite lookup_only_table, decide_True by done. Qed.

Definition only_conn (c : nat) (m : gmap nat pgApplyTx) : gmap nat pgApplyTx :=
  match m !! c with Some tx => {[c := tx]} | None => ∅ end.

Definition view (c : nat) (t : TableRef) (v : astate) : astate :=
  mkA (only_table t (a_src v)) (only_table t (a_tgt v)) (only_table t (a_pend v)) (a_seen v)
    (only_conn c (a_tx v)).

(** The table without any connection. *)
Definition tview (t : TableRef) (v : astate) : astate := set_tx (view 0 t v) ∅.

Lemma tview_view c t v : set_tx (view c t v) ∅ = tview t v.
Proof. reflexivity. Qed.

Lemma lookup_only_conn c m : only_conn c m !! c = m !! c.
Proof.
  unfold only_conn. destruct (m !! c) eqn:E; [apply lookup_singleton_eq|done].
Qed.

Lemma only_conn_insert c tx m : only_conn c (<[c := tx]> m) = <[c := tx]> (only_conn c m).
Proof.
  unfold only_conn. rewrite lookup_insert_eq. destruct (m !! c); [|done].
  by rewrite insert_singleton_eq.
Qed.

Lemma only_conn_delete c m : only_conn c (delete c m) = delete c (only_conn c m).
Proof.
  unfold only_conn. rewrite lookup_delete_eq. destruct (m !! c); [|by rewrite delete_empty].
  by rewrite delete_singleton_eq.
Qed.

Lemma only_conn_ext c' m m' : m' !! c' = m !! c' → only_conn c' m' = only_conn c' m.
Proof. unfold only_conn. by intros ->. Qed.

(** Interference on the whole state is interference on a part of it. *)
Lemma view_rely c t v v' : rely v v' → rely (view c t v) (view c t v').
Proof.
  intros [Ht Hx Hs Hp Hn Hc]. split; simpl.
  - by rewrite Ht.
  - by rewrite Hx.
  - done.
  - intros t' i Hi. rewrite !lookup_only_table. case_decide; [by apply Hp|done].
  - intros t' i k. rewrite lookup_only_table. case_decide; [apply Hn|done].
  - intros t' k. rewrite !lookup_only_table. case_decide; [|by left].
    destruct (Hc t' k) as [?|(i & Hi & Hk)]; [by left|]. right. exists i.
    by rewrite lookup_only_table, decide_True by done.
Qed.

Lemma no_tx_rely s s' : rely s s' → rely (set_tx s ∅) (set_tx s' ∅).
Proof. intros [Ht Hx Hs Hp Hn Hc]. by split. Qed.

Lemma tview_rely t v v' : rely v v' → rely (tview t v) (tview t v').
Proof. intros Hr. by apply no_tx_rely, view_rely. Qed.

(** The invariant is the invariant of every table. *)
Lemma Inv_view {T} c t v : Inv T v → Inv T (view c t v).
Proof.
  intros [HI Hs]. split; simpl.
  - intros t' k HT. unfold synced, dirty. simpl. rewrite !lookup_only_table.
    case_decide as Ht; [|by left]. subst t'.
    destruct (HI t k HT) as [?|(i & Hi)]; [by left|]. right. exists i.
    by rewrite lookup_only_table_eq.
  - intros t' i k. rewrite lookup_only_table. case_decide; [apply Hs|done].
Qed.

Lemma Inv_no_tx {T} s : Inv T s → Inv T (set_tx s ∅).
Proof. by apply same_data_Inv. Qed.

Lemma Inv_tviews {T} v : (∀ t, Inv T (tview t v)) → Inv T v.
Proof.
  intros Hv. split.
  - intros t k HT. destruct (inv_sync _ _ (Hv t) t k HT) as [Hs|(i & Hi)]; simpl in *.
    + left. unfold synced in *. simpl in Hs. by rewrite !lookup_only_table_eq in Hs.
    + right. exists i. by rewrite lookup_only_table_eq in Hi.
  - intros t i k Hp. apply (inv_seen _ _ (Hv t)). simpl. by rewrite lookup_only_table_eq.
Qed.

(** ** Local programs *)

(** The calls a task on [t] makes. *)
Definition local_call (t : TableRef) (o : call) : Prop :=
  match o with
  | RereadCurrent t' _ | ConfirmConsumed t' _ _ | StageUpsert t' _ _ | DeleteAbsent t' _ => t' = t
  | BeginApply _ _ | FillCyclic | Commit | Rollback => True
  | _ => False
  end.

Fixpoint local (c : nat) (t : TableRef) {A} (p : prog A) : Prop :=
  match p with
  | Ret _ => True
  | Call c' o k => c' = c ∧ local_call t o ∧ ∀ r, local c t (k r)
  end.

Lemma local_bind c t {A B} (p : prog A) (f : A → prog B) :
  local c t p → (∀ a, local c t (f a)) → local c t (p ≫= f).
Proof.
  intros Hp Hf. induction p as [a|c' o k IH]; [apply Hf|].
  destruct Hp as (Hc & Ho & Hk). split_and!; [done..|]. intros r. by apply IH.
Qed.

(** A transaction that has touched no other table. *)
Definition tx_local (t : TableRef) (tx : pgApplyTx) : Prop :=
  (∀ t' k, t' ≠ t → tx_writes tx !! (t', k) = None) ∧
  (∀ t', t' ≠ t → tx_staging tx !! t' = None).

Definition conn_local (c : nat) (t : TableRef) (v : astate) : Prop :=
  ∀ tx, a_tx v !! c = Some tx → tx_local t tx.

Lemma visible_only_table tx tgt t k :
  visible tx (only_table t tgt) (t, k) = visible tx tgt (t, k).
Proof. unfold visible. by rewrite lookup_only_table_eq. Qed.

Lemma on_table_local t m ws t' k :
  (∀ t' k, t' ≠ t → ws !! (t', k) = None) → t' ≠ t → (on_table t m ∪ ws) !! (t', k) = None.
Proof.
  intros Hw Hne. rewrite lookup_union_r_if, lookup_on_table, decide_False by done. by apply Hw.
Qed.

Lemma stageUpsert_table tgt t cols stg tx :
  stageUpsert dflt_of (only_table t tgt) t cols stg tx = stageUpsert dflt_of tgt t cols stg tx.
Proof.
  unfold stageUpsert. do 3 f_equal. apply map_eq. intros k. rewrite !map_lookup_imap.
  by rewrite visible_only_table.
Qed.

Lemma stageUpsert_local tgt t cols stg tx :
  tx_local t tx → tx_local t (stageUpsert dflt_of tgt t cols stg tx).
Proof.
  intros [Hw Hs]. split; simpl.
  - intros t' k Hne. by apply on_table_local.
  - intros t' Hne. rewrite lookup_insert_ne by done. by apply Hs.
Qed.

Lemma deleteAbsent_local t keys tx tx' :
  tx_local t tx → deleteAbsent t keys tx = Some tx' → tx_local t tx'.
Proof.
  intros [Hw Hs] Hd. unfold deleteAbsent in Hd.
  destruct (tx_staging tx !! t); simpl in Hd; [|done]. injection Hd as <-.
  split; simpl; [|done]. intros t' k Hne. by apply on_table_local.
Qed.

(** A local transaction has at most its own table staged. *)
Lemma fillCyclic_cases tgt t tx :
  tx_local t tx →
  fillCyclic tgt tx = match tx_staging tx !! t with
                      | Some stg => fill_table tgt t stg tx
                      | None => tx
                      end.
Proof.
  intros [_ Hs]. unfold fillCyclic. destruct (tx_staging tx !! t) as [stg|] eqn:E.
  - replace (tx_staging tx) with ({[t := stg]} : gmap TableRef (gmap KeyValues Row));
      [by rewrite map_to_list_singleton|].
    apply map_eq. intros t'. destruct (decide (t' = t)) as [->|Hne].
    + by rewrite lookup_singleton_eq, E.
    + rewrite lookup_singleton_ne by done. symmetry. by apply Hs.
  - replace (tx_staging tx) with (∅ : gmap TableRef (gmap KeyValues Row));
      [by rewrite map_to_list_empty|].
    apply map_eq. intros t'. rewrite lookup_empty. destruct (decide (t' = t)) as [->|Hne]; [done|].
    symmetry. by apply Hs.
Qed.

Lemma fillCyclic_table tgt t tx :
  tx_local t tx → fillCyclic (only_table t tgt) tx = fillCyclic tgt tx.
Proof.
  intros Hl. rewrite !(fillCyclic_cases _ t) by done. destruct (tx_staging tx !! t) as [stg|]; [|done].
  unfold fill_table. case_decide; [done|]. do 3 f_equal. apply map_eq. intros k.
  rewrite !map_lookup_imap. by rewrite visible_only_table.
Qed.

Lemma fillCyclic_local tgt t tx : tx_local t tx → tx_local t (fillCyclic tgt tx).
Proof.
  intros Hl. rewrite (fillCyclic_cases _ t) by done. destruct (tx_staging tx !! t) as [stg|]; [|done].
  unfold fill_table. case_decide; [done|]. destruct Hl as [Hw Hs]. split; simpl; [|done].
  intros t' k Hne. by apply on_table_local.
Qed.

Lemma commit_table tx tgt t :
  tx_local t tx → only_table t (commit tx tgt) = commit tx (only_table t tgt).
Proof.
  intros [Hw _]. apply map_eq. intros [t' k]. rewrite lookup_only_table, !lookup_commit.
  unfold visible. rewrite lookup_only_table. case_decide as Ht; [done|]. by rewrite Hw.
Qed.

Lemma commit_other tx tgt t t' :
  tx_local t tx → t' ≠ t → only_table t' (commit tx tgt) = only_table t' tgt.
Proof.
  intros [Hw _] Hne. apply map_eq. intros [t1 k]. rewrite !lookup_only_table.
  case_decide as Ht; [subst|done]. rewrite lookup_commit. unfold visible. by rewrite Hw.
Qed.

Lemma consume_table t ids p : only_table t (consume t ids p) = consume t ids (only_table t p).
Proof.
  apply map_eq. intros [t' i]. rewrite lookup_only_table, !lookup_consume, lookup_only_table.
  by repeat case_decide.
Qed.

Lemma consume_other t ids p t' : t' ≠ t → only_table t' (consume t ids p) = only_table t' p.
Proof.
  intros Hne. apply map_eq. intros [t1 i]. rewrite !lookup_only_table, lookup_consume.
  case_decide as Ht; [subst|done]. by rewrite decide_False by naive_solver.
Qed.

Lemma reread_table cols src t keys : reread cols (only_table t src) t keys = reread cols src t keys.
Proof. apply map_eq. intros k. by rewrite !lookup_reread, lookup_only_table_eq. Qed.

(** ** A local call is the same call on the view *)

Lemma view_insert_tx c t v tx :
  view c t (set_tx v (<[c := tx]> (a_tx v))) = set_tx (view c t v) (<[c := tx]> (a_tx (view c t v))).
Proof. unfold view, set_tx. simpl. by rewrite only_conn_insert. Qed.

Lemma conn_local_insert c t v tx :
  tx_local t tx → conn_local c t (set_tx v (<[c := tx]> (a_tx v))).
Proof. intros Hl tx'. simpl. rewrite lookup_insert_eq. by intros [= <-]. Qed.

Lemma conn_local_delete c t v x : a_tx v = delete c x → conn_local c t v.
Proof. intros Hx tx. by rewrite Hx, lookup_delete_eq. Qed.

Lemma tx_effect_view c t (f g : pgApplyTx → option pgApplyTx) v v' r :
  (∀ tx, tx_local t tx → g tx = f tx) →
  (∀ tx tx', tx_local t tx → f tx = Some tx' → tx_local t tx') →
  conn_local c t v → tx_effect c f v v' r →
  tx_effect c g (view c t v) (view c t v') r ∧ conn_local c t v'.
Proof.
  intros Hg Hf Hl (tx & tx' & Hx & Hfx & -> & ->). pose proof (Hl tx Hx) as Htx. split.
  - exists tx, tx'. simpl. rewrite lookup_only_conn, Hg by done. split_and!; [done..|].
    apply view_insert_tx.
  - apply conn_local_insert. by apply (Hf tx).
Qed.

Lemma effect_view c t o v r v' :
  local_call t o → conn_local c t v → effect c o v r v' →
  effect c o (view c t v) r (view c t v') ∧ conn_local c t v'.
Proof.
  intros Ho Hl He. destruct o; simpl in *; try done; subst.
  - destruct He as [-> ->]. split; [|done]. split; [done|]. by rewrite reread_table.
  - case_decide; [|done]. split; [|done]. unfold view, set_pend. simpl.
    by rewrite consume_table.
  - destruct He as [-> ->]. rewrite lookup_only_conn. split.
    + split; [done|]. apply (view_insert_tx c t v).
    + apply conn_local_insert. split; simpl; [|by intros; apply lookup_empty].
      intros t' k Hne. destruct (a_tx v !! c) as [tx|] eqn:E; simpl; [|apply lookup_empty].
      by apply (Hl tx E).
  - destruct He as (stg & -> & He). eapply tx_effect_view in He as [He Hl']; [| | |done].
    + split; [|exact Hl']. by exists stg.
    + intros tx _. simpl. by rewrite stageUpsert_table.
    + intros tx tx' Htx [= <-]. by apply stageUpsert_local.
  - eapply tx_effect_view; [| |done|exact He]; [done|]. intros tx tx'. apply deleteAbsent_local.
  - eapply tx_effect_view; [| |done|exact He]; simpl.
    + intros tx Htx. by rewrite fillCyclic_table.
    + intros tx tx' Htx [= <-]. by apply fillCyclic_local.
  - destruct He as [(tx & Hx & ->)|[He ->]].
    + split; [|by eapply conn_local_delete]. left. exists tx. rewrite lookup_only_conn.
      split; [done|]. unfold view, set_tx, set_tgt. simpl.
      by rewrite only_conn_delete, commit_table by auto.
    + split; [|by eapply conn_local_delete]. right. split; [done|].
      unfold view, set_tx. simpl. by rewrite only_conn_delete.
  - split; [|by eapply conn_local_delete].
    unfold view, set_tx. simpl. by rewrite only_conn_delete.
Qed.

(** ... and no call for anybody else. *)
Lemma effect_other c t o v r v' c' t' :
  local_call t o → conn_local c t v → effect c o v r v' → c' ≠ c → t' ≠ t →
  view c' t' v' = view c' t' v.
Proof.
  intros Ho Hl He Hc Ht.
  assert (∀ f r, tx_effect c f v v' r → view c' t' v' = view c' t' v) as Htx.
  { intros f r' (tx & tx' & _ & _ & _ & ->). unfold view, set_tx. simpl. f_equal.
    apply only_conn_ext. by rewrite lookup_insert_ne by done. }
  assert (only_conn c' (delete c (a_tx v)) = only_conn c' (a_tx v)) as Hdel.
  { apply only_conn_ext. by rewrite lookup_delete_ne by done. }
  destruct o; simpl in *; try done; subst.
  - by destruct He as [-> _].
  - case_decide; [|done]. unfold view, set_pend. simpl. by rewrite consume_other.
  - destruct He as [_ ->]. unfold view, set_tx. simpl. f_equal.
    apply only_conn_ext. by rewrite lookup_insert_ne by done.
  - destruct He as (stg & _ & He). by eapply Htx.
  - by eapply Htx.
  - by eapply Htx.
  - destruct He as [(tx & Hx & ->)|[_ ->]]; unfold view, set_tx; simpl; rewrite Hdel; [|done].
    by rewrite (commit_other _ _ t) by auto.
  - unfold view, set_tx. simpl. by rewrite Hdel.
Qed.

Lemma rely_conn_local c t v v' : rely v v' → conn_local c t v → conn_local c t v'.
Proof. intros Hr Hl tx. rewrite (rely_tx _ _ Hr). apply Hl. Qed.

(** A local step, seen from its task and from the others. *)
Lemma step_view c t o v r v' :
  local_call t o → conn_local c t v → contract c o v r v' →
  contract c o (view c t v) r (view c t v') ∧ conn_local c t v'.
Proof.
  intros Ho Hl (v1 & v2 & R1 & He & R2).
  pose proof (rely_conn_local _ _ _ _ R1 Hl) as Hl1.
  assert ((effect c o (view c t v1) r (view c t v2) ∨
      may_fail o ∧ (∃ e, r = inl e) ∧ view c t v2 = view c t v1) ∧ conn_local c t v2) as [He2 Hl2].
  { destruct He as [He|(Hm & Hr & ->)]; [|by split; [right|]].
    destruct (effect_view c t o v1 r v2 Ho Hl1 He). by split; [left|]. }
  split; [|by apply (rely_conn_local _ _ v2)].
  exists (view c t v1), (view c t v2). split_and!; [by apply view_rely|done|by apply view_rely].
Qed.

Lemma step_other c t o v r v' c' t' :
  local_call t o → conn_local c t v → contract c o v r v' → c' ≠ c → t' ≠ t →
  rely (view c' t' v) (view c' t' v').
Proof.
  intros Ho Hl (v1 & v2 & R1 & He & R2) Hc Ht.
  apply (rely_trans _ (view c' t' v1)); [by apply view_rely|].
  replace (view c' t' v1) with (view c' t' v2); [by apply view_rely|].
  destruct He as [He|(_ & _ & ->)]; [|done].
  by apply (effect_other c t o v1 r); [|apply (rely_conn_local _ _ v)|..].
Qed.

Lemma step_tx c t o v r v' c' :
  local_call t o → contract c o v r v' → c' ≠ c → a_tx v' !! c' = a_tx v !! c'.
Proof.
  intros Ho (v1 & v2 & R1 & He & R2) Hc. rewrite (rely_tx _ _ R2), <-(rely_tx _ _ R1).
  destruct He as [He|(_ & _ & ->)]; [|done].
  assert (∀ f r, tx_effect c f v1 v2 r → a_tx v2 !! c' = a_tx v1 !! c') as Htx.
  { intros f r' (tx & tx' & _ & _ & _ & ->). simpl. by rewrite lookup_insert_ne by done. }
  destruct o; simpl in *; try done; subst.
  - by destruct He as [-> _].
  - by case_decide.
  - destruct He as [_ ->]. simpl. by rewrite lookup_insert_ne by done.
  - destruct He as (stg & _ & He). by eapply Htx.
  - by eapply Htx.
  - by eapply Htx.
  - destruct He as [(tx & _ & ->)|[_ ->]]; simpl; by rewrite lookup_delete_ne by done.
  - simpl. by rewrite lookup_delete_ne by done.
Qed.

(** A task that is safe stays safe under interference. *)
Lemma contract_rely c o v v1 r v' : rely v v1 → contract c o v1 r v' → contract c o v r v'.
Proof.
  intros R (w1 & w2 & R1 & He & R2). exists w1, w2. split_and!; [by apply (rely_trans _ v1)|done..].
Qed.

Lemma safe_rely T {A} (p : prog A) (Q : A → astate → Prop) v v' :
  (∀ a v v', Inv T v → rely v v' → Q a v → Q a v') →
  rely v v' → safe contract requires (Inv T) p Q v → safe contract requires (Inv T) p Q v'.
Proof.
  intros HQ R. revert v v' R. induction p as [a|c o k IH]; intros v v' R [HI Hp]; simpl.
  - split; [by apply (rely_Inv v)|by apply (HQ a v)].
  - destruct Hp as [Hpre Hp]. split_and!; [by apply (rely_Inv v)|by apply (requires_rely _ _ v)|].
    intros r w Hc. apply Hp. by apply (contract_rely c o v v').
Qed.
End view.

(** ** A phase keeps what its tasks keep

    [Pre i] is what the task of index [i] needs to know of its table, [Post i r] what it
    hands back with its result. *)

Section pool.
Context `{Sch : Schema} (T : TableRef → Prop) (c0 : nat) (pool : list nat) (n : nat).
Context (tref : nat → TableRef) (task : nat → nat → prog (option error)) (order : list nat).
Context (Pre : nat → astate → Prop) (Post : nat → option error → astate → Prop) (v0 : astate).

Hypothesis pre_stable : ∀ i s s', Inv T s → rely s s' → Pre i s → Pre i s'.
Hypothesis post_stable : ∀ i r s s', Inv T s → rely s s' → Post i r s → Post i r s'.
Hypothesis pre_skip : ∀ i e s, Pre i s → Post i (Some e) s.

(** The end of a task on connection [c]. *)
Definition ends (c i : nat) (r : option error) (s : astate) : Prop :=
  a_tx s !! c = None ∧ Post i r (set_tx s ∅).

Hypothesis task_safe : ∀ c i s,
  i ∈ order → Inv T s → a_tx s !! c = None → Pre i (set_tx s ∅) →
  safe contract requires (Inv T) (task c i) (ends c i) s.
Hypothesis task_local : ∀ c i, i ∈ order → local c (tref i) (task c i).
Hypothesis order_tables : NoDup (tref <$> order).
Hypothesis order_bound : ∀ i, i ∈ order → i < n.
Hypothesis pool_distinct : NoDup pool.

Definition pending (s : poolState) : list nat := option_list (ps_wait s) ++ ps_queue s.

Record go_ok (v : astate) (g : goroutine) : Prop := {
  go_local : local (go_conn g) (tref (go_idx g)) (go_prog g);
  go_tx : conn_local (go_conn g) (tref (go_idx g)) v;
  go_safe : safe contract requires (Inv T) (go_prog g) (ends (go_conn g) (go_idx g))
              (view (go_conn g) (tref (go_idx g)) v)
}.

Record pool_inv (s : poolState) (done : list nat) (v : astate) : Prop := {
  pi_inv : Inv T v;
  pi_conns : ps_free s ++ (go_conn <$> ps_run s) ≡ₚ pool;
  pi_order : pending s ++ (go_idx <$> ps_run s) ++ done ≡ₚ order;
  pi_len : length (ps_errs s) = n;
  pi_free c : c ∈ ps_free s → a_tx v !! c = None;
  pi_pend i : i ∈ pending s → Pre i (tview (tref i) v);
  pi_run g : g ∈ ps_run s → go_ok v g;
  pi_done i : i ∈ done → ∃ r, ps_errs s !! i = Some r ∧ Post i r (tview (tref i) v);
  pi_frame t : t ∉ tref <$> order → rely (tview t v0) (tview t v)
}.

Lemma ends_stable c i r s s' : Inv T s → rely s s' → ends c i r s → ends c i r s'.
Proof.
  intros HI R [Hx Hp]. split; [by rewrite (rely_tx _ _ R)|].
  apply (post_stable i r (set_tx s ∅)); [by apply Inv_no_tx|by apply no_tx_rely|done].
Qed.

Lemma Inv_tview t v : Inv T v → Inv T (tview t v).
Proof. intros HI. by apply Inv_no_tx, Inv_view. Qed.

(** What holds of the bystanders of a step. *)
Lemma go_ok_other v v' g :
  go_ok v g → a_tx v' !! go_conn g = a_tx v !! go_conn g →
  rely (view (go_conn g) (tref (go_idx g)) v) (view (go_conn g) (tref (go_idx g)) v') →
  go_ok v' g.
Proof.
  intros [Hl Ht Hs] Hx R. split; [done| |].
  - intros tx. rewrite Hx. apply Ht.
  - eapply safe_rely; [|exact R|exact Hs]. intros r s s'. apply ends_stable.
Qed.

Lemma pool_inv_rely s done v v' : rely v v' → pool_inv s done v → pool_inv s done v'.
Proof.
  intros R [HI Hc Ho Hl Hf Hp Hr Hd Hfr]. split; try done.
  - by apply (rely_Inv v).
  - intros c Hin. rewrite (rely_tx _ _ R). by apply Hf.
  - intros i Hi. apply (pre_stable i (tview (tref i) v)); [by apply Inv_tview|by apply tview_rely|auto].
  - intros g Hg. apply (go_ok_other v); [by apply Hr|by rewrite (rely_tx _ _ R)|by apply view_rely].
  - intros i (r & He & HP)%Hd. exists r. split; [done|].
    apply (post_stable i r (tview (tref i) v)); [by apply Inv_tview|by apply tview_rely|done].
  - intros t Ht. apply (rely_trans _ (tview t v)); [by apply Hfr|by apply tview_rely].
Qed.

Lemma pool_tables s done v :
  pool_inv s done v → NoDup (tref <$> (pending s ++ (go_idx <$> ps_run s) ++ done)).
Proof. intros Hp. by rewrite (pi_order _ _ _ Hp). Qed.

(** The table of a goroutine is nobody else's. *)
Lemma table_apart s done v k g i :
  pool_inv s done v → ps_run s !! k = Some g → i ∈ pending s ∨ i ∈ done →
  tref i ≠ tref (go_idx g).
Proof.
  intros Hp Hk Hi Heq. pose proof (pool_tables _ _ _ Hp) as Hn.
  rewrite (delete_Permutation _ _ _ Hk), fmap_cons, <-app_comm_cons,
    <-Permutation_middle, fmap_cons in Hn.
  apply NoDup_cons in Hn as [Hn _]. apply Hn. rewrite <-Heq. apply list_elem_of_fmap_2.
  rewrite !elem_of_app. tauto.
Qed.

Lemma runs_apart s done v k g k' g' :
  pool_inv s done v → ps_run s !! k = Some g → ps_run s !! k' = Some g' → k ≠ k' →
  go_conn g' ≠ go_conn g ∧ tref (go_idx g') ≠ tref (go_idx g).
Proof.
  intros Hp Hk Hk' Hne. split; intros Heq; apply Hne.
  - assert (NoDup (go_conn <$> ps_run s)) as Hn.
    { pose proof pool_distinct as Hd. rewrite <-(pi_conns _ _ _ Hp) in Hd. by apply NoDup_app in Hd as (_ & _ & ?). }
    apply (NoDup_lookup _ k k' (go_conn g) Hn); rewrite list_lookup_fmap; [by rewrite Hk|].
    rewrite Hk'. simpl. by rewrite Heq.
  - pose proof (pool_tables _ _ _ Hp) as Hn. rewrite !fmap_app in Hn.
    apply NoDup_app in Hn as (_ & _ & Hn). apply NoDup_app in Hn as (Hn & _ & _).
    apply (NoDup_lookup _ k k' (tref (go_idx g)) Hn); rewrite !list_lookup_fmap; [by rewrite Hk|].
    rewrite Hk'. simpl. by rewrite Heq.
Qed.

Lemma free_apart s done v k g c :
  pool_inv s done v → ps_run s !! k = Some g → c ∈ ps_free s → c ≠ go_conn g.
Proof.
  intros Hp Hk Hc ->. pose proof pool_distinct as Hd. rewrite <-(pi_conns _ _ _ Hp) in Hd.
  apply NoDup_app in Hd as (_ & Hd & _). apply (Hd _ Hc). apply list_elem_of_fmap_2.
  by eapply list_elem_of_lookup_2.
Qed.


(** *** The moves of a goroutine *)

Definition set_run (s : poolState) (run : list goroutine) : poolState :=
  mkPool (ps_queue s) (ps_wait s) (ps_free s) run (ps_errs s).

Lemma other_tables_step c t o v r v' t' :
  local_call t o → conn_local c t v → contract c o v r v' → t' ≠ t →
  rely (tview t' v) (tview t' v').
Proof.
  intros Ho Hl Hc Hne. apply (no_tx_rely (view (S c) t' v) (view (S c) t' v')).
  by apply (step_other c t o v r); [..|lia|].
Qed.

Lemma step_Inv c t o v r v' :
  local_call t o → conn_local c t v → contract c o v r v' → Inv T v →
  Inv T (view c t v') → Inv T v'.
Proof.
  intros Ho Hl Hc HI HI'. apply Inv_tviews. intros t'. destruct (decide (t' = t)) as [->|Hne].
  - by apply (Inv_no_tx (view c t v')).
  - apply (rely_Inv (tview t' v)); [by eapply other_tables_step|by apply Inv_tview].
Qed.

Lemma go_step_inv s done v k i c c' o f r v' :
  pool_inv s done v → ps_run s !! k = Some (mkGo i c (Call c' o f)) →
  contract c' o v r v' →
  pool_inv (set_run s (<[k := mkGo i c (f r)]> (ps_run s))) done v'.
Proof.
  intros Hp Hk Hc. pose proof (pi_run _ _ _ Hp _ (list_elem_of_lookup_2 _ _ _ Hk)) as [Hl Ht Hs].
  simpl in Hl, Ht, Hs. destruct Hl as (-> & Ho & Hl), Hs as [HIv [_ Hs]].
  destruct (step_view c (tref i) o v r v' Ho Ht Hc) as [Hcv Ht'].
  specialize (Hs r _ Hcv).
  assert (∀ t, t ≠ tref i → rely (tview t v) (tview t v')) as Hoth.
  { intros t. by apply (other_tables_step c _ o v r). }
  assert (∀ j, j ∈ pending s ∨ j ∈ done → rely (tview (tref j) v) (tview (tref j) v')) as Hapart.
  { intros j Hj. apply Hoth. by apply (table_apart s done v k (mkGo i c (Call c o f))). }
  assert (i ∈ order) as Hi.
  { rewrite <-(pi_order _ _ _ Hp), !elem_of_app. right; left.
    apply (list_elem_of_fmap_2 go_idx (ps_run s) (mkGo i c (Call c o f))). by eapply list_elem_of_lookup_2. }
  assert (∀ A (h : goroutine → A), h (mkGo i c (f r)) = h (mkGo i c (Call c o f)) →
    h <$> <[k := mkGo i c (f r)]> (ps_run s) = h <$> ps_run s) as Hfm.
  { intros A h Hh. rewrite list_fmap_insert, Hh, list_insert_id; [done|].
    by rewrite list_lookup_fmap, Hk. }
  pose proof Hp as [HI Hcn Hor Hle Hfr Hpe Hru Hdo Hfa].
  split; simpl; rewrite ?Hfm by done; try done.
  - by apply (step_Inv c (tref i) o v r); [..|eapply safe_I].
  - intros c1 Hc1. rewrite (step_tx c (tref i) o v r v' c1); [by apply Hfr|done..|].
    by apply (free_apart s done v k (mkGo i c (Call c o f)) c1 Hp).
  - intros j Hj. apply (pre_stable j (tview (tref j) v)); [by apply Inv_tview| |by apply Hpe].
    apply Hapart. by left.
  - intros g (k' & Hg)%list_elem_of_lookup.
    apply list_lookup_insert_Some in Hg as [(<- & <- & _)|[Hne Hg]]; [split; [apply Hl|done..]|].
    destruct (runs_apart s done v k _ k' g Hp Hk Hg Hne) as [Hc1 Ht1].
    apply (go_ok_other v); [by apply Hru; eapply list_elem_of_lookup_2| |].
    + by apply (step_tx c (tref i) o v r).
    + by apply (step_other c (tref i) o v r).
  - intros j Hj. destruct (Hdo j Hj) as (r' & He & HP). exists r'. split; [done|].
    apply (post_stable j r' (tview (tref j) v)); [by apply Inv_tview| |done].
    apply Hapart. by right.
  - intros t Hout. apply (rely_trans _ (tview t v)); [by apply Hfa|]. apply Hoth.
    intros ->. by apply Hout, list_elem_of_fmap_2.
Qed.

Lemma end_inv s done v k i c r :
  pool_inv s done v → ps_run s !! k = Some (mkGo i c (Ret r)) →
  pool_inv (finished i c r (delete k (ps_run s)) s) (i :: done) v.
Proof.
  intros Hp Hk. pose proof (pi_run _ _ _ Hp _ (list_elem_of_lookup_2 _ _ _ Hk)) as [_ _ Hs].
  simpl in Hs. destruct Hs as [_ [Hx HP]]. simpl in Hx. rewrite lookup_only_conn in Hx.
  pose proof (delete_Permutation _ _ _ Hk) as Hperm.
  pose proof (fmap_Permutation go_conn _ _ Hperm) as Hpc.
  pose proof (fmap_Permutation go_idx _ _ Hperm) as Hpi. simpl in Hpc, Hpi.
  assert (i ∈ order) as Hi.
  { rewrite <-(pi_order _ _ _ Hp), !elem_of_app. right; left.
    apply (list_elem_of_fmap_2 go_idx (ps_run s) (mkGo i c (Ret r))). by eapply list_elem_of_lookup_2. }
  assert (∀ j, j ∈ done → j ≠ i) as Hne.
  { intros j Hj ->. by apply (table_apart s done v k _ i Hp Hk (or_intror Hj)). }
  destruct Hp as [HI Hcn Hor Hle Hfr Hpe Hru Hdo Hfa].
  split; simpl; try done.
  - by rewrite <-Hcn, Hpc, <-app_assoc.
  - rewrite <-Hor, Hpi. simpl. apply Permutation_app_head. by rewrite <-Permutation_middle.
  - by rewrite length_insert.
  - intros c1 [Hc1| ->%list_elem_of_singleton]%elem_of_app; [by apply Hfr|done].
  - intros g Hg. apply Hru. rewrite Hperm. by right.
  - intros j [-> |Hj]%elem_of_cons.
    + exists r. split; [|done]. apply list_lookup_insert_eq. rewrite Hle. by apply order_bound.
    + destruct (Hdo j Hj) as (r' & He & HP'). exists r'. split; [|done].
      rewrite list_lookup_insert_ne; [done|]. by apply not_eq_sym, Hne.
Qed.

(** *** The moves of the dispatching loop *)

Lemma launch_inv s done v i c free :
  pool_inv s done v → ps_wait s = Some i → ps_free s = c :: free →
  pool_inv (mkPool (ps_queue s) None free (ps_run s ++ [mkGo i c (task c i)]) (ps_errs s)) done v.
Proof.
  intros [HI Hcn Hor Hle Hfr Hpe Hru Hdo Hfa] Hw Hf.
  unfold pending in *. rewrite Hw in *. rewrite Hf in *. simpl in *.
  assert (i ∈ order) as Hi by (rewrite <-Hor; by left).
  assert (a_tx v !! c = None) as Hx by (apply Hfr; by left).
  split; simpl; try done.
  - rewrite <-Hcn, fmap_app. simpl. by rewrite app_assoc, <-Permutation_cons_append.
  - rewrite <-Hor, fmap_app. simpl. rewrite <-app_assoc. simpl.
    rewrite Permutation_middle. apply Permutation_app_head. by rewrite <-Permutation_middle.
  - intros c1 Hc1. apply Hfr. by right.
  - intros j Hj. apply Hpe. by right.
  - intros g [Hg| ->%list_elem_of_singleton]%elem_of_app; [by apply Hru|].
    split; simpl.
    + by apply task_local.
    + intros tx. by rewrite Hx.
    + apply task_safe; [done|by apply Inv_view|simpl; by rewrite lookup_only_conn|].
      rewrite tview_view. apply Hpe. by left.
Qed.

Lemma skip_inv s done v i q e :
  pool_inv s done v → ps_wait s = None → ps_queue s = i :: q →
  pool_inv (mkPool q None (ps_free s) (ps_run s) (<[i := Some e]> (ps_errs s))) (i :: done) v.
Proof.
  intros Hp Hw Hq. pose proof (pool_tables _ _ _ Hp) as Hn.
  destruct Hp as [HI Hcn Hor Hle Hfr Hpe Hru Hdo Hfa].
  unfold pending in *. rewrite Hw, Hq in *. simpl in *.
  assert (i ∈ order) as Hi by (rewrite <-Hor; by left).
  split; simpl; try done.
  - rewrite <-Hor. by rewrite !app_assoc, <-Permutation_middle.
  - by rewrite length_insert.
  - intros j Hj. apply Hpe. by right.
  - intros j [-> |Hj]%elem_of_cons.
    + exists (Some e). split; [|by apply pre_skip, Hpe; left].
      apply list_lookup_insert_eq. rewrite Hle. by apply order_bound.
    + destruct (Hdo j Hj) as (r' & He & HP'). exists r'. split; [|done].
      rewrite list_lookup_insert_ne; [done|]. intros ->. apply NoDup_cons in Hn as [Hn _].
      apply Hn. apply list_elem_of_fmap_2. rewrite !elem_of_app. by right; right.
Qed.

Lemma wait_inv s done v i q :
  pool_inv s done v → ps_wait s = None → ps_queue s = i :: q →
  pool_inv (mkPool q (Some i) (ps_free s) (ps_run s) (ps_errs s)) done v.
Proof.
  intros [HI Hcn Hor Hle Hfr Hpe Hru Hdo Hfa] Hw Hq.
  unfold pending in *. rewrite Hw, Hq in *. by split.
Qed.

Lemma check_ctx_inv s done v i q :
  pool_inv s done v → ps_wait s = None → ps_queue s = i :: q →
  safe contract requires (Inv T) (check_ctx c0 i q s)
    (λ s' v', ps_queue s' = q ∧ ps_free s' = ps_free s ∧ ps_run s' = ps_run s ∧
       ∃ done, pool_inv s' done v') v.
Proof.
  intros Hp Hw Hq. unfold check_ctx. apply safe_bind. apply safe_call; [apply Hp|done|].
  intros r v' (v1 & v2 & R1 & He & R2).
  assert (rely v v') as R.
  { apply (rely_trans _ v1); [done|]. by destruct He as [->|(_ & _ & ->)]. }
  assert (pool_inv s done v') as Hp' by by apply (pool_inv_rely s done v).
  split; [apply Hp'|]. apply safe_ret; [apply Hp'|]. destruct r as [e|u]; (split_and!; [done..|]).
  - exists (i :: done). by apply (skip_inv s done v' i q e).
  - exists done. by apply (wait_inv s done v' i q).
Qed.

(** *** The schedule *)

Definition pool_kept (s : poolState) (v : astate) : Prop := ∃ done, pool_inv s done v.

Lemma turn_inv choice s done v :
  pool_inv s done v → safe contract requires (Inv T) (turn task c0 choice s) pool_kept v.
Proof.
  intros Hp. assert (safe contract requires (Inv T) (Ret s) pool_kept v) as Hstay.
  { apply safe_ret; [apply Hp|by exists done]. }
  destruct choice as [|k]; simpl.
  - unfold dispatch. destruct (ps_wait s) as [i|] eqn:Hw.
    + destruct (ps_free s) as [|c free] eqn:Hf; [done|].
      apply safe_ret; [apply Hp|]. exists done. by apply launch_inv.
    + destruct (ps_free s), (ps_queue s) as [|i q] eqn:Hq; try done;
        (eapply safe_mono; [|by apply (check_ctx_inv s done)]; by intros s' v' _ (_ & _ & _ & ?)).
  - unfold go_step. destruct (ps_run s !! k) as [[i c [r|c' o f]]|] eqn:Hk; [| |done].
    + apply safe_ret; [apply Hp|]. exists (i :: done). by apply end_inv.
    + pose proof (pi_run _ _ _ Hp _ (list_elem_of_lookup_2 _ _ _ Hk)) as [Hl _ Hs].
      simpl in Hl, Hs. destruct Hl as (-> & Ho & _), Hs as [_ [Hpre _]].
      apply safe_bind. apply safe_call; [apply Hp|by destruct o|]. intros r v' Hc.
      pose proof (go_step_inv s done v k i c c o f r v' Hp Hk Hc) as Hp'.
      split; [apply Hp'|]. apply safe_ret; [apply Hp'|]. by exists done.
Qed.

Lemma turns_inv sched s done v :
  pool_inv s done v → safe contract requires (Inv T) (turns task c0 sched s) pool_kept v.
Proof.
  revert s done v. induction sched as [|choice sched IH]; intros s done v Hp; cbn [turns].
  - apply safe_ret; [apply Hp|by exists done].
  - apply safe_bind. eapply safe_mono; [|by apply (turn_inv choice s done)].
    intros s' v' _ (done' & Hp'). by apply (IH s' done').
Qed.

(** A goroutine that runs to its end without interruption. *)
Lemma run_one s done v i c p run :
  pool_inv s done v → ps_run s = mkGo i c p :: run →
  safe contract requires (Inv T) p
    (λ r v', pool_inv (finished i c r run s) (i :: done) v') v.
Proof.
  revert s v. induction p as [r|c' o f IH]; intros s v Hp Hr.
  - apply safe_ret; [apply Hp|]. pose proof (end_inv s done v 0 i c r Hp) as He.
    rewrite Hr in He. by apply He.
  - pose proof (pi_run _ _ _ Hp (mkGo i c (Call c' o f))) as Hg. rewrite Hr in Hg.
    destruct (Hg (list_elem_of_here _ _)) as [(Hc' & Ho & _) _ [_ [Hpre _]]].
    simpl in Hc', Ho, Hpre. subst c'. split_and!; [apply Hp|by destruct o|]. intros r v' Hc.
    assert (ps_run s !! 0 = Some (mkGo i c (Call c o f))) as Hk by by rewrite Hr.
    pose proof (go_step_inv s done v 0 i c c o f r v' Hp Hk Hc) as Hp'. rewrite Hr in Hp'.
    eapply safe_mono; [|by apply (IH r _ v' Hp')]. by intros.
Qed.

Lemma join_running_inv run s done v :
  pool_inv s done v → ps_run s = run →
  safe contract requires (Inv T) (join_running run s)
    (λ s' v', ps_run s' = [] ∧ ps_wait s' = ps_wait s ∧ ps_queue s' = ps_queue s ∧
       pool_kept s' v') v.
Proof.
  revert s done v. induction run as [|[i c p] run IH]; intros s done v Hp Hr; cbn [join_running go_idx go_conn go_prog].
  - apply safe_ret; [apply Hp|]. split_and!; [done..|]. by exists done.
  - apply safe_bind. eapply safe_mono; [|by apply (run_one s done v i c p run)].
    intros r v' _ Hp'. exact (IH _ (i :: done) v' Hp' eq_refl).
Qed.

Lemma serve_waiting_inv s done v :
  pool ≠ [] → pool_inv s done v → ps_run s = [] →
  safe contract requires (Inv T) (serve_waiting task s)
    (λ s' v', ps_run s' = [] ∧ ps_wait s' = None ∧ ps_queue s' = ps_queue s ∧ pool_kept s' v') v.
Proof.
  intros Hne Hp Hr. unfold serve_waiting. destruct (ps_wait s) as [i|] eqn:Hw.
  2: { apply safe_ret; [apply Hp|]. split_and!; [done..|]. by exists done. }
  destruct (ps_free s) as [|c free] eqn:Hf.
  { destruct Hne. pose proof (pi_conns _ _ _ Hp) as Hc. rewrite Hf, Hr in Hc. by apply Permutation_nil_l in Hc. }
  pose proof (launch_inv s done v i c free Hp Hw Hf) as Hp'. rewrite Hr in Hp'. simpl in Hp'.
  apply safe_bind. eapply safe_mono; [|by apply (run_one _ done v i c _ [] Hp')].
  intros r v' HI Hq. apply safe_ret; [done|]. split_and!; [done..|]. by exists (i :: done).
Qed.

Lemma serve_queue_inv queue s done v :
  pool ≠ [] → pool_inv s done v → ps_run s = [] → ps_wait s = None → ps_queue s = queue →
  safe contract requires (Inv T) (serve_queue task c0 queue s)
    (λ s' v', ps_run s' = [] ∧ ps_wait s' = None ∧ ps_queue s' = [] ∧ pool_kept s' v') v.
Proof.
  intros Hne. revert s done v. induction queue as [|i queue IH]; intros s done v Hp Hr Hw Hq; cbn [serve_queue].
  { apply safe_ret; [apply Hp|]. split_and!; [done..|]. by exists done. }
  apply safe_bind. eapply safe_mono; [|by apply (check_ctx_inv s done)].
  intros s1 v1 _ (Hq1 & _ & Hr1 & done1 & Hp1). rewrite Hr in Hr1.
  apply safe_bind. eapply safe_mono; [|by apply (serve_waiting_inv s1 done1)].
  intros s2 v2 _ (Hr2 & Hw2 & Hq2 & done2 & Hp2). by apply (IH s2 done2); [..|congruence].
Qed.

(** Whatever the schedule: the phase ends with every index of [order] done, every
    connection idle, and the other tables as the application left them. *)
Lemma applyPhase_spec sched :
  pool ≠ [] → Inv T v0 → (∀ c, c ∈ pool → a_tx v0 !! c = None) →
  (∀ i, i ∈ order → Pre i (tview (tref i) v0)) →
  safe contract requires (Inv T) (applyPhase sched c0 pool n order task)
    (λ errs v', length errs = n ∧ (∀ c, c ∈ pool → a_tx v' !! c = None) ∧
       (∀ i, i ∈ order → ∃ r, errs !! i = Some r ∧ Post i r (tview (tref i) v')) ∧
       (∀ t, t ∉ tref <$> order → rely (tview t v0) (tview t v'))) v0.
Proof.
  intros Hne HI Hidle Hpre. unfold applyPhase.
  assert (pool_inv (mkPool order None pool [] (replicate n None)) [] v0) as Hp.
  { split; simpl; try done.
    - by rewrite app_nil_r.
    - by rewrite app_nil_r.
    - apply length_replicate.
    - by intros g ?%elem_of_nil.
    - by intros i ?%elem_of_nil.
    - intros t _. apply rely_refl. apply (Inv_tview t v0 HI). }
  apply safe_bind. eapply safe_mono; [|by apply (turns_inv sched _ [] v0 Hp)].
  intros s1 v1 _ (done1 & Hp1).
  apply safe_bind. eapply safe_mono; [|by apply (join_running_inv _ s1 done1 v1 Hp1)].
  intros s2 v2 _ (Hr2 & _ & _ & done2 & Hp2).
  apply safe_bind. eapply safe_mono; [|by apply (serve_waiting_inv s2 done2 v2 Hne Hp2)].
  intros s3 v3 _ (Hr3 & Hw3 & _ & done3 & Hp3).
  apply safe_bind. eapply safe_mono; [|by apply (serve_queue_inv _ s3 done3 v3)].
  intros s4 v4 _ (Hr4 & Hw4 & Hq4 & done4 & [HI4 Hcn Hor Hle Hfr _ _ Hdo Hfa]).
  unfold pending in Hor. rewrite Hr4, Hw4, Hq4 in Hor.
  rewrite Hr4 in Hcn. simpl in Hor, Hcn. rewrite app_nil_r in Hcn.
  apply safe_ret; [done|]. split_and!; [done| | |done].
  - intros c Hc. apply Hfr. by rewrite Hcn.
  - intros i Hi. apply Hdo. by rewrite Hor.
Qed.
End pool.

(** ** Programs that stay on one connection *)

Fixpoint on_conn (c : nat) {A} (p : prog A) : Prop :=
  match p with
  | Ret _ => True
  | Call c' _ k => c' = c ∧ ∀ r, on_conn c (k r)
  end.

Lemma on_conn_bind c {A B} (p : prog A) (f : A → prog B) :
  on_conn c p → (∀ a, on_conn c (f a)) → on_conn c (p ≫= f).
Proof.
  intros Hp Hf. induction p as [a|c' o k IH]; [apply Hf|]. destruct Hp as [Hc Hk].
  split; [done|]. intros r. by apply IH.
Qed.

Lemma on_conn_call c o : on_conn c (do_call c o).
Proof. by split. Qed.

Lemma on_conn_ret c {A} (a : A) : on_conn c (Ret a).
Proof. done. Qed.

Lemma on_conn_for_each c {A S B} (l : list A) (body : A → S → prog (B + S)) s :
  (∀ x s, on_conn c (body x s)) → on_conn c (for_each l body s).
Proof.
  intros Hb. revert s. induction l as [|x l IH]; intros s; simpl; [done|].
  apply on_conn_bind; [apply Hb|]. by intros [b|s'].
Qed.

Create HintDb conn.
#[local] Hint Resolve on_conn_ret on_conn_call : conn.

(** Follows the shape of a program: binds, loops, case distinctions. *)
Ltac conn_solve :=
  repeat first
    [ solve [auto 2 with conn nocore]
    | progress intros
    | match goal with
      | |- on_conn _ (do_call _ _) => apply on_conn_call
      | |- on_conn _ (for_each _ _ _) => apply on_conn_for_each
      | |- on_conn _ (_ ≫= _) => apply on_conn_bind
      | |- on_conn _ (match ?x with _ => _ end) => destruct x
      end ].

Lemma try_call_conn c o k : on_conn c k → on_conn c (try_call c o k).
Proof. intros Hk. unfold try_call. conn_solve. Qed.
Lemma try_prog_conn c p k : on_conn c p → on_conn c k → on_conn c (try_prog p k).
Proof. intros Hp Hk. unfold try_prog. conn_solve. Qed.
Lemma pipeStageUpsert_conn c ref cols keys : on_conn c (pipeStageUpsert c ref cols keys).
Proof. unfold pipeStageUpsert. conn_solve. Qed.
Lemma rollback_if_conn c r : on_conn c (rollback_if c r).
Proof. unfold rollback_if. conn_solve. Qed.
#[local] Hint Resolve try_call_conn try_prog_conn pipeStageUpsert_conn rollback_if_conn : conn.

Lemma phase_conn c cyclic tables w del fill : on_conn c (phase c cyclic tables w del fill).
Proof.
  unfold phase, with_rollback. apply try_call_conn, on_conn_bind; [|auto with conn nocore].
  destruct del, fill; auto 6 with conn nocore.
Qed.

Lemma perTableUpsert_conn c w : on_conn c (perTableUpsert c w).
Proof. apply (phase_conn c false [tw_ref w] w false false). Qed.
Lemma perTableDelete_conn c w : on_conn c (perTableDelete c w).
Proof. apply (phase_conn c false [tw_ref w] w true false). Qed.
Lemma perTableApplyCyclic_conn c w tables del fill :
  on_conn c (perTableApplyCyclic c w tables del fill).
Proof. apply (phase_conn c true tables w del fill). Qed.
#[local] Hint Resolve perTableUpsert_conn perTableDelete_conn perTableApplyCyclic_conn : conn.

Lemma gatherWork_conn c tables target batch : on_conn c (gatherWork c tables target batch).
Proof. unfold gatherWork, gather_table, transportColumns. conn_solve. Qed.

Lemma drainAcyclicSeq_conn c work target : on_conn c (drainAcyclicSeq c work target).
Proof. unfold drainAcyclicSeq, upsert_step, delete_step, finish. conn_solve. Qed.

Lemma drainCyclicNullFillSeq_conn c work tables target cols :
  on_conn c (drainCyclicNullFillSeq c work tables target cols).
Proof.
  unfold drainCyclicNullFillSeq, cyclic_upsert_step, cyclic_delete_step, cyclic_fill_step,
    cyclic_confirm_step. conn_solve.
Qed.

Lemma drainAtomic_conn c work total tables target cyclic :
  on_conn c (drainAtomic c work total tables target cyclic).
Proof.
  unfold drainAtomic, atomic_tx, with_rollback, stage_step, delete_absent_step, confirm_step.
  conn_solve.
Qed.

Lemma local_call_conn c t o : local_call t o → local c t (do_call c o).
Proof. intros Ho. split; [done|]. by split. Qed.

Lemma phase_local c cyclic tables w del fill :
  local c (tw_ref w) (phase c cyclic tables w del fill).
Proof.
  unfold phase, with_rollback, rollback_if, try_prog, try_call, pipeStageUpsert.
  repeat match goal with
    | |- local _ _ (do_call _ _) => by apply local_call_conn
    | |- local _ _ (_ ≫= _) => apply local_bind
    | |- local _ _ (match ?x with _ => _ end) => destruct x
    | |- ∀ _, _ => intros
    | |- local _ _ (Ret _) => exact I
    end.
Qed.

(** ** The phases of a drain over the pool *)

Section phases.
Context `{Sch : Schema} (T : TableRef → Prop) (c0 : nat) (pool : list nat).
Context (work : list tableWork).
Abbreviation Inv := (Contract.Inv T).
Abbreviation n := (length work).

Hypothesis work_tables : NoDup (tw_ref <$> work).
Hypothesis pool_distinct : NoDup pool.
Hypothesis pool_c0 : c0 ∈ pool.

(** Between the phases: the invariant, and no transaction open on the pool. *)
Definition pool_idle (v : astate) : Prop := Inv v ∧ ∀ c, c ∈ pool → a_tx v !! c = None.

Definition work_table (i : nat) : TableRef :=
  match work !! i with Some w => tw_ref w | None => mkRef EmptyString EmptyString end.

Lemma work_table_inj i j :
  i < n → j < n → work_table i = work_table j → i = j.
Proof.
  intros [w Hw]%lookup_lt_is_Some_2 [w' Hw']%lookup_lt_is_Some_2. unfold work_table.
  rewrite Hw, Hw'. intros Heq.
  apply (NoDup_lookup _ i j (tw_ref w) work_tables); rewrite list_lookup_fmap; [by rewrite Hw|].
  rewrite Hw'. simpl. by rewrite Heq.
Qed.

(** A fact about the rows and deltas of [t] that interference keeps. *)
Definition tfact (t : TableRef) (P : astate → Prop) : Prop :=
  ∀ v v', Inv v → evolve_on t v v' → same_tgt_on t v v' → P v → P v'.

Lemma tfact_rely t P v v' : tfact t P → Inv v → rely v v' → P v → P v'.
Proof.
  intros HP HI R. apply HP; [done|by apply rely_evolve|]. intros k. by rewrite (rely_tgt _ _ R).
Qed.

Lemma tfact_same t P v v' : tfact t P → Inv v → same_data v v' → P v → P v'.
Proof.
  intros HP HI Hd. apply HP; [done|by apply same_data_evolve|]. intros k. by destruct Hd as (_ & -> & _).
Qed.

Lemma tfact_tview t P v : tfact t P → Inv v → P v → P (tview t v).
Proof.
  intros HP HI. apply HP; [done| |].
  - split; simpl; [done| |left]; intros; by rewrite lookup_only_table_eq.
  - intros k. simpl. by rewrite lookup_only_table_eq.
Qed.

Lemma tview_tfact t P v : tfact t P → Inv v → P (tview t v) → P v.
Proof.
  intros HP HI. apply HP; [by apply Inv_tview| |].
  - split; simpl; [done| |left]; intros; by rewrite lookup_only_table_eq.
  - intros k. simpl. by rewrite lookup_only_table_eq.
Qed.

(** [applyPhase] with facts about the tables of the work. *)
Lemma phase_pool sched order task (P : nat → astate → Prop) (Q : nat → option error → astate → Prop) v :
  (∀ i, tfact (work_table i) (P i)) → (∀ i r, tfact (work_table i) (Q i r)) →
  (∀ i e s, P i s → Q i (Some e) s) →
  (∀ c i s, i ∈ order → Inv s → a_tx s !! c = None → P i s →
     safe contract requires Inv (task c i) (λ r s', a_tx s' !! c = None ∧ Q i r s') s) →
  (∀ c i, i ∈ order → local c (work_table i) (task c i)) →
  NoDup order → (∀ i, i ∈ order → i < n) →
  pool_idle v → (∀ i, i ∈ order → P i v) →
  safe contract requires Inv (applyPhase sched c0 pool n order task)
    (λ errs v', length errs = n ∧ pool_idle v' ∧
       (∀ i, i ∈ order → ∃ r, errs !! i = Some r ∧ Q i r v') ∧
       (∀ i F, i < n → i ∉ order → tfact (work_table i) F → F v → F v')) v.
Proof.
  intros HP HQ Hskip Htask Hloc Hnd Hb [HI Hidle] Hpre.
  assert (∀ s, Inv s → same_data s (set_tx s ∅) ∧ same_data (set_tx s ∅) s) as Hsd by done.
  eapply safe_mono; [|apply (applyPhase_spec T c0 pool n work_table task order P Q v)]; try done.
  - intros errs v' HI' (Hl & Hid & Hpost & Hfr). split_and!; [done|done| |].
    + intros i Hi. destruct (Hpost i Hi) as (r & He & Hq). exists r. split; [done|].
      by apply (tview_tfact (work_table i)).
    + intros i F Hi Hout HF HFv. apply (tview_tfact (work_table i)); [done..|].
      apply (tfact_rely (work_table i) F (tview (work_table i) v)); [done|by apply Inv_tview| |].
      * apply Hfr. intros (j & Heq & Hj)%list_elem_of_fmap. apply Hout.
        by rewrite (work_table_inj i j) by auto.
      * by apply tfact_tview.
  - intros i s s'. by apply (tfact_rely (work_table i)).
  - intros i r s s'. by apply (tfact_rely (work_table i)).
  - intros c i s Hi HIs Hx Hp. eapply safe_mono; [|apply Htask; [done..|]].
    + intros r s' HIs' [Hx' Hq]. split; [done|]. by apply (tfact_same (work_table i) (Q i r) s').
    + apply (tfact_same (work_table i) (P i) (set_tx s ∅)); [done|by apply Inv_no_tx|by apply Hsd|done].
  - apply NoDup_fmap_2_strong; [|done]. intros i j Hi Hj. apply work_table_inj; auto.
  - intros ->. by apply elem_of_nil in pool_c0.
  - intros i Hi. apply tfact_tview; auto.
Qed.

(** *** Facts by index *)

Definition on_work (P : tableWork → astate → Prop) (i : nat) (v : astate) : Prop :=
  ∀ w, work !! i = Some w → P w v.

Lemma on_work_fact P i : (∀ w, tfact (tw_ref w) (P w)) → tfact (work_table i) (on_work P i).
Proof.
  intros HP v v' HI He Ht Hw w Hi. unfold work_table in He, Ht. rewrite Hi in He, Ht.
  by apply (HP w v); auto.
Qed.

Lemma item_fact w : tfact (tw_ref w) (λ v, item_ok v w).
Proof. intros v v' _ He _. by apply item_ok_evolve. Qed.

Lemma True_fact t : tfact t (λ _, True).
Proof. by intros v v' _ _ _ _. Qed.

Lemma forwardIdx_bound i : i ∈ forwardIdx n → i < n.
Proof. unfold forwardIdx. rewrite elem_of_seq. lia. Qed.

Lemma reverseIdx_elem mask i : i ∈ reverseIdx n mask ↔ mask !! i = Some true ∧ i < n.
Proof.
  unfold reverseIdx. rewrite list_elem_of_filter, elem_of_reverse, elem_of_seq.
  split; intros [? ?]; (split; [done|lia]).
Qed.

Lemma reverseIdx_NoDup mask : NoDup (reverseIdx n mask).
Proof.
  unfold reverseIdx. apply NoDup_filter. rewrite reverse_Permutation. apply NoDup_seq.
Qed.

Lemma Forall_on_work (P : tableWork → astate → Prop) v :
  (∀ i, i < n → on_work P i v) ↔ Forall (λ w, P w v) work.
Proof.
  rewrite Forall_lookup. split.
  - intros HP i w Hi. by apply (HP i); [eapply lookup_lt_Some|].
  - intros HP i _ w. apply HP.
Qed.

(** *** One phase of one table *)

Lemma table_task c i cyclic tables del fill w s :
  work !! i = Some w → Inv s → a_tx s !! c = None → item_ok s w → del && fill = false →
  safe contract requires Inv (phase c cyclic tables w del fill)
    (λ r s', a_tx s' !! c = None ∧ item_ok s' w ∧
       phase_post c s w (if cyclic then cyc_of tables else ∅) del fill r s') s.
Proof.
  intros Hw HI Hx Hi Hdf. eapply safe_mono; [|by apply (phase_spec c T cyclic tables w del fill s)].
  intros r s' HI' Hp. pose proof Hp as (Hx' & He & _). split_and!; [done| |done].
  eapply item_ok_evolve; [apply He|done].
Qed.

Lemma delete_task_ok c i w s :
  work !! i = Some w → Inv s → a_tx s !! c = None → item_ok s w →
  safe contract requires Inv (delete_task work sync_target c i)
    (λ r s', a_tx s' !! c = None ∧ True) s.
Proof.
  intros Hw HI Hx Hi. unfold delete_task. rewrite Hw. unfold try_prog. apply safe_bind.
  eapply safe_mono; [|by apply (table_task c i false [tw_ref w] true false w s)].
  intros r s1 HI1 (Hx1 & Hi1 & Hp). destruct r as [e|]; [by apply safe_ret|].
  assert (landed s1 w) as Hl by (by eapply phase_del_landed; [done| |exact Hp]).
  unfold try_call. apply safe_bind. apply safe_call; [done|split; [done|apply Hi1]|].
  intros r s2 Hc. destruct (confirm_ok c T s1 w r s2 HI1 Hi1 Hl Hc) as (HI2 & _ & _ & Hx2).
  split; [done|]. destruct r; (apply safe_ret; [done|]); by rewrite Hx2.
Qed.

Lemma delete_task_local c i w :
  work !! i = Some w → local c (tw_ref w) (delete_task work sync_target c i).
Proof.
  intros Hw. unfold delete_task. rewrite Hw. unfold try_prog. apply local_bind.
  - apply (phase_local c false [tw_ref w] w true false).
  - intros [e|]; [done|]. unfold try_call. apply local_bind; [by apply local_call_conn|].
    by intros [e|u].
Qed.

(** The first phase of either drain: the work stays good. *)
Lemma upsert_phase sched task v :
  (∀ i w, work !! i = Some w → ∃ cyclic tables, ∀ c, task c i = phase c cyclic tables w false false) →
  pool_idle v → Forall (item_ok v) work →
  safe contract requires Inv (applyPhase sched c0 pool n (forwardIdx n) task)
    (λ errs v', length errs = n ∧ pool_idle v' ∧ Forall (item_ok v') work) v.
Proof.
  intros Htask Hid Hw.
  eapply safe_mono; [|apply (phase_pool sched _ _ (on_work (λ w s, item_ok s w))
    (λ i _, on_work (λ w s, item_ok s w) i))]; try done.
  - intros errs v' _ (Hl & Hid' & Hpost & _). split_and!; [done..|].
    apply (Forall_on_work (λ w s, item_ok s w)). intros i Hi. destruct (Hpost i) as (r & _ & Hr); [|done].
    unfold forwardIdx. apply elem_of_seq. lia.
  - intros i. by apply on_work_fact, item_fact.
  - intros i _. by apply on_work_fact, item_fact.
  - intros c i s Hi HI Hx HP.
    destruct (lookup_lt_is_Some_2 work i (forwardIdx_bound i Hi)) as [w Hwi].
    destruct (Htask i w Hwi) as (cyclic & tables & Ht). rewrite Ht.
    eapply safe_mono; [|by apply (table_task c i cyclic tables false false w s); auto].
    intros r s' _ (Hx' & Hi' & _). split; [done|]. intros w' Hw'. rewrite Hwi in Hw'.
    by injection Hw' as <-.
  - intros c i Hi. destruct (lookup_lt_is_Some_2 work i (forwardIdx_bound i Hi)) as [w Hwi].
    destruct (Htask i w Hwi) as (cyclic & tables & Ht). rewrite Ht.
    unfold work_table. rewrite Hwi. apply phase_local.
  - apply NoDup_seq.
  - apply forwardIdx_bound.
  - intros i Hi. by apply (Forall_on_work (λ w s, item_ok s w)); [|apply forwardIdx_bound].
Qed.

Lemma drainAcyclicParallel_ok sched v :
  pool_idle v → Forall (item_ok v) work →
  safe contract requires Inv (drainAcyclicParallel sched c0 pool work sync_target)
    (λ _, pool_idle) v.
Proof.
  intros Hid Hw. unfold drainAcyclicParallel. apply safe_bind.
  eapply safe_mono; [|apply (upsert_phase (sched 0) (upsert_task work) v); [|done..]].
  2: { intros i w Hi. exists false, [tw_ref w]. intros c. unfold upsert_task. by rewrite Hi. }
  intros e1 v1 HI1 (Hl1 & Hid1 & Hw1).
  destruct (scan _ _ _ e1 _) as [e|[upserted tr]]; [by apply safe_ret|].
  apply safe_bind.
  eapply safe_mono; [|apply (phase_pool (sched 1) _ _ (on_work (λ w s, item_ok s w)) (λ _ _ _, True))];
    try done.
  - intros e2 v2 HI2 (_ & Hid2 & _). by apply safe_ret.
  - intros i. by apply on_work_fact, item_fact.
  - intros c i s [_ Hi]%reverseIdx_elem HI Hx HP. destruct (lookup_lt_is_Some_2 work i Hi) as [w Hwi].
    by apply (delete_task_ok c i w); auto.
  - intros c i [_ Hi]%reverseIdx_elem. destruct (lookup_lt_is_Some_2 work i Hi) as [w Hwi].
    unfold work_table. rewrite Hwi. by apply delete_task_local.
  - apply reverseIdx_NoDup.
  - intros i Hi. by apply reverseIdx_elem in Hi as [_ ?].
  - intros i [_ Hi]%reverseIdx_elem. by apply (Forall_on_work (λ w s, item_ok s w)).
Qed.

(** *** The NULL-then-fill phases *)

(** A flag of [scan] is set only for an index that was looked at and had no error. *)
Lemma scan_flags skip msg i0 errs tr oks tr' i :
  scan skip msg i0 errs tr = inr (oks, tr') → flag oks i = true →
  errs !! i = Some None ∧ skip (i0 + i) = false.
Proof.
  revert i0 tr oks i. induction errs as [|e errs IH]; intros i0 tr oks i Hs Hf; simpl in Hs.
  { by injection Hs as <- _. }
  assert (∀ ok tr1, match scan skip msg (S i0) errs tr1 with
      | inl e => inl e | inr (oks, transient) => inr (ok :: oks, transient) end = inr (oks, tr') →
      match i with
      | 0 => ok = true
      | S j => errs !! j = Some None ∧ skip (i0 + S j) = false
      end) as Hrest.
  { intros ok tr1 H1. destruct (scan skip msg (S i0) errs tr1) as [?|[oks1 tr2]] eqn:E; [done|].
    injection H1 as <- ->. destruct i as [|j]; [done|].
    destruct (IH (S i0) tr1 oks1 j E Hf) as [H1 H2]. split; [done|].
    by replace (i0 + S j) with (S i0 + j) by lia. }
  destruct (skip i0) eqn:Hsk; [|destruct e as [e|]; [destruct (IsTransientConstraint e)|]]; try done;
    apply Hrest in Hs; destruct i as [|j]; try done.
  by rewrite Nat.add_0_r.
Qed.

Section nullfill.
Context (tables : list TableRef).
Abbreviation cc := (cyc_of tables).

Lemma mid_fact w up del fil : tfact (tw_ref w) (λ v, cw_mid tables v (mkCW w up del fil)).
Proof. intros v v'. apply (cw_mid_other T tables v v' (mkCW w up del fil)). Qed.

Lemma done_fact w up del fil : tfact (tw_ref w) (λ v, cw_done v (mkCW w up del fil)).
Proof. intros v v'. apply (cw_done_other T v v' (mkCW w up del fil)). Qed.

(** What a task of the delete phase, and one of the fill phase, hands back. *)
Definition mid_post (i : nat) (r : option error) : astate → Prop :=
  on_work (λ w s, cw_mid tables s (mkCW w true (bool_decide (r = None)) false)) i.

Definition done_post (i : nat) (r : option error) : astate → Prop :=
  on_work (λ w s, cw_done s (mkCW w true true (bool_decide (r = None)))) i.

Lemma cyclic_local c i del fill :
  i < n → local c (work_table i) (cyclic_task work tables del fill c i).
Proof.
  intros [w Hw]%lookup_lt_is_Some_2. unfold cyclic_task, work_table. rewrite Hw.
  apply (phase_local c true tables w del fill).
Qed.

Lemma cyclic_delete_ok c i s :
  i < n → Inv s → a_tx s !! c = None → on_work (λ w s, item_ok s w) i s →
  safe contract requires Inv (cyclic_task work tables true false c i)
    (λ r s', a_tx s' !! c = None ∧ mid_post i r s') s.
Proof.
  intros [w Hw]%lookup_lt_is_Some_2 HI Hx Hi. unfold cyclic_task. rewrite Hw.
  eapply safe_mono; [|by apply (table_task c i true tables true false w s); auto].
  intros r s' HI' (Hx' & Hi' & Hp). split; [done|]. intros w' Hw'. rewrite Hw in Hw'. injection Hw' as <-.
  split; [done|]. simpl. intros ->%bool_decide_eq_true. split.
  - by eapply phase_del_absent.
  - intros Hc. by eapply phase_del_landed.
Qed.

Lemma cyclic_fill_ok c i s :
  fills work cc i = true → Inv s → a_tx s !! c = None → mid_post i None s →
  safe contract requires Inv (cyclic_task work tables false true c i)
    (λ r s', a_tx s' !! c = None ∧ done_post i r s') s.
Proof.
  intros Hf HI Hx Hi. unfold fills in Hf. unfold cyclic_task.
  destruct (work !! i) as [w|] eqn:Hw; [|done].
  apply negb_true_iff, bool_decide_eq_false in Hf.
  destruct (Hi w Hw) as [Hiw Hm]. destruct (Hm eq_refl) as [Habs _].
  eapply safe_mono; [|by apply (table_task c i true tables false true w s)].
  intros r s' HI' (Hx' & Hi' & Hp). split; [done|]. intros w' Hw'. rewrite Hw in Hw'. injection Hw' as <-.
  split; [done|]. simpl. intros ->%bool_decide_eq_true.
  destruct (cc !! tw_ref w) as [nc|] eqn:Hcc; [|done].
  by apply (phase_fill_landed c T s w cc nc s').
Qed.

(** The delete phase, for the tables it runs on and for those it passes over. *)
Lemma delete_phase sched upserted msg tr v :
  pool_idle v → Forall (item_ok v) work →
  safe contract requires Inv
    (applyPhase sched c0 pool n (reverseIdx n upserted) (cyclic_task work tables true false))
    (λ e2 v', pool_idle v' ∧ ∀ deleted tr',
       scan (λ i, negb (flag upserted i)) msg 0 e2 tr = inr (deleted, tr') →
       ∀ i, i < n → on_work (λ w s, cw_mid tables s (mkCW w (flag upserted i) (flag deleted i) false)) i v') v.
Proof.
  intros Hid Hw.
  eapply safe_mono; [|apply (phase_pool sched _ _ (on_work (λ w s, item_ok s w)) mid_post)]; try done.
  - intros e2 v' _ (_ & Hid' & Hpost & Hfr). split; [done|]. intros deleted tr' Hs i Hi w Hwi.
    assert (item_ok v' w) as Hiw.
    { destruct (decide (i ∈ reverseIdx n upserted)) as [Hin|Hout].
      - destruct (Hpost i Hin) as (r & _ & Hm). by apply (Hm w Hwi).
      - apply (Hfr i (on_work (λ w s, item_ok s w) i)); [done..| | |done].
        + by apply on_work_fact, item_fact.
        + by apply (Forall_on_work (λ w s, item_ok s w)). }
    split; [done|]. simpl. intros Hdel.
    destruct (scan_flags _ _ _ _ _ _ _ i Hs Hdel) as [He Hup]. simpl in Hup.
    apply negb_false_iff in Hup. unfold flag in Hup.
    destruct (upserted !! i) as [b|] eqn:Hb; [|done]. simpl in Hup. subst b.
    destruct (Hpost i) as (r & He' & Hm); [by apply reverseIdx_elem|].
    rewrite He in He'. injection He' as <-. by apply (Hm w Hwi).
  - intros i. by apply on_work_fact, item_fact.
  - intros i r. apply on_work_fact. intros w. apply mid_fact.
  - intros i e s Hi w Hwi. by split; [apply Hi|].
  - intros c i s [_ Hi]%reverseIdx_elem. by apply cyclic_delete_ok.
  - intros c i [_ Hi]%reverseIdx_elem. by apply cyclic_local.
  - apply reverseIdx_NoDup.
  - by intros i [_ ?]%reverseIdx_elem.
  - intros i [_ Hi]%reverseIdx_elem. by apply (Forall_on_work (λ w s, item_ok s w)).
Qed.

Lemma fill_phase sched upserted deleted msg tr v :
  let fillIdx := filter (λ i, fills work cc i && flag upserted i && flag deleted i = true) (seq 0 n) in
  pool_idle v →
  (∀ i, i < n → on_work (λ w s, cw_mid tables s (mkCW w (flag upserted i) (flag deleted i) false)) i v) →
  safe contract requires Inv
    (applyPhase sched c0 pool n fillIdx (cyclic_task work tables false true))
    (λ e3 v', pool_idle v' ∧ ∀ filled tr',
       scan (λ i, negb (bool_decide (i ∈ fillIdx))) msg 0 e3 tr = inr (filled, tr') →
       Forall (cw_done v') (flagged work cc upserted deleted filled)) v.
Proof.
  intros fillIdx Hid Hmid.
  assert (∀ i, i ∈ fillIdx ↔ fills work cc i = true ∧ flag upserted i = true ∧ flag deleted i = true ∧ i < n) as Hin.
  { intros i. unfold fillIdx. rewrite list_elem_of_filter, elem_of_seq, !andb_true_iff.
    split; [intros [[[? ?] ?] ?]|intros (? & ? & ? & ?)]; split_and!; try done; lia. }
  eapply safe_mono; [|apply (phase_pool sched fillIdx _ (λ i, mid_post i None) done_post)]; try done.
  - intros e3 v' _ (_ & Hid' & Hpost & Hfr). split; [done|]. intros filled tr' Hs.
    apply Forall_lookup. intros i x Hx. unfold flagged in Hx. rewrite list_lookup_imap in Hx.
    apply fmap_Some in Hx as (w & Hwi & ->). pose proof (lookup_lt_Some _ _ _ Hwi) as Hi.
    destruct (decide (i ∈ fillIdx)) as [Hf|Hout].
    + destruct (Hpost i Hf) as (r & He & Hd). destruct (Hd w Hwi) as [Hiw Hl]. split; [done|].
      simpl. apply Hin in Hf as (-> & _). simpl. intros [_ Hfil]%andb_true_iff. apply Hl.
      destruct (scan_flags _ _ _ _ _ _ _ i Hs Hfil) as [He' _]. rewrite He in He'.
      by injection He' as ->.
    + assert (on_work (λ w s, cw_mid tables s (mkCW w (flag upserted i) (flag deleted i) false)) i v') as Hm.
      { apply (Hfr i _ Hi Hout); [|by apply Hmid]. apply on_work_fact. intros ?. apply mid_fact. }
      destruct (Hm w Hwi) as [Hiw Hl]. split; [done|]. simpl in *.
      intros [[Hup Hdel]%andb_true_iff _]%andb_true_iff. apply (Hl Hdel).
      destruct (decide (default [] (cc !! tw_ref w) = [])) as [|Hne]; [done|]. destruct Hout.
      apply Hin. unfold fills. rewrite Hwi, bool_decide_eq_false_2 by done. done.
  - intros i. apply on_work_fact. intros w. apply mid_fact.
  - intros i r. apply on_work_fact. intros w. apply done_fact.
  - intros i e s Hi w Hwi. by split; [apply (Hi w Hwi)|].
  - intros c i s (Hf & _)%Hin. by apply cyclic_fill_ok.
  - intros c i (_ & _ & _ & Hi)%Hin. by apply cyclic_local.
  - apply NoDup_filter, NoDup_seq.
  - by intros i (_ & _ & _ & ?)%Hin.
  - intros i (_ & _ & Hdel & Hi)%Hin w Hwi. destruct (Hmid i Hi w Hwi) as [Hiw Hm]. split; [done|].
    intros _. by apply Hm.
Qed.
End nullfill.
End phases.

(** ** The component drain over a pool *)

Section drain.
Context `{Sch : Schema} (T : TableRef → Prop) (c0 : nat) (pool : list nat).
Abbreviation Inv := (Contract.Inv T).
Abbreviation idle_all := (pool_idle T pool).

Hypothesis pool_distinct : NoDup pool.
Hypothesis pool_c0 : c0 ∈ pool.

(** A call made as [requires] says leaves the transactions of the other connections. *)
Lemma contract_other_conn c o v r v' c' :
  requires c o v → contract c o v r v' → c' ≠ c → a_tx v' !! c' = a_tx v !! c'.
Proof.
  intros Hpre (v1 & v2 & R1 & He & R2) Hc. rewrite (rely_tx _ _ R2), <-(rely_tx _ _ R1).
  destruct He as [He|(_ & _ & ->)]; [|done].
  assert (∀ f r, tx_effect c f v1 v2 r → a_tx v2 !! c' = a_tx v1 !! c') as Htx.
  { intros f r' (tx & tx' & _ & _ & _ & ->). simpl. by rewrite lookup_insert_ne by done. }
  destruct o; simpl in Hpre, He; try done;
    repeat match goal with
    | H : _ ∧ _ |- _ => destruct H
    | H : ∃ _, _ |- _ => destruct H
    | H : _ ∨ _ |- _ => destruct H
    end; subst; simpl; try done; try (by eapply Htx);
    rewrite ?lookup_insert_ne, ?lookup_delete_ne by done; try done.
  - by case_decide.
  - by eapply stmt_other_conn.
Qed.

(** A program on the first connection leaves the rest of the pool idle. *)
Lemma safe_conn {A} (p : prog A) Q v :
  on_conn c0 p → idle_all v → safe contract requires Inv p Q v →
  safe contract requires Inv p
    (λ a v', Q a v' ∧ ∀ c, c ≠ c0 → c ∈ pool → a_tx v' !! c = None) v.
Proof.
  intros Hp [_ Hid].
  assert (∀ c, c ≠ c0 → c ∈ pool → a_tx v !! c = None) as Hx by auto. clear Hid.
  revert v Hx. induction p as [a|c o k IH]; intros v Hx [HI Hs]; simpl; [done|].
  destruct Hp as [-> Hk], Hs as [Hpre Hs]. split_and!; [done..|]. intros r v' Hc.
  apply IH; [done| |by apply Hs]. intros c Hne Hin.
  rewrite (contract_other_conn c0 o v r v' c) by done. by apply Hx.
Qed.

Lemma idle_c0 v : idle_all v → idle c0 T v.
Proof. intros [HI Hx]. split; auto. Qed.

Lemma idle_all_intro v :
  idle c0 T v → (∀ c, c ≠ c0 → c ∈ pool → a_tx v !! c = None) → idle_all v.
Proof.
  intros [HI Hx] Ho. split; [done|]. intros c Hc. destruct (decide (c = c0)) as [->|]; auto.
Qed.

(** A sequential program that ends idle. *)
Lemma safe_seq {A} (p : prog A) v :
  on_conn c0 p → idle_all v → safe contract requires Inv p (λ _, idle c0 T) v →
  safe contract requires Inv p (λ _, idle_all) v.
Proof.
  intros Hp Hid Hs. eapply safe_mono; [|by apply (safe_conn p (λ _, idle c0 T) v)].
  intros a v' _ [Hi Ho]. by apply idle_all_intro.
Qed.

Lemma flagged_refs work cols up del fil :
  cw_ref <$> flagged work cols up del fil = tw_ref <$> work.
Proof.
  apply list_eq. intros i. unfold flagged. rewrite !list_lookup_fmap, list_lookup_imap.
  by destruct (work !! i).
Qed.

Lemma drainCyclicNullFillParallel_ok sched work tables v :
  idle_all v → work_ok v work →
  safe contract requires Inv
    (drainCyclicNullFillParallel sched c0 pool work tables sync_target (cyc_of tables))
    (λ _, idle_all) v.
Proof.
  intros Hid [Hw Hn]. unfold drainCyclicNullFillParallel. apply safe_bind.
  eapply safe_mono; [|apply (upsert_phase T c0 pool work Hn pool_distinct pool_c0 (sched 0)
    (cyclic_task work tables false false) v); [|done..]].
  2: { intros i w Hi. exists true, tables. intros c. unfold cyclic_task. by rewrite Hi. }
  intros e1 v1 HI1 (_ & Hid1 & Hw1).
  destruct (scan _ _ _ e1 _) as [e|[upserted tr]]; [by apply safe_ret|].
  apply safe_bind. eapply safe_mono;
    [|by apply (delete_phase T c0 pool work Hn pool_distinct pool_c0 tables (sched 1) upserted "apply component: delete" tr v1)].
  intros e2 v2 HI2 (Hid2 & Hdel).
  destruct (scan _ _ _ e2 _) as [e|[deleted tr2]] eqn:E2; [by apply safe_ret|].
  specialize (Hdel _ _ eq_refl).
  apply safe_bind. eapply safe_mono;
    [|by apply (fill_phase T c0 pool work Hn pool_distinct pool_c0 tables (sched 2) upserted deleted "apply component: fill" tr2 v2)].
  intros e3 v3 HI3 (Hid3 & Hfill).
  destruct (scan _ _ _ e3 _) as [e|[filled tr3]] eqn:E3; [by apply safe_ret|].
  specialize (Hfill _ _ eq_refl).
  apply safe_bind. eapply safe_mono; [|apply safe_seq; [| exact Hid3|]].
  - intros [res|total] v4 HI4 Hid4; by apply safe_ret.
  - unfold cyclic_confirm_step. conn_solve.
  - apply (cyclic_confirm_loop_ok c0 T); [by apply idle_c0|done|by rewrite flagged_refs|done].
Qed.

Lemma gathered_all tables batch k v :
  idle_all v → NoDup tables →
  (∀ work total v', idle_all v' → work_ok v' work → safe contract requires Inv (k work total) (λ _, idle_all) v') →
  safe contract requires Inv (gathered c0 tables sync_target batch k) (λ _, idle_all) v.
Proof.
  intros Hid Hnd Hk. unfold gathered. apply safe_bind.
  eapply safe_mono; [|apply safe_conn; [apply gatherWork_conn|exact Hid|
    apply (gatherWork_ok c0 T tables batch v (λ r v', idle c0 T v' ∧
      match r with inl _ => True | inr (work, _) => work_ok v' work end)); [by apply idle_c0|done|done]]].
  intros r v' HI' [[Hid' Hr] Ho]. assert (idle_all v') as Hall by by apply idle_all_intro.
  destruct r as [e|[[|w work] total]]; [by apply safe_ret..|]. by apply Hk.
Qed.

Lemma seq_or_parallel concurrency (p q : prog (nat * option error)) v :
  safe contract requires Inv p (λ _, idle_all) v → safe contract requires Inv q (λ _, idle_all) v →
  safe contract requires Inv
    (if bool_decide (concurrency <= 1)%Z || Nat.leb (length pool) 1 then p else q) (λ _, idle_all) v.
Proof. by destruct (_ || _). Qed.

Lemma drainAcyclic_ok sched concurrency tables batch v :
  idle_all v → NoDup tables →
  safe contract requires Inv (drainAcyclic sched c0 pool concurrency tables sync_target batch)
    (λ _, idle_all) v.
Proof.
  intros Hid Hnd. apply gathered_all; [done..|]. intros work total v' Hid' Hw.
  apply seq_or_parallel.
  - apply safe_seq; [apply drainAcyclicSeq_conn|done|]. by apply drainAcyclicSeq_ok; [apply idle_c0|].
  - by apply drainAcyclicParallel_ok; [apply Hw|..|apply Hw].
Qed.

Lemma drainCyclicNullFill_ok sched concurrency tables batch v :
  idle_all v → NoDup tables →
  safe contract requires Inv
    (drainCyclicNullFill sched c0 pool concurrency tables sync_target batch (cyc_of tables))
    (λ _, idle_all) v.
Proof.
  intros Hid Hnd. apply gathered_all; [done..|]. intros work total v' Hid' Hw.
  apply seq_or_parallel.
  - apply safe_seq; [apply drainCyclicNullFillSeq_conn|done|].
    by apply drainCyclicNullFillSeq_ok; [apply idle_c0|].
  - by apply drainCyclicNullFillParallel_ok.
Qed.
End drain.

Lemma DrainComponentPool_ok `{Sch : Schema} T nullFill sched pool concurrency tables batch cyclic v :
  NoDup pool → pool_idle T pool v → NoDup tables → (nullFill = false → cyc_of tables = ∅) →
  safe contract requires (Inv T)
    (DrainComponentPool nullFill sched pool concurrency tables sync_target batch cyclic)
    (λ _, pool_idle T pool) v.
Proof.
  intros Hp Hid Hnd Hcc. unfold DrainComponentPool. destruct pool as [|c0 cs] eqn:Epool.
  { apply safe_ret; [apply Hid|done]. }
  rewrite <-Epool in *. assert (c0 ∈ pool) as Hc0 by (rewrite Epool; by left). clear Epool.
  assert (∀ v, pool_idle T pool v → cyc_of tables = ∅ →
    safe contract requires (Inv T) (gathered c0 tables sync_target batch
      (λ work total, drainAtomic c0 work total tables sync_target true)) (λ _, pool_idle T pool) v) as Hat.
  { intros v1 Hid1 He. apply gathered_all; [done..|]. intros work total v2 Hid2 Hw.
    apply (safe_seq T c0 pool); [apply drainAtomic_conn|done|].
    by apply drainAtomic_ok; [by apply (idle_c0 T c0 pool)|..]. }
  destruct cyclic; cbn [negb]; [|by apply drainAcyclic_ok].
  destruct nullFill; [|by apply Hat; auto].
  apply safe_bind. eapply safe_mono; [|apply (safe_conn T c0 pool); [apply on_conn_call|exact Hid|
    apply (safe_plain c0 T (CyclicCols tables) (λ r v', idle c0 T v' ∧ (∀ m, r = inr m → m = cyc_of tables)));
      [done|by apply (idle_c0 T c0 pool)|]]].
  2: { intros r v1 (u1 & u2 & _ & He & _) Hid1 _ _. split; [done|]. intros m ->.
       destruct He as [[_ [= ->]]|(_ & [e ?] & _)]; done. }
  intros r v1 HI1 [[Hid1 Hr] Ho]. assert (pool_idle T pool v1) as Hall by by apply (idle_all_intro T c0).
  destruct r as [e|m]; [by apply safe_ret|]. rewrite (Hr m eq_refl).
  case_decide; [by apply Hat|]. by apply drainCyclicNullFill_ok.
Qed.

Lemma retrying_pool_ok `{Sch : Schema} T nullFill sched pool concurrency tables batch cyclic policy v :
  NoDup pool → pool_idle T pool v → NoDup tables → (nullFill = false → cyc_of tables = ∅) →
  safe contract requires (Inv T)
    (DrainComponentRetryingPool nullFill sched pool concurrency tables sync_target batch cyclic policy)
    (λ _, pool_idle T pool) v.
Proof.
  intros Hp Hid Hnd Hcc. apply retry_loop_keeps; [by intros ? []| | |done].
  - intros v0 d r v' [HI0 Hx0] Hc. split; [by destruct (quiet_step _ (After d) _ _ _ I HI0 Hc)|].
    by rewrite (plain_tx _ T (After d) _ _ _ I Hc).
  - intros k v0 Hid0. by apply DrainComponentPool_ok.
Qed.

(** C1: crash safety of the component drain over a connection pool. For every
    interleaving of the goroutines of every phase of every attempt, whatever the
    calls return (failures, a COMMIT or a consumption that took effect although it was
    reported failed) and whatever the applications commit on the source meanwhile, between
    any two calls every key of the tables in [T] whose target row differs from its source
    row is named by a delta that is still unconsumed, and the drain ends with no transaction
    open on any connection of the pool. The acyclic, the NULL-then-fill and the atomic
    strategy are all covered; a pool of one connection is the sequential drain. *)
Theorem DrainComponentRetryingPool_safe `{Sch : Schema} (T : TableRef → Prop) (nullFill : bool)
    (sched : nat → nat → list nat) (pool : list nat) (concurrency : Z) (tables : list TableRef)
    (batch : Z) (cyclic : bool) (policy : RetryPolicy) (v : astate) :
  NoDup pool → Inv T v → (∀ c, c ∈ pool → a_tx v !! c = None) → NoDup tables →
  (nullFill = false → cyc_of tables = ∅) →
  safe contract requires (Inv T)
    (DrainComponentRetryingPool nullFill sched pool concurrency tables sync_target batch cyclic policy)
    (λ _ v', ∀ c, c ∈ pool → a_tx v' !! c = None) v.
Proof.
  intros Hp HI Hx Hnd Hcc. eapply (safe_mono _ _ _ _ (λ _, pool_idle T pool)); [by intros ?? _ []|].
  by apply retrying_pool_ok.
Qed.

(** The pool of one connection is the sequential drain, for every schedule. *)
Theorem DrainComponent_singleton (nullFill : bool) (sched : nat → list nat) (c : nat)
    (tables : list TableRef) (target : TargetID) (batch : Z) (cyclic : bool) :
  DrainComponentPool nullFill sched [c] 1 tables target batch cyclic =
  DrainComponent nullFill c tables target batch cyclic.
Proof. by destruct cyclic, nullFill. Qed.

(** The number of connections a drain uses is the size of the pool: [concurrency] only
    tells 1 from more, although the comment of [DrainComponentPool] calls it a bound. *)
Theorem concurrency_not_a_bound (nullFill : bool) (sched : nat → list nat) (pool : list nat)
    (n m : Z) (tables : list TableRef) (target : TargetID) (batch : Z) (cyclic : bool) :
  (1 < n)%Z → (1 < m)%Z →
  DrainComponentPool nullFill sched pool n tables target batch cyclic =
  DrainComponentPool nullFill sched pool m tables target batch cyclic.
Proof.
  intros Hn Hm. destruct pool as [|c0 cs]; [done|]. unfold DrainComponentPool, drainAcyclic, drainCyclicNullFill.
  set (pool := c0 :: cs).
  assert (∀ x, (1 < x)%Z → bool_decide (clamp x pool <= 1)%Z || Nat.leb (length pool) 1 = Nat.leb (length pool) 1)
    as Hx; [|by rewrite !Hx].
  intros x H1. destruct (Nat.leb (length pool) 1) eqn:E; [apply orb_true_r|].
  apply Nat.leb_gt in E. rewrite orb_false_r. apply bool_decide_eq_false_2. unfold clamp.
  repeat case_decide; lia.
Qed.

End ParDrain.
