(* ===== verification/Postgres.v ===== *)
(** * The Postgres engine ([internal/engine/postgres])

    The source with its capture objects (delta and track tables filled by the
    trigger of [capture_ddl.go], read by [consume.go], purged by [purge.go]), the
    re-read ([reread.go]) and the target with its apply transactions
    ([apply_tx.go], [sink.go]), as one state. The SQL statements are modelled by
    what they do to that state.

    Application transactions are open for a while: their triggers take delta
    ids from the sequence when they fire, and their rows and deltas become visible
    together at COMMIT, so ids do not become visible in order. *)

From S2P Require Import Prelude Engine FkGraph PgPreflight Calls ApplyTx Plan Contract.
Import FkGraph PgPreflight ApplyTx Plan Contract.

Module Postgres.

(** ** Capture ([triggerFunctionDDL]) *)

(** A row change as the AFTER ROW trigger sees it; an UPDATE can move the key. *)
Inductive change :=
| CInsert (t : TableRef) (k : KeyValues) (r : Row)
| CUpdate (t : TableRef) (k k' : KeyValues) (r : Row)
| CDelete (t : TableRef) (k : KeyValues).

Definition change_table (ch : change) : TableRef :=
  match ch with CInsert t _ _ | CUpdate t _ _ _ | CDelete t _ => t end.

(** The rows of the delta table the trigger function inserts. *)
Definition trigger (ch : change) : list (Op * KeyValues) :=
  match ch with
  | CInsert _ k _ => [(OpInsert, k)]
  | CUpdate _ k k' _ =>
      if decide (k' ≠ k) then [(OpDelete, k); (OpUpdate, k')] else [(OpUpdate, k')]
  | CDelete _ k => [(OpDelete, k)]
  end.

(** The rows the change itself writes. *)
Definition change_writes (ch : change) : gmap tkey (option Row) :=
  match ch with
  | CInsert t k r => {[(t, k) := Some r]}
  | CUpdate t k k' r => <[(t, k') := Some r]> {[(t, k) := None]}
  | CDelete t k => {[(t, k) := None]}
  end.

(** ** State *)

(** A row of the delta table, without its id and the ordering hints. *)
Record deltaRow := mkDelta { dr_Op : Op; dr_Key : KeyValues }.

(** An open application transaction. *)
Record appTx := mkApp {
  ax_writes : gmap tkey (option Row);
  ax_deltas : list ((TableRef * DeltaID) * deltaRow)
}.

Record pgworld := mkW {
  w_src : rows;
  w_open : gmap nat appTx;
  w_next : gmap TableRef Z;                          (** the delta_id sequences *)
  w_delta : gmap (TableRef * DeltaID) deltaRow;      (** committed delta rows *)
  w_track : gset (TableRef * TargetID * DeltaID);
  w_tgt : rows;
  w_tx : gmap nat pgApplyTx
}.

Definition next_of (w : pgworld) (t : TableRef) : Z := default 1%Z (w_next w !! t).

(** Ids are drawn from the sequence when the trigger fires. *)
Fixpoint enqueue (t : TableRef) (next : Z) (ops : list (Op * KeyValues))
    : list ((TableRef * DeltaID) * deltaRow) :=
  match ops with
  | [] => []
  | (op, k) :: ops => ((t, next), mkDelta op k) :: enqueue t (next + 1) ops
  end.

(** ** Consumption ([ReadDirtyKeys], [ConfirmConsumed]) *)

(** [delta MINUS track]: the LEFT JOIN ... WHERE tr.delta_id IS NULL. *)
Definition unconsumed (w : pgworld) (t : TableRef) (target : TargetID)
    : list ((TableRef * DeltaID) * deltaRow) :=
  filter (λ '(ti, _), ti.1 = t ∧ (t, target, ti.2) ∉ w_track w) (map_to_list (w_delta w)).

Definition id_le (a b : DirtyKey) : Prop := (dk_DeltaID a <= dk_DeltaID b)%Z.
#[global] Instance id_le_dec : RelDecision id_le.
Proof. intros a b. unfold id_le. apply _. Defined.

(** ORDER BY delta_id LIMIT max, the limit only when positive. *)
Definition read_dirty (w : pgworld) (t : TableRef) (target : TargetID) (max : Z) : list DirtyKey :=
  let all := merge_sort id_le
    ((λ '(ti, d), mkDirty ti.2 (dr_Op d) (dr_Key d)) <$> unconsumed w t target) in
  if decide (0 < max)%Z then take (Z.to_nat max) all else all.

(** INSERT INTO track ... ON CONFLICT DO NOTHING. *)
Definition confirm (t : TableRef) (target : TargetID) (ids : list DeltaID) (w : pgworld) : pgworld :=
  mkW (w_src w) (w_open w) (w_next w) (w_delta w)
    (list_to_set ((λ i, (t, target, i)) <$> ids) ∪ w_track w) (w_tgt w) (w_tx w).

(** ** Purge ([purgeConsumedBy]): what one DELETE may remove

    The subquery counts the track rows of a delta whose target is one of
    [targets]; (target, delta_id) is the key of the track table. *)
Definition consumed_by (w : pgworld) (t : TableRef) (targets : list TargetID) (i : DeltaID) : Prop :=
  length (filter (λ tg, (t, tg, i) ∈ w_track w) (remove_dups targets)) = length targets.

#[global] Instance consumed_by_dec w t targets i : Decision (consumed_by w t targets i).
Proof. unfold consumed_by. apply _. Defined.

(** Deleting a set of delta rows. *)
Definition drop_deltas (P : TableRef * DeltaID → Prop) `{!∀ x, Decision (P x)} (w : pgworld) : pgworld :=
  mkW (w_src w) (w_open w) (w_next w) (filter (λ '(ti, _), ¬ P ti) (w_delta w))
    (w_track w) (w_tgt w) (w_tx w).

(** ** Application activity and the other targets' consumers *)

Inductive event :=
| AppBegin (n : nat)
| AppWrite (n : nat) (ch : change)
| AppCommit (n : nat)
| AppAbort (n : nat)
| OtherConfirm (t : TableRef) (target : TargetID) (ids : list DeltaID)
| OtherPurge (t : TableRef) (targets : list TargetID) (ids : list DeltaID).

Definition set_open (w : pgworld) (o : gmap nat appTx) : pgworld :=
  mkW (w_src w) o (w_next w) (w_delta w) (w_track w) (w_tgt w) (w_tx w).

Definition run_event (ev : event) (w : pgworld) : pgworld :=
  match ev with
  | AppBegin n =>
      if decide (w_open w !! n = None) then set_open w (<[n := mkApp ∅ []]> (w_open w)) else w
  | AppWrite n ch =>
      match w_open w !! n with
      | None => w
      | Some ax =>
          let t := change_table ch in
          let new := enqueue t (next_of w t) (trigger ch) in
          mkW (w_src w)
            (<[n := mkApp (change_writes ch ∪ ax_writes ax) (ax_deltas ax ++ new)]> (w_open w))
            (<[t := (next_of w t + Z.of_nat (length new))%Z]> (w_next w))
            (w_delta w) (w_track w) (w_tgt w) (w_tx w)
      end
  | AppCommit n =>
      match w_open w !! n with
      | None => w
      | Some ax =>
          mkW (apply_writes (ax_writes ax) (w_src w)) (delete n (w_open w)) (w_next w)
            (list_to_map (ax_deltas ax) ∪ w_delta w) (w_track w) (w_tgt w) (w_tx w)
      end
  | AppAbort n => set_open w (delete n (w_open w))
  | OtherConfirm t target ids => confirm t target ids w
  | OtherPurge t targets ids =>
      drop_deltas (λ ti, ti.1 = t ∧ ti.2 ∈ ids ∧ consumed_by w t targets ti.2) w
  end.

(** ** Calls of the drain and the copy, when they succeed *)

(** What introspection finds on the source and on the target. *)
Record catalogs := mkCatalogs { cat_src : list Table; cat_tgt : list Table }.

(** The catalogs are those of the schema: the columns and the tables of the source, and as
    many key columns on the target. *)
Record catalog_ok `{Schema} (cats : catalogs) : Prop := {
  cat_cols tbl : tbl ∈ cat_src cats → columns_of tbl = cols_of (tbl_Ref tbl);
  cat_tables t : t ∈ src_tables → t ∈ tbl_Ref <$> cat_src cats;
  cat_nodup : NoDup (tbl_Ref <$> cat_src cats);
  cat_own : own_fks (cat_src cats);
  cat_keys tbl : tbl ∈ cat_tgt cats → length (captureColsFor tbl) = key_arity (tbl_Ref tbl)
}.

Section pg.
Context `{Sch : Schema} (catalog : catalogs).

Definition set_w_tx (w : pgworld) (x : gmap nat pgApplyTx) : pgworld :=
  mkW (w_src w) (w_open w) (w_next w) (w_delta w) (w_track w) (w_tgt w) x.
Definition set_w_tgt (w : pgworld) (x : rows) : pgworld :=
  mkW (w_src w) (w_open w) (w_next w) (w_delta w) (w_track w) x (w_tx w).

(** A statement on the connection's open transaction. *)
Definition on_tx (c : nat) (w : pgworld) (f : pgApplyTx → option pgApplyTx)
    : result unit * pgworld :=
  match w_tx w !! c with
  | None => (inl (Failure "no transaction"), w)
  | Some tx =>
      match f tx with
      | None => (inl (Failure "statement failed"), w)
      | Some tx' => (inr tt, set_w_tx w (<[c := tx']> (w_tx w)))
      end
  end.

(** The tables an include list of plain names selects. *)
Definition introspect (sel : Selection) : list Table :=
  filter (λ tbl, ref_string (tbl_Ref tbl) ∈ sel_Include sel) (cat_src catalog).

(** [Sink.tableMeta] *)
Definition tableMeta (t : TableRef) : result Table :=
  match filter (λ tbl, tbl_Ref tbl = t) (cat_tgt catalog) with
  | tbl :: _ => inr tbl
  | [] => inl (Failure ("postgres: target table " +:+ ref_string t +:+ " not found"))
  end.

(** A statement of the cyclic copy. *)
Definition pg_stmt (c : nat) (q : stmt) (w : pgworld) : result (stmt_resp q) * pgworld :=
  match q return result (stmt_resp q) * pgworld with
  | SCopyTo t cols lo hi =>
      (inr (copyChunkRows (key_lt t) cols (w_src w) (mkChunk t ChunkKeyset lo hi)), w)
  | STableMeta t => (tableMeta t, w)
  | SExistsRow t => (inr (bool_decide (0 < countRows t (w_tgt w))%Z), w)
  | SBegin =>
      (inr tt, set_w_tx w (<[c := mkTx ∅ ∅ (default ∅ (tx_writes <$> w_tx w !! c))]> (w_tx w)))
  | SSetDeferred => (inr tt, w)
  | SCreateStaging t => on_tx c w (createStaging t)
  | SCopyStaging t _ rd =>
      match rd with inl e => (inl e, w) | inr stg => on_tx c w (copyStaging t stg) end
  | SCopyTable t cols rd =>
      match rd with
      | inl e => (inl e, w)
      | inr stg =>
          match w_tx w !! c with
          | Some tx =>
              match copyInto dflt_of (w_tgt w) t cols stg tx with
              | Some tx' => (inr tt, set_w_tx w (<[c := tx']> (w_tx w)))
              | None => (inl (PgError "23505" "duplicate key value violates unique constraint"), w)
              end
          | None =>
              match bulkLoad dflt_of (w_tgt w) t cols stg LoadDirect with
              | Some tgt' => (inr tt, set_w_tgt w tgt')
              | None => (inl (PgError "23505" "duplicate key value violates unique constraint"), w)
              end
          end
      end
  | SMergeInsert t cols lo hi =>
      on_tx c w (mergeInsert dflt_of (w_tgt w) t cols (in_range (key_lt t) lo hi))
  | SUpdateFrom t fkCols => on_tx c w (updateFrom (w_tgt w) t fkCols)
  end.

(** [None]: not a call of the drain or of the copy of a keyed table. *)
Definition pg_call (c : nat) (o : call) (w : pgworld) : option (result (resp o) * pgworld) :=
  match o return option (result (resp o) * pgworld) with
  | ReadDirtyKeys t target max => Some (inr (read_dirty w t target max), w)
  | Introspect sel => Some (inr (introspect sel), w)
  | RereadCurrent t keys => Some (inr (reread (cols_of t) (w_src w) t keys), w)
  | ConfirmConsumed t target ids => Some (inr tt, confirm t target ids w)
  | ApplyPass t cols keys rd =>
      Some (match rd with
            | inl e => (inl e, w)
            | inr stg =>
                match applyPass dflt_of (w_tgt w) t cols keys stg with
                | Some tgt' => (inr tt, set_w_tgt w tgt')
                | None => (inl (Failure "apply"), w)
                end
            end)
  | CyclicCols tables => Some (inr (cyc_of tables), w)
  | BeginApply cyclic tables =>
      Some (inr tt, set_w_tx w (<[c := mkTx (if cyclic then cyc_of tables else ∅) ∅
                                         (default ∅ (tx_writes <$> w_tx w !! c))]> (w_tx w)))
  | StageUpsert t cols rd =>
      Some (match rd with
            | inl e => (inl e, w)
            | inr stg => on_tx c w (λ tx, Some (stageUpsert dflt_of (w_tgt w) t cols stg tx))
            end)
  | DeleteAbsent t keys => Some (on_tx c w (deleteAbsent t keys))
  | FillCyclic => Some (on_tx c w (λ tx, Some (fillCyclic (w_tgt w) tx)))
  | Commit =>
      Some (match w_tx w !! c with
            | None => (inl (Failure "no transaction"), w)
            | Some tx => (inr tt, set_w_tx (set_w_tgt w (commit tx (w_tgt w))) (delete c (w_tx w)))
            end)
  | Rollback => Some (inr tt, set_w_tx w (delete c (w_tx w)))
  | PlanChunks t opts =>
      if decide (opt_Method opts ≠ Some ChunkCTID ∧ 0 < key_arity t)
      then Some (planChunks true (keys_from (key_lt t) (w_src w) t (opt_Lo opts)) 0 id t opts, w)
      else None
  | CopyChunk ch =>
      if decide (chunk_Method ch = ChunkKeyset)
      then Some (inr (copyChunkRows (key_lt (chunk_Table ch)) (cols_of (chunk_Table ch)) (w_src w) ch), w)
      else None
  | BulkLoad t cols rd mode =>
      Some (match rd with
            | inl e => (inl e, w)
            | inr stg =>
                match bulkLoad dflt_of (w_tgt w) t cols stg mode with
                | Some tgt' => (inr (Z.of_nat (size stg)), set_w_tgt w tgt')
                | None => (inl (Failure "bulk load"), w)
                end
            end)
  | DeleteRange t lo hi =>
      Some (inr tt, set_w_tgt w (deleteRows (in_range (key_lt t) lo hi) t (w_tgt w)))
  | CountRows t => Some (inr (countRows t (w_tgt w)), w)
  | SrcHealthCheck | SrcReconnect | SinkHealthCheck => Some (inr tt, w)
  | SinkReconnect => Some (inr tt, set_w_tx w (delete c (w_tx w)))
  | CtxErr | After _ => Some (inr tt, w)
  | Exec q => Some (pg_stmt c q w)
  | _ => None
  end.

(** ** Steps, with failures and interference *)

(** Keys in text form; the other consumers act for other targets, and a purge
    is given a target set that includes this sync's. *)
Definition event_ok (w : pgworld) (ev : event) : Prop :=
  match ev with
  | AppWrite _ ch => Forall (λ x, key_ok (change_table ch) x.2) (trigger ch)
  | OtherConfirm t target ids => target ≠ sync_target ∧
      ∀ i, i ∈ ids → (i < next_of w t)%Z ∧
        ∀ n ax, w_open w !! n = Some ax → (t, i) ∉ fst <$> ax_deltas ax
  | OtherPurge _ targets _ => sync_target ∈ targets
  | _ => True
  end.

Definition interferes : relation pgworld :=
  rtc (λ w w', ∃ ev, event_ok w ev ∧ w' = run_event ev w).

(** The calls whose effect can be lost from view when the connection drops. *)
Definition effectful (o : call) : bool :=
  match o with
  | ConfirmConsumed _ _ _ | ApplyPass _ _ _ _ | Commit | Rollback | BulkLoad _ _ _ _
  | DeleteRange _ _ _ | SinkReconnect | Exec (SCopyTable _ _ _) => true
  | _ => false
  end.

Definition pg_effect (c : nat) (o : call) (w : pgworld) (r : result (resp o)) (w' : pgworld) : Prop :=
  (pg_call c o w = Some (r, w')) ∨
  (* fails without effect *)
  (o ≠ Rollback ∧ w' = w ∧ ∃ e, r = inl e) ∨
  (* takes effect, reported failed *)
  (effectful o = true ∧ (∃ r0, pg_call c o w = Some (r0, w')) ∧ ∃ e, r = inl e) ∨
  (* a failed COMMIT ends the transaction *)
  (o = Commit ∧ w' = set_w_tx w (delete c (w_tx w)) ∧ ∃ e, r = inl e).

Definition pg_step (c : nat) (o : call) (w : pgworld) (r : result (resp o)) (w' : pgworld) : Prop :=
  ∃ w1 w2, interferes w w1 ∧ pg_effect c o w1 r w2 ∧ interferes w2 w'.

(** The run without failures or interference. *)
Definition pg_handler (c : nat) (o : call) (w : pgworld) : result (resp o) * pgworld :=
  default (inl (Failure "not a row call"), w) (pg_call c o w).

(** ** Abstraction *)

Definition in_flight (w : pgworld) (t : TableRef) (i : DeltaID) : Prop :=
  ∃ n ax, w_open w !! n = Some ax ∧ (t, i) ∈ fst <$> ax_deltas ax.

(** An id that has been drawn and is no longer in flight. *)
Definition seen (w : pgworld) (t : TableRef) (i : DeltaID) : Prop :=
  (i < next_of w t)%Z ∧ ¬ in_flight w t i.

Definition pending (w : pgworld) : gmap (TableRef * DeltaID) KeyValues :=
  dr_Key <$> filter (λ '(ti, _), (ti.1, sync_target, ti.2) ∉ w_track w) (w_delta w).

Definition pg_view (w : pgworld) : astate :=
  mkA (w_src w) (w_tgt w) (pending w) (seen w) (w_tx w).

(** ** Invariant of the capture objects *)

Record pg_ok (w : pgworld) : Prop := {
  ok_delta t i d : w_delta w !! (t, i) = Some d → seen w t i ∧ key_ok t (dr_Key d);
  ok_track t tg i : (t, tg, i) ∈ w_track w → seen w t i;
  ok_open n ax t i d : w_open w !! n = Some ax → ((t, i), d) ∈ ax_deltas ax →
    (i < next_of w t)%Z ∧ key_ok t (dr_Key d);
  ok_nodup n ax : w_open w !! n = Some ax → NoDup (fst <$> ax_deltas ax);
  ok_disj n m ax ay ti : w_open w !! n = Some ax → w_open w !! m = Some ay →
    ti ∈ fst <$> ax_deltas ax → ti ∈ fst <$> ax_deltas ay → n = m;
  (** every row an open transaction has written has a delta in it *)
  ok_writes n ax t k : w_open w !! n = Some ax → is_Some (ax_writes ax !! (t, k)) →
    ∃ i d, ((t, i), d) ∈ ax_deltas ax ∧ dr_Key d = k
}.

Lemma lookup_pending w t i :
  pending w !! (t, i) = if decide ((t, sync_target, i) ∈ w_track w) then None
                        else dr_Key <$> w_delta w !! (t, i).
Proof.
  unfold pending. rewrite lookup_fmap.
  rewrite (lookup_filter_fst (λ ti : TableRef * DeltaID, (ti.1, sync_target, ti.2) ∉ w_track w)).
  simpl. destruct (decide ((t, sync_target, i) ∈ w_track w)).
  - by rewrite decide_False by tauto.
  - by rewrite decide_True by done.
Qed.

Lemma pending_ok w t i k : pg_ok w → pending w !! (t, i) = Some k → seen w t i ∧ key_ok t k.
Proof.
  intros Hok. rewrite lookup_pending. case_decide; [done|].
  intros (d & Hd & ->)%fmap_Some. by apply (ok_delta _ Hok).
Qed.

(** The trigger covers every key the change writes. *)
Lemma trigger_covers ch t k :
  is_Some (change_writes ch !! (t, k)) → t = change_table ch ∧ k ∈ (trigger ch).*2.
Proof.
  destruct ch as [t' k' r|t' k1 k2 r|t' k']; simpl.
  - rewrite lookup_singleton_is_Some. intros [= <- <-]. set_solver.
  - rewrite lookup_insert_is_Some, lookup_singleton_is_Some.
    intros [[= -> ->]|[_ [= <- <-]]].
    + split; [done|]. case_decide; set_solver.
    + split; [done|]. case_decide as Hd; [set_solver|subst; set_solver].
  - rewrite lookup_singleton_is_Some. intros [= <- <-]. set_solver.
Qed.

Lemma enqueue_ids t next ops x :
  x ∈ enqueue t next ops →
  x.1.1 = t ∧ (next <= x.1.2 < next + Z.of_nat (length (enqueue t next ops)))%Z ∧
  ∃ op, (op, dr_Key x.2) ∈ ops.
Proof.
  revert next. induction ops as [|[op k] ops IH]; intros next; simpl.
  { by intros ?%elem_of_nil. }
  intros [->|Hx]%elem_of_cons.
  - simpl. split_and!; [done|lia|lia|]. exists op. by left.
  - destruct (IH _ Hx) as (-> & Hi & op' & Hop). split_and!; [done|lia|lia|].
    exists op'. by right.
Qed.

Lemma enqueue_keys t next ops k :
  k ∈ ops.*2 → ∃ i d, ((t, i), d) ∈ enqueue t next ops ∧ dr_Key d = k.
Proof.
  revert next. induction ops as [|[op k'] ops IH]; intros next; simpl.
  { by intros ?%elem_of_nil. }
  intros [->|Hk]%elem_of_cons.
  - exists next, (mkDelta op k'). split; [by left|done].
  - destruct (IH (next + 1)%Z Hk) as (i & d & ? & ?). exists i, d. split; [by right|done].
Qed.

Lemma enqueue_NoDup t next ops : NoDup (enqueue t next ops).*1.
Proof.
  revert next. induction ops as [|[op k] ops IH]; intros next; simpl; [constructor|].
  constructor; [|apply IH]. intros ([[t' i] d] & Heq & Hx)%list_elem_of_fmap.
  apply enqueue_ids in Hx as (_ & Hi & _). simplify_eq/=. lia.
Qed.

(** ** Application activity keeps the invariant and the contract's [rely] *)

Lemma in_flight_open w o t i :
  in_flight (set_open w o) t i ↔ ∃ n ax, o !! n = Some ax ∧ (t, i) ∈ fst <$> ax_deltas ax.
Proof. done. Qed.

(** Events that only change the open transactions and the sequences. *)
Lemma open_rely w w' :
  w_src w' = w_src w → w_delta w' = w_delta w → w_track w' = w_track w → w_tgt w' = w_tgt w →
  w_tx w' = w_tx w → (∀ t i, seen w t i → seen w' t i) → pg_ok w' →
  rely (pg_view w) (pg_view w').
Proof.
  intros Hs Hd Ht Hg Hx Hse Hok.
  assert (pending w' = pending w) as Hp by by unfold pending; rewrite Hd, Ht.
  split; simpl; [done|done|done| |by intros; apply pending_ok|by left; rewrite Hs].
  intros t i _. by rewrite Hp.
Qed.

Lemma begin_event w n :
  pg_ok w → w_open w !! n = None →
  let w' := set_open w (<[n := mkApp ∅ []]> (w_open w)) in
  pg_ok w' ∧ rely (pg_view w) (pg_view w').
Proof.
  intros Hok Hn w'.
  assert (∀ t i, in_flight w' t i → in_flight w t i) as Hf.
  { intros t i (m & ax & Hm & Hin). simpl in Hm. apply lookup_insert_Some in Hm as [[<- <-]|[? ?]].
    - by apply elem_of_nil in Hin.
    - by exists m, ax. }
  assert (∀ t i, seen w t i → seen w' t i) as Hse.
  { intros t i [Hi Hnf]. split; [done|]. by intros ?%Hf. }
  assert (pg_ok w') as Hok'; [|split; [done|by apply open_rely]].
  destruct Hok as [D T O N J Wr]. split; simpl.
  - intros t i d [? ?]%D. split; [by apply Hse|done].
  - intros t tg i Hi. by apply Hse, (T t tg).
  - intros m ax t i d [[<- <-]|[_ Hm]]%lookup_insert_Some; [by intros ?%elem_of_nil|by eapply O].
  - intros m ax [[<- <-]|[_ Hm]]%lookup_insert_Some; [constructor|by eapply N].
  - intros m1 m2 ax ay ti [[<- <-]|[_ H1]]%lookup_insert_Some [[<- <-]|[_ H2]]%lookup_insert_Some;
      simpl; try (by intros ?%elem_of_nil); [by intros _ ?%elem_of_nil|by eapply J].
  - intros m ax t k [[<- <-]|[_ Hm]]%lookup_insert_Some; simpl.
    + by intros [? ?].
    + by eapply Wr.
Qed.

Lemma abort_event w n :
  pg_ok w →
  let w' := set_open w (delete n (w_open w)) in
  pg_ok w' ∧ rely (pg_view w) (pg_view w').
Proof.
  intros Hok w'.
  assert (∀ t i, seen w t i → seen w' t i) as Hse.
  { intros t i [Hi Hnf]. split; [done|]. intros (m & ax & Hm & Hin). simpl in Hm.
    apply lookup_delete_Some in Hm as [_ Hm]. apply Hnf. by exists m, ax. }
  assert (pg_ok w') as Hok'; [|split; [done|by apply open_rely]].
  destruct Hok as [D T O N J Wr]. split; simpl.
  - intros t i d [? ?]%D. split; [by apply Hse|done].
  - intros t tg i Hi. by apply Hse, (T t tg).
  - intros m ax t i d [_ Hm]%lookup_delete_Some. by eapply O.
  - intros m ax [_ Hm]%lookup_delete_Some. by eapply N.
  - intros m1 m2 ax ay ti [_ H1]%lookup_delete_Some [_ H2]%lookup_delete_Some. by eapply J.
  - intros m ax t k [_ Hm]%lookup_delete_Some. by eapply Wr.
Qed.

Lemma write_event w n ax ch :
  pg_ok w → w_open w !! n = Some ax → event_ok w (AppWrite n ch) →
  pg_ok (run_event (AppWrite n ch) w) ∧ rely (pg_view w) (pg_view (run_event (AppWrite n ch) w)).
Proof.
  intros Hok Hn Hev. simpl in Hev. unfold run_event. rewrite Hn.
  set (t0 := change_table ch) in *. set (new := enqueue t0 (next_of w t0) (trigger ch)).
  set (w' := mkW _ _ _ _ _ _ _).
  assert (∀ t, next_of w' t = if decide (t0 = t) then (next_of w t0 + Z.of_nat (length new))%Z
                              else next_of w t) as Hnext.
  { intros t. unfold next_of, w'. simpl. rewrite lookup_insert. by case_decide. }
  assert (∀ x, x ∈ new → x.1.1 = t0 ∧ (next_of w t0 <= x.1.2 < next_of w' t0)%Z ∧
    key_ok t0 (dr_Key x.2)) as Hnew.
  { intros x (H1 & H2 & op & Hop)%enqueue_ids. split_and!; [done|lia| |].
    - rewrite Hnext, decide_True by done. fold new in H2. lia.
    - rewrite Forall_forall in Hev. by apply (Hev _ Hop). }
  assert (∀ t i, (i < next_of w t → i < next_of w' t)%Z) as Hmono.
  { intros t i Hi. rewrite Hnext. case_decide; [subst|]; lia. }
  assert (∀ t i, (i < next_of w t)%Z → in_flight w' t i → in_flight w t i) as Hf.
  { intros t i Hi (m & ay & Hm & Hin). simpl in Hm.
    apply lookup_insert_Some in Hm as [[<- <-]|[? ?]]; [|by exists m, ay].
    simpl in Hin. rewrite fmap_app, elem_of_app in Hin. destruct Hin as [Hin|Hin]; [by exists n, ax|].
    apply list_elem_of_fmap in Hin as ([[t' i'] d] & Hx & Hin).
    destruct (Hnew _ Hin) as (H1 & H2 & _). simplify_eq/=. lia. }
  assert (∀ t i, seen w t i → seen w' t i) as Hse.
  { intros t i [Hi Hnf]. split; [by apply Hmono|]. by intros ?%Hf. }
  assert (pg_ok w') as Hok'; [|split; [done|by apply open_rely]].
  destruct Hok as [D T O N J Wr].
  assert (∀ x m ay, x ∈ new → w_open w !! m = Some ay → x.1 ∉ fst <$> ax_deltas ay) as Hfresh.
  { intros [[t i] d] m ay Hx Hm (y & Hy & Hin)%list_elem_of_fmap. destruct y as [[t' i'] d'].
    simplify_eq/=. destruct (Hnew _ Hx) as (? & ? & _). simpl in *. subst t'.
    destruct (O m ay _ _ _ Hm Hin). lia. }
  split; simpl.
  - intros t i d [? ?]%D. split; [by apply Hse|done].
  - intros t tg i Hi. by apply Hse, (T t tg).
  - intros m ay t i d [[<- <-]|[_ Hm]]%lookup_insert_Some; simpl.
    + intros [Hin|Hin]%elem_of_app.
      * destruct (O n ax t i d Hn Hin). split; [by apply Hmono|done].
      * destruct (Hnew _ Hin) as (H1 & H2 & H3). simpl in *. subst t. split; [lia|done].
    + intros Hin. destruct (O m ay t i d Hm Hin). split; [by apply Hmono|done].
  - intros m ay [[<- <-]|[_ Hm]]%lookup_insert_Some; simpl; [|by eapply N].
    rewrite fmap_app. apply NoDup_app. split_and!; [by eapply N| |apply enqueue_NoDup].
    intros ti Hin (x & -> & Hx)%list_elem_of_fmap. by apply (Hfresh x n ax Hx Hn).
  - intros m1 m2 ay az ti [[<- <-]|[H1 Hm1]]%lookup_insert_Some
      [[<- <-]|[H2 Hm2]]%lookup_insert_Some; simpl; rewrite ?fmap_app, ?elem_of_app; [done|..].
    + intros [Hin|(x & -> & Hx)%list_elem_of_fmap] Hin2; [by eapply J|].
      by destruct (Hfresh x m2 az Hx Hm2).
    + intros Hin2 [Hin|(x & -> & Hx)%list_elem_of_fmap]; [by eapply J|].
      by destruct (Hfresh x m1 ay Hx Hm1).
    + by eapply J.
  - intros m ay t k [[<- <-]|[_ Hm]]%lookup_insert_Some; simpl; [|by eapply Wr].
    rewrite lookup_union_is_Some. intros [Hk|Hk].
    + apply trigger_covers in Hk as [-> Hk].
      destruct (enqueue_keys t0 (next_of w t0) _ _ Hk) as (i & d & Hin & <-).
      exists i, d. split; [|done]. apply elem_of_app. by right.
    + destruct (Wr n ax t k Hn Hk) as (i & d & Hin & <-). exists i, d. split; [|done].
      apply elem_of_app. by left.
Qed.

Lemma commit_event w n ax :
  pg_ok w → w_open w !! n = Some ax →
  pg_ok (run_event (AppCommit n) w) ∧ rely (pg_view w) (pg_view (run_event (AppCommit n) w)).
Proof.
  intros Hok Hn. unfold run_event. rewrite Hn. set (w' := mkW _ _ _ _ _ _ _).
  assert (∀ t i, seen w t i → seen w' t i) as Hse.
  { intros t i [Hi Hnf]. split; [done|]. intros (m & ay & Hm & Hin). simpl in Hm.
    apply lookup_delete_Some in Hm as [_ Hm]. apply Hnf. by exists m, ay. }
  destruct Hok as [D T O N J Wr]. pose proof (N n ax Hn) as Hnd.
  assert (∀ t i d, ((t, i), d) ∈ ax_deltas ax →
    (¬ seen w t i) ∧ seen w' t i ∧ key_ok t (dr_Key d) ∧ w_delta w' !! (t, i) = Some d) as Hnew.
  { intros t i d Hin. assert ((t, i) ∈ fst <$> ax_deltas ax) as Hin1.
    { apply list_elem_of_fmap. by exists ((t, i), d). }
    destruct (O n ax t i d Hn Hin) as [Hi Hk]. split_and!; [|split; [done|]|done|].
    - intros [_ Hnf]. apply Hnf. by exists n, ax.
    - intros (m & ay & Hm & Hin2). simpl in Hm. apply lookup_delete_Some in Hm as [Hne Hm].
      apply Hne. by apply (J n m ax ay (t, i)).
    - simpl. rewrite lookup_union_r_if. by rewrite (elem_of_list_to_map_1 _ _ d). }
  assert (∀ t i, seen w t i → w_delta w' !! (t, i) = w_delta w !! (t, i)) as Hold.
  { intros t i Hs. simpl. rewrite lookup_union_r_if.
    destruct (list_to_map (ax_deltas ax) !! (t, i)) as [d|] eqn:E; [|done].
    apply elem_of_list_to_map_2 in E. by destruct (Hnew _ _ _ E). }
  assert (∀ t i d, w_delta w' !! (t, i) = Some d → seen w' t i ∧ key_ok t (dr_Key d)) as Hdel.
  { intros t i d. simpl. rewrite lookup_union_r_if.
    destruct (list_to_map (ax_deltas ax) !! (t, i)) as [d'|] eqn:E.
    - intros [= <-]. apply elem_of_list_to_map_2 in E. by apply Hnew in E as (_ & ? & ? & _).
    - intros [? ?]%D. split; [by apply Hse|done]. }
  assert (pg_ok w') as Hok'.
  { split; simpl.
    - done.
    - intros t tg i Hi. by apply Hse, (T t tg).
    - intros m ay t i d [_ Hm]%lookup_delete_Some. by eapply O.
    - intros m ay [_ Hm]%lookup_delete_Some. by eapply N.
    - intros m1 m2 ay az ti [_ H1]%lookup_delete_Some [_ H2]%lookup_delete_Some. by eapply J.
    - intros m ay t k [_ Hm]%lookup_delete_Some. by eapply Wr. }
  split; [done|]. split; simpl; [done..| | |].
  - intros t i Hs. rewrite !lookup_pending. by rewrite (Hold t i Hs).
  - intros t i k. by apply pending_ok.
  - intros t k. rewrite lookup_apply_writes.
    destruct (ax_writes ax !! (t, k)) as [o|] eqn:E; [right|by left].
    destruct (Wr n ax t k Hn) as (i & d & Hin & <-); [by eexists|].
    destruct (Hnew t i d Hin) as (Hns & _ & _ & Hd). exists i. split; [done|].
    rewrite lookup_pending, decide_False, Hd; [done|]. intros Htr. by apply Hns, (T t sync_target).
Qed.

Lemma confirm_event w t target ids :
  pg_ok w → event_ok w (OtherConfirm t target ids) →
  pg_ok (confirm t target ids w) ∧ rely (pg_view w) (pg_view (confirm t target ids w)).
Proof.
  intros Hok [Hne Hids].
  assert (pg_ok (confirm t target ids w)) as Hok'.
  { destruct Hok as [D T O N J Wr]. split; try done.
    intros t' tg i. simpl. intros [Hi|Hi]%elem_of_union; [|by apply (T t' tg)].
    apply elem_of_list_to_set, list_elem_of_fmap in Hi as (j & [= -> -> ->] & Hj).
    destruct (Hids j Hj) as [? Hf]. split; [done|]. intros (n & ax & Hn & Hin). by apply (Hf n ax). }
  split; [done|]. split; simpl; [done..| |by intros; apply pending_ok|by left].
  intros t' i _. rewrite !lookup_pending. apply decide_ext. simpl.
  rewrite elem_of_union, elem_of_list_to_set, list_elem_of_fmap. naive_solver.
Qed.

Lemma consumed_by_all w t targets i tg :
  consumed_by w t targets i → tg ∈ targets → (t, tg, i) ∈ w_track w.
Proof.
  unfold consumed_by. intros Hlen Htg.
  assert (length (remove_dups targets) ≤ length targets) as Hle.
  { apply submseteq_length, NoDup_submseteq; [apply NoDup_remove_dups|].
    intros x. by rewrite elem_of_remove_dups. }
  assert (tg ∈ remove_dups targets) as Hin by by apply elem_of_remove_dups.
  destruct (decide ((t, tg, i) ∈ w_track w)) as [|Hn]; [done|]. exfalso.
  assert (length (filter (λ tg, (t, tg, i) ∈ w_track w) (remove_dups targets))
    < length (remove_dups targets)); [|lia].
  apply (length_filter_lt _ _ tg); done.
Qed.

(** A purge for a target set that includes this one removes nothing it needs. *)
Lemma purge_event w t targets (P : TableRef * DeltaID → Prop) `{!∀ x, Decision (P x)} :
  pg_ok w → sync_target ∈ targets →
  (∀ t' i, P (t', i) → t' = t ∧ consumed_by w t targets i) →
  pg_ok (drop_deltas P w) ∧ rely (pg_view w) (pg_view (drop_deltas P w)).
Proof.
  intros Hok Hin HP.
  assert (pg_ok (drop_deltas P w)) as Hok'.
  { destruct Hok as [D T O N J Wr]. split; try done.
    intros t' i d. simpl. rewrite (lookup_filter_fst (λ ti, ¬ P ti)).
    case_decide; [|done]. apply D. }
  split; [done|]. split; simpl; [done..| |by intros; apply pending_ok|by left].
  intros t' i _. rewrite !lookup_pending.
  change (w_track (drop_deltas P w)) with (w_track w). case_decide as Htr; [done|]. simpl.
  rewrite (lookup_filter_fst (λ ti, ¬ P ti)). case_decide as Hp; [done|].
  apply HP in Hp as [-> Hc]. destruct Htr.
  by apply (consumed_by_all w t targets).
Qed.

Lemma event_step w ev :
  pg_ok w → event_ok w ev →
  pg_ok (run_event ev w) ∧ rely (pg_view w) (pg_view (run_event ev w)).
Proof.
  intros Hok Hev.
  assert (pg_ok w ∧ rely (pg_view w) (pg_view w)) as Hsame.
  { split; [done|]. apply rely_refl. intros t i k. by apply pending_ok. }
  destruct ev as [n|n ch|n|n|t tg ids|t tgs ids].
  - simpl. case_decide; [by apply begin_event|done].
  - destruct (w_open w !! n) as [ax|] eqn:Hn; [by eapply write_event|].
    simpl. by rewrite Hn.
  - destruct (w_open w !! n) as [ax|] eqn:Hn; [by eapply commit_event|].
    simpl. by rewrite Hn.
  - by apply abort_event.
  - by apply confirm_event.
  - apply (purge_event w t tgs); [done..|]. naive_solver.
Qed.

Lemma interferes_rely w w' :
  interferes w w' → pg_ok w → pg_ok w' ∧ rely (pg_view w) (pg_view w').
Proof.
  induction 1 as [w|w w1 w' (ev & Hev & ->) _ IH]; intros Hok.
  - split; [done|]. apply rely_refl. intros t i k. by apply pending_ok.
  - destruct (event_step w ev Hok Hev) as [Hok1 R1]. destruct (IH Hok1) as [Hok' R2].
    split; [done|]. by eapply rely_trans.
Qed.

(** ** The calls keep the contract *)

Lemma elem_of_unconsumed w t target t' i d :
  ((t', i), d) ∈ unconsumed w t target ↔
  t' = t ∧ ((t, target, i) ∉ w_track w) ∧ w_delta w !! (t', i) = Some d.
Proof.
  unfold unconsumed. rewrite list_elem_of_filter, elem_of_map_to_list. simpl. tauto.
Qed.

Lemma read_dirty_sound w t max d :
  d ∈ read_dirty w t sync_target max → pending w !! (t, dk_DeltaID d) = Some (dk_Key d).
Proof.
  unfold read_dirty. intros Hd.
  assert (d ∈ (λ '(ti, d), mkDirty ti.2 (dr_Op d) (dr_Key d)) <$> unconsumed w t sync_target) as Hin.
  { revert Hd. case_decide; intros Hd.
    - apply elem_of_take in Hd as (j & Hj & _). apply list_elem_of_lookup_2 in Hj.
      by rewrite merge_sort_Permutation in Hj.
    - by rewrite merge_sort_Permutation in Hd. }
  apply list_elem_of_fmap in Hin as ([[t' i] d'] & -> & Hin). simpl.
  apply elem_of_unconsumed in Hin as (-> & Htr & Hd').
  by rewrite lookup_pending, decide_False, Hd' by done.
Qed.

Lemma pending_confirm w t ids :
  pending (confirm t sync_target ids w) = consume t ids (pending w).
Proof.
  apply map_eq. intros [t' i]. rewrite lookup_consume, !lookup_pending. simpl.
  destruct (decide (t' = t ∧ i ∈ ids)) as [[-> Hi]|Hout].
  - rewrite decide_True; [done|]. apply elem_of_union. left.
    apply elem_of_list_to_set, list_elem_of_fmap. by exists i.
  - apply decide_ext. rewrite elem_of_union, elem_of_list_to_set, list_elem_of_fmap.
    split; [|by right]. intros [(j & [= -> ->] & Hj)|]; [tauto|done].
Qed.

Lemma confirm_pg_ok w t target ids :
  pg_ok w → (∀ i, i ∈ ids → seen w t i) → pg_ok (confirm t target ids w).
Proof.
  intros [D T O N J Wr] Hids. split; try done. intros t' tg i. simpl.
  intros [Hi|Hi]%elem_of_union; [|by apply (T t' tg)].
  apply elem_of_list_to_set, list_elem_of_fmap in Hi as (j & [= -> -> ->] & Hj).
  by apply Hids.
Qed.

(** The source side is all [pg_ok] looks at. *)
Lemma pg_ok_target w tgt tx :
  pg_ok w → pg_ok (mkW (w_src w) (w_open w) (w_next w) (w_delta w) (w_track w) tgt tx).
Proof. intros [D T O N J Wr]. split; done. Qed.

Lemma on_tx_effect c w f r w' :
  on_tx c w f = (r, w') →
  tx_effect c f (pg_view w) (pg_view w') r ∨ ((∃ e, r = inl e) ∧ w' = w).
Proof.
  unfold on_tx. destruct (w_tx w !! c) as [tx|] eqn:Hx; [destruct (f tx) as [tx'|] eqn:Hf|];
    intros [= <- <-]; [left|right; eauto..].
  exists tx, tx'. done.
Qed.

Lemma on_tx_ok c w f : pg_ok w → pg_ok (on_tx c w f).2.
Proof.
  intros Hok. unfold on_tx. destruct (w_tx w !! c) as [tx|]; [|done].
  destruct (f tx); [by apply pg_ok_target|done].
Qed.

Context (Hcat : catalog_ok catalog).

Lemma introspect_ok sel : introspected sel (introspect sel).
Proof.
  assert (∀ tbl, tbl ∈ introspect sel → tbl ∈ cat_src catalog) as Hsub.
  { intros tbl [_ Ht]%list_elem_of_filter. done. }
  split.
  - intros tbl Ht%Hsub. by apply (cat_cols _ Hcat).
  - intros t Ht Hin. apply (cat_tables _ Hcat), list_elem_of_fmap in Ht as (tbl & -> & Ht).
    apply list_elem_of_fmap. exists tbl. split; [done|]. by apply list_elem_of_filter.
  - apply (sublist_NoDup _ _ (cat_nodup _ Hcat)), fmap_sublist, sublist_filter.
  - intros t fk Ht%Hsub. by apply (cat_own _ Hcat).
Qed.

Lemma pg_stmt_ok c q w : pg_ok w → pg_ok (pg_stmt c q w).2.
Proof.
  intros Hok. destruct q; simpl; try done; try (by apply on_tx_ok); try (by apply pg_ok_target).
  - destruct r; [done|by apply on_tx_ok].
  - destruct r as [e|stg]; [done|]. destruct (w_tx w !! c) as [tx|];
      [destruct (copyInto _ _ _ _ _ _)|destruct (bulkLoad _ _ _ _ _ _)]; simpl; try done; by apply pg_ok_target.
Qed.

Lemma pg_stmt_effect c q w r w' :
  pg_stmt c q w = (r, w') →
  stmt_effect c q (pg_view w) r (pg_view w') ∨ ((∃ e, r = inl e) ∧ w' = w).
Proof.
  intros Hc. destruct q; simpl in Hc; try (apply on_tx_effect in Hc as [?|?]; [by left|by right]);
    try (injection Hc as <- <-; by left).
  - injection Hc as <- <-. unfold tableMeta. destruct (filter _ _) as [|tbl l] eqn:E; [right; eauto|left].
    assert (tbl ∈ filter (λ tbl, tbl_Ref tbl = t) (cat_tgt catalog)) as [<- Hin]%list_elem_of_filter
      by (rewrite E; by left).
    split; [done|]. exists tbl. split_and!; [done..|]. by apply (cat_keys _ Hcat).
  - destruct r0 as [e|stg]; [injection Hc as <- <-; right; eauto|].
    apply on_tx_effect in Hc as [?|?]; [left; by exists stg|by right].
  - destruct r0 as [e|stg]; [injection Hc as <- <-; right; eauto|].
    destruct (w_tx w !! c) as [tx|] eqn:Hx.
    + destruct (copyInto _ _ _ _ _ _) as [tx'|] eqn:Ht; injection Hc as <- <-; [left|right; eauto].
      exists stg. split; [done|]. simpl. rewrite Hx. by exists tx'.
    + destruct (bulkLoad _ _ _ _ _ _) as [tgt'|] eqn:Ht; injection Hc as <- <-; [left|right; eauto].
      exists stg. split; [done|]. simpl. rewrite Hx. by exists tgt'.
Qed.

Lemma pg_call_ok c o w r w' :
  pg_ok w → requires c o (pg_view w) → pg_call c o w = Some (r, w') → pg_ok w'.
Proof.
  intros Hok Hreq Hc. destruct o; simpl in Hc; try (case_decide; [|done]); try done;
    apply (inj Some) in Hc; try (injection Hc as <- <-; done); try (injection Hc as <- <-; by apply pg_ok_target).
  - injection Hc as <- <-. by apply confirm_pg_ok; [|apply Hreq].
  - destruct r0 as [e|stg]; [by injection Hc as <- <-|].
    destruct (bulkLoad _ _ _ _ _ _); injection Hc as <- <-; [by apply pg_ok_target|done].
  - destruct r0 as [e|stg]; [by injection Hc as <- <-|].
    destruct (applyPass _ _ _ _ _ _); injection Hc as <- <-; [by apply pg_ok_target|done].
  - destruct r0 as [e|stg]; [by injection Hc as <- <-|].
    apply (f_equal snd) in Hc. simpl in Hc. rewrite <-Hc. by apply on_tx_ok.
  - apply (f_equal snd) in Hc. simpl in Hc. rewrite <-Hc. by apply on_tx_ok.
  - apply (f_equal snd) in Hc. simpl in Hc. rewrite <-Hc. by apply on_tx_ok.
  - destruct (w_tx w !! c); injection Hc as <- <-; [by apply (pg_ok_target w)|done].
  - apply (f_equal snd) in Hc. simpl in Hc. rewrite <-Hc. by apply pg_stmt_ok.
Qed.

Lemma pg_call_effect c o w r w' :
  requires c o (pg_view w) → pg_call c o w = Some (r, w') →
  effect c o (pg_view w) r (pg_view w') ∨ (may_fail o ∧ (∃ e, r = inl e) ∧ w' = w).
Proof.
  intros Hreq Hc. destruct o; simpl in Hc; try (case_decide; [|done]); try done;
    apply (inj Some) in Hc; try (injection Hc as <- <-; by left).
  - injection Hc as <- <-. left. split; [done|]. eexists. split; [done|]. intros ->.
    intros d. apply read_dirty_sound.
  - injection Hc as <- <-. left. split; [done|]. eexists. split; [done|].
    by apply introspect_ok.
  - injection Hc as <- <-. left. simpl. destruct Hreq as [-> _].
    rewrite decide_True by done. unfold pg_view, set_pend. simpl. by rewrite pending_confirm.
  - destruct Hreq as [Hm Hk]. rewrite planChunks_keyset in Hc by done. injection Hc as <- <-.
    left. split; [done|]. eexists. split; [done|]. apply buildKeysetRangesFrom_ok.
  - destruct r0 as [e|stg]; [injection Hc as <- <-; right; split_and!; [done|by eexists|done]|].
    destruct (bulkLoad _ _ _ _ _ _) as [tgt'|] eqn:Ha; injection Hc as <- <-; [left|right; split_and!; [done|by eexists|done]].
    by exists stg, tgt'.
  - destruct r0 as [e|stg]; [injection Hc as <- <-; right; split_and!; [done|by eexists|done]|].
    destruct (applyPass _ _ _ _ _ _) as [tgt'|] eqn:Ha; injection Hc as <- <-; [left|right; split_and!; [done|by eexists|done]].
    by exists stg, tgt'.
  - destruct r0 as [e|stg]; [injection Hc as <- <-; right; split_and!; [done|by eexists|done]|].
    apply on_tx_effect in Hc as [?|[? ->]]; [left; by exists stg|by right].
  - apply on_tx_effect in Hc as [?|[? ->]]; [by left|by right].
  - apply on_tx_effect in Hc as [?|[? ->]]; [by left|by right].
  - destruct (w_tx w !! c) as [tx|] eqn:Hx; injection Hc as <- <-; [|right; split_and!; [done|by eexists|done]].
    left. left. by exists tx.
  - apply pg_stmt_effect in Hc as [?|[? ->]]; [by left|by right].
Qed.

(** An effect whose acknowledgement is lost. *)
Lemma effect_lost_ack c o v r v' e :
  effectful o = true → effect c o v r v' → effect c o v (inl e) v'.
Proof.
  intros Hef. destruct o; try done; simpl; try done.
  - intros [Hx|[[e' ->] ->]]; [by left|]. right. eauto.
  - destruct q; done.
Qed.

Lemma pg_effect_contract c o w r w' :
  pg_ok w → requires c o (pg_view w) → pg_effect c o w r w' →
  pg_ok w' ∧ (effect c o (pg_view w) r (pg_view w') ∨
    (may_fail o ∧ (∃ e, r = inl e) ∧ pg_view w' = pg_view w)).
Proof.
  intros Hok Hreq [Hc|[(Hne & -> & He)|[(Hef & [r0 Hc] & [e ->])|(-> & -> & [e ->])]]].
  - split; [by eapply pg_call_ok|].
    destruct (pg_call_effect _ _ _ _ _ Hreq Hc) as [?|(? & ? & ->)]; [by left|by right].
  - split; [done|by right].
  - split; [by eapply pg_call_ok|].
    destruct (pg_call_effect _ _ _ _ _ Hreq Hc) as [He|(Hm & _ & ->)].
    + left. by eapply effect_lost_ack.
    + right. split_and!; [done|by exists e|done].
  - split; [by apply pg_ok_target|]. left. right. split; [by exists e|done].
Qed.

(** Interference before the call cannot take away what [requires] asks. *)
(** The Postgres engine implements the contract. *)
#[global] Instance pg_engine : Engine pgworld.
Proof.
  refine {| engine_step := pg_step; engine_ok := pg_ok; engine_view := pg_view |}.
  intros c o w r w' Hok Hreq (w1 & w2 & I1 & He & I2).
  destruct (interferes_rely _ _ I1 Hok) as [Hok1 R1].
  destruct (pg_effect_contract c o w1 r w2 Hok1) as [Hok2 He2]; [by eapply requires_rely|done|].
  destruct (interferes_rely _ _ I2 Hok2) as [Hok' R2].
  split; [done|]. by exists (pg_view w1), (pg_view w2).
Defined.

(** The failure-free run is one of the engine's behaviours. *)
Lemma pg_handler_step c o w : pg_step c o w (pg_handler c o w).1 (pg_handler c o w).2.
Proof.
  exists w, (pg_handler c o w).2. split_and!; [apply rtc_refl| |apply rtc_refl].
  unfold pg_handler. destruct (pg_call c o w) as [[r w']|] eqn:E; simpl; [by left|].
  right. left. split_and!; [by intros ->|done|by eexists].
Qed.
End pg.
End Postgres.
