(* ===== verification/PgDrain.v ===== *)
(** * The drain on Postgres

    The theorems of [Apply.v] carried over to the Postgres engine, and
    convergence: without failures and concurrent writes the drain empties the
    backlog and the target equals the source. *)

From S2P Require Import Prelude Engine Calls ApplyTx Plan Contract Apply ParDrain Postgres.
Import ApplyTx Plan Contract Apply ParDrain Postgres.

Module PgDrain.

Section converge.
Context `{Sch : Schema} (catalog : catalogs).
Context (Hcat : catalog_ok catalog).
Context (c : nat) (t : TableRef).

(** The table is on the source, under its plain name. *)
Definition listed : Prop :=
  find_columns t (introspect catalog (mkSelection [ref_string t] [])) = Some (cols_of t).

Definition to_dirty (x : (TableRef * DeltaID) * deltaRow) : DirtyKey :=
  mkDirty x.1.2 (dr_Op x.2) (dr_Key x.2).

Definition backlog (w : pgworld) : list DirtyKey := to_dirty <$> unconsumed w t sync_target.

Lemma read_dirty_take w batch :
  ∃ rest, read_dirty w t sync_target batch ++ rest ≡ₚ backlog w ∧
    (backlog w ≠ [] → read_dirty w t sync_target batch ≠ []).
Proof.
  unfold read_dirty, backlog.
  assert ((λ '(ti, d), mkDirty ti.2 (dr_Op d) (dr_Key d)) <$> unconsumed w t sync_target
    = to_dirty <$> unconsumed w t sync_target) as ->.
  { apply list_fmap_ext. by intros _ [[??]?] _. }
  set (all := merge_sort id_le _).
  assert (all ≡ₚ to_dirty <$> unconsumed w t sync_target) as Hall by apply merge_sort_Permutation.
  case_decide as Hb.
  - exists (drop (Z.to_nat batch) all). split; [by rewrite take_drop|].
    intros Hne Htake. apply Hne, Permutation_nil. symmetry. rewrite <-Hall.
    destruct all; [done|]. destruct (Z.to_nat batch) eqn:E; [lia|done].
  - exists []. split; [by rewrite app_nil_r|]. intros Hne Hnil. apply Hne, Permutation_nil.
    by rewrite <-Hall, Hnil.
Qed.

Lemma backlog_NoDup w : NoDup (dk_DeltaID <$> backlog w).
Proof.
  unfold backlog. rewrite <-list_fmap_compose.
  assert (NoDup (unconsumed w t sync_target).*1) as Hnd.
  { unfold unconsumed. apply (sublist_NoDup _ _ (NoDup_fst_map_to_list (w_delta w))).
    apply fmap_sublist, sublist_filter. }
  assert (∀ x, x ∈ unconsumed w t sync_target → x.1.1 = t) as Ht.
  { intros [[t' i] d] Hx. by apply elem_of_unconsumed in Hx as (-> & _). }
  induction (unconsumed w t sync_target) as [|x l IH]; [constructor|].
  rewrite fmap_cons in *. apply NoDup_cons in Hnd as [Hx Hnd]. constructor.
  - intros (y & Heq & Hy)%list_elem_of_fmap. apply Hx, list_elem_of_fmap. exists y.
    split; [|done]. pose proof (Ht x) as H1. pose proof (Ht y) as H2.
    destruct x as [[tx ix] dx], y as [[ty iy] dy]. simpl in *.
    rewrite H1, H2 by set_solver. by rewrite Heq.
  - apply IH; [done|]. intros y Hy. apply Ht. by right.
Qed.

Lemma elem_of_backlog w d :
  d ∈ backlog w ↔ ((t, sync_target, dk_DeltaID d) ∉ w_track w) ∧
    ∃ dr, w_delta w !! (t, dk_DeltaID d) = Some dr ∧ d = mkDirty (dk_DeltaID d) (dr_Op dr) (dr_Key dr).
Proof.
  unfold backlog. rewrite list_elem_of_fmap. split.
  - intros ([[t' i] dr] & -> & (-> & Htr & Hd)%elem_of_unconsumed). simpl. split; [done|].
    by exists dr.
  - intros (Htr & dr & Hd & ->). exists ((t, dk_DeltaID d), dr). split; [done|].
    by apply elem_of_unconsumed.
Qed.

(** What remains after consuming a part of the backlog. *)
Lemma backlog_consume w tgt' ds rest :
  ds ++ rest ≡ₚ backlog w →
  backlog (confirm t sync_target (dk_DeltaID <$> ds) (set_w_tgt w tgt')) ≡ₚ rest.
Proof.
  intros Hp. pose proof (backlog_NoDup w) as Hnd. rewrite <-Hp, fmap_app in Hnd.
  apply NoDup_app in Hnd as (Hn1 & Hdis & Hn2).
  apply NoDup_Permutation; [by eapply NoDup_fmap_1, backlog_NoDup|by eapply NoDup_fmap_1|].
  intros d. assert (d ∈ rest ↔ d ∈ backlog w ∧ dk_DeltaID d ∉ dk_DeltaID <$> ds) as ->.
  { rewrite <-Hp, elem_of_app. split.
    - intros Hr. split; [by right|]. intros Hin. apply (Hdis _ Hin). by apply list_elem_of_fmap_2.
    - intros [[Hd|Hd] Hn]; [|done]. destruct Hn. by apply list_elem_of_fmap_2. }
  rewrite !elem_of_backlog. simpl.
  rewrite not_elem_of_union, elem_of_list_to_set, list_elem_of_fmap.
  assert ((∃ y, (t, sync_target, dk_DeltaID d) = (t, sync_target, y) ∧ y ∈ dk_DeltaID <$> ds)
    ↔ dk_DeltaID d ∈ dk_DeltaID <$> ds) as -> by naive_solver.
  tauto.
Qed.

Lemma applyPass_total cols keys stg tgt : is_Some (applyPass dflt_of tgt t cols keys stg).
Proof.
  unfold applyPass. case_decide; [by eexists|].
  destruct (deleteAbsent_staged t keys (stageUpsert dflt_of tgt t cols stg (begin_tx ∅))) as [tx ->].
  - simpl. rewrite lookup_insert_eq. by eexists.
  - by eexists.
Qed.

(** One pass without failures: the batch is consumed. *)
Lemma exec_Drain w batch :
  listed →
  ∃ tgt', exec (pg_handler catalog) (Drain c t sync_target batch) w =
    match read_dirty w t sync_target batch with
    | [] => ((0, None), w)
    | ds => ((length ds, None), confirm t sync_target (dk_DeltaID <$> ds) (set_w_tgt w tgt'))
    end.
Proof.
  intros Hl. set (ds := read_dirty w t sync_target batch).
  unfold Drain, transportColumns, pipeApply. simpl. fold ds.
  destruct ds as [|d ds'] eqn:Hds; [by exists ∅|]. rewrite <-Hds. simpl.
  unfold listed in Hl. rewrite Hl. simpl.
  destruct (applyPass_total (cols_of t) (coalesce ds).1
    (reread (cols_of t) (w_src w) t (coalesce ds).1) (w_tgt w)) as [tgt' Ha].
  exists tgt'. simpl in Ha. unfold pg_handler, pg_call in *. simpl. rewrite Ha. simpl. by rewrite Hds.
Qed.

(** The failure-free run of [DrainAll]: it stops within one pass per delta. *)
Lemma exec_DrainAll fuel w batch total :
  listed → length (backlog w) < fuel →
  ∃ w', exec (pg_handler catalog) (DrainAll fuel c t sync_target batch total) w
      = (Some (total + length (backlog w), None), w') ∧ backlog w' = [].
Proof.
  intros Hl. revert w total. induction fuel as [|fuel IH]; intros w total Hf; [lia|].
  cbn [DrainAll]. rewrite exec_bind. destruct (exec_Drain w batch Hl) as [tgt' ->].
  destruct (read_dirty_take w batch) as (rest & Hp & Hne).
  set (ds := read_dirty w t sync_target batch) in *.
  destruct ds as [|d ds'] eqn:Hds.
  { exists w. assert (backlog w = []) as Hnil.
    { destruct (backlog w); [done|]. by destruct Hne. }
    rewrite Hnil. simpl. by rewrite Nat.add_0_r. }
  rewrite <-Hds in *.
  set (w1 := confirm t sync_target (dk_DeltaID <$> ds) (set_w_tgt w tgt')).
  assert (backlog w1 ≡ₚ rest) as Hb by by apply backlog_consume.
  assert (length (backlog w) = length ds + length (backlog w1)) as Hlen.
  { rewrite <-Hp, length_app. by rewrite Hb. }
  assert (∃ n, length ds = S n) as [n Hn] by (rewrite Hds; by eexists).
  destruct (IH w1 (total + length ds)) as (w' & He & Hw'); [lia|].
  exists w'. simpl. rewrite Hn in *. fold w1. rewrite He. split; [|done]. do 3 f_equal. lia.
Qed.

Lemma backlog_nil w : backlog w = [] → ∀ i, pending w !! (t, i) = None.
Proof.
  intros Hb i. rewrite lookup_pending. case_decide; [done|].
  destruct (w_delta w !! (t, i)) as [d|] eqn:E; [|done].
  assert (mkDirty i (dr_Op d) (dr_Key d) ∈ backlog w) as Hin.
  { apply elem_of_backlog. split; [done|]. by exists d. }
  rewrite Hb in Hin. by apply elem_of_nil in Hin.
Qed.

(** C5: convergence of the drain on Postgres. Without failures and concurrent
    writes, [DrainAll] terminates for every batch size (one pass per delta is
    enough), reports exactly the deltas that were unconsumed, leaves no
    unconsumed delta of the table, and every row of the table on the target
    equals its source row in the transported columns. *)
Theorem DrainAll_converges (w : pgworld) (batch : Z) (fuel : nat) :
  pg_ok w → Inv (λ t', t' = t) (pg_view w) → w_tx w !! c = None → listed → length (backlog w) < fuel →
  ∃ w', exec (pg_handler catalog) (DrainAll fuel c t sync_target batch 0) w
      = (Some (length (backlog w), None), w') ∧
    backlog w' = [] ∧ ∀ k, synced (pg_view w') t k.
Proof.
  intros Hok HI Hx Hl Hf. destruct (exec_DrainAll fuel w batch 0 Hl Hf) as (w' & He & Hb).
  exists w'. split; [done|]. split; [done|]. intros k.
  pose proof (safe_engine (H0 := pg_engine catalog Hcat) (Inv (λ t', t' = t))
    (DrainAll fuel c t sync_target batch 0) (λ _, idle c (λ t', t' = t)) w Hok
    (DrainAll_ok c (λ t', t' = t) fuel t batch 0 (pg_view w) (conj HI Hx))) as Hsafe.
  apply (safe_exec _ _ _ (pg_handler catalog)) in Hsafe as [HI' _];
    [|intros; apply pg_handler_step].
  rewrite He in HI'. destruct (inv_sync _ _ HI' t k eq_refl) as [?|(i & Hi)]; [done|].
  simpl in Hi. by rewrite backlog_nil in Hi.
Qed.

(** C6: crash safety on Postgres. From any state in which the capture objects are
    consistent and every unsynced key of the tables in [T] is dirty, a retrying component
    drain over any pool of connections, under any schedule of its goroutines, keeps
    both at every point, with application transactions (open across any number
    of calls, committing in any order), other targets' consumers and purges, lost
    acknowledgements and failures interleaved arbitrarily. *)
Theorem pg_drain_safe (T : TableRef → Prop) (nullFill : bool) (sched : nat → nat → list nat)
    (pool : list nat) (concurrency : Z) (tables : list TableRef) (batch : Z) (cyclic : bool)
    (policy : RetryPolicy) (w : pgworld) :
  pg_ok w → Inv T (pg_view w) → NoDup pool → (∀ c, c ∈ pool → w_tx w !! c = None) → NoDup tables →
  (nullFill = false → cyc_of tables = ∅) →
  safe (pg_step catalog) (λ c o w, requires c o (pg_view w)) (λ w, Inv T (pg_view w))
    (DrainComponentRetryingPool nullFill sched pool concurrency tables sync_target batch cyclic policy)
    (λ _ w', ∀ c, c ∈ pool → w_tx w' !! c = None) w.
Proof.
  intros Hok HI Hp Hx Hnd Hcc.
  eapply (safe_mono _ _ _ _ (λ _ w, pool_idle T pool (pg_view w))); [by intros ?? _ []|].
  apply (safe_engine (H0 := pg_engine catalog Hcat) (Inv T) _ (λ _, pool_idle T pool) w Hok).
  by apply retrying_pool_ok.
Qed.
End converge.

(** ** A concrete sync *)

Definition users : TableRef := mkRef "app" "users".

#[global] Instance sample_schema : Schema := {|
  cols_of _ := ["id"; "name"]; cyc_of _ := ∅; dflt_of _ := ∅;
  sync_target := "replica"; key_arity _ := 1; src_tables := [users]; key_lt _ := text_lt; key_lt_dec _ := text_lt_dec
|}.

Definition sample_col (n : string) : Column :=
  mkColumn n "text" true false false false false EmptyString.

Definition sample_table : Table :=
  mkTable users [sample_col "id"; sample_col "name"] (Some (mkKey "users_pkey" ["id"] true)) [] [] false EmptyString.

Definition sample_catalog : catalogs := mkCatalogs [sample_table] [sample_table].

Lemma sample_catalog_ok : catalog_ok sample_catalog.
Proof.
  split; [by intros ? ->%list_elem_of_singleton|done|apply NoDup_singleton| |by intros ? ->%list_elem_of_singleton].
  by intros ? fk ->%list_elem_of_singleton ?%elem_of_nil.
Qed.

Definition row_of (id name : string) : Row := {["id" := id; "name" := name]}.

(** Nothing captured, both sides empty. *)
Definition empty_world : pgworld := mkW ∅ ∅ ∅ ∅ ∅ ∅ ∅.

(** Two users are inserted and one is renamed, in two transactions that
    commit in the opposite order of their writes. *)
Definition sample_events : list event :=
  [AppBegin 1; AppBegin 2;
   AppWrite 1 (CInsert users [VText "1"] (row_of "1" "ann"));
   AppWrite 2 (CInsert users [VText "2"] (row_of "2" "bob"));
   AppCommit 2;
   AppWrite 1 (CUpdate users [VText "1"] [VText "1"] (row_of "1" "anna"));
   AppCommit 1].

Definition sample_world : pgworld := foldl (λ w ev, run_event ev w) empty_world sample_events.

Lemma empty_world_ok T : pg_ok empty_world ∧ Inv T (pg_view empty_world).
Proof.
  split; [split; try done; by intros ? [? ?]|].
  split; [by left|]. intros t i k. simpl. by rewrite lookup_pending.
Qed.

Fixpoint events_ok (w : pgworld) (evs : list event) : Prop :=
  match evs with [] => True | ev :: evs => event_ok w ev ∧ events_ok (run_event ev w) evs end.

Lemma events_interfere evs w :
  events_ok w evs → interferes w (foldl (λ w ev, run_event ev w) w evs).
Proof.
  revert w. induction evs as [|ev evs IH]; intros w; simpl; [intros _; apply rtc_refl|].
  intros [Hev Hevs]. eapply rtc_l; [by exists ev|]. by apply IH.
Qed.

Lemma sample_world_ok T : pg_ok sample_world ∧ Inv T (pg_view sample_world).
Proof.
  assert (interferes empty_world sample_world) as Hint.
  { apply (events_interfere sample_events). unfold sample_events. cbn [events_ok event_ok].
    split_and!; try done; repeat constructor. }
  destruct (empty_world_ok T) as [Hok HI]. destruct (interferes_rely _ _ Hint Hok) as [Hok' R].
  split; [done|]. by eapply rely_Inv.
Qed.

Lemma DrainAll_converges_witness :
  ∃ w', exec (pg_handler sample_catalog) (DrainAll 4 0 users sync_target 2 0) sample_world
      = (Some (3, None), w') ∧
    backlog users w' = [] ∧ ∀ k, synced (pg_view w') users k.
Proof.
  apply (DrainAll_converges sample_catalog sample_catalog_ok 0 users sample_world 2 4).
  - apply (sample_world_ok (λ _, True)).
  - apply sample_world_ok.
  - reflexivity.
  - reflexivity.
  - vm_compute. lia.
Defined.

(** Two connections, and a schedule that alternates between the loop and the goroutines. *)
Definition sample_sched : nat → nat → list nat := λ _ _, [0; 0; 0; 0; 1; 2; 1; 2; 1].

Lemma pg_drain_safe_witness :
  safe (pg_step sample_catalog) (λ c o w, requires c o (pg_view w)) (λ w, Inv (λ _, True) (pg_view w))
    (DrainComponentRetryingPool true sample_sched [0; 1] 2 [users] sync_target 2 false DefaultRetryPolicy)
    (λ _ w', ∀ c, c ∈ [0; 1] → w_tx w' !! c = None) sample_world.
Proof.
  apply (pg_drain_safe sample_catalog sample_catalog_ok).
  - apply (sample_world_ok (λ _, True)).
  - apply sample_world_ok.
  - apply (bool_decide_unpack _). vm_compute. exact I.
  - intros c _. reflexivity.
  - apply NoDup_singleton.
  - reflexivity.
Defined.

Lemma DrainComponentRetryingPool_safe_witness :
  safe contract requires (Inv (λ _, True))
    (DrainComponentRetryingPool true sample_sched [0; 1] 2 [users; mkRef "app" "orders"] sync_target 2 true
       DefaultRetryPolicy)
    (λ _ v', ∀ c, c ∈ [0; 1] → a_tx v' !! c = None) (pg_view sample_world).
Proof.
  apply (DrainComponentRetryingPool_safe (λ _, True)).
  - apply (bool_decide_unpack _). vm_compute. exact I.
  - apply sample_world_ok.
  - intros c _. reflexivity.
  - apply (bool_decide_unpack _). vm_compute. exact I.
  - reflexivity.
Defined.

Lemma DrainComponentRetrying_safe_witness :
  safe contract requires (Inv (λ _, True))
    (DrainComponentRetrying true 0 [users] sync_target 2 true DefaultRetryPolicy)
    (λ _ v', a_tx v' !! 0 = None) (pg_view sample_world).
Proof.
  apply (DrainComponentRetrying_safe 0 (λ _, True)).
  - apply sample_world_ok.
  - reflexivity.
  - apply NoDup_singleton.
  - reflexivity.
Defined.

Lemma DrainAll_safe_witness :
  safe contract requires (Inv (λ _, True)) (DrainAll 4 0 users sync_target 2 0)
    (λ _ v', a_tx v' !! 0 = None) (pg_view sample_world).
Proof. apply (DrainAll_safe 0 (λ _, True)); [apply sample_world_ok|reflexivity]. Defined.

Lemma coalesce_exact_witness :
  let ds := [mkDirty 1%Z OpInsert [VText "1"]; mkDirty 2%Z OpUpdate [VText "1"];
             mkDirty 3%Z OpDelete [VText "2"]] in
  NoDup (coalesce ds).1 ∧ (∀ k, k ∈ (coalesce ds).1 ↔ k ∈ dk_Key <$> ds) ∧
  (coalesce ds).2 = dk_DeltaID <$> ds.
Proof.
  apply (coalesce_exact users). intros d Hd.
  rewrite !elem_of_cons in Hd. destruct Hd as [->|[->|[->|Hd]]]; [done..|].
  by apply elem_of_nil in Hd.
Defined.
End PgDrain.
