(* ===== verification/Purge.v ===== *)
(** * Purge and bounded retention ([internal/engine/postgres/purge.go])

    Which targets a purge sacrifices, and which delta rows it deletes: the rows
    every remaining target has consumed, in batches. The wall clock, the
    [rc_at] column and the relation sizes are inputs of the definitions. *)

From S2P Require Import Prelude Engine Calls ApplyTx Contract Postgres.
Import Postgres.

Module Purge.

(** ** 64-bit arithmetic *)

Definition wrap64 (n : Z) : Z :=
  ((n + 9223372036854775808) mod 18446744073709551616 - 9223372036854775808)%Z.

(** ** Backlog ([deltaBacklogByRel]) *)

(** What the query reads besides the delta and track rows. *)
Record relInfo := mkRel {
  rel_now : Z;                    (** now(), in nanoseconds *)
  rel_at : DeltaID → Z;           (** rc_at of a delta, in nanoseconds *)
  rel_totalBytes : Z              (** pg_total_relation_size of the delta table *)
}.

Definition ids_of (w : pgworld) (t : TableRef) : list DeltaID :=
  (λ x, x.1.2) <$> filter (λ x, x.1.1 = t) (map_to_list (w_delta w)).

Definition unconsumed_ids (w : pgworld) (t : TableRef) (target : TargetID) : list DeltaID :=
  filter (λ i, (t, target, i) ∉ w_track w) (ids_of w t).

(** [min(d.rc_at)] over a non-empty list of ids. *)
Definition min_at (at_ : DeltaID → Z) (ids : list DeltaID) : option Z :=
  foldr (λ i acc, Some (match acc with None => at_ i | Some m => Z.min (at_ i) m end)) None ids.

Definition deltaBacklogByRel (r : relInfo) (w : pgworld) (t : TableRef) (target : TargetID)
    : DeltaBacklog :=
  let un := unconsumed_ids w t target in
  let backlogRows := Z.of_nat (length un) in
  let totalRows := Z.of_nat (length (ids_of w t)) in
  let oldest := match min_at (rel_at r) un with None => 0%Z | Some m => (rel_now r - m)%Z end in
  let bytes := if decide (0 < totalRows)%Z
               then (Z.quot (wrap64 (rel_totalBytes r * backlogRows)) totalRows)%Z else 0%Z in
  mkBacklog backlogRows bytes oldest (bool_decide (0 < backlogRows)%Z).

(** ** Who is sacrificed ([overCapTargets]) *)

(** The first target with the largest backlog age. *)
Fixpoint laggard (best : option (TargetID * Z)) (bls : list (TargetID * DeltaBacklog))
    : option (TargetID * Z) :=
  match bls with
  | [] => best
  | (tg, bl) :: bls =>
      let better := match best with None => true | Some (_, o) => bool_decide (o < bl_OldestAge bl)%Z end in
      laggard (if bl_HasBacklog bl && better then Some (tg, bl_OldestAge bl) else best) bls
  end.

Definition second : Z := 1000000000.

Definition overCapTargets (backlog : TargetID → DeltaBacklog) (totalBytes : Z)
    (targets : list TargetID) (ret : RetentionPolicy) : list TargetID :=
  if decide (MaxAgeSeconds ret <= 0 ∧ MaxBytes ret <= 0)%Z then []
  else
    let bls := (λ tg, (tg, backlog tg)) <$> targets in
    let aged :=
      if decide (0 < MaxAgeSeconds ret)%Z
      then fst <$> filter (λ x, bl_HasBacklog x.2 = true ∧
             (wrap64 (MaxAgeSeconds ret * second) < bl_OldestAge x.2)%Z) bls
      else [] in
    let sized :=
      if decide (0 < MaxBytes ret ∧ MaxBytes ret < totalBytes)%Z
      then match laggard None bls with Some (tg, _) => [tg] | None => [] end
      else [] in
    sort_by id (remove_dups (aged ++ sized)).

(** ** Deleting ([purgeConsumedBy]) *)

Definition purgeable (w : pgworld) (t : TableRef) (targets : list TargetID) : list DeltaID :=
  filter (λ i, targets = [] ∨ consumed_by w t targets i) (merge_sort Z.le (ids_of w t)).

(** One DELETE: the first [batch] purgeable ids. *)
Definition purge_pass (t : TableRef) (targets : list TargetID) (batch : nat) (w : pgworld)
    : nat * pgworld :=
  let ids := take batch (purgeable w t targets) in
  (length ids, drop_deltas (λ ti, ti.1 = t ∧ ti.2 ∈ ids) w).

(** The loop; [None] when it has not stopped within the fuel. *)
Fixpoint purgeConsumedBy (fuel : nat) (t : TableRef) (targets : list TargetID) (batch : nat)
    (total : nat) (w : pgworld) : option (nat * pgworld) :=
  match fuel with
  | 0 => None
  | S fuel =>
      let '(n, w) := purge_pass t targets batch w in
      if decide (n < batch) then Some (total + n, w)
      else purgeConsumedBy fuel t targets batch (total + n) w
  end.

Definition defaultPurgeBatch : nat := Z.to_nat 10000.

(** ** Purge *)

(** [subtractTargets] *)
Definition subtractTargets (targets remove : list TargetID) : list TargetID :=
  filter (λ tg, tg ∉ remove) targets.

(** DELETE FROM track WHERE target = ANY(...), on this table's track. *)
Definition reset_track (t : TableRef) (reseed : list TargetID) (w : pgworld) : pgworld :=
  mkW (w_src w) (w_open w) (w_next w) (w_delta w)
    (filter (λ x, ¬ (x.1.1 = t ∧ x.1.2 ∈ reseed)) (w_track w)) (w_tgt w) (w_tx w).

Definition purge_fuel (w : pgworld) (t : TableRef) : nat := S (length (ids_of w t)).

(** [Source.Purge] on a captured table, when its statements succeed. *)
Definition purge (r : relInfo) (batch : nat) (t : TableRef) (targets : list TargetID)
    (ret : RetentionPolicy) (w : pgworld) : option (PurgeStats * pgworld) :=
  let reseed := overCapTargets (deltaBacklogByRel r w t) (rel_totalBytes r) targets ret in
  if decide (reseed = []) then
    '(n, w) ← purgeConsumedBy (purge_fuel w t) t targets batch 0 w;
    Some (mkPurgeStats (Z.of_nat n) [], w)
  else
    let w := reset_track t reseed w in
    '(n, w) ← purgeConsumedBy (purge_fuel w t) t (subtractTargets targets reseed) batch 0 w;
    Some (mkPurgeStats (Z.of_nat n) reseed, w).

(** ** The batch loop deletes exactly the purgeable rows *)

Lemma elem_of_ids w t i : i ∈ ids_of w t ↔ is_Some (w_delta w !! (t, i)).
Proof.
  unfold ids_of. rewrite list_elem_of_fmap. split.
  - intros ([[t' j] d] & -> & [Ht Hin%elem_of_map_to_list]%list_elem_of_filter). simpl in *.
    subst. by eexists.
  - intros [d Hd]. exists ((t, i), d). split; [done|]. apply list_elem_of_filter.
    split; [done|]. by apply elem_of_map_to_list.
Qed.

Lemma NoDup_ids w t : NoDup (ids_of w t).
Proof.
  unfold ids_of. assert (NoDup (filter (λ x : (TableRef * DeltaID) * deltaRow, x.1.1 = t)
    (map_to_list (w_delta w))).*1) as Hnd.
  { apply (sublist_NoDup _ _ (NoDup_fst_map_to_list (w_delta w))).
    apply fmap_sublist, sublist_filter. }
  assert (∀ x, x ∈ filter (λ x : (TableRef * DeltaID) * deltaRow, x.1.1 = t)
    (map_to_list (w_delta w)) → x.1.1 = t) as Ht by by intros x [? _]%list_elem_of_filter.
  induction (filter _ _) as [|x l IH]; [constructor|].
  rewrite fmap_cons in *. apply NoDup_cons in Hnd as [Hx Hnd]. constructor.
  - intros (y & Heq & Hy)%list_elem_of_fmap. apply Hx, list_elem_of_fmap. exists y.
    split; [|done]. pose proof (Ht x) as H1. pose proof (Ht y) as H2.
    destruct x as [[tx ix] dx], y as [[ty iy] dy]. simpl in *.
    rewrite H1, H2 by set_solver. by rewrite Heq.
  - apply IH; [done|]. intros y Hy. apply Ht. by right.
Qed.

Lemma elem_of_purgeable w t targets i :
  i ∈ purgeable w t targets ↔
  (targets = [] ∨ consumed_by w t targets i) ∧ is_Some (w_delta w !! (t, i)).
Proof.
  unfold purgeable. by rewrite list_elem_of_filter, merge_sort_Permutation, elem_of_ids.
Qed.

Lemma NoDup_purgeable w t targets : NoDup (purgeable w t targets).
Proof. apply NoDup_filter. rewrite merge_sort_Permutation. apply NoDup_ids. Qed.

Lemma lookup_drop_deltas P `{!∀ x, Decision (P x)} w ti :
  w_delta (drop_deltas P w) !! ti = if decide (P ti) then None else w_delta w !! ti.
Proof.
  simpl. rewrite (lookup_filter_fst (λ ti, ¬ P ti)).
  destruct (decide (P ti)); [by rewrite decide_False by tauto|by rewrite decide_True].
Qed.

(** One pass takes its batch off the purgeable rows. *)
Lemma purge_pass_rest t targets batch w :
  purgeable (purge_pass t targets batch w).2 t targets ≡ₚ drop batch (purgeable w t targets).
Proof.
  set (P := purgeable w t targets). pose proof (NoDup_purgeable w t targets) as Hnd. fold P in Hnd.
  rewrite <-(take_drop batch P) in Hnd. apply NoDup_app in Hnd as (_ & Hdis & Hnd).
  apply NoDup_Permutation; [apply NoDup_purgeable|done|]. intros i.
  assert (i ∈ drop batch P ↔ i ∈ P ∧ i ∉ take batch P) as ->.
  { rewrite <-(take_drop batch P) at 2. rewrite elem_of_app. split; [|tauto].
    intros Hi. split; [by right|]. intros Hi'. by apply (Hdis i). }
  unfold P at 1. rewrite !elem_of_purgeable. unfold purge_pass. cbn [snd]. fold P.
  rewrite lookup_drop_deltas. simpl. case_decide as Hd; simpl.
  - split; [intros [_ []]; done|]. tauto.
  - assert (i ∉ take batch P) by (intros ?; by apply Hd). tauto.
Qed.

(** Everything but the delta table is left as it was. *)
Definition only_deltas (w w' : pgworld) : Prop :=
  w_src w' = w_src w ∧ w_open w' = w_open w ∧ w_next w' = w_next w ∧ w_track w' = w_track w ∧
  w_tgt w' = w_tgt w ∧ w_tx w' = w_tx w.

Definition purged (t : TableRef) (targets : list TargetID) (w w' : pgworld) : Prop :=
  only_deltas w w' ∧
  ∀ t' i, w_delta w' !! (t', i) =
    if decide (t' = t ∧ i ∈ purgeable w t targets) then None else w_delta w !! (t', i).

Lemma consumed_by_track w w' t targets i :
  w_track w' = w_track w → consumed_by w' t targets i ↔ consumed_by w t targets i.
Proof. intros H. unfold consumed_by. by rewrite H. Qed.

Lemma purgeConsumedBy_total fuel t targets batch total w :
  0 < batch → length (purgeable w t targets) < fuel →
  ∃ w', purgeConsumedBy fuel t targets batch total w
      = Some (total + length (purgeable w t targets), w') ∧ purged t targets w w'.
Proof.
  intros Hb. revert total w. induction fuel as [|fuel IH]; intros total w Hf; [lia|].
  cbn [purgeConsumedBy]. pose proof (purge_pass_rest t targets batch w) as Hrest.
  assert ((purge_pass t targets batch w).1 = length (take batch (purgeable w t targets))) as Hn
    by done.
  assert (only_deltas w (purge_pass t targets batch w).2) as Hod by done.
  assert (∀ t' i, w_delta (purge_pass t targets batch w).2 !! (t', i) =
    if decide (t' = t ∧ i ∈ take batch (purgeable w t targets)) then None
    else w_delta w !! (t', i)) as Hdel by (intros; apply lookup_drop_deltas).
  destruct (purge_pass t targets batch w) as [n w1]. simpl in Hrest, Hn, Hod, Hdel. subst n.
  rewrite length_take. case_decide as Hlt.
  - assert (take batch (purgeable w t targets) = purgeable w t targets) as Htk
      by (apply take_ge; lia). rewrite Htk in Hdel.
    exists w1. split; [do 2 f_equal; lia|done].
  - destruct (IH (total + batch `min` length (purgeable w t targets)) w1) as (w' & -> & Hod' & Hdel').
    { rewrite Hrest, length_drop. lia. }
    exists w'. split.
    { do 2 f_equal. rewrite Hrest, length_drop. lia. }
    split.
    { destruct Hod as (?&?&?&?&?&?), Hod' as (?&?&?&?&?&?). repeat split; congruence. }
    intros t' i. rewrite Hdel', Hdel.
    pose proof (take_drop batch (purgeable w t targets)) as Htd.
    assert (i ∈ purgeable w t targets ↔
      i ∈ take batch (purgeable w t targets) ∨ i ∈ purgeable w1 t targets) as Hin.
    { rewrite Hrest, <-elem_of_app. by rewrite Htd. }
    repeat case_decide; tauto || done.
Qed.

Lemma purge_fuel_enough w t targets : length (purgeable w t targets) < purge_fuel w t.
Proof.
  unfold purge_fuel. assert (length (purgeable w t targets) ≤ length (ids_of w t)); [|lia].
  apply submseteq_length, NoDup_submseteq; [apply NoDup_purgeable|].
  intros i [_ Hi]%elem_of_purgeable. by apply elem_of_ids.
Qed.

(** The batched purge loop terminates for every positive batch size and
    deletes exactly the delta rows that every given target has consumed (all
    rows when no target is left), reports their number, and touches nothing
    but the table's delta rows. *)
Theorem purgeConsumedBy_exact (t : TableRef) (targets : list TargetID) (batch : nat) (w : pgworld) :
  0 < batch →
  ∃ w', purgeConsumedBy (purge_fuel w t) t targets batch 0 w
      = Some (length (purgeable w t targets), w') ∧
    only_deltas w w' ∧
    (∀ t' i, w_delta w' !! (t', i) =
       if decide (t' = t ∧ (targets = [] ∨ consumed_by w t targets i)) then None
       else w_delta w !! (t', i)).
Proof.
  intros Hb. destruct (purgeConsumedBy_total (purge_fuel w t) t targets batch 0 w Hb)
    as (w' & He & Hod & Hdel); [apply purge_fuel_enough|].
  exists w'. split_and!; [done..|]. intros t' i. rewrite Hdel.
  destruct (decide (t' = t ∧ (targets = [] ∨ consumed_by w t targets i))) as [[-> Hc]|Hn].
  - case_decide as Hp; [done|]. destruct (w_delta w !! (t, i)) eqn:E; [|done].
    destruct Hp. split; [done|]. apply elem_of_purgeable. split; [done|]. by eexists.
  - rewrite decide_False; [done|]. intros [-> [? _]%elem_of_purgeable]. tauto.
Qed.

Lemma elem_of_subtract tg targets remove :
  tg ∈ subtractTargets targets remove ↔ tg ∈ targets ∧ tg ∉ remove.
Proof. unfold subtractTargets. rewrite list_elem_of_filter. tauto. Qed.

Lemma purge_keeps_pending t targets batch w w' n tg i d :
  0 < batch → purgeConsumedBy (purge_fuel w t) t targets batch 0 w = Some (n, w') →
  tg ∈ targets → (t, tg, i) ∉ w_track w → w_delta w !! (t, i) = Some d →
  w_delta w' !! (t, i) = Some d ∧ w_track w' = w_track w.
Proof.
  intros Hb He Htg Htr Hd.
  destruct (purgeConsumedBy_total (purge_fuel w t) t targets batch 0 w Hb)
    as (w1 & He1 & Hod & Hdel); [apply purge_fuel_enough|].
  rewrite He in He1. injection He1 as -> <-. split; [|apply Hod].
  rewrite Hdel, decide_False; [done|]. intros [_ [Hc _]%elem_of_purgeable].
  destruct Hc as [->|Hc]; [by apply elem_of_nil in Htg|].
  by apply Htr, (consumed_by_all w t targets).
Qed.

(** C26: given the full target set, [Purge] always returns, it never drops a delta
    that a target it does not sacrifice still has to consume (nor its
    consumption record), and it wipes the consumption record of the targets it
    does sacrifice, on this table. *)
Theorem purge_respects_targets (r : relInfo) (batch : nat) (t : TableRef)
    (targets : list TargetID) (ret : RetentionPolicy) (w : pgworld) :
  0 < batch →
  ∃ stats w', purge r batch t targets ret w = Some (stats, w') ∧
    (∀ tg i d, tg ∈ targets → tg ∉ TargetsReseeded stats →
       w_delta w !! (t, i) = Some d → (t, tg, i) ∉ w_track w →
       w_delta w' !! (t, i) = Some d ∧ (t, tg, i) ∉ w_track w') ∧
    (∀ tg i, tg ∈ TargetsReseeded stats → (t, tg, i) ∉ w_track w').
Proof.
  intros Hb. unfold purge. set (rs := overCapTargets _ _ _ _). case_decide as Hrs.
  - destruct (purgeConsumedBy_total (purge_fuel w t) t targets batch 0 w Hb)
      as (w' & He & Hp); [apply purge_fuel_enough|].
    rewrite He. simpl. eexists _, _. split; [done|]. simpl. split; [|by intros ?? ?%elem_of_nil].
    intros tg i d Htg _ Hd Htr.
    destruct (purge_keeps_pending _ _ _ _ _ _ _ _ _ Hb He Htg Htr Hd) as [? ->]. done.
  - set (w1 := reset_track t rs w).
    destruct (purgeConsumedBy_total (purge_fuel w1 t) t (subtractTargets targets rs) batch 0 w1 Hb)
      as (w' & He & Hp); [apply purge_fuel_enough|].
    rewrite He. simpl. eexists _, _. split; [done|]. simpl.
    destruct Hp as [(_ & _ & _ & Ht & _) _]. split.
    + intros tg i d Htg Hn Hd Htr.
      assert ((t, tg, i) ∉ w_track w1) as Htr1 by (simpl; set_solver).
      destruct (purge_keeps_pending t (subtractTargets targets rs) batch w1 w' _ tg i d Hb He)
        as [? ->]; [by apply elem_of_subtract|done..].
    + intros tg i Htg. rewrite Ht. simpl. rewrite elem_of_filter. simpl. tauto.
Qed.

Lemma laggard_spec (backlog : TargetID → DeltaBacklog) bls best l o :
  laggard best bls = Some (l, o) → (∀ tg bl, (tg, bl) ∈ bls → bl = backlog tg) →
  (best = Some (l, o) ∨
     ((l, backlog l) ∈ bls ∧ o = bl_OldestAge (backlog l) ∧ bl_HasBacklog (backlog l) = true)) ∧
  (∀ b ob, best = Some (b, ob) → (ob <= o)%Z) ∧
  (∀ tg bl, (tg, bl) ∈ bls → bl_HasBacklog bl = true → (bl_OldestAge bl <= o)%Z).
Proof.
  revert best. induction bls as [|[tg bl] bls IH]; intros best; simpl.
  { intros -> _. split_and!; [by left|by intros ?? [= <- <-]|by intros ?? ?%elem_of_nil]. }
  intros HE Hbl. assert (bl = backlog tg) as Hb by (apply Hbl; by left).
  destruct (IH _ HE) as (I1 & I2 & I3); [intros ???; apply Hbl; by right|]. clear IH HE.
  destruct (bl_HasBacklog bl) eqn:Hh; cbn [andb] in *.
  2: { split_and!; [set_solver|done|].
       intros tg' bl' [[= -> ->]|Hin]%elem_of_cons ?; [congruence|by apply (I3 tg')]. }
  destruct (match best with None => true | Some (_, o0) => bool_decide (o0 < bl_OldestAge bl)%Z end)
    eqn:Hbt.
  - specialize (I2 _ _ eq_refl). split_and!.
    + right. destruct I1 as [[= -> <-]|(?&?&?)]; [subst bl|]; set_solver.
    + intros b ob ->. apply bool_decide_eq_true_1 in Hbt. lia.
    + intros tg' bl' [[= -> ->]|Hin]%elem_of_cons Hh'; [done|by apply (I3 tg')].
  - destruct best as [[b ob]|]; [|done]. apply bool_decide_eq_false_1 in Hbt.
    specialize (I2 _ _ eq_refl) as Hob. split_and!; [set_solver|done|].
    intros tg' bl' [[= -> ->]|Hin]%elem_of_cons Hh'; [lia|by apply (I3 tg')].
Qed.

(** Only a target with a backlog is sacrificed, and only when its oldest
    unconsumed delta is older than the age cap or the delta table is larger
    than the size cap; with both caps off no target ever is. *)
Theorem overCapTargets_justified (backlog : TargetID → DeltaBacklog) (totalBytes : Z)
    (targets : list TargetID) (ret : RetentionPolicy) (tg : TargetID) :
  tg ∈ overCapTargets backlog totalBytes targets ret →
  tg ∈ targets ∧ bl_HasBacklog (backlog tg) = true ∧
  ((0 < MaxAgeSeconds ret ∧ wrap64 (MaxAgeSeconds ret * second) < bl_OldestAge (backlog tg))%Z ∨
   (0 < MaxBytes ret < totalBytes)%Z ∧
     ∀ tg', tg' ∈ targets → bl_HasBacklog (backlog tg') = true →
       (bl_OldestAge (backlog tg') <= bl_OldestAge (backlog tg))%Z).
Proof.
  unfold overCapTargets. case_decide; [by intros ?%elem_of_nil|].
  rewrite elem_of_sort_by, elem_of_remove_dups, elem_of_app. intros [Hin|Hin].
  - revert Hin. case_decide; [|by intros ?%elem_of_nil].
    intros ([tg' bl] & -> & [[Hb Hage] Hin]%list_elem_of_filter)%list_elem_of_fmap.
    apply list_elem_of_fmap in Hin as (tg'' & [= -> ->] & Hin). simpl in *. tauto.
  - revert Hin. case_decide as Hsz; [|by intros ?%elem_of_nil].
    destruct (laggard None _) as [[l o]|] eqn:E; [|by intros ?%elem_of_nil].
    intros ->%list_elem_of_singleton.
    destruct (laggard_spec backlog _ _ _ _ E) as ([?|(Hin & -> & Hb)] & _ & Hmax); [|done|].
    { intros tg bl (x & [= -> ->] & _)%list_elem_of_fmap. done. }
    apply list_elem_of_fmap in Hin as (x & [= -> _] & Hin).
    split_and!; [done..|]. right. split; [tauto|]. intros tg' Hin' Hb'.
    apply (Hmax tg' (backlog tg')); [|done]. apply list_elem_of_fmap. by exists tg'.
Qed.

(** A sacrificed target has no consumption record left on the table. *)
Lemma purge_resets r batch t targets ret w stats w' tg i :
  0 < batch → purge r batch t targets ret w = Some (stats, w') →
  tg ∈ TargetsReseeded stats → (t, tg, i) ∉ w_track w'.
Proof.
  intros Hb. unfold purge. set (rs := overCapTargets _ _ _ _). case_decide as Hd.
  - destruct (purgeConsumedBy _ _ _ _ _ _) as [[n w1]|]; [|done]. intros [= <- <-] ?%elem_of_nil. done.
  - set (w1 := reset_track t rs w).
    destruct (purgeConsumedBy_total (purge_fuel w1 t) t (subtractTargets targets rs) batch 0 w1 Hb)
      as (w2 & He & (_ & _ & _ & Ht & _) & _); [apply purge_fuel_enough|].
    rewrite He. simpl. intros [= <- <-] Htg. rewrite Ht. simpl. rewrite elem_of_filter. simpl in *. tauto.
Qed.

Lemma elem_of_overCap backlog totalBytes targets ret tg :
  tg ∈ overCapTargets backlog totalBytes targets ret → tg ∈ targets.
Proof.
  unfold overCapTargets. case_decide; [by intros ?%elem_of_nil|].
  rewrite elem_of_sort_by, elem_of_remove_dups, elem_of_app. intros [Hin|Hin].
  - revert Hin. case_decide; [|by intros ?%elem_of_nil].
    intros (x & -> & [_ (y & -> & Hy)%list_elem_of_fmap]%list_elem_of_filter)%list_elem_of_fmap.
    done.
  - revert Hin. case_decide as Hsz; [|by intros ?%elem_of_nil].
    destruct (laggard None _) as [[l o]|] eqn:E; [|by intros ?%elem_of_nil].
    intros ->%list_elem_of_singleton.
    destruct (laggard_spec backlog _ _ _ _ E) as ([?|(Hin & _ & _)] & _); [|done|].
    { intros tg bl (x & [= -> ->] & _)%list_elem_of_fmap. done. }
    by apply list_elem_of_fmap in Hin as (x & [= -> _] & Hin).
Qed.

(** [Purge] protects only the targets it is told about: a delta that the
    given targets have consumed is deleted although another target of the sync
    still needs it, and the report does not name that target as sacrificed, so
    the loss is silent. The streaming pass calls it with its own target only. *)
Theorem purge_omitted_target_loses_delta (r : relInfo) (batch : nat) (t : TableRef)
    (targets : list TargetID) (ret : RetentionPolicy) (w : pgworld) (other : TargetID)
    (i : DeltaID) (d : deltaRow) :
  0 < batch → other ∉ targets →
  overCapTargets (deltaBacklogByRel r w t) (rel_totalBytes r) targets ret = [] →
  w_delta w !! (t, i) = Some d → (t, other, i) ∉ w_track w → consumed_by w t targets i →
  ∃ stats w', purge r batch t targets ret w = Some (stats, w') ∧
    w_delta w' !! (t, i) = None ∧ TargetsReseeded stats = [] ∧
    ((t, i), d) ∈ unconsumed w t other ∧ ((t, i), d) ∉ unconsumed w' t other.
Proof.
  intros Hb Ho Hrs Hd Htr Hc. unfold purge. rewrite Hrs, decide_True by done.
  destruct (purgeConsumedBy_total (purge_fuel w t) t targets batch 0 w Hb)
    as (w' & He & _ & Hdel); [apply purge_fuel_enough|].
  rewrite He. simpl. eexists _, _. split; [done|]. simpl.
  assert (w_delta w' !! (t, i) = None) as Hnone.
  { rewrite Hdel, decide_True; [done|]. split; [done|]. apply elem_of_purgeable.
    split; [by right|]. by eexists. }
  split_and!; [done..| |].
  - by apply elem_of_unconsumed.
  - rewrite elem_of_unconsumed. intros (_ & _ & ?). congruence.
Qed.

Lemma unconsumed_ids_le w t target : length (unconsumed_ids w t target) ≤ length (ids_of w t).
Proof. apply length_filter. Qed.

Lemma elem_of_unconsumed_ids w t target i :
  i ∈ unconsumed_ids w t target ↔ ((t, target, i) ∉ w_track w) ∧ is_Some (w_delta w !! (t, i)).
Proof. unfold unconsumed_ids. by rewrite list_elem_of_filter, elem_of_ids. Qed.

Lemma has_backlog r w t target :
  bl_HasBacklog (deltaBacklogByRel r w t target) = true ↔
  ∃ i, ((t, target, i) ∉ w_track w) ∧ is_Some (w_delta w !! (t, i)).
Proof.
  simpl. rewrite bool_decide_eq_true. split.
  - destruct (unconsumed_ids w t target) as [|i l] eqn:E; simpl; [lia|]. intros _.
    exists i. apply elem_of_unconsumed_ids. rewrite E. by left.
  - intros [i Hi%elem_of_unconsumed_ids]. destruct (unconsumed_ids w t target); [set_solver|].
    simpl. lia.
Qed.

Lemma wrap64_id n : (-9223372036854775808 <= n < 9223372036854775808)%Z → wrap64 n = n.
Proof. intros H. unfold wrap64. rewrite Z.mod_small by lia. lia. Qed.

(** The backlog of a target is reported as present exactly when a delta row
    is missing from its track, and its size estimate is the exact share of the
    delta table, between zero and the table's size, as long as the product of
    that size and the row count fits 64 bits. *)
Theorem deltaBacklogByRel_spec (r : relInfo) (w : pgworld) (t : TableRef) (target : TargetID) :
  let bl := deltaBacklogByRel r w t target in
  (0 <= rel_totalBytes r)%Z → (rel_totalBytes r * bl_Rows bl < 9223372036854775808)%Z →
  (bl_HasBacklog bl = true ↔
     ∃ i, ((t, target, i) ∉ w_track w) ∧ is_Some (w_delta w !! (t, i))) ∧
  bl_Bytes bl = (rel_totalBytes r * bl_Rows bl / Z.of_nat (length (ids_of w t)))%Z ∧
  (0 <= bl_Bytes bl <= rel_totalBytes r)%Z.
Proof.
  intros bl H0 Hp. split; [apply has_backlog|]. subst bl. simpl in *.
  pose proof (unconsumed_ids_le w t target) as Hle.
  set (un := length (unconsumed_ids w t target)) in *. set (all := length (ids_of w t)) in *.
  rewrite wrap64_id by nia. case_decide.
  - rewrite Z.quot_div_nonneg by nia. split_and!; [done|apply Z.div_pos; nia|].
    apply Z.div_le_upper_bound; nia.
  - replace all with 0 by lia. rewrite Z.div_0_r. lia.
Qed.

(** Past 64 bits the size estimate is wrong: from a product of 2^63 up to
    2^64 the reported size of a non-empty backlog is zero or negative. *)
Theorem deltaBacklog_bytes_overflow (r : relInfo) (w : pgworld) (t : TableRef) (target : TargetID) :
  let bl := deltaBacklogByRel r w t target in
  (9223372036854775808 <= rel_totalBytes r * bl_Rows bl < 18446744073709551616)%Z →
  bl_HasBacklog bl = true ∧ (bl_Bytes bl <= 0)%Z.
Proof.
  intros bl Hp. subst bl. simpl in *.
  pose proof (unconsumed_ids_le w t target) as Hle.
  set (un := length (unconsumed_ids w t target)) in *. set (all := length (ids_of w t)) in *.
  assert (0 < un) as Hun by (destruct un; [lia|lia]).
  split; [apply bool_decide_eq_true; lia|]. rewrite decide_True by lia.
  assert (wrap64 (rel_totalBytes r * Z.of_nat un) < 0)%Z as Hneg.
  { unfold wrap64. set (p := (rel_totalBytes r * Z.of_nat un)%Z) in *.
    replace (p + 9223372036854775808)%Z with ((p - 9223372036854775808) + 1 * 18446744073709551616)%Z by lia.
    rewrite Z_mod_plus_full, Z.mod_small by lia. lia. }
  set (q := wrap64 _) in *. rewrite <-(Z.opp_involutive q), Z.quot_opp_l by lia.
  pose proof (Z.quot_pos (- q) (Z.of_nat all)). lia.
Qed.

(** ** Witnesses: a table with two deltas, both consumed by ["a"], the second
    not by ["b"] *)

Definition w_orders : TableRef := mkRef "public" "orders".
Definition w_row (k : string) : deltaRow := mkDelta OpInsert [VText k].
Definition w_purge : pgworld :=
  mkW ∅ ∅ ∅ {[ (w_orders, 1%Z) := w_row "1"; (w_orders, 2%Z) := w_row "2" ]}
    {[ (w_orders, "a", 1%Z); (w_orders, "a", 2%Z); (w_orders, "b", 1%Z) ]} ∅ ∅.
Definition w_rel : relInfo := mkRel 100000000000 (λ i, (i * 1000000000)%Z) 8192.
Definition w_big : relInfo := mkRel 100000000000 (λ i, (i * 1000000000)%Z) 4611686018427387904.

Lemma purgeConsumedBy_exact_witness :
  ∃ w', purgeConsumedBy (purge_fuel w_purge w_orders) w_orders ["a"; "b"] 1 0 w_purge
      = Some (length (purgeable w_purge w_orders ["a"; "b"]), w') ∧
    only_deltas w_purge w' ∧
    (∀ t' i, w_delta w' !! (t', i) =
       if decide (t' = w_orders ∧ (["a"; "b"] = [] ∨ consumed_by w_purge w_orders ["a"; "b"] i))
       then None else w_delta w_purge !! (t', i)).
Proof. apply (purgeConsumedBy_exact w_orders ["a"; "b"] 1 w_purge). lia. Defined.

(** The age cap of 50 seconds sacrifices ["b"], whose oldest delta is 98 seconds old. *)
Example w_purge_sacrifice :
  TargetsReseeded <$> (fst <$> purge w_rel 1 w_orders ["a"; "b"] (mkRetention 50 0) w_purge)
  = Some ["b"].
Proof. vm_compute. reflexivity. Qed.

Lemma purge_respects_targets_witness :
  ∃ stats w', purge w_rel 1 w_orders ["a"; "b"] (mkRetention 50 0) w_purge = Some (stats, w') ∧
    (∀ tg i d, tg ∈ ["a"; "b"] → tg ∉ TargetsReseeded stats →
       w_delta w_purge !! (w_orders, i) = Some d → (w_orders, tg, i) ∉ w_track w_purge →
       w_delta w' !! (w_orders, i) = Some d ∧ (w_orders, tg, i) ∉ w_track w') ∧
    (∀ tg i, tg ∈ TargetsReseeded stats → (w_orders, tg, i) ∉ w_track w').
Proof.
  apply (purge_respects_targets w_rel 1 w_orders ["a"; "b"] (mkRetention 50 0) w_purge). lia.
Defined.

Lemma overCapTargets_justified_witness :
  let bl := deltaBacklogByRel w_rel w_purge w_orders in
  "b" ∈ ["a"; "b"] ∧ bl_HasBacklog (bl "b") = true ∧
  ((0 < 50 ∧ wrap64 (50 * second) < bl_OldestAge (bl "b"))%Z ∨
   (0 < 0 < 8192)%Z ∧
     ∀ tg', tg' ∈ ["a"; "b"] → bl_HasBacklog (bl tg') = true →
       (bl_OldestAge (bl tg') <= bl_OldestAge (bl "b"))%Z).
Proof.
  apply (overCapTargets_justified (deltaBacklogByRel w_rel w_purge w_orders) 8192 ["a"; "b"]
    (mkRetention 50 0) "b").
  replace (overCapTargets _ _ _ _) with ["b"] by (vm_compute; reflexivity). by left.
Defined.

Lemma purge_omitted_target_loses_delta_witness :
  ∃ stats w', purge w_rel 1 w_orders ["a"] (mkRetention 50 0) w_purge = Some (stats, w') ∧
    w_delta w' !! (w_orders, 2%Z) = None ∧ TargetsReseeded stats = [] ∧
    ((w_orders, 2%Z), w_row "2") ∈ unconsumed w_purge w_orders "b" ∧
    ((w_orders, 2%Z), w_row "2") ∉ unconsumed w' w_orders "b".
Proof.
  apply (purge_omitted_target_loses_delta w_rel 1 w_orders ["a"] (mkRetention 50 0) w_purge "b" 2%Z (w_row "2")).
  - lia.
  - set_solver.
  - vm_compute. reflexivity.
  - vm_compute. reflexivity.
  - apply (bool_decide_unpack _). vm_compute. exact I.
  - vm_compute. reflexivity.
Defined.

Lemma deltaBacklogByRel_spec_witness :
  let bl := deltaBacklogByRel w_rel w_purge w_orders "b" in
  (bl_HasBacklog bl = true ↔
     ∃ i, ((w_orders, "b", i) ∉ w_track w_purge) ∧ is_Some (w_delta w_purge !! (w_orders, i))) ∧
  bl_Bytes bl = (8192 * bl_Rows bl / Z.of_nat (length (ids_of w_purge w_orders)))%Z ∧
  (0 <= bl_Bytes bl <= 8192)%Z.
Proof.
  apply (deltaBacklogByRel_spec w_rel w_purge w_orders "b").
  - simpl. lia.
  - vm_compute. reflexivity.
Defined.

Lemma deltaBacklog_bytes_overflow_witness :
  let bl := deltaBacklogByRel w_big w_purge w_orders "c" in
  bl_HasBacklog bl = true ∧ (bl_Bytes bl <= 0)%Z.
Proof.
  apply (deltaBacklog_bytes_overflow w_big w_purge w_orders "c").
  split; vm_compute; [intros [=]|reflexivity].
Defined.
End Purge.
