(* ===== verification/Store.v ===== *)
(** * The state store ([internal/state/postgres])

    Sync definitions, copy progress, streaming cursors, events
    ([progress.go], [sync.go], [status.go]) and the ownership lock of a sync
    ([ownership.go]). Every write is one statement, so it happens completely or
    not at all.

    Keys are in their text form, which the JSON columns carry unchanged. The
    timestamps are not modelled, nor the two [last_applied] columns, which only
    [RecordApplied] writes and the status page reads. *)

From S2P Require Import Prelude Engine Calls.

Module Store.

(** ** Tables *)

(** Primary key of copy_progress and cursors: (sync, target, schema, table). *)
Abbreviation skey := (string * TargetID * TableRef)%type.

Record SyncDef := mkSync {
  sd_Name : string;
  sd_Source : string;
  sd_Targets : list TargetID;
  sd_Selection : Selection
}.

Record store := mkStore {
  st_syncs : gmap string SyncDef;
  st_progress : gmap skey CopyProgress;
  st_cursors : gmap skey Cursor;
  st_events : list Event           (** newest first *)
}.

Definition empty_store : store := mkStore ∅ ∅ ∅ [].

(** ** Syncs ([PutSync], [GetSync], [ListSyncs]) *)

Definition putSync (def : SyncDef) (s : store) : result store :=
  if decide (sd_Name def = EmptyString) then inl (Failure "statepg: PutSync requires a sync name")
  else inr (mkStore (<[sd_Name def := def]> (st_syncs s)) (st_progress s) (st_cursors s) (st_events s)).

Definition getSync (name : string) (s : store) : result SyncDef :=
  match st_syncs s !! name with
  | Some def => inr def
  | None => inl (Failure "statepg: sync not found")
  end.

Definition listSyncs (s : store) : list SyncDef :=
  sort_by sd_Name (snd <$> map_to_list (st_syncs s)).

(** ** Copy progress *)

(** The sync column references the syncs table. *)
Definition saveCopyProgress (sync : string) (p : CopyProgress) (s : store) : result store :=
  match st_syncs s !! sync with
  | None => inl (Failure "statepg: save copy progress: foreign key")
  | Some _ =>
      inr (mkStore (st_syncs s) (<[(sync, cp_Target p, cp_Table p) := p]> (st_progress s))
             (st_cursors s) (st_events s))
  end.

(** A missing row is a fresh start, never an error. *)
Definition loadCopyProgress (sync : string) (target : TargetID) (t : TableRef) (s : store)
    : CopyProgress :=
  match st_progress s !! (sync, target, t) with
  | None => mkProgress target t false None []
  | Some p => mkProgress target t (cp_Done p) (cp_Watermark p) (cp_Completed p)
  end.

(** ** Cursors *)

Definition saveCursor (sync : string) (c : Cursor) (s : store) : result store :=
  match st_syncs s !! sync with
  | None => inl (Failure "statepg: save cursor: foreign key")
  | Some _ =>
      inr (mkStore (st_syncs s) (st_progress s)
             (<[(sync, cur_Target c, cur_Table c) := c]> (st_cursors s)) (st_events s))
  end.

Definition loadCursor (sync : string) (target : TargetID) (t : TableRef) (s : store) : Cursor :=
  match st_cursors s !! (sync, target, t) with
  | None => mkCursor target t PhaseInitialCopy 0%Z false
  | Some c => mkCursor target t (cur_Phase c) (cur_LastDelta c) (cur_NeedsReseed c)
  end.

(** ORDER BY target, schema_name, table_name; as byte strings here. *)
Definition lex_le (a b : TargetID * TableRef) : Prop :=
  str_lt a.1 b.1 ∨ a.1 = b.1 ∧
    (str_lt (Schema a.2) (Schema b.2) ∨ Schema a.2 = Schema b.2 ∧ str_le (Name a.2) (Name b.2)).

#[global] Instance lex_le_dec : RelDecision lex_le.
Proof. intros a b. unfold lex_le. apply _. Defined.

Definition by_table {A} (key : A → TargetID * TableRef) (a b : A) : Prop := lex_le (key a) (key b).
#[global] Instance by_table_dec {A} (key : A → TargetID * TableRef) : RelDecision (by_table key).
Proof. intros a b. unfold by_table. apply _. Defined.

(** [ListCursors], [ListCopyProgress]: the rows of one sync. *)
Definition listCursors (sync : string) (s : store) : list Cursor :=
  merge_sort (by_table (λ c, (cur_Target c, cur_Table c)))
    (snd <$> filter (λ x, x.1.1.1 = sync) (map_to_list (st_cursors s))).

Definition listCopyProgress (sync : string) (s : store) : list CopyProgress :=
  merge_sort (by_table (λ p, (cp_Target p, cp_Table p)))
    (snd <$> filter (λ x, x.1.1.1 = sync) (map_to_list (st_progress s))).

(** ** Events *)

Definition recordEvent (e : Event) (s : store) : store :=
  mkStore (st_syncs s) (st_progress s) (st_cursors s) (e :: st_events s).

(** ORDER BY id DESC LIMIT limit, a non-positive limit meaning 20. *)
Definition recentEvents (sync : string) (limit : Z) (s : store) : list Event :=
  let limit := if decide (limit <= 0)%Z then 20%Z else limit in
  take (Z.to_nat limit) (filter (λ e, evt_Sync e = sync) (st_events s)).

(** ** The store's calls *)

Definition store_call (o : call) (s : store) : option (result (resp o) * store) :=
  match o return option (result (resp o) * store) with
  | LoadCopyProgress sync target t => Some (inr (loadCopyProgress sync target t s), s)
  | SaveCopyProgress sync p =>
      Some (match saveCopyProgress sync p s with inl e => (inl e, s) | inr s' => (inr tt, s') end)
  | LoadCursor sync target t => Some (inr (loadCursor sync target t s), s)
  | SaveCursor sync c =>
      Some (match saveCursor sync c s with inl e => (inl e, s) | inr s' => (inr tt, s') end)
  | ListCursors sync => Some (inr (listCursors sync s), s)
  | RecordEvent e => Some (inr tt, recordEvent e s)
  | _ => None
  end.

(** A store call does what it says, fails without effect, or loses its
    acknowledgement. *)
Definition store_step (o : call) (s : store) (r : result (resp o)) (s' : store) : Prop :=
  ∃ r0 s0, store_call o s = Some (r0, s0) ∧
    ((r = r0 ∧ s' = s0) ∨ ((∃ e, r = inl e) ∧ (s' = s ∨ s' = s0))).

(** ** Read your writes *)

Lemma loadCopyProgress_save sync p s s' n target t :
  saveCopyProgress sync p s = inr s' →
  loadCopyProgress n target t s' =
  if decide ((n, target, t) = (sync, cp_Target p, cp_Table p)) then p
  else loadCopyProgress n target t s.
Proof.
  unfold saveCopyProgress, loadCopyProgress. destruct (st_syncs s !! sync); [|done]. intros [= <-].
  simpl. case_decide as Hd; [|by rewrite lookup_insert_ne].
  injection Hd as -> -> ->. rewrite lookup_insert_eq. by destruct p.
Qed.

Lemma loadCursor_save sync c s s' n target t :
  saveCursor sync c s = inr s' →
  loadCursor n target t s' =
  if decide ((n, target, t) = (sync, cur_Target c, cur_Table c)) then c else loadCursor n target t s.
Proof.
  unfold saveCursor, loadCursor. destruct (st_syncs s !! sync); [|done]. intros [= <-].
  simpl. case_decide as Hd; [|by rewrite lookup_insert_ne].
  injection Hd as -> -> ->. rewrite lookup_insert_eq. by destruct c.
Qed.

Lemma loadCursor_saveCopyProgress sync p s s' n target t :
  saveCopyProgress sync p s = inr s' → loadCursor n target t s' = loadCursor n target t s.
Proof. unfold saveCopyProgress. destruct (st_syncs s !! sync); [|done]. by intros [= <-]. Qed.

Lemma loadCopyProgress_saveCursor sync c s s' n target t :
  saveCursor sync c s = inr s' → loadCopyProgress n target t s' = loadCopyProgress n target t s.
Proof. unfold saveCursor. destruct (st_syncs s !! sync); [|done]. by intros [= <-]. Qed.

(** Every row is stored under the key it carries. *)
Definition store_wf (s : store) : Prop :=
  (∀ sync target t p, st_progress s !! (sync, target, t) = Some p →
     cp_Target p = target ∧ cp_Table p = t ∧ is_Some (st_syncs s !! sync)) ∧
  (∀ sync target t c, st_cursors s !! (sync, target, t) = Some c →
     cur_Target c = target ∧ cur_Table c = t ∧ is_Some (st_syncs s !! sync)).

Lemma store_step_wf o s r s' : store_step o s r s' → store_wf s → store_wf s'.
Proof.
  intros (r0 & s0 & Hc & Hr) Hwf.
  assert (store_wf s0); [|destruct Hr as [[_ ->]|[_ [-> | ->]]]; done].
  destruct o; simpl in Hc; try done; try (injection Hc as <- <-; done).
  - unfold saveCopyProgress in Hc. destruct (st_syncs s !! sync) eqn:E; injection Hc as <- <-; [|done].
    destruct Hwf as [H1 H2]. split; [|done]. simpl. intros n tg t q.
    rewrite lookup_insert_Some. intros [[[= <- <- <-] <-]|[_ ?]]; [|by apply H1].
    split_and!; [done..|]. by rewrite E.
  - unfold saveCursor in Hc. destruct (st_syncs s !! sync) eqn:E; injection Hc as <- <-; [|done].
    destruct Hwf as [H1 H2]. split; [done|]. simpl. intros n tg t q.
    rewrite lookup_insert_Some. intros [[[= <- <- <-] <-]|[_ ?]]; [|by apply H2].
    split_and!; [done..|]. by rewrite E.
Qed.

(** In a well-formed store the cursors listed for a sync are exactly what
    [LoadCursor] returns for the (target, table) pairs that have been saved,
    one entry per pair; in particular two targets of one sync never share one. *)
Theorem listCursors_exact (s : store) (sync : string) :
  store_wf s →
  NoDup ((λ c, (cur_Target c, cur_Table c)) <$> listCursors sync s) ∧
  ∀ c, c ∈ listCursors sync s ↔
    is_Some (st_cursors s !! (sync, cur_Target c, cur_Table c)) ∧
    loadCursor sync (cur_Target c) (cur_Table c) s = c.
Proof.
  intros [_ Hwf]. set (f := filter (λ x : skey * Cursor, x.1.1.1 = sync) (map_to_list (st_cursors s))).
  assert (∀ k c, (k, c) ∈ f ↔ k = (sync, cur_Target c, cur_Table c) ∧ st_cursors s !! k = Some c) as Hf.
  { intros [[n tg] t] c. unfold f. rewrite list_elem_of_filter, elem_of_map_to_list. simpl. split.
    - intros [-> Hl]. destruct (Hwf _ _ _ _ Hl) as (-> & -> & _). done.
    - by intros [[= -> -> ->] Hl]. }
  unfold listCursors. fold f. split.
  - rewrite merge_sort_Permutation. rewrite <-list_fmap_compose.
    assert (NoDup f) as Hnd by (apply NoDup_filter, NoDup_map_to_list).
    apply NoDup_fmap_2_strong; [|done]. intros [k1 c1] [k2 c2] [-> H1]%Hf [-> H2]%Hf. simpl.
    intros [= E1 E2]. rewrite E1, E2 in *. congruence.
  - intros c. rewrite merge_sort_Permutation, list_elem_of_fmap. unfold loadCursor. split.
    + intros ([k c'] & -> & [-> Hl]%Hf). simpl. rewrite Hl. split; [done|]. by destruct c'.
    + intros [[c' Hl] Hc]. rewrite Hl in Hc. destruct (Hwf _ _ _ _ Hl) as (E1 & E2 & _).
      assert (c' = c) as -> by (destruct c, c'; simpl in *; congruence).
      exists ((sync, cur_Target c, cur_Table c), c). by rewrite Hf.
Qed.

(** ** Ownership ([Acquire])

    Advisory locks belong to a session of the store's connection pools and are
    re-entrant in it. A pool never hands out a connection that is in use;
    [Acquire] keeps its connection until [release]. A session that ends, idle or in use, gives
    up its locks; its owner is not told. Connections have the number of their session. *)

(** [advisoryKey]: FNV-1a on 64 bits, read as a signed number. *)
Definition fnv64a_step (h : Z) (b : ascii) : Z :=
  (Z.lxor h (Z.of_N (N_of_ascii b)) * 1099511628211) mod 18446744073709551616.

Fixpoint fnv64a (h : Z) (s : string) : Z :=
  match s with
  | EmptyString => h
  | String b s => fnv64a (fnv64a_step h b) s
  end.

Definition advisoryKey (sync : string) : Z :=
  let u := fnv64a 14695981039346656037 sync in
  if decide (9223372036854775808 <= u)%Z then (u - 18446744073709551616)%Z else u.

(** [lk_holder]: who holds an advisory lock, and how often; [lk_inuse]: the
    connections that are checked out; [lk_owned]: the ownerships granted and
    not yet released, each with its connection; [lk_ended]: the sessions that ended. *)
Record locks := mkLocks {
  lk_holder : gmap Z (nat * nat);
  lk_inuse : gset nat;
  lk_owned : gset (string * nat);
  lk_ended : gset nat
}.

(** pg_try_advisory_lock *)
Definition try_lock (key : Z) (conn : nat) (m : gmap Z (nat * nat)) : bool * gmap Z (nat * nat) :=
  match m !! key with
  | None => (true, <[key := (conn, 1)]> m)
  | Some (c, n) => if decide (c = conn) then (true, <[key := (c, S n)]> m) else (false, m)
  end.

(** pg_advisory_unlock *)
Definition unlock (key : Z) (conn : nat) (m : gmap Z (nat * nat)) : gmap Z (nat * nat) :=
  match m !! key with
  | Some (c, n) =>
      if decide (c = conn) then (if decide (n ≤ 1) then delete key m else <[key := (c, pred n)]> m)
      else m
  | None => m
  end.

(** [Acquire] on the idle connection [conn] the pool hands out. *)
Definition acquire (sync : string) (conn : nat) (l : locks) : bool * locks :=
  let '(locked, m) := try_lock (advisoryKey sync) conn (lk_holder l) in
  if locked
  then (true, mkLocks m ({[conn]} ∪ lk_inuse l) ({[(sync, conn)]} ∪ lk_owned l) (lk_ended l))
  else (false, mkLocks m (lk_inuse l) (lk_owned l) (lk_ended l)).

(** [release]: the connection goes back to the pool whether or not the unlock
    statement succeeded. *)
Definition release (unlocked : bool) (sync : string) (conn : nat) (l : locks) : locks :=
  mkLocks (if unlocked then unlock (advisoryKey sync) conn (lk_holder l) else lk_holder l)
    (lk_inuse l ∖ {[conn]}) (lk_owned l ∖ {[(sync, conn)]}) (lk_ended l).

(** The server ends the session [conn]. *)
Definition end_session (conn : nat) (l : locks) : locks :=
  mkLocks (filter (λ x, x.2.1 ≠ conn) (lk_holder l)) (lk_inuse l) (lk_owned l) ({[conn]} ∪ lk_ended l).

Inductive lock_step : locks → locks → Prop :=
| step_acquire l sync conn :
    conn ∉ lk_inuse l → conn ∉ lk_ended l → lock_step l (acquire sync conn l).2
| step_acquire_failed l conn :      (* the lock statement fails *)
    conn ∉ lk_inuse l → lock_step l l
| step_release l sync conn ok :
    (sync, conn) ∈ lk_owned l → lock_step l (release ok sync conn l)
| step_end l conn :                (* any session ends *)
    lock_step l (end_session conn l).

Record locks_ok (l : locks) : Prop := {
  lo_inuse sync conn : (sync, conn) ∈ lk_owned l → conn ∈ lk_inuse l;
  lo_one sync sync' conn : (sync, conn) ∈ lk_owned l → (sync', conn) ∈ lk_owned l → sync = sync';
  lo_holder sync conn : (sync, conn) ∈ lk_owned l → conn ∉ lk_ended l →
    ∃ n, 0 < n ∧ lk_holder l !! advisoryKey sync = Some (conn, n)
}.

Lemma try_lock_holder key conn m key' c n :
  m !! key' = Some (c, n) → 0 < n →
  ∃ n', 0 < n' ∧ (try_lock key conn m).2 !! key' = Some (c, n').
Proof.
  intros Hm Hn. unfold try_lock. destruct (m !! key) as [[c0 n0]|] eqn:E.
  - case_decide as Hc; [|by exists n]. simpl. destruct (decide (key' = key)) as [->|Hne].
    + rewrite lookup_insert_eq. rewrite E in Hm. injection Hm as -> ->. exists (S n). split; [lia|done].
    + rewrite lookup_insert_ne by done. by exists n.
  - simpl. rewrite lookup_insert_ne by congruence. by exists n.
Qed.

Lemma try_lock_mine key conn m :
  (try_lock key conn m).1 = true → ∃ n, 0 < n ∧ (try_lock key conn m).2 !! key = Some (conn, n).
Proof.
  unfold try_lock. destruct (m !! key) as [[c0 n0]|] eqn:E; [case_decide as Hc|]; simpl; try done;
    intros _; rewrite lookup_insert_eq; [subst; exists (S n0)|exists 1]; split; done || lia.
Qed.

Lemma unlock_other key conn m key' c n :
  m !! key' = Some (c, n) → c ≠ conn → unlock key conn m !! key' = Some (c, n).
Proof.
  intros Hm Hne. unfold unlock. destruct (m !! key) as [[c0 n0]|] eqn:E; [|done].
  case_decide; [|done]. subst c0. assert (key' ≠ key) by congruence.
  case_decide; [by rewrite lookup_delete_ne|by rewrite lookup_insert_ne].
Qed.

Lemma lock_step_ok l l' : lock_step l l' → locks_ok l → locks_ok l'.
Proof.
  intros Hs [Iu On Ho]. destruct Hs as [l sync conn Hfree _|l conn Hfree|l sync conn ok Hown|l conn];
    [|done| |].
  - unfold acquire. pose proof (try_lock_mine (advisoryKey sync) conn (lk_holder l)) as Hm.
    pose proof (try_lock_holder (advisoryKey sync) conn (lk_holder l)) as Hh.
    destruct (try_lock _ _ _) as [[] m]; simpl in *; split; simpl.
    + set_solver.
    + intros s1 s2 c [[= -> ->]%elem_of_singleton|H1]%elem_of_union
        [[= -> ]%elem_of_singleton|H2]%elem_of_union; try done; try by apply (On _ _ c).
      * by apply Iu in H2.
      * by subst; apply Iu in H1.
    + intros s1 c [[= -> ->]%elem_of_singleton|H1]%elem_of_union He; [by apply Hm|].
      destruct (Ho _ _ H1 He) as (n & Hn & Hl). by eapply Hh.
    + done.
    + done.
    + intros s1 c H1 He. destruct (Ho _ _ H1 He) as (n & Hn & Hl). by eapply Hh.
  - assert (∀ s c, (s, c) ∈ lk_owned l ∖ {[(sync, conn)]} → (s, c) ∈ lk_owned l ∧ c ≠ conn) as Hne.
    { intros s c [H1 H2]%elem_of_difference. split; [done|]. intros ->.
      apply H2, elem_of_singleton. f_equal. by apply (On _ _ conn). }
    split; simpl.
    + intros s c [H1 H2]%Hne. apply Iu in H1. set_solver.
    + intros s1 s2 c [H1 _]%Hne [H2 _]%Hne. by apply (On _ _ c).
    + intros s c [H1 H2]%Hne He. destruct (Ho _ _ H1 He) as (n & Hn & Hl). exists n. split; [done|].
      destruct ok; [by apply unlock_other|done].
  - split; simpl; [done..|]. intros s c H1 [Hc He]%not_elem_of_union. destruct (Ho _ _ H1 He) as (n & Hn & Hl). exists n.
    split; [done|]. apply map_lookup_filter_Some. split; [done|]. simpl. set_solver.
Qed.

Definition no_locks : locks := mkLocks ∅ ∅ ∅ ∅.

Lemma lock_reach_ok l : rtc lock_step no_locks l → locks_ok l.
Proof.
  assert (locks_ok no_locks) as H0 by (split; set_solver).
  intros Hr. induction Hr as [|l1 l2 l3 Hs _ IH]; [done|]. apply IH. by eapply lock_step_ok.
Qed.

(** C35: single-active ownership: whatever sequence of acquisitions, failed
    statements, releases (also ones whose unlock failed) and ended sessions (idle or holding a
    lock) has happened, no sync has two owners whose sessions are alive, and two syncs whose
    lock keys collide are never owned together by live sessions. *)
Theorem acquire_exclusive (l : locks) (sync sync' : string) (conn conn' : nat) :
  rtc lock_step no_locks l →
  (sync, conn) ∈ lk_owned l → (sync', conn') ∈ lk_owned l →
  conn ∉ lk_ended l → conn' ∉ lk_ended l →
  advisoryKey sync = advisoryKey sync' → sync = sync' ∧ conn = conn'.
Proof.
  intros [Iu On Ho]%lock_reach_ok H1 H2 E1 E2 Hk.
  destruct (Ho _ _ H1 E1) as (n & _ & L1), (Ho _ _ H2 E2) as (n' & _ & L2).
  rewrite Hk, L2 in L1. injection L1 as -> ->. split; [|done]. by apply (On _ _ conn).
Qed.

(** An owner whose session is lost goes on: the server has released its lock, and the next
    acquisition makes a second owner. *)
Lemma lost_session_two_owners (sync : string) :
  let l := (acquire sync 2 (end_session 1 (acquire sync 1 no_locks).2)).2 in
  rtc lock_step no_locks l ∧ (sync, 1) ∈ lk_owned l ∧ (sync, 2) ∈ lk_owned l.
Proof.
  assert ((acquire sync 1 no_locks).2 = mkLocks {[ advisoryKey sync := (1, 1) ]} {[ 1 ]} {[ (sync, 1) ]} ∅) as E1.
  { unfold acquire, try_lock. simpl. rewrite lookup_empty. simpl. f_equal; set_solver. }
  assert (end_session 1 (acquire sync 1 no_locks).2 = mkLocks ∅ {[ 1 ]} {[ (sync, 1) ]} {[ 1 ]}) as E2.
  { rewrite E1. unfold end_session. simpl. rewrite map_filter_singleton, decide_False by naive_solver. f_equal; set_solver. }
  intros l. assert (l = mkLocks {[ advisoryKey sync := (2, 1) ]} {[ 2; 1 ]} {[ (sync, 2); (sync, 1) ]} {[ 1 ]}) as E3.
  { unfold l. rewrite E2. unfold acquire, try_lock. simpl. by rewrite lookup_empty. }
  split; [|rewrite E3; simpl; set_solver]. unfold l.
  eapply rtc_l; [apply (step_acquire no_locks sync 1); set_solver|].
  eapply rtc_l; [apply (step_end _ 1)|]. apply rtc_once. apply step_acquire; rewrite E2; simpl; set_solver.
Qed.

(** ** Witnesses *)

Definition orders_key : skey := ("s1", "a", mkRef "public" "orders").
Definition sample_store : store :=
  mkStore {[ "s1" := mkSync "s1" "src" ["a"; "b"] (mkSelection [] []) ]} ∅
    {[ orders_key := mkCursor "a" (mkRef "public" "orders") PhaseStreaming 7%Z true;
       ("s1", "b", mkRef "public" "orders") :=
          mkCursor "b" (mkRef "public" "orders") PhaseStreaming 9%Z false ]} [].

Lemma sample_store_wf : store_wf sample_store.
Proof.
  split; [done|]. intros sync target t c. simpl.
  rewrite lookup_insert_Some, lookup_singleton_Some.
  intros [[[= <- <- <-] <-]|[_ [[= <- <- <-] <-]]]; simpl; split_and!; try done; by eexists.
Qed.

Lemma listCursors_exact_witness :
  NoDup ((λ c, (cur_Target c, cur_Table c)) <$> listCursors "s1" sample_store) ∧
  ∀ c, c ∈ listCursors "s1" sample_store ↔
    is_Some (st_cursors sample_store !! ("s1", cur_Target c, cur_Table c)) ∧
    loadCursor "s1" (cur_Target c) (cur_Table c) sample_store = c.
Proof. apply (listCursors_exact sample_store "s1"). exact sample_store_wf. Defined.

Definition owned_by_3 : locks := (acquire "s1" 3 no_locks).2.

Lemma owned_by_3_reach : rtc lock_step no_locks owned_by_3.
Proof. apply rtc_once. by apply step_acquire. Qed.

(** Another connection is refused while the lock is held. *)
Example acquire_refused : (acquire "s1" 4 owned_by_3).1 = false.
Proof. vm_compute. reflexivity. Qed.

Lemma acquire_exclusive_witness :
  (("s1", 3) ∈ lk_owned owned_by_3) ∧ "s1" = "s1" ∧ 3 = 3.
Proof.
  split; [apply (bool_decide_unpack _); vm_compute; exact I|].
  apply (acquire_exclusive owned_by_3 "s1" "s1" 3 3); [exact owned_by_3_reach|..];
    [apply (bool_decide_unpack _); vm_compute; exact I..|reflexivity].
Defined.
End Store.
