(* ===== verification/Copy.v ===== *)
(** * The chunked initial copy ([internal/copy/copy.go])

    The driver copies a table's chunks with a pool of workers, persists the end
    of the contiguous completed prefix as the watermark, and a restart plans
    from there.

    The workers of one table run concurrently in the code; here their chunks are
    taken one at a time in an arbitrary completion order ([sched]), which is what
    the shared state under the mutex sees. *)

From S2P Require Import Prelude Engine Calls ApplyTx Plan Contract Apply Store.
Import ApplyTx Plan Contract Apply Store.

Module Copy.

(** ** Load mode ([resolveLoadMode]) *)

(** [verifier]: whether the sink implements [engine.Verifier]. *)
Definition resolveLoadMode (verifier : bool) (c : nat) (ref : TableRef) (forced : option LoadMode)
    : prog LoadMode :=
  match forced with
  | Some m => Ret m
  | None =>
      if negb verifier then Ret LoadMerge
      else
        r ← do_call c (CountRows ref);
        Ret (match r with
             | inl _ => LoadMerge
             | inr n => if decide (0 < n)%Z then LoadMerge else LoadDirect
             end)
  end.

(** ** One chunk ([copyChunk], [copyChunkResilient]) *)

(** [copyChunk]: the read error wins over the write error. *)
Definition copyChunk (c : nat) (ref : TableRef) (cols : list string) (ch : Chunk) (mode : LoadMode)
    : prog (result Z) :=
  rd ← do_call c (CopyChunk ch);
  ld ← do_call c (BulkLoad ref cols rd mode);
  Ret (match rd, ld with
       | inl e, _ => inl (Errorf "read side" e)
       | inr _, inl e => inl (Errorf "write side" e)
       | inr _, inr n => inr n
       end).

(** [endpointDown] *)
Definition down (r : result unit) : bool := match r with inl _ => true | inr _ => false end.

(** [reconnectConn]: Close and Connect when the health check fails. *)
Definition reconnectConn (c : nat) (health reconnect : call) : prog unit :=
  r ← do_call c health;
  match r with
  | inr _ => Ret tt
  | inl _ => _ ← do_call c reconnect; Ret tt
  end.

Definition copyChunkMaxAttempts : nat := 6.
Definition copyRetryBackoff : Z := 2000000000.

(** [tries] attempts remain; the first uses [mode], the others merge. *)
Fixpoint copy_attempts (tries : nat) (c : nat) (ref : TableRef) (cols : list string) (ch : Chunk)
    (mode : LoadMode) (lastErr : error) : prog (result Z) :=
  match tries with
  | 0 => Ret (inl (Errorf "after 6 attempts" lastErr))
  | S tries =>
      r ← copyChunk c ref cols ch mode;
      match r with
      | inr n => Ret (inr n)
      | inl err =>
          ctx ← do_call c CtxErr;
          match ctx with
          | inl _ => Ret (inl err)
          | inr _ =>
              s ← do_call c SrcHealthCheck;
              d ← (if down s then Ret true
                   else k ← do_call c SinkHealthCheck; Ret (down k));
              if negb d then Ret (inl err)
              else
                _ ← reconnectConn c SrcHealthCheck SrcReconnect;
                _ ← reconnectConn c SinkHealthCheck SinkReconnect;
                w ← do_call c (After copyRetryBackoff);
                match w with
                | inl ctxErr => Ret (inl ctxErr)
                | inr _ => copy_attempts tries c ref cols ch LoadMerge err
                end
          end
      end
  end.

Definition copyChunkResilient (c : nat) (ref : TableRef) (cols : list string) (ch : Chunk)
    (mode : LoadMode) : prog (result Z) :=
  copy_attempts copyChunkMaxAttempts c ref cols ch mode (Failure "nil").

(** ** The completed prefix *)

(** [for prefix < len(chunks) && done[prefix] { prefix++ }] *)
Fixpoint advance (fuel : nat) (done : gset nat) (n prefix : nat) : nat :=
  match fuel with
  | 0 => prefix
  | S fuel =>
      if decide (prefix < n ∧ prefix ∈ done) then advance fuel done n (S prefix) else prefix
  end.

Record copyState := mkCS { cs_done : gset nat; cs_prefix : nat }.

(** What finishing chunk [i] does under the mutex: the new state and the
    checkpoint it asks for. *)
Definition finish_chunk (chunks : list Chunk) (target : TargetID) (ref : TableRef) (i : nat)
    (s : copyState) : copyState * option CopyProgress :=
  let n := length chunks in
  let done := {[i]} ∪ cs_done s in
  let prefix := advance n done n (cs_prefix s) in
  let moved := bool_decide (cs_prefix s < prefix) in
  (mkCS done prefix,
   if moved && bool_decide (prefix < n)
   then ch ← chunks !! (prefix - 1);
        Some (mkProgress target ref false (chunk_Hi ch) [])
   else None).

(** ** A table ([copyTable]) *)

Definition chunk_step (syncName : string) (target : TargetID) (ref : TableRef)
    (cols : list string) (chunks : list Chunk) (mode : LoadMode) (wi : nat * nat) (s : copyState)
    : prog (error + copyState) :=
  let '(wk, i) := wi in
  match chunks !! i with
  | None => Ret (inr s)
  | Some ch =>
      r ← copyChunkResilient wk ref cols ch mode;
      match r with
      | inl e => Ret (inl (Errorf "copy: chunk" e))
      | inr _ =>
          let '(s, snap) := finish_chunk chunks target ref i s in
          match snap with
          | None => Ret (inr s)
          | Some p =>
              r ← do_call 0 (SaveCopyProgress syncName p);
              Ret (match r with inl e => inl (Errorf "copy: checkpoint" e) | inr _ => inr s end)
          end
      end
  end.

(** [sched chunks]: the chunks in the order the workers finish them, each with
    its worker. *)
Definition copyTable (verifier : bool) (sched : list Chunk → list (nat * nat)) (syncName : string)
    (target : TargetID) (ref : TableRef) (opts : ChunkOptions) (forced : option LoadMode)
    : prog (option error) :=
  r ← do_call 0 (LoadCopyProgress syncName target ref);
  match r with
  | inl e => Ret (Some (Errorf "copy: load progress" e))
  | inr prog =>
      if cp_Done prog then Ret None
      else
        mode ← resolveLoadMode verifier 0 ref forced;
        r ← do_call 0 (PlanChunks ref (mkChunkOptions (opt_Method opts) (opt_TargetRows opts)
                                         (cp_Watermark prog)));
        match r with
        | inl e => Ret (Some (Errorf "copy: plan chunks" e))
        | inr chunks =>
            r ← transportColumns 0 ref;
            match r with
            | inl e => Ret (Some e)
            | inr cols =>
                r ← for_each (sched chunks) (chunk_step syncName target ref cols chunks mode) (mkCS ∅ 0);
                match r with
                | inl e => Ret (Some e)
                | inr _ =>
                    r ← do_call 0 (SaveCopyProgress syncName (mkProgress target ref true None []));
                    Ret (match r with
                         | inl e => Some (Errorf "copy: mark done" e)
                         | inr _ => None
                         end)
                end
            end
        end
  end.

(** [Component]: the tables in topological order. *)
Definition Component (workers : nat) (verifier : bool) (sched : list Chunk → list (nat * nat))
    (syncName : string) (target : TargetID) (tables : list TableRef) (opts : ChunkOptions)
    (forced : option LoadMode) : prog (option error) :=
  if Nat.eqb workers 0 then Ret (Some (Failure "copy: component needs at least one worker"))
  else
    r ← for_each tables (λ ref (_ : unit),
          r ← copyTable verifier sched syncName target ref opts forced;
          Ret (match r with Some e => inl e | None => inr tt end)) tt;
    Ret (match r with inl e => Some e | inr _ => None end).

(** [Table]: one table with a single worker, its chunks in order. *)
Definition serial (chunks : list Chunk) : list (nat * nat) := (λ i, (0, i)) <$> seq 0 (length chunks).

Definition Table (verifier : bool) (syncName : string) (target : TargetID) (ref : TableRef)
    (opts : ChunkOptions) (forced : option LoadMode) : prog (option error) :=
  copyTable verifier serial syncName target ref opts forced.

(** ** The world: the rows of source and target, and the state store *)

Abbreviation world := (astate * store)%type.

Definition is_store_call (o : call) : bool :=
  match o with
  | LoadCopyProgress _ _ _ | SaveCopyProgress _ _ | LoadCursor _ _ _ | SaveCursor _ _
  | ListCursors _ | RecordEvent _ => true
  | _ => false
  end.

Section safety.
Context `{Sch : Schema}.

Definition world_step (c : nat) (o : call) (x : world) (r : result (resp o)) (x' : world) : Prop :=
  if is_store_call o then rely x.1 x'.1 ∧ store_step o x.2 r x'.2
  else contract c o x.1 r x'.1 ∧ x'.2 = x.2.

Definition world_requires (c : nat) (o : call) (x : world) : Prop :=
  if is_store_call o then True else requires c o x.1.

(** ** The copy's invariant *)

Definition good (v : astate) (t : TableRef) (k : KeyValues) : Prop := synced v t k ∨ dirty v t k.

(** What a stored progress claims: the keys that are copied. *)
Definition progress_covers (p : CopyProgress) (t : TableRef) (k : KeyValues) : Prop :=
  cp_Done p = true ∨ ∃ wm, cp_Watermark p = Some wm ∧ key_lt t k wm.

Definition pend_ok (v : astate) : Prop :=
  ∀ t i k, a_pend v !! (t, i) = Some k → a_seen v t i ∧ key_ok t k.

(** Of the tables in [T]: a target row that exists is in step with the source or
    has a delta on the way, and so does every key that the stored progress claims,
    and every key of the tables in [G], which are complete already. The rows of the tables
    in [L], which are copied with some columns left for a second pass, may also be
    behind as long as the source has the row. *)
Record CInv (T L G : TableRef → Prop) (sync : string) (target : TargetID) (x : world) : Prop := {
  ci_pend : pend_ok x.1;
  ci_row t k : T t → good x.1 t k ∨ a_tgt x.1 !! (t, k) = None ∨ L t ∧ is_Some (a_src x.1 !! (t, k));
  ci_progress t k : T t → progress_covers (loadCopyProgress sync target t x.2) t k → good x.1 t k;
  ci_complete t k : G t → good x.1 t k
}.

(** ** Steps that leave the target alone *)

Record calm (v v' : astate) : Prop := {
  calm_tgt : a_tgt v' = a_tgt v;
  calm_pend : pend_ok v';
  calm_evolve : evolve v v'
}.

Lemma rely_calm v v' : rely v v' → calm v v'.
Proof. intros R. split; [by apply rely_tgt|intros t i k; apply R|by apply rely_evolve]. Qed.

Lemma calm_refl v : pend_ok v → calm v v.
Proof. intros H. split; [done..|apply evolve_refl]. Qed.

Lemma calm_trans v1 v2 v3 : calm v1 v2 → calm v2 v3 → calm v1 v3.
Proof.
  intros [T1 O1 E1] [T2 O2 E2]. split; [congruence|done|]. intros t.
  destruct (E1 t) as [S1 P1 C1], (E2 t) as [S2 P2 C2]. split.
  - auto.
  - intros i Hi. rewrite P2, P1; auto.
  - intros k. destruct (C2 k) as [->|(i & Hi & Hk)].
    + destruct (C1 k) as [->|(i & Hi & Hk)]; [by left|]. right. exists i.
      split; [done|]. rewrite P2; [done|]. by apply O1 in Hk as [].
    + right. exists i. split; [|done]. intros ?. by apply Hi, S1.
Qed.

Lemma dirty_calm v v' t k : pend_ok v → calm v v' → dirty v t k → dirty v' t k.
Proof.
  intros Hp C [i Hi]. exists i. rewrite (ev_pend _ _ _ (calm_evolve _ _ C t)); [done|]. by eapply Hp.
Qed.

Lemma good_calm v v' t k : pend_ok v → calm v v' → good v t k → good v' t k.
Proof.
  intros Hp C [Hs|Hd]; [|right; by eapply dirty_calm].
  destruct (ev_src _ _ _ (calm_evolve _ _ C t) k) as [Heq|(i & _ & Hi)]; [left|right; by exists i].
  unfold synced in *. by rewrite Heq, (calm_tgt _ _ C).
Qed.

Definition mono (x x' : world) : Prop := ∀ t k, good x.1 t k → good x'.1 t k.

#[global] Instance mono_refl : Reflexive mono.
Proof. by intros x t k. Qed.

Lemma mono_trans x y z : mono x y → mono y z → mono x z.
Proof. intros H1 H2 t k H. by apply H2, H1. Qed.

(** A row that the source has: it is still there, or the key has become dirty. *)
Lemma src_row_calm v v' t k :
  calm v v' → is_Some (a_src v !! (t, k)) → is_Some (a_src v' !! (t, k)) ∨ dirty v' t k.
Proof.
  intros C Hs. destruct (ev_src _ _ _ (calm_evolve _ _ C t) k) as [->|(i & _ & Hi)];
    [by left|right; by exists i].
Qed.

Lemma row_calm v v' (CC : Prop) t k :
  pend_ok v → calm v v' →
  good v t k ∨ a_tgt v !! (t, k) = None ∨ CC ∧ is_Some (a_src v !! (t, k)) →
  good v' t k ∨ a_tgt v' !! (t, k) = None ∨ CC ∧ is_Some (a_src v' !! (t, k)).
Proof.
  intros Hp C. rewrite (calm_tgt _ _ C). intros [Hg|[Hn|[HC Hs]]]; [left; by eapply good_calm|by auto|].
  destruct (src_row_calm _ _ t k C Hs); [by auto|left; by right].
Qed.

Lemma calm_CInv T L G sync target x x' :
  CInv T L G sync target x → calm x.1 x'.1 → x'.2 = x.2 → CInv T L G sync target x' ∧ mono x x'.
Proof.
  intros [Hp Hr Hg Hc] Cm Hs. split; [|intros t k; by apply good_calm]. split.
  - apply Cm.
  - intros t k Ht. eapply row_calm; [done..|]. by apply Hr.
  - intros t k Ht. rewrite Hs. intros H. eapply good_calm; [done..|]. by apply Hg.
  - intros t k Ht. eapply good_calm; [done..|]. by apply Hc.
Qed.

Definition calm_call (o : call) : Prop :=
  match o with
  | Introspect _ | PlanChunks _ _ | CopyChunk _ | CountRows _ | SrcHealthCheck | SrcReconnect
  | SinkHealthCheck | SinkReconnect | CtxErr | After _ | Rollback => True
  | Exec q => match q with SCopyTable _ _ _ => False | _ => True end
  | _ => False
  end.

Lemma same_data_calm v v' : pend_ok v → same_data v v' → calm v v'.
Proof.
  intros Hp Hsd. pose proof (same_data_evolve _ _ Hsd). destruct Hsd as (_ & Ht & Hpe & Hse).
  split; [done| |done]. intros t i k. rewrite Hpe, Hse. apply Hp.
Qed.

Lemma calm_effect c o v r v' :
  calm_call o → pend_ok v → effect c o v r v' → calm v v'.
Proof.
  intros Ho Hp He. apply same_data_calm; [done|].
  destruct o; simpl in *; try done;
    try match goal with q : stmt |- _ => destruct q; simpl in *; try done end; unfold tx_effect in *;
    repeat match goal with
    | H : _ ∧ _ |- _ => destruct H
    | H : ∃ _, _ |- _ => destruct H
    end; by subst.
Qed.

(** A call that leaves the target alone: the effect happens at some moment
    between two calm stretches. *)
Lemma calm_contract c o v r v' :
  calm_call o → pend_ok v → contract c o v r v' →
  calm v v' ∧ ((∃ e, r = inl e) ∨ ∃ v1 v2, calm v v1 ∧ effect c o v1 r v2 ∧ calm v1 v2 ∧ calm v2 v').
Proof.
  intros Ho Hp (v1 & v2 & R1 & He & R2). apply rely_calm in R1, R2.
  assert (calm v1 v2) as C.
  { destruct He as [He|(_ & _ & ->)]; [|apply calm_refl, R1]. eapply calm_effect; [done| |done]. apply R1. }
  split; [by eapply calm_trans, calm_trans|].
  destruct He as [He|(_ & He & _)]; [right|by left]. by exists v1, v2.
Qed.

Section one.
Context (T L G : TableRef → Prop) (sync : string) (target : TargetID).

Abbreviation ok := (CInv T L G sync target).
Abbreviation csafe := (safe world_step world_requires ok).

(** The rule for calm calls. *)
Lemma safe_calm c o Q x :
  calm_call o → is_store_call o = false → requires c o x.1 → ok x →
  (∀ r x', ok x' → mono x x' → calm x.1 x'.1 →
     ((∃ e, r = inl e) ∨ ∃ v1 v2, calm x.1 v1 ∧ effect c o v1 r v2 ∧ calm v1 v2 ∧ calm v2 x'.1) →
     x'.2 = x.2 → Q r x') →
  csafe (do_call c o) Q x.
Proof.
  intros Ho Hst Hreq Hx HQ. apply safe_call; [done|unfold world_requires; by rewrite Hst|].
  intros r x'. unfold world_step. rewrite Hst. intros [Hc Hs].
  destruct (calm_contract _ _ _ _ _ Ho (ci_pend _ _ _ _ _ _ Hx) Hc) as [C He].
  destruct (calm_CInv _ _ _ _ _ _ _ Hx C Hs) as [Hx' Hm]. split; [done|]. by apply HQ.
Qed.

(** ** One chunk *)

Definition chunk_good (v : astate) (ch : Chunk) : Prop :=
  ∀ k, in_range (key_lt (chunk_Table ch)) (chunk_Lo ch) (chunk_Hi ch) k → good v (chunk_Table ch) k.

(** Rows read from a chunk: as the source has them now, unless the key has become
    dirty since. *)
Definition fresh (v : astate) (ch : Chunk) (stg : gmap KeyValues Row) : Prop :=
  ∀ k, if decide (in_range (key_lt (chunk_Table ch)) (chunk_Lo ch) (chunk_Hi ch) k)
       then stg !! k = proj (cols_of (chunk_Table ch)) <$> a_src v !! (chunk_Table ch, k) ∨
            dirty v (chunk_Table ch) k
       else stg !! k = None.

Lemma fresh_calm v v' ch stg : pend_ok v → calm v v' → fresh v ch stg → fresh v' ch stg.
Proof.
  intros Hp C Hf k. specialize (Hf k). case_decide; [|done].
  destruct Hf as [Hf|Hd]; [|right; by eapply dirty_calm].
  destruct (ev_src _ _ _ (calm_evolve _ _ C (chunk_Table ch)) k) as [->|(i & _ & Hi)];
    [by left|right; by exists i].
Qed.

(** Loading fresh rows makes the chunk good and spoils nothing else. *)
Lemma load_good v ch stg :
  T (chunk_Table ch) → fresh v ch stg →
  (∀ t k, T t → good v t k ∨ a_tgt v !! (t, k) = None ∨ L t ∧ is_Some (a_src v !! (t, k))) →
  let v' := set_tgt v (upsert_rows dflt_of (a_tgt v) (chunk_Table ch) (cols_of (chunk_Table ch)) stg) in
  chunk_good v' ch ∧ (∀ t k, good v t k → good v' t k) ∧
  (∀ t k, T t → good v' t k ∨ a_tgt v' !! (t, k) = None ∨ L t ∧ is_Some (a_src v' !! (t, k))).
Proof.
  intros HT Hf Hrow v'.
  assert (chunk_good v' ch) as Hch.
  { intros k Hk. specialize (Hf k). rewrite decide_True in Hf by done.
    destruct Hf as [Hf|Hd]; [|by right].
    unfold good, synced, v'. simpl. rewrite lookup_upsert_rows, decide_True by done.
    rewrite Hf. destruct (a_src v !! (chunk_Table ch, k)) as [r|] eqn:E; simpl;
      [left; by rewrite proj_set_cols, proj_proj|].
    destruct (Hrow _ k HT) as [[Hs|Hd]|[Hn|[_ Hn]]]; [left|by right|left; by rewrite Hn|].
    - unfold synced in Hs. by rewrite Hs, E.
    - rewrite E in Hn. by destruct Hn. }
  assert (∀ t k, a_tgt v' !! (t, k) = a_tgt v !! (t, k) ∨ good v' t k) as Hcase.
  { intros t k. unfold v' at 1. simpl. rewrite lookup_upsert_rows. case_decide as Ht; [|by left]. subst t.
    destruct (decide (in_range (key_lt (chunk_Table ch)) (chunk_Lo ch) (chunk_Hi ch) k)) as [Hk|Hk];
      [right; by apply Hch|]. specialize (Hf k). rewrite decide_False in Hf by done. rewrite Hf. by left. }
  split_and!; [done|..].
  - intros t k [Hs|Hd]; [|by right]. destruct (Hcase t k) as [Heq|]; [left|done].
    unfold synced in *. by rewrite Heq.
  - intros t k Ht. destruct (Hcase t k) as [Heq|]; [|by left].
    rewrite Heq. destruct (Hrow t k Ht) as [[Hs|Hd]|Hn]; [left; left|left; by right|by right].
    unfold synced in *. by rewrite Heq.
Qed.

(** The load's step: a failure may or may not have taken effect. *)
Lemma bulkLoad_step c ch stg mode x r x' :
  T (chunk_Table ch) → ok x → fresh x.1 ch stg →
  contract c (BulkLoad (chunk_Table ch) (cols_of (chunk_Table ch)) (inr stg) mode) x.1 r x'.1 →
  x'.2 = x.2 →
  ok x' ∧ mono x x' ∧ (∀ n, r = inr n → chunk_good x'.1 ch).
Proof.
  intros HT Hx Hf (v1 & v2 & R1 & He & R2) Hs. apply rely_calm in R1, R2.
  destruct He as [(stg' & tgt' & [= <-] & ->%bulkLoad_Some & ->)|(_ & [e ->] & ->)].
  - pose proof (fresh_calm _ _ _ _ (ci_pend _ _ _ _ _ _ Hx) R1 Hf) as Hf1.
    destruct (calm_CInv T L G sync target x (v1, x.2) Hx R1 eq_refl) as [[Hp1 Hr1 Hg1 Hc1] Hm1]. simpl in *.
    destruct (load_good v1 ch stg HT Hf1 Hr1) as (Hch & Hmono & Hrow).
    set (v2 := set_tgt v1 _) in *.
    assert (ok (v2, x.2)) as Hx2.
    { split; simpl; [done|done| |]; intros t k; [intros Ht Hc|intros Ht]; apply Hmono; [by apply Hg1|by apply Hc1]. }
    destruct (calm_CInv T L G sync target (v2, x.2) x' Hx2 R2 Hs) as [Hx' Hm2].
    split_and!; [done|intros t k H; by apply Hm2, Hmono, Hm1|].
    intros n _ k Hk. by apply Hm2, Hch.
  - assert (calm x.1 x'.1) as C by by eapply calm_trans.
    destruct (calm_CInv T L G sync target x x' Hx C Hs) as [Hx' Hm]. split_and!; [done..|]. by intros n [=].
Qed.

Lemma copyChunk_safe c ch cols mode Q x :
  T (chunk_Table ch) → chunk_Method ch = ChunkKeyset → cols = cols_of (chunk_Table ch) → ok x →
  (∀ r x', ok x' → mono x x' → (∀ n, r = inr n → chunk_good x'.1 ch) → Q r x') →
  csafe (copyChunk c (chunk_Table ch) cols ch mode) Q x.
Proof.
  intros HT Hm -> Hx HQ. unfold copyChunk. apply safe_bind.
  apply safe_calm; [done..|]. intros rd x1 Hx1 Hm1 C1 Hrd Hs1.
  apply safe_bind. apply safe_call; [done|done|]. intros ld x2. unfold world_step. cbn [is_store_call].
  intros [Hc Hs2]. destruct rd as [e|stg].
  - destruct Hc as (v1 & v2 & R1 & [(stg & tgt' & [=] & _)|(_ & _ & ->)] & R2).
    apply rely_calm in R1, R2. assert (calm x1.1 x2.1) as C by by eapply calm_trans.
    destruct (calm_CInv _ _ _ _ _ _ _ Hx1 C Hs2) as [Hx2 Hm2]. split; [done|]. apply safe_ret; [done|].
    apply HQ; [done|by eapply mono_trans|by intros n [=]].
  - destruct Hrd as [[e [=]]|(v1 & v2 & Ca & [-> Heq] & Cb & Cc)]. injection Heq as ->.
    assert (fresh x1.1 ch (copyChunkRows (key_lt (chunk_Table ch)) (cols_of (chunk_Table ch)) (a_src v1) ch)) as Hf.
    { apply (fresh_calm v1); [apply Ca|done|]. intros k. rewrite lookup_copyChunkRows.
      case_decide; [by left|done]. }
    destruct (bulkLoad_step c ch _ mode x1 ld x2 HT Hx1 Hf Hc Hs2) as (Hx2 & Hm2 & Hg).
    split; [done|]. apply safe_ret; [done|].
    apply HQ; [done|by eapply mono_trans|]. intros n. destruct ld as [e|n']; [done|]. by intros [= <-]; eapply Hg.
Qed.

Lemma reconnectConn_safe c health reconnect Q x :
  calm_call health → calm_call reconnect →
  is_store_call health = false → is_store_call reconnect = false →
  (∀ x, requires c health x) → (∀ x, requires c reconnect x) → ok x →
  (∀ x', ok x' → mono x x' → Q tt x') → csafe (reconnectConn c health reconnect) Q x.
Proof.
  intros H1 H2 S1 S2 R1 R2 Hx HQ. apply safe_bind.
  apply safe_calm; [done..|]. intros r x1 Hx1 Hm1 _ _ _. destruct r as [e|]; [|apply safe_ret; auto].
  apply safe_bind. apply safe_calm; [done..|]. intros r x2 Hx2 Hm2 _ _ _.
  apply safe_ret; [done|]. apply HQ; [done|by eapply mono_trans].
Qed.

Lemma copy_attempts_safe tries c ch cols mode lastErr Q x :
  T (chunk_Table ch) → chunk_Method ch = ChunkKeyset → cols = cols_of (chunk_Table ch) → ok x →
  (∀ r x', ok x' → mono x x' → (∀ n, r = inr n → chunk_good x'.1 ch) → Q r x') →
  csafe (copy_attempts tries c (chunk_Table ch) cols ch mode lastErr) Q x.
Proof.
  intros HT Hme Hcols. revert mode lastErr x Q. induction tries as [|tries IH]; intros mode lastErr x Q Hx HQ;
    cbn [copy_attempts]; [apply safe_ret; [done|]; apply HQ; [done|by intros ??|by intros n [=]]|].
  apply safe_bind. apply copyChunk_safe; [done..|]. intros r x1 Hx1 Hm1 Hg.
  destruct r as [err|n]; [|apply safe_ret; [done|]; by apply HQ].
  apply safe_bind. apply safe_calm; [done..|]. intros ctx x2 Hx2 Hm2 _ _ _.
  assert (mono x x2) as M2 by by eapply mono_trans. clear Hm1 Hm2 Hg.
  destruct ctx as [e|]; [apply safe_ret; [done|]; apply HQ; [done..|by intros n [=]]|].
  apply safe_bind. apply safe_calm; [done..|]. intros s x3 Hx3 Hm3 _ _ _.
  assert (mono x x3) as M3 by by eapply mono_trans.
  apply safe_bind.
  assert (∀ d x4, ok x4 → mono x x4 → csafe (if negb d then Ret (inl err)
    else
     _ ← reconnectConn c SrcHealthCheck SrcReconnect;
     _ ← reconnectConn c SinkHealthCheck SinkReconnect;
     w ← do_call c (After copyRetryBackoff);
     match w with
     | inl ctxErr => Ret (inl ctxErr)
     | inr _ => copy_attempts tries c (chunk_Table ch) cols ch LoadMerge err
     end) Q x4) as Hrest.
  { intros d x4 Hx4 M4. destruct d; cbn [negb];
      [|apply safe_ret; [done|]; apply HQ; [done..|by intros n [=]]].
    apply safe_bind. apply reconnectConn_safe; [done..|]. intros x5 Hx5 Hm5.
    apply safe_bind. apply reconnectConn_safe; [done..|]. intros x6 Hx6 Hm6.
    apply safe_bind. apply safe_calm; [done..|]. intros w x7 Hx7 Hm7 _ _ _.
    assert (mono x x7) as M7 by (eapply mono_trans; [exact M4|]; eapply mono_trans; [exact Hm5|]; by eapply mono_trans).
    destruct w as [e|]; [apply safe_ret; [done|]; apply HQ; [done..|by intros n [=]]|].
    apply IH; [done|]. intros r8 x8 Hx8 Hm8 Hg8. apply HQ; [done|by eapply mono_trans|done]. }
  destruct (down s); [apply safe_ret; [done|]; by apply Hrest|].
  apply safe_bind. apply safe_calm; [done..|]. intros k x4 Hx4 Hm4 _ _ _.
  apply safe_ret; [done|]. apply Hrest; [done|by eapply mono_trans].
Qed.
End one.

(** ** The completed prefix *)

(** [prefix] is the number of chunks before the first unfinished one. *)
Definition is_prefix (done : gset nat) (n prefix : nat) : Prop :=
  prefix ≤ n ∧ (∀ i, i < prefix → i ∈ done) ∧ (prefix < n → prefix ∉ done).

Lemma advance_spec fuel done n prefix :
  prefix ≤ n → n - prefix ≤ fuel → (∀ i, i < prefix → i ∈ done) →
  is_prefix done n (advance fuel done n prefix) ∧ prefix ≤ advance fuel done n prefix.
Proof.
  revert prefix. induction fuel as [|fuel IH]; intros prefix Hle Hf Hp; simpl.
  - split; [|done]. split_and!; [done..|lia].
  - case_decide as Hd.
    + destruct (IH (S prefix)) as [H1 H2]; [lia..| |split; [done|lia]].
      intros i Hi. destruct (decide (i = prefix)) as [->|]; [tauto|]. apply Hp. lia.
    + split; [|done]. split_and!; [done..|]. tauto.
Qed.

Definition cs_ok (n : nat) (s : copyState) : Prop :=
  is_prefix (cs_done s) n (cs_prefix s).

Lemma finish_chunk_done chunks target ref i s :
  cs_done (finish_chunk chunks target ref i s).1 = {[i]} ∪ cs_done s.
Proof. done. Qed.

Lemma finish_chunk_ok chunks target ref i s :
  cs_ok (length chunks) s → cs_ok (length chunks) (finish_chunk chunks target ref i s).1.
Proof.
  intros (Hle & Hp & _). unfold cs_ok. simpl. apply advance_spec; [done|lia|].
  intros j Hj. apply elem_of_union_r. by apply Hp.
Qed.

Lemma finish_chunk_snap chunks target ref i s p :
  cs_ok (length chunks) s → (finish_chunk chunks target ref i s).2 = Some p →
  let s' := (finish_chunk chunks target ref i s).1 in
  ∃ ch, 0 < cs_prefix s' < length chunks ∧ chunks !! (cs_prefix s' - 1) = Some ch ∧
    p = mkProgress target ref false (chunk_Hi ch) [].
Proof.
  intros _. simpl. set (pr := advance _ _ _ _). case_match eqn:E; [|done].
  apply andb_true_iff in E as [H1%bool_decide_eq_true H2%bool_decide_eq_true].
  destruct (chunks !! (pr - 1)) as [ch|] eqn:Hl; simpl; [|done]. intros [= <-].
  exists ch. split_and!; done || lia.
Qed.

(** Whatever order the workers finish the chunks in, the persisted prefix is
    exactly the run of finished chunks from the start, it never moves back, and
    a checkpoint is asked for exactly when it moved and chunks remain, with the
    upper bound of its last chunk as watermark. *)
Theorem finish_chunk_watermark (chunks : list Chunk) (target : TargetID) (ref : TableRef)
    (order : list nat) (i : nat) :
  let s := foldl (λ s i, (finish_chunk chunks target ref i s).1) (mkCS ∅ 0) order in
  let '(s', snap) := finish_chunk chunks target ref i s in
  is_prefix (list_to_set (i :: order)) (length chunks) (cs_prefix s') ∧
  cs_prefix s ≤ cs_prefix s' ∧
  (is_Some snap ↔ cs_prefix s < cs_prefix s' < length chunks) ∧
  ∀ p, snap = Some p → ∃ ch, chunks !! (cs_prefix s' - 1) = Some ch ∧
    p = mkProgress target ref false (chunk_Hi ch) [].
Proof.
  intros s.
  assert (cs_ok (length chunks) s ∧ cs_done s = list_to_set order) as [Hok Hdone].
  { subst s. induction order as [|j order IH] using rev_ind.
    - split; [|done]. split_and!; simpl; [lia|intros; lia|set_solver].
    - rewrite foldl_snoc. destruct IH as [H1 H2]. split; [by apply finish_chunk_ok|].
      rewrite finish_chunk_done, H2. set_solver. }
  pose proof (finish_chunk_ok chunks target ref i s Hok) as Hok'.
  pose proof (λ p, finish_chunk_snap chunks target ref i s p Hok) as Hsnap.
  destruct Hok as (Hle & Hp & _).
  destruct (advance_spec (length chunks) ({[i]} ∪ cs_done s) (length chunks) (cs_prefix s)) as [_ Hmono];
    [done|lia|intros j Hj; apply elem_of_union_r; by apply Hp|].
  destruct (finish_chunk chunks target ref i s) as [s' snap] eqn:E. simpl in Hok', Hsnap.
  unfold finish_chunk in E. injection E as <- <-. cbn [cs_prefix cs_done fst] in *.
  set (pr := advance _ _ _ _) in *. unfold cs_ok in Hok'. simpl in Hok'. rewrite Hdone in Hok'.
  split_and!.
  - by rewrite list_to_set_cons.
  - done.
  - case_match eqn:Eb.
    + apply andb_true_iff in Eb as [H1%bool_decide_eq_true H2%bool_decide_eq_true].
      split; [done|]. intros _. destruct (chunks !! (pr - 1)) eqn:El; [by eexists|].
      apply lookup_ge_None in El. lia.
    + split; [by intros []|]. intros [H1 H2]. apply andb_false_iff in Eb.
      rewrite !bool_decide_eq_false in Eb. lia.
  - intros p Hpp. destruct (Hsnap p Hpp) as (ch & _ & Hch & ->). by exists ch.
Qed.

(** ** A table *)

Section table.
Context (T L G : TableRef → Prop) (sync : string) (target : TargetID).

Abbreviation ok := (CInv T L G sync target).
Abbreviation csafe := (safe world_step world_requires ok).

Lemma rely_ok x x' : ok x → rely x.1 x'.1 → x'.2 = x.2 → ok x' ∧ mono x x'.
Proof. intros Hx R. by apply calm_CInv, rely_calm. Qed.

(** Saving a progress that claims only good keys keeps the invariant. *)
Lemma save_progress_safe t p Q x :
  ok x → cp_Target p = target → cp_Table p = t →
  (∀ x', mono x x' → ∀ k, progress_covers p t k → good x'.1 t k) →
  (∀ r x', ok x' → mono x x' → Q r x') →
  csafe (do_call 0 (SaveCopyProgress sync p)) Q x.
Proof.
  intros Hx Htg Ht Hcov HQ. apply safe_call; [done|done|]. intros r x' [R Hst]. cbn [is_store_call] in *.
  destruct (rely_ok x (x'.1, x.2) Hx R eq_refl) as [[Hp Hr Hg Hcm] Hm].
  assert (ok x') as Hx'; [|split; [done|by apply HQ]].
  destruct Hst as (r0 & s0 & Hc & Hs). simpl in Hc.
  assert (x'.2 = x.2 ∨ saveCopyProgress sync p x.2 = inr x'.2) as [E|E].
  { destruct (saveCopyProgress sync p x.2) as [e|s1] eqn:Es; injection Hc as <- <-;
      destruct Hs as [[-> ->]|[_ [-> | ->]]]; auto. }
  - destruct (rely_ok x x' Hx R E) as [? _]. done.
  - split; [done..| |done]. intros t' k HT. rewrite (loadCopyProgress_save _ _ _ _ _ _ _ E).
    case_decide as Hd; [injection Hd as _ ->; rewrite Ht; by apply Hcov|by apply Hg].
Qed.

Section chunks.
Context (ref : TableRef) (lo : option KeyValues) (chunks : list Chunk) (mode : LoadMode).
Context (HT : T ref) (Hplan : plan_ok ref lo chunks).

(** What the loop over the chunks keeps: keys below the resume bound are good,
    finished chunks are good, and the chunks still to do are scheduled. *)
Record loop_ok (l : list (nat * nat)) (s : copyState) (x : world) : Prop := {
  lp_base k : ¬ in_range (key_lt ref) lo None k → good x.1 ref k;
  lp_cs : cs_ok (length chunks) s;
  lp_done i ch : i ∈ cs_done s → chunks !! i = Some ch → chunk_good x.1 ch;
  lp_rest i : i < length chunks → i ∈ cs_done s ∨ ∃ wk, (wk, i) ∈ l
}.

Lemma chunk_of i ch : chunks !! i = Some ch → chunk_Table ch = ref ∧ chunk_Method ch = ChunkKeyset.
Proof. destruct Hplan as [_ Hf]. intros H. by eapply Forall_lookup_1 in Hf. Qed.

(** Keys below the end of a finished prefix are good. *)
Lemma prefix_good l s x n ch h k :
  loop_ok l s x → (∀ i, i ≤ n → i ∈ cs_done s) → chunks !! n = Some ch → chunk_Hi ch = Some h →
  key_lt ref k h → good x.1 ref k.
Proof.
  intros [Hb _ Hd _] Hdone Hch Hh Hk. destruct Hplan as [Hc _].
  destruct (decide (in_range (key_lt ref) lo None k)) as [Hin|Hout]; [|by apply Hb].
  destruct (chain_prefix (key_lt ref) lo chunks n k Hc Hin) as [(i & ci & Hi & Hci & Hr)|(c' & h' & E1 & E2 & E3)].
  - by eapply lookup_lt_Some.
  - destruct (chunk_of i ci Hci) as [<- _]. by apply (Hd i ci (Hdone i Hi) Hci).
  - rewrite Hch in E1. injection E1 as <-. rewrite Hh in E2. by injection E2 as <-.
Qed.

Lemma loop_ok_mono l s x x' : mono x x' → loop_ok l s x → loop_ok l s x'.
Proof.
  intros Hm [Hb Hc Hd Hr]. split; [intros k Hk; by apply Hm, Hb|done| |done].
  intros i ch Hi Hch k Hk. by apply Hm, (Hd i).
Qed.

Lemma loop_ok_finish wk i l s x ch :
  chunks !! i = Some ch → loop_ok ((wk, i) :: l) s x → chunk_good x.1 ch →
  loop_ok l (finish_chunk chunks target ref i s).1 x.
Proof.
  intros Hch [Hb Hc Hd Hr] Hg. split; [done|by apply finish_chunk_ok|..]; rewrite finish_chunk_done.
  - intros j cj [->%elem_of_singleton|Hj]%elem_of_union Hcj; [|by apply (Hd j)].
    rewrite Hch in Hcj. by injection Hcj as <-.
  - intros j Hj. destruct (Hr j Hj) as [?|(w & [[= -> ->]|Hin]%elem_of_cons)]; [set_solver..|].
    right. by exists w.
Qed.

Lemma chunk_step_safe wk i l s cols x :
  cols = cols_of ref → ok x → loop_ok ((wk, i) :: l) s x →
  csafe (chunk_step sync target ref cols chunks mode (wk, i) s)
    (λ r x', mono x x' ∧ match r with inl _ => True | inr s' => loop_ok l s' x' end) x.
Proof.
  intros Hcols Hx HL. unfold chunk_step. destruct (chunks !! i) as [ch|] eqn:Hch.
  2: { apply safe_ret; [done|]. split; [done|]. destruct HL as [Hb Hc Hd Hr]. split; [done..|].
       intros j Hj. destruct (Hr j Hj) as [?|(w & [[= -> ->]|Hin]%elem_of_cons)]; [by left| |].
       - apply lookup_ge_None in Hch. lia.
       - right. by exists w. }
  destruct (chunk_of i ch Hch) as [Ht Hme]. apply safe_bind. unfold copyChunkResilient.
  assert (T (chunk_Table ch)) as HTch by by rewrite Ht.
  rewrite <-Ht in Hcols. rewrite <-Ht at 1.
  apply (copy_attempts_safe T L G); [done..|]. intros r x1 Hx1 Hm1 Hg. destruct r as [e|n]; [by apply safe_ret|].
  specialize (Hg n eq_refl).
  apply (loop_ok_mono _ _ _ _ Hm1) in HL. apply (loop_ok_finish wk i l s x1 ch) in HL as HL'; [|done..].
  pose proof (λ p, finish_chunk_snap chunks target ref i s p (lp_cs _ _ _ HL)) as Hsnap.
  destruct (finish_chunk chunks target ref i s) as [s' snap]. cbn [fst snd] in HL', Hsnap.
  destruct snap as [p|]; [|by apply safe_ret].
  destruct (Hsnap p eq_refl) as (ch' & [H1 H2] & Hch' & ->). simpl in H1, H2, Hch'.
  apply safe_bind. apply (save_progress_safe ref); [done..| |].
  - intros x2 Hm2 k [[=]|(wm & Hwm & Hk)]. simpl in Hwm. apply Hm2.
    eapply prefix_good; [done| |done..].
    destruct (lp_cs _ _ _ HL') as (_ & Hp & _). intros j Hj. apply Hp. lia.
  - intros r x2 Hx2 Hm2. apply safe_ret; [done|]. split; [by eapply mono_trans|]. destruct r; [done|]. by eapply loop_ok_mono.
Qed.

(** A finished loop has every key. *)
Lemma loop_ok_all s x k : loop_ok [] s x → good x.1 ref k.
Proof.
  intros [Hb Hc Hd Hr]. destruct Hplan as [Hch _].
  destruct (decide (in_range (key_lt ref) lo None k)) as [Hin|Hout]; [|by apply Hb].
  destruct (chain_covers (key_lt ref) lo chunks k Hch Hin) as (i & ch & Hi & Hk).
  destruct (chunk_of i ch Hi) as [<- _]. apply (Hd i ch); [|done|done].
  destruct (Hr i) as [?|(w & ?%elem_of_nil)]; [by eapply lookup_lt_Some|done..].
Qed.
End chunks.

Lemma resolveLoadMode_safe verifier ref forced Q x :
  ok x → (∀ m x', ok x' → mono x x' → x'.2 = x.2 → Q m x') →
  csafe (resolveLoadMode verifier 0 ref forced) Q x.
Proof.
  intros Hx HQ. unfold resolveLoadMode. destruct forced as [m|]; [apply safe_ret; [done|]; by apply HQ|].
  destruct verifier; cbn [negb]; [|apply safe_ret; [done|]; by apply HQ].
  apply safe_bind. apply safe_calm; [done..|]. intros r x1 Hx1 Hm1 _ _ Hs1.
  apply safe_ret; [done|]. by apply HQ.
Qed.

Lemma transport_safe ref Q x :
  ok x → (∀ r x', ok x' → mono x x' → x'.2 = x.2 → (∀ cols, r = inr cols → cols = cols_of ref) → Q r x') →
  csafe (transportColumns 0 ref) Q x.
Proof.
  intros Hx HQ. unfold transportColumns. apply safe_bind. apply safe_calm; [done..|].
  intros r x1 Hx1 Hm1 _ He Hs1. apply safe_ret; [done|]. apply HQ; [done..|].
  intros cols. destruct r as [e|tabs]; [done|].
  destruct He as [[e [=]]|(v1 & v2 & _ & (_ & tabs' & [= <-] & [Htabs _ _ _]) & _)].
  destruct (find_columns ref tabs) as [cols'|] eqn:Hf; [|done]. intros [= <-].
  clear -Hf Htabs. revert Hf. induction tabs as [|tbl tabs IH]; simpl; [done|].
  case_decide as Hr; [|apply IH; intros; apply Htabs; by right]. intros [= <-]. subst ref.
  apply Htabs. by left.
Qed.

(** Every chunk is taken by some worker. *)
Definition schedules (sched : list Chunk → list (nat * nat)) : Prop :=
  ∀ chunks i, i < length chunks → ∃ wk, (wk, i) ∈ sched chunks.

Lemma copyTable_safe verifier sched ref opts forced Q x :
  schedules sched → T ref → 0 < key_arity ref → opt_Method opts ≠ Some ChunkCTID → ok x →
  (∀ r x', ok x' → mono x x' → (r = None → ∀ k, good x'.1 ref k) → Q r x') →
  csafe (copyTable verifier sched sync target ref opts forced) Q x.
Proof.
  intros Hsch HT Hkey Hme Hx HQ. unfold copyTable. apply safe_bind.
  apply safe_call; [done|done|]. intros r x1 [R (r0 & s0 & Hc & Hs)]. cbn [is_store_call] in *.
  simpl in Hc. injection Hc as <- <-.
  assert (x1.2 = x.2) as Hs1 by by destruct Hs as [[_ ->]|[_ [-> | ->]]].
  destruct (rely_ok x x1 Hx R Hs1) as [Hx1 Hm1]. split; [done|].
  destruct r as [e|p]; [apply safe_ret; [done|]; by apply HQ|].
  destruct Hs as [[[= ->] _]|[[e [=]] _]]. rewrite <-Hs1.
  set (p := loadCopyProgress sync target ref x1.2).
  assert (∀ k, progress_covers p ref k → good x1.1 ref k) as Hbase by (intros k; by apply Hx1).
  destruct (cp_Done p) eqn:Hdone.
  { apply safe_ret; [done|]. apply HQ; [done..|]. intros _ k. apply Hbase. by left. }
  apply safe_bind. apply resolveLoadMode_safe; [done|]. intros mode x2 Hx2 Hm2 Hs2.
  apply safe_bind. apply safe_calm; [done..|]. intros r x3 Hx3 Hm3 _ He Hs3.
  assert (mono x x3) as M3 by (eapply mono_trans; [exact Hm1|]; by eapply mono_trans).
  destruct r as [e|chunks]; [apply safe_ret; [done|]; by apply HQ|].
  destruct He as [[e [=]]|(v1 & v2 & _ & (_ & chs & [= <-] & Hplan) & _)]. simpl in Hplan.
  apply safe_bind. apply transport_safe; [done|]. intros r x4 Hx4 Hm4 Hs4 Hcols.
  destruct r as [e|cols]; [apply safe_ret; [done|]; apply HQ; [done|by eapply mono_trans|done]|].
  specialize (Hcols cols eq_refl). apply safe_bind.
  assert (mono x1 x4) as M14 by (eapply mono_trans; [exact Hm2|]; by eapply mono_trans).
  assert (mono x x4) as M4 by by eapply mono_trans.
  (* every state of the loop is also above the first one *)
  apply (safe_for_each _ _ _ _ (λ l s y, loop_ok ref (cp_Watermark p) chunks l s y ∧ mono x y)).
  - intros [wk i] l s y Hy [HL HM]. eapply safe_mono; [|by eapply chunk_step_safe].
    intros [e|s'] y' Hy' [HM' HL']; [apply safe_ret; [done|]; apply HQ; [done|by eapply mono_trans|done]|].
    split; [done|by eapply mono_trans].
  - intros s y Hy [HL HM]. apply safe_bind. apply (save_progress_safe ref); [done..| |].
    + intros y' Hm' k _. apply Hm'. by eapply loop_ok_all.
    + intros r y' Hy' Hm'. apply safe_ret; [done|]. apply HQ; [done|by eapply mono_trans|].
      intros _ k. apply Hm'. by eapply loop_ok_all.
  - done.
  - split; [|done]. split; simpl.
    + intros k Hk. apply M14, Hbase. right. destruct (cp_Watermark p) as [wm|]; [|by destruct Hk].
      exists wm. split; [done|]. destruct (decide (key_lt ref k wm)); [done|]. by destruct Hk.
    + split_and!; simpl; [lia|intros; lia|set_solver].
    + set_solver.
    + intros i Hi. right. by apply Hsch.
Qed.
Lemma Component_ok workers verifier sched tables opts forced Q x :
  schedules sched → (∀ t, t ∈ tables → T t ∧ 0 < key_arity t) → opt_Method opts ≠ Some ChunkCTID →
  ok x →
  (∀ r x', ok x' → mono x x' → (r = None → ∀ t k, t ∈ tables → good x'.1 t k) → Q r x') →
  csafe (Component workers verifier sched sync target tables opts forced) Q x.
Proof.
  intros Hsch HT Hme Hx HQ. unfold Component.
  destruct (Nat.eqb workers 0); [apply safe_ret; [done|]; by apply HQ|]. apply safe_bind.
  apply (safe_for_each _ _ _ _ (λ l _ y, mono x y ∧ (∃ done, tables = done ++ l ∧ ∀ t k, t ∈ done → good y.1 t k))).
  - intros t l [] y Hy (HM & done & Heq & Hdone). destruct (HT t) as [Ht Hk]; [set_solver|].
    apply safe_bind. apply copyTable_safe; [done..|]. intros r y' Hy' HM' Hg.
    assert (mono x y') by by eapply mono_trans.
    apply safe_ret; [done|]. destruct r as [e|]; [apply safe_ret; [done|]; by apply HQ|].
    split; [done|]. exists (done ++ [t]). split; [by rewrite <-app_assoc|].
    intros t' k [Hin|Hin%list_elem_of_singleton]%elem_of_app; [by apply HM', Hdone|subst t'; by apply Hg].
  - intros [] y Hy (HM & done & Heq & Hdone). rewrite app_nil_r in Heq. subst done.
    apply safe_ret; [done|]. by apply HQ.
  - done.
  - split; [done|]. exists []. split; [done|]. by intros t k ?%elem_of_nil.
Qed.
End table.

(** An empty target and no recorded progress are a good start. *)
Lemma CInv_start (T L G : TableRef → Prop) sync target x :
  pend_ok x.1 → (∀ t k, T t → a_tgt x.1 !! (t, k) = None) →
  (∀ t, T t → st_progress x.2 !! (sync, target, t) = None) → (∀ t, ¬ G t) → CInv T L G sync target x.
Proof.
  intros Hp Ht Hs HG. split; [done|intros t k H; right; left; by apply Ht| |by intros t k ?%HG].
  intros t k H [Hd|(wm & Hw & _)]; unfold loadCopyProgress in *; rewrite Hs in * by done; done.
Qed.

(** ** Cyclic copiers ([engine.CyclicComponentCopier])

    What the lifecycle needs of an engine's copy of a cyclic component, on the first
    worker's connection: it makes no call on the state store, keeps the invariant of the
    copy, leaves no transaction open, and has every row when it reports success. *)
Class CyclicCopier := {
  copy_cyclic : list TableRef → prog (option error);
  copy_cyclic_calls tables : only (λ o, is_store_call o = false) (copy_cyclic tables);
  copy_cyclic_safe (T L G : TableRef → Prop) (sync : string) (target : TargetID) (tables : list TableRef) (x : world) :
    (∀ t, t ∈ tables → T t ∧ L t ∧ 0 < key_arity t ∧ t ∈ src_tables) →
    CInv T L G sync target x → a_tx x.1 !! 0 = None →
    safe world_step world_requires (CInv T L G sync target) (copy_cyclic tables)
      (λ r x', mono x x' ∧ a_tx x'.1 !! 0 = None ∧ (r = None → ∀ t k, t ∈ tables → good x'.1 t k)) x
}.

(** C2: the initial copy is crash-safe and complete. Whatever the calls return
    (read and load errors, lost acknowledgements, reconnects, failed
    checkpoints), in whatever order the chunks finish, and whatever is written
    on the source meanwhile: at every point between two calls, so also where a
    crash stops the daemon and a restart resumes, every row on the target agrees
    with the source or has an unconsumed delta, and so does every key the
    persisted progress claims, and the tables that were complete before ([G]) stay
    so; and when [Component] returns no error, every key of every table does,
    which is the invariant the drain of these tables starts from. *)
Theorem Component_copies (G : TableRef → Prop) (workers : nat) (verifier : bool)
    (sched : list Chunk → list (nat * nat)) (sync : string) (target : TargetID) (tables : list TableRef) (opts : ChunkOptions)
    (forced : option LoadMode) (x : world) :
  schedules sched → (∀ t, t ∈ tables → 0 < key_arity t) → opt_Method opts ≠ Some ChunkCTID →
  CInv (λ t, t ∈ tables) (λ _, False) G sync target x →
  safe world_step world_requires (CInv (λ t, t ∈ tables) (λ _, False) G sync target)
    (Component workers verifier sched sync target tables opts forced)
    (λ r x', r = None → Inv (λ t, t ∈ tables) x'.1) x.
Proof.
  intros Hsch Hk Hm Hx. apply Component_ok; [done|auto|done..|].
  intros r x' Hx' _ Hg Hr. split; [|apply Hx']. intros t k Ht. by apply Hg.
Qed.
End safety.
End Copy.
