(* ===== verification/PgCyclicCopy.v ===== *)
(** * The initial copy of a cyclic component ([internal/engine/postgres/cyclic.go])

    A component with a foreign-key cycle has no parents-first order. Its tables are loaded
    in one transaction with deferred constraints when every cyclic foreign key is
    deferrable, and otherwise in two passes: every table without its cyclic columns, in key
    ranges that are staged, upserted and committed one at a time, and then the cyclic columns.
    A range that fails on a foreign key (a parent row arrived after its table was read) is
    retried after the parents have been copied again, one that fails on a lost connection
    after a reconnect.

    Source and sink use one connection each, [c]. The SQL a statement is made of is in the
    statement's effect ([Contract.stmt_effect]); types and the identity clause of the staging
    DDL are left out. *)

From S2P Require Import Prelude Engine FkGraph CyclicFk PgPreflight Calls ApplyTx Plan Contract Store Copy.
Import FkGraph CyclicFk PgPreflight ApplyTx Plan Contract Store Copy.

Module PgCyclicCopy.

(** ** Errors ([classifyFKViolation]) *)

(** [errors.As(err, &pgErr)]: the code of the server error in the chain. *)
Fixpoint asPgError (e : error) : option string :=
  match e with
  | PgError code _ => Some code
  | TransientConstraintError e | Errorf _ e => asPgError e
  | Failure _ | Canceled | MyError _ _ => None
  end.

Definition classifyFKViolation (e : error) : error :=
  if decide (asPgError e = Some "23503") then TransientConstraintError e else e.

(** On a returned error, [nil] included. *)
Definition classified (r : option error) : option error := classifyFKViolation <$> r.

(** ** Ranges ([keysetPredicate], [allKeyset]) *)

(** [valueTuple] renders the text values of a key bound. *)
Definition valueTuple (cols : list (string * string)) (vals : KeyValues) : option error :=
  if decide (length vals ≠ length cols)
  then Some (Failure ("postgres: key tuple has " +:+ pretty (length vals) +:+ " values, want " +:+ pretty (length cols)))
  else if forallb (λ v, match v with VText _ => true | _ => false end) vals then None
  else Some (Failure "postgres: key bound is not a text value").

(** The predicate of a range is the range, once its bounds can be rendered. *)
Definition keysetPredicate (cols : list (string * string)) (lo hi : option KeyValues) : option error :=
  match lo ≫= valueTuple cols with
  | Some e => Some e
  | None => hi ≫= valueTuple cols
  end.

Definition allKeyset (chunks : list Chunk) : bool :=
  match chunks with
  | [] => false
  | _ => forallb (λ ch, bool_decide (chunk_Method ch = ChunkKeyset)) chunks
  end.

(** [copyChunkRows] and [upsertChunkRows] *)
Definition rowsPerChunk : Z := 50000.

Definition keyset_opts : ChunkOptions := mkChunkOptions (Some ChunkKeyset) rowsPerChunk None.

(** ** Streaming ([copyColsWhere], [copyAllCols], [pipeCopyWhere], [pipeCopy]) *)

Definition read_err (msg : string) (rd : reader) : reader :=
  match rd with inl e => inl (Errorf msg e) | inr rows => inr rows end.

(** [COPY (SELECT cols FROM ref WHERE range) TO STDOUT] *)
Definition copy_to (c : nat) (msg : string) (ref : TableRef) (cols : list string) (lo hi : option KeyValues)
    : prog reader :=
  r ← do_call c (Exec (SCopyTo ref cols lo hi));
  Ret (read_err msg r).

Definition copyColsWhere (c : nat) (ref : TableRef) (cols : list string) (lo hi : option KeyValues) : prog reader :=
  copy_to c ("postgres: copy " +:+ ref_string ref +:+ " range") ref cols lo hi.

Definition copyAllCols (c : nat) (ref : TableRef) (cols : list string) : prog reader :=
  copy_to c ("postgres: copy " +:+ ref_string ref +:+ " cols") ref cols None None.

(** The pipe: [into] is the COPY FROM statement of the sink; the read error wins. *)
Definition pipe (read : prog reader) (into : reader → prog (result unit)) : prog (option error) :=
  rd ← read;
  ld ← into rd;
  Ret (match rd, ld with
       | inl e, _ => Some (Errorf "read side" e)
       | inr _, inl e => Some (Errorf "write side" e)
       | inr _, inr _ => None
       end).

Definition pipeCopyWhere (c : nat) (ref : TableRef) (cols : list string) (lo hi : option KeyValues)
    (into : reader → prog (result unit)) : prog (option error) :=
  pipe (copyColsWhere c ref cols lo hi) into.

Definition pipeCopy (c : nat) (ref : TableRef) (cols : list string) (into : reader → prog (result unit))
    : prog (option error) :=
  pipe (copyAllCols c ref cols) into.

Definition to_staging (c : nat) (ref : TableRef) (cols : list string) (rd : reader) : prog (result unit) :=
  do_call c (Exec (SCopyStaging ref cols rd)).

Definition to_table (c : nat) (ref : TableRef) (cols : list string) (rd : reader) : prog (result unit) :=
  do_call c (Exec (SCopyTable ref cols rd)).

(** ** Transactions

    [BEGIN], the body, [COMMIT], and the deferred [ROLLBACK] of everything that did not
    commit. *)
Definition own_tx (c : nat) (msg : string) (body : prog (option error)) : prog (option error) :=
  r ← do_call c (Exec SBegin);
  match r with
  | inl e => Ret (Some (Errorf (msg +:+ ": begin") e))
  | inr _ =>
      r ← body;
      match r with
      | Some e => _ ← do_call c Rollback; Ret (Some e)
      | None =>
          r ← do_call c Commit;
          match r with
          | inl e => _ ← do_call c Rollback; Ret (Some (Errorf (msg +:+ ": commit") e))
          | inr _ => Ret None
          end
      end
  end.

(** A body's next statement. *)
Definition stmt_then (c : nat) (q : stmt) (msg : string) (k : prog (option error)) : prog (option error) :=
  r ← do_call c (Exec q);
  match r with
  | inl e => Ret (Some (Errorf msg e))
  | inr _ => k
  end.

(** ** One range ([copyRangeOnce], [copyRange]) *)

Definition copyRangeOnce (c : nat) (ref : TableRef) (cols : list string) (pk : list (string * string))
    (lo hi : option KeyValues) : prog (option error) :=
  match keysetPredicate pk lo hi with
  | Some e => Ret (Some e)
  | None =>
      own_tx c "postgres: cyclic copy range"
        (stmt_then c (SCreateStaging ref) ("postgres: cyclic copy range: staging " +:+ ref_string ref)
           (r ← pipeCopyWhere c ref cols lo hi (to_staging c ref cols);
            match r with
            | Some e => Ret (Some (Errorf ("postgres: cyclic copy range " +:+ ref_string ref) e))
            | None =>
                stmt_then c (SMergeInsert ref cols None None)
                  ("postgres: cyclic copy range: upsert " +:+ ref_string ref) (Ret None)
            end))
  end.

Definition cyclicCopyConnAttempts : nat := 6.
Definition cyclicConnBackoff : Z := 2000000000.

(** [copyRange]: [tries] attempts are left. *)
Fixpoint range_attempts (tries : nat) (c : nat) (ref : TableRef) (cols : list string)
    (pk : list (string * string)) (lo hi : option KeyValues) (lastErr : option error) : prog (option error) :=
  match tries with
  | 0 => Ret lastErr
  | S tries =>
      r ← copyRangeOnce c ref cols pk lo hi;
      match r with
      | None => Ret None
      | Some err =>
          ctx ← do_call c CtxErr;
          match ctx with
          | inl _ => Ret (Some err)
          | inr _ =>
              s ← do_call c SrcHealthCheck;
              d ← (if down s then Ret true
                   else k ← do_call c SinkHealthCheck; Ret (down k));
              if negb d then Ret (Some err)
              else
                _ ← reconnectConn c SrcHealthCheck SrcReconnect;
                _ ← reconnectConn c SinkHealthCheck SinkReconnect;
                w ← do_call c (After cyclicConnBackoff);
                match w with
                | inl ctxErr => Ret (Some ctxErr)
                | inr _ => range_attempts tries c ref cols pk lo hi (Some err)
                end
          end
      end
  end.

Definition copyRange (c : nat) (ref : TableRef) (cols : list string) (pk : list (string * string))
    (lo hi : option KeyValues) : prog (option error) :=
  range_attempts cyclicCopyConnAttempts c ref cols pk lo hi None.

(** ** A whole table by staging ([upsertFromStaging], [stagedUpsertCopy]) *)

(** The body of a Go loop that returns on the first error. *)
Definition each {A} (f : A → prog (option error)) (x : A) (_ : unit) : prog (error + unit) :=
  r ← f x;
  Ret (match r with Some e => inl e | None => inr tt end).

Definition for_all {A} (l : list A) (f : A → prog (option error)) : prog (option error) :=
  r ← for_each l (each f) tt;
  Ret (match r with inl e => Some e | inr _ => None end).

Definition upsertFromStaging (c : nat) (ref : TableRef) (cols : list string) (pk : list (string * string))
    : prog (option error) :=
  let whole :=
    stmt_then c (SMergeInsert ref cols None None) ("postgres: staged upsert: upsert " +:+ ref_string ref) (Ret None) in
  r ← do_call c (PlanChunks ref keyset_opts);
  match r with
  | inl _ => whole
  | inr chunks =>
      if negb (allKeyset chunks) then whole
      else
        for_all chunks (λ ch,
          match keysetPredicate pk (chunk_Lo ch) (chunk_Hi ch) with
          | Some e => Ret (Some e)
          | None =>
              stmt_then c (SMergeInsert ref cols (chunk_Lo ch) (chunk_Hi ch))
                ("postgres: staged upsert: upsert " +:+ ref_string ref +:+ " chunk") (Ret None)
          end)
  end.

(** The statements of [stagedUpsertCopy] inside a transaction, and the call with [ownTxn]. *)
Definition staged_upsert_body (c : nat) (ref : TableRef) (cols : list string) (pk : list (string * string))
    : prog (option error) :=
  stmt_then c (SCreateStaging ref) "postgres: staged upsert: create staging"
    (r ← pipeCopy c ref cols (to_staging c ref cols);
     match r with
     | Some e => Ret (Some (Errorf ("postgres: staged upsert: copy " +:+ ref_string ref) e))
     | None => upsertFromStaging c ref cols pk
     end).

Definition stagedUpsertCopy (c : nat) (ref : TableRef) (cols : list string) (ownTxn : bool)
    : prog (option error) :=
  r ← do_call c (Exec (STableMeta ref));
  match r with
  | inl e => Ret (Some e)
  | inr table =>
      let pk := captureColsFor table in
      if decide (pk = [])
      then Ret (Some (Failure ("postgres: staged upsert: target " +:+ ref_string ref +:+ " has no usable key for ON CONFLICT")))
      else if ownTxn then own_tx c "postgres: staged upsert" (staged_upsert_body c ref cols pk)
      else staged_upsert_body c ref cols pk
  end.

(** [targetEmpty] *)
Definition targetEmpty (c : nat) (ref : TableRef) : prog (result bool) :=
  r ← do_call c (Exec (SExistsRow ref));
  Ret (match r with
       | inl e => inl (Errorf ("postgres: probe " +:+ ref_string ref +:+ " emptiness") e)
       | inr nonEmpty => inr (negb nonEmpty)
       end).

(** ** Loading a table ([copyOrUpsert]) *)

(** The plan of a table with a key on the target: the sink's key, and the chunks. *)
Definition plan_table (c : nat) (ref : TableRef) : prog (error + (list (string * string) * list Chunk)) :=
  r ← do_call c (Exec (STableMeta ref));
  match r with
  | inl e => Ret (inl e)
  | inr tgt =>
      let pk := captureColsFor tgt in
      if decide (pk = []) then Ret (inr (pk, []))
      else
        r ← do_call c (PlanChunks ref keyset_opts);
        Ret (match r with inl e => inl e | inr chunks => inr (pk, chunks) end)
  end.

Definition copyOrUpsert (c : nat) (ref : TableRef) (cols : list string) : prog (option error) :=
  r ← plan_table c ref;
  match r with
  | inl e => Ret (Some e)
  | inr (pk, chunks) =>
      if negb (allKeyset chunks) then
        e ← targetEmpty c ref;
        match e with
        | inl e => Ret (Some e)
        | inr true => pipeCopy c ref cols (to_table c ref cols)
        | inr false => stagedUpsertCopy c ref cols true
        end
      else for_all chunks (λ ch, copyRange c ref cols pk (chunk_Lo ch) (chunk_Hi ch))
  end.

(** ** Retries on a foreign key ([copyChildWithParentRetry], [copyRangeWithParentRetry]) *)

Definition cyclicCopyRetries : nat := 6.

(** In nanoseconds. *)
Definition cyclicRetryBackoff (attempt : nat) : Z :=
  let d := (500 * (Z.of_nat attempt + 1) * 1000000)%Z in
  if decide (d > 3 * 1000000000)%Z then (3 * 1000000000)%Z else d.

Definition zeroTable : Engine.Table := mkTable zeroRef [] None [] [] false EmptyString.

Section component.
Context (c : nat) (byRef : gmap TableRef Engine.Table) (cyclicCols : gmap TableRef (list string)).

(** The columns of pass 1. *)
Definition pass1_cols (ref : TableRef) : list string :=
  subtractCols (columns_of (default zeroTable (byRef !! ref))) (CyclicFk.cols_of cyclicCols ref).

(** Both retries are this loop over [load]: [tries] attempts are left. *)
Fixpoint parent_attempts (tries : nat) (load : prog (option error)) (parentRefs : list TableRef)
    (lastErr : option error) : prog (option error) :=
  match tries with
  | 0 => Ret (classified lastErr)
  | S tries' =>
      r ← load;
      match r with
      | None => Ret None
      | Some err =>
          if negb (IsTransientConstraint (classifyFKViolation err)) then Ret (Some err)
          else if decide (parentRefs = []) then Ret (Some (classifyFKViolation err))
          else
            r ← for_all parentRefs (λ p, copyOrUpsert c p (pass1_cols p));
            match r with
            | Some e => Ret (Some e)
            | None =>
                w ← do_call c (After (cyclicRetryBackoff (cyclicCopyRetries - tries)));
                match w with
                | inl ctxErr => Ret (Some ctxErr)
                | inr _ => parent_attempts tries' load parentRefs (Some err)
                end
            end
      end
  end.

Definition copyChildWithParentRetry (ref : TableRef) (cols : list string) (parentRefs : list TableRef)
    : prog (option error) :=
  parent_attempts cyclicCopyRetries (copyOrUpsert c ref cols) parentRefs None.

Definition copyRangeWithParentRetry (ref : TableRef) (cols : list string) (pk : list (string * string))
    (lo hi : option KeyValues) (parentRefs : list TableRef) : prog (option error) :=
  parent_attempts cyclicCopyRetries (copyRange c ref cols pk lo hi) parentRefs None.

Definition copyTableChunkedWithParentRetry (ref : TableRef) (cols : list string) (parentRefs : list TableRef)
    : prog (option error) :=
  r ← plan_table c ref;
  match r with
  | inl e => Ret (Some e)
  | inr (pk, chunks) =>
      if negb (allKeyset chunks) then copyChildWithParentRetry ref cols parentRefs
      else for_all chunks (λ ch, copyRangeWithParentRetry ref cols pk (chunk_Lo ch) (chunk_Hi ch) parentRefs)
  end.

(** ** Pass 2 ([fillFKRange], [fillFKColumns]) *)

Definition fillFKRange (ref : TableRef) (pk : list (string * string)) (fkCols : list string)
    (lo hi : option KeyValues) : prog (option error) :=
  let fillCols := pk.*1 ++ fkCols in
  own_tx c "postgres: null-fill pass 2"
    (stmt_then c (SCreateStaging ref) "postgres: null-fill pass 2: staging"
       (r ← pipeCopyWhere c ref fillCols lo hi (to_staging c ref fillCols);
        match r with
        | Some e => Ret (Some (Errorf "postgres: null-fill pass 2: copy" e))
        | None => stmt_then c (SUpdateFrom ref fkCols) "postgres: null-fill pass 2: update" (Ret None)
        end)).

(** [pk] is the source's key here; without one there is no plan and one range. *)
Definition fillFKColumns (ref : TableRef) (pk : list (string * string)) (fkCols : list string)
    : prog (option error) :=
  r ← do_call c (Exec (STableMeta ref));
  match r with
  | inl e => Ret (Some e)
  | inr _ =>
      r ← (if decide (pk = []) then Ret (inr []) else do_call c (PlanChunks ref keyset_opts) : prog (result (list Chunk)));
      match r with
      | inl e => Ret (Some e)
      | inr chunks =>
          if negb (allKeyset chunks) then fillFKRange ref pk fkCols None None
          else
            for_all chunks (λ ch,
              match keysetPredicate pk (chunk_Lo ch) (chunk_Hi ch) with
              | Some e => Ret (Some e)
              | None => fillFKRange ref pk fkCols (chunk_Lo ch) (chunk_Hi ch)
              end)
      end
  end.
End component.

(** ** The component ([nullFillComponent], [LoadCyclicDeferred], [CopyCyclicComponent]) *)

Definition wrap (msg : string) (r : option error) : option error := Errorf msg <$> r.

Definition fill_member (c : nat) (byRef : gmap TableRef Engine.Table) (cyclicCols : gmap TableRef (list string))
    (ref : TableRef) : prog (option error) :=
  let fkCols := CyclicFk.cols_of cyclicCols ref in
  if decide (fkCols = []) then Ret None
  else
    let pk := captureColsFor (default zeroTable (byRef !! ref)) in
    if decide (pk = [])
    then Ret (Some (Failure ("postgres: cyclic null-fill: " +:+ ref_string ref +:+ " has no usable key to fill by")))
    else
      r ← fillFKColumns c ref pk fkCols;
      Ret (wrap ("postgres: cyclic null-fill pass 2 (" +:+ ref_string ref +:+ ")") r).

Definition nullFillComponent (c : nat) (members : list Engine.Table) (cyc : list CyclicFK) : prog (option error) :=
  let byRef := byRefOf members in
  let cyclicCols := cyclicColsByTable cyc in
  let cyclicEdge := cyclicEdgesOf cyc in
  let order := nonCyclicTopoOrder members cyclicEdge in
  let parents := nonCyclicParents members cyclicEdge in
  r ← for_all order (λ ref,
        r ← copyTableChunkedWithParentRetry c byRef cyclicCols ref (pass1_cols byRef cyclicCols ref)
              (adj_of parents ref);
        Ret (wrap ("postgres: cyclic null-fill pass 1 (" +:+ ref_string ref +:+ ")") r));
  match r with
  | Some e => Ret (Some e)
  | None => for_all order (fill_member c byRef cyclicCols)
  end.

(** [Source.tableMeta] *)
Definition srcTableMeta (c : nat) (ref : TableRef) : prog (result Engine.Table) :=
  r ← do_call c (Introspect (mkSelection [ref_string ref] []));
  Ret (match r with
       | inl e => inl e
       | inr tabs =>
           match filter (λ t, tbl_Ref t = ref) tabs with
           | t :: _ => inr t
           | [] => inl (Failure ("postgres: table " +:+ ref_string ref +:+ " not found on source"))
           end
       end).

Definition load_deferred (c : nat) (empty : gmap TableRef bool) (ref : TableRef) : prog (option error) :=
  r ← srcTableMeta c ref;
  match r with
  | inl e => Ret (Some e)
  | inr table =>
      let cols := columns_of table in
      r ← (if default false (empty !! ref) then pipeCopy c ref cols (to_table c ref cols)
           else stagedUpsertCopy c ref cols false);
      Ret (wrap ("postgres: cyclic deferred: copy " +:+ ref_string ref) r)
  end.

Definition probe (c : nat) (ref : TableRef) (empty : gmap TableRef bool) : prog (error + gmap TableRef bool) :=
  r ← targetEmpty c ref;
  Ret (match r with
       | inl e => inl (Errorf "postgres: cyclic deferred" e)
       | inr e => inr (<[ref := e]> empty)
       end).

Definition LoadCyclicDeferred (c : nat) (tables : list TableRef) : prog (option error) :=
  r ← for_each tables (probe c) ∅;
  match r with
  | inl e => Ret (Some e)
  | inr empty =>
      own_tx c "postgres: cyclic deferred"
        (stmt_then c SSetDeferred "postgres: cyclic deferred: defer constraints"
           (for_all tables (load_deferred c empty)))
  end.

(** [orderMembers] *)
Definition orderMembers (members : list Engine.Table) : list TableRef := sortRefs (tbl_Ref <$> members).

Definition CopyCyclicComponent (c : nat) (tables : list TableRef) : prog (option error) :=
  r ← do_call c (Introspect (mkSelection (ref_string <$> tables) []));
  match r with
  | inl e => Ret (Some (Errorf "postgres: cyclic copy: introspect" e))
  | inr schema =>
      let members := filter (λ t, tbl_Ref t ∈ tables) schema in
      let cyc := classifyCyclicFKs members in
      if anyBlockedCyclicFK cyc
      then Ret (Some (Failure "postgres: cyclic copy: component has a NOT NULL non-deferrable cyclic FK; make it DEFERRABLE or break the cycle"))
      else
        r ← (if allDeferrable cyc then LoadCyclicDeferred c (orderMembers members)
             else nullFillComponent c members cyc);
        Ret (classified r)
  end.

(** [selfRefFKCols] and [LoadCyclicNullFill], the two passes of one self-referential table. *)
Definition selfRefFKCols (table : Engine.Table) : list string :=
  foldl (λ out fk, if decide (fk_Parent fk = tbl_Ref table) then add_cols out (fk_ChildCols fk) else out)
    [] (tbl_ForeignKeys table).

Definition LoadCyclicNullFill (c : nat) (ref : TableRef) : prog (option error) :=
  r ← srcTableMeta c ref;
  match r with
  | inl e => Ret (Some e)
  | inr table =>
      let fkCols := selfRefFKCols table in
      if decide (fkCols = [])
      then Ret (Some (Failure ("postgres: null-fill: " +:+ ref_string ref +:+ " has no self-referential FK columns")))
      else
        let pk := captureColsFor table in
        if decide (pk = []) then Ret (Some (Failure ("postgres: null-fill: " +:+ ref_string ref +:+ " has no usable key")))
        else
          r ← copyOrUpsert c ref (subtractCols (columns_of table) fkCols);
          match r with
          | Some e => Ret (Some (Errorf ("postgres: null-fill pass 1 (" +:+ ref_string ref +:+ ")") e))
          | None => fillFKColumns c ref pk fkCols
          end
  end.
(** ** Safety: rows in part *)

Section safety.
Context `{Sch : Schema} (T L G : TableRef → Prop) (sync : string) (target : TargetID) (c : nat).

Abbreviation ok := (CInv T L G sync target).
Abbreviation csafe := (safe world_step world_requires ok).

(** [o] has the source's values in the columns [cs], or the key is dirty. *)
Definition agree_at (cs : list string) (v : astate) (t : TableRef) (k : KeyValues) (o : option Row) : Prop :=
  dirty v t k ∨ proj cs <$> o = proj cs <$> a_src v !! (t, k).

Definition agree (cs : list string) (v : astate) (t : TableRef) (k : KeyValues) : Prop :=
  agree_at cs v t k (a_tgt v !! (t, k)).

Lemma good_agree v t k : good v t k ↔ agree (cols_of t) v t k.
Proof. unfold good, agree, agree_at, synced. tauto. Qed.

(** What an upsert of current rows may do to the rows [f]: leave a key, touch a dirty one,
    or write one that the source has, keeping the columns that agree. *)
Definition vstep (v : astate) (f f' : tkey → option Row) : Prop :=
  ∀ t k, f' (t, k) = f (t, k) ∨ dirty v t k ∨
    L t ∧ is_Some (a_src v !! (t, k)) ∧
    ∀ cs, proj cs <$> f (t, k) = proj cs <$> a_src v !! (t, k) →
          proj cs <$> f' (t, k) = proj cs <$> a_src v !! (t, k).

Lemma vstep_refl v f : vstep v f f.
Proof. intros t k. by left. Qed.

Lemma vstep_trans v f f' f'' : vstep v f f' → vstep v f' f'' → vstep v f f''.
Proof.
  intros H1 H2 t k. destruct (H2 t k) as [E2|[Hd|(HL & Hs & H)]]; [rewrite E2; apply H1|by auto|].
  destruct (H1 t k) as [E1|[Hd|(_ & _ & H')]]; [rewrite E1 in H; by auto 6|by auto|]. right. right.
  split_and!; [done..|]. intros cs Hcs. by apply H, H'.
Qed.

Lemma agree_at_calm cs v v' t k o :
  pend_ok v → calm v v' → agree_at cs v t k o → agree_at cs v' t k o.
Proof.
  intros Hp C [Hd|Ha]; [left; by eapply dirty_calm|].
  destruct (ev_src _ _ _ (calm_evolve _ _ C t) k) as [E|(i & _ & Hi)]; [right; by rewrite E|left; by exists i].
Qed.

Lemma vstep_calm v v' f f' : pend_ok v → calm v v' → vstep v f f' → vstep v' f f'.
Proof.
  intros Hp C Hv t k. destruct (Hv t k) as [E|[Hd|(HL & Hs & H)]]; [by left|right; left; by eapply dirty_calm|].
  destruct (ev_src _ _ _ (calm_evolve _ _ C t) k) as [E|(i & _ & Hi)]; [|right; left; by exists i].
  right. right. by rewrite E.
Qed.

Lemma vstep_agree cs v f f' t k :
  vstep v f f' → agree_at cs v t k (f (t, k)) → agree_at cs v t k (f' (t, k)).
Proof.
  intros Hv [Hd|Ha]; [by left|]. destruct (Hv t k) as [->|[Hd|(_ & _ & H)]]; [by right|by left|right; by apply H].
Qed.

(** *** Steps of the copy *)

Definition amono (x x' : world) : Prop := ∀ cs t k, agree cs x.1 t k → agree cs x'.1 t k.

Record stepped (x x' : world) : Prop := {
  st_ok : ok x';
  st_amono : amono x x';
  st_store : x'.2 = x.2
}.

Lemma stepped_refl x : ok x → stepped x x.
Proof. intros Hx. split; [done|by intros ???|done]. Qed.

Lemma stepped_trans x y z : stepped x y → stepped y z → stepped x z.
Proof. intros [_ M1 S1] [O2 M2 S2]. split; [done|intros cs t k H; by apply M2, M1|congruence]. Qed.

Lemma stepped_good x x' t k : stepped x x' → good x.1 t k → good x'.1 t k.
Proof. rewrite !good_agree. intros H. apply H. Qed.

Lemma calm_stepped x x' : ok x → calm x.1 x'.1 → x'.2 = x.2 → stepped x x'.
Proof.
  intros Hx C Hs. destruct (calm_CInv _ _ _ _ _ _ _ Hx C Hs) as [Hx' _]. split; [done| |done].
  intros cs t k H. unfold agree. rewrite (calm_tgt _ _ C). eapply agree_at_calm; [apply Hx|done|done].
Qed.

(** Publishing rows that are a [vstep] away. *)
Lemma publish v s tgt' txs :
  ok (v, s) → vstep v (λ tk, a_tgt v !! tk) (λ tk, tgt' !! tk) →
  stepped (v, s) (set_tx (set_tgt v tgt') txs, s).
Proof.
  intros [Hp Hr Hg Hc] Hv. set (v' := set_tx (set_tgt v tgt') txs). simpl in *.
  assert (∀ cs t k, agree cs v t k → agree cs v' t k) as Hm
    by (intros cs t k H; apply (vstep_agree cs v _ _ t k Hv H)).
  assert (∀ t k, good v t k → good v' t k) as Hm' by (intros t k; rewrite !good_agree; apply Hm).
  split; [split; simpl; auto|done..].
  intros t k Ht. destruct (Hr t k Ht) as [?|Hrow]; [left; by apply Hm'|].
  destruct (Hv t k) as [->|[?|(? & ? & _)]]; [by right|left; by right|right; by right].
Qed.

(** The rule for the calls that leave the target alone. *)
Lemma safe_still o Q x :
  calm_call o → is_store_call o = false → requires c o x.1 → ok x →
  (∀ r x', stepped x x' → calm x.1 x'.1 →
     (∃ v1 v2, rely x.1 v1 ∧ (effect c o v1 r v2 ∨ may_fail o ∧ (∃ e, r = inl e) ∧ v2 = v1) ∧ rely v2 x'.1) →
     Q r x') →
  csafe (do_call c o) Q x.
Proof.
  intros Ho Hst Hreq Hx HQ. apply safe_call; [done|unfold world_requires; by rewrite Hst|].
  intros r x'. unfold world_step. rewrite Hst. intros [Hc Hs].
  destruct (calm_contract _ _ _ _ _ Ho (ci_pend _ _ _ _ _ _ Hx) Hc) as [C _].
  pose proof (calm_stepped x x' Hx C Hs) as Hst'. split; [apply Hst'|]. by apply HQ.
Qed.

(** *** The open transaction *)

Definition vis (v : astate) (tx : pgApplyTx) : tkey → option Row := visible tx (a_tgt v).

Record open_tx (v : astate) (tx : pgApplyTx) : Prop := {
  ot_open : a_tx v !! c = Some tx;
  ot_step : vstep v (λ tk, a_tgt v !! tk) (vis v tx)
}.

Lemma visible_writes tx tx' tgt tk : tx_writes tx' = tx_writes tx → visible tx' tgt tk = visible tx tgt tk.
Proof. intros E. unfold visible. by rewrite E. Qed.

Lemma calm_vis v v' tx : calm v v' → vis v' tx = vis v tx.
Proof. intros C. unfold vis. by rewrite (calm_tgt _ _ C). Qed.

(** A statement on the open transaction: it fails, or the transaction becomes [f tx]. *)
Lemma safe_stmt q (f : pgApplyTx → option pgApplyTx) Q x tx :
  calm_call (Exec q) → ok x → a_tx x.1 !! c = Some tx →
  (∀ v r v', a_tgt v = a_tgt x.1 → a_tx v !! c = Some tx → stmt_effect c q v r v' →
     ∃ tx', f tx = Some tx' ∧ a_tx v' !! c = Some tx') →
  (∀ e x', stepped x x' → calm x.1 x'.1 → a_tx x'.1 !! c = Some tx → Q (inl e) x') →
  (∀ r x' tx', stepped x x' → calm x.1 x'.1 → f tx = Some tx' → a_tx x'.1 !! c = Some tx' → Q r x') →
  csafe (do_call c (Exec q)) Q x.
Proof.
  intros Hq Hx Htx Hf HQe HQ. apply safe_still; [done..|].
  intros r x' Hst C (v1 & v2 & R1 & [He|(_ & [e ->] & ->)] & R2).
  - destruct (Hf v1 r v2) as (tx' & Hf' & Htx'); [by apply rely_tgt|by rewrite (rely_tx _ _ R1)|done|].
    apply (HQ r x' tx'); [done..|]. by rewrite (rely_tx _ _ R2).
  - apply HQe; [done..|]. by rewrite (rely_tx _ _ R2), (rely_tx _ _ R1).
Qed.

(** ** Staged rows *)

(** Rows as the source has them, but for dirty keys, in a range. *)
Definition fresh_rows (cols : list string) (t : TableRef) (lo hi : option KeyValues) (v : astate)
    (stg : gmap KeyValues Row) : Prop :=
  ∀ k, if decide (in_range (key_lt t) lo hi k)
       then dirty v t k ∨ stg !! k = proj cols <$> a_src v !! (t, k)
       else stg !! k = None.

Lemma fresh_rows_calm cols t lo hi v v' stg :
  pend_ok v → calm v v' → fresh_rows cols t lo hi v stg → fresh_rows cols t lo hi v' stg.
Proof.
  intros Hp C Hf k. specialize (Hf k). case_decide; [|done].
  destruct Hf as [Hd|Hf]; [left; by eapply dirty_calm|].
  destruct (ev_src _ _ _ (calm_evolve _ _ C t) k) as [E|(i & _ & Hi)]; [right; by rewrite E|left; by exists i].
Qed.

Lemma fresh_read cols t lo hi v :
  fresh_rows cols t lo hi v (copyChunkRows (key_lt t) cols (a_src v) (mkChunk t ChunkKeyset lo hi)).
Proof. intros k. rewrite lookup_copyChunkRows. simpl. case_decide; [by right|done]. Qed.

(** A staged row is one of the source's. *)
Lemma fresh_row cols t lo hi v stg k r :
  fresh_rows cols t lo hi v stg → stg !! k = Some r →
  dirty v t k ∨ ∃ r0, a_src v !! (t, k) = Some r0 ∧ r = proj cols r0.
Proof.
  intros Hf Hr. specialize (Hf k). rewrite Hr in Hf. case_decide; [|done].
  destruct Hf as [?|Hf]; [by left|right]. symmetry in Hf. apply fmap_Some in Hf as (r0 & Hr0 & ->). eauto.
Qed.

(** Setting columns to the source's keeps every column that agrees. *)
Lemma set_cols_agree cs cols cols' (r0 old : Row) :
  (∀ x, x ∈ cols → x ∈ cols') → proj cs old = proj cs r0 →
  proj cs (set_cols cols (proj cols' r0) old) = proj cs r0.
Proof.
  intros Hsub Ho. apply map_eq. intros x. apply (f_equal (.!! x)) in Ho.
  rewrite !lookup_proj in *. case_decide; [|done]. rewrite lookup_set_cols.
  case_decide; [|done]. rewrite lookup_proj, decide_True; auto.
Qed.

(** Rows [f] upserted with fresh rows of [t], where [P] holds. *)
Definition upserted (t : TableRef) (cols : list string) (P : KeyValues → Prop) (stg : gmap KeyValues Row)
    (f f' : tkey → option Row) : Prop :=
  ∀ t' k, (f' (t', k) = f (t', k) ∧ (t' = t → P k → stg !! k = None)) ∨
    t' = t ∧ P k ∧ ∃ r, stg !! k = Some r ∧ f' (t, k) = Some (set_cols cols r (default (dflt_of t) (f (t, k)))).

Lemma upserted_vstep t cols P lo hi v stg f f' :
  L t → fresh_rows cols t lo hi v stg → upserted t cols P stg f f' → vstep v f f'.
Proof.
  intros HL Hf Hu t' k. destruct (Hu t' k) as [[E _]|(-> & _ & r & Hr & E)]; [by left|].
  destruct (fresh_row _ _ _ _ _ _ _ _ Hf Hr) as [Hd|(r0 & Hr0 & ->)]; [by auto|]. right. right.
  rewrite Hr0, E. split_and!; [done|by eexists|]. intros cs Hcs. simpl. f_equal.
  destruct (f (t, k)) as [old|]; [|done]. simpl. apply set_cols_agree; [done|]. by injection Hcs.
Qed.

(** Where the upsert goes, the loaded columns agree: with a key that the source has not,
    nothing is left on the target. *)
Lemma upserted_agree t cols (P : KeyValues → Prop) lo hi x stg f f' k :
  T t → ok x → vstep x.1 (λ tk, a_tgt x.1 !! tk) f → fresh_rows cols t lo hi x.1 stg →
  upserted t cols P stg f f' → P k → in_range (key_lt t) lo hi k → agree_at cols x.1 t k (f' (t, k)).
Proof.
  intros HT Hx Hv Hf Hu HP Hk. destruct (Hu t k) as [[E Hn]|(_ & _ & r & Hr & E)]; rewrite E.
  - specialize (Hf k). rewrite decide_True, Hn in Hf by done. destruct Hf as [Hd|Hf]; [by left|].
    symmetry in Hf. apply fmap_None in Hf.
    destruct (Hv t k) as [->|[Hd|(_ & Hs & _)]]; [|by left|rewrite Hf in Hs; by destruct Hs].
    destruct (ci_row _ _ _ _ _ _ Hx t k HT) as [[Hs|Hd]|[Ht|[_ Hs]]]; [|by left|right; by rewrite Hf, Ht|].
    + right. unfold synced in Hs. rewrite Hf in *. apply fmap_None in Hs. by rewrite Hs.
    + rewrite Hf in Hs. by destruct Hs.
  - destruct (fresh_row _ _ _ _ _ _ _ _ Hf Hr) as [Hd|(r0 & Hr0 & ->)]; [by left|]. right.
    rewrite Hr0. simpl. f_equal. by rewrite proj_set_cols, proj_proj.
Qed.

Lemma upsert_tx_upserted v t cols stg tx :
  upserted t cols (λ _, True) stg (vis v tx) (vis v (upsert_tx dflt_of (a_tgt v) t cols stg tx)).
Proof.
  intros t' k. unfold vis. rewrite !upsert_tx_visible. case_decide as Ht; [subst t'|by left].
  destruct (stg !! k) as [r|] eqn:E; [right|by left]. rewrite decide_True by done. eauto.
Qed.

Lemma mergeInsert_upserted v t cols lo hi stg tx tx' :
  tx_staging tx !! t = Some stg → mergeInsert dflt_of (a_tgt v) t cols (in_range (key_lt t) lo hi) tx = Some tx' →
  tx_staging tx' = tx_staging tx ∧
  upserted t cols (in_range (key_lt t) lo hi) stg (vis v tx) (vis v tx').
Proof.
  intros Hs Hm. split; [by apply (mergeInsert_visible _ _ _ _ _ _ _ _ t [] Hs Hm)|].
  intros t' k. unfold vis. destruct (mergeInsert_visible _ _ _ _ _ _ _ _ t' k Hs Hm) as [_ ->].
  case_decide as Hd; [destruct Hd as [-> Hd]|left; naive_solver].
  destruct (stg !! k) as [r|] eqn:E; [right|by left]. split_and!; [done..|]. exists r. split; [done|].
  destruct (mergeInsert_visible _ _ _ _ _ _ _ _ t k Hs Hm) as [_ ->]. by rewrite decide_True, E by done.
Qed.

(** Pass 2: the cyclic columns of fresh rows, on rows whose other columns agree. *)
Lemma updateFrom_vstep v t fkCols cols lo hi stg tx tx' :
  L t → (∀ x, x ∈ fkCols → x ∈ cols) → fresh_rows cols t lo hi v stg →
  tx_staging tx !! t = Some stg → updateFrom (a_tgt v) t fkCols tx = Some tx' →
  vstep v (vis v tx) (vis v tx').
Proof.
  intros HL Hsub Hf Hs Hu t' k. unfold vis. rewrite (updateFrom_visible _ _ _ _ _ _ t' k Hs Hu).
  case_decide as Ht; [subst t'|by left]. destruct (stg !! k) as [r|] eqn:E; [|by left].
  destruct (fresh_row _ _ _ _ _ _ _ _ Hf E) as [Hd|(r0 & Hr0 & ->)]; [by auto|]. right. right.
  rewrite Hr0. split_and!; [done|by eexists|]. intros cs Hcs.
  destruct (visible tx (a_tgt v) (t, k)) as [old|]; [|done]. simpl in *. f_equal.
  apply set_cols_agree; [done|]. by injection Hcs.
Qed.

Lemma updateFrom_agree v t nc cols lo hi stg tx tx' k :
  (∀ x, x ∈ nc → x ∈ cols) → fresh_rows cols t lo hi v stg →
  tx_staging tx !! t = Some stg → updateFrom (a_tgt v) t nc tx = Some tx' →
  in_range (key_lt t) lo hi k → agree_at (subtractCols (cols_of t) nc) v t k (vis v tx (t, k)) →
  agree_at (cols_of t) v t k (vis v tx' (t, k)).
Proof.
  intros Hsub Hf Hs Hu Hk [Hd|Ha]; [by left|]. unfold vis in *.
  rewrite (updateFrom_visible _ _ _ _ _ _ t k Hs Hu), decide_True by done.
  specialize (Hf k). rewrite decide_True in Hf by done. destruct Hf as [Hd|Hf]; [by left|]. right.
  rewrite Hf. destruct (a_src v !! (t, k)) as [r0|]; simpl in *; [|by apply fmap_None in Ha as ->].
  apply fmap_Some in Ha as (old & Hold & Ha). rewrite Hold. simpl. f_equal.
  apply map_eq. intros x. apply (f_equal (.!! x)) in Ha. rewrite !lookup_proj in *.
  destruct (decide (x ∈ cols_of t)) as [Hx|]; [|done]. rewrite lookup_set_cols. destruct (decide (x ∈ nc)) as [Hnc|Hnc].
  - rewrite lookup_proj, decide_True; [done|]. by apply Hsub.
  - rewrite !(decide_True (P := x ∈ subtractCols (cols_of t) nc)) in Ha by (by apply list_elem_of_filter). done.
Qed.
(** ** Transactions *)

(** Columns of keys that are to agree. *)
Definition holds (S : list string → TableRef → KeyValues → Prop) (v : astate) (f : tkey → option Row) : Prop :=
  ∀ cs t k, S cs t k → agree_at cs v t k (f (t, k)).

Lemma holds_calm S v v' f : pend_ok v → calm v v' → holds S v f → holds S v' f.
Proof. intros Hp C H cs t k Hs. eapply agree_at_calm; [done..|]. by apply H. Qed.

Lemma holds_vstep S v f f' : vstep v f f' → holds S v f → holds S v f'.
Proof. intros Hv H cs t k Hs. eapply vstep_agree; [done|]. by apply H. Qed.

Lemma open_tx_calm v v' tx :
  pend_ok v → calm v v' → a_tx v' !! c = Some tx → vstep v (λ tk, a_tgt v !! tk) (vis v tx) → open_tx v' tx.
Proof.
  intros Hp C Ho Hv. split; [done|]. rewrite (calm_vis _ _ _ C), (calm_tgt _ _ C). by eapply vstep_calm.
Qed.

(** [ROLLBACK] ends the transaction, whatever it reports. *)
Lemma rollback_safe Q x :
  ok x → (∀ r x', stepped x x' → a_tx x'.1 !! c = None → Q r x') → csafe (do_call c Rollback) Q x.
Proof.
  intros Hx HQ. apply safe_still; [done..|]. intros r x' Hst C (v1 & v2 & R1 & [->|[Hm _]] & R2); [|by destruct Hm].
  apply HQ; [done|]. rewrite (rely_tx _ _ R2). simpl. by rewrite lookup_delete_eq.
Qed.

(** [COMMIT] publishes the transaction, or nothing. *)
Lemma commit_safe S Q x tx :
  ok x → open_tx x.1 tx → holds S x.1 (vis x.1 tx) →
  (∀ e x', stepped x x' → Q (inl e) x') →
  (∀ u x', stepped x x' → a_tx x'.1 !! c = None → holds S x'.1 (λ tk, a_tgt x'.1 !! tk) → Q (inr u) x') →
  csafe (do_call c Commit) Q x.
Proof.
  intros Hx [Ho Hv] HS HQe HQ. apply safe_call; [done..|]. intros r x'. unfold world_step. cbn [is_store_call].
  intros [(v1 & v2 & R1 & He & R2) Hs]. pose proof (rely_tx _ _ R1) as Etx. apply rely_calm in R1.
  pose proof (rely_tx _ _ R2) as Etx2. apply rely_calm in R2.
  pose proof (ci_pend _ _ _ _ _ _ Hx) as Hp.
  pose proof (calm_stepped x (v1, x.2) Hx R1 eq_refl) as S1.
  assert (∀ v, same_data v1 v → stepped x (v, x.2)) as Hquiet.
  { intros v Hsd. eapply stepped_trans; [exact S1|]. apply calm_stepped; [apply S1|by apply same_data_calm; [apply R1|]|done]. }
  destruct He as [[(tx' & Hx' & ->)|[[e ->] ->]]|(_ & [e ->] & ->)].
  - rewrite Etx, Ho in Hx'. injection Hx' as <-.
    set (tgt' := commit tx (a_tgt v1)) in *. set (w := set_tx (set_tgt v1 tgt') (delete c (a_tx v1))) in *.
    assert (∀ tk, tgt' !! tk = vis x.1 tx tk) as Hvis
      by (intros tk; unfold tgt'; by rewrite lookup_commit, (calm_tgt _ _ R1)).
    assert (stepped (v1, x.2) (w, x.2)) as S2.
    { apply publish; [apply S1|]. apply (vstep_calm x.1); [done..|]. rewrite (calm_tgt _ _ R1).
      intros t k. rewrite Hvis. apply Hv. }
    assert (stepped x x') as S3.
    { eapply stepped_trans; [exact S1|]. eapply stepped_trans; [exact S2|]. by apply calm_stepped; [apply S2|..]. }
    split; [apply S3|]. destruct r as [e|u]; [by apply HQe|]. apply HQ; [done| |].
    + rewrite Etx2. simpl. by rewrite lookup_delete_eq.
    + rewrite (calm_tgt _ _ R2). apply (holds_calm S w); [apply S2|done|].
      intros cs t k HSk. simpl. rewrite Hvis. destruct (holds_calm S x.1 v1 _ Hp R1 HS cs t k HSk) as [Hd|Ha]; [by left|by right].
  - assert (stepped x x') as S3.
    { eapply stepped_trans; [by apply (Hquiet (set_tx v1 (delete c (a_tx v1))))|].
      apply calm_stepped; [by apply Hquiet|done..]. }
    split; [apply S3|by apply HQe].
  - assert (stepped x x') as S3 by (eapply stepped_trans; [exact S1|]; by apply calm_stepped; [apply S1|..]).
    split; [apply S3|by apply HQe].
Qed.

(** What a body leaves: an open transaction, with the rows [S] when it succeeded. *)
Definition body_post (S : list string → TableRef → KeyValues → Prop) (x : world) (r : option error) (x' : world) : Prop :=
  stepped x x' ∧ ∃ tx, open_tx x'.1 tx ∧ (r = None → holds S x'.1 (vis x'.1 tx)).

(** What the whole leaves: no transaction, and the rows when it succeeded. *)
Definition tx_post (S : list string → TableRef → KeyValues → Prop) (x : world) (r : option error) (x' : world) : Prop :=
  stepped x x' ∧ a_tx x'.1 !! c = None ∧ (r = None → holds S x'.1 (λ tk, a_tgt x'.1 !! tk)).

Lemma own_tx_safe S msg body x :
  ok x → a_tx x.1 !! c = None →
  (∀ x1, stepped x x1 → calm x.1 x1.1 → a_tx x1.1 !! c = Some (mkTx ∅ ∅ ∅) → csafe body (body_post S x1) x1) →
  csafe (own_tx c msg body) (tx_post S x) x.
Proof.
  intros Hx Hno Hbody. unfold own_tx. apply safe_bind. apply safe_still; [done..|].
  intros r x1 S1 C1 (v1 & v2 & R1 & He & R2).
  destruct r as [e|u].
  { assert (a_tx v2 !! c = None) as E.
    { destruct He as [[[=] _]|(_ & _ & ->)]. by rewrite (rely_tx _ _ R1). }
    apply safe_ret; [apply S1|]. split_and!; [done|by rewrite (rely_tx _ _ R2)|done]. }
  destruct He as [[_ ->]|(_ & [e [=]] & _)].
  assert (a_tx x1.1 !! c = Some (mkTx ∅ ∅ ∅)) as Htx.
  { rewrite (rely_tx _ _ R2). simpl. rewrite lookup_insert_eq. rewrite (rely_tx _ _ R1), Hno. done. }
  apply safe_bind. eapply safe_mono; [|by apply Hbody].
  intros r x2 _ (S2 & tx & Hopen & HS). pose proof (stepped_trans _ _ _ S1 S2) as S12.
  destruct r as [e|].
  { apply safe_bind. apply rollback_safe; [apply S2|]. intros _ x3 S3 Hno3. apply safe_ret; [apply S3|].
    split_and!; [by eapply stepped_trans|done..]. }
  apply safe_bind. apply (commit_safe S _ _ tx); [apply S2|done|by apply HS|..].
  - intros e x3 S3. apply safe_bind. apply rollback_safe; [apply S3|]. intros _ x4 S4 Hno4.
    apply safe_ret; [apply S4|]. split_and!; [|done..].
    eapply stepped_trans; [exact S12|]. by eapply stepped_trans.
  - intros u' x3 S3 Hno3 HS3. apply safe_ret; [apply S3|]. split_and!; [by eapply stepped_trans|done..].
Qed.
(** ** One range *)

(** Create the staging table and stream rows into it. *)
Lemma stage_safe ref cols lo hi msg msg' (k : option error → prog (option error)) Q x tx :
  ok x → open_tx x.1 tx → tx_staging tx !! ref = None →
  (∀ e x' tx', stepped x x' → open_tx x'.1 tx' → Q (Some e) x') →
  (∀ e x' tx', stepped x x' → open_tx x'.1 tx' → csafe (k (Some e)) Q x') →
  (∀ x' tx' stg, stepped x x' → calm x.1 x'.1 → open_tx x'.1 tx' → tx_writes tx' = tx_writes tx →
     tx_staging tx' = <[ref := stg]> (tx_staging tx) → fresh_rows cols ref lo hi x'.1 stg → csafe (k None) Q x') →
  csafe (stmt_then c (SCreateStaging ref) msg (r ← pipe (copy_to c msg' ref cols lo hi) (to_staging c ref cols); k r)) Q x.
Proof.
  intros Hx [Ho Hv] Hns HQe Hke Hk. pose proof (ci_pend _ _ _ _ _ _ Hx) as Hp. unfold stmt_then. apply safe_bind.
  apply (safe_stmt _ (createStaging ref) _ _ tx); [done..| | |].
  { intros v r v' _ Hvx (tx0 & tx' & Htx0 & Hf & _ & ->). rewrite Hvx in Htx0. injection Htx0 as <-. exists tx'.
    split; [done|]. simpl. by rewrite lookup_insert_eq. }
  { intros e x1 S1 C1 Ho1. apply safe_ret; [apply S1|]. apply (HQe _ _ tx); [done|]. by apply (open_tx_calm x.1). }
  intros r x1 tx1 S1 C1 Hc1 Ho1. unfold createStaging in Hc1. rewrite Hns in Hc1. injection Hc1 as <-.
  set (tx1 := mkTx _ _ _) in *.
  assert (open_tx x1.1 tx1) as O1 by by apply (open_tx_calm x.1).
  destruct r as [e|u]; [apply safe_ret; [apply S1|]; by apply (HQe _ _ tx1)|].
  apply safe_bind. unfold pipe. apply safe_bind. unfold copy_to. apply safe_bind.
  apply safe_still; [done|done|done|apply S1|]. intros rd0 x2 S2 C2 (v1 & v2 & R1 & He & R2).
  assert (open_tx x2.1 tx1) as O2.
  { apply (open_tx_calm x1.1); [apply S1|done| |apply O1]. rewrite (rely_tx _ _ R2).
    destruct He as [[-> _]|(_ & _ & ->)]; by rewrite (rely_tx _ _ R1). }
  assert (∀ stg, rd0 = inr stg → fresh_rows cols ref lo hi x2.1 stg) as Hfresh.
  { intros stg ->. destruct He as [[-> [= ->]]|(_ & [e [=]] & _)]. apply rely_calm in R1, R2.
    apply (fresh_rows_calm _ _ _ _ v1); [apply R1|done|apply fresh_read]. }
  apply safe_ret; [apply S2|].
  set (rd := read_err msg' rd0).
  assert (∀ stg, rd = inr stg → rd0 = inr stg) as Hrd by (intros stg; unfold rd; by destruct rd0; intros [= ->]).
  clearbody rd.
  pose proof (stepped_trans _ _ _ S1 S2) as S12. apply safe_bind. unfold to_staging.
  apply (safe_stmt _ (λ tx, match rd with inr stg => copyStaging ref stg tx | inl _ => None end) _ _ tx1);
    [done|apply S2|apply O2| | |].
  - intros v r v' _ Hvx (stg & -> & tx0 & tx' & Htx0 & Hf & _ & ->). rewrite Hvx in Htx0. injection Htx0 as <-.
    exists tx'. split; [done|]. simpl. by rewrite lookup_insert_eq.
  - intros e x3 S3 C3 Ho3. apply safe_ret; [apply S3|].
    assert (∀ e', csafe (k (Some e')) Q x3) as Hfail.
    { intros e'. apply (Hke _ _ tx1); [by eapply stepped_trans|]. apply (open_tx_calm x2.1); [apply S2|done..|apply O2]. }
    destruct rd; apply Hfail.
  - intros r x3 tx3 S3 C3 Hf Ho3. destruct rd as [e|stg]; [done|]. unfold copyStaging in Hf. simpl in Hf.
    rewrite lookup_insert_eq in Hf. injection Hf as Hf.
    assert (open_tx x3.1 tx3) as O3.
    { apply (open_tx_calm x2.1); [apply S2|done..|]. rewrite <-Hf. apply O2. }
    pose proof (stepped_trans _ _ _ S12 S3) as S13. apply safe_ret; [apply S3|].
    destruct r as [e|u']; [by apply (Hke _ _ tx3)|].
    apply (Hk _ tx3 stg); [done|by eapply calm_trans, calm_trans|done|by rewrite <-Hf| |].
    + rewrite <-Hf. simpl. by rewrite insert_insert_eq, map_union_empty.
    + apply (fresh_rows_calm _ _ _ _ x2.1); [apply S2|done|]. by apply Hfresh, Hrd.
Qed.

(** The rows of a range of one table. *)
Definition rows_of (cols : list string) (ref : TableRef) (lo hi : option KeyValues)
    (cs : list string) (t : TableRef) (k : KeyValues) : Prop :=
  cs = cols ∧ t = ref ∧ in_range (key_lt ref) lo hi k.

Lemma begin_open x : ok x → a_tx x.1 !! c = Some (mkTx ∅ ∅ ∅) → open_tx x.1 (mkTx ∅ ∅ ∅).
Proof. intros Hx Ho. split; [done|]. intros t k. left. apply visible_begin. Qed.

(** An upsert from the staging table. *)
Lemma merge_safe ref cols lo hi lo' hi' msg k Q x tx stg :
  T ref → L ref → ok x → open_tx x.1 tx → tx_staging tx !! ref = Some stg → fresh_rows cols ref lo hi x.1 stg →
  (∀ e x' tx', stepped x x' → open_tx x'.1 tx' → Q (Some e) x') →
  (∀ x' tx', stepped x x' → calm x.1 x'.1 → open_tx x'.1 tx' → tx_staging tx' = tx_staging tx →
     vstep x'.1 (vis x'.1 tx) (vis x'.1 tx') →
     (∀ k, in_range (key_lt ref) lo hi k → in_range (key_lt ref) lo' hi' k →
        agree_at cols x'.1 ref k (vis x'.1 tx' (ref, k))) → csafe k Q x') →
  csafe (stmt_then c (SMergeInsert ref cols lo' hi') msg k) Q x.
Proof.
  intros HT HL Hx [Ho Hv] Hs Hf HQe Hk. pose proof (ci_pend _ _ _ _ _ _ Hx) as Hp. unfold stmt_then. apply safe_bind.
  apply (safe_stmt _ (mergeInsert dflt_of (a_tgt x.1) ref cols (in_range (key_lt ref) lo' hi')) _ _ tx); [done..| | |].
  { intros v r v' Et Hvx (tx0 & tx' & Htx0 & Hm & _ & ->). rewrite Hvx in Htx0. injection Htx0 as <-. exists tx'.
    rewrite <-Et. split; [done|]. simpl. by rewrite lookup_insert_eq. }
  { intros e x1 S1 C1 Ho1. apply safe_ret; [apply S1|]. apply (HQe _ _ tx); [done|]. by apply (open_tx_calm x.1). }
  intros r x1 tx1 S1 C1 Hm Ho1.
  destruct (mergeInsert_upserted x.1 _ _ _ _ _ _ _ Hs Hm) as [Hstg Hu].
  pose proof (upserted_vstep _ _ _ _ _ _ _ _ _ HL Hf Hu) as Hvs.
  assert (open_tx x1.1 tx1) as O1 by (apply (open_tx_calm x.1); [done..|]; by eapply vstep_trans).
  destruct r as [e|u]; [apply safe_ret; [apply S1|]; by apply (HQe _ _ tx1)|].
  apply (Hk _ tx1); [done..| |].
  - rewrite !(calm_vis _ _ _ C1). by eapply vstep_calm.
  - intros k' Hk1 Hk2. rewrite (calm_vis _ _ _ C1). eapply agree_at_calm; [done..|].
    by eapply (upserted_agree ref cols _ lo hi x stg).
Qed.

Lemma copyRangeOnce_safe ref cols pk lo hi x :
  T ref → L ref → ok x → a_tx x.1 !! c = None →
  csafe (copyRangeOnce c ref cols pk lo hi) (tx_post (rows_of cols ref lo hi) x) x.
Proof.
  intros HT HL Hx Hno. unfold copyRangeOnce. destruct (keysetPredicate pk lo hi) as [e|].
  { apply safe_ret; [done|]. split_and!; [by apply stepped_refl|done..]. }
  apply own_tx_safe; [done..|]. intros x1 S1 C1 Htx. apply begin_open in Htx; [|apply S1].
  apply (stage_safe ref cols lo hi _ _ (λ r, match r with
    | Some e => Ret (Some (Errorf ("postgres: cyclic copy range " +:+ ref_string ref) e))
    | None => stmt_then c (SMergeInsert ref cols None None)
                ("postgres: cyclic copy range: upsert " +:+ ref_string ref) (Ret None) end) _ _ (mkTx ∅ ∅ ∅));
    [apply S1|done|by apply lookup_empty|..].
  - intros e x2 tx S2 O2. split; [done|]. by exists tx.
  - intros e x2 tx S2 O2. apply safe_ret; [apply S2|]. split; [done|]. by exists tx.
  - intros x2 tx stg S2 C2 O2 _ Hstg Hf.
    eapply (merge_safe ref cols lo hi None None); [done|done|apply S2|done|by rewrite Hstg, lookup_insert_eq|done| |].
    + intros e x3 tx3 S3 O3. split; [by eapply stepped_trans|]. by exists tx3.
    + intros x3 tx3 S3 C3 O3 _ _ Hag. apply safe_ret; [apply S3|]. split; [by eapply stepped_trans|].
      exists tx3. split; [done|]. intros _ cs t k (-> & -> & Hk). by apply Hag.
Qed.

Lemma fillFKRange_safe ref pk fkCols lo hi x :
  L ref → ok x → a_tx x.1 !! c = None →
  (∀ k, in_range (key_lt ref) lo hi k → agree (subtractCols (cols_of ref) fkCols) x.1 ref k) →
  csafe (fillFKRange c ref pk fkCols lo hi) (tx_post (rows_of (cols_of ref) ref lo hi) x) x.
Proof.
  intros HL Hx Hno Hp1. unfold fillFKRange. apply own_tx_safe; [done..|]. intros x1 S1 C1 Htx.
  apply begin_open in Htx; [|apply S1]. set (cols := pk.*1 ++ fkCols).
  apply (stage_safe ref cols lo hi _ _ (λ r, match r with
    | Some e => Ret (Some (Errorf "postgres: null-fill pass 2: copy" e))
    | None => stmt_then c (SUpdateFrom ref fkCols) "postgres: null-fill pass 2: update" (Ret None) end) _ _ (mkTx ∅ ∅ ∅));
    [apply S1|done|by apply lookup_empty|..].
  - intros e x2 tx S2 O2. split; [done|]. by exists tx.
  - intros e x2 tx S2 O2. apply safe_ret; [apply S2|]. split; [done|]. by exists tx.
  - intros x2 tx stg S2 C2 O2 Hw Hstg Hf. unfold stmt_then. apply safe_bind.
    assert (tx_staging tx !! ref = Some stg) as Hs by by rewrite Hstg, lookup_insert_eq.
    assert (∀ y, y ∈ fkCols → y ∈ cols) as Hsub by (intros y Hy; apply elem_of_app; by right).
    apply (safe_stmt _ (updateFrom (a_tgt x2.1) ref fkCols) _ _ tx); [done|apply S2|apply O2|..].
    { intros v r v' Et Hvx (tx0 & tx' & Htx0 & Hm & _ & ->). rewrite Hvx in Htx0. injection Htx0 as <-. exists tx'.
      rewrite <-Et. split; [done|]. simpl. by rewrite lookup_insert_eq. }
    { intros e x3 S3 C3 Ho3. apply safe_ret; [apply S3|]. split; [by eapply stepped_trans|]. exists tx.
      split; [|done]. apply (open_tx_calm x2.1); [apply S2|done..|apply O2]. }
    intros r x3 tx3 S3 C3 Hu Ho3.
    assert (open_tx x3.1 tx3) as O3.
    { apply (open_tx_calm x2.1); [apply S2|done..|]. eapply vstep_trans; [apply O2|]. by eapply updateFrom_vstep. }
    assert (holds (rows_of (cols_of ref) ref lo hi) x3.1 (vis x3.1 tx3)) as HS.
    { intros cs t k (-> & -> & Hk). rewrite (calm_vis _ _ _ C3). eapply agree_at_calm; [apply S2|done|].
      eapply (updateFrom_agree x2.1 ref fkCols cols lo hi stg tx tx3); [done..|].
      unfold vis. rewrite (visible_writes _ _ _ _ Hw). fold (begin_tx ∅). rewrite visible_begin.
      by apply (st_amono _ _ S2), (st_amono _ _ S1), Hp1. }
    destruct r as [e|u]; (apply safe_ret; [apply S3|]); (split; [by eapply stepped_trans|]); by exists tx3.
Qed.
(** ** Outside a transaction *)

Definition idle_call (o : call) : Prop :=
  match o with
  | Introspect _ | PlanChunks _ _ | SrcHealthCheck | SrcReconnect | SinkHealthCheck | SinkReconnect
  | CtxErr | After _ | Exec (SCopyTo _ _ _ _) | Exec (STableMeta _) | Exec (SExistsRow _) | Exec SSetDeferred => True
  | _ => False
  end.

Lemma idle_effect o v r v' : idle_call o → effect c o v r v' → a_tx v' = a_tx v ∨ a_tx v' = delete c (a_tx v).
Proof.
  intros Ho He. destruct o; simpl in *; try done; try (subst; simpl; by auto); try (destruct He as [-> _]; by left).
  destruct q; simpl in *; try done; try (subst; by left); destruct He as [-> _]; by left.
Qed.

Lemma safe_idle o Q x :
  idle_call o → requires c o x.1 → ok x → a_tx x.1 !! c = None →
  (∀ r x', stepped x x' → calm x.1 x'.1 → a_tx x'.1 !! c = None →
     (∀ a, r = inr a → ∃ v1 v2, rely x.1 v1 ∧ effect c o v1 (inr a) v2 ∧ rely v2 x'.1) → Q r x') →
  csafe (do_call c o) Q x.
Proof.
  intros Ho Hreq Hx Hno HQ.
  assert (calm_call o ∧ is_store_call o = false) as [Hcalm Hst] by (destruct o; try done; by destruct q).
  apply safe_still; [done..|]. intros r x' S' C (v1 & v2 & R1 & He & R2). apply HQ; [done..| |].
  - rewrite (rely_tx _ _ R2). destruct He as [He|(_ & _ & ->)]; [|by rewrite (rely_tx _ _ R1)].
    destruct (idle_effect _ _ _ _ Ho He) as [-> | ->]; [by rewrite (rely_tx _ _ R1)|by rewrite lookup_delete_eq].
  - intros a ->. exists v1, v2. split_and!; [done| |done]. by destruct He as [?|(_ & [? [=]] & _)].
Qed.

Lemma tx_post_trans S S' x x1 r x' :
  stepped x x1 → (∀ cs t k, S' cs t k → S cs t k) → tx_post S x1 r x' → tx_post S' x r x'.
Proof.
  intros S1 HS (S2 & Hno & H). split_and!; [by eapply stepped_trans|done|].
  intros Hr cs t k Hk. by apply H, HS.
Qed.

Lemma tx_post_fail S x e x' : stepped x x' → a_tx x'.1 !! c = None → tx_post S x (Some e) x'.
Proof. by intros. Qed.

Lemma holds_stepped S x x' :
  stepped x x' → holds S x.1 (λ tk, a_tgt x.1 !! tk) → holds S x'.1 (λ tk, a_tgt x'.1 !! tk).
Proof. intros Hs H cs t k Hk. by apply (st_amono _ _ Hs), H. Qed.

Lemma reconnect_idle health reconnect Q x :
  idle_call health → idle_call reconnect → (∀ v, requires c health v) → (∀ v, requires c reconnect v) →
  ok x → a_tx x.1 !! c = None →
  (∀ x', stepped x x' → a_tx x'.1 !! c = None → Q tt x') → csafe (reconnectConn c health reconnect) Q x.
Proof.
  intros H1 H2 R1 R2 Hx Hno HQ. apply safe_bind. apply safe_idle; [done..|]. intros r x1 S1 _ N1 _.
  destruct r as [e|]; [|apply safe_ret; [apply S1|by apply HQ]].
  apply safe_bind. apply safe_idle; [done|done|apply S1|done|]. intros r x2 S2 _ N2 _.
  apply safe_ret; [apply S2|]. apply HQ; [by eapply stepped_trans|done].
Qed.

Lemma range_attempts_safe tries ref cols pk lo hi lastErr x :
  T ref → L ref → ok x → a_tx x.1 !! c = None → 0 < tries ∨ is_Some lastErr →
  csafe (range_attempts tries c ref cols pk lo hi lastErr) (tx_post (rows_of cols ref lo hi) x) x.
Proof.
  intros HT HL. revert lastErr x. induction tries as [|tries IH]; intros lastErr x Hx Hno Ht; cbn [range_attempts].
  { destruct Ht as [?|[e ->]]; [lia|]. apply safe_ret; [done|]. apply tx_post_fail; [by apply stepped_refl|done]. }
  apply safe_bind. eapply safe_mono; [|by apply copyRangeOnce_safe].
  intros r x1 Hx1 (S1 & N1 & H1). destruct r as [err|]; [|by apply safe_ret]. clear H1.
  apply safe_bind. apply safe_idle; [done..|]. intros r x2 S2 _ N2 _.
  pose proof (stepped_trans _ _ _ S1 S2) as S12. pose proof (st_ok _ _ S12) as Hx2.
  destruct r as [e|]; [apply safe_ret; [done|by apply tx_post_fail]|].
  apply safe_bind. apply safe_idle; [done..|]. intros s x3 S3 _ N3 _. apply safe_bind.
  pose proof (stepped_trans _ _ _ S12 S3) as S13. pose proof (st_ok _ _ S13) as Hx3.
  assert (∀ d y, stepped x y → a_tx y.1 !! c = None → csafe (if negb d then Ret (Some err)
    else
     _ ← reconnectConn c SrcHealthCheck SrcReconnect;
     _ ← reconnectConn c SinkHealthCheck SinkReconnect;
     w ← do_call c (After cyclicConnBackoff);
     match w with
     | inl ctxErr => Ret (Some ctxErr)
     | inr _ => range_attempts tries c ref cols pk lo hi (Some err)
     end) (tx_post (rows_of cols ref lo hi) x) y) as Hrest.
  { intros d y Sy Ny. pose proof (st_ok _ _ Sy) as Hy. destruct d; cbn [negb]; [|apply safe_ret; [done|by apply tx_post_fail]].
    apply safe_bind. apply reconnect_idle; [done..|]. intros y1 Sy1 Ny1. pose proof (st_ok _ _ Sy1).
    apply safe_bind. apply reconnect_idle; [done..|]. intros y2 Sy2 Ny2. pose proof (st_ok _ _ Sy2).
    apply safe_bind. apply safe_idle; [done..|]. intros w y3 Sy3 _ Ny3 _. pose proof (st_ok _ _ Sy3).
    assert (stepped x y3) as Sx3 by (eapply stepped_trans; [exact Sy|]; eapply stepped_trans; [exact Sy1|]; by eapply stepped_trans).
    destruct w as [e|]; [apply safe_ret; [done|by apply tx_post_fail]|].
    eapply safe_mono; [|apply IH; [done|done|by right]]. intros r4 z _ Hz. by eapply tx_post_trans. }
  destruct (down s); [apply safe_ret; [done|]; by apply Hrest|].
  apply safe_bind. apply safe_idle; [done..|]. intros k x4 S4 _ N4 _. apply safe_ret; [apply S4|].
  apply Hrest; [by eapply stepped_trans|done].
Qed.

Lemma copyRange_safe ref cols pk lo hi x :
  T ref → L ref → ok x → a_tx x.1 !! c = None →
  csafe (copyRange c ref cols pk lo hi) (tx_post (rows_of cols ref lo hi) x) x.
Proof. intros. apply range_attempts_safe; try done. left. unfold cyclicCopyConnAttempts. lia. Qed.

(** ** Loops *)

Lemma for_all_safe {A} (l : list A) (f : A → prog (option error)) S x :
  ok x → a_tx x.1 !! c = None →
  (∀ a x1, a ∈ l → stepped x x1 → a_tx x1.1 !! c = None → csafe (f a) (tx_post (S a) x1) x1) →
  csafe (for_all l f) (tx_post (λ cs t k, ∃ a, a ∈ l ∧ S a cs t k) x) x.
Proof.
  intros Hx Hno Hf. unfold for_all. apply safe_bind.
  apply (safe_for_each _ _ _ _ (λ rest _ y, stepped x y ∧ a_tx y.1 !! c = None ∧
    ∃ done, l = done ++ rest ∧ holds (λ cs t k, ∃ a, a ∈ done ∧ S a cs t k) y.1 (λ tk, a_tgt y.1 !! tk))).
  - intros a rest [] y Hy (Sy & Ny & dn & Heq & Hd). apply safe_bind.
    eapply safe_mono; [|apply Hf; [rewrite Heq; set_solver|done..]].
    intros r y' Hy' (Sy' & Ny' & Hr). pose proof (stepped_trans _ _ _ Sy Sy') as Sx.
    apply safe_ret; [done|]. destruct r as [e|]; [apply safe_ret; [done|by apply tx_post_fail]|].
    split_and!; [done..|]. exists (dn ++ [a]). split; [by rewrite <-app_assoc|].
    intros cs t k (b & [Hb|Hb%list_elem_of_singleton]%elem_of_app & HS).
    + apply (holds_stepped _ _ _ Sy' Hd). by exists b.
    + subst b. by apply (Hr eq_refl).
  - intros [] y Hy (Sy & Ny & dn & Heq & Hd). rewrite app_nil_r in Heq. subst dn. apply safe_ret; [done|]. by split_and!.
  - done.
  - split_and!; [by apply stepped_refl|done|]. exists []. split; [done|]. by intros cs t k (a & ?%elem_of_nil & _).
Qed.

(** ** Tables *)

Lemma plan_allKeyset ref lo chunks : plan_ok ref lo chunks → allKeyset chunks = true.
Proof.
  intros [Hc Hf]. destruct chunks as [|ch chunks]; [done|]. unfold allKeyset. apply forallb_forall.
  intros ch' Hin%list_elem_of_In. rewrite Forall_forall in Hf. apply bool_decide_eq_true. by apply Hf.
Qed.

(** The ranges of a plan are the whole table. *)
Lemma plan_rows ref cols chunks k :
  plan_ok ref None chunks →
  ∃ ch, ch ∈ chunks ∧ rows_of cols ref (chunk_Lo ch) (chunk_Hi ch) cols ref k.
Proof.
  intros [Hc _]. destruct (chain_covers (key_lt ref) None chunks k Hc) as (i & ch & Hi & Hk); [done|].
  exists ch. split; [by eapply list_elem_of_lookup_2|done].
Qed.

Lemma plan_table_safe ref Q x :
  0 < key_arity ref → ok x → a_tx x.1 !! c = None →
  (∀ r x', stepped x x' → a_tx x'.1 !! c = None →
     (∀ pk chunks, r = inr (pk, chunks) → plan_ok ref None chunks) → Q r x') →
  csafe (plan_table c ref) Q x.
Proof.
  intros Hk Hx Hno HQ. unfold plan_table. apply safe_bind. apply safe_idle; [done..|].
  intros r x1 S1 _ N1 Hr. pose proof (st_ok _ _ S1) as Hx1. destruct r as [e|tgt]; [apply safe_ret; [done|by apply HQ]|].
  destruct (Hr tgt eq_refl) as (v1 & v2 & _ & (_ & tbl & [= <-] & _ & Hlen) & _).
  destruct (decide (captureColsFor tgt = [])) as [E|_]; [rewrite E in Hlen; simpl in Hlen; lia|].
  apply safe_bind. apply safe_idle; [done|done|done..|]. intros r x2 S2 _ N2 Hr2. apply safe_ret; [apply S2|].
  apply HQ; [by eapply stepped_trans|done|]. intros pk chunks. destruct r as [e|chs]; [done|]. intros [= <- <-].
  destruct (Hr2 chs eq_refl) as (w1 & w2 & _ & (_ & chs' & [= <-] & Hplan) & _). done.
Qed.

Definition all_rows (cols : list string) (ref : TableRef) : list string → TableRef → KeyValues → Prop :=
  rows_of cols ref None None.

(** Loading all ranges of a plan with [load]. *)
Lemma chunks_safe ref cols chunks (load : Chunk → prog (option error)) x :
  plan_ok ref None chunks → ok x → a_tx x.1 !! c = None →
  (∀ ch x1, ch ∈ chunks → stepped x x1 → a_tx x1.1 !! c = None →
     csafe (load ch) (tx_post (rows_of cols ref (chunk_Lo ch) (chunk_Hi ch)) x1) x1) →
  csafe (for_all chunks load) (tx_post (all_rows cols ref) x) x.
Proof.
  intros Hplan Hx Hno Hl.
  eapply safe_mono; [|by apply (for_all_safe _ _ (λ ch, rows_of cols ref (chunk_Lo ch) (chunk_Hi ch)))].
  intros r x' _. apply tx_post_trans; [by apply stepped_refl|].
  intros cs t k (-> & -> & _). by apply plan_rows.
Qed.

Lemma copyOrUpsert_safe ref cols x :
  T ref → L ref → 0 < key_arity ref → ok x → a_tx x.1 !! c = None →
  csafe (copyOrUpsert c ref cols) (tx_post (all_rows cols ref) x) x.
Proof.
  intros HT HL Hk Hx Hno. unfold copyOrUpsert. apply safe_bind. apply plan_table_safe; [done..|].
  intros r x1 S1 N1 Hplan. pose proof (st_ok _ _ S1) as Hx1.
  destruct r as [e|[pk chunks]]; [apply safe_ret; [done|by apply tx_post_fail]|].
  specialize (Hplan pk chunks eq_refl). rewrite (plan_allKeyset _ _ _ Hplan). cbn [negb].
  eapply safe_mono; [|apply (chunks_safe ref cols); [done..|]].
  - intros r x' _. by apply tx_post_trans.
  - intros ch x2 _ S2 N2. apply copyRange_safe; [done|done|apply S2|done].
Qed.
Definition loadable (t : TableRef) : Prop := T t ∧ L t ∧ 0 < key_arity t.

Lemma parent_attempts_safe byRef cyclicCols tries load parentRefs lastErr S x :
  (∀ p, p ∈ parentRefs → loadable p) →
  (∀ x1, stepped x x1 → a_tx x1.1 !! c = None → csafe load (tx_post S x1) x1) →
  ok x → a_tx x.1 !! c = None → 0 < tries ∨ is_Some lastErr →
  csafe (parent_attempts c byRef cyclicCols tries load parentRefs lastErr) (tx_post S x) x.
Proof.
  intros Hps. revert lastErr x. induction tries as [|tries IH]; intros lastErr x Hload Hx Hno Ht; cbn [parent_attempts].
  { destruct Ht as [?|[e ->]]; [lia|]. apply safe_ret; [done|]. apply tx_post_fail; [by apply stepped_refl|done]. }
  apply safe_bind. eapply safe_mono; [|apply Hload; [by apply stepped_refl|done]].
  intros r x1 Hx1 (S1 & N1 & H1). destruct r as [err|]; [|by apply safe_ret]. clear H1.
  destruct (IsTransientConstraint _); cbn [negb]; [|apply safe_ret; [done|by apply tx_post_fail]].
  case_decide; [apply safe_ret; [done|by apply tx_post_fail]|]. apply safe_bind.
  eapply safe_mono; [|apply (for_all_safe _ _ (λ p, all_rows (pass1_cols byRef cyclicCols p) p)); [done..|]].
  2: { intros p x2 Hp S2 N2. destruct (Hps p Hp) as (? & ? & ?). apply copyOrUpsert_safe; [done..|apply S2|done]. }
  intros r x2 Hx2 (S2 & N2 & _). pose proof (stepped_trans _ _ _ S1 S2) as S12.
  destruct r as [e|]; [apply safe_ret; [done|by apply tx_post_fail]|].
  apply safe_bind. apply safe_idle; [done..|]. intros w x3 S3 _ N3 _. pose proof (stepped_trans _ _ _ S12 S3) as S13.
  destruct w as [e|]; [apply safe_ret; [apply S3|by apply tx_post_fail]|].
  eapply safe_mono; [|apply IH; [|apply S3|done|by right]].
  - intros res z _. by apply tx_post_trans.
  - intros y Sy Ny. apply Hload; [by eapply stepped_trans|done].
Qed.

Lemma copyTableChunked_safe byRef cyclicCols ref cols parentRefs x :
  (∀ p, p ∈ parentRefs → loadable p) → loadable ref → ok x → a_tx x.1 !! c = None →
  csafe (copyTableChunkedWithParentRetry c byRef cyclicCols ref cols parentRefs) (tx_post (all_rows cols ref) x) x.
Proof.
  intros Hps (HT & HL & Hk) Hx Hno. unfold copyTableChunkedWithParentRetry. apply safe_bind.
  apply plan_table_safe; [done..|]. intros r x1 S1 N1 Hplan. pose proof (st_ok _ _ S1) as Hx1.
  destruct r as [e|[pk chunks]]; [apply safe_ret; [done|by apply tx_post_fail]|].
  specialize (Hplan pk chunks eq_refl). rewrite (plan_allKeyset _ _ _ Hplan). cbn [negb].
  eapply safe_mono; [|apply (chunks_safe ref cols); [done..|]].
  - intros r x' _. by apply tx_post_trans.
  - intros ch x2 _ S2 N2. apply parent_attempts_safe; [done| |apply S2|done|left; unfold cyclicCopyRetries; lia].
    intros x3 S3 N3. apply copyRange_safe; [done..|apply S3|done].
Qed.

Lemma fillFKColumns_safe ref pk fkCols x :
  loadable ref → ok x → a_tx x.1 !! c = None →
  holds (all_rows (subtractCols (cols_of ref) fkCols) ref) x.1 (λ tk, a_tgt x.1 !! tk) →
  csafe (fillFKColumns c ref pk fkCols) (tx_post (all_rows (cols_of ref) ref) x) x.
Proof.
  intros (HT & HL & Hk) Hx Hno Hp1. unfold fillFKColumns. apply safe_bind. apply safe_idle; [done..|].
  intros r x1 S1 _ N1 _. pose proof (st_ok _ _ S1) as Hx1.
  destruct r as [e|_]; [apply safe_ret; [done|by apply tx_post_fail]|].
  assert (∀ y lo hi, stepped x y → a_tx y.1 !! c = None →
    csafe (fillFKRange c ref pk fkCols lo hi) (tx_post (rows_of (cols_of ref) ref lo hi) y) y) as Hfill.
  { intros y lo hi Sy Ny. apply fillFKRange_safe; [done|apply Sy|done|]. intros k _.
    by apply (holds_stepped _ _ _ Sy Hp1). }
  apply safe_bind. case_decide.
  { apply safe_ret; [done|]. cbn [allKeyset negb]. eapply safe_mono; [|by apply (Hfill x1 None None)].
    intros r x2 _. by apply tx_post_trans. }
  apply safe_idle; [done|done|done..|]. intros r x2 S2 _ N2 Hr. pose proof (stepped_trans _ _ _ S1 S2) as S12.
  destruct r as [e|chunks]; [apply safe_ret; [apply S2|by apply tx_post_fail]|].
  destruct (Hr chunks eq_refl) as (v1 & v2 & _ & (_ & chs & [= <-] & Hplan) & _).
  rewrite (plan_allKeyset _ _ _ Hplan). cbn [negb].
  eapply safe_mono; [|apply (chunks_safe ref (cols_of ref)); [done|apply S2|done|]].
  - intros r x' _. by apply tx_post_trans.
  - intros ch x3 _ S3 N3. destruct (keysetPredicate _ _ _).
    + apply safe_ret; [apply S3|]. apply tx_post_fail; [apply stepped_refl, S3|done].
    + apply Hfill; [by eapply stepped_trans|done].
Qed.

(** ** The two passes *)

Lemma byRef_member members ref :
  NoDup (tbl_Ref <$> members) → ref ∈ tbl_Ref <$> members →
  ∃ t, t ∈ members ∧ tbl_Ref t = ref ∧ byRefOf members !! ref = Some t.
Proof.
  intros Hnd (t & -> & Ht)%list_elem_of_fmap. exists t. split_and!; [done..|]. by apply lookup_byRef.
Qed.

Lemma nonCyclicParents_members members ce ref p :
  p ∈ adj_of (nonCyclicParents members ce) ref → p ∈ tbl_Ref <$> members.
Proof.
  assert (∀ inComp t q, q ∈ kept_parents inComp ce t → q ∈ inComp) as Hkept.
  { intros inComp t q. unfold kept_parents.
    assert (∀ l acc, q ∈ foldl (λ ps p, if decide (p ∈ ps) then ps else ps ++ [p]) acc l → q ∈ acc ∨ q ∈ l) as H.
    { induction l as [|y l IH]; intros acc; simpl; [by left|]. intros [Hq|?]%IH; [|set_solver].
      revert Hq. case_decide; set_solver. }
    intros [Hq%elem_of_nil|Hq]%H; [done|].
    apply list_elem_of_fmap in Hq as (fk & -> & [[Hfk _] _]%list_elem_of_filter). done. }
  unfold nonCyclicParents. rewrite <-elem_of_inSel. set (inComp := inSelOf members). clearbody inComp.
  assert (∀ (l : list Engine.Table) out, (∀ r q, q ∈ adj_of out r → q ∈ inComp) →
    ∀ r q, q ∈ adj_of (foldl (λ out t, match adj_of out (tbl_Ref t) ++ kept_parents inComp ce t with
      | [] => out | ps => <[tbl_Ref t := sortRefs ps]> out end) out l) r → q ∈ inComp) as H.
  { induction l as [|t l IH]; intros out Hout r q; simpl; [apply Hout|]. apply IH. clear r q. intros r q.
    destruct (adj_of out (tbl_Ref t) ++ kept_parents inComp ce t) as [|q0 ps] eqn:E; [apply Hout|].
    unfold adj_of at 1. destruct (decide (r = tbl_Ref t)) as [->|Hne]; [|rewrite lookup_insert_ne by done; apply Hout].
    rewrite lookup_insert_eq. simpl. unfold sortRefs. rewrite elem_of_sort_by, <-E, elem_of_app.
    intros [?|?]; [by eapply Hout|by eapply Hkept]. }
  apply H. intros r q. unfold adj_of. rewrite lookup_empty. by intros ?%elem_of_nil.
Qed.

Lemma subtract_nil cols : subtractCols cols [] = cols.
Proof.
  unfold subtractCols. induction cols as [|x l IH]; [done|].
  rewrite filter_cons_True by apply not_elem_of_nil. by rewrite IH.
Qed.

Section members.
Context (members : list Engine.Table).
Context (Hnd : NoDup (tbl_Ref <$> members)) (Hown : own_fks members).
Context (Hcols : ∀ t, t ∈ members → columns_of t = cols_of (tbl_Ref t)).
Context (Hload : ∀ t, t ∈ tbl_Ref <$> members → loadable t).

(** Every column of every row of the members. *)
Definition complete (refs : list TableRef) (cs : list string) (t : TableRef) (k : KeyValues) : Prop :=
  cs = cols_of t ∧ t ∈ refs.

Lemma pass1_cols_of cyclicCols ref :
  ref ∈ tbl_Ref <$> members →
  pass1_cols (byRefOf members) cyclicCols ref = subtractCols (cols_of ref) (CyclicFk.cols_of cyclicCols ref).
Proof.
  intros Hr. destruct (byRef_member members ref Hnd Hr) as (t & Ht & <- & E). unfold pass1_cols.
  rewrite E. simpl. by rewrite Hcols.
Qed.

Lemma nullFillComponent_safe cyc x :
  ok x → a_tx x.1 !! c = None →
  csafe (nullFillComponent c members cyc) (tx_post (complete (tbl_Ref <$> members)) x) x.
Proof.
  intros Hx Hno. unfold nullFillComponent. set (cc := cyclicColsByTable cyc).
  destruct (nonCyclicTopoOrder_emitted members (cyclicEdgesOf cyc) Hnd Hown) as (order & Hperm & _).
  set (ord := nonCyclicTopoOrder members (cyclicEdgesOf cyc)) in *.
  assert (∀ r, r ∈ ord ↔ r ∈ tbl_Ref <$> members) as Hord by (intros r; by rewrite Hperm).
  apply safe_bind. eapply safe_mono;
    [|apply (for_all_safe _ _ (λ ref, all_rows (subtractCols (cols_of ref) (CyclicFk.cols_of cc ref)) ref)); [done..|]].
  2: { intros ref x1 Hr%Hord S1 N1. apply safe_bind. rewrite pass1_cols_of by done.
       eapply safe_mono; [|apply copyTableChunked_safe; [|by apply Hload|apply S1|done]].
       - intros r x2 Hx2 (S2 & N2 & H2). apply safe_ret; [done|]. split_and!; [done..|].
         destruct r; [done|]. intros _. by apply H2.
       - intros p Hp. by eapply Hload, nonCyclicParents_members. }
  intros r x1 Hx1 (S1 & N1 & H1). destruct r as [e|]; [apply safe_ret; [done|by apply tx_post_fail]|].
  specialize (H1 eq_refl).
  eapply safe_mono; [|apply (for_all_safe _ _ (λ ref, all_rows (cols_of ref) ref)); [done..|]].
  - intros r x2 _. apply tx_post_trans; [done|]. intros cs t k (-> & Ht). exists t. by rewrite Hord.
  - intros ref x2 Hr S2 N2. unfold fill_member.
    assert (holds (all_rows (subtractCols (cols_of ref) (CyclicFk.cols_of cc ref)) ref) x2.1 (λ tk, a_tgt x2.1 !! tk)) as Hp1.
    { apply (holds_stepped _ _ _ S2). intros cs t k Hk. apply H1. by exists ref. }
    case_decide as Hfk.
    { apply safe_ret; [apply S2|]. split_and!; [apply stepped_refl, S2|done|]. intros _.
      by rewrite Hfk, subtract_nil in Hp1. }
    case_decide; [apply safe_ret; [apply S2|]; apply tx_post_fail; [apply stepped_refl, S2|done]|].
    apply safe_bind. eapply safe_mono; [|apply fillFKColumns_safe; [by apply Hload, Hord|apply S2|done..]].
    intros r x3 Hx3 (S3 & N3 & H3). apply safe_ret; [done|]. split_and!; [done..|]. destruct r; [done|]. intros _. by apply H3.
Qed.
End members.
(** ** One transaction over the component *)

(** A read while the transaction is open. *)
Lemma safe_open o Q x tx :
  idle_call o → o ≠ SinkReconnect → requires c o x.1 → ok x → open_tx x.1 tx →
  (∀ r x', stepped x x' → calm x.1 x'.1 → open_tx x'.1 tx →
     (∀ a, r = inr a → ∃ v1 v2, rely x.1 v1 ∧ effect c o v1 (inr a) v2 ∧ rely v2 x'.1) → Q r x') →
  csafe (do_call c o) Q x.
Proof.
  intros Ho Hne Hreq Hx [Htx Hv] HQ.
  assert (calm_call o ∧ is_store_call o = false) as [Hcalm Hst] by (destruct o; try done; by destruct q).
  apply safe_still; [done..|]. intros r x' S' C (v1 & v2 & R1 & He & R2). apply HQ; [done..| |].
  - apply (open_tx_calm x.1); [apply Hx|done| |done]. rewrite (rely_tx _ _ R2).
    destruct He as [He|(_ & _ & ->)]; [|by rewrite (rely_tx _ _ R1)].
    assert (a_tx v2 = a_tx v1) as ->; [|by rewrite (rely_tx _ _ R1)].
    destruct o; simpl in *; try done; try (by subst); try (by destruct He as [-> _]).
    destruct q; simpl in *; try done; try (by subst); by destruct He as [-> _].
  - intros a ->. exists v1, v2. split_and!; [done| |done]. by destruct He as [?|(_ & [? [=]] & _)].
Qed.

(** What loading a table inside the transaction [tx] leaves. *)
Definition load_post (ref : TableRef) (cols : list string) (x : world) (tx : pgApplyTx) (r : option error)
    (x' : world) : Prop :=
  stepped x x' ∧ ∃ tx', open_tx x'.1 tx' ∧
    (r = None → calm x.1 x'.1 ∧ vstep x'.1 (vis x'.1 tx) (vis x'.1 tx') ∧
       (∀ t, t ≠ ref → tx_staging tx' !! t = tx_staging tx !! t) ∧
       holds (all_rows cols ref) x'.1 (vis x'.1 tx')).

Lemma load_post_fail ref cols x tx e x' tx' :
  stepped x x' → open_tx x'.1 tx' → load_post ref cols x tx (Some e) x'.
Proof. intros S' O. split; [done|]. by exists tx'. Qed.

Lemma load_post_trans ref cols x x1 tx tx1 r x' :
  stepped x x1 → calm x.1 x1.1 → tx_writes tx1 = tx_writes tx →
  (∀ t, t ≠ ref → tx_staging tx1 !! t = tx_staging tx !! t) →
  load_post ref cols x1 tx1 r x' → load_post ref cols x tx r x'.
Proof.
  intros S1 C1 Hw Hstg (S2 & tx2 & O2 & H). split; [by eapply stepped_trans|]. exists tx2. split; [done|].
  intros Hr. destruct (H Hr) as (C2 & Hv & Hs & Hh). split_and!; [by eapply calm_trans| | |done].
  - intros t k. unfold vis. rewrite <-(visible_writes tx tx1 _ _ Hw). apply Hv.
  - intros t Ht. by rewrite Hs, Hstg.
Qed.

Lemma upsertFromStaging_safe ref cols pk x tx stg :
  loadable ref → ok x → open_tx x.1 tx → tx_staging tx !! ref = Some stg → fresh_rows cols ref None None x.1 stg →
  csafe (upsertFromStaging c ref cols pk) (load_post ref cols x tx) x.
Proof.
  intros (HT & HL & Hk) Hx Ho Hs Hf. unfold upsertFromStaging.
  assert (∀ y, stepped x y → calm x.1 y.1 → open_tx y.1 tx → csafe (stmt_then c (SMergeInsert ref cols None None)
    ("postgres: staged upsert: upsert " +:+ ref_string ref) (Ret None)) (load_post ref cols x tx) y) as Hwhole.
  { intros y Sy Cy Oy. eapply (merge_safe ref cols None None None None); [done|done|apply Sy|done|done| | |].
    - apply (fresh_rows_calm _ _ _ _ x.1); [apply Hx|done..].
    - intros e y1 tx1 S1 O1. apply (load_post_fail _ _ _ _ _ _ tx1); [by eapply stepped_trans|done].
    - intros y1 tx1 S1 C1 O1 Hstg Hv Hag. apply safe_ret; [apply S1|]. split; [by eapply stepped_trans|].
      exists tx1. split; [done|]. intros _. split_and!; [by eapply calm_trans|done|by rewrite Hstg|].
      intros cs t k (-> & -> & _). by apply Hag. }
  apply safe_bind. apply (safe_open _ _ _ tx); [done..|]. intros r x1 S1 C1 O1 Hr.
  destruct r as [e|chunks]; [by apply Hwhole|].
  destruct (Hr chunks eq_refl) as (v1 & v2 & _ & (_ & chs & [= <-] & Hplan) & _).
  rewrite (plan_allKeyset _ _ _ Hplan). cbn [negb]. unfold for_all. apply safe_bind.
  apply (safe_for_each _ _ _ _ (λ rest _ y, stepped x y ∧ calm x.1 y.1 ∧ ∃ tx', open_tx y.1 tx' ∧
    tx_staging tx' = tx_staging tx ∧ vstep y.1 (vis y.1 tx) (vis y.1 tx') ∧ ∃ done, chunks = done ++ rest ∧
    ∀ ch k, ch ∈ done → in_range (key_lt ref) (chunk_Lo ch) (chunk_Hi ch) k → agree_at cols y.1 ref k (vis y.1 tx' (ref, k)))).
  - intros ch rest [] y Hy (Sy & Cy & tx' & Oy & Hst & Hv & dn & Heq & Hd). apply safe_bind.
    destruct (keysetPredicate pk _ _) as [e|].
    { apply safe_ret; [done|]. apply safe_ret; [done|]. apply safe_ret; [done|]. by apply (load_post_fail _ _ _ _ _ _ tx'). }
    eapply (merge_safe ref cols None None); [done|done|done|done|by rewrite Hst| | |].
    + apply (fresh_rows_calm _ _ _ _ x.1); [apply Hx|done..].
    + intros e y1 tx1 Sy1 Oy1. apply safe_ret; [apply Sy1|]. apply safe_ret; [apply Sy1|].
      apply (load_post_fail _ _ _ _ _ _ tx1); [by eapply stepped_trans|done].
    + intros y1 tx1 Sy1 Cy1 Oy1 Hst1 Hv1 Hag. apply safe_ret; [apply Sy1|]. apply safe_ret; [apply Sy1|].
      split; [by eapply stepped_trans|]. split; [by eapply calm_trans|]. exists tx1. split_and!; [done|congruence| |].
      { eapply vstep_trans; [|exact Hv1]. rewrite !(calm_vis _ _ _ Cy1). eapply vstep_calm; [apply Sy|done..]. }
      exists (dn ++ [ch]). split; [by rewrite <-app_assoc|].
      intros ch' k [Hin| ->%list_elem_of_singleton]%elem_of_app Hin'; [|by apply Hag].
      eapply vstep_agree; [exact Hv1|]. rewrite (calm_vis _ _ _ Cy1). eapply agree_at_calm; [apply Sy|done|]. by eapply Hd.
  - intros [] y Hy (Sy & Cy & tx' & Oy & Hst & Hv & dn & Heq & Hd). rewrite app_nil_r in Heq. subst dn.
    apply safe_ret; [done|]. split; [done|]. exists tx'. split; [done|]. intros _. split_and!; [done..|by rewrite Hst|].
    intros cs t k (-> & -> & _). destruct (plan_rows ref cols chunks k Hplan) as (ch & Hch & _ & _ & Hin). by eapply Hd.
  - apply S1.
  - split; [done|]. split; [done|]. exists tx. split_and!; [done..|apply vstep_refl|]. exists []. split; [done|].
    by intros ch k ?%elem_of_nil.
Qed.

Lemma staged_upsert_safe ref cols pk x tx :
  loadable ref → ok x → open_tx x.1 tx → tx_staging tx !! ref = None →
  csafe (staged_upsert_body c ref cols pk) (load_post ref cols x tx) x.
Proof.
  intros Hl Hx Ho Hns. unfold staged_upsert_body, pipeCopy.
  apply (stage_safe ref cols None None _ _ (λ r, match r with
    | Some e => Ret (Some (Errorf ("postgres: staged upsert: copy " +:+ ref_string ref) e))
    | None => upsertFromStaging c ref cols pk end) _ _ tx); [done..| | |].
  - intros e x1 tx1 S1 O1. by apply (load_post_fail _ _ _ _ _ _ tx1).
  - intros e x1 tx1 S1 O1. apply safe_ret; [apply S1|]. by apply (load_post_fail _ _ _ _ _ _ tx1).
  - intros x1 tx1 stg S1 C1 O1 Hw Hstg Hf. eapply safe_mono;
      [|apply (upsertFromStaging_safe ref cols pk x1 tx1 stg); [done|apply S1|done|by rewrite Hstg, lookup_insert_eq|done]].
    intros r x2 _. apply load_post_trans; [done..|]. intros t Ht. by rewrite Hstg, lookup_insert_ne.
Qed.

(** A plain [COPY] inside the transaction. *)
Lemma direct_copy_safe ref cols x tx :
  T ref → L ref → ok x → open_tx x.1 tx →
  csafe (pipeCopy c ref cols (to_table c ref cols)) (load_post ref cols x tx) x.
Proof.
  intros HT HL Hx Ho. unfold pipeCopy, pipe, copyAllCols, copy_to. apply safe_bind. apply safe_bind.
  apply (safe_open _ _ _ tx); [done..|]. intros rd0 x1 S1 C1 O1 Hrd. apply safe_ret; [apply S1|].
  set (rd := read_err _ rd0).
  assert (∀ stg, rd = inr stg → fresh_rows cols ref None None x1.1 stg) as Hfresh.
  { intros stg Hstg. assert (rd0 = inr stg) as -> by (unfold rd in Hstg; destruct rd0; [done|by injection Hstg as ->]). destruct (Hrd stg eq_refl) as (v1 & v2 & R1 & [-> [= ->]] & R2). apply rely_calm in R1, R2.
    apply (fresh_rows_calm _ _ _ _ v1); [apply R1|done|apply fresh_read]. }
  apply safe_bind. unfold to_table. apply safe_call; [apply S1|done|].
  intros ld x2. unfold world_step. cbn [is_store_call]. intros [(v1 & v2 & R1 & He & R2) Hs2].
  assert (a_tx v1 !! c = Some tx) as Htx1 by (rewrite (rely_tx _ _ R1); apply O1).
  pose proof (rely_tx _ _ R2) as E2. apply rely_calm in R1, R2.
  assert (calm v1 v2 ∧ ∃ tx2, a_tx v2 !! c = Some tx2 ∧
    (tx2 = tx ∧ (∃ e, ld = inl e) ∨ ∃ stg, rd = inr stg ∧ copyInto dflt_of (a_tgt v1) ref cols stg tx = Some tx2))
    as (Cm & tx2 & Htx2 & Hcase).
  { destruct He as [(stg & -> & He)|(_ & [e ->] & ->)].
    - rewrite Htx1 in He. destruct He as (tx' & Hc & ->). split; [by apply same_data_calm; [apply R1|]|].
      exists tx'. split; [simpl; by rewrite lookup_insert_eq|]. right. eauto.
    - split; [apply calm_refl, R1|]. exists tx. split; [done|]. left. eauto. }
  assert (calm x1.1 x2.1) as C2 by by eapply calm_trans, calm_trans.
  pose proof (calm_stepped x1 x2 (st_ok _ _ S1) C2 Hs2) as S2. pose proof (st_ok _ _ S2) as Hx2.
  pose proof (stepped_trans _ _ _ S1 S2) as S12. split; [done|]. apply safe_ret; [done|].
  destruct Hcase as [(-> & [e ->])|(stg & -> & Hc)].
  { assert (open_tx x2.1 tx) as O2 by (apply (open_tx_calm x1.1); [apply S1|done|by rewrite E2|apply O1]).
    destruct rd; by apply (load_post_fail _ _ _ _ _ _ tx). }
  unfold copyInto in Hc. case_decide; [|done]. injection Hc as <-.
  rewrite (calm_tgt _ _ R1) in *.
  pose proof (upsert_tx_upserted x1.1 ref cols stg tx) as Hu. specialize (Hfresh stg eq_refl).
  pose proof (upserted_vstep _ _ _ _ _ _ _ _ _ HL Hfresh Hu) as Hv.
  set (tx2 := upsert_tx _ _ _ _ _ _) in *.
  assert (open_tx x2.1 tx2) as O2.
  { apply (open_tx_calm x1.1); [apply S1|done|by rewrite E2|]. eapply vstep_trans; [apply O1|done]. }
  destruct ld as [e|u]; [by apply (load_post_fail _ _ _ _ _ _ tx2)|].
  split; [done|]. exists tx2. split; [done|]. intros _. split_and!; [by eapply calm_trans| |done|].
  - rewrite !(calm_vis _ _ _ C2). eapply vstep_calm; [apply S1|done..].
  - intros cs t k (-> & -> & Hk). rewrite (calm_vis _ _ _ C2). eapply agree_at_calm; [apply S1|done|].
    eapply (upserted_agree ref cols (λ _, True) None None x1 stg (vis x1.1 tx)); [done|apply S1|apply O1|done..].
Qed.
Lemma load_deferred_safe empty ref x tx :
  loadable ref → ok x → open_tx x.1 tx → tx_staging tx !! ref = None →
  csafe (load_deferred c empty ref) (load_post ref (cols_of ref) x tx) x.
Proof.
  intros Hl Hx Ho Hns. unfold load_deferred, srcTableMeta. apply safe_bind. apply safe_bind.
  apply (safe_open _ _ _ tx); [done..|]. intros r x1 S1 C1 O1 Hr. pose proof (st_ok _ _ S1) as Hx1.
  apply safe_ret; [done|]. destruct r as [e|tabs]; [apply safe_ret; [done|by apply (load_post_fail _ _ _ _ _ _ tx)]|].
  destruct (Hr tabs eq_refl) as (v1 & v2 & _ & (_ & tabs' & [= <-] & Hint) & _).
  change (list Engine.Table) in tabs. destruct (filter (λ t, tbl_Ref t = ref) tabs) as [|table l] eqn:E; [apply safe_ret; [done|by apply (load_post_fail _ _ _ _ _ _ tx)]|].
  assert (table ∈ filter (λ t, tbl_Ref t = ref) tabs) as [Href Hin]%list_elem_of_filter by (rewrite E; by left).
  rewrite (int_cols _ _ Hint _ Hin), Href. apply safe_bind.
  assert (∀ r y, ok y → load_post ref (cols_of ref) x1 tx r y →
    safe world_step world_requires ok (Ret (wrap ("postgres: cyclic deferred: copy " +:+ ref_string ref) r))
      (load_post ref (cols_of ref) x tx) y) as Hend.
  { intros r y Hy Hp. apply safe_ret; [done|]. apply (load_post_trans _ _ _ x1 _ tx); [done..|].
    destruct Hp as (Sy & tx' & Oy & H). split; [done|]. exists tx'. split; [done|]. destruct r; [done|]. intros _. by apply H. }
  destruct (default false _).
  - eapply safe_mono; [exact Hend|]. by apply direct_copy_safe; [apply Hl|apply Hl|..].
  - eapply safe_mono; [exact Hend|]. unfold stagedUpsertCopy. apply safe_bind.
    apply (safe_open _ _ _ tx); [done..|]. intros r x2 S2 C2 O2 _. pose proof (st_ok _ _ S2) as Hx2.
    destruct r as [e|table']; [apply safe_ret; [done|by apply (load_post_fail _ _ _ _ _ _ tx)]|].
    case_decide; [apply safe_ret; [done|by apply (load_post_fail _ _ _ _ _ _ tx)]|].
    eapply safe_mono; [|by apply staged_upsert_safe]. intros r x3 _. by apply load_post_trans.
Qed.

Lemma LoadCyclicDeferred_safe tables x :
  NoDup tables → (∀ t, t ∈ tables → loadable t) → ok x → a_tx x.1 !! c = None →
  csafe (LoadCyclicDeferred c tables) (tx_post (complete tables) x) x.
Proof.
  intros Hnd Hl Hx Hno. unfold LoadCyclicDeferred. apply safe_bind.
  apply (safe_for_each _ _ _ _ (λ _ _ y, stepped x y ∧ a_tx y.1 !! c = None)).
  - intros ref rest empty y Hy [Sy Ny]. unfold probe, targetEmpty. apply safe_bind. apply safe_bind.
    apply safe_idle; [done..|]. intros r y1 S1 _ N1 _. pose proof (stepped_trans _ _ _ Sy S1) as Sx.
    apply safe_ret; [apply S1|]. destruct r as [e|b]; (apply safe_ret; [apply S1|]); [|done].
    apply safe_ret; [apply S1|by apply tx_post_fail].
  - intros empty y Hy [Sy Ny]. eapply safe_mono; [intros r z _; by apply (tx_post_trans (complete tables))|].
    apply own_tx_safe; [done..|]. intros x1 S1 C1 Htx. apply begin_open in Htx; [|apply S1].
    unfold stmt_then. apply safe_bind. apply (safe_open _ _ _ (mkTx ∅ ∅ ∅)); [done|done|done|apply S1|done|].
    intros r x2 S2 C2 O2 _. destruct r as [e|u]; [apply safe_ret; [apply S2|]; split; [done|by eexists]|].
    unfold for_all. apply safe_bind.
    apply (safe_for_each _ _ _ _ (λ rest _ z, stepped x1 z ∧ ∃ tx, open_tx z.1 tx ∧
      (∀ t, t ∈ rest → tx_staging tx !! t = None) ∧ ∃ done, tables = done ++ rest ∧ holds (complete done) z.1 (vis z.1 tx))).
    + intros ref rest [] z Hz (Sz & tx & Oz & Hns & dn & Heq & Hd). apply safe_bind.
      eapply safe_mono; [|apply (load_deferred_safe empty ref z tx); [apply Hl; rewrite Heq; set_solver|done|done|apply Hns; by left]].
      intros r z1 Hz1 (Sz1 & tx1 & Oz1 & Hr). apply safe_ret; [done|]. pose proof (stepped_trans _ _ _ Sz Sz1) as Sx1.
      destruct r as [e|]; [apply safe_ret; [done|]; split; [done|by exists tx1]|].
      destruct (Hr eq_refl) as (C & Hv & Hst & Hh). split; [done|]. exists tx1. split; [done|]. split.
      { intros t Ht. rewrite Hst; [apply Hns; by right|]. intros ->. rewrite Heq in Hnd.
        apply NoDup_app in Hnd as (_ & _ & [Hn _]%NoDup_cons). by apply Hn. }
      exists (dn ++ [ref]). split; [by rewrite <-app_assoc|].
      intros cs t k (-> & [Hin|Hin%list_elem_of_singleton]%elem_of_app); [|subst t; by apply Hh].
      eapply vstep_agree; [exact Hv|]. rewrite (calm_vis _ _ _ C). eapply agree_at_calm; [apply Sz|done|]. by apply Hd.
    + intros [] z Hz (Sz & tx & Oz & _ & dn & Heq & Hd). rewrite app_nil_r in Heq. subst dn. apply safe_ret; [done|].
      split; [done|]. by exists tx.
    + apply S2.
    + split; [done|]. exists (mkTx ∅ ∅ ∅). split_and!; [done|intros t _; apply lookup_empty|]. exists [].
      split; [done|]. by intros cs t k (_ & ?%elem_of_nil).
  - done.
  - split; [by apply stepped_refl|done].
Qed.

Lemma CopyCyclicComponent_safe tables x :
  (∀ t, t ∈ tables → loadable t ∧ t ∈ src_tables) → ok x → a_tx x.1 !! c = None →
  csafe (CopyCyclicComponent c tables) (tx_post (complete tables) x) x.
Proof.
  intros Hl Hx Hno. unfold CopyCyclicComponent. apply safe_bind. apply safe_idle; [done..|].
  intros r x1 S1 _ N1 Hr. pose proof (st_ok _ _ S1) as Hx1.
  destruct r as [e|schema]; [apply safe_ret; [done|by apply tx_post_fail]|].
  destruct (Hr schema eq_refl) as (v1 & v2 & _ & (_ & tabs & [= <-] & Hint) & _).
  set (members := filter (λ t, tbl_Ref t ∈ tables) schema).
  assert (∀ t, t ∈ members → tbl_Ref t ∈ tables ∧ t ∈ schema) as Hmem by (by intros t [? ?]%list_elem_of_filter).
  assert (∀ t, t ∈ tbl_Ref <$> members ↔ t ∈ tables) as Hrefs.
  { intros t. rewrite list_elem_of_fmap. split; [by intros (tbl & -> & [? _]%Hmem)|]. intros Ht.
    destruct (Hl t Ht) as [_ Hsrc]. assert (t ∈ tbl_Ref <$> schema) as (tbl & -> & Htbl)%list_elem_of_fmap.
    { apply (int_tables _ _ Hint); [done|]. simpl. by apply list_elem_of_fmap_2. }
    exists tbl. split; [done|]. by apply list_elem_of_filter. }
  assert (NoDup (tbl_Ref <$> members)) as Hnd
    by apply (sublist_NoDup _ _ (int_nodup _ _ Hint)), fmap_sublist, sublist_filter.
  destruct (anyBlockedCyclicFK _); [apply safe_ret; [done|by apply tx_post_fail]|].
  apply safe_bind. apply (safe_mono _ _ _ _ (tx_post (complete tables) x1)).
  { intros r x2 Hx2 H2. apply safe_ret; [done|]. apply (tx_post_trans (complete tables)) with (x1 := x1); [done..|].
    destruct H2 as (S2 & N2 & H2). split_and!; [exact S2|exact N2|]. destruct r; [done|]. intros _. by apply H2. }
  assert (∀ r x2, tx_post (complete (tbl_Ref <$> members)) x1 r x2 → tx_post (complete tables) x1 r x2) as Hpost.
  { intros r x2. apply tx_post_trans; [by apply stepped_refl|]. intros cs t k (-> & Ht). split; [done|]. by apply Hrefs. }
  destruct (allDeferrable _).
  - eapply safe_mono; [intros r x2 _; apply Hpost|]. eapply safe_mono;
      [|apply (LoadCyclicDeferred_safe (orderMembers members)); [by apply NoDup_sort_by| |done|done]].
    + intros r x2 _. apply tx_post_trans; [by apply stepped_refl|]. intros cs t k (-> & Ht). split; [done|].
      unfold orderMembers, sortRefs. by rewrite elem_of_sort_by.
    + intros t. unfold orderMembers, sortRefs. rewrite elem_of_sort_by, Hrefs. apply Hl.
  - eapply safe_mono; [intros r x2 _; apply Hpost|]. apply nullFillComponent_safe; [done| | | |done|done].
    + intros t fk [_ Ht]%Hmem. by apply (int_own _ _ Hint).
    + intros t [_ Ht]%Hmem. by apply (int_cols _ _ Hint).
    + intros t Ht%Hrefs. by apply Hl.
Qed.

(** C4: the copy of a cyclic component is crash-safe and complete. Whatever the statements
    return (lost connections and acknowledgements, foreign-key violations on a live source,
    failed commits), whichever strategy the foreign keys ask for, and whatever is written on
    the source meanwhile: between any two statements a target row agrees with the source, has
    an unconsumed delta, or is a row of the source whose cyclic columns are still to be
    filled; no claim of the stored progress and no table that was complete before is
    spoiled; no transaction is left open; and when it returns no error every key of every
    table is in sync or has a delta on the way. *)
Theorem CopyCyclicComponent_copies (tables : list TableRef) (x : world) :
  (∀ t, t ∈ tables → T t ∧ L t ∧ 0 < key_arity t ∧ t ∈ src_tables) →
  CInv T L G sync target x → a_tx x.1 !! c = None →
  safe world_step world_requires (CInv T L G sync target) (CopyCyclicComponent c tables)
    (λ r x', a_tx x'.1 !! c = None ∧ (∀ t k, good x.1 t k → good x'.1 t k) ∧
       (r = None → ∀ t k, t ∈ tables → synced x'.1 t k ∨ dirty x'.1 t k)) x.
Proof.
  intros Hl Hx Hno. eapply safe_mono; [|apply (CopyCyclicComponent_safe tables); [|done..]].
  - intros r x' _ (S1 & N1 & H1). split_and!; [done|intros t k; by apply stepped_good|].
    intros Hr t k Ht. by apply good_agree, (H1 Hr).
  - intros t Ht. destruct (Hl t Ht) as (? & ? & ? & ?). by split_and!.
Qed.
End safety.

(** ** The Postgres sink is a cyclic copier *)

Abbreviation row_calls := (only (λ o, is_store_call o = false)).

Lemma own_tx_calls c msg body : row_calls body → row_calls (own_tx c msg body).
Proof.
  intros Hb. apply only_bind; [by apply only_call|]. intros [e|u]; [done|]. apply only_bind; [done|].
  intros [e|]; (apply only_bind; [by apply only_call|]); [done|].
  intros [e|?]; [|done]. apply only_bind; [by apply only_call|done].
Qed.

Lemma stmt_then_calls c q msg k : row_calls k → row_calls (stmt_then c q msg k).
Proof. intros Hk. apply only_bind; [by apply only_call|]. by intros [e|u]. Qed.

Lemma pipe_calls c msg ref cols lo hi into :
  (∀ rd, row_calls (into rd)) → row_calls (pipe (copy_to c msg ref cols lo hi) into).
Proof. intros Hi. apply only_bind; [by apply only_bind; [apply only_call|]|]. intros rd. by apply only_bind. Qed.

Lemma for_all_calls {A} (l : list A) f : (∀ a, row_calls (f a)) → row_calls (for_all l f).
Proof. intros Hf. apply only_bind; [|by intros []]. apply only_for_each. intros a []. by apply only_bind. Qed.

Lemma copyRangeOnce_calls c ref cols pk lo hi : row_calls (copyRangeOnce c ref cols pk lo hi).
Proof.
  unfold copyRangeOnce. destruct (keysetPredicate pk lo hi); [done|]. apply own_tx_calls, stmt_then_calls.
  apply only_bind; [apply pipe_calls; intros; by apply only_call|]. intros [e|]; [done|]. by apply stmt_then_calls.
Qed.

Lemma reconnect_calls c h r : is_store_call h = false → is_store_call r = false → row_calls (reconnectConn c h r).
Proof. intros. apply only_bind; [by apply only_call|]. intros [e|u]; [|done]. apply only_bind; [by apply only_call|done]. Qed.

Lemma range_attempts_calls tries c ref cols pk lo hi e : row_calls (range_attempts tries c ref cols pk lo hi e).
Proof.
  revert e. induction tries as [|tries IH]; intros e; [done|]. cbn [range_attempts].
  apply only_bind; [apply copyRangeOnce_calls|]. intros [err|]; [|done].
  apply only_bind; [by apply only_call|]. intros [ctx|]; [done|].
  apply only_bind; [by apply only_call|]. intros s. apply only_bind.
  { destruct (down s); [done|]. apply only_bind; [by apply only_call|done]. }
  intros d. destruct (negb d); [done|]. apply only_bind; [by apply reconnect_calls|]. intros _.
  apply only_bind; [by apply reconnect_calls|]. intros _. apply only_bind; [by apply only_call|]. by intros [w|].
Qed.

Lemma upsertFromStaging_calls c ref cols pk : row_calls (upsertFromStaging c ref cols pk).
Proof.
  apply only_bind; [by apply only_call|]. intros [e|chunks]; [by apply stmt_then_calls|].
  destruct (negb _); [by apply stmt_then_calls|]. apply for_all_calls. intros ch.
  destruct (keysetPredicate _ _ _); [done|]. by apply stmt_then_calls.
Qed.

Lemma staged_upsert_calls c ref cols pk : row_calls (staged_upsert_body c ref cols pk).
Proof.
  apply stmt_then_calls, only_bind; [apply pipe_calls; intros; by apply only_call|].
  intros [e|]; [done|]. apply upsertFromStaging_calls.
Qed.

Lemma stagedUpsertCopy_calls c ref cols own : row_calls (stagedUpsertCopy c ref cols own).
Proof.
  apply only_bind; [by apply only_call|]. intros [e|table]; [done|]. cbv zeta. case_decide; [done|].
  destruct own; [apply own_tx_calls|]; apply staged_upsert_calls.
Qed.

Lemma plan_table_calls c ref : row_calls (plan_table c ref).
Proof.
  apply only_bind; [by apply only_call|]. intros [e|tgt]; [done|]. cbv zeta. case_decide; [done|].
  by apply only_bind; [apply only_call|].
Qed.

Lemma copyOrUpsert_calls c ref cols : row_calls (copyOrUpsert c ref cols).
Proof.
  apply only_bind; [apply plan_table_calls|]. intros [e|[pk chunks]]; [done|]. destruct (negb _).
  - apply only_bind; [by apply only_bind; [apply only_call|]|]. intros [e|[|]]; [done| |apply stagedUpsertCopy_calls].
    apply pipe_calls. intros. by apply only_call.
  - apply for_all_calls. intros ch. apply range_attempts_calls.
Qed.

Lemma parent_attempts_calls c byRef cc tries load ps e :
  row_calls load → row_calls (parent_attempts c byRef cc tries load ps e).
Proof.
  intros Hl. revert e. induction tries as [|tries IH]; intros e; [done|]. cbn [parent_attempts].
  apply only_bind; [done|]. intros [err|]; [|done]. destruct (negb _); [done|]. case_decide; [done|].
  apply only_bind; [apply for_all_calls; intros; apply copyOrUpsert_calls|]. intros [e'|]; [done|].
  apply only_bind; [by apply only_call|]. by intros [w|].
Qed.

Lemma fillFKRange_calls c ref pk fk lo hi : row_calls (fillFKRange c ref pk fk lo hi).
Proof.
  apply own_tx_calls, stmt_then_calls, only_bind; [apply pipe_calls; intros; by apply only_call|].
  intros [e|]; [done|]. by apply stmt_then_calls.
Qed.

Lemma nullFill_calls c members cyc : row_calls (nullFillComponent c members cyc).
Proof.
  apply only_bind; [|intros [e|]; [done|]]; apply for_all_calls; intros ref.
  - apply only_bind; [|done]. apply only_bind; [apply plan_table_calls|]. intros [e|[pk chunks]]; [done|].
    destruct (negb _); [apply parent_attempts_calls, copyOrUpsert_calls|]. apply for_all_calls. intros ch.
    apply parent_attempts_calls, range_attempts_calls.
  - unfold fill_member. case_decide; [done|]. case_decide; [done|]. apply only_bind; [|done].
    apply only_bind; [by apply only_call|]. intros [e|tgt]; [done|]. apply only_bind; [by case_decide; [|apply only_call]|].
    intros [e|chunks]; [done|]. destruct (negb _); [apply fillFKRange_calls|]. apply for_all_calls. intros ch.
    destruct (keysetPredicate _ _ _); [done|]. apply fillFKRange_calls.
Qed.

Lemma deferred_calls c tables : row_calls (LoadCyclicDeferred c tables).
Proof.
  apply only_bind.
  - apply only_for_each. intros ref empty. apply only_bind; [|done]. by apply only_bind; [apply only_call|].
  - intros [e|empty]; [done|]. apply own_tx_calls, stmt_then_calls, for_all_calls. intros ref.
    apply only_bind; [by apply only_bind; [apply only_call|]|]. intros [e|table]; [done|]. apply only_bind; [|done].
    destruct (default false _); [|apply stagedUpsertCopy_calls]. apply pipe_calls. intros. by apply only_call.
Qed.

Lemma CopyCyclicComponent_calls c tables : row_calls (CopyCyclicComponent c tables).
Proof.
  apply only_bind; [by apply only_call|]. intros [e|schema]; [done|]. cbv zeta. destruct (anyBlockedCyclicFK _); [done|].
  apply only_bind; [|done]. destruct (allDeferrable _); [apply deferred_calls|apply nullFill_calls].
Qed.

#[global] Instance pg_cyclic_copier `{Sch : Schema} : CyclicCopier.
Proof.
  refine {| copy_cyclic := CopyCyclicComponent 0; copy_cyclic_calls := CopyCyclicComponent_calls 0 |}.
  intros T L G sync target tables x Hl Hx Hno.
  eapply safe_mono; [|apply (CopyCyclicComponent_safe T L G sync target 0 tables); [|done..]].
  - intros r x' _ (S1 & N1 & H1). split_and!; [intros t k; by eapply stepped_good|done|].
    intros Hr t k Ht. by apply good_agree, (H1 Hr).
  - intros t Ht. destruct (Hl t Ht) as (? & ? & ? & ?). by split_and!.
Defined.
End PgCyclicCopy.
