(* ===== verification/Reseed.v ===== *)
(** * Bounded retention and forced reseed ([internal/reseed/reseed.go],
    [internal/pipeline/stream.go])

    [Enforce] purges the component's delta tables and marks the targets that had
    to be sacrificed; [Run] re-derives a sacrificed target: it empties the
    target's tables, resets the copy progress, copies again and cuts back to
    streaming. The marks are the [needs_reseed] flags of the cursors in the state
    store, which is what a restarted daemon sees. *)

From S2P Require Import Prelude Engine Calls ApplyTx Plan Contract Apply Postgres PgDrain Purge Store Copy.
Import ApplyTx Plan Contract Apply Postgres PgDrain Purge Store Copy.

Module Reseed.

(** ** Enforce *)

Record EnforceResult := mkEnforce {
  en_Reseeded : list TargetID;
  en_Purged : gmap TableRef Z
}.

(** One table's purge: the counts and the set of sacrificed targets so far. *)
Definition enforce_purge (c : nat) (targets : list TargetID) (ret : RetentionPolicy) (t : TableRef)
    (acc : gmap TableRef Z * gset TargetID) : prog (error + gmap TableRef Z * gset TargetID) :=
  stats ← do_call c (Calls.Purge t targets ret);
  Ret (match stats with
       | inl e => inl (Errorf "reseed: enforce purge" e)
       | inr stats =>
           inr (if decide (0 < DeltasPurged stats)%Z then <[t := DeltasPurged stats]> acc.1 else acc.1,
                list_to_set (TargetsReseeded stats) ∪ acc.2)
       end).

Definition mark_reseed (cur : Cursor) : Cursor :=
  mkCursor (cur_Target cur) (cur_Table cur) PhaseInitialCopy (cur_LastDelta cur) true.

Definition mark_cursor (c : nat) (syncName : string) (tg : TargetID) (t : TableRef) (_ : unit)
    : prog (error + unit) :=
  r ← do_call c (LoadCursor syncName tg t);
  match r with
  | inl e => Ret (inl (Errorf "reseed: enforce load cursor" e))
  | inr cur =>
      r ← do_call c (SaveCursor syncName (mark_reseed cur));
      Ret (match r with inl e => inl (Errorf "reseed: enforce mark cursor" e) | inr _ => inr tt end)
  end.

Definition mark_target (c : nat) (syncName : string) (tables : list TableRef) (tg : TargetID) (_ : unit)
    : prog (error + unit) :=
  r ← for_each tables (mark_cursor c syncName tg) tt;
  match r with
  | inl e => Ret (inl e)
  | inr _ =>
      r ← do_call c (RecordEvent (mkEvent syncName tg zeroRef "ERROR" "target.needs_reseed"
            "delta backlog exceeded retention cap; target scheduled for reseed"));
      Ret (match r with inl e => inl (Errorf "reseed: enforce record event" e) | inr _ => inr tt end)
  end.

Definition Enforce (c : nat) (syncName : string) (tablesTopo : list TableRef)
    (targets : list TargetID) (ret : RetentionPolicy) : prog (result EnforceResult) :=
  r ← for_each tablesTopo (enforce_purge c targets ret) (∅, ∅);
  match r with
  | inl e => Ret (inl e)
  | inr (purged, reseedSet) =>
      if decide (reseedSet = ∅) then Ret (inr (mkEnforce [] purged))
      else
        let reseeded := sort_by id (elements reseedSet) in
        r ← for_each reseeded (mark_target c syncName tablesTopo) tt;
        Ret (match r with inl e => inl e | inr _ => inr (mkEnforce reseeded purged) end)
  end.

(** ** Run *)

Definition clear_table (t : TableRef) (_ : unit) : prog (error + unit) :=
  r ← do_call 0 (DeleteRange t None None);
  Ret (match r with inl e => inl (Errorf "reseed: clear target" e) | inr _ => inr tt end).

Definition reset_progress (syncName : string) (target : TargetID) (t : TableRef) (_ : unit)
    : prog (error + unit) :=
  r ← do_call 0 (SaveCopyProgress syncName (mkProgress target t false None []));
  Ret (match r with inl e => inl (Errorf "reseed: reset progress" e) | inr _ => inr tt end).

Definition stream_cursor (cur : Cursor) : Cursor :=
  mkCursor (cur_Target cur) (cur_Table cur) PhaseStreaming (cur_LastDelta cur) false.

Definition cutover_cursor (syncName : string) (target : TargetID) (t : TableRef) (_ : unit)
    : prog (error + unit) :=
  r ← do_call 0 (LoadCursor syncName target t);
  match r with
  | inl e => Ret (inl (Errorf "reseed: load cursor" e))
  | inr cur =>
      r ← do_call 0 (SaveCursor syncName (stream_cursor cur));
      Ret (match r with inl e => inl (Errorf "reseed: cutover cursor" e) | inr _ => inr tt end)
  end.

Definition Run (workers : nat) (verifier : bool) (sched : list Chunk → list (nat * nat))
    (syncName : string) (target : TargetID) (tablesTopo : list TableRef) (opts : ChunkOptions)
    : prog (option error) :=
  if Nat.eqb (length tablesTopo) 0 then Ret None
  else if Nat.eqb workers 0 then Ret (Some (Failure "reseed: no copy workers"))
  else
    r ← for_each (reverse tablesTopo) clear_table tt;
    match r with
    | inl e => Ret (Some e)
    | inr _ =>
        r ← for_each tablesTopo (reset_progress syncName target) tt;
        match r with
        | inl e => Ret (Some e)
        | inr _ =>
            r ← Copy.Component workers verifier sched syncName target tablesTopo opts None;
            match r with
            | Some e => Ret (Some (Errorf "reseed: re-copy" e))
            | None =>
                r ← for_each tablesTopo (cutover_cursor syncName target) tt;
                match r with
                | inl e => Ret (Some e)
                | inr _ =>
                    r ← do_call 0 (RecordEvent (mkEvent syncName target zeroRef "INFO" "table.cutover_to_streaming"
                          "reseed complete; target re-copied and resumed streaming"));
                    Ret (match r with
                         | inl e => Some (Errorf "reseed: record cutover" e)
                         | inr _ => None
                         end)
                end
            end
        end
    end.

(** ** When the streaming pass reseeds ([targetNeedsReseed], [touchCursors]) *)

Definition targetNeedsReseed (syncName : string) (target : TargetID) : prog (result bool) :=
  r ← do_call 0 (ListCursors syncName);
  Ret (match r with
       | inl e => inl e
       | inr cursors =>
           inr (existsb (λ cur, bool_decide (cur_Target cur = target) && cur_NeedsReseed cur) cursors)
       end).

Definition touch_cursor (syncName : string) (target : TargetID) (t : TableRef) (_ : unit)
    : prog (error + unit) :=
  r ← do_call 0 (LoadCursor syncName target t);
  match r with
  | inl _ => Ret (inr tt)
  | inr cur => _ ← do_call 0 (SaveCursor syncName cur); Ret (inr tt)
  end.

Definition touchCursors (syncName : string) (target : TargetID) (replicable : list TableRef) : prog unit :=
  _ ← for_each replicable (touch_cursor syncName target) tt; Ret tt.

(** ** Enforce marks every target it sacrificed *)

(** The state store and the targets whose queue has been sacrificed so far. A
    failed purge may have sacrificed targets too. *)
Abbreviation eworld := (store * gset TargetID)%type.

Definition enforce_step (c : nat) (o : call) (w : eworld) : result (resp o) → eworld → Prop :=
  match o return result (resp o) → eworld → Prop with
  | Calls.Purge _ _ _ => λ r w', w'.1 = w.1 ∧
      match r with
      | inl _ => w.2 ⊆ w'.2
      | inr stats => w'.2 = list_to_set (TargetsReseeded stats) ∪ w.2
      end
  | o => λ r w', if is_store_call o then store_step o w.1 r w'.1 ∧ w'.2 = w.2 else True
  end.

Definition marked (sync : string) (tg : TargetID) (t : TableRef) (s : store) : Prop :=
  cur_NeedsReseed (loadCursor sync tg t s) = true ∧ cur_Phase (loadCursor sync tg t s) = PhaseInitialCopy.

Section enforce.
Context (sync : string).

Abbreviation esafe := (safe enforce_step (λ _ _ _, True) (λ _, True)).

(** Marks that are there stay. *)
Definition marks_le (s s' : store) : Prop := ∀ tg t, marked sync tg t s → marked sync tg t s'.

#[global] Instance marks_le_refl : Reflexive marks_le.
Proof. by intros s tg t. Qed.

Lemma mark_cursor_safe c tg t Q (w : eworld) :
  (∀ r (w' : eworld), w'.2 = w.2 → marks_le w.1 w'.1 → (r = inr tt → marked sync tg t w'.1) → Q r w') →
  esafe (mark_cursor c sync tg t tt) Q w.
Proof.
  intros HQ. apply safe_bind. apply safe_call; [done..|]. intros r w1 [(r0 & s0 & Hc & Hs) Hw1].
  simpl in Hc. injection Hc as <- <-. split; [done|].
  assert (w1.1 = w.1) as Hs1 by by destruct Hs as [[_ ->]|[_ [-> | ->]]].
  destruct r as [e|cur]; [apply safe_ret; [done|]; apply HQ; [done|by rewrite Hs1|done]|].
  destruct Hs as [[[= ->] _]|[[e [=]] _]].
  apply safe_bind. apply safe_call; [done..|]. intros r w2 [(r0 & s2 & Hc & Hs) Hw2]. split; [done|].
  simpl in Hc.
  assert (w2.1 = w1.1 ∨ saveCursor sync (mark_reseed (loadCursor sync tg t w.1)) w1.1 = inr w2.1) as Hcase.
  { destruct (saveCursor _ _ _) as [e|s1] eqn:Es; injection Hc as <- <-;
      destruct Hs as [[-> ->]|[_ [-> | ->]]]; auto. }
  assert (r = inr tt → saveCursor sync (mark_reseed (loadCursor sync tg t w.1)) w1.1 = inr w2.1) as Hok.
  { intros ->. destruct (saveCursor _ _ _) as [e|s1] eqn:Es; injection Hc as <- <-;
      destruct Hs as [[? ->]|[[? [=]] _]]; [done|done]. }
  assert (∀ s', saveCursor sync (mark_reseed (loadCursor sync tg t w.1)) w1.1 = inr s' →
    marks_le w.1 s' ∧ marked sync tg t s') as Hsave.
  { intros s' Es. pose proof (λ a b, loadCursor_save _ _ _ _ sync a b Es) as Hl. simpl in Hl.
    assert (cur_Target (loadCursor sync tg t w.1) = tg ∧ cur_Table (loadCursor sync tg t w.1) = t)
      as [E1 E2] by (unfold loadCursor; by destruct (st_cursors w.1 !! _)).
    rewrite E1, E2, Hs1 in Hl. split.
    - intros tg' t' [Hn Hp]. unfold marked. rewrite Hl. by case_decide.
    - unfold marked. rewrite Hl. by rewrite decide_True. }
  apply safe_ret; [done|]. apply HQ.
  - by rewrite Hw2.
  - destruct Hcase as [-> | ?]; [by rewrite Hs1|by apply Hsave].
  - destruct r as [e|[]]; [done|]. intros _. by apply Hsave, Hok.
Qed.

Lemma mark_target_safe c tables tg Q (w : eworld) :
  (∀ r (w' : eworld), w'.2 = w.2 → marks_le w.1 w'.1 →
     (r = inr tt → ∀ t, t ∈ tables → marked sync tg t w'.1) → Q r w') →
  esafe (mark_target c sync tables tg tt) Q w.
Proof.
  intros HQ. apply safe_bind.
  apply (safe_for_each _ _ _ _ (λ l _ w', w'.2 = w.2 ∧ marks_le w.1 w'.1 ∧
    ∃ done, tables = done ++ l ∧ ∀ t, t ∈ done → marked sync tg t w'.1)).
  - intros t l [] w1 _ (E1 & M1 & done & Heq & Hd). apply mark_cursor_safe.
    intros r w2 E2 M2 Hm.
    assert (marks_le w.1 w2.1) as M by (intros ?? ?; by apply M2, M1).
    destruct r as [e|[]]; [apply safe_ret; [done|]; apply HQ; [congruence|done..]|].
    split_and!; [congruence|done|]. exists (done ++ [t]). split; [by rewrite <-app_assoc|].
    intros t' [Hin|Hin%list_elem_of_singleton]%elem_of_app; [by apply M2, Hd|subst; by apply Hm].
  - intros [] w1 _ (E1 & M1 & done & Heq & Hd). rewrite app_nil_r in Heq. subst done.
    apply safe_bind. apply safe_call; [done..|]. intros r w2 [(r0 & s0 & Hc & Hs) E2].
    simpl in Hc. injection Hc as <- <-. split; [done|]. apply safe_ret; [done|].
    assert (∀ tg t, marked sync tg t w1.1 → marked sync tg t w2.1) as M2
      by by destruct Hs as [[_ ->]|[_ [-> | ->]]].
    apply HQ; [congruence|intros ?? ?; by apply M2, M1|].
    intros _ t Ht. by apply M2, Hd.
  - done.
  - split_and!; [done..|]. exists []. split; [done|]. by intros t ?%elem_of_nil.
Qed.

(** When [Enforce] reports success, the targets it returns are exactly the
    ones whose queue a purge sacrificed, sorted, and every cursor of each of them
    over the component is marked for a reseed in the state store. *)
Theorem Enforce_marks (c : nat) (tables : list TableRef) (targets : list TargetID)
    (ret : RetentionPolicy) (s : store) :
  safe enforce_step (λ _ _ _, True) (λ _, True) (Enforce c sync tables targets ret)
    (λ r w', ∀ res, r = inr res →
       StronglySorted str_le (en_Reseeded res) ∧
       ∀ tg, (tg ∈ en_Reseeded res ↔ tg ∈ w'.2) ∧
         (tg ∈ w'.2 → ∀ t, t ∈ tables → marked sync tg t w'.1)) (s, ∅).
Proof.
  unfold Enforce. apply safe_bind.
  apply (safe_for_each _ _ _ _ (λ _ acc w', w'.2 = acc.2)).
  - intros t l [purged sac] w _ Hw. simpl in Hw. apply safe_bind. apply safe_call; [done..|].
    intros r w1 [_ Hr]. split; [done|]. apply safe_ret; [done|].
    destruct r as [e|stats]; [apply safe_ret; [done|]; by intros res [=]|]. simpl. by rewrite Hr, Hw.
  - intros [purged sac] w _ Hw. simpl in Hw. case_decide as Hsac.
    { apply safe_ret; [done|]. intros res [= <-]. split; [constructor|]. intros tg.
      rewrite Hw, Hsac. simpl. split; [set_solver|by intros ?%elem_of_empty]. }
    apply safe_bind.
    apply (safe_for_each _ _ _ _ (λ l _ w', w'.2 = sac ∧
      ∃ done, sort_by id (elements sac) = done ++ l ∧
        ∀ tg t, tg ∈ done → t ∈ tables → marked sync tg t w'.1)).
    + intros tg l [] w1 _ (E1 & done & Heq & Hd). apply mark_target_safe.
      intros r w2 E2 M2 Hm. destruct r as [e|[]]; [apply safe_ret; [done|]; by intros res [=]|].
      split; [congruence|]. exists (done ++ [tg]). split; [by rewrite <-app_assoc|].
      intros tg' t [Hin|Hin%list_elem_of_singleton]%elem_of_app Ht; [by apply M2, Hd|subst; by apply Hm].
    + intros [] w1 _ (E1 & done & Heq & Hd). rewrite app_nil_r in Heq. apply safe_ret; [done|].
      intros res [= <-]. simpl.
      assert (∀ tg, tg ∈ sort_by id (elements sac) ↔ tg ∈ sac) as Hel
        by (intros tg; by rewrite elem_of_sort_by, elem_of_elements).
      split.
      * apply (StronglySorted_merge_sort (key_le id)).
      * intros tg. rewrite E1, Hel. split; [done|]. intros Htg t Ht. apply Hd; [|done].
        by rewrite <-Heq, Hel.
    + done.
    + split; [done|]. exists []. split; [done|]. by intros tg t ?%elem_of_nil.
  - done.
  - done.
Qed.
End enforce.

(** ** Run recovers a target from any state *)

Section run.
Context `{Sch : Schema} (sync : string) (target : TargetID) (tables : list TableRef).

Definition all_good (v : astate) : Prop := ∀ t k, t ∈ tables → good v t k.

(** Some table of the component is still marked. *)
Definition some_mark (s : store) : Prop :=
  ∃ t, t ∈ tables ∧ cur_NeedsReseed (loadCursor sync target t s) = true.

(** Either everything is in step, or a restarted daemon still sees the mark. *)
Definition RInv (x : world) : Prop := pend_ok x.1 ∧ (all_good x.1 ∨ some_mark x.2).

(** What surrounds the run: tables [G] of other components that are in step, a
    fact [N] about the cursors that the cutover of these tables does not change, and
    the mark [M] that is left while the rows of the component are not in step. *)
Context (G : TableRef → Prop) (N M : store → Prop).
Context (HG : ∀ t, G t → t ∉ tables).
Context (HN : ∀ s s', st_cursors s' = st_cursors s → N s → N s').
Context (HM : ∀ s s', st_cursors s' = st_cursors s → M s → M s').
Context (HNcut : ∀ t s s', t ∈ tables →
  saveCursor sync (stream_cursor (loadCursor sync target t s)) s = inr s' → N s → N s').

Record around (x : world) : Prop := {
  ar_pend : pend_ok x.1;
  ar_good t k : G t → good x.1 t k;
  ar_cursors : N x.2
}.

Definition GInv (x : world) : Prop := around x ∧ (all_good x.1 ∨ M x.2).

Lemma around_calm x x' :
  around x → calm x.1 x'.1 → st_cursors x'.2 = st_cursors x.2 → around x'.
Proof.
  intros [Hp Hg Hn] C Hs. split; [apply C| |by eapply HN].
  intros t k Ht. by eapply good_calm; [..|apply Hg].
Qed.

Abbreviation rsafe := (safe world_step world_requires GInv).

Definition cleared (v : astate) (ts : list TableRef) : Prop :=
  ∀ t k, t ∈ ts → a_tgt v !! (t, k) = None.

Lemma clear_table_safe t ts Q x :
  t ∈ tables → around x → M x.2 → cleared x.1 ts →
  (∀ r x', around x' → x'.2 = x.2 → (∀ u, r = inr u → cleared x'.1 (ts ++ [t])) → cleared x'.1 ts → Q r x') →
  rsafe (clear_table t tt) Q x.
Proof.
  intros Htt Ha Hm Hcl HQ. apply safe_bind. apply safe_call; [by split; [|right]|done|].
  intros r x' [(v1 & v2 & R1 & He & R2) Hs]. cbn [is_store_call] in *.
  apply rely_calm in R1, R2. pose proof (ar_pend _ Ha) as Hp.
  assert (∀ t' k, a_tgt x'.1 !! (t', k) = a_tgt v2 !! (t', k)) as Ht2 by by rewrite (calm_tgt _ _ R2).
  assert (∀ t' k, a_tgt v1 !! (t', k) = a_tgt x.1 !! (t', k)) as Ht1 by by rewrite (calm_tgt _ _ R1).
  assert (around x') as Ha'.
  { split; [apply R2| |rewrite Hs; apply Ha]. intros t' k HGt.
    assert (good v1 t' k) as Hg1 by (eapply good_calm; [..|by apply (ar_good _ Ha)]; done).
    apply (good_calm v2); [| done |].
    - destruct He as [->|(_ & _ & ->)]; apply R1.
    - destruct He as [->|(_ & _ & ->)]; [|done]. revert Hg1. unfold good, synced, dirty. simpl.
      rewrite lookup_deleteRows, decide_False; [done|]. intros [-> _]. by apply (HG t). }
  assert (GInv x') as HR by (split; [done|right; by rewrite Hs]). split; [done|].
  apply safe_ret; [done|]. apply HQ; [done..| |].
  - intros [] Hr t' k [Ht|Ht%list_elem_of_singleton]%elem_of_app; rewrite Ht2;
      destruct He as [->|(_ & [e ->] & _)]; try done; simpl; rewrite lookup_deleteRows.
    + case_decide; [done|]. rewrite Ht1. by apply Hcl.
    + subst t'. by rewrite decide_True.
  - intros t' k Ht. rewrite Ht2. destruct He as [->|(_ & _ & ->)]; simpl.
    + rewrite lookup_deleteRows. case_decide; [done|]. rewrite Ht1. by apply Hcl.
    + rewrite Ht1. by apply Hcl.
Qed.

(** Store calls: the rows only see interference. *)
Lemma reset_progress_safe t Q x :
  around x → M x.2 →
  (∀ r x', around x' → a_tgt x'.1 = a_tgt x.1 → st_cursors x'.2 = st_cursors x.2 →
     (∀ t', t' ≠ t → loadCopyProgress sync target t' x'.2 = loadCopyProgress sync target t' x.2) →
     (∀ u, r = inr u → loadCopyProgress sync target t x'.2 = mkProgress target t false None []) →
     Q r x') →
  rsafe (reset_progress sync target t tt) Q x.
Proof.
  intros Ha Hm HQ. apply safe_bind. apply safe_call; [by split; [|right]|done|].
  intros r x' [R (r0 & s0 & Hc & Hs)]. cbn [is_store_call] in *. apply rely_calm in R. simpl in Hc.
  set (p := mkProgress target t false None []) in *.
  assert (x'.2 = x.2 ∧ (∀ u, r ≠ inr u) ∨ saveCopyProgress sync p x.2 = inr x'.2) as Hcase.
  { destruct (saveCopyProgress sync p x.2) as [e|s1] eqn:Es; injection Hc as <- <-;
      destruct Hs as [[-> ->]|[[e' ->] [-> | ->]]]; auto. }
  assert (st_cursors x'.2 = st_cursors x.2) as Hcur.
  { destruct Hcase as [[-> _]|E]; [done|]. unfold saveCopyProgress in E.
    destruct (st_syncs x.2 !! sync); [|done]. by injection E as <-. }
  assert (around x') as Ha' by by apply (around_calm x).
  assert (GInv x') as HR by (split; [done|right; by eapply HM]).
  split; [done|]. apply safe_ret; [done|]. apply HQ; [done|apply R|done|..].
  - intros t' Hne. destruct Hcase as [[-> _]|E]; [done|].
    rewrite (loadCopyProgress_save _ _ _ _ _ _ _ E), decide_False; [done|]. simpl. by intros [= ->].
  - intros u Hr. destruct Hcase as [[_ Hn]|E].
    { destruct r as [e|[]]; [done|]. by destruct (Hn tt). }
    rewrite (loadCopyProgress_save _ _ _ _ _ _ _ E). by rewrite decide_True.
Qed.

(** The copy does not touch the cursors. *)
Definition keeps_cursors (o : call) : Prop :=
  match o with SaveCursor _ _ | Calls.Purge _ _ _ => False | _ => True end.

Lemma store_step_cursors o s r s' : keeps_cursors o → store_step o s r s' → st_cursors s' = st_cursors s.
Proof.
  intros Ho (r0 & s0 & Hc & Hs). assert (st_cursors s0 = st_cursors s) as H0.
  { destruct o; simpl in *; try done; try (by injection Hc as <- <-).
    unfold saveCopyProgress in Hc. destruct (st_syncs s !! sync0); by injection Hc as <- <-. }
  by destruct Hs as [[_ ->]|[_ [-> | ->]]].
Qed.

Lemma world_step_cursors c o x r x' :
  keeps_cursors o → world_step c o x r x' → st_cursors x'.2 = st_cursors x.2.
Proof.
  intros Ho. unfold world_step. destruct (is_store_call o).
  - intros [_ Hs]. by eapply store_step_cursors.
  - by intros [_ ->].
Qed.

(** The calls of the copy. *)
Definition copy_call (o : call) : Prop :=
  match o with
  | LoadCopyProgress _ _ _ | SaveCopyProgress _ _ | Introspect _ | PlanChunks _ _ | CopyChunk _
  | BulkLoad _ _ _ _ | DeleteRange _ _ _ | CountRows _ | SrcHealthCheck | SrcReconnect
  | SinkHealthCheck | SinkReconnect | CtxErr | After _ => True
  | _ => False
  end.

Lemma copy_keeps_cursors o : copy_call o → keeps_cursors o.
Proof. by destruct o. Qed.

Lemma copy_attempts_only tries c ref cols ch mode e :
  only copy_call (copy_attempts tries c ref cols ch mode e).
Proof.
  revert mode e. induction tries as [|tries IH]; intros mode e; [done|]. cbn [copy_attempts].
  apply only_bind; [by repeat split|]. intros [err|n]; [|done].
  apply only_bind; [done|]. intros [ctx|]; [done|].
  apply only_bind; [done|]. intros s. apply only_bind; [destruct (down s); by repeat split|].
  intros d. destruct d; [|done]. simpl.
  split; [done|]. intros [?|?]; simpl; repeat (split; [done|]); intros;
    repeat first [done | split; [done|]; intros | case_match; simpl].
Qed.

Lemma Component_only workers verifier sched opts forced :
  only copy_call (Copy.Component workers verifier sched sync target tables opts forced).
Proof.
  unfold Copy.Component. destruct (Nat.eqb workers 0); [done|]. apply only_bind; [|by intros []].
  apply only_for_each. intros ref []. apply only_bind; [|by intros []].
  unfold copyTable. apply only_bind; [done|]. intros [e|p]; [done|]. destruct (cp_Done p); [done|].
  apply only_bind.
  { unfold resolveLoadMode. destruct forced; [done|]. by destruct verifier. }
  intros mode. apply only_bind; [done|]. intros [e|chunks]; [done|].
  apply only_bind; [done|]. intros [e|cols]; [done|].
  apply only_bind.
  - apply only_for_each. intros [wk i] s. unfold chunk_step. destruct (chunks !! i); [|done].
    apply only_bind; [apply copy_attempts_only|]. intros [e|n]; [done|].
    destruct (finish_chunk chunks target ref i s) as [s' [p'|]]; [|done]. by apply only_bind.
  - intros [e|s]; [done|]. by apply only_bind.
Qed.

Definition streaming (s : store) (t : TableRef) : Prop :=
  cur_Phase (loadCursor sync target t s) = PhaseStreaming ∧
  cur_NeedsReseed (loadCursor sync target t s) = false.

Lemma all_good_calm v v' : pend_ok v → calm v v' → all_good v → all_good v'.
Proof. intros Hp C Hg t k Ht. eapply good_calm; [done..|by apply Hg]. Qed.

Lemma cutover_cursor_safe t Q x :
  t ∈ tables → around x → all_good x.1 →
  (∀ r x', around x' → all_good x'.1 → (∀ t', streaming x.2 t' → streaming x'.2 t') →
     (∀ u, r = inr u → streaming x'.2 t) → Q r x') →
  rsafe (cutover_cursor sync target t tt) Q x.
Proof.
  intros Htt Ha Hg HQ. apply safe_bind. apply safe_call; [by split; [|left]|done|].
  pose proof (ar_pend _ Ha) as Hp. intros r x1 [R (r0 & s0 & Hc & Hs)]. cbn [is_store_call] in *. apply rely_calm in R. simpl in Hc.
  injection Hc as <- <-.
  assert (x1.2 = x.2) as Hs1 by by destruct Hs as [[_ ->]|[_ [-> | ->]]].
  assert (around x1) as Ha1 by (apply (around_calm x); [done..|by rewrite Hs1]).
  assert (all_good x1.1) as Hg1 by by apply (all_good_calm x.1).
  split; [by split; [|left]|].
  destruct r as [e|cur]; [apply safe_ret; [by split; [|left]|]; apply HQ; [done..|by rewrite Hs1|done]|].
  destruct Hs as [[[= ->] _]|[[e [=]] _]].
  apply safe_bind. apply safe_call; [by split; [|left]|done|].
  intros r x2 [R2 (r0 & s2 & Hc & Hs)]. cbn [is_store_call] in *. apply rely_calm in R2. simpl in Hc.
  assert (all_good x2.1) as Hg2 by (apply (all_good_calm x1.1); [apply Ha1|done..]).
  assert (x2.2 = x1.2 ∧ (∀ u, r ≠ inr u) ∨
    saveCursor sync (stream_cursor (loadCursor sync target t x.2)) x1.2 = inr x2.2) as Hcase.
  { destruct (saveCursor _ _ _) as [e|s1] eqn:Es; injection Hc as <- <-;
      destruct Hs as [[-> ->]|[[e' ->] [-> | ->]]]; auto. }
  assert (around x2) as Ha2.
  { split; [apply R2| |].
    - intros t' k HGt. eapply good_calm; [apply Ha1|done|by apply (ar_good _ Ha1)].
    - destruct Hcase as [[-> _]|E]; [apply Ha1|]. rewrite Hs1 in E. by eapply HNcut; [..|apply Ha]. }
  split; [by split; [|left]|]. apply safe_ret; [by split; [|left]|].
  assert (∀ s', saveCursor sync (stream_cursor (loadCursor sync target t x.2)) x1.2 = inr s' →
    (∀ t', streaming x.2 t' → streaming s' t') ∧ streaming s' t) as Hsave.
  { intros s' Es. pose proof (λ b, loadCursor_save _ _ _ _ sync target b Es) as Hl. simpl in Hl.
    assert (cur_Target (loadCursor sync target t x.2) = target ∧ cur_Table (loadCursor sync target t x.2) = t)
      as [E1 E2] by (unfold loadCursor; by destruct (st_cursors x.2 !! _)).
    rewrite E1, E2, Hs1 in Hl. split.
    - intros t' [H1 H2]. unfold streaming. rewrite Hl. by case_decide.
    - unfold streaming. rewrite Hl. by rewrite decide_True. }
  apply HQ; [done..| |].
  - destruct Hcase as [[-> _]|E]; [by rewrite Hs1|by apply Hsave].
  - intros u Hr. destruct Hcase as [[_ Hn]|E]; [|by apply Hsave].
    destruct r as [e|[]]; [done|]. by destruct (Hn tt).
Qed.

(** A reseed opens no apply transaction; nor do the other store calls. *)
Definition run_call (o : call) : Prop :=
  match o with
  | LoadCursor _ _ _ | SaveCursor _ _ | ListCursors _ => True
  | RecordEvent e => evt_Event e ≠ "target.needs_reseed"
  | _ => copy_call o
  end.

Lemma run_call_idle c c' o x r x' :
  run_call o → world_step c o x r x' → a_tx x.1 !! c' = None → a_tx x'.1 !! c' = None.
Proof.
  intros Ho. unfold world_step. destruct (is_store_call o) eqn:Hst.
  { intros [R _]. by rewrite (rely_tx _ _ R). }
  intros [(v1 & v2 & R1 & He & R2) _]. rewrite (rely_tx _ _ R2), <-(rely_tx _ _ R1).
  destruct He as [He|(_ & _ & ->)]; [|done].
  destruct o; simpl in *; try done;
    repeat match goal with H : _ ∧ _ |- _ => destruct H | H : ∃ _, _ |- _ => destruct H end; subst; try done.
  simpl. rewrite lookup_delete_None. by right.
Qed.

Lemma Run_only workers verifier sched opts :
  only run_call (Run workers verifier sched sync target tables opts).
Proof.
  unfold Run. destruct (Nat.eqb (length tables) 0); [done|]. destruct (Nat.eqb workers 0); [done|].
  assert (∀ o, copy_call o → run_call o) as Hc by by intros [].
  apply only_bind; [by apply only_for_each|]. intros [e|[]]; [done|].
  apply only_bind; [by apply only_for_each|]. intros [e|[]]; [done|].
  apply only_bind; [eapply only_mono; [done|apply Component_only]|]. intros [e|]; [done|].
  apply only_bind; [|by intros [e|[]]].
  apply only_for_each. intros t []. apply only_bind; [done|]. by intros [].
Qed.

Context (workers : nat) (verifier : bool) (sched : list Chunk → list (nat * nat)) (opts : ChunkOptions).
Context (Hsched : schedules sched) (Hkeyed : ∀ t, t ∈ tables → 0 < key_arity t).
Context (Hmethod : opt_Method opts ≠ Some ChunkCTID).

(** Phases 1 and 2: empty target, no progress, and the mark still there. *)
Definition wiped (x : world) : Prop :=
  around x ∧ M x.2 ∧ cleared x.1 tables ∧
  ∀ t, t ∈ tables → loadCopyProgress sync target t x.2 = mkProgress target t false None [].

Lemma wiped_CInv x : wiped x → CInv (λ t, t ∈ tables) (λ _, False) G sync target x.
Proof.
  intros (Ha & _ & Hc & Hl). split; [apply Ha|intros t k Ht; right; left; by apply Hc| |apply Ha].
  intros t k Ht. rewrite Hl by done. by intros [|(? & ? & _)].
Qed.

Lemma recopy_safe Q x :
  wiped x →
  (∀ r x', GInv x' → (r = None → all_good x'.1) → Q r x') →
  rsafe (Copy.Component workers verifier sched sync target tables opts None) Q x.
Proof.
  intros Hw HQ. pose proof (wiped_CInv x Hw) as Hci. destruct Hw as (Ha & Hm & _ & _).
  assert (∀ y : world, CInv (λ t, t ∈ tables) (λ _, False) G sync target y → st_cursors y.2 = st_cursors x.2 → GInv y) as HGI.
  { intros y [Hp _ _ Hg] Hc. split; [split; [done..|by eapply HN; [|apply Ha]]|right; by eapply HM]. }
  apply (safe_weaken _ _ (λ y, CInv (λ t, t ∈ tables) (λ _, False) G sync target y ∧ st_cursors y.2 = st_cursors x.2)).
  { intros y [Hy Hc]. by apply HGI. }
  eapply safe_mono; [|apply (safe_frame _ _ (CInv (λ t, t ∈ tables) (λ _, False) G sync target)
      (λ y, st_cursors y.2 = st_cursors x.2) keeps_cursors _ (λ r y, r = None → all_good y.1))].
  - intros r y [Hy Hc] [Hg _]. apply HQ; [by apply HGI|done].
  - intros c o y r y' Ho Hst Hy. by rewrite (world_step_cursors _ _ _ _ _ Ho Hst).
  - eapply only_mono; [apply copy_keeps_cursors|apply Component_only].
  - done.
  - apply Component_ok; [done|auto|done..|]. intros r y Hy _ Hg Hr t k Ht. by apply Hg.
Qed.

Lemma reset_all_safe Q x :
  around x → M x.2 → cleared x.1 tables →
  (∀ r x', GInv x' → (∀ u, r = inr u → wiped x') → Q r x') →
  rsafe (for_each tables (reset_progress sync target) tt) Q x.
Proof.
  intros Ha Hm Hcl HQ.
  apply (safe_for_each _ _ _ _ (λ l _ y, around y ∧ M y.2 ∧ cleared y.1 tables ∧
    ∃ done, tables = done ++ l ∧
      ∀ t, t ∈ done → loadCopyProgress sync target t y.2 = mkProgress target t false None [])).
  - intros t l [] y _ (P1 & M1 & C1 & done & Heq & Hd). apply reset_progress_safe; [done..|].
    intros r y' P2 T2 K2 O2 S2.
    assert (M y'.2) as M2 by by eapply HM.
    destruct r as [e|[]]; [by apply HQ; [split; [|right]|]|].
    split_and!; [done..|intros ???; rewrite T2; by apply C1|]. exists (done ++ [t]).
    split; [by rewrite <-app_assoc|]. intros t' Ht'. destruct (decide (t' = t)) as [->|Hne]; [by apply (S2 tt)|].
    rewrite O2 by done. apply Hd. set_solver.
  - intros [] y _ (P1 & M1 & C1 & done & Heq & Hd). rewrite app_nil_r in Heq. subst done.
    apply HQ; [by split; [|right]|]. by intros _ _.
  - by split; [|right].
  - split_and!; [done..|]. exists []. split; [done|]. by intros t ?%elem_of_nil.
Qed.

Lemma cutover_all_safe Q x :
  around x → all_good x.1 →
  (∀ r x', around x' → all_good x'.1 → (∀ u, r = inr u → ∀ t, t ∈ tables → streaming x'.2 t) → Q r x') →
  rsafe (for_each tables (cutover_cursor sync target) tt) Q x.
Proof.
  intros Ha Hg HQ.
  apply (safe_for_each _ _ _ _ (λ l _ y, around y ∧ all_good y.1 ∧
    ∃ done, tables = done ++ l ∧ ∀ t, t ∈ done → streaming y.2 t)).
  - intros t l [] y _ (P1 & G1 & done & Heq & Hd). apply cutover_cursor_safe; [rewrite Heq; set_solver|done..|].
    intros r y' P2 G2 O2 S2. destruct r as [e|[]]; [by apply HQ|].
    split_and!; [done..|]. exists (done ++ [t]). split; [by rewrite <-app_assoc|].
    intros t' [Hin|Hin%list_elem_of_singleton]%elem_of_app; [by apply O2, Hd|subst; by apply (S2 tt)].
  - intros [] y _ (P1 & G1 & done & Heq & Hd). rewrite app_nil_r in Heq. subst done. by apply HQ.
  - by split; [|left].
  - split_and!; [done..|]. exists []. split; [done|]. by intros t ?%elem_of_nil.
Qed.

Lemma Run_ok (x : world) :
  tables ≠ [] → around x → M x.2 →
  rsafe (Run workers verifier sched sync target tables opts)
    (λ r x', r = None → all_good x'.1 ∧ ∀ t, t ∈ tables → streaming x'.2 t) x.
Proof.
  intros Hne Ha Hm. assert (GInv x) as HR by by split; [|right]. unfold Run.
  destruct (Nat.eqb_spec (length tables) 0) as [Hz|_]; [by apply nil_length_inv in Hz|].
  destruct (Nat.eqb workers 0); [by apply safe_ret|]. apply safe_bind.
  apply (safe_for_each _ _ _ _ (λ l _ y, around y ∧ M y.2 ∧
    ∃ done, reverse tables = done ++ l ∧ cleared y.1 done)).
  - intros t l [] y _ (P1 & M1 & done & Heq & Hd). apply (clear_table_safe t done);
      [apply elem_of_reverse; rewrite Heq; set_solver|done..|].
    intros r y' P2 S2 C2 C2'.
    assert (M y'.2) as M2 by by rewrite S2.
    destruct r as [e|[]]; [by apply safe_ret; [split; [|right]|]|].
    split_and!; [done..|]. exists (done ++ [t]). split; [by rewrite <-app_assoc|by apply (C2 tt)].
  - intros [] y _ (P1 & M1 & done & Heq & Hd). rewrite app_nil_r in Heq. subst done.
    apply safe_bind. apply reset_all_safe; [done..|intros t k Ht; apply Hd; by rewrite elem_of_reverse|].
    intros r y2 R2 W2. destruct r as [e|[]]; [by apply safe_ret|]. specialize (W2 tt eq_refl).
    apply safe_bind. apply recopy_safe; [done|]. intros r y3 R3 G3.
    destruct r as [e|]; [by apply safe_ret|]. specialize (G3 eq_refl).
    apply safe_bind. apply cutover_all_safe; [apply R3|done|]. intros r y4 P4 G4 S4.
    destruct r as [e|[]]; [by apply safe_ret; [split; [|left]|]|]. specialize (S4 tt eq_refl).
    apply safe_bind. apply safe_call; [by split; [|left]|done|].
    intros r y5 [R5 (r0 & s0 & Hc & Hs)]. cbn [is_store_call] in *. apply rely_calm in R5.
    simpl in Hc. injection Hc as <- <-.
    assert (around y5) as P5 by (apply (around_calm y4); [done..|]; by destruct Hs as [[_ ->]|[_ [-> | ->]]]).
    assert (all_good y5.1) as G5 by (apply (all_good_calm y4.1); [apply P4|done..]).
    split; [by split; [|left]|]. apply safe_ret; [by split; [|left]|]. intros _.
    split; [done|]. intros t Ht. specialize (S4 t Ht).
    by destruct Hs as [[_ ->]|[_ [-> | ->]]].
  - done.
  - split_and!; [done..|]. exists []. split; [done|]. by intros t k ?%elem_of_nil.
Qed.
End run.

Section recovers.
Context `{Sch : Schema} (sync : string) (target : TargetID) (tables : list TableRef).
Context (workers : nat) (verifier : bool) (sched : list Chunk → list (nat * nat)) (opts : ChunkOptions).
Context (Hsched : schedules sched) (Hkeyed : ∀ t, t ∈ tables → 0 < key_arity t).
Context (Hmethod : opt_Method opts ≠ Some ChunkCTID).

Lemma some_mark_cursors s s' :
  st_cursors s' = st_cursors s → some_mark sync target tables s → some_mark sync target tables s'.
Proof. intros Hs (t & Ht & Hn). exists t. split; [done|]. unfold loadCursor in *. by rewrite Hs. Qed.

(** C9: a reseed recovers the target from any state of its rows and of the copy
    progress, under any failures and concurrent source writes: while it runs,
    at every point between two calls, either all rows of the component agree
    with the source or have an unconsumed delta, or the target is still marked
    for a reseed, so a crash is picked up again; and when [Run] returns no error
    all rows do, and every cursor is back to streaming without the mark. *)
Theorem Run_recovers (x : world) :
  pend_ok x.1 → some_mark sync target tables x.2 →
  safe world_step world_requires (RInv sync target tables) (Run workers verifier sched sync target tables opts)
    (λ r x', r = None →
       (∀ t k, t ∈ tables → synced x'.1 t k ∨ dirty x'.1 t k) ∧
       ∀ t, t ∈ tables → streaming sync target x'.2 t) x.
Proof.
  intros Hp Hm.
  apply (safe_weaken _ _ (GInv tables (λ _, False) (λ _, True) (some_mark sync target tables))).
  { intros y [Ha Hy]. split; [apply Ha|done]. }
  apply Run_ok; try done; [apply some_mark_cursors|].
  intros ->. destruct Hm as (t & Ht & _). by apply elem_of_nil in Ht.
Qed.
End recovers.

(** ** What the marks do not survive *)

(** Calls on the Postgres source and the state store; the purge of [broken]
    fails. *)
Definition enforce_handler (r : relInfo) (broken : TableRef) (c : nat) (o : call)
    (x : pgworld * store) : result (resp o) * (pgworld * store) :=
  match o return result (resp o) * (pgworld * store) with
  | Calls.Purge t targets ret =>
      if decide (t = broken) then (inl (Failure "purge"), x)
      else match purge r defaultPurgeBatch t targets ret x.1 with
           | Some (stats, w') => (inr stats, (w', x.2))
           | None => (inl (Failure "purge"), x)
           end
  | o => match store_call o x.2 with
         | Some (res, s') => (res, (x.1, s'))
         | None => (inl (Failure "not a store call"), x)
         end
  end.

(** A mark can be lost: when a later table's purge fails, [Enforce] returns
    before it marks anything, although the earlier purge has already reset the
    track of the sacrificed target and dropped its deltas; the state store is
    unchanged, so no reseed follows. *)
Theorem Enforce_failure_loses_mark (r : relInfo) (w w' : pgworld) (s : store) (c : nat)
    (sync : string) (a b : TableRef) (targets : list TargetID) (ret : RetentionPolicy)
    (stats : PurgeStats) :
  a ≠ b → purge r defaultPurgeBatch a targets ret w = Some (stats, w') →
  TargetsReseeded stats ≠ [] →
  ∃ e, exec (enforce_handler r b) (Enforce c sync [a; b] targets ret) (w, s) = (inl e, (w', s)) ∧
    ∀ tg i, tg ∈ TargetsReseeded stats → (a, tg, i) ∉ w_track w'.
Proof.
  intros Hne Hp Hrs. eexists. split.
  - unfold Enforce, for_each, enforce_purge. rewrite !exec_bind. cbn -[purge].
    rewrite decide_False by done. rewrite Hp. cbn -[purge].
    rewrite decide_True by done. done.
  - intros tg i. eapply purge_resets; [|done]. unfold defaultPurgeBatch. lia.
Qed.

Definition store_handler (c : nat) (o : call) (s : store) : result (resp o) * store :=
  default (inl (Failure "not a store call"), s) (store_call o s).

(** [touchCursors] is a load followed by a save of the whole cursor: a mark
    that another process (the [reseed] command) sets between the two is
    overwritten with the unmarked cursor that was read before. *)
Theorem touch_cursor_loses_mark (sync : string) (target : TargetID) (t : TableRef) (s : store) :
  is_Some (st_syncs s !! sync) → cur_NeedsReseed (loadCursor sync target t s) = false →
  ∃ k s1, touch_cursor sync target t tt = Call 0 (LoadCursor sync target t) k ∧
    saveCursor sync (mark_reseed (loadCursor sync target t s)) s = inr s1 ∧
    cur_NeedsReseed (loadCursor sync target t s1) = true ∧
    cur_NeedsReseed (loadCursor sync target t
      (exec store_handler (k (inr (loadCursor sync target t s))) s1).2) = false.
Proof.
  intros [def Hdef] Hun. set (cur := loadCursor sync target t s) in *.
  assert (cur_Target cur = target ∧ cur_Table cur = t) as [E1 E2]
    by (unfold cur, loadCursor; by destruct (st_cursors s !! _)).
  destruct (saveCursor sync (mark_reseed cur) s) as [e|s1] eqn:Es.
  { unfold saveCursor in Es. by rewrite Hdef in Es. }
  assert (is_Some (st_syncs s1 !! sync)) as [def1 Hdef1].
  { unfold saveCursor in Es. rewrite Hdef in Es. injection Es as <-. simpl. by eexists. }
  destruct (saveCursor sync cur s1) as [e|s2] eqn:Es2.
  { unfold saveCursor in Es2. by rewrite Hdef1 in Es2. }
  eexists _, s1. split_and!; [done|done|..].
  - rewrite (loadCursor_save _ _ _ _ sync target t Es). simpl. by rewrite E1, E2, decide_True.
  - cbn -[loadCursor saveCursor]. rewrite Es2. cbn -[loadCursor saveCursor].
    rewrite (loadCursor_save _ _ _ _ sync target t Es2). by rewrite E1, E2, decide_True.
Qed.

(** ** Witnesses *)

Definition fresh_store : store :=
  mkStore {[ "s1" := mkSync "s1" "src" ["replica"] (mkSelection [] []) ]} ∅ ∅ [].
Definition marked_store : store :=
  mkStore {[ "s1" := mkSync "s1" "src" ["replica"] (mkSelection [] []) ]} ∅
    {[ ("s1", "replica", users) := mkCursor "replica" users PhaseInitialCopy 0%Z true ]} [].

Lemma sample_pend_ok : pend_ok (pg_view sample_world).
Proof. intros t i k. apply (sample_world_ok (λ _, True)). Qed.

Lemma serial_schedules : schedules serial.
Proof.
  intros chunks i Hi. exists 0. apply list_elem_of_fmap. exists i. split; [done|].
  apply elem_of_seq. lia.
Qed.

Lemma Component_copies_witness :
  safe world_step world_requires (CInv (λ t, t ∈ [users]) (λ _, False) (λ _, False) "s1" sync_target)
    (Copy.Component 1 true serial "s1" sync_target [users] (mkChunkOptions None 2 None) None)
    (λ r x', r = None → Inv (λ t, t ∈ [users]) x'.1)
    (pg_view sample_world, fresh_store).
Proof.
  apply (Component_copies (λ _, False) 1 true serial "s1" sync_target [users] (mkChunkOptions None 2 None) None).
  - exact serial_schedules.
  - intros t _. simpl. lia.
  - discriminate.
  - apply CInv_start; [exact sample_pend_ok| |done|by intros t []]. intros t k _.
    replace (a_tgt (pg_view sample_world)) with (∅ : rows) by (vm_compute; reflexivity).
    apply lookup_empty.
Defined.

Lemma Run_recovers_witness :
  safe world_step world_requires (RInv "s1" sync_target [users])
    (Run 1 true serial "s1" sync_target [users] (mkChunkOptions None 2 None))
    (λ r x', r = None →
       (∀ t k, t ∈ [users] → synced x'.1 t k ∨ dirty x'.1 t k) ∧
       ∀ t, t ∈ [users] → streaming "s1" sync_target x'.2 t)
    (pg_view sample_world, marked_store).
Proof.
  apply (Run_recovers "s1" sync_target [users] 1 true serial (mkChunkOptions None 2 None)).
  - exact serial_schedules.
  - intros t _. simpl. lia.
  - discriminate.
  - exact sample_pend_ok.
  - exists users. split; [by left|vm_compute; reflexivity].
Defined.

Lemma Enforce_failure_loses_mark_witness :
  ∃ e stats w', purge w_rel defaultPurgeBatch w_orders ["b"] (mkRetention 50 0) w_purge = Some (stats, w') ∧
    exec (enforce_handler w_rel users) (Enforce 0 "s1" [w_orders; users] ["b"] (mkRetention 50 0))
      (w_purge, fresh_store) = (inl e, (w', fresh_store)) ∧
    ∀ tg i, tg ∈ TargetsReseeded stats → (w_orders, tg, i) ∉ w_track w'.
Proof.
  destruct (purge w_rel defaultPurgeBatch w_orders ["b"] (mkRetention 50 0) w_purge) as [[stats w']|] eqn:E.
  2: { exfalso. revert E. vm_compute. discriminate. }
  destruct (Enforce_failure_loses_mark w_rel w_purge w' fresh_store 0 "s1" w_orders users ["b"]
    (mkRetention 50 0) stats) as (e & He & Ht).
  - discriminate.
  - exact E.
  - apply (f_equal (fmap (TargetsReseeded ∘ fst))) in E. vm_compute in E. intros Hn.
    injection E as E. destruct stats. simpl in Hn. subst. discriminate.
  - exists e, stats, w'. split; [reflexivity|]. split; [exact He|exact Ht].
Defined.

Lemma touch_cursor_loses_mark_witness :
  ∃ k s1, touch_cursor "s1" "replica" users tt = Call 0 (LoadCursor "s1" "replica" users) k ∧
    saveCursor "s1" (mark_reseed (loadCursor "s1" "replica" users fresh_store)) fresh_store = inr s1 ∧
    cur_NeedsReseed (loadCursor "s1" "replica" users s1) = true ∧
    cur_NeedsReseed (loadCursor "s1" "replica" users
      (exec store_handler (k (inr (loadCursor "s1" "replica" users fresh_store))) s1).2) = false.
Proof.
  apply (touch_cursor_loses_mark "s1" "replica" users fresh_store); [by eexists|reflexivity].
Defined.
End Reseed.
