(* ===== verification/Mesh.v ===== *)
(** * Active-active mesh ([internal/engine/postgres/mesh.go], [apply_mesh.go],
    [reread.go], [mesh_gc.go])

    Every member of a cluster captures its local writes, stamps each with a
    hybrid-logical-clock version in a register, and applies the peers' changes
    only when their version beats the register's. A member's own applies are not
    captured.

    One replicated table of a cluster is modelled; the clock is shared by all
    tables of a member, so it may also advance on its own ([mesh_tick]). The wall
    clock is an input of every operation and may jump in any way. Node ids are compared by
    the collation of the column, a total order ([NodeOrder]).

    An apply is a transaction under READ COMMITTED: the statement that writes the values takes
    the winners of its own snapshot, the one that writes the register decides again. What
    commits on the member in between is seen by the second only ([s_snapshot], [s_upsert],
    [s_apply]). The collector of tombstones is a step of its own ([s_gc]). *)

From S2P Require Import Prelude Engine.

Module Mesh.

(** ** Versions *)

(** (rc_hlc_phys, rc_hlc_log, rc_node), compared row-wise *)
Abbreviation version := (Z * Z * string)%type.

(** The order of the node ids. *)
Class NodeOrder := {
  node_lt : string → string → Prop;
  node_lt_dec :: RelDecision node_lt;
  node_lt_strict :: StrictOrder node_lt;
  node_lt_total a b : node_lt a b ∨ a = b ∨ node_lt b a
}.

(** Byte by byte, as with the C collation. *)
Definition bytewise : NodeOrder.
Proof.
  refine {| node_lt := str_lt |}.
  - split.
    + intros a H. by apply str_lt_le_ne in H as [_ []].
    + intros a b c [L1 N1]%str_lt_le_ne [L2 N2]%str_lt_le_ne. apply str_lt_le_ne.
      split; [by transitivity b|]. intros E. rewrite <-E in L2. apply N1. by apply (anti_symm str_le).
  - intros a b. destruct (decide (str_lt a b)) as [|Hn]; [by left|]. apply str_not_lt in Hn.
    destruct (decide (a = b)) as [|Hne]; [by right; left|]. right; right. apply str_lt_le_ne. done.
Defined.

Section mesh.
Context `{NO : NodeOrder}.

Definition clock_lt (a b : Z * Z) : Prop := (a.1 < b.1 ∨ a.1 = b.1 ∧ a.2 < b.2)%Z.
Definition clock_le (a b : Z * Z) : Prop := (a.1 < b.1 ∨ a.1 = b.1 ∧ a.2 <= b.2)%Z.
Definition vlt (a b : version) : Prop := clock_lt a.1 b.1 ∨ a.1 = b.1 ∧ node_lt a.2 b.2.

#[global] Instance clock_lt_dec : RelDecision clock_lt.
Proof. intros a b. unfold clock_lt. apply _. Defined.
#[global] Instance clock_le_dec : RelDecision clock_le.
Proof. intros a b. unfold clock_le. apply _. Defined.
#[global] Instance vlt_dec : RelDecision vlt.
Proof. intros a b. unfold vlt. apply _. Defined.

(** ** The hybrid logical clock ([hlc_tick], [hlc_observe]) *)

Definition hlc_tick (pt : Z) (c : Z * Z) : Z * Z :=
  if decide (c.1 < pt)%Z then (pt, 0%Z) else (c.1, (c.2 + 1)%Z).

Definition hlc_observe (pt : Z) (v : Z * Z) (c : Z * Z) : Z * Z :=
  let new_phys := Z.max pt (Z.max v.1 c.1) in
  (new_phys,
   if decide (new_phys = c.1 ∧ new_phys = v.1) then (Z.max c.2 v.2 + 1)%Z
   else if decide (new_phys = c.1) then (c.2 + 1)%Z
   else if decide (new_phys = v.1) then (v.2 + 1)%Z
   else 0%Z).

(** ** A member *)

Record node := mkNode {
  n_rows : gmap KeyValues Row;
  n_reg : gmap KeyValues (version * bool);   (** version register; the flag is a tombstone *)
  n_clock : Z * Z;
  n_next : Z;                                (** the delta_id sequence *)
  n_delta : gmap DeltaID KeyValues;
  n_track : gset (string * DeltaID)
}.

Inductive change :=
| MInsert (k : KeyValues) (r : Row)
| MUpdate (k k' : KeyValues) (r : Row)
| MDelete (k : KeyValues).

(** The keys the trigger enqueues. *)
Definition delta_keys (ch : change) : list KeyValues :=
  match ch with
  | MInsert k _ => [k]
  | MUpdate k k' _ => if decide (k = k') then [k'] else [k; k']
  | MDelete k => [k]
  end.

Fixpoint enqueue (next : Z) (ks : list KeyValues) (d : gmap DeltaID KeyValues) : gmap DeltaID KeyValues :=
  match ks with
  | [] => d
  | k :: ks => enqueue (next + 1) ks (<[next := k]> d)
  end.

(** The row write and what [meshTriggerFunctionDDL]'s function does with it: one
    tick, the deltas, and the register stamps; the old key of a key change
    becomes a tombstone. *)
Definition local_write (nid : string) (pt : Z) (ch : change) (nd : node) : node :=
  let c := hlc_tick pt (n_clock nd) in
  let v : version := (c, nid) in
  let '(rows, reg) :=
    match ch with
    | MInsert k r => (<[k := r]> (n_rows nd), <[k := (v, false)]> (n_reg nd))
    | MUpdate k k' r =>
        if decide (k = k') then (<[k' := r]> (n_rows nd), <[k' := (v, false)]> (n_reg nd))
        else (<[k' := r]> (delete k (n_rows nd)), <[k' := (v, false)]> (<[k := (v, true)]> (n_reg nd)))
    | MDelete k => (delete k (n_rows nd), <[k := (v, true)]> (n_reg nd))
    end in
  mkNode rows reg c (n_next nd + Z.of_nat (length (delta_keys ch)))
    (enqueue (n_next nd) (delta_keys ch) (n_delta nd)) (n_track nd).

(** Another table's write or apply moves the clock. *)
Definition mesh_tick (pt : Z) (nd : node) : node :=
  mkNode (n_rows nd) (n_reg nd) (hlc_tick pt (n_clock nd)) (n_next nd) (n_delta nd) (n_track nd).

(** ** Reading changes ([rereadVersioned]) *)

Record entry := mkEntry { en_ver : version; en_deleted : bool; en_row : Row }.
#[global] Instance entry_eq_dec : EqDecision entry.
Proof. solve_decision. Defined.

(** The register rows of the given keys, with the user row (NULL columns for a
    tombstone). *)
Definition rereadVersioned (ks : list KeyValues) (nd : node) : gmap KeyValues entry :=
  map_imap (λ k vd, if decide (k ∈ ks) then Some (mkEntry vd.1 vd.2 (default ∅ (n_rows nd !! k))) else None)
    (n_reg nd).

(** ** Version-guarded apply *)

(** [meshVersionGreater] *)
Definition beats (v : version) (r : option (version * bool)) : Prop :=
  match r with None => True | Some (v', _) => vlt v' v end.

#[global] Instance beats_dec v r : Decision (beats v r).
Proof. unfold beats. destruct r as [[v' d]|]; apply _. Defined.

(** The staged rows of one phase that beat the register. *)
Definition winners (deleted : bool) (stg : gmap KeyValues entry) (reg : gmap KeyValues (version * bool))
    : gmap KeyValues entry :=
  filter (λ '(k, e), en_deleted e = deleted ∧ beats (en_ver e) (reg !! k)) stg.

(** [clusterObserveSQL]: ORDER BY rc_hlc_phys DESC, rc_hlc_log DESC LIMIT 1 *)
Definition max_clock (stg : gmap KeyValues entry) : option (Z * Z) :=
  foldr (λ x acc, match acc with
                  | None => Some (en_ver x.2).1
                  | Some c => Some (if decide (clock_lt c (en_ver x.2).1) then (en_ver x.2).1 else c)
                  end) None (map_to_list stg).

Definition observe_all (pt : Z) (stg : gmap KeyValues entry) (c : Z * Z) : Z * Z :=
  match max_clock stg with None => c | Some v => hlc_observe pt v c end.

(** [clusterAliveUpsertSQL], with the winners [win] of its snapshot. *)
Definition clusterAliveUpsert (win : gmap KeyValues entry) (nd : node) : node :=
  mkNode ((en_row <$> win) ∪ n_rows nd) (n_reg nd) (n_clock nd) (n_next nd) (n_delta nd) (n_track nd).

(** [clusterTombstoneDeleteSQL] *)
Definition clusterTombstoneDelete (win : gmap KeyValues entry) (nd : node) : node :=
  mkNode (n_rows nd ∖ (en_row <$> win)) (n_reg nd) (n_clock nd) (n_next nd) (n_delta nd) (n_track nd).

(** [clusterRegisterUpsertSQL]: the winners against the register it finds. *)
Definition clusterRegisterUpsert (deleted : bool) (stg : gmap KeyValues entry) (nd : node) : node :=
  mkNode (n_rows nd) (((λ e, (en_ver e, deleted)) <$> winners deleted stg (n_reg nd)) ∪ n_reg nd)
    (n_clock nd) (n_next nd) (n_delta nd) (n_track nd).

Definition clusterObserve (pt : Z) (stg : gmap KeyValues entry) (nd : node) : node :=
  mkNode (n_rows nd) (n_reg nd) (observe_all pt stg (n_clock nd)) (n_next nd) (n_delta nd) (n_track nd).

(** [stageUpsertCluster]: the alive rows of the staging. *)
Definition stageUpsertCluster (pt : Z) (win stg : gmap KeyValues entry) (nd : node) : node :=
  clusterObserve pt stg (clusterRegisterUpsert false stg (clusterAliveUpsert win nd)).

(** [deleteTombstonesCluster]: its tombstones. *)
Definition deleteTombstonesCluster (pt : Z) (win stg : gmap KeyValues entry) (nd : node) : node :=
  clusterObserve pt stg (clusterRegisterUpsert true stg (clusterTombstoneDelete win nd)).

(** The phases when nothing commits in between: both statements have the same winners. *)
Definition upsert_phase (pt : Z) (stg : gmap KeyValues entry) (nd : node) : node :=
  stageUpsertCluster pt (winners false stg (n_reg nd)) stg nd.
Definition delete_phase (pt : Z) (stg : gmap KeyValues entry) (nd : node) : node :=
  deleteTombstonesCluster pt (winners true stg (n_reg nd)) stg nd.

(** ** Tombstone GC ([GCTombstones]) *)

(** A tombstone goes when no delta row of this member has its key. *)
Definition GCTombstones (nd : node) : node :=
  mkNode (n_rows nd)
    (filter (λ '(k, vd), ¬ (vd.2 = true ∧ Forall (λ x, x.2 ≠ k) (map_to_list (n_delta nd)))) (n_reg nd))
    (n_clock nd) (n_next nd) (n_delta nd) (n_track nd).

(** ** The cluster *)

Definition unconsumed (nd : node) (target : string) : list DeltaID :=
  fst <$> filter (λ x, (target, x.1) ∉ n_track nd) (map_to_list (n_delta nd)).

Definition confirm (target : string) (ids : list DeltaID) (nd : node) : node :=
  mkNode (n_rows nd) (n_reg nd) (n_clock nd) (n_next nd) (n_delta nd)
    (list_to_set ((λ i, (target, i)) <$> ids) ∪ n_track nd).

(** A drain pass of one edge: the deltas it read, the staged re-read, and whether
    the staging has been applied. *)
Record pass := mkPass { p_ids : list DeltaID; p_stg : option (gmap KeyValues entry); p_applied : bool }.

Record mesh := mkMesh { m_nodes : gmap string node; m_pass : gmap (string * string) pass }.

Definition set_node (n : string) (nd : node) (m : mesh) : mesh :=
  mkMesh (<[n := nd]> (m_nodes m)) (m_pass m).
Definition set_pass (e : string * string) (p : pass) (m : mesh) : mesh :=
  mkMesh (m_nodes m) (<[e := p]> (m_pass m)).

(** The cluster with the applies in progress: the winners (alive, tombstones) that the value
    statements of an edge's open transaction work with. *)
Record cluster := mkCluster {
  c_mesh : mesh;
  c_win : gmap (string * string) (gmap KeyValues entry * gmap KeyValues entry)
}.

Definition on_mesh (m : mesh) (c : cluster) : cluster := mkCluster m (c_win c).

(** How an event went: undisturbed; a transaction whose winners are not those of the register
    any more when it commits, because a local write or another edge committed in between;
    a collection that removed a tombstone. *)
Variant kind := Undisturbed | Overtaken | Collected.

Definition commit_kind (wa wd stg : gmap KeyValues entry) (nd : node) : kind :=
  if decide (wa = winners false stg (n_reg nd) ∧ wd = winners true stg (n_reg nd)) then Undisturbed else Overtaken.

Definition gc_kind (nd : node) : kind := if decide (n_reg (GCTombstones nd) = n_reg nd) then Undisturbed else Collected.

(** What can happen: a local write, the clock, and the steps of an edge's pass (read the dirty
    keys, stage the re-read, open the apply, commit the upsert phase, or the delete phase,
    which stages and upserts again first, confirm), each possibly abandoned before the next,
    and the collector. *)
Inductive mesh_step : kind → cluster → cluster → Prop :=
| s_write c n nd pt ch :
    m_nodes (c_mesh c) !! n = Some nd →
    mesh_step Undisturbed c (on_mesh (set_node n (local_write n pt ch nd) (c_mesh c)) c)
| s_tick c n nd pt :
    m_nodes (c_mesh c) !! n = Some nd →
    mesh_step Undisturbed c (on_mesh (set_node n (mesh_tick pt nd) (c_mesh c)) c)
| s_read c a b nd ids :
    m_nodes (c_mesh c) !! a = Some nd → a ≠ b → is_Some (m_nodes (c_mesh c) !! b) → ids ⊆ unconsumed nd b →
    mesh_step Undisturbed c (on_mesh (set_pass (a, b) (mkPass ids None false) (c_mesh c)) c)
| s_stage c a b nd p :
    m_nodes (c_mesh c) !! a = Some nd → m_pass (c_mesh c) !! (a, b) = Some p →
    mesh_step Undisturbed c (on_mesh (set_pass (a, b) (mkPass (p_ids p)
      (Some (rereadVersioned (omap (λ i, n_delta nd !! i) (p_ids p)) nd)) false) (c_mesh c)) c)
| s_snapshot c a b nd p stg :
    m_nodes (c_mesh c) !! b = Some nd → m_pass (c_mesh c) !! (a, b) = Some p → p_stg p = Some stg →
    mesh_step Undisturbed c (mkCluster (c_mesh c)
      (<[(a, b) := (winners false stg (n_reg nd), winners true stg (n_reg nd))]> (c_win c)))
| s_upsert c a b nd p stg wa wd pt :
    m_nodes (c_mesh c) !! b = Some nd → m_pass (c_mesh c) !! (a, b) = Some p → p_stg p = Some stg →
    c_win c !! (a, b) = Some (wa, wd) →
    mesh_step (commit_kind wa wd stg nd) c (on_mesh (set_node b (stageUpsertCluster pt wa stg nd) (c_mesh c)) c)
| s_apply c a b nd p stg wa wd pt pt' :
    m_nodes (c_mesh c) !! b = Some nd → m_pass (c_mesh c) !! (a, b) = Some p → p_stg p = Some stg →
    c_win c !! (a, b) = Some (wa, wd) →
    mesh_step (commit_kind wa wd stg nd) c (on_mesh (set_pass (a, b) (mkPass (p_ids p) (Some stg) true)
      (set_node b (deleteTombstonesCluster pt' wd stg (stageUpsertCluster pt wa stg nd)) (c_mesh c))) c)
| s_confirm c a b nd p :
    m_nodes (c_mesh c) !! a = Some nd → m_pass (c_mesh c) !! (a, b) = Some p → p_applied p = true →
    mesh_step Undisturbed c (on_mesh (set_node a (confirm b (p_ids p) nd) (c_mesh c)) c)
| s_gc c n nd :
    m_nodes (c_mesh c) !! n = Some nd →
    mesh_step (gc_kind nd) c (on_mesh (set_node n (GCTombstones nd) (c_mesh c)) c).

(** What undisturbed events come to, without the transactions in progress. *)
Inductive atomic_step : mesh → mesh → Prop :=
| a_write m n nd pt ch :
    m_nodes m !! n = Some nd → atomic_step m (set_node n (local_write n pt ch nd) m)
| a_tick m n nd pt :
    m_nodes m !! n = Some nd → atomic_step m (set_node n (mesh_tick pt nd) m)
| a_read m a b nd ids :
    m_nodes m !! a = Some nd → a ≠ b → is_Some (m_nodes m !! b) → ids ⊆ unconsumed nd b →
    atomic_step m (set_pass (a, b) (mkPass ids None false) m)
| a_stage m a b nd p :
    m_nodes m !! a = Some nd → m_pass m !! (a, b) = Some p →
    atomic_step m (set_pass (a, b) (mkPass (p_ids p)
      (Some (rereadVersioned (omap (λ i, n_delta nd !! i) (p_ids p)) nd)) false) m)
| a_upsert m a b nd p stg pt :
    m_nodes m !! b = Some nd → m_pass m !! (a, b) = Some p → p_stg p = Some stg →
    atomic_step m (set_node b (upsert_phase pt stg nd) m)
| a_apply m a b nd p stg pt pt' :
    m_nodes m !! b = Some nd → m_pass m !! (a, b) = Some p → p_stg p = Some stg →
    atomic_step m (set_pass (a, b) (mkPass (p_ids p) (Some stg) true)
      (set_node b (delete_phase pt' stg (upsert_phase pt stg nd)) m))
| a_confirm m a b nd p :
    m_nodes m !! a = Some nd → m_pass m !! (a, b) = Some p → p_applied p = true →
    atomic_step m (set_node a (confirm b (p_ids p) nd) m).

(** ** The order of versions and the clock *)

Definition vle (a b : version) : Prop := a = b ∨ vlt a b.

Lemma clock_lt_trans a b c : clock_lt a b → clock_lt b c → clock_lt a c.
Proof. unfold clock_lt. lia. Qed.
Lemma clock_le_lt_trans a b c : clock_le a b → clock_lt b c → clock_lt a c.
Proof. unfold clock_lt, clock_le. lia. Qed.
Lemma clock_le_trans a b c : clock_le a b → clock_le b c → clock_le a c.
Proof. unfold clock_le. lia. Qed.
Lemma clock_lt_le a b : clock_lt a b → clock_le a b.
Proof. unfold clock_lt, clock_le. lia. Qed.
Lemma clock_le_refl a : clock_le a a.
Proof. unfold clock_le. lia. Qed.
Lemma clock_cases a b : clock_lt a b ∨ a = b ∨ clock_lt b a.
Proof.
  destruct a as [a1 a2], b as [b1 b2]. unfold clock_lt. simpl.
  destruct (decide (a1 = b1 ∧ a2 = b2)) as [[-> ->]|]; [by right; left|]. lia.
Qed.

Lemma vlt_trans a b c : vlt a b → vlt b c → vlt a c.
Proof.
  unfold vlt. intros [H1|[E1 H1]] [H2|[E2 H2]].
  - left. by eapply clock_lt_trans.
  - left. by rewrite <-E2.
  - left. by rewrite E1.
  - right. split; [congruence|]. by transitivity b.2.
Qed.

Lemma vlt_irrefl a : ¬ vlt a a.
Proof.
  unfold vlt, clock_lt. intros [H|[_ H]]; [lia|]. by apply (irreflexivity node_lt) in H.
Qed.

Lemma vle_refl a : vle a a.
Proof. by left. Qed.
Lemma vle_trans a b c : vle a b → vle b c → vle a c.
Proof. intros [->|H1] [->|H2]; [by left|by right|by right|right; by eapply vlt_trans]. Qed.
Lemma vle_antisym a b : vle a b → vle b a → a = b.
Proof.
  intros [->|H1] [H2|H2]; [done..|]. exfalso. apply (vlt_irrefl a). by eapply vlt_trans.
Qed.
Lemma not_vlt a b : ¬ vlt a b → vle b a.
Proof.
  intros Hn. destruct (clock_cases a.1 b.1) as [H|[H|H]].
  - destruct Hn. by left.
  - destruct (node_lt_total a.2 b.2) as [Hs|[E|Hs]]; [destruct Hn; by right| |right; by right].
    left. destruct a, b. simpl in *. congruence.
  - right. by left.
Qed.

Lemma hlc_tick_lt pt c : clock_lt c (hlc_tick pt c).
Proof. unfold hlc_tick, clock_lt. case_decide; simpl; lia. Qed.

Lemma hlc_observe_spec pt v c :
  clock_lt v (hlc_observe pt v c) ∧ clock_lt c (hlc_observe pt v c).
Proof.
  unfold hlc_observe, clock_lt. cbn [fst snd]. repeat case_decide; lia.
Qed.

Lemma clock_lt_vlt (a b : version) : clock_lt a.1 b.1 → vlt a b.
Proof. by left. Qed.

(** The hybrid logical clock: whatever the wall clock shows, a tick is
    strictly later than the member's clock, and once a member has observed a
    peer's version, its next local version beats that version, however far its
    own wall clock lags. *)
Theorem hlc_after_observed (pt pt' : Z) (v : version) (c : Z * Z) (nid : string) :
  clock_lt c (hlc_tick pt' c) ∧
  clock_lt c (hlc_observe pt v.1 c) ∧
  vlt v (hlc_tick pt' (hlc_observe pt v.1 c), nid).
Proof.
  destruct (hlc_observe_spec pt v.1 c) as [H1 H2]. split_and!; [apply hlc_tick_lt|done|].
  left. simpl. eapply clock_lt_trans; [done|apply hlc_tick_lt].
Qed.

Lemma max_clock_ge stg k e :
  stg !! k = Some e → ∃ c, max_clock stg = Some c ∧ clock_le (en_ver e).1 c.
Proof.
  intros Hin%elem_of_map_to_list. unfold max_clock. induction (map_to_list stg) as [|[k' e'] l IH].
  { by apply elem_of_nil in Hin. }
  simpl. apply elem_of_cons in Hin as [[= <- <-]|Hin].
  - destruct (foldr _ _ l) as [c|]; [|by eexists; split; [done|apply clock_le_refl]].
    case_decide as Hd; eexists; (split; [done|]); [apply clock_le_refl|].
    destruct (clock_cases c (en_ver e).1) as [?|[->|?]]; [done|apply clock_le_refl|by apply clock_lt_le].
  - destruct (IH Hin) as (c & -> & Hle). case_decide as Hd; eexists; (split; [done|]); [|done].
    eapply clock_le_trans; [done|]. by apply clock_lt_le.
Qed.

Lemma observe_all_ge pt stg c :
  clock_le c (observe_all pt stg c) ∧
  ∀ k e, stg !! k = Some e → clock_le (en_ver e).1 (observe_all pt stg c).
Proof.
  unfold observe_all. split.
  - destruct (max_clock stg) as [v|]; [|apply clock_le_refl]. apply clock_lt_le, hlc_observe_spec.
  - intros k e He. destruct (max_clock_ge _ _ _ He) as (v & -> & Hle).
    eapply clock_le_trans; [done|]. apply clock_lt_le, hlc_observe_spec.
Qed.

(** ** What a member's register has seen *)

Definition reg_ge (nd : node) (k : KeyValues) (v : version) : Prop :=
  ∃ v' d, n_reg nd !! k = Some (v', d) ∧ vle v v'.

Lemma reg_ge_le nd k v w : reg_ge nd k w → vle v w → reg_ge nd k v.
Proof. intros (v' & d & Hr & Hle) Hv. exists v', d. split; [done|]. by eapply vle_trans. Qed.

Lemma lookup_winners d stg reg k :
  winners d stg reg !! k =
  match stg !! k with
  | Some e => if decide (en_deleted e = d ∧ beats (en_ver e) (reg !! k)) then Some e else None
  | None => None
  end.
Proof.
  unfold winners. destruct (stg !! k) as [e|] eqn:E.
  - case_decide as Hd.
    + by apply map_lookup_filter_Some.
    + apply map_lookup_filter_None. right. intros e' He'. rewrite E in He'. by injection He' as <-.
  - apply map_lookup_filter_None. by left.
Qed.

(** One phase on one key. *)
Lemma stageUpsert_key pt stg nd k :
  let nd' := upsert_phase pt stg nd in
  match winners false stg (n_reg nd) !! k with
  | Some e => n_reg nd' !! k = Some (en_ver e, false) ∧ n_rows nd' !! k = Some (en_row e)
  | None => n_reg nd' !! k = n_reg nd !! k ∧ n_rows nd' !! k = n_rows nd !! k
  end.
Proof.
  simpl. rewrite !lookup_union_r_if, !lookup_fmap.
  by destruct (winners false stg (n_reg nd) !! k).
Qed.

Lemma deleteTombstones_key pt stg nd k :
  let nd' := delete_phase pt stg nd in
  match winners true stg (n_reg nd) !! k with
  | Some e => n_reg nd' !! k = Some (en_ver e, true) ∧ n_rows nd' !! k = None
  | None => n_reg nd' !! k = n_reg nd !! k ∧ n_rows nd' !! k = n_rows nd !! k
  end.
Proof.
  simpl. rewrite lookup_difference, lookup_union_r_if, !lookup_fmap.
  by destruct (winners true stg (n_reg nd) !! k).
Qed.

(** ** Invariant

    [H] records what was written under each version: the row, or [None] for a
    tombstone. [R0] are the rows every member had before the first write. *)

Section convergence.
Context (R0 : gmap KeyValues Row).

Abbreviation history := (gmap (KeyValues * version) (option Row)).

Record node_ok (H : history) (nd : node) : Prop := {
  nk_clock k v d : n_reg nd !! k = Some (v, d) → clock_le v.1 (n_clock nd);
  nk_hist k v d : n_reg nd !! k = Some (v, d) → H !! (k, v) = Some (n_rows nd !! k);
  nk_dead k v d : n_reg nd !! k = Some (v, d) → (d = true ↔ n_rows nd !! k = None);
  nk_base k : n_reg nd !! k = None → n_rows nd !! k = R0 !! k;
  nk_delta i : is_Some (n_delta nd !! i) → (i < n_next nd)%Z;
  nk_track b i : (b, i) ∈ n_track nd → (i < n_next nd)%Z
}.

Definition stg_ok (H : history) (stg : gmap KeyValues entry) : Prop :=
  ∀ k e, stg !! k = Some e →
    H !! (k, en_ver e) = Some (if en_deleted e then None else Some (en_row e)).

(** Everything member [a] wrote to [k] is at [b], or a delta outside [ids] that
    [b] has not consumed names [k]. *)
Definition pending (nda : node) (b : string) (ids : list DeltaID) (k : KeyValues) : Prop :=
  ∃ i, (i ∉ ids) ∧ n_delta nda !! i = Some k ∧ (b, i) ∉ n_track nda.

Record pass_ok (H : history) (a b : string) (nda ndb : node) (p : pass) : Prop := {
  ps_ids i : i ∈ p_ids p → (i < n_next nda)%Z;
  ps_stg stg : p_stg p = Some stg → stg_ok H stg;
  ps_cover stg i k v : p_stg p = Some stg → i ∈ p_ids p → n_delta nda !! i = Some k →
    is_Some (H !! (k, v)) → v.2 = a →
    (∃ e, stg !! k = Some e ∧ vle v (en_ver e)) ∨ pending nda b (p_ids p) k;
  ps_applied : p_applied p = true →
    ∃ stg, p_stg p = Some stg ∧ ∀ k e, stg !! k = Some e → reg_ge ndb k (en_ver e)
}.

Record MInv (H : history) (m : mesh) : Prop := {
  mi_node n nd : m_nodes m !! n = Some nd → node_ok H nd;
  mi_fresh k v : is_Some (H !! (k, v)) →
    ∃ nd, m_nodes m !! v.2 = Some nd ∧ clock_le v.1 (n_clock nd) ∧ reg_ge nd k v;
  mi_edge k v b ndb nda : is_Some (H !! (k, v)) → v.2 ≠ b →
    m_nodes m !! v.2 = Some nda → m_nodes m !! b = Some ndb →
    reg_ge ndb k v ∨ pending nda b [] k;
  mi_pass a b p : m_pass m !! (a, b) = Some p →
    a ≠ b ∧ ∃ nda ndb, m_nodes m !! a = Some nda ∧ m_nodes m !! b = Some ndb ∧ pass_ok H a b nda ndb p
}.

(** A member that only moved forward. *)
Record node_le (nd nd' : node) : Prop := {
  nl_clock : clock_le (n_clock nd) (n_clock nd');
  nl_reg k v : reg_ge nd k v → reg_ge nd' k v;
  nl_next : (n_next nd <= n_next nd')%Z;
  nl_delta i : (i < n_next nd)%Z → n_delta nd' !! i = n_delta nd !! i;
  nl_track : n_track nd' = n_track nd
}.

Lemma pending_le nda nda' b ids k :
  (∀ i, is_Some (n_delta nda !! i) → (i < n_next nda)%Z) →
  node_le nda nda' → pending nda b ids k → pending nda' b ids k.
Proof.
  intros Hd L (i & Hi & Hk & Ht). exists i. split_and!; [done| |by rewrite (nl_track _ _ L)].
  rewrite (nl_delta _ _ L); [done|]. apply Hd. by eexists.
Qed.

Lemma node_le_refl nd : node_le nd nd.
Proof. split; [apply clock_le_refl|done|done|done|done]. Qed.

Lemma pass_ok_le H a b nda nda' ndb ndb' p :
  (∀ i, is_Some (n_delta nda !! i) → (i < n_next nda)%Z) →
  node_le nda nda' → node_le ndb ndb' → pass_ok H a b nda ndb p → pass_ok H a b nda' ndb' p.
Proof.
  intros Hd La Lb [P1 P2 P3 P4]. split.
  - intros i Hi. pose proof (nl_next _ _ La). specialize (P1 i Hi). lia.
  - done.
  - intros stg i k v Hs Hi Hk Hh Hv. rewrite (nl_delta _ _ La) in Hk by by apply P1.
    destruct (P3 stg i k v Hs Hi Hk Hh Hv) as [?|?]; [by left|right; by eapply pending_le].
  - intros Ha. destruct (P4 Ha) as (stg & Hs & Hr). exists stg. split; [done|].
    intros k e He. by apply Lb, Hr.
Qed.

(** Moving one member forward keeps the invariant; what it newly wrote is in its
    register and in a new delta. *)
Lemma MInv_forward H H' m n nd nd' :
  MInv H m → m_nodes m !! n = Some nd → node_ok H' nd' → node_le nd nd' →
  (∀ kv x, H !! kv = Some x → H' !! kv = Some x) →
  (∀ k v, is_Some (H' !! (k, v)) → is_Some (H !! (k, v)) ∨
     v.2 = n ∧ clock_le v.1 (n_clock nd') ∧ reg_ge nd' k v ∧
     ∃ i, (n_next nd <= i)%Z ∧ n_delta nd' !! i = Some k) →
  MInv H' (set_node n nd' m).
Proof.
  intros [I1 I2 I3 I4] Hn Hok L Hold Hnew.
  assert (∀ a nda, m_nodes m !! a = Some nda → ∃ nda', m_nodes (set_node n nd' m) !! a = Some nda' ∧
    node_le nda nda' ∧ (a = n → nda' = nd')) as Hfw.
  { intros a nda Ha. simpl. destruct (decide (a = n)) as [->|Hne].
    - rewrite lookup_insert_eq. rewrite Hn in Ha. injection Ha as <-. by exists nd'.
    - rewrite lookup_insert_ne by done. exists nda. split_and!; [done|apply node_le_refl|done]. }
  (* a new write is pending for every target, outside any batch read before *)
  assert (∀ i b ids k, (∀ j, j ∈ ids → (j < n_next nd)%Z) → (n_next nd <= i)%Z →
    n_delta nd' !! i = Some k → pending nd' b ids k) as Hpend.
  { intros i b ids k Hids Hi Hk. exists i. split_and!; [|done|].
    - intros Hin. specialize (Hids i Hin). lia.
    - rewrite (nl_track _ _ L). intros Ht. apply (nk_track _ _ (I1 _ _ Hn)) in Ht. lia. }
  split.
  - intros a nda. simpl. rewrite lookup_insert_Some. intros [[<- <-]|[_ Ha]]; [done|].
    destruct (I1 _ _ Ha) as [N1 N2 N3 N4 N5 N6]. split; [done| |done..].
    intros k v d Hr. by apply Hold, (N2 k v d).
  - intros k v [Hh|(Hv & Hc & Hr & _)]%Hnew.
    + destruct (I2 k v Hh) as (ndo & Ho & Hc & Hr). destruct (Hfw _ _ Ho) as (ndo' & Ho' & Lo & _).
      exists ndo'. split_and!; [done| |by apply Lo]. eapply clock_le_trans; [done|apply Lo].
    + exists nd'. rewrite Hv. simpl. by rewrite lookup_insert_eq.
  - intros k v b ndb nda Hh Hne Ha Hb. apply Hnew in Hh as [Hh|(Hv & _ & _ & i & Hi & Hk)].
    + destruct (I2 k v Hh) as (nda0 & Ha0 & _). destruct (Hfw _ _ Ha0) as (nda' & Ha' & La & _).
      rewrite Ha' in Ha. injection Ha as <-.
      assert (∃ ndb0, m_nodes m !! b = Some ndb0 ∧ node_le ndb0 ndb) as (ndb0 & Hb0 & Lb).
      { revert Hb. simpl. rewrite lookup_insert_Some. intros [[<- <-]|[_ Hb]]; [by exists nd|].
        exists ndb. split; [done|apply node_le_refl]. }
      destruct (I3 k v b ndb0 nda0 Hh Hne Ha0 Hb0) as [?|?]; [left; by apply Lb|right].
      apply (pending_le nda0); [|done..]. apply (I1 _ _ Ha0).
    + right. rewrite Hv in Ha. simpl in Ha. rewrite lookup_insert_eq in Ha. injection Ha as <-.
      apply (Hpend i); [|done..]. by intros j ?%elem_of_nil.
  - intros a b p Hp. destruct (I4 a b p Hp) as (Hne & nda & ndb & Ha & Hb & Hpo). split; [done|].
    destruct (Hfw _ _ Ha) as (nda' & Ha' & La & Ea), (Hfw _ _ Hb) as (ndb' & Hb' & Lb & _).
    exists nda', ndb'. split_and!; [done..|].
    destruct (pass_ok_le H a b nda nda' ndb ndb' p (nk_delta _ _ (I1 _ _ Ha)) La Lb Hpo) as [P1 P2 P3 P4].
    split; [done| | |done].
    + intros stg Hs k e He. by apply Hold, (P2 stg Hs).
    + intros stg i k v Hs Hi Hk Hh Hv. apply Hnew in Hh as [Hh|(Hv' & _ & _ & j & Hj & Hkj)];
        [by apply (P3 stg i k v)|]. right. assert (a = n) as -> by congruence.
      rewrite (Ea eq_refl). apply (Hpend j); [|done..]. intros j' Hj'.
      rewrite Hn in Ha. injection Ha as <-.
      destruct (I4 n b p Hp) as (_ & nda0 & ndb0 & Ha0 & _ & [Q1 _ _ _]).
      rewrite Hn in Ha0. injection Ha0 as <-. by apply Q1.
Qed.

Lemma MInv_forward_same H m n nd nd' :
  MInv H m → m_nodes m !! n = Some nd → node_ok H nd' → node_le nd nd' →
  MInv H (set_node n nd' m).
Proof. intros HI Hn Hok L. apply (MInv_forward H H m n nd nd'); [done..|]. intros k v Hh. by left. Qed.

Lemma MInv_set_pass H m a b p nda ndb :
  MInv H m → a ≠ b → m_nodes m !! a = Some nda → m_nodes m !! b = Some ndb →
  pass_ok H a b nda ndb p → MInv H (set_pass (a, b) p m).
Proof.
  intros [I1 I2 I3 I4] Hne Ha Hb Hp. split; [done..|]. intros a' b' p'. simpl.
  rewrite lookup_insert_Some. intros [[[= <- <-] <-]|[_ Hp']]; [|by apply I4].
  split; [done|]. by exists nda, ndb.
Qed.

(** *** Applying *)

Lemma winners_Some d stg reg k e :
  winners d stg reg !! k = Some e →
  stg !! k = Some e ∧ en_deleted e = d ∧ beats (en_ver e) (reg !! k).
Proof.
  rewrite lookup_winners. destruct (stg !! k) as [e'|]; [|done]. case_decide; [|done]. by intros [= ->].
Qed.

Lemma reg_ge_beats nd k v w : beats w (n_reg nd !! k) → reg_ge nd k v → vle v w.
Proof.
  intros Hb (v' & d & Hr & Hle). unfold beats in Hb. rewrite Hr in Hb. eapply vle_trans; [done|by right].
Qed.

(** What both phases have in common, with the outcome of each key. *)
Lemma phase_forward H d stg nd nd' :
  node_ok H nd → stg_ok H stg →
  (∀ k, match winners d stg (n_reg nd) !! k with
        | Some e => n_reg nd' !! k = Some (en_ver e, d) ∧
                    n_rows nd' !! k = if d then None else Some (en_row e)
        | None => n_reg nd' !! k = n_reg nd !! k ∧ n_rows nd' !! k = n_rows nd !! k
        end) →
  clock_le (n_clock nd) (n_clock nd') →
  (∀ k e, stg !! k = Some e → clock_le (en_ver e).1 (n_clock nd')) →
  n_next nd' = n_next nd → n_delta nd' = n_delta nd → n_track nd' = n_track nd →
  node_ok H nd' ∧ node_le nd nd' ∧
  ∀ k e, stg !! k = Some e → en_deleted e = d → reg_ge nd' k (en_ver e).
Proof.
  intros [N1 N2 N3 N4 N5 N6] Hstg Hk Hc Hcs Hn Hd Ht. split_and!.
  - split.
    + intros k v d' Hr. specialize (Hk k). destruct (winners d stg (n_reg nd) !! k) as [e|] eqn:E.
      * destruct Hk as [Hk _]. rewrite Hk in Hr. injection Hr as <- <-.
        apply winners_Some in E as (Hs & _ & _). by eapply Hcs.
      * destruct Hk as [Hk _]. rewrite Hk in Hr. eapply clock_le_trans; [by eapply N1|done].
    + intros k v d' Hr. specialize (Hk k). destruct (winners d stg (n_reg nd) !! k) as [e|] eqn:E.
      * destruct Hk as [Hk ->]. rewrite Hk in Hr. injection Hr as <- <-.
        apply winners_Some in E as (Hs & Hde & _). rewrite (Hstg k e Hs), Hde. done.
      * destruct Hk as [Hk ->]. rewrite Hk in Hr. by eapply N2.
    + intros k v d' Hr. specialize (Hk k). destruct (winners d stg (n_reg nd) !! k) as [e|] eqn:E.
      * destruct Hk as [Hk ->]. rewrite Hk in Hr. injection Hr as <- <-. by destruct d.
      * destruct Hk as [Hk ->]. rewrite Hk in Hr. by eapply N3.
    + intros k Hr. specialize (Hk k). destruct (winners d stg (n_reg nd) !! k) as [e|] eqn:E;
        destruct Hk as [Hk Hrow]; [congruence|]. rewrite Hrow. apply N4. congruence.
    + rewrite Hd, Hn. done.
    + rewrite Ht, Hn. done.
  - split; [done| |lia|by rewrite Hd|done]. intros k v Hr. specialize (Hk k).
    destruct (winners d stg (n_reg nd) !! k) as [e|] eqn:E; destruct Hk as [Hk _].
    + apply winners_Some in E as (_ & _ & Hb). eexists _, _. split; [done|]. by eapply reg_ge_beats.
    + destruct Hr as (v' & d' & Hr & Hle). exists v', d'. by rewrite Hk.
  - intros k e Hs Hde. specialize (Hk k). destruct (winners d stg (n_reg nd) !! k) as [e'|] eqn:E;
      destruct Hk as [Hk _].
    + apply winners_Some in E as (Hs' & _ & _). rewrite Hs in Hs'. injection Hs' as <-.
      eexists _, _. split; [done|apply vle_refl].
    + rewrite lookup_winners, Hs in E. case_decide as Hdec; [done|].
      destruct (n_reg nd !! k) as [[v' d']|] eqn:Hr; [|by destruct Hdec].
      exists v', d'. split; [done|]. apply not_vlt. intros Hlt. by apply Hdec.
Qed.

Lemma upsert_phase_ok H pt stg nd :
  node_ok H nd → stg_ok H stg →
  node_ok H (upsert_phase pt stg nd) ∧ node_le nd (upsert_phase pt stg nd) ∧
  ∀ k e, stg !! k = Some e → en_deleted e = false → reg_ge (upsert_phase pt stg nd) k (en_ver e).
Proof.
  intros Hok Hs. destruct (observe_all_ge pt stg (n_clock nd)) as [H1 H2].
  apply phase_forward; [done|done| |done..]. intros k. apply (stageUpsert_key pt stg nd k).
Qed.

Lemma delete_phase_ok H pt stg nd :
  node_ok H nd → stg_ok H stg →
  node_ok H (delete_phase pt stg nd) ∧ node_le nd (delete_phase pt stg nd) ∧
  ∀ k e, stg !! k = Some e → en_deleted e = true → reg_ge (delete_phase pt stg nd) k (en_ver e).
Proof.
  intros Hok Hs. destruct (observe_all_ge pt stg (n_clock nd)) as [H1 H2].
  apply phase_forward; [done|done| |done..]. intros k. apply (deleteTombstones_key pt stg nd k).
Qed.

Lemma node_le_trans nd1 nd2 nd3 : node_le nd1 nd2 → node_le nd2 nd3 → node_le nd1 nd3.
Proof.
  intros [C1 R1 N1 D1 T1] [C2 R2 N2 D2 T2]. split; [by eapply clock_le_trans|auto|lia| |congruence].
  intros i Hi. rewrite D2, D1; [done|done|lia].
Qed.

(** *** Staging *)

Lemma lookup_rereadVersioned ks nd k :
  rereadVersioned ks nd !! k =
  match n_reg nd !! k with
  | Some (v, d) => if decide (k ∈ ks) then Some (mkEntry v d (default ∅ (n_rows nd !! k))) else None
  | None => None
  end.
Proof.
  unfold rereadVersioned. rewrite map_lookup_imap. by destruct (n_reg nd !! k) as [[v d]|].
Qed.

Lemma reread_stg_ok H ks nd : node_ok H nd → stg_ok H (rereadVersioned ks nd).
Proof.
  intros [_ N2 N3 _ _ _] k e. rewrite lookup_rereadVersioned.
  destruct (n_reg nd !! k) as [[v d]|] eqn:Hr; [|done]. case_decide; [|done]. intros [= <-]. simpl.
  rewrite (N2 _ _ _ Hr). pose proof (N3 _ _ _ Hr) as Hd. destruct d.
  - destruct Hd as [Hd _]. by rewrite Hd.
  - destruct (n_rows nd !! k) as [r|]; [done|]. destruct Hd as [_ Hd]. by specialize (Hd eq_refl).
Qed.

(** *** Local writes *)

(** What a change writes. *)
Definition ch_writes (ch : change) : gmap KeyValues (option Row) :=
  match ch with
  | MInsert k r => {[ k := Some r ]}
  | MUpdate k k' r => <[k' := Some r]> {[ k := None ]}
  | MDelete k => {[ k := None ]}
  end.

Definition is_none {A} (o : option A) : bool := match o with None => true | Some _ => false end.

Lemma local_write_key nid pt ch nd k :
  let nd' := local_write nid pt ch nd in
  match ch_writes ch !! k with
  | Some o => n_reg nd' !! k = Some ((hlc_tick pt (n_clock nd), nid), is_none o) ∧ n_rows nd' !! k = o
  | None => n_reg nd' !! k = n_reg nd !! k ∧ n_rows nd' !! k = n_rows nd !! k
  end.
Proof.
  unfold local_write. destruct ch as [k0 r|k0 k1 r|k0]; simpl.
  - destruct (decide (k0 = k)) as [->|Hne].
    + by rewrite lookup_singleton_eq, !lookup_insert_eq.
    + by rewrite lookup_singleton_ne, !lookup_insert_ne.
  - destruct (decide (k1 = k)) as [->|Hne].
    + rewrite lookup_insert_eq. case_decide; simpl; by rewrite !lookup_insert_eq.
    + rewrite lookup_insert_ne by done. destruct (decide (k0 = k)) as [->|Hne'].
      * rewrite lookup_singleton_eq, decide_False by done. simpl.
        split; [by rewrite lookup_insert_ne, lookup_insert_eq|by rewrite lookup_insert_ne, lookup_delete_eq].
      * rewrite lookup_singleton_ne by done. case_decide; simpl.
        -- by rewrite !lookup_insert_ne.
        -- by rewrite !lookup_insert_ne, lookup_delete_ne.
  - destruct (decide (k0 = k)) as [->|Hne].
    + by rewrite lookup_singleton_eq, lookup_insert_eq, lookup_delete_eq.
    + by rewrite lookup_singleton_ne, lookup_insert_ne, lookup_delete_ne.
Qed.

Lemma local_write_rest nid pt ch nd :
  let nd' := local_write nid pt ch nd in
  n_clock nd' = hlc_tick pt (n_clock nd) ∧ n_track nd' = n_track nd ∧
  n_next nd' = (n_next nd + Z.of_nat (length (delta_keys ch)))%Z ∧
  n_delta nd' = enqueue (n_next nd) (delta_keys ch) (n_delta nd).
Proof. unfold local_write. destruct ch; simpl; [done| |done]. by case_decide. Qed.

Lemma ch_writes_keys ch k : is_Some (ch_writes ch !! k) → k ∈ delta_keys ch.
Proof.
  destruct ch as [k0 r|k0 k1 r|k0]; simpl.
  - rewrite lookup_singleton_is_Some. set_solver.
  - rewrite lookup_insert_is_Some, lookup_singleton_is_Some. case_decide; set_solver.
  - rewrite lookup_singleton_is_Some. set_solver.
Qed.

Lemma enqueue_old next ks d i : (i < next)%Z → enqueue next ks d !! i = d !! i.
Proof.
  revert next d. induction ks as [|k ks IH]; intros next d Hi; simpl; [done|].
  rewrite IH by lia. rewrite lookup_insert_ne by lia. done.
Qed.

Lemma enqueue_new next ks d k :
  k ∈ ks → ∃ i, (next <= i)%Z ∧ enqueue next ks d !! i = Some k.
Proof.
  revert next d. induction ks as [|k' ks IH]; intros next d; [by intros ?%elem_of_nil|].
  intros [->|Hk]%elem_of_cons; simpl.
  - exists next. split; [lia|]. by rewrite enqueue_old, lookup_insert_eq by lia.
  - destruct (IH (next + 1)%Z (<[next := k']> d) Hk) as (i & Hi & Hl). exists i. split; [lia|done].
Qed.

Lemma enqueue_bound next ks d i :
  (∀ i, is_Some (d !! i) → (i < next)%Z) →
  is_Some (enqueue next ks d !! i) → (i < next + Z.of_nat (length ks))%Z.
Proof.
  revert next d. induction ks as [|k ks IH]; intros next d Hd Hi; simpl in *; [specialize (Hd i Hi); lia|].
  assert (i < (next + 1) + Z.of_nat (length ks))%Z; [|lia]. apply (IH _ (<[next := k]> d)); [|done].
  intros j. rewrite lookup_insert_is_Some. intros [<-|[_ Hj]]; [lia|]. specialize (Hd j Hj). lia.
Qed.

Definition extend (H : history) (v : version) (W : gmap KeyValues (option Row)) : history :=
  kmap (λ k, (k, v)) W ∪ H.

Lemma lookup_extend H v W k v' :
  extend H v W !! (k, v') =
  if decide (v' = v) then match W !! k with Some o => Some o | None => H !! (k, v') end else H !! (k, v').
Proof.
  assert (Inj (=) (=) (λ k : KeyValues, (k, v))) as Hinj by by intros k1 k2 [= ->].
  unfold extend. rewrite lookup_union_r_if. case_decide as Hv.
  - subst v'. by rewrite (lookup_kmap (λ k, (k, v))).
  - destruct (kmap (λ k, (k, v)) W !! (k, v')) as [o|] eqn:E; [|done].
    apply (lookup_kmap_Some (λ k, (k, v))) in E as (k0 & [= _ ->] & _). done.
Qed.

Lemma local_write_ok H n pt ch nd :
  let v : version := (hlc_tick pt (n_clock nd), n) in
  (∀ k, H !! (k, v) = None) → node_ok H nd →
  node_ok (extend H v (ch_writes ch)) (local_write n pt ch nd) ∧ node_le nd (local_write n pt ch nd).
Proof.
  intros v Hfresh [N1 N2 N3 N4 N5 N6].
  pose proof (hlc_tick_lt pt (n_clock nd)) as Htick.
  pose proof (local_write_key n pt ch nd) as Hk. simpl in Hk.
  destruct (local_write_rest n pt ch nd) as (Ec & Et & En & Ed). fold v in Hk.
  set (nd' := local_write n pt ch nd) in *. split.
  - split.
    + intros k w d Hr. rewrite Ec. specialize (Hk k). destruct (ch_writes ch !! k) as [o|];
        destruct Hk as [Hk _]; rewrite Hk in Hr.
      * injection Hr as <- <-. apply clock_le_refl.
      * apply clock_lt_le. eapply clock_le_lt_trans; [by eapply N1|done].
    + intros k w d Hr. rewrite lookup_extend. specialize (Hk k). destruct (ch_writes ch !! k) as [o|];
        destruct Hk as [Hk ->]; rewrite Hk in Hr.
      * injection Hr as <- <-. by rewrite decide_True.
      * rewrite (N2 _ _ _ Hr). by case_decide.
    + intros k w d Hr. specialize (Hk k). destruct (ch_writes ch !! k) as [o|];
        destruct Hk as [Hk ->]; rewrite Hk in Hr; [|by eapply N3].
      injection Hr as <- <-. by destruct o.
    + intros k Hr. specialize (Hk k). destruct (ch_writes ch !! k) as [o|];
        destruct Hk as [Hk Hrow]; [congruence|]. rewrite Hrow. apply N4. congruence.
    + intros i. rewrite Ed, En. by apply enqueue_bound.
    + intros b i. rewrite Et, En. intros Hi%N6. lia.
  - split.
    + rewrite Ec. by apply clock_lt_le.
    + intros k w Hr. specialize (Hk k). destruct (ch_writes ch !! k) as [o|]; destruct Hk as [Hk _].
      * eexists _, _. split; [done|]. destruct Hr as (w' & d & Hr & Hle).
        eapply vle_trans; [done|]. right. left. simpl. eapply clock_le_lt_trans; [by eapply N1|done].
      * destruct Hr as (w' & d & Hr & Hle). exists w', d. by rewrite Hk.
    + rewrite En. lia.
    + intros i Hi. rewrite Ed. by apply enqueue_old.
    + done.
Qed.

(** *** Steps *)

Lemma MInv_write H m n nd pt ch :
  MInv H m → m_nodes m !! n = Some nd →
  ∃ H', MInv H' (set_node n (local_write n pt ch nd) m).
Proof.
  intros HI Hn. set (v := (hlc_tick pt (n_clock nd), n) : version).
  assert (∀ k, H !! (k, v) = None) as Hfresh.
  { intros k. destruct (H !! (k, v)) as [x|] eqn:E; [|done].
    destruct (mi_fresh _ _ HI k v) as (nd0 & Hn0 & Hc & _); [by eexists|]. simpl in Hn0.
    rewrite Hn in Hn0. injection Hn0 as <-. simpl in Hc. pose proof (hlc_tick_lt pt (n_clock nd)) as Ht.
    unfold clock_le, clock_lt in *. lia. }
  destruct (local_write_ok H n pt ch nd Hfresh (mi_node _ _ HI _ _ Hn)) as [Hok L]. fold v in Hok.
  exists (extend H v (ch_writes ch)). apply (MInv_forward H _ m n nd); [done..| |].
  - intros [k w] x Hx. rewrite lookup_extend. case_decide; [|done]. subst w. by rewrite Hfresh in Hx.
  - intros k w. rewrite lookup_extend. case_decide as Hw; [|by left]. subst w.
    destruct (ch_writes ch !! k) as [o|] eqn:Ew; [|by left]. intros _. right.
    destruct (local_write_rest n pt ch nd) as (Ec & _ & _ & Ed).
    pose proof (local_write_key n pt ch nd k) as Hk. simpl in Hk. rewrite Ew in Hk. destruct Hk as [Hk _].
    split_and!; [done|rewrite Ec; apply clock_le_refl|eexists _, _; split; [done|apply vle_refl]|].
    rewrite Ed. apply enqueue_new, ch_writes_keys. by eexists.
Qed.

Lemma mesh_tick_ok H pt nd : node_ok H nd → node_ok H (mesh_tick pt nd) ∧ node_le nd (mesh_tick pt nd).
Proof.
  pose proof (hlc_tick_lt pt (n_clock nd)) as Ht. intros [N1 N2 N3 N4 N5 N6]. split.
  - split; [|done..]. intros k v d Hr. simpl. apply clock_lt_le.
    eapply clock_le_lt_trans; [by eapply N1|done].
  - split; [by apply clock_lt_le|done..].
Qed.

Lemma mesh_pending_confirm nda b b' ids ids' k :
  (b' = b → ∀ i, i ∈ ids → i ∈ ids') → pending nda b' ids' k → pending (confirm b ids nda) b' ids' k.
Proof.
  intros Hb (i & Hi & Hk & Ht). exists i. split_and!; [done..|]. simpl.
  rewrite elem_of_union, elem_of_list_to_set, list_elem_of_fmap. intros [(j & [= -> ->] & Hj)|]; [|done].
  by apply Hi, Hb.
Qed.

Lemma MInv_confirm H m a b nd p :
  MInv H m → m_nodes m !! a = Some nd → m_pass m !! (a, b) = Some p → p_applied p = true →
  MInv H (set_node a (confirm b (p_ids p) nd) m).
Proof.
  intros [I1 I2 I3 I4] Ha Hp Happ. destruct (I4 a b p Hp) as (Hne & nda & ndb & Ha' & Hb & Hpo).
  rewrite Ha in Ha'. injection Ha' as <-. set (nd' := confirm b (p_ids p) nd).
  assert (∀ x ndx, m_nodes (set_node a nd' m) !! x = Some ndx →
    ∃ ndx0, m_nodes m !! x = Some ndx0 ∧ n_reg ndx = n_reg ndx0 ∧ n_clock ndx = n_clock ndx0) as Hback.
  { intros x ndx. simpl. rewrite lookup_insert_Some. intros [[<- <-]|[_ Hx]]; [by exists nd|by exists ndx]. }
  assert (∀ x ndx0, m_nodes m !! x = Some ndx0 → ∃ ndx, m_nodes (set_node a nd' m) !! x = Some ndx ∧
    n_reg ndx = n_reg ndx0 ∧ n_clock ndx = n_clock ndx0) as Hfw.
  { intros x ndx0 Hx. simpl. destruct (decide (x = a)) as [->|Hxa].
    - rewrite lookup_insert_eq. rewrite Ha in Hx. injection Hx as <-. by exists nd'.
    - rewrite lookup_insert_ne by done. by exists ndx0. }
  split.
  - intros x ndx. simpl. rewrite lookup_insert_Some. intros [[<- <-]|[_ Hx]]; [|by apply (I1 x)].
    destruct (I1 _ _ Ha) as [N1 N2 N3 N4 N5 N6]. split; [done..|]. intros b' i. simpl.
    rewrite elem_of_union, elem_of_list_to_set, list_elem_of_fmap.
    intros [(j & [= -> ->] & Hj)|Hi]; [by apply (ps_ids _ _ _ _ _ _ Hpo)|by eapply N6].
  - intros k v Hh. destruct (I2 k v Hh) as (ndo & Ho & Hc & Hr). destruct (Hfw _ _ Ho) as (ndo' & Ho' & Er & Ec).
    exists ndo'. split_and!; [done|by rewrite Ec|]. unfold reg_ge. by rewrite Er.
  - intros k v b' ndb' nda' Hh Hv Hna Hnb.
    destruct (I2 k v Hh) as (ndo & Ho & _). destruct (Hback _ _ Hnb) as (ndb0 & Hb0 & Er & _).
    assert (∀ w, reg_ge ndb' k w ↔ reg_ge ndb0 k w) as Hge by (intros w; unfold reg_ge; by rewrite Er).
    rewrite Hge. destruct (I3 k v b' ndb0 ndo Hh Hv Ho Hb0) as [?|Hpe]; [by left|].
    revert Hna. simpl. rewrite lookup_insert_Some. intros [[Ea <-]|[_ Hna]]; [|right; congruence].
    rewrite <-Ea, Ha in Ho. injection Ho as <-. destruct (decide (b' = b)) as [->|Hbb].
    2: { right. by apply mesh_pending_confirm. }
    rewrite Hb in Hb0. injection Hb0 as <-. destruct Hpe as (i & _ & Hk & Ht).
    destruct (decide (i ∈ p_ids p)) as [Hi|Hi].
    2: { right. exists i. split_and!; [set_solver|done|]. simpl.
         rewrite elem_of_union, elem_of_list_to_set, list_elem_of_fmap. intros [(j & [= ->] & Hj)|]; done. }
    destruct (ps_applied _ _ _ _ _ _ Hpo Happ) as (stg & Hs & Hr).
    destruct (ps_cover _ _ _ _ _ _ Hpo stg i k v Hs Hi Hk Hh (eq_sym Ea)) as [(e & He & Hle)|Hpe].
    + left. eapply reg_ge_le; [by apply Hr|done].
    + right. apply (mesh_pending_confirm nd b b (p_ids p) (p_ids p) k) in Hpe; [|done].
      destruct Hpe as (j & Hj & Hk' & Ht'). exists j. split_and!; [set_solver|done..].
  - intros x y q Hq. change (m_pass m !! (x, y) = Some q) in Hq. destruct (I4 x y q Hq) as (Hxy & ndx & ndy & Hx & Hy & [P1 P2 P3 P4]). split; [done|].
    destruct (Hfw _ _ Hy) as (ndy' & Hy' & Ery & _).
    assert (p_applied q = true → ∃ stg, p_stg q = Some stg ∧
      ∀ k e, stg !! k = Some e → reg_ge ndy' k (en_ver e)) as P4'.
    { intros Hq'. destruct (P4 Hq') as (stg & Hs & Hr). exists stg. split; [done|].
      intros k e He. unfold reg_ge. rewrite Ery. by apply Hr. }
    destruct (decide (x = a)) as [->|Hxa].
    + rewrite Ha in Hx. injection Hx as <-. exists nd', ndy'. split_and!; [simpl; by rewrite lookup_insert_eq|done|].
      split; [done|done| |done]. intros stg i k v Hs Hi Hk Hh Hv.
      destruct (P3 stg i k v Hs Hi Hk Hh Hv) as [?|Hpe]; [by left|right].
      apply mesh_pending_confirm; [|done]. intros -> j Hj. rewrite Hp in Hq. by injection Hq as <-.
    + exists ndx, ndy'. split_and!; [simpl; by rewrite lookup_insert_ne|done|]. by split.
Qed.

Lemma elem_of_mesh_unconsumed nd b i :
  i ∈ unconsumed nd b → is_Some (n_delta nd !! i) ∧ (b, i) ∉ n_track nd.
Proof.
  unfold unconsumed. intros ([j k] & -> & [Ht Hin%elem_of_map_to_list]%list_elem_of_filter)%list_elem_of_fmap.
  split; [by eexists|done].
Qed.

Lemma atomic_step_inv H m m' : atomic_step m m' → MInv H m → ∃ H', MInv H' m'.
Proof.
  intros Hs HI. destruct Hs as [m n nd pt ch Hn|m n nd pt Hn|m a b nd ids Ha Hne [ndb Hb] Hids
    |m a b nd p Ha Hp|m a b nd p stg pt Hb Hp Hs|m a b nd p stg pt pt' Hb Hp Hs|m a b nd p Ha Hp Happ].
  - by eapply MInv_write.
  - exists H. destruct (mesh_tick_ok H pt nd) as [H1 H2]; [by eapply mi_node|]. by eapply MInv_forward_same.
  - exists H. apply (MInv_set_pass H m a b _ nd ndb); [done..|]. split; [|done..].
    intros i Hi%Hids%elem_of_mesh_unconsumed. apply (nk_delta _ _ (mi_node _ _ HI _ _ Ha)). apply Hi.
  - exists H. destruct (mi_pass _ _ HI _ _ _ Hp) as (Hne & nda & ndb & Ha' & Hb & [P1 _ _ _]).
    rewrite Ha in Ha'. injection Ha' as <-. apply (MInv_set_pass H m a b _ nd ndb); [done..|].
    assert (node_ok H nd) as Hok by by eapply mi_node.
    split; [done| | |done]; simpl; intros stg; [intros [= <-]; by apply reread_stg_ok|].
    intros i k v [= <-] Hi Hk Hh Hv. left.
    destruct (mi_fresh _ _ HI k v Hh) as (nd0 & Hn0 & _ & v' & d & Hr & Hle).
    rewrite Hv, Ha in Hn0. injection Hn0 as <-. rewrite lookup_rereadVersioned, Hr, decide_True; [by eexists|].
    apply list_elem_of_omap. by exists i.
  - exists H. destruct (mi_pass _ _ HI _ _ _ Hp) as (_ & nda & ndb & _ & _ & [_ P2 _ _]).
    destruct (upsert_phase_ok H pt stg nd) as (H1 & H2 & _); [by eapply mi_node|by apply P2|].
    by eapply MInv_forward_same.
  - exists H. destruct (mi_pass _ _ HI _ _ _ Hp) as (Hne & nda & ndb & Ha & Hb' & Hpo).
    rewrite Hb in Hb'. injection Hb' as <-. pose proof (ps_stg _ _ _ _ _ _ Hpo _ Hs) as Hstg.
    destruct (upsert_phase_ok H pt stg nd) as (H1 & H2 & H3); [by eapply mi_node|done|].
    destruct (delete_phase_ok H pt' stg (upsert_phase pt stg nd)) as (H4 & H5 & H6); [done..|].
    set (nd2 := delete_phase pt' stg (upsert_phase pt stg nd)) in *.
    assert (node_le nd nd2) as L by by eapply node_le_trans.
    apply (MInv_set_pass H _ a b _ nda nd2); [by eapply MInv_forward_same|done|
      simpl; by rewrite lookup_insert_ne|simpl; by rewrite lookup_insert_eq|].
    destruct Hpo as [P1 P2 P3 P4]. split; simpl; [done| |..].
    + by intros stg' [= <-].
    + intros stg' i k v [= <-]. by apply P3.
    + intros _. exists stg. split; [done|]. intros k e He. destruct (en_deleted e) eqn:Ed.
      * by apply H6.
      * by apply H5, H3.
  - exists H. by eapply MInv_confirm.
Qed.

(** A cluster before its first captured write: every member has the same rows. *)
Definition start (m : mesh) : Prop :=
  m_pass m = ∅ ∧
  ∀ n nd, m_nodes m !! n = Some nd →
    n_rows nd = R0 ∧ n_reg nd = ∅ ∧ n_delta nd = ∅ ∧ n_track nd = ∅.

Lemma start_inv m : start m → MInv ∅ m.
Proof.
  intros [Hp Hn]. split.
  - intros n nd Hnd. destruct (Hn n nd Hnd) as (Hr & Hg & Hd & Ht).
    split; rewrite ?Hr, ?Hg, ?Hd, ?Ht; [done|done|done|done|by intros i []|set_solver].
  - by intros k v [].
  - by intros k v b ndb nda [].
  - intros a b p. by rewrite Hp.
Qed.

Lemma atomic_steps_inv H m m' : rtc atomic_step m m' → MInv H m → ∃ H', MInv H' m'.
Proof.
  intros Hr. revert H. induction Hr as [m|m1 m2 m3 Hs _ IH]; intros H HI; [by exists H|].
  destruct (atomic_step_inv H m1 m2 Hs HI) as [H' HI']. by apply (IH H').
Qed.

Lemma reach_inv m m' : start m → rtc atomic_step m m' → ∃ H, MInv H m'.
Proof. intros H0%start_inv Hr. by eapply atomic_steps_inv. Qed.

(** Every edge is drained. *)
Definition quiescent (m : mesh) : Prop :=
  ∀ a b nda, a ≠ b → m_nodes m !! a = Some nda → is_Some (m_nodes m !! b) → unconsumed nda b = [].

Lemma not_pending nda b k : unconsumed nda b = [] → ¬ pending nda b [] k.
Proof.
  intros Hu (i & _ & Hk & Ht). assert (i ∈ unconsumed nda b) as Hi; [|rewrite Hu in Hi; by apply elem_of_nil in Hi].
  unfold unconsumed. apply list_elem_of_fmap. exists (i, k). split; [done|].
  apply list_elem_of_filter. split; [done|]. by apply elem_of_map_to_list.
Qed.

Lemma quiescent_ge H m k v b ndb :
  MInv H m → quiescent m → is_Some (H !! (k, v)) → m_nodes m !! b = Some ndb → reg_ge ndb k v.
Proof.
  intros HI Hq Hh Hb. destruct (mi_fresh _ _ HI k v Hh) as (nda & Ha & _ & Hr).
  destruct (decide (v.2 = b)) as [E|Hne]; [rewrite E, Hb in Ha; by injection Ha as <-|].
  destruct (mi_edge _ _ HI k v b ndb nda Hh Hne Ha Hb) as [?|Hpe]; [done|].
  exfalso. eapply not_pending; [|done]. apply (Hq v.2 b nda); [done..|by eexists].
Qed.

(** Members of a drained cluster agree. *)
Lemma quiescent_agree H m' a b nda ndb :
  MInv H m' → quiescent m' → m_nodes m' !! a = Some nda → m_nodes m' !! b = Some ndb →
  n_rows nda = n_rows ndb ∧ n_reg nda = n_reg ndb.
Proof.
  intros HI Hq Ha Hb.
  assert (∀ x y ndx ndy k v d, m_nodes m' !! x = Some ndx → m_nodes m' !! y = Some ndy →
    n_reg ndx !! k = Some (v, d) → reg_ge ndy k v) as Hge.
  { intros x y ndx ndy k v d Hx Hy Hk. apply (quiescent_ge H m' k v y ndy); [done..| |done].
    rewrite (nk_hist _ _ (mi_node _ _ HI _ _ Hx) _ _ _ Hk). by eexists. }
  assert (∀ k, n_rows nda !! k = n_rows ndb !! k ∧ n_reg nda !! k = n_reg ndb !! k) as Hk.
  { intros k. pose proof (mi_node _ _ HI _ _ Ha) as [_ A2 A3 A4 _ _].
    pose proof (mi_node _ _ HI _ _ Hb) as [_ B2 B3 B4 _ _].
    destruct (n_reg nda !! k) as [[v d]|] eqn:Ea.
    - destruct (Hge a b nda ndb k v d Ha Hb Ea) as (v' & d' & Eb & Hle).
      destruct (Hge b a ndb nda k v' d' Hb Ha Eb) as (v'' & d'' & Ea' & Hle').
      rewrite Ea in Ea'. injection Ea' as <- <-.
      assert (v = v') as <- by by apply vle_antisym.
      pose proof (A2 _ _ _ Ea) as E1. pose proof (B2 _ _ _ Eb) as E2. rewrite E1 in E2. injection E2 as E2.
      split; [done|]. rewrite Eb. do 2 f_equal. pose proof (A3 _ _ _ Ea) as D1.
      pose proof (B3 _ _ _ Eb) as D2. rewrite E2 in D1. destruct d, d'; tauto || (exfalso; naive_solver).
    - destruct (n_reg ndb !! k) as [[v d]|] eqn:Eb.
      + destruct (Hge b a ndb nda k v d Hb Ha Eb) as (v'' & d'' & Ea' & _). congruence.
      + split; [|done]. by rewrite A4, B4. }
  split; apply map_eq; intros k; apply Hk.
Qed.

(** The tombstones that win do so before and after the alive rows are written. *)
Lemma winners_later pt stg nd : winners true stg (n_reg (upsert_phase pt stg nd)) = winners true stg (n_reg nd).
Proof.
  apply map_eq. intros k. rewrite !lookup_winners. destruct (stg !! k) as [e|] eqn:E; [|done].
  destruct (en_deleted e) eqn:Ed; [|rewrite !decide_False by naive_solver; done].
  pose proof (stageUpsert_key pt stg nd k) as Hk. cbv zeta in Hk.
  rewrite lookup_winners, E, decide_False in Hk by (rewrite Ed; naive_solver).
  destruct Hk as [Hk _]. by rewrite Hk.
Qed.

Lemma undisturbed_step k c c' :
  mesh_step k c c' → k = Undisturbed → rtc atomic_step (c_mesh c) (c_mesh c').
Proof.
  assert (∀ wa wd stg nd, commit_kind wa wd stg nd = Undisturbed →
    wa = winners false stg (n_reg nd) ∧ wd = winners true stg (n_reg nd)) as Hk.
  { intros wa wd stg nd. unfold commit_kind. by case_decide. }
  destruct 1 as [c n nd pt ch Hn|c n nd pt Hn|c a b nd ids Ha Hne Hb Hids|c a b nd p Ha Hp|c a b nd p stg Hb Hp Hs
    |c a b nd p stg wa wd pt Hb Hp Hs Hw|c a b nd p stg wa wd pt pt' Hb Hp Hs Hw|c a b nd p Ha Hp Happ|c n nd Hn]; intros Hu; simpl.
  - apply rtc_once. by apply a_write.
  - apply rtc_once. by apply a_tick.
  - apply rtc_once. by apply (a_read _ a b nd).
  - apply rtc_once. by apply (a_stage _ a b nd).
  - done.
  - destruct (Hk _ _ _ _ Hu) as [-> _]. apply rtc_once. by apply (a_upsert _ a b nd p).
  - destruct (Hk _ _ _ _ Hu) as [-> ->]. apply rtc_once. rewrite <-(winners_later pt). by apply (a_apply _ a b nd p).
  - apply rtc_once. by apply (a_confirm _ a b nd p).
  - unfold gc_kind in Hu. case_decide as Hg; [|done]. destruct (c_mesh c) as [ns ps]. simpl in *.
    assert (GCTombstones nd = nd) as -> by (destruct nd; unfold GCTombstones in *; simpl in *; by rewrite Hg).
    unfold set_node. simpl. by rewrite insert_id.
Qed.

Lemma undisturbed_run c c' : rtc (mesh_step Undisturbed) c c' → rtc atomic_step (c_mesh c) (c_mesh c').
Proof. induction 1 as [c|c1 c2 c3 Hs _ IH]; [done|]. etransitivity; [by eapply undisturbed_step|done]. Qed.

End convergence.
End mesh.

(** ** Runs *)

Section runs.
#[local] Existing Instance bytewise.

(** Any event, disturbed or not. *)
Definition event (c c' : cluster) : Prop := ∃ k, mesh_step k c c'.

Lemma undisturbed_events c c' : rtc (mesh_step Undisturbed) c c' → rtc event c c'.
Proof. apply rtc_subrel. intros x y Hs. by exists Undisturbed. Qed.

Definition no_apply (m : mesh) : cluster := mkCluster m ∅.

(** The first half of a pass: read, stage, open the apply. *)
Definition run_open (a b : string) (c : cluster) : cluster :=
  match m_nodes (c_mesh c) !! a, m_nodes (c_mesh c) !! b with
  | Some nda, Some ndb =>
      let ids := unconsumed nda b in
      let stg := rereadVersioned (omap (λ i, n_delta nda !! i) ids) nda in
      mkCluster (set_pass (a, b) (mkPass ids (Some stg) false) (set_pass (a, b) (mkPass ids None false) (c_mesh c)))
        (<[(a, b) := (winners false stg (n_reg ndb), winners true stg (n_reg ndb))]> (c_win c))
  | _, _ => c
  end.

(** The second half: commit both phases, confirm. *)
Definition run_commit (a b : string) (pt : Z) (c : cluster) : cluster :=
  match m_nodes (c_mesh c) !! b, m_pass (c_mesh c) !! (a, b), c_win c !! (a, b) with
  | Some ndb, Some p, Some (wa, wd) =>
      match p_stg p with
      | Some stg =>
          let m1 := set_pass (a, b) (mkPass (p_ids p) (Some stg) true)
                      (set_node b (deleteTombstonesCluster pt wd stg (stageUpsertCluster pt wa stg ndb)) (c_mesh c)) in
          match m_nodes m1 !! a with
          | Some nda => on_mesh (set_node a (confirm b (p_ids p) nda) m1) c
          | None => on_mesh m1 c
          end
      | None => c
      end
  | _, _, _ => c
  end.

Definition run_pass (a b : string) (pt : Z) (c : cluster) : cluster :=
  match m_nodes (c_mesh c) !! a, m_nodes (c_mesh c) !! b with
  | Some _, Some _ => run_commit a b pt (run_open a b c)
  | _, _ => c
  end.

Lemma run_open_steps a b c : a ≠ b → rtc (mesh_step Undisturbed) c (run_open a b c).
Proof.
  intros Hne. unfold run_open. destruct (m_nodes (c_mesh c) !! a) as [nda|] eqn:Ha; [|done].
  destruct (m_nodes (c_mesh c) !! b) as [ndb|] eqn:Hb; [|done].
  eapply rtc_l; [apply (s_read c a b nda (unconsumed nda b)); [done|done|by eexists|by intros i Hi]|].
  eapply rtc_l; [apply (s_stage _ a b nda (mkPass (unconsumed nda b) None false)); [done|]|].
  { simpl. by rewrite lookup_insert_eq. }
  cbn [p_ids]. set (ids := unconsumed nda b). set (stg := rereadVersioned _ nda). apply rtc_once.
  refine (s_snapshot (mkCluster (set_pass (a, b) (mkPass ids (Some stg) false)
    (set_pass (a, b) (mkPass ids None false) (c_mesh c))) (c_win c)) a b ndb (mkPass ids (Some stg) false) stg _ _ _);
    [done|simpl; by rewrite lookup_insert_eq|done].
Qed.

Lemma run_commit_events a b pt c : rtc event c (run_commit a b pt c).
Proof.
  unfold run_commit. destruct (m_nodes (c_mesh c) !! b) as [ndb|] eqn:Hb; [|done].
  destruct (m_pass (c_mesh c) !! (a, b)) as [p|] eqn:Hp; [|done].
  destruct (c_win c !! (a, b)) as [[wa wd]|] eqn:Hw; [|done]. destruct (p_stg p) as [stg|] eqn:Hs; [|done].
  eapply rtc_l; [eexists; by eapply (s_apply c a b ndb p stg wa wd pt pt)|]. cbv zeta.
  set (m1 := set_pass _ _ _). destruct (m_nodes m1 !! a) as [nda|] eqn:Ha; [|done].
  apply rtc_once. exists Undisturbed.
  refine (s_confirm (on_mesh m1 c) a b nda (mkPass (p_ids p) (Some stg) true) _ _ _); [done| |done].
  simpl. by rewrite lookup_insert_eq.
Qed.

(** One pass of an edge at a time is undisturbed. *)
Lemma run_pass_steps a b pt c : a ≠ b → rtc (mesh_step Undisturbed) c (run_pass a b pt c).
Proof.
  intros Hne. unfold run_pass. pose proof (run_open_steps a b c Hne) as Ho. unfold run_open in *.
  destruct (m_nodes (c_mesh c) !! a) as [nda|] eqn:Ha; [|done].
  destruct (m_nodes (c_mesh c) !! b) as [ndb|] eqn:Hb; [|done]. etransitivity; [exact Ho|]. clear Ho. cbv zeta.
  set (ids := unconsumed nda b). set (stg := rereadVersioned _ nda). set (c1 := mkCluster _ _).
  set (wa := winners false stg (n_reg ndb)). set (wd := winners true stg (n_reg ndb)).
  set (m1 := set_pass (a, b) (mkPass ids (Some stg) true)
    (set_node b (deleteTombstonesCluster pt wd stg (stageUpsertCluster pt wa stg ndb)) (c_mesh c1))).
  assert (m_nodes m1 !! a = Some nda) as Ha1 by (simpl; by rewrite lookup_insert_ne).
  assert (run_commit a b pt c1 = on_mesh (set_node a (confirm b ids nda) m1) c1) as ->.
  { unfold run_commit. replace (m_nodes (c_mesh c1) !! b) with (Some ndb) by (symmetry; exact Hb).
    replace (m_pass (c_mesh c1) !! (a, b)) with (Some (mkPass ids (Some stg) false))
      by (symmetry; apply lookup_insert_eq).
    replace (c_win c1 !! (a, b)) with (Some (wa, wd)) by (symmetry; apply lookup_insert_eq).
    cbn [p_stg p_ids]. cbv zeta. fold m1. by rewrite Ha1. }
  eapply (rtc_l _ _ (on_mesh m1 c1)).
  - assert (Undisturbed = commit_kind wa wd stg ndb) as -> by (unfold commit_kind; by rewrite decide_True).
    refine (s_apply c1 a b ndb (mkPass ids (Some stg) false) stg wa wd pt pt _ _ _ _);
      [exact Hb|apply lookup_insert_eq|done|apply lookup_insert_eq].
  - apply rtc_once. refine (s_confirm (on_mesh m1 c1) a b nda (mkPass ids (Some stg) true) _ _ _);
      [exact Ha1|apply lookup_insert_eq|done].
Qed.

Definition run_write (n : string) (pt : Z) (ch : change) (c : cluster) : cluster :=
  match m_nodes (c_mesh c) !! n with
  | Some nd => on_mesh (set_node n (local_write n pt ch nd) (c_mesh c)) c
  | None => c
  end.

Lemma run_write_step n pt ch c : rtc (mesh_step Undisturbed) c (run_write n pt ch c).
Proof.
  unfold run_write. destruct (m_nodes (c_mesh c) !! n) as [nd|] eqn:E; [|done]. apply rtc_once. by apply s_write.
Qed.

Definition run_gc (n : string) (c : cluster) : cluster :=
  match m_nodes (c_mesh c) !! n with
  | Some nd => on_mesh (set_node n (GCTombstones nd) (c_mesh c)) c
  | None => c
  end.

Lemma run_gc_event n c : rtc event c (run_gc n c).
Proof.
  unfold run_gc. destruct (m_nodes (c_mesh c) !! n) as [nd|] eqn:E; [|done]. apply rtc_once. eexists. by apply s_gc.
Qed.

(** Three members that all hold one row. *)
Definition key1 : KeyValues := [VText "1"].
Definition old_row : Row := {[ "name" := "old" ]}.
Definition new_row : Row := {[ "name" := "new" ]}.
Definition other_row : Row := {[ "name" := "other" ]}.
Definition member : node := mkNode {[ key1 := old_row ]} ∅ (0, 0)%Z 1%Z ∅ ∅.
Definition three : cluster := no_apply (mkMesh {[ "a" := member; "b" := member; "c" := member ]} ∅).

Lemma three_start : start {[ key1 := old_row ]} (c_mesh three).
Proof.
  split; [done|]. intros n nd. simpl. rewrite !lookup_insert_Some, lookup_singleton_Some.
  intros [[_ <-]|[_ [[_ <-]|[_ [_ <-]]]]]; done.
Qed.

Lemma decide_quiescent m :
  Forall (λ x, Forall (λ y, x.1 = y.1 ∨ unconsumed x.2 y.1 = []) (map_to_list (m_nodes m)))
    (map_to_list (m_nodes m)) → quiescent m.
Proof.
  intros HF a b nda Hne Ha [ndb Hb]. apply elem_of_map_to_list in Ha, Hb.
  rewrite Forall_forall in HF. specialize (HF _ Ha). rewrite Forall_forall in HF.
  destruct (HF _ Hb) as [E|E]; [simpl in E; congruence|done].
Qed.

(** [c] updates the row, then [a] deletes it; [b] receives the delete, collects the
    tombstone, and receives the older update; the other edges drain. *)
Definition resurrected : cluster :=
  run_pass "c" "a" 7 (run_pass "a" "c" 6 (run_pass "c" "b" 5 (run_gc "b" (run_pass "a" "b" 3
    (run_write "a" 2 (MDelete key1) (run_write "c" 1 (MUpdate key1 key1 new_row) three)))))).

(** Collecting a tombstone is not safe where it was received: a member keeps no
    delta for a change it applied from a peer, so the collector drops the
    tombstone at once, and an older update still on its way from a third member
    brings the deleted row back there. All edges are drained and the members
    disagree for good. *)
Theorem gc_resurrects_deleted_row :
  start {[ key1 := old_row ]} (c_mesh three) ∧ rtc event three resurrected ∧ quiescent (c_mesh resurrected) ∧
  (n_rows <$> m_nodes (c_mesh resurrected) !! "a") = Some ∅ ∧
  (n_rows <$> m_nodes (c_mesh resurrected) !! "b") = Some {[ key1 := new_row ]} ∧
  (n_rows <$> m_nodes (c_mesh resurrected) !! "c") = Some ∅.
Proof.
  split; [exact three_start|]. split.
  { unfold resurrected.
    etransitivity; [apply undisturbed_events, run_write_step|].
    etransitivity; [apply undisturbed_events, run_write_step|].
    etransitivity; [apply undisturbed_events, (run_pass_steps "a" "b" 3); done|].
    etransitivity; [apply run_gc_event|].
    etransitivity; [apply undisturbed_events, (run_pass_steps "c" "b" 5); done|].
    etransitivity; [apply undisturbed_events, (run_pass_steps "a" "c" 6); done|].
    apply undisturbed_events, (run_pass_steps "c" "a" 7); done. }
  split; [apply decide_quiescent; apply (bool_decide_unpack _); vm_compute; exact I|].
  split_and!; vm_compute; reflexivity.
Qed.

(** [a] and [b] alone. [a] updates the row; the apply on [b] has taken its winners when a
    local update of [b], later than [a]'s, commits; then the apply overwrites the row, and
    its register statement leaves [b]'s version. [b]'s version reaches [a] with [b]'s row. *)
Definition two : cluster := no_apply (mkMesh {[ "a" := member; "b" := member ]} ∅).

Definition overtaken : cluster :=
  let c := run_open "a" "b" (run_write "a" 1 (MUpdate key1 key1 new_row) two) in
  let c := run_pass "b" "a" 6 (run_write "b" 5 (MUpdate key1 key1 other_row) c) in
  run_commit "a" "b" 7 c.

(** An apply whose value statement waited for a local write overwrites the later row and keeps
    the later version: all edges are drained, the registers agree, and the rows differ. *)
Theorem overtaken_apply_diverges :
  start {[ key1 := old_row ]} (c_mesh two) ∧ rtc event two overtaken ∧ quiescent (c_mesh overtaken) ∧
  (n_reg <$> m_nodes (c_mesh overtaken) !! "a") = Some {[ key1 := ((5, 0)%Z, "b", false) ]} ∧
  (n_reg <$> m_nodes (c_mesh overtaken) !! "b") = Some {[ key1 := ((5, 0)%Z, "b", false) ]} ∧
  (n_rows <$> m_nodes (c_mesh overtaken) !! "a") = Some {[ key1 := other_row ]} ∧
  (n_rows <$> m_nodes (c_mesh overtaken) !! "b") = Some {[ key1 := new_row ]}.
Proof.
  split.
  { split; [done|]. intros n nd. simpl. rewrite !lookup_insert_Some, lookup_singleton_Some.
    intros [[_ <-]|[_ [_ <-]]]; done. }
  split.
  { unfold overtaken. cbv zeta.
    etransitivity; [apply undisturbed_events, run_write_step|].
    etransitivity; [apply undisturbed_events, (run_open_steps "a" "b"); done|].
    etransitivity; [apply undisturbed_events, run_write_step|].
    etransitivity; [apply undisturbed_events, (run_pass_steps "b" "a" 6); done|].
    apply run_commit_events. }
  split; [apply decide_quiescent; apply (bool_decide_unpack _); vm_compute; exact I|].
  split_and!; vm_compute; reflexivity.
Qed.

(** ** Witness: the writes of [resurrected] without the collector *)

Definition drained : cluster :=
  run_pass "c" "a" 7 (run_pass "a" "c" 6 (run_pass "c" "b" 5 (run_pass "a" "b" 3
    (run_write "a" 2 (MDelete key1) (run_write "c" 1 (MUpdate key1 key1 new_row) three))))).

Lemma drained_reach : rtc (mesh_step Undisturbed) three drained.
Proof.
  unfold drained.
  etransitivity; [apply run_write_step|].
  etransitivity; [apply run_write_step|].
  etransitivity; [apply (run_pass_steps "a" "b" 3); done|].
  etransitivity; [apply (run_pass_steps "c" "b" 5); done|].
  etransitivity; [apply (run_pass_steps "a" "c" 6); done|].
  apply (run_pass_steps "c" "a" 7); done.
Qed.

End runs.
End Mesh.
