(* ===== verification/Syncer.v ===== *)
(** * The lifecycle of a sync ([internal/pipeline/syncer.go])

    [Bringup] takes a cold sync to streaming: it installs capture first, then
    copies every foreign-key component and cuts it over. The connection pools and
    the optional interfaces of the engine are flags of the [Syncer] record; the
    rows-copied callback of the copy is left out.

    [sync_step] extends the world of the copy by the tables that are captured:
    the applications write to the others without leaving a delta, and calls other
    than the installation are not allowed before the planned tables are captured
    ([sync_requires]), which makes capture-first an obligation of the program. The
    installation goes table by table, in transactions or with statements that commit
    one by one ([ddl_commit]). *)

From S2P Require Import Prelude Engine Calls ApplyTx Plan Contract Postgres PgDrain Store Copy PgCyclicCopy Reseed.
Import ApplyTx Plan Contract Postgres PgDrain Store Copy PgCyclicCopy Reseed.

Module Syncer.

(** ** The syncer *)

Record Syncer := mkSyncer {
  sy_Name : string;
  sy_Target : TargetID;
  sy_Workers : nat;                  (** len(s.Workers) *)
  sy_Verifier : bool;                (** the sink is an engine.Verifier *)
  sy_CyclicCopier : bool;            (** Workers[0].Sink is a CyclicComponentCopier *)
  sy_OriginAware : bool;             (** the source is an OriginAwareCapturer *)
  sy_ClusterMode : bool;
  sy_NodeID : string;
  sy_Components : list Engine.Component;
  sy_Replicable : list TableRef;
  sy_ChunkOpts : ChunkOptions
}.

Section syncer.
Context (s : Syncer) (sched : list Chunk → list (nat * nat)).
(** [Workers[0].Sink.CopyCyclicComponent] *)
Context (cyclicCopy : list TableRef → prog (option error)).

(** [recordEvent]: best effort. *)
Definition recordEvent (e : Event) : prog unit :=
  _ ← do_call 0 (RecordEvent e); Ret tt.

Definition installCapture : prog (option error) :=
  if sy_ClusterMode s then
    if negb (sy_OriginAware s)
    then Ret (Some (Failure ("syncer " +:+ sy_Name s +:+ ": cluster mode requires an origin-aware source")))
    else r ← do_call 0 (InstallOriginCapture (sy_Replicable s) (sy_NodeID s));
         Ret (match r with inl e => Some e | inr _ => None end)
  else r ← do_call 0 (InstallCapture (sy_Replicable s));
       Ret (match r with inl e => Some e | inr _ => None end).

(** [copyOptions]: a cluster edge forces the merge load. *)
Definition copyOptions : option LoadMode := if sy_ClusterMode s then Some LoadMerge else None.

Definition cyclicCopyMaxAttempts : nat := 10.

(** In nanoseconds. *)
Definition cyclicCopyBackoff (attempt : nat) : Z :=
  Z.min (Z.shiftl 1 (Z.of_nat attempt) * 1000000000) 30000000000.

Definition copyRetryEvent (attempt : nat) (err : error) : Event :=
  mkEvent (sy_Name s) (sy_Target s) zeroRef "WARN" "copy.transient_retry"
    ("cyclic component copy hit a transient FK violation (live-source skew), retry " +:+
     pretty (attempt + 1) +:+ "/" +:+ pretty cyclicCopyMaxAttempts +:+ ": " +:+ Error err).

(** [copyCyclicWithRetry]: [tries] attempts are left; [lastErr] is [nil] before the
    first. *)
Fixpoint cyclic_attempts (tries : nat) (comp : Engine.Component) (lastErr : option error) : prog (option error) :=
  match tries with
  | 0 => Ret lastErr
  | S tries' =>
      r ← cyclicCopy (comp_Tables comp);
      match r with
      | None => Ret None
      | Some err =>
          if negb (IsTransientConstraint err) then Ret (Some err)
          else
            let attempt := cyclicCopyMaxAttempts - tries in
            _ ← recordEvent (copyRetryEvent attempt err);
            w ← do_call 0 (After (cyclicCopyBackoff attempt));
            match w with
            | inl ctxErr => Ret (Some ctxErr)
            | inr _ => cyclic_attempts tries' comp (Some err)
            end
      end
  end.

Definition copyCyclicWithRetry (comp : Engine.Component) : prog (option error) :=
  cyclic_attempts cyclicCopyMaxAttempts comp None.

Definition errf (msg : string) (e : error) : error := Errorf ("syncer " +:+ sy_Name s +:+ ": " +:+ msg) e.

(** The resume check: how many tables of the component are copied. *)
Definition count_done (t : TableRef) (done : nat) : prog (error + nat) :=
  r ← do_call 0 (LoadCopyProgress (sy_Name s) (sy_Target s) t);
  Ret (match r with
       | inl e => inl (errf ("cyclic copy: load progress " +:+ ref_string t) e)
       | inr p => inr (if cp_Done p then S done else done)
       end).

Definition mark_done (t : TableRef) (_ : unit) : prog (error + unit) :=
  r ← do_call 0 (SaveCopyProgress (sy_Name s) (mkProgress (sy_Target s) t true None []));
  Ret (match r with
       | inl e => inl (errf ("cyclic copy: mark done " +:+ ref_string t) e)
       | inr _ => inr tt
       end).

Definition copyCyclicComponent (comp : Engine.Component) : prog (option error) :=
  if Nat.eqb (sy_Workers s) 0
  then Ret (Some (Failure ("syncer " +:+ sy_Name s +:+ ": cyclic copy: no workers")))
  else if negb (sy_CyclicCopier s) then
    Copy.Component (sy_Workers s) (sy_Verifier s) sched (sy_Name s) (sy_Target s) (comp_Order comp)
      (sy_ChunkOpts s) copyOptions
  else
    r ← for_each (comp_Order comp) count_done 0;
    match r with
    | inl e => Ret (Some e)
    | inr done =>
        if Nat.eqb done (length (comp_Order comp)) then Ret None
        else
          r ← copyCyclicWithRetry comp;
          match r with
          | Some e => Ret (Some (errf "cyclic copy" e))
          | None =>
              r ← for_each (comp_Order comp) mark_done tt;
              Ret (match r with inl e => Some e | inr _ => None end)
          end
    end.

(** The cursor loop of [copyAndCutover]: only the phase changes. *)
Definition to_streaming (cur : Cursor) : Cursor :=
  mkCursor (cur_Target cur) (cur_Table cur) PhaseStreaming (cur_LastDelta cur) (cur_NeedsReseed cur).

Definition cutover (t : TableRef) (_ : unit) : prog (error + unit) :=
  r ← do_call 0 (LoadCursor (sy_Name s) (sy_Target s) t);
  match r with
  | inl e => Ret (inl (errf ("load cursor " +:+ ref_string t) e))
  | inr cur =>
      r ← do_call 0 (SaveCursor (sy_Name s) (to_streaming cur));
      Ret (match r with
           | inl e => inl (errf ("cutover cursor " +:+ ref_string t) e)
           | inr _ => inr tt
           end)
  end.

(** The copy half of [copyAndCutover]. *)
Definition copy_component (comp : Engine.Component) : prog (option error) :=
  if HasCycle comp then copyCyclicComponent comp
  else
    r ← Copy.Component (sy_Workers s) (sy_Verifier s) sched (sy_Name s) (sy_Target s) (comp_Order comp)
          (sy_ChunkOpts s) copyOptions;
    Ret (match r with Some e => Some (errf "copy component" e) | None => None end).

Definition copyAndCutover (comp : Engine.Component) : prog (option error) :=
  r ← copy_component comp;
  match r with
  | Some e => Ret (Some e)
  | None =>
      r ← for_each (comp_Order comp) cutover tt;
      match r with
      | inl e => Ret (Some e)
      | inr _ =>
          _ ← recordEvent (mkEvent (sy_Name s) (sy_Target s) zeroRef "INFO" "table.cutover_to_streaming"
                ("component of " +:+ pretty (length (comp_Order comp)) +:+ " tables cut over to streaming"));
          Ret None
      end
  end.

Definition Bringup : prog (option error) :=
  if Nat.eqb (sy_Workers s) 0
  then Ret (Some (Failure ("syncer " +:+ sy_Name s +:+ ": no copy workers")))
  else
    r ← installCapture;
    match r with
    | Some e => Ret (Some (errf "install capture" e))
    | None =>
        _ ← recordEvent (mkEvent (sy_Name s) EmptyString zeroRef "INFO" "capture.installed"
              ("capture installed on " +:+ pretty (length (sy_Replicable s)) +:+ " tables"));
        r ← for_each (sy_Components s) (λ comp (_ : unit),
              r ← copyAndCutover comp;
              Ret (match r with Some e => inl e | None => inr tt end)) tt;
        Ret (match r with inl e => Some e | inr _ => None end)
    end.
End syncer.

(** ** The world before and after capture

    The tables that are captured, and the world of the copy. A write to a table that is not
    captured leaves no delta. *)

Record sworld := mkSW { sw_captured : gset TableRef; sw_world : world }.

Definition is_install (o : call) : bool :=
  match o with InstallCapture _ | InstallOriginCapture _ _ => true | _ => false end.

(** How the engine of the source commits capture DDL: one transaction per table, in which the
    dropped trigger keeps writers out until the new one is there (Postgres), or statement by
    statement (MySQL). *)
Variant ddl_commit := Transactional | Autocommit.

Section lifecycle.
Context `{Sch : Schema} `{Cp : !CyclicCopier}.

(** Application transactions while the tables in [C] are captured: [rely] for these. *)
Record srely (C : gset TableRef) (v v' : astate) : Prop := {
  srely_tgt : a_tgt v' = a_tgt v;
  srely_tx : a_tx v' = a_tx v;
  srely_seen t i : a_seen v t i → a_seen v' t i;
  srely_pend t i : a_seen v t i → a_pend v' !! (t, i) = a_pend v !! (t, i);
  srely_new t i k : a_pend v' !! (t, i) = Some k → a_seen v' t i ∧ key_ok t k;
  srely_src t k : t ∈ C → a_src v' !! (t, k) = a_src v !! (t, k) ∨
    ∃ i, (¬ a_seen v t i) ∧ a_pend v' !! (t, i) = Some k
}.

(** Installing capture on a list of tables, one after the other, while applications write:
    from the captured tables and the state before to those after, and whether there was no
    error. It may fail anywhere, also after a table's installation took effect; a table
    without a usable key is skipped. With [Autocommit] a table is not captured between the
    drop of its triggers and their creation, and stays so when the installation fails there. *)
Inductive installs (m : ddl_commit) : list TableRef → gset TableRef * astate → bool → gset TableRef * astate → Prop :=
| installs_fail ts C v v' : srely C v v' → installs m ts (C, v) false (C, v')
| installs_done C v v' : srely C v v' → installs m [] (C, v) true (C, v')
| installs_skip t ts x b x' : key_arity t = 0 → installs m ts x b x' → installs m (t :: ts) x b x'
| installs_tx t ts C v v1 b x' :
    m = Transactional → srely C v v1 → installs m ts ({[ t ]} ∪ C, v1) b x' → installs m (t :: ts) (C, v) b x'
| installs_ddl t ts C v v1 v2 b x' :
    m = Autocommit → srely C v v1 → srely (C ∖ {[ t ]}) v1 v2 →
    installs m ts ({[ t ]} ∪ C, v2) b x' → installs m (t :: ts) (C, v) b x'
| installs_ddl_fail t ts C v v1 v2 :
    m = Autocommit → srely C v v1 → srely (C ∖ {[ t ]}) v1 v2 →
    installs m (t :: ts) (C, v) false (C ∖ {[ t ]}, v2).

Definition install_tables (o : call) : list TableRef :=
  match o with InstallCapture ts | InstallOriginCapture ts _ => ts | _ => [] end.

(** The calls other than the installation are made when the tables of the sync are captured
    ([sync_requires]); the world holds the rows of these tables. *)
Definition sync_step (m : ddl_commit) (c : nat) (o : call) (w : sworld) (r : result (resp o)) (w' : sworld) : Prop :=
  let '(mkSW C (v, st)) := w in
  let '(mkSW C' (v', st')) := w' in
  if is_install o then
    st' = st ∧ installs m (install_tables o) (C, v) (match r with inl _ => false | inr _ => true end) (C', v')
  else C' = C ∧ world_step c o (v, st) r (v', st').

Definition sync_requires (T : TableRef → Prop) (c : nat) (o : call) (w : sworld) : Prop :=
  is_install o = true ∨ (∀ t, T t → t ∈ sw_captured w) ∧ world_requires c o (sw_world w).

(** What is safe once capture is on is safe for the sync. *)
Lemma safe_lift m (T : TableRef → Prop) C (J : world → Prop) {A} (p : prog A) Q x :
  (∀ t, T t → t ∈ C) → safe world_step world_requires J p Q x →
  safe (sync_step m) (sync_requires T) (λ w, sw_captured w = C ∧ J (sw_world w)) p
    (λ a w, sw_captured w = C ∧ Q a (sw_world w)) (mkSW C x).
Proof.
  intros HT. revert x. induction p as [a|c o k IH]; intros x [HJ Hp]; simpl; [done|].
  destruct Hp as [Hpre Hp]. split; [done|]. split; [by right|].
  intros r [b' [v' st']] Hs. unfold sync_step in Hs. destruct x as [v st].
  assert (is_install o = false) as Ho by (destruct o; done). rewrite Ho in Hs.
  destruct Hs as [-> Hs]. by apply IH, Hp.
Qed.

(** *** Interference before capture is complete *)

Lemma srely_good C v v' t k : t ∈ C → pend_ok v → srely C v v' → good v t k → good v' t k.
Proof.
  intros Ht Hp R [Hs|[i Hi]].
  - destruct (srely_src _ _ _ R t k Ht) as [Heq|(i & _ & Hi)]; [left|right; by exists i].
    unfold synced in *. by rewrite Heq, (srely_tgt _ _ _ R).
  - right. exists i. rewrite (srely_pend _ _ _ R); [done|]. by apply (Hp t i k).
Qed.

Lemma srely_row C v v' (CC : Prop) t k :
  t ∈ C → pend_ok v → srely C v v' →
  good v t k ∨ a_tgt v !! (t, k) = None ∨ CC ∧ is_Some (a_src v !! (t, k)) →
  good v' t k ∨ a_tgt v' !! (t, k) = None ∨ CC ∧ is_Some (a_src v' !! (t, k)).
Proof.
  intros Ht Hp R. rewrite (srely_tgt _ _ _ R). intros [Hg|[Hn|[HC Hs]]]; [left; by eapply srely_good|by auto|].
  destruct (srely_src _ _ _ R t k Ht) as [->|(i & _ & Hi)]; [by auto|left; right; by exists i].
Qed.

Lemma srely_refl C v : pend_ok v → srely C v v.
Proof. intros Hp. split; [done..|by auto]. Qed.

Section bringup.
Context (s : Syncer) (sched : list Chunk → list (nat * nat)).
Abbreviation name := (sy_Name s).
Abbreviation target := (sy_Target s).

(** The tables of the plan. *)
Definition planned (t : TableRef) : Prop := ∃ comp, comp ∈ sy_Components s ∧ t ∈ comp_Order comp.

(** The tables of the components that the cyclic copier takes. *)
Definition lagging (t : TableRef) : Prop :=
  ∃ comp, comp ∈ sy_Components s ∧ HasCycle comp = true ∧ t ∈ comp_Order comp.

Definition streams (st : store) (t : TableRef) : Prop :=
  cur_Phase (loadCursor name target t st) = PhaseStreaming.

(** With capture on: the copy's invariant, and a table whose cursor says streaming
    is complete. *)
Definition JInv (x : world) : Prop := CInv planned lagging (λ t, planned t ∧ streams x.2 t) name target x.

(** A table the sync has not started on. *)
Definition unstarted (x : world) (t : TableRef) : Prop :=
  (∀ k, a_tgt x.1 !! (t, k) = None) ∧
  st_progress x.2 !! (name, target, t) = None ∧ st_cursors x.2 !! (name, target, t) = None.

(** A sync that never ran. *)
Definition cold (x : world) : Prop := pend_ok x.1 ∧ ∀ t, planned t → unstarted x t.

(** The invariant of the lifecycle: of a table that is not captured nothing is copied yet. *)
Definition BInv (w : sworld) : Prop :=
  JInv (sw_world w) ∧ ∀ t, planned t → t ∉ sw_captured w → unstarted (sw_world w) t.

Lemma cold_BInv C x : cold x → BInv (mkSW C x).
Proof.
  intros [Hp Ht]. split; [|by auto].
  apply CInv_start; [done|intros t k Htt; by apply (Ht t Htt)|intros t Htt; by apply Ht|].
  intros t [Hpl Hst]. unfold streams, loadCursor in Hst. simpl in Hst. by rewrite (proj2 (proj2 (Ht t Hpl))) in Hst.
Qed.

(** Applications writing to captured and to other tables. *)
Lemma srely_BInv C v v' st : srely C v v' → BInv (mkSW C (v, st)) → BInv (mkSW C (v', st)).
Proof.
  intros R [[Hp Hr Hg Hc] Hu]. simpl in *. split; simpl; [split; simpl|].
  - intros t i k. apply R.
  - intros t k Ht. destruct (decide (t ∈ C)) as [HC|HC]; [by eapply srely_row; auto|].
    right; left. rewrite (srely_tgt _ _ _ R). by apply (Hu t Ht HC).
  - intros t k Ht Hpr. destruct (decide (t ∈ C)) as [HC|HC]; [by eapply srely_good; auto|].
    destruct (Hu t Ht HC) as (_ & Hn & _). unfold progress_covers, loadCopyProgress in Hpr. simpl in Hn.
    rewrite Hn in Hpr. destruct Hpr as [[=]|(wm & [=] & _)].
  - intros t k [Ht Hs]. destruct (decide (t ∈ C)) as [HC|HC]; [by eapply srely_good; auto|].
    destruct (Hu t Ht HC) as (_ & _ & Hn). unfold streams, loadCursor in Hs. simpl in *. by rewrite Hn in Hs.
  - intros t Ht HC. destruct (Hu t Ht HC) as (H1 & H2). split; [|done]. intros k. simpl. rewrite (srely_tgt _ _ _ R). apply H1.
Qed.

Lemma BInv_more C C' x : C ⊆ C' → BInv (mkSW C x) → BInv (mkSW C' x).
Proof. intros HC [HJ Hu]. split; [done|]. intros t Ht Hn. apply Hu; [done|]. simpl in *. set_solver. Qed.

(** An installation in transactions keeps the invariant, and captures every table with a key
    when it reports no error. *)
Lemma installs_BInv ts x b x' st :
  installs Transactional ts x b x' → BInv (mkSW x.1 (x.2, st)) →
  BInv (mkSW x'.1 (x'.2, st)) ∧ a_tx x'.2 = a_tx x.2 ∧ x.1 ⊆ x'.1 ∧
  (b = true → ∀ t, t ∈ ts → 0 < key_arity t → t ∈ x'.1).
Proof.
  induction 1 as [ts C v v' R|C v v' R|t ts x b x' Hk _ IH|t ts C v v1 b x' _ R _ IH|t ts C v v1 v2 b x' [=]|t ts C v v1 v2 [=]];
    simpl in *; intros Hx.
  - split_and!; [by eapply srely_BInv|apply R|done|done].
  - split_and!; [by eapply srely_BInv|apply R|done|]. by intros _ t ?%elem_of_nil.
  - destruct (IH Hx) as (H1 & H2 & H3 & H4). split_and!; [done..|].
    intros Hb t' [->|Ht']%elem_of_cons Hk'; [lia|by auto].
  - destruct IH as (H1 & H2 & H3 & H4); [eapply BInv_more; [|by eapply srely_BInv]; set_solver|].
    rewrite (srely_tx _ _ _ R) in H2. split_and!; [done|done|set_solver|].
    intros Hb t' [->|Ht']%elem_of_cons Hk'; [set_solver|by auto].
Qed.

(** Interference keeps it. *)
Lemma JInv_calm x x' : JInv x → calm x.1 x'.1 → x'.2 = x.2 → JInv x' ∧ mono x x'.
Proof. intros Hx C Hs. unfold JInv. rewrite Hs. by apply calm_CInv. Qed.

Abbreviation jsafe := (safe world_step world_requires JInv).

(** Progress and cursors may only change together with what they claim. *)
Lemma JInv_store x x' :
  JInv x → calm x.1 x'.1 → st_progress x'.2 = st_progress x.2 →
  (∀ t, planned t → streams x'.2 t → streams x.2 t ∨ ∀ k, good x.1 t k) → JInv x' ∧ mono x x'.
Proof.
  intros [Hp Hr Hg Hc] C Hpr Hst.
  assert (mono x x') as Hm by (intros t k; by apply good_calm). split; [|done]. split.
  - apply C.
  - intros t k Ht. eapply row_calm; [done..|]. by apply Hr.
  - intros t k Ht. unfold loadCopyProgress. rewrite Hpr. intros H. by apply Hm, Hg.
  - intros t k [Ht Hs]. apply Hm. destruct (Hst t Ht Hs) as [Hs'|Hall]; [by apply Hc|done].
Qed.

Lemma recordEvent_safe e Q x :
  JInv x → (∀ x', JInv x' → mono x x' → st_cursors x'.2 = st_cursors x.2 → a_tx x'.1 = a_tx x.1 → Q tt x') →
  jsafe (recordEvent e) Q x.
Proof.
  intros Hx HQ. apply safe_bind. apply safe_call; [done..|].
  intros r x' [R (r0 & s0 & Hc & Hs)]. cbn [is_store_call] in *. pose proof (rely_tx _ _ R).
  apply rely_calm in R. simpl in Hc. injection Hc as <- <-.
  assert (st_progress x'.2 = st_progress x.2 ∧ st_cursors x'.2 = st_cursors x.2) as [Hpr Hcu]
    by by destruct Hs as [[_ ->]|[_ [-> | ->]]].
  destruct (JInv_store x x' Hx R Hpr) as [Hx' Hm].
  { intros t _. unfold streams, loadCursor. rewrite Hcu. by left. }
  split; [done|]. apply safe_ret; [done|]. by apply HQ.
Qed.

Lemma cutover_safe t Q x :
  JInv x → (∀ k, good x.1 t k) →
  (∀ r x', JInv x' → mono x x' → a_tx x'.1 = a_tx x.1 → (∀ t', streams x.2 t' → streams x'.2 t') →
     (∀ u, r = inr u → streams x'.2 t) → Q r x') →
  jsafe (cutover s t tt) Q x.
Proof.
  intros Hx Hg HQ. apply safe_bind. apply safe_call; [done..|].
  intros r x1 [R (r0 & s0 & Hc & Hs)]. cbn [is_store_call] in *. pose proof (rely_tx _ _ R) as X1.
  apply rely_calm in R. simpl in Hc. injection Hc as <- <-.
  assert (x1.2 = x.2) as Hs1 by by destruct Hs as [[_ ->]|[_ [-> | ->]]].
  destruct (JInv_calm x x1 Hx R Hs1) as [Hx1 Hm1]. split; [done|].
  destruct r as [e|cur]; [apply safe_ret; [done|]; apply HQ; [done..|by rewrite Hs1|by intros u [=]]|].
  destruct Hs as [[[= ->] _]|[[e [=]] _]]. set (cur := loadCursor name target t x.2).
  apply safe_bind. apply safe_call; [done..|].
  intros r x2 [R2 (r0 & s2 & Hc & Hs)]. cbn [is_store_call] in *. pose proof (rely_tx _ _ R2) as X2.
  apply rely_calm in R2. simpl in Hc.
  assert (x2.2 = x1.2 ∧ (∀ u, r ≠ inr u) ∨ saveCursor name (to_streaming cur) x1.2 = inr x2.2) as Hcase.
  { destruct (saveCursor _ _ _) as [e|s1] eqn:Es; injection Hc as <- <-;
      destruct Hs as [[-> ->]|[[e' ->] [-> | ->]]]; auto. }
  assert (cur_Target cur = target ∧ cur_Table cur = t) as [E1 E2]
    by (unfold cur, loadCursor; by destruct (st_cursors x.2 !! _)).
  assert (saveCursor name (to_streaming cur) x1.2 = inr x2.2 →
    ∀ t', streams x2.2 t' ↔ t' = t ∨ streams x.2 t') as Hsave.
  { intros Es t'. unfold streams. rewrite (loadCursor_save _ _ _ _ name target t' Es), Hs1. simpl.
    rewrite E1, E2. case_decide as Hd; [injection Hd as <-; simpl; naive_solver|].
    split; [by right|]. intros [->|?]; [by destruct Hd|done]. }
  assert (st_progress x2.2 = st_progress x1.2) as Hpr.
  { destruct Hcase as [[-> _]|Es]; [done|]. unfold saveCursor in Es.
    destruct (st_syncs x1.2 !! _); [|done]. by injection Es as <-. }
  destruct (JInv_store x1 x2 Hx1 R2 Hpr) as [Hx2 Hm2].
  { intros t' _ Hst. rewrite Hs1. destruct Hcase as [[E _]|Es]; [left; by rewrite E, Hs1 in Hst|].
    apply (Hsave Es) in Hst as [->|?]; [|by left]. right. intros k. by apply Hm1, Hg. }
  split; [done|]. apply safe_ret; [done|]. apply HQ; [done|by eapply mono_trans|congruence|..].
  - intros t' Ht'. destruct Hcase as [[-> _]|Es]; [by rewrite Hs1|]. apply Hsave; [done|by right].
  - intros u Hu. destruct Hcase as [[_ Hn]|Es]; [|apply Hsave; [done|by left]].
    destruct r as [e|[]]; [done|]. by destruct (Hn tt).
Qed.

Context (Hsched : schedules sched) (Hmethod : opt_Method (sy_ChunkOpts s) ≠ Some ChunkCTID).
Context (Hkeyed : ∀ t, planned t → 0 < key_arity t).
Context (Hsource : ∀ t, planned t → t ∈ src_tables).
Context (Htables : ∀ comp, comp ∈ sy_Components s → ∀ t, t ∈ comp_Tables comp ↔ t ∈ comp_Order comp).

(** *** The copy of one component, for a fixed set [G] of complete tables *)

Definition no_tx (x : world) : Prop := a_tx x.1 !! 0 = None.

(** The calls of the plain copy and of the state store open no transaction. *)
Lemma no_tx_step c o x r x' :
  copy_call o ∨ is_store_call o = true → world_step c o x r x' → no_tx x → no_tx x'.
Proof.
  unfold world_step, no_tx. intros Ho Hst Hx. destruct (is_store_call o) eqn:E.
  - destruct Hst as [R _]. by rewrite (rely_tx _ _ R).
  - destruct Ho as [Ho|?]; [|done]. destruct Hst as [(v1 & v2 & R1 & He & R2) _].
    rewrite (rely_tx _ _ R2). rewrite <-(rely_tx _ _ R1) in Hx. destruct He as [He|(_ & _ & ->)]; [|done].
    assert (a_tx v2 = a_tx v1 ∨ a_tx v2 = delete c (a_tx v1)) as [-> | ->]; [|done|].
    { destruct o; try done; simpl in He; try (subst; by auto);
        repeat match goal with
        | H : _ ∧ _ |- _ => destruct H
        | H : ∃ _, _ |- _ => destruct H
        end; subst; by left. }
    destruct (decide (c = 0)) as [->|]; [by rewrite lookup_delete_eq|].
    rewrite lookup_delete_ne; done.
Qed.

(** The cursors change by [SaveCursor] only. *)
Definition no_cursor (o : call) : Prop := keeps_cursors o ∨ is_store_call o = false.

Lemma no_cursor_step c o x r x' : no_cursor o → world_step c o x r x' → st_cursors x'.2 = st_cursors x.2.
Proof.
  intros [Ho|Ho]; [by apply world_step_cursors|]. unfold world_step. rewrite Ho. by intros [_ ->].
Qed.

Section fixed.
Context (G : TableRef → Prop).
Abbreviation ok := (CInv planned lagging G name target).
Abbreviation csafe := (safe world_step world_requires ok).

(** What a part of the copy leaves. *)
Definition part (P : Prop) (done : list TableRef) (x x' : world) : Prop :=
  mono x x' ∧ no_tx x' ∧ (P → ∀ t k, t ∈ done → good x'.1 t k).

Lemma part_trans (P : Prop) done x x1 x' : mono x x1 → part P done x1 x' → part P done x x'.
Proof. intros M1 (M2 & N & H). split_and!; [by eapply mono_trans|done..]. Qed.

(** Programs of plain calls keep the connection idle. *)
Lemma safe_no_tx {A} (p : prog A) Q x :
  only (λ o, copy_call o ∨ is_store_call o = true) p → no_tx x → csafe p Q x →
  csafe p (λ a x', Q a x' ∧ no_tx x') x.
Proof.
  intros Ho Hn Hs. eapply (safe_weaken _ _ (λ y, ok y ∧ no_tx y)); [by intros y []|].
  eapply safe_frame; [|exact Ho|done|done]. intros c o w r w' Hco Hst Hw. exact (no_tx_step c o w r w' Hco Hst Hw).
Qed.

Lemma plain_safe comp x :
  comp ∈ sy_Components s → ok x → no_tx x →
  csafe (Copy.Component (sy_Workers s) (sy_Verifier s) sched name target (comp_Order comp)
           (sy_ChunkOpts s) (copyOptions s)) (λ r x', part (r = None) (comp_Order comp) x x') x.
Proof.
  intros Hcomp Hx Hn. eapply safe_mono; [|apply (safe_no_tx _
    (λ r x', mono x x' ∧ (r = None → ∀ t k, t ∈ comp_Order comp → good x'.1 t k))); [|done|]].
  - intros r x' _ ((Hm & Hg) & Hn'). by split_and!.
  - eapply only_mono; [|apply Component_only]. by left.
  - apply Component_ok; [done| |done|done|done]. intros t Ht. assert (planned t) by by exists comp. by auto.
Qed.

(** Store calls that leave the progress alone. *)
Lemma store_read_safe o Q x :
  is_store_call o = true →
  (∀ st r st', store_step o st r st' → st_progress st' = st_progress st) → ok x → no_tx x →
  (∀ r x', ok x' → mono x x' → no_tx x' → store_step o x.2 r x'.2 → Q r x') →
  csafe (do_call 0 o) Q x.
Proof.
  intros Ho Hpr Hx Hn HQ. apply safe_call; [done|unfold world_requires; by rewrite Ho|].
  intros r x' Hst. assert (no_tx x') as Hn' by (eapply no_tx_step; [by right|done..]).
  unfold world_step in Hst. rewrite Ho in Hst. destruct Hst as [R Hst]. apply rely_calm in R.
  destruct (calm_CInv _ _ _ _ _ x (x'.1, x.2) Hx R eq_refl) as [[Hp Hr Hg Hc] Hm].
  assert (ok x') as Hx'; [|split; [done|by apply HQ]]. split; [done..| |done].
  intros t k Ht. unfold loadCopyProgress. rewrite (Hpr _ _ _ Hst). by apply Hg.
Qed.

Lemma cyclic_attempts_ok tries comp lastErr x :
  comp ∈ sy_Components s → HasCycle comp = true → ok x → no_tx x → 0 < tries ∨ is_Some lastErr →
  csafe (cyclic_attempts s copy_cyclic tries comp lastErr) (λ r x', part (r = None) (comp_Order comp) x x') x.
Proof.
  intros Hcomp Hcy. revert lastErr x. induction tries as [|tries IH]; intros lastErr x Hx Hn Ht; cbn [cyclic_attempts].
  { destruct Ht as [?|[e ->]]; [lia|]. by apply safe_ret. }
  apply safe_bind. eapply safe_mono; [|apply (copy_cyclic_safe planned lagging G name target); [|done..]].
  2: { intros t Ht'. apply Htables in Ht'; [|done]. assert (planned t) by by exists comp.
       split_and!; [done|by exists comp|by auto|by auto]. }
  intros r x1 Hx1 (M1 & N1 & H1). destruct r as [err|].
  2: { apply safe_ret; [done|]. split_and!; [done..|]. intros _ t k Ht'. apply H1; [done|]. by apply Htables. }
  destruct (IsTransientConstraint err); cbn [negb]; [|by apply safe_ret].
  apply safe_bind. unfold recordEvent. apply safe_bind. apply store_read_safe; [done| |done|done|].
  { intros st r st' (r0 & s0 & Hc & Hs). simpl in Hc. injection Hc as <- <-. by destruct Hs as [[_ ->]|[_ [-> | ->]]]. }
  intros _ x2 Hx2 M2 N2 _. apply safe_ret; [done|]. apply safe_bind.
  eapply safe_mono; [|apply (safe_no_tx _ (λ _ x', mono x2 x')); [by split; [left|]|done|]].
  2: { apply safe_calm; [done..|]. intros r x3 Hx3 M3 _ _ _. done. }
  intros w x3 Hx3 [M3 N3]. assert (mono x x3) as M13 by (eapply mono_trans; [exact M1|]; by eapply mono_trans).
  destruct w as [e|]; [by apply safe_ret|].
  eapply safe_mono; [|apply IH; [done|done|by right]]. intros res x4 _. by apply part_trans.
Qed.

(** A component all of whose tables are recorded as copied is complete. *)
Lemma count_done_ok comp x :
  comp ∈ sy_Components s → ok x → no_tx x →
  csafe (for_each (comp_Order comp) (count_done s) 0)
    (λ r x', match r with inl _ => part False [] x x'
                     | inr n => part (n = length (comp_Order comp)) (comp_Order comp) x x' end) x.
Proof.
  intros Hcomp Hx Hn.
  apply (safe_for_each _ _ _ _ (λ l n y, n + length l ≤ length (comp_Order comp) ∧ mono x y ∧ no_tx y ∧
    ∃ done, comp_Order comp = done ++ l ∧ (n = length done → ∀ t k, t ∈ done → good y.1 t k))).
  - intros t l n y Hy (Hle & M & N & done & Heq & Hg). apply safe_bind. apply store_read_safe; [done| |done|done|].
    { intros st r st' (r0 & s0 & Hc & Hs). simpl in Hc. injection Hc as <- <-. by destruct Hs as [[_ ->]|[_ [-> | ->]]]. }
    intros r y1 Hy1 M1 N1 (r0 & s0 & Hc & Hs). simpl in Hc. injection Hc as <- <-. apply safe_ret; [done|].
    assert (mono x y1) as Mx by by eapply mono_trans.
    destruct r as [e|p]; [by split_and!|]. destruct Hs as [[[= ->] Hst]|[[e [=]] _]].
    assert (length (comp_Order comp) = length done + S (length l)) as Hlen by by rewrite Heq, length_app.
    split_and!; [destruct (cp_Done _); simpl in *; lia|done..|]. exists (done ++ [t]). split; [by rewrite <-app_assoc|].
    rewrite length_app. simpl. intros Hnum t' k Hin. destruct (cp_Done _) eqn:Hd.
    + apply elem_of_app in Hin as [Hin|Hin%list_elem_of_singleton]; [apply M1, Hg; [lia|done]|subst t'].
      apply (ci_progress _ _ _ _ _ _ Hy1); [exists comp; split; [done|rewrite Heq; set_solver]|].
      left. unfold loadCopyProgress. rewrite Hst. done.
    + simpl in Hle. lia.
  - intros n y Hy (_ & M & N & done & Heq & Hg). rewrite app_nil_r in Heq. subst done. by split_and!.
  - done.
  - split_and!; [done..|]. exists []. split; [done|]. by intros _ t k ?%elem_of_nil.
Qed.

Lemma mark_all_ok comp x :
  comp ∈ sy_Components s → ok x → no_tx x → (∀ t k, t ∈ comp_Order comp → good x.1 t k) →
  csafe (for_each (comp_Order comp) (mark_done s) tt) (λ _ x', mono x x' ∧ no_tx x') x.
Proof.
  intros Hcomp Hx Hn Hg. apply safe_no_tx; [|done|].
  - apply only_for_each. intros t []. apply only_bind; [split; [by right|done]|done].
  - apply (safe_for_each _ _ _ _ (λ l _ y, mono x y ∧ ∃ done, comp_Order comp = done ++ l)).
    + intros t l [] y Hy (M & done & Heq). apply safe_bind. apply (save_progress_safe _ _ _ _ _ t); [done..| |].
      { intros y1 M1 k _. apply M1, M, Hg. rewrite Heq. set_solver. }
      intros r y1 Hy1 M1. apply safe_ret; [done|]. destruct r as [e|]; [by eapply mono_trans|].
      split; [by eapply mono_trans|]. exists (done ++ [t]). by rewrite <-app_assoc.
    + by intros [] y Hy (M & _).
    + done.
    + split; [done|]. by exists [].
Qed.

Lemma copyCyclicComponent_ok comp x :
  comp ∈ sy_Components s → HasCycle comp = true → ok x → no_tx x →
  csafe (copyCyclicComponent s sched copy_cyclic comp) (λ r x', part (r = None) (comp_Order comp) x x') x.
Proof.
  intros Hcomp Hcy Hx Hn. unfold copyCyclicComponent.
  destruct (Nat.eqb _ 0); [by apply safe_ret|]. destruct (sy_CyclicCopier s); cbn [negb]; [|by apply plain_safe].
  apply safe_bind. eapply safe_mono; [|by apply count_done_ok].
  intros [e|n] x1 Hx1 (M1 & N1 & H1); [by apply safe_ret|].
  destruct (Nat.eqb_spec n (length (comp_Order comp))) as [E|_].
  { apply safe_ret; [done|]. split_and!; [done..|]. intros _. by apply H1. }
  apply safe_bind. eapply safe_mono; [|apply cyclic_attempts_ok; [done..|left; unfold cyclicCopyMaxAttempts; lia]].
  intros r x2 Hx2 (M2 & N2 & H2). assert (mono x x2) as M by by eapply mono_trans.
  destruct r as [e|]; [by apply safe_ret|]. specialize (H2 eq_refl). apply safe_bind.
  eapply safe_mono; [|by apply mark_all_ok]. intros r x3 Hx3 (M3 & N3). apply safe_ret; [done|].
  split_and!; [by eapply mono_trans|done|]. intros _ t k Ht. by apply M3, H2.
Qed.

Lemma copy_component_ok comp x :
  comp ∈ sy_Components s → ok x → no_tx x →
  csafe (copy_component s sched copy_cyclic comp) (λ r x', part (r = None) (comp_Order comp) x x') x.
Proof.
  intros Hcomp Hx Hn. unfold copy_component. destruct (HasCycle comp) eqn:Hcy; [by apply copyCyclicComponent_ok|].
  apply safe_bind. eapply safe_mono; [|by apply plain_safe]. intros r x1 Hx1 (M & N & H). apply safe_ret; [done|].
  split_and!; [done..|]. destruct r; [done|]. intros _. by apply H.
Qed.
End fixed.

Lemma cyclic_attempts_cursors tries comp e : only no_cursor (cyclic_attempts s copy_cyclic tries comp e).
Proof.
  revert e. induction tries as [|tries IH]; intros e; [done|]. cbn [cyclic_attempts].
  apply only_bind; [eapply only_mono; [|apply copy_cyclic_calls]; by right|]. intros [err|]; [|done].
  destruct (negb _); [done|]. apply only_bind; [split; [by left|done]|]. intros _.
  apply only_bind; [split; [by left|done]|]. by intros [w|].
Qed.

Lemma copy_component_cursors comp : only no_cursor (copy_component s sched copy_cyclic comp).
Proof.
  assert (∀ l : list TableRef, only no_cursor (Copy.Component (sy_Workers s) (sy_Verifier s) sched name target l
    (sy_ChunkOpts s) (copyOptions s))) as Hplain.
  { intros l. eapply only_mono; [|apply Component_only]. intros o Ho. left. by apply copy_keeps_cursors. }
  unfold copy_component. destruct (HasCycle comp); [|by apply only_bind].
  unfold copyCyclicComponent. destruct (Nat.eqb _ 0); [done|]. destruct (negb _); [apply Hplain|].
  apply only_bind; [apply only_for_each; intros t n; split; [by left|done]|]. intros [e|n]; [done|].
  destruct (Nat.eqb _ _); [done|]. apply only_bind; [apply cyclic_attempts_cursors|]. intros [e|]; [done|].
  apply only_bind; [apply only_for_each; intros t []; split; [by left|done]|done].
Qed.

(** The copy of one component, with everything cut over so far kept. *)
Lemma copy_component_safe comp Q x :
  comp ∈ sy_Components s → JInv x → no_tx x →
  (∀ r x', JInv x' → mono x x' → no_tx x' → st_cursors x'.2 = st_cursors x.2 →
     (r = None → ∀ t k, t ∈ comp_Order comp → good x'.1 t k) → Q r x') →
  jsafe (copy_component s sched copy_cyclic comp) Q x.
Proof.
  intros Hcomp Hx Hn HQ. set (G := λ t, planned t ∧ streams x.2 t).
  assert (∀ y, CInv planned lagging G name target y → st_cursors y.2 = st_cursors x.2 → JInv y) as HJ.
  { intros y [Hp Hr Hg Hc] Hcu. split; [done..|]. intros t k [Ht Hs]. apply Hc. split; [done|].
    unfold streams, loadCursor in *. by rewrite <-Hcu. }
  apply (safe_weaken _ _ (λ y, CInv planned lagging G name target y ∧ st_cursors y.2 = st_cursors x.2)).
  { intros y [Hy Hc]. by apply HJ. }
  eapply safe_mono; [|apply (safe_frame _ _ (CInv planned lagging G name target)
      (λ y, st_cursors y.2 = st_cursors x.2) no_cursor _
      (λ r y, part (r = None) (comp_Order comp) x y))].
  - intros r y [Hy Hc] [(Hm & Hn' & Hg) _]. apply HQ; [by apply HJ|done..].
  - intros c o y r y' Ho Hst Hy. by rewrite (no_cursor_step _ _ _ _ _ Ho Hst).
  - apply copy_component_cursors.
  - done.
  - by apply copy_component_ok.
Qed.

Lemma copyAndCutover_safe comp Q x :
  comp ∈ sy_Components s → JInv x → no_tx x →
  (∀ r x', JInv x' → mono x x' → no_tx x' → (∀ t', streams x.2 t' → streams x'.2 t') →
     (r = None → ∀ t, t ∈ comp_Order comp → streams x'.2 t) → Q r x') →
  jsafe (copyAndCutover s sched copy_cyclic comp) Q x.
Proof.
  intros Hcomp Hx Hn HQ. apply safe_bind. apply copy_component_safe; [done..|]. intros r x1 Hx1 Hm1 Hn1 Hcu Hr.
  assert (∀ t, streams x.2 t → streams x1.2 t) as Hst1 by (intros t; unfold streams, loadCursor; by rewrite Hcu).
  destruct r as [e|]; [apply safe_ret; [done|]; by apply HQ|]. specialize (Hr eq_refl).
  apply safe_bind.
  apply (safe_for_each _ _ _ _ (λ l _ y, JInv y ∧ mono x1 y ∧ no_tx y ∧ (∀ t, streams x1.2 t → streams y.2 t) ∧
    ∃ done, comp_Order comp = done ++ l ∧ ∀ t, t ∈ done → streams y.2 t)).
  - intros t l [] y _ (Hy & Hm & Hny & Hst & done & Heq & Hd). apply cutover_safe; [done| |].
    { intros k. apply Hm, Hr. rewrite Heq. set_solver. }
    intros r y' Hy' Hm' Hx' Hst' Ht. assert (no_tx y') as Hny' by (unfold no_tx; by rewrite Hx').
    destruct r as [e|[]].
    + apply safe_ret; [done|]. apply HQ; [done| |done| |done]; [|by auto].
      eapply mono_trans; [exact Hm1|]. by eapply mono_trans.
    + split_and!; [done|by eapply mono_trans|done|by auto|]. exists (done ++ [t]). split; [by rewrite <-app_assoc|].
      intros t' [Hin|Hin%list_elem_of_singleton]%elem_of_app; [by apply Hst', Hd|subst t'; by eapply Ht].
  - intros [] y Hy (_ & Hm & Hny & Hst & done & Heq & Hd). rewrite app_nil_r in Heq. subst done.
    apply safe_bind. apply recordEvent_safe; [done|]. intros y' Hy' Hm' Hcu' Hx'.
    assert (∀ t, streams y.2 t → streams y'.2 t) as Hst' by (intros t; unfold streams, loadCursor; by rewrite Hcu').
    apply safe_ret; [done|]. apply HQ; [done| |unfold no_tx; by rewrite Hx'|by auto|intros _ t Ht; by apply Hst', Hd].
    eapply mono_trans; [exact Hm1|]. by eapply mono_trans.
  - done.
  - split_and!; [done..|]. exists []. split; [done|]. by intros t ?%elem_of_nil.
Qed.

(** The loop over the components. *)
Lemma components_safe x :
  JInv x → no_tx x →
  jsafe (for_each (sy_Components s) (λ comp (_ : unit),
           r ← copyAndCutover s sched copy_cyclic comp;
           Ret (match r with Some e => inl e | None => inr tt end)) tt)
    (λ r x', ∀ u, r = inr u → ∀ t, planned t → streams x'.2 t) x.
Proof.
  intros Hx Hn.
  apply (safe_for_each _ _ _ _ (λ l _ y, no_tx y ∧ ∃ done, sy_Components s = done ++ l ∧
    ∀ comp t, comp ∈ done → t ∈ comp_Order comp → streams y.2 t)).
  - intros comp l [] y Hy (Hny & done & Heq & Hd). apply safe_bind. apply copyAndCutover_safe; [|done|done|].
    { rewrite Heq. set_solver. }
    intros r y' Hy' _ Hny' Hst Hr. apply safe_ret; [done|]. destruct r as [e|]; [by intros u [=]|].
    split; [done|]. exists (done ++ [comp]). split; [by rewrite <-app_assoc|].
    intros comp' t [Hin|Hin%list_elem_of_singleton]%elem_of_app Ht; [by eapply Hst, Hd|subst; by apply Hr].
  - intros [] y Hy (_ & done & Heq & Hd) u _ t (comp & Hc & Ht). rewrite app_nil_r in Heq. subst done. by eapply Hd.
  - done.
  - split; [done|]. exists []. split; [done|]. by intros comp t ?%elem_of_nil.
Qed.

Abbreviation bsafe := (safe (sync_step Transactional) (sync_requires planned) BInv).

Lemma bsafe_lift {A} (p : prog A) Q C x :
  (∀ t, planned t → t ∈ C) → jsafe p Q x → bsafe p (λ a w, sw_captured w = C ∧ Q a (sw_world w)) (mkSW C x).
Proof.
  intros HC Hp. eapply safe_weaken; [|by apply safe_lift]. intros [C' y] [HC' Hy]. simpl in HC'. subst C'.
  split; [done|]. intros t Ht Hn. by destruct (Hn (HC t Ht)).
Qed.

Lemma install_safe o (Q : option error → sworld → Prop) w :
  is_install o = true → BInv w →
  (∀ r w', BInv w' → a_tx (sw_world w').1 = a_tx (sw_world w).1 →
     (r = None → ∀ t, t ∈ install_tables o → 0 < key_arity t → t ∈ sw_captured w') → Q r w') →
  bsafe (r ← do_call 0 o; Ret (match r with inl e => Some e | inr _ => None end)) Q w.
Proof.
  intros Ho Hw HQ. apply safe_bind. apply safe_call; [done|by left|]. intros r [C' [v' st']] Hs.
  destruct w as [C [v st]]. unfold sync_step in Hs. rewrite Ho in Hs. destruct Hs as [-> Hs].
  apply (installs_BInv _ _ _ _ st) in Hs as (H1 & H2 & _ & H4); [|exact Hw].
  split; [exact H1|]. apply safe_ret; [exact H1|]. apply HQ; [exact H1|exact H2|]. destruct r; [done|]. intros _. by apply H4.
Qed.

Lemma installCapture_safe (Q : option error → sworld → Prop) w :
  BInv w →
  (∀ r w', BInv w' → a_tx (sw_world w').1 = a_tx (sw_world w).1 →
     (r = None → ∀ t, t ∈ sy_Replicable s → 0 < key_arity t → t ∈ sw_captured w') → Q r w') →
  bsafe (installCapture s) Q w.
Proof.
  intros Hw HQ. unfold installCapture.
  destruct (sy_ClusterMode s); [destruct (sy_OriginAware s); cbn [negb]; [|apply safe_ret; [done|by apply HQ]]|];
    by apply install_safe.
Qed.
End bringup.

(** C3: bringing a sync up, for a source that installs capture in one transaction per table
    ([Transactional]: Postgres, [PgCapture.installCapture_transactional]; with [Autocommit],
    as on MySQL, [Autocommit_loses_write] shows that the claim fails). Start from a sync that
    never ran, or from whatever an earlier run left when it failed or crashed ([BInv]), with
    capture installed on any of the tables, and let the calls fail, the chunks finish in any
    order and the applications write all along. [Bringup] makes no call on the data before
    the planned tables are captured; between any two calls, every row on the target agrees
    with the source or has an unconsumed delta, and so does every key of a table
    the persisted progress or a streaming cursor claims, and a table without capture is
    untouched; and when it returns no error, the planned tables are captured, their cursors
    are streaming, and every key of them is in sync or on its way. Components with a cycle go
    through the engine's cyclic copier ([CyclicCopier]) when it has one. *)
Theorem Bringup_streams (s : Syncer) (sched : list Chunk → list (nat * nat)) (w : sworld) :
  schedules sched → opt_Method (sy_ChunkOpts s) ≠ Some ChunkCTID →
  (∀ t, planned s t → t ∈ sy_Replicable s ∧ 0 < key_arity t ∧ t ∈ src_tables) →
  (∀ comp, comp ∈ sy_Components s → ∀ t, t ∈ comp_Tables comp ↔ t ∈ comp_Order comp) →
  a_tx (sw_world w).1 !! 0 = None → BInv s w →
  safe (sync_step Transactional) (sync_requires (planned s)) (BInv s) (Bringup s sched copy_cyclic)
    (λ r w', r = None → ∀ t, planned s t →
         t ∈ sw_captured w' ∧
         cur_Phase (loadCursor (sy_Name s) (sy_Target s) t (sw_world w').2) = PhaseStreaming ∧
         ∀ k, synced (sw_world w').1 t k ∨ dirty (sw_world w').1 t k) w.
Proof.
  intros Hsched Hm Hk Hcomp Hno Hw. unfold Bringup. destruct (Nat.eqb _ 0); [by apply safe_ret|].
  apply safe_bind. apply installCapture_safe; [done|]. intros r w1 Hw1 Hx1 Hc.
  destruct r as [e|]; [by apply safe_ret|]. specialize (Hc eq_refl).
  destruct w1 as [C x]. simpl in Hc.
  assert (∀ t, planned s t → t ∈ C) as HC by (intros t Ht; destruct (Hk t Ht) as (? & ? & ?); by apply Hc).
  assert (safe world_step world_requires (JInv s)
    (_ ← recordEvent (mkEvent (sy_Name s) EmptyString zeroRef "INFO" "capture.installed"
              ("capture installed on " +:+ pretty (length (sy_Replicable s)) +:+ " tables"));
     r ← for_each (sy_Components s) (λ comp (_ : unit),
              r ← copyAndCutover s sched copy_cyclic comp;
              Ret (match r with Some e => inl e | None => inr tt end)) tt;
     Ret (match r with inl e => Some e | inr _ => None end))
    (λ r x', r = None → ∀ t, planned s t → streams s x'.2 t) x) as Hrest.
  { apply safe_bind. apply recordEvent_safe; [apply Hw1|]. intros x1 Hx1' _ _ Htx. apply safe_bind.
    eapply safe_mono; [|apply components_safe; try done; try (intros t Ht; by apply Hk)].
    2: { unfold no_tx. rewrite Htx. simpl in Hx1. by rewrite Hx1. } intros r x2 Hx2 Hr. apply safe_ret; [done|].
    destruct r as [e|u]; [done|]. intros _. by apply (Hr u). }
  eapply safe_mono; [|by apply bsafe_lift]. intros r [C' x'] [Hb _] [HC' Hq] Hr t Ht. simpl in HC'. subst C'.
  specialize (Hq Hr t Ht). split_and!; [by apply HC|done|]. intros k.
  by apply (ci_complete _ _ _ _ _ _ Hb).
Qed.

(** Why the DDL has to be transactional: with [Autocommit], installing again on a table that is
    captured and in sync can miss a write, and nothing tells. *)
Lemma Autocommit_loses_write C v st t k :
  pend_ok v → t ∈ C → 0 < key_arity t → ¬ dirty v t k →
  ∃ v', sync_step Autocommit 0 (InstallCapture [t]) (mkSW C (v, st)) (inr tt) (mkSW C (v', st)) ∧ ¬ good v' t k.
Proof.
  intros Hp HC Hk Hd. exists (mkA (match a_tgt v !! (t, k) with
    | Some _ => delete (t, k) (a_src v) | None => <[(t, k) := ∅]> (a_src v) end)
    (a_tgt v) (a_pend v) (a_seen v) (a_tx v)). split.
  - split; [done|]. eapply (installs_ddl _ t [] C v v); [done|by apply srely_refl| |].
    2: { replace ({[t]} ∪ C) with C by set_solver. by apply installs_done, srely_refl. }
    split; simpl; [done..|exact Hp|]. intros t' k' Ht'. left.
    destruct (a_tgt v !! (t, k)); [rewrite lookup_delete_ne|rewrite lookup_insert_ne]; set_solver.
  - intros [Hs|Hd']; [|done]. unfold synced in Hs. simpl in Hs.
    destruct (a_tgt v !! (t, k)); [by rewrite lookup_delete_eq in Hs|by rewrite lookup_insert_eq in Hs].
Qed.
End lifecycle.

(** ** Witnesses *)

Definition sample_syncer (copier : bool) : Syncer :=
  mkSyncer "s1" "replica" 1 true copier false false EmptyString
    [mkComponent [users] [users] [users]] [users] (mkChunkOptions None 2 None).

Lemma sample_cold copier : cold (sample_syncer copier) (pg_view sample_world, fresh_store).
Proof.
  split; [exact sample_pend_ok|]. intros t _. split; [|done]. intros k.
  change (a_tgt (pg_view sample_world) !! (t, k) = None).
  replace (a_tgt (pg_view sample_world)) with (∅ : rows) by (vm_compute; reflexivity). apply lookup_empty.
Qed.

Lemma Bringup_streams_witness :
  safe (sync_step Transactional) (sync_requires (planned (sample_syncer true))) (BInv (sample_syncer true))
    (Bringup (sample_syncer true) serial (copy_cyclic (CyclicCopier := pg_cyclic_copier)))
    (λ r w', r = None → ∀ t, planned (sample_syncer true) t →
         t ∈ sw_captured w' ∧
         cur_Phase (loadCursor "s1" "replica" t (sw_world w').2) = PhaseStreaming ∧
         ∀ k, synced (sw_world w').1 t k ∨ dirty (sw_world w').1 t k)
    (mkSW ∅ (pg_view sample_world, fresh_store)).
Proof.
  apply (Bringup_streams (Cp := pg_cyclic_copier) (sample_syncer true) serial (mkSW ∅ (pg_view sample_world, fresh_store))).
  - exact serial_schedules.
  - discriminate.
  - intros t (comp & Hc & Ht). apply list_elem_of_singleton in Hc. subst comp. split; [exact Ht|split; [simpl; lia|exact Ht]].
  - intros comp Hc t. apply list_elem_of_singleton in Hc. subst comp. reflexivity.
  - reflexivity.
  - apply cold_BInv. exact (sample_cold true).
Defined.

Lemma CopyCyclicComponent_copies_witness :
  safe world_step world_requires (CInv (λ t, t ∈ [users]) (λ t, t ∈ [users]) (λ _, False) "s1" sync_target)
    (PgCyclicCopy.CopyCyclicComponent 0 [users])
    (λ r x', a_tx x'.1 !! 0 = None ∧ (∀ t k, good (pg_view sample_world) t k → good x'.1 t k) ∧
       (r = None → ∀ t k, t ∈ [users] → synced x'.1 t k ∨ dirty x'.1 t k))
    (pg_view sample_world, fresh_store).
Proof.
  apply (CopyCyclicComponent_copies (λ t, t ∈ [users]) (λ t, t ∈ [users]) (λ _, False) "s1" sync_target 0 [users]).
  - intros t Ht. split; [exact Ht|]. split; [exact Ht|]. split; [simpl; lia|exact Ht].
  - apply CInv_start; [exact sample_pend_ok| |done|by intros t []]. intros t k _.
    replace (a_tgt (pg_view sample_world)) with (∅ : rows) by (vm_compute; reflexivity).
    apply lookup_empty.
  - reflexivity.
Defined.
End Syncer.
