(* ===== verification/PgCapture.v ===== *)
(** * Installing capture on a Postgres source ([internal/engine/postgres/capture.go])

    The capture objects of a table are named by the [rel_id] of its registry row: the delta
    table, the track table, the trigger function and the trigger. A table is installed and
    removed in one transaction: the other sessions see the objects as they were until it
    commits, and from the drop of the trigger on its lock keeps writers out of the table.

    [installCapture_transactional] discharges what the lifecycle of a sync ([Syncer]) takes
    from the engine of its source. *)

From S2P Require Import Prelude Engine Calls ApplyTx Contract PgPreflight Copy Syncer.
Import Contract PgPreflight Copy Syncer.

Module PgCapture.

(** ** State *)

(** The committed capture objects; the flags tell the origin-aware function and trigger of a
    cluster member. *)
Record pgcap := mkCap {
  pc_registry : gmap TableRef (Z * list string);   (** rel_id and pk_cols by table *)
  pc_nextRel : Z;                                  (** the sequence of the registry *)
  pc_deltas : gset Z;                              (** delta tables *)
  pc_tracks : gset Z;                              (** track tables *)
  pc_registers : gset TableRef;                    (** version registers of a mesh member *)
  pc_fns : gmap Z bool;                            (** trigger functions *)
  pc_trigs : gmap (TableRef * Z) bool              (** the triggers on the tables *)
}.

Inductive pg_ddl :=
| CreateDelta (rel : Z)                         (** [deltaTableDDL] *)
| CreateTrack (rel : Z)                         (** [trackTableDDL] *)
| AlterDelta (rel : Z)                          (** [deltaAutovacuumDDL] *)
| CreateRegister (ref : TableRef)               (** [registerTableDDL] *)
| ReplaceFn (rel : Z) (origin : bool)           (** [triggerFunctionDDL], [meshTriggerFunctionDDL] *)
| DropTrig (rel : Z) (ref : TableRef)           (** [dropTriggerDDL] *)
| CreateTrig (rel : Z) (ref : TableRef) (origin : bool)  (** [createTriggerDDL] *)
| DropFn (rel : Z)
| DropDelta (rel : Z)
| DropTrack (rel : Z)
| Unregister (rel : Z).

Definition exec_ddl (q : pg_ddl) (s : pgcap) : result pgcap :=
  let '(mkCap reg nx ds ks rs fs ts) := s in
  match q with
  | CreateDelta r => inr (mkCap reg nx ({[ r ]} ∪ ds) ks rs fs ts)
  | CreateTrack r => inr (mkCap reg nx ds ({[ r ]} ∪ ks) rs fs ts)
  | AlterDelta r => if decide (r ∈ ds) then inr s else inl (Failure "relation does not exist")
  | CreateRegister ref => inr (mkCap reg nx ds ks ({[ ref ]} ∪ rs) fs ts)
  | ReplaceFn r origin => inr (mkCap reg nx ds ks rs (<[r := origin]> fs) ts)
  | DropTrig r ref => inr (mkCap reg nx ds ks rs fs (delete (ref, r) ts))
  | CreateTrig r ref origin =>
      match ts !! (ref, r), fs !! r with
      | Some _, _ => inl (Failure "trigger already exists")
      | None, None => inl (Failure "function does not exist")
      | None, Some _ => inr (mkCap reg nx ds ks rs fs (<[(ref, r) := origin]> ts))
      end
  | DropFn r => inr (mkCap reg nx ds ks rs (delete r fs) ts)
  | DropDelta r => inr (mkCap reg nx (ds ∖ {[ r ]}) ks rs fs ts)
  | DropTrack r => inr (mkCap reg nx ds (ks ∖ {[ r ]}) rs fs ts)
  | Unregister r => inr (mkCap (filter (λ x, x.2.1 ≠ r) reg) nx ds ks rs fs ts)
  end.

(** INSERT ... ON CONFLICT DO UPDATE ... RETURNING rel_id; the attempt takes a value of the
    sequence. *)
Definition upsertRegistry (ref : TableRef) (cols : list (string * string)) (s : pgcap) : Z * pgcap :=
  let '(mkCap reg nx ds ks rs fs ts) := s in
  let rel := match reg !! ref with Some (rel, _) => rel | None => nx end in
  (rel, mkCap (<[ref := (rel, cols.*1)]> reg) (nx + 1) ds ks rs fs ts).

Definition lookupRegistry (ref : TableRef) (s : pgcap) : option Z := fst <$> pc_registry s !! ref.

(** ** Transactions

    What becomes of the [n]-th statement: it succeeds, it fails, or (COMMIT only) it takes
    effect and its answer is lost. *)
Variant outcome := Succeeds | Fails | Lost.

Section install.
Context (out : nat → outcome).

Fixpoint run_all (n : nat) (qs : list pg_ddl) (s : pgcap) : result pgcap * nat :=
  match qs with
  | [] => (inr s, n)
  | q :: qs =>
      match out n with
      | Succeeds => match exec_ddl q s with inl e => (inl e, S n) | inr s => run_all (S n) qs s end
      | _ => (inl (Failure "exec"), S n)
      end
  end.

(** A rollback undoes everything but the values taken from the sequence. *)
Definition rolled_back (s : pgcap) (next : Z) : pgcap :=
  let '(mkCap reg _ ds ks rs fs ts) := s in mkCap reg next ds ks rs fs ts.

(** [tx.Commit]: the error, and the state the other sessions see. *)
Definition commit (n : nat) (s s1 : pgcap) : option error * nat * pgcap :=
  match out n with
  | Succeeds => (None, S n, s1)
  | Fails => (Some (Failure "commit"), S n, rolled_back s (pc_nextRel s1))
  | Lost => (Some (Failure "commit"), S n, s1)
  end.

Definition install_stmts (rel : Z) (ref : TableRef) (origin : bool) : list pg_ddl :=
  [CreateDelta rel; CreateTrack rel; AlterDelta rel] ++
  (if origin then [CreateRegister ref] else []) ++
  [ReplaceFn rel origin; DropTrig rel ref; CreateTrig rel ref origin].

(** BEGIN, the registry row, the statements, COMMIT. *)
Definition installOne (n : nat) (ref : TableRef) (cols : list (string * string)) (origin : bool) (s : pgcap)
    : option error * nat * pgcap :=
  match out n with
  | Succeeds =>
      match out (S n) with
      | Succeeds =>
          let '(rel, s1) := upsertRegistry ref cols s in
          match run_all (S (S n)) (install_stmts rel ref origin) s1 with
          | (inl e, n) => (Some e, n, rolled_back s (pc_nextRel s1))
          | (inr s2, n) => commit n s s2
          end
      | _ => (Some (Failure "register table"), S (S n), s)
      end
  | _ => (Some (Failure "begin"), S n, s)
  end.

(** [pre]: an error of the calls before the loop (connection, schema, mesh state,
    introspection). *)
Fixpoint install_loop (n : nat) (introspected : gmap TableRef Engine.Table) (origin : bool) (tables : list TableRef) (s : pgcap)
    : option error * nat * pgcap :=
  match tables with
  | [] => (None, n, s)
  | ref :: tables =>
      match introspected !! ref with
      | None => (Some (Failure ("postgres: install capture: table " +:+ ref_string ref +:+ " not found on source")), n, s)
      | Some tbl =>
          let cols := captureColsFor tbl in
          if Nat.eqb (length cols) 0 then install_loop n introspected origin tables s
          else match installOne n ref cols origin s with
               | (Some e, n, s) => (Some (Errorf ("postgres: install capture on " +:+ ref_string ref) e), n, s)
               | (None, n, s) => install_loop n introspected origin tables s
               end
      end
  end.

Definition installCapture (pre : option error) (introspected : gmap TableRef Engine.Table) (origin : bool)
    (tables : list TableRef) (s : pgcap) : option error * pgcap :=
  match pre with
  | Some e => (Some e, s)
  | None => let '(err, _, s) := install_loop 0 introspected origin tables s in (err, s)
  end.

(** ** Removing *)

Definition remove_stmts (rel : Z) (ref : TableRef) : list pg_ddl :=
  [DropTrig rel ref; DropFn rel; DropDelta rel; DropTrack rel; Unregister rel].

Definition removeOne (n : nat) (ref : TableRef) (rel : Z) (s : pgcap) : option error * nat * pgcap :=
  match out n with
  | Succeeds =>
      match run_all (S n) (remove_stmts rel ref) s with
      | (inl e, n) => (Some e, n, s)
      | (inr s1, n) => commit n s s1
      end
  | _ => (Some (Failure "begin"), S n, s)
  end.

Fixpoint RemoveCapture (n : nat) (tables : list TableRef) (s : pgcap) : option error * nat * pgcap :=
  match tables with
  | [] => (None, n, s)
  | ref :: tables =>
      match lookupRegistry ref s with
      | None => RemoveCapture n tables s
      | Some rel =>
          match removeOne n ref rel s with
          | (Some e, n, s) => (Some (Errorf ("postgres: remove capture on " +:+ ref_string ref) e), n, s)
          | (None, n, s) => RemoveCapture n tables s
          end
      end
  end.
End install.

(** ** The captured tables *)

(** A write to the table enqueues a delta: the trigger of its [rel_id] is on it, and the
    function, the delta table and the track table are there. *)
Definition captured (s : pgcap) (t : TableRef) : Prop :=
  match lookupRegistry t s with
  | None => False
  | Some rel => rel ∈ pc_deltas s ∧ rel ∈ pc_tracks s ∧ is_Some (pc_fns s !! rel) ∧ is_Some (pc_trigs s !! (t, rel))
  end.

#[global] Instance captured_dec s t : Decision (captured s t).
Proof. unfold captured. destruct (lookupRegistry t s); apply _. Defined.

Definition captures (s : pgcap) : gset TableRef := filter (captured s) (dom (pc_registry s)).

Lemma elem_of_captures s t : t ∈ captures s ↔ captured s t.
Proof.
  unfold captures. rewrite elem_of_filter, elem_of_dom. split; [by intros []|]. intros Hc. split; [done|].
  unfold captured, lookupRegistry in Hc. by destruct (pc_registry s !! t).
Qed.

(** The statements of an installation, all of them run. *)
Lemma pg_run_all_install out n rel ref origin s s' n' :
  run_all out n (install_stmts rel ref origin) s = (inr s', n') →
  pc_registry s' = pc_registry s ∧ pc_nextRel s' = pc_nextRel s ∧ pc_deltas s' = {[ rel ]} ∪ pc_deltas s ∧
  pc_tracks s' = {[ rel ]} ∪ pc_tracks s ∧ pc_fns s' = <[rel := origin]> (pc_fns s) ∧
  pc_trigs s' = <[(ref, rel) := origin]> (pc_trigs s).
Proof.
  destruct s as [reg nx ds ks rs fs ts]. unfold install_stmts. destruct origin; cbn [app run_all exec_ddl];
    repeat (match goal with |- context [match out ?k with Succeeds => _ | _ => _ end] => destruct (out k); [|done..] end;
            cbn [app run_all exec_ddl]);
    rewrite decide_True by set_solver; cbn [app run_all exec_ddl];
    repeat (match goal with |- context [match out ?k with Succeeds => _ | _ => _ end] => destruct (out k); [|done..] end;
            cbn [app run_all exec_ddl]);
    rewrite lookup_delete_eq, lookup_insert_eq; intros [= <- _]; simpl; by rewrite insert_delete_eq.
Qed.

(** The registry: a [rel_id] belongs to one table and comes from the sequence. *)
Record registry_ok (s : pgcap) : Prop := {
  ro_inj t t' rel : lookupRegistry t s = Some rel → lookupRegistry t' s = Some rel → t = t';
  ro_below t rel : lookupRegistry t s = Some rel → (rel < pc_nextRel s)%Z
}.

Lemma registry_ok_same s s' :
  pc_registry s' = pc_registry s → (pc_nextRel s <= pc_nextRel s')%Z → registry_ok s → registry_ok s'.
Proof.
  intros Hr Hn [R1 R2]. split; unfold lookupRegistry in *; rewrite Hr; [done|].
  intros t rel Ht. specialize (R2 t rel Ht). lia.
Qed.

Lemma upsertRegistry_spec ref cols s rel s1 :
  registry_ok s → upsertRegistry ref cols s = (rel, s1) →
  registry_ok s1 ∧ lookupRegistry ref s1 = Some rel ∧
  (∀ t, t ≠ ref → lookupRegistry t s1 = lookupRegistry t s ∧ lookupRegistry t s ≠ Some rel) ∧
  (∀ r, lookupRegistry ref s = Some r → r = rel) ∧ (pc_nextRel s <= pc_nextRel s1)%Z ∧
  pc_deltas s1 = pc_deltas s ∧ pc_tracks s1 = pc_tracks s ∧ pc_fns s1 = pc_fns s ∧ pc_trigs s1 = pc_trigs s.
Proof.
  destruct s as [reg nx ds ks rs fs ts]. intros [R1 R2] Hu. simpl in Hu. injection Hu as <- <-.
  set (rel := match reg !! ref with Some (r, _) => r | None => nx end).
  unfold lookupRegistry in *. simpl in *.
  assert (∀ r, fst <$> reg !! ref = Some r → r = rel) as Hold.
  { intros r. unfold rel. destruct (reg !! ref) as [[r' c]|]; simpl; congruence. }
  assert (∀ t, t ≠ ref → fst <$> reg !! t ≠ Some rel) as Hnew.
  { intros t Ht Hr. unfold rel in Hr. destruct (reg !! ref) as [[r c]|] eqn:E.
    - apply Ht, (R1 _ _ r); [done|]. by rewrite E.
    - specialize (R2 _ _ Hr). lia. }
  assert (rel < nx + 1)%Z as Hlt.
  { destruct (reg !! ref) as [[r c]|] eqn:E; unfold rel; [|lia].
    assert (r < nx)%Z; [apply (R2 ref); by rewrite E|lia]. }
  assert (∀ t, fst <$> <[ref := (rel, cols.*1)]> reg !! t = if decide (t = ref) then Some rel else fst <$> reg !! t) as Hl.
  { intros t. case_decide; [subst; by rewrite lookup_insert_eq|by rewrite lookup_insert_ne]. }
  split_and!; [| | |done|lia|done..].
  - split; unfold lookupRegistry; simpl.
    + intros t t' r. rewrite !Hl. repeat case_decide; intros Ha Hb; subst; try done.
      * injection Ha as <-. by destruct (Hnew t').
      * injection Hb as <-. by destruct (Hnew t).
      * by apply (R1 _ _ r).
    + intros t r. rewrite Hl. case_decide; [by intros [= <-]|]. intros Hr. specialize (R2 _ _ Hr). lia.
  - by rewrite Hl, decide_True.
  - intros t Ht. rewrite Hl, decide_False by done. split; [done|by apply Hnew].
Qed.

(** One table, all or nothing. *)
Lemma pg_installOne_spec out n ref cols origin s err n' s' :
  registry_ok s → installOne out n ref cols origin s = (err, n', s') →
  registry_ok s' ∧ (captures s' = captures s ∧ err ≠ None ∨ captures s' = {[ ref ]} ∪ captures s).
Proof.
  intros Hok. unfold installOne.
  destruct (out n); [|intros [= <- _ <-]; by auto..]. destruct (out (S n)); [|intros [= <- _ <-]; by auto..].
  destruct (upsertRegistry ref cols s) as [rel s1] eqn:Hu.
  apply upsertRegistry_spec in Hu as (Hok1 & H1 & H2 & H3 & Hle & H4 & H5 & H6 & H7); [|done].
  assert (∀ next, (pc_nextRel s <= next)%Z → registry_ok (rolled_back s next) ∧ captures (rolled_back s next) = captures s) as Hrb.
  { intros next Hn. split; [|by destruct s]. by eapply registry_ok_same; [..|exact Hok]; destruct s. }
  destruct (run_all _ _ _ s1) as [[e|s2] m] eqn:Hr.
  { intros [= <- _ <-]. destruct (Hrb (pc_nextRel s1) Hle) as [? ->]. by auto. }
  apply pg_run_all_install in Hr as (R1 & R2 & R3 & R4 & R5 & R6).
  assert (registry_ok s2) as Hok2 by (by eapply registry_ok_same; [exact R1|rewrite R2|]).
  assert (captures s2 = {[ ref ]} ∪ captures s) as Hcap.
  { apply set_eq. intros t. rewrite elem_of_union, elem_of_singleton, !elem_of_captures. unfold captured.
    assert (lookupRegistry t s2 = lookupRegistry t s1) as -> by (unfold lookupRegistry; by rewrite R1).
    rewrite R3, R4, R5, R6, H4, H5, H6, H7. destruct (decide (t = ref)) as [->|Ht].
    - rewrite H1. split; [by left|]. intros _. split_and!; [set_solver..| |];
        rewrite ?lookup_insert_eq; by eexists.
    - destruct (H2 t Ht) as [-> Hne]. destruct (lookupRegistry t s) as [r|]; [|set_solver].
      rewrite !lookup_insert_ne by congruence. set_solver. }
  unfold commit. destruct (out m); intros [= <- _ <-]; [by auto| |by auto].
  destruct (Hrb (pc_nextRel s2)) as [? ->]; [by rewrite R2|]. by auto.
Qed.

Section transactional.
Context `{Sch : Schema}.

Lemma install_loop_transactional out n (intro : gmap TableRef Engine.Table) origin tables s err n' s' v :
  pend_ok v → registry_ok s → (∀ t tbl, intro !! t = Some tbl → length (captureColsFor tbl) = key_arity t) →
  install_loop out n intro origin tables s = (err, n', s') →
  registry_ok s' ∧
  installs Transactional tables (captures s, v) (match err with None => true | Some _ => false end) (captures s', v).
Proof.
  intros Hp Hok Hint. revert n s Hok. induction tables as [|ref tables IH]; intros n s Hok; cbn [install_loop].
  { intros [= <- _ <-]. split; [done|]. by apply installs_done, srely_refl. }
  destruct (intro !! ref) as [tbl|] eqn:Ht.
  2: { intros [= <- _ <-]. split; [done|]. by apply installs_fail, srely_refl. }
  rewrite (Hint _ _ Ht). destruct (Nat.eqb_spec (key_arity ref) 0) as [Hk|_].
  { intros Hr. destruct (IH n s Hok Hr). split; [done|]. by apply installs_skip. }
  destruct (installOne out n ref (captureColsFor tbl) origin s) as [[err1 n1] s1] eqn:Hone.
  destruct (pg_installOne_spec _ _ _ _ _ _ _ _ _ Hok Hone) as [Hok1 Hcap]. destruct err1 as [e|].
  - intros [= <- _ <-]. split; [done|]. destruct Hcap as [[-> _]| ->]; [by apply installs_fail, srely_refl|].
    eapply installs_tx; [done|by apply srely_refl|]. by apply installs_fail, srely_refl.
  - intros Hr. destruct (IH n1 s1 Hok1 Hr) as [? Hi]. split; [done|]. destruct Hcap as [[_ ?]|Hcap]; [done|].
    eapply installs_tx; [done|by apply srely_refl|]. by rewrite <-Hcap.
Qed.

(** The installation is [Transactional]: whichever statement fails or loses its answer, the
    tables are captured one by one, each in one step, no captured table stops being so, and
    without an error all tables with a key are captured. *)
Theorem installCapture_transactional out pre (intro : gmap TableRef Engine.Table) origin tables s v err s' :
  pend_ok v → registry_ok s → (∀ t tbl, intro !! t = Some tbl → length (captureColsFor tbl) = key_arity t) →
  installCapture out pre intro origin tables s = (err, s') →
  registry_ok s' ∧
  installs Transactional tables (captures s, v) (match err with None => true | Some _ => false end) (captures s', v).
Proof.
  intros Hp Hok Hint. unfold installCapture. destruct pre as [e|].
  { intros [= <- <-]. split; [done|]. by apply installs_fail, srely_refl. }
  destruct (install_loop _ _ _ _ _ _) as [[e n'] s1] eqn:Hr. intros [= <- <-].
  by eapply install_loop_transactional.
Qed.
End transactional.

(** Removing capture, with no failing statement, leaves nothing of the tables. *)
Lemma removeOne_spec out n ref rel s n' s' :
  lookupRegistry ref s = Some rel → registry_ok s → removeOne out n ref rel s = (None, n', s') →
  captures s' = captures s ∖ {[ ref ]} ∧ lookupRegistry ref s' = None ∧ registry_ok s'.
Proof.
  intros Hrel [R1 R2]. unfold removeOne. destruct (out n); [|done..]. destruct s as [reg nx ds ks rs fs ts].
  unfold remove_stmts. cbn [run_all exec_ddl].
  repeat (match goal with |- context [match out ?k with Succeeds => _ | _ => _ end] => destruct (out k); [|done..] end;
          cbn [run_all exec_ddl]).
  unfold commit. destruct (out _); intros [= _ <-]. unfold lookupRegistry in *. simpl in *.
  assert (∀ t, fst <$> filter (λ x : TableRef * (Z * list string), x.2.1 ≠ rel) reg !! t =
    if decide (t = ref) then None else fst <$> reg !! t) as Hl.
  { intros t. rewrite map_lookup_filter. case_decide as Ht; [subst|].
    - destruct (reg !! ref) as [[r c]|]; simpl in *; [|done]. rewrite option_guard_False; [done|]. simpl. naive_solver.
    - destruct (reg !! t) as [[r c]|] eqn:E; simpl; [|done]. rewrite option_guard_True; [done|]. simpl. intros ->.
      apply Ht, (R1 _ _ rel); [by rewrite E|done]. }
  split_and!.
  - apply set_eq. intros t. rewrite elem_of_difference, elem_of_singleton, !elem_of_captures.
    unfold captured, lookupRegistry. simpl. rewrite Hl. case_decide as Ht; [naive_solver|].
    destruct (reg !! t) as [[r c]|] eqn:E; simpl; [|naive_solver].
    assert (r ≠ rel) by (intros ->; apply Ht, (R1 _ _ rel); [by rewrite E|done]).
    rewrite !lookup_delete_ne by congruence. set_solver.
  - by rewrite Hl, decide_True.
  - split; unfold lookupRegistry; simpl.
    + intros t t' r. rewrite !Hl. repeat case_decide; try done. apply R1.
    + intros t r. rewrite Hl. case_decide; [done|]. apply R2.
Qed.

(** ** A fresh source *)

Definition ex_users : TableRef := mkRef "public" "users".
Definition ex_table : Engine.Table :=
  mkTable ex_users [mkColumn "id" "bigint" false false false false false ""] (Some (mkKey "users_pkey" ["id"] true)) [] [] false "".
Definition ex_cap : pgcap := mkCap ∅ 1 ∅ ∅ ∅ ∅ ∅.

Example install_then_remove :
  let '(e1, s1) := installCapture (λ _, Succeeds) None {[ ex_users := ex_table ]} false [ex_users] ex_cap in
  let '(e2, _, s2) := RemoveCapture (λ _, Succeeds) 0 [ex_users] s1 in
  (e1, captures s1, e2, captures s2) = (None, {[ ex_users ]}, None, ∅).
Proof. vm_compute. reflexivity. Qed.

(** A statement that fails leaves the table as it was. *)
Example failed_install :
  let '(e, s) := installCapture (λ n, if decide (n = 7) then Fails else Succeeds) None {[ ex_users := ex_table ]} false
                   [ex_users] ex_cap in
  (is_Some e) ∧ s = mkCap ∅ 2 ∅ ∅ ∅ ∅ ∅.
Proof. vm_compute. split; [by eexists|reflexivity]. Qed.
End PgCapture.
