(* ===== verification/Stream.v ===== *)
(** * The streaming pass ([internal/pipeline/stream.go], [internal/pipeline/delete.go],
      [internal/apply/counts.go])

    One pass drains every foreign-key component, enforces retention, refreshes the
    bookkeeping and, when the target is marked for it, reseeds every component.
    [StreamOpts] has the fields of the Go [Syncer] that only streaming uses, with
    one flag per optional interface of the engine; [StreamState] the fields a
    pass updates. Metrics are left out, but the calls made to compute them are
    not. The apply pool is the primary connection pair ([ApplyConcurrency] 1). *)

From S2P Require Import Prelude Engine Calls ApplyTx Plan Contract Apply Postgres PgDrain Purge Store Copy Reseed Syncer.
Import ApplyTx Plan Contract Apply Postgres PgDrain Purge Store Copy Reseed Syncer.

Module Stream.

Record StreamOpts := mkOpts {
  so_DrainBatch : Z;
  so_Retention : RetentionPolicy;
  so_SyncSequences : bool;
  so_NullFill : bool;              (** the sink is a CyclicColumnsProvider *)
  so_TombstoneGC : bool;           (** the source is a TombstoneGC *)
  so_SequenceReseeder : bool;      (** the sink is a SequenceReseeder *)
  so_AppliedRecorder : bool;       (** the store has RecordApplied *)
  so_SrcSizer : bool;              (** the source is a DBSizer *)
  so_SinkSizer : bool;             (** the sink is a DBSizer *)
  so_KeyLister : bool;             (** the sink is a KeyLister *)
  so_KeyExister : bool             (** the source is a KeyExister *)
}.

(** Times are nanoseconds; [None] is the zero time. *)
Record StreamState := mkSS {
  ss_lastSeqSync : option Z;
  ss_lastDBSize : option Z;
  ss_sweepCursors : gmap TableRef Z
}.

(** ** Applied-row counters

    [apply.recordApplied] runs right after each successful [ConfirmConsumed] of the
    component drains, with the number of ids; the accumulator travels in the context.
    [counted p m] is [p] in a context with accumulator [m]. *)
Definition recordApplied (t : TableRef) (n : nat) (m : gmap TableRef nat) : gmap TableRef nat :=
  if Nat.eqb n 0 then m else <[t := default 0 (m !! t) + n]> m.

Definition confirm_count (o : call) (r : result (resp o)) (m : gmap TableRef nat) : gmap TableRef nat :=
  match o, r with
  | ConfirmConsumed t _ ids, inr _ => recordApplied t (length ids) m
  | _, _ => m
  end.

Fixpoint counted {A} (p : prog A) (m : gmap TableRef nat) : prog (A * gmap TableRef nat) :=
  match p with
  | Ret a => Ret (a, m)
  | Call c o k => Call c o (λ r, counted (k r) (confirm_count o r m))
  end.

Section stream.
Context (s : Syncer) (o : StreamOpts) (sched : list Chunk → list (nat * nat)).

(** [s.log] *)
Definition log (msg : string) (cause : error) : prog unit :=
  recordEvent (mkEvent (sy_Name s) (sy_Target s) zeroRef "WARN" "stream.pass_error"
    (msg +:+ ": " +:+ Error cause)).

(** [time.Now()] cannot fail. *)
Definition now : prog Z :=
  r ← do_call 0 Now; Ret (match r with inl _ => 0%Z | inr t => t end).

(** The drain of every component, parents first; the first error ends it. *)
Definition drain_component (comp : Engine.Component) (consumed : nat) : prog (nat * error + nat) :=
  '(n, err) ← DrainComponentRetrying (so_NullFill o) 0 (comp_Order comp) (sy_Target s) (so_DrainBatch o)
                (HasCycle comp) DefaultRetryPolicy;
  Ret (match err with Some e => inl (consumed + n, e) | None => inr (consumed + n) end).

Definition drain_components : prog (option error) :=
  r ← for_each (sy_Components s) drain_component 0;
  Ret (match r with inl (_, e) => Some e | inr _ => None end).

Definition gc_table (t : TableRef) (_ : unit) : prog (Empty_set + unit) :=
  r ← do_call 0 (GCTombstones t);
  match r with
  | inl e => _ ← log "tombstone GC error" e; Ret (inr tt)
  | inr _ => Ret (inr tt)
  end.

Definition gcTombstones : prog unit :=
  if negb (sy_ClusterMode s) then Ret tt
  else if negb (so_TombstoneGC o) then Ret tt
  else _ ← for_each (sy_Replicable s) gc_table tt; Ret tt.

(** [reportDrainFailure]: the probe of the target decides between the log line and
    the unreachable signal, which reads a backlog. *)
Definition reportDrainFailure (cause : error) : prog unit :=
  r ← do_call 0 SinkServerVersion;
  match r with
  | inr _ => log "drain pass failed (target reachable)" cause
  | inl _ =>
      match sy_Replicable s with
      | [] => Ret tt
      | repr :: _ => _ ← do_call 0 (DeltaBacklogOf repr (sy_Target s)); Ret tt
      end
  end.

Definition reconnectEndpoint (role : string) (health reconnect : call) : prog unit :=
  r ← do_call 0 health;
  match r with
  | inr _ => Ret tt
  | inl healthErr =>
      _ ← log ("reconnecting " +:+ role +:+ " after health check failed") healthErr;
      r ← do_call 0 reconnect;
      match r with
      | inl e => log ("reconnect " +:+ role +:+ " failed (will retry next pass)") e
      | inr _ => recordEvent (mkEvent (sy_Name s) (sy_Target s) zeroRef "WARN" "stream.reconnected"
                   (role +:+ " connection re-established after failure"))
      end
  end.

Definition reconnectIfDown : prog unit :=
  r ← do_call 0 CtxErr;
  match r with
  | inl _ => Ret tt
  | inr _ =>
      _ ← reconnectEndpoint "source" SrcHealthCheck SrcReconnect;
      reconnectEndpoint "target" SinkHealthCheck SinkReconnect
  end.

Definition backlog_table (t : TableRef) (_ : unit) : prog (Empty_set + unit) :=
  _ ← do_call 0 (DeltaBacklogOf t (sy_Target s)); Ret (inr tt).

Definition dbSizeInterval : Z := 30000000000.

Definition sizes (present sink : bool) : prog unit :=
  if present then
    _ ← do_call 0 (DatabaseSize sink);
    _ ← do_call 0 (ReplicatedSize sink (sy_Replicable s)); Ret tt
  else Ret tt.

(** [now.Sub(last) < interval], unless [last] is the zero time. *)
Definition throttled (last : option Z) (t interval : Z) : bool :=
  match last with None => false | Some l => (t - l <? interval)%Z end.

Definition refreshDBSizes (st : StreamState) : prog StreamState :=
  t ← now;
  if throttled (ss_lastDBSize st) t dbSizeInterval then Ret st
  else
    _ ← sizes (so_SrcSizer o) false;
    _ ← sizes (so_SinkSizer o) true;
    Ret (mkSS (ss_lastSeqSync st) (Some t) (ss_sweepCursors st)).

(** [Syncer.recordApplied], in the order of the map's elements. *)
Definition record_table (x : TableRef * nat) (_ : unit) : prog (Empty_set + unit) :=
  if Nat.eqb x.2 0 then Ret (inr tt)
  else
    r ← do_call 0 (RecordApplied (sy_Name s) (sy_Target s) x.1 (Z.of_nat x.2));
    match r with
    | inl e => _ ← log "record applied-rows" e; Ret (inr tt)
    | inr _ => Ret (inr tt)
    end.

Definition recordAppliedAll (counts : gmap TableRef nat) : prog unit :=
  if decide (counts = ∅) then Ret tt
  else if negb (so_AppliedRecorder o) then Ret tt
  else _ ← for_each (map_to_list counts) record_table tt; Ret tt.

Definition seqSyncInterval : Z := 60000000000.

Definition sync_sequence (t : TableRef) (_ : unit) : prog (Empty_set + unit) :=
  r ← do_call 0 (ReseedSequences t);
  match r with
  | inl e => _ ← log ("sequence sync for " +:+ ref_string t) e; Ret (inr tt)
  | inr _ => Ret (inr tt)
  end.

Definition syncSequences (st : StreamState) : prog StreamState :=
  if negb (so_SyncSequences o) || sy_ClusterMode s then Ret st
  else if negb (so_SequenceReseeder o) then Ret st
  else
    t ← now;
    if throttled (ss_lastSeqSync st) t seqSyncInterval then Ret st
    else
      _ ← for_each (sy_Replicable s) sync_sequence tt;
      Ret (mkSS (Some t) (ss_lastDBSize st) (ss_sweepCursors st)).

(** ** Delete reconciliation *)

Definition DeleteSweepStep (ref : TableRef) (cursor batch : Z) : prog (nat * Z * option error) :=
  r ← do_call 0 (ScanTargetKeys ref cursor batch);
  match r with
  | inl e => Ret (0, cursor, Some (Errorf ("delete sweep: scan target " +:+ ref_string ref) e))
  | inr (keys, next) =>
      if Nat.eqb (length keys) 0 then Ret (0, next, None)
      else
        r ← do_call 0 (MissingAtSource ref keys);
        match r with
        | inl e => Ret (0, cursor, Some (Errorf ("delete sweep: missing-at-source " +:+ ref_string ref) e))
        | inr missing =>
            if Nat.eqb (length missing) 0 then Ret (0, next, None)
            else
              r ← do_call 0 (BeginApply false [ref]);
              match r with
              | inl e => Ret (0, cursor, Some (Errorf ("delete sweep: begin " +:+ ref_string ref) e))
              | inr _ =>
                  r ← do_call 0 (DeleteAbsent ref missing);
                  match r with
                  | inl e =>
                      _ ← do_call 0 Rollback;
                      Ret (0, cursor, Some (Errorf ("delete sweep: delete " +:+ ref_string ref) e))
                  | inr _ =>
                      r ← do_call 0 Commit;
                      Ret (match r with
                           | inl e => (0, cursor, Some (Errorf ("delete sweep: commit " +:+ ref_string ref) e))
                           | inr _ => (length missing, next, None)
                           end)
                  end
              end
        end
  end.

Definition sweep_table (ref : TableRef) (cursors : gmap TableRef Z)
    : prog (gmap TableRef Z * error + gmap TableRef Z) :=
  '(_, next, err) ← DeleteSweepStep ref (default 0%Z (cursors !! ref)) (so_DrainBatch o);
  Ret (match err with Some e => inl (cursors, e) | None => inr (<[ref := next]> cursors) end).

Definition deleteReconcile (st : StreamState) : prog (option error * StreamState) :=
  if negb (so_KeyLister o) then Ret (None, st)
  else if negb (so_KeyExister o) then Ret (None, st)
  else
    r ← for_each (sy_Replicable s) sweep_table (ss_sweepCursors st);
    Ret (match r with
         | inl (cursors, e) => (Some e, mkSS (ss_lastSeqSync st) (ss_lastDBSize st) cursors)
         | inr cursors => (None, mkSS (ss_lastSeqSync st) (ss_lastDBSize st) cursors)
         end).

(** ** The pass *)

Definition containsTarget (ts : list TargetID) (t : TargetID) : bool :=
  existsb (λ x, bool_decide (x = t)) ts.

Definition reseed_component (comp : Engine.Component) (_ : unit) : prog (error + unit) :=
  r ← Run (sy_Workers s) (sy_Verifier s) sched (sy_Name s) (sy_Target s) (comp_Order comp) (sy_ChunkOpts s);
  Ret (match r with Some e => inl e | None => inr tt end).

(** The end of the pass: reseed when [Enforce] or a cursor asks for it. *)
Definition maybe_reseed (reseeded : list TargetID) : prog (option error) :=
  r ← (if containsTarget reseeded (sy_Target s) then Ret (inr true)
       else targetNeedsReseed (sy_Name s) (sy_Target s));
  match r with
  | inl e => Ret (Some e)
  | inr false => Ret None
  | inr true =>
      r ← for_each (sy_Components s) reseed_component tt;
      Ret (match r with inl e => Some e | inr _ => None end)
  end.

(** The healthy half of the pass, up to the reseed. *)
Definition bookkeeping (counts : gmap TableRef nat) (st : StreamState) : prog StreamState :=
  _ ← for_each (sy_Replicable s) backlog_table tt;
  st ← refreshDBSizes st;
  _ ← touchCursors (sy_Name s) (sy_Target s) (sy_Replicable s);
  _ ← recordAppliedAll counts;
  st ← syncSequences st;
  '(err, st) ← deleteReconcile st;
  match err with
  | Some e => _ ← log "delete reconciliation error" e; Ret st
  | None => Ret st
  end.

Definition streamOnce (st : StreamState) : prog (option error * StreamState) :=
  '(drainErr, counts) ← counted drain_components ∅;
  enf ← Enforce 0 (sy_Name s) (sy_Replicable s) [sy_Target s] (so_Retention o);
  _ ← gcTombstones;
  match drainErr with
  | Some e =>
      _ ← reportDrainFailure e;
      _ ← do_call 0 SrcHealthCheck;
      _ ← reconnectIfDown;
      Ret (Some e, st)
  | None =>
      match enf with
      | inl e => Ret (Some e, st)
      | inr res =>
          st ← bookkeeping counts st;
          r ← maybe_reseed (en_Reseeded res);
          Ret (r, st)
      end
  end.

(** [errors.Is(err, context.Canceled)] *)
Fixpoint IsCanceled (e : error) : bool :=
  match e with
  | TransientConstraintError e | Errorf _ e => IsCanceled e
  | Failure _ | PgError _ _ | MyError _ _ => false
  | Canceled => true
  end.

(** [Stream], for at most [passes] ticks of the drain interval: [Some err] is what
    it returns, [None] that it is still running. *)
Fixpoint Stream (passes : nat) (interval : Z) (st : StreamState) : prog (option error) :=
  match passes with
  | 0 => Ret None
  | S passes =>
      r ← do_call 0 (After (if decide (interval <= 0)%Z then 1000000000 else interval));
      match r with
      | inl ctxErr => Ret (Some ctxErr)
      | inr _ =>
          '(err, st) ← streamOnce st;
          match err with
          | Some e =>
              if IsCanceled e then Ret (Some e)
              else _ ← log "stream pass error" e; Stream passes interval st
          | None => Stream passes interval st
          end
      end
  end.
End stream.

(** ** The world of a pass

    The additional calls read or write nothing the sync's rows, deltas and cursors
    consist of. *)
Definition aside (o : call) : bool :=
  match o with
  | DeltaBacklogOf _ _ | GCTombstones _ | SinkServerVersion | ReseedSequences _ | DatabaseSize _
  | ReplicatedSize _ _ | RecordApplied _ _ _ _ | Now => true
  | _ => false
  end.

Definition is_purge (o : call) : bool := match o with Calls.Purge _ _ _ => true | _ => false end.

(** What [Enforce] records after it has marked a sacrificed target. *)
Definition announces (o : call) : bool :=
  match o with RecordEvent e => bool_decide (evt_Event e = "target.needs_reseed") | _ => false end.

Section pass.
Context `{Sch : Schema}.

(** The world, and whether a purge has sacrificed the target of this sync without [Enforce]
    having recorded so since. *)
Abbreviation gworld := (world * bool)%type.

(** A purge that stays under the retention cap deletes only deltas this target has consumed,
    which the abstract state does not contain ([purge_under_cap]). *)
Definition under_cap (o : call) : result (resp o) → Prop :=
  match o return result (resp o) → Prop with
  | Calls.Purge _ _ _ => λ r, ∀ stats, r = inr stats → TargetsReseeded stats = []
  | _ => λ _, True
  end.

(** A purge over the cap reports the target as sacrificed, or fails on the way. *)
Definition over_cap (o : call) : result (resp o) → Prop :=
  match o return result (resp o) → Prop with
  | Calls.Purge _ targets _ => λ r, ∀ stats, r = inr stats →
      sync_target ∈ TargetsReseeded stats ∧ ∀ tg, tg ∈ TargetsReseeded stats → tg ∈ targets
  | _ => λ _, True
  end.

(** What it leaves of the queue is not specified: the target's track is wiped and deltas it
    has not consumed are gone ([purge_over_cap]). *)
Definition sacrificed (v v' : astate) : Prop := a_tgt v' = a_tgt v ∧ a_tx v' = a_tx v ∧ pend_ok v'.

(** The calls of a pass other than the purges. *)
Definition calm_step (c : nat) (o : call) (x : world) (r : result (resp o)) (x' : world) : Prop :=
  if aside o then rely x.1 x'.1 ∧ x'.2 = x.2 else world_step c o x r x'.

Definition stream_step (c : nat) (o : call) (w : gworld) (r : result (resp o)) (w' : gworld) : Prop :=
  if is_purge o then
    w'.1.2 = w.1.2 ∧
    (rely w.1.1 w'.1.1 ∧ w'.2 = w.2 ∧ under_cap o r ∨ sacrificed w.1.1 w'.1.1 ∧ w'.2 = true ∧ over_cap o r)
  else calm_step c o w.1 r w'.1 ∧ w'.2 = if announces o then false else w.2.

Definition calm_requires (c : nat) (o : call) (x : world) : Prop :=
  is_purge o = false ∧ announces o = false ∧ (aside o = true ∨ world_requires c o x).

Definition stream_requires (c : nat) (o : call) (w : gworld) : Prop :=
  match o with
  | Calls.Purge _ targets _ => sync_target ∈ targets
  | _ => aside o = true ∨ world_requires c o w.1
  end.

(** The Postgres purge keeps these promises: when it sacrifices no target it is one of
    the events an engine of this sync tolerates, and otherwise it leaves rows and open
    transactions alone. *)
Lemma purge_under_cap (r : relInfo) batch t targets ret w stats w' :
  pg_ok w → 0 < batch → sync_target ∈ targets →
  purge r batch t targets ret w = Some (stats, w') → TargetsReseeded stats = [] →
  pg_ok w' ∧ rely (pg_view w) (pg_view w').
Proof.
  intros Hok Hb Htg. unfold purge. set (rs := overCapTargets _ _ _ _). case_decide as Hrs.
  2: { destruct (purgeConsumedBy _ _ _ _ _ _) as [[n w1]|]; [|done]. simpl. by intros [= <- <-]. }
  destruct (purgeConsumedBy_total (purge_fuel w t) t targets batch 0 w Hb)
    as (w1 & -> & (E1 & E2 & E3 & E4 & E5 & E6) & Hdel); [apply purge_fuel_enough|].
  simpl. intros [= <- <-] _.
  assert (w1 = run_event (OtherPurge t targets (ids_of w t)) w) as ->.
  { destruct w1 as [src op nx dl tr tg tx]. simpl in *. subst. unfold drop_deltas. f_equal.
    apply map_eq. intros [t' i]. rewrite Hdel.
    rewrite (lookup_filter_fst (λ ti : TableRef * DeltaID, ¬ (ti.1 = t ∧ ti.2 ∈ ids_of w t ∧ consumed_by w t targets ti.2))).
    simpl. assert (targets ≠ []) by (intros ->; by apply elem_of_nil in Htg).
    destruct (decide (t' = t ∧ i ∈ purgeable w t targets)) as [[-> [[?|Hc] Hs]%elem_of_purgeable]|Hn]; [done| |].
    - rewrite decide_False; [done|]. rewrite elem_of_ids. tauto.
    - case_decide as Hd; [done|]. destruct Hd as (-> & Hin%elem_of_ids & Hc).
      destruct Hn. split; [done|]. apply elem_of_purgeable. tauto. }
  by apply event_step.
Qed.

Lemma purge_over_cap (r : relInfo) batch t targets ret w stats w' :
  pg_ok w → 0 < batch → purge r batch t targets ret w = Some (stats, w') → sacrificed (pg_view w) (pg_view w').
Proof.
  intros Hok Hb. unfold purge.
  assert (∀ targets w0 n w1, w_delta w0 = w_delta w → w_open w0 = w_open w → w_next w0 = w_next w → w_tgt w0 = w_tgt w →
    w_tx w0 = w_tx w → purgeConsumedBy (purge_fuel w0 t) t targets batch 0 w0 = Some (n, w1) →
    sacrificed (pg_view w) (pg_view w1)) as Hpass.
  { intros tgs w0 n w1 D0 O0 N0 T0 X0 He.
    destruct (purgeConsumedBy_total (purge_fuel w0 t) t tgs batch 0 w0 Hb)
      as (w2 & He2 & (E1 & E2 & E3 & E4 & E5 & E6) & Hdel); [apply purge_fuel_enough|].
    rewrite He2 in He. injection He as _ <-. split_and!; simpl; [congruence|congruence|].
    intros t' i k. simpl. rewrite lookup_pending. case_decide; [done|].
    intros (d & Hd & ->)%fmap_Some. rewrite Hdel in Hd. case_decide; [done|]. rewrite D0 in Hd.
    destruct (ok_delta _ Hok _ _ _ Hd) as [[Hs1 Hs2] ?]. split; [|done]. split.
    - unfold next_of in *. by rewrite E3, N0.
    - unfold in_flight in *. by rewrite E2, O0. }
  case_decide.
  - destruct (purgeConsumedBy _ _ _ _ _ w) as [[n w1]|] eqn:E; [|done]. simpl. intros [= _ <-]. by eapply Hpass.
  - destruct (purgeConsumedBy _ _ _ _ _ (reset_track _ _ _)) as [[n w1]|] eqn:E; [|done]. simpl. intros [= _ <-].
    by eapply Hpass in E.
Qed.

Lemma safe_calm_world (J : world → Prop) {A} (p : prog A) Q x :
  only (λ o, announces o = false) p →
  safe world_step world_requires J p Q x → safe calm_step calm_requires J p Q x.
Proof.
  revert x. induction p as [a|c o k IH]; intros x Ho [HJ Hp]; simpl; [done|].
  destruct Hp as [Hpre Hp], Ho as [Ho Hk].
  assert (is_purge o = false ∧ aside o = false) as [Ho1 Ho2] by by destruct o.
  split; [done|]. split; [by split_and!; [..|right]|].
  intros r x'. unfold calm_step. rewrite Ho2. intros Hs. by apply IH, Hp.
Qed.

(** Without a purge and an announcement the flag stays. *)
Lemma safe_stream (J : world → Prop) {A} (p : prog A) Q x b :
  safe calm_step calm_requires J p Q x →
  safe stream_step stream_requires (λ w, J w.1 ∧ w.2 = b) p (λ a w, Q a w.1 ∧ w.2 = b) (x, b).
Proof.
  revert x. induction p as [a|c o k IH]; intros x [HJ Hp]; simpl; [done|].
  destruct Hp as [(Ho1 & Ho2 & Hpre) Hp]. split; [done|]. split; [by destruct o|].
  intros r [x' b']. unfold stream_step. rewrite Ho1, Ho2. intros [Hs Hb]. simpl in Hb. subst b'. by apply IH, Hp.
Qed.

Lemma safe_counted (J : world → Prop) {A} (p : prog A) m Q x :
  safe calm_step calm_requires J p Q x →
  safe calm_step calm_requires J (counted p m) (λ am, Q am.1) x.
Proof.
  revert m x. induction p as [a|c o k IH]; intros m x [HJ Hp]; simpl; [done|].
  destruct Hp as [Hpre Hp]. split_and!; [done..|]. intros r x' Hs. by apply IH, Hp.
Qed.

Section safety.
Context (s : Syncer) (o : StreamOpts) (sched : list Chunk → list (nat * nat)).
Abbreviation name := (sy_Name s).
Abbreviation target := (sy_Target s).
Abbreviation comps := (sy_Components s).

Definition all_planned_good (v : astate) : Prop := ∀ t k, planned s t → good v t k.

Definition has_mark (st : store) (t : TableRef) : Prop :=
  cur_NeedsReseed (loadCursor name target t st) = true.

(** Some table of the last component is marked. *)
Definition last_marked (st : store) : Prop :=
  ∃ comp, last comps = Some comp ∧ some_mark name target (comp_Order comp) st.

(** Every cursor row of the sync is stored under its own key. *)
Definition cursors_wf (st : store) : Prop :=
  ∀ tg t cur, st_cursors st !! (name, tg, t) = Some cur → cur_Target cur = tg.

(** Every table of the sync is marked. *)
Definition all_marked (st : store) : Prop := ∀ t, t ∈ sy_Replicable s → has_mark st t.

(** What is known of a target: its rows are in step or a mark asks for the reseed of every
    component ([Kept]); that mark is there ([Marked]); or nothing, because it was sacrificed
    and the marks are not complete ([Lost]). *)
Variant standing := Kept | Marked | Lost.

(** The marks are in the planned tables, and the mark of the last component goes last, so that a
    crash on the way repeats the whole reseed. *)
Record SInv (m : standing) (x : world) : Prop := {
  si_pend : pend_ok x.1;
  si_wf : cursors_wf x.2;
  si_planned t : has_mark x.2 t → planned s t;
  si_good : match m with
            | Kept => all_planned_good x.1 ∨ last_marked x.2
            | Marked => last_marked x.2
            | Lost => True
            end;
  si_marks t : m ≠ Lost → has_mark x.2 t → last_marked x.2
}.

Definition idle0 (x : world) : Prop := a_tx x.1 !! 0 = None.

(** The invariant of streaming. *)
Definition XInv (w : gworld) : Prop := SInv (if w.2 then Lost else Kept) w.1.

Abbreviation csafe := (safe calm_step calm_requires).
Abbreviation ssafe := (safe stream_step stream_requires XInv).

Lemma Marked_Kept x : SInv Marked x → SInv Kept x.
Proof. intros [H1 H2 H3 H4 H5]. split; [done..|by right|]. intros t _. by apply H5. Qed.

Lemma SInv_Lost m x : SInv m x → SInv Lost x.
Proof. intros [H1 H2 H3 H4 H5]. by split. Qed.

(** Pieces of the pass that neither purge nor announce. *)
Lemma piece m (b : bool) {A} (p : prog A) Q x :
  (∀ y, SInv m y → SInv (if b then Lost else Kept) y) →
  csafe (SInv m) p (λ a y, SInv m y → Q a (y, b)) x → ssafe p Q (x, b).
Proof.
  intros Hm Hp. apply (safe_weaken _ _ (λ w, SInv m w.1 ∧ w.2 = b)).
  { intros [y b'] [Hy Hb]. simpl in Hb. subst b'. by apply Hm. }
  eapply safe_mono; [|by apply safe_stream]. intros a [y b'] [Hy _] [HQ Hb]. simpl in Hb. subst b'. by apply HQ.
Qed.

(** The cursors matter only through what [LoadCursor] returns. *)
Lemma SInv_calm m x x' :
  SInv m x → calm x.1 x'.1 → cursors_wf x'.2 →
  (∀ t, loadCursor name target t x'.2 = loadCursor name target t x.2) → SInv m x'.
Proof.
  intros [Hp Hw Hpl Hg Hm] C Hw' Hl.
  assert (∀ t, has_mark x'.2 t ↔ has_mark x.2 t) as Hmk by (intros t; unfold has_mark; by rewrite Hl).
  assert (last_marked x.2 → last_marked x'.2) as Hlast.
  { intros (comp & Hc & t & Ht & Hn). exists comp. split; [done|]. exists t. split; [done|]. by apply Hmk. }
  split; [apply C|done|intros t Ht%Hmk; by apply Hpl| |].
  - destruct m; [|by apply Hlast|done]. destruct Hg as [Hg|Hg]; [left|by right; apply Hlast].
    intros t k Ht. by eapply good_calm; [..|apply Hg].
  - intros t Hne Ht%Hmk. by apply Hlast, (Hm t).
Qed.

(** Calls that leave rows, deltas, cursors and open transactions alone. *)
Definition side_call (o : call) : Prop :=
  match o with
  | RecordEvent e => evt_Event e ≠ "target.needs_reseed"
  | LoadCursor _ _ _ | ListCursors _ | SrcHealthCheck | SrcReconnect
  | SinkHealthCheck | SinkReconnect | CtxErr | After _ => True
  | _ => aside o = true
  end.

Lemma side_call_calm c o' x r x' :
  side_call o' → calm_step c o' x r x' → pend_ok x.1 → idle0 x →
  calm x.1 x'.1 ∧ st_cursors x'.2 = st_cursors x.2 ∧ idle0 x'.
Proof.
  intros Ho Hst Hp Hid. unfold calm_step in Hst. unfold idle0 in *.
  destruct (aside o') eqn:E2.
  { destruct Hst as (R & ->). rewrite (rely_tx _ _ R). split_and!; [by apply rely_calm|done..]. }
  assert (keeps_cursors o') as Hk by by destruct o'.
  split_and!; [|by eapply world_step_cursors|eapply run_call_idle; [|done..]; by destruct o'].
  unfold world_step in Hst. destruct (is_store_call o') eqn:E3; [by apply rely_calm, Hst|].
  destruct Hst as [Hc _]. eapply calm_contract; [|done|done]. by destruct o'.
Qed.

Lemma loadCursor_cursors st st' t :
  st_cursors st' = st_cursors st → loadCursor name target t st' = loadCursor name target t st.
Proof. intros H. unfold loadCursor. by rewrite H. Qed.

Lemma side_call_SInv m c o' x r x' :
  side_call o' → calm_step c o' x r x' → SInv m x ∧ idle0 x → SInv m x' ∧ idle0 x'.
Proof.
  intros Ho Hst [HS Hid]. destruct (side_call_calm _ _ _ _ _ Ho Hst (si_pend _ _ HS) Hid) as (C & Hc & Hid').
  split; [|done]. apply (SInv_calm m x); [done..| |].
  - intros tg t cur. rewrite Hc. apply HS.
  - intros t. by apply loadCursor_cursors.
Qed.

Lemma side_call_requires c o' x : side_call o' → calm_requires c o' x.
Proof.
  destruct o'; try done; intros Ho; (split_and!; [done| |by (left + right)]); try done.
  by apply bool_decide_eq_false.
Qed.

(** A program of such calls. *)
Lemma side_safe m {A} (p : prog A) Q x :
  only side_call p → SInv m x → idle0 x → (∀ a x', SInv m x' → idle0 x' → Q a x') → csafe (SInv m) p Q x.
Proof.
  intros Hp HS Hid HQ. apply (safe_weaken _ _ (λ y, SInv m y ∧ idle0 y)); [by intros y []|].
  eapply safe_mono; [|apply (safe_only _ _ (λ y, SInv m y ∧ idle0 y) side_call); [|apply side_call_requires|done|done]].
  - intros a y [H1 H2] _. by apply HQ.
  - intros. by eapply side_call_SInv.
Qed.

(** ** The pieces of the pass *)

Lemma log_only msg e : only side_call (log s msg e).
Proof. apply only_bind; [|done]. by split. Qed.

Lemma reconnectEndpoint_only role h r :
  side_call h → side_call r → only side_call (reconnectEndpoint s role h r).
Proof.
  intros Hh Hr. apply only_bind; [done|]. intros [e|_]; [|done].
  apply only_bind; [apply log_only|]. intros _. apply only_bind; [done|].
  intros [e'|_]; [apply log_only|by apply only_bind].
Qed.

Lemma reportDrainFailure_only e : only side_call (reportDrainFailure s e).
Proof.
  apply only_bind; [done|]. intros [_|_]; [|apply log_only].
  destruct (sy_Replicable s); [done|]. by apply only_bind.
Qed.

Lemma reconnectIfDown_only : only side_call (reconnectIfDown s).
Proof.
  apply only_bind; [done|]. intros [_|_]; [done|].
  apply only_bind; [by apply reconnectEndpoint_only|]. intros _. by apply reconnectEndpoint_only.
Qed.

Lemma gcTombstones_only : only side_call (gcTombstones s o).
Proof.
  unfold gcTombstones. destruct (negb _); [done|]. destruct (negb _); [done|].
  apply only_bind; [|done]. apply only_for_each. intros t []. apply only_bind; [done|].
  intros [e|_]; [|done]. apply only_bind; [apply log_only|done].
Qed.

Lemma refreshDBSizes_only st : only side_call (refreshDBSizes s o st).
Proof.
  apply only_bind; [by apply only_bind|]. intros t. destruct (throttled _ _ _); [done|].
  apply only_bind; [by destruct (so_SrcSizer o)|]. intros _.
  apply only_bind; [by destruct (so_SinkSizer o)|done].
Qed.

Lemma recordAppliedAll_only counts : only side_call (recordAppliedAll s o counts).
Proof.
  unfold recordAppliedAll. case_decide; [done|]. destruct (negb _); [done|]. apply only_bind; [|done].
  apply only_for_each. intros [t n] []. unfold record_table. destruct (Nat.eqb _ 0); [done|].
  apply only_bind; [done|]. intros [e|_]; [|done]. apply only_bind; [apply log_only|done].
Qed.

Lemma syncSequences_only st : only side_call (syncSequences s o st).
Proof.
  unfold syncSequences. destruct (_ || _); [done|]. destruct (negb _); [done|].
  apply only_bind; [by apply only_bind|]. intros t. destruct (throttled _ _ _); [done|].
  apply only_bind; [|done]. apply only_for_each. intros t' []. apply only_bind; [done|].
  intros [e|_]; [|done]. apply only_bind; [apply log_only|done].
Qed.

Context (Htarget : sync_target = target).

Context (Hplan : ∀ t, t ∈ sy_Replicable s ↔ planned s t).
Context (Hnonempty : ∀ comp, comp ∈ comps → comp_Order comp ≠ []).

(** When every table is marked, so is one of the last component. *)
Lemma all_marked_last st t : planned s t → all_marked st → last_marked st.
Proof.
  intros (comp & Hc & Ht) Hall. destruct (last comps) as [lc|] eqn:El.
  2: { apply last_None in El. rewrite El in Hc. by apply elem_of_nil in Hc. }
  assert (lc ∈ comps) as Hlc by by apply last_Some_elem_of.
  exists lc. split; [done|]. destruct (comp_Order lc) as [|t' l] eqn:Ho; [by destruct (Hnonempty lc Hlc)|].
  exists t'. split; [by left|]. apply Hall, Hplan. exists lc. split; [done|]. rewrite Ho. by left.
Qed.

Lemma all_marked_SInv x t : planned s t → SInv Lost x → all_marked x.2 → SInv Marked x.
Proof.
  intros Ht [H1 H2 H3 H4 H5] Hall. pose proof (all_marked_last _ _ Ht Hall). by split.
Qed.

(** One cursor: marked when it is saved. *)
Lemma mark_cursor_marks t (Q : error + unit → world → Prop) x :
  t ∈ sy_Replicable s → SInv Lost x → idle0 x →
  (∀ r y, SInv Lost y → idle0 y → (∀ t', has_mark x.2 t' → has_mark y.2 t') →
     (r = inr tt → has_mark y.2 t) → Q r y) →
  csafe (SInv Lost) (mark_cursor 0 name target t tt) Q x.
Proof.
  intros Ht HS Hid HQ. apply safe_bind. apply safe_call; [done|by apply side_call_requires|]. intros r y Hst.
  destruct (side_call_calm 0 (LoadCursor name target t) x r y) as (C1 & Hc1 & Hid1); [done|done|apply HS|done|].
  destruct (side_call_SInv Lost 0 (LoadCursor name target t) x r y) as [HS1 _]; [done..|].
  assert (∀ t', has_mark x.2 t' → has_mark y.2 t') as Hle1.
  { intros t'. unfold has_mark. by rewrite (loadCursor_cursors _ _ t' Hc1). }
  split; [done|]. destruct r as [e|cur]; [apply safe_ret; [done|]; by apply HQ|].
  destruct Hst as [_ (r0 & s0 & Hlc & Hs)]. simpl in Hlc. injection Hlc as <- <-.
  destruct Hs as [[[= ->] Hs1]|[[e [=]] _]]. set (cur := loadCursor name target t x.2).
  apply safe_bind. apply safe_call; [done|by split_and!; [..|right]|]. intros r z [R (r0 & s0 & Hsv & Hs)].
  cbn [is_store_call] in *. simpl in Hsv.
  assert (cur_Target cur = target ∧ cur_Table cur = t) as [E1 E2] by (unfold cur, loadCursor; by destruct (st_cursors x.2 !! _)).
  assert (z.2 = y.2 ∧ (∀ u, r ≠ inr u) ∨ saveCursor name (mark_reseed cur) y.2 = inr z.2) as Hcase.
  { destruct (saveCursor _ _ _) as [e|s1] eqn:Es; injection Hsv as <- <-;
      destruct Hs as [[-> ->]|[[e' ->] [-> | ->]]]; auto. }
  assert (idle0 z) as Hidz by (unfold idle0; rewrite (rely_tx _ _ R); apply Hid1).
  destruct Hcase as [[Ez Hno]|Es].
  - assert (SInv Lost z) as HSz.
    { apply (SInv_calm Lost y); [done|by apply rely_calm|rewrite Ez; apply HS1|by intros t'; rewrite Ez]. }
    split; [done|]. apply safe_ret; [done|]. apply HQ; [done|done|by rewrite Ez|].
    destruct r as [e|u]; [done|]. by destruct (Hno u).
  - pose proof (λ t', loadCursor_save _ _ _ _ name target t' Es) as Hl. simpl in Hl. rewrite E1, E2 in Hl.
    assert (∀ t', has_mark z.2 t' ↔ t' = t ∨ has_mark y.2 t') as Hmk.
    { intros t'. unfold has_mark. rewrite Hl. case_decide as Hd; [injection Hd as <-; simpl; naive_solver|].
      split; [by right|]. intros [->|?]; [by destruct Hd|done]. }
    assert (SInv Lost z) as HSz.
    { split; [apply (rely_calm _ _ R)| | |done|done].
      - unfold saveCursor in Es. destruct (st_syncs y.2 !! _); [|done]. injection Es as Es. rewrite <-Es.
        intros tg t' c'. simpl. rewrite E1, E2, lookup_insert_Some. intros [[[= <- <-] <-]|[_ Hx]]; [done|].
        by eapply (si_wf _ _ HS1).
      - intros t' [->|Hm]%Hmk; [by apply Hplan|]. by apply (si_planned _ _ HS1). }
    split; [done|]. apply safe_ret; [done|]. apply HQ; [done|done|intros t' ?; apply Hmk; right; by apply Hle1|].
    intros _. apply Hmk. by left.
Qed.

Lemma mark_all_marks (Q : error + unit → world → Prop) x :
  SInv Lost x → idle0 x →
  (∀ r y, SInv Lost y → idle0 y → (r = inr tt → all_marked y.2) → Q r y) →
  csafe (SInv Lost) (for_each (sy_Replicable s) (mark_cursor 0 name target) tt) Q x.
Proof.
  intros HS Hid HQ.
  apply (safe_for_each _ _ _ _ (λ l _ y, idle0 y ∧ ∃ done, sy_Replicable s = done ++ l ∧ ∀ t, t ∈ done → has_mark y.2 t)).
  - intros t l [] y HSy (Hidy & done & Heq & Hd). apply mark_cursor_marks; [rewrite Heq; set_solver|done..|].
    intros r z HSz Hidz Hle Hr. destruct r as [e|[]]; [by apply HQ|]. split; [done|].
    exists (done ++ [t]). split; [by rewrite <-app_assoc|].
    intros t' [?|Et%list_elem_of_singleton]%elem_of_app; [by apply Hle, Hd|subst t'; by apply Hr].
  - intros [] y HSy (Hidy & done & Heq & Hd). rewrite app_nil_r in Heq. subst done. apply HQ; [done..|]. by intros _.
  - done.
  - split; [done|]. exists []. split; [done|]. by intros t ?%elem_of_nil.
Qed.

(** Marking the sacrificed target: when the announcement is made, every table is marked. *)
Lemma gmark_target_safe t (Q : error + unit → gworld → Prop) x :
  planned s t → SInv Lost x → idle0 x →
  (∀ r w, XInv w → idle0 w.1 → (r = inr tt → SInv Marked w.1 ∧ w.2 = false) → Q r w) →
  ssafe (mark_target 0 name (sy_Replicable s) target tt) Q (x, true).
Proof.
  intros Ht HS Hid HQ. apply safe_bind. apply (piece Lost); [done|]. apply mark_all_marks; [done..|].
  intros r y HSy Hidy Hall _. destruct r as [e|[]]; [apply safe_ret; [done|]; by apply HQ|].
  assert (SInv Marked y) as HMy by (eapply all_marked_SInv; [done..|]; by apply Hall).
  apply safe_bind. apply safe_call; [done|by right|]. intros r [z b] [Hst Hb].
  cbn [announces evt_Event] in Hb. rewrite bool_decide_eq_true_2 in Hb by done. simpl in Hb. subst b.
  destruct Hst as [R (r0 & s0 & Hc & Hs)]. cbn [is_store_call] in *. simpl in Hc, R, Hs. injection Hc as <- <-.
  assert (st_cursors z.2 = st_cursors y.2) as Hcu by by destruct Hs as [[_ ->]|[_ [-> | ->]]].
  assert (SInv Marked z) as HMz.
  { apply (SInv_calm Marked y); [done|by apply rely_calm| |intros t'; by apply loadCursor_cursors].
    intros tg t' c'. rewrite Hcu. apply HMy. }
  assert (XInv (z, false)) as HXz by by apply Marked_Kept.
  split; [done|]. apply safe_ret; [done|]. apply HQ; [done| |done].
  unfold idle0 in *. simpl. by rewrite (rely_tx _ _ R).
Qed.

(** [Enforce]: with no target sacrificed it marks nothing; with the target sacrificed and no
    error it is marked. *)
Lemma Enforce_safe Q w :
  XInv w → idle0 w.1 →
  (∀ r w', XInv w' → idle0 w'.1 →
     (∀ res, r = inr res → en_Reseeded res = [] ∧ w'.2 = w.2 ∨
        en_Reseeded res = [target] ∧ w'.2 = false ∧ SInv Marked w'.1) → Q r w') →
  ssafe (Enforce 0 name (sy_Replicable s) [target] (so_Retention o)) Q w.
Proof.
  intros HX Hid HQ. apply safe_bind.
  apply (safe_for_each _ _ _ _ (λ l acc y, (∀ t, t ∈ l → t ∈ sy_Replicable s) ∧ idle0 y.1 ∧
    (acc.2 = ∅ ∧ y.2 = w.2 ∨ acc.2 = {[ target ]} ∧ y.2 = true ∧ ∃ t, planned s t))).
  - intros t l [purged sac] [y b] HXy (Hl & Hidy & Hac). simpl in Hac. apply safe_bind. apply safe_call; [done| |].
    { simpl. rewrite Htarget. by left. }
    intros r [y' b'] [Hst Hcase]. simpl in Hst, Hcase.
    assert (XInv (y', b') ∧ idle0 y') as [HXy' Hidy'].
    { destruct Hcase as [(R & Hb & _)|((Et & Ex & Hp) & Hb & _)]; simpl in Hb; subst b'.
      - split; [|unfold idle0; by rewrite (rely_tx _ _ R)].
        apply (SInv_calm _ y); simpl; [done|by apply rely_calm|rewrite Hst; apply HXy|by intros t'; rewrite Hst].
      - split; [|unfold idle0; by rewrite Ex]. destruct HXy as [X1 X2 X3 X4 X5]. simpl in *.
        split; simpl; [done|by rewrite Hst|by rewrite Hst|done|done]. }
    split; [done|]. apply safe_ret; [done|].
    destruct r as [e|stats]; [apply safe_ret; [done|]; by apply HQ|]. split; [by intros t' ?; apply Hl; right|].
    split; [done|]. simpl. destruct Hcase as [(_ & Hb & Hu)|(_ & Hb & Hov)]; simpl in Hb; subst b'.
    + rewrite (Hu stats eq_refl). destruct Hac as [[-> ?]|(-> & ? & ?)]; [left|right]; split_and!; try done; set_solver.
    + right. destruct (Hov stats eq_refl) as [Hin Hsub]. split_and!; [|done|exists t; apply Hplan, Hl; by left].
      rewrite Htarget in Hin. apply set_eq. intros tg. rewrite elem_of_union, elem_of_list_to_set, elem_of_singleton. split.
      * intros [H%Hsub%list_elem_of_singleton|H]; [done|]. destruct Hac as [[-> _]|[-> _]]; set_solver.
      * intros ->. by left.
  - intros [purged sac] [y b] HXy (_ & Hidy & Hac). simpl in Hac. destruct Hac as [[-> Hb]|(-> & -> & t & Ht)].
    + rewrite decide_True by done. apply safe_ret; [done|]. apply HQ; [done..|]. intros res [= <-]. by left.
    + rewrite decide_False by (apply non_empty_singleton_L).
      assert (sort_by id (elements ({[ target ]} : gset TargetID)) = [target]) as -> by (by rewrite elements_singleton).
      apply safe_bind. cbn [for_each]. apply safe_bind. apply (gmark_target_safe t); [done..|].
      intros r w' HXw' Hidw' Hr. destruct r as [e|[]]; (apply safe_ret; [done|]); (apply safe_ret; [done|]); apply HQ; try done.
      intros res [= <-]. right. destruct (Hr eq_refl). done.
  - done.
  - split_and!; [done..|by left].
Qed.

(** Saving the cursor that was read changes no cursor. *)
Lemma touchCursors_side m Q x :
  SInv m x → idle0 x → (∀ a x', SInv m x' → idle0 x' → Q a x') →
  csafe (SInv m) (touchCursors name target (sy_Replicable s)) Q x.
Proof.
  intros HS Hid HQ. apply safe_bind.
  apply (safe_for_each _ _ _ _ (λ _ _ y, idle0 y)).
  - intros t l [] y HSy Hidy. apply safe_bind. apply safe_call; [done|by apply side_call_requires|]. intros r y1 Hst.
    destruct (side_call_calm 0 (LoadCursor name target t) y r y1) as (C1 & Hc1 & Hid1); [done|done|apply HSy|done|].
    destruct (side_call_SInv m 0 (LoadCursor name target t) y r y1) as [HS1 _]; [done..|].
    split; [done|]. destruct r as [e|cur]; [by apply safe_ret|].
    destruct Hst as [_ (r0 & s0 & Hlc & Hs)]. simpl in Hlc. injection Hlc as <- <-.
    destruct Hs as [[[= ->] Hs1]|[[e [=]] _]].
    apply safe_bind. apply safe_call; [done|by split_and!; [..|right]|]. intros r y2 Hst.
    destruct Hst as [R (r0 & s0 & Hsv & Hs)]. cbn [is_store_call] in *. simpl in Hsv.
    assert (y2.2 = y1.2 ∨ saveCursor name (loadCursor name target t y.2) y1.2 = inr y2.2) as Hcase.
    { destruct (saveCursor _ _ _) as [e|s1] eqn:Es; injection Hsv as <- <-;
        destruct Hs as [[_ ->]|[_ [-> | ->]]]; auto. }
    assert (cur_Target (loadCursor name target t y.2) = target ∧ cur_Table (loadCursor name target t y.2) = t)
      as [E1 E2] by (unfold loadCursor; by destruct (st_cursors y.2 !! _)).
    assert (SInv m y2) as HS2.
    { apply (SInv_calm m y1); [done|by apply rely_calm| |].
      - destruct Hcase as [->|Es]; [apply HS1|]. unfold saveCursor in Es.
        destruct (st_syncs y1.2 !! _); [|done]. injection Es as Es. rewrite <-Es. intros tg t' c'. simpl.
        rewrite E1, E2. rewrite lookup_insert_Some. intros [[[= <- <-] <-]|[_ Hl]]; [done|]. by eapply (si_wf _ _ HS1).
      - intros t'. destruct Hcase as [->|Es]; [done|]. rewrite (loadCursor_save _ _ _ _ _ _ _ Es), E1, E2, Hs1.
        by case_decide as Hd; [injection Hd as ->|]. }
    split; [done|]. apply safe_ret; [done|]. unfold idle0. rewrite (rely_tx _ _ R). apply Hid1.
  - intros [] y HSy Hidy. apply safe_ret; [done|]. by apply HQ.
  - done.
  - done.
Qed.

Context (Hparts : so_NullFill o = false → ∀ comp, comp ∈ comps → cyc_of (comp_Order comp) = ∅).
Context (Hnd : NoDup (comps ≫= comp_Order)).

Lemma comp_NoDup comp : comp ∈ comps → NoDup (comp_Order comp).
Proof.
  intros (pre & post & Heq)%list_elem_of_split. rewrite Heq, bind_app, bind_cons in Hnd.
  apply NoDup_app in Hnd as (_ & _ & Hnd'). by apply NoDup_app in Hnd' as [? _].
Qed.

Lemma drain_contract (T : TableRef → Prop) v :
  Inv T v → a_tx v !! 0 = None →
  safe contract requires (Inv T) (drain_components s o) (λ _ v', a_tx v' !! 0 = None) v.
Proof.
  intros HI Hx. apply safe_bind.
  apply (safe_for_each _ _ _ _ (λ l _ v', a_tx v' !! 0 = None ∧ ∀ comp, comp ∈ l → comp ∈ comps)).
  - intros comp l n v1 HI1 [Hx1 Hl]. apply safe_bind.
    eapply (safe_mono _ _ _ _ (λ _, idle 0 T)).
    2: { rewrite <-Htarget. apply retry_loop_ok; [|done]. intros _ v0 Hid0. apply DrainComponent_ok; [done| |].
         - apply comp_NoDup, Hl. by left.
         - intros Hnf. apply Hparts; [done|]. apply Hl. by left. }
    intros [n' [e|]] v2 HI2 [_ Hx2]; (apply safe_ret; [done|]); [by apply safe_ret|].
    split; [done|]. intros c Hc. apply Hl. by right.
  - intros n v1 HI1 [Hx1 _]. by apply safe_ret.
  - done.
  - done.
Qed.

(** What is safe on the engine alone is safe here, with the store unchanged. *)
Lemma contract_calm (J : astate → Prop) {A} (p : prog A) Q x :
  safe contract requires J p Q x.1 →
  safe calm_step calm_requires (λ y, J y.1 ∧ y.2 = x.2) p (λ a y, Q a y.1 ∧ y.2 = x.2) x.
Proof.
  intros Hs. destruct x as [v st]. simpl in *. revert v Hs. induction p as [a|c o' k IH]; intros v [HJ Hp]; simpl; [done|].
  destruct Hp as [Hpre Hp]. split; [done|].
  assert (is_store_call o' = false ∧ is_purge o' = false ∧ aside o' = false ∧ announces o' = false)
    as (Ho & Ho1 & Ho2 & Ho3) by by destruct o'.
  split; [split_and!; [done..|]; right; unfold world_requires; by rewrite Ho|].
  intros r [v' st']. unfold calm_step, world_step. rewrite Ho, Ho2. simpl. intros [Hc ->]. by apply IH, Hp.
Qed.

Lemma drain_side m n Q x :
  m ≠ Marked → SInv m x → idle0 x → (∀ a x', SInv m x' → idle0 x' → Q a x') →
  csafe (SInv m) (counted (drain_components s o) n) Q x.
Proof.
  intros Hm HS Hid HQ.
  assert (∀ T, (∀ t k, T t → good x.1 t k) →
    csafe (λ y, Inv T y.1 ∧ y.2 = x.2) (counted (drain_components s o) n)
      (λ _ y, a_tx y.1 !! 0 = None ∧ y.2 = x.2) x) as Hsafe.
  { intros T HT. apply (safe_counted _ _ _ (λ _ y, a_tx y.1 !! 0 = None ∧ y.2 = x.2)).
    apply (contract_calm (Inv T) _ (λ _ v, a_tx v !! 0 = None)).
    apply drain_contract; [|done]. split; [done|apply HS]. }
  assert (∀ (J : world → Prop), (∀ y, J y → SInv m y) →
    csafe J (counted (drain_components s o) n) (λ _ y, a_tx y.1 !! 0 = None ∧ y.2 = x.2) x →
    csafe (SInv m) (counted (drain_components s o) n) Q x) as Hend.
  { intros J HJ Hs. apply (safe_weaken _ _ J); [done|]. eapply safe_mono; [|done].
    intros a y Hy [Hx _]. apply HQ; [by apply HJ|done]. }
  assert (∀ T, (match m with Kept => (∀ t, planned s t → T t) ∨ last_marked x.2 | _ => True end) →
    ∀ y, Inv T y.1 ∧ y.2 = x.2 → SInv m y) as Hback.
  { intros T HT y [HI Hy]. split; rewrite ?Hy; [exact (inv_seen _ _ HI)|apply HS|apply HS| |apply HS].
    destruct m; [|done|done]. destruct HT as [HT|HT]; [left|by right]. intros t k Ht. by apply HI, HT. }
  destruct m as [| |]; [|done|].
  - destruct (si_good _ _ HS) as [Hg|Hg].
    + apply (Hend (λ y, Inv (planned s) y.1 ∧ y.2 = x.2)); [apply Hback; by left|by apply Hsafe].
    + apply (Hend (λ y, Inv (λ _, False) y.1 ∧ y.2 = x.2)); [apply Hback; by right|by apply Hsafe].
  - apply (Hend (λ y, Inv (λ _, False) y.1 ∧ y.2 = x.2)); [by apply Hback|by apply Hsafe].
Qed.

(** ** The reseed *)

Lemma needs_reseed_iff st :
  cursors_wf st →
  existsb (λ cur, bool_decide (cur_Target cur = target) && cur_NeedsReseed cur) (listCursors name st) = true ↔
  ∃ t, has_mark st t.
Proof.
  intros Hwf. rewrite existsb_exists. unfold has_mark, loadCursor. split.
  - intros (cur & Hin & [Ht%bool_decide_eq_true Hn]%andb_true_iff).
    apply list_elem_of_In in Hin. unfold listCursors in Hin.
    rewrite merge_sort_Permutation in Hin. apply list_elem_of_fmap in Hin as ([[[n tg] t] c'] & -> & Hin).
    apply list_elem_of_filter in Hin as [Hnm Hin%elem_of_map_to_list]. simpl in *. subst n.
    pose proof (Hwf _ _ _ Hin) as E. exists t. rewrite <-Ht, E. by rewrite Hin.
  - intros (t & Hn). destruct (st_cursors st !! (name, target, t)) as [cur|] eqn:E; [|done].
    exists cur. split; [|by rewrite (bool_decide_eq_true_2 _ (Hwf _ _ _ E))].
    apply list_elem_of_In. unfold listCursors. rewrite merge_sort_Permutation. apply list_elem_of_fmap.
    exists ((name, target, t), cur). split; [done|]. apply list_elem_of_filter.
    split; [done|]. by apply elem_of_map_to_list.
Qed.

(** The cutover of a table clears its mark and no other. *)
Lemma stream_cursor_marks t st st' t' :
  saveCursor name (stream_cursor (loadCursor name target t st)) st = inr st' →
  has_mark st' t' ↔ has_mark st t' ∧ t' ≠ t.
Proof.
  intros Es. unfold has_mark. rewrite (loadCursor_save _ _ _ _ name target t' Es). simpl.
  assert (cur_Target (loadCursor name target t st) = target ∧ cur_Table (loadCursor name target t st) = t)
    as [-> ->] by (unfold loadCursor; by destruct (st_cursors st !! _)).
  case_decide as Hd; simpl.
  - injection Hd as <-. split; [done|]. by intros [_ ?].
  - split; [|by intros []]. intros H. split; [done|]. intros ->. by destruct Hd.
Qed.

Lemma stream_cursor_wf t st st' :
  saveCursor name (stream_cursor (loadCursor name target t st)) st = inr st' →
  cursors_wf st → cursors_wf st'.
Proof.
  unfold saveCursor. destruct (st_syncs st !! name); [|done]. intros [= <-] Hw tg t' cur. simpl.
  assert (cur_Target (loadCursor name target t st) = target) as -> by (unfold loadCursor; by destruct (st_cursors st !! _)).
  rewrite lookup_insert_Some. intros [[[= <- <-] <-]|[_ Hl]]; [|by eapply Hw].
  simpl. unfold loadCursor. by destruct (st_cursors st !! _).
Qed.

Context (Hsched : schedules sched) (Hmethod : opt_Method (sy_ChunkOpts s) ≠ Some ChunkCTID).
Context (Hkeyed : ∀ t, planned s t → 0 < key_arity t).

Lemma wf_cursors st st' : st_cursors st' = st_cursors st → cursors_wf st → cursors_wf st'.
Proof. intros E Hw tg t cur. rewrite E. apply Hw. Qed.

Lemma has_mark_cursors st st' t : st_cursors st' = st_cursors st → has_mark st' t ↔ has_mark st t.
Proof. intros E. unfold has_mark. by rewrite (loadCursor_cursors _ _ t E). Qed.

(** Re-running one component: tables [G] are in step, [N] holds of the cursors. *)
Lemma run_component_safe m (G : TableRef → Prop) (N M : store → Prop) comp Q x :
  comp ∈ comps → (∀ t, G t → t ∉ comp_Order comp) →
  (∀ st st', st_cursors st' = st_cursors st → N st → N st') →
  (∀ st st', st_cursors st' = st_cursors st → M st → M st') →
  (∀ t st st', t ∈ comp_Order comp →
     saveCursor name (stream_cursor (loadCursor name target t st)) st = inr st' → N st → N st') →
  (∀ y, GInv (comp_Order comp) G N M y → SInv m y) →
  around G N x → M x.2 → idle0 x →
  (∀ r y, GInv (comp_Order comp) G N M y → idle0 y →
     (r = inr tt → all_good (comp_Order comp) y.1 ∧ ∀ t, t ∈ comp_Order comp → ¬ has_mark y.2 t) → Q r y) →
  csafe (SInv m) (reseed_component s sched comp tt) Q x.
Proof.
  intros Hc HG HN HM Hcut HS Ha Hm Hid HQ. apply safe_bind.
  apply (safe_weaken _ _ (λ y, GInv (comp_Order comp) G N M y ∧ idle0 y)); [by intros y [? _]; apply HS|].
  apply safe_calm_world; [eapply only_mono; [|apply Run_only]; intros []; try done; by apply bool_decide_eq_false|].
  eapply safe_mono; [|apply (safe_frame _ _ (GInv (comp_Order comp) G N M) idle0 run_call _
    (λ r y, r = None → all_good (comp_Order comp) y.1 ∧ ∀ t, t ∈ comp_Order comp → streaming name target y.2 t))].
  - intros r y [Hy Hidy] [Hr _].
    apply safe_ret; [by apply HS|]. apply HQ; [done..|]. destruct r as [e|]; [done|]. intros _.
    destruct (Hr eq_refl) as [Hg Hst]. split; [done|]. intros t Ht Hmk.
    destruct (Hst t Ht) as [_ E]. unfold has_mark in Hmk. by rewrite E in Hmk.
  - intros c o' y r y' Ho Hst. by apply (run_call_idle c 0 o' y r y').
  - apply Run_only.
  - done.
  - apply Run_ok; try done; [|by apply Hnonempty].
    intros t Ht. apply Hkeyed. by exists comp.
Qed.

Definition tables_of (cs : list Engine.Component) : list TableRef := cs ≫= comp_Order.

Lemma elem_of_tables_of t cs : t ∈ tables_of cs ↔ ∃ comp, comp ∈ cs ∧ t ∈ comp_Order comp.
Proof. unfold tables_of. rewrite list_elem_of_bind. naive_solver. Qed.

Lemma last_marked_cursors st st' : st_cursors st' = st_cursors st → last_marked st → last_marked st'.
Proof.
  intros E (comp & Hc & t & Ht & Hn). exists comp. split; [done|]. exists t. split; [done|].
  by rewrite (loadCursor_cursors _ _ t E).
Qed.

(** Between two components: the ones done are in step and unmarked. *)
Record between (m : standing) (done rest : list Engine.Component) (x : world) : Prop := {
  bt_split : comps = done ++ rest;
  bt_pend : pend_ok x.1;
  bt_wf : cursors_wf x.2;
  bt_good t k : t ∈ tables_of done → good x.1 t k;
  bt_done t : t ∈ tables_of done → ¬ has_mark x.2 t;
  bt_marks t : has_mark x.2 t → planned s t;
  bt_last : m ≠ Lost → rest ≠ [] → last_marked x.2
}.

Lemma between_SInv m done rest x : m ≠ Marked → between m done rest x → SInv m x.
Proof.
  intros Hne [Heq Hp Hw Hg Hu Hm Hl].
  assert (∀ t, planned s t → rest = [] → t ∈ tables_of done) as Hpl.
  { intros t Ht ->. rewrite app_nil_r in Heq. rewrite <-Heq. by apply elem_of_tables_of. }
  split; [done..| |].
  - destruct m; [|done|done]. destruct rest as [|c l]; [left|right; by apply Hl].
    intros t k Ht. apply Hg. by apply Hpl.
  - intros t Hno Ht. destruct rest as [|c l]; [|by apply Hl]. destruct (Hu t); [|done]. apply Hpl; [by apply Hm|done].
Qed.

Lemma disjoint_rest done comp rest t :
  comps = done ++ comp :: rest → t ∈ tables_of done → t ∉ comp_Order comp.
Proof.
  intros Heq Ht Hc. rewrite Heq, bind_app, bind_cons in Hnd.
  apply NoDup_app in Hnd as (_ & Hdis & _). apply (Hdis t Ht). apply elem_of_app. by left.
Qed.

(** A component that is not the last: the mark of the last one stays. *)
Lemma reseed_inner m done comp next rest Q x :
  m ≠ Marked → between m done (comp :: next :: rest) x → idle0 x →
  (∀ r y, SInv m y → idle0 y → (r = inr tt → between m (done ++ [comp]) (next :: rest) y) → Q r y) →
  csafe (SInv m) (reseed_component s sched comp tt) Q x.
Proof.
  intros Hne [Heq Hp Hw Hg Hu Hm Hl] Hid HQ.
  assert (∃ lc, last comps = Some lc ∧ ∀ t, t ∈ comp_Order lc → t ∉ comp_Order comp) as (lc & Hlc & Hdis).
  { destruct (last (next :: rest)) as [lc|] eqn:E; [|by apply last_None in E].
    exists lc. split; [by rewrite Heq, last_app, last_cons, E|]. intros t Ht Hc.
    apply last_Some_elem_of, list_elem_of_split in E as (l1 & l2 & E).
    rewrite Heq, bind_app, bind_cons in Hnd. apply NoDup_app in Hnd as (_ & _ & Hnd').
    apply NoDup_app in Hnd' as (_ & Hd & _). apply (Hd t Hc). apply elem_of_tables_of.
    exists lc. split; [|done]. rewrite E. set_solver. }
  set (N := λ st, cursors_wf st ∧ (m ≠ Lost → last_marked st) ∧ (∀ t, has_mark st t → planned s t) ∧
    ∀ t, t ∈ tables_of done → ¬ has_mark st t).
  assert (∀ y, GInv (comp_Order comp) (λ t, t ∈ tables_of done) N (λ _, True) y → SInv m y) as HSI.
  { intros y [[P1 G1 (H1 & H2 & H3 & H4)] _]. split; [done..| |]; [|by intros t ? _; apply H2].
    destruct m; [right; by apply H2|done|done]. }
  apply (run_component_safe m (λ t, t ∈ tables_of done) N (λ _, True)); try done.
  - rewrite Heq. set_solver.
  - intros t. by apply (disjoint_rest done comp (next :: rest)).
  - intros st st' E (H1 & H2 & H3 & H4). split_and!; [by eapply wf_cursors|intros ?; eapply last_marked_cursors; [done|by apply H2]|..].
    + intros t. rewrite (has_mark_cursors _ _ t E). apply H3.
    + intros t. rewrite (has_mark_cursors _ _ t E). apply H4.
  - intros t st st' Ht Es (H1 & H2 & H3 & H4).
    pose proof (λ t', stream_cursor_marks t st st' t' Es) as Hmk.
    split_and!; [by eapply stream_cursor_wf|..].
    + intros Hno. destruct (H2 Hno) as (c' & Hc' & t0 & Ht0 & Hn).
      exists c'. split; [done|]. exists t0. split; [done|]. apply Hmk. split; [done|].
      rewrite Hlc in Hc'. injection Hc' as <-. intros ->. by apply (Hdis t).
    + intros t' [? _]%Hmk. by apply H3.
    + intros t' Ht' [? _]%Hmk. by apply (H4 t').
  - split; [done..|]. split_and!; [done|intros ?; by apply Hl|done..].
  - intros r y HGy Hidy Hr. apply HQ; [by apply HSI|done|]. destruct HGy as [[P1 G1 (H1 & H2 & H3 & H4)] _].
    intros ->. destruct (Hr eq_refl) as [Hgc Huc].
    assert (∀ t, t ∈ tables_of (done ++ [comp]) ↔ t ∈ tables_of done ∨ t ∈ comp_Order comp) as Hel.
    { intros t. rewrite !elem_of_tables_of. set_solver. }
    split; [by rewrite <-app_assoc|done|done| | |done|intros ? _; by apply H2].
    + intros t k [Ht|Ht]%Hel; [by apply G1|by apply Hgc].
    + intros t [Ht|Ht]%Hel; [by apply H4|by apply Huc].
Qed.

(** The last component: every other table is in step and unmarked. *)
Lemma reseed_last m done comp Q x :
  m ≠ Marked → between m done [comp] x → idle0 x →
  (∀ r y, SInv m y → idle0 y → (r = inr tt → between m (done ++ [comp]) [] y) → Q r y) →
  csafe (SInv m) (reseed_component s sched comp tt) Q x.
Proof.
  intros Hne [Heq Hp Hw Hg Hu Hm Hl] Hid HQ.
  assert (last comps = Some comp) as Hlc by by rewrite Heq, last_snoc.
  assert (∀ t, planned s t → t ∈ tables_of done ∨ t ∈ comp_Order comp) as Hpl.
  { intros t (c' & Hc' & Ht). rewrite Heq in Hc'. rewrite elem_of_tables_of. set_solver. }
  set (N := λ st, cursors_wf st ∧ ∀ t, has_mark st t → t ∈ comp_Order comp).
  set (M := λ st, m = Lost ∨ some_mark name target (comp_Order comp) st).
  assert (∀ y, GInv (comp_Order comp) (λ t, t ∈ tables_of done) N M y → SInv m y) as HSI.
  { intros y [[P1 G1 (H1 & H2)] Hy]. split; [done|done| | |].
    - intros t Ht. exists comp. split; [rewrite Heq; set_solver|by apply H2].
    - destruct m; [|done|done]. destruct Hy as [Hy|[?|Hy]]; [left|done|right; by exists comp].
      intros t k [Ht|Ht]%Hpl; [by apply G1|by apply Hy].
    - intros t _ Ht. exists comp. split; [done|]. exists t. split; [by apply H2|done]. }
  apply (run_component_safe m (λ t, t ∈ tables_of done) N M); try done.
  - rewrite Heq. set_solver.
  - intros t. by apply (disjoint_rest done comp []).
  - intros st st' E (H1 & H2). split; [by eapply wf_cursors|]. intros t.
    rewrite (has_mark_cursors _ _ t E). apply H2.
  - intros st st' E [?|?]; [by left|right; by eapply some_mark_cursors].
  - intros t st st' Ht Es (H1 & H2). split; [by eapply stream_cursor_wf|].
    intros t' [? _]%(stream_cursor_marks t st st' t' Es). by apply H2.
  - split; [done..|]. split; [done|]. intros t Ht. destruct (Hpl t) as [Hd|]; [by apply Hm| |done].
    by destruct (Hu t Hd).
  - assert (m = Lost ∨ m ≠ Lost) as [|Hno] by (destruct m; auto); [by left|]. right.
    destruct Hl as (c' & Hc' & Hsm); [done..|]. rewrite Hlc in Hc'. by injection Hc' as <-.
  - intros r y HGy Hidy Hr. apply HQ; [by apply HSI|done|]. intros ->.
    destruct (Hr eq_refl) as [Hgc Huc]. destruct HGy as [[P1 G1 (H1 & H2)] _].
    assert (∀ t, t ∈ tables_of (done ++ [comp]) ↔ t ∈ tables_of done ∨ t ∈ comp_Order comp) as Hel.
    { intros t. rewrite !elem_of_tables_of. set_solver. }
    assert (∀ t, ¬ has_mark y.2 t) as Hno by (intros t Ht; by apply (Huc t), Ht; apply H2).
    split; [by rewrite app_nil_r|done|done| |by intros t _|by intros t ?%Hno|done].
    intros t k [Ht|Ht]%Hel; [by apply G1|by apply Hgc].
Qed.

Lemma reseed_all_safe m Q x :
  m ≠ Marked → between m [] comps x → idle0 x →
  (∀ r y, SInv m y → idle0 y → (∀ u, r = inr u → all_planned_good y.1) → Q r y) →
  csafe (SInv m) (for_each comps (reseed_component s sched) tt) Q x.
Proof.
  intros Hne Hb Hid HQ.
  apply (safe_for_each _ _ _ _ (λ rest _ y, idle0 y ∧ ∃ done, between m done rest y)).
  - intros comp rest [] y _ (Hidy & done & Hy).
    assert (∀ r y, SInv m y → idle0 y → (r = inr tt → between m (done ++ [comp]) rest y) →
      match r with
      | inl e => Q (inl e) y
      | inr _ => idle0 y ∧ ∃ done, between m done rest y
      end) as Hend.
    { intros [e|[]] z Hz Hidz Hbz; [by apply HQ|]. split; [done|]. eexists. by apply Hbz. }
    destruct rest as [|next rest]; [by eapply reseed_last|by eapply reseed_inner].
  - intros [] y _ (Hidy & done & Hy). apply HQ; [by eapply between_SInv|done|]. intros _ _ t k Ht.
    destruct Hy as [Heq _ _ Hg _ _ _]. rewrite app_nil_r in Heq. apply Hg. rewrite <-Heq. by apply elem_of_tables_of.
  - by eapply between_SInv.
  - split; [done|]. by exists [].
Qed.

(** The reseed that a mark asks for. *)
Lemma reseed_marked m Q x :
  m ≠ Marked → SInv m x → (m ≠ Lost → last_marked x.2) → idle0 x →
  (∀ r y, SInv m y → idle0 y → (r = None → all_planned_good y.1) → Q r y) →
  csafe (SInv m) (r ← for_each comps (reseed_component s sched) tt;
                  Ret (match r with inl e => Some e | inr _ => None end)) Q x.
Proof.
  intros Hne HS Hl Hid HQ. apply safe_bind. apply reseed_all_safe; [done| |done|].
  { split; [done|apply HS..|by intros ?? ?%elem_of_nil|by intros ? ?%elem_of_nil|apply HS|by auto]. }
  intros r z Hz Hidz Hg. apply safe_ret; [done|]. apply HQ; [done..|].
  destruct r as [e|u]; [done|]. intros _. by apply (Hg u).
Qed.

Lemma maybe_reseed_safe m Q x :
  m ≠ Marked → SInv m x → idle0 x →
  (∀ r y, SInv m y → idle0 y → (r = None → m ≠ Lost → all_planned_good y.1) → Q r y) →
  csafe (SInv m) (maybe_reseed s sched []) Q x.
Proof.
  intros Hne HS Hid HQ. apply safe_bind. cbn [containsTarget existsb]. apply safe_bind.
  apply safe_call; [done|by apply side_call_requires|]. intros r y Hst.
  destruct (side_call_SInv m 0 (ListCursors name) x r y) as [HSy Hidy]; [done..|].
  split; [done|]. apply safe_ret; [done|].
  destruct r as [e|cs]; [apply safe_ret; [done|]; by apply HQ|].
  assert (cs = listCursors name y.2) as ->.
  { destruct Hst as [_ (r0 & s0 & Hlc & Hs)]. simpl in Hlc. injection Hlc as <- <-.
    destruct Hs as [[[= ->] ->]|[[e [=]] _]]. done. }
  pose proof (needs_reseed_iff y.2 (si_wf _ _ HSy)) as Hiff.
  destruct (existsb _ (listCursors name y.2)).
  - destruct (proj1 Hiff eq_refl) as [t Ht]. apply reseed_marked; [done|done| |done|].
    { intros Hno. by apply (si_marks _ _ HSy t). }
    intros r z Hz Hidz Hg. apply HQ; [done..|]. by auto.
  - apply safe_ret; [done|]. apply HQ; [done..|]. intros _ Hno. destruct m; [|done|done].
    destruct (si_good _ _ HSy) as [|(comp & _ & t & _ & Ht)]; [done|].
    assert (false = true) by (apply Hiff; by exists t). done.
Qed.

(** The reseed right after the target was sacrificed. *)
Lemma reseed_sacrificed Q x :
  SInv Marked x → idle0 x →
  (∀ r y, SInv Kept y → idle0 y → (r = None → all_planned_good y.1) → Q r y) →
  csafe (SInv Kept) (maybe_reseed s sched [target]) Q x.
Proof.
  intros HS Hid HQ. unfold maybe_reseed.
  assert (containsTarget [target] target = true) as -> by (simpl; by rewrite bool_decide_eq_true_2).
  apply safe_bind. apply safe_ret; [by apply Marked_Kept|]. apply reseed_marked; [done|by apply Marked_Kept| |done|done].
  intros _. apply HS.
Qed.

Context (Hsweep : so_KeyLister o && so_KeyExister o = false).

Lemma bookkeeping_side m counts st Q x :
  SInv m x → idle0 x → (∀ a y, SInv m y → idle0 y → Q a y) → csafe (SInv m) (bookkeeping s o counts st) Q x.
Proof.
  intros HS Hid HQ. apply safe_bind. apply side_safe; [|done..|].
  { apply only_for_each. intros t []. by apply only_bind. }
  intros _ x1 HS1 Hid1. apply safe_bind. apply side_safe; [apply refreshDBSizes_only|done..|].
  intros st1 x2 HS2 Hid2. apply safe_bind. apply touchCursors_side; [done..|].
  intros _ x3 HS3 Hid3. apply safe_bind. apply side_safe; [apply recordAppliedAll_only|done..|].
  intros _ x4 HS4 Hid4. apply safe_bind. apply side_safe; [apply syncSequences_only|done..|].
  intros st2 x5 HS5 Hid5. unfold deleteReconcile.
  destruct (so_KeyLister o); simpl in Hsweep; [rewrite Hsweep|]; cbn [negb];
    (apply safe_bind; apply safe_ret; [done|]; apply safe_ret; [done|]; by apply HQ).
Qed.

(** A side program, whatever the target's standing. *)
Lemma side_piece {A} (p : prog A) Q w :
  only side_call p → XInv w → idle0 w.1 →
  (∀ a w', XInv w' → idle0 w'.1 → w'.2 = w.2 → Q a w') → ssafe p Q w.
Proof.
  destruct w as [x b]. intros Hp HX Hid HQ. apply (piece (if b then Lost else Kept)); [done|].
  apply side_safe; [done..|]. intros a y HS Hidy _. by apply HQ.
Qed.

Lemma gc_piece m (K : gworld → Prop) (w : gworld) :
  SInv m w.1 → idle0 w.1 → (∀ y, SInv m y → SInv (if w.2 then Lost else Kept) y) →
  (∀ y, SInv m y → idle0 y → K (y, w.2)) → ssafe (gcTombstones s o) (λ _, K) w.
Proof.
  destruct w as [x b]. intros Hm Hid Hw HK. apply (piece m); [done|].
  apply side_safe; [apply gcTombstones_only|done..|]. intros _ y HSy Hidy _. by apply HK.
Qed.

(** The end of the pass, after a successful [Enforce]. *)
Lemma pass_end m b counts rs st Q x :
  (b = false ∧ m = Marked ∧ rs = [target] ∨ rs = [] ∧ m = if b then Lost else Kept) → SInv m x → idle0 x →
  (∀ r y, XInv (y, b) → idle0 y → (r.1 = None → b = false → all_planned_good y.1) → Q r (y, b)) →
  ssafe (st ← bookkeeping s o counts st; r ← maybe_reseed s sched rs; Ret (r, st)) Q (x, b).
Proof.
  intros Hm HS Hid HQ.
  assert (∀ y, SInv m y → SInv (if b then Lost else Kept) y) as Hw.
  { intros y. destruct Hm as [(-> & -> & _)|[_ ->]]; [apply Marked_Kept|done]. }
  apply safe_bind. apply (piece m); [done|]. apply bookkeeping_side; [done..|].
  intros st' y HSy Hidy _. apply safe_bind.
  destruct Hm as [(-> & -> & ->)|[-> ->]].
  - apply (piece Kept); [done|]. apply reseed_sacrificed; [done..|]. intros r z HSz Hidz Hg _.
    apply safe_ret; [done|]. apply HQ; [done..|]. intros Hr _. by apply Hg.
  - apply (piece (if b then Lost else Kept)); [done|]. apply maybe_reseed_safe; [by destruct b|done..|].
    intros r z HSz Hidz Hg _. apply safe_ret; [done|]. apply HQ; [done..|]. intros Hr ->. by apply Hg.
Qed.

Lemma streamOnce_ok st Q w :
  XInv w → idle0 w.1 →
  (∀ r w', XInv w' → idle0 w'.1 →
     (r.1 = None → (w.2 = false → w'.2 = false) ∧ (w'.2 = false → all_planned_good w'.1.1)) → Q r w') →
  ssafe (streamOnce s o sched st) Q w.
Proof.
  destruct w as [x b]. intros HX Hid HQ. apply safe_bind. apply (piece (if b then Lost else Kept)); [done|].
  apply drain_side; [by destruct b|done..|]. intros [drainErr counts] x1 HS1 Hid1 _.
  apply safe_bind. apply Enforce_safe; [done..|]. intros enf w2 HX2 Hid2 Henf.
  apply safe_bind.
  destruct drainErr as [e|].
  { apply (gc_piece (if w2.2 then Lost else Kept)); [done..|]. intros y HSy Hidy.
    apply safe_bind. apply side_piece; [apply reportDrainFailure_only|done..|]. intros _ w4 HX4 Hid4 _.
    apply safe_bind. apply side_piece; [done..|]. intros _ w5 HX5 Hid5 _.
    apply safe_bind. apply side_piece; [apply reconnectIfDown_only|done..|]. intros _ w6 HX6 Hid6 _.
    apply safe_ret; [done|]. by apply HQ. }
  destruct enf as [e|res].
  { apply (gc_piece (if w2.2 then Lost else Kept)); [done..|]. intros y HSy Hidy. apply safe_ret; [done|]. by apply HQ. }
  destruct (Henf res eq_refl) as [[-> Hb]|(-> & Hb & HM)].
  - apply (gc_piece (if w2.2 then Lost else Kept)); [done..|]. intros y HSy Hidy.
    eapply pass_end; [by right|done..|]. intros r z HXz Hidz Hg. apply HQ; [done..|].
    intros Hr. simpl in *. rewrite Hb in *. by auto.
  - apply (gc_piece Marked); [done|done|intros y; rewrite Hb; apply Marked_Kept|]. intros y HSy Hidy. rewrite Hb.
    eapply pass_end; [by left|done..|]. intros r z HXz Hidz Hg. apply HQ; [done..|]. by auto.
Qed.
End safety.

(** What the theorems on streaming assume of a sync: it is the one the contract is about; its
    replicable tables are those of its components, each in one component and with a key, and no
    component is empty; without the NULL-then-fill apply no component has columns to leave out;
    the copy has a schedule and does not use ctid ranges; and the engine is driven by capture
    (it has no sweep for deletes). *)
Record streamable (s : Syncer) (o : StreamOpts) (sched : list Chunk → list (nat * nat)) : Prop := {
  sb_target : sync_target = sy_Target s;
  sb_tables t : t ∈ sy_Replicable s ↔ planned s t;
  sb_nonempty comp : comp ∈ sy_Components s → comp_Order comp ≠ [];
  sb_nodup : NoDup (sy_Components s ≫= comp_Order);
  sb_keyed t : planned s t → 0 < key_arity t;
  sb_cyclic : so_NullFill o = false → ∀ comp, comp ∈ sy_Components s → cyc_of (comp_Order comp) = ∅;
  sb_sched : schedules sched;
  sb_method : opt_Method (sy_ChunkOpts s) ≠ Some ChunkCTID;
  sb_sweep : so_KeyLister o && so_KeyExister o = false
}.

(** C8: the streaming loop is safe for any number of passes, purges over the retention cap
    included. The flag of the world tells that a purge has sacrificed the target and that
    [Enforce] has not yet recorded it as marked. From any state in which the marks are in
    planned tables and the planned rows are in step or the last component is marked for a
    reseed ([XInv]), with any results of the calls and any writes of the applications, at every
    point between two calls (so wherever a crash stops the daemon) one of the two still holds,
    or the flag is up: an error or a crash between the purge and the last mark is the one way
    out ([Reseed.Enforce_failure_loses_mark]), and the next sacrifice that is recorded ends
    it. No transaction is left open. *)
Theorem Stream_safe (s : Syncer) (o : StreamOpts) (sched : list Chunk → list (nat * nat))
    (passes : nat) (interval : Z) (st : StreamState) (w : gworld) :
  streamable s o sched → XInv s w → idle0 w.1 →
  safe stream_step stream_requires (XInv s) (Stream s o sched passes interval st) (λ _ w', idle0 w'.1) w.
Proof.
  intros [] HX Hid. revert st w HX Hid. induction passes as [|n IH]; intros st w HX Hid; cbn [Stream].
  { by apply safe_ret. }
  apply safe_bind. apply side_piece; [done..|]. intros r w1 HX1 Hid1 _.
  destruct r as [e|u]; [by apply safe_ret|].
  apply safe_bind. apply streamOnce_ok; [done..|]. intros [err st'] w2 HX2 Hid2 _.
  destruct err as [e|]; [|by apply IH]. destruct (IsCanceled e); [by apply safe_ret|].
  apply safe_bind. apply side_piece; [apply log_only|done..|]. intros _ w3 HX3 Hid3 _. by apply IH.
Qed.

(** C7: a streaming pass that starts with the flag down and returns no error leaves every row of
    every planned table in step with the source or with an unconsumed delta, also when the
    target was marked for a reseed before it and when a purge of the pass itself sacrificed it
    (it is marked and reseeded then); and a pass leaves no transaction open. Between any two
    calls the rows are in step, the mark is there, or the flag is up ([XInv]). *)
Theorem streamOnce_in_step (s : Syncer) (o : StreamOpts) (sched : list Chunk → list (nat * nat))
    (st : StreamState) (x : world) :
  streamable s o sched → SInv s Kept x → idle0 x →
  safe stream_step stream_requires (XInv s) (streamOnce s o sched st)
    (λ r w, idle0 w.1 ∧
       (r.1 = None → w.2 = false ∧ ∀ t k, planned s t → synced w.1.1 t k ∨ dirty w.1.1 t k)) (x, false).
Proof.
  intros [] HS Hid. apply streamOnce_ok; [done..|]. intros r w _ Hidw Hg. split; [done|].
  intros Hr. destruct (Hg Hr) as [Hf Hgood]. split; [by apply Hf|]. by apply Hgood, Hf.
Qed.

Section stale_marks.
Context (s : Syncer) (sched : list Chunk → list (nat * nat)).
Context (Hsched : schedules sched) (Hmethod : opt_Method (sy_ChunkOpts s) ≠ Some ChunkCTID).
Context (Hkeyed : ∀ t, planned s t → 0 < key_arity t).
Context (Hnonempty : ∀ comp, comp ∈ sy_Components s → comp_Order comp ≠ []).
Abbreviation name := (sy_Name s).
Abbreviation target := (sy_Target s).
Abbreviation comps := (sy_Components s).

(** ** A mark that no pass clears *)

Definition stale (t : TableRef) (st : store) : Prop := cursors_wf s st ∧ has_mark s st t.

Lemma stale_cursors t st st' : st_cursors st' = st_cursors st → stale t st → stale t st'.
Proof. intros E [Hw Hm]. split; [by eapply wf_cursors|by rewrite has_mark_cursors]. Qed.

(** A marked cursor of a table that is in no component survives every reseed, in any
    execution: the pass re-copies all components, and the question whether the target
    needs a reseed is answered yes again on the next pass. The reseed command marks
    every cursor of the target, so also those of tables that have left the
    selection. *)
Theorem stale_mark_reseeds_again (t : TableRef) (x : world) :
  pend_ok x.1 → cursors_wf s x.2 → has_mark s x.2 t → ¬ planned s t →
  safe calm_step calm_requires (λ y, pend_ok y.1 ∧ stale t y.2) (maybe_reseed s sched [])
    (λ _ y, existsb (λ cur, bool_decide (cur_Target cur = target) && cur_NeedsReseed cur)
              (listCursors name y.2) = true) x.
Proof.
  intros Hp Hw Hm Hn. set (J := λ y : world, pend_ok y.1 ∧ stale t y.2).
  assert (J x) as Hx by done.
  assert (∀ y : world, J y → existsb (λ cur, bool_decide (cur_Target cur = target) && cur_NeedsReseed cur)
              (listCursors name y.2) = true) as Hyes.
  { intros y [_ [H1 H2]]. apply needs_reseed_iff; [done|]. by exists t. }
  apply safe_bind. cbn [containsTarget existsb]. apply safe_bind. apply safe_call; [done|by split_and!; [..|right]|].
  intros r y [R (r0 & s0 & Hlc & Hs)]. cbn [is_store_call] in *. simpl in Hlc. injection Hlc as <- <-.
  assert (J y) as Hy.
  { split; [by apply rely_calm in R as [_ ? _]|].
    assert (y.2 = x.2) as -> by by destruct Hs as [[_ ->]|[_ [-> | ->]]]. done. }
  split; [done|]. apply safe_ret; [done|]. destruct r as [e|cs]; [apply safe_ret; [done|]; by apply Hyes|].
  destruct Hs as [[[= ->] Hs]|[[e [=]] _]]. rewrite (Hyes x Hx). apply safe_bind.
  apply (safe_for_each _ _ _ _ (λ rest _ y, ∀ comp, comp ∈ rest → comp ∈ comps)).
  - intros comp rest [] z Hz Hrest. apply safe_bind.
    apply safe_calm_world; [eapply only_mono; [|apply Run_only]; intros []; try done; by apply bool_decide_eq_false|].
    apply (safe_weaken _ _ (GInv (comp_Order comp) (λ _, False) (stale t) (stale t))).
    { intros w [[P1 _ P3] _]. done. }
    eapply safe_mono; [|apply Run_ok; try done].
    + intros r w [[P1 _ P3] _] _. apply safe_ret; [done|]. destruct r as [e|].
      * apply safe_ret; [done|]. by apply Hyes.
      * intros c Hc. apply Hrest. by right.
    + intros st st'. apply stale_cursors.
    + intros st st'. apply stale_cursors.
    + intros t' st st' Ht' Es [H1 H2]. split; [by eapply stream_cursor_wf|].
      apply (stream_cursor_marks s _ _ _ _ Es). split; [done|]. intros ->. apply Hn. exists comp.
      split; [apply Hrest; by left|done].
    + intros t' Ht'. apply Hkeyed. exists comp. split; [apply Hrest; by left|done].
    + apply Hnonempty, Hrest. by left.
    + destruct Hz. by split.
    + apply Hz.
  - intros [] z Hz _. apply safe_ret; [done|]. by apply Hyes.
  - done.
  - done.
Qed.
End stale_marks.
End pass.

(** ** A reseed without a mark *)

(** The target empties a table; the state store is down. *)
Definition outage_handler `{Schema} (c : nat) (o : call) (x : rows * store)
    : result (resp o) * (rows * store) :=
  match o return result (resp o) * (rows * store) with
  | DeleteRange t lo hi => (inr tt, (deleteRows (in_range (key_lt t) lo hi) t x.1, x.2))
  | _ => (inl (Failure "state store is down"), x)
  end.

(** The pass reseeds every component as soon as one cursor of the target is marked. A
    component without a mark of its own that fails between its wipe and the end of its
    re-copy stays empty on the target: the cursors, the copy progress and the marks are
    as they were, so nothing re-copies it. *)
Theorem unmarked_reseed_loses_rows `{Schema} (s : Syncer) (sched : list Chunk → list (nat * nat))
    (t : TableRef) (comp : Engine.Component) (tgt : rows) (st : store) :
  sy_Workers s ≠ 0 → comp_Order comp = [t] →
  ∃ e tgt', exec outage_handler (reseed_component s sched comp tt) (tgt, st) = (inl e, (tgt', st)) ∧
    ∀ k, tgt' !! (t, k) = None.
Proof.
  intros Hw Ho. eexists _, _. split.
  - unfold reseed_component, Run. rewrite Ho. simpl. apply Nat.eqb_neq in Hw. rewrite Hw. reflexivity.
  - intros k. rewrite lookup_deleteRows. by rewrite decide_True.
Qed.

(** ** Witnesses *)

Definition sample_opts : StreamOpts :=
  mkOpts 2 (mkRetention 0 0) true true false true true true true false false.

Definition sample_state : StreamState := mkSS None None ∅.

Lemma sample_planned copier t : planned (sample_syncer copier) t ↔ t = users.
Proof.
  split; [by intros (comp & ->%list_elem_of_singleton & ?%list_elem_of_singleton)|].
  intros ->. exists (mkComponent [users] [users] [users]). split; by left.
Qed.

Lemma marked_SInv : SInv (sample_syncer true) Kept (pg_view sample_world, marked_store).
Proof.
  assert (last_marked (sample_syncer true) marked_store) as Hl.
  { exists (mkComponent [users] [users] [users]). split; [done|]. exists users. split; [by left|done]. }
  split; [exact sample_pend_ok| | |by right|by intros].
  - intros tg t cur. simpl. rewrite lookup_singleton_Some. by intros [[= <- <-] <-].
  - intros t Ht. apply sample_planned. unfold has_mark, loadCursor in Ht. simpl in Ht.
    destruct (decide (t = users)) as [|Hne]; [done|]. rewrite lookup_singleton_ne in Ht; [done|]. intros E. apply Hne. by injection E as ->.
Qed.

Lemma sample_NoDup copier : NoDup (sy_Components (sample_syncer copier) ≫= comp_Order).
Proof. apply (bool_decide_unpack _). vm_compute. exact I. Qed.

Lemma sample_nonempty copier comp : comp ∈ sy_Components (sample_syncer copier) → comp_Order comp ≠ [].
Proof. by intros ->%list_elem_of_singleton. Qed.

Lemma sample_streamable : streamable (sample_syncer true) sample_opts serial.
Proof.
  split; [done| |exact (sample_nonempty true)|exact (sample_NoDup true)|intros t _; simpl; lia|done|
    exact serial_schedules|done|done].
  intros t. rewrite sample_planned. apply list_elem_of_singleton.
Qed.

Lemma streamOnce_in_step_witness :
  safe stream_step stream_requires (XInv (sample_syncer true))
    (streamOnce (sample_syncer true) sample_opts serial sample_state)
    (λ r w, idle0 w.1 ∧ (r.1 = None → w.2 = false ∧
       ∀ t k, planned (sample_syncer true) t → synced w.1.1 t k ∨ dirty w.1.1 t k))
    (pg_view sample_world, marked_store, false).
Proof.
  apply (streamOnce_in_step (sample_syncer true) sample_opts serial).
  - exact sample_streamable.
  - exact marked_SInv.
  - reflexivity.
Defined.

(** Also when the target was sacrificed and is not marked yet. *)
Lemma Stream_safe_witness :
  safe stream_step stream_requires (XInv (sample_syncer true))
    (Stream (sample_syncer true) sample_opts serial 3 0 sample_state) (λ _ w, idle0 w.1)
    (pg_view sample_world, marked_store, true).
Proof.
  apply (Stream_safe (sample_syncer true) sample_opts serial).
  - exact sample_streamable.
  - exact (SInv_Lost _ Kept _ marked_SInv).
  - reflexivity.
Defined.

Definition dropped : TableRef := mkRef "app" "dropped".
Definition stale_store : store :=
  mkStore (st_syncs marked_store) ∅
    {[ ("s1", "replica", dropped) := mkCursor "replica" dropped PhaseStreaming 0%Z true ]} [].

Lemma stale_mark_reseeds_again_witness :
  safe calm_step calm_requires (λ y, pend_ok y.1 ∧ stale (sample_syncer true) dropped y.2)
    (maybe_reseed (sample_syncer true) serial [])
    (λ _ y, existsb (λ cur, bool_decide (cur_Target cur = "replica") && cur_NeedsReseed cur)
              (listCursors "s1" y.2) = true)
    (pg_view sample_world, stale_store).
Proof.
  apply (stale_mark_reseeds_again (sample_syncer true) serial) with (t := dropped).
  - exact serial_schedules.
  - discriminate.
  - intros t _. simpl. lia.
  - exact (sample_nonempty true).
  - exact sample_pend_ok.
  - intros tg t cur. simpl. rewrite lookup_singleton_Some. by intros [[= <- <-] <-].
  - reflexivity.
  - intros H. apply sample_planned in H. discriminate.
Defined.

Lemma unmarked_reseed_loses_rows_witness :
  ∃ e tgt', exec outage_handler
      (reseed_component (sample_syncer true) serial (mkComponent [users] [users] []) tt)
      ({[ (users, [VText "1"]) := row_of "1" "ann" ]}, fresh_store) = (inl e, (tgt', fresh_store)) ∧
    ∀ k, tgt' !! (users, k) = None.
Proof. apply (unmarked_reseed_loses_rows (sample_syncer true) serial users); [discriminate|reflexivity]. Defined.
End Stream.
