(* ===== verification/RedisFrame.v ===== *)
(** * The Redis wire framing ([internal/engine/redis/framing.go])

    Keys and values travel from the source to the target as length-prefixed binary
    records. Bytes are [ascii], a Go byte slice is a list of them, and an
    [io.Reader] is the bytes it still delivers with the error that follows them. *)

From S2P Require Import Prelude.

Module RedisFrame.

Abbreviation bytes := (list ascii).

(** ** Big-endian integers ([encoding/binary]) *)

Definition byte_of (z : Z) : ascii := Ascii.ascii_of_N (Z.to_N (z mod 256)).
Definition byte_val (a : ascii) : Z := Z.of_N (N_of_ascii a).

(** [AppendUint16/32/64]: the [n] low bytes of [z], highest first. *)
Fixpoint be_bytes (n : nat) (z : Z) : bytes :=
  match n with
  | 0 => []
  | S n => byte_of (z / 256 ^ Z.of_nat n) :: be_bytes n z
  end.

Definition be_value (l : bytes) : Z := foldl (λ a b, a * 256 + byte_val b)%Z 0%Z l.

(** The conversions to and from a signed integer of [w] bits. *)
Definition to_unsigned (w z : Z) : Z := z mod 2 ^ w.
Definition to_signed (w z : Z) : Z := (z + 2 ^ (w - 1)) mod 2 ^ w - 2 ^ (w - 1).

(** ** Records *)

Definition flagAbsTTL : Z := 1.
Definition flagMesh : Z := 2.
Definition flagDeleted : Z := 4.

Record version := mkVersion {
  ver_phys : Z;
  ver_log : Z;
  ver_node : bytes;
  ver_deleted : bool;
  ver_vhash : Z
}.

Definition zeroVersion : version := mkVersion 0 0 [] false 0.

Record record := mkRecord {
  rec_key : bytes;
  rec_ttl : Z;
  rec_flags : Z;
  rec_dump : bytes;
  rec_ver : version
}.

Definition has_flag (flags f : Z) : bool := negb (Z.land flags f =? 0)%Z.

(** [syncWriter.write]: the bytes of one record. *)
Definition write (rec : record) : bytes :=
  be_bytes 4 (Z.of_nat (length (rec_key rec))) ++ rec_key rec ++
  be_bytes 8 (to_unsigned 64 (rec_ttl rec)) ++ [byte_of (rec_flags rec)] ++
  (if has_flag (rec_flags rec) flagMesh then
     be_bytes 8 (to_unsigned 64 (ver_phys (rec_ver rec))) ++
     be_bytes 4 (to_unsigned 32 (ver_log (rec_ver rec))) ++
     be_bytes 8 (ver_vhash (rec_ver rec)) ++
     be_bytes 2 (Z.of_nat (length (ver_node (rec_ver rec)))) ++ ver_node (rec_ver rec)
   else []) ++
  be_bytes 4 (Z.of_nat (length (rec_dump rec))) ++ rec_dump rec.

(** ** Readers *)

Inductive ioError :=
| EOF
| ErrUnexpectedEOF
| Truncated (e : ioError)       (** fmt.Errorf("redis framing: truncated record: %w", e) *)
| ReadError (msg : string).

#[global] Instance ioError_eq_dec : EqDecision ioError.
Proof. solve_decision. Defined.

Record reader := mkReader { rd_bytes : bytes; rd_end : ioError }.

(** [io.ReadFull] with a buffer of [n] bytes. *)
Definition readFull (n : nat) (r : reader) : ioError + bytes * reader :=
  if decide (n <= length (rd_bytes r)) then
    inr (take n (rd_bytes r), mkReader (drop n (rd_bytes r)) (rd_end r))
  else if Nat.eqb (length (rd_bytes r)) 0 then inl (rd_end r)
  else inl (if decide (rd_end r = EOF) then ErrUnexpectedEOF else rd_end r).

(** [framingEOF] *)
Definition framingEOF (e : ioError) : ioError :=
  if decide (e = EOF) then Truncated ErrUnexpectedEOF else e.

Definition read_framed {A} (n : nat) (r : reader) (k : bytes → reader → ioError + A) : ioError + A :=
  match readFull n r with inl e => inl (framingEOF e) | inr (b, r) => k b r end.

(** The mesh part of a record. *)
Definition read_version (flags : Z) (r : reader) (k : version → reader → ioError + record * reader)
    : ioError + record * reader :=
  if has_flag flags flagMesh then
    read_framed 22 r (λ mv r,
      read_framed (Z.to_nat (be_value (take 2 (drop 20 mv)))) r (λ node r,
        k (mkVersion (to_signed 64 (be_value (take 8 mv))) (to_signed 32 (be_value (take 4 (drop 8 mv))))
             node (has_flag flags flagDeleted) (be_value (take 8 (drop 12 mv)))) r))
  else k zeroVersion r.

Definition readRecord (r : reader) : ioError + record * reader :=
  match readFull 4 r with
  | inl e => inl e
  | inr (hdr, r) =>
      read_framed (Z.to_nat (be_value hdr)) r (λ key r,
        read_framed 9 r (λ mid r,
          let ttl := to_signed 64 (be_value (take 8 mid)) in
          let flags := default 0%Z (byte_val <$> mid !! 8) in
          read_version flags r (λ ver r,
            read_framed 4 r (λ dl r,
              read_framed (Z.to_nat (be_value dl)) r (λ dump r,
                inr (mkRecord key ttl flags dump ver, r))))))
  end.

(** The loop of [restoreStream] and [stageUpsertCluster]: all records up to a clean
    end. Each record takes at least one byte, so the number of bytes bounds it. *)
Fixpoint read_loop (fuel : nat) (r : reader) (acc : list record) : option (ioError + list record) :=
  match fuel with
  | 0 => None
  | S fuel =>
      match readRecord r with
      | inl e => Some (if decide (e = EOF) then inr acc else inl e)
      | inr (rec, r) => read_loop fuel r (acc ++ [rec])
      end
  end.

Definition readAll (r : reader) : option (ioError + list record) :=
  read_loop (S (length (rd_bytes r))) r [].

(** ** Integers *)

Lemma byte_val_of z : byte_val (byte_of z) = (z mod 256)%Z.
Proof.
  unfold byte_val, byte_of. pose proof (Z.mod_pos_bound z 256 eq_refl).
  rewrite N_ascii_embedding by lia. lia.
Qed.

Lemma byte_val_bound a : (0 <= byte_val a < 256)%Z.
Proof. unfold byte_val. pose proof (N_ascii_bounded a). lia. Qed.

Lemma be_length n z : length (be_bytes n z) = n.
Proof. induction n as [|n IH]; simpl; [done|]. by rewrite IH. Qed.

Lemma foldl_be_acc l a :
  foldl (λ a b, a * 256 + byte_val b)%Z a l = (a * 256 ^ Z.of_nat (length l) + be_value l)%Z.
Proof.
  unfold be_value. revert a. induction l as [|x l IH]; intros a; cbn [foldl length]; [lia|].
  rewrite IH, (IH (0 * 256 + byte_val x)%Z). replace (Z.of_nat (S (length l))) with (1 + Z.of_nat (length l))%Z by lia.
  rewrite Z.pow_add_r by lia. lia.
Qed.

Lemma be_value_bytes n z : be_value (be_bytes n z) = (z mod 256 ^ Z.of_nat n)%Z.
Proof.
  induction n as [|n IH]; [by rewrite Z.mod_1_r|].
  cbn [be_bytes]. unfold be_value at 1. cbn [foldl]. rewrite foldl_be_acc, IH, be_length, byte_val_of.
  replace (Z.of_nat (S n)) with (Z.of_nat n + 1)%Z by lia. rewrite Z.pow_add_r by lia.
  assert (0 < 256 ^ Z.of_nat n)%Z by (apply Z.pow_pos_nonneg; lia).
  rewrite Z.pow_1_r, Z.rem_mul_r by lia. ring.
Qed.

Lemma be_value_small n z : (0 <= z < 256 ^ Z.of_nat n)%Z → be_value (be_bytes n z) = z.
Proof. intros H. rewrite be_value_bytes. by apply Z.mod_small. Qed.

Lemma signed_unsigned w z :
  (0 < w)%Z → (- 2 ^ (w - 1) <= z < 2 ^ (w - 1))%Z → to_signed w (to_unsigned w z) = z.
Proof.
  intros Hw Hz. unfold to_signed, to_unsigned.
  assert (2 ^ w = 2 * 2 ^ (w - 1))%Z as E.
  { replace w with (1 + (w - 1))%Z at 1 by lia. rewrite Z.pow_add_r by lia. lia. }
  rewrite Z.add_mod_idemp_l by lia. rewrite Z.mod_small by lia. lia.
Qed.

(** ** Reading what was written *)

(** A prefix of the right length is read back, whatever follows. *)
Lemma readFull_app n b r e :
  length b = n → readFull n (mkReader (b ++ r) e) = inr (b, mkReader r e).
Proof.
  intros <-. unfold readFull. simpl. rewrite decide_True by (rewrite length_app; lia).
  by rewrite take_app_length, drop_app_length.
Qed.

Lemma read_framed_app {A} n b r e (k : bytes → reader → ioError + A) :
  length b = n → read_framed n (mkReader (b ++ r) e) k = k b (mkReader r e).
Proof. intros H. unfold read_framed. by rewrite readFull_app. Qed.

(** What [write] can represent. *)
Record record_ok (rec : record) : Prop := {
  ok_key : (Z.of_nat (length (rec_key rec)) < 2 ^ 32)%Z;
  ok_dump : (Z.of_nat (length (rec_dump rec)) < 2 ^ 32)%Z;
  ok_ttl : (- 2 ^ 63 <= rec_ttl rec < 2 ^ 63)%Z;
  ok_flags : (0 <= rec_flags rec < 256)%Z;
  ok_plain : has_flag (rec_flags rec) flagMesh = false → rec_ver rec = zeroVersion;
  ok_mesh : has_flag (rec_flags rec) flagMesh = true →
    (- 2 ^ 63 <= ver_phys (rec_ver rec) < 2 ^ 63)%Z ∧ (- 2 ^ 31 <= ver_log (rec_ver rec) < 2 ^ 31)%Z ∧
    (0 <= ver_vhash (rec_ver rec) < 2 ^ 64)%Z ∧ (Z.of_nat (length (ver_node (rec_ver rec))) < 2 ^ 16)%Z ∧
    ver_deleted (rec_ver rec) = has_flag (rec_flags rec) flagDeleted
}.

Lemma to_unsigned_bound w z : (0 <= w)%Z → (0 <= to_unsigned w z < 2 ^ w)%Z.
Proof. intros Hw. apply Z.mod_pos_bound, Z.pow_pos_nonneg; lia. Qed.

Lemma be_signed n w z :
  (0 < w)%Z → (256 ^ Z.of_nat n = 2 ^ w)%Z → (- 2 ^ (w - 1) <= z < 2 ^ (w - 1))%Z →
  to_signed w (be_value (be_bytes n (to_unsigned w z))) = z.
Proof.
  intros Hw Hn Hz. rewrite be_value_small; [by apply signed_unsigned|].
  rewrite Hn. apply to_unsigned_bound. lia.
Qed.

Lemma read_version_write rec rest e k :
  record_ok rec →
  read_version (rec_flags rec)
    (mkReader ((if has_flag (rec_flags rec) flagMesh then
       be_bytes 8 (to_unsigned 64 (ver_phys (rec_ver rec))) ++
       be_bytes 4 (to_unsigned 32 (ver_log (rec_ver rec))) ++
       be_bytes 8 (ver_vhash (rec_ver rec)) ++
       be_bytes 2 (Z.of_nat (length (ver_node (rec_ver rec)))) ++ ver_node (rec_ver rec)
     else []) ++ rest) e) k = k (rec_ver rec) (mkReader rest e).
Proof.
  intros Hok. unfold read_version. destruct (has_flag (rec_flags rec) flagMesh) eqn:Hm.
  2: { by rewrite (ok_plain _ Hok Hm). }
  destruct (ok_mesh _ Hok Hm) as (Hp & Hl & Hv & Hn & Hd).
  destruct (rec_ver rec) as [phys lg node del vh].
  cbn [ver_phys ver_log ver_node ver_deleted ver_vhash] in *.
  set (b1 := be_bytes 8 _). set (b2 := be_bytes 4 _). set (b3 := be_bytes 8 _). set (b4 := be_bytes 2 _).
  assert (length b1 = 8 ∧ length b2 = 4 ∧ length b3 = 8 ∧ length b4 = 2) as (L1 & L2 & L3 & L4)
    by (unfold b1, b2, b3, b4; by rewrite !be_length).
  replace ((b1 ++ b2 ++ b3 ++ b4 ++ node) ++ rest) with ((b1 ++ b2 ++ b3 ++ b4) ++ node ++ rest)
    by by rewrite <-!app_assoc.
  rewrite read_framed_app by (rewrite !length_app; lia).
  assert (take 8 (b1 ++ b2 ++ b3 ++ b4) = b1) as E1 by by apply take_app_length'.
  assert (drop 8 (b1 ++ b2 ++ b3 ++ b4) = b2 ++ b3 ++ b4) as D1 by by apply drop_app_length'.
  assert (drop 12 (b1 ++ b2 ++ b3 ++ b4) = b3 ++ b4) as D2
    by (rewrite app_assoc; apply drop_app_length'; rewrite length_app; lia).
  assert (drop 20 (b1 ++ b2 ++ b3 ++ b4) = b4) as D3
    by (rewrite !app_assoc; apply drop_app_length'; rewrite !length_app; lia).
  rewrite E1, D1, D2, D3. rewrite (take_ge b4) by lia. rewrite !take_app_length' by done.
  assert (be_value b4 = Z.of_nat (length node)) as E4 by (apply be_value_small; simpl; lia).
  rewrite E4, Nat2Z.id, read_framed_app by done.
  unfold b1, b2, b3. rewrite !be_signed by (done || lia). rewrite be_value_small by done. by rewrite <-Hd.
Qed.

Lemma readRecord_write rec rest e :
  record_ok rec → readRecord (mkReader (write rec ++ rest) e) = inr (rec, mkReader rest e).
Proof.
  intros Hok. pose proof Hok as [Hk Hd Ht Hf _ _]. unfold readRecord, write. rewrite <-!app_assoc.
  rewrite readFull_app by apply be_length. rewrite be_value_small by (simpl; lia).
  rewrite Nat2Z.id, read_framed_app by done.
  rewrite (app_assoc (be_bytes 8 _)). rewrite read_framed_app by (rewrite length_app, be_length; done).
  rewrite take_app_length' by by rewrite be_length. rewrite lookup_app_r by (rewrite be_length; done).
  rewrite be_length. cbn [Nat.sub lookup list_lookup fmap option_fmap option_map default].
  rewrite byte_val_of, Z.mod_small by lia. rewrite be_signed by (done || lia).
  cbn [id]. rewrite read_version_write by done.
  rewrite read_framed_app by apply be_length. rewrite be_value_small by (simpl; lia).
  rewrite Nat2Z.id, read_framed_app by done. by destruct rec.
Qed.

(** ** Truncation *)

(** More bytes do not change what has been read. *)
Lemma readFull_extend n r b r' q e :
  readFull n r = inr (b, r') →
  readFull n (mkReader (rd_bytes r ++ q) e) = inr (b, mkReader (rd_bytes r' ++ q) e).
Proof.
  unfold readFull. case_decide as Hl; [|by case_match]. intros [= <- <-]. simpl.
  rewrite decide_True by (rewrite length_app; lia). by rewrite take_app_le, drop_app_le by lia.
Qed.

Lemma read_framed_extend {A} n r (k : bytes → reader → ioError + A * reader) a r' q e :
  (∀ b r a r', k b r = inr (a, r') →
     k b (mkReader (rd_bytes r ++ q) e) = inr (a, mkReader (rd_bytes r' ++ q) e)) →
  read_framed n r k = inr (a, r') →
  read_framed n (mkReader (rd_bytes r ++ q) e) k = inr (a, mkReader (rd_bytes r' ++ q) e).
Proof.
  intros Hk. unfold read_framed. destruct (readFull n r) as [?|[b r1]] eqn:E; [done|].
  intros H. rewrite (readFull_extend _ _ _ _ q e E). by apply Hk.
Qed.

Lemma readRecord_extend r rec r' q e :
  readRecord r = inr (rec, r') →
  readRecord (mkReader (rd_bytes r ++ q) e) = inr (rec, mkReader (rd_bytes r' ++ q) e).
Proof.
  unfold readRecord. destruct (readFull 4 r) as [?|[hdr r1]] eqn:E; [done|].
  rewrite (readFull_extend _ _ _ _ q e E). apply read_framed_extend. intros key r2 rec2 r2'.
  apply read_framed_extend. intros mid r3 rec3 r3'. unfold read_version.
  assert (∀ ver r a r', read_framed 4 r (λ dl r, read_framed (Z.to_nat (be_value dl)) r (λ dump r,
      inr (mkRecord key (to_signed 64 (be_value (take 8 mid))) (default 0%Z (byte_val <$> mid !! 8)) dump ver, r)))
      = inr (a, r') →
    read_framed 4 (mkReader (rd_bytes r ++ q) e) (λ dl r, read_framed (Z.to_nat (be_value dl)) r (λ dump r,
      inr (mkRecord key (to_signed 64 (be_value (take 8 mid))) (default 0%Z (byte_val <$> mid !! 8)) dump ver, r)))
      = inr (a, mkReader (rd_bytes r' ++ q) e)) as Hend.
  { intros ver r4 a r4'. apply read_framed_extend. intros dl r5 a5 r5'. apply read_framed_extend.
    intros dump r6 a6 r6'. by intros [= <- <-]. }
  destruct (has_flag _ flagMesh); [|by apply Hend].
  apply read_framed_extend. intros mv r4 a4 r4'. apply read_framed_extend. intros node r5 a5 r5'. apply Hend.
Qed.

(** A record in progress never ends with a bare EOF. *)
Lemma read_framed_eof {A} n r (k : bytes → reader → ioError + A) :
  (∀ b r, k b r ≠ inl EOF) → read_framed n r k ≠ inl EOF.
Proof.
  intros Hk. unfold read_framed. destruct (readFull n r) as [e|[b r1]]; [|apply Hk].
  unfold framingEOF. case_decide; [done|]. congruence.
Qed.

Lemma readRecord_eof r : readRecord r = inl EOF → rd_bytes r = [].
Proof.
  unfold readRecord. destruct (readFull 4 r) as [e|[hdr r1]] eqn:E.
  - unfold readFull in E. case_decide; [done|]. intros [= ->].
    destruct (Nat.eqb_spec (length (rd_bytes r)) 0) as [H0|_]; [by apply nil_length_inv in H0|].
    case_decide; congruence.
  - intros H. exfalso. revert H. apply read_framed_eof. intros key r2. apply read_framed_eof.
    intros mid r3. unfold read_version. assert (∀ ver r, read_framed 4 r (λ dl r, read_framed (Z.to_nat (be_value dl)) r
      (λ dump r, inr (mkRecord key (to_signed 64 (be_value (take 8 mid))) (default 0%Z (byte_val <$> mid !! 8)) dump ver, r)))
      ≠ inl EOF) as Hend by (intros; by do 2 (apply read_framed_eof; intros)).
    destruct (has_flag _ flagMesh); [|done]. by do 2 (apply read_framed_eof; intros).
Qed.

(** A truncated record is never taken for a record nor for the end of the stream: on
    every proper prefix of a record's bytes the reader fails, and with an error other
    than a clean end unless the prefix is empty. *)
Theorem readRecord_truncated (rec : record) (p q : bytes) :
  record_ok rec → write rec = p ++ q → q ≠ [] →
  ∃ e, readRecord (mkReader p EOF) = inl e ∧ (e = EOF ↔ p = []).
Proof.
  intros Hok Hw Hq. destruct (readRecord (mkReader p EOF)) as [e|[rec' r']] eqn:E.
  - exists e. split; [done|]. split; [intros ->; by apply readRecord_eof in E|]. intros ->.
    vm_compute in E. congruence.
  - exfalso. apply (readRecord_extend _ _ _ q EOF) in E. cbn [rd_bytes] in E. rewrite <-Hw in E.
    pose proof (readRecord_write rec [] EOF Hok) as H. rewrite app_nil_r in H. rewrite E in H.
    injection H as _ H. by apply app_nil in H as [_ ?].
Qed.

(** ** Streams *)

Lemma write_nonempty rec : 0 < length (write rec).
Proof. unfold write. rewrite length_app, be_length. lia. Qed.

Lemma read_loop_writes fuel recs acc :
  Forall record_ok recs → length (recs ≫= write) < fuel →
  read_loop fuel (mkReader (recs ≫= write) EOF) acc = Some (inr (acc ++ recs)).
Proof.
  revert recs acc. induction fuel as [|fuel IH]; intros recs acc Hok Hf; [lia|]. cbn [read_loop].
  destruct recs as [|rec recs]; [by rewrite app_nil_r|]. apply Forall_cons in Hok as [Hr Hok].
  rewrite bind_cons in *. rewrite readRecord_write by done. pose proof (write_nonempty rec).
  rewrite IH; [by rewrite <-app_assoc|done|]. rewrite length_app in Hf. lia.
Qed.

(** C28: the framing round-trips: reading a stream of written records up to its end
    terminates and returns exactly the records, in order, with every byte of keys and
    values, every time-to-live and every mesh version as they were. *)
Theorem readAll_writes (recs : list record) :
  Forall record_ok recs → readAll (mkReader (recs ≫= write) EOF) = Some (inr recs).
Proof. intros Hok. unfold readAll. rewrite read_loop_writes; [done..|]. cbn [rd_bytes]. lia. Qed.

(** The loop stops on every input. *)
Lemma readFull_length n r b r' :
  readFull n r = inr (b, r') → length (rd_bytes r') + n = length (rd_bytes r).
Proof.
  unfold readFull. case_decide; [|by case_match]. intros [= <- <-]. simpl. rewrite length_drop. lia.
Qed.

Lemma read_framed_length {A} n r (k : bytes → reader → ioError + A * reader) a r' :
  (∀ b r a r', k b r = inr (a, r') → length (rd_bytes r') <= length (rd_bytes r)) →
  read_framed n r k = inr (a, r') → length (rd_bytes r') <= length (rd_bytes r).
Proof.
  intros Hk. unfold read_framed. destruct (readFull n r) as [?|[b r1]] eqn:E; [done|].
  intros H%Hk. apply readFull_length in E. lia.
Qed.

Lemma readRecord_length r rec r' : readRecord r = inr (rec, r') → length (rd_bytes r') < length (rd_bytes r).
Proof.
  unfold readRecord. destruct (readFull 4 r) as [?|[hdr r1]] eqn:E; [done|]. apply readFull_length in E.
  intros H. cut (length (rd_bytes r') <= length (rd_bytes r1)); [lia|]. revert H.
  apply read_framed_length. intros key r2 a2 r2'. apply read_framed_length. intros mid r3 a3 r3'.
  unfold read_version.
  destruct (has_flag _ flagMesh); repeat (apply read_framed_length; intros ????);
    by intros [= _ <-].
Qed.

Lemma read_loop_total fuel r acc : length (rd_bytes r) < fuel → is_Some (read_loop fuel r acc).
Proof.
  revert r acc. induction fuel as [|fuel IH]; intros r acc Hf; [lia|]. cbn [read_loop].
  destruct (readRecord r) as [e|[rec r']] eqn:E; [by eexists|]. apply readRecord_length in E. apply IH. lia.
Qed.

(** ** Witnesses *)

Definition sample_records : list record :=
  [mkRecord [Ascii.zero; "k"%char] (-5) 1 ["v"%char; Ascii.zero] zeroVersion;
   mkRecord [] 0 6 [] (mkVersion 1700000000000 (-1) ["n"%char] true 18446744073709551615)].

Lemma sample_records_ok : Forall record_ok sample_records.
Proof.
  repeat apply Forall_cons_2; try apply Forall_nil_2; split;
    try (vm_compute; split; congruence); try (vm_compute; congruence).
  intros _. repeat split; vm_compute; congruence.
Qed.

Lemma readAll_writes_witness :
  readAll (mkReader (sample_records ≫= write) EOF) = Some (inr sample_records).
Proof. apply (readAll_writes sample_records). exact sample_records_ok. Defined.

Lemma readRecord_truncated_witness :
  ∃ e, readRecord (mkReader (take 7 (write (mkRecord [Ascii.zero; "k"%char] (-5) 1 ["v"%char; Ascii.zero] zeroVersion))) EOF)
      = inl e ∧
    (e = EOF ↔ take 7 (write (mkRecord [Ascii.zero; "k"%char] (-5) 1 ["v"%char; Ascii.zero] zeroVersion)) = []).
Proof.
  set (rec := mkRecord [Ascii.zero; "k"%char] (-5) 1 ["v"%char; Ascii.zero] zeroVersion).
  apply (readRecord_truncated rec (take 7 (write rec)) (drop 7 (write rec))).
  - pose proof sample_records_ok as H. apply Forall_cons in H as [H _]. exact H.
  - by rewrite take_drop.
  - vm_compute. discriminate.
Defined.
End RedisFrame.
