(* ===== verification/RedisKeys.v ===== *)
(** * Redis key patterns and the metadata keyspace
      ([internal/engine/redis/selection.go], [internal/engine/redis/mesh.go])

    [globMatch] decides which keys a sync replicates. [metaKey] names the sibling key
    that holds the version register of a data key; the two must be in the same cluster
    slot, because one script writes both. Keys are lists of bytes. *)

From S2P Require Import Prelude Engine RedisFrame.
Import RedisFrame.

Module RedisKeys.

Definition chr (s : string) : ascii := match s with String a _ => a | EmptyString => Ascii.zero end.
Definition key_bytes (s : string) : bytes := String.list_ascii_of_string s.

(** ** Glob matching *)

Definition ascii_le (a b : ascii) : bool := (N_of_ascii a <=? N_of_ascii b)%N.

(** [str[si]] within the range, with the bounds in either order. *)
Definition in_span (lo hi x : ascii) : bool :=
  if ascii_le lo hi then ascii_le lo x && ascii_le x hi else ascii_le hi x && ascii_le x lo.

(** The loop over a character class, after the negation sign: whether [x] is in it, and
    the pattern behind its closing bracket. *)
Fixpoint class_loop (p : bytes) (x : ascii) (matched : bool) : bool * bytes :=
  match p with
  | [] => (matched, [])
  | a :: p1 =>
      if Ascii.eqb a "]" then (matched, p1)
      else
        match p1 with
        | b :: p2 =>
            if Ascii.eqb a "\" then class_loop p2 x (matched || Ascii.eqb b x)
            else
              match p2 with
              | c :: p3 =>
                  if Ascii.eqb b "-" && negb (Ascii.eqb c "]")
                  then class_loop p3 x (matched || in_span a c x)
                  else class_loop p1 x (matched || Ascii.eqb a x)
              | [] => class_loop p1 x (matched || Ascii.eqb a x)
              end
        | [] => class_loop p1 x (matched || Ascii.eqb a x)
        end
  end.

Definition class_neg (p : bytes) : bool * bytes :=
  match p with
  | a :: p' => if Ascii.eqb a "^" then (true, p') else (false, p)
  | [] => (false, p)
  end.

Fixpoint skip_stars (p : bytes) : bytes :=
  match p with
  | a :: p' => if Ascii.eqb a "*" then skip_stars p' else p
  | [] => []
  end.

(** The suffixes [str[i:]], longest first. *)
Fixpoint suffixes (s : bytes) : list bytes :=
  s :: match s with [] => [] | _ :: s' => suffixes s' end.

(** [globMatch]; [p] and [s] are what is left of the pattern and the key. Every
    iteration consumes a byte of the pattern, so its length bounds them. *)
Fixpoint glob (fuel : nat) (p s : bytes) : bool :=
  match fuel with
  | 0 => false
  | S fuel =>
      match p with
      | [] => Nat.eqb (length s) 0
      | a :: p' =>
          if Ascii.eqb a "*" then
            match skip_stars p' with
            | [] => true
            | p'' => existsb (glob fuel p'') (suffixes s)
            end
          else if Ascii.eqb a "?" then
            match s with [] => false | _ :: s' => glob fuel p' s' end
          else if Ascii.eqb a "[" then
            match s with
            | [] => false
            | x :: s' =>
                let '(neg, p1) := class_neg p' in
                let '(matched, p2) := class_loop p1 x false in
                if Bool.eqb matched neg then false else glob fuel p2 s'
            end
          else
            let '(c, p1) := if Ascii.eqb a "\" then match p' with b :: p1 => (b, p1) | [] => (a, p') end
                            else (a, p') in
            match s with
            | [] => false
            | x :: s' => if Ascii.eqb c x then glob fuel p1 s' else false
            end
      end
  end.

Definition globMatch (pattern s : bytes) : bool := glob (S (length pattern)) pattern s.

(** ** The metadata keyspace *)

Definition metaPrefix : bytes := Ascii.zero :: key_bytes "rc:m:".

Fixpoint has_prefix (pre l : bytes) : bool :=
  match pre, l with
  | [], _ => true
  | a :: pre, b :: l => Ascii.eqb a b && has_prefix pre l
  | _ :: _, [] => false
  end.

Definition isMetaKey (key : bytes) : bool := has_prefix (Ascii.zero :: key_bytes "rc:") key.

(** [strings.IndexByte] *)
Fixpoint index_byte (c : ascii) (l : bytes) : option nat :=
  match l with
  | [] => None
  | a :: l => if Ascii.eqb a c then Some 0 else S <$> index_byte c l
  end.

Definition slotTag (key : bytes) : bytes :=
  match index_byte "{" key with
  | None => key
  | Some open =>
      match index_byte "}" (drop (S open) key) with
      | None | Some 0 => key
      | Some e => take e (drop (S open) key)
      end
  end.

(** One bit of [buildCRC16Table]. *)
Definition crc_step (crc : N) : N :=
  if (N.land crc 32768 =? 0)%N then N.land (N.shiftl crc 1) 65535
  else N.lxor (N.land (N.shiftl crc 1) 65535) 4129.

Definition buildCRC16Table : list N :=
  (λ i, Nat.iter 8 crc_step (N.shiftl (N.of_nat i) 8)) <$> seq 0 256.

Definition crc_byte (tab : list N) (crc : N) (b : ascii) : N :=
  N.lxor (N.land (N.shiftl crc 8) 65535)
    (nth (N.to_nat (N.lxor (N.shiftr crc 8) (N_of_ascii b))) tab 0%N).

Definition crc16 (s : bytes) : N := foldl (crc_byte buildCRC16Table) 0%N s.

Definition hashSlots : N := 16384.

Definition slotOf (key : bytes) : N := N.modulo (crc16 (slotTag key)) hashSlots.

Definition itoa (i : N) : bytes := key_bytes (pretty i).

(** The table entry of a slot is the first number that hashes to it; [None] when none of
    [fuel] numbers from [i] on does. *)
Fixpoint first_tag (fuel : nat) (i slot : N) : option bytes :=
  match fuel with
  | 0 => None
  | S fuel =>
      if (N.modulo (crc16 (itoa i)) hashSlots =? slot)%N then Some (itoa i)
      else first_tag fuel (N.succ i) slot
  end.

(** Every slot is hit by a number below 800000 ([slot_hit]). *)
Definition slotToTag (slot : N) : bytes := default [] (first_tag (N.to_nat 800000) 0 slot).

Definition metaKey (key : bytes) : bytes :=
  metaPrefix ++ ["{"%char] ++ slotToTag (slotOf key) ++ ["}"%char] ++ key.

Definition dataKeyFromMeta (mk : bytes) : option bytes :=
  if negb (has_prefix metaPrefix mk) then None
  else
    let rest := drop (length metaPrefix) mk in
    match rest with
    | [] => None
    | a :: _ =>
        if negb (Ascii.eqb a "{") then None
        else
          e ← index_byte "}" rest;
          Some (drop (S e) rest)
    end.

(** ** Selection *)

Record selection := mkSel { sel_include : list bytes; sel_exclude : list bytes }.

Definition compileSelection (sel : Selection) : selection :=
  mkSel (key_bytes <$> sel_Include sel) (key_bytes <$> sel_Exclude sel).

Definition sel_match (s : selection) (key : bytes) : bool :=
  if isMetaKey key then false
  else if existsb (λ ex, globMatch ex key) (sel_exclude s) then false
  else if Nat.eqb (length (sel_include s)) 0 then true
  else existsb (λ inc, globMatch inc key) (sel_include s).

(** ** What a pattern means

    A pattern is a sequence of tokens; [Matches] is the language of the sequence. *)

Inductive citem := CLit (a : ascii) | CSpan (lo hi : ascii).
Inductive token := TStar | TAny | TClass (neg : bool) (items : list citem) | TLit (a : ascii).

Definition item_has (x : ascii) (i : citem) : bool :=
  match i with CLit a => Ascii.eqb a x | CSpan lo hi => in_span lo hi x end.

Fixpoint parse_class (p : bytes) : list citem * bytes :=
  match p with
  | [] => ([], [])
  | a :: p1 =>
      if Ascii.eqb a "]" then ([], p1)
      else
        match p1 with
        | b :: p2 =>
            if Ascii.eqb a "\" then let '(its, r) := parse_class p2 in (CLit b :: its, r)
            else
              match p2 with
              | c :: p3 =>
                  if Ascii.eqb b "-" && negb (Ascii.eqb c "]")
                  then let '(its, r) := parse_class p3 in (CSpan a c :: its, r)
                  else let '(its, r) := parse_class p1 in (CLit a :: its, r)
              | [] => let '(its, r) := parse_class p1 in (CLit a :: its, r)
              end
        | [] => let '(its, r) := parse_class p1 in (CLit a :: its, r)
        end
  end.

Fixpoint tokens (fuel : nat) (p : bytes) : list token :=
  match fuel, p with
  | S fuel, a :: p' =>
      if Ascii.eqb a "*" then TStar :: tokens fuel p'
      else if Ascii.eqb a "?" then TAny :: tokens fuel p'
      else if Ascii.eqb a "[" then
        let '(neg, p1) := class_neg p' in
        let '(items, p2) := parse_class p1 in TClass neg items :: tokens fuel p2
      else if Ascii.eqb a "\" then
        match p' with b :: p1 => TLit b :: tokens fuel p1 | [] => [TLit a] end
      else TLit a :: tokens fuel p'
  | _, _ => []
  end.

Definition parse (p : bytes) : list token := tokens (length p) p.

Inductive Matches : list token → bytes → Prop :=
| M_end : Matches [] []
| M_lit a ts s : Matches ts s → Matches (TLit a :: ts) (a :: s)
| M_any x ts s : Matches ts s → Matches (TAny :: ts) (x :: s)
| M_class neg items x ts s :
    existsb (item_has x) items = negb neg → Matches ts s → Matches (TClass neg items :: ts) (x :: s)
| M_star0 ts s : Matches ts s → Matches (TStar :: ts) s
| M_star1 x ts s : Matches (TStar :: ts) s → Matches (TStar :: ts) (x :: s).

(** *** The scanner reads classes as [parse_class] does *)

Lemma class_loop_parse n p x m :
  length p <= n → class_loop p x m = (m || existsb (item_has x) (parse_class p).1, (parse_class p).2).
Proof.
  revert p m. induction n as [|n IH]; intros [|a p1] m Hn; simpl in Hn; try lia;
    [by simpl; rewrite orb_false_r..|]. cbn [class_loop parse_class].
  destruct (Ascii.eqb a "]"); [by rewrite orb_false_r|].
  assert (∀ p m i, length p <= n →
    class_loop p x (m || item_has x i) =
    (m || existsb (item_has x) (let '(its, r) := parse_class p in (i :: its, r)).1,
     (let '(its, r) := parse_class p in (i :: its, r)).2)) as Hstep.
  { intros p m0 i Hp. rewrite IH by done. destruct (parse_class p) as [its r]. simpl. by rewrite orb_assoc. }
  destruct p1 as [|b p2]; [by apply (Hstep [] m (CLit a)); simpl in *; lia|].
  destruct (Ascii.eqb a "\"); [by apply (Hstep p2 m (CLit b)); simpl in *; lia|].
  destruct p2 as [|c p3]; [by apply (Hstep [b] m (CLit a)); simpl in *; lia|].
  destruct (Ascii.eqb b "-" && negb (Ascii.eqb c "]"));
    [apply (Hstep p3 m (CSpan a c))|apply (Hstep (b :: c :: p3) m (CLit a))]; simpl in *; lia.
Qed.

Lemma parse_class_length n p : length p <= n → length (parse_class p).2 <= length p.
Proof.
  revert p. induction n as [|n IH]; intros [|a p1] Hn; simpl in Hn; try lia; [done..|].
  cbn [parse_class]. destruct (Ascii.eqb a "]"); [simpl; lia|].
  assert (∀ p i, length p <= n → length (let '(its, r) := parse_class p in (i :: its, r)).2 <= length p) as Hstep.
  { intros p i Hp. specialize (IH p Hp). by destruct (parse_class p). }
  destruct p1 as [|b p2]; [simpl; lia|].
  destruct (Ascii.eqb a "\"); [pose proof (Hstep p2 (CLit b)); simpl in *; lia|].
  destruct p2 as [|c p3]; [pose proof (Hstep [b] (CLit a)); simpl in *; lia|].
  destruct (Ascii.eqb b "-" && negb (Ascii.eqb c "]"));
    [pose proof (Hstep p3 (CSpan a c))|pose proof (Hstep (b :: c :: p3) (CLit a))]; simpl in *; lia.
Qed.

Lemma class_neg_length p : length (class_neg p).2 <= length p.
Proof. destruct p as [|a p]; [done|]. simpl. destruct (Ascii.eqb a "^"); simpl; lia. Qed.

(** The fuel does not matter once it covers the pattern. *)
Lemma tokens_fuel n m p : length p <= n → length p <= m → tokens n p = tokens m p.
Proof.
  revert m p. induction n as [|n IH]; intros m [|a p] Hn Hm; simpl in *; try lia; [by destruct m..|].
  destruct m as [|m]; [lia|]. cbn [tokens].
  rewrite (IH m p) by lia.
  destruct (Ascii.eqb a "*"); [done|]. destruct (Ascii.eqb a "?"); [done|].
  destruct (Ascii.eqb a "[").
  { pose proof (class_neg_length p). destruct (class_neg p) as [neg p1]. simpl in *.
    pose proof (parse_class_length (length p1) p1 (le_n _)).
    destruct (parse_class p1) as [items p2]. simpl in *. f_equal. apply IH; lia. }
  destruct (Ascii.eqb a "\"); [|done]. destruct p as [|b p1]; [done|]. f_equal. simpl in *. apply IH; lia.
Qed.

Lemma skip_stars_length p : length (skip_stars p) <= length p.
Proof. induction p as [|a p IH]; simpl; [done|]. destruct (Ascii.eqb a "*"); simpl; lia. Qed.

Lemma elem_of_suffixes s t : t ∈ suffixes s ↔ ∃ u, s = u ++ t.
Proof.
  induction s as [|x s IH]; cbn [suffixes]; rewrite elem_of_cons.
  - rewrite elem_of_nil. split; [intros [->|[]]; by exists []|]. intros [u Hu]. left.
    by symmetry in Hu; apply app_nil in Hu as [_ ->].
  - rewrite IH. split.
    + intros [->|[u ->]]; [by exists []|by exists (x :: u)].
    + intros [[|y u] Hu]; [by left|]. right. injection Hu as _ ->. by exists u.
Qed.

Lemma Matches_star ts s : Matches (TStar :: ts) s ↔ ∃ t, t ∈ suffixes s ∧ Matches ts t.
Proof.
  setoid_rewrite elem_of_suffixes. split.
  - intros H. remember (TStar :: ts) as ts' eqn:E. revert E.
    induction H as [| | | |ts0 s H _|x ts0 s H IH]; intros E; try done; injection E as ->.
    + exists s. split; [by exists []|done].
    + destruct IH as (t & [u ->] & Ht); [done|]. exists t. split; [by exists (x :: u)|done].
  - intros (t & [u ->] & Ht). induction u as [|x u IH]; [by constructor|]. by constructor.
Qed.

(** Stars in a row mean one star. *)
Lemma Matches_skip_stars p s :
  Matches (TStar :: parse p) s ↔ Matches (TStar :: parse (skip_stars p)) s.
Proof.
  revert s. induction p as [|a p IH]; intros s; [done|]. cbn [skip_stars].
  destruct (Ascii.eqb a "*") eqn:Ha; [|done]. rewrite <-IH.
  assert (parse (a :: p) = TStar :: parse p) as -> by (unfold parse; cbn [length tokens]; by rewrite Ha).
  split; [|by constructor]. rewrite Matches_star. intros (t & [u ->]%elem_of_suffixes & Ht).
  induction u as [|x u IHu]; [done|]. by constructor.
Qed.

Lemma Matches_star_nil s : Matches [TStar] s.
Proof. induction s as [|x s IH]; constructor; [constructor|done]. Qed.

Lemma Matches_cons_inv tk ts s :
  tk ≠ TStar → Matches (tk :: ts) s ↔
  match s with
  | [] => False
  | x :: s' =>
      match tk with
      | TLit a => a = x
      | TAny => True
      | TClass neg items => existsb (item_has x) items = negb neg
      | TStar => False
      end ∧ Matches ts s'
  end.
Proof.
  intros Hne. split.
  - intros H. inversion H; subst; done.
  - destruct s as [|x s']; [done|]. destruct tk; intros [H1 H2]; subst; by constructor.
Qed.

Lemma glob_spec fuel p s : length p < fuel → glob fuel p s = true ↔ Matches (parse p) s.
Proof.
  revert p s. induction fuel as [|fuel IH]; intros p s Hf; [lia|]. cbn [glob].
  destruct p as [|a p']; simpl in Hf.
  { rewrite Nat.eqb_eq. unfold parse. simpl. split.
    - intros ->%nil_length_inv. constructor.
    - by inversion 1. }
  destruct (Ascii.eqb a "*") eqn:Hstar.
  { assert (parse (a :: p') = TStar :: parse p') as -> by (unfold parse; cbn [length tokens]; by rewrite Hstar).
    rewrite Matches_skip_stars. pose proof (skip_stars_length p').
    destruct (skip_stars p') as [|b p''] eqn:Es; [split; [intros _; apply Matches_star_nil|done]|].
    rewrite Matches_star, existsb_exists. setoid_rewrite <-list_elem_of_In.
    split; intros (t & Ht & Hm); exists t; (split; [done|]); apply IH in Hm || apply IH; done || lia. }
  destruct (Ascii.eqb a "?") eqn:Hany.
  { assert (parse (a :: p') = TAny :: parse p') as -> by (unfold parse; cbn [length tokens]; by rewrite Hstar, Hany).
    rewrite Matches_cons_inv by done. destruct s as [|x s']; [done|]. rewrite IH by lia. tauto. }
  destruct (Ascii.eqb a "[") eqn:Hcl.
  { pose proof (class_neg_length p') as L1.
    assert (parse (a :: p') = TClass (class_neg p').1 (parse_class (class_neg p').2).1 ::
      parse (parse_class (class_neg p').2).2) as ->.
    { unfold parse. cbn [length tokens]. rewrite Hstar, Hany, Hcl.
      destruct (class_neg p') as [neg p1]. simpl in *.
      pose proof (parse_class_length (length p1) p1 (le_n _)). destruct (parse_class p1) as [items p2]. simpl in *.
      f_equal. apply tokens_fuel; lia. }
    rewrite Matches_cons_inv by done. destruct s as [|x s']; [done|].
    destruct (class_neg p') as [neg p1]. simpl in L1 |- *. rewrite (class_loop_parse (length p1)) by done.
    pose proof (parse_class_length (length p1) p1 (le_n _)). cbn [orb].
    destruct (existsb (item_has x) (parse_class p1).1), neg; cbn [Bool.eqb negb];
      rewrite ?IH by lia; intuition congruence. }
  destruct (Ascii.eqb a "\") eqn:Hesc.
  - destruct p' as [|b p1].
    + assert (parse [a] = [TLit a]) as -> by (unfold parse; cbn [length tokens]; by rewrite Hstar, Hany, Hcl, Hesc).
      rewrite Matches_cons_inv by done. destruct s as [|x s']; [done|].
      destruct (Ascii.eqb_spec a x); [|naive_solver]. rewrite IH by (simpl; lia). unfold parse. simpl. tauto.
    + assert (parse (a :: b :: p1) = TLit b :: parse p1) as ->.
      { unfold parse. cbn [length tokens]. rewrite Hstar, Hany, Hcl, Hesc. f_equal. apply (tokens_fuel (S (length p1)) (length p1)); lia. }
      rewrite Matches_cons_inv by done. destruct s as [|x s']; [done|]. simpl in Hf.
      destruct (Ascii.eqb_spec b x); [|naive_solver]. rewrite IH by lia. tauto.
  - assert (parse (a :: p') = TLit a :: parse p') as ->
      by (unfold parse; cbn [length tokens]; by rewrite Hstar, Hany, Hcl, Hesc).
    rewrite Matches_cons_inv by done. destruct s as [|x s']; [done|].
    destruct (Ascii.eqb_spec a x); [|naive_solver]. rewrite IH by lia. tauto.
Qed.

(** *** The language of patterns

    The syntax and the meaning of patterns, stated on their own: nothing below refers to the
    functions of the matcher or to the tokens above. *)

(** A part of a class: one byte, or the bytes between two, given in either order. *)
Inductive part := POne (a : ascii) | PRange (a b : ascii).

Definition in_part (x : ascii) (q : part) : Prop :=
  match q with
  | POne a => x = a
  | PRange a b =>
      (N_of_ascii a ≤ N_of_ascii x ≤ N_of_ascii b)%N ∨ (N_of_ascii b ≤ N_of_ascii x ≤ N_of_ascii a)%N
  end.

(** Any run of bytes, any byte, a byte in a class or outside of it, a given byte. *)
Inductive piece := GRun | GAny | GOneOf (l : list part) | GNoneOf (l : list part) | GByte (a : ascii).

Inductive language : list piece → bytes → Prop :=
| lang_end : language [] []
| lang_run u g s : language g s → language (GRun :: g) (u ++ s)
| lang_any x g s : language g s → language (GAny :: g) (x :: s)
| lang_oneof x l g s : Exists (in_part x) l → language g s → language (GOneOf l :: g) (x :: s)
| lang_noneof x l g s : Forall (λ q, ¬ in_part x q) l → language g s → language (GNoneOf l :: g) (x :: s)
| lang_byte a g s : language g s → language (GByte a :: g) (a :: s).

(** The text of a class behind its opening bracket and caret, and what follows its closing
    bracket. An unclosed class ends with the pattern; a dash in front of the closing
    bracket, and a backslash at the end of the pattern, stand for themselves. *)
Inductive class_written : list part → bytes → bytes → Prop :=
| cw_close rest : class_written [] ("]"%char :: rest) rest
| cw_open : class_written [] [] []
| cw_escape a l p rest : class_written l p rest → class_written (POne a :: l) ("\"%char :: a :: p) rest
| cw_range a b l p rest :
    a ≠ "]"%char → a ≠ "\"%char → b ≠ "]"%char →
    class_written l p rest → class_written (PRange a b :: l) (a :: "-"%char :: b :: p) rest
| cw_byte a l p rest :
    a ≠ "]"%char → (a = "\"%char → p = []) → (∀ b p', p = "-"%char :: b :: p' → b = "]"%char) →
    class_written l p rest → class_written (POne a :: l) (a :: p) rest.

(** The text of a pattern. *)
Inductive written : list piece → bytes → Prop :=
| w_end : written [] []
| w_run g p : written g p → written (GRun :: g) ("*"%char :: p)
| w_any g p : written g p → written (GAny :: g) ("?"%char :: p)
| w_oneof l g p rest :
    head p ≠ Some "^"%char → class_written l p rest → written g rest → written (GOneOf l :: g) ("["%char :: p)
| w_noneof l g p rest : class_written l p rest → written g rest → written (GNoneOf l :: g) ("["%char :: "^"%char :: p)
| w_escape a g p : written g p → written (GByte a :: g) ("\"%char :: a :: p)
| w_byte a g p :
    a ∉ ["*"; "?"; "["]%char → (a = "\"%char → p = []) → written g p → written (GByte a :: g) (a :: p).

(** The tokens of a pattern and its pieces. *)
Definition part_item (q : part) : citem := match q with POne a => CLit a | PRange a b => CSpan a b end.
Definition item_part (i : citem) : part := match i with CLit a => POne a | CSpan a b => PRange a b end.
Definition piece_token (g : piece) : token :=
  match g with
  | GRun => TStar | GAny => TAny | GByte a => TLit a
  | GOneOf l => TClass false (part_item <$> l) | GNoneOf l => TClass true (part_item <$> l)
  end.

Lemma item_has_part (x : ascii) (q : part) : item_has x (part_item q) = true ↔ in_part x q.
Proof.
  destruct q as [a|a b]; simpl; [rewrite Ascii.eqb_eq; by split|]. unfold in_span, ascii_le.
  destruct (N.leb_spec (N_of_ascii a) (N_of_ascii b)); rewrite andb_true_iff, !N.leb_le; lia.
Qed.

Lemma items_have (x : ascii) (l : list part) : existsb (item_has x) (part_item <$> l) = true ↔ Exists (in_part x) l.
Proof.
  induction l as [|q l IH]; simpl; [split; [done|by intros ?%Exists_nil]|].
  by rewrite orb_true_iff, item_has_part, Exists_cons, IH.
Qed.

Lemma Matches_language (g : list piece) (s : bytes) : Matches (piece_token <$> g) s ↔ language g s.
Proof.
  revert s. induction g as [|q g IH]; intros s; cbn [fmap list_fmap].
  { split; inversion 1; constructor. }
  destruct q as [| |l|l|a]; cbn [piece_token].
  - rewrite Matches_star. setoid_rewrite elem_of_suffixes. split.
    + intros (t & [u ->] & Ht). constructor. by apply IH.
    + inversion 1; subst. eexists. split; [by eexists|]. by apply IH.
  - rewrite Matches_cons_inv by done. split; [destruct s as [|x s]; [done|]; intros [_ Hs]; constructor; by apply IH|].
    inversion 1; subst. split; [done|]. by apply IH.
  - rewrite Matches_cons_inv by done. split.
    + destruct s as [|x s]; [done|]. intros [Hx Hs]. constructor; [by apply items_have|by apply IH].
    + inversion 1; subst. split; [by apply items_have|by apply IH].
  - rewrite Matches_cons_inv by done. split.
    + destruct s as [|x s]; [done|]. intros [Hx Hs]. constructor; [|by apply IH].
      apply Forall_Exists_neg. rewrite <-items_have, Hx. done.
    + inversion 1 as [| | | |x l' g' s' Hn Hl| ]; subst. split; [|by apply IH]. apply not_true_iff_false.
      rewrite items_have. by apply Forall_Exists_neg.
  - rewrite Matches_cons_inv by done. split.
    + destruct s as [|x s]; [done|]. intros [-> Hs]. constructor. by apply IH.
    + inversion 1; subst. split; [done|]. by apply IH.
Qed.

Lemma class_written_parse (l : list part) (p rest : bytes) : class_written l p rest → parse_class p = (part_item <$> l, rest).
Proof.
  induction 1 as [| |a l p rest Hw IH|a b l p rest Ha Hb Hc Hw IH|a l p rest Ha Hesc Hr Hw IH]; [done|done|..]; cbn [parse_class].
  - change (Ascii.eqb "\" "]") with false. change (Ascii.eqb "\" "\") with true. cbn. by rewrite IH.
  - apply Ascii.eqb_neq in Ha, Hb, Hc. rewrite Ha, Hb. change (Ascii.eqb "-" "-") with true. rewrite Hc. cbn. by rewrite IH.
  - apply Ascii.eqb_neq in Ha as Ha'. rewrite Ha'. destruct p as [|b p]; [by rewrite IH|].
    destruct (Ascii.eqb_spec a "\") as [E|_]; [by specialize (Hesc E)|].
    destruct p as [|c p]; [by rewrite IH|]. rewrite IH.
    destruct (Ascii.eqb_spec b "-") as [->|_]; [|done]. rewrite (Hr c p eq_refl). done.
Qed.

Lemma parse_class_written (n : nat) (p : bytes) :
  length p <= n → class_written (item_part <$> (parse_class p).1) p (parse_class p).2.
Proof.
  revert p. induction n as [|n IH]; intros [|a p1] Hn; simpl in Hn; try lia; [constructor..|].
  cbn [parse_class]. destruct (Ascii.eqb_spec a "]") as [->|Ha]; [constructor|].
  assert (∀ p i, length p <= n → (∀ l rest, class_written l p rest → class_written (item_part i :: l) (a :: p1) rest) →
    class_written (item_part <$> (let '(its, r) := parse_class p in (i :: its, r)).1) (a :: p1)
      (let '(its, r) := parse_class p in (i :: its, r)).2) as Hstep.
  { intros p i Hp Hi. specialize (IH p Hp). destruct (parse_class p) as [its r]. by apply Hi. }
  destruct p1 as [|b p2].
  { apply (Hstep [] (CLit a)); [simpl; lia|]. intros l rest Hl. by constructor. }
  destruct (Ascii.eqb_spec a "\") as [->|Hb].
  { apply (Hstep p2 (CLit b)); [simpl in *; lia|]. intros l rest Hl. by constructor. }
  destruct p2 as [|c p3].
  { apply (Hstep [b] (CLit a)); [simpl in *; lia|]. intros l rest Hl. by constructor. }
  destruct (Ascii.eqb_spec b "-") as [->|Hd]; cbn [andb].
  - destruct (Ascii.eqb_spec c "]") as [->|Hc]; cbn [negb].
    + apply (Hstep ("-"%char :: "]"%char :: p3) (CLit a)); [simpl in *; lia|]. intros l rest Hl.
      constructor; [done|done| |done]. by intros ?? [= <- _].
    + apply (Hstep p3 (CSpan a c)); [simpl in *; lia|]. intros l rest Hl. by constructor.
  - apply (Hstep (b :: c :: p3) (CLit a)); [simpl in *; lia|]. intros l rest Hl.
    constructor; [done|done| |done]. by intros ?? [= -> _].
Qed.

(** The tokens of a pattern behind its first piece. *)
Lemma parse_class_cons (neg : bool) (p : bytes) :
  (class_neg p).1 = neg →
  parse ("["%char :: p) = TClass neg (parse_class (class_neg p).2).1 :: parse (parse_class (class_neg p).2).2.
Proof.
  intros <-. unfold parse. cbn [length tokens]. change (Ascii.eqb "[" "*") with false. change (Ascii.eqb "[" "?") with false.
  change (Ascii.eqb "[" "[") with true. cbv iota. pose proof (class_neg_length p) as L1.
  destruct (class_neg p) as [neg p1]. simpl in *. pose proof (parse_class_length (length p1) p1 (le_n _)).
  destruct (parse_class p1) as [items p2]. simpl in *. f_equal. apply tokens_fuel; lia.
Qed.

Lemma parse_escape_cons (a : ascii) (p : bytes) : parse ("\"%char :: a :: p) = TLit a :: parse p.
Proof.
  change (parse ("\"%char :: a :: p)) with (TLit a :: tokens (S (length p)) p). f_equal. apply tokens_fuel; lia.
Qed.

Lemma parse_byte_cons (a : ascii) (p : bytes) :
  a ∉ ["*"; "?"; "["]%char → (a = "\"%char → p = []) → parse (a :: p) = TLit a :: parse p.
Proof.
  intros Ha He. unfold parse. cbn [length tokens].
  destruct (Ascii.eqb_spec a "*") as [->|_]; [exfalso; apply Ha; by left|].
  destruct (Ascii.eqb_spec a "?") as [->|_]; [exfalso; apply Ha; right; by left|].
  destruct (Ascii.eqb_spec a "[") as [->|_]; [exfalso; apply Ha; right; right; by left|].
  destruct (Ascii.eqb_spec a "\") as [E|_]; [|done]. by rewrite (He E).
Qed.

(** A pattern has one reading. *)
Lemma written_parse (g : list piece) (p : bytes) : written g p → parse p = piece_token <$> g.
Proof.
  induction 1 as [|g p Hw IH|g p Hw IH|l g p rest Hh Hc Hw IH|l g p rest Hc Hw IH|a g p Hw IH|a g p Ha He Hw IH];
    rewrite ?fmap_cons; [done|..]; rewrite <-?IH.
  - done.
  - done.
  - assert (class_neg p = (false, p)) as Hn.
    { destruct p as [|b p]; [done|]. simpl in *. destruct (Ascii.eqb_spec b "^") as [->|]; [done|done]. }
    rewrite (parse_class_cons false) by by rewrite Hn. rewrite Hn. cbn [snd]. by rewrite (class_written_parse _ _ _ Hc).
  - rewrite (parse_class_cons true) by done. cbn [class_neg]. change (Ascii.eqb "^" "^") with true. cbn [snd].
    by rewrite (class_written_parse _ _ _ Hc).
  - apply parse_escape_cons.
  - by apply parse_byte_cons.
Qed.

(** Every pattern is one. *)
Lemma written_total (n : nat) (p : bytes) : length p <= n → ∃ g, written g p.
Proof.
  revert p. induction n as [|n IH]; intros [|a p] Hn; simpl in Hn; try lia; [exists []; constructor..|].
  destruct (IH p) as [g Hg]; [lia|].
  destruct (decide (a = "*"%char)) as [->|Hstar]; [eexists; by constructor|].
  destruct (decide (a = "?"%char)) as [->|Hany]; [eexists; by constructor|].
  destruct (decide (a = "["%char)) as [->|Hcl].
  - destruct (decide (head p = Some "^"%char)) as [Hc|Hc].
    + destruct p as [|b p]; [done|]. injection Hc as ->. simpl in Hn.
      pose proof (parse_class_length (length p) p (le_n _)). destruct (IH (parse_class p).2) as [g' Hg']; [lia|].
      eexists. eapply w_noneof; [by apply (parse_class_written (length p))|exact Hg'].
    + pose proof (parse_class_length (length p) p (le_n _)). destruct (IH (parse_class p).2) as [g' Hg']; [lia|].
      eexists. eapply w_oneof; [exact Hc|by apply (parse_class_written (length p))|exact Hg'].
  - assert (a ∉ ["*"; "?"; "["]%char) as Hin by (rewrite !elem_of_cons, elem_of_nil; naive_solver).
    destruct (decide (a = "\"%char)) as [->|Hb]; [|eexists; by constructor].
    destruct p as [|b p]; [eexists; by constructor|]. simpl in Hn. destruct (IH p) as [g' Hg']; [lia|].
    eexists. by apply w_escape.
Qed.

(** C29: the matcher decides the language of patterns. Every pattern has a reading as a
    sequence of runs, single bytes, classes with ranges and negation, and literal
    bytes, and [globMatch] answers true exactly on the keys in the language of its reading: it is
    total and its backtracking misses nothing. The syntax and the meaning of patterns are
    stated without the functions of the matcher. *)
Theorem globMatch_equiv (pattern : bytes) :
  (∃ g, written g pattern) ∧
  ∀ g, written g pattern → ∀ s, globMatch pattern s = true ↔ language g s.
Proof.
  split; [by apply (written_total (length pattern))|]. intros g Hg s.
  rewrite <-Matches_language, <-(written_parse g pattern Hg). apply glob_spec. lia.
Qed.

(** A dash in front of the closing bracket is a literal dash. *)
Example trailing_dash : globMatch (key_bytes "[a-]") (key_bytes "-") = true ∧ globMatch (key_bytes "[a-]") (key_bytes "b") = false.
Proof. by vm_compute. Qed.

(** ** Metadata keys share the slot of their data key *)

(** For every slot a number that hashes to it: the checksum is linear, so flipping bits of
    the digits of 100000 (slot 15432) along [flips] reaches any slot. *)
Definition flips : list (list N) :=
  [[4; 4; 4; 4; 7; 0]; [0; 6; 1; 2; 3; 0]; [6; 5; 1; 6; 6; 0]; [0; 5; 6; 2; 6; 0]; [2; 1; 4; 5; 0; 0];
   [2; 0; 4; 6; 1; 0]; [2; 3; 5; 0; 7; 0]; [0; 4; 1; 3; 2; 0]; [6; 1; 1; 4; 4; 0]; [6; 4; 5; 4; 2; 0];
   [4; 4; 4; 5; 6; 0]; [0; 6; 1; 0; 1; 0]; [6; 5; 1; 2; 2; 0]; [2; 5; 1; 5; 3; 0]]%N.

Fixpoint flip_digits (bits : N) (fs : list (list N)) (digits : list N) : list N :=
  match fs with
  | [] => digits
  | f :: fs => flip_digits (N.div2 bits) fs (if N.odd bits then zip_with N.lxor digits f else digits)
  end.

Definition hit (slot : N) : N :=
  foldl (λ a d, a * 10 + d)%N 0%N (flip_digits (N.lxor slot 15432) flips [1; 0; 0; 0; 0; 0]%N).

Fixpoint all_hit (n : nat) (slot : N) : bool :=
  match n with
  | 0 => true
  | S n => (hit slot <? 800000)%N && (N.modulo (crc16 (itoa (hit slot))) hashSlots =? slot)%N &&
           all_hit n (N.succ slot)
  end.

Lemma all_hit_spec n slot s :
  all_hit n slot = true → (slot <= s < slot + N.of_nat n)%N →
  (hit s < 800000)%N ∧ N.modulo (crc16 (itoa (hit s))) hashSlots = s.
Proof.
  revert slot. induction n as [|n IH]; intros slot; [lia|]. cbn [all_hit]. rewrite !andb_true_iff.
  intros [[H1%N.ltb_lt H2%N.eqb_eq] H3] Hs. destruct (decide (s = slot)) as [->|Hne]; [done|].
  apply (IH (N.succ slot)); [done|lia].
Qed.

Lemma slot_hit s : (s < hashSlots)%N → ∃ i, (i < 800000)%N ∧ N.modulo (crc16 (itoa i)) hashSlots = s.
Proof.
  intros Hs. exists (hit s). apply (all_hit_spec (N.to_nat hashSlots) 0).
  - vm_compute. reflexivity.
  - unfold hashSlots in *. lia.
Qed.

Lemma first_tag_found fuel i slot j :
  (i <= j < i + N.of_nat fuel)%N → N.modulo (crc16 (itoa j)) hashSlots = slot →
  ∃ k, first_tag fuel i slot = Some (itoa k) ∧ N.modulo (crc16 (itoa k)) hashSlots = slot.
Proof.
  revert i. induction fuel as [|fuel IH]; intros i Hj Hs; [lia|]. cbn [first_tag].
  destruct (N.eqb_spec (N.modulo (crc16 (itoa i)) hashSlots) slot) as [E|E]; [by exists i|].
  apply IH; [|done]. assert (i ≠ j) by congruence. lia.
Qed.

Lemma slotToTag_hits s :
  (s < hashSlots)%N → ∃ k, slotToTag s = itoa k ∧ N.modulo (crc16 (itoa k)) hashSlots = s.
Proof.
  intros Hs. destruct (slot_hit s Hs) as (j & Hj & Hc). unfold slotToTag.
  destruct (first_tag_found (N.to_nat 800000) 0 s j) as (k & -> & Hk); [lia|done|]. by exists k.
Qed.

(** Decimal digits have no braces. *)
Definition brace_free (a : ascii) : Prop := a ≠ "{"%char ∧ a ≠ "}"%char.

Lemma pretty_N_char_brace_free x : brace_free (pretty_N_char x).
Proof. unfold pretty_N_char. repeat case_match; by split. Qed.

Lemma pretty_N_go_digits x s :
  Forall brace_free (key_bytes s) ∧ s ≠ "" →
  Forall brace_free (key_bytes (pretty_N_go x s)) ∧ pretty_N_go x s ≠ "".
Proof.
  revert s. induction (N.lt_wf_0 x) as [x _ IH]; intros s Hs.
  destruct (decide (0 < x)%N) as [Hx|Hx].
  - rewrite pretty_N_go_step by done. apply IH; [by apply N.div_lt|]. split; [|done].
    apply Forall_cons. split; [apply pretty_N_char_brace_free|apply Hs].
  - assert (x = 0%N) as -> by lia. by rewrite pretty_N_go_0.
Qed.

Lemma itoa_digits i : Forall brace_free (itoa i) ∧ itoa i ≠ [].
Proof.
  unfold itoa. assert (Forall brace_free (key_bytes (pretty i)) ∧ pretty i ≠ "") as [H1 H2].
  { unfold pretty, pretty_N. case_decide as Hi.
    - split; [|done]. by repeat constructor.
    - rewrite pretty_N_go_step by lia. apply pretty_N_go_digits. split; [|done].
      apply Forall_cons. split; [apply pretty_N_char_brace_free|done]. }
  split; [done|]. by destruct (pretty i).
Qed.

Lemma index_byte_app c l r : Forall (λ a, a ≠ c) l → index_byte c (l ++ c :: r) = Some (length l).
Proof.
  induction 1 as [|a l Ha _ IH]; simpl; [by rewrite Ascii.eqb_refl|].
  destruct (Ascii.eqb_spec a c); [done|]. by rewrite IH.
Qed.

Lemma slotTag_metaKey key tag :
  Forall brace_free tag → tag ≠ [] →
  slotTag (metaPrefix ++ ["{"%char] ++ tag ++ ["}"%char] ++ key) = tag.
Proof.
  intros Hb Hne. unfold slotTag.
  assert (index_byte "{" (metaPrefix ++ ["{"%char] ++ tag ++ ["}"%char] ++ key) = Some 6) as -> by reflexivity.
  change (drop 7 (metaPrefix ++ ["{"%char] ++ tag ++ ["}"%char] ++ key)) with (tag ++ "}"%char :: key).
  rewrite index_byte_app by (eapply Forall_impl; [done|]; by intros ? []).
  destruct (length tag) as [|n] eqn:Hl; [by apply nil_length_inv in Hl|]. rewrite <-Hl. by apply take_app_length.
Qed.

Lemma slotOf_lt key : (slotOf key < hashSlots)%N.
Proof. unfold slotOf. apply N.mod_lt. done. Qed.

Lemma dataKey_metaKey key : dataKeyFromMeta (metaKey key) = Some key.
Proof.
  destruct (slotToTag_hits (slotOf key) (slotOf_lt key)) as (k & Htag & Hk).
  unfold metaKey. rewrite Htag. destruct (itoa_digits k) as [Hd Hne].
  unfold dataKeyFromMeta. cbn [negb has_prefix].
  change (drop (length metaPrefix) (metaPrefix ++ ["{"%char] ++ itoa k ++ ["}"%char] ++ key))
    with ((("{"%char :: itoa k) : bytes) ++ "}"%char :: key).
  change (has_prefix metaPrefix (metaPrefix ++ ["{"%char] ++ itoa k ++ ["}"%char] ++ key)) with true.
  cbn [negb]. change (match (("{"%char :: itoa k) : bytes) ++ "}"%char :: key with
    | [] => None
    | a :: _ => if negb (Ascii.eqb a "{") then None
                else e ← index_byte "}" ((("{"%char :: itoa k) : bytes) ++ "}"%char :: key);
                     Some (drop (S e) ((("{"%char :: itoa k) : bytes) ++ "}"%char :: key)) end = Some key)
    with ((e ← index_byte "}" ((("{"%char :: itoa k) : bytes) ++ "}"%char :: key);
                     Some (drop (S e) ((("{"%char :: itoa k) : bytes) ++ "}"%char :: key))) = Some key).
  rewrite index_byte_app.
  + cbn [mbind option_bind]. f_equal. rewrite (drop_app_ge _ _ (S _)) by lia.
    by replace (S (length ("{"%char :: itoa k)) - length ("{"%char :: itoa k)) with 1 by lia.
  + apply Forall_cons. split; [done|]. eapply Forall_impl; [done|]. by intros ? [].
Qed.

#[global] Instance metaKey_inj : Inj (=) (=) metaKey.
Proof. intros k k' H. apply (f_equal dataKeyFromMeta) in H. rewrite !dataKey_metaKey in H. by injection H. Qed.

(** C30: the register of a key is next to the key: for every key, whatever bytes and braces it
    contains, the metadata key hashes to the slot of the data key (the search for a
    canonical tag always succeeds), and the data key is recovered from it, so distinct
    keys have distinct registers; and no metadata key is ever selected as data. *)
Theorem metaKey_sound (key : bytes) (s : selection) :
  slotOf (metaKey key) = slotOf key ∧ dataKeyFromMeta (metaKey key) = Some key ∧
  sel_match s (metaKey key) = false.
Proof.
  destruct (slotToTag_hits (slotOf key) (slotOf_lt key)) as (k & Htag & Hk).
  unfold metaKey. rewrite Htag. destruct (itoa_digits k) as [Hd Hne].
  split_and!.
  - unfold slotOf at 1. by rewrite slotTag_metaKey.
  - rewrite <-Htag. apply dataKey_metaKey.
  - reflexivity.
Qed.
End RedisKeys.
