(* ===== verification/RedisScan.v ===== *)
(** * The rolling SCAN of the Redis engine ([internal/engine/redis/stream.go])

    Redis has no change log: the keys to replicate are found by iterating SCAN over every
    shard, again and again. [scanBatchFiltered] is the bounded step of such a pass: it holds
    one cursor per shard across calls and returns about [max] keys per call.

    The server is a parameter with the guarantees its documentation gives: a full iteration
    returns every key that was present from its start to its end, and an iteration over a
    collection of bounded size ends. *)

From S2P Require Import Prelude Engine RedisFrame RedisKeys.
Import RedisFrame RedisKeys.

Module RedisScan.

Abbreviation keyset := (gset bytes).

(** [SCAN cursor COUNT n] on a keyspace: the keys and the next cursor, 0 at the end. *)
Class ScanServer := {
  scan : keyset → Z → Z → list bytes * Z;
  server_glob : bytes → bytes → bool;
  scan_steps : nat → nat
}.

(** ** The state of a pass ([reconState]) *)

Record reconState := mkRecon { rs_cursors : list Z; rs_done : list bool; rs_idx : nat }.

Definition newRecon (shards : nat) : reconState :=
  mkRecon (replicate shards 0%Z) (replicate shards false) 0.

Definition allDone (r : reconState) : bool := forallb id (rs_done r).

Definition reset (r : reconState) : reconState :=
  mkRecon ((λ _, 0%Z) <$> rs_cursors r) ((λ _, false) <$> rs_done r) 0.

Section scan.
Context `{Srv : ScanServer}.

(** The keys a scan is after: those the server matches and the client neither excludes nor
    leaves out of the selection. *)
Definition keep (sel : option selection) (pattern : bytes) (exclude : bytes → bool) (k : bytes) : bool :=
  (bool_decide (pattern = []) || server_glob pattern k) && negb (exclude k) &&
  match sel with None => true | Some s => sel_match s k end.

Definition next_idx (r : reconState) : nat := (rs_idx r + 1) mod length (rs_cursors r).

(** [scanBatchFiltered]. [view n i]: what the [n]-th SCAN finds when it goes to shard [i], or
    its error; the number of SCANs made so far is threaded through. *)
Fixpoint scanBatchFiltered (fuel : nat) (view : nat → nat → result keyset) (scanCount max : Z)
    (keep : bytes → bool) (n : nat) (r : reconState) (keys : list bytes)
    : option (result (list bytes * bool) * reconState * nat) :=
  match fuel with
  | 0 => None
  | S fuel =>
      if decide (max <= Z.of_nat (length keys))%Z then Some (inr (keys, false), r, n)
      else if allDone r then Some (inr (keys, true), reset r, n)
      else if default false (rs_done r !! rs_idx r) then
        scanBatchFiltered fuel view scanCount max keep n (mkRecon (rs_cursors r) (rs_done r) (next_idx r)) keys
      else
        match view n (rs_idx r) with
        | inl e => Some (inl (Errorf "redis: SCAN" e), r, S n)
        | inr K =>
            let '(ks, cur) := scan K (default 0%Z (rs_cursors r !! rs_idx r)) scanCount in
            let cursors := <[rs_idx r := cur]> (rs_cursors r) in
            let r := if decide (cur = 0%Z)
                     then mkRecon cursors (<[rs_idx r := true]> (rs_done r)) (next_idx r)
                     else mkRecon cursors (rs_done r) (rs_idx r) in
            scanBatchFiltered fuel view scanCount max keep (S n) r (keys ++ filter keep ks)
        end
  end.

(** ** What the server guarantees *)

(** An iteration in progress: the keyspaces its SCANs found, the keys they returned, the
    cursor. *)
Inductive scanning : list keyset → list bytes → Z → Prop :=
| scanning_start : scanning [] [] 0
| scanning_next Ks ks c K count :
    scanning Ks ks c → (Ks = [] ∨ c ≠ 0%Z) →
    scanning (Ks ++ [K]) (ks ++ (scan K c count).1) (scan K c count).2.
End scan.

Class ScanLaws `(Srv : ScanServer) := {
  (** a full iteration returns what was there from start to end *)
  scan_full Ks ks k : scanning Ks ks 0 → Ks ≠ [] → (∀ K, K ∈ Ks → k ∈ K) → k ∈ ks;
  (** the iteration of a bounded collection ends *)
  scan_ends N Ks ks c :
    scanning Ks ks c → c ≠ 0%Z → (∀ K, K ∈ Ks → size K ≤ N) → length Ks < scan_steps N
}.

Definition result_value {A} (r : result A) : option A := match r with inl _ => None | inr a => Some a end.

Section pass.
Context `{Laws : ScanLaws}.
Context (shards : nat) (scanCount : Z) (wanted : bytes → bool) (view : nat → nat → result keyset).

(** ** A pass in progress

    [hist i]: the keyspaces the SCANs of shard [i] found in this pass; [got]: the keys
    returned. *)
Definition shard_inv (Ks : list keyset) (got : list bytes) (c : Z) (done : bool) : Prop :=
  ∃ ks, scanning Ks ks c ∧ (∀ k, k ∈ ks → wanted k = true → k ∈ got) ∧
    if done then c = 0%Z ∧ Ks ≠ [] else Ks = [] ∨ c ≠ 0%Z.

Record pass_inv (r : reconState) (hist : nat → list keyset) (got : list bytes) : Prop := {
  pi_cursors : length (rs_cursors r) = shards;
  pi_done : length (rs_done r) = shards;
  pi_idx : shards = 0 ∨ rs_idx r < shards;
  pi_shard i c d : rs_cursors r !! i = Some c → rs_done r !! i = Some d → shard_inv (hist i) got c d
}.

Lemma newRecon_inv got : pass_inv (newRecon shards) (λ _, []) got.
Proof.
  split; simpl; [by rewrite length_replicate..|destruct shards; [by left|right; lia]|].
  intros i c d [-> _]%lookup_replicate [-> _]%lookup_replicate. exists []. split_and!; [constructor| |by left].
  by intros k Hk%not_elem_of_nil.
Qed.

Lemma reset_new r hist got : pass_inv r hist got → reset r = newRecon shards.
Proof.
  intros [H1 H2 _ _]. unfold reset, newRecon. by rewrite (const_fmap _ (rs_cursors r) 0%Z), (const_fmap _ (rs_done r) false), H1, H2 by done.
Qed.

Lemma pass_inv_mono r hist got got' : got ⊆ got' → pass_inv r hist got → pass_inv r hist got'.
Proof.
  intros Hg [H1 H2 H3 H4]. split; [done..|]. intros i c d Hc Hd. destruct (H4 i c d Hc Hd) as (ks & F1 & F2 & F3).
  exists ks. split_and!; [done| |done]. intros k Hk Hw. by apply Hg, F2.
Qed.

(** The next SCAN goes to the shard the index points to. *)
Lemma pass_inv_skip r hist got :
  pass_inv r hist got → pass_inv (mkRecon (rs_cursors r) (rs_done r) (next_idx r)) hist got.
Proof.
  intros [H1 H2 H3 H4]. split; [done..| |done]. simpl. unfold next_idx. rewrite H1.
  destruct H3 as [H3|H3]; [by left|]. right. apply Nat.mod_upper_bound. lia.
Qed.

Definition after_scan (r : reconState) (cur : Z) : reconState :=
  let cursors := <[rs_idx r := cur]> (rs_cursors r) in
  if decide (cur = 0%Z)
  then mkRecon cursors (<[rs_idx r := true]> (rs_done r)) (next_idx r)
  else mkRecon cursors (rs_done r) (rs_idx r).

Definition push (hist : nat → list keyset) (i : nat) (K : keyset) : nat → list keyset :=
  λ j, if decide (j = i) then hist j ++ [K] else hist j.

Lemma pass_inv_scan r hist got K :
  pass_inv r hist got → rs_idx r < shards → rs_done r !! rs_idx r = Some false →
  let '(ks, cur) := scan K (default 0%Z (rs_cursors r !! rs_idx r)) scanCount in
  pass_inv (after_scan r cur) (push hist (rs_idx r) K) (got ++ filter wanted ks).
Proof.
  intros Hp Hi Hd. pose proof Hp as [H1 H2 H3 H4]. set (i := rs_idx r) in *.
  destruct (lookup_lt_is_Some_2 (rs_cursors r) i) as [c Hc]; [lia|]. rewrite Hc. simpl.
  destruct (H4 i c false Hc Hd) as (ks0 & F1 & F2 & F3).
  pose proof (scanning_next _ _ _ K scanCount F1 F3) as Hn. destruct (scan K c scanCount) as [ks cur]. simpl in Hn.
  assert (∀ d : bool, (if d then cur = 0%Z ∧ hist i ++ [K] ≠ [] else hist i ++ [K] = [] ∨ cur ≠ 0%Z) →
    shard_inv (hist i ++ [K]) (got ++ filter wanted ks) cur d) as Hnew.
  { intros d Hd'. exists (ks0 ++ ks). split_and!; [done| |done].
    intros k [Hk|Hk]%elem_of_app Hw; apply elem_of_app; [left; by apply F2|right].
    apply list_elem_of_filter. split; [by rewrite Hw|done]. }
  assert (∀ j c' d', j ≠ i → rs_cursors r !! j = Some c' → rs_done r !! j = Some d' →
    shard_inv (hist j) (got ++ filter wanted ks) c' d') as Hold.
  { intros j c' d' Hj Hc' Hd'. destruct (H4 j c' d' Hc' Hd') as (ks' & G1 & G2 & G3).
    exists ks'. split_and!; [done| |done]. intros k Hk Hw. apply elem_of_app. left. by apply G2. }
  unfold after_scan. fold i. case_decide as Hcur; split; simpl; rewrite ?length_insert; try done.
  - unfold next_idx. rewrite H1. right. apply Nat.mod_upper_bound. lia.
  - intros j c' d'. unfold push. destruct (decide (j = i)) as [->|Hj].
    + rewrite !list_lookup_insert_eq by lia. intros [= <-] [= <-]. apply Hnew. split; [done|]. by destruct (hist i).
    + rewrite !list_lookup_insert_ne by done. by apply Hold.
  - intros j c' d'. unfold push. destruct (decide (j = i)) as [->|Hj].
    + rewrite list_lookup_insert_eq, Hd by lia. intros [= <-] [= <-]. apply Hnew. by right.
    + rewrite list_lookup_insert_ne by done. by apply Hold.
Qed.

(** ** Coverage *)

(** At the end of a pass. *)
Definition covered (hist : nat → list keyset) (got : list bytes) : Prop :=
  ∀ i k, i < shards → wanted k = true → (∀ K, K ∈ hist i → k ∈ K) → k ∈ got.

Lemma allDone_covered r hist got : pass_inv r hist got → allDone r = true → covered hist got.
Proof.
  intros [H1 H2 H3 H4] Hd i k Hi Hw Hk.
  destruct (lookup_lt_is_Some_2 (rs_cursors r) i) as [c Hc]; [lia|].
  destruct (lookup_lt_is_Some_2 (rs_done r) i) as [d Hd']; [lia|].
  assert (d = true) as ->.
  { unfold allDone in Hd. rewrite forallb_forall in Hd. apply (Hd d).
    by apply list_elem_of_In, (list_elem_of_lookup_2 _ i). }
  destruct (H4 i c true Hc Hd') as (ks & F1 & F2 & -> & F4). apply F2; [|done]. by apply (scan_full (hist i)).
Qed.

(** What the SCANs number [n] to [n' - 1] added to the history. *)
Definition extends (hist hist' : nat → list keyset) (n n' : nat) : Prop :=
  ∀ i K, K ∈ hist' i → K ∈ hist i ∨ ∃ m, n ≤ m < n' ∧ view m i = inr K.

Lemma extends_push hist hist' n n' i K :
  view n i = inr K → extends (push hist i K) hist' (S n) n' → S n ≤ n' → extends hist hist' n n'.
Proof.
  intros Hv He Hle j K' HK. destruct (He j K' HK) as [Hin|(m & Hm & Hvm)]; [|right; exists m; split; [lia|done]].
  unfold push in Hin. case_decide as Hj; [|by left]. apply elem_of_app in Hin as [Hin|Hin]; [by left|].
  apply list_elem_of_singleton in Hin as ->. right. exists n. subst. split; [lia|done].
Qed.

(** ** Progress

    An open shard has at most this many SCANs to go, for keyspaces of at most [N] keys. *)
Context (N : nat) (view_size : ∀ n i K, view n i = inr K → size K ≤ N).

Definition left_of (Ks : list keyset) (done : bool) : nat :=
  if done then 0 else S (scan_steps N) - length Ks.

Fixpoint left_from (i : nat) (hist : nat → list keyset) (done : list bool) : nat :=
  match done with
  | [] => 0
  | d :: done => left_of (hist i) d + left_from (S i) hist done
  end.

Definition scans_left (r : reconState) (hist : nat → list keyset) : nat := left_from 0 hist (rs_done r).

Definition small (hist : nat → list keyset) : Prop := ∀ i K, K ∈ hist i → size K ≤ N.

Lemma left_from_same j hist hist' done :
  (∀ i, j ≤ i → hist' i = hist i) → left_from j hist' done = left_from j hist done.
Proof.
  revert j. induction done as [|d done IH]; intros j H; [done|]. simpl. rewrite H by lia. f_equal. apply IH.
  intros i Hi. apply H. lia.
Qed.

Lemma left_from_insert j i hist hist' done d :
  (∀ x, x ≠ j + i → hist' x = hist x) → done !! i = Some false →
  left_of (hist' (j + i)) d < left_of (hist (j + i)) false →
  left_from j hist' (<[i := d]> done) < left_from j hist done.
Proof.
  revert j i. induction done as [|b done IH]; intros j i Hh Hd Hl; [done|]. destruct i as [|i]; simpl in *.
  - injection Hd as ->. rewrite Nat.add_0_r in *.
    rewrite (left_from_same (S j) hist hist' done) by (intros x Hx; apply Hh; lia). unfold left_of in *. lia.
  - rewrite (Hh j) by lia. replace (j + S i) with (S j + i) in * by lia.
    specialize (IH (S j) i Hh Hd Hl). lia.
Qed.

Lemma left_from_bound j hist done : left_from j hist done ≤ length done * S (scan_steps N).
Proof.
  revert j. induction done as [|d done IH]; intros j; [simpl; lia|]. cbn [left_from length].
  specialize (IH (S j)). unfold left_of. destruct d; lia.
Qed.

Lemma scans_left_scan r hist got K :
  pass_inv r hist got → small hist → size K ≤ N → rs_idx r < shards → rs_done r !! rs_idx r = Some false →
  scans_left (after_scan r (scan K (default 0%Z (rs_cursors r !! rs_idx r)) scanCount).2) (push hist (rs_idx r) K)
  < scans_left r hist.
Proof.
  intros Hp Hs HK Hi Hd. pose proof (pass_inv_scan r hist got K Hp Hi Hd) as Hp'.
  set (i := rs_idx r) in *. destruct (scan K _ scanCount) as [ks cur]. simpl.
  assert (push hist i K i = hist i ++ [K]) as Hpi by (unfold push; by rewrite decide_True).
  assert (length (hist i) < S (scan_steps N)) as Hlen.
  { pose proof Hp as [H1 _ _ H4]. destruct (lookup_lt_is_Some_2 (rs_cursors r) i) as [c Hc]; [lia|].
    destruct (H4 i c false Hc Hd) as (ks0 & F1 & _ & [->|F3]); [simpl; lia|].
    pose proof (scan_ends N _ _ _ F1 F3 (Hs i)). lia. }
  unfold scans_left. unfold after_scan in Hp' |- *. fold i in Hp' |- *. case_decide as Hcur.
  - apply left_from_insert; [by intros x Hx; unfold push; rewrite decide_False|done|]. unfold left_of. simpl. lia.
  - rewrite <-(list_insert_id (rs_done r) i false) at 1 by done.
    apply left_from_insert; [by intros x Hx; unfold push; rewrite decide_False|done|].
    simpl. rewrite Hpi. unfold left_of. rewrite length_app. simpl.
    pose proof Hp' as [H1 _ _ H4]. simpl in *.
    destruct (H4 i cur false) as (ks0 & F1 & _ & F3).
    { rewrite list_lookup_insert_eq; [done|]. rewrite length_insert in H1. lia. }
    { done. }
    rewrite Hpi in F1. assert (length (hist i ++ [K]) < scan_steps N) as Hl; [|rewrite length_app in Hl; simpl in Hl; lia].
    apply (scan_ends N _ _ _ F1 Hcur). intros K' [HK'|HK'%list_elem_of_singleton]%elem_of_app; [by apply (Hs i)|by subst].
Qed.

Lemma small_push hist i K : small hist → size K ≤ N → small (push hist i K).
Proof.
  intros Hs HK j K'. unfold push. case_decide; [|apply Hs].
  intros [HK'|HK'%list_elem_of_singleton]%elem_of_app; [by apply (Hs j)|by subst].
Qed.
(** ** One call *)

(** The outcome of a call that began with the pass at [hist] and [base] returned before. *)
Definition call_post (hist : nat → list keyset) (base keys : list bytes) (left n : nat)
    (out : result (list bytes * bool) * reconState * nat) : Prop :=
  let '(res, r', n') := out in
  n ≤ n' ∧
  match res with
  | inl _ => True
  | inr (keys', complete) =>
      ∃ hist', extends hist hist' n n' ∧ small hist' ∧
        if complete then covered hist' (base ++ keys') ∧ r' = newRecon shards
        else pass_inv r' hist' (base ++ keys') ∧ scans_left r' hist' ≤ left ∧
             (keys' = keys ∨ scans_left r' hist' < left)
  end.

Lemma open_shard r hist got :
  pass_inv r hist got → allDone r = false → default false (rs_done r !! rs_idx r) = false →
  rs_idx r < shards ∧ rs_done r !! rs_idx r = Some false.
Proof.
  intros [H1 H2 H3 _] Ha Hd. destruct H3 as [H3|H3].
  { unfold allDone in Ha. destruct (rs_done r); [done|simpl in *; lia]. }
  split; [done|]. destruct (lookup_lt_is_Some_2 (rs_done r) (rs_idx r)) as [d Hd']; [lia|].
  rewrite Hd' in *. simpl in Hd. by subst.
Qed.

Lemma scan_call_post fuel max n r hist base keys out :
  pass_inv r hist (base ++ keys) → small hist →
  scanBatchFiltered fuel view scanCount max wanted n r keys = Some out →
  call_post hist base keys (scans_left r hist) n out.
Proof.
  revert n r hist keys. induction fuel as [|fuel IH]; intros n r hist keys Hp Hs; [done|].
  cbn [scanBatchFiltered]. case_decide as Hm.
  { intros [= <-]. split; [done|]. exists hist. split_and!; [by intros i K; left|done|done|done|by left]. }
  destruct (allDone r) eqn:Ha.
  { intros [= <-]. split; [done|]. exists hist. split_and!; [by intros i K; left|done|by eapply allDone_covered|by eapply reset_new]. }
  destruct (default false _) eqn:Hd.
  { intros H. apply (IH _ _ hist) in H; [done|by apply pass_inv_skip|done]. }
  destruct (open_shard _ _ _ Hp Ha Hd) as [Hi Hd'].
  destruct (view n (rs_idx r)) as [e|K] eqn:Hv; [by intros [= <-]; split; [lia|]|].
  pose proof (pass_inv_scan r hist _ K Hp Hi Hd') as Hp'.
  pose proof (scans_left_scan r hist _ K Hp Hs (view_size _ _ _ Hv) Hi Hd') as Hl.
  destruct (scan K _ scanCount) as [ks cur]. simpl in Hl. cbv zeta. change (if decide (cur = 0%Z) then _ else _) with (after_scan r cur).
  intros H. rewrite <-app_assoc in Hp'.
  apply (IH _ _ (push hist (rs_idx r) K)) in H; [|done|by apply small_push; [|apply (view_size _ _ _ Hv)]].
  destruct out as [[res r'] n']. destruct H as [Hn H]. split; [lia|].
  destruct res as [e|[keys' complete]]; [done|]. destruct H as (hist' & F1 & F2 & F3). exists hist'.
  split_and!; [by eapply extends_push|done|]. destruct complete; [done|]. destruct F3 as (G1 & G2 & _).
  split_and!; [done|lia|right; lia].
Qed.

(** Only keys the scan is after are returned. *)
Lemma scan_wanted fuel max n r keys keys' b r' n' :
  scanBatchFiltered fuel view scanCount max wanted n r keys = Some (inr (keys', b), r', n') →
  (∀ k, k ∈ keys → wanted k = true) → ∀ k, k ∈ keys' → wanted k = true.
Proof.
  revert n r keys. induction fuel as [|fuel IH]; intros n r keys; [done|]. cbn [scanBatchFiltered].
  case_decide; [by intros [= <- _ _ _]|]. destruct (allDone r); [by intros [= <- _ _ _]|].
  destruct (default _ _); [apply IH|]. destruct (view _ _); [done|]. destruct (scan _ _ _) as [ks cur].
  intros Hr Hk. apply (IH _ _ _ Hr). intros k [?|[Hw _]%list_elem_of_filter]%elem_of_app; [by apply Hk|]. by apply Is_true_true.
Qed.

Lemma some_open r : allDone r = false → ∃ j, rs_done r !! j = Some false.
Proof.
  unfold allDone. induction (rs_done r) as [|[] l IH]; simpl; [done| |by exists 0].
  intros [j Hj]%IH. by exists (S j).
Qed.

(** A call returns: every SCAN brings the pass nearer to its end, and between two of them at
    most every shard is skipped once. *)
Lemma scan_call_total max fuel n r hist got keys d :
  pass_inv r hist got → small hist →
  (allDone r = true ∨ d < shards ∧ rs_done r !! ((rs_idx r + d) mod shards) = Some false) →
  scans_left r hist * S shards + d < fuel →
  is_Some (scanBatchFiltered fuel view scanCount max wanted n r keys).
Proof.
  revert n r hist got keys d. induction fuel as [|fuel IH]; intros n r hist got keys d Hp Hs Hd Hf; [lia|].
  cbn [scanBatchFiltered]. case_decide; [by eexists|]. destruct (allDone r) eqn:Ha; [by eexists|].
  destruct Hd as [Hd|[Hds Hd]]; [done|]. pose proof Hp as [H1 H2 H3 _].
  destruct (default false _) eqn:Hdone.
  - destruct d as [|d].
    { rewrite Nat.add_0_r in Hd. destruct H3 as [H3|H3]; [lia|]. rewrite Nat.mod_small in Hd by done.
      rewrite Hd in Hdone. done. }
    apply (IH _ _ hist got _ d); [by apply pass_inv_skip|done| |unfold scans_left in *; simpl; lia].
    right. split; [lia|]. simpl. unfold next_idx. rewrite H1, Nat.Div0.add_mod_idemp_l. by rewrite <-Nat.add_assoc.
  - destruct (open_shard _ _ _ Hp Ha Hdone) as [Hi Hd'].
    destruct (view n (rs_idx r)) as [e|K] eqn:Hv; [by eexists|].
    pose proof (pass_inv_scan r hist _ K Hp Hi Hd') as Hp'.
    pose proof (scans_left_scan r hist _ K Hp Hs (view_size _ _ _ Hv) Hi Hd') as Hl.
    destruct (scan K _ scanCount) as [ks cur]. simpl in Hl. cbv zeta. change (if decide (cur = 0%Z) then _ else _) with (after_scan r cur).
    set (r' := after_scan r cur) in *.
    assert (∃ d', d' ≤ shards ∧
      (allDone r' = true ∨ d' < shards ∧ rs_done r' !! ((rs_idx r' + d') mod shards) = Some false)) as (d' & Hle & Hd2).
    { destruct (allDone r') eqn:Ha'; [exists 0; split; [lia|by left]|]. apply some_open in Ha' as (j & Hj).
      pose proof Hp' as [_ G2 [G3|G3] _]; [lia|].
      assert (j < shards) as Hjs by (apply lookup_lt_Some in Hj; lia).
      assert ((j + (shards - rs_idx r')) mod shards < shards) by (apply Nat.mod_upper_bound; lia).
      exists ((j + (shards - rs_idx r')) mod shards). split; [lia|]. right. split; [done|].
      rewrite Nat.Div0.add_mod_idemp_r. replace (rs_idx r' + (j + (shards - rs_idx r'))) with (j + 1 * shards) by lia.
      rewrite Nat.Div0.mod_add, Nat.mod_small by lia. done. }
    apply (IH _ _ (push hist (rs_idx r) K) _ _ d' Hp'); [by apply small_push; [|apply (view_size _ _ _ Hv)]|done|].
    nia.
Qed.
(** ** A whole pass *)

(** Calls with the given bounds until one completes the pass: the keys they returned and the
    number of SCANs. *)
Fixpoint rolling_pass (fuel : nat) (maxs : list Z) (n : nat) (r : reconState) (got : list bytes)
    : option (list bytes * nat) :=
  match maxs with
  | [] => None
  | max :: maxs =>
      match scanBatchFiltered fuel view scanCount max wanted n r [] with
      | Some (inr (keys, true), _, n') => Some (got ++ keys, n')
      | Some (inr (keys, false), r', n') => rolling_pass fuel maxs n' r' (got ++ keys)
      | _ => None
      end
  end.

(** The fuel one call needs at most. *)
Definition scan_fuel : nat := shards * S (scan_steps N) * S shards + S shards.

Lemma call_total max n r hist got keys :
  pass_inv r hist got → small hist → ∀ fuel, scan_fuel ≤ fuel →
  is_Some (scanBatchFiltered fuel view scanCount max wanted n r keys).
Proof.
  intros Hp Hs fuel Hf. pose proof Hp as [H1 H2 H3 _].
  assert (scans_left r hist ≤ shards * S (scan_steps N)) as Hb
    by (unfold scans_left; rewrite <-H2; apply left_from_bound).
  destruct (allDone r) eqn:Ha.
  - apply (scan_call_total max fuel n r hist got keys 0 Hp Hs); [by left|]. unfold scan_fuel in Hf. nia.
  - destruct (some_open r Ha) as [j Hj]. destruct H3 as [H3|H3]; [apply lookup_lt_Some in Hj; lia|].
    assert (j < shards) as Hjs by (apply lookup_lt_Some in Hj; lia).
    assert ((j + (shards - rs_idx r)) mod shards < shards) by (apply Nat.mod_upper_bound; lia).
    apply (scan_call_total max fuel n r hist got keys ((j + (shards - rs_idx r)) mod shards) Hp Hs).
    + right. split; [done|].
      rewrite Nat.Div0.add_mod_idemp_r. replace (rs_idx r + (j + (shards - rs_idx r))) with (j + 1 * shards) by lia.
      rewrite Nat.Div0.mod_add, Nat.mod_small by lia. done.
    + unfold scan_fuel in Hf. nia.
Qed.

(** A call without a failing SCAN has a result, and moves the pass on unless it completes it. *)
Lemma call_progress max n r hist base fuel :
  pass_inv r hist base → small hist → (0 < max)%Z → scan_fuel ≤ fuel → (∀ n i, is_Some (result_value (view n i))) →
  ∃ keys complete r' n' hist', scanBatchFiltered fuel view scanCount max wanted n r [] = Some (inr (keys, complete), r', n') ∧
    n ≤ n' ∧ extends hist hist' n n' ∧ small hist' ∧
    if complete then covered hist' (base ++ keys) ∧ r' = newRecon shards
    else pass_inv r' hist' (base ++ keys) ∧ scans_left r' hist' < scans_left r hist.
Proof.
  intros Hp Hs Hm Hf Hv. destruct (call_total max n r hist base [] Hp Hs fuel Hf) as [out Ho].
  assert (∀ f n r keys e r' n', scanBatchFiltered f view scanCount max wanted n r keys ≠ Some (inl e, r', n')) as Hno.
  { clear -Hv. induction f as [|f IH]; intros n r keys e r' n'; [done|]. cbn [scanBatchFiltered].
    case_decide; [done|]. destruct (allDone r); [done|]. destruct (default _ _); [apply IH|].
    destruct (Hv n (rs_idx r)) as [K HK]. destruct (view n (rs_idx r)) as [e'|K']; [done|].
    destruct (scan _ _ _). apply IH. }
  rewrite <-(app_nil_r base) in Hp.
  pose proof (scan_call_post fuel max n r hist base [] out Hp Hs Ho) as Hpost.
  destruct out as [[[e|[keys complete]] r'] n']; [by destruct (Hno _ _ _ _ _ _ _ Ho)|].
  destruct Hpost as (Hn & hist' & F1 & F2 & F3). exists keys, complete, r', n', hist'. split_and!; [done..|].
  destruct complete; [done|]. destruct F3 as (G1 & G2 & [->|G3]); [|done].
  exfalso. destruct fuel as [|fuel]; [done|]. cbn [scanBatchFiltered] in Ho.
  assert (∀ f n r keys r' n', scanBatchFiltered f view scanCount max wanted n r keys = Some (inr ([], false), r', n') → False) as Hne.
  { clear -Hm. induction f as [|f IH]; intros n r keys r' n'; [done|]. cbn [scanBatchFiltered].
    case_decide as Hd; [intros [= -> _ _]; simpl in Hd; lia|]. destruct (allDone r); [done|].
    destruct (default _ _); [apply IH|]. destruct (view _ _); [done|]. destruct (scan _ _ _). apply IH. }
  by apply (Hne (S fuel) n r [] r' n').
Qed.

Lemma rolling_pass_spec fuel maxs n r hist got :
  pass_inv r hist got → small hist → Forall (Z.lt 0) maxs → scan_fuel ≤ fuel →
  (∀ n i, is_Some (result_value (view n i))) → scans_left r hist < length maxs →
  ∃ got' n' hist', rolling_pass fuel maxs n r got = Some (got', n') ∧ n ≤ n' ∧ extends hist hist' n n' ∧ covered hist' got'.
Proof.
  intros Hp Hs Hm Hf Hv. revert n r hist got Hp Hs. induction Hm as [|max maxs Hmax Hm IH]; intros n r hist got Hp Hs Hl; [simpl in Hl; lia|].
  cbn [rolling_pass]. destruct (call_progress max n r hist got fuel Hp Hs Hmax Hf Hv)
    as (keys & complete & r' & n' & hist' & -> & Hn & F1 & F2 & F3).
  destruct complete; [destruct F3; by exists (got ++ keys), n', hist'|]. destruct F3 as [F3 F4].
  destruct (IH n' r' hist' (got ++ keys) F3 F2) as (got' & n2 & hist2 & -> & Hn2 & G1 & G2); [simpl in Hl; lia|].
  exists got', n2, hist2. split_and!; [done|lia| |done]. intros i K HK.
  destruct (G1 i K HK) as [HK'|(m & Hm' & Hvm)]; [|right; exists m; split; [lia|done]].
  destruct (F1 i K HK') as [?|(m & Hm' & Hvm)]; [by left|right; exists m; split; [lia|done]].
Qed.

(** C16: A rolling pass ends and misses nothing: while the keyspaces of the shards change
    between the SCANs but stay bounded and no SCAN fails, boundedly many calls (each with
    its own batch bound) complete a pass, and they have returned every selected key that was
    on its shard at every SCAN of the pass. *)
Theorem rolling_pass_covers (fuel : nat) (maxs : list Z) :
  Forall (Z.lt 0) maxs → scan_fuel ≤ fuel → (∀ n i, is_Some (result_value (view n i))) →
  shards * S (scan_steps N) < length maxs →
  ∃ got n', rolling_pass fuel maxs 0 (newRecon shards) [] = Some (got, n') ∧
    ∀ i k, i < shards → wanted k = true → (∀ m K, m < n' → view m i = inr K → k ∈ K) → k ∈ got.
Proof.
  intros Hm Hf Hv Hl.
  destruct (rolling_pass_spec fuel maxs 0 (newRecon shards) (λ _, []) []) as (got & n' & hist & Hr & _ & He & Hc); [..|].
  - apply newRecon_inv.
  - by intros i K HK%not_elem_of_nil.
  - done.
  - done.
  - done.
  - pose proof (left_from_bound 0 (λ _, []) (rs_done (newRecon shards))) as Hb. simpl in Hb.
    rewrite length_replicate in Hb. unfold scans_left. simpl. lia.
  - exists got, n'. split; [done|]. intros i k Hi Hw Hk. apply (Hc i k Hi Hw). intros K HK.
    destruct (He i K HK) as [HK'%not_elem_of_nil|(m & Hm' & Hvm)]; [done|]. by apply (Hk m); [lia|].
Qed.
End pass.

(** ** A server with two buckets

    Every iteration takes two SCANs: the keys of even length, then the others. *)
Module TwoBuckets.

Definition bucket (b : bool) (K : keyset) : list bytes :=
  filter (λ k, Nat.even (length k) = b) (elements K).

#[export] Instance server : ScanServer := {
  scan K c _ := if decide (c = 0%Z) then (bucket true K, 1%Z) else (bucket false K, 0%Z);
  server_glob _ _ := true;
  scan_steps _ := 2
}.

Lemma scanning_inv Ks ks c :
  scanning Ks ks c →
  (Ks = [] ∧ ks = [] ∧ c = 0%Z) ∨ (∃ K, Ks = [K] ∧ c = 1%Z ∧ ks = bucket true K) ∨
  (∃ K K', Ks = [K; K'] ∧ c = 0%Z ∧ ks = bucket true K ++ bucket false K').
Proof.
  induction 1 as [|Ks ks c K count _ IH Hopen]; [by left|]. right.
  destruct IH as [(-> & -> & ->)|[(K1 & -> & -> & ->)|(K1 & K2 & -> & -> & _)]].
  - left. by exists K.
  - right. by exists K1, K.
  - by destruct Hopen.
Qed.

#[export] Instance laws : ScanLaws server.
Proof.
  split.
  - intros Ks ks k Hs Hne Hk.
    destruct (scanning_inv Ks ks 0%Z Hs) as [[-> _]|[(K & _ & [=] & _)|(K & K' & -> & _ & ->)]]; [done|].
    unfold bucket. rewrite elem_of_app, !list_elem_of_filter, !elem_of_elements.
    destruct (Nat.even (length k)); [left|right]; (split; [done|]; apply Hk; set_solver).
  - intros N Ks ks c Hs Hc _.
    destruct (scanning_inv Ks ks c Hs) as [(_ & _ & ?)|[(K & -> & _)|(K & K' & _ & ? & _)]]; [done|simpl; lia|done].
Qed.
End TwoBuckets.

Section example.
Import TwoBuckets.

(** Two shards; the second one gains and loses a key between SCANs. *)
Definition example_view (n i : nat) : result keyset :=
  inr (if decide (i = 0) then {[ ["a"%char]; ["a"%char; "b"%char] ]}
       else if Nat.even n then {[ ["c"%char] ]} else {[ ["c"%char]; ["d"%char] ]}).

Lemma example_view_size n i K : example_view n i = inr K → size K ≤ 2.
Proof. unfold example_view. intros [= <-]. destruct (decide (i = 0)), (Nat.even n); vm_compute; lia. Qed.

Lemma rolling_pass_covers_witness :
  ∃ got n', rolling_pass 10 (λ _, true) example_view 100 (replicate 8 1%Z) 0 (newRecon 2) [] = Some (got, n') ∧
    ∀ i k, i < 2 → true = true → (∀ m K, m < n' → example_view m i = inr K → k ∈ K) → k ∈ got.
Proof.
  apply (rolling_pass_covers 2 10 (λ _, true) example_view 2 example_view_size 100 (replicate 8 1%Z)).
  - by apply Forall_replicate.
  - unfold scan_fuel. simpl. lia.
  - intros n i. by eexists.
  - simpl. lia.
Defined.

Lemma example_pass :
  rolling_pass 10 (λ _, true) example_view 100 (replicate 8 1%Z) 0 (newRecon 2) [] =
  Some ([["a"%char; "b"%char]; ["a"%char]; ["d"%char]; ["c"%char]], 4).
Proof. vm_compute. reflexivity. Qed.

(** A SCAN that fails discards the keys the same call had found before it, but not the cursor
    it had reached: the rest of the pass does not return them, although they were there at
    every SCAN. *)
Definition failing_view (n i : nat) : result keyset :=
  if decide (n = 1) then inl (Failure "i/o timeout") else example_view 0 0.

Lemma failed_scan_skips_keys :
  ∃ e r, scanBatchFiltered 9 failing_view 10 5 (λ _, true) 0 (newRecon 1) [] = Some (inl e, r, 2) ∧
    scanBatchFiltered 9 failing_view 10 5 (λ _, true) 2 r [] = Some (inr ([["a"%char]], true), newRecon 1, 3).
Proof. by eexists _, _. Qed.
End example.
End RedisScan.
