(* ===== verification/RedisSync.v ===== *)
(** * One-way replication of Redis ([internal/engine/redis])

    The source side ([stream.go], [copy.go], [notify.go]): finding keys by a rolling SCAN,
    reading their values as DUMP payloads with their time to live, answering which keys are
    missing. The sink side ([apply.go], [sink.go], [copy.go]): RESTORE REPLACE of a framed
    stream, DEL of keys that were not staged, the scan of the target for the delete sweep.
    Both behind the calls of [Calls], so that the drain of [Apply] and the sweep of [Stream]
    run on them.

    A record travels as the bytes [RedisFrame.write] gives it, in a row with the one column
    [frame]. Keys and payloads are bytes; a time to live is in milliseconds, -1 without one,
    and stands still while a call runs. *)

From S2P Require Import Prelude Text Engine Calls Apply RedisFrame RedisKeys RedisScan Stream.
Import Apply RedisKeys RedisScan.

Module RedisSync.

Abbreviation bytes := RedisFrame.bytes.
Abbreviation record := RedisFrame.record.

(** ** Tuning ([tuningFromParams]) *)

Definition defaultScanCount : Z := 512.

Record copyTuning := mkTuning {
  tu_scanCount : Z;
  tu_types : list string;
  tu_bigKeyWarn : Z;
  tu_bigKeyRefuse : Z;
  tu_absTTL : bool
}.

Definition splitCSV (s : string) : list string :=
  filter (λ part, part ≠ "") (Text.untxt <$> Text.split_on "," (Text.txt s)).

(** [strconv.ParseInt] without its error: 0 for a text that is no number, the nearest bound for
    one out of range. *)
Definition parseInt64 (s : string) : Z :=
  let '(neg, l) := match Text.txt s with
                   | a :: r => if Ascii.eqb a "-" then (true, r)
                               else if Ascii.eqb a "+" then (false, r) else (false, a :: r)
                   | [] => (false, [])
                   end in
  match l with
  | [] => 0%Z
  | _ =>
      match Text.digits_val 0 l with
      | None => 0%Z
      | Some n => if (neg : bool) then Z.max (- 2 ^ 63) (- n) else Z.min (2 ^ 63 - 1) n
      end
  end.

Definition tuningFromParams (p : gmap string string) : copyTuning :=
  let get k := default "" (p !! k) in
  mkTuning
    (match Text.Atoi (Text.txt (get "rc_scan_count")) with
     | Some n => if decide (0 < n)%Z then n else defaultScanCount
     | None => defaultScanCount
     end)
    (splitCSV (get "rc_types"))
    (parseInt64 (get "rc_big_key_warn"))
    (parseInt64 (get "rc_big_key_refuse"))
    (bool_decide (get "rc_ttl_mode" = "absttl")).

(** ** Values *)

(** A value as DUMP and PTTL show it. *)
Record entry := mkEntry { e_dump : bytes; e_pttl : Z }.
#[global] Instance entry_eq_dec : EqDecision entry.
Proof. solve_decision. Defined.

Abbreviation db := (gmap bytes entry).

(** [redisKey] *)
Definition redisKey (kv : KeyValues) : bytes :=
  match kv with [] => [] | v :: _ => Text.txt (sprint v) end.

Definition key_of (k : bytes) : KeyValues := [VText (Text.untxt k)].

(** ** Framing keys ([restoreTTL], [frameKeys]) *)

Definition restoreTTL (pttl : Z) (absTTL : bool) (nowMillis : Z) : Z * Z :=
  if decide (pttl < 0)%Z then (0%Z, 0%Z)
  else
    let ms := if decide (pttl <= 0)%Z then 1%Z else pttl in
    if absTTL then ((nowMillis + ms)%Z, RedisFrame.flagAbsTTL) else (ms, 0%Z).

(** The records written before the first error. [dump], [pttl] and [memory] are the answers of
    the pipeline: no payload or -2 for a key that is gone. *)
Section frame.
Context (tun : copyTuning) (dump : bytes → option bytes) (pttl : bytes → Z) (memory : bytes → option Z) (nowMillis : Z).

Definition refused (k : bytes) : bool :=
  match memory k with
  | Some used => bool_decide (0 < tu_bigKeyRefuse tun ∧ tu_bigKeyRefuse tun <= used)%Z
  | None => false
  end.

Fixpoint frame_loop (keys : list bytes) : list record * option error :=
  match keys with
  | [] => ([], None)
  | k :: keys =>
      match dump k with
      | None => frame_loop keys
      | Some payload =>
          if decide (pttl k = (-2)%Z) then frame_loop keys
          else if (bool_decide (0 < tu_bigKeyWarn tun)%Z || bool_decide (0 < tu_bigKeyRefuse tun)%Z) && refused k then
            ([], Some (Failure "redis: key over the big_key_refuse_bytes cap: refusing to copy"))
          else
            let '(ttl, flags) := restoreTTL (pttl k) (tu_absTTL tun) nowMillis in
            let '(recs, err) := frame_loop keys in
            (RedisFrame.mkRecord k ttl flags payload RedisFrame.zeroVersion :: recs, err)
      end
  end.

Definition frameKeys (sel : option selection) (keys : list bytes) : list record * option error :=
  frame_loop (filter (λ k, match sel with None => true | Some s => sel_match s k end = true) keys).
End frame.

(** ** Restoring a stream ([restoreStream]) *)

Definition restoreBatch : nat := 256.

Section restore.
(** [accepts]: the target can load the payload; [now]: its clock. *)
Context (accepts : bytes → bool) (now : Z).

(** [RESTORE key ttl payload REPLACE [ABSTTL]] *)
Definition restore_entry (rec : record) : option entry :=
  if (RedisFrame.rec_ttl rec =? 0)%Z then Some (mkEntry (RedisFrame.rec_dump rec) (-1))
  else if RedisFrame.has_flag (RedisFrame.rec_flags rec) RedisFrame.flagAbsTTL then
    if decide (RedisFrame.rec_ttl rec <= now)%Z then None
    else Some (mkEntry (RedisFrame.rec_dump rec) (RedisFrame.rec_ttl rec - now))
  else Some (mkEntry (RedisFrame.rec_dump rec) (RedisFrame.rec_ttl rec)).

Definition restorable (rec : record) : bool :=
  accepts (RedisFrame.rec_dump rec) && bool_decide (0 <= RedisFrame.rec_ttl rec)%Z.

Definition restore (d : db) (rec : record) : db :=
  if restorable rec then partial_alter (λ _, restore_entry rec) (RedisFrame.rec_key rec) d else d.

(** [flush]: one pipeline; the commands after a failed one are still executed. *)
Definition flush (recs : list record) (d : db) (staged : gset bytes) : option error * db * gset bytes :=
  (match filter (λ rec, restorable rec = false) recs with
   | [] => None
   | _ => Some (Failure "redis: RESTORE")
   end,
   foldl restore d recs,
   list_to_set (RedisFrame.rec_key <$> recs) ∪ staged).

Definition io_error (e : RedisFrame.ioError) : error := Failure "redis: read record".

Fixpoint restore_loop (fuel : nat) (r : RedisFrame.reader) (recs : list record) (total : Z) (d : db) (staged : gset bytes)
    : option (result Z * db * gset bytes) :=
  match fuel with
  | 0 => None
  | S fuel =>
      match RedisFrame.readRecord r with
      | inl RedisFrame.EOF =>
          let '(err, d, staged) := flush recs d staged in
          Some (match err with None => inr (total + Z.of_nat (length recs))%Z | Some e => inl e end, d, staged)
      | inl e => Some (inl (io_error e), d, staged)
      | inr (rec, r) =>
          let recs := recs ++ [rec] in
          if decide (restoreBatch ≤ length recs) then
            let '(err, d, staged) := flush recs d staged in
            match err with
            | Some e => Some (inl e, d, staged)
            | None => restore_loop fuel r [] (total + Z.of_nat (length recs))%Z d staged
            end
          else restore_loop fuel r recs total d staged
      end
  end.

(** A record takes at least one byte. *)
Definition restoreStream (r : RedisFrame.reader) (d : db) (staged : gset bytes) : result Z * db * gset bytes :=
  default (inr 0%Z, d, staged) (restore_loop (S (length (RedisFrame.rd_bytes r))) r [] 0 d staged).
End restore.
(** ** The engine *)

(** A server: its shards, and which of them holds a key. *)
Record topology := mkTopology { top_shards : nat; top_owner : bytes → nat }.

Definition shard_keys (top : topology) (d : db) (i : nat) : keyset :=
  filter (λ k, top_owner top k = i) (dom d).

(** [notifier]: the flagged keys, and whether the subscription had a gap. *)
Record notifier := mkNotifier { nt_priority : gset bytes; nt_gapped : bool }.

(** The two servers and the state of the [Source] and the [Sink]; [rw_tx]: the keys staged by
    the open apply transaction of a connection. *)
Record rworld := mkRW {
  rw_src : db;
  rw_tgt : db;
  rw_sel : option selection;
  rw_recon : option reconState;
  rw_changeID : Z;
  rw_notify : option notifier;
  rw_sinkSel : option selection;
  rw_targetRecon : option reconState;
  rw_tx : gmap nat (gset bytes)
}.

Definition set_rtgt (w : rworld) (x : db) : rworld :=
  mkRW (rw_src w) x (rw_sel w) (rw_recon w) (rw_changeID w) (rw_notify w) (rw_sinkSel w) (rw_targetRecon w) (rw_tx w).
Definition set_rsel (w : rworld) (x : option selection) : rworld :=
  mkRW (rw_src w) (rw_tgt w) x (rw_recon w) (rw_changeID w) (rw_notify w) (rw_sinkSel w) (rw_targetRecon w) (rw_tx w).
Definition set_rsource (w : rworld) (recon : option reconState) (id : Z) (nt : option notifier) : rworld :=
  mkRW (rw_src w) (rw_tgt w) (rw_sel w) recon id nt (rw_sinkSel w) (rw_targetRecon w) (rw_tx w).
Definition set_rtrecon (w : rworld) (x : option reconState) : rworld :=
  mkRW (rw_src w) (rw_tgt w) (rw_sel w) (rw_recon w) (rw_changeID w) (rw_notify w) (rw_sinkSel w) x (rw_tx w).
Definition set_rtx (w : rworld) (x : gmap nat (gset bytes)) : rworld :=
  mkRW (rw_src w) (rw_tgt w) (rw_sel w) (rw_recon w) (rw_changeID w) (rw_notify w) (rw_sinkSel w) (rw_targetRecon w) x.

Definition unitRef (database : string) : TableRef :=
  mkRef "redis" ("db" +:+ (if decide (database = "") then "0" else database)).

Definition pseudoTable (ref : TableRef) : Table :=
  mkTable ref [mkColumn "key" "redis-key" false false false false false ""] (Some (mkKey "pk" ["key"] true)) [] [] false "".

Section engine.
Context `{Srv : ScanServer}.
(** [memory]: MEMORY USAGE on the source; [srcNow], [tgtNow]: the clocks; [ranged]: the order in
    which Go ranges over a set; [fuel]: a bound on the iterations of a scan loop. *)
Context (tun : copyTuning) (srcTop tgtTop : topology) (memory : bytes → option Z) (accepts : bytes → bool)
        (srcNow tgtNow : Z) (ranged : gset bytes → list bytes) (database : string) (fuel : nat).

(** A scan of a server that nobody writes to meanwhile. *)
Definition still (top : topology) (d : db) : nat → nat → result keyset := λ _ i, inr (shard_keys top d i).

Definition scanBatch (top : topology) (d : db) (r : reconState) (max : Z) (sel : option selection)
    : result (list bytes * bool) * reconState :=
  match scanBatchFiltered fuel (still top d) (tu_scanCount tun) max (keep sel [] (λ _, false)) 0 r [] with
  | Some (res, r, _) => (res, r)
  | None => (inl (Failure "redis: SCAN does not end"), r)
  end.

(** [notifier.drain] *)
Definition drain (nt : notifier) (max : nat) : list bytes * bool * notifier :=
  let keys := take max (ranged (nt_priority nt)) in
  (keys, nt_gapped nt, mkNotifier (nt_priority nt ∖ list_to_set keys) false).

(** The dirty keys of a batch, numbered on from [id]. *)
Fixpoint number (id : Z) (keys : list bytes) : list DirtyKey :=
  match keys with
  | [] => []
  | k :: keys => mkDirty (id + 1)%Z OpUpdate (key_of k) :: number (id + 1)%Z keys
  end.

(** [Source.ReadDirtyKeys] *)
Definition readDirtyKeys (max : Z) (w : rworld) : result (list DirtyKey) * rworld :=
  let max := if decide (max <= 0)%Z then defaultScanCount else max in
  let recon := default (newRecon (top_shards srcTop)) (rw_recon w) in
  let '(flagged, recon, nt) :=
    match rw_notify w with
    | None => ([], recon, None)
    | Some nt =>
        let '(keys, gapped, nt) := drain nt (Z.to_nat max) in
        (filter (λ k, match rw_sel w with None => true | Some s => sel_match s k end = true) keys,
         if (gapped : bool) then reset recon else recon, Some nt)
    end in
  let batch := number (rw_changeID w) flagged in
  let id := (rw_changeID w + Z.of_nat (length flagged))%Z in
  if decide (bool_decide (rw_notify w ≠ None) = true ∧ (max <= Z.of_nat (length batch))%Z)
  then (inr batch, set_rsource w (Some recon) id nt)
  else
    match scanBatch srcTop (rw_src w) recon (max - Z.of_nat (length batch)) (rw_sel w) with
    | (inl e, recon) => (inl e, set_rsource w (Some recon) id nt)
    | (inr (keys, _), recon) =>
        (inr (batch ++ number id keys), set_rsource w (Some recon) (id + Z.of_nat (length keys))%Z nt)
    end.

(** [Source.RereadCurrent]: the frames by key. *)
Definition frames (recs : list record) : gmap KeyValues Row :=
  list_to_map ((λ rec, (key_of (RedisFrame.rec_key rec), {[ "frame" := Text.untxt (RedisFrame.write rec) ]})) <$> recs).

Definition src_dump (d : db) (k : bytes) : option bytes := e_dump <$> d !! k.
Definition src_pttl (d : db) (k : bytes) : Z := match d !! k with Some e => e_pttl e | None => (-2)%Z end.

Definition rereadCurrent (keys : list KeyValues) (w : rworld) : result (gmap KeyValues Row) :=
  let '(recs, err) := frameKeys tun (src_dump (rw_src w)) (src_pttl (rw_src w)) memory srcNow None (redisKey <$> keys) in
  match err with Some e => inl e | None => inr (frames recs) end.

(** [Source.MissingAtSource] *)
Definition missingAtSource (keys : list KeyValues) (w : rworld) : list KeyValues :=
  key_of <$> filter (λ k, rw_src w !! k = None) (redisKey <$> keys).

(** [redisApplyTx.StageUpsert]: what the pipe delivers, restored. *)
Definition piped (m : gmap KeyValues Row) : RedisFrame.reader :=
  RedisFrame.mkReader (map_to_list m ≫= λ '(_, row), Text.txt (default "" (row !! "frame"))) RedisFrame.EOF.

Definition stageUpsert (c : nat) (m : gmap KeyValues Row) (w : rworld) : result unit * rworld :=
  match rw_tx w !! c with
  | None => (inl (Failure "no transaction"), w)
  | Some staged =>
      let '(res, d, staged) := restoreStream accepts tgtNow (piped m) (rw_tgt w) staged in
      (match res with inl e => inl e | inr _ => inr tt end, set_rtx (set_rtgt w d) (<[c := staged]> (rw_tx w)))
  end.

(** [redisApplyTx.DeleteAbsent] *)
Definition deleteAbsent (c : nat) (keys : list KeyValues) (w : rworld) : result unit * rworld :=
  match rw_tx w !! c with
  | None => (inl (Failure "no transaction"), w)
  | Some staged =>
      (inr tt, set_rtgt w (foldl (λ d k, delete k d) (rw_tgt w) (filter (λ k, k ∉ staged) (redisKey <$> keys))))
  end.

(** [Sink.ScanTargetKeys] *)
Definition scanTargetKeys (count : Z) (w : rworld) : result (list KeyValues * Z) * rworld :=
  let count := if decide (count <= 0)%Z then defaultScanCount else count in
  let recon := default (newRecon (top_shards tgtTop)) (rw_targetRecon w) in
  match scanBatch tgtTop (rw_tgt w) recon count (rw_sinkSel w) with
  | (inl e, recon) => (inl e, set_rtrecon w (Some recon))
  | (inr (keys, complete), recon) =>
      (inr (key_of <$> keys, if (complete : bool) then 0%Z else 1%Z), set_rtrecon w (Some recon))
  end.

(** The calls of the drain and of the sweep. *)
Definition redis_handler (c : nat) (o : call) (w : rworld) : result (resp o) * rworld :=
  match o return result (resp o) * rworld with
  | ReadDirtyKeys _ _ max => readDirtyKeys max w
  | Introspect sel =>
      (inr [pseudoTable (unitRef database)],
       match rw_sel w with None => set_rsel w (Some (compileSelection sel)) | Some _ => w end)
  | RereadCurrent _ keys => (rereadCurrent keys w, w)
  | ConfirmConsumed _ _ _ => (inr tt, w)
  | Purge _ _ _ => (inr (mkPurgeStats 0 []), w)
  | MissingAtSource _ keys => (inr (missingAtSource keys w), w)
  | BeginApply _ _ => (inr tt, set_rtx w (<[c := ∅]> (rw_tx w)))
  | StageUpsert _ _ rd => match rd with inl e => (inl e, w) | inr m => stageUpsert c m w end
  | DeleteAbsent _ keys => deleteAbsent c keys w
  | Commit | Rollback => (inr tt, set_rtx w (delete c (rw_tx w)))
  | ScanTargetKeys _ _ count => scanTargetKeys count w
  | DeleteRange _ _ _ => (inr tt, w)
  | ApplyPass _ _ _ _ => (inl (Failure "redis: not implemented"), w)
  | SrcHealthCheck | SinkHealthCheck => (inr tt, w)
  | CtxErr | After _ => (inr tt, w)
  | _ => (inl (Failure "not a call of the drain"), w)
  end.
End engine.
(** ** Restoring what was framed *)

Lemma redisKey_of k : redisKey (key_of k) = k.
Proof. unfold redisKey, key_of. simpl. apply Text.txt_untxt. Qed.

Lemma redisKeys_of (ks : list bytes) : redisKey <$> (key_of <$> ks) = ks.
Proof.
  induction ks as [|k ks IH]; [done|]. rewrite !fmap_cons, redisKey_of. by f_equal.
Qed.

#[global] Instance key_of_inj : Inj (=) (=) key_of.
Proof. intros k k' H. by rewrite <-(redisKey_of k), <-(redisKey_of k'), H. Qed.

Lemma fold_delete (l : list bytes) (m : db) (k : bytes) :
  foldl (λ d k, delete k d) m l !! k = if decide (k ∈ l) then None else m !! k.
Proof.
  revert m k. induction l as [|x l IH]; intros m k; [done|]. simpl. rewrite IH. destruct (decide (x = k)) as [->|Hx].
  - rewrite lookup_delete_eq, (decide_True (P := k ∈ k :: l)) by (by left). by case_decide.
  - rewrite lookup_delete_ne by done. destruct (decide (k ∈ l)) as [Hk|Hk];
      [by rewrite decide_True by (by right)|by rewrite decide_False by (by rewrite not_elem_of_cons)].
Qed.

Section restored.
Context (accepts : bytes → bool) (now : Z).

Lemma restore_loop_frames fuel recs pend total d staged :
  Forall RedisFrame.record_ok recs → Forall (λ rec, restorable accepts rec = true) (pend ++ recs) →
  length (recs ≫= RedisFrame.write) < fuel →
  ∃ n, restore_loop accepts now fuel (RedisFrame.mkReader (recs ≫= RedisFrame.write) RedisFrame.EOF) pend total d staged =
    Some (inr n, foldl (restore accepts now) d (pend ++ recs),
          list_to_set (RedisFrame.rec_key <$> pend ++ recs) ∪ staged).
Proof.
  assert (∀ l : list record, Forall (λ rec, restorable accepts rec = true) l →
    filter (λ rec, restorable accepts rec = false) l = []) as Hnone.
  { intros l Hl. apply filter_none. intros x Hx. rewrite Forall_forall in Hl. by rewrite (Hl x Hx). }
  revert recs pend total d staged. induction fuel as [|fuel IH]; intros recs pend total d staged Hok Hr Hf; [lia|].
  cbn [restore_loop]. destruct recs as [|rec recs].
  { simpl. rewrite app_nil_r in *. rewrite Hnone by done. by eexists. }
  apply Forall_cons in Hok as [Hrec Hok]. rewrite bind_cons in *. rewrite RedisFrame.readRecord_write by done.
  pose proof (RedisFrame.write_nonempty rec). rewrite length_app in Hf. cbv zeta.
  rewrite (cons_middle rec pend recs), app_assoc in *. case_decide as Hb.
  - unfold flush. rewrite Hnone by (by apply Forall_app in Hr as [? _]).
    destruct (IH recs [] (total + Z.of_nat (length (pend ++ [rec])))%Z
      (foldl (restore accepts now) d (pend ++ [rec])) (list_to_set (RedisFrame.rec_key <$> pend ++ [rec]) ∪ staged))
      as [n Hn]; [done|by apply Forall_app in Hr as [_ ?]|lia|].
    rewrite Hn. exists n. do 2 f_equal.
    + by rewrite <-(foldl_app _ (pend ++ [rec]) recs).
    + rewrite app_nil_l, (fmap_app _ (pend ++ [rec]) recs), list_to_set_app_L. set_solver.
  - apply IH; [done..|lia].
Qed.

Lemma restoreStream_frames recs d :
  Forall RedisFrame.record_ok recs → Forall (λ rec, restorable accepts rec = true) recs →
  ∃ n, restoreStream accepts now (RedisFrame.mkReader (recs ≫= RedisFrame.write) RedisFrame.EOF) d ∅ =
    (inr n, foldl (restore accepts now) d recs, list_to_set (RedisFrame.rec_key <$> recs)).
Proof.
  intros Hok Hr. unfold restoreStream.
  destruct (restore_loop_frames (S (length (recs ≫= RedisFrame.write))) recs [] 0 d ∅ Hok Hr) as [n Hn]; [lia|].
  cbn [RedisFrame.rd_bytes]. rewrite Hn. exists n. simpl. by rewrite (right_id_L ∅ (∪)).
Qed.

Lemma foldl_restore recs d k :
  Forall (λ rec, restorable accepts rec = true) recs → NoDup (RedisFrame.rec_key <$> recs) →
  (∀ rec, rec ∈ recs → RedisFrame.rec_key rec = k → foldl (restore accepts now) d recs !! k = restore_entry now rec) ∧
  (k ∉ RedisFrame.rec_key <$> recs → foldl (restore accepts now) d recs !! k = d !! k).
Proof.
  intros Hr. revert d. induction Hr as [|rec recs Hrec Hr IH]; intros d Hnd.
  { split; [by intros rec Hin%not_elem_of_nil|done]. }
  rewrite fmap_cons in Hnd. apply NoDup_cons in Hnd as [Hn Hnd]. simpl.
  destruct (IH (restore accepts now d rec) Hnd) as [IH1 IH2].
  assert (restore accepts now d rec = partial_alter (λ _, restore_entry now rec) (RedisFrame.rec_key rec) d) as Hre
    by (unfold restore; by rewrite Hrec).
  split.
  - intros rec' [->|Hin]%elem_of_cons Hk; [|by apply IH1]. subst k. rewrite IH2 by done.
    by rewrite Hre, lookup_partial_alter_eq.
  - rewrite not_elem_of_cons. intros [Hk Hk']. rewrite IH2 by done. rewrite Hre, lookup_partial_alter_ne; done.
Qed.
End restored.

(** The pipe delivers the frames, in some order. *)
Lemma piped_frames recs :
  NoDup (RedisFrame.rec_key <$> recs) →
  ∃ recs', recs' ≡ₚ recs ∧ piped (frames recs) = RedisFrame.mkReader (recs' ≫= RedisFrame.write) RedisFrame.EOF.
Proof.
  intros Hnd. unfold piped, frames.
  set (f := λ rec, (key_of (RedisFrame.rec_key rec), {[ "frame" := Text.untxt (RedisFrame.write rec) ]} : Row)).
  assert (NoDup (f <$> recs).*1) as Hnd'.
  { rewrite <-list_fmap_compose. unfold compose, f. simpl.
    rewrite (list_fmap_compose RedisFrame.rec_key key_of). by apply NoDup_fmap_2; [apply _|]. }
  pose proof (map_to_list_to_map (M := gmap KeyValues) (f <$> recs) Hnd') as Hp.
  apply Permutation_map_inv in Hp as (recs' & Heq & Hp). exists recs'. split; [by symmetry|].
  f_equal. change (map f recs') with (f <$> recs') in Heq. rewrite Heq, list_fmap_bind.
  apply list_bind_ext; [|done]. intros rec. unfold f, compose.
  rewrite lookup_singleton_eq. apply Text.txt_untxt.
Qed.
(** ** One round on quiet servers *)

(** What the target gets for a value: its payload, and its time to live in whole milliseconds. *)
Definition want (e : entry) : entry := mkEntry (e_dump e) (if decide (e_pttl e < 0)%Z then -1 else Z.max 1 (e_pttl e)).

Section round.
Context `{Laws : ScanLaws}.
Context (tun : copyTuning) (srcTop tgtTop : topology) (memory : bytes → option Z) (accepts : bytes → bool)
        (srcNow tgtNow : Z) (ranged : gset bytes → list bytes) (database : string) (fuel : nat).
Context (Hnow : (0 <= srcNow)%Z) (Hclocks : tu_absTTL tun = true → srcNow = tgtNow).

Abbreviation handler := (redis_handler tun srcTop tgtTop memory accepts srcNow tgtNow ranged database fuel).
Abbreviation unit := (unitRef database).

(** A value that can be framed and restored. *)
Record value_ok (k : bytes) (e : entry) : Prop := {
  vo_key : (Z.of_nat (length k) < 2 ^ 32)%Z;
  vo_dump : (Z.of_nat (length (e_dump e)) < 2 ^ 32)%Z;
  vo_ttl : (-1 <= e_pttl e)%Z ∧ (srcNow + e_pttl e + 1 < 2 ^ 63)%Z;
  vo_small : refused tun memory k = false;
  vo_accepts : accepts (e_dump e) = true
}.

Definition src_ok (d : db) : Prop := ∀ k e, d !! k = Some e → value_ok k e.

Definition record_of (k : bytes) (e : entry) : record :=
  let '(ttl, flags) := restoreTTL (e_pttl e) (tu_absTTL tun) srcNow in
  RedisFrame.mkRecord k ttl flags (e_dump e) RedisFrame.zeroVersion.

Lemma record_of_ok k e :
  value_ok k e →
  RedisFrame.record_ok (record_of k e) ∧ restorable accepts (record_of k e) = true ∧
  restore_entry tgtNow (record_of k e) = Some (want e) ∧ RedisFrame.rec_key (record_of k e) = k.
Proof.
  intros [H1 H2 [H3 H3'] _ H5]. unfold record_of, restoreTTL, want.
  assert (∀ ttl flags, (0 <= ttl < 2 ^ 63)%Z → flags = 0%Z ∨ flags = 1%Z →
    RedisFrame.record_ok (RedisFrame.mkRecord k ttl flags (e_dump e) RedisFrame.zeroVersion) ∧
    restorable accepts (RedisFrame.mkRecord k ttl flags (e_dump e) RedisFrame.zeroVersion) = true) as Hok.
  { intros ttl flags Ht Hf. split.
    - split; simpl; [done|done|lia|destruct Hf as [-> | ->]; lia|done|destruct Hf as [-> | ->]; done].
    - unfold restorable. simpl. rewrite H5. simpl. by apply bool_decide_eq_true, Ht. }
  case_decide as Hneg.
  { destruct (Hok 0%Z 0%Z) as [F1 F2]; [lia|by left|]. by split_and!. }
  cbv zeta. set (ms := if decide (e_pttl e <= 0)%Z then 1%Z else e_pttl e).
  assert (ms = Z.max 1 (e_pttl e)) as Hms by (unfold ms; case_decide; lia).
  assert (1 <= ms <= e_pttl e + 1)%Z as Hb by lia. rewrite <-Hms. destruct (tu_absTTL tun) eqn:Habs.
  - destruct (Hok (srcNow + ms)%Z 1%Z) as [F1 F2]; [lia|by right|]. split_and!; [done..| |done].
    unfold restore_entry. simpl. rewrite <-Hclocks by done.
    destruct (Z.eqb_spec (srcNow + ms) 0); [lia|]. rewrite decide_False by lia. do 2 f_equal. lia.
  - destruct (Hok ms 0%Z) as [F1 F2]; [lia|by left|]. split_and!; [done..| |done].
    unfold restore_entry. simpl. destruct (Z.eqb_spec ms 0); [lia|done].
Qed.

(** Framing keys of a quiet source: a record per key that is there. *)
Lemma frameKeys_spec (d : db) (ks : list bytes) :
  src_ok d →
  frameKeys tun (src_dump d) (src_pttl d) memory srcNow None ks =
  (omap (λ k, record_of k <$> d !! k) ks, None).
Proof.
  intros Hd. unfold frameKeys. rewrite filter_all by done. induction ks as [|k ks IH]; [done|]. cbn [frame_loop omap list_omap].
  destruct (d !! k) as [e|] eqn:E; simpl.
  - assert (src_dump d k = Some (e_dump e) ∧ src_pttl d k = e_pttl e) as [-> ->]
      by (unfold src_dump, src_pttl; by rewrite E).
    destruct (Hd k e E) as [_ _ [H3 _] H4 _]. rewrite decide_False by lia. rewrite H4, andb_false_r, IH. unfold record_of.
    by destruct (restoreTTL _ _ _).
  - assert (src_dump d k = None) as -> by (unfold src_dump; by rewrite E). done.
Qed.

Lemma framed_keys (d : db) (ks : list bytes) (rec : record) :
  src_ok d → rec ∈ omap (λ k, record_of k <$> d !! k) ks ↔ ∃ k e, k ∈ ks ∧ d !! k = Some e ∧ rec = record_of k e.
Proof.
  intros Hd. rewrite list_elem_of_omap. split.
  - intros (k & Hk & He). destruct (d !! k) as [e|] eqn:E; [|done]. injection He as <-. by exists k, e.
  - intros (k & e & Hk & He & ->). exists k. by rewrite He.
Qed.

Lemma framed_NoDup (d : db) (ks : list bytes) :
  src_ok d → NoDup ks → NoDup (RedisFrame.rec_key <$> omap (λ k, record_of k <$> d !! k) ks).
Proof.
  intros Hd. induction 1 as [|k ks Hk Hnd IH]; [constructor|]. cbn [omap list_omap].
  destruct (d !! k) as [e|] eqn:E; simpl; [|done]. constructor; [|done].
  destruct (record_of_ok k e (Hd k e E)) as (_ & _ & _ & ->).
  intros (rec & Hrk & (k' & e' & Hin & He' & ->)%framed_keys)%list_elem_of_fmap; [|done].
  destruct (record_of_ok k' e' (Hd k' e' He')) as (_ & _ & _ & Hk'). by rewrite Hrk, Hk' in Hk.
Qed.

(** [pipeStageUpsert] sets the keys that are there. *)
Lemma exec_stage c ref cols ks w :
  src_ok (rw_src w) → NoDup ks → rw_tx w !! c = Some ∅ →
  ∃ d staged, exec handler (pipeStageUpsert c ref cols (key_of <$> ks)) w =
      (None, set_rtx (set_rtgt w d) (<[c := staged]> (rw_tx w))) ∧
    (∀ k, d !! k = match rw_src w !! k with
                   | Some e => if decide (k ∈ ks) then Some (want e) else rw_tgt w !! k
                   | None => rw_tgt w !! k
                   end) ∧
    (∀ k, k ∈ staged ↔ k ∈ ks ∧ is_Some (rw_src w !! k)).
Proof.
  intros Hsrc Hnd Htx. unfold pipeStageUpsert. cbn [exec do_call mbind prog_mbind prog_bind redis_handler].
  unfold rereadCurrent. rewrite redisKeys_of, frameKeys_spec by done. set (recs := omap _ ks).
  assert (∀ rec, rec ∈ recs → RedisFrame.record_ok rec ∧ restorable accepts rec = true) as Hrecs.
  { intros rec (k & e & _ & He & ->)%framed_keys; [|done]. by destruct (record_of_ok k e (Hsrc k e He)) as (? & ? & _). }
  pose proof (framed_NoDup (rw_src w) ks Hsrc Hnd : NoDup (RedisFrame.rec_key <$> recs)) as Hrnd.
  destruct (piped_frames recs Hrnd) as (recs' & Hp & Hpipe).
  unfold stageUpsert. rewrite Htx, Hpipe.
  assert (Forall RedisFrame.record_ok recs' ∧ Forall (λ rec, restorable accepts rec = true) recs') as [Hok Hre].
  { split; apply Forall_forall; intros rec Hr; rewrite Hp in Hr; by apply Hrecs. }
  destruct (restoreStream_frames accepts tgtNow recs' (rw_tgt w) Hok Hre) as [n ->].
  eexists _, _. split; [done|]. rewrite <-Hp in Hrnd. split.
  - intros k. destruct (foldl_restore accepts tgtNow recs' (rw_tgt w) k Hre Hrnd) as [F1 F2].
    destruct (rw_src w !! k) as [e|] eqn:E; [case_decide as Hk|].
    + destruct (record_of_ok k e (Hsrc k e E)) as (_ & _ & G3 & G4). rewrite (F1 (record_of k e)); [done| |done].
      rewrite Hp. apply framed_keys; [done|]. by exists k, e.
    + apply F2. rewrite Hp. intros (rec & Hrk & (k' & e' & Hin & He' & ->)%framed_keys)%list_elem_of_fmap; [|done].
      destruct (record_of_ok k' e' (Hsrc k' e' He')) as (_ & _ & _ & G4). congruence.
    + apply F2. rewrite Hp. intros (rec & Hrk & (k' & e' & Hin & He' & ->)%framed_keys)%list_elem_of_fmap; [|done].
      destruct (record_of_ok k' e' (Hsrc k' e' He')) as (_ & _ & _ & G4). congruence.
  - intros k. rewrite elem_of_list_to_set, Hp, list_elem_of_fmap. split.
    + intros (rec & -> & (k' & e' & Hin & He' & ->)%framed_keys); [|done].
      destruct (record_of_ok k' e' (Hsrc k' e' He')) as (_ & _ & _ & ->). by split; [|eexists].
    + intros [Hk [e He]]. exists (record_of k e). destruct (record_of_ok k e (Hsrc k e He)) as (_ & _ & _ & G4).
      split; [done|]. apply framed_keys; [done|]. by exists k, e.
Qed.
(** The keys [ks] of the target are as on the source, the rest is untouched. *)
Record drained (ks : list bytes) (w w' : rworld) : Prop := {
  dr_src : rw_src w' = rw_src w;
  dr_sel : rw_sel w' = rw_sel w;
  dr_notify : rw_notify w' = rw_notify w;
  dr_sinkSel : rw_sinkSel w' = rw_sinkSel w;
  dr_recon : rw_recon w' = rw_recon w;
  dr_trecon : rw_targetRecon w' = rw_targetRecon w;
  dr_tgt k : rw_tgt w' !! k = if decide (k ∈ ks) then want <$> rw_src w !! k else rw_tgt w !! k
}.

Lemma exec_upsert c work ks w :
  src_ok (rw_src w) → NoDup ks → tw_distinct work = key_of <$> ks →
  ∃ d, exec handler (perTableUpsert c work) w = (None, set_rtx (set_rtgt w d) (delete c (rw_tx w))) ∧
    ∀ k, d !! k = match rw_src w !! k with
                  | Some e => if decide (k ∈ ks) then Some (want e) else rw_tgt w !! k
                  | None => rw_tgt w !! k
                  end.
Proof.
  intros Hsrc Hnd Hd. unfold perTableUpsert, try_call, with_rollback, try_prog.
  rewrite exec_bind. cbn [exec do_call redis_handler]. rewrite exec_bind, exec_bind, Hd.
  destruct (exec_stage c (tw_ref work) (tw_cols work) ks (set_rtx w (<[c := ∅]> (rw_tx w)))) as (d & staged & -> & F1 & _);
    [done..|by simpl; rewrite lookup_insert_eq|].
  exists d. split; [|done]. simpl. unfold set_rtx, set_rtgt. simpl. do 2 f_equal.
  by rewrite insert_insert_eq, delete_insert_eq.
Qed.

Lemma exec_delete c work ks w :
  src_ok (rw_src w) → NoDup ks → tw_distinct work = key_of <$> ks →
  ∃ d, exec handler (perTableDelete c work) w = (None, set_rtx (set_rtgt w d) (delete c (rw_tx w))) ∧
    ∀ k, d !! k = if decide (k ∈ ks) then want <$> rw_src w !! k else rw_tgt w !! k.
Proof.
  intros Hsrc Hnd Hd. unfold perTableDelete, try_call, with_rollback, try_prog.
  rewrite exec_bind. cbn [exec do_call redis_handler]. rewrite exec_bind, exec_bind, Hd.
  destruct (exec_stage c (tw_ref work) (tw_cols work) ks (set_rtx w (<[c := ∅]> (rw_tx w)))) as (d & staged & -> & F1 & F2);
    [done..|by simpl; rewrite lookup_insert_eq|].
  cbn [exec do_call mbind prog_mbind prog_bind redis_handler]. unfold deleteAbsent.
  cbn [rw_tx set_rtx set_rtgt]. rewrite !lookup_insert_eq, redisKeys_of. cbn [exec rollback_if].
  exists (foldl (λ d k, delete k d) d (filter (λ k, k ∉ staged) ks)).
  split; [unfold set_rtx, set_rtgt; simpl; do 2 f_equal; by rewrite insert_insert_eq, delete_insert_eq|].
  intros k. rewrite fold_delete. simpl in F1, F2. rewrite F1.
  destruct (decide (k ∈ ks)) as [Hk|Hk].
  - destruct (rw_src w !! k) as [e|] eqn:E.
    + rewrite decide_False; [done|]. rewrite list_elem_of_filter, F2. rewrite E. intros [H _]. apply H. by split; [|eexists].
    + rewrite decide_True; [done|]. apply list_elem_of_filter. split; [|done]. rewrite F2, E. intros [_ [? ?]]. done.
  - rewrite decide_False by (rewrite list_elem_of_filter; tauto). by destruct (rw_src w !! k).
Qed.

(** The keys of a batch, once each. *)
Lemma coalesce_number id ks seen :
  ∃ ks', coalesce_loop (number id ks) seen = key_of <$> ks' ∧ NoDup ks' ∧
    ∀ k, k ∈ ks' ↔ k ∈ ks ∧ Text.untxt k ∉ seen.
Proof.
  revert id seen. induction ks as [|k ks IH]; intros id seen.
  { exists []. split_and!; [done|constructor|]. intros k. rewrite elem_of_nil. tauto. }
  cbn [number coalesce_loop]. change (keySignature (dk_Key _)) with (Text.untxt k).
  assert (∀ a b, Text.untxt a = Text.untxt b → a = b) as Hinj.
  { intros a b H. by rewrite <-(Text.txt_untxt a), <-(Text.txt_untxt b), H. }
  case_decide as Hs.
  - destruct (IH (id + 1)%Z seen) as (ks' & -> & H1 & H2). exists ks'. split_and!; [done..|]. intros k'. rewrite H2, elem_of_cons.
    split; [tauto|]. intros [[->|?] ?]; [done|tauto].
  - destruct (IH (id + 1)%Z ({[Text.untxt k]} ∪ seen)) as (ks' & Heq & H1 & H2). cbv zeta. rewrite Heq.
    exists (k :: ks'). split_and!; [done|constructor; [rewrite H2; set_solver|done]|].
    intros k'. rewrite !elem_of_cons, H2. rewrite not_elem_of_union, not_elem_of_singleton.
    destruct (decide (k' = k)) as [->|Hne]; [tauto|].
    assert (Text.untxt k' ≠ Text.untxt k) by (intros ?%Hinj; done). tauto.
Qed.

(** The drain of a batch [ks] that the scan found. *)
Lemma exec_drain c target batch policy w ks id recon :
  src_ok (rw_src w) → is_Some (rw_sel w) → 0 < MaxAttempts policy →
  readDirtyKeys tun srcTop ranged fuel batch w = (inr (number id ks), recon) →
  rw_src recon = rw_src w → rw_sel recon = rw_sel w →
  ∃ n w', exec handler (DrainComponentRetrying false c [unit] target batch false policy) w = ((n, None), w') ∧
    drained ks recon w'.
Proof.
  intros Hsrc [s Hsel] Hpol Hread Hrs Hrsel. unfold DrainComponentRetrying. destruct (MaxAttempts policy) as [|tries]; [lia|].
  cbn [retry_loop]. unfold DrainComponent. cbn [negb]. unfold gathered, gatherWork. cbn [for_each].
  rewrite !exec_bind. unfold gather_table at 1. rewrite exec_bind. cbn [exec do_call redis_handler]. rewrite Hread.
  destruct ks as [|k ks].
  { cbn. eexists _, recon. split; [done|]. split; try done. }
  cbn [number]. unfold transportColumns. cbn [exec do_call mbind prog_mbind prog_bind redis_handler].
  rewrite Hrsel, Hsel. cbn [find_columns]. rewrite decide_True by done.
  destruct (coalesce_number id (k :: ks) ∅) as (ks' & Hco & Hnd & Hks'). unfold coalesce. cbn [number] in Hco. rewrite Hco.
  cbn [exec app]. unfold drainAcyclicSeq. rewrite exec_bind. cbn [for_each]. rewrite exec_bind. unfold upsert_step. rewrite exec_bind.
  set (work := mkWork _ (key_of <$> ks') _ _).
  destruct (exec_upsert c work ks' recon) as (d1 & -> & F1); [by rewrite Hrs|done|done|].
  cbn [phase_outcome exec]. cbn [exec mbind prog_mbind prog_bind app reverse for_each].
  change (reverse [(work, true)]) with [(work, true)]. cbn [for_each]. rewrite exec_bind. cbn [exec].
  rewrite exec_bind. unfold delete_step. cbn [negb]. rewrite exec_bind.
  set (w1 := set_rtx _ _).
  destruct (exec_delete c work ks' w1) as (d2 & -> & F2); [by simpl; rewrite Hrs|done|done|].
  cbn. eexists _, _. split; [done|]. split; try done. intros k'. simpl. rewrite F2. simpl.
  assert (k' ∈ ks' ↔ k' ∈ k :: ks) as Hiff by (rewrite Hks'; set_solver).
  destruct (decide (k' ∈ ks')) as [Hk|Hk].
  - by rewrite decide_True by (by apply Hiff).
  - rewrite decide_False by (by rewrite <-Hiff). rewrite F1. destruct (rw_src recon !! k'); [|done]. by rewrite decide_False.
Qed.
(** ** Rounds *)

Lemma exec_sweep count w ks complete w1 :
  scanTargetKeys tun tgtTop fuel count w = (inr (key_of <$> ks, complete), w1) →
  ∃ n next w', exec handler (Stream.DeleteSweepStep unit 0 count) w = ((n, next, None), w') ∧
    rw_src w' = rw_src w1 ∧ rw_sel w' = rw_sel w1 ∧ rw_notify w' = rw_notify w1 ∧ rw_sinkSel w' = rw_sinkSel w1 ∧
    rw_recon w' = rw_recon w1 ∧ rw_targetRecon w' = rw_targetRecon w1 ∧
    ∀ k, rw_tgt w' !! k = if decide (k ∈ ks ∧ rw_src w1 !! k = None) then None else rw_tgt w1 !! k.
Proof.
  intros Hscan. unfold Stream.DeleteSweepStep. rewrite exec_bind. cbn [exec do_call redis_handler]. rewrite Hscan.
  destruct (Nat.eqb_spec (length (key_of <$> ks)) 0) as [Hl|Hl].
  { destruct ks; [|done]. cbn. eexists _, _, w1. split_and!; try done. }
  rewrite exec_bind. cbn [exec do_call redis_handler]. unfold missingAtSource. rewrite redisKeys_of.
  set (gone := filter (λ k, rw_src w1 !! k = None) ks).
  assert (∀ k, k ∈ gone ↔ k ∈ ks ∧ rw_src w1 !! k = None) as Hgone by (intros k; unfold gone; rewrite list_elem_of_filter; tauto).
  destruct (Nat.eqb_spec (length (key_of <$> gone)) 0) as [Hg|Hg].
  { cbn. eexists _, _, w1. split_and!; try done. intros k. rewrite decide_False; [done|]. rewrite <-Hgone.
    destruct gone; [|done]. by intros ?%not_elem_of_nil. }
  rewrite !exec_bind. cbn [exec do_call redis_handler]. rewrite exec_bind. cbn [exec do_call redis_handler].
  unfold deleteAbsent. cbn [rw_tx set_rtx]. rewrite lookup_insert_eq, redisKeys_of, (filter_all _ gone) by set_solver.
  cbn [exec do_call mbind prog_mbind prog_bind redis_handler]. eexists _, _, _. split_and!; [done..|]. intros k. cbn [rw_tgt set_rtx set_rtgt].
  rewrite fold_delete. destruct (decide (k ∈ gone)) as [Hk|Hk].
  - by rewrite decide_True by (by apply Hgone).
  - by rewrite decide_False by (by rewrite <-Hgone).
Qed.

(** One streaming pass over the unit: the drain, then a step of the delete sweep. *)
Definition reconcile_round (target : TargetID) (batch : Z) (policy : RetryPolicy) : prog (option error) :=
  '(_, err) ← DrainComponentRetrying false 0 [unit] target batch false policy;
  match err with
  | Some e => Ret (Some e)
  | None => '(_, _, err) ← Stream.DeleteSweepStep unit 0 batch; Ret err
  end.

(** [n] rounds, up to the first that fails. *)
Fixpoint reconcile_rounds (n : nat) (target : TargetID) (batch : Z) (policy : RetryPolicy) : prog (option error) :=
  match n with
  | 0 => Ret None
  | S n =>
      r ← reconcile_round target batch policy;
      match r with Some e => Ret (Some e) | None => reconcile_rounds n target batch policy end
  end.

Context (s : selection) (src tgt0 : db) (Hsrc : src_ok src).

Abbreviation wanted := (keep (Some s) [] (λ _, false)).

Lemma wanted_sel k : wanted k = sel_match s k.
Proof. unfold keep. by rewrite bool_decide_eq_true_2. Qed.

Definition good (w : rworld) (k : bytes) : Prop := rw_tgt w !! k = want <$> src !! k.

Definition bound (d : db) : nat := size (dom d).

(** Keys of the target: of the start, or of the source. *)
Definition Nt : nat := size (dom tgt0 ∪ dom src).

(** A step of a pass on a server that stands still during the call. *)
Lemma scanBatch_progress top d N r hist got max :
  pass_inv (top_shards top) wanted r hist got → small N hist → (0 < max)%Z → size (dom d) ≤ N →
  scan_fuel (top_shards top) N ≤ fuel →
  ∃ keys complete r' hist', scanBatch tun fuel top d r max (Some s) = (inr (keys, complete), r') ∧
    (∀ k, k ∈ keys → sel_match s k = true) ∧
    (∀ i K, K ∈ hist' i → K ∈ hist i ∨ K = shard_keys top d i) ∧ small N hist' ∧
    if complete then covered (top_shards top) wanted hist' (got ++ keys) ∧ r' = newRecon (top_shards top)
    else pass_inv (top_shards top) wanted r' hist' (got ++ keys) ∧ scans_left N r' hist' < scans_left N r hist.
Proof.
  intros Hp Hs Hm Hd Hf.
  assert (∀ n i K, still top d n i = inr K → size K ≤ N) as Hsize.
  { intros n i K [= <-]. transitivity (size (dom d)); [|done]. apply subseteq_size. unfold shard_keys. set_solver. }
  destruct (call_progress (top_shards top) (tu_scanCount tun) wanted (still top d) N Hsize max 0 r hist got fuel)
    as (keys & complete & r' & n' & hist' & Hc & _ & F1 & F2 & F3); [done..|by intros n i; eexists|].
  exists keys, complete, r', hist'. unfold scanBatch. rewrite Hc. split_and!; [done| | |done|done].
  - intros k Hk. rewrite <-wanted_sel. apply (scan_wanted _ _ _ _ _ _ _ _ _ _ _ _ Hc); [by intros ? ?%not_elem_of_nil|done].
  - intros i K HK. destruct (F1 i K HK) as [?|(m & _ & [= <-])]; [by left|by right].
Qed.
(** The two rolling passes in progress. A key the source scan has returned is good; a key the
    source does not have is good once the target scan has returned it or found it gone. *)
Record reconciling (w : rworld) (hs ht : nat → list keyset) (gs gt : list bytes) : Prop := {
  rc_src : rw_src w = src;
  rc_sel : rw_sel w = Some s;
  rc_sinkSel : rw_sinkSel w = Some s;
  rc_notify : rw_notify w = None;
  rc_spass : pass_inv (top_shards srcTop) wanted (default (newRecon (top_shards srcTop)) (rw_recon w)) hs gs;
  rc_ssmall : small (bound src) hs;
  rc_shist i K : K ∈ hs i → K = shard_keys srcTop src i;
  rc_sgot k : k ∈ gs → good w k;
  rc_tpass : pass_inv (top_shards tgtTop) wanted (default (newRecon (top_shards tgtTop)) (rw_targetRecon w)) ht gt;
  rc_tsmall : small Nt ht;
  rc_thist i K k : K ∈ ht i → top_owner tgtTop k = i → k ∉ K → src !! k = None → good w k;
  rc_tgot k : k ∈ gt → src !! k = None → good w k;
  rc_keys k : is_Some (rw_tgt w !! k) → k ∈ dom tgt0 ∪ dom src;
  rc_rest k : sel_match s k = false → rw_tgt w !! k = tgt0 !! k
}.

Definition source_left (w : rworld) (hs : nat → list keyset) : nat :=
  scans_left (bound src) (default (newRecon (top_shards srcTop)) (rw_recon w)) hs.
Definition target_left (w : rworld) (ht : nat → list keyset) : nat :=
  scans_left Nt (default (newRecon (top_shards tgtTop)) (rw_targetRecon w)) ht.

(** What a completed pass establishes. *)
Definition upserted (w : rworld) : Prop := ∀ k, sel_match s k = true → is_Some (src !! k) → good w k.
Definition swept (w : rworld) : Prop := ∀ k, sel_match s k = true → src !! k = None → good w k.

Context (srcOwner : ∀ k, top_owner srcTop k < top_shards srcTop) (tgtOwner : ∀ k, top_owner tgtTop k < top_shards tgtTop).
Context (Hfs : scan_fuel (top_shards srcTop) (bound src) ≤ fuel) (Hft : scan_fuel (top_shards tgtTop) Nt ≤ fuel).
Context (target : TargetID) (batch : Z) (policy : RetryPolicy) (Hpol : 0 < MaxAttempts policy).

Lemma max_pos b : (0 < if decide (b <= 0)%Z then defaultScanCount else b)%Z.
Proof. unfold defaultScanCount. case_decide; lia. Qed.

Lemma small_nil N : small N (λ _, []).
Proof. by intros i K HK%not_elem_of_nil. Qed.

(** The drain of a round. *)
Lemma drain_step w hs ht gs gt :
  reconciling w hs ht gs gt →
  ∃ n w' hs' gs', exec handler (DrainComponentRetrying false 0 [unit] target batch false policy) w = ((n, None), w') ∧
    reconciling w' hs' ht gs' gt ∧ (∀ k, good w k → good w' k) ∧
    rw_targetRecon w' = rw_targetRecon w ∧ (upserted w' ∨ source_left w' hs' < source_left w hs).
Proof.
  intros [R1 R2 R3 R4 R5 R6 R7 R8 R9 R10 R11 R12 R13 R14].
  destruct (scanBatch_progress srcTop src (bound src) _ hs gs _ R5 R6 (max_pos batch) ltac:(done) Hfs)
    as (keys & complete & r' & hist' & Hscan & Hsel & Hhist & Hsmall & Hpost).
  set (recon := set_rsource w (Some r') (rw_changeID w + Z.of_nat (length keys)) None).
  assert (readDirtyKeys tun srcTop ranged fuel batch w = (inr (number (rw_changeID w) keys), recon)) as Hread.
  { unfold readDirtyKeys. cbv zeta. rewrite R4, R2, R1. cbn [number length].
    rewrite decide_False by (intros [Hb _]; by rewrite bool_decide_eq_false_2 in Hb by (intros H; by apply H)).
    rewrite Z.sub_0_r, Hscan. by rewrite Z.add_0_r. }
  destruct (exec_drain 0 target batch policy w keys (rw_changeID w) recon) as (n & w' & He & [D1 D2 D3 D4 D5 D6 D7]);
    [by rewrite R1|by rewrite R2|done..|].
  cbn [recon set_rsource rw_src rw_sel rw_notify rw_sinkSel rw_recon rw_targetRecon rw_tgt] in *.
  assert (∀ k, good w k → good w' k) as Hgood.
  { intros k Hk. unfold good. rewrite D7, R1. by destruct (decide (k ∈ keys)). }
  assert (∀ k, k ∈ gs ++ keys → good w' k) as Hgot.
  { intros k [Hk|Hk]%elem_of_app; [by apply Hgood, R8|]. unfold good. by rewrite D7, R1, decide_True. }
  assert (∀ i K, K ∈ hist' i → K = shard_keys srcTop src i) as Hh.
  { intros i K HK. destruct (Hhist i K HK) as [?| ->]; [by apply R7|done]. }
  set (hs' := if complete then (λ _, []) else hist'). set (gs' := if complete then [] else gs ++ keys).
  exists n, w', hs', gs'. split; [done|].
  assert (reconciling w' hs' ht gs' gt) as Hr.
  { split; try done.
    - by rewrite D1.
    - by rewrite D2.
    - by rewrite D4.
    - rewrite D5. unfold hs', gs'. destruct complete; [destruct Hpost as [_ ->]; apply newRecon_inv|apply Hpost].
    - unfold hs'. destruct complete; [apply small_nil|done].
    - unfold hs'. intros i K. destruct complete; [by intros ?%not_elem_of_nil|apply Hh].
    - unfold gs'. intros k. destruct complete; [by intros ?%not_elem_of_nil|apply Hgot].
    - by rewrite D6.
    - intros i K k HK Ho Hk Hn. by apply Hgood, (R11 i K).
    - intros k Hk Hn. by apply Hgood, R12.
    - intros k. rewrite D7, R1. destruct (decide (k ∈ keys)); [|apply R13]. intros [v He']. apply fmap_Some in He' as (v' & He' & _).
      apply elem_of_union_r, elem_of_dom. by eexists.
    - intros k Hk. rewrite D7. rewrite decide_False; [by apply R14|]. intros Hin. by rewrite Hsel in Hk. }
  split_and!; [done..|]. destruct complete.
  - left. intros k Hk [e Hke]. apply Hgot. destruct Hpost as [Hcov _].
    apply (Hcov (top_owner srcTop k)); [apply srcOwner|by rewrite wanted_sel|]. intros K ->%Hh.
    unfold shard_keys. apply elem_of_filter. split; [done|]. apply elem_of_dom. by eexists.
  - right. unfold source_left. rewrite D5. apply Hpost.
Qed.

(** The sweep of a round. *)
Lemma sweep_step w hs ht gs gt :
  reconciling w hs ht gs gt →
  ∃ n next w' ht' gt', exec handler (Stream.DeleteSweepStep unit 0 batch) w = ((n, next, None), w') ∧
    reconciling w' hs ht' gs gt' ∧ (∀ k, good w k → good w' k) ∧
    rw_recon w' = rw_recon w ∧ (swept w' ∨ target_left w' ht' < target_left w ht).
Proof.
  intros [R1 R2 R3 R4 R5 R6 R7 R8 R9 R10 R11 R12 R13 R14].
  assert (size (dom (rw_tgt w)) ≤ Nt) as Hsz.
  { apply subseteq_size. intros k Hk%elem_of_dom. by apply R13. }
  destruct (scanBatch_progress tgtTop (rw_tgt w) Nt _ ht gt _ R9 R10 (max_pos batch) Hsz Hft)
    as (keys & complete & r' & hist' & Hscan & Hsel & Hhist & Hsmall & Hpost).
  destruct (exec_sweep batch w keys (if complete then 0 else 1)%Z (set_rtrecon w (Some r'))) as (n & next & w' & He & D1 & D2 & D3 & D4 & D5 & D6 & D7).
  { unfold scanTargetKeys. cbv zeta. by rewrite R3, Hscan. }
  cbn [set_rtrecon rw_src rw_sel rw_notify rw_sinkSel rw_recon rw_targetRecon rw_tgt] in *. rewrite R1 in *.
  assert (∀ k, good w k → good w' k) as Hgood.
  { intros k Hk. unfold good. rewrite D7. destruct (decide (k ∈ keys ∧ src !! k = None)) as [[_ ->]|_]; done. }
  assert (∀ k, k ∈ gt ++ keys → src !! k = None → good w' k) as Hgot.
  { intros k [Hk|Hk]%elem_of_app Hn; [by apply Hgood, R12|]. unfold good. rewrite D7, decide_True by done. by rewrite Hn. }
  assert (∀ i K k, K ∈ hist' i → top_owner tgtTop k = i → k ∉ K → src !! k = None → good w' k) as Hh.
  { intros i K k HK Ho Hk Hn. apply Hgood. destruct (Hhist i K HK) as [?| ->]; [by apply (R11 i K)|].
    unfold good. rewrite Hn. simpl. apply not_elem_of_dom. intros Hdom. apply Hk. unfold shard_keys. by apply elem_of_filter. }
  set (ht' := if complete then (λ _, []) else hist'). set (gt' := if complete then [] else gt ++ keys).
  exists n, next, w', ht', gt'. split; [done|].
  assert (reconciling w' hs ht' gs gt') as Hr.
  { split; try done.
    - by rewrite D2.
    - by rewrite D4.
    - by rewrite D3.
    - by rewrite D5.
    - intros k Hk. by apply Hgood, R8.
    - rewrite D6. unfold ht', gt'. destruct complete; [destruct Hpost as [_ ->]; apply newRecon_inv|apply Hpost].
    - unfold ht'. destruct complete; [apply small_nil|done].
    - unfold ht'. intros i K k. destruct complete; [by intros ?%not_elem_of_nil|apply Hh].
    - unfold gt'. intros k. destruct complete; [by intros ?%not_elem_of_nil|apply Hgot].
    - intros k. rewrite D7. destruct (decide (k ∈ keys ∧ src !! k = None)); [by intros [? ?]|apply R13].
    - intros k Hk. rewrite D7. rewrite decide_False; [by apply R14|]. intros [Hin _]. by rewrite Hsel in Hk. }
  split_and!; [done..|]. destruct complete.
  - left. intros k Hk Hn. destruct Hpost as [Hcov _].
    destruct (decide (Forall (λ K, k ∈ K) (hist' (top_owner tgtTop k)))) as [Hall|Hnot].
    + apply Hgot; [|done]. apply (Hcov (top_owner tgtTop k)); [apply tgtOwner|by rewrite wanted_sel|].
      by apply Forall_forall.
    + apply not_Forall_Exists in Hnot; [|apply _]. apply Exists_exists in Hnot as (K & HK & Hout).
      by apply (Hh (top_owner tgtTop k) K).
  - right. unfold target_left. rewrite D6. apply Hpost.
Qed.

Lemma rounds_converge n w hs ht gs gt :
  reconciling w hs ht gs gt →
  upserted w ∨ source_left w hs < n → swept w ∨ target_left w ht < n →
  ∃ w', exec handler (reconcile_rounds n target batch policy) w = (None, w') ∧
    upserted w' ∧ swept w' ∧ rw_src w' = src ∧ ∀ k, sel_match s k = false → rw_tgt w' !! k = tgt0 !! k.
Proof.
  revert w hs ht gs gt. induction n as [|n IH]; intros w hs ht gs gt Hr Hu Hs.
  { exists w. split_and!; [done|destruct Hu; [done|lia]|destruct Hs; [done|lia]|apply Hr..]. }
  cbn [reconcile_rounds]. unfold reconcile_round. rewrite !exec_bind.
  destruct (drain_step w hs ht gs gt Hr) as (m & w1 & hs1 & gs1 & -> & Hr1 & Hg1 & Ht1 & Hu1).
  cbv beta iota zeta. rewrite exec_bind.
  destruct (sweep_step w1 hs1 ht gs1 gt Hr1) as (m2 & next & w2 & ht2 & gt2 & -> & Hr2 & Hg2 & Hs2 & Hw2).
  cbn [exec]. apply (IH w2 hs1 ht2 gs1 gt2 Hr2).
  - destruct Hu as [Hu|Hu]; [left; intros k Hk Hkey; by apply Hg2, Hg1, Hu|].
    destruct Hu1 as [Hu1|Hu1]; [left; intros k Hk Hkey; by apply Hg2, Hu1|]. right.
    unfold source_left in *. rewrite Hs2. lia.
  - destruct Hs as [Hs|Hs]; [left; intros k Hk Hkey; by apply Hg2, Hg1, Hs|].
    destruct Hw2 as [Hw2|Hw2]; [by left|]. right. unfold target_left in *. rewrite Ht1 in Hw2. lia.
Qed.

(** From fresh scanners. *)
Lemma rounds_from_start (n : nat) (w : rworld) :
  rw_src w = src → rw_tgt w = tgt0 → rw_sel w = Some s → rw_sinkSel w = Some s → rw_notify w = None →
  rw_recon w = None → rw_targetRecon w = None →
  top_shards srcTop * S (scan_steps (bound src)) < n → top_shards tgtTop * S (scan_steps Nt) < n →
  ∃ w', exec handler (reconcile_rounds n target batch policy) w = (None, w') ∧ rw_src w' = src ∧
    ∀ k, rw_tgt w' !! k = if sel_match s k then want <$> src !! k else tgt0 !! k.
Proof.
  intros W1 W2 W3 W4 W5 W6 W7 Hn Hn'.
  destruct (rounds_converge n w (λ _, []) (λ _, []) [] []) as (w' & He & Hu & Hs & Hw & Hrest).
  - split; try done; rewrite ?W6, ?W7; try apply newRecon_inv; try apply small_nil;
      try (by intros ? ?%not_elem_of_nil); try (by intros ? ? ?%not_elem_of_nil).
    + by intros ? ? ? ?%not_elem_of_nil.
    + intros k Hk. rewrite W2 in Hk. by apply elem_of_union_l, elem_of_dom.
    + intros k _. by rewrite W2.
  - right. unfold source_left. rewrite W6. cbn [default]. unfold scans_left.
    pose proof (left_from_bound (bound src) 0 (λ _, []) (rs_done (newRecon (top_shards srcTop)))) as Hb.
    cbn [newRecon rs_done] in Hb |- *. rewrite length_replicate in Hb. lia.
  - right. unfold target_left. rewrite W7. cbn [default]. unfold scans_left.
    pose proof (left_from_bound Nt 0 (λ _, []) (rs_done (newRecon (top_shards tgtTop)))) as Hb.
    cbn [newRecon rs_done] in Hb |- *. rewrite length_replicate in Hb. lia.
  - exists w'. split_and!; [done..|]. intros k. destruct (sel_match s k) eqn:Hk; [|by apply Hrest].
    destruct (src !! k) as [e|] eqn:E.
    + rewrite (Hu k Hk) by (by rewrite E). by rewrite E.
    + rewrite (Hs k Hk E). by rewrite E.
Qed.
End round.

(** What the convergence of a Redis sync is proved for. The sync has no [types] filter
    (streaming does not apply it, [streaming_ignores_types], although the documentation says
    that it narrows the selection): the selection is the key patterns. Nobody writes, no key
    expires and the clocks stand still, those of the two servers equal when times to live are
    sent as absolute times. Every value of the source can be framed, is not refused for its
    size, and is accepted by the target's RESTORE. Notifications are off, the scanners are
    fresh, both ends have the selection [s], every key has a shard, and [fuel] lets a scan of
    either keyspace end. *)
Record quiet_sync `{ScanServer} (tun : copyTuning) (srcTop tgtTop : topology) (memory : bytes → option Z)
    (accepts : bytes → bool) (srcNow tgtNow : Z) (fuel : nat) (s : selection) (w : rworld) : Prop := {
  qs_types : tu_types tun = [];
  qs_values : src_ok tun memory accepts srcNow (rw_src w);
  qs_now : (0 <= srcNow)%Z;
  qs_clocks : tu_absTTL tun = true → srcNow = tgtNow;
  qs_notify : rw_notify w = None;
  qs_sel : rw_sel w = Some s ∧ rw_sinkSel w = Some s;
  qs_scanners : rw_recon w = None ∧ rw_targetRecon w = None;
  qs_owners k : top_owner srcTop k < top_shards srcTop ∧ top_owner tgtTop k < top_shards tgtTop;
  qs_fuel : scan_fuel (top_shards srcTop) (bound (rw_src w)) ≤ fuel ∧
            scan_fuel (top_shards tgtTop) (Nt (rw_src w) (rw_tgt w)) ≤ fuel
}.

(** C15: Convergence of Redis replication by key patterns, for a sync without a [types] filter
    on quiet servers with values that can be restored and notifications off ([quiet_sync]).
    From any target, after boundedly many streaming passes (a drain of one scan batch and one
    step of the delete sweep each) no pass has failed, every selected key of the target has the
    source's payload and time to live, no selected key is on the target only, and keys outside
    the selection are untouched. It stays so for every further pass. *)
Theorem redis_converges `{Laws : ScanLaws} (tun : copyTuning) (srcTop tgtTop : topology) (memory : bytes → option Z)
    (accepts : bytes → bool) (srcNow tgtNow : Z) (ranged : gset bytes → list bytes) (database : string) (fuel : nat)
    (target : TargetID) (batch : Z) (policy : RetryPolicy) (s : selection) (n : nat) (w : rworld) :
  quiet_sync tun srcTop tgtTop memory accepts srcNow tgtNow fuel s w → 0 < MaxAttempts policy →
  top_shards srcTop * S (scan_steps (bound (rw_src w))) < n →
  top_shards tgtTop * S (scan_steps (Nt (rw_src w) (rw_tgt w))) < n →
  ∃ w', exec (redis_handler tun srcTop tgtTop memory accepts srcNow tgtNow ranged database fuel)
          (reconcile_rounds database n target batch policy) w = (None, w') ∧ rw_src w' = rw_src w ∧
    ∀ k, rw_tgt w' !! k = if sel_match s k then want <$> rw_src w !! k else rw_tgt w !! k.
Proof.
  intros [_ Q2 Q3 Q4 Q5 [Q6 Q6'] [Q7 Q7'] Q8 [Q9 Q9']] Hp Hn Hn'.
  eapply rounds_from_start; try done; intros k; apply Q8.
Qed.

(** Streaming does not look at the types filter: with any other the calls do the same. *)
Definition set_types (tun : copyTuning) (types : list string) : copyTuning :=
  mkTuning (tu_scanCount tun) types (tu_bigKeyWarn tun) (tu_bigKeyRefuse tun) (tu_absTTL tun).

Lemma streaming_ignores_types `{ScanServer} tun types srcTop tgtTop memory accepts srcNow tgtNow ranged database fuel c o w :
  redis_handler (set_types tun types) srcTop tgtTop memory accepts srcNow tgtNow ranged database fuel c o w =
  redis_handler tun srcTop tgtTop memory accepts srcNow tgtNow ranged database fuel c o w.
Proof. by destruct o. Qed.

Section example.
Import RedisScan.TwoBuckets.

(** Two source shards, one target shard; a changed key, a new one, one that is gone at the
    source and one that is not selected. *)
Definition ex_tuning : copyTuning := mkTuning 10 [] 0 0 true.
Definition ex_srcTop : topology := mkTopology 2 (λ k, length k mod 2).
Definition ex_tgtTop : topology := mkTopology 1 (λ _, 0).
Definition ex_sel : selection := mkSel [] [Text.txt "tmp*"].
Definition ex_src : db :=
  {[ Text.txt "a" := mkEntry (Text.txt "one") (-1); Text.txt "ab" := mkEntry (Text.txt "two") 5000 ]}.
Definition ex_tgt : db :=
  {[ Text.txt "a" := mkEntry (Text.txt "old") 7; Text.txt "gone" := mkEntry (Text.txt "x") (-1);
     Text.txt "tmp1" := mkEntry (Text.txt "y") (-1) ]}.
Definition ex_world : rworld := mkRW ex_src ex_tgt (Some ex_sel) None 0 None (Some ex_sel) None ∅.

Lemma ex_src_ok : src_ok ex_tuning (λ _, None) (λ _, true) 1000 ex_src.
Proof.
  intros k e. unfold ex_src. intros [[<- <-]|[_ [<- <-]%lookup_singleton_Some]]%lookup_insert_Some;
    (split; [by vm_compute|by vm_compute|split; vm_compute; congruence|done|done]).
Qed.

Lemma redis_converges_witness :
  ∃ w', exec (redis_handler ex_tuning ex_srcTop ex_tgtTop (λ _, None) (λ _, true) 1000 1000 elements "0" 40)
          (reconcile_rounds "0" 7 "t" 1 DefaultRetryPolicy) ex_world = (None, w') ∧ rw_src w' = ex_src ∧
    ∀ k, rw_tgt w' !! k = if sel_match ex_sel k then want <$> ex_src !! k else ex_tgt !! k.
Proof.
  apply (redis_converges ex_tuning ex_srcTop ex_tgtTop (λ _, None) (λ _, true) 1000 1000 elements "0" 40
           "t" 1 DefaultRetryPolicy ex_sel 7 ex_world).
  - split; [done|exact ex_src_ok|lia|done|done|done|done| |].
    + intros k. simpl. pose proof (Nat.mod_upper_bound (length k) 2). lia.
    + unfold scan_fuel. simpl. lia.
  - simpl. lia.
  - simpl. lia.
  - simpl. lia.
Defined.

Lemma example_rounds :
  rw_tgt (exec (redis_handler ex_tuning ex_srcTop ex_tgtTop (λ _, None) (λ _, true) 1000 1000 elements "0" 40)
            (reconcile_rounds "0" 7 "t" 1 DefaultRetryPolicy) ex_world).2 =
  {[ Text.txt "a" := mkEntry (Text.txt "one") (-1); Text.txt "ab" := mkEntry (Text.txt "two") 5000;
     Text.txt "tmp1" := mkEntry (Text.txt "y") (-1) ]}.
Proof. vm_compute. reflexivity. Qed.
End example.
End RedisSync.
