(* ===== verification/RedisMesh.v ===== *)
(** * The Redis mesh ([internal/engine/redis/mesh.go], [mesh_source.go], [mesh_sink.go])

    Redis tells nobody who wrote a key. A member of a cluster keeps a register next to every
    key, with the version of the value it last saw and a fingerprint of that value. The re-read
    of an edge compares the value with the fingerprint: when they differ the application has
    written, and the re-read stamps a new version. A peer applies a record, value and register
    together, when its version beats the peer's register.

    The commands of a re-read (the register, the value, the fingerprint, the stamp) are steps of
    their own; what else happens to the key in between makes the re-read [Overtaken]. The
    fingerprint (md5 over the value the server shows) is a parameter. Versions compare in
    Lua as doubles; node ids compare by bytes. *)

From S2P Require Import Prelude Text Engine Calls Mesh RedisFrame RedisKeys RedisScan RedisSync.
Import RedisKeys RedisSync.

Module RedisMesh.
#[local] Existing Instance Mesh.bytewise.

Abbreviation bytes := RedisFrame.bytes.
Abbreviation record := RedisFrame.record.
Abbreviation version := RedisFrame.version.
Abbreviation db := (gmap bytes entry).
Abbreviation phys := RedisFrame.ver_phys.
Abbreviation log := RedisFrame.ver_log.
Abbreviation node := RedisFrame.ver_node.
Abbreviation deleted := RedisFrame.ver_deleted.
Abbreviation fingerprint := RedisFrame.ver_vhash.

(** ** Versions and the clock ([mesh.go]) *)

Definition node_lt (a b : bytes) : bool := bool_decide (str_lt (Text.untxt a) (Text.untxt b)).

Definition beats (v other : version) (present : bool) : bool :=
  if negb present then true
  else if negb (phys v =? phys other)%Z then (phys other <? phys v)%Z
  else if negb (log v =? log other)%Z then (log other <? log v)%Z
  else node_lt (node other) (node v).

(** The logical counter is an int32. *)
Definition add32 (z : Z) : Z := RedisFrame.to_signed 32 (z + 1).

Definition hlcTick (nowMillis p l : Z) : Z * Z :=
  if decide (p < nowMillis)%Z then (nowMillis, 0%Z) else (p, add32 l).

Definition hlcObserve (nowMillis p l inPhys inLog : Z) : Z * Z :=
  let newPhys := if decide (p < nowMillis)%Z then nowMillis else p in
  let newPhys := if decide (newPhys < inPhys)%Z then inPhys else newPhys in
  if decide (newPhys = p ∧ newPhys = inPhys) then
    (newPhys, add32 (if decide (l < inLog)%Z then inLog else l))
  else if decide (newPhys = p) then (newPhys, add32 l)
  else if decide (newPhys = inPhys) then (newPhys, add32 inLog)
  else (newPhys, 0%Z).

#[global] Instance version_eq_dec : EqDecision version.
Proof. solve_decision. Defined.

(** ** A member *)

(** The data keys, and the registers by metadata key. *)
Record member := mkMember { mb_data : db; mb_meta : gmap bytes version }.

Definition readMeta (nd : member) (mk : bytes) : option version := mb_meta nd !! mk.
Definition stampMeta (mk : bytes) (v : version) (nd : member) : member :=
  mkMember (mb_data nd) (<[mk := v]> (mb_meta nd)).

Definition reg (nd : member) (k : bytes) : option version := readMeta nd (metaKey k).

Section reread.
(** [memory]: MEMORY USAGE; [vhash]: the fingerprint of a key's value, None for a type that
    cannot be read; [srcNow]: the server's clock. *)
Context (tun : copyTuning) (memory : bytes → option Z) (vhash : bytes → bytes → option Z) (srcNow : Z).

Definition dumpOne (nd : member) (k : bytes) : result (option (bytes * Z * Z)) :=
  match src_dump (mb_data nd) k with
  | None => inr None
  | Some payload =>
      if decide (src_pttl (mb_data nd) k = (-2)%Z) then inr None
      else if (bool_decide (0 < tu_bigKeyWarn tun)%Z || bool_decide (0 < tu_bigKeyRefuse tun)%Z) && refused tun memory k
      then inl (Failure "redis: key over big_key_refuse_bytes")
      else let '(ttl, flags) := restoreTTL (src_pttl (mb_data nd) k) (tu_absTTL tun) srcNow in
           inr (Some (payload, ttl, flags))
  end.

Definition logicalVHash (nd : member) (k : bytes) : option Z := mb_data nd !! k ≫= λ e, vhash k (e_dump e).

(** What the re-read of a key stamps and frames, given what it read: the register, the value
    and its fingerprint. *)
Definition reread_plan (nodeID : bytes) (now : Z) (k : bytes) (stored : option version)
    (dumped : option (bytes * Z * Z)) (vh : option Z) : option version * option record :=
  let st := default RedisFrame.zeroVersion stored in
  let '(p, lg) := hlcTick now (phys st) (log st) in
  match dumped, vh with
  | Some (dump, ttl, flags), Some vh =>
      if bool_decide (stored = None) || deleted st || negb (fingerprint st =? vh)%Z then
        let ver := RedisFrame.mkVersion p lg nodeID false vh in
        (Some ver, Some (RedisFrame.mkRecord k ttl (Z.lor flags RedisFrame.flagMesh) dump ver))
      else (None, Some (RedisFrame.mkRecord k ttl (Z.lor flags RedisFrame.flagMesh) dump st))
  | _, _ =>
      let dead ver := RedisFrame.mkRecord k 0 (Z.lor RedisFrame.flagMesh RedisFrame.flagDeleted) [] ver in
      match stored with
      | None => (None, None)
      | Some st =>
          if deleted st then (None, Some (dead st))
          else let ver := RedisFrame.mkVersion p lg nodeID true 0 in (Some ver, Some (dead ver))
      end
  end.

Definition finish_reread (k : bytes) (plan : option version * option record) (nd : member) : option record * member :=
  (plan.2, match plan.1 with Some ver => stampMeta (metaKey k) ver nd | None => nd end).

(** The iteration of [rereadCurrentCluster] for a key nobody touches meanwhile. *)
Definition reread_key (nodeID : bytes) (now : Z) (k : bytes) (nd : member) : result (option record) * member :=
  match dumpOne nd k with
  | inl e => (inl e, nd)
  | inr dumped =>
      let '(rec, nd) := finish_reread k (reread_plan nodeID now k (reg nd k) dumped (logicalVHash nd k)) nd in
      (inr rec, nd)
  end.

(** The records written before the first error. *)
Fixpoint rereadCurrentCluster (nodeID : bytes) (now : Z) (keys : list KeyValues) (nd : member)
    : list record * option error * member :=
  match keys with
  | [] => ([], None, nd)
  | kv :: keys =>
      match reread_key nodeID now (redisKey kv) nd with
      | (inl e, nd) => ([], Some e, nd)
      | (inr rec, nd) =>
          let '(recs, err, nd) := rereadCurrentCluster nodeID now keys nd in
          (option_list rec ++ recs, err, nd)
      end
  end.
End reread.

(** ** Applying ([mesh_sink.go]) *)

Section apply.
Context (accepts : bytes → bool) (tgtNow : Z).

(** Lua's tonumber of an integer: the nearest double, ties to the even one. *)
Definition tonumber (z : Z) : Z :=
  let e := (Z.log2 (Z.abs z) - 52)%Z in
  if decide (e <= 0)%Z then z
  else
    let q := Z.shiftr z e in
    let r := (z - Z.shiftl q e)%Z in
    let half := (2 ^ (e - 1))%Z in
    Z.shiftl (if decide (r < half ∨ r = half ∧ Z.even q = true)%Z then q else q + 1) e.

(** [meshApplyScript]: one script, so value and register change together or not at all. *)
Definition script_wins (st : option version) (v : version) : bool :=
  match st with
  | None => true
  | Some st =>
      let ep := tonumber (phys st) in
      let el := tonumber (log st) in
      let ip := tonumber (phys v) in
      let il := tonumber (log v) in
      (ep <? ip)%Z || ((ip =? ep) && (el <? il))%Z || ((ip =? ep)%Z && (il =? el)%Z && node_lt (node st) (node v))
  end.

Definition meshApplyScript (rec : record) (nd : member) : result unit * member :=
  let k := RedisFrame.rec_key rec in
  let v := RedisFrame.rec_ver rec in
  if negb (script_wins (reg nd k) v) then (inr tt, nd)
  else if RedisFrame.has_flag (RedisFrame.rec_flags rec) RedisFrame.flagDeleted then
    (inr tt, mkMember (delete k (mb_data nd))
               (<[metaKey k := RedisFrame.mkVersion (phys v) (log v) (node v) true 0]> (mb_meta nd)))
  else if restorable accepts rec then
    (inr tt, mkMember (partial_alter (λ _, restore_entry tgtNow rec) k (mb_data nd))
               (<[metaKey k := RedisFrame.mkVersion (phys v) (log v) (node v) false (fingerprint v)]> (mb_meta nd)))
  else (inl (Failure "redis mesh: apply"), nd).

Fixpoint stage_loop (fuel : nat) (r : RedisFrame.reader) (nd : member) (staged : gset bytes)
    : option (option error * member * gset bytes) :=
  match fuel with
  | 0 => None
  | S fuel =>
      match RedisFrame.readRecord r with
      | inl RedisFrame.EOF => Some (None, nd, staged)
      | inl e => Some (Some (io_error e), nd, staged)
      | inr (rec, r) =>
          if negb (RedisFrame.has_flag (RedisFrame.rec_flags rec) RedisFrame.flagMesh)
          then Some (Some (Failure "redis mesh: apply received a non-mesh record"), nd, staged)
          else
            let staged := {[ RedisFrame.rec_key rec ]} ∪ staged in
            match meshApplyScript rec nd with
            | (inl e, nd) => Some (Some e, nd, staged)
            | (inr _, nd) => stage_loop fuel r nd staged
            end
      end
  end.

(** A record takes at least one byte. *)
Definition stageUpsertCluster (r : RedisFrame.reader) (nd : member) (staged : gset bytes)
    : option error * member * gset bytes :=
  default (None, nd, staged) (stage_loop (S (length (RedisFrame.rd_bytes r))) r nd staged).
End apply.

(** ** The edges of a cluster ([clusterEdges]) *)

(** Every ordered pair of members; [i] and [j] are their positions. *)
Definition clusterEdges (members : list bytes) : list (bytes * bytes) :=
  imap (λ i src, (i, src)) members ≫= λ '(i, src),
    omap (λ '(j, dst), if decide (i = j) then None else Some (src, dst)) (imap (λ j dst, (j, dst)) members).

(** ** The keys of an edge ([readDirtyKeysCluster], [metaDeletes]) *)

(** The data keys of the given registers whose value is gone. *)
Definition metaDeletes (sel : option selection) (metaKeys : list bytes) (nd : member) : list bytes :=
  filter (λ dk, mb_data nd !! dk = None)
    (filter (λ dk, match sel with None => true | Some s => sel_match s dk end = true)
      (omap dataKeyFromMeta metaKeys)).

(** ** Collecting tombstones by age ([GCTombstones]) *)

Definition GCTombstones (cutoff : Z) (nd : member) : member :=
  mkMember (mb_data nd) (filter (λ x, ¬ (deleted x.2 = true ∧ (phys x.2 < cutoff)%Z)) (mb_meta nd)).

(** ** The order of versions *)

Definition stampv (v : version) : Mesh.version := ((phys v, log v), Text.untxt (node v)).

Lemma untxt_inj (a b : bytes) : Text.untxt a = Text.untxt b → a = b.
Proof. intros H. by rewrite <-(Text.txt_untxt a), <-(Text.txt_untxt b), H. Qed.

(** The clock of a version is exact as a double. *)
Definition exact (v : version) : Prop := (0 <= phys v < 2 ^ 53)%Z ∧ (0 <= log v < 2 ^ 31)%Z.

Lemma tonumber_small z : (0 <= z < 2 ^ 53)%Z → tonumber z = z.
Proof.
  intros Hz. unfold tonumber. rewrite decide_True; [done|]. rewrite Z.abs_eq by lia.
  destruct (decide (z = 0)%Z) as [->|Hne]; [done|]. pose proof (proj1 (Z.log2_lt_pow2 z 53 ltac:(lia)) ltac:(lia)). lia.
Qed.

(** Above 2^53 neighbouring clocks are one number. *)
Lemma tonumber_rounds : tonumber (2 ^ 53 + 1) = tonumber (2 ^ 53).
Proof. vm_compute. reflexivity. Qed.

Lemma script_wins_exact st v :
  exact st → exact v →
  script_wins (Some st) v =
    ((phys st <? phys v)%Z || ((phys v =? phys st) && (log st <? log v))%Z ||
     ((phys v =? phys st)%Z && (log v =? log st)%Z && node_lt (node st) (node v))).
Proof. intros [H1 H2] [H3 H4]. unfold script_wins. by rewrite !tonumber_small by lia. Qed.

Lemma script_wins_vlt st v : exact st → exact v → script_wins (Some st) v = true ↔ Mesh.vlt (stampv st) (stampv v).
Proof.
  intros H1 H2. rewrite script_wins_exact by done. unfold Mesh.vlt, Mesh.clock_lt, stampv, node_lt. simpl.
  rewrite !orb_true_iff, !andb_true_iff, !Z.ltb_lt, !Z.eqb_eq, bool_decide_eq_true. split.
  - intros [[?|[? ?]]|[[? ?] ?]]; [left; lia|left; lia|right; split; [congruence|done]].
  - intros [[?|[? ?]]|[[= ? ?] ?]]; [left; left; done|left; right; done|right; done].
Qed.

(** The script's guard is [version.beats], below 2^53. *)
Lemma script_wins_beats st v :
  (∀ st', st = Some st' → exact st') → exact v →
  script_wins st v = beats v (default RedisFrame.zeroVersion st) (bool_decide (is_Some st)).
Proof.
  destruct st as [st|]; [|done]. intros H1 H2. rewrite (script_wins_exact st v (H1 st eq_refl) H2). unfold beats. simpl.
  destruct (Z.eqb_spec (phys v) (phys st)) as [E|E]; simpl.
  - rewrite E, Z.ltb_irrefl. destruct (Z.eqb_spec (log v) (log st)) as [E'|E']; simpl;
      [by rewrite E', Z.ltb_irrefl|by rewrite orb_false_r].
  - by rewrite !orb_false_r.
Qed.

(** A version does not beat itself, exact or not. *)
Lemma script_wins_irrefl st v : stampv st = stampv v → script_wins (Some st) v = false.
Proof.
  unfold stampv. intros [= E1 E2 E3%untxt_inj]. unfold script_wins. rewrite E1, E2, E3, !Z.ltb_irrefl, andb_false_r. simpl.
  assert (node_lt (node v) (node v) = false) as ->; [|by rewrite andb_false_r].
  apply bool_decide_eq_false. by intros [_ []]%str_lt_le_ne.
Qed.

Lemma add32_small l : (0 <= l < 2 ^ 31 - 1)%Z → add32 l = (l + 1)%Z.
Proof.
  intros Hl. unfold add32, RedisFrame.to_signed. change (2 ^ (32 - 1))%Z with 2147483648%Z.
  change (2 ^ 32)%Z with 4294967296%Z. change (2 ^ 31)%Z with 2147483648%Z in Hl.
  rewrite Z.mod_small by lia. lia.
Qed.

Lemma hlcTick_lt now p l : (0 <= l < 2 ^ 31 - 1)%Z → Mesh.clock_lt (p, l) (hlcTick now p l).
Proof.
  intros Hl. unfold hlcTick, Mesh.clock_lt. case_decide; simpl; [lia|]. rewrite add32_small by done. lia.
Qed.

(** At the last value of the counter a tick goes back. *)
Lemma hlcTick_overflow p : hlcTick 0 p (2 ^ 31 - 1) = (if decide (p < 0)%Z then (0, 0) else (p, - 2 ^ 31))%Z.
Proof. done. Qed.

(** ** Runs of a mesh

    Values come from [written], a set on which the fingerprint tells the values of a key
    apart and which fit their frame. *)
Record fingerprints (vhash : bytes → bytes → option Z) (written : bytes → bytes → Prop) : Prop := {
  fp_size k d : written k d → (Z.of_nat (length k) < 2 ^ 32)%Z ∧ (Z.of_nat (length d) < 2 ^ 32)%Z;
  fp_hash k d : written k d → ∃ h, vhash k d = Some h ∧ (0 <= h < 2 ^ 64)%Z;
  fp_inj k d d' : written k d → written k d' → vhash k d = vhash k d' → d = d'
}.

Section mesh.
Context (tun : copyTuning) (memory : bytes → option Z) (vhash : bytes → bytes → option Z) (accepts : bytes → bool).
Context (written : bytes → bytes → Prop).
Context (written_size : ∀ k d, written k d → (Z.of_nat (length k) < 2 ^ 32)%Z ∧ (Z.of_nat (length d) < 2 ^ 32)%Z).
Context (written_hash : ∀ k d, written k d → ∃ h, vhash k d = Some h ∧ (0 <= h < 2 ^ 64)%Z).
Context (written_inj : ∀ k d d', written k d → written k d' → vhash k d = vhash k d' → d = d').

(** The members by node id, and every record ever framed: a record may reach a member late,
    repeatedly, out of order or not at all. *)
Record mesh := mkMesh { ms_nodes : gmap bytes member; ms_frames : list record }.

Definition set_member (i : bytes) (nd : member) (m : mesh) : mesh := mkMesh (<[i := nd]> (ms_nodes m)) (ms_frames m).

(** The register tells the value: the re-read has nothing to stamp. *)
Definition settled (nd : member) (k : bytes) : Prop :=
  match mb_data nd !! k, reg nd k with
  | Some e, Some v => deleted v = false ∧ vhash k (e_dump e) = Some (fingerprint v)
  | Some _, None => False
  | None, Some v => deleted v = true
  | None, None => True
  end.

(** Nothing to stamp, or a stamp below the last value of the counter. *)
Definition log_room (nd : member) (k : bytes) : Prop :=
  settled nd k ∨ ∀ v, reg nd k = Some v → (log v < 2 ^ 31 - 1)%Z.

#[local] Instance settled_dec nd k : Decision (settled nd k).
Proof. unfold settled. destruct (mb_data nd !! k), (reg nd k); apply _. Defined.

#[local] Instance log_room_dec nd k : Decision (log_room nd k).
Proof.
  unfold log_room. apply or_dec; [apply _|]. destruct (reg nd k) as [v|]; [|by left].
  destruct (decide (log v < 2 ^ 31 - 1)%Z) as [H|H]; [left; by intros ? [= <-]|right; intros Hv; by apply H, Hv].
Defined.

(** A re-read in progress: the key, the register it read, the value with the server's clock,
    the fingerprint. *)
Record reading := mkReading {
  rd_key : bytes;
  rd_stored : option version;
  rd_dump : option (Z * option (bytes * Z * Z));
  rd_hash : option (option Z)
}.

(** The members and what their edges are reading. *)
Record cluster := mkCluster { cl_mesh : mesh; cl_open : gmap (bytes * bytes) reading }.

Definition on_mesh (m : mesh) (c : cluster) : cluster := mkCluster m (cl_open c).
Definition open_reading (e : bytes * bytes) (rd : reading) (c : cluster) : cluster :=
  mkCluster (cl_mesh c) (<[e := rd]> (cl_open c)).

(** How an event went: undisturbed; a re-read at whose end the key or its register is not what
    it read; a stamp beyond the range of the counter or of a double; a collection that removed
    a tombstone. *)
Variant kind := Undisturbed | Overtaken | Exhausted | Collected.

(** What the re-read saw is still there. *)
Definition still (rd : reading) (srcNow : Z) (dumped : option (bytes * Z * Z)) (nd : member) : bool :=
  bool_decide (rd_stored rd = reg nd (rd_key rd)) &&
  match dumpOne tun memory srcNow nd (rd_key rd) with inr d => bool_decide (d = dumped) | inl _ => false end &&
  (bool_decide (dumped = None) || bool_decide (rd_hash rd = Some (logicalVHash vhash nd (rd_key rd)))).

Definition stamp_kind (now srcNow : Z) (rd : reading) (dumped : option (bytes * Z * Z)) (nd : member) : kind :=
  if still rd srcNow dumped nd then
    if decide ((0 <= now < 2 ^ 53)%Z ∧ log_room nd (rd_key rd)) then Undisturbed else Exhausted
  else Overtaken.

Definition gc_kind (cutoff : Z) (nd : member) : kind :=
  if decide (mb_meta (GCTombstones cutoff nd) = mb_meta nd) then Undisturbed else Collected.

(** A write or delete of the application (or an expiry), the commands of a re-read, a record
    applied, a collection; [now] is the daemon's clock, the others are the servers'. A re-read
    that fails leaves its reading behind. *)
Inductive event : kind → cluster → cluster → Prop :=
| e_write c i nd k e :
    ms_nodes (cl_mesh c) !! i = Some nd → written k (e_dump e) → (-1 <= e_pttl e)%Z →
    event Undisturbed c (on_mesh (set_member i (mkMember (<[k := e]> (mb_data nd)) (mb_meta nd)) (cl_mesh c)) c)
| e_delete c i nd k :
    ms_nodes (cl_mesh c) !! i = Some nd →
    event Undisturbed c (on_mesh (set_member i (mkMember (delete k (mb_data nd)) (mb_meta nd)) (cl_mesh c)) c)
| e_meta c i j nd k :
    ms_nodes (cl_mesh c) !! i = Some nd →
    event Undisturbed c (open_reading (i, j) (mkReading k (reg nd k) None None) c)
| e_dump_pttl c i j nd rd srcNow dumped :
    ms_nodes (cl_mesh c) !! i = Some nd → cl_open c !! (i, j) = Some rd →
    dumpOne tun memory srcNow nd (rd_key rd) = inr dumped →
    event Undisturbed c (open_reading (i, j) (mkReading (rd_key rd) (rd_stored rd) (Some (srcNow, dumped)) None) c)
| e_hash c i j nd rd srcNow payload :
    ms_nodes (cl_mesh c) !! i = Some nd → cl_open c !! (i, j) = Some rd → rd_dump rd = Some (srcNow, Some payload) →
    event Undisturbed c (open_reading (i, j)
      (mkReading (rd_key rd) (rd_stored rd) (rd_dump rd) (Some (logicalVHash vhash nd (rd_key rd)))) c)
| e_stamp c i j nd rd srcNow dumped now rec nd' :
    ms_nodes (cl_mesh c) !! i = Some nd → cl_open c !! (i, j) = Some rd → rd_dump rd = Some (srcNow, dumped) →
    dumped = None ∨ is_Some (rd_hash rd) →
    finish_reread (rd_key rd) (reread_plan i now (rd_key rd) (rd_stored rd) dumped (default None (rd_hash rd))) nd = (rec, nd') →
    event (stamp_kind now srcNow rd dumped nd) c
      (mkCluster (mkMesh (<[i := nd']> (ms_nodes (cl_mesh c))) (option_list rec ++ ms_frames (cl_mesh c))) (delete (i, j) (cl_open c)))
| e_apply c i nd rec tgtNow res nd' :
    ms_nodes (cl_mesh c) !! i = Some nd → rec ∈ ms_frames (cl_mesh c) →
    meshApplyScript accepts tgtNow rec nd = (res, nd') →
    event Undisturbed c (on_mesh (set_member i nd' (cl_mesh c)) c)
| e_gc c i nd cutoff :
    ms_nodes (cl_mesh c) !! i = Some nd →
    event (gc_kind cutoff nd) c (on_mesh (set_member i (GCTombstones cutoff nd) (cl_mesh c)) c).

(** What undisturbed events come to: the whole re-read of a key in one step. *)
Inductive step : mesh → mesh → Prop :=
| s_write m i nd k e :
    ms_nodes m !! i = Some nd → written k (e_dump e) → (-1 <= e_pttl e)%Z →
    step m (set_member i (mkMember (<[k := e]> (mb_data nd)) (mb_meta nd)) m)
| s_delete m i nd k :
    ms_nodes m !! i = Some nd →
    step m (set_member i (mkMember (delete k (mb_data nd)) (mb_meta nd)) m)
| s_reread m i nd k now srcNow rec nd' :
    ms_nodes m !! i = Some nd → (0 <= now < 2 ^ 53)%Z → log_room nd k →
    reread_key tun memory vhash srcNow i now k nd = (inr rec, nd') →
    step m (mkMesh (<[i := nd']> (ms_nodes m)) (option_list rec ++ ms_frames m))
| s_apply m i nd rec tgtNow res nd' :
    ms_nodes m !! i = Some nd → rec ∈ ms_frames m →
    meshApplyScript accepts tgtNow rec nd = (res, nd') →
    step m (set_member i nd' m).

Lemma reread_plan_absent nodeID now k stored vh :
  reread_plan nodeID now k stored None vh = reread_plan nodeID now k stored None None.
Proof. unfold reread_plan. destruct (hlcTick _ _ _). done. Qed.

Lemma undisturbed_stamp m i nd rd srcNow dumped now rec nd' :
  ms_nodes m !! i = Some nd → stamp_kind now srcNow rd dumped nd = Undisturbed →
  finish_reread (rd_key rd) (reread_plan i now (rd_key rd) (rd_stored rd) dumped (default None (rd_hash rd))) nd = (rec, nd') →
  step m (mkMesh (<[i := nd']> (ms_nodes m)) (option_list rec ++ ms_frames m)).
Proof.
  intros Hn Hk Hf. unfold stamp_kind in Hk. destruct (still rd srcNow dumped nd) eqn:Hs; [|done].
  destruct (decide _) as [[Hnow Hroom]|]; [|done]. unfold still in Hs.
  apply andb_true_iff in Hs as [[H1 H2]%andb_true_iff H3]. apply bool_decide_eq_true in H1.
  destruct (dumpOne tun memory srcNow nd (rd_key rd)) as [e|d] eqn:Hd; [done|]. apply bool_decide_eq_true in H2 as ->.
  apply (s_reread m i nd (rd_key rd) now srcNow); [done..|]. unfold reread_key. rewrite Hd, <-H1.
  assert (reread_plan i now (rd_key rd) (rd_stored rd) dumped (logicalVHash vhash nd (rd_key rd)) =
    reread_plan i now (rd_key rd) (rd_stored rd) dumped (default None (rd_hash rd))) as ->; [|by rewrite Hf].
  apply orb_true_iff in H3 as [H3|H3]; apply bool_decide_eq_true in H3; rewrite H3; [|done].
  by rewrite (reread_plan_absent _ _ _ _ (logicalVHash _ _ _)), (reread_plan_absent _ _ _ _ (default _ _)).
Qed.

Lemma undisturbed_event kd c c' : event kd c c' → kd = Undisturbed → rtc step (cl_mesh c) (cl_mesh c').
Proof.
  destruct 1 as [c i nd k e Hn Hw Hp|c i nd k Hn|c i j nd k Hn|c i j nd rd srcNow dumped Hn Ho Hd|c i j nd rd srcNow payload Hn Ho Hd
    |c i j nd rd srcNow dumped now rec nd' Hn Ho Hd Hh Hf|c i nd rec tgtNow res nd' Hn Hr Ha|c i nd cutoff Hn]; intros Hk; try done.
  - apply rtc_once. by apply s_write.
  - apply rtc_once. by apply s_delete.
  - apply rtc_once. by eapply undisturbed_stamp.
  - apply rtc_once. by eapply s_apply.
  - unfold gc_kind in Hk. destruct (decide _) as [Hg|]; [|done]. destruct (cl_mesh c) as [ns fs]. simpl in *.
    assert (GCTombstones cutoff nd = nd) as -> by (destruct nd; unfold GCTombstones in *; simpl in *; by rewrite Hg).
    unfold set_member. simpl. by rewrite insert_id.
Qed.

Lemma open_reading_twice e rd rd' c : open_reading e rd' (open_reading e rd c) = open_reading e rd' c.
Proof. unfold open_reading. simpl. by rewrite insert_insert_eq. Qed.

(** The three reads of a key that exists, with nothing in between. *)
Lemma reading_events c i j nd k srcNow payload :
  ms_nodes (cl_mesh c) !! i = Some nd → dumpOne tun memory srcNow nd k = inr (Some payload) →
  rtc (event Undisturbed) c
    (open_reading (i, j) (mkReading k (reg nd k) (Some (srcNow, Some payload)) (Some (logicalVHash vhash nd k))) c).
Proof.
  intros Hn Hd. eapply rtc_l; [by apply (e_meta c i j nd k)|].
  eapply rtc_l; [eapply (e_dump_pttl _ i j nd (mkReading k (reg nd k) None None)); [done|apply lookup_insert_eq|exact Hd]|].
  rewrite open_reading_twice. cbn [rd_key rd_stored].
  set (rd := mkReading k (reg nd k) (Some (srcNow, Some payload)) None).
  pose proof (e_hash (open_reading (i, j) rd c) i j nd rd srcNow payload Hn (lookup_insert_eq _ _ _) eq_refl) as He.
  rewrite open_reading_twice in He. by apply rtc_once.
Qed.

(** Any data, no registers. *)
Record start (m : mesh) : Prop := {
  st_frames : ms_frames m = [];
  st_meta i nd : ms_nodes m !! i = Some nd → mb_meta nd = ∅;
  st_data i nd k e :
    ms_nodes m !! i = Some nd → mb_data nd !! k = Some e → written k (e_dump e) ∧ (-1 <= e_pttl e)%Z;
  st_ids i : is_Some (ms_nodes m !! i) → (Z.of_nat (length i) < 2 ^ 16)%Z
}.

(** By undisturbed events only. *)
Definition reachable (m : mesh) : Prop :=
  ∃ m0 o, start m0 ∧ rtc (event Undisturbed) (mkCluster m0 ∅) (mkCluster m o).

Lemma reachable_steps m : reachable m → ∃ m0, start m0 ∧ rtc step m0 m.
Proof.
  intros (m0 & o & Hs & Hr). exists m0. split; [done|]. change (rtc step (cl_mesh (mkCluster m0 ∅)) (cl_mesh (mkCluster m o))).
  clear Hs. induction Hr as [c|c1 c2 c3 He _ IH]; [done|]. etransitivity; [by eapply undisturbed_event|done].
Qed.

(** ** Versions name values *)

Abbreviation contents := (gmap (bytes * Mesh.version) (option bytes)).

Definition version_ok (v : version) : Prop :=
  exact v ∧ (0 <= fingerprint v < 2 ^ 64)%Z ∧
  (Z.of_nat (length (node v)) < 2 ^ 16)%Z.

(** The version [v] of [k] is the value [c], or the deletion. *)
Record carries (C : contents) (k : bytes) (v : version) (c : option bytes) : Prop := {
  ca_content : C !! (k, stampv v) = Some c;
  ca_deleted : deleted v = bool_decide (c = None);
  ca_value d : c = Some d → written k d ∧ vhash k d = Some (fingerprint v);
  ca_ok : version_ok v;
  ca_key : (Z.of_nat (length k) < 2 ^ 32)%Z
}.

Record frame_ok (C : contents) (rec : record) : Prop := {
  fo_mesh : RedisFrame.has_flag (RedisFrame.rec_flags rec) RedisFrame.flagMesh = true;
  fo_deleted : RedisFrame.has_flag (RedisFrame.rec_flags rec) RedisFrame.flagDeleted = deleted (RedisFrame.rec_ver rec);
  fo_carries : ∃ c, carries C (RedisFrame.rec_key rec) (RedisFrame.rec_ver rec) c ∧ default [] c = RedisFrame.rec_dump rec
}.

Record inv (C : contents) (m : mesh) : Prop := {
  iv_reg i nd k v : ms_nodes m !! i = Some nd → reg nd k = Some v → ∃ c, carries C k v c;
  iv_data i nd k e :
    ms_nodes m !! i = Some nd → mb_data nd !! k = Some e → written k (e_dump e) ∧ (-1 <= e_pttl e)%Z;
  iv_frames rec : rec ∈ ms_frames m → frame_ok C rec;
  iv_fresh i nd k c x : ms_nodes m !! i = Some nd → C !! (k, (c, Text.untxt i)) = Some x →
    ∃ v, reg nd k = Some v ∧ Mesh.vle (c, Text.untxt i) (stampv v);
  iv_ids i : is_Some (ms_nodes m !! i) → (Z.of_nat (length i) < 2 ^ 16)%Z
}.

Lemma carries_mono C C' k v c : C ⊆ C' → carries C k v c → carries C' k v c.
Proof. intros Hs [H1 H2 H3 H4 H5]. split; try done. by eapply lookup_weaken. Qed.

Lemma frame_mono C C' rec : C ⊆ C' → frame_ok C rec → frame_ok C' rec.
Proof. intros Hs [H1 H2 (c & H3 & H4)]. split; [done..|]. exists c. split; [by eapply carries_mono|done]. Qed.

(** *** Registers only grow *)

Definition reg_le (a b : option version) : Prop :=
  match a, b with
  | None, _ => True
  | Some v, Some v' => Mesh.vle (stampv v) (stampv v')
  | Some _, None => False
  end.

#[local] Instance reg_le_preorder : PreOrder reg_le.
Proof.
  split; [intros []; [apply Mesh.vle_refl|done]|].
  intros [a|] [b|] [c|]; try done. apply Mesh.vle_trans.
Qed.

Lemma reg_stamp k k' v nd :
  reg (stampMeta (metaKey k) v nd) k' = if decide (k' = k) then Some v else reg nd k'.
Proof.
  unfold reg, readMeta, stampMeta. simpl. case_decide as H; [subst; by rewrite lookup_insert_eq|].
  rewrite lookup_insert_ne; [done|]. intros E. by apply (inj metaKey) in E.
Qed.

(** What changes at one member: its registers grow, its values stay in the set. *)
Lemma inv_member C m i nd nd' :
  inv C m → ms_nodes m !! i = Some nd →
  (∀ k, reg_le (reg nd k) (reg nd' k)) → (∀ k v, reg nd' k = Some v → ∃ c, carries C k v c) →
  (∀ k e, mb_data nd' !! k = Some e → written k (e_dump e) ∧ (-1 <= e_pttl e)%Z) →
  inv C (set_member i nd' m).
Proof.
  intros [I1 I2 I3 I4 I5] Hi Hle Hreg Hdata.
  assert (∀ j x, ms_nodes (set_member i nd' m) !! j = Some x → j = i ∧ x = nd' ∨ j ≠ i ∧ ms_nodes m !! j = Some x) as Hj.
  { intros j x. simpl. intros [[<- <-]|[? ?]]%lookup_insert_Some; [by left|right; done]. }
  split; [| |done| |].
  - intros j x k v [[-> ->]|[_ Hx]]%Hj Hr; [by apply Hreg|by apply (I1 j x)].
  - intros j x k e [[-> ->]|[_ Hx]]%Hj He; [by apply Hdata|by apply (I2 j x)].
  - intros j x k c y [[-> ->]|[_ Hx]]%Hj Hc; [|by apply (I4 j x k c y)].
    destruct (I4 i nd k c y Hi Hc) as (v & Hv & Hvle). specialize (Hle k). rewrite Hv in Hle. simpl in Hle.
    destruct (reg nd' k) as [v'|]; [|done]. exists v'. split; [done|]. by eapply Mesh.vle_trans.
  - intros j [x [[-> _]|[_ Hx]]%Hj]; [apply I5; by eexists|apply I5; by eexists].
Qed.

(** *** Stamping *)

Lemma stamp_fresh C m i nd k v :
  inv C m → ms_nodes m !! i = Some nd → node v = i →
  (∀ st, reg nd k = Some st → Mesh.vlt (stampv st) (stampv v)) → C !! (k, stampv v) = None.
Proof.
  intros Hi Hn Hv Hlt. destruct (C !! (k, stampv v)) as [x|] eqn:E; [|done]. exfalso.
  unfold stampv in E. rewrite Hv in E. destruct (iv_fresh _ _ Hi i nd k _ _ Hn E) as (st & Hst & Hle).
  specialize (Hlt st Hst). unfold stampv at 2 in Hlt. rewrite Hv in Hlt.
  apply (Mesh.vlt_irrefl (stampv st)). destruct Hle as [Hle|Hle]; [by rewrite Hle in Hlt|by eapply Mesh.vlt_trans].
Qed.

Lemma inv_stamp C m i nd k v c rec :
  inv C m → ms_nodes m !! i = Some nd → node v = i →
  (∀ st, reg nd k = Some st → Mesh.vlt (stampv st) (stampv v)) →
  carries (<[(k, stampv v) := c]> C) k v c → frame_ok (<[(k, stampv v) := c]> C) rec →
  inv (<[(k, stampv v) := c]> C)
    (mkMesh (<[i := stampMeta (metaKey k) v nd]> (ms_nodes m)) (rec :: ms_frames m)).
Proof.
  intros Hi Hn Hv Hlt Hc Hf. pose proof (stamp_fresh _ _ _ _ _ _ Hi Hn Hv Hlt) as Hfresh.
  set (C' := <[(k, stampv v) := c]> C) in *. assert (C ⊆ C') as HC by by apply insert_subseteq.
  pose proof Hi as [I1 I2 I3 I4 I5].
  assert (∀ j x, (<[i := stampMeta (metaKey k) v nd]> (ms_nodes m)) !! j = Some x →
    j = i ∧ x = stampMeta (metaKey k) v nd ∨ j ≠ i ∧ ms_nodes m !! j = Some x) as Hj.
  { intros j x. intros [[<- <-]|[? ?]]%lookup_insert_Some; [by left|right; done]. }
  split; simpl.
  - intros j x k' v' [[-> ->]|[_ Hx]]%Hj.
    + rewrite reg_stamp. case_decide as Hk; [intros [= <-]; subst; by exists c|].
      intros Hr. destruct (I1 i nd k' v' Hn Hr) as (c' & ?). exists c'. by eapply carries_mono.
    + intros Hr. destruct (I1 j x k' v' Hx Hr) as (c' & ?). exists c'. by eapply carries_mono.
  - intros j x k' e [[-> ->]|[_ Hx]]%Hj He; [by apply (I2 i nd)|by apply (I2 j x)].
  - intros r [->|Hr]%elem_of_cons; [done|]. by eapply frame_mono, I3.
  - intros j x k' cl y Hx Hy. apply lookup_insert_Some in Hy as [[Hkey _]|[_ Hy]].
    + injection Hkey as <- Hcl Hid. rewrite Hv in Hid. apply untxt_inj in Hid as <-. apply Hj in Hx as [[_ ->]|[? _]]; [|done]. exists v. rewrite reg_stamp, decide_True by done.
      split; [done|]. left. unfold stampv. by rewrite Hv, <-Hcl.
    + apply Hj in Hx as [[-> ->]|[_ Hx]]; [|by apply (I4 j x k' cl y)].
      destruct (I4 i nd k' cl y Hn Hy) as (st & Hst & Hle). rewrite reg_stamp. case_decide as Hk; [|by exists st].
      subst. exists v. split; [done|]. eapply Mesh.vle_trans; [done|]. right. by apply Hlt.
  - intros j [x [[-> _]|[_ Hx]]%Hj]; apply I5; by eexists.
Qed.

(** *** The re-read of a key *)

Lemma dumpOne_cases srcNow nd k dumped :
  (∀ e, mb_data nd !! k = Some e → (-1 <= e_pttl e)%Z) → dumpOne tun memory srcNow nd k = inr dumped →
  match mb_data nd !! k with
  | None => dumped = None
  | Some e => ∃ ttl flags, dumped = Some (e_dump e, ttl, flags) ∧ restoreTTL (e_pttl e) (tu_absTTL tun) srcNow = (ttl, flags)
  end.
Proof.
  intros Hp. unfold dumpOne, src_dump, src_pttl. destruct (mb_data nd !! k) as [e|]; simpl; [|by intros [= <-]].
  specialize (Hp e eq_refl). rewrite decide_False by lia. destruct (_ && _); [done|].
  destruct (restoreTTL _ _ _) as [ttl flags]. intros [= <-]. by eexists _, _.
Qed.

Lemma restoreTTL_flags pttl abs now ttl flags :
  restoreTTL pttl abs now = (ttl, flags) → flags = 0%Z ∨ flags = RedisFrame.flagAbsTTL.
Proof. unfold restoreTTL. repeat case_match; intros [= <- <-]; auto. Qed.

(** The outcome of a re-read. *)
Record reread_post (srcNow : Z) (k : bytes) (nd : member) (rec : option record) (nd' : member) : Prop := {
  rp_data : mb_data nd' = mb_data nd;
  rp_other k' : k' ≠ k → reg nd' k' = reg nd k';
  rp_settled : settled nd' k;
  rp_same : settled nd k → nd' = nd;
  rp_le : reg_le (reg nd k) (reg nd' k);
  rp_rec : (λ r, (RedisFrame.rec_key r, RedisFrame.rec_ver r)) <$> rec = (λ v, (k, v)) <$> reg nd' k;
  rp_frame r : rec = Some r →
    match mb_data nd !! k with
    | Some e => ∃ f, restoreTTL (e_pttl e) (tu_absTTL tun) srcNow = (RedisFrame.rec_ttl r, f) ∧
                  RedisFrame.rec_flags r = Z.lor f RedisFrame.flagMesh ∧ RedisFrame.rec_dump r = e_dump e
    | None => RedisFrame.rec_ttl r = 0%Z ∧ RedisFrame.rec_flags r = Z.lor RedisFrame.flagMesh RedisFrame.flagDeleted ∧
                RedisFrame.rec_dump r = []
    end
}.

Lemma inv_frame C m rec : inv C m → frame_ok C rec → inv C (mkMesh (ms_nodes m) (rec :: ms_frames m)).
Proof. intros [I1 I2 I3 I4 I5] Hf. split; try done. intros r [->|Hr]%elem_of_cons; [done|by apply I3]. Qed.

Lemma tick_ok C m i nd k now p l :
  inv C m → ms_nodes m !! i = Some nd → (0 <= now < 2 ^ 53)%Z → (∀ v, reg nd k = Some v → (log v < 2 ^ 31 - 1)%Z) →
  hlcTick now (phys (default RedisFrame.zeroVersion (reg nd k))) (log (default RedisFrame.zeroVersion (reg nd k))) = (p, l) →
  (0 <= p < 2 ^ 53)%Z ∧ (0 <= l < 2 ^ 31)%Z ∧ (∀ st, reg nd k = Some st → Mesh.clock_lt (phys st, log st) (p, l)).
Proof.
  intros Hi Hn Hnow Hroom. set (st := default _ _).
  assert ((0 <= phys st < 2 ^ 53)%Z ∧ (0 <= log st < 2 ^ 31 - 1)%Z ∧ ∀ st', reg nd k = Some st' → st' = st) as (Hp & Hl & Hst).
  { unfold st. destruct (reg nd k) as [v|] eqn:Hr; simpl; [|split; [lia|]; split; [lia|done]].
    destruct (iv_reg _ _ Hi _ _ _ _ Hn Hr) as (c & [_ _ _ ([? ?] & _) _]). specialize (Hroom v eq_refl). split; [lia|]. split; [lia|].
    by intros st' [= ->]. }
  intros Ht. pose proof (hlcTick_lt now (phys st) (log st) Hl) as Hlt. rewrite Ht in Hlt.
  assert ((0 <= p < 2 ^ 53)%Z ∧ (0 <= l < 2 ^ 31)%Z) as [? ?]
    by (unfold hlcTick in Ht; case_decide; injection Ht as <- <-; rewrite ?add32_small by done; lia).
  split; [done|]. split; [done|]. intros st' ->%Hst. done.
Qed.

Lemma alive_flags f : f = 0%Z ∨ f = RedisFrame.flagAbsTTL →
  RedisFrame.has_flag (Z.lor f RedisFrame.flagMesh) RedisFrame.flagMesh = true ∧
  RedisFrame.has_flag (Z.lor f RedisFrame.flagMesh) RedisFrame.flagDeleted = false.
Proof. by intros [->| ->]. Qed.

Lemma reread_inv C m i nd k now srcNow rec nd' :
  inv C m → ms_nodes m !! i = Some nd → (0 <= now < 2 ^ 53)%Z → log_room nd k →
  reread_key tun memory vhash srcNow i now k nd = (inr rec, nd') →
  reread_post srcNow k nd rec nd' ∧
  ∃ C', inv C' (mkMesh (<[i := nd']> (ms_nodes m)) (option_list rec ++ ms_frames m)).
Proof.
  intros Hi Hn Hnow Hroom. unfold reread_key. destruct (dumpOne _ _ _ _ _) as [err|dumped] eqn:Hd; [done|].
  apply dumpOne_cases in Hd; [|intros e He; by apply (iv_data _ _ Hi i nd k)].
  unfold finish_reread, reread_plan, logicalVHash.
  destruct (hlcTick now _ _) as [p l] eqn:Htick.
  assert (¬ settled nd k → ((0 <= p < 2 ^ 53)%Z ∧ (0 <= l < 2 ^ 31)%Z) ∧
    ∀ b h st, reg nd k = Some st → Mesh.vlt (stampv st) (stampv (RedisFrame.mkVersion p l i b h))) as Hstamp.
  { intros Hns. destruct Hroom as [?|Hroom]; [done|].
    destruct (tick_ok _ _ _ _ _ _ _ _ Hi Hn Hnow Hroom Htick) as (Hp & Hl & Hlt). split; [done|].
    intros b h st Hst. left. by apply Hlt. }
  clear Htick.
  assert (Z.of_nat (length i) < 2 ^ 16)%Z as Hid by (apply (iv_ids _ _ Hi); by eexists).
  assert (<[i := nd]> (ms_nodes m) = ms_nodes m) as Hsame by by apply insert_id.
  destruct (mb_data nd !! k) as [e|] eqn:Hk.
  - destruct Hd as (ttl & flags & -> & Hf). destruct (iv_data _ _ Hi i nd k e Hn Hk) as [Hw _].
    destruct (written_hash _ _ Hw) as (h & Hh & Hhb). destruct (written_size _ _ Hw) as [Hks _].
    cbn [mbind option_bind]. rewrite Hh.
    destruct (alive_flags flags (restoreTTL_flags _ _ _ _ _ Hf)) as [Hf1 Hf2].
    destruct (bool_decide (reg nd k = None) || _ || _) eqn:Hfresh; cbn [fst snd]; intros [= <- <-].
    + assert (¬ settled nd k) as Hns.
      { unfold settled. rewrite Hk. destruct (reg nd k) as [st|]; [|by intros []]. intros [Hdel Hfp].
        simpl in Hfresh. rewrite Hdel in Hfresh. simpl in Hfresh. rewrite Hfp in Hh. injection Hh as Hh.
        by rewrite Hh, Z.eqb_refl in Hfresh. }
      destruct (Hstamp Hns) as [[Hp Hl] Hv]. split.
      * split; [done| | |done| | |].
        -- intros k' Hne. by rewrite reg_stamp, decide_False.
        -- unfold settled. cbn [stampMeta mb_data]. by rewrite Hk, reg_stamp, decide_True.
        -- rewrite reg_stamp, decide_True by done. destruct (reg nd k) as [st|] eqn:Hr; [|done]. right. by apply Hv.
        -- by rewrite reg_stamp, decide_True.
        -- intros r [= <-]. rewrite Hk. by exists flags.
      * eexists. apply (inv_stamp C m i nd k _ (Some (e_dump e))); [done..|by apply Hv| |].
        -- split; try done; [by rewrite lookup_insert_eq|]. by intros d [= <-].
        -- split; [done..|]. exists (Some (e_dump e)). split; [|done].
           split; try done; [by rewrite lookup_insert_eq|]. by intros d [= <-].
    + apply orb_false_iff in Hfresh as [[Hne Hdel]%orb_false_iff Hfp].
      destruct (reg nd k) as [st|] eqn:Hr; [|done]. simpl in Hdel, Hfp |- *.
      apply negb_false_iff, Z.eqb_eq in Hfp. split.
      * split; try done; [unfold settled; rewrite Hk, Hr; by rewrite Hfp|by rewrite Hr|].
        intros r [= <-]. rewrite Hk. by exists flags.
      * exists C. rewrite Hsame. apply inv_frame; [done|]. destruct (iv_reg _ _ Hi i nd k st Hn Hr) as (c & Hc).
        split; [done|simpl; by rewrite Hdel|]. exists c. split; [done|].
        pose proof Hc as [_ Hcd Hcv _ _]. destruct c as [d|]; [|by rewrite Hdel in Hcd].
        destruct (Hcv d eq_refl) as [Hw' Hh']. simpl. apply (written_inj k); [done..|]. by rewrite Hh', Hh, Hfp.
  - subst dumped. cbn [mbind option_bind]. destruct (reg nd k) as [st|] eqn:Hr.
    2: { intros [= <- <-]. split; [|exists C; rewrite Hsame; by destruct m].
         split; try done; [unfold settled; by rewrite Hk, Hr|by rewrite Hr]. }
    destruct (iv_reg _ _ Hi i nd k st Hn Hr) as (c & Hc).
    destruct (deleted st) eqn:Hdel; cbn [fst snd]; intros [= <- <-].
    + split.
      * split; try done; [unfold settled; by rewrite Hk, Hr|by rewrite Hr|].
        intros r [= <-]. by rewrite Hk.
      * exists C. rewrite Hsame. apply inv_frame; [done|]. split; [done|simpl; by rewrite Hdel|]. exists c. split; [done|].
        pose proof Hc as [_ Hcd _ _ _]. rewrite Hdel in Hcd. symmetry in Hcd. apply bool_decide_eq_true in Hcd. by subst.
    + pose proof Hc as [_ _ _ _ Hks].
      assert (¬ settled nd k) as Hns by (unfold settled; rewrite Hk, Hr; by rewrite Hdel).
      destruct (Hstamp Hns) as [[Hp Hl] Hv]. split.
      * split; [done| | |done| | |].
        -- intros k' Hne. by rewrite reg_stamp, decide_False.
        -- unfold settled. cbn [stampMeta mb_data]. by rewrite Hk, reg_stamp, decide_True.
        -- rewrite Hr, reg_stamp, decide_True by done. right. by apply Hv.
        -- by rewrite reg_stamp, decide_True.
        -- intros r [= <-]. by rewrite Hk.
      * eexists. apply (inv_stamp C m i nd k _ None); [done..|intros st' Hst'; apply Hv; congruence| |].
        -- split; try done. by rewrite lookup_insert_eq.
        -- split; [done..|]. exists None. split; [|done]. split; try done. by rewrite lookup_insert_eq.
Qed.

(** *** Applying a record *)

Record apply_post (tgtNow : Z) (rec : record) (nd : member) (res : result unit) (nd' : member) : Prop := {
  ap_other k : k ≠ RedisFrame.rec_key rec → mb_data nd' !! k = mb_data nd !! k ∧ reg nd' k = reg nd k;
  ap_le k : reg_le (reg nd k) (reg nd' k);
  ap_least : res = inr tt → reg_le (Some (RedisFrame.rec_ver rec)) (reg nd' (RedisFrame.rec_key rec));
  ap_from : nd' = nd ∨ stampv <$> reg nd' (RedisFrame.rec_key rec) = Some (stampv (RedisFrame.rec_ver rec)) ∧
    mb_data nd' !! RedisFrame.rec_key rec =
      (if deleted (RedisFrame.rec_ver rec) then None else restore_entry tgtNow rec) ∧
    (is_Some (mb_data nd' !! RedisFrame.rec_key rec) ∨ deleted (RedisFrame.rec_ver rec) = true →
       settled nd' (RedisFrame.rec_key rec));
  ap_total : deleted (RedisFrame.rec_ver rec) = true ∨ restorable accepts rec = true → res = inr tt
}.

Lemma restore_entry_pttl now rec e :
  restorable accepts rec = true → restore_entry now rec = Some e →
  e_dump e = RedisFrame.rec_dump rec ∧ (-1 <= e_pttl e)%Z.
Proof.
  unfold restorable, restore_entry. intros [_ Hr%bool_decide_eq_true]%andb_true_iff.
  repeat case_match; try done; intros [= <-]; (split; [done|simpl; lia]).
Qed.

Lemma reg_meta k k' v d nd :
  reg (mkMember d (<[metaKey k := v]> (mb_meta nd))) k' = if decide (k' = k) then Some v else reg nd k'.
Proof. apply (reg_stamp k k' v nd). Qed.

Lemma carries_same C k v v' c :
  carries C k v c → stampv v' = stampv v → node v' = node v → deleted v' = deleted v →
  (deleted v = false → fingerprint v' = fingerprint v) → (0 <= fingerprint v' < 2 ^ 64)%Z → carries C k v' c.
Proof.
  intros [H1 H2 H3 ([H4 H5] & H6 & H7) H8] Hs Hn Hd Hf Hb. injection Hs as Hp Hl _. split.
  - unfold stampv. by rewrite Hp, Hl, Hn.
  - by rewrite Hd.
  - intros d ->. simpl in H2. rewrite (Hf H2). by apply H3.
  - unfold version_ok, exact. rewrite Hp, Hl, Hn. done.
  - done.
Qed.

Lemma apply_inv C m i nd rec tgtNow res nd' :
  inv C m → ms_nodes m !! i = Some nd → frame_ok C rec → meshApplyScript accepts tgtNow rec nd = (res, nd') →
  inv C (set_member i nd' m) ∧ apply_post tgtNow rec nd res nd'.
Proof.
  intros Hi Hn [F1 F2 (c & Hc & Hdump)]. unfold meshApplyScript. cbv zeta.
  set (k := RedisFrame.rec_key rec) in *. set (v := RedisFrame.rec_ver rec) in *.
  assert (inv C (set_member i nd m)) as Hsame.
  { unfold set_member. rewrite insert_id by done. by destruct m. }
  assert (∀ v' d, stampv v' = stampv v → script_wins (reg nd k) v = true →
    ∀ k', reg_le (reg nd k') (reg (mkMember d (<[metaKey k := v']> (mb_meta nd))) k')) as Hle.
  { intros v' d Hs Hw k'. rewrite reg_meta. case_decide as Hk; [subst k'|reflexivity].
    destruct (reg nd k) as [st|] eqn:Hst; [|done]. simpl. rewrite Hs. right. apply script_wins_vlt; [|apply Hc|done]. destruct (iv_reg _ _ Hi i nd k st Hn Hst) as (c' & Hc'). apply Hc'. }
  assert (∀ v' d k', k' ≠ k → reg (mkMember d (<[metaKey k := v']> (mb_meta nd))) k' = reg nd k') as Hother.
  { intros v' d k' Hk. by rewrite reg_meta, decide_False. }
  assert (∀ v' d k' x, carries C k v' c → reg (mkMember d (<[metaKey k := v']> (mb_meta nd))) k' = Some x →
    ∃ c, carries C k' x c) as Hreg.
  { intros v' d k' x Hv' Hx. rewrite reg_meta in Hx. case_decide as Hk; [|by apply (iv_reg _ _ Hi i nd)].
    injection Hx as <-. subst k'. by exists c. }
  destruct (script_wins (reg nd k) v) eqn:Hwin; cbn [negb].
  2: { intros [= <- <-]. split; [done|]. split; try done; [|by left].
       intros _. fold k v. destruct (reg nd k) as [st|] eqn:Hst; [|done]. simpl. apply Mesh.not_vlt. intros Hv.
       destruct (iv_reg _ _ Hi i nd k st Hn Hst) as (c' & Hc').
       apply script_wins_vlt in Hv; [|apply Hc'|apply Hc]. by rewrite Hv in Hwin. }
  rewrite F2. pose proof Hc as [_ Hcd Hcv (_ & Hfp & _) _].
  destruct (deleted v) eqn:Hdel; [|destruct (restorable accepts rec) eqn:Hres].
  - intros [= <- <-]. set (v' := RedisFrame.mkVersion (phys v) (log v) (node v) true 0).
    assert (carries C k v' c) as Hv'
      by (apply (carries_same C k v); [done..|by rewrite Hdel|by rewrite Hdel|simpl; lia]).
    split.
    + apply (inv_member C m i nd); [done..|by apply Hle|intros k' x; by apply Hreg|].
      intros k' e. simpl. intros [_ He]%lookup_delete_Some. by apply (iv_data _ _ Hi i nd).
    + split.
      * intros k' Hk. simpl. rewrite lookup_delete_ne by done. split; [done|by apply Hother].
      * by apply Hle.
      * intros _. fold k. rewrite reg_meta, decide_True by done. by left.
      * right. fold k v. rewrite reg_meta, decide_True, Hdel by done. simpl. rewrite lookup_delete_eq.
        split_and!; [done..|]. intros _. unfold settled. simpl. rewrite lookup_delete_eq, reg_meta, decide_True by done. done.
      * done.
  - intros [= <- <-]. set (v' := RedisFrame.mkVersion (phys v) (log v) (node v) false (fingerprint v)).
    assert (carries C k v' c) as Hv'
      by (apply (carries_same C k v); [done..|by rewrite Hdel|by rewrite Hdel|simpl; lia]).
    destruct c as [d|]; [|done]. destruct (Hcv d eq_refl) as [Hw Hh]. simpl in Hdump.
    split.
    + apply (inv_member C m i nd); [done..|by apply Hle|intros k' x; by apply Hreg|].
      intros k' e. simpl. destruct (decide (k' = k)) as [->|Hk].
      * rewrite lookup_partial_alter_eq. intros He. destruct (restore_entry_pttl _ _ _ Hres He) as [-> ?].
        rewrite <-Hdump. done.
      * rewrite lookup_partial_alter_ne by done. apply (iv_data _ _ Hi i nd); done.
    + split.
      * intros k' Hk. simpl. rewrite lookup_partial_alter_ne by done. split; [done|by apply Hother].
      * by apply Hle.
      * intros _. fold k. rewrite reg_meta, decide_True by done. by left.
      * right. fold k v. rewrite reg_meta, decide_True, Hdel by done. simpl. rewrite lookup_partial_alter_eq.
        split_and!; [done..|]. intros [[e He]|]; [|done]. unfold settled. simpl.
        rewrite lookup_partial_alter_eq, He, reg_meta, decide_True by done. split; [done|].
        destruct (restore_entry_pttl _ _ _ Hres He) as [-> _]. by rewrite <-Hdump.
      * done.
  - intros [= <- <-]. split; [done|]. split; try done; [by left|].
    fold v. intros [?|?]; [by rewrite Hdel in *|congruence].
Qed.

Lemma inv_step C m m' : inv C m → step m m' → ∃ C', inv C' m'.
Proof.
  intros Hi Hs. revert Hi.
  destruct Hs as [m1 i nd k e Hn Hw Hp|m1 i nd k Hn|m1 i nd k now srcNow rec nd' Hn Hnow Hroom Hr|m1 i nd rec tgtNow res nd' Hn Hrec Ha]; intros Hi.
  - exists C. apply (inv_member C m1 i nd); [done..|intros k'; reflexivity|intros k' v Hv; by apply (iv_reg _ _ Hi i nd)|].
    intros k' e'. simpl. intros [[<- <-]|[_ He]]%lookup_insert_Some; [done|by apply (iv_data _ _ Hi i nd)].
  - exists C. apply (inv_member C m1 i nd); [done..|intros k'; reflexivity|intros k' v Hv; by apply (iv_reg _ _ Hi i nd)|].
    intros k' e'. simpl. intros [_ He]%lookup_delete_Some. by apply (iv_data _ _ Hi i nd).
  - by destruct (reread_inv C m1 i nd k now srcNow rec nd' Hi Hn Hnow Hroom Hr) as [_ ?].
  - exists C. by destruct (apply_inv C m1 i nd rec tgtNow res nd' Hi Hn (iv_frames _ _ Hi rec Hrec) Ha).
Qed.

Lemma reachable_inv m : reachable m → ∃ C, inv C m.
Proof.
  intros (m0 & Hs & Hr)%reachable_steps. assert (∃ C, inv C m0) as [C HC].
  { exists ∅. destruct Hs as [S1 S2 S3 S4]. split; try done.
    - intros i nd k v Hn. unfold reg, readMeta. by rewrite (S2 i nd Hn), lookup_empty.
    - rewrite S1. by intros rec ?%not_elem_of_nil. }
  clear Hs. revert C HC. induction Hr as [|m0 m1 m2 Hstep _ IH]; intros C HC; [by exists C|].
  destruct (inv_step C m0 m1 HC Hstep) as [C' HC']. by apply (IH C').
Qed.

(** ** The registers and records are well-formed *)

Lemma carries_agree C k v v' c c' :
  carries C k v c → carries C k v' c' → stampv v = stampv v' →
  deleted v = deleted v' ∧ c = c' ∧ (deleted v = false → fingerprint v = fingerprint v').
Proof.
  intros [A1 A2 A3 _ _] [B1 B2 B3 _ _] Hv. rewrite Hv in A1. assert (c = c') as <- by congruence.
  split; [congruence|]. split; [done|]. rewrite A2. intros Hc%bool_decide_eq_false.
  destruct c as [d|]; [|done]. destruct (A3 d eq_refl) as [_ E1], (B3 d eq_refl) as [_ E2]. congruence.
Qed.

(** The fields fit their widths in the frame; a live register has the fingerprint of a value
    that was written; a live record carries such a value and its fingerprint; a version names
    one value: registers and records of a key with the same clock and node agree on the
    deletion and on the fingerprint. *)
Record typed_registers (m : mesh) : Prop := {
  tr_reg i nd k v : ms_nodes m !! i = Some nd → reg nd k = Some v →
    version_ok v ∧ (deleted v = false → ∃ d, written k d ∧ vhash k d = Some (fingerprint v));
  tr_record rec : rec ∈ ms_frames m →
    version_ok (RedisFrame.rec_ver rec) ∧
    RedisFrame.has_flag (RedisFrame.rec_flags rec) RedisFrame.flagDeleted = deleted (RedisFrame.rec_ver rec) ∧
    (deleted (RedisFrame.rec_ver rec) = false →
       written (RedisFrame.rec_key rec) (RedisFrame.rec_dump rec) ∧
       vhash (RedisFrame.rec_key rec) (RedisFrame.rec_dump rec) = Some (fingerprint (RedisFrame.rec_ver rec)));
  tr_regs i j a b k v v' : ms_nodes m !! i = Some a → ms_nodes m !! j = Some b → reg a k = Some v → reg b k = Some v' →
    stampv v = stampv v' → deleted v = deleted v' ∧ (deleted v = false → fingerprint v = fingerprint v');
  tr_reg_record rec i nd v : rec ∈ ms_frames m → ms_nodes m !! i = Some nd → reg nd (RedisFrame.rec_key rec) = Some v →
    stampv (RedisFrame.rec_ver rec) = stampv v →
    deleted (RedisFrame.rec_ver rec) = deleted v ∧
    (deleted v = false → fingerprint (RedisFrame.rec_ver rec) = fingerprint v)
}.

Lemma inv_typed C m : inv C m → typed_registers m.
Proof.
  intros Hi. split.
  - intros i nd k v Hn Hv. destruct (iv_reg _ _ Hi i nd k v Hn Hv) as (c & [_ A2 A3 A4 _]). split; [done|].
    rewrite A2. intros Hc%bool_decide_eq_false. destruct c as [d|]; [|done]. exists d. by apply A3.
  - intros rec Hrec. destruct (iv_frames _ _ Hi rec Hrec) as [_ F2 (c & [_ A2 A3 A4 _] & Hd)]. split; [done|]. split; [done|].
    rewrite A2. intros Hc%bool_decide_eq_false. destruct c as [d|]; [|done]. simpl in Hd. subst d. by apply A3.
  - intros i j a b k v v' Ha Hb Hv Hv' Hst.
    destruct (iv_reg _ _ Hi i a k v Ha Hv) as [c Hc], (iv_reg _ _ Hi j b k v' Hb Hv') as [c' Hc'].
    destruct (carries_agree C k v v' c c' Hc Hc' Hst) as (? & _ & ?). done.
  - intros rec i nd v Hrec Hn Hv Hst.
    destruct (iv_frames _ _ Hi rec Hrec) as [_ _ (c & Hc & _)], (iv_reg _ _ Hi i nd _ v Hn Hv) as [c' Hc'].
    destruct (carries_agree C _ _ v c c' Hc Hc' Hst) as (E & _ & Hf). rewrite <-E. done.
Qed.

(** ** A quiet round *)

Lemma inv_frames_sub C nodes f f' :
  (∀ r, r ∈ f' → r ∈ f) → inv C (mkMesh nodes f) → inv C (mkMesh nodes f').
Proof. intros Hs [I1 I2 I3 I4 I5]. split; try done. intros r Hr. by apply I3, Hs. Qed.

Context (unrefused : ∀ k, refused tun memory k = false) (clock : Z) (clock_pos : (0 <= clock)%Z).
Context (loads : ∀ k d, written k d → accepts d = true) (sel : selection).

(** The keys the two scans of an edge return in a full pass. *)
Definition dirty_keys (nd : member) : list bytes :=
  filter (λ k, sel_match sel k = true) (elements (dom (mb_data nd))) ++
  metaDeletes (Some sel) (elements (dom (mb_meta nd))) nd.

(** A pass of the edge from [i] to [j]: what the re-read wrote before it failed, if it did,
    reaches the sink. *)
Definition drain_edge (i j : bytes) (now : Z) (m : mesh) : option error * mesh :=
  match ms_nodes m !! i, ms_nodes m !! j with
  | Some a, Some b =>
      let '(recs, err, a) := rereadCurrentCluster tun memory vhash clock i now (key_of <$> dirty_keys a) a in
      let stream := RedisFrame.mkReader (recs ≫= RedisFrame.write)
        (match err with None => RedisFrame.EOF | Some _ => RedisFrame.ReadError "re-read failed" end) in
      let '(err', b, _) := stageUpsertCluster accepts clock stream b ∅ in
      (match err with Some e => Some e | None => err' end, mkMesh (<[j := b]> (<[i := a]> (ms_nodes m))) (recs ++ ms_frames m))
  | _, _ => (Some (Failure "not a member"), m)
  end.

Fixpoint drain_edges (edges : list (bytes * bytes * Z)) (m : mesh) : option error * mesh :=
  match edges with
  | [] => (None, m)
  | (i, j, now) :: edges =>
      match drain_edge i j now m with
      | (Some e, m) => (Some e, m)
      | (None, m) => drain_edges edges m
      end
  end.

(** A time to live that fits its field, counted from [clock]. *)
Definition ttl_fits (nd : member) : Prop :=
  ∀ k e, mb_data nd !! k = Some e → (clock + Z.max 1 (e_pttl e) < 2 ^ 63)%Z.

(** *** The source side of an edge *)

Record reread_all_post (keys : list bytes) (nd : member) (recs : list record) (nd' : member) : Prop := {
  ra_data : mb_data nd' = mb_data nd;
  ra_le k : reg_le (reg nd k) (reg nd' k);
  ra_other k : k ∉ keys → reg nd' k = reg nd k;
  ra_settled k : k ∈ keys → settled nd' k;
  ra_same k : settled nd k → reg nd' k = reg nd k;
  ra_framed k v : k ∈ keys → reg nd' k = Some v →
    ∃ r, r ∈ recs ∧ RedisFrame.rec_key r = k ∧ RedisFrame.rec_ver r = v;
  ra_recs r : r ∈ recs → reg nd' (RedisFrame.rec_key r) = Some (RedisFrame.rec_ver r) ∧
    match mb_data nd !! RedisFrame.rec_key r with
    | Some e => ∃ f, restoreTTL (e_pttl e) (tu_absTTL tun) clock = (RedisFrame.rec_ttl r, f) ∧
                  RedisFrame.rec_flags r = Z.lor f RedisFrame.flagMesh ∧ RedisFrame.rec_dump r = e_dump e
    | None => RedisFrame.rec_ttl r = 0%Z ∧ RedisFrame.rec_flags r = Z.lor RedisFrame.flagMesh RedisFrame.flagDeleted ∧
                RedisFrame.rec_dump r = []
    end
}.

Lemma dumpOne_total nd k : ∃ d, dumpOne tun memory clock nd k = inr d.
Proof.
  unfold dumpOne. destruct (src_dump _ _); [|by eexists]. case_decide; [by eexists|].
  rewrite unrefused, andb_false_r. destruct (restoreTTL _ _ _). by eexists.
Qed.

Lemma settled_reg nd nd' k : mb_data nd' !! k = mb_data nd !! k → reg nd' k = reg nd k → settled nd k → settled nd' k.
Proof. unfold settled. by intros -> ->. Qed.

Lemma reread_all keys C m i nd now :
  inv C m → ms_nodes m !! i = Some nd → (0 <= now < 2 ^ 53)%Z → (∀ k, k ∈ keys → log_room nd k) →
  ∃ recs nd' C', rereadCurrentCluster tun memory vhash clock i now (key_of <$> keys) nd = (recs, None, nd') ∧
    inv C' (mkMesh (<[i := nd']> (ms_nodes m)) (recs ++ ms_frames m)) ∧ reread_all_post keys nd recs nd'.
Proof.
  revert C m nd. induction keys as [|k keys IH]; intros C m nd Hi Hn Hnow Hroom.
  { exists [], nd, C. split; [done|]. split; [rewrite insert_id by done; by destruct m|].
    split; try done; [by intros k ?%not_elem_of_nil|by intros k v ?%not_elem_of_nil|].
    by intros r ?%not_elem_of_nil. }
  cbn [fmap list_fmap rereadCurrentCluster]. rewrite redisKey_of.
  destruct (reread_key tun memory vhash clock i now k nd) as [[e|rec] nd1] eqn:Hr.
  { unfold reread_key in Hr. destruct (dumpOne_total nd k) as [d Hd]. rewrite Hd in Hr.
    destruct (finish_reread _ _ _). done. }
  destruct (reread_inv C m i nd k now clock rec nd1 Hi Hn Hnow) as [[P1 P2 P3 P4 P5 P6 P7] (C1 & Hi1)];
    [apply Hroom; by left|done|].
  set (m1 := mkMesh _ _) in Hi1.
  assert (∀ k', settled nd k' → settled nd1 k' ∧ reg nd1 k' = reg nd k') as Hkeep.
  { intros k' Hs. destruct (decide (k' = k)) as [->|Hk]; [by rewrite (P4 Hs)|].
    split; [|by apply P2]. apply (settled_reg nd); [by rewrite P1|by apply P2|done]. }
  destruct (IH C1 m1 nd1) as (recs & nd' & C' & -> & Hi' & [Q1 Q2 Q3 Q4 Q5 Q6 Q7]);
    [done|by simpl; rewrite lookup_insert_eq|done| |].
  { intros k' Hk'. destruct (decide (k' = k)) as [->|Hk]; [by left|].
    destruct (Hroom k' ltac:(by right)) as [Hs|Hs]; [left; by apply Hkeep|right].
    rewrite P2 by done. done. }
  exists (option_list rec ++ recs), nd', C'. split; [done|]. split.
  { simpl in Hi'. rewrite insert_insert_eq in Hi'. eapply inv_frames_sub; [|exact Hi'].
    intros r. rewrite !elem_of_app. tauto. }
  assert (reg nd' k = reg nd1 k) as Hkreg by (by apply Q5).
  split.
  - by rewrite Q1.
  - intros k'. etrans; [|apply Q2]. destruct (decide (k' = k)) as [->|Hk]; [done|].
    rewrite P2 by done. reflexivity.
  - intros k' [Hk Hk']%not_elem_of_cons. rewrite Q3 by done. by apply P2.
  - intros k' [->|Hk']%elem_of_cons; [|by apply Q4].
    apply (settled_reg nd1); [by rewrite Q1|done|done].
  - intros k' Hs. destruct (Hkeep k' Hs) as [Hs1 <-]. by apply Q5.
  - intros k' v [->|Hk']%elem_of_cons Hv.
    + rewrite Hkreg in Hv. rewrite Hv in P6. destruct rec as [r|]; [|done]. injection P6 as <- <-.
      exists r. split; [|done]. apply elem_of_app. left. by left.
    + destruct (Q6 k' v Hk' Hv) as (r & Hr' & ?). exists r. split; [apply elem_of_app; by right|done].
  - intros r [Hin|Hin]%elem_of_app.
    + destruct rec as [r0|]; [|by apply not_elem_of_nil in Hin]. apply list_elem_of_singleton in Hin as ->.
      destruct (reg nd1 k) as [v|] eqn:Hv; [|done]. injection P6 as Hk1 Hv1. rewrite Hk1.
      split; [by rewrite Hkreg, Hv1|]. by apply P7.
    + destruct (Q7 r Hin) as [H1 H2]. split; [done|]. by rewrite <-P1.
Qed.

(** *** The sink side of an edge *)

Definition deliverable (r : record) : Prop :=
  deleted (RedisFrame.rec_ver r) = true ∨ restorable accepts r = true ∧ is_Some (restore_entry clock r).

Record stage_post (recs : list record) (nd nd' : member) : Prop := {
  sp_le k : reg_le (reg nd k) (reg nd' k);
  sp_least r : r ∈ recs → reg_le (Some (RedisFrame.rec_ver r)) (reg nd' (RedisFrame.rec_key r));
  sp_from k : mb_data nd' !! k = mb_data nd !! k ∧ reg nd' k = reg nd k ∨
    settled nd' k ∧ ∃ r, r ∈ recs ∧ RedisFrame.rec_key r = k ∧
      stampv <$> reg nd' k = Some (stampv (RedisFrame.rec_ver r)) ∧
      mb_data nd' !! k = if deleted (RedisFrame.rec_ver r) then None else restore_entry clock r
}.

Lemma stage_loop_frames fuel recs C m j nd staged :
  inv C m → ms_nodes m !! j = Some nd → Forall (frame_ok C) recs → Forall RedisFrame.record_ok recs →
  Forall deliverable recs → length (recs ≫= RedisFrame.write) < fuel →
  ∃ nd' staged', stage_loop accepts clock fuel (RedisFrame.mkReader (recs ≫= RedisFrame.write) RedisFrame.EOF) nd staged =
      Some (None, nd', staged') ∧
    inv C (set_member j nd' m) ∧ stage_post recs nd nd'.
Proof.
  revert fuel m nd staged. induction recs as [|r recs IH]; intros fuel m nd staged Hi Hn Hf Hok Hd Hfuel.
  { destruct fuel as [|fuel]; [simpl in Hfuel; lia|]. exists nd, staged. split; [done|]. split.
    - unfold set_member. rewrite insert_id by done. by destruct m.
    - split; [intros k; reflexivity|by intros r ?%not_elem_of_nil|by left]. }
  apply Forall_cons in Hf as [Hf1 Hf], Hok as [Hok1 Hok], Hd as [Hd1 Hd].
  rewrite bind_cons in *. pose proof (RedisFrame.write_nonempty r). rewrite length_app in Hfuel.
  destruct fuel as [|fuel]; [lia|]. cbn [stage_loop]. rewrite RedisFrame.readRecord_write by done.
  rewrite (fo_mesh _ _ Hf1). cbn [negb]. cbv zeta.
  destruct (meshApplyScript accepts clock r nd) as [res nd1] eqn:Ha.
  destruct (apply_inv C m j nd r clock res nd1 Hi Hn Hf1 Ha) as [Hi1 [A1 A2 A3 A4 A5]].
  assert (res = inr tt) as Hres by (apply A5; destruct Hd1 as [?|[? _]]; auto).
  rewrite Hres. destruct (IH fuel (set_member j nd1 m) nd1 ({[RedisFrame.rec_key r]} ∪ staged))
    as (nd' & staged' & -> & Hi' & [S1 S2 S3]); [done|by simpl; rewrite lookup_insert_eq|done..|lia|].
  exists nd', staged'. split; [done|]. split.
  { unfold set_member in *. simpl in Hi'. by rewrite insert_insert_eq in Hi'. }
  split.
  - intros k. etrans; [apply A2|apply S1].
  - intros r' [->|Hr']%elem_of_cons; [|by apply S2]. etrans; [by apply A3|apply S1].
  - intros k. destruct (S3 k) as [[E1 E2]|(Hs & r' & Hr' & ?)].
    2: { right. split; [done|]. exists r'. split; [by right|done]. }
    destruct (decide (k = RedisFrame.rec_key r)) as [->|Hk].
    2: { left. rewrite E1, E2. by apply A1. }
    destruct A4 as [->|(B1 & B2 & B3)]; [by left|]. right. split.
    + apply (settled_reg nd1); [done..|]. apply B3. rewrite B2.
      destruct (deleted (RedisFrame.rec_ver r)) eqn:Hdel; [by right|left]. by destruct Hd1 as [?|[_ ?]]; [congruence|].
    + exists r. split; [by left|]. split; [done|]. by rewrite E2, E1.
Qed.

(** What the re-read framed fits its frame and can be restored. *)
Lemma framed_ok C nd r :
  ttl_fits nd → (∀ k e, mb_data nd !! k = Some e → written k (e_dump e) ∧ (-1 <= e_pttl e)%Z) → frame_ok C r →
  match mb_data nd !! RedisFrame.rec_key r with
  | Some e => ∃ f, restoreTTL (e_pttl e) (tu_absTTL tun) clock = (RedisFrame.rec_ttl r, f) ∧
                RedisFrame.rec_flags r = Z.lor f RedisFrame.flagMesh ∧ RedisFrame.rec_dump r = e_dump e
  | None => RedisFrame.rec_ttl r = 0%Z ∧ RedisFrame.rec_flags r = Z.lor RedisFrame.flagMesh RedisFrame.flagDeleted ∧
              RedisFrame.rec_dump r = []
  end →
  RedisFrame.record_ok r ∧ deliverable r ∧
  (deleted (RedisFrame.rec_ver r) = false → ∀ e, restore_entry clock r = Some e → (clock + Z.max 1 (e_pttl e) < 2 ^ 63)%Z).
Proof.
  intros Hfit Hdata [F1 F2 (c & [_ Hcd Hcv ([V1 V2] & V3 & V4) Hk] & _)] Hshape.
  destruct (mb_data nd !! RedisFrame.rec_key r) as [e|] eqn:He.
  - destruct Hshape as (f & Ht & Hfl & Hdump). destruct (Hdata _ e He) as [Hw Hp]. specialize (Hfit _ e He).
    destruct (written_size _ _ Hw) as [_ Hsz]. pose proof (restoreTTL_flags _ _ _ _ _ Ht) as Hf.
    rewrite Hfl, (proj2 (alive_flags f Hf)) in F2.
    assert ((0 <= RedisFrame.rec_ttl r < 2 ^ 63)%Z) as Httl.
    { unfold restoreTTL in Ht. repeat case_decide; [injection Ht as <- _; lia|..]; destruct (tu_absTTL tun); injection Ht as <- _; lia. }
    assert (∃ e', restore_entry clock r = Some e' ∧ (clock + Z.max 1 (e_pttl e') < 2 ^ 63)%Z) as (e' & Hre & Hfit').
    { unfold restore_entry. rewrite Hfl. unfold restoreTTL in Ht. destruct (decide (e_pttl e < 0)%Z) as [Hneg|Hneg].
      { injection Ht as <- _. simpl. eexists. split; [done|]. simpl. lia. }
      set (ms := if decide (e_pttl e <= 0)%Z then 1%Z else e_pttl e) in Ht.
      assert (0 < ms <= Z.max 1 (e_pttl e))%Z as Hms by (unfold ms; case_decide; lia).
      destruct (tu_absTTL tun); injection Ht as <- <-.
      - rewrite (proj2 (Z.eqb_neq (clock + ms) 0)) by lia. cbn [RedisFrame.has_flag negb].
        rewrite decide_False by lia. eexists. split; [done|]. cbn [e_pttl]. lia.
      - rewrite (proj2 (Z.eqb_neq ms 0)) by lia. eexists. split; [done|]. cbn [e_pttl]. lia. }
    split_and!.
    + split; [done|by rewrite Hdump|lia|rewrite Hfl; by destruct Hf as [->| ->]|by rewrite F1|].
      intros _. split_and!; try done; try lia. rewrite Hfl, (proj2 (alive_flags f Hf)). done.
    + right. split; [|by rewrite Hre]. unfold restorable. rewrite Hdump, (loads _ _ Hw).
      apply bool_decide_eq_true. lia.
    + intros _ e2. rewrite Hre. intros [= <-]. done.
  - destruct Hshape as (Ht & Hfl & Hdump). rewrite Hfl in F2.
    assert (deleted (RedisFrame.rec_ver r) = true) as Hdel by (rewrite <-F2; done). split_and!.
    + split; [done|by rewrite Hdump|rewrite Ht; lia|by rewrite Hfl|by rewrite F1|].
      intros _. split_and!; try done; try lia. by rewrite Hfl, Hdel.
    + by left.
    + by rewrite Hdel.
Qed.

(** *** The edges of a round *)

Abbreviation payload nd k := (e_dump <$> mb_data nd !! k).

(** A version that every drained edge of its holder has delivered. *)
Definition backed (P : list (bytes * bytes)) (m : mesh) (r : option version) (k : bytes) : Prop :=
  ∃ o ndo, ms_nodes m !! o = Some ndo ∧ reg_le r (reg ndo k) ∧
    ∀ j ndj, (o, j) ∈ P → ms_nodes m !! j = Some ndj → reg_le r (reg ndj k).

(** A round in progress: the edges [P] are drained, nobody else writes. *)
Record quiet (m0 : mesh) (P : list (bytes * bytes)) (m : mesh) : Prop := {
  q_inv : ∃ C, inv C m;
  q_ttl i nd : ms_nodes m !! i = Some nd → ttl_fits nd;
  q_room i nd k : ms_nodes m !! i = Some nd → sel_match sel k = true → log_room nd k;
  q_settled i j nd k : (i, j) ∈ P → ms_nodes m !! i = Some nd → sel_match sel k = true → settled nd k;
  q_backed i nd k : ms_nodes m !! i = Some nd → sel_match sel k = true → backed P m (reg nd k) k;
  q_from i nd k : ms_nodes m !! i = Some nd → ∃ o ndo, ms_nodes m0 !! o = Some ndo ∧ payload nd k = payload ndo k;
  q_dom i : is_Some (ms_nodes m !! i) ↔ is_Some (ms_nodes m0 !! i)
}.

Lemma dirty_keys_sel nd k : k ∈ dirty_keys nd → sel_match sel k = true.
Proof.
  unfold dirty_keys, metaDeletes. rewrite elem_of_app, !list_elem_of_filter. tauto.
Qed.

Lemma dirty_keys_all nd k :
  sel_match sel k = true → k ∉ dirty_keys nd → mb_data nd !! k = None ∧ reg nd k = None.
Proof.
  unfold dirty_keys, metaDeletes. rewrite not_elem_of_app, !list_elem_of_filter, elem_of_elements.
  intros Hs [H1 H2]. assert (mb_data nd !! k = None) as Hd by (apply not_elem_of_dom; tauto). split; [done|].
  destruct (reg nd k) as [v|] eqn:Hr; [|done]. exfalso. apply H2. split_and!; [done..|].
  apply list_elem_of_omap. exists (metaKey k). split; [|apply dataKey_metaKey].
  apply elem_of_elements, elem_of_dom. by eexists.
Qed.

Lemma reg_le_stamp r r' x : stampv <$> r = stampv <$> r' → reg_le r x → reg_le r' x.
Proof. destruct r as [v|], r' as [v'|]; simpl; try done. intros [= E1 E2 E3]. unfold stampv in *. destruct x; [|done]. by rewrite E1, E2, E3. Qed.

(** What a pass does to its two members. *)
Record edge_post (a b a' b' : member) : Prop := {
  ep_data : mb_data a' = mb_data a;
  ep_settled k : sel_match sel k = true → settled a' k;
  ep_same k : settled a k → reg a' k = reg a k;
  ep_le k : reg_le (reg a k) (reg a' k);
  ep_le' k : reg_le (reg b k) (reg b' k);
  ep_ahead k : sel_match sel k = true → reg_le (reg a' k) (reg b' k);
  ep_from k : mb_data b' !! k = mb_data b !! k ∧ reg b' k = reg b k ∨
    settled b' k ∧ stampv <$> reg b' k = stampv <$> reg a' k ∧ payload b' k = payload a k ∧
    (∀ e, mb_data b' !! k = Some e → (clock + Z.max 1 (e_pttl e) < 2 ^ 63)%Z)
}.

Lemma drain_edge_post C m i j now a b :
  inv C m → ms_nodes m !! i = Some a → ms_nodes m !! j = Some b → i ≠ j → (0 <= now < 2 ^ 53)%Z →
  ttl_fits a → (∀ k, sel_match sel k = true → log_room a k) →
  ∃ a' b' frames C', drain_edge i j now m = (None, mkMesh (<[j := b']> (<[i := a']> (ms_nodes m))) frames) ∧
    inv C' (mkMesh (<[j := b']> (<[i := a']> (ms_nodes m))) frames) ∧ edge_post a b a' b'.
Proof.
  intros Hi Ha Hb Hij Hnow Hfit Hroom. unfold drain_edge. rewrite Ha, Hb.
  destruct (reread_all (dirty_keys a) C m i a now Hi Ha Hnow) as (recs & a' & C' & -> & Hi' & [R1 R2 R3 R4 R5 R6 R7]).
  { intros k Hk. by apply Hroom, (dirty_keys_sel a). }
  set (m1 := mkMesh _ _) in Hi'.
  assert (Forall (frame_ok C') recs) as Hframes.
  { apply Forall_forall. intros r Hr. apply (iv_frames _ _ Hi'). simpl. apply elem_of_app. by left. }
  assert (∀ r, r ∈ recs → RedisFrame.record_ok r ∧ deliverable r ∧
    (deleted (RedisFrame.rec_ver r) = false → ∀ e, restore_entry clock r = Some e → (clock + Z.max 1 (e_pttl e) < 2 ^ 63)%Z)) as Hrec.
  { intros r Hr. rewrite Forall_forall in Hframes. apply (framed_ok C' a); [done| |by apply Hframes|by apply R7].
    intros k e. by apply (iv_data _ _ Hi i a). }
  unfold stageUpsertCluster. cbn [RedisFrame.rd_bytes].
  destruct (stage_loop_frames (S (length (recs ≫= RedisFrame.write))) recs C' m1 j b ∅)
    as (b' & staged & -> & Hi2 & [S1 S2 S3]); [done|by simpl; rewrite lookup_insert_ne|done|..|lia|].
  { apply Forall_forall. intros r Hr. by apply Hrec. }
  { apply Forall_forall. intros r Hr. by apply Hrec. }
  exists a', b', (recs ++ ms_frames m), C'. split; [done|]. split; [done|]. split; try done.
  - intros k Hk. destruct (decide (k ∈ dirty_keys a)) as [Hin|Hin]; [by apply R4|].
    destruct (dirty_keys_all a k Hk Hin) as [E1 E2]. unfold settled. by rewrite R1, E1, R3, E2.
  - intros k Hk. destruct (reg a' k) as [v|] eqn:Hv; [|done].
    destruct (decide (k ∈ dirty_keys a)) as [Hin|Hin].
    + destruct (R6 k v Hin Hv) as (r & Hr & <- & <-). by apply S2.
    + destruct (dirty_keys_all a k Hk Hin) as [E1 E2]. rewrite R3, E2 in Hv by done. done.
  - intros k. destruct (S3 k) as [?|(Hs & r & Hr & <- & E1 & E2)]; [by left|]. right.
    destruct (R7 r Hr) as [Hreg Hshape]. destruct (Hrec r Hr) as (_ & Hdel & Hfit').
    rewrite Forall_forall in Hframes. pose proof (fo_deleted _ _ (Hframes r Hr)) as Hflag.
    split_and!; [done|by rewrite E1, Hreg| |].
    + rewrite E2. destruct (mb_data a !! RedisFrame.rec_key r) as [e|].
      * destruct Hshape as (f & Ht & Hfl & Hd). pose proof (restoreTTL_flags _ _ _ _ _ Ht) as Hf.
        rewrite Hfl, (proj2 (alive_flags f Hf)) in Hflag. destruct Hdel as [Hdel|[Hre [e' He']]]; [congruence|]. rewrite <-Hflag.
        rewrite He'. simpl. destruct (restore_entry_pttl _ _ _ Hre He') as [-> _]. by rewrite Hd.
      * destruct Hshape as (_ & Hfl & _). rewrite Hfl in Hflag. by rewrite <-Hflag.
    + intros e. rewrite E2. destruct (deleted _); [done|]. by apply Hfit'.
Qed.

Lemma drain_edge_quiet m0 P m i j now :
  quiet m0 P m → i ≠ j → is_Some (ms_nodes m !! i) → is_Some (ms_nodes m !! j) → (0 <= now < 2 ^ 53)%Z →
  ∃ m', drain_edge i j now m = (None, m') ∧ quiet m0 ((i, j) :: P) m'.
Proof.
  intros [[C Hi] Q2 Q3 Q4 Q5 Q6 Q7] Hij [a Ha] [b Hb] Hnow.
  destruct (drain_edge_post C m i j now a b Hi Ha Hb Hij Hnow (Q2 i a Ha)) as
    (a' & b' & frames & C' & Hd & Hi' & [E1 E2 E3 E4 E5 E6 E7]); [intros k; by apply (Q3 i)|].
  set (m' := mkMesh _ _) in Hd, Hi'. exists m'. split; [done|].
  assert (∀ x nd, ms_nodes m' !! x = Some nd →
    x = j ∧ nd = b' ∨ x = i ∧ nd = a' ∨ x ≠ i ∧ x ≠ j ∧ ms_nodes m !! x = Some nd) as Hcases.
  { intros x nd. simpl. intros [[-> ->]|[? [[-> ->]|[? ?]]%lookup_insert_Some]]%lookup_insert_Some; auto. }
  assert (ms_nodes m' !! i = Some a' ∧ ms_nodes m' !! j = Some b') as [Hi1 Hj1].
  { simpl. rewrite lookup_insert_eq, lookup_insert_ne, lookup_insert_eq by done. done. }
  assert (∀ x nd, ms_nodes m !! x = Some nd → ∃ nd', ms_nodes m' !! x = Some nd' ∧ ∀ k, reg_le (reg nd k) (reg nd' k)) as Hmono.
  { intros x nd Hx. destruct (decide (x = j)) as [->|Hxj]; [assert (nd = b) as -> by congruence; by exists b'|].
    destruct (decide (x = i)) as [->|Hxi]; [assert (nd = a) as -> by congruence; by exists a'|].
    exists nd. simpl. rewrite !lookup_insert_ne by done. split; [done|]. intros k. reflexivity. }
  assert (∀ r k, sel_match sel k = true → backed P m r k → backed ((i, j) :: P) m' r k) as Hback.
  { intros r k Hk (o & ndo & Ho & Hle & Hall). destruct (Hmono o ndo Ho) as (ndo' & Ho' & Hm).
    exists o, ndo'. split; [done|]. assert (reg_le r (reg ndo' k)) as Hle' by by etrans.
    split; [done|]. intros x ndx [[= -> ->]|Hin]%elem_of_cons Hx.
    - rewrite Hi1 in Ho'. rewrite Hj1 in Hx. injection Ho' as <-. injection Hx as <-. etrans; [done|by apply E6].
    - destruct (Hcases x ndx Hx) as [[-> ->]|[[-> ->]|(_ & _ & Hx')]]; [..|by apply (Hall x ndx)].
      + etrans; [by apply (Hall j b)|done].
      + etrans; [by apply (Hall i a)|done]. }
  assert (∀ k, sel_match sel k = true → backed ((i, j) :: P) m' (reg a' k) k) as Hbacka.
  { intros k Hk. destruct (decide (Exists (λ x : bytes * bytes, x.1 = i) P)) as [Hex|Hex].
    - apply Exists_exists in Hex as ([i' x] & Hin & Hx). simpl in Hx. subst i'.
      rewrite (E3 k (Q4 i x a k Hin Ha Hk)). by apply Hback, (Q5 i).
    - exists i, a'. split; [done|]. split; [reflexivity|].
      intros x ndx [[= ->]|Hin]%elem_of_cons Hx; [|destruct Hex; apply Exists_exists; by eexists].
      rewrite Hj1 in Hx. injection Hx as <-. by apply E6. }
  split.
  - by exists C'.
  - intros x nd [[-> ->]|[[-> ->]|(_ & _ & Hx)]]%Hcases; [| |by apply (Q2 x)].
    + intros k e He. destruct (E7 k) as [[F1 _]|(_ & _ & _ & F1)]; [|by apply F1]. rewrite F1 in He. by apply (Q2 j b Hb k).
    + intros k e. rewrite E1. apply (Q2 i a Ha).
  - intros x nd k [[-> ->]|[[-> ->]|(_ & _ & Hx)]]%Hcases Hk; [|left; by apply E2|by apply (Q3 x)].
    destruct (E7 k) as [[F1 F2]|(? & _)]; [|by left].
    destruct (Q3 j b k Hb Hk) as [Hs|Hs]; [left; by apply (settled_reg b)|right; by rewrite F2].
  - intros x y nd k Hin Hx Hk. destruct (Hcases x nd Hx) as [[-> ->]|[[-> ->]|(Hxi & _ & Hx')]]; [|by apply E2|].
    + apply elem_of_cons in Hin as [[= ?]|Hin]; [done|]. destruct (E7 k) as [[F1 F2]|(? & _)]; [|done].
      apply (settled_reg b); [done..|by apply (Q4 j y)].
    + apply elem_of_cons in Hin as [[= ?]|Hin]; [done|by apply (Q4 x y)].
  - intros x nd k [[-> ->]|[[-> ->]|(_ & _ & Hx)]]%Hcases Hk; [|by apply Hbacka|by apply Hback, (Q5 x)].
    destruct (E7 k) as [[_ F2]|(_ & F2 & _)]; [rewrite F2; by apply Hback, (Q5 j)|].
    destruct (Hbacka k Hk) as (o & ndo & Ho & Hle & Hall). exists o, ndo. split; [done|]. split.
    + by eapply reg_le_stamp.
    + intros x ndx Hin Hx. eapply reg_le_stamp; [by symmetry|by apply (Hall x)].
  - intros x nd k [[-> ->]|[[-> ->]|(_ & _ & Hx)]]%Hcases; [| |by apply (Q6 x)].
    + destruct (E7 k) as [[F1 _]|(_ & _ & F1 & _)]; [rewrite F1; by apply (Q6 j)|rewrite F1; by apply (Q6 i)].
    + rewrite E1. by apply (Q6 i).
  - intros x. rewrite <-Q7. simpl. destruct (decide (x = j)) as [->|Hxj]; [rewrite lookup_insert_eq, Hb; split; by eexists|].
    rewrite lookup_insert_ne by done.
    destruct (decide (x = i)) as [->|Hxi]; [rewrite lookup_insert_eq, Ha; split; by eexists|by rewrite lookup_insert_ne].
Qed.

(** Members whose registers tell their values and are equal have equal values. *)
Lemma settled_agree C m i j a b k :
  inv C m → ms_nodes m !! i = Some a → ms_nodes m !! j = Some b → settled a k → settled b k →
  reg_le (reg a k) (reg b k) → reg_le (reg b k) (reg a k) → payload b k = payload a k.
Proof.
  intros Hi Ha Hb Hsa Hsb Hab Hba. unfold settled in *.
  destruct (reg a k) as [v|] eqn:Hv, (reg b k) as [v'|] eqn:Hv'; [|done..|].
  2: { destruct (mb_data a !! k), (mb_data b !! k); done. }
  simpl in Hab, Hba. pose proof (Mesh.vle_antisym _ _ Hab Hba) as Heq.
  destruct (iv_reg _ _ Hi i a k v Ha Hv) as (c & [C1 C2 C3 _ _]), (iv_reg _ _ Hi j b k v' Hb Hv') as (c' & [D1 D2 D3 _ _]).
  rewrite <-Heq, C1 in D1. injection D1 as <-.
  destruct (mb_data a !! k) as [e|] eqn:He, (mb_data b !! k) as [e'|] eqn:He'.
  - destruct Hsa as [S1 S2], Hsb as [_ S4]. rewrite S1 in C2. destruct c as [d|]; [|done].
    destruct (C3 d eq_refl) as [Hw Hh], (D3 d eq_refl) as [_ Hh']. simpl. f_equal.
    transitivity d; [symmetry|]; apply (written_inj k); try done; try congruence.
    + by apply (iv_data _ _ Hi j b).
    + by apply (iv_data _ _ Hi i a).
  - destruct Hsa as [S1 _]. congruence.
  - destruct Hsb as [S1 _]. congruence.
  - done.
Qed.

(** Every ordered pair of distinct members is an edge. *)
Lemma clusterEdges_spec members i j :
  NoDup members → (i, j) ∈ clusterEdges members ↔ i ≠ j ∧ i ∈ members ∧ j ∈ members.
Proof.
  intros Hnd. unfold clusterEdges. rewrite list_elem_of_bind. split.
  - intros ([x src] & Hin & Hx). apply list_elem_of_lookup in Hx as [n Hx]. rewrite list_lookup_imap in Hx.
    apply fmap_Some in Hx as (src' & Hn & [= -> ->]).
    apply list_elem_of_omap in Hin as ([y dst] & Hy & Hd). apply list_elem_of_lookup in Hy as [n' Hy].
    rewrite list_lookup_imap in Hy. apply fmap_Some in Hy as (dst' & Hn' & [= -> ->]).
    case_decide as Hne; [done|]. injection Hd as -> ->. split_and!; [|by eapply list_elem_of_lookup_2..].
    intros ->. apply Hne. by eapply NoDup_lookup.
  - intros (Hne & [n Hn]%list_elem_of_lookup & [n' Hn']%list_elem_of_lookup). exists (n, i). split.
    + apply list_elem_of_omap. exists (n', j). split.
      * apply list_elem_of_lookup. exists n'. by rewrite list_lookup_imap, Hn'.
      * rewrite decide_False; [done|]. intros ->. congruence.
    + apply list_elem_of_lookup. exists n. by rewrite list_lookup_imap, Hn.
Qed.

Lemma drain_edges_quiet m0 edges P m :
  quiet m0 P m →
  Forall (λ '(i, j, now), i ≠ j ∧ is_Some (ms_nodes m0 !! i) ∧ is_Some (ms_nodes m0 !! j) ∧ (0 <= now < 2 ^ 53)%Z) edges →
  ∃ m' P', drain_edges edges m = (None, m') ∧ quiet m0 P' m' ∧ ∀ i j now, (i, j, now) ∈ edges → (i, j) ∈ P'.
Proof.
  intros Hq He. assert (∃ m' P', drain_edges edges m = (None, m') ∧ quiet m0 P' m' ∧
    (∀ x, x ∈ P → x ∈ P') ∧ ∀ i j now, (i, j, now) ∈ edges → (i, j) ∈ P') as (m' & P' & ? & ? & _ & ?); [|by exists m', P'].
  revert P m Hq. induction He as [|[[i j] now] edges (H1 & H2 & H3 & H4) _ IH]; intros P m Hq.
  { exists m, P. split_and!; try done. by intros ? ? ? ?%not_elem_of_nil. }
  cbn [drain_edges]. destruct (drain_edge_quiet m0 P m i j now Hq H1) as (m1 & -> & Hq1);
    [by apply (q_dom _ _ _ Hq)..|done|].
  destruct (IH _ _ Hq1) as (m' & P' & Hd & Hq' & Hsub & Hall). exists m', P'. split_and!; [done..| |].
  - intros x Hx. apply Hsub. by right.
  - intros x y t [[= -> -> ->]|Hin]%elem_of_cons; [apply Hsub; by left|by apply (Hall x y t)].
Qed.

(** All members have one value of [k], one that a member of [m] had. *)
Definition agree_on (m m' : mesh) (k : bytes) : Prop :=
  ∀ i nd, ms_nodes m' !! i = Some nd →
    (∀ j nd', ms_nodes m' !! j = Some nd' → payload nd' k = payload nd k) ∧
    ∃ o ndo, ms_nodes m !! o = Some ndo ∧ payload nd k = payload ndo k.

Lemma round_agrees C (m : mesh) (members : list bytes) (edges : list (bytes * bytes * Z)) :
  inv C m → NoDup members → (∀ i, i ∈ members ↔ is_Some (ms_nodes m !! i)) →
  (∀ i nd, ms_nodes m !! i = Some nd → ttl_fits nd ∧ ∀ k, sel_match sel k = true → log_room nd k) →
  edges.*1 ≡ₚ clusterEdges members → Forall (λ now, 0 <= now < 2 ^ 53)%Z edges.*2 →
  ∃ m', drain_edges edges m = (None, m') ∧ ∀ k, sel_match sel k = true → agree_on m m' k.
Proof.
  intros Hi Hnd Hmem Hm Hedges Hnow.
  assert (∀ i j, (i, j) ∈ edges.*1 ↔ i ≠ j ∧ is_Some (ms_nodes m !! i) ∧ is_Some (ms_nodes m !! j)) as Hin.
  { intros i j. rewrite Hedges, clusterEdges_spec by done. by rewrite !Hmem. }
  assert (Forall (λ '(i, j, now), i ≠ j ∧ is_Some (ms_nodes m !! i) ∧ is_Some (ms_nodes m !! j) ∧ (0 <= now < 2 ^ 53)%Z) edges) as He.
  { apply Forall_forall. intros [[i j] now] Hx. rewrite Forall_forall in Hnow.
    destruct (proj1 (Hin i j)) as (? & ? & ?); [apply list_elem_of_fmap; by eexists (i, j, now)|].
    split_and!; try done; apply (Hnow now); apply list_elem_of_fmap; by eexists (i, j, now). }
  assert (∀ i j, i ≠ j → is_Some (ms_nodes m !! i) → is_Some (ms_nodes m !! j) → ∃ now, (i, j, now) ∈ edges) as Hall.
  { intros i j H1 H2 H3. destruct (proj1 (list_elem_of_fmap _ _ _) (proj2 (Hin i j) (conj H1 (conj H2 H3)))) as ([p now] & Hp & Hx).
    simpl in Hp. subst p. by exists now. }
  destruct (drain_edges_quiet m edges [] m) as (m' & P & Hd & [[C' Hi'] _ _ Q4 Q5 Q6 Q7] & HP); [|done|].
  { split; [by exists C|intros i nd Hn; by apply (Hm i nd)|intros i nd k Hn; by apply (Hm i nd)|by intros ? ? ? ? ?%not_elem_of_nil| |by eauto|done].
    intros i nd k Hn Hk. exists i, nd. split; [done|]. split; [reflexivity|]. by intros ? ? ?%not_elem_of_nil. }
  exists m'. split; [done|]. intros k Hk i nd Hn. split; [|by apply (Q6 i)]. intros j nd' Hn'.
  destruct (decide (i = j)) as [->|Hij]; [congruence|].
  assert (∀ x y, x ≠ y → is_Some (ms_nodes m' !! x) → is_Some (ms_nodes m' !! y) → (x, y) ∈ P) as Hpairs.
  { intros x y Hxy Hx%Q7 Hy%Q7. destruct (Hall x y Hxy Hx Hy) as [t Ht]. by apply (HP x y t). }
  assert (∀ x y a b, ms_nodes m' !! x = Some a → ms_nodes m' !! y = Some b → reg_le (reg a k) (reg b k)) as Hle.
  { intros x y a b Ha Hb. destruct (Q5 x a k Ha Hk) as (o & ndo & Ho & Hle & Hbk).
    destruct (decide (o = y)) as [->|Hoy]; [congruence|]. apply (Hbk y); [|done]. apply Hpairs; [done|by eexists..]. }
  pose proof (Q4 i j nd k (Hpairs i j Hij ltac:(by eexists) ltac:(by eexists)) Hn Hk) as Hs.
  pose proof (Q4 j i nd' k (Hpairs j i ltac:(done) ltac:(by eexists) ltac:(by eexists)) Hn' Hk) as Hs'.
  apply (settled_agree C' m' i j nd nd' k); [done..|by apply (Hle i j)|by apply (Hle j i)].
Qed.
End mesh.

(** C21: In every state of a Redis mesh that undisturbed events reach, the registers and the
    records on their way are well-formed ([typed_registers]). Undisturbed: no re-read is
    overtaken by another event at its key, no counter and no clock is exhausted, no tombstone
    is collected. The values written to a key have different fingerprints. *)
Theorem registers_typed (tun : copyTuning) (memory : bytes → option Z) (vhash : bytes → bytes → option Z)
    (accepts : bytes → bool) (written : bytes → bytes → Prop) (m : mesh) :
  fingerprints vhash written → reachable tun memory vhash accepts written m → typed_registers vhash written m.
Proof. intros [F1 F2 F3] Hr. destruct (reachable_inv _ _ _ _ _ F1 F2 F3 m Hr) as [C HC]. by eapply inv_typed. Qed.

(** A round of all edges of a cluster, one pass each, with nobody writing meanwhile: no value is
    refused for its size, the servers accept what was written, their clocks stand at [clock],
    times to live fit, every selected key is settled or has room in its counter, and the
    daemon's clocks are in range. *)
Record quiet_round (tun : copyTuning) (memory : bytes → option Z) (vhash : bytes → bytes → option Z) (accepts : bytes → bool)
    (written : bytes → bytes → Prop) (clock : Z) (sel : selection) (m : mesh) (members : list bytes)
    (edges : list (bytes * bytes * Z)) : Prop := {
  qr_unrefused k : refused tun memory k = false;
  qr_loads k d : written k d → accepts d = true;
  qr_clock : (0 <= clock)%Z;
  qr_distinct : NoDup members;
  qr_members i : i ∈ members ↔ is_Some (ms_nodes m !! i);
  qr_fits i nd : ms_nodes m !! i = Some nd → ttl_fits clock nd;
  qr_room i nd k : ms_nodes m !! i = Some nd → sel_match sel k = true → log_room vhash nd k;
  qr_edges : edges.*1 ≡ₚ clusterEdges members;
  qr_now : Forall (λ now, 0 <= now < 2 ^ 53)%Z edges.*2
}.

(** C20: Convergence of the Redis mesh. From any state its members reach by undisturbed events
    (writes and deletes of the application, re-reads that no other event at their key
    overtakes, records applied late, repeatedly and out of order under any clocks in range; no
    tombstone collected), with values whose fingerprints tell them apart: once every edge of
    the cluster has been drained in a quiet round ([quiet_round]), in any order, all members
    have the same value for every selected key, one that a member had before. *)
Theorem mesh_round_converges (tun : copyTuning) (memory : bytes → option Z) (vhash : bytes → bytes → option Z)
    (accepts : bytes → bool) (written : bytes → bytes → Prop) (clock : Z) (sel : selection) (m : mesh)
    (members : list bytes) (edges : list (bytes * bytes * Z)) :
  fingerprints vhash written → reachable tun memory vhash accepts written m →
  quiet_round tun memory vhash accepts written clock sel m members edges →
  ∃ m', drain_edges tun memory vhash accepts clock sel edges m = (None, m') ∧
    ∀ k, sel_match sel k = true → agree_on m m' k.
Proof.
  intros [F1 F2 F3] Hr [Q1 Q2 Q3 Q4 Q5 Q6 Q7 Q8 Q9]. destruct (reachable_inv _ _ _ _ _ F1 F2 F3 m Hr) as [C HC].
  apply (round_agrees tun memory vhash accepts written F1 F2 F3 Q1 clock Q3 Q2 sel C m members edges HC); [done..| |done|done].
  intros i nd Hn. split; [by apply (Q6 i)|]. intros k. by apply (Q7 i).
Qed.

(** ** Re-reads that overlap *)

Definition any_event tun memory vhash accepts written (c c' : cluster) : Prop :=
  ∃ kd, event tun memory vhash accepts written kd c c'.

(** A record of a live value without a time to live. *)
Definition plain (k d : bytes) (v : version) : record := RedisFrame.mkRecord k 0 RedisFrame.flagMesh d v.

Lemma dumpOne_plain tun memory srcNow nd k d :
  refused tun memory k = false → mb_data nd !! k = Some (mkEntry d (-1)) → dumpOne tun memory srcNow nd k = inr (Some (d, 0, 0)%Z).
Proof. intros Hr Hk. unfold dumpOne, src_dump, src_pttl. rewrite Hk. simpl. by rewrite Hr, andb_false_r. Qed.

Lemma reread_stamps i now k stored d h :
  (∀ st, stored = Some st → deleted st = true ∨ fingerprint st ≠ h) →
  let '(p, l) := hlcTick now (phys (default RedisFrame.zeroVersion stored)) (log (default RedisFrame.zeroVersion stored)) in
  let v := RedisFrame.mkVersion p l i false h in
  reread_plan i now k stored (Some (d, 0, 0)%Z) (Some h) = (Some v, Some (plain k d v)).
Proof.
  intros Hs. unfold reread_plan. destruct (hlcTick _ _ _) as [p l].
  assert (bool_decide (stored = None) || deleted (default RedisFrame.zeroVersion stored)
    || negb (fingerprint (default RedisFrame.zeroVersion stored) =? h)%Z = true) as ->; [|done].
  destruct stored as [st|]; [|done]. destruct (Hs st eq_refl) as [Hd|Hf]; simpl; [by rewrite Hd|].
  apply Z.eqb_neq in Hf. by rewrite Hf, orb_true_r.
Qed.

(** Applying it where it wins, and where its version is already. *)
Lemma apply_plain accepts tgtNow k d v b :
  accepts d = true → deleted v = false → script_wins (reg b k) v = true →
  let b' := (meshApplyScript accepts tgtNow (plain k d v) b).2 in
  e_dump <$> mb_data b' !! k = Some d ∧ stampv <$> reg b' k = Some (stampv v).
Proof.
  intros Ha Hd Hw. unfold meshApplyScript. cbn [plain RedisFrame.rec_key RedisFrame.rec_ver RedisFrame.rec_flags]. rewrite Hw. cbn [negb].
  assert (restorable accepts (plain k d v) = true) as Hr by (unfold restorable; simpl; by rewrite Ha).
  rewrite Hr. change (RedisFrame.has_flag RedisFrame.flagMesh RedisFrame.flagDeleted) with false. cbn [snd mb_data].
  rewrite lookup_partial_alter_eq. split; [done|]. rewrite reg_meta, decide_True by done. done.
Qed.

Lemma apply_known accepts tgtNow k d v b :
  stampv <$> reg b k = Some (stampv v) → meshApplyScript accepts tgtNow (plain k d v) b = (inr tt, b).
Proof.
  intros Hb. unfold meshApplyScript. cbn [plain RedisFrame.rec_key RedisFrame.rec_ver]. destruct (reg b k) as [st|]; [|done].
  injection Hb as Hb1 Hb2 Hb3%untxt_inj. rewrite script_wins_irrefl; [done|]. unfold stampv. by rewrite Hb1, Hb2, Hb3.
Qed.

(** C40: Re-reads of a key that overlap divide a mesh. Take any reachable or unreachable state,
    a member and a key of it whose value the register does not tell, and any value to write
    that it does not tell either, both without a time to live. Two edges of the member read the key, one
    before and one after the application writes the other value, and stamp at the same reading
    of the clock: they frame the two values with one version. Whichever of the two records a peer
    whose register they beat applies first, it keeps: the other one does not replace it. *)
Theorem concurrent_rereads_diverge (tun : copyTuning) (memory : bytes → option Z) (vhash : bytes → bytes → option Z)
    (accepts : bytes → bool) (written : bytes → bytes → Prop) (c : cluster) (i j1 j2 : bytes) (nd : member)
    (k d1 d2 : bytes) (h1 h2 now srcNow : Z) :
  ms_nodes (cl_mesh c) !! i = Some nd → j1 ≠ j2 → refused tun memory k = false →
  mb_data nd !! k = Some (mkEntry d1 (-1)) → written k d2 →
  vhash k d1 = Some h1 → vhash k d2 = Some h2 →
  (∀ st, reg nd k = Some st → deleted st = true ∨ fingerprint st ≠ h1 ∧ fingerprint st ≠ h2) →
  accepts d1 = true → accepts d2 = true →
  ∃ c' r1 r2, rtc (any_event tun memory vhash accepts written) c c' ∧
    r1 ∈ ms_frames (cl_mesh c') ∧ r2 ∈ ms_frames (cl_mesh c') ∧
    RedisFrame.rec_key r1 = k ∧ RedisFrame.rec_dump r1 = d1 ∧ RedisFrame.rec_key r2 = k ∧ RedisFrame.rec_dump r2 = d2 ∧
    stampv (RedisFrame.rec_ver r1) = stampv (RedisFrame.rec_ver r2) ∧
    ∀ tgtNow b, script_wins (reg b k) (RedisFrame.rec_ver r1) = true →
      let b1 := (meshApplyScript accepts tgtNow r1 b).2 in
      let b2 := (meshApplyScript accepts tgtNow r2 b).2 in
      e_dump <$> mb_data b1 !! k = Some d1 ∧ e_dump <$> mb_data b2 !! k = Some d2 ∧
      meshApplyScript accepts tgtNow r2 b1 = (inr tt, b1) ∧ meshApplyScript accepts tgtNow r1 b2 = (inr tt, b2).
Proof.
  intros Hn Hj Href Hk Hw Hh1 Hh2 Hst Ha1 Ha2.
  set (nd2 := mkMember (<[k := mkEntry d2 (-1)]> (mb_data nd)) (mb_meta nd)).
  assert (mb_data nd2 !! k = Some (mkEntry d2 (-1))) as Hk2 by (simpl; apply lookup_insert_eq).
  pose proof (reread_stamps i now k (reg nd k) d1 h1 ltac:(naive_solver)) as Hp1.
  pose proof (reread_stamps i now k (reg nd k) d2 h2 ltac:(naive_solver)) as Hp2.
  destruct (hlcTick _ _ _) as [p l]. cbv zeta in Hp1, Hp2.
  set (v1 := RedisFrame.mkVersion p l i false h1) in *. set (v2 := RedisFrame.mkVersion p l i false h2) in *.
  assert (logicalVHash vhash nd k = Some h1) as Hv1 by (unfold logicalVHash; by rewrite Hk).
  assert (logicalVHash vhash nd2 k = Some h2) as Hv2 by (unfold logicalVHash; by rewrite Hk2).
  set (rd1 := mkReading k (reg nd k) (Some (srcNow, Some (d1, 0, 0)%Z)) (Some (Some h1))).
  set (rd2 := mkReading k (reg nd k) (Some (srcNow, Some (d2, 0, 0)%Z)) (Some (Some h2))).
  set (c1 := open_reading (i, j1) rd1 c). set (c2 := on_mesh (set_member i nd2 (cl_mesh c1)) c1).
  set (c3 := open_reading (i, j2) rd2 c2).
  set (c4 := mkCluster (mkMesh (<[i := stampMeta (metaKey k) v1 nd2]> (ms_nodes (cl_mesh c3))) ([plain k d1 v1] ++ ms_frames (cl_mesh c3)))
    (delete (i, j1) (cl_open c3))).
  set (nd4 := stampMeta (metaKey k) v2 (stampMeta (metaKey k) v1 nd2)).
  set (c5 := mkCluster (mkMesh (<[i := nd4]> (ms_nodes (cl_mesh c4))) ([plain k d2 v2] ++ ms_frames (cl_mesh c4))) (delete (i, j2) (cl_open c4))).
  exists c5, (plain k d1 v1), (plain k d2 v2).
  split_and!; try done; [|right; by left|by left|].
  - assert (∀ x y, rtc (event tun memory vhash accepts written Undisturbed) x y → rtc (any_event tun memory vhash accepts written) x y) as Hany.
    { intros x y. apply rtc_subrel. intros u v Huv. by exists Undisturbed. }
    transitivity c1. { apply Hany. unfold c1, rd1. rewrite <-Hv1. by apply reading_events, dumpOne_plain. }
    transitivity c2. { apply rtc_once. exists Undisturbed. by apply (e_write _ _ _ _ _ c1 i nd). }
    transitivity c3.
    { apply Hany. unfold c3, rd2. rewrite <-Hv2. apply (reading_events _ _ _ _ _ c2 i j2 nd2); [apply lookup_insert_eq|by apply dumpOne_plain]. }
    transitivity c4; apply rtc_once; eexists.
    + refine (e_stamp _ _ _ _ _ c3 i j1 nd2 rd1 srcNow (Some (d1, 0, 0)%Z) now (Some (plain k d1 v1)) _ _ _ _ _ _);
        [apply lookup_insert_eq|simpl; rewrite lookup_insert_ne by congruence; apply lookup_insert_eq|done|right; by eexists|].
      transitivity (finish_reread k (Some v1, Some (plain k d1 v1)) nd2); [by rewrite <-Hp1|done].
    + refine (e_stamp _ _ _ _ _ c4 i j2 (stampMeta (metaKey k) v1 nd2) rd2 srcNow (Some (d2, 0, 0)%Z) now (Some (plain k d2 v2)) _ _ _ _ _ _);
        [apply lookup_insert_eq|simpl; rewrite lookup_delete_ne by congruence; apply lookup_insert_eq|done|right; by eexists|].
      transitivity (finish_reread k (Some v2, Some (plain k d2 v2)) (stampMeta (metaKey k) v1 nd2)); [by rewrite <-Hp2|done].
  - intros tgtNow b Hwin. cbv zeta. cbn [plain RedisFrame.rec_ver] in Hwin.
    assert (script_wins (reg b k) v2 = true) as Hwin2 by (rewrite <-Hwin; by destruct (reg b k)).
    destruct (apply_plain accepts tgtNow k d1 v1 b Ha1 eq_refl Hwin) as [D1 S1].
    destruct (apply_plain accepts tgtNow k d2 v2 b Ha2 eq_refl Hwin2) as [D2 S2].
    split_and!; [done|done|apply apply_known; by rewrite S1|apply apply_known; by rewrite S2].
Qed.

(** ** Examples *)

Section example.
Definition ex_hash (k d : bytes) : option Z := Some (Z.of_nat (length d)).
Definition ex_written (k d : bytes) : Prop := length k < 9 ∧ (d = Text.txt "x" ∨ d = Text.txt "yy").
Definition ex_tun : copyTuning := mkTuning 10 [] 0 0 false.
Definition ex_all : selection := mkSel [] [].
Definition ex_key : bytes := Text.txt "0".
Definition ex_a : bytes := Text.txt "a".
Definition ex_b : bytes := Text.txt "b".
Definition ex_c : bytes := Text.txt "c".

Lemma ex_fingerprints : fingerprints ex_hash ex_written.
Proof.
  split.
  - intros k d [H [->| ->]]; simpl; lia.
  - intros k d [_ [->| ->]]; (eexists; split; [done|simpl; lia]).
  - by intros k d d' [_ [->| ->]] [_ [->| ->]].
Qed.

(** Two members with different values of one key, and a third without it. *)
Definition ex_member (d : string) : member := mkMember {[ ex_key := mkEntry (Text.txt d) (-1) ]} ∅.
Definition ex_mesh : mesh :=
  mkMesh {[ ex_a := ex_member "x"; ex_b := ex_member "yy"; ex_c := mkMember ∅ ∅ ]} [].

Lemma ex_members i nd :
  ms_nodes ex_mesh !! i = Some nd → nd = ex_member "x" ∨ nd = ex_member "yy" ∨ nd = mkMember ∅ ∅.
Proof.
  simpl. intros [[_ <-]|[_ [[_ <-]|[_ [_ <-]%lookup_singleton_Some]]%lookup_insert_Some]]%lookup_insert_Some; auto.
Qed.

Lemma ex_data i nd k e : ms_nodes ex_mesh !! i = Some nd → mb_data nd !! k = Some e →
  ex_written k (e_dump e) ∧ e_pttl e = (-1)%Z.
Proof.
  intros [->|[->| ->]]%ex_members; simpl; [intros [<- <-]%lookup_singleton_Some..|by rewrite lookup_empty];
    (split; [split; [simpl; lia|auto]|done]).
Qed.

Lemma ex_start : start ex_written ex_mesh.
Proof.
  split; [done| | |].
  - by intros i nd [->|[->| ->]]%ex_members.
  - intros i nd k e Hn He. destruct (ex_data i nd k e Hn He) as [? ->]. done.
  - intros i [nd Hn]. simpl in Hn.
    repeat (apply lookup_insert_Some in Hn as [[<- _]|[_ Hn]]; [simpl; lia|]).
    apply lookup_singleton_Some in Hn as [<- _]. simpl. lia.
Qed.

Definition ex_edges : list (bytes * bytes * Z) := (λ e, (e, 1000%Z)) <$> clusterEdges [ex_a; ex_b; ex_c].

Lemma mesh_round_converges_witness :
  ∃ m', drain_edges ex_tun (λ _, None) ex_hash (λ _, true) 500 ex_all ex_edges ex_mesh = (None, m') ∧
    ∀ k, sel_match ex_all k = true → agree_on ex_mesh m' k.
Proof.
  apply (mesh_round_converges ex_tun (λ _, None) ex_hash (λ _, true) ex_written 500 ex_all ex_mesh [ex_a; ex_b; ex_c] ex_edges).
  - exact ex_fingerprints.
  - exists ex_mesh, ∅. split; [apply ex_start|apply rtc_refl].
  - split.
    + reflexivity.
    + reflexivity.
    + lia.
    + apply (bool_decide_unpack _). by vm_compute.
    + intros i. simpl. rewrite !elem_of_cons. split.
      * intros [->|[->|[->|Hn]]]; [by eexists..|]. by apply not_elem_of_nil in Hn.
      * intros [nd Hn]. repeat (apply lookup_insert_Some in Hn as [[<- _]|[_ Hn]]; [tauto|]).
        apply lookup_singleton_Some in Hn as [<- _]. tauto.
    + intros i nd Hn k e He. destruct (ex_data i nd k e Hn He) as [_ ->]. simpl. lia.
    + intros i nd k Hn _. right. intros v. unfold reg, readMeta.
      destruct (ex_members i nd Hn) as [->|[->| ->]]; by simpl; rewrite lookup_empty.
    + unfold ex_edges. rewrite <-list_fmap_compose. by rewrite list_fmap_id.
    + apply Forall_forall. intros t. unfold ex_edges. rewrite <-list_fmap_compose.
      intros (e & -> & _)%list_elem_of_fmap. simpl. lia.
Defined.

(** One re-read of [ex_key] on [ex_a], command by command. *)
Definition ex_payload : bytes * Z * Z := (Text.txt "x", 0, 0)%Z.
Definition ex_reading : reading := mkReading ex_key None (Some (500%Z, Some ex_payload)) (Some (Some 1%Z)).
Definition ex_reread : option record * member :=
  finish_reread ex_key (reread_plan ex_a 1000 ex_key None (Some ex_payload) (Some 1%Z)) (ex_member "x").
Definition ex_stamped : mesh := mkMesh (<[ex_a := ex_reread.2]> (ms_nodes ex_mesh)) (option_list ex_reread.1 ++ []).

Lemma ex_stamped_reachable : reachable ex_tun (λ _, None) ex_hash (λ _, true) ex_written ex_stamped.
Proof.
  set (c1 := open_reading (ex_a, ex_b) ex_reading (mkCluster ex_mesh ∅)).
  exists ex_mesh, (delete (ex_a, ex_b) (cl_open c1)). split; [exact ex_start|]. transitivity c1.
  { exact (reading_events ex_tun (λ _, None) ex_hash (λ _, true) ex_written (mkCluster ex_mesh ∅) ex_a ex_b (ex_member "x")
      ex_key 500 ex_payload eq_refl eq_refl). }
  assert (stamp_kind ex_tun (λ _, None) ex_hash 1000 500 ex_reading (Some ex_payload) (ex_member "x") = Undisturbed) as Hk
    by (vm_compute; reflexivity).
  apply rtc_once. rewrite <-Hk at 1.
  refine (e_stamp ex_tun (λ _, None) ex_hash (λ _, true) ex_written c1 ex_a ex_b (ex_member "x") ex_reading 500%Z
    (Some ex_payload) 1000%Z ex_reread.1 ex_reread.2 _ _ _ _ _);
    [reflexivity|apply lookup_insert_eq|reflexivity|right; by eexists|reflexivity].
Qed.

Lemma registers_typed_witness :
  typed_registers ex_hash ex_written ex_stamped ∧ ∃ v, reg ex_reread.2 ex_key = Some v ∧ version_ok v ∧ deleted v = false.
Proof.
  assert (typed_registers ex_hash ex_written ex_stamped) as H.
  { apply (registers_typed ex_tun (λ _, None) ex_hash (λ _, true) ex_written ex_stamped ex_fingerprints ex_stamped_reachable). }
  split; [exact H|]. destruct (reg ex_reread.2 ex_key) as [v|] eqn:Hv; [|exfalso; vm_compute in Hv; discriminate Hv].
  exists v. split; [reflexivity|].
  destruct (tr_reg _ _ _ H ex_a ex_reread.2 ex_key v) as [Hok _]; [reflexivity|exact Hv|]. split; [exact Hok|].
  vm_compute in Hv. injection Hv as <-. reflexivity.
Defined.
(** [ex_a] has "x", the application writes "yy" between the reads of the edges to [ex_b] and [ex_c]. *)
Lemma concurrent_rereads_diverge_witness :
  ∃ c' r1 r2, rtc (any_event ex_tun (λ _, None) ex_hash (λ _, true) ex_written) (mkCluster ex_mesh ∅) c' ∧
    r1 ∈ ms_frames (cl_mesh c') ∧ r2 ∈ ms_frames (cl_mesh c') ∧
    RedisFrame.rec_dump r1 = Text.txt "x" ∧ RedisFrame.rec_dump r2 = Text.txt "yy" ∧
    stampv (RedisFrame.rec_ver r1) = stampv (RedisFrame.rec_ver r2).
Proof.
  destruct (concurrent_rereads_diverge ex_tun (λ _, None) ex_hash (λ _, true) ex_written (mkCluster ex_mesh ∅) ex_a ex_b ex_c
    (ex_member "x") ex_key (Text.txt "x") (Text.txt "yy") 1 2 1000 500) as (c' & r1 & r2 & H1 & H2 & H3 & _ & H4 & _ & H5 & H6 & _).
  - reflexivity.
  - discriminate.
  - reflexivity.
  - reflexivity.
  - split; [simpl; lia|right; reflexivity].
  - reflexivity.
  - reflexivity.
  - intros st. unfold reg, readMeta. simpl. rewrite lookup_empty. discriminate.
  - reflexivity.
  - reflexivity.
  - exists c', r1, r2. split; [exact H1|]. split; [exact H2|]. split; [exact H3|]. split; [exact H4|]. split; [exact H5|exact H6].
Defined.
End example.
End RedisMesh.
