(* ===== verification/LoadData.v ===== *)
(** * The MySQL bulk-load text format ([internal/engine/mysql/loaddata.go])

    Rows travel to the target as LOAD DATA text. [writeRow] is the serializer; [load_data]
    is the reader the load clause (FIELDS TERMINATED BY '\t' ESCAPED BY '\\' LINES
    TERMINATED BY '\n') asks the server for, as the MySQL manual documents it. A value is
    [None] for SQL NULL and the bytes of the column otherwise. *)

From S2P Require Import Prelude.

Module LoadData.

Abbreviation bytes := (list ascii).

Definition fieldSep : ascii := "009".
Definition rowTerm : ascii := "010".
Definition escByte : ascii := "\".
Definition nullField : bytes := [escByte; "N"%char].

(** One byte of [escapeInto]. *)
Definition escape_byte (b : ascii) : bytes :=
  if Ascii.eqb b "000" then [escByte; "0"%char]
  else if Ascii.eqb b "008" then [escByte; "b"%char]
  else if Ascii.eqb b "009" then [escByte; "t"%char]
  else if Ascii.eqb b "010" then [escByte; "n"%char]
  else if Ascii.eqb b "013" then [escByte; "r"%char]
  else if Ascii.eqb b "026" then [escByte; "Z"%char]
  else if Ascii.eqb b escByte then [escByte; escByte]
  else [b].

Definition escapeInto (v : bytes) : bytes := v ≫= escape_byte.

Definition write_field (v : option bytes) : bytes :=
  match v with None => nullField | Some v => escapeInto v end.

(** The fields of a row; the separator goes before every field but the first. *)
Fixpoint write_fields (first : bool) (row : list (option bytes)) : bytes :=
  match row with
  | [] => []
  | v :: row => (if first then [] else [fieldSep]) ++ write_field v ++ write_fields false row
  end.

Definition writeRow (row : list (option bytes)) : bytes := write_fields true row ++ [rowTerm].

(** ** The documented reader *)

(** The byte an escape sequence stands for; other characters stand for themselves. *)
Definition unescape (c : ascii) : ascii :=
  if Ascii.eqb c "0" then "000"
  else if Ascii.eqb c "b" then "008"
  else if Ascii.eqb c "t" then "009"
  else if Ascii.eqb c "n" then "010"
  else if Ascii.eqb c "r" then "013"
  else if Ascii.eqb c "Z" then "026"
  else c.

(** A field being read: [FNull] after an escaped N at its start. *)
Inductive field := FBytes (b : bytes) | FNull.

Definition field_value (f : field) : option bytes :=
  match f with FBytes b => Some b | FNull => None end.

Definition field_add (f : field) (b : ascii) : field :=
  match f with FBytes l => FBytes (l ++ [b]) | FNull => FBytes ["N"%char; b] end.

Definition field_escape (f : field) (c : ascii) : field :=
  match f with
  | FBytes [] => if Ascii.eqb c "N" then FNull else FBytes [unescape c]
  | f => field_add f (unescape c)
  end.

Fixpoint load_loop (l : bytes) (f : field) (row : list (option bytes)) : list (list (option bytes)) :=
  match l with
  | [] =>
      match f, row with
      | FBytes [], [] => []
      | f, row => [row ++ [field_value f]]
      end
  | a :: l1 =>
      if Ascii.eqb a rowTerm then (row ++ [field_value f]) :: load_loop l1 (FBytes []) []
      else if Ascii.eqb a fieldSep then load_loop l1 (FBytes []) (row ++ [field_value f])
      else
        match l1 with
        | c :: l2 =>
            if Ascii.eqb a escByte then load_loop l2 (field_escape f c) row
            else load_loop l1 (field_add f a) row
        | [] => load_loop l1 (field_add f a) row
        end
  end.

Definition load_data (l : bytes) : list (list (option bytes)) := load_loop l (FBytes []) [].

(** ** Round trip *)

(** An escaped byte is read back into the field, whatever follows. *)
Lemma load_escape_byte b l pre row :
  load_loop (escape_byte b ++ l) (FBytes pre) row = load_loop l (FBytes (pre ++ [b])) row.
Proof.
  assert (∀ c d, field_escape (FBytes pre) c = FBytes (pre ++ [d]) → escape_byte b = [escByte; c] →
    load_loop (escape_byte b ++ l) (FBytes pre) row = load_loop l (FBytes (pre ++ [d])) row) as Hesc.
  { intros c d Hf ->. transitivity (load_loop l (field_escape (FBytes pre) c) row); [done|]. by rewrite Hf. }
  assert (∀ c d, unescape c = d → c ≠ "N"%char → field_escape (FBytes pre) c = FBytes (pre ++ [d])) as Hun.
  { intros c d <- Hc. destruct pre as [|x pre]; simpl; [|done].
    destruct (Ascii.eqb_spec c "N"); [done|]. done. }
  unfold escape_byte in Hesc |- *.
  repeat match goal with
  | |- context [Ascii.eqb b ?c] =>
      destruct (Ascii.eqb_spec b c) as [->|?]; [eapply Hesc; [|reflexivity]; by apply Hun|]
  end.
  cbn [app load_loop]. rewrite (proj2 (Ascii.eqb_neq b rowTerm)) by done.
  rewrite (proj2 (Ascii.eqb_neq b fieldSep)) by done. rewrite (proj2 (Ascii.eqb_neq b escByte)) by done.
  by destruct l.
Qed.

Lemma load_escapeInto v l pre row :
  load_loop (escapeInto v ++ l) (FBytes pre) row = load_loop l (FBytes (pre ++ v)) row.
Proof.
  revert pre. induction v as [|b v IH]; intros pre; [by rewrite app_nil_r|].
  unfold escapeInto. rewrite bind_cons, <-app_assoc, load_escape_byte. fold (escapeInto v).
  rewrite IH. by rewrite <-app_assoc.
Qed.

Lemma load_write_field v l row :
  ∃ f, field_value f = v ∧ load_loop (write_field v ++ l) (FBytes []) row = load_loop l f row.
Proof.
  destruct v as [v|]; [exists (FBytes v)|by exists FNull]. split; [done|]. apply load_escapeInto.
Qed.

Lemma load_write_fields v vs l row :
  load_loop (write_field v ++ write_fields false vs ++ rowTerm :: l) (FBytes []) row =
  (row ++ v :: vs) :: load_loop l (FBytes []) [].
Proof.
  revert v row. induction vs as [|v' vs IH]; intros v row.
  - destruct (load_write_field v (rowTerm :: l) row) as (f & Hf & Hl). cbn [write_fields app].
    rewrite Hl. simpl. by rewrite Hf.
  - destruct (load_write_field v (write_fields false (v' :: vs) ++ rowTerm :: l) row) as (f & Hf & Hl).
    rewrite Hl. cbn [write_fields]. rewrite <-!app_assoc. simpl. rewrite Hf, IH. by rewrite <-app_assoc.
Qed.

(** C34: the bulk-load text round-trips: for rows with at least one column, reading back what
    [writeRow] wrote yields exactly the rows, every byte of every value and every NULL;
    in particular a two-byte value that looks like the NULL marker stays a value. *)
Theorem load_data_writeRow (rows : list (list (option bytes))) :
  Forall (λ row, row ≠ []) rows → load_data (rows ≫= writeRow) = rows.
Proof.
  unfold load_data. induction 1 as [|[|v vs] rows Hne _ IH]; [done|done|].
  rewrite bind_cons. unfold writeRow at 1. cbn [write_fields]. rewrite <-!app_assoc. cbn [app].
  rewrite load_write_fields, IH. done.
Qed.

Lemma load_data_writeRow_witness :
  load_data ([[Some nullField; None; Some []]; [Some ["000"%char; "009"%char]]] ≫= writeRow)
  = [[Some nullField; None; Some []]; [Some ["000"%char; "009"%char]]].
Proof. apply load_data_writeRow. repeat constructor; discriminate. Defined.
End LoadData.
