(* ===== verification/Migrate.v ===== *)
(** * Schema migrations ([internal/migrate/migrate.go], [internal/pgmigrate/pgmigrate.go],
      [internal/mysqlmigrate/mysqlmigrate.go])

    The runner brings a database to the newest schema version, one migration at a time.
    The database port is a type class with what the runner relies on; Postgres runs a
    migration in one transaction, MySQL commits every statement on its own. Every
    database call can fail, before or after it took effect: an error return at a call is
    also what a crash at that call leaves behind. What a statement does to the schema is a
    parameter. *)

From S2P Require Import Prelude Engine.

Module Migrate.

Record Migration := mkMigration {
  mig_Version : Z;
  mig_Name : string;
  mig_Statements : list string
}.

Record MigSet := mkSet {
  set_Name : string;
  set_VersionTable : string;
  set_Migrations : list Migration
}.

Definition version_le (a b : Migration) : Prop := (mig_Version a <= mig_Version b)%Z.
#[global] Instance version_le_dec : RelDecision version_le := λ a b, Z.le_dec _ _.
#[global] Instance version_le_total : Total version_le.
Proof. intros a b. unfold version_le. lia. Qed.
#[global] Instance version_le_trans : Transitive version_le.
Proof. intros a b c. unfold version_le. lia. Qed.

(** [Set.sorted] *)
Definition sorted (s : MigSet) : list Migration := merge_sort version_le (set_Migrations s).

(** The loop of [Validate] over the sorted migrations. *)
Fixpoint validate_loop (want : Z) (ms : list Migration) : option error :=
  match ms with
  | [] => None
  | m :: ms =>
      if negb (mig_Version m =? want)%Z then Some (Failure "migrate: versions must start at 1 with no gaps/dups")
      else if bool_decide (mig_Name m = "") then Some (Failure "migrate: version has no name")
      else if Nat.eqb (length (mig_Statements m)) 0 then Some (Failure "migrate: version has no statements")
      else validate_loop (want + 1) ms
  end.

Definition Validate (s : MigSet) : option error :=
  if bool_decide (set_VersionTable s = "") then Some (Failure "migrate: VersionTable is required")
  else validate_loop 1 (sorted s).

Definition Target (s : MigSet) : Z := foldl (λ t m, Z.max t (mig_Version m)) 0%Z (set_Migrations s).

Definition Pending (s : MigSet) (current : Z) : list Migration :=
  filter (λ m, (current < mig_Version m)%Z) (sorted s).

(** ** The database port *)

(** What happens to a call: it works, fails without effect, or fails after its effect. *)
Inductive fault := NoFault | FailBefore | FailAfter.

(** The faults of the calls to come; none when the list is used up. *)
Definition next_fault (fs : list fault) : fault * list fault :=
  match fs with [] => (NoFault, []) | f :: fs => (f, fs) end.

Class MigDB (D : Type) := {
  current_version : D → Z;
  in_tx : Migration → list fault → D → option error * D * list fault
}.

Definition db_error : error := Failure "database error".

(** A call of the port that does not change the schema ([Lock], [EnsureVersionTable],
    [CurrentVersion]). *)
Definition port_call {A} (fs : list fault) (ok : list fault → A) (ko : A) : A :=
  match next_fault fs with (NoFault, fs) => ok fs | _ => ko end.

Section runner.
Context `{MigDB D}.

Fixpoint apply_loop (ms : list Migration) (applied : list Z) (fs : list fault) (d : D)
    : list Z * option error * D :=
  match ms with
  | [] => (applied, None, d)
  | m :: ms =>
      let '(err, d, fs) := in_tx m fs d in
      match err with
      | Some e => (applied, Some (Errorf "migrate: applying version" e), d)
      | None => apply_loop ms (applied ++ [mig_Version m]) fs d
      end
  end.

(** [locker]: the database has the [Locker] capability. *)
Definition Apply (locker : bool) (s : MigSet) (fs : list fault) (d : D) : list Z * option error * D :=
  match Validate s with
  | Some e => ([], Some e, d)
  | None =>
      let rest (fs : list fault) :=
        port_call fs (λ fs,
          port_call fs (λ fs, apply_loop (Pending s (current_version d)) [] fs d)
            ([], Some (Errorf "migrate: read current version" db_error), d))
          ([], Some (Errorf "migrate: ensure version table" db_error), d) in
      if locker then port_call fs rest ([], Some (Errorf "migrate: acquire migration lock" db_error), d)
      else rest fs
  end.
End runner.

(** ** The two adapters *)

Section adapters.
Context {S : Type} (run_sql : string → S → option S).

(** The schema and the rows of the version table. *)
Record dbstate := mkDB { db_schema : S; db_versions : list (Z * string) }.

Definition max_version (d : dbstate) : Z := foldl (λ t r, Z.max t r.1) 0%Z (db_versions d).

(** The statements of a migration on a schema; the flag says whether all went through. *)
Fixpoint run_statements (durable : bool) (ss : list string) (fs : list fault) (x : S)
    : bool * S * list fault :=
  match ss with
  | [] => (true, x, fs)
  | q :: ss =>
      let '(f, fs) := next_fault fs in
      match f, run_sql q x with
      | NoFault, Some x' => run_statements durable ss fs x'
      | FailAfter, Some x' => (false, if durable then x' else x, fs)
      | _, _ => (false, x, fs)
      end
  end.

(** [pgmigrate]: one transaction; [INSERT] of a version that is there violates the key. *)
Definition pg_in_tx (m : Migration) (fs : list fault) (d : dbstate) : option error * dbstate * list fault :=
  let '(f, fs) := next_fault fs in
  if negb (match f with NoFault => true | _ => false end) then (Some (Errorf "pgmigrate: begin" db_error), d, fs)
  else
    let '(ok, x, fs) := run_statements false (mig_Statements m) fs (db_schema d) in
    if negb ok then (Some db_error, d, fs)
    else
      let '(f, fs) := next_fault fs in
      if negb (match f with NoFault => true | _ => false end)
         || bool_decide (mig_Version m ∈ (db_versions d).*1)
      then (Some (Errorf "pgmigrate: record version" db_error), d, fs)
      else
        let d' := mkDB x (db_versions d ++ [(mig_Version m, mig_Name m)]) in
        let '(f, fs) := next_fault fs in
        match f with
        | NoFault => (None, d', fs)
        | FailBefore => (Some (Errorf "pgmigrate: commit" db_error), d, fs)
        | FailAfter => (Some (Errorf "pgmigrate: commit" db_error), d', fs)
        end.

(** [INSERT ... ON DUPLICATE KEY UPDATE] *)
Definition upsert_version (m : Migration) (rows : list (Z * string)) : list (Z * string) :=
  if bool_decide (mig_Version m ∈ rows.*1)
  then (λ r, if decide (r.1 = mig_Version m) then (r.1, mig_Name m) else r) <$> rows
  else rows ++ [(mig_Version m, mig_Name m)].

(** [mysqlmigrate]: every statement is committed as it runs. *)
Definition my_in_tx (m : Migration) (fs : list fault) (d : dbstate) : option error * dbstate * list fault :=
  let '(ok, x, fs) := run_statements true (mig_Statements m) fs (db_schema d) in
  if negb ok then (Some (Errorf "mysqlmigrate: exec" db_error), mkDB x (db_versions d), fs)
  else
    let d' := mkDB x (upsert_version m (db_versions d)) in
    let '(f, fs) := next_fault fs in
    match f with
    | NoFault => (None, d', fs)
    | FailBefore => (Some (Errorf "mysqlmigrate: record version" db_error), mkDB x (db_versions d), fs)
    | FailAfter => (Some (Errorf "mysqlmigrate: record version" db_error), d', fs)
    end.

Definition pg_db : MigDB dbstate := {| current_version := max_version; in_tx := pg_in_tx |}.
Definition my_db : MigDB dbstate := {| current_version := max_version; in_tx := my_in_tx |}.
End adapters.

(** ** Well-formed sets *)

Definition versions_upto (n : nat) : list Z := Z.of_nat <$> seq 1 n.

Lemma validate_loop_versions want ms :
  validate_loop want ms = None → mig_Version <$> ms = (λ i, want + Z.of_nat i)%Z <$> seq 0 (length ms).
Proof.
  revert want. induction ms as [|m ms IH]; intros want; [done|]. cbn [validate_loop].
  destruct (Z.eqb_spec (mig_Version m) want) as [E|]; [|done]. cbn [negb].
  case_bool_decide; [done|]. destruct (Nat.eqb _ 0); [done|]. intros Hv%IH. rewrite fmap_cons, Hv, E.
  cbn [length seq]. rewrite fmap_cons. f_equal; [lia|].
  rewrite <-seq_shift, <-list_fmap_compose. apply list_fmap_ext. intros _ i _. simpl. lia.
Qed.

Lemma Validate_versions s : Validate s = None → mig_Version <$> sorted s = versions_upto (length (sorted s)).
Proof.
  unfold Validate. case_bool_decide; [done|]. intros Hv%validate_loop_versions. rewrite Hv. unfold versions_upto.
  rewrite <-seq_shift, <-list_fmap_compose. apply list_fmap_ext. intros _ i _. simpl. lia.
Qed.

Lemma lookup_version s v m :
  Validate s = None → sorted s !! v = Some m → mig_Version m = Z.of_nat (S v).
Proof.
  intros Hv%Validate_versions Hm. pose proof (lookup_lt_Some _ _ _ Hm) as Hlt.
  assert ((mig_Version <$> sorted s) !! v = Some (mig_Version m)) as H1 by by rewrite list_lookup_fmap, Hm.
  rewrite Hv in H1. unfold versions_upto in H1. rewrite list_lookup_fmap, lookup_seq_lt in H1 by done.
  by injection H1 as <-.
Qed.

Lemma Pending_drop s v : Validate s = None → Pending s (Z.of_nat v) = drop v (sorted s).
Proof.
  intros Hv. unfold Pending. rewrite <-(take_drop v (sorted s)) at 1. rewrite filter_app.
  assert (filter (λ m, (Z.of_nat v < mig_Version m)%Z) (take v (sorted s)) = []) as ->.
  { apply filter_none. intros m Hin Hm. apply list_elem_of_lookup in Hin as [i Hi].
    apply lookup_take_Some in Hi as [Hi Hlt]. rewrite (lookup_version s i m Hv Hi) in Hm. lia. }
  simpl. apply filter_all. intros m Hin. apply list_elem_of_lookup in Hin as [i Hi].
  rewrite lookup_drop in Hi. rewrite (lookup_version s _ m Hv Hi). lia.
Qed.

(** ** What the runner guarantees over any database that keeps the port's promises *)

Class MigLaws (D : Type) `{MigDB D} (ms : list Migration) (near : nat → D → Prop) := {
  near_current v d : near v d → current_version d = Z.of_nat v;
  near_tx v m d fs err d' fs' :
    ms !! v = Some m → near v d → in_tx m fs d = (err, d', fs') →
    match err with None => near (S v) d' | Some _ => near v d' ∨ near (S v) d' end
}.

Section resume.
Context `{HD : MigDB D} (s : MigSet) (near : nat → D → Prop) `{!MigLaws D (sorted s) near}.
Context (Hvalid : Validate s = None).

Lemma apply_loop_near n v applied fs d :
  near v d → v + n = length (sorted s) →
  let '(applied', err, d') := apply_loop (drop v (sorted s)) applied fs d in
  ∃ v', v <= v' <= length (sorted s) ∧ near v' d' ∧
    (err = None → v' = length (sorted s) ∧ applied' = applied ++ (mig_Version <$> drop v (sorted s))).
Proof.
  revert v applied fs d. induction n as [|n IH]; intros v applied fs d Hn Hl.
  - rewrite drop_ge by lia. simpl. exists v. split_and!; [lia..|done|]. intros _. by rewrite app_nil_r, <-Hl, Nat.add_0_r.
  - destruct (lookup_lt_is_Some_2 (sorted s) v) as [m Hm]; [lia|].
    rewrite (drop_S _ m v) by done. cbn [apply_loop].
    destruct (in_tx m fs d) as [[err d'] fs'] eqn:Etx.
    pose proof (near_tx v m d fs err d' fs' Hm Hn Etx) as Htx. destruct err as [e|].
    + destruct Htx as [Htx|Htx]; eexists; (split_and!; [..|exact Htx|done]); lia.
    + specialize (IH (S v) (applied ++ [mig_Version m]) fs' d' Htx). 
      destruct (apply_loop _ _ _ _) as [[applied' err] d''] eqn:El.
      destruct IH as (v' & Hle & Hn' & Hok); [lia|]. exists v'. split_and!; [lia|lia|done|].
      intros He. destruct (Hok He) as [-> ->]. split; [done|]. by rewrite <-app_assoc.
Qed.

Lemma Apply_near locker v fs d :
  near v d → v <= length (sorted s) →
  let '(applied, err, d') := Apply locker s fs d in
  ∃ v', v <= v' <= length (sorted s) ∧ near v' d' ∧
    (err = None → v' = length (sorted s) ∧ applied = mig_Version <$> drop v (sorted s)).
Proof.
  intros Hn Hv. unfold Apply. rewrite Hvalid, (near_current v d Hn), Pending_drop by done.
  assert (∀ e : error, ∃ v', v <= v' <= length (sorted s) ∧ near v' d ∧
    (Some e = None → v' = length (sorted s) ∧ [] = mig_Version <$> drop v (sorted s))) as Hfail by by exists v.
  assert (∀ fs, let '(applied, err, d') := port_call fs (λ fs,
      port_call fs (λ fs, apply_loop (drop v (sorted s)) [] fs d)
        ([], Some (Errorf "migrate: read current version" db_error), d))
      ([], Some (Errorf "migrate: ensure version table" db_error), d) in
    ∃ v', v <= v' <= length (sorted s) ∧ near v' d' ∧
      (err = None → v' = length (sorted s) ∧ applied = mig_Version <$> drop v (sorted s))) as Hrest.
  { intros fs0. unfold port_call. destruct (next_fault fs0) as [[] fs1]; [|apply Hfail..].
    destruct (next_fault fs1) as [[] fs2]; [|apply Hfail..].
    apply (apply_loop_near (length (sorted s) - v) v [] fs2 d Hn). lia. }
  destruct locker; [|apply Hrest]. unfold port_call at 1.
  destruct (next_fault fs) as [[] fs1]; [apply Hrest|apply Hfail..].
Qed.
End resume.

(** ** Postgres and MySQL keep the promises *)

Section laws.
Context {S : Type} (run_sql : string → S → option S) (x0 : S) (s : MigSet) (Hvalid : Validate s = None).

Fixpoint run_seq (ss : list string) (x : S) : option S :=
  match ss with [] => Some x | q :: ss => x' ← run_sql q x; run_seq ss x' end.

(** The schema an uninterrupted run of the first [v] migrations yields. *)
Definition schema_at (v : nat) : option S := run_seq (take v (sorted s) ≫= mig_Statements) x0.

Lemma run_seq_app ss ss' x : run_seq (ss ++ ss') x = run_seq ss x ≫= run_seq ss'.
Proof. revert x. induction ss as [|q ss IH]; intros x; simpl; [done|]. destruct (run_sql q x); simpl; [apply IH|done]. Qed.

Lemma schema_at_S v m :
  sorted s !! v = Some m → schema_at (Datatypes.S v) = schema_at v ≫= run_seq (mig_Statements m).
Proof.
  intros Hm. unfold schema_at. rewrite (take_S_r _ _ m Hm), bind_app, run_seq_app. simpl. by rewrite app_nil_r.
Qed.

(** What a run of the statements leaves, with every statement durable. *)
Lemma run_statements_prefix ss fs x ok y fs' :
  run_statements run_sql true ss fs x = (ok, y, fs') →
  ∃ k, run_seq (take k ss) x = Some y ∧ (ok = true → k = length ss).
Proof.
  revert fs x. induction ss as [|q ss IH]; intros fs x; simpl; [intros [= <- <- <-]; by exists 0|].
  destruct (next_fault fs) as [f fs1]. destruct f, (run_sql q x) as [x'|] eqn:Eq;
    try (intros [= <- <- <-]; exists 0; done).
  - intros H. destruct (IH _ _ H) as (k & Hk & Hok). exists (Datatypes.S k). simpl. rewrite Eq. simpl.
    split; [done|]. intros E. by rewrite Hok.
  - intros [= <- <- <-]. exists 1. simpl. by rewrite Eq.
Qed.

Lemma run_statements_all d ss fs x y fs' :
  run_statements run_sql d ss fs x = (true, y, fs') → run_seq ss x = Some y.
Proof.
  revert fs x. induction ss as [|q ss IH]; intros fs x; simpl; [by intros [= <- <-]|].
  destruct (next_fault fs) as [f fs1]. destruct f, (run_sql q x) as [x'|] eqn:Eq; try done. simpl. apply IH.
Qed.

Definition recorded (v : nat) (d : @dbstate S) : Prop := (db_versions d).*1 = versions_upto v.

Lemma versions_upto_S v : versions_upto (Datatypes.S v) = versions_upto v ++ [Z.of_nat (Datatypes.S v)].
Proof. unfold versions_upto. by rewrite seq_S, fmap_app. Qed.

Lemma elem_of_versions_upto v z : z ∈ versions_upto v ↔ (1 <= z <= Z.of_nat v)%Z.
Proof.
  unfold versions_upto. rewrite list_elem_of_fmap. split.
  - intros (i & -> & Hi%elem_of_seq). lia.
  - intros Hz. exists (Z.to_nat z). split; [lia|]. apply elem_of_seq. lia.
Qed.

Lemma foldl_max_versions (rows : list (Z * string)) v :
  rows.*1 = versions_upto v → foldl (λ t r, Z.max t r.1) 0%Z rows = Z.of_nat v.
Proof.
  intros Hr. assert (foldl (λ t r, Z.max t r.1) 0%Z rows = foldl Z.max 0%Z rows.*1) as ->.
  { clear. generalize 0%Z. induction rows as [|r rows IH]; intros z; simpl; [done|]. apply IH. }
  rewrite Hr. clear Hr. induction v as [|v IH]; [done|]. rewrite versions_upto_S, foldl_app, IH. simpl. lia.
Qed.

Definition pg_near (v : nat) (d : @dbstate S) : Prop := recorded v d ∧ schema_at v = Some (db_schema d).

#[export] Instance pg_laws : @MigLaws (@dbstate S) (pg_db run_sql) (sorted s) pg_near.
Proof.
  split.
  - intros v d [Hr _]. by apply foldl_max_versions.
  - intros v m d fs err d' fs' Hm [Hr Hs]. simpl. unfold pg_in_tx.
    pose proof (lookup_version s v m Hvalid Hm) as Hver.
    destruct (next_fault fs) as [f fs1]. destruct f; simpl; try (intros [= <- <- <-]; by left).
    destruct (run_statements run_sql false _ fs1 _) as [[ok x] fs2] eqn:Er.
    destruct ok; simpl; [|intros [= <- <- <-]; by left]. apply run_statements_all in Er.
    destruct (next_fault fs2) as [f fs3]. destruct f; simpl; try (intros [= <- <- <-]; by left).
    case_bool_decide as Hin; [intros [= <- <- <-]; by left|].
    assert (pg_near (Datatypes.S v) (mkDB x (db_versions d ++ [(mig_Version m, mig_Name m)]))) as Hn.
    { split.
      - unfold recorded. simpl. by rewrite fmap_app, Hr, versions_upto_S, <-Hver.
      - rewrite (schema_at_S v m Hm), Hs. done. }
    destruct (next_fault fs3) as [f fs4]. destruct f; intros [= <- <- <-]; auto. left. by split.
Qed.

(** Re-running a migration's statements after any of them have run changes nothing. *)
Definition rerunnable : Prop :=
  ∀ v m x i j y, sorted s !! v = Some m → schema_at v = Some x → i <= j →
    run_seq (take j (mig_Statements m)) x = Some y → run_seq (take i (mig_Statements m)) y = Some y.

Context (Hidem : rerunnable).

(** Version [v] is recorded; some statements of the next migration may have run. *)
Definition my_near (v : nat) (d : @dbstate S) : Prop :=
  recorded v d ∧ ∃ x i, schema_at v = Some x ∧
    run_seq (take i (default [] (mig_Statements <$> sorted s !! v))) x = Some (db_schema d).

Lemma my_near_full v d : recorded v d → schema_at v = Some (db_schema d) → my_near v d.
Proof. intros Hr Hs. split; [done|]. exists (db_schema d), 0. by rewrite take_0. Qed.

(** A second run picks up where the first one stopped. *)
Lemma rerun_prefix v m x i k y z :
  sorted s !! v = Some m → schema_at v = Some x →
  run_seq (take i (mig_Statements m)) x = Some y → run_seq (take k (mig_Statements m)) y = Some z →
  run_seq (take (Nat.max i k) (mig_Statements m)) x = Some z.
Proof.
  intros Hm Hx Hy Hz. destruct (decide (k <= i)) as [Hki|Hki].
  - rewrite Nat.max_l by done. rewrite (Hidem v m x k i y) in Hz by done. congruence.
  - rewrite Nat.max_r by lia.
    assert (take k (mig_Statements m) = take i (mig_Statements m) ++ take (k - i) (drop i (mig_Statements m))) as E.
    { rewrite <-(take_drop i (take k (mig_Statements m))), take_take, Nat.min_l by lia.
      f_equal. apply skipn_firstn_comm. }
    rewrite E in Hz |- *. rewrite run_seq_app in Hz |- *. rewrite Hy. simpl.
    rewrite (Hidem v m x i i y) in Hz by done. done.
Qed.

#[export] Instance my_laws : @MigLaws (@dbstate S) (my_db run_sql) (sorted s) my_near.
Proof.
  split.
  - intros v d [Hr _]. by apply foldl_max_versions.
  - intros v m d fs err d' fs' Hm [Hr (x & i & Hx & Hi)]. simpl. unfold my_in_tx.
    pose proof (lookup_version s v m Hvalid Hm) as Hver. rewrite Hm in Hi. simpl in Hi.
    destruct (run_statements run_sql true _ fs _) as [[ok z] fs1] eqn:Er.
    destruct (run_statements_prefix _ _ _ _ _ _ Er) as (k & Hk & Hok).
    pose proof (rerun_prefix v m x i k _ z Hm Hx Hi Hk) as Hz.
    assert (my_near v (mkDB z (db_versions d))) as Hpart.
    { split; [done|]. exists x, (Nat.max i k). by rewrite Hm. }
    destruct ok; simpl; [|intros [= <- <- <-]; by left].
    assert (my_near (Datatypes.S v) (mkDB z (upsert_version m (db_versions d)))) as Hfull.
    { apply my_near_full.
      - unfold recorded, upsert_version. rewrite bool_decide_false.
        + simpl. by rewrite fmap_app, Hr, versions_upto_S, <-Hver.
        + rewrite Hr, elem_of_versions_upto, Hver. lia.
      - rewrite (schema_at_S v m Hm), Hx. simpl. rewrite take_ge in Hz; [done|]. rewrite Hok by done. lia. }
    destruct (next_fault fs1) as [f fs2]. destruct f; intros [= <- <- <-]; auto.
Qed.
End laws.

Section migrations.
Context {S : Type} (run_sql : string → S → option S) (x0 : S) (s : MigSet).

(** C31: migrations resume on Postgres: from a database at any version [v] of a valid set,
    under any failures of the calls (a commit that took effect although it was reported
    failed included), the runner leaves the database at exactly some version, never below
    [v]: its schema is the one an uninterrupted run of that many migrations yields and its
    version table records exactly these; and a run without error ends at the newest version
    and reports precisely the versions above [v]. *)
Theorem Apply_resumes_pg (locker : bool) (fs : list fault) (v : nat) (d : @dbstate S) :
  Validate s = None → v <= length (sorted s) →
  (db_versions d).*1 = versions_upto v → schema_at run_sql x0 s v = Some (db_schema d) →
  let '(applied, err, d') := @Apply _ (pg_db run_sql) locker s fs d in
  ∃ v', v <= v' <= length (sorted s) ∧ (db_versions d').*1 = versions_upto v' ∧
    schema_at run_sql x0 s v' = Some (db_schema d') ∧
    (err = None → v' = length (sorted s) ∧ applied = mig_Version <$> drop v (sorted s)).
Proof.
  intros Hv Hle Hr Hs. pose proof (pg_laws run_sql x0 s Hv) as Hlaws.
  pose proof (@Apply_near _ (pg_db run_sql) s (pg_near run_sql x0 s) Hlaws Hv locker v fs d (conj Hr Hs) Hle) as H.
  destruct (Apply _ _ _ _) as [[applied err] d']. destruct H as (v' & Hb & [Hr' Hs'] & Hok). by exists v'.
Qed.

(** Migrations resume on MySQL, where a crash can leave a migration half applied: when
    every migration can be re-run over any prefix of itself, a run without error ends with
    the schema of an uninterrupted run and the newest version recorded, from whatever
    version and however far into the next migration an earlier run stopped; a run that
    fails leaves such a state again. *)
Theorem Apply_resumes_mysql (locker : bool) (fs : list fault) (v i : nat) (x : S) (d : @dbstate S) :
  Validate s = None → rerunnable run_sql x0 s → v <= length (sorted s) →
  (db_versions d).*1 = versions_upto v → schema_at run_sql x0 s v = Some x →
  run_seq run_sql (take i (default [] (mig_Statements <$> sorted s !! v))) x = Some (db_schema d) →
  let '(applied, err, d') := @Apply _ (my_db run_sql) locker s fs d in
  (err = None → schema_at run_sql x0 s (length (sorted s)) = Some (db_schema d') ∧
     (db_versions d').*1 = versions_upto (length (sorted s))) ∧
  ∃ v' i' x', v <= v' ∧ (db_versions d').*1 = versions_upto v' ∧ schema_at run_sql x0 s v' = Some x' ∧
    run_seq run_sql (take i' (default [] (mig_Statements <$> sorted s !! v'))) x' = Some (db_schema d').
Proof.
  intros Hv Hid Hle Hr Hx Hi. pose proof (my_laws run_sql x0 s Hv Hid) as Hlaws.
  assert (my_near run_sql x0 s v d) as Hn by (split; [done|]; by exists x, i).
  pose proof (@Apply_near _ (my_db run_sql) s (my_near run_sql x0 s) Hlaws Hv locker v fs d Hn Hle) as H.
  destruct (Apply _ _ _ _) as [[applied err] d']. destruct H as (v' & Hb & [Hr' (x' & i' & Hx' & Hi')] & Hok).
  split; [|by exists v', i', x'; split_and!; [lia|..]].
  intros He. destruct (Hok He) as [-> _]. split; [|done]. rewrite (lookup_ge_None_2 (sorted s)) in Hi' by done.
  simpl in Hi'. rewrite take_nil in Hi'. simpl in Hi'. by rewrite Hx'.
Qed.
End migrations.

(** ** Witnesses: statements as names of objects *)

(** CREATE of an object that exists fails; the IF NOT EXISTS form does nothing. *)
Definition create (q : string) (x : list string) : option (list string) :=
  if bool_decide (q ∈ x) then None else Some (x ++ [q]).
Definition create_if_absent (q : string) (x : list string) : option (list string) :=
  Some (if bool_decide (q ∈ x) then x else x ++ [q]).

Definition sample_set : MigSet :=
  mkSet "source" "replicare.schema_version"
    [mkMigration 2 "more" ["c"]; mkMigration 1 "initial" ["a"; "b"]].

(** The second statement fails after its effect; the transaction is rolled back. *)
Lemma Apply_resumes_pg_witness :
  let '(applied, err, d') :=
    @Apply _ (pg_db create) true sample_set [NoFault; NoFault; NoFault; NoFault; NoFault; FailAfter] (mkDB [] []) in
  ∃ v', 0 <= v' <= length (sorted sample_set) ∧ (db_versions d').*1 = versions_upto v' ∧
    schema_at create [] sample_set v' = Some (db_schema d') ∧
    (err = None → v' = length (sorted sample_set) ∧ applied = mig_Version <$> drop 0 (sorted sample_set)).
Proof. apply (Apply_resumes_pg create [] sample_set); [reflexivity|lia|reflexivity|reflexivity]. Defined.

Lemma create_if_absent_in q x y : q ∈ x → (∀ p, p ∈ y → p ∈ x) → run_seq create_if_absent y x = Some x.
Proof.
  intros _ Hy. induction y as [|p y IH]; [done|]. simpl. rewrite bool_decide_true by (apply Hy; by left).
  apply IH. intros p' Hp'. apply Hy. by right.
Qed.

Lemma run_create_in y x x' : run_seq create_if_absent y x = Some x' → ∀ p, p ∈ y ∨ p ∈ x → p ∈ x'.
Proof.
  revert x. induction y as [|q y IH]; intros x; simpl; [intros [= <-] p [?%elem_of_nil|]; done|].
  intros H p Hp. apply (IH _ H). case_bool_decide; set_solver.
Qed.

Lemma sample_rerunnable s : rerunnable create_if_absent [] s.
Proof.
  intros v m x i j y Hm _ Hij Hy. destruct (take i (mig_Statements m)) as [|q l] eqn:E; [done|].
  assert (∀ p, p ∈ take i (mig_Statements m) → p ∈ y) as Hin.
  { intros p Hp. apply (run_create_in _ _ _ Hy). left. apply (elem_of_prefix _ _ _ Hp).
    exists (drop i (take j (mig_Statements m))). rewrite <-(take_drop i (take j (mig_Statements m))) at 1.
    by rewrite take_take, Nat.min_l. }
  rewrite E in Hin. apply (create_if_absent_in q); [apply Hin; by left|done].
Qed.

(** A run that stopped after the first statement of the first migration. *)
Lemma Apply_resumes_mysql_witness :
  let '(applied, err, d') := @Apply _ (my_db create_if_absent) true sample_set [] (mkDB ["a"] []) in
  (err = None → schema_at create_if_absent [] sample_set (length (sorted sample_set)) = Some (db_schema d') ∧
     (db_versions d').*1 = versions_upto (length (sorted sample_set))) ∧
  ∃ v' i' x', 0 <= v' ∧ (db_versions d').*1 = versions_upto v' ∧
    schema_at create_if_absent [] sample_set v' = Some x' ∧
    run_seq create_if_absent (take i' (default [] (mig_Statements <$> sorted sample_set !! v'))) x' = Some (db_schema d').
Proof.
  apply (Apply_resumes_mysql create_if_absent [] sample_set true [] 0 1 []).
  - reflexivity.
  - apply sample_rerunnable.
  - lia.
  - reflexivity.
  - reflexivity.
  - reflexivity.
Defined.
End Migrate.
