(* ===== verification/Env.v ===== *)
(** * Environment references in the configuration ([internal/config/env.go])

    A scalar of the configuration may refer to environment variables as ${VAR} or
    ${VAR:-default}; $${ stands for a literal ${. The environment is an argument. *)

From S2P Require Import Prelude Text.
Import Text.

Module Env.

Definition NUL : ascii := Ascii.zero.

Definition dollar_brace : text := txt "${".
Definition dollar_dollar_brace : text := txt "$${".

(** [escSentinel] *)
Definition escSentinel : text := NUL :: txt "REPLICARE_ESC" ++ [NUL].

(** The two errors of a reference, with the text they print. *)
Inductive env_error :=
| EmptyReference (m : text)
| NotSet (name : text).

#[global] Instance env_error_eq_dec : EqDecision env_error.
Proof. solve_decision. Defined.

(** [firstErr]: the first error wins. *)
Definition first_err (e1 e2 : option env_error) : option env_error :=
  match e1 with Some e => Some e | None => e2 end.

Section expand.
Context (LookupEnv : text → option text).

(** The replacement function on the text between the braces. *)
Definition expand_ref (inner : text) : text * option env_error :=
  let '(name, def) := match cut (txt ":-") inner with
                      | Some (n, d) => (n, Some d)
                      | None => (inner, None)
                      end in
  let name := TrimSpace name in
  match name with
  | [] => ([], Some (EmptyReference (dollar_brace ++ inner ++ txt "}")))
  | _ =>
      match LookupEnv name with
      | Some v => (v, None)
      | None => match def with Some d => (d, None) | None => ([], Some (NotSet name)) end
      end
  end.

(** [ReplaceAllStringFunc]: a match is ${, the bytes up to the first closing brace, and that
    brace; matches are replaced left to right. Every step consumes a byte. *)
Fixpoint expand_loop (fuel : nat) (l : text) : text * option env_error :=
  match fuel with
  | 0 => (l, None)
  | S fuel =>
      match l with
      | [] => ([], None)
      | a :: l' =>
          match r ← strip_prefix dollar_brace l; cut (txt "}") r with
          | Some (inner, rest) =>
              let '(v, e) := expand_ref inner in
              let '(out, e') := expand_loop fuel rest in
              (v ++ out, first_err e e')
          | None => let '(out, e) := expand_loop fuel l' in (a :: out, e)
          end
      end
  end.

Definition expandString (s : text) : text * option env_error :=
  let s := ReplaceAll dollar_dollar_brace escSentinel s in
  let '(out, e) := expand_loop (S (length s)) s in
  (ReplaceAll escSentinel dollar_brace out, e).

(** A YAML node: the kinds with children, a scalar with its value, whether it is plain (style 0) and its tag,
    and an alias. *)
Inductive Node :=
| Branch (content : list Node)
| Scalar (value : text) (plain : bool) (tag : text)
| Alias (name : text).

(** [expandEnv]: the first error stops the walk. *)
Fixpoint expandEnv (n : Node) : env_error + Node :=
  match n with
  | Branch content =>
      (fix go (l done_ : list Node) : env_error + Node :=
         match l with
         | [] => inr (Branch (reverse done_))
         | c :: l => match expandEnv c with inl e => inl e | inr c' => go l (c' :: done_) end
         end) content []
  | Scalar value plain tag =>
      match cut dollar_brace value with
      | None => inr n
      | Some _ =>
          match expandString value with
          | (_, Some e) => inl e
          | (v, None) => inr (Scalar v plain (if plain then [] else tag))
          end
      end
  | Alias _ => inr n
  end.

(** ** Templates: what an author writes

    A template is literal text with references between; it is written with every ${ of
    the literal text escaped. *)
Record reference := mkReference { ref_name : text; ref_default : option text }.

Definition escape (s : text) : text := ReplaceAll dollar_brace dollar_dollar_brace s.

Definition ref_text (r : reference) : text :=
  dollar_brace ++ ref_name r ++ match ref_default r with Some d => txt ":-" ++ d | None => [] end ++ txt "}".

Definition template : Type := text * list (reference * text).

Definition render (t : template) : text :=
  escape t.1 ++ mjoin ((λ '(r, s), ref_text r ++ escape s) <$> t.2).

(** The value of a reference. *)
Definition ref_value (r : reference) : text * option env_error :=
  match LookupEnv (ref_name r) with
  | Some v => (v, None)
  | None => match ref_default r with Some d => (d, None) | None => ([], Some (NotSet (ref_name r))) end
  end.

Definition meaning (t : template) : text * option env_error :=
  (t.1 ++ mjoin ((λ '(r, s), (ref_value r).1 ++ s) <$> t.2),
   foldr (λ '(r, _) e, first_err (ref_value r).2 e) None t.2).

(** The names and defaults that can be written between the braces. *)
Definition ref_ok (r : reference) : Prop :=
  ref_name r ≠ [] ∧ TrimSpace (ref_name r) = ref_name r ∧ ¬ occurs (txt ":-") (ref_name r) ∧
  Forall (λ a, a ≠ "}"%char ∧ a ≠ "$"%char ∧ a ≠ NUL) (ref_name r) ∧
  match ref_default r with
  | Some d => Forall (λ a, a ≠ "}"%char ∧ a ≠ "$"%char ∧ a ≠ NUL) d
  | None => True
  end.

(** No NUL bytes, and no dollar sign right before a reference. *)
Fixpoint pieces_ok (l : list (reference * text)) : Prop :=
  match l with
  | [] => True
  | (r, s) :: l => ref_ok r ∧ (NUL ∉ s) ∧ (l ≠ [] → last s ≠ Some "$"%char) ∧ pieces_ok l
  end.

Definition template_ok (t : template) : Prop :=
  (NUL ∉ t.1) ∧ (t.2 ≠ [] → last t.1 ≠ Some "$"%char) ∧ pieces_ok t.2.

(** ** Phase 1: escapes become sentinels *)

(** Literal text with the sentinel for every ${. *)
Definition enc (s : text) : text := ReplaceAll dollar_brace escSentinel s.

(** A literal may be followed by nothing or by a reference. *)
Definition follows (s tail : text) : Prop :=
  tail = [] ∨ ∃ x, tail = dollar_brace ++ x ∧ last s ≠ Some "$"%char.

Lemma mjoin_cons {A} (x : list A) (l : list (list A)) : mjoin (x :: l) = x ++ mjoin l.
Proof. done. Qed.

(** Induction along the replacement of ${. *)
Lemma text_ind_dollar (P : text → Prop) :
  P [] → (∀ r, P r → P (dollar_brace ++ r)) →
  (∀ a l, strip_prefix dollar_brace (a :: l) = None → P l → P (a :: l)) → ∀ l, P l.
Proof.
  intros Hnil Happ Hcons l. remember (length l) as n eqn:Hn. revert l Hn.
  induction (lt_wf n) as [n _ IH]. intros [|a l] ->; [done|].
  destruct (strip_prefix dollar_brace (a :: l)) as [r|] eqn:E.
  - apply strip_prefix_spec in E as Heq. rewrite Heq. apply Happ. apply (IH (length r)); [|done].
    rewrite Heq. simpl. lia.
  - apply Hcons; [done|]. apply (IH (length l)); [simpl; lia|done].
Qed.

Lemma dollar_brace_ne : dollar_brace ≠ [].
Proof. done. Qed.
Lemma dollar_dollar_ne : dollar_dollar_brace ≠ [].
Proof. done. Qed.
Lemma sentinel_ne : escSentinel ≠ [].
Proof. done. Qed.

Lemma escape_app (r : text) : escape (dollar_brace ++ r) = dollar_dollar_brace ++ escape r.
Proof. by apply ReplaceAll_app. Qed.
Lemma escape_cons (a : ascii) (l : text) :
  strip_prefix dollar_brace (a :: l) = None → escape (a :: l) = a :: escape l.
Proof. by apply ReplaceAll_cons. Qed.
Lemma enc_app (r : text) : enc (dollar_brace ++ r) = escSentinel ++ enc r.
Proof. by apply ReplaceAll_app. Qed.
Lemma enc_cons (a : ascii) (l : text) : strip_prefix dollar_brace (a :: l) = None → enc (a :: l) = a :: enc l.
Proof. by apply ReplaceAll_cons. Qed.

(** The first byte survives escaping. *)
Lemma escape_head (a : ascii) (l : text) : ∃ l', escape (a :: l) = a :: l'.
Proof.
  destruct (strip_prefix dollar_brace (a :: l)) as [r|] eqn:E.
  - apply strip_prefix_spec in E. injection E as -> ->.
    exists (drop 1 dollar_dollar_brace ++ escape r). apply (escape_app r).
  - exists (escape l). by apply escape_cons.
Qed.

Lemma strip_dollar_brace (a b : ascii) (l : text) :
  strip_prefix dollar_brace (a :: b :: l) = None ↔ ¬ (a = "$"%char ∧ b = "{"%char).
Proof.
  rewrite strip_prefix_None. split.
  - intros Hno [-> ->]. by apply (Hno l).
  - intros Hno r [= -> ->]. by apply Hno.
Qed.

Lemma follows_cons (a : ascii) (s tail : text) : follows (a :: s) tail → follows s tail.
Proof.
  intros [->|(x & -> & Hl)]; [by left|]. right. exists x. split; [done|].
  destruct s as [|b s]; [done|]. by rewrite last_cons_cons in Hl.
Qed.

Lemma follows_app (r s tail : text) : follows (r ++ s) tail → follows s tail.
Proof. induction r as [|a r IH]; [done|]. intros ?%follows_cons. by apply IH. Qed.

(** Escaping, read back by the first phase. *)
Lemma phase1_literal (s tail : text) :
  follows s tail →
  ReplaceAll dollar_dollar_brace escSentinel (escape s ++ tail) =
  enc s ++ ReplaceAll dollar_dollar_brace escSentinel tail.
Proof.
  revert tail. induction s as [|r IH|a s Hs IH] using text_ind_dollar; intros tail Hf.
  - done.
  - rewrite escape_app, enc_app, <-!app_assoc, ReplaceAll_app by done. f_equal.
    apply IH. by apply follows_app in Hf.
  - rewrite escape_cons, enc_cons by done. cbn [app]. rewrite ReplaceAll_cons; [|done|].
    + f_equal. apply IH. by apply follows_cons in Hf.
    + apply strip_prefix_None. intros y Hy. injection Hy as -> Hy.
      destruct s as [|b s].
      { change (escape []) with (@nil ascii) in Hy. simpl in Hy. destruct Hf as [->|(x & -> & Hl)]; [done|].
        by apply Hl. }
      destruct (strip_prefix dollar_brace (b :: s)) as [r|] eqn:E.
      { apply strip_prefix_spec in E. rewrite E, escape_app in Hy. done. }
      rewrite escape_cons in Hy by done. injection Hy as -> Hy.
      destruct s as [|c s].
      { change (escape []) with (@nil ascii) in Hy. simpl in Hy. by destruct Hf as [->|(x & -> & Hl)]. }
      destruct (escape_head c s) as [l' Hl']. rewrite Hl' in Hy. injection Hy as -> _.
      apply strip_dollar_brace in E. naive_solver.
Qed.

(** Text without a dollar sign passes unchanged. *)
Lemma ReplaceAll_skip (old new w x : text) (a : ascii) (old' : text) :
  old = a :: old' → a ∉ w → ReplaceAll old new (w ++ x) = w ++ ReplaceAll old new x.
Proof.
  intros ->. induction w as [|b w IH]; intros Hw; [done|]. apply not_elem_of_cons in Hw as [Hne Hw].
  cbn [app]. rewrite ReplaceAll_cons; [by rewrite IH|done|]. apply strip_prefix_None. intros r [= <-]. done.
Qed.

Definition ref_body (r : reference) : text :=
  ref_name r ++ match ref_default r with Some d => txt ":-" ++ d | None => [] end.

Lemma ref_text_body (r : reference) (x : text) : ref_text r ++ x = dollar_brace ++ ref_body r ++ txt "}" ++ x.
Proof. unfold ref_text, ref_body. by rewrite <-!app_assoc. Qed.

(** The bytes of a body. *)
Lemma ref_body_bytes (r : reference) :
  ref_ok r → Forall (λ a, a ≠ "}"%char ∧ a ≠ "$"%char ∧ a ≠ NUL) (ref_body r).
Proof.
  intros (_ & _ & _ & Hn & Hd). unfold ref_body. apply Forall_app. split; [done|].
  destruct (ref_default r); [|constructor]. apply Forall_app. split; [|done]. by repeat constructor.
Qed.

Lemma phase1_ref (r : reference) (x : text) :
  ref_ok r →
  ReplaceAll dollar_dollar_brace escSentinel (ref_text r ++ x) =
  ref_text r ++ ReplaceAll dollar_dollar_brace escSentinel x.
Proof.
  intros Hr%ref_body_bytes. rewrite !ref_text_body.
  change (dollar_brace ++ ref_body r ++ txt "}" ++ x) with ("$"%char :: ("{"%char :: ref_body r ++ ["}"%char]  ++ x)).
  rewrite ReplaceAll_cons by done.
  change ("{"%char :: ref_body r ++ ["}"%char] ++ x) with (("{"%char :: ref_body r) ++ ["}"%char] ++ x).
  rewrite app_assoc, (ReplaceAll_skip _ _ _ _ "$" (txt "${")); [|done|].
  - by rewrite <-app_assoc.
  - intros Hin. apply elem_of_app in Hin as [[[=]|Hin]%elem_of_cons|[=]%list_elem_of_singleton].
    rewrite Forall_forall in Hr. apply Hr in Hin. naive_solver.
Qed.

Lemma follows_rest (s : text) (l : list (reference * text)) :
  (l ≠ [] → last s ≠ Some "$"%char) → follows s (mjoin ((λ '(r, s), ref_text r ++ escape s) <$> l)).
Proof.
  intros Hl. destruct l as [|[r s'] l]; [by left|]. right. simpl.
  eexists. split; [|by apply Hl]. rewrite <-app_assoc. apply ref_text_body.
Qed.

Lemma phase1 (t : template) :
  template_ok t →
  ReplaceAll dollar_dollar_brace escSentinel (render t) =
  enc t.1 ++ mjoin ((λ '(r, s), ref_text r ++ enc s) <$> t.2).
Proof.
  destruct t as [s l]. intros (_ & Hl & Hok). unfold render. cbn [fst snd] in *.
  rewrite phase1_literal by by apply follows_rest. f_equal. clear s Hl.
  induction l as [|[r s] l IH]; [done|]. destruct Hok as (Hr & _ & Hl & Hok).
  rewrite !fmap_cons, !mjoin_cons.
  rewrite <-(app_assoc (ref_text r)), phase1_ref, phase1_literal by (done || by apply follows_rest).
  rewrite IH by done. by rewrite app_assoc.
Qed.

(** ** Phase 2: references become values *)

Definition expandAll (l : text) : text * option env_error := expand_loop (S (length l)) l.

Definition match_ref (l : text) : option (text * text) := r ← strip_prefix dollar_brace l; cut (txt "}") r.

Lemma cut_length (sep l x y : text) : cut sep l = Some (x, y) → length y ≤ length l.
Proof.
  revert x. induction l as [|a l IH]; intros x; cbn [cut].
  - destruct (strip_prefix sep []) as [r|] eqn:E; [|done]. intros [= <- <-]. apply strip_prefix_spec in E.
    by destruct sep, r.
  - destruct (strip_prefix sep (a :: l)) as [r|] eqn:E.
    + intros [= <- <-]. apply strip_prefix_spec in E. rewrite E, length_app. lia.
    + destruct (cut sep l) as [[x' y']|]; [|done]. simpl. intros [= <- <-]. specialize (IH x' eq_refl). lia.
Qed.

Lemma match_ref_length (l x y : text) : match_ref l = Some (x, y) → length y < length l.
Proof.
  unfold match_ref. destruct (strip_prefix dollar_brace l) as [r|] eqn:E; [|done]. simpl.
  intros H%cut_length. apply strip_prefix_spec in E as ->. simpl. lia.
Qed.

Lemma expand_loop_fuel (l : text) (n m : nat) :
  length l < n → length l < m → expand_loop n l = expand_loop m l.
Proof.
  revert l m. induction n as [|n IH]; intros l [|m] Hn Hm; [lia..|]. destruct l as [|a l]; [done|].
  cbn [expand_loop]. fold (match_ref (a :: l)). destruct (match_ref (a :: l)) as [[x y]|] eqn:E.
  - apply match_ref_length in E. simpl in *. rewrite (IH y m) by lia. done.
  - simpl in *. rewrite (IH l m) by lia. done.
Qed.

Lemma expandAll_eq (a : ascii) (l : text) :
  expandAll (a :: l) =
  match match_ref (a :: l) with
  | Some (inner, rest) =>
      let '(v, e) := expand_ref inner in
      let '(out, e') := expand_loop (S (length l)) rest in (v ++ out, first_err e e')
  | None => let '(out, e) := expandAll l in (a :: out, e)
  end.
Proof. reflexivity. Qed.

Lemma expandAll_cons (a : ascii) (l : text) :
  match_ref (a :: l) = None → expandAll (a :: l) = ((a :: (expandAll l).1), (expandAll l).2).
Proof. intros E. rewrite expandAll_eq, E. by destruct (expandAll l). Qed.

Lemma expandAll_match (l inner rest : text) :
  match_ref l = Some (inner, rest) →
  expandAll l = ((expand_ref inner).1 ++ (expandAll rest).1, first_err (expand_ref inner).2 (expandAll rest).2).
Proof.
  intros E. pose proof (match_ref_length _ _ _ E) as Hlt. destruct l as [|a l]; [done|].
  rewrite expandAll_eq, E, (expand_loop_fuel rest (S (length l)) (S (length rest))) by (simpl in *; lia).
  fold (expandAll rest). by destruct (expand_ref inner), (expandAll rest).
Qed.

Lemma match_ref_None (l : text) : strip_prefix dollar_brace l = None → match_ref l = None.
Proof. unfold match_ref. by intros ->. Qed.

(** Bytes other than a dollar sign pass unchanged. *)
Lemma expandAll_skip (w x : text) :
  "$"%char ∉ w → expandAll (w ++ x) = (w ++ (expandAll x).1, (expandAll x).2).
Proof.
  induction w as [|b w IH]; intros Hw; [cbn [app]; apply surjective_pairing|]. apply not_elem_of_cons in Hw as [Hne Hw].
  cbn [app]. rewrite expandAll_cons; [by rewrite (IH Hw)|]. apply match_ref_None, strip_prefix_None.
  intros r [= -> _]. done.
Qed.

(** Text after a literal: nothing, or a dollar sign. *)
Definition no_brace (tail : text) : Prop := ∀ x, tail ≠ "{"%char :: x.

Lemma phase2_literal (s tail : text) :
  no_brace tail → expandAll (enc s ++ tail) = (enc s ++ (expandAll tail).1, (expandAll tail).2).
Proof.
  intros Ht. induction s as [|r IH|a s Hs IH] using text_ind_dollar.
  - change (enc [] ++ tail) with tail. apply surjective_pairing.
  - rewrite enc_app, <-!app_assoc, expandAll_skip, IH; [by rewrite app_assoc|].
    apply (bool_decide_unpack _). vm_compute. exact I.
  - rewrite enc_cons by done. cbn [app]. rewrite expandAll_cons; [by rewrite IH|].
    apply match_ref_None, strip_prefix_None. intros y Hy. injection Hy as -> Hy.
    destruct s as [|b s]; [by apply (Ht y)|].
    destruct (strip_prefix dollar_brace (b :: s)) as [r|] eqn:E.
    + apply strip_prefix_spec in E. rewrite E, enc_app in Hy. done.
    + rewrite enc_cons in Hy by done. injection Hy as -> _. apply strip_dollar_brace in Hs. naive_solver.
Qed.

Lemma cut_brace (w x : text) : "}"%char ∉ w → cut (txt "}") (w ++ txt "}" ++ x) = Some (w, x).
Proof.
  induction w as [|a w IH]; intros Hw; [done|]. apply not_elem_of_cons in Hw as [Hne Hw].
  cbn [app cut]. rewrite (proj2 (strip_prefix_None (txt "}") _)) by (intros r [= -> _]; done).
  by rewrite IH.
Qed.

Lemma cut_default (n d : text) :
  ¬ occurs (txt ":-") n → cut (txt ":-") (n ++ txt ":-" ++ d) = Some (n, d).
Proof.
  induction n as [|a n IH]; intros Hno; [done|]. cbn [app cut].
  rewrite (proj2 (strip_prefix_None (txt ":-") _)).
  - rewrite IH; [done|]. intros Ho. by apply Hno, occurs_cons.
  - intros r Hr. injection Hr as -> Hr. destruct n as [|b n]; [done|]. injection Hr as -> _.
    apply Hno. by exists [], n.
Qed.

Lemma cut_absent (sep l : text) : ¬ occurs sep l → cut sep l = None.
Proof.
  induction l as [|a l IH]; intros Hno; cbn [cut].
  - rewrite (proj2 (strip_prefix_None sep _)); [done|]. intros r Hr. apply Hno. by exists [], r.
  - rewrite (proj2 (strip_prefix_None sep _)).
    + rewrite IH; [done|]. intros Ho. by apply Hno, occurs_cons.
    + intros r Hr. apply Hno. by exists [], r.
Qed.

Lemma cut_None (sep l : text) : cut sep l = None → ¬ occurs sep l.
Proof.
  intros Hc (x & y & ->). induction x as [|a x IH]; cbn [app cut] in Hc.
  - destruct (sep ++ y) as [|b r] eqn:E; cbn [cut] in Hc; rewrite <-E in Hc at 1;
      rewrite (proj2 (strip_prefix_spec sep _ y) eq_refl) in Hc; done.
  - destruct (strip_prefix sep _); [done|]. destruct (cut sep (x ++ sep ++ y)); [done|by apply IH].
Qed.

Lemma expand_ref_body (r : reference) : ref_ok r → expand_ref (ref_body r) = ref_value r.
Proof.
  intros (Hne & Htrim & Hno & _ & _). unfold expand_ref, ref_body, ref_value.
  destruct (ref_default r) as [d|].
  - rewrite cut_default, Htrim by done. by destruct (ref_name r).
  - rewrite app_nil_r, cut_absent, Htrim by done. by destruct (ref_name r).
Qed.

Lemma phase2_ref (r : reference) (x : text) :
  ref_ok r →
  expandAll (ref_text r ++ x) = ((ref_value r).1 ++ (expandAll x).1, first_err (ref_value r).2 (expandAll x).2).
Proof.
  intros Hr. rewrite ref_text_body, (expandAll_match _ (ref_body r) x); [by rewrite expand_ref_body|].
  unfold match_ref. rewrite (proj2 (strip_prefix_spec dollar_brace _ _) eq_refl). cbn [mbind option_bind].
  apply cut_brace. intros Hin. apply ref_body_bytes in Hr. rewrite Forall_forall in Hr. apply Hr in Hin. naive_solver.
Qed.

Lemma no_brace_rest (l : list (reference * text)) :
  no_brace (mjoin ((λ '(r, s), ref_text r ++ enc s) <$> l)).
Proof. intros x. by destruct l as [|[r s] l]. Qed.

Lemma phase2 (s : text) (l : list (reference * text)) :
  pieces_ok l →
  expandAll (enc s ++ mjoin ((λ '(r, s), ref_text r ++ enc s) <$> l)) =
  (enc s ++ mjoin ((λ '(r, s), (ref_value r).1 ++ enc s) <$> l),
   foldr (λ '(r, _) e, first_err (ref_value r).2 e) None l).
Proof.
  revert s. induction l as [|[r s'] l IH]; intros s Hok.
  - rewrite phase2_literal by (intros x; done). done.
  - destruct Hok as (Hr & _ & _ & Hok). rewrite phase2_literal by apply no_brace_rest.
    rewrite !fmap_cons, !mjoin_cons, <-(app_assoc (ref_text r)), phase2_ref, (IH s' Hok) by done.
    cbn [fst snd foldr]. by rewrite <-(app_assoc (ref_value r).1).
Qed.

(** ** Phase 3: sentinels become ${ *)

Lemma phase3_literal (s tail : text) :
  NUL ∉ s → ReplaceAll escSentinel dollar_brace (enc s ++ tail) = s ++ ReplaceAll escSentinel dollar_brace tail.
Proof.
  induction s as [|r IH|a s Hs IH] using text_ind_dollar; intros Hn; [done|..].
  - apply not_elem_of_app in Hn as [_ Hn]. rewrite enc_app, <-!app_assoc, ReplaceAll_app, IH by done. done.
  - apply not_elem_of_cons in Hn as [Hne Hn]. rewrite enc_cons by done. cbn [app].
    rewrite ReplaceAll_cons; [by rewrite IH|done|]. apply strip_prefix_None. intros r [= -> _]. done.
Qed.

Lemma phase3 (s : text) (l : list (reference * text)) :
  NUL ∉ s → pieces_ok l → Forall (λ p, NUL ∉ (ref_value p.1).1) l →
  ReplaceAll escSentinel dollar_brace (enc s ++ mjoin ((λ '(r, s), (ref_value r).1 ++ enc s) <$> l)) =
  s ++ mjoin ((λ '(r, s), (ref_value r).1 ++ s) <$> l).
Proof.
  revert s. induction l as [|[r s'] l IH]; intros s Hs Hok Hv.
  - rewrite phase3_literal by done. done.
  - destruct Hok as (Hr & Hs' & _ & Hok). apply Forall_cons in Hv as [Hv Hvs].
    rewrite phase3_literal by done. f_equal. rewrite !fmap_cons, !mjoin_cons, <-!(app_assoc (ref_value r).1).
    rewrite (ReplaceAll_skip escSentinel _ _ _ NUL (txt "REPLICARE_ESC" ++ [NUL])) by done.
    f_equal. by apply IH.
Qed.

(** Environment values have no NUL byte, nor have defaults. *)
Lemma ref_values_no_nul (l : list (reference * text)) :
  (∀ n v, LookupEnv n = Some v → NUL ∉ v) → pieces_ok l → Forall (λ p, NUL ∉ (ref_value p.1).1) l.
Proof.
  intros Henv. induction l as [|[r s] l IH]; intros Hok; [constructor|].
  destruct Hok as (Hr & _ & _ & Hok). constructor; [|by apply IH]. unfold ref_value. simpl.
  destruct (LookupEnv (ref_name r)) as [v|] eqn:E; [by apply (Henv _ _ E)|].
  destruct Hr as (_ & _ & _ & _ & Hd). destruct (ref_default r) as [d|]; simpl; [|by intros ?%elem_of_nil].
  intros Hin. rewrite Forall_forall in Hd. apply Hd in Hin. naive_solver.
Qed.

(** Expansion of what an author writes. For a template of literal text (with every ${
    of it escaped) and references, the expanded value is the literal text with the value of each
    reference in its place: the variable when it is set, else the default; and the
    error is the first reference that has neither. So escaping round-trips, and values from
    the environment are never expanded again. *)
Theorem expandString_render (t : template) :
  template_ok t → (∀ n v, LookupEnv n = Some v → NUL ∉ v) → expandString (render t) = meaning t.
Proof.
  intros Ht Henv. unfold expandString. rewrite phase1 by done. destruct t as [s l]. destruct Ht as (Hs & _ & Hok).
  cbn [fst snd] in *. fold (expandAll (enc s ++ mjoin ((λ '(r, s), ref_text r ++ enc s) <$> l))).
  rewrite phase2 by done. unfold meaning. cbn [fst snd]. f_equal. apply phase3; [done|done|].
  by apply ref_values_no_nul.
Qed.
End expand.

Definition sample_env (n : text) : option text := if decide (n = txt "HOST") then Some (txt "db$1${x") else None.

Definition sample_template : template :=
  (txt "a${b", [(mkReference (txt "HOST") None, txt ":"); (mkReference (txt "PORT") (Some (txt "5432")), txt "/$")]).

Lemma expandString_render_witness :
  untxt (render sample_template) = "a$${b${HOST}:${PORT:-5432}/$" ∧
  expandString sample_env (render sample_template) = (txt "a${bdb$1${x:5432/$", None).
Proof.
  split; [vm_compute; reflexivity|].
  transitivity (meaning sample_env sample_template); [|vm_compute; reflexivity].
  apply expandString_render.
  - unfold template_ok, pieces_ok, ref_ok, sample_template. cbn [fst snd ref_name ref_default].
    repeat match goal with
    | |- _ ∧ _ => split
    | |- ¬ occurs _ _ => apply cut_None; vm_compute; reflexivity
    | |- Forall _ _ => apply (bool_decide_unpack _); vm_compute; exact I
    | |- _ ∉ _ => apply (bool_decide_unpack _); vm_compute; exact I
    | |- _ ≠ _ → _ => let H := fresh in intros H; first [exfalso; apply H; reflexivity|clear H]
    | |- _ ≠ _ => vm_compute; discriminate
    end; try exact I; vm_compute; reflexivity.
  - intros n v. unfold sample_env. destruct (decide _); [|discriminate]. intros [= <-].
    apply (bool_decide_unpack _). vm_compute. exact I.
Defined.
End Env.
