(* ===== verification/Config.v ===== *)
(** * The configuration ([internal/config/config.go], [engine.go], [defaults.go])

    A decoded document gets its defaults, every endpoint's engine block is parsed by the
    registered engine, and the whole is validated before the daemon starts anything. The
    decoding of YAML and the engines' block parsers are parameters; a Go map is iterated
    in an arbitrary order, which only decides which of several errors is reported, or which of
    an error and a panic comes first. A null entry of a list or map decodes to a nil pointer:
    [None] in a [Document]. *)

From S2P Require Import Prelude Text Engine Env.
Import Env.

Module Config.

(** Durations are nanoseconds. *)
Definition second : Z := 1000000000.
Definition defaultDrainInterval : Z := 1 * second.
Definition defaultDrainBatch : Z := 1000.
Definition defaultApplyConcurrency : Z := 1.
Definition defaultRetentionMaxAge : Z := 24 * 3600 * second.
Definition defaultMaxConns : Z := 4.
Definition defaultStallTimeout : Z := 120 * second.
Definition topologyMesh : string := "mesh".

(** The part of [engine.ConnConfig] the configuration reads. *)
Record ConnConfig := mkConn { cn_Host : string; cn_Port : Z; cn_Database : string }.

(** [EngineConn]: a parsed connection block with its own validation. *)
Record EngineConn := mkEngineConn {
  ec_Validate : string → string → option string;
  ec_ConnConfig : ConnConfig
}.

Record Endpoint := mkEndpoint {
  ep_Engine : string;
  ep_NodeID : string;
  ep_Blocks : gmap string Node;
  ep_Conn : option EngineConn
}.

Record Tuning := mkTuning {
  tn_DrainInterval : Z;
  tn_DrainBatch : Z;
  tn_ApplyConcurrency : Z;
  tn_MaxAge : Z;
  tn_MaxBytes : Z;
  tn_MaxSourceConns : Z;
  tn_MaxTargetConns : Z
}.

Record Sync := mkSync {
  sy_Name : string;
  sy_Source : string;
  sy_Targets : list string;
  sy_Include : list string;
  sy_Exclude : list string;
  sy_Tuning : Tuning;
  sy_Enabled : option bool;
  sy_SyncSequences : option bool
}.

Record Cluster := mkCluster {
  cl_Name : string;
  cl_Engine : string;
  cl_Members : list string;
  cl_Topology : string;
  cl_Include : list string;
  cl_Exclude : list string;
  cl_Tuning : Tuning;
  cl_Enabled : option bool
}.

(** [Config], by what stands for an endpoint (a source or target), a node, a sync and a
    cluster. *)
Record ConfigOf (E N S C : Type) := mkConfig {
  cf_LogLevel : string;
  cf_LogFormat : string;
  cf_StallTimeout : Z;
  cf_StateStore : option Endpoint;
  cf_Sources : gmap string E;
  cf_Targets : gmap string E;
  cf_Syncs : list S;
  cf_Nodes : gmap string N;
  cf_Clusters : list C
}.
Arguments mkConfig {E N S C}.
Arguments cf_LogLevel {E N S C}.
Arguments cf_LogFormat {E N S C}.
Arguments cf_StallTimeout {E N S C}.
Arguments cf_StateStore {E N S C}.
Arguments cf_Sources {E N S C}.
Arguments cf_Targets {E N S C}.
Arguments cf_Syncs {E N S C}.
Arguments cf_Nodes {E N S C}.
Arguments cf_Clusters {E N S C}.

(** As decoded, with nil pointers; after the defaults, which need the syncs, nodes and clusters;
    after the engine blocks, which need the rest. *)
Definition Document : Type := ConfigOf (option Endpoint) (option Endpoint) (option Sync) (option Cluster).
Definition Draft : Type := ConfigOf (option Endpoint) Endpoint Sync Cluster.
Definition Config : Type := ConfigOf Endpoint Endpoint Sync Cluster.

(** [Sync.IsEnabled] and [Cluster.IsEnabled] *)
Definition IsEnabled (e : option bool) : bool := default true e.

Definition SyncsSequences (s : Sync) : bool := default false (sy_SyncSequences s).

(** ** Defaults *)

(** A field left at its zero value gets the default. *)
Definition or_default (n d : Z) : Z := if decide (n = 0%Z) then d else n.
Definition or_text (s d : string) : string := if decide (s = "") then d else s.

Definition applyTuningDefaults (t : Tuning) : Tuning :=
  mkTuning (or_default (tn_DrainInterval t) defaultDrainInterval)
           (or_default (tn_DrainBatch t) defaultDrainBatch)
           (or_default (tn_ApplyConcurrency t) defaultApplyConcurrency)
           (or_default (tn_MaxAge t) defaultRetentionMaxAge)
           (tn_MaxBytes t)
           (or_default (tn_MaxSourceConns t) defaultMaxConns)
           (or_default (tn_MaxTargetConns t) defaultMaxConns).

Definition sync_defaults (s : Sync) : Sync :=
  mkSync (sy_Name s) (sy_Source s) (sy_Targets s) (sy_Include s) (sy_Exclude s)
    (applyTuningDefaults (sy_Tuning s)) (sy_Enabled s) (sy_SyncSequences s).

Definition cluster_defaults (c : Cluster) : Cluster :=
  mkCluster (cl_Name c) (cl_Engine c) (cl_Members c) (or_text (cl_Topology c) topologyMesh) (cl_Include c)
    (cl_Exclude c) (applyTuningDefaults (cl_Tuning c)) (cl_Enabled c).

Definition node_defaults (name : string) (n : Endpoint) : Endpoint :=
  mkEndpoint (ep_Engine n) (or_text (ep_NodeID n) name) (ep_Blocks n) (ep_Conn n).

(** The entries of a map, unless one is nil. *)
Definition present {A} (m : gmap string (option A)) : option (gmap string A) :=
  if decide (map_Forall (λ _ o, is_Some o) m) then Some (omap id m) else None.

(** [None]: a nil sync, node or cluster is dereferenced. *)
Definition applyDefaults (c : Document) : option Draft :=
  syncs ← mapM id (cf_Syncs c);
  nodes ← present (cf_Nodes c);
  clusters ← mapM id (cf_Clusters c);
  Some (mkConfig (or_text (cf_LogLevel c) "info") (or_text (cf_LogFormat c) "json")
    (or_default (cf_StallTimeout c) defaultStallTimeout) (cf_StateStore c) (cf_Sources c) (cf_Targets c)
    (sync_defaults <$> syncs)
    (map_imap (λ name n, Some (node_defaults name n)) nodes)
    (cluster_defaults <$> clusters)).

(** ** Errors: one constructor per error return, with the values it prints *)
Inductive cfg_error :=
| EngineRequired (role name : string)
| UnknownEngine (role name engine : string)
| MissingBlock (role name engine : string)
| UnexpectedKey (role name key : string)
| BlockError (role name msg : string)
| BlockInvalid (msg : string)
| NothingDefined
| StateStoreEngine (engine : string)
| SyncNameRequired (i : nat)
| DuplicateSync (name : string)
| SourceRequired (name : string)
| SourceUndefined (name source : string)
| TargetRequired (name : string)
| TargetUndefined (name target : string)
| SyncCrossEngine (name target : string)
| PoolLimits (name : string)
| DrainIntervalNotPositive (name : string)
| DrainBatchNotPositive (name : string)
| ConcurrencyTooSmall (name : string)
| SequencesOnMember (name target : string)
| ClusterNameRequired (i : nat)
| DuplicateName (name : string)
| ClusterEngineRequired (name : string)
| TopologyUnsupported (name topology : string)
| TooFewMembers (name : string)
| DuplicateMember (name member : string)
| MemberUndefined (name member : string)
| ClusterCrossEngine (name member : string)
| DuplicateNodeID (name id : string)
| ReplicationCycle (cycle : list string).

(** A nil pointer is dereferenced; an error is returned; it goes on. *)
Inductive outcome (A : Type) := Panics | Refused (e : cfg_error) | Accepted (a : A).
Arguments Panics {A}.
Arguments Refused {A} e.
Arguments Accepted {A} a.

(** The first error of a sequence of checks. *)
Fixpoint first_error (l : list (option cfg_error)) : option cfg_error :=
  match l with
  | [] => None
  | Some e :: _ => Some e
  | None :: l => first_error l
  end.

Definition refuse (b : bool) (e : cfg_error) : option cfg_error := if b then Some e else None.

Fixpoint check_all {A} (f : A → option cfg_error) (l : list A) : option cfg_error :=
  match l with
  | [] => None
  | x :: l => match f x with Some e => Some e | None => check_all f l end
  end.

(** ** Engine blocks ([resolve], [resolveEngines]) *)

Section resolve.
Context (engineParsers : gmap string (Node → string + EngineConn)).

Definition resolve (role name : string) (e : Endpoint) : cfg_error + Endpoint :=
  if decide (ep_Engine e = "") then inl (EngineRequired role name)
  else
    match engineParsers !! ep_Engine e with
    | None => inl (UnknownEngine role name (ep_Engine e))
    | Some parser =>
        match ep_Blocks e !! ep_Engine e with
        | None => inl (MissingBlock role name (ep_Engine e))
        | Some block =>
            match filter (λ k, k ≠ ep_Engine e) (elements (dom (ep_Blocks e))) with
            | k :: _ => inl (UnexpectedKey role name k)
            | [] =>
                match parser block with
                | inl msg => inl (BlockError role name msg)
                | inr conn =>
                    match ec_Validate conn role name with
                    | Some msg => inl (BlockInvalid msg)
                    | None => inr (mkEndpoint (ep_Engine e) (ep_NodeID e) (ep_Blocks e) (Some conn))
                    end
                end
            end
        end
    end.

(** The loop over the endpoints of one map. *)
Fixpoint resolve_loop (role : string) (l : list (string * option Endpoint)) (m : gmap string Endpoint)
    : outcome (gmap string Endpoint) :=
  match l with
  | [] => Accepted m
  | (name, None) :: _ => Panics
  | (name, Some e) :: l =>
      match resolve role name e with
      | inl err => Refused err
      | inr e' => resolve_loop role l (<[name := e']> m)
      end
  end.

Definition resolve_map (role : string) (m : gmap string (option Endpoint)) : outcome (gmap string Endpoint) :=
  resolve_loop role (map_to_list m) ∅.

Definition resolveEngines (c : Draft) : outcome Config :=
  match resolve_map "source" (cf_Sources c) with
  | Panics => Panics
  | Refused e => Refused e
  | Accepted sources =>
      match resolve_map "target" (cf_Targets c) with
      | Panics => Panics
      | Refused e => Refused e
      | Accepted targets =>
          match resolve_map "node" (Some <$> cf_Nodes c) with
          | Panics => Panics
          | Refused e => Refused e
          | Accepted nodes =>
              let with_store ss :=
                mkConfig (cf_LogLevel c) (cf_LogFormat c) (cf_StallTimeout c) ss sources targets
                  (cf_Syncs c) nodes (cf_Clusters c) in
              match cf_StateStore c with
              | None => Accepted (with_store None)
              | Some ss =>
                  match resolve "state_store" "state_store" ss with
                  | inl e => Refused e
                  | inr ss' => Accepted (with_store (Some ss'))
                  end
              end
          end
      end
  end.
End resolve.

(** ** Connection identity *)

Definition connIdentity (ep : option Endpoint) : string :=
  match ep with
  | None => ""
  | Some e =>
      match ep_Conn e with
      | None => ""
      | Some conn =>
          let cc := ec_ConnConfig conn in
          ep_Engine e +:+ "://" +:+ cn_Host cc +:+ ":" +:+ Text.fmt_int (cn_Port cc) +:+ "/" +:+ cn_Database cc
      end
  end.

Definition clusterMemberIdentities (c : Config) : gset string :=
  list_to_set (filter (λ id, id ≠ "")
    (mjoin ((λ cl, (λ m, connIdentity (cf_Nodes c !! m)) <$> cl_Members cl) <$> cf_Clusters c))).

(** ** Replication cycles ([detectSyncCycles]) *)

Definition succs (adj : gmap string (gset string)) (n : string) : gset string := default ∅ (adj !! n).

Definition addNode (adj : gmap string (gset string)) (id : string) : gmap string (gset string) :=
  match adj !! id with Some _ => adj | None => <[id := ∅]> adj end.

Definition add_sync (c : Config) (adj : gmap string (gset string)) (s : Sync) : gmap string (gset string) :=
  let from := connIdentity (cf_Sources c !! sy_Source s) in
  foldl (λ adj ref,
           let to := connIdentity (cf_Targets c !! ref) in
           let adj := addNode adj to in
           <[from := {[to]} ∪ succs adj from]> adj)
    (addNode adj from) (sy_Targets s).

Definition sync_graph (c : Config) : gmap string (gset string) := foldl (add_sync c) ∅ (cf_Syncs c).

Inductive colour := white | gray | black.

#[global] Instance colour_eq_dec : EqDecision colour.
Proof. solve_decision. Defined.

Record dfs_state := mkDfs { d_color : gmap string colour; d_stack : list string; d_cycle : list string }.

Definition color_of (st : dfs_state) (n : string) : colour := default white (d_color st !! n).

(** Where the cycle starts on the stack. *)
Definition start_of (m : string) (stack : list string) : nat :=
  if decide (m ∈ stack) then pos m stack else 0.

Section dfs.
(** The order in which the successors of a node are visited. *)
Context (order : string → gset string → list string).
Context (adj : gmap string (gset string)).

(** The loop over the successors, given the search. *)
Fixpoint visit (search : string → dfs_state → option (bool * dfs_state)) (ms : list string) (st : dfs_state)
    : option (bool * dfs_state) :=
  match ms with
  | [] => Some (false, st)
  | m :: ms =>
      match color_of st m with
      | gray => Some (true, mkDfs (d_color st) (d_stack st) (drop (start_of m (d_stack st)) (d_stack st) ++ [m]))
      | white =>
          match search m st with
          | Some (false, st') => visit search ms st'
          | r => r
          end
      | black => visit search ms st
      end
  end.

(** The search from [n]; every nested call has one white node less. *)
Fixpoint dfs (fuel : nat) (n : string) (st : dfs_state) : option (bool * dfs_state) :=
  match fuel with
  | 0 => None
  | S fuel =>
      match visit (dfs fuel) (order n (succs adj n))
              (mkDfs (<[n := gray]> (d_color st)) (d_stack st ++ [n]) (d_cycle st)) with
      | Some (false, st') =>
          Some (false, mkDfs (<[n := black]> (d_color st'))
                         (take (length (d_stack st') - 1) (d_stack st')) (d_cycle st'))
      | r => r
      end
  end.

(** The loop over all nodes. *)
Fixpoint dfs_nodes (fuel : nat) (ns : list string) (st : dfs_state) : option (option (list string)) :=
  match ns with
  | [] => Some None
  | n :: ns =>
      if decide (color_of st n = white) then
        match dfs fuel n st with
        | None => None
        | Some (true, st') => Some (Some (d_cycle st'))
        | Some (false, st') => dfs_nodes fuel ns st'
        end
      else dfs_nodes fuel ns st
  end.
End dfs.

(** [detectSyncCycles]; [None] only without fuel. *)
Definition detectSyncCycles (order : string → gset string → list string) (nodes : gset string → list string)
    (c : Config) : option (option cfg_error) :=
  let adj := sync_graph c in
  match dfs_nodes order adj (S (size adj)) (nodes (dom adj)) (mkDfs ∅ [] []) with
  | None => None
  | Some None => Some None
  | Some (Some cycle) => Some (Some (ReplicationCycle cycle))
  end.
(** ** Validation *)

(** The checks on the tuning, shared by syncs and clusters. *)
Definition check_tuning (name : string) (t : Tuning) : option cfg_error :=
  first_error
    [refuse (bool_decide (tn_MaxSourceConns t ≤ 0)%Z || bool_decide (tn_MaxTargetConns t ≤ 0)%Z) (PoolLimits name);
     refuse (bool_decide (tn_DrainInterval t ≤ 0)%Z) (DrainIntervalNotPositive name);
     refuse (bool_decide (tn_DrainBatch t ≤ 0)%Z) (DrainBatchNotPositive name);
     refuse (bool_decide (tn_ApplyConcurrency t < 1)%Z) (ConcurrencyTooSmall name)].

Definition check_target (c : Config) (s : Sync) (src : Endpoint) (ref : string) : option cfg_error :=
  match cf_Targets c !! ref with
  | None => Some (TargetUndefined (sy_Name s) ref)
  | Some tgt => refuse (bool_decide (ep_Engine tgt ≠ ep_Engine src)) (SyncCrossEngine (sy_Name s) ref)
  end.

Definition check_sequences (c : Config) (s : Sync) : option cfg_error :=
  if SyncsSequences s then
    check_all (λ ref, let id := connIdentity (cf_Targets c !! ref) in
                      refuse (bool_decide (id ≠ "" ∧ id ∈ clusterMemberIdentities c)) (SequencesOnMember (sy_Name s) ref))
      (sy_Targets s)
  else None.

(** One sync, after the check of its name. *)
Definition check_sync (c : Config) (s : Sync) : option cfg_error :=
  if decide (sy_Source s = "") then Some (SourceRequired (sy_Name s))
  else
    match cf_Sources c !! sy_Source s with
    | None => Some (SourceUndefined (sy_Name s) (sy_Source s))
    | Some src =>
        first_error
          [refuse (bool_decide (sy_Targets s = [])) (TargetRequired (sy_Name s));
           check_all (check_target c s src) (sy_Targets s);
           check_tuning (sy_Name s) (sy_Tuning s);
           check_sequences c s]
    end.

(** The loop over the syncs: [i] is the index, [seen] the names so far. *)
Fixpoint check_syncs (c : Config) (i : nat) (seen : gset string) (l : list Sync) : cfg_error + gset string :=
  match l with
  | [] => inr seen
  | s :: l =>
      if decide (sy_Name s = "") then inl (SyncNameRequired i)
      else if decide (sy_Name s ∈ seen) then inl (DuplicateSync (sy_Name s))
      else
        match check_sync c s with
        | Some e => inl e
        | None => check_syncs c (S i) ({[sy_Name s]} ∪ seen) l
        end
  end.

(** The loop over a cluster's members. *)
Fixpoint check_members (c : Config) (cl : Cluster) (names ids : gset string) (l : list string) : option cfg_error :=
  match l with
  | [] => None
  | ref :: l =>
      if decide (ref ∈ names) then Some (DuplicateMember (cl_Name cl) ref)
      else
        match cf_Nodes c !! ref with
        | None => Some (MemberUndefined (cl_Name cl) ref)
        | Some node =>
            if decide (ep_Engine node ≠ cl_Engine cl) then Some (ClusterCrossEngine (cl_Name cl) ref)
            else if decide (ep_NodeID node ∈ ids) then Some (DuplicateNodeID (cl_Name cl) (ep_NodeID node))
            else check_members c cl ({[ref]} ∪ names) ({[ep_NodeID node]} ∪ ids) l
        end
  end.

(** [validateCluster], after the check of its name; [clusterEngineUnsupported] is empty. *)
Definition check_cluster (c : Config) (cl : Cluster) : option cfg_error :=
  first_error
    [refuse (bool_decide (cl_Engine cl = "")) (ClusterEngineRequired (cl_Name cl));
     refuse (bool_decide (cl_Topology cl ≠ topologyMesh)) (TopologyUnsupported (cl_Name cl) (cl_Topology cl));
     refuse (bool_decide (length (cl_Members cl) < 2)) (TooFewMembers (cl_Name cl));
     check_members c cl ∅ ∅ (cl_Members cl);
     check_tuning (cl_Name cl) (cl_Tuning cl)].

Fixpoint check_clusters (c : Config) (i : nat) (seen : gset string) (l : list Cluster) : option cfg_error :=
  match l with
  | [] => None
  | cl :: l =>
      if decide (cl_Name cl = "") then Some (ClusterNameRequired i)
      else if decide (cl_Name cl ∈ seen) then Some (DuplicateName (cl_Name cl))
      else
        match check_cluster c cl with
        | Some e => Some e
        | None => check_clusters c (S i) ({[cl_Name cl]} ∪ seen) l
        end
  end.

Section validate.
Context (order : string → gset string → list string) (nodes : gset string → list string).

(** [Validate]; the outer [None] only without fuel. *)
Definition Validate (c : Config) : option (option cfg_error) :=
  if decide (cf_Syncs c = [] ∧ cf_Clusters c = []) then Some (Some NothingDefined)
  else
    match ss ← cf_StateStore c; (if decide (ep_Engine ss ≠ "postgres") then Some ss else None) with
    | Some ss => Some (Some (StateStoreEngine (ep_Engine ss)))
    | None =>
        match check_syncs c 0 ∅ (cf_Syncs c) with
        | inl e => Some (Some e)
        | inr seen =>
            match check_clusters c 0 seen (cf_Clusters c) with
            | Some e => Some (Some e)
            | None => detectSyncCycles order nodes c
            end
        end
    end.

(** [Load], from the decoded document on. *)
Definition Load (engineParsers : gmap string (Node → string + EngineConn)) (doc : Document)
    : option (outcome Config) :=
  match applyDefaults doc with
  | None => Some Panics
  | Some draft =>
      match resolveEngines engineParsers draft with
      | Panics => Some Panics
      | Refused e => Some (Refused e)
      | Accepted c =>
          match Validate c with
          | None => None
          | Some (Some e) => Some (Refused e)
          | Some None => Some (Accepted c)
          end
      end
  end.
End validate.

(** ** The search finds a cycle exactly when there is one *)

(** Consecutive elements are joined by [R]. *)
Definition chain {A} (R : relation A) (l : list A) : Prop :=
  ∀ i a b, l !! i = Some a → l !! S i = Some b → R a b.

Lemma chain_snoc {A} (R : relation A) (l : list A) (x : A) :
  chain R l → (∀ y, last l = Some y → R y x) → chain R (l ++ [x]).
Proof.
  intros Hc Hl i a b Ha Hb. destruct (decide (S i < length l)) as [Hlt|Hge].
  - rewrite lookup_app_l in Ha, Hb by lia. by apply (Hc i).
  - apply lookup_lt_Some in Hb as Hlen. rewrite length_app in Hlen. simpl in Hlen.
    assert (S i = length l) as Hi by lia. rewrite lookup_app_r, Hi, Nat.sub_diag in Hb by lia. injection Hb as <-.
    rewrite lookup_app_l in Ha by lia. apply Hl. rewrite last_lookup, <-Hi. done.
Qed.

Lemma chain_drop {A} (R : relation A) (l : list A) (k : nat) : chain R l → chain R (drop k l).
Proof. intros Hc i a b. rewrite !lookup_drop, Nat.add_succ_r. apply Hc. Qed.

Lemma chain_app_l {A} (R : relation A) (l k : list A) : chain R (l ++ k) → chain R l.
Proof.
  intros Hc i a b Ha Hb. apply (Hc i); by apply lookup_app_l_Some.
Qed.

(** A closed walk, as the search reports it. *)
Definition closed_walk {A} (R : relation A) (l : list A) : Prop := chain R l ∧ ∃ x m, l = x :: m ++ [x].

Lemma chain_tc {A} (R : relation A) (x y : A) (m : list A) : chain R (x :: m ++ [y]) → tc R x y.
Proof.
  revert x. induction m as [|z m IH]; intros x Hc.
  - apply tc_once. by apply (Hc 0).
  - apply (tc_l _ _ z); [by apply (Hc 0)|]. apply IH. apply (chain_drop _ _ 1 Hc).
Qed.

Lemma closed_walk_tc {A} (R : relation A) (l : list A) : closed_walk R l → ∃ x, tc R x x.
Proof. intros [Hc (x & m & ->)]. exists x. by apply (chain_tc _ _ _ m). Qed.

Section search.
Context (order : string → gset string → list string) (adj : gmap string (gset string)).
Context (Horder : ∀ n X, order n X ≡ₚ elements X).

Definition edge (n m : string) : Prop := m ∈ succs adj n.

Context (Hclosed : ∀ n m, edge n m → m ∈ dom adj).

Record dfs_inv (st : dfs_state) : Prop := {
  di_gray n : color_of st n = gray ↔ n ∈ d_stack st;
  di_nodup : NoDup (d_stack st);
  di_chain : chain edge (d_stack st);
  di_black n m : color_of st n = black → edge n m → color_of st m = black;
  di_acyclic n : color_of st n = black → ¬ tc edge n n
}.

Definition whites (st : dfs_state) : gset string := filter (λ n, color_of st n = white) (dom adj).

(** What a finished search keeps. *)
Definition keeps (st st' : dfs_state) : Prop :=
  d_stack st' = d_stack st ∧ (∀ n, color_of st n = black → color_of st' n = black) ∧ whites st' ⊆ whites st.

Lemma color_insert (st : dfs_state) (n m : string) (c : colour) (s cy : list string) :
  color_of (mkDfs (<[n := c]> (d_color st)) s cy) m = if decide (n = m) then c else color_of st m.
Proof.
  unfold color_of. simpl. case_decide as Hd; [subst; by rewrite lookup_insert_eq|].
  by rewrite lookup_insert_ne.
Qed.

Lemma keeps_trans (a b c : dfs_state) : keeps a b → keeps b c → keeps a c.
Proof. intros (? & ? & ?) (? & ? & ?). split_and!; [congruence|by auto|]. by transitivity (whites b). Qed.

(** A path from a black node stays black. *)
Lemma black_tc (st : dfs_state) (x y : string) :
  dfs_inv st → color_of st x = black → tc edge x y → color_of st y = black.
Proof. intros Hi Hx Ht. induction Ht as [x y He|x y z He Ht IH]; [|apply IH]; by apply (di_black st Hi x). Qed.

(** Painting a white node gray. *)
Lemma dfs_inv_gray (st : dfs_state) (n : string) :
  dfs_inv st → color_of st n = white → chain edge (d_stack st ++ [n]) →
  dfs_inv (mkDfs (<[n := gray]> (d_color st)) (d_stack st ++ [n]) (d_cycle st)).
Proof.
  intros Hi Hw Hc. assert (n ∉ d_stack st) as Hns.
  { intros Hin%(di_gray st Hi). congruence. }
  split; simpl.
  - intros m. rewrite color_insert, elem_of_app, list_elem_of_singleton, <-(di_gray st Hi).
    case_decide; [subst; naive_solver|naive_solver].
  - apply NoDup_app. split_and!; [apply (di_nodup st Hi)| |apply NoDup_singleton].
    intros x Hx ->%list_elem_of_singleton. done.
  - done.
  - intros x m. rewrite !color_insert. case_decide as Hx; [done|]. intros Hb He.
    pose proof (di_black st Hi x m Hb He) as Hm. case_decide; [subst; congruence|done].
  - intros x. rewrite color_insert. case_decide; [done|]. apply (di_acyclic st Hi).
Qed.

Lemma whites_gray (st : dfs_state) (n : string) (s cy : list string) :
  color_of st n = white → n ∈ dom adj →
  size (whites (mkDfs (<[n := gray]> (d_color st)) s cy)) < size (whites st).
Proof.
  intros Hw Hn. apply subset_size. split.
  - intros m. unfold whites. rewrite !elem_of_filter, color_insert. case_decide; naive_solver.
  - intros Hsub. assert (n ∈ whites st) as Hin by (unfold whites; by apply elem_of_filter).
    apply Hsub in Hin. unfold whites in Hin. apply elem_of_filter in Hin as [Hin _].
    rewrite color_insert, decide_True in Hin; done.
Qed.

(** Painting the top of the stack black once all its successors are. *)
Lemma dfs_inv_black (st : dfs_state) (s : list string) (n : string) :
  dfs_inv st → d_stack st = s ++ [n] → (∀ m, edge n m → color_of st m = black) →
  dfs_inv (mkDfs (<[n := black]> (d_color st)) s (d_cycle st)).
Proof.
  intros Hi Hs Hsucc.
  assert (color_of st n = gray) as Hg by (apply (di_gray st Hi); rewrite Hs, elem_of_app; right; by left).
  pose proof (di_nodup st Hi) as Hnd. rewrite Hs in Hnd. apply NoDup_app in Hnd as (Hnd & Hd & _).
  assert (n ∉ s) as Hns by (intros Hin; apply (Hd n Hin); by left).
  split; simpl.
  - intros m. rewrite color_insert. pose proof (di_gray st Hi m) as Hm.
    rewrite Hs, elem_of_app, list_elem_of_singleton in Hm. case_decide; [subst; naive_solver|].
    rewrite Hm. naive_solver.
  - done.
  - apply (chain_app_l _ s [n]). rewrite <-Hs. apply (di_chain st Hi).
  - intros x m. rewrite !color_insert. intros Hx He. destruct (decide (n = m)); [done|].
    destruct (decide (n = x)) as [->|]; [by apply Hsucc|by apply (di_black st Hi x)].
  - intros x. rewrite color_insert. case_decide as Hx; [|apply (di_acyclic st Hi)]. intros _ Ht. subst x.
    assert (color_of st n = black); [|congruence].
    inversion Ht as [? ? He|? y ? He Hy]; subst; [by apply Hsucc|].
    apply (black_tc st y); [done|by apply Hsucc|done].
Qed.

Definition search_post (st : dfs_state) (done_ : dfs_state → Prop) (r : option (bool * dfs_state)) : Prop :=
  match r with
  | None => False
  | Some (true, st') => closed_walk edge (d_cycle st')
  | Some (false, st') => dfs_inv st' ∧ keeps st st' ∧ done_ st'
  end.

(** A gray successor closes a cycle on the stack. *)
Lemma gray_cycle (st : dfs_state) (s : list string) (n m : string) :
  dfs_inv st → d_stack st = s ++ [n] → edge n m → color_of st m = gray →
  closed_walk edge (drop (start_of m (d_stack st)) (d_stack st) ++ [m]).
Proof.
  intros Hi Hs He Hg. apply (di_gray st Hi) in Hg. unfold start_of. rewrite decide_True by done.
  apply list_elem_of_split in Hg as (l1 & l2 & Hl).
  assert (m ∉ l1) as Hl1.
  { pose proof (di_nodup st Hi) as Hnd. rewrite Hl in Hnd. apply NoDup_app in Hnd as (_ & Hd & _).
    intros Hin. apply (Hd m Hin). by left. }
  rewrite Hl, pos_app_here, drop_app_length by done. split; [|by exists m, l2].
  pose proof (chain_drop _ _ (length l1) (di_chain st Hi)) as Hc. rewrite Hl, drop_app_length in Hc.
  apply chain_snoc; [done|]. intros y Hy.
  assert (last (d_stack st) = Some y) as Hlast.
  { rewrite Hl, last_app_cons. done. }
  rewrite Hs, last_snoc in Hlast. by injection Hlast as <-.
Qed.

Lemma visit_spec (search : string → dfs_state → option (bool * dfs_state)) (fuel : nat) (s : list string)
    (n : string) (ms : list string) (st : dfs_state) :
  (∀ m st, dfs_inv st → m ∈ dom adj → color_of st m = white → chain edge (d_stack st ++ [m]) →
     size (whites st) ≤ fuel → search_post st (λ st', color_of st' m = black) (search m st)) →
  dfs_inv st → d_stack st = s ++ [n] → (∀ m, m ∈ ms → edge n m) → size (whites st) ≤ fuel →
  search_post st (λ st', ∀ m, m ∈ ms → color_of st' m = black) (visit search ms st).
Proof.
  intros Hsearch. revert st. induction ms as [|m ms IH]; intros st Hi Hs Hms Hf; simpl.
  { split_and!; [done|by split_and!|by intros ? ?%elem_of_nil]. }
  assert (edge n m) as He by (apply Hms; by left).
  assert (∀ m, m ∈ ms → edge n m) as Hms' by (intros; apply Hms; by right).
  assert (∀ st', dfs_inv st' → keeps st st' → color_of st' m = black →
            search_post st (λ st', ∀ m', m' ∈ m :: ms → color_of st' m' = black) (visit search ms st')) as Hrest.
  { intros st' Hi' Hk Hb. assert (size (whites st') ≤ fuel).
    { transitivity (size (whites st)); [|done]. apply subseteq_size, Hk. }
    specialize (IH st' Hi' ltac:(by rewrite (proj1 Hk)) Hms' ltac:(done)). unfold search_post in *.
    destruct (visit search ms st') as [[[] st'']|]; [done| |done]. destruct IH as (? & Hk' & Hbs).
    split_and!; [done|by apply (keeps_trans st st')|]. intros m' [->|Hm']%elem_of_cons; [|by apply Hbs].
    apply Hk', Hb. }
  destruct (color_of st m) eqn:Hm.
  - specialize (Hsearch m st Hi (Hclosed n m He) Hm).
    destruct (search m st) as [[[] st']|] eqn:Hsm.
    + apply Hsearch; [|done]. apply chain_snoc; [apply (di_chain st Hi)|]. rewrite Hs, last_snoc. by intros y [= <-].
    + destruct Hsearch as (Hi' & Hk & Hb); [|done|].
      { apply chain_snoc; [apply (di_chain st Hi)|]. rewrite Hs, last_snoc. by intros y [= <-]. }
      by apply Hrest.
    + apply Hsearch; [|done]. apply chain_snoc; [apply (di_chain st Hi)|]. rewrite Hs, last_snoc. by intros y [= <-].
  - by apply (gray_cycle st s n m).
  - apply Hrest; [done| |done]. by split_and!.
Qed.

Lemma dfs_spec (fuel : nat) (n : string) (st : dfs_state) :
  dfs_inv st → n ∈ dom adj → color_of st n = white → chain edge (d_stack st ++ [n]) →
  size (whites st) ≤ fuel → search_post st (λ st', color_of st' n = black) (dfs order adj fuel n st).
Proof.
  revert n st. induction fuel as [|fuel IH]; intros n st Hi Hn Hw Hc Hf.
  { exfalso. assert (n ∈ whites st) as Hin by (unfold whites; by apply elem_of_filter).
    assert (size (whites st) = 0) as H0%size_empty_inv by lia. set_solver. }
  cbn [dfs]. set (st1 := mkDfs _ _ _).
  assert (search_post st1 (λ st', ∀ m, m ∈ order n (succs adj n) → color_of st' m = black)
            (visit (dfs order adj fuel) (order n (succs adj n)) st1)) as Hv.
  { apply (visit_spec _ fuel (d_stack st) n); [by intros; apply IH|by apply dfs_inv_gray|done| |].
    - intros m. rewrite Horder, elem_of_elements. done.
    - pose proof (whites_gray st n (d_stack st ++ [n]) (d_cycle st) Hw Hn). fold st1 in H. lia. }
  unfold search_post in *. destruct (visit _ _ st1) as [[[] st']|]; [done| |done].
  destruct Hv as (Hi' & (Hs & Hb & Hwh) & Hbl).
  assert (take (length (d_stack st') - 1) (d_stack st') = d_stack st) as Htake.
  { rewrite Hs. simpl. rewrite length_app. simpl. by rewrite Nat.add_sub, take_app_length. }
  rewrite Htake. split_and!.
  - apply dfs_inv_black; [done|done|]. intros m Hm. apply Hbl. rewrite Horder, elem_of_elements. done.
  - split_and!; [done|..].
    + intros x Hx. rewrite color_insert. case_decide as Heq; [done|]. apply Hb. unfold st1. rewrite color_insert.
      by rewrite decide_False.
    + intros m Hm. unfold whites in *. rewrite elem_of_filter, color_insert in Hm. destruct Hm as [Hm Hd].
      case_decide as Heq; [done|]. assert (m ∈ whites st1) as Hm1.
      { apply Hwh. by apply elem_of_filter. }
      unfold whites in Hm1. rewrite elem_of_filter in Hm1. unfold st1 in Hm1. rewrite color_insert, decide_False in Hm1 by done.
      by apply elem_of_filter.
  - rewrite color_insert. by rewrite decide_True.
Qed.

Lemma dfs_nodes_spec (fuel : nat) (ns : list string) (st : dfs_state) :
  dfs_inv st → d_stack st = [] → (∀ n, n ∈ ns → n ∈ dom adj) → size (whites st) ≤ fuel →
  match dfs_nodes order adj fuel ns st with
  | None => False
  | Some (Some cycle) => closed_walk edge cycle
  | Some None => ∃ st', dfs_inv st' ∧ (∀ n, color_of st n = black ∨ n ∈ ns → color_of st' n = black)
  end.
Proof.
  revert st. induction ns as [|n ns IH]; intros st Hi Hs Hns Hf; simpl.
  { exists st. split; [done|]. intros n [?|?%elem_of_nil]; done. }
  assert (∀ n, n ∈ ns → n ∈ dom adj) as Hns' by (intros; apply Hns; by right).
  case_decide as Hw.
  - pose proof (dfs_spec fuel n st Hi (Hns n ltac:(by left)) Hw) as Hd. rewrite Hs in Hd. simpl in Hd.
    specialize (Hd ltac:(intros [|?] a b ? [=]) Hf). unfold search_post in Hd.
    destruct (dfs order adj fuel n st) as [[[] st']|]; [done| |done]. destruct Hd as (Hi' & (Hs' & Hb & Hwh) & Hn).
    specialize (IH st' Hi' ltac:(congruence) Hns'). destruct (dfs_nodes order adj fuel ns st') as [[cycle|]|].
    + apply IH. transitivity (size (whites st)); [by apply subseteq_size|done].
    + destruct IH as (st2 & Hi2 & Hb2). { transitivity (size (whites st)); [by apply subseteq_size|done]. }
      exists st2. split; [done|]. intros m Hm. apply Hb2. rewrite elem_of_cons in Hm. naive_solver.
    + apply IH. transitivity (size (whites st)); [by apply subseteq_size|done].
  - specialize (IH st Hi Hs Hns' Hf). destruct (dfs_nodes order adj fuel ns st) as [[cycle|]|]; [done| |done].
    destruct IH as (st2 & Hi2 & Hb2). exists st2. split; [done|]. intros m Hm. apply Hb2.
    rewrite elem_of_cons in Hm. destruct Hm as [?|[->|?]]; [by left| |by right]. left.
    destruct (color_of st n) eqn:E; [done| |done]. apply (di_gray st Hi) in E. rewrite Hs in E. by apply elem_of_nil in E.
Qed.
End search.

(** ** The graph of the syncs *)

(** A sync replicates database [a] to database [b]. *)
Definition replicates (c : Config) (a b : string) : Prop :=
  ∃ s ref, s ∈ cf_Syncs c ∧ ref ∈ sy_Targets s ∧
    a = connIdentity (cf_Sources c !! sy_Source s) ∧ b = connIdentity (cf_Targets c !! ref).

Lemma succs_addNode (adj : gmap string (gset string)) (id n : string) : succs (addNode adj id) n = succs adj n.
Proof.
  unfold succs, addNode. destruct (adj !! id) as [X|] eqn:E; [done|].
  destruct (decide (id = n)) as [->|]; [by rewrite lookup_insert_eq, E|by rewrite lookup_insert_ne].
Qed.

Lemma dom_addNode (adj : gmap string (gset string)) (id : string) : dom (addNode adj id) = {[id]} ∪ dom adj.
Proof.
  unfold addNode. destruct (adj !! id) as [X|] eqn:E; [|by rewrite dom_insert_L].
  apply (elem_of_dom_2 (D := gset string)) in E. set_solver.
Qed.

(** The targets of one sync. *)
Lemma add_targets (c : Config) (from : string) (refs : list string) (adj : gmap string (gset string)) :
  from ∈ dom adj →
  let g := foldl (λ adj ref,
             let to := connIdentity (cf_Targets c !! ref) in
             let adj := addNode adj to in <[from := {[to]} ∪ succs adj from]> adj) adj refs in
  (∀ x y, y ∈ succs g x ↔ y ∈ succs adj x ∨ (x = from ∧ ∃ ref, ref ∈ refs ∧ y = connIdentity (cf_Targets c !! ref))) ∧
  (∀ x, x ∈ dom g ↔ x ∈ dom adj ∨ ∃ ref, ref ∈ refs ∧ x = connIdentity (cf_Targets c !! ref)).
Proof.
  revert adj. induction refs as [|ref refs IH]; intros adj Hfrom; simpl.
  { split; intros; set_solver. }
  set (to := connIdentity (cf_Targets c !! ref)).
  set (adj1 := <[from := {[to]} ∪ succs (addNode adj to) from]> (addNode adj to)).
  assert (∀ x y, y ∈ succs adj1 x ↔ y ∈ succs adj x ∨ (x = from ∧ y = to)) as Hs.
  { intros x y. unfold adj1. rewrite succs_addNode. unfold succs at 1.
    destruct (decide (from = x)) as [->|Hne].
    - rewrite lookup_insert_eq. simpl. set_solver.
    - rewrite lookup_insert_ne by done. fold (succs (addNode adj to) x). rewrite succs_addNode. naive_solver. }
  assert (∀ x, x ∈ dom adj1 ↔ x ∈ dom adj ∨ x = to) as Hd.
  { intros x. unfold adj1. rewrite dom_insert_L, dom_addNode. set_solver. }
  destruct (IH adj1) as [H1 H2]; [apply Hd; by left|]. split.
  - intros x y. rewrite H1, Hs. setoid_rewrite elem_of_cons. naive_solver.
  - intros x. rewrite H2, Hd. setoid_rewrite elem_of_cons. naive_solver.
Qed.

Lemma sync_graph_spec (c : Config) :
  (∀ x y, y ∈ succs (sync_graph c) x ↔ replicates c x y) ∧
  (∀ x y, y ∈ succs (sync_graph c) x → y ∈ dom (sync_graph c)) ∧
  (∀ x, is_Some (sync_graph c !! x) ∨ succs (sync_graph c) x = ∅).
Proof.
  assert (∀ l adj, (∀ x y, y ∈ succs adj x → y ∈ dom adj) →
    let g := foldl (add_sync c) adj l in
    (∀ x y, y ∈ succs g x ↔ y ∈ succs adj x ∨ ∃ s ref, s ∈ l ∧ ref ∈ sy_Targets s ∧
       x = connIdentity (cf_Sources c !! sy_Source s) ∧ y = connIdentity (cf_Targets c !! ref)) ∧
    (∀ x y, y ∈ succs g x → y ∈ dom g)) as Hfold.
  { induction l as [|s l IH]; intros adj Hcl; simpl.
    { split; [|done]. intros x y. split; [by left|]. intros [?|(s & ? & Hs & _)]; [done|]. by apply elem_of_nil in Hs. }
    destruct (add_targets c (connIdentity (cf_Sources c !! sy_Source s)) (sy_Targets s)
                (addNode adj (connIdentity (cf_Sources c !! sy_Source s)))) as [Ht Hd].
    { rewrite dom_addNode. set_solver. }
    fold (add_sync c adj s) in Ht, Hd. destruct (IH (add_sync c adj s)) as [H1 H2].
    { intros x y. rewrite Ht, Hd, succs_addNode, dom_addNode. intros [Hy|[_ Hy]]; [|by right].
      left. apply elem_of_union. right. by apply (Hcl x). }
    split; [|done]. intros x y. rewrite H1, Ht, succs_addNode. setoid_rewrite elem_of_cons. naive_solver. }
  destruct (Hfold (cf_Syncs c) ∅) as [H1 H2].
  { intros x y. unfold succs. rewrite lookup_empty. set_solver. }
  split_and!; [|done|].
  - intros x y. fold (sync_graph c) in H1. rewrite H1. unfold succs at 1. rewrite lookup_empty. unfold replicates.
    set_solver.
  - intros x. unfold succs. destruct (sync_graph c !! x); [by left; eexists|by right].
Qed.

(** *** [detectSyncCycles] *)

Lemma dfs_inv_start (adj : gmap string (gset string)) : dfs_inv adj (mkDfs ∅ [] []).
Proof.
  split; simpl; try done; [|constructor]. intros n. unfold color_of. simpl. rewrite lookup_empty, elem_of_nil. done.
Qed.

Lemma whites_start (adj : gmap string (gset string)) (st : dfs_state) : size (whites adj st) ≤ S (size adj).
Proof.
  rewrite <-(size_dom (D := gset string)). transitivity (size (dom adj)); [|lia].
  apply subseteq_size. unfold whites. set_solver.
Qed.

Lemma detectSyncCycles_spec (order : string → gset string → list string) (nodes : gset string → list string)
    (c : Config) :
  (∀ n X, order n X ≡ₚ elements X) → (∀ X, nodes X ≡ₚ elements X) →
  ∃ r, detectSyncCycles order nodes c = Some r ∧
    (r = None ↔ ¬ ∃ x, tc (replicates c) x x) ∧
    (∀ e, r = Some e → ∃ cycle, e = ReplicationCycle cycle ∧ closed_walk (replicates c) cycle).
Proof.
  intros Ho Hn. destruct (sync_graph_spec c) as (He & Hcl & Hdom). unfold detectSyncCycles.
  assert (∀ R S : relation string, (∀ x y, R x y ↔ S x y) → ∀ l, closed_walk R l → closed_walk S l) as Hmono.
  { intros R S HRS l [Hc Hl]. split; [|done]. intros i a b Ha Hb. apply HRS. by apply (Hc i). }
  pose proof (dfs_nodes_spec order (sync_graph c) Ho Hcl (S (size (sync_graph c))) (nodes (dom (sync_graph c)))
    (mkDfs ∅ [] []) (dfs_inv_start (sync_graph c)) eq_refl) as Hd.
  destruct (dfs_nodes order (sync_graph c) (S (size (sync_graph c))) (nodes (dom (sync_graph c))) (mkDfs ∅ [] []))
    as [[cycle|]|].
  all: specialize (Hd ltac:(intros n; by rewrite Hn, elem_of_elements) (whites_start _ _)).
  - assert (closed_walk (replicates c) cycle) as Hcw by (by apply (Hmono (edge (sync_graph c)))).
    exists (Some (ReplicationCycle cycle)). split; [done|]. split.
    + split; [done|]. intros Hno. exfalso. apply Hno. by apply (closed_walk_tc _ cycle).
    + intros e [= <-]. by exists cycle.
  - exists None. split; [done|]. split; [|done]. split; [|done]. intros _ (x & Hx).
    destruct Hd as (st & Hi & Hb).
    assert (∀ a b, tc (replicates c) a b → tc (edge (sync_graph c)) a b) as Htc.
    { induction 1 as [a b Hab|a b d Hab _ IH]; [by apply tc_once, He|apply (tc_l _ _ b); [by apply He|done]]. }
    apply Htc in Hx. apply (di_acyclic _ st Hi x); [|done]. apply Hb. right. rewrite Hn, elem_of_elements.
    inversion Hx as [? ? Hed|? y ? Hed _]; subst; destruct (Hdom x) as [?|Hemp];
      try (by apply elem_of_dom); unfold edge in Hed; rewrite Hemp in Hed; set_solver.
  - done.
Qed.

(** ** What an accepted configuration satisfies *)

Definition tuning_ok (t : Tuning) : Prop :=
  (0 < tn_MaxSourceConns t ∧ 0 < tn_MaxTargetConns t ∧ 0 < tn_DrainInterval t ∧ 0 < tn_DrainBatch t ∧
   1 ≤ tn_ApplyConcurrency t)%Z.

Record sync_ok (c : Config) (s : Sync) : Prop := {
  so_source : sy_Source s ≠ "";
  so_targets : sy_Targets s ≠ [];
  so_engine : ∃ src, cf_Sources c !! sy_Source s = Some src ∧
    ∀ ref, ref ∈ sy_Targets s → ∃ tgt, cf_Targets c !! ref = Some tgt ∧ ep_Engine tgt = ep_Engine src;
  so_tuning : tuning_ok (sy_Tuning s);
  so_sequences : SyncsSequences s = true → ∀ ref cl m,
    ref ∈ sy_Targets s → cl ∈ cf_Clusters c → m ∈ cl_Members cl →
    connIdentity (cf_Targets c !! ref) = "" ∨
    connIdentity (cf_Targets c !! ref) ≠ connIdentity (cf_Nodes c !! m)
}.

Record cluster_ok (c : Config) (cl : Cluster) : Prop := {
  co_engine : cl_Engine cl ≠ "";
  co_topology : cl_Topology cl = topologyMesh;
  co_size : 2 ≤ length (cl_Members cl);
  co_distinct : NoDup (cl_Members cl);
  co_nodes : ∃ nodes, (λ m, cf_Nodes c !! m) <$> cl_Members cl = Some <$> nodes ∧
    Forall (λ n, ep_Engine n = cl_Engine cl) nodes ∧ NoDup (ep_NodeID <$> nodes);
  co_tuning : tuning_ok (cl_Tuning cl)
}.

Record config_ok (c : Config) : Prop := {
  ok_some : cf_Syncs c ≠ [] ∨ cf_Clusters c ≠ [];
  ok_store : ∀ ss, cf_StateStore c = Some ss → ep_Engine ss = "postgres";
  ok_named : "" ∉ (sy_Name <$> cf_Syncs c) ++ (cl_Name <$> cf_Clusters c);
  ok_names : NoDup ((sy_Name <$> cf_Syncs c) ++ (cl_Name <$> cf_Clusters c));
  ok_syncs : Forall (sync_ok c) (cf_Syncs c);
  ok_clusters : Forall (cluster_ok c) (cf_Clusters c);
  ok_acyclic : ¬ ∃ x, tc (replicates c) x x
}.

Lemma first_error_None (l : list (option cfg_error)) : first_error l = None ↔ Forall (λ e, e = None) l.
Proof.
  induction l as [|[e|] l IH]; simpl; [by split|..].
  - split; [done|]. by intros [[=] _]%Forall_cons.
  - rewrite IH, Forall_cons. naive_solver.
Qed.

Lemma check_all_None {A} (f : A → option cfg_error) (l : list A) :
  check_all f l = None ↔ ∀ x, x ∈ l → f x = None.
Proof.
  induction l as [|x l IH]; simpl; [split; [|done]; by intros _ y ?%elem_of_nil|].
  setoid_rewrite elem_of_cons. destruct (f x) eqn:E; [|rewrite IH; naive_solver].
  split; [done|]. intros H. rewrite H in E by (by left). done.
Qed.

Lemma refuse_None (b : bool) (e : cfg_error) : refuse b e = None ↔ b = false.
Proof. by destruct b. Qed.

Lemma check_tuning_None (name : string) (t : Tuning) : check_tuning name t = None ↔ tuning_ok t.
Proof.
  unfold check_tuning, tuning_ok. rewrite first_error_None, !Forall_cons, !refuse_None, orb_false_iff,
    !bool_decide_eq_false. split; [intros; lia|]. intros. repeat split; try lia. apply Forall_nil_2.
Qed.

Lemma check_target_None (c : Config) (s : Sync) (src : Endpoint) (ref : string) :
  check_target c s src ref = None ↔ ∃ tgt, cf_Targets c !! ref = Some tgt ∧ ep_Engine tgt = ep_Engine src.
Proof.
  unfold check_target. destruct (cf_Targets c !! ref) as [tgt|]; [|naive_solver].
  rewrite refuse_None, bool_decide_eq_false. split.
  - intros H. exists tgt. split; [done|]. by apply dec_stable.
  - intros (tgt' & [= <-] & H) Hne. done.
Qed.

Lemma elem_of_memberIdentities (c : Config) (id : string) :
  id ∈ clusterMemberIdentities c ↔
  id ≠ "" ∧ ∃ cl m, cl ∈ cf_Clusters c ∧ m ∈ cl_Members cl ∧ id = connIdentity (cf_Nodes c !! m).
Proof.
  unfold clusterMemberIdentities. rewrite elem_of_list_to_set, list_elem_of_filter, list_elem_of_join.
  apply and_iff_compat_l. split.
  - intros (l & Hid & (cl & -> & Hcl)%list_elem_of_fmap). apply list_elem_of_fmap in Hid as (m & -> & Hm). by exists cl, m.
  - intros (cl & m & Hcl & Hm & ->). eexists. split; [|apply list_elem_of_fmap; by exists cl].
    apply list_elem_of_fmap. by exists m.
Qed.

Lemma check_sequences_None (c : Config) (s : Sync) :
  check_sequences c s = None ↔
  (SyncsSequences s = true → ∀ ref cl m, ref ∈ sy_Targets s → cl ∈ cf_Clusters c → m ∈ cl_Members cl →
     connIdentity (cf_Targets c !! ref) = "" ∨ connIdentity (cf_Targets c !! ref) ≠ connIdentity (cf_Nodes c !! m)).
Proof.
  unfold check_sequences. destruct (SyncsSequences s); [|naive_solver]. rewrite check_all_None.
  setoid_rewrite refuse_None. setoid_rewrite bool_decide_eq_false. setoid_rewrite elem_of_memberIdentities. split.
  - intros H _ ref cl m Hr Hcl Hm. destruct (decide (connIdentity (cf_Targets c !! ref) = "")); [by left|]. right.
    intros Heq. apply (H ref Hr). split_and!; [done..|]. by exists cl, m.
  - intros H ref Hr (Hne & _ & cl & m & Hcl & Hm & Heq). by destruct (H eq_refl ref cl m Hr Hcl Hm).
Qed.

Lemma check_sync_None (c : Config) (s : Sync) : check_sync c s = None ↔ sync_ok c s.
Proof.
  unfold check_sync. case_decide as Hs; [split; [done|]; by intros []|].
  destruct (cf_Sources c !! sy_Source s) as [src|] eqn:Esrc.
  2: { split; [done|]. intros [_ _ (src & E & _) _ _]. congruence. }
  rewrite first_error_None, !Forall_cons, refuse_None, bool_decide_eq_false, check_all_None,
    check_tuning_None, check_sequences_None. setoid_rewrite check_target_None. split.
  - intros (Ht & Ha & Htn & Hseq & _). split; [done|done| |done|done]. by exists src.
  - intros [_ Ht (src' & E & Ha) Htn Hseq]. rewrite Esrc in E. injection E as <-.
    split_and!; [done..|by apply Forall_nil_2].
Qed.

Lemma check_syncs_spec (c : Config) (i : nat) (seen seen' : gset string) (l : list Sync) :
  check_syncs c i seen l = inr seen' ↔
  seen' = list_to_set (sy_Name <$> l) ∪ seen ∧ ("" ∉ sy_Name <$> l) ∧ NoDup (sy_Name <$> l) ∧
  (∀ n, n ∈ sy_Name <$> l → n ∉ seen) ∧ Forall (sync_ok c) l.
Proof.
  revert i seen. induction l as [|s l IH]; intros i seen; simpl.
  { rewrite union_empty_l_L. split; [|naive_solver]. intros [= <-]. split_and!; [done|..].
    - by apply not_elem_of_nil. - constructor. - by intros n ?%elem_of_nil. - constructor. }
  rewrite NoDup_cons, Forall_cons, <-check_sync_None, not_elem_of_cons.
  case_decide as He; [split; [done|]; naive_solver|].
  case_decide as Hs; [split; [done|]; intros (_ & _ & _ & H & _); exfalso; apply (H (sy_Name s)); [by left|done]|].
  destruct (check_sync c s) as [e|]; [split; [done|]; naive_solver|]. rewrite IH.
  assert (list_to_set (sy_Name <$> l) ∪ ({[sy_Name s]} ∪ seen) =@{gset string}
          {[sy_Name s]} ∪ list_to_set (sy_Name <$> l) ∪ seen) as -> by set_solver.
  split.
  - intros (-> & H1 & H2 & H3 & H4). split_and!; [done|done|done| |done| |done|done].
    + intros Hin. apply (H3 _ Hin). set_solver.
    + intros n [->|Hn]%elem_of_cons; [done|]. intros Hsn. apply (H3 n Hn). set_solver.
  - intros (-> & [_ H1] & [H2 H2'] & H3 & _ & H4). split_and!; [done|done|done| |done].
    intros n Hn. rewrite elem_of_union, elem_of_singleton. intros [->|Hsn]; [done|].
    apply (H3 n); [by right|done].
Qed.

Lemma check_members_None (c : Config) (cl : Cluster) (names ids : gset string) (l : list string) :
  check_members c cl names ids l = None ↔
  NoDup l ∧ (∀ m, m ∈ l → m ∉ names) ∧
  ∃ nodes, (λ m, cf_Nodes c !! m) <$> l = Some <$> nodes ∧
    Forall (λ n, ep_Engine n = cl_Engine cl) nodes ∧ NoDup (ep_NodeID <$> nodes) ∧
    ∀ id, id ∈ ep_NodeID <$> nodes → id ∉ ids.
Proof.
  revert names ids. induction l as [|ref l IH]; intros names ids; simpl.
  { split; [|done]. intros _. split_and!; [constructor|by intros ? ?%elem_of_nil|]. exists [].
    split_and!; [done|constructor|constructor|by intros ? ?%elem_of_nil]. }
  rewrite NoDup_cons. case_decide as Hn.
  { split; [done|]. intros (_ & H & _). exfalso. apply (H ref); [by left|done]. }
  destruct (cf_Nodes c !! ref) as [node|] eqn:En.
  2: { split; [done|]. by intros (_ & _ & [|n nodes] & [=] & _). }
  case_decide as Heng.
  { split; [done|]. intros (_ & _ & [|n nodes] & [=] & Hf & _). apply Forall_cons in Hf as [Hf _]. congruence. }
  case_decide as Hid.
  { split; [done|]. intros (_ & _ & [|n nodes] & Heq & _ & _ & H); [done|]. injection Heq as <- _.
    exfalso. apply (H (ep_NodeID node)); [by left|done]. }
  rewrite IH. split.
  - intros (H1 & H2 & nodes & H3 & H4 & H5 & H6). split_and!; [|done| |].
    + intros Hin. apply (H2 ref Hin). set_solver.
    + intros m [->|Hm]%elem_of_cons; [done|]. intros ?. apply (H2 m Hm). set_solver.
    + exists (node :: nodes). split_and!; [rewrite fmap_cons; f_equal; exact H3|by constructor| |].
      * simpl. apply NoDup_cons. split; [|done]. intros Hin. apply (H6 _ Hin). set_solver.
      * simpl. intros id [->|Hin]%elem_of_cons; [done|]. intros ?. apply (H6 id Hin). set_solver.
  - intros ([H1 H1'] & H2 & [|n nodes] & H3 & H4 & H5 & H6); [done|]. injection H3 as <- H3.
    apply Forall_cons in H4 as [_ H4]. simpl in H5. apply NoDup_cons in H5 as [H5 H5']. split_and!; [done| |].
    + intros m Hm. rewrite elem_of_union, elem_of_singleton. intros [->|?]; [done|]. apply (H2 m); [by right|done].
    + exists nodes. split_and!; [done..|]. intros id Hin. rewrite elem_of_union, elem_of_singleton.
      intros [->|?]; [done|]. apply (H6 id); [by right|done].
Qed.

Lemma check_cluster_None (c : Config) (cl : Cluster) : check_cluster c cl = None ↔ cluster_ok c cl.
Proof.
  unfold check_cluster. rewrite first_error_None, !Forall_cons, !refuse_None, !bool_decide_eq_false,
    check_members_None, check_tuning_None. split.
  - intros (H1 & H2 & H3 & (H4 & _ & nodes & H5 & H6 & H7 & _) & H8 & _).
    split; [done|by apply dec_stable|lia|done| |done]. by exists nodes.
  - intros [H1 H2 H3 H4 (nodes & H5 & H6 & H7) H8]. split_and!; [done|by intros []|lia|done|set_solver| |done|by apply Forall_nil_2].
    exists nodes. split_and!; [done..|set_solver].
Qed.

Lemma check_clusters_None (c : Config) (i : nat) (seen : gset string) (l : list Cluster) :
  check_clusters c i seen l = None ↔
  ("" ∉ cl_Name <$> l) ∧ NoDup (cl_Name <$> l) ∧ (∀ n, n ∈ cl_Name <$> l → n ∉ seen) ∧ Forall (cluster_ok c) l.
Proof.
  revert i seen. induction l as [|cl l IH]; intros i seen; simpl.
  { split; [|done]. intros _. split_and!; [by apply not_elem_of_nil|constructor|by intros n ?%elem_of_nil|constructor]. }
  rewrite NoDup_cons, Forall_cons, <-check_cluster_None, not_elem_of_cons.
  case_decide as He; [split; [done|]; naive_solver|].
  case_decide as Hs; [split; [done|]; intros (_ & _ & H & _); exfalso; apply (H (cl_Name cl)); [by left|done]|].
  destruct (check_cluster c cl) as [e|]; [split; [done|]; naive_solver|]. rewrite IH. split.
  - intros (H1 & H2 & H3 & H4). split_and!; [done|done| |done| |done|done].
    + intros Hin. apply (H3 _ Hin). set_solver.
    + intros n [->|Hn]%elem_of_cons; [done|]. intros Hsn. apply (H3 n Hn). set_solver.
  - intros ([_ H1] & [H2 H2'] & H3 & _ & H4). split_and!; [done|done| |done].
    intros n Hn. rewrite elem_of_union, elem_of_singleton. intros [->|Hsn]; [done|].
    apply (H3 n); [by right|done].
Qed.

(** ** What the engines accept *)

(** The engine is named and registered, its block is there and no other key, the engine's
    parser reads the block, and the connection is valid. *)
Definition accepts_block (engineParsers : gmap string (Node → string + EngineConn)) (role name : string)
    (e : Endpoint) (conn : EngineConn) : Prop :=
  ep_Engine e ≠ "" ∧ ∃ parser block,
    engineParsers !! ep_Engine e = Some parser ∧ ep_Blocks e = {[ep_Engine e := block]} ∧
    parser block = inr conn ∧ ec_Validate conn role name = None.

(** [e'] is the endpoint [e] with its connection. *)
Definition resolved (engineParsers : gmap string (Node → string + EngineConn)) (role name : string) (e e' : Endpoint) : Prop :=
  ∃ conn, accepts_block engineParsers role name e conn ∧
    e' = mkEndpoint (ep_Engine e) (ep_NodeID e) (ep_Blocks e) (Some conn).

(** The entries of [m'] are those of [m], none of them nil, resolved. *)
Definition all_resolved (engineParsers : gmap string (Node → string + EngineConn)) (role : string)
    (m : gmap string (option Endpoint)) (m' : gmap string Endpoint) : Prop :=
  ∀ name, match m !! name with
          | None => m' !! name = None
          | Some None => False
          | Some (Some e) => ∃ e', m' !! name = Some e' ∧ resolved engineParsers role name e e'
          end.

(** [c] is the document with its defaults and every endpoint resolved: the sources, the
    targets, the nodes (named by their keys unless they name themselves) and the state store. *)
Record loads (engineParsers : gmap string (Node → string + EngineConn)) (doc : Document) (c : Config) : Prop := {
  ld_level : cf_LogLevel c = or_text (cf_LogLevel doc) "info";
  ld_format : cf_LogFormat c = or_text (cf_LogFormat doc) "json";
  ld_stall : cf_StallTimeout c = or_default (cf_StallTimeout doc) defaultStallTimeout;
  ld_store : match cf_StateStore doc with
             | None => cf_StateStore c = None
             | Some e => ∃ e', cf_StateStore c = Some e' ∧ resolved engineParsers "state_store" "state_store" e e'
             end;
  ld_sources : all_resolved engineParsers "source" (cf_Sources doc) (cf_Sources c);
  ld_targets : all_resolved engineParsers "target" (cf_Targets doc) (cf_Targets c);
  ld_nodes : all_resolved engineParsers "node"
    (map_imap (λ name o, Some (node_defaults name <$> o)) (cf_Nodes doc)) (cf_Nodes c);
  ld_syncs : ∃ l, cf_Syncs doc = Some <$> l ∧ cf_Syncs c = sync_defaults <$> l;
  ld_clusters : ∃ l, cf_Clusters doc = Some <$> l ∧ cf_Clusters c = cluster_defaults <$> l
}.

(** A null entry where the defaults find it, and anywhere. *)
Definition null_default (doc : Document) : Prop :=
  None ∈ cf_Syncs doc ∨ None ∈ cf_Clusters doc ∨ ∃ name, cf_Nodes doc !! name = Some None.
Definition has_null (doc : Document) : Prop :=
  null_default doc ∨ (∃ name, cf_Sources doc !! name = Some None) ∨ ∃ name, cf_Targets doc !! name = Some None.

Lemma mapM_id_Some {A} (l : list (option A)) (k : list A) : mapM id l = Some k ↔ l = Some <$> k.
Proof.
  rewrite mapM_Some. split.
  - induction 1 as [|o x l k Ho _ IH]; [done|]. unfold id in Ho. by rewrite Ho, IH.
  - intros ->. induction k as [|x k IH]; constructor; done.
Qed.

Lemma mapM_id_None {A} (l : list (option A)) : mapM id l = None ↔ None ∈ l.
Proof.
  rewrite mapM_None, Exists_exists. unfold id. split; [by intros (x & Hx & ->)|]. intros Hn. by exists None.
Qed.

Lemma present_Some {A} (m : gmap string (option A)) (m' : gmap string A) : present m = Some m' ↔ m = Some <$> m'.
Proof.
  unfold present. case_decide as Hm.
  - split.
    + intros [= <-]. apply map_eq. intros k. rewrite lookup_fmap, lookup_omap.
      destruct (m !! k) as [o|] eqn:E; [|done]. by destruct (Hm k o E) as [x ->].
    + intros ->. f_equal. apply map_eq. intros k. rewrite lookup_omap, lookup_fmap. by destruct (m' !! k).
  - split; [done|]. intros ->. exfalso. apply Hm. intros k o. rewrite lookup_fmap_Some. by intros (x & <- & _).
Qed.

Lemma present_None {A} (m : gmap string (option A)) : present m = None ↔ ∃ k, m !! k = Some None.
Proof.
  unfold present. case_decide as Hm.
  - split; [done|]. intros (k & Hk). by destruct (Hm k None Hk).
  - split; [|done]. intros _. apply map_not_Forall in Hm as (k & o & Hk & Ho); [|apply _]. exists k. rewrite Hk.
    destruct o; [|done]. destruct Ho. by eexists.
Qed.

Section resolve_lemmas.
Context (engineParsers : gmap string (Node → string + EngineConn)).

Lemma resolve_spec (role name : string) (e e' : Endpoint) :
  resolve engineParsers role name e = inr e' ↔ resolved engineParsers role name e e'.
Proof.
  unfold resolve, resolved, accepts_block. case_decide as He; [naive_solver|].
  destruct (engineParsers !! ep_Engine e) as [parser|] eqn:Ep; [|naive_solver].
  destruct (ep_Blocks e !! ep_Engine e) as [block|] eqn:Eb.
  2: { split; [done|]. intros (conn & (_ & parser' & block & _ & Hb & _) & _). rewrite Hb, lookup_singleton_eq in Eb. done. }
  assert (filter (λ k, k ≠ ep_Engine e) (elements (dom (ep_Blocks e))) = [] ↔ ep_Blocks e = {[ep_Engine e := block]}) as Hf.
  { split.
    - intros Ek. apply map_eq. intros k. destruct (decide (k = ep_Engine e)) as [->|Hne]; [by rewrite lookup_singleton_eq|].
      rewrite lookup_singleton_ne by done. apply not_elem_of_dom. intros Hk.
      assert (k ∈ filter (λ k, k ≠ ep_Engine e) (elements (dom (ep_Blocks e)))) as Hin.
      { apply list_elem_of_filter. split; [done|]. by apply elem_of_elements. }
      rewrite Ek in Hin. by apply elem_of_nil in Hin.
    - intros ->. by rewrite dom_singleton_L, elements_singleton, filter_cons, decide_False by naive_solver. }
  destruct (filter _ _) as [|k ks] eqn:Ek.
  2: { split; [done|]. intros (conn & (_ & parser' & block' & _ & Hb & _) & _). rewrite Hb, lookup_singleton_eq in Eb.
       injection Eb as ->. by apply Hf in Hb. }
  pose proof (proj1 Hf eq_refl) as Hb.
  destruct (parser block) as [msg|conn] eqn:Ec; [|destruct (ec_Validate conn role name) as [msg|] eqn:Ev].
  - split; [done|]. intros (conn & (_ & p & b & [= <-] & Hb' & Hc & _) & _). rewrite Hb', lookup_singleton_eq in Eb. injection Eb as ->. congruence.
  - split; [done|]. intros (conn' & (_ & p & b & [= <-] & Hb' & Hc & Hv) & _). rewrite Hb', lookup_singleton_eq in Eb. injection Eb as ->.
    rewrite Ec in Hc. injection Hc as <-. congruence.
  - split.
    + intros [= <-]. exists conn. split; [|done]. split; [done|]. by exists parser, block.
    + intros (conn' & (_ & p & b & [= <-] & Hb' & Hc & _) & ->). rewrite Hb', lookup_singleton_eq in Eb. injection Eb as ->.
      rewrite Ec in Hc. by injection Hc as <-.
Qed.

Lemma resolve_loop_spec (role : string) (l : list (string * option Endpoint)) (m m' : gmap string Endpoint) :
  NoDup l.*1 → (∀ name, name ∈ l.*1 → m !! name = None) →
  resolve_loop engineParsers role l m = Accepted m' ↔
  ∀ name, match (list_to_map l : gmap string (option Endpoint)) !! name with
          | None => m' !! name = m !! name
          | Some None => False
          | Some (Some e) => ∃ e', m' !! name = Some e' ∧ resolved engineParsers role name e e'
          end.
Proof.
  revert m. induction l as [|[n o] l IH]; intros m Hnd Hm; simpl.
  { split; [by intros [= <-]|]. intros H. f_equal. apply map_eq. intros k. by rewrite H. }
  apply NoDup_cons in Hnd as [Hn Hnd]. simpl in Hn.
  assert ((list_to_map l : gmap string (option Endpoint)) !! n = None) as Hl by by apply not_elem_of_list_to_map_1.
  destruct o as [e|].
  2: { split; [done|]. intros H. specialize (H n). by rewrite lookup_insert_eq in H. }
  destruct (resolve engineParsers role n e) as [err|e1] eqn:E.
  { split; [done|]. intros H. specialize (H n). rewrite lookup_insert_eq in H. destruct H as (e' & _ & He').
    apply resolve_spec in He'. congruence. }
  rewrite IH; [|done|].
  2: { intros name Hin. rewrite lookup_insert_ne by (by intros ->). apply Hm. by right. }
  assert (∀ e', resolved engineParsers role n e e' ↔ e' = e1) as He.
  { intros e'. rewrite <-resolve_spec, E. naive_solver. }
  split; intros H name; specialize (H name); destruct (decide (name = n)) as [->|Hne].
  - rewrite Hl, lookup_insert_eq in H. rewrite lookup_insert_eq. exists e1. by rewrite He.
  - rewrite lookup_insert_ne by done. destruct (list_to_map l !! name) as [[?|]|]; [done|done|]. by rewrite lookup_insert_ne in H by done.
  - rewrite lookup_insert_eq in H. destruct H as (e' & He' & ->%He). by rewrite Hl, lookup_insert_eq.
  - rewrite lookup_insert_ne in H by done. destruct (list_to_map l !! name) as [[?|]|]; [done|done|]. by rewrite lookup_insert_ne by done.
Qed.

Lemma resolve_map_spec (role : string) (m : gmap string (option Endpoint)) (m' : gmap string Endpoint) :
  resolve_map engineParsers role m = Accepted m' ↔ all_resolved engineParsers role m m'.
Proof.
  unfold resolve_map. rewrite resolve_loop_spec; [|apply NoDup_fst_map_to_list|done]. by rewrite list_to_map_to_list.
Qed.

Lemma resolve_map_panics (role : string) (m : gmap string (option Endpoint)) :
  resolve_map engineParsers role m = Panics → ∃ name, m !! name = Some None.
Proof.
  unfold resolve_map. generalize (∅ : gmap string Endpoint). intros acc.
  assert (∀ l acc, resolve_loop engineParsers role l acc = Panics → ∃ name, (name, None) ∈ l) as H.
  { clear. induction l as [|[n [e|]] l IH]; intros acc; simpl; [done| |intros _; exists n; by left].
    destruct (resolve engineParsers role n e); [done|]. intros (name & Hin)%IH. exists name. by right. }
  intros (name & Hin%elem_of_map_to_list)%H. by exists name.
Qed.

(** The engine half of loading. *)
Lemma resolveEngines_spec (doc : Document) (d : Draft) (c : Config) :
  applyDefaults doc = Some d → resolveEngines engineParsers d = Accepted c ↔ loads engineParsers doc c.
Proof.
  unfold applyDefaults. destruct (mapM id (cf_Syncs doc)) as [ss|] eqn:Es; [|done]. cbn [mbind option_bind].
  destruct (present (cf_Nodes doc)) as [ns|] eqn:En; [|done]. cbn [mbind option_bind].
  destruct (mapM id (cf_Clusters doc)) as [cs|] eqn:Ec; [|done]. intros [= <-].
  apply mapM_id_Some in Es, Ec. apply present_Some in En.
  assert (map_imap (λ name o, Some (node_defaults name <$> o)) (cf_Nodes doc) =
          Some <$> map_imap (λ name n, Some (node_defaults name n)) ns) as Hns.
  { rewrite En. apply map_eq. intros k. rewrite map_lookup_imap, !lookup_fmap, map_lookup_imap. by destruct (ns !! k). }
  unfold resolveEngines. cbn [cf_Sources cf_Targets cf_Nodes cf_StateStore cf_LogLevel cf_LogFormat cf_StallTimeout cf_Syncs cf_Clusters].
  rewrite <-Hns. split.
  - destruct (resolve_map _ "source" _) as [| |ms] eqn:E1; [done..|]. apply resolve_map_spec in E1.
    destruct (resolve_map _ "target" _) as [| |mt] eqn:E2; [done..|]. apply resolve_map_spec in E2.
    destruct (resolve_map _ "node" _) as [| |mn] eqn:E3; [done..|]. apply resolve_map_spec in E3.
    destruct (cf_StateStore doc) as [ss'|] eqn:Ess.
    + destruct (resolve engineParsers "state_store" "state_store" ss') as [|ss1] eqn:E4; [done|]. apply resolve_spec in E4.
      intros [= <-]. split; simpl; rewrite ?Ess; try done; [by exists ss1|by exists ss|by exists cs].
    + intros [= <-]. split; simpl; rewrite ?Ess; try done; [by exists ss|by exists cs].
  - intros [L1 L2 L3 L4 L5%resolve_map_spec L6%resolve_map_spec L7%resolve_map_spec (ss' & L8 & L8') (cs' & L9 & L9')].
    rewrite L5, L6.
    match goal with |- context [resolve_map engineParsers "node" ?m] =>
      replace (resolve_map engineParsers "node" m) with (Accepted (cf_Nodes c)) by (symmetry; exact L7) end.
    rewrite Es in L8. rewrite Ec in L9. apply (inj (fmap Some)) in L8 as <-, L9 as <-.
    destruct c as [c1 c2 c3 c4 c5 c6 c7 c8 c9]. simpl in *. subst.
    destruct (cf_StateStore doc) as [e|]; [|by subst]. destruct L4 as (e' & -> & ->%resolve_spec). done.
Qed.

Lemma resolveEngines_panics (doc : Document) (d : Draft) :
  applyDefaults doc = Some d → resolveEngines engineParsers d = Panics → has_null doc.
Proof.
  unfold applyDefaults. destruct (mapM id (cf_Syncs doc)) as [ss|]; [|done]. cbn [mbind option_bind].
  destruct (present (cf_Nodes doc)) as [ns|]; [|done]. cbn [mbind option_bind].
  destruct (mapM id (cf_Clusters doc)) as [cs|]; [|done]. intros [= <-]. unfold resolveEngines.
  cbn [cf_Sources cf_Targets cf_Nodes cf_StateStore cf_LogLevel cf_LogFormat cf_StallTimeout cf_Syncs cf_Clusters].
  destruct (resolve_map _ "source" _) as [| |ms] eqn:E1; [|done|].
  { intros _. right; left. by apply (resolve_map_panics "source"). }
  destruct (resolve_map _ "target" _) as [| |mt] eqn:E2; [|done|].
  { intros _. right; right. by apply (resolve_map_panics "target"). }
  destruct (resolve_map _ "node" _) as [| |mn] eqn:E3; [|done|].
  { intros _. apply resolve_map_panics in E3 as (name & Hn). rewrite lookup_fmap in Hn. by destruct (_ !! name). }
  destruct (cf_StateStore doc) as [ss'|]; [|done]. by destruct (resolve _ _ _ _).
Qed.
End resolve_lemmas.

Lemma applyDefaults_None (doc : Document) : applyDefaults doc = None ↔ null_default doc.
Proof.
  unfold applyDefaults, null_default. rewrite <-!mapM_id_None, <-present_None.
  destruct (mapM id (cf_Syncs doc)) as [ss|]; cbn [mbind option_bind]; [|naive_solver].
  destruct (present (cf_Nodes doc)) as [ns|]; cbn [mbind option_bind]; [|naive_solver].
  destruct (mapM id (cf_Clusters doc)) as [cs|]; naive_solver.
Qed.

Lemma NoDup_app_names (l k : list string) :
  NoDup (l ++ k) ↔ NoDup l ∧ NoDup k ∧ ∀ n, n ∈ k → n ∉ l.
Proof. rewrite NoDup_app. naive_solver. Qed.

(** The checks after the state store. *)
Lemma Validate_tail (order : string → gset string → list string) (nodes : gset string → list string) (c : Config) :
  (∀ n X, order n X ≡ₚ elements X) → (∀ X, nodes X ≡ₚ elements X) →
  ∃ r, match check_syncs c 0 ∅ (cf_Syncs c) with
       | inl e => Some (Some e)
       | inr seen =>
           match check_clusters c 0 seen (cf_Clusters c) with
           | Some e => Some (Some e)
           | None => detectSyncCycles order nodes c
           end
       end = Some r ∧
    (r = None ↔
       ("" ∉ (sy_Name <$> cf_Syncs c) ++ (cl_Name <$> cf_Clusters c)) ∧
       NoDup ((sy_Name <$> cf_Syncs c) ++ (cl_Name <$> cf_Clusters c)) ∧
       Forall (sync_ok c) (cf_Syncs c) ∧ Forall (cluster_ok c) (cf_Clusters c) ∧ ¬ ∃ x, tc (replicates c) x x).
Proof.
  intros Ho Hn. destruct (detectSyncCycles_spec order nodes c Ho Hn) as (rd & Hd & Hnone & _).
  setoid_rewrite not_elem_of_app. setoid_rewrite NoDup_app_names.
  destruct (check_syncs c 0 ∅ (cf_Syncs c)) as [e|seen] eqn:Es.
  { eexists. split; [done|]. split; [done|]. intros ((H1 & _) & (H2 & _) & H3 & _).
    assert (check_syncs c 0 ∅ (cf_Syncs c) = inr (list_to_set (sy_Name <$> cf_Syncs c) ∪ ∅)); [|congruence].
    apply check_syncs_spec. split_and!; [done..|set_solver|done]. }
  apply check_syncs_spec in Es as (-> & H1 & H2 & _ & H3).
  destruct (check_clusters c 0 _ (cf_Clusters c)) as [e|] eqn:Ec.
  { eexists. split; [done|]. split; [done|]. intros ((_ & H4) & (_ & H5 & H6) & _ & H7 & _).
    rewrite (proj2 (check_clusters_None c 0 _ (cf_Clusters c))) in Ec; [done|].
    split_and!; [done..| |done]. intros n Hnn. rewrite union_empty_r_L, elem_of_list_to_set. by apply H6. }
  apply check_clusters_None in Ec as (H4 & H5 & H6 & H7). exists rd. split; [done|]. rewrite Hnone.
  split; [|naive_solver]. intros. split_and!; try done. intros n Hnn. specialize (H6 n Hnn).
  by rewrite union_empty_r_L, elem_of_list_to_set in H6.
Qed.

Lemma Validate_spec (order : string → gset string → list string) (nodes : gset string → list string) (c : Config) :
  (∀ n X, order n X ≡ₚ elements X) → (∀ X, nodes X ≡ₚ elements X) →
  ∃ r, Validate order nodes c = Some r ∧ (r = None ↔ config_ok c).
Proof.
  intros Ho Hn. destruct (Validate_tail order nodes c Ho Hn) as (r & Hr & Hiff). unfold Validate.
  case_decide as He.
  { eexists. split; [done|]. split; [done|]. intros [[?|?]]; naive_solver. }
  assert (cf_Syncs c ≠ [] ∨ cf_Clusters c ≠ []) as Hsome by (destruct (cf_Syncs c), (cf_Clusters c); naive_solver).
  assert ((∀ ss, cf_StateStore c = Some ss → ep_Engine ss = "postgres") → (r = None ↔ config_ok c)) as Hcfg.
  { intros Hss. rewrite Hiff. split; [|by intros []]. intros (? & ? & ? & ? & ?). by split. }
  destruct (cf_StateStore c) as [ss|] eqn:Ess; cbn [mbind option_bind].
  - case_decide as Hp.
    + eexists. split; [done|]. split; [done|]. intros [_ Hs]. by destruct Hp; apply Hs.
    + exists r. split; [done|]. apply Hcfg. by intros ? [= <-].
  - exists r. split; [done|]. by apply Hcfg.
Qed.

(** C39: loading terminates, and a document is accepted exactly when no entry of its lists and maps
    is null, every endpoint (source, target, node and the state store) names a registered engine,
    has that engine's block and no other key, which the engine's parser reads and whose
    connection is valid, and the configuration with its defaults is right: names unique over syncs
    and clusters,
    every reference defined and within one engine, positive limits, no sequence syncing onto
    a cluster member, clusters of at least two members with distinct node ids, and no
    replication cycle among the databases of the one-way syncs. The result is the document with
    its defaults and connections. A null sync, node or cluster makes it panic, and only null
    entries do. A cycle that is reported is a closed walk of replications. *)
Theorem Load_exact (order : string → gset string → list string) (nodes : gset string → list string)
    (engineParsers : gmap string (Node → string + EngineConn)) (doc : Document) :
  (∀ n X, order n X ≡ₚ elements X) → (∀ X, nodes X ≡ₚ elements X) →
  ∃ r, Load order nodes engineParsers doc = Some r ∧
    (∀ c, r = Accepted c ↔ loads engineParsers doc c ∧ config_ok c) ∧
    (null_default doc → r = Panics) ∧ (r = Panics → has_null doc) ∧
    ∀ c, loads engineParsers doc c →
      ∃ rd, detectSyncCycles order nodes c = Some rd ∧
        ∀ e, rd = Some e → ∃ cycle, e = ReplicationCycle cycle ∧ closed_walk (replicates c) cycle.
Proof.
  intros Ho Hn.
  assert (∀ c, loads engineParsers doc c → ∃ rd, detectSyncCycles order nodes c = Some rd ∧
    ∀ e, rd = Some e → ∃ cycle, e = ReplicationCycle cycle ∧ closed_walk (replicates c) cycle) as Hcyc.
  { intros c _. destruct (detectSyncCycles_spec order nodes c Ho Hn) as (rd & ? & _ & ?). by exists rd. }
  unfold Load. destruct (applyDefaults doc) as [d|] eqn:Ed.
  2: { apply applyDefaults_None in Ed. exists Panics. split_and!; [done| |done|by left|done]. intros c. split; [done|].
       intros [[_ _ _ _ _ _ L7 (ss & L8 & _) (cs & L9 & _)] _]. exfalso. destruct Ed as [Hs|[Hc|(name & Hnd)]].
       - rewrite L8 in Hs. by apply list_elem_of_fmap in Hs as (? & [=] & _).
       - rewrite L9 in Hc. by apply list_elem_of_fmap in Hc as (? & [=] & _).
       - specialize (L7 name). by rewrite map_lookup_imap, Hnd in L7. }
  assert (¬ null_default doc) as Hnn by (rewrite <-applyDefaults_None; congruence).
  pose proof (λ c, resolveEngines_spec engineParsers doc d c Ed) as Hspec.
  pose proof (resolveEngines_panics engineParsers doc d Ed) as Hpan.
  destruct (resolveEngines engineParsers d) as [|e|c] eqn:Er.
  - exists Panics. split_and!; [done| |done|by intros _; apply Hpan|done]. intros c. rewrite <-Hspec. naive_solver.
  - exists (Refused e). split_and!; [done| |done|done|done]. intros c. rewrite <-Hspec. naive_solver.
  - destruct (Validate_spec order nodes c Ho Hn) as (r & -> & Hr).
    exists (match r with Some e => Refused e | None => Accepted c end).
    split; [by destruct r|]. split_and!; [|done|by destruct r|done].
    intros c'. rewrite <-Hspec. destruct r as [e|].
    + split; [done|]. intros [[= <-] Hok]. by apply Hr in Hok.
    + split; [intros [= <-]; split; [done|by apply Hr]|]. by intros [[= <-] _].
Qed.

(** Retention cannot be left unbounded by age. The documented value 0 of [max_age] is
    replaced by a day before anything reads it, in every sync and every cluster. *)
Theorem max_age_zero_is_a_day (doc : Document) (d : Draft) :
  applyDefaults doc = Some d →
  (∀ s, s ∈ cf_Syncs d → tn_MaxAge (sy_Tuning s) ≠ 0%Z) ∧
  (∀ s, Some s ∈ cf_Syncs doc → tn_MaxAge (sy_Tuning s) = 0%Z →
     tn_MaxAge (sy_Tuning (sync_defaults s)) = (24 * 3600 * second)%Z) ∧
  (∀ cl, cl ∈ cf_Clusters d → tn_MaxAge (cl_Tuning cl) ≠ 0%Z).
Proof.
  assert (∀ t, tn_MaxAge (applyTuningDefaults t) ≠ 0%Z) as Ht.
  { intros t. unfold applyTuningDefaults, or_default. simpl. by case_decide. }
  unfold applyDefaults. destruct (mapM id (cf_Syncs doc)) as [ss|]; [|done]. cbn [mbind option_bind].
  destruct (present (cf_Nodes doc)) as [ns|]; [|done]. cbn [mbind option_bind].
  destruct (mapM id (cf_Clusters doc)) as [cs|]; [|done]. intros [= <-]. split_and!.
  - intros s (s' & -> & _)%list_elem_of_fmap. apply Ht.
  - intros s _ H0. simpl. unfold or_default. by rewrite decide_True.
  - intros cl (cl' & -> & _)%list_elem_of_fmap. apply Ht.
Qed.

(** ** A sample document: a ring of two one-way syncs *)

Definition sample_conn (host : string) : EngineConn := mkEngineConn (λ _ _, None) (mkConn host 5432 "app").

Definition sample_parser (n : Node) : string + EngineConn :=
  match n with Scalar v _ _ => inr (sample_conn (Text.untxt v)) | _ => inl "not a host" end.

Definition sample_endpoint (host : string) : Endpoint :=
  mkEndpoint "postgres" "" {["postgres" := Scalar (Text.txt host) true []]} None.

Definition sample_sync (name source target : string) : Sync :=
  mkSync name source [target] ["public.*"] [] (mkTuning 0 0 0 0 0 0 0) None None.

Definition sample_store : Endpoint := sample_endpoint "state".

Definition sample_doc (syncs : list (option Sync)) : Document :=
  mkConfig "" "" 0 (Some sample_store)
    (<["a" := Some (sample_endpoint "db1")]> {["b" := Some (sample_endpoint "db2")]})
    (<["a" := Some (sample_endpoint "db1")]> {["b" := Some (sample_endpoint "db2")]}) syncs ∅ [].

Definition sample_parsers : gmap string (Node → string + EngineConn) := {["postgres" := sample_parser]}.

Example sample_ring :
  Load (λ _, elements) elements sample_parsers
    (sample_doc [Some (sample_sync "there" "a" "b"); Some (sample_sync "back" "b" "a")]) =
  Some (Refused (ReplicationCycle
    ["postgres://db1:5432/app"; "postgres://db2:5432/app"; "postgres://db1:5432/app"])).
Proof. vm_compute. reflexivity. Qed.

(** A dash without a sync under [syncs]. *)
Example null_sync_panics :
  Load (λ _, elements) elements sample_parsers (sample_doc [Some (sample_sync "there" "a" "b"); None]) = Some Panics.
Proof. vm_compute. reflexivity. Qed.

Lemma Load_exact_witness :
  ∃ c, Load (λ _, elements) elements sample_parsers (sample_doc [Some (sample_sync "there" "a" "b")]) = Some (Accepted c) ∧
    loads sample_parsers (sample_doc [Some (sample_sync "there" "a" "b")]) c ∧ config_ok c.
Proof.
  destruct (Load_exact (λ _, elements) elements sample_parsers (sample_doc [Some (sample_sync "there" "a" "b")]))
    as (r & Hr & Hok & _); [reflexivity|reflexivity|].
  assert (∃ c, r = Accepted c) as [c ->].
  { vm_compute in Hr. destruct r as [|e|c]; [discriminate Hr|discriminate Hr|by exists c]. }
  exists c. split; [exact Hr|]. apply Hok. reflexivity.
Defined.
End Config.
