(* ===== verification/Daemon.v ===== *)
(** * The daemon ([internal/daemon], [internal/observability/health])

    What the process does around the syncs: the jobs of a configuration and their
    ownership, the construction of a sync with its connections and its pre-flight checks,
    and the liveness record. A fallible call of an engine answers from a list of faults;
    its registry, capabilities, schemas, versions and pre-flight are parameters, and so is the
    quoting of a name ([%q]). *)

From S2P Require Import Prelude Text Engine PgPreflight MeshIds Calls Store Config.
Import Config.

Module Daemon.
Import PgPreflight (PreflightReport, mkReport, rp_Sync, rp_SourceVersion, rp_TargetVersion, rp_Replicable, rp_Skipped,
  rp_Components, rp_Findings).

(** ** Sizes and policies *)

(** [workerCount]: the pairs of the copy pool. *)
Definition workerCount (t : Tuning) : nat :=
  let n := (tn_MaxSourceConns t - 1)%Z in
  let n := if decide (tn_MaxTargetConns t - 1 < n)%Z then (tn_MaxTargetConns t - 1)%Z else n in
  if decide (n < 1)%Z then 1 else Z.to_nat n.

Definition chunkRows : Z := 10000.
Definition defaultDrainBatchFallback : Z := 1000.
Definition drainBatch (t : Tuning) : Z :=
  if decide (0 < tn_DrainBatch t)%Z then tn_DrainBatch t else defaultDrainBatchFallback.

(** The age is a number of whole seconds, cut off. *)
Definition retentionPolicy (t : Tuning) : RetentionPolicy := mkRetention (Z.quot (tn_MaxAge t) second) (tn_MaxBytes t).

Definition blockingCount (fs : list Finding) : nat := length (filter (λ f, fnd_Severity f = SevBlock) fs).

Definition newline : string := String "010" "".

Fixpoint meshBlockDetail (fs : list Finding) : string :=
  match fs with
  | [] => ""
  | f :: fs =>
      (if decide (fnd_Severity f = SevBlock) then newline +:+ "  - " +:+ fnd_Message f else "") +:+ meshBlockDetail fs
  end.

(** ** Building a sync *)

Inductive event :=
| Opened (id : nat)
| Closed (id : nat)
| Reading (id : nat) (node : string)      (** [EnableClusterReads] *)
| Marking (id : nat) (node : string)      (** [EnableOriginMarking] *)
| Introspected (id : nat).

(** The faults to come, the number of the next connection, [closers] and what has happened. *)
Record bstate := mkB {
  b_faults : list (option error);
  b_next : nat;
  b_closers : list nat;
  b_log : list event
}.

Inductive outcome (A : Type) := Done (a : A) | Failed (e : error) | Panics.
Arguments Done {_} _.
Arguments Failed {_} _.
Arguments Panics {_}.

Definition B (A : Type) := bstate → outcome A * bstate.

Definition bret {A} (a : A) : B A := λ st, (Done a, st).
Definition bfail {A} (e : error) : B A := λ st, (Failed e, st).
Definition bbind {A C} (m : B A) (f : A → B C) : B C := λ st,
  match m st with
  | (Done a, st) => f a st
  | (Failed e, st) => (Failed e, st)
  | (Panics, st) => (Panics, st)
  end.
Notation "x <~ m ; k" := (bbind m (λ x, k)) (at level 100, m at next level, right associativity).

(** [fmt.Errorf] around the error of a call. *)
Definition wrap {A} (msg : string) (m : B A) : B A := λ st,
  match m st with
  | (Failed e, st) => (Failed (Errorf msg e), st)
  | r => r
  end.

(** A call that may fail. *)
Definition ask : B unit := λ st,
  match b_faults st with
  | [] => (Done tt, st)
  | f :: fs =>
      let st := mkB fs (b_next st) (b_closers st) (b_log st) in
      match f with None => (Done tt, st) | Some e => (Failed e, st) end
  end.

Definition emit (e : event) : B unit := λ st,
  (Done tt, mkB (b_faults st) (b_next st) (b_closers st) (b_log st ++ [e])).

(** [openSource] and [openSink]: construct, connect, register the closer. *)
Definition open_conn : B nat :=
  _ <~ ask;
  _ <~ ask;
  λ st, (Done (b_next st),
         mkB (b_faults st) (S (b_next st)) (b_closers st ++ [b_next st]) (b_log st ++ [Opened (b_next st)])).

(** [cleanup]: the closers in reverse order. *)
Definition cleanup (st : bstate) : bstate :=
  mkB (b_faults st) (b_next st) (b_closers st) (b_log st ++ (Closed <$> reverse (b_closers st))).

(** An engine as the daemon uses it: its optional interfaces and its pre-flight. *)
Record EngineOps := mkEngineOps {
  eo_reads : bool;
  eo_marks : bool;
  eo_Preflight : string → Z → Z → list Table → list Table → PreflightReport
}.

Record Syncer := mkSyncer {
  sc_Name : string;
  sc_Source : nat;
  sc_Sink : nat;
  sc_Target : string;
  sc_Workers : list (nat * nat);
  sc_Components : list Component;
  sc_Replicable : list TableRef;
  sc_ChunkRows : Z;
  sc_DrainBatch : Z;
  sc_DrainInterval : Z;
  sc_ApplyConcurrency : Z;
  sc_Retention : RetentionPolicy;
  sc_ClusterMode : bool;
  sc_NodeID : string;
  sc_SyncSequences : bool
}.

Section build.
Context (quote : string → string).
Context (registry : gmap string EngineOps).
(** What the two databases answer. *)
Context (srcSchema tgtSchema : list Table) (srcVer tgtVer : Z).

Definition enableClusterReads (eng : EngineOps) (id : nat) (node : string) : B unit :=
  if eo_reads eng then emit (Reading id node)
  else bfail (Failure "engine source does not support cluster reads (cannot be a cluster member)").

Definition enableOriginMarking (eng : EngineOps) (id : nat) (node : string) : B unit :=
  if eo_marks eng then emit (Marking id node)
  else bfail (Failure "engine sink does not support origin marking (cannot be a cluster member)").

Definition introspect (id : nat) : B unit :=
  _ <~ ask; emit (Introspected id).

(** Both sides of a pair in cluster mode. *)
Definition enable (eng : EngineOps) (clusterMode : bool) (srcNode tgtNode : string) (src snk : nat) : B unit :=
  if clusterMode then _ <~ enableClusterReads eng src srcNode; enableOriginMarking eng snk tgtNode else bret tt.

(** The loop that opens the copy workers. *)
Fixpoint open_workers (eng : EngineOps) (clusterMode : bool) (srcNode tgtNode : string) (n : nat) : B (list (nat * nat)) :=
  match n with
  | 0 => bret []
  | S n =>
      ws <~ wrap "connect copy source" open_conn;
      wk <~ wrap "connect copy target" open_conn;
      _ <~ enable eng clusterMode srcNode tgtNode ws wk;
      rest <~ open_workers eng clusterMode srcNode tgtNode n;
      bret ((ws, wk) :: rest)
  end.

Fixpoint introspect_workers (workers : list (nat * nat)) : B unit :=
  match workers with
  | [] => bret tt
  | (ws, _) :: workers => _ <~ wrap "introspect copy source" (introspect ws); introspect_workers workers
  end.

(** The pre-flight checks: the report with the findings of the mesh check folded in. *)
Definition checks (eng : EngineOps) (name : string) (clusterMode : bool) : B PreflightReport :=
  let report := eo_Preflight eng name srcVer tgtVer srcSchema tgtSchema in
  report <~
    (if clusterMode then
       match MeshIds.MeshIDAllocationFindings quote srcSchema with
       | None => λ st, (Panics, st)
       | Some mf =>
           if decide (mf = []) then bret report
           else if decide (meshBlockDetail mf ≠ "")
           then bfail (Failure ("active-active pre-flight blocked for " +:+ quote name +:+
             ": replicated tables use a locally-allocated integer key, unsafe in a mesh (use UUID v7 / ULID — docs/multi-master.md §5.6):" +:+
             meshBlockDetail mf))
           else bret (mkReport (rp_Sync report) (rp_SourceVersion report) (rp_TargetVersion report) (rp_Replicable report)
                        (rp_Skipped report) (rp_Components report) (rp_Findings report ++ mf))
       end
     else bret report);
  if Blocked (rp_Findings report)
  then bfail (Failure ("pre-flight blocked (" +:+ Text.fmt_int (Z.of_nat (blockingCount (rp_Findings report))) +:+
         " blocking findings); fix the target schema before starting"))
  else bret report.

(** The body of [buildSyncerCore] after the lookup of the engine; an error of it goes
    through [fail]. *)
Definition build_body (eng : EngineOps) (name : string) (tuning : Tuning) (targetName : string) (clusterMode : bool)
    (srcNodeID tgtNodeID : string) (syncSequences : bool) : B Syncer :=
  source <~ wrap "connect source" open_conn;
  sink <~ wrap "connect target" open_conn;
  _ <~ enable eng clusterMode srcNodeID tgtNodeID source sink;
  workers <~ open_workers eng clusterMode srcNodeID tgtNodeID (workerCount tuning);
  _ <~ wrap "introspect source" (introspect source);
  _ <~ wrap "introspect target" (introspect sink);
  _ <~ introspect_workers workers;
  _ <~ wrap "source version" ask;
  _ <~ wrap "target version" ask;
  report <~ checks eng name clusterMode;
  bret (mkSyncer name source sink targetName workers (rp_Components report) (rp_Replicable report) chunkRows
          (drainBatch tuning) (tn_DrainInterval tuning) (tn_ApplyConcurrency tuning) (retentionPolicy tuning)
          clusterMode srcNodeID syncSequences).

Definition buildSyncerCore (name : string) (srcEp tgtEp : Endpoint) (tuning : Tuning) (targetName : string)
    (clusterMode : bool) (srcNodeID tgtNodeID : string) (syncSequences : bool) : B Syncer := λ st,
  match registry !! ep_Engine srcEp with
  | None =>
      (Failed (Failure ("engine: no engine registered for " +:+ quote (ep_Engine srcEp) +:+ " (have: [" +:+
         String.concat " " (sort_by id (elements (dom registry))) +:+ "])")), st)
  | Some eng =>
      match build_body eng name tuning targetName clusterMode srcNodeID tgtNodeID syncSequences st with
      | (Failed e, st) => (Failed e, cleanup st)
      | r => r
      end
  end.
(** [buildSyncer]: one target of a one-way sync. *)
Definition buildSyncer (c : Config) (sync : Sync) (targetName : string) : B Syncer :=
  match cf_Sources c !! sy_Source sync, cf_Targets c !! targetName with
  | Some srcEp, Some tgtEp =>
      buildSyncerCore (sy_Name sync) srcEp tgtEp (sy_Tuning sync) targetName false "" "" (SyncsSequences sync)
  | _, _ => bfail (Failure ("unknown source " +:+ quote (sy_Source sync) +:+ " or target " +:+ quote targetName))
  end.

(** ** Clusters *)

Record clusterEdge := mkEdge { ce_cluster : Cluster; ce_src : string; ce_dst : string }.

(** [clusterEdge.name] *)
Definition edge_name (e : clusterEdge) : string :=
  cl_Name (ce_cluster e) +:+ "::" +:+ ce_src e +:+ "->" +:+ ce_dst e.

Definition clusterEdges (clusters : list Cluster) : list clusterEdge :=
  clusters ≫= λ cl,
    imap pair (cl_Members cl) ≫= λ '(i, src),
      imap pair (cl_Members cl) ≫= λ '(j, dst), if decide (i = j) then [] else [mkEdge cl src dst].

Definition buildClusterEdge (c : Config) (e : clusterEdge) : B Syncer :=
  match cf_Nodes c !! ce_src e, cf_Nodes c !! ce_dst e with
  | Some srcEp, Some tgtEp =>
      buildSyncerCore (edge_name e) srcEp tgtEp (cl_Tuning (ce_cluster e)) (ce_dst e) true
        (ep_NodeID srcEp) (ep_NodeID tgtEp) false
  | _, _ => bfail (Failure ("unknown cluster node " +:+ quote (ce_src e) +:+ " or " +:+ quote (ce_dst e)))
  end.
End build.

(** ** The jobs of a configuration ([Daemon.Run]) *)

Inductive job := JobSync (s : Sync) | JobEdge (e : clusterEdge).

Definition job_name (j : job) : string := match j with JobSync s => sy_Name s | JobEdge e => edge_name e end.

Definition job_enabled (j : job) : bool :=
  match j with JobSync s => IsEnabled (sy_Enabled s) | JobEdge e => IsEnabled (cl_Enabled (ce_cluster e)) end.

Definition jobs (c : Config) : list job := (JobSync <$> cf_Syncs c) ++ (JobEdge <$> clusterEdges (cf_Clusters c)).

(** The two loops: a disabled job is skipped, [Acquire] may fail, and a job whose lock is held is
    skipped. [held] are the lock keys held by other daemons and by this one; the loops
    return the jobs started and the error that ended them. *)
Fixpoint start_jobs (quote : string → string) (faults : list (option error)) (held : gset Z) (js : list job) : list job * option error :=
  match js with
  | [] => ([], None)
  | j :: js =>
      if job_enabled j then
        match faults with
        | Some e :: _ => ([], Some (Errorf ("daemon: acquire ownership for " +:+ quote (job_name j)) e))
        | _ =>
            let key := Store.advisoryKey (job_name j) in
            if decide (key ∈ held) then start_jobs quote (tail faults) held js
            else let '(started, err) := start_jobs quote (tail faults) ({[key]} ∪ held) js in (j :: started, err)
        end
      else start_jobs quote faults held js
  end.

(** How [Run] ends: an error before the jobs are awaited, an idle wait for the end of
    the context, or the wait for the jobs. *)
Inductive run_result := RunFails (e : error) | RunIdles | RunWaits (started : list job).

Definition Run (quote : string → string) (openFault : option error) (faults : list (option error)) (held : gset Z) (c : Config) : run_result :=
  match openFault with
  | Some e => RunFails (Errorf "daemon: open state store" e)
  | None =>
      match start_jobs quote faults held (jobs c) with
      | (_, Some e) => RunFails e
      | ([], None) => RunIdles
      | (started, None) => RunWaits started
      end
  end.

(** ** Liveness ([health.Beat]) *)

(** Times and the threshold are nanoseconds. *)
Record Beat := mkBeat { bt_threshold : Z; bt_last : gmap string Z }.

Definition Beat_New (threshold : Z) : Beat := mkBeat threshold ∅.

(** [Register] and [Mark] at the time [now]. *)
Definition Mark (now : Z) (key : string) (b : Beat) : Beat := mkBeat (bt_threshold b) (<[key := now]> (bt_last b)).

(** The first key, in the order of names, whose last mark is before the cutoff. *)
Definition Stale (now : Z) (b : Beat) : option string :=
  if decide (bt_threshold b ≤ 0)%Z then None
  else
    let cutoff := (now - bt_threshold b)%Z in
    (λ x, x.2.1) <$> list_find (λ kt : string * Z, (kt.2 < cutoff)%Z) (sort_by fst (map_to_list (bt_last b))).

Definition healthKey (sync target : string) : string := sync +:+ "/" +:+ target.


(** ** Connections

    What a call adds: [n] connections with consecutive numbers, all registered, none closed. *)

Definition opened (l : list event) : list nat := omap (λ e, match e with Opened i => Some i | _ => None end) l.
Definition closed (l : list event) : list nat := omap (λ e, match e with Closed i => Some i | _ => None end) l.

Lemma cleanup_closed (st : bstate) : closed (b_log (cleanup st)) = closed (b_log st) ++ reverse (b_closers st).
Proof.
  unfold closed, cleanup. simpl. rewrite omap_app. f_equal. generalize (reverse (b_closers st)). intros l.
  induction l as [|i l IH]; [done|]. cbn. by f_equal.
Qed.

Lemma cleanup_opened (st : bstate) : opened (b_log (cleanup st)) = opened (b_log st).
Proof.
  unfold opened, cleanup. simpl. rewrite omap_app. rewrite <-(app_nil_r (omap _ (b_log st))) at 2. f_equal.
  generalize (reverse (b_closers st)). intros l. by induction l.
Qed.

Record ext (st st' : bstate) (n : nat) : Prop := {
  ext_next : b_next st' = b_next st + n;
  ext_closers : b_closers st' = b_closers st ++ seq (b_next st) n;
  ext_opened : opened (b_log st') = opened (b_log st) ++ seq (b_next st) n;
  ext_closed : closed (b_log st') = closed (b_log st);
  ext_log : b_log st `prefix_of` b_log st'
}.

Lemma ext_refl (st : bstate) : ext st st 0.
Proof. split; simpl; rewrite ?app_nil_r; [lia|done..]. Qed.

Lemma ext_trans (a b c : bstate) (n m : nat) : ext a b n → ext b c m → ext a c (n + m).
Proof.
  intros [N1 C1 O1 K1 L1] [N2 C2 O2 K2 L2]. split.
  - lia.
  - by rewrite C2, C1, N1, seq_app, app_assoc.
  - by rewrite O2, O1, N1, seq_app, app_assoc.
  - congruence.
  - by etransitivity.
Qed.

Section triples.
Context (st0 : bstate).

(** Since [st0], [n] connections were opened and the events [evs] happened. *)
Definition good (n : nat) (evs : list event) (st : bstate) : Prop := ext st0 st n ∧ Forall (λ e, e ∈ b_log st) evs.

(** From a state in [P] the call ends in [Q], or fails with every connection registered, or
    panics in the case [R]. *)
Definition triple {A} (R : Prop) (P : bstate → Prop) (m : B A) (Q : A → bstate → Prop) : Prop :=
  ∀ st, P st →
    match m st with
    | (Done a, st') => Q a st'
    | (Failed _, st') => ∃ n, ext st0 st' n
    | (Panics, _) => R
    end.

Lemma btriple_bind {A C} (R : Prop) (P : bstate → Prop) (m : B A) (f : A → B C) (S : A → bstate → Prop)
    (Q : C → bstate → Prop) :
  triple R P m S → (∀ a, triple R (S a) (f a) Q) → triple R P (bbind m f) Q.
Proof.
  intros Hm Hf st HP. unfold bbind. specialize (Hm st HP). destruct (m st) as [[a|e|] st1]; [|done|done].
  by apply (Hf a).
Qed.

Lemma triple_wrap {A} (R : Prop) (P : bstate → Prop) (msg : string) (m : B A) (Q : A → bstate → Prop) :
  triple R P m Q → triple R P (wrap msg m) Q.
Proof. intros Hm st HP. unfold wrap. specialize (Hm st HP). by destruct (m st) as [[a|e|] st1]. Qed.

Lemma triple_ret {A} (R : Prop) (P : bstate → Prop) (a : A) (Q : A → bstate → Prop) :
  (∀ st, P st → Q a st) → triple R P (bret a) Q.
Proof. intros HQ st HP. by apply HQ. Qed.

Lemma triple_fail {A} (R : Prop) (P : bstate → Prop) (e : error) (Q : A → bstate → Prop) (n : nat) (evs : list event) :
  (∀ st, P st → good n evs st) → triple R P (bfail e) Q.
Proof. intros HP st Hst. destruct (HP st Hst) as [Hx _]. by exists n. Qed.

(** Facts outside the state are kept. *)
Lemma triple_pure {A} (R : Prop) (P : bstate → Prop) (F : Prop) (m : B A) (Q : A → bstate → Prop) :
  (F → triple R P m Q) → triple R (λ st, P st ∧ F) m Q.
Proof. intros Hm st [HP HF]. by apply Hm. Qed.

Lemma good_step (n k : nat) (evs evs' : list event) (st st' : bstate) :
  good n evs st → ext st st' k → Forall (λ e, e ∈ b_log st') evs' → good (n + k) (evs ++ evs') st'.
Proof.
  intros [Hx HF] Hk HF'. split; [by eapply ext_trans|]. apply Forall_app. split; [|done].
  apply (Forall_impl _ _ _ HF). intros e He. destruct (ext_log _ _ _ Hk) as [l ->]. apply elem_of_app. by left.
Qed.

Lemma good_same (n : nat) (evs : list event) (st st' : bstate) : good n evs st → ext st st' 0 → good n evs st'.
Proof. intros Hg Hx. pose proof (good_step n 0 evs [] st st' Hg Hx (List.Forall_nil _)) as H. by rewrite Nat.add_0_r, app_nil_r in H. Qed.

Lemma triple_ask (R : Prop) (n : nat) (evs : list event) : triple R (good n evs) ask (λ _, good n evs).
Proof.
  intros st Hg. assert (∀ fs, ext st (mkB fs (b_next st) (b_closers st) (b_log st)) 0) as Hx.
  { intros fs. split; simpl; rewrite ?app_nil_r; [lia|done..]. }
  unfold ask. destruct (b_faults st) as [|[e|] fs]; [done|..].
  - exists n. by apply (good_same n evs st).
  - by apply (good_same n evs st).
Qed.

Definition quiet (e : event) : Prop := match e with Opened _ | Closed _ => False | _ => True end.

Lemma triple_emit (R : Prop) (n : nat) (evs : list event) (e : event) :
  quiet e → triple R (good n evs) (emit e) (λ _, good n (evs ++ [e])).
Proof.
  intros He st Hg. unfold emit. rewrite <-(Nat.add_0_r n). eapply good_step; [done|..].
  - split; simpl; rewrite ?app_nil_r; [lia|done|..|by apply prefix_app_r].
    + unfold opened. rewrite omap_app. destruct e; try done; simpl; by rewrite app_nil_r.
    + unfold closed. rewrite omap_app. destruct e; try done; simpl; by rewrite app_nil_r.
  - constructor; [|constructor]. simpl. apply elem_of_app. right. by left.
Qed.

Lemma triple_open (R : Prop) (n : nat) (evs : list event) :
  triple R (good n evs) open_conn (λ id st, good (n + 1) evs st ∧ id = b_next st0 + n).
Proof.
  unfold open_conn. eapply btriple_bind; [apply triple_ask|]. intros [].
  eapply btriple_bind; [apply triple_ask|]. intros [] st Hg. split; [|apply (ext_next _ _ _ (proj1 Hg))].
  rewrite <-(app_nil_r evs). eapply good_step; [done| |constructor].
  split; simpl; [lia|done|..|by apply prefix_app_r].
  - unfold opened. by rewrite omap_app.
  - unfold closed. by rewrite omap_app, app_nil_r.
Qed.

(** What [enable] records. *)
Definition enabled (cm : bool) (sn tn : string) (src snk : nat) : list event :=
  if cm then [Reading src sn; Marking snk tn] else [].

Lemma triple_enable (R : Prop) (n : nat) (evs : list event) (eng : EngineOps) (cm : bool) (sn tn : string) (src snk : nat) :
  triple R (good n evs) (enable eng cm sn tn src snk) (λ _, good n (evs ++ enabled cm sn tn src snk)).
Proof.
  unfold enable, enabled. destruct cm; [|apply triple_ret; intros st; by rewrite app_nil_r].
  eapply btriple_bind with (S := λ _, good n (evs ++ [Reading src sn])).
  - unfold enableClusterReads. destruct (eo_reads eng); [by apply triple_emit|by apply (triple_fail R _ _ _ n evs)].
  - intros []. change [Reading src sn; Marking snk tn] with ([Reading src sn] ++ [Marking snk tn]). rewrite app_assoc.
    unfold enableOriginMarking. destruct (eo_marks eng); [by apply triple_emit|by eapply triple_fail].
Qed.

(** The numbers of the workers' connections. *)
Fixpoint worker_ids (start k : nat) : list (nat * nat) :=
  match k with 0 => [] | S k => (start, start + 1) :: worker_ids (start + 2) k end.

Lemma triple_workers (R : Prop) (n : nat) (evs : list event) (eng : EngineOps) (cm : bool) (sn tn : string) (k : nat) :
  triple R (good n evs) (open_workers eng cm sn tn k)
    (λ ws st, good (n + 2 * k) (evs ++ (ws ≫= λ '(a, b), enabled cm sn tn a b)) st ∧ ws = worker_ids (b_next st0 + n) k).
Proof.
  revert n evs. induction k as [|k IH]; intros n evs; cbn [open_workers].
  { apply triple_ret. intros st Hg. rewrite Nat.mul_0_r, Nat.add_0_r. simpl. by rewrite app_nil_r. }
  eapply btriple_bind; [apply triple_wrap, triple_open|]. intros ws. apply triple_pure. intros ->.
  eapply btriple_bind; [apply triple_wrap, triple_open|]. intros wk. apply triple_pure. intros ->.
  eapply btriple_bind; [apply triple_enable|]. intros []. eapply btriple_bind; [apply IH|]. intros rest.
  apply triple_pure. intros ->. apply triple_ret. intros st Hg. simpl.
  replace (b_next st0 + (n + 1)) with (b_next st0 + n + 1) by lia.
  replace (b_next st0 + (n + 1 + 1)) with (b_next st0 + n + 2) in * by lia.
  split; [|done]. rewrite app_assoc. replace (n + S (k + S (k + 0))) with (n + 1 + 1 + 2 * k) by lia.
  replace (b_next st0 + (n + 1)) with (b_next st0 + n + 1) in Hg by lia. exact Hg.
Qed.

Lemma triple_introspect (R : Prop) (n : nat) (evs : list event) (id : nat) :
  triple R (good n evs) (introspect id) (λ _, good n evs).
Proof.
  unfold introspect. eapply btriple_bind; [apply triple_ask|]. intros [] st Hg.
  pose proof (triple_emit R n evs (Introspected id) I st Hg) as [Hx HF]. split; [done|].
  by apply Forall_app in HF as [? _].
Qed.

Lemma triple_introspect_workers (R : Prop) (n : nat) (evs : list event) (ws : list (nat * nat)) :
  triple R (good n evs) (introspect_workers ws) (λ _, good n evs).
Proof.
  induction ws as [|[a b] ws IH]; cbn [introspect_workers]; [by apply triple_ret|].
  eapply btriple_bind; [apply triple_wrap, triple_introspect|]. intros []. exact IH.
Qed.
End triples.

(** The copy pool with the main pair stays within the connection limits, if they allow two. *)
Lemma workerCount_bounds (t : Tuning) :
  1 ≤ workerCount t ∧
  (2 ≤ tn_MaxSourceConns t → 2 ≤ tn_MaxTargetConns t →
   1 + Z.of_nat (workerCount t) ≤ tn_MaxSourceConns t ∧ 1 + Z.of_nat (workerCount t) ≤ tn_MaxTargetConns t)%Z.
Proof. unfold workerCount. repeat destruct (decide _); split; lia. Qed.

(** With a limit of one connection, which the configuration admits, a sync opens two per side. *)
Example pool_exceeds_limit : 1 + workerCount (mkTuning second 1000 1 0 0 1 1) = 2.
Proof. reflexivity. Qed.

(** The findings of the mesh check show in the refusal. *)
Lemma meshBlockDetail_block (fs : list Finding) :
  Exists (λ f, fnd_Severity f = SevBlock) fs → meshBlockDetail fs ≠ "".
Proof.
  induction 1 as [f fs Hf|f fs Hf IH]; simpl; [by rewrite decide_True|]. destruct (decide _); [done|]. exact IH.
Qed.

Lemma alloc_blocks (quote : string → string) (tables : list Table) (fs : list Finding) :
  MeshIds.MeshIDAllocationFindings quote tables = Some fs → Forall (λ f, fnd_Severity f = SevBlock) fs.
Proof.
  unfold MeshIds.MeshIDAllocationFindings. destruct (mapM _ tables) as [l|] eqn:Hl; [|done]. simpl. intros [= <-].
  apply mapM_Some_1 in Hl. induction Hl as [|t ft tables l Ht _ IH]; [constructor|]. simpl.
  apply Forall_app. split; [|done]. clear IH. unfold MeshIds.meshFindingsForTable in Ht.
  destruct (MeshIds.key_roles t) as [roles order]. destruct (mapM _ order) as [k|] eqn:Hk; [|done].
  simpl in Ht. injection Ht as <-. apply mapM_Some_1 in Hk.
  induction Hk as [|n fn order k Hn _ IH]; [constructor|]. simpl. apply Forall_app. split; [|done]. clear IH.
  unfold MeshIds.column_finding in Hn. destruct (_ !! n) as [c|]; [|by injection Hn as <-].
  destruct (_ && _); [by injection Hn as <-|]. destruct (MeshIds.classifyIntType _) as [[[] narrow]|]; [..|done];
    injection Hn as <-; by repeat constructor.
Qed.

Section built.
Context (quote : string → string) (registry : gmap string EngineOps).
Context (srcSchema tgtSchema : list Table) (srcVer tgtVer : Z).

(** The report that lets a sync start. *)
Definition accepted (eng : EngineOps) (name : string) (cm : bool) (report : PreflightReport) : Prop :=
  report = eo_Preflight eng name srcVer tgtVer srcSchema tgtSchema ∧ Blocked (rp_Findings report) = false ∧
  (cm = true → MeshIds.MeshIDAllocationFindings quote srcSchema = Some []).

Lemma triple_checks (st0 : bstate) (n : nat) (evs : list event) (eng : EngineOps) (name : string) (cm : bool) :
  triple st0 (cm = true ∧ ¬ Forall MeshIds.typed srcSchema) (good st0 n evs)
    (checks quote srcSchema tgtSchema srcVer tgtVer eng name cm)
    (λ report st, good st0 n evs st ∧ accepted eng name cm report).
Proof.
  unfold checks. set (report := eo_Preflight eng name srcVer tgtVer srcSchema tgtSchema).
  eapply btriple_bind with (S := λ r st, good st0 n evs st ∧
    (r = report ∧ (cm = true → MeshIds.MeshIDAllocationFindings quote srcSchema = Some []))).
  - destruct cm; [|apply triple_ret; naive_solver].
    destruct (MeshIds.MeshIDAllocationFindings quote srcSchema) as [mf|] eqn:Hm.
    2: { intros st _. split; [done|]. intros Ht.
         destruct (MeshIds.alloc_exact quote srcSchema Ht) as (fs & Hfs & _). congruence. }
    destruct (decide (mf = [])) as [->|Hne]; [apply triple_ret; naive_solver|].
    destruct (decide (meshBlockDetail mf ≠ "")) as [_|Hd]; [by apply (triple_fail st0 _ _ _ _ n evs)|].
    exfalso. apply Hd, meshBlockDetail_block. apply alloc_blocks in Hm. destruct mf as [|f mf]; [done|].
    left. by apply Forall_cons in Hm as [? _].
  - intros r. apply triple_pure. intros [-> Hm]. destruct (Blocked (rp_Findings report)) eqn:Hb.
    + by apply (triple_fail st0 _ _ _ _ n evs).
    + apply triple_ret. intros st Hg. by split_and!.
Qed.

(** The events of cluster mode on all pairs. *)
Definition cluster_events (cm : bool) (sn tn : string) (pairs : list (nat * nat)) : list event :=
  pairs ≫= λ '(a, b), enabled cm sn tn a b.

Lemma triple_body (st0 : bstate) (eng : EngineOps) (name : string) (tuning : Tuning) (targetName : string) (cm : bool)
    (sn tn : string) (seqs : bool) :
  let k := workerCount tuning in
  triple st0 (cm = true ∧ ¬ Forall MeshIds.typed srcSchema) (good st0 0 [])
    (build_body quote srcSchema tgtSchema srcVer tgtVer eng name tuning targetName cm sn tn seqs)
    (λ s st, good st0 (2 + 2 * k) (cluster_events cm sn tn ((sc_Source s, sc_Sink s) :: sc_Workers s)) st ∧
       (sc_Source s, sc_Sink s) :: sc_Workers s = worker_ids (b_next st0) (1 + k) ∧
       ∃ report, accepted eng name cm report ∧ sc_Components s = rp_Components report ∧
         sc_Replicable s = rp_Replicable report).
Proof.
  intros k. unfold build_body.
  eapply btriple_bind; [apply triple_wrap, triple_open|]. intros source. apply triple_pure. intros ->.
  eapply btriple_bind; [apply triple_wrap, triple_open|]. intros sink. apply triple_pure. intros ->.
  eapply btriple_bind; [apply triple_enable|]. intros [].
  eapply btriple_bind; [apply triple_workers|]. intros workers. apply triple_pure. intros Hw.
  eapply btriple_bind; [apply triple_wrap, triple_introspect|]. intros [].
  eapply btriple_bind; [apply triple_wrap, triple_introspect|]. intros [].
  eapply btriple_bind; [apply triple_introspect_workers|]. intros [].
  eapply btriple_bind; [apply triple_wrap, triple_ask|]. intros [].
  eapply btriple_bind; [apply triple_wrap, triple_ask|]. intros [].
  eapply btriple_bind; [apply triple_checks|]. intros report. apply triple_pure. intros Hr.
  apply triple_ret. intros st Hg. cbn [sc_Source sc_Sink sc_Workers sc_Components sc_Replicable] in *.
  fold k in Hg, Hw. split_and!; [exact Hg| |by exists report].
  simpl. by rewrite Hw, Nat.add_0_r.
Qed.

(** C36: building a sync. Whatever calls of the engine fail, a build that fails has closed every
    connection it opened, once, the last one first. A build that succeeds has opened the main
    pair and the pairs of the copy pool and nothing else, closed nothing, and its cleanup
    closes them all; the pre-flight report does not block and gives the syncer its components
    and tables. In cluster mode every source reads with versions, every sink marks its
    writes, and no key of a replicated table is numbered by the database. *)
Theorem buildSyncerCore_safe (name : string) (srcEp tgtEp : Endpoint) (tuning : Tuning) (targetName : string) (cm : bool)
    (sn tn : string) (seqs : bool) (faults : list (option error)) :
  let k := workerCount tuning in
  let '(r, st) := buildSyncerCore quote registry srcSchema tgtSchema srcVer tgtVer name srcEp tgtEp tuning targetName cm
                    sn tn seqs (mkB faults 0 [] []) in
  match r with
  | Failed _ => closed (b_log st) = reverse (opened (b_log st)) ∧ NoDup (opened (b_log st))
  | Panics => cm = true ∧ ¬ Forall MeshIds.typed srcSchema
  | Done s =>
      let pairs := (sc_Source s, sc_Sink s) :: sc_Workers s in
      pairs = worker_ids 0 (1 + k) ∧ opened (b_log st) = seq 0 (2 + 2 * k) ∧ closed (b_log st) = [] ∧
      closed (b_log (cleanup st)) = reverse (opened (b_log st)) ∧
      (∃ eng report, registry !! ep_Engine srcEp = Some eng ∧
         report = eo_Preflight eng name srcVer tgtVer srcSchema tgtSchema ∧ Blocked (rp_Findings report) = false ∧
         sc_Components s = rp_Components report ∧ sc_Replicable s = rp_Replicable report) ∧
      (cm = true →
         (∀ a b, (a, b) ∈ pairs → Reading a sn ∈ b_log st ∧ Marking b tn ∈ b_log st) ∧
         (Forall MeshIds.typed srcSchema → ∀ t n, t ∈ srcSchema → ¬ MeshIds.offending t n))
  end.
Proof.
  intros k. unfold buildSyncerCore. destruct (registry !! ep_Engine srcEp) as [eng|]; [|split; [done|constructor]].
  set (st0 := mkB faults 0 [] []). assert (good st0 0 [] st0) as H0 by (split; [apply ext_refl|constructor]).
  pose proof (triple_body st0 eng name tuning targetName cm sn tn seqs st0 H0) as Hb. cbv zeta in Hb. fold k in Hb.
  assert (∀ st n, ext st0 st n → closed (b_log (cleanup st)) = reverse (opened (b_log st)) ∧
    opened (b_log st) = seq 0 n ∧ closed (b_log st) = []) as Hclean.
  { intros st n [Hn Hc Ho Hk _]. rewrite cleanup_closed. simpl in *. split_and!; [|done|done].
    by rewrite Hk, Ho, Hc. }
  destruct (build_body _ _ _ _ _ _ _ _ _ _ _ _ _ st0) as [[s|e|] st]; [..|done].
  - destruct Hb as ([Hx Hev] & Hp & report & (-> & Hnb & Hm) & Hc & Hr). destruct (Hclean _ _ Hx) as (Hcl & Ho & Hk).
    split_and!; [done|done|done|done|by do 2 eexists|]. intros ->. split.
    + rewrite Forall_forall in Hev. intros a b Hab. split; apply Hev; unfold cluster_events; apply list_elem_of_bind;
        exists (a, b); (split; [|done]); [by left|right; by left].
    + intros Ht t n Hin. destruct (MeshIds.alloc_exact quote srcSchema Ht) as (fs & Hfs & _ & Hnil).
      rewrite (Hm eq_refl) in Hfs. injection Hfs as <-. by apply (proj1 Hnil eq_refl).
  - destruct Hb as (n & Hx). destruct (Hclean _ _ Hx) as (Hcl & Ho & _).
    rewrite cleanup_opened. split; [done|]. rewrite Ho. apply NoDup_seq.
Qed.
End built.

(** ** Jobs *)

Abbreviation lock_key j := (Store.advisoryKey (job_name j)).

(** The jobs started are enabled, in the order of the configuration, with distinct locks
    nobody held; and when no acquisition fails, every enabled job runs unless its lock is held
    by another daemon or taken by an earlier job. *)
Lemma start_jobs_exact (quote : string → string) (faults : list (option error)) (held : gset Z) (js started : list job) (err : option error) :
  start_jobs quote faults held js = (started, err) →
  started `sublist_of` js ∧ Forall (λ j, job_enabled j = true ∧ lock_key j ∉ held) started ∧
  NoDup ((λ j, lock_key j) <$> started) ∧
  (err = None → ∀ j, j ∈ js → job_enabled j = true → lock_key j ∈ held ∨ lock_key j ∈ (λ j, lock_key j) <$> started).
Proof.
  revert faults held started. induction js as [|j js IH]; intros faults held started; cbn [start_jobs].
  { intros [= <- <-]. split_and!; [constructor|constructor|constructor|]. by intros _ j ?%elem_of_nil. }
  destruct (job_enabled j) eqn:He.
  2: { intros (H1 & H2 & H3 & H4)%IH. split_and!; [by constructor|done|done|].
       intros Hn j' [->|Hj]%elem_of_cons; [congruence|]. by apply H4. }
  assert (∀ fs, (if decide (lock_key j ∈ held) then start_jobs quote fs held js
    else let '(started, err) := start_jobs quote fs ({[lock_key j]} ∪ held) js in (j :: started, err)) = (started, err) →
    started `sublist_of` j :: js ∧ Forall (λ j, job_enabled j = true ∧ lock_key j ∉ held) started ∧
    NoDup ((λ j, lock_key j) <$> started) ∧
    (err = None → ∀ j', j' ∈ j :: js → job_enabled j' = true →
       lock_key j' ∈ held ∨ lock_key j' ∈ (λ j, lock_key j) <$> started)) as Hgo.
  { intros fs. destruct (decide (lock_key j ∈ held)) as [Hh|Hh].
    - intros (H1 & H2 & H3 & H4)%IH. split_and!; [by constructor|done|done|].
      intros Hn j' [->|Hj]%elem_of_cons; [by left|]. by apply H4.
    - destruct (start_jobs quote fs ({[lock_key j]} ∪ held) js) as [rest e] eqn:Hr. intros [= <- <-].
      apply IH in Hr as (H1 & H2 & H3 & H4). split_and!.
      + by constructor.
      + constructor; [done|]. apply (Forall_impl _ _ _ H2). set_solver.
      + constructor; [|done]. intros (j' & Hk & Hj')%list_elem_of_fmap. rewrite Forall_forall in H2.
        destruct (H2 j' Hj') as [_ Hn]. apply Hn. rewrite <-Hk. set_solver.
      + intros Hn j' [->|Hj]%elem_of_cons Hen; [right; by left|].
        destruct (H4 Hn j' Hj Hen) as [[->%elem_of_singleton|?]%elem_of_union|?];
          [right; by left|by left|right; by right]. }
  destruct faults as [|[e|] fs]; [apply Hgo| |apply Hgo].
  intros [= <- <-]. split_and!; [apply sublist_nil_l|constructor|constructor|done].
Qed.

(** A cluster has an edge for every ordered pair of different positions of its members. *)
Lemma clusterEdges_full (clusters : list Cluster) (e : clusterEdge) :
  e ∈ clusterEdges clusters ↔
  ∃ cl i j src dst, cl ∈ clusters ∧ i ≠ j ∧ cl_Members cl !! i = Some src ∧ cl_Members cl !! j = Some dst ∧
    e = mkEdge cl src dst.
Proof.
  assert (∀ (l : list string) i x, (i, x) ∈ imap pair l ↔ l !! i = Some x) as Himap.
  { intros l i x. rewrite elem_of_lookup_imap. naive_solver. }
  unfold clusterEdges. rewrite list_elem_of_bind. split.
  - intros (cl & He & Hcl). apply list_elem_of_bind in He as ([i src] & He & Hi%Himap).
    apply list_elem_of_bind in He as ([j dst] & He & Hj%Himap). destruct (decide (i = j)) as [|Hij]; [by apply elem_of_nil in He|].
    apply list_elem_of_singleton in He as ->. by exists cl, i, j, src, dst.
  - intros (cl & i & j & src & dst & Hcl & Hij & Hi & Hj & ->). exists cl. split; [|done].
    apply list_elem_of_bind. exists (i, src). split; [|by apply Himap]. apply list_elem_of_bind. exists (j, dst).
    split; [|by apply Himap]. rewrite decide_False by done. by left.
Qed.

(** The name of an edge does not determine it: of the two edges with one name, the
    daemon starts the first and takes the other for one that another daemon owns. *)
Theorem edge_names_collide :
  let t := mkTuning second 1000 1 0 0 4 4 in
  let cl := mkCluster "c" "postgres" ["a"; "b->b"; "a->b"; "b"] "mesh" [] [] t None in
  let e1 := mkEdge cl "a" "b->b" in
  let e2 := mkEdge cl "a->b" "b" in
  e1 ∈ clusterEdges [cl] ∧ e2 ∈ clusterEdges [cl] ∧ edge_name e1 = edge_name e2 ∧
  start_jobs id [] ∅ [JobEdge e1; JobEdge e2] = ([JobEdge e1], None).
Proof.
  intros t cl e1 e2. split_and!; [..|vm_compute; reflexivity|vm_compute; reflexivity]; apply clusterEdges_full.
  - by exists cl, 0, 1, "a", "b->b"; split_and!; [left|..].
  - by exists cl, 2, 3, "a->b", "b"; split_and!; [left|..].
Qed.

(** ** Liveness *)

(** A key is reported exactly when a threshold is set and it is the first of the keys whose last
    mark is older than the threshold; a mark makes its key fresh. *)
Lemma Stale_exact (now : Z) (b : Beat) :
  (0 < bt_threshold b)%Z →
  match Stale now b with
  | Some k => ∃ t, bt_last b !! k = Some t ∧ (t + bt_threshold b < now)%Z
  | None => ∀ k t, bt_last b !! k = Some t → (now ≤ t + bt_threshold b)%Z
  end.
Proof.
  intros Hpos. unfold Stale. rewrite decide_False by lia.
  destruct (list_find _ _) as [[i [k t]]|] eqn:Hf; simpl.
  - apply list_find_Some in Hf as (Hi & Hlt & _). simpl in Hlt. exists t. split; [|lia].
    apply list_elem_of_lookup_2 in Hi. rewrite elem_of_sort_by in Hi. by apply elem_of_map_to_list in Hi.
  - apply list_find_None in Hf. rewrite Forall_forall in Hf. intros k t Hk.
    specialize (Hf (k, t)). simpl in Hf. rewrite elem_of_sort_by, elem_of_map_to_list in Hf. specialize (Hf Hk). lia.
Qed.

(** ** Sample builds *)

(** The Postgres engine. *)
Definition sample_engine : EngineOps :=
  mkEngineOps true true (λ name sv tv src tgt,
    match PgPreflight.buildPreflight id (λ _ _, "") name sv tv src (Some tgt) with
    | Some p => PgPreflight.toReport p
    | None => mkReport name sv tv [] [] [] []
    end).

Definition sample_table (type : string) (serial : bool) : Table :=
  mkTable (mkRef "app" "users") [mkColumn "id" type false false false serial false ""]
    (Some (mkKey "users_pkey" ["id"] true)) [] [] false "".

Definition sample_build (type : string) (serial cm : bool) (faults : list (option error)) : outcome Syncer * bstate :=
  let ep := mkEndpoint "postgres" "n1" ∅ None in
  buildSyncerCore id {["postgres" := sample_engine]} [sample_table type serial] [sample_table type serial] 16 16
    "s" ep ep (mkTuning second 1000 1 0 0 3 2) "t" cm "n1" "n2" false (mkB faults 0 [] []).

Definition is_done {A} (r : outcome A) : bool := match r with Done _ => true | _ => false end.

(** The third connection is refused; a mesh member with a serial key; one with a uuid key. *)
Example sample_builds :
  b_log (sample_build "integer" true false (replicate 5 None ++ [Some (Failure "refused")])).2 =
    [Opened 0; Opened 1; Closed 1; Closed 0] ∧
  is_done (sample_build "integer" true false []).1 = true ∧
  is_done (sample_build "integer" true true []).1 = false ∧
  b_log (sample_build "uuid" false true []).2 =
    [Opened 0; Opened 1; Reading 0 "n1"; Marking 1 "n2"; Opened 2; Opened 3; Reading 2 "n1"; Marking 3 "n2";
     Introspected 0; Introspected 1; Introspected 2] ∧
  is_done (sample_build "uuid" false true []).1 = true.
Proof. vm_compute. done. Qed.

End Daemon.
