(* ===== verification/Verify.v ===== *)
(** * The convergence check ([internal/observability/live/verify.go] and the SQL engines'
    [verify.go])

    [replicare verify] compares, for every replicated table, a fingerprint of the source
    with one of each target: the number of rows and a digest that does not depend on their
    order. This file models the report, the fingerprints of Postgres and MySQL, and shows
    when a sync is reported converged. The hash, the text Postgres gives a row, and what
    opening an endpoint returns are parameters. *)

From S2P Require Import Prelude Text Engine ApplyTx Purge Config.
Import ApplyTx Purge.

Module Verify.

(** [engine.Fingerprint] *)
Record Fingerprint := mkFP { fp_Rows : Z; fp_Checksum : string }.

(** ** Digests

    A commutative group operation folded over the hashes of the items. *)
Section digest.
Context {A : Type} (op : Z → Z → Z) (unit : Z) (h : A → Z).
Context `{!Comm (=) op, !Assoc (=) op, !LeftId (=) unit op}.
Context (cancel : ∀ a x y, op a x = op a y → x = y).

Definition digest (l : list A) : Z := foldr (λ a d, op (h a) d) unit l.

Lemma digest_perm l l' : l ≡ₚ l' → digest l = digest l'.
Proof.
  induction 1 as [|a l l' _ IH|a b l|l1 l2 l3 _ IH1 _ IH2]; simpl; [done|by rewrite IH| |congruence].
  by rewrite !(assoc op), (comm op (h a) (h b)).
Qed.

Lemma digest_app l l' : digest (l ++ l') = op (digest l) (digest l').
Proof. induction l as [|a l IH]; simpl; [by rewrite (left_id unit op)|]. by rewrite IH, (assoc op). Qed.

Lemma digest_cancel a b l : digest (a :: l) = digest (b :: l) → h a = h b.
Proof. simpl. rewrite (comm op (h a)), (comm op (h b)). apply cancel. Qed.
End digest.

#[global] Instance lxor_comm : Comm (=) Z.lxor.
Proof. exact Z.lxor_comm. Qed.
#[global] Instance lxor_assoc : Assoc (=) Z.lxor.
Proof. intros a b c. symmetry. apply Z.lxor_assoc. Qed.
#[global] Instance lxor_left_id : LeftId (=) 0%Z Z.lxor.
Proof. exact Z.lxor_0_l. Qed.

Lemma lxor_cancel a x y : Z.lxor a x = Z.lxor a y → x = y.
Proof. intros H%(f_equal (Z.lxor a)). by rewrite <-!Z.lxor_assoc, Z.lxor_nilpotent, !Z.lxor_0_l in H. Qed.

(** The items of a map. *)
Definition vals `{Countable K} {A} (m : gmap K A) : list A := (map_to_list m).*2.

Lemma vals_split `{Countable K} {A} (m : gmap K A) (k : K) : vals m ≡ₚ option_list (m !! k) ++ vals (delete k m).
Proof.
  unfold vals. destruct (m !! k) as [x|] eqn:Hx; simpl; [|by rewrite delete_id].
  by rewrite <-(map_to_list_delete m k x Hx).
Qed.

(** Maps that differ in one item differ in the number of items or in the digest. *)
Lemma vals_drift `{Countable K} {A} op unit (h : A → Z) `{!Comm (=) op, !Assoc (=) op, !LeftId (=) unit op}
    (m m' : gmap K A) (k : K) :
  (∀ a x y, op a x = op a y → x = y) → (∀ k', k' ≠ k → m !! k' = m' !! k') → h <$> m !! k ≠ h <$> m' !! k →
  length (vals m) = length (vals m') → digest op unit h (vals m) = digest op unit h (vals m') → False.
Proof.
  intros Hcancel Hs Hd Hn Hsum. pose proof (vals_split m k) as Hl. pose proof (vals_split m' k) as Hl'.
  assert (delete k m = delete k m') as E.
  { apply map_eq. intros k'. destruct (decide (k' = k)) as [->|Hne]; [by rewrite !lookup_delete_eq|].
    rewrite !lookup_delete_ne by done. by apply Hs. }
  rewrite E in Hl. rewrite (Permutation_length Hl), (Permutation_length Hl') in Hn. rewrite !length_app in Hn.
  rewrite (digest_perm op unit h _ _ Hl), (digest_perm op unit h _ _ Hl') in Hsum.
  destruct (m !! k) as [a|], (m' !! k) as [b|]; simpl in *; [|lia..|done].
  apply Hd. f_equal. by apply (digest_cancel op unit h Hcancel a b (vals (delete k m'))).
Qed.

Lemma forallb_fmap_true {A B} (f : A → B) (p : B → bool) (l : list A) :
  forallb p (f <$> l) = true ↔ ∀ a, a ∈ l → p (f a) = true.
Proof.
  rewrite forallb_forall. split.
  - intros H a Ha. by apply H, list_elem_of_In, list_elem_of_fmap_2.
  - intros H b (a & -> & Ha)%list_elem_of_In%list_elem_of_fmap. by apply H.
Qed.

(** ** The fingerprint of a table ([fingerprint] of both SQL engines) *)

Definition table_rows (t : TableRef) (R : rows) : list Row := (map_to_list (filter (λ '(tk, _), tk.1 = t) R)).*2.

(** The projection on the columns sorted by name; NULL is [None]. *)
Definition projection (cols : list string) (r : Row) : list (option string) := (λ c, r !! c) <$> sort_by id cols.

Section sql.
Context (hash : list (option string) → Z).

Definition sql_fingerprint (t : TableRef) (cols : list string) (R : rows) : Fingerprint :=
  let n := Z.of_nat (length (table_rows t R)) in
  if decide (cols = []) then mkFP n ""
  else mkFP n (pretty (digest Z.add 0 (λ r, hash (projection cols r)) (table_rows t R))).
End sql.

(** [ROW(cols)::text], and the first 64 bits of its md5 as a signed number. *)
Definition pg_fingerprint (rowText : list (option string) → string) (md5 : string → Z) :=
  sql_fingerprint (λ vals, wrap64 (md5 (rowText vals))).

Definition char (n : nat) : string := String (ascii_of_nat n) "".

(** [CONCAT_WS(CHAR(1), IFNULL(col, CHAR(0)), ...)] *)
Definition my_render (vals : list (option string)) : string := String.concat (char 1) (default (char 0) <$> vals).

Definition my_fingerprint (md5 : string → Z) := sql_fingerprint (λ vals, md5 (my_render vals)).

(** ** The report *)

Record VerifyTable := mkVTable {
  vt_Table : string; vt_SourceRows : Z; vt_TargetRows : Z; vt_SourceChecksum : string; vt_TargetChecksum : string;
  vt_Converged : bool; vt_Status : string; vt_Error : string
}.
Record VerifyTarget := mkVTarget { vg_Target : string; vg_Tables : list VerifyTable; vg_Converged : bool; vg_Error : string }.
Record VerifyReport := mkVReport { vr_Sync : string; vr_Targets : list VerifyTarget; vr_Converged : bool; vr_Error : string }.

(** [classify] *)
Definition classify (src tgt : Fingerprint) : string * bool :=
  if negb (bool_decide (fp_Rows src = fp_Rows tgt)) then ("drift-count", false)
  else if bool_decide (fp_Checksum src = "") || bool_decide (fp_Checksum tgt = "") then ("count-only-ok", true)
  else if negb (bool_decide (fp_Checksum src = fp_Checksum tgt)) then ("drift-checksum", false)
  else ("ok", true).

(** [replicableTables] *)
Definition replicableTables (tables : list Table) : list (TableRef * list string) :=
  (λ t, (tbl_Ref t, col_Name <$> filter (λ c, negb (col_Generated c)) (tbl_Columns t))) <$> filter HasUsableKey tables.

(** [findSync] *)
Definition findSync (cfg : Config.Config) (name : string) : option Config.Sync :=
  snd <$> list_find (λ s, Config.sy_Name s = name) (Config.cf_Syncs cfg).

(** ** Endpoints *)

(** [engine.Verifier]'s [Fingerprint] *)
Abbreviation verifier := (TableRef → list string → result Fingerprint).

(** A source or sink as the report uses it: [Connect], [Introspect], and the optional
    capability [engine.Verifier]. *)
Record endpoint := mkEP {
  en_Connect : option error;
  en_Introspect : Selection → result (list Table);
  en_Verifier : option verifier
}.
Record Eng := mkEng {
  eg_NewSource : option Config.ConnConfig → result endpoint;
  eg_NewSink : option Config.ConnConfig → result endpoint
}.

Section report.
(** The registered engines. *)
Context (registry : gmap string Eng).

(** [engine.Get] *)
Definition Get (name : string) : result Eng :=
  match registry !! name with
  | None => inl (Failure ("engine: no engine registered for " +:+ name))
  | Some e => inr e
  end.

(** What [openSource] and [openSink] share: create, connect, introspect. *)
Definition open_endpoint (new : Eng → option Config.ConnConfig → result endpoint) (what : string)
    (ep : Config.Endpoint) (sel : Selection) : result (endpoint * list Table) :=
  match Get (Config.ep_Engine ep) with
  | inl e => inl e
  | inr eng =>
      match new eng (Config.ec_ConnConfig <$> Config.ep_Conn ep) with
      | inl e => inl e
      | inr end_ =>
          match en_Connect end_ with
          | Some e => inl e
          | None =>
              match en_Introspect end_ sel with
              | inl e => inl (Errorf what e)
              | inr tables => inr (end_, tables)
              end
          end
      end
  end.

Definition openSource : Config.Endpoint → Selection → result (endpoint * list Table) :=
  open_endpoint eg_NewSource "introspect source".

Definition openSink (ep : Config.Endpoint) (sel : Selection) : result endpoint :=
  match open_endpoint eg_NewSink "introspect target" ep sel with inl e => inl e | inr (s, _) => inr s end.

Context (cfg : Config.Config).

(** One table of one target. *)
Definition verify_table (src tgt : verifier) (rt : TableRef * list string) : VerifyTable :=
  let row := mkVTable (ref_string rt.1) in
  match src rt.1 rt.2 with
  | inl e => row 0%Z 0%Z "" "" false "error" ("source: " +:+ Error e)
  | inr sf =>
      match tgt rt.1 rt.2 with
      | inl e => row 0%Z 0%Z "" "" false "error" ("target: " +:+ Error e)
      | inr tf =>
          let '(status, converged) := classify sf tf in
          row (fp_Rows sf) (fp_Rows tf) (fp_Checksum sf) (fp_Checksum tf) converged status ""
      end
  end.

Definition verify_target (sel : Selection) (src : verifier) (tables : list (TableRef * list string)) (tgtName : string) : VerifyTarget :=
  let failed := mkVTarget tgtName [] false in
  match Config.cf_Targets cfg !! tgtName with
  | None => failed ("target " +:+ tgtName +:+ " not found in config")
  | Some ep =>
      match openSink ep sel with
      | inl e => failed ("unreachable: " +:+ Error e)
      | inr sink =>
          match en_Verifier sink with
          | None => failed ("engine " +:+ Config.ep_Engine ep +:+ " does not support verify")
          | Some tgt =>
              let rows := verify_table src tgt <$> tables in
              mkVTarget tgtName rows (forallb vt_Converged rows) ""
          end
      end
  end.

(** [Enricher.Verify] *)
Definition Verify (name : string) : VerifyReport :=
  let failed := mkVReport name [] false in
  match findSync cfg name with
  | None => failed ("sync " +:+ name +:+ " not found in config")
  | Some sync =>
      let sel := mkSelection (Config.sy_Include sync) (Config.sy_Exclude sync) in
      let source := Config.sy_Source sync in
      match Config.cf_Sources cfg !! source with
      | None => failed ("source " +:+ source +:+ " not found in config")
      | Some ep =>
          match openSource ep sel with
          | inl e => failed ("source " +:+ source +:+ " unreachable: " +:+ Error e)
          | inr (srcEnd, tables) =>
              match en_Verifier srcEnd with
              | None => failed ("engine " +:+ Config.ep_Engine ep +:+ " does not support verify")
              | Some src =>
                  let targets := verify_target sel src (replicableTables tables) <$> Config.sy_Targets sync in
                  mkVReport name targets (forallb vg_Converged targets) ""
              end
          end
      end
  end.
End report.

(** ** When a sync is reported converged *)

Lemma classify_converged a b :
  (classify a b).2 = true ↔
  fp_Rows a = fp_Rows b ∧ (fp_Checksum a = "" ∨ fp_Checksum b = "" ∨ fp_Checksum a = fp_Checksum b).
Proof.
  unfold classify. destruct (bool_decide_reflect (fp_Rows a = fp_Rows b)) as [Hr|Hr]; simpl; [|naive_solver].
  destruct (bool_decide_reflect (fp_Checksum a = "")), (bool_decide_reflect (fp_Checksum b = "")); simpl; [naive_solver..|].
  destruct (bool_decide_reflect (fp_Checksum a = fp_Checksum b)); simpl; naive_solver.
Qed.

Section exact.
Context (registry : gmap string Eng) (cfg : Config.Config).

(** Both fingerprints were taken and are alike. *)
Definition same_table (src tgt : verifier) (rt : TableRef * list string) : Prop :=
  ∃ a b, src rt.1 rt.2 = inr a ∧ tgt rt.1 rt.2 = inr b ∧ (classify a b).2 = true.

Lemma verify_table_converged src tgt rt : vt_Converged (verify_table src tgt rt) = true ↔ same_table src tgt rt.
Proof.
  unfold verify_table, same_table. destruct (src rt.1 rt.2) as [e|a]; [naive_solver|].
  destruct (tgt rt.1 rt.2) as [e|b]; [naive_solver|]. destruct (classify a b) as [st c] eqn:Hc. simpl. split.
  - intros ->. exists a, b. by rewrite Hc.
  - intros (a' & b' & [= <-] & [= <-] & H). by rewrite Hc in H.
Qed.

(** The configured endpoint opens with a verifier. *)
Definition verifiable_sink (sel : Selection) (tg : string) (tgt : verifier) : Prop :=
  ∃ ep sink, Config.cf_Targets cfg !! tg = Some ep ∧ openSink registry ep sel = inr sink ∧ en_Verifier sink = Some tgt.
Definition verifiable_source (sel : Selection) (name : string) (src : verifier) (tables : list Table) : Prop :=
  ∃ ep srcEnd, Config.cf_Sources cfg !! name = Some ep ∧ openSource registry ep sel = inr (srcEnd, tables) ∧
    en_Verifier srcEnd = Some src.

Lemma verify_target_converged sel src tables tg :
  vg_Converged (verify_target registry cfg sel src tables tg) = true ↔
  ∃ tgt, verifiable_sink sel tg tgt ∧ ∀ rt, rt ∈ tables → same_table src tgt rt.
Proof.
  unfold verify_target, verifiable_sink.
  destruct (Config.cf_Targets cfg !! tg) as [ep|]; [|split; [done|naive_solver]].
  destruct (openSink registry ep sel) as [e|sink] eqn:Ho.
  1: { split; [done|]. intros (? & (? & ? & [= <-] & E & _) & _). congruence. }
  destruct (en_Verifier sink) as [tgt|] eqn:Hv.
  2: { split; [done|]. intros (? & (? & ? & [= <-] & E & Hv') & _). congruence. }
  cbn [vg_Converged]. rewrite forallb_fmap_true. setoid_rewrite verify_table_converged. split.
  - intros H. exists tgt. split; [by exists ep, sink|done].
  - intros (? & (? & ? & [= <-] & E & Hv') & Hall). rewrite Ho in E. injection E as <-. rewrite Hv in Hv'. by injection Hv' as <-.
Qed.

Definition selection_of (sync : Config.Sync) : Selection := mkSelection (Config.sy_Include sync) (Config.sy_Exclude sync).

Lemma Verify_converged name :
  vr_Converged (Verify registry cfg name) = true ↔
  ∃ sync src tables, findSync cfg name = Some sync ∧ verifiable_source (selection_of sync) (Config.sy_Source sync) src tables ∧
    ∀ tg, tg ∈ Config.sy_Targets sync →
      ∃ tgt, verifiable_sink (selection_of sync) tg tgt ∧ ∀ rt, rt ∈ replicableTables tables → same_table src tgt rt.
Proof.
  unfold Verify, verifiable_source. destruct (findSync cfg name) as [sync|]; [|split; [done|naive_solver]]. fold (selection_of sync).
  destruct (Config.cf_Sources cfg !! Config.sy_Source sync) as [ep|] eqn:Hs.
  2: { split; [done|]. intros (? & ? & ? & [= <-] & (? & ? & ? & _) & _). congruence. }
  destruct (openSource registry ep (selection_of sync)) as [e|[srcEnd tables]] eqn:Ho.
  1: { split; [done|]. intros (? & ? & ? & [= <-] & (? & ? & ? & ? & _) & _). congruence. }
  destruct (en_Verifier srcEnd) as [src|] eqn:Hv.
  2: { split; [done|]. intros (? & ? & ? & [= <-] & (? & ? & ? & ? & ?) & _). congruence. }
  cbn [vr_Converged]. rewrite forallb_fmap_true. setoid_rewrite verify_target_converged. split.
  - intros H. exists sync, src, tables. split; [done|]. split; [by exists ep, srcEnd|done].
  - intros (? & src' & tables' & [= <-] & (ep' & end' & E1 & E2 & E3) & Hall). rewrite Hs in E1. injection E1 as <-.
    rewrite Ho in E2. injection E2 as <- <-. rewrite Hv in E3. by injection E3 as <-.
Qed.
End exact.

(** ** The digest of a table tells drift *)

Lemma pretty_N_go_nonempty x s : s ≠ "" → pretty_N_go x s ≠ "".
Proof.
  revert s. induction (N.lt_wf_0 x) as [x _ IH]; intros s Hs.
  destruct (decide (x = 0)%N) as [->|Hx]; [by rewrite pretty_N_go_0|].
  rewrite pretty_N_go_step by lia. apply IH; [apply N.div_lt; lia|done].
Qed.

Lemma pretty_Z_nonempty (z : Z) : pretty z ≠ "".
Proof.
  unfold pretty, pretty_Z. destruct z as [|p|p]; [done| |done]. unfold pretty, pretty_positive, pretty, pretty_N.
  rewrite decide_False by done. rewrite pretty_N_go_step by lia. by apply pretty_N_go_nonempty.
Qed.

Section drift.
Context (hash : list (option string) → Z).

(** The rows of a key look the same in both tables. *)
Definition same_row (t : TableRef) (cols : list string) (R T : rows) (k : KeyValues) : Prop :=
  projection cols <$> R !! (t, k) = projection cols <$> T !! (t, k).

(** One has the row and the other does not, or both have it with different hashes. *)
Definition drifted (t : TableRef) (cols : list string) (R T : rows) (k : KeyValues) : Prop :=
  hash <$> (projection cols <$> R !! (t, k)) ≠ hash <$> (projection cols <$> T !! (t, k)).

Definition seen (t : TableRef) (cols : list string) (R : rows) : gmap tkey (list (option string)) :=
  projection cols <$> filter (λ '(tk, _), tk.1 = t) R.

Lemma seen_lookup t cols R t' k :
  seen t cols R !! (t', k) = if decide (t' = t) then projection cols <$> R !! (t', k) else None.
Proof. unfold seen. rewrite lookup_fmap, (lookup_filter_fst (λ tk, tk.1 = t)). simpl. by case_decide. Qed.

Lemma sql_fingerprint_seen t cols R :
  sql_fingerprint hash t cols R =
  mkFP (Z.of_nat (length (vals (seen t cols R)))) (if decide (cols = []) then "" else pretty (digest Z.add 0 hash (vals (seen t cols R)))).
Proof.
  assert (vals (seen t cols R) = projection cols <$> table_rows t R) as ->.
  { unfold vals, table_rows, seen. rewrite map_to_list_fmap, <-!list_fmap_compose. by apply list_fmap_ext; intros ? []. }
  unfold sql_fingerprint. rewrite length_fmap. case_decide; [done|]. f_equal. f_equal.
  induction (table_rows t R) as [|r l IH]; [done|]. simpl. by rewrite IH.
Qed.

Lemma seen_ext t cols R T : (∀ k, same_row t cols R T k) → seen t cols R = seen t cols T.
Proof. intros H. apply map_eq. intros [t' k]. rewrite !seen_lookup. case_decide; [|done]. subst. apply H. Qed.

Lemma fingerprint_alike t cols R T :
  (∀ k, same_row t cols R T k) → sql_fingerprint hash t cols R = sql_fingerprint hash t cols T.
Proof. intros H. rewrite !sql_fingerprint_seen. by rewrite (seen_ext t cols R T H). Qed.

Lemma fingerprint_drift t cols R T k :
  cols ≠ [] → drifted t cols R T k → (∀ k', k' ≠ k → same_row t cols R T k') →
  (classify (sql_fingerprint hash t cols R) (sql_fingerprint hash t cols T)).2 = false.
Proof.
  intros Hc Hd Hs. apply not_true_iff_false. rewrite classify_converged, !sql_fingerprint_seen. cbn [fp_Rows fp_Checksum].
  rewrite !decide_False by done. intros [Hn Hsum].
  destruct Hsum as [H|[H|Hsum]]; [by apply pretty_Z_nonempty in H..|]. apply (inj pretty) in Hsum.
  apply (vals_drift Z.add 0%Z hash (seen t cols R) (seen t cols T) (t, k)); [intros a x y; apply Z.add_cancel_l| | |lia|done].
  - intros [t' k'] Hne. rewrite !seen_lookup. case_decide; [|done]. subst. apply Hs. congruence.
  - rewrite !seen_lookup, !decide_True by done. exact Hd.
Qed.
End drift.

(** C32: On an engine whose fingerprint adds up a hash of every row, Postgres and MySQL, a
    reachable sync is reported converged when every target has the rows of the source on
    the compared columns, whatever their order; and when one row of a target is missing,
    extra or has another hash, it is not. *)
Theorem Verify_finds_drift (hash : list (option string) → Z) (registry : gmap string Eng) (cfg : Config.Config)
    (name : string) (sync : Config.Sync) (tables : list Table) (R : rows) (T : string → rows) :
  findSync cfg name = Some sync →
  verifiable_source registry cfg (selection_of sync) (Config.sy_Source sync) (λ t cols, inr (sql_fingerprint hash t cols R)) tables →
  (∀ tg, tg ∈ Config.sy_Targets sync →
     verifiable_sink registry cfg (selection_of sync) tg (λ t cols, inr (sql_fingerprint hash t cols (T tg)))) →
  ((∀ tg t cols k, tg ∈ Config.sy_Targets sync → (t, cols) ∈ replicableTables tables → same_row t cols R (T tg) k) →
     vr_Converged (Verify registry cfg name) = true) ∧
  (∀ tg t cols k, tg ∈ Config.sy_Targets sync → (t, cols) ∈ replicableTables tables → cols ≠ [] →
     drifted hash t cols R (T tg) k → (∀ k', k' ≠ k → same_row t cols R (T tg) k') →
     vr_Converged (Verify registry cfg name) = false).
Proof.
  intros Hsync Hsrc Htg. split.
  - intros Hsame. apply Verify_converged. do 3 eexists. split; [done|]. split; [done|]. intros tg Hin.
    eexists. split; [by apply Htg|]. intros [t cols] Hrt. do 2 eexists. split_and!; [done..|].
    cbn [fst snd]. rewrite (fingerprint_alike hash t cols R (T tg)) by (intros k; by apply Hsame). apply classify_converged. auto.
  - intros tg t cols k Hin Hrt Hc Hd Hs. apply not_true_iff_false. rewrite Verify_converged.
    intros (sync' & src & tables' & E1 & (ep & srcEnd & E2 & E3 & E4) & H). rewrite Hsync in E1. injection E1 as <-.
    destruct Hsrc as (? & ? & F2 & F3 & F4). rewrite F2 in E2. injection E2 as <-. rewrite F3 in E3. injection E3 as <- <-.
    rewrite F4 in E4. injection E4 as <-. destruct (H tg Hin) as (tgt & (? & ? & G1 & G2 & G3) & Hall).
    destruct (Htg tg Hin) as (? & ? & K1 & K2 & K3). rewrite K1 in G1. injection G1 as <-. rewrite K2 in G2. injection G2 as <-.
    rewrite K3 in G3. injection G3 as <-. destruct (Hall _ Hrt) as (a & b & [= <-] & [= <-] & Hc2).
    by rewrite (fingerprint_drift hash t cols R (T tg) k Hc Hd Hs) in Hc2.
Qed.

(** ** What the rendering of a MySQL row tells *)

Definition plain (v : option string) : Prop :=
  match v with Some s => s ≠ char 0 ∧ ascii_of_nat 1 ∉ String.list_ascii_of_string s | None => True end.

Lemma app_sep_inj (c : ascii) (a b x y : list ascii) :
  c ∉ a → c ∉ b → a ++ c :: x = b ++ c :: y → a = b ∧ x = y.
Proof.
  revert b. induction a as [|u a IH]; intros [|v b] Ha Hb E; simplify_eq/=; [done|set_solver..|].
  destruct (IH b) as [-> ->]; set_solver.
Qed.

Lemma rendered_text v : plain v → ascii_of_nat 1 ∉ String.list_ascii_of_string (default (char 0) v).
Proof. destruct v as [s|]; simpl; [by intros [_ ?]|]. intros _ H. by repeat (apply elem_of_cons in H as [H|H]; [done|]); apply not_elem_of_nil in H. Qed.

Lemma rendered_inj v v' : plain v → plain v' → default (char 0) v = default (char 0) v' → v = v'.
Proof. destruct v as [s|], v' as [s'|]; simpl; [by intros _ _ ->|by intros [? _] _ ?|by intros _ [? _] ?|done]. Qed.

Lemma list_ascii_app a b :
  String.list_ascii_of_string (a +:+ b) = String.list_ascii_of_string a ++ String.list_ascii_of_string b.
Proof. induction a as [|c a IH]; simpl; [done|]. by rewrite IH. Qed.

(** Values without the separator and different from the mark of NULL are told apart. *)
Lemma my_render_inj vals vals' :
  length vals = length vals' → Forall plain vals → Forall plain vals' → my_render vals = my_render vals' → vals = vals'.
Proof.
  unfold my_render. revert vals'. induction vals as [|v vals IH]; intros [|v' vals'] Hlen Hp Hp'; [done..|].
  apply Forall_cons in Hp as [Hv Hp], Hp' as [Hv' Hp']. simpl in Hlen.
  destruct vals as [|w vals], vals' as [|w' vals']; [|done..|].
  - cbn [fmap list_fmap String.concat]. intros E. by rewrite (rendered_inj v v').
  - cbn [fmap list_fmap]. cbn [String.concat]. intros E%(f_equal String.list_ascii_of_string).
    rewrite !list_ascii_app in E. apply app_sep_inj in E as [E1 E2]; [|by apply rendered_text..].
    apply (f_equal String.string_of_list_ascii) in E1, E2. rewrite !String.string_of_list_ascii_of_string in E1, E2.
    rewrite (rendered_inj v v'); [|done..]. f_equal. apply IH; [simpl in *; lia|done..].
Qed.

(** The fingerprint of MySQL does not tell these tables apart, whatever the hash: values
    with the separator, and NULL from the one-byte text that marks it. *)
Lemma my_fingerprint_blind md5 (t : TableRef) (k : KeyValues) :
  let one (r : Row) : rows := <[(t, k) := r]> ∅ in
  let rowOf a b : Row := {[ "a" := a; "b" := b ]} in
  my_fingerprint md5 t ["a"; "b"] (one (rowOf ("x" +:+ char 1 +:+ "y") "z")) =
  my_fingerprint md5 t ["a"; "b"] (one (rowOf "x" ("y" +:+ char 1 +:+ "z"))) ∧
  my_fingerprint md5 t ["a"] (one {[ "a" := char 0 ]}) = my_fingerprint md5 t ["a"] (one ∅).
Proof.
  assert (∀ r : Row, table_rows t (<[(t, k) := r]> ∅) = [r]) as Hr.
  { intros r. unfold table_rows. rewrite map_filter_insert_True by done. by rewrite map_filter_empty, insert_empty, map_to_list_singleton. }
  unfold my_fingerprint, sql_fingerprint. cbv zeta. rewrite !Hr. split; reflexivity.
Qed.

(** ** Examples *)

Section example.
Definition ex_tuning : Config.Tuning := Config.mkTuning 0 0 0 0 0 0 0.
Definition ex_endpoint : Config.Endpoint := Config.mkEndpoint "postgres" "" ∅ None.
Definition ex_sync : Config.Sync := Config.mkSync "s" "src" ["tgt"] [] [] ex_tuning None None.
Definition ex_cfg : Config.Config :=
  Config.mkConfig "" "" 0 None {[ "src" := ex_endpoint ]} {[ "tgt" := ex_endpoint ]} [ex_sync] ∅ [].
Definition ex_column (name : string) : Column := mkColumn name "text" false false false false false "".
Definition ex_ref : TableRef := mkRef "shop" "users".
Definition ex_tables : list Table :=
  [mkTable ex_ref [ex_column "id"; ex_column "name"] (Some (mkKey "PRIMARY" ["id"] true)) [] [] false ""].
Definition ex_row (name : string) : Row := {[ "id" := "7"; "name" := name ]}.
Definition ex_rows (name : string) : rows := <[(ex_ref, [VText "7"] : KeyValues) := ex_row name]> ∅.
Definition ex_hash : list (option string) → Z :=
  λ vals, Z.of_nat (foldr (λ v n, n + String.length (default "" v)) 0 vals).
Definition ex_open (R : rows) : verifier := λ t cols, inr (sql_fingerprint ex_hash t cols R).
Definition ex_engine (src tgt : rows) : Eng :=
  let endpoint R := mkEP None (λ _, inr ex_tables) (Some (ex_open R)) in
  mkEng (λ _, inr (endpoint src)) (λ _, inr (endpoint tgt)).
Definition ex_registry (tgt : string) : gmap string Eng := {[ "postgres" := ex_engine (ex_rows "Ann") (ex_rows tgt) ]}.
Definition ex_verify (tgt : string) : VerifyReport := Verify (ex_registry tgt) ex_cfg "s".

(** An equal target converges, one with another name does not. *)
Lemma Verify_finds_drift_witness :
  vr_Converged (ex_verify "Ann") = true ∧ vr_Converged (ex_verify "Anna") = false.
Proof.
  assert (∀ tgt, (∀ k', k' ≠ [VText "7"] → same_row ex_ref ["id"; "name"] (ex_rows "Ann") (ex_rows tgt) k')) as Hsame.
  { intros tgt k' Hk. unfold same_row, ex_rows. rewrite !lookup_insert_ne by congruence. reflexivity. }
  assert (∀ tgt, verifiable_source (ex_registry tgt) ex_cfg (selection_of ex_sync) (Config.sy_Source ex_sync)
    (ex_open (ex_rows "Ann")) ex_tables) as Hsrc.
  { intros tgt. eexists _, _. split; [reflexivity|]. split; reflexivity. }
  assert (∀ tgt tg, tg ∈ Config.sy_Targets ex_sync →
    verifiable_sink (ex_registry tgt) ex_cfg (selection_of ex_sync) tg (ex_open (ex_rows tgt))) as Htg.
  { intros tgt tg ->%list_elem_of_singleton. eexists _, _. split; [reflexivity|]. split; reflexivity. }
  split.
  - apply (Verify_finds_drift ex_hash (ex_registry "Ann") ex_cfg "s" ex_sync ex_tables (ex_rows "Ann") (λ _, ex_rows "Ann")
      eq_refl (Hsrc "Ann") (Htg "Ann")).
    intros tg t cols k _ _. reflexivity.
  - apply (proj2 (Verify_finds_drift ex_hash (ex_registry "Anna") ex_cfg "s" ex_sync ex_tables (ex_rows "Ann") (λ _, ex_rows "Anna")
      eq_refl (Hsrc "Anna") (Htg "Anna"))
      "tgt" ex_ref ["id"; "name"] [VText "7"]); [left|left|discriminate|vm_compute; discriminate|exact (Hsame "Anna")].
Defined.

(** The same runs, evaluated. *)
Lemma ex_statuses :
  (λ tgt, mjoin ((λ v, vt_Status <$> vg_Tables v) <$> vr_Targets (ex_verify tgt))) <$> ["Ann"; "Anna"] = [["ok"]; ["drift-checksum"]].
Proof. vm_compute. reflexivity. Qed.
End example.
End Verify.
