(* ===== verification/RedisVerify.v ===== *)
(** * The fingerprint of a Redis keyspace ([internal/engine/redis/verify.go])

    The verifier scans every shard once and folds, for every selected key, a hash of the
    key, its type and a canonical form of its logical value into an exclusive or. This file
    models the pass with its two pipelined reads per SCAN, the canonical forms, and shows
    what equal and different fingerprints say. The md5 sum, the text of a float and the
    order in which a server lists a set are parameters. A key that SCAN returns twice cancels
    itself out ([duplicate_hides_key]); [no_repeats] says that none is. *)

From S2P Require Import Prelude Text Engine RedisFrame RedisKeys RedisScan RedisSync Verify.
Import RedisFrame RedisKeys RedisScan Verify.

Module RedisVerify.

(** ** Values *)

(** Logical values; the score of a sorted set's member by the bits of the float, members in
    the order of ZRANGE, entries of a stream with their fields as they were added. *)
Inductive rvalue :=
| RString (b : bytes)
| RList (l : list bytes)
| RSet (s : gset bytes)
| RZSet (l : list (bytes * Z))
| RHash (m : gmap bytes bytes)
| RStream (l : list (bytes * list (bytes * bytes)))
| RModule (name : string).

Abbreviation keyspace := (gmap bytes rvalue).

Definition type_name (v : option rvalue) : string :=
  match v with
  | None => "none"
  | Some (RString _) => "string"
  | Some (RList _) => "list"
  | Some (RSet _) => "set"
  | Some (RZSet _) => "zset"
  | Some (RHash _) => "hash"
  | Some (RStream _) => "stream"
  | Some (RModule n) => n
  end.

(** ** Replies (the command types of the client library) *)

Inductive cmdErr := ErrNil | ErrWrongType | ErrOther (e : error).

Inductive cmd :=
| StringCmd (r : cmdErr + bytes)
| StringSliceCmd (r : cmdErr + list bytes)
| ZSliceCmd (r : cmdErr + list (bytes * Z))
| MapStringStringCmd (r : cmdErr + gmap bytes bytes)
| XMessageSliceCmd (r : cmdErr + list (bytes * gmap bytes bytes)).

(** An entry of a stream is decoded into a map: a repeated field keeps its last value. *)
Definition fields_map (l : list (bytes * bytes)) : gmap bytes bytes := foldl (λ m '(f, v), <[f := v]> m) ∅ l.

(** ** Canonical forms *)

(** [writeField], and one round of [joinFields]. *)
Definition field (b : bytes) : bytes := be_bytes 8 (Z.of_nat (length b)) ++ b.

Definition joinFields (vals : list bytes) : bytes := vals ≫= field.

(** [sort.Strings] *)
Definition sort_strings (l : list bytes) : list bytes := sort_by Text.untxt l.

(** The fields of a map with their values, by name. *)
Definition sorted_fields (m : gmap bytes bytes) : list bytes :=
  sort_strings (elements (dom m)) ≫= λ f, [f; default [] (m !! f)].

Section verify.
Context (md5 : bytes → Z) (formatFloat : Z → bytes).

(** [canonicalValue]: an error, nothing (the key is skipped), or the form. *)
Definition canonicalValue (typ : string) (c : cmd) : result (option bytes) :=
  let settle {A} (r : cmdErr + A) (f : A → bytes) : result (option bytes) :=
    match r with
    | inl ErrNil | inl ErrWrongType => inr None
    | inl (ErrOther e) => inl e
    | inr a => inr (Some (f a))
    end in
  match c with
  | StringCmd r => settle r id
  | StringSliceCmd r => settle r (λ vals, joinFields (if decide (typ = "set") then sort_strings vals else vals))
  | ZSliceCmd r => settle r (λ zs, joinFields (zs ≫= λ '(m, s), [m; formatFloat s]))
  | MapStringStringCmd r => settle r (λ m, joinFields (sorted_fields m))
  | XMessageSliceCmd r => settle r (λ msgs, joinFields (msgs ≫= λ '(id, m), id :: sorted_fields m))
  end.

(** What is hashed for a key, and the first 64 bits of the sum. *)
Definition hash_input (k : bytes) (typ : string) (canon : bytes) : bytes := field k ++ field (Text.txt typ) ++ field canon.

Section server.
Context `{Srv : ScanServer} (smembers : gset bytes → list bytes).

(** The read chosen by the type, as the server answers it. Only GET has no value for a
    key that is gone: the other reads answer with an empty collection. *)
Definition read_cmd (typ : string) (v : option rvalue) : option cmd :=
  let collection {A} (empty : A) (get : rvalue → option A) : cmdErr + A :=
    match v with
    | None => inr empty
    | Some v => match get v with Some a => inr a | None => inl ErrWrongType end
    end in
  if decide (typ = "string") then
    Some (StringCmd (match v with None => inl ErrNil | Some (RString b) => inr b | _ => inl ErrWrongType end))
  else if decide (typ = "list") then
    Some (StringSliceCmd (collection [] (λ v, match v with RList l => Some l | _ => None end)))
  else if decide (typ = "set") then
    Some (StringSliceCmd (collection [] (λ v, match v with RSet s => Some (smembers s) | _ => None end)))
  else if decide (typ = "zset") then
    Some (ZSliceCmd (collection [] (λ v, match v with RZSet l => Some l | _ => None end)))
  else if decide (typ = "hash") then
    Some (MapStringStringCmd (collection ∅ (λ v, match v with RHash m => Some m | _ => None end)))
  else if decide (typ = "stream") then
    Some (XMessageSliceCmd (collection [] (λ v, match v with RStream l => Some ((λ '(id, fs), (id, fields_map fs)) <$> l) | _ => None end)))
  else None.

(** The loop of [hashBatch] over the replies. *)
Fixpoint hash_loop (d1 d2 : keyspace) (keys : list bytes) (xor count : Z) : result (Z * Z) :=
  match keys with
  | [] => inr (xor, count)
  | k :: keys =>
      let typ := type_name (d1 !! k) in
      match read_cmd typ (d2 !! k) with
      | None => hash_loop d1 d2 keys xor count
      | Some c =>
          match canonicalValue typ c with
          | inl e => inl e
          | inr None => hash_loop d1 d2 keys xor count
          | inr (Some canon) => hash_loop d1 d2 keys (Z.lxor xor (md5 (hash_input k typ canon))) (count + 1)
          end
      end
  end.

(** [hashBatch]: the TYPE pipeline finds [d1], the value pipeline [d2], or fails. *)
Definition hashBatch (d1 d2 : result keyspace) (keys : list bytes) : result (Z * Z) :=
  match d1, d2 with
  | inl e, _ => inl (Errorf "redis: TYPE pipeline" e)
  | inr _, inl e => inl (Errorf "redis: value pipeline" e)
  | inr d1, inr d2 => hash_loop d1 d2 keys 0 0
  end.

Definition selected (sel : option selection) (k : bytes) : bool :=
  match sel with None => true | Some s => sel_match s k end.

(** The goroutine of [fingerprintUnit] on one shard; [view n]: what the [n]-th round trip
    finds. *)
Fixpoint fingerprint_shard (fuel : nat) (view : nat → result keyspace) (scanCount : Z) (sel : option selection)
    (n : nat) (cursor count checksum : Z) : option (result (Z * Z)) :=
  match fuel with
  | 0 => None
  | S fuel =>
      match view n with
      | inl e => Some (inl (Errorf "redis: SCAN" e))
      | inr d =>
          let '(keys, cur) := scan (dom d) cursor scanCount in
          let sel_keys := filter (selected sel) keys in
          match (if decide (sel_keys = []) then inr (0, 0)%Z else hashBatch (view (S n)) (view (S (S n))) sel_keys) with
          | inl e => Some (inl e)
          | inr (sum, m) =>
              let checksum := Z.lxor checksum sum in
              let count := (count + m)%Z in
              if decide (cur = 0%Z) then Some (inr (count, checksum))
              else fingerprint_shard fuel view scanCount sel (S (S (S n))) cur count checksum
          end
      end
  end.

(** [fingerprintUnit]: the goroutines of the shards add to one count and one checksum under
    a lock, so their order does not matter; the shards are taken one after the other. *)
Fixpoint fingerprintUnit (fuel : nat) (views : list (nat → result keyspace)) (scanCount : Z) (sel : option selection)
    : option (result (Z * Z)) :=
  match views with
  | [] => Some (inr (0, 0)%Z)
  | view :: views =>
      r ← fingerprint_shard fuel view scanCount sel 0 0 0 0;
      rs ← fingerprintUnit fuel views scanCount sel;
      Some (match r, rs with
            | inl e, _ | _, inl e => inl e
            | inr (c, x), inr (c', x') => inr ((c + c')%Z, Z.lxor x x')
            end)
  end.

(** [countUnit] on one shard, and on all. *)
Fixpoint count_shard (fuel : nat) (view : nat → result keyspace) (scanCount : Z) (sel : option selection)
    (n : nat) (cursor count : Z) : option (result Z) :=
  match fuel with
  | 0 => None
  | S fuel =>
      match view n with
      | inl e => Some (inl (Errorf "redis: SCAN" e))
      | inr d =>
          let '(keys, cur) := scan (dom d) cursor scanCount in
          let count := (count + Z.of_nat (length (filter (selected sel) keys)))%Z in
          if decide (cur = 0%Z) then Some (inr count) else count_shard fuel view scanCount sel (S n) cur count
      end
  end.

Fixpoint countUnit (fuel : nat) (views : list (nat → result keyspace)) (scanCount : Z) (sel : option selection)
    : option (result Z) :=
  match views with
  | [] => Some (inr 0%Z)
  | view :: views =>
      r ← count_shard fuel view scanCount sel 0 0 0;
      rs ← countUnit fuel views scanCount sel;
      Some (match r, rs with inl e, _ | _, inl e => inl e | inr c, inr c' => inr (c + c')%Z end)
  end.

(** fmt.Sprintf("%016x", sum) *)
Definition hex_digit (n : Z) : ascii :=
  default "0"%char (String.list_ascii_of_string "0123456789abcdef" !! Z.to_nat n).
Fixpoint hex (n : nat) (z : Z) : string :=
  match n with
  | 0 => ""
  | S n => String (hex_digit ((z / 16 ^ Z.of_nat n) mod 16)) (hex n z)
  end.

(** [Source.Fingerprint] and [Sink.Fingerprint] *)
Definition fingerprint (fuel : nat) (views : list (nat → result keyspace)) (scanCount : Z) (sel : option selection)
    : option (result Fingerprint) :=
  r ← fingerprintUnit fuel views scanCount sel;
  Some (match r with inl e => inl e | inr (n, sum) => inr (mkFP n (hex 16 sum)) end).
End server.
End verify.

(** ** The hashed text tells key, type and form apart *)

Lemma field_inj a b x y :
  (Z.of_nat (length a) < 2 ^ 64)%Z → (Z.of_nat (length b) < 2 ^ 64)%Z → field a ++ x = field b ++ y → a = b ∧ x = y.
Proof.
  intros Ha Hb. unfold field. rewrite <-!app_assoc. intros E.
  apply app_inj_1 in E as [E1 E2]; [|by rewrite !be_length]. apply (f_equal be_value) in E1.
  rewrite !be_value_small in E1 by (simpl; lia). by apply app_inj_1 in E2; [|lia].
Qed.

Definition short (b : bytes) : Prop := (Z.of_nat (length b) < 2 ^ 64)%Z.

Lemma joinFields_inj l l' : Forall short l → Forall short l' → joinFields l = joinFields l' → l = l'.
Proof.
  unfold joinFields. revert l'. induction l as [|a l IH]; intros [|b l'] Hl Hl'; [done|by unfold field..|].
  apply Forall_cons in Hl as [Ha Hl], Hl' as [Hb Hl']. cbn [mbind list_bind]. intros E.
  apply field_inj in E as [-> E]; [|done..]. by rewrite (IH l').
Qed.

Lemma hash_input_inj k typ c k' typ' c' :
  short k → short (Text.txt typ) → short c → short k' → short (Text.txt typ') → short c' →
  hash_input k typ c = hash_input k' typ' c' → k = k' ∧ typ = typ' ∧ c = c'.
Proof.
  unfold hash_input. intros K1 T1 C1 K2 T2 C2 E. apply field_inj in E as [-> E]; [|done..].
  apply field_inj in E as [E1 E]; [|done..]. rewrite <-(app_nil_r (field c)), <-(app_nil_r (field c')) in E.
  apply field_inj in E as [-> _]; [|done..]. split_and!; [done| |done].
  apply (f_equal Text.untxt) in E1. by rewrite !Text.untxt_txt in E1.
Qed.

(** ** What a value contributes *)

Lemma sort_strings_perm l l' : l ≡ₚ l' → sort_strings l = sort_strings l'.
Proof.
  intros Hp. unfold sort_strings.
  apply (StronglySorted_unique_strong (key_le Text.untxt)); [|apply sort_by_sorted..|by rewrite !sort_by_perm].
  intros a b _ _ H1 H2. unfold key_le in *. pose proof (f_equal Text.txt (anti_symm str_le _ _ H1 H2)) as E.
  by rewrite !Text.txt_untxt in E.
Qed.

Section content.
Context (md5 : bytes → Z) (formatFloat : Z → bytes).

(** The canonical form, from the value alone. *)
Definition canon (v : rvalue) : option bytes :=
  match v with
  | RString b => Some b
  | RList l => Some (joinFields l)
  | RSet s => Some (joinFields (sort_strings (elements s)))
  | RZSet l => Some (joinFields (l ≫= λ '(m, s), [m; formatFloat s]))
  | RHash m => Some (joinFields (sorted_fields m))
  | RStream l => Some (joinFields (l ≫= λ '(id, fs), id :: sorted_fields (fields_map fs)))
  | RModule _ => None
  end.

Definition item (k : bytes) (v : rvalue) : option bytes := hash_input k (type_name (Some v)) <$> canon v.

(** The hashed texts of the selected keys. *)
Definition content (sel : option selection) (d : keyspace) : gmap bytes bytes :=
  map_imap (λ k v, if selected sel k then item k v else None) d.

Lemma read_canonical (smembers : gset bytes → list bytes) v :
  (∀ s, smembers s ≡ₚ elements s) →
  match read_cmd smembers (type_name (Some v)) (Some v) with
  | None => inr None
  | Some c => canonicalValue formatFloat (type_name (Some v)) c
  end = inr (canon v).
Proof.
  intros Hs. destruct v as [b|l|s|l|m|l|n]; try done.
  - unfold read_cmd. simpl. by rewrite (sort_strings_perm _ _ (Hs s)).
  - unfold read_cmd. simpl. do 3 f_equal. induction l as [|[id fs] l IH]; [done|]. simpl. do 2 f_equal. exact IH.
  - unfold read_cmd. cbn [type_name]. by repeat (case_decide; [done|]).
Qed.

Context `{Srv : ScanServer} (smembers : gset bytes → list bytes) (smembers_perm : ∀ s, smembers s ≡ₚ elements s).

(** A batch read while nothing changes. *)
Lemma hash_loop_quiet (d : keyspace) (keys : list bytes) (xor count : Z) :
  hash_loop md5 formatFloat smembers d d keys xor count =
  let items := omap (λ k, d !! k ≫= item k) keys in
  inr (Z.lxor xor (digest Z.lxor 0 md5 items), (count + Z.of_nat (length items))%Z).
Proof.
  revert xor count. induction keys as [|k keys IH]; intros xor count; cbn [hash_loop].
  { simpl. by rewrite Z.lxor_0_r, Z.add_0_r. }
  assert (omap (λ k, d !! k ≫= item k) (k :: keys) =
    match d !! k ≫= item k with Some b => b :: omap (λ k, d !! k ≫= item k) keys | None => omap (λ k, d !! k ≫= item k) keys end) as ->
    by done.
  destruct (d !! k) as [v|] eqn:Hk; cbn [mbind option_bind].
  - pose proof (read_canonical smembers v smembers_perm) as Hr.
    assert (item k v = hash_input k (type_name (Some v)) <$> canon v) as -> by done.
    destruct (read_cmd smembers (type_name (Some v)) (Some v)) as [c|].
    + rewrite Hr. destruct (canon v) as [b|]; cbn [fmap option_fmap option_map]; rewrite IH; cbv zeta; [|done].
      cbn [digest foldr length]. f_equal. f_equal; [by rewrite Z.lxor_assoc|lia].
    + injection Hr as <-. by rewrite IH.
  - by rewrite IH.
Qed.
End content.

(** ** A full pass over a keyspace nobody writes to *)

(** A full iteration of a shard with the keys [K] returns no key twice and no key that is not
    there. SCAN does not promise the first (a table that is resized during the iteration may
    repeat keys); [duplicate_hides_key] shows what a repetition does. *)
Definition scans_once `{Srv : ScanServer} (K : keyset) : Prop :=
  ∀ Ks ks, scanning Ks ks 0 → Ks ≠ [] → (∀ K', K' ∈ Ks → K' = K) → NoDup ks ∧ ∀ k, k ∈ ks → k ∈ K.

Lemma vals_imap `{Countable K} {A B} (f : K → A → option B) (m : gmap K A) :
  vals (map_imap f m) ≡ₚ omap (λ '(k, a), f k a) (map_to_list m).
Proof.
  unfold vals. induction m as [|k a m Hk IH] using map_ind.
  { by rewrite map_imap_empty, !map_to_list_empty. }
  rewrite (map_to_list_insert m k a Hk). rewrite map_imap_insert. simpl. destruct (f k a) as [b|] eqn:Hf.
  - rewrite map_to_list_insert by (rewrite map_lookup_imap, Hk; done). simpl. by rewrite IH.
  - rewrite delete_id by (rewrite map_lookup_imap, Hk; done). exact IH.
Qed.

(** The shard [i] of a deployment. *)
Definition shard (top : RedisSync.topology) (d : keyspace) (i : nat) : keyspace :=
  filter (λ '(k, _), RedisSync.top_owner top k = i) d.

(** Every round trip to a shard finds the same. *)
Definition views (top : RedisSync.topology) (d : keyspace) : list (nat → result keyspace) :=
  (λ i _, inr (shard top d i)) <$> seq 0 (RedisSync.top_shards top).

Section quiet.
Context (md5 : bytes → Z) (formatFloat : Z → bytes).
Context {Srv : ScanServer} {Laws : ScanLaws Srv}.
Context (smembers : gset bytes → list bytes) (smembers_perm : ∀ s, smembers s ≡ₚ elements s).
Context (scanCount : Z) (sel : option selection).

Definition batch_items (d : keyspace) (ks : list bytes) : list bytes :=
  omap (λ k, d !! k ≫= item formatFloat k) (filter (selected sel) ks).

Lemma batch_items_app d ks ks' : batch_items d (ks ++ ks') = batch_items d ks ++ batch_items d ks'.
Proof. unfold batch_items. by rewrite filter_app, omap_app. Qed.

Lemma items_content d ks : ks ≡ₚ elements (dom d) → batch_items d ks ≡ₚ vals (content formatFloat sel d).
Proof.
  intros Hp. unfold batch_items, content. rewrite vals_imap, Hp.
  assert (elements (dom d) ≡ₚ (map_to_list d).*1) as ->.
  { apply NoDup_Permutation; [apply NoDup_elements|apply NoDup_fst_map_to_list|]. intros k.
    rewrite elem_of_elements, elem_of_dom, list_elem_of_fmap. split.
    - intros [v Hv]. exists (k, v). by rewrite elem_of_map_to_list.
    - intros ([k' v] & -> & Hv%elem_of_map_to_list). by eexists. }
  assert (∀ k v, (k, v) ∈ map_to_list d → d !! k = Some v) as Hd by (intros k v; by rewrite elem_of_map_to_list).
  induction (map_to_list d) as [|[k v] l IH]; [done|]. cbn [fmap list_fmap fst].
  assert (omap (λ k, d !! k ≫= item formatFloat k) (filter (selected sel) l.*1) ≡ₚ
          omap (λ '(k, a), if selected sel k then item formatFloat k a else None) l) as IH'
    by (apply IH; intros k' v' Hin; apply Hd; by right).
  rewrite filter_cons. simpl. destruct (selected sel k); simpl; [|exact IH'].
  rewrite (Hd k v) by (by left). simpl. destruct (item formatFloat k v); [by rewrite IH'|exact IH'].
Qed.

Lemma fingerprint_shard_quiet d fuel Ks ks c n count x :
  scanning Ks ks c → (∀ K, K ∈ Ks → K = dom d) → (Ks = [] ∨ c ≠ 0%Z) → scan_steps (size (dom d)) < fuel + length Ks →
  ∃ Ks' ks', scanning Ks' (ks ++ ks') 0 ∧ Ks' ≠ [] ∧ (∀ K, K ∈ Ks' → K = dom d) ∧
    fingerprint_shard md5 formatFloat smembers fuel (λ _, inr d) scanCount sel n c count x =
    Some (inr ((count + Z.of_nat (length (batch_items d ks')))%Z, Z.lxor x (digest Z.lxor 0 md5 (batch_items d ks')))).
Proof.
  revert Ks ks c n count x. induction fuel as [|fuel IH]; intros Ks ks c n count x Hsc HK Hc Hf.
  { exfalso. destruct Hc as [->|Hc]; [simpl in Hf; lia|].
    assert (length Ks < scan_steps (size (dom d))); [|simpl in Hf; lia].
    apply (scan_ends _ Ks ks c Hsc Hc). intros K HK'. by rewrite (HK K HK'). }
  cbn [fingerprint_shard]. pose proof (scanning_next Ks ks c (dom d) scanCount Hsc Hc) as Hn.
  destruct (scan (dom d) c scanCount) as [keys cur]. simpl in Hn.
  assert (∀ K, K ∈ Ks ++ [dom d] → K = dom d) as HK' by (intros K [?|?%list_elem_of_singleton]%elem_of_app; auto).
  assert ((if decide (filter (selected sel) keys = []) then inr (0, 0)%Z
           else hashBatch md5 formatFloat smembers (inr d) (inr d) (filter (selected sel) keys)) =
          inr (digest Z.lxor 0 md5 (batch_items d keys), Z.of_nat (length (batch_items d keys)))) as ->.
  { unfold batch_items. case_decide as Hs; [by rewrite Hs|]. simpl. by rewrite (hash_loop_quiet md5 formatFloat smembers smembers_perm). }
  case_decide as Hcur.
  - subst cur. exists (Ks ++ [dom d]), keys. split_and!; [done|by destruct Ks|done|done].
  - destruct (IH (Ks ++ [dom d]) (ks ++ keys) cur (S (S (S n))) (count + Z.of_nat (length (batch_items d keys)))%Z
      (Z.lxor x (digest Z.lxor 0 md5 (batch_items d keys))) Hn HK') as (Ks' & ks' & H1 & H2 & H3 & ->);
      [by right|rewrite length_app; simpl; lia|].
    exists Ks', (keys ++ ks'). rewrite app_assoc. split_and!; [done..|].
    rewrite batch_items_app, length_app, (digest_app Z.lxor 0 md5), Z.lxor_assoc. do 3 f_equal. lia.
Qed.

Lemma fingerprint_shard_exact d fuel :
  scans_once (dom d) → scan_steps (size (dom d)) < fuel →
  fingerprint_shard md5 formatFloat smembers fuel (λ _, inr d) scanCount sel 0 0 0 0 =
  Some (inr (Z.of_nat (length (vals (content formatFloat sel d))), digest Z.lxor 0 md5 (vals (content formatFloat sel d)))).
Proof.
  intros Honce Hf. destruct (fingerprint_shard_quiet d fuel [] [] 0 0 0 0) as (Ks & ks & H1 & H2 & H3 & ->);
    [constructor|by intros K ?%not_elem_of_nil|by left|simpl; lia|].
  simpl in H1. destruct (Honce Ks ks H1 H2 H3) as [Hnd Hin].
  assert (ks ≡ₚ elements (dom d)) as Hp.
  { apply NoDup_Permutation; [done|apply NoDup_elements|]. intros k. rewrite elem_of_elements. split; [by apply Hin|].
    intros Hk. apply (scan_full Ks ks k H1 H2). by intros K ->%H3. }
  pose proof (items_content d ks Hp) as Hi. by rewrite (Permutation_length Hi), (digest_perm Z.lxor 0 md5 _ _ Hi), Z.add_0_l, Z.lxor_0_l.
Qed.
End quiet.

(** ** All shards *)

Lemma vals_union `{Countable K} {A} (m m' : gmap K A) : m ##ₘ m' → vals (m ∪ m') ≡ₚ vals m ++ vals m'.
Proof.
  intros Hd. unfold vals. rewrite <-fmap_app. apply fmap_Permutation. apply NoDup_Permutation.
  - apply NoDup_map_to_list.
  - apply NoDup_app. split_and!; [apply NoDup_map_to_list| |apply NoDup_map_to_list].
    intros [k a]. rewrite !elem_of_map_to_list. intros H1 H2. by apply (proj1 (map_disjoint_spec _ _) Hd k a a).
  - intros [k a]. rewrite elem_of_app, !elem_of_map_to_list. by apply lookup_union_Some.
Qed.

(** A map cut into the parts [own] tells. *)
Lemma vals_parts `{Countable K} {A} (own : K → nat) (m : gmap K A) n :
  vals (filter (λ '(k, _), own k < n) m) ≡ₚ mjoin ((λ i, vals (filter (λ '(k, _), own k = i) m)) <$> seq 0 n).
Proof.
  induction n as [|n IH].
  { assert (filter (λ '(k, _), own k < 0) m = ∅) as -> by (apply map_eq; intros k; rewrite (lookup_filter_fst (λ k, own k < 0)); case_decide; [lia|done]).
    unfold vals. by rewrite map_to_list_empty. }
  rewrite seq_S, fmap_app, join_app. simpl. rewrite app_nil_r, <-IH, <-vals_union.
  - match goal with |- vals ?a ≡ₚ vals ?b => assert (a = b) as ->; [|done] end. apply map_eq. intros k.
    rewrite lookup_union, (lookup_filter_fst (λ k, own k < S n)), (lookup_filter_fst (λ k, own k < n)), (lookup_filter_fst (λ k, own k = n)).
    repeat case_decide; try lia; destruct (m !! k); done.
  - apply map_disjoint_spec. intros k a b. rewrite (lookup_filter_fst (λ k, own k < n)), (lookup_filter_fst (λ k, own k = n)).
    repeat case_decide; [lia|done..].
Qed.

(** The deployment holds every key. *)
Definition placed (top : RedisSync.topology) (d : keyspace) : Prop :=
  ∀ k, k ∈ dom d → RedisSync.top_owner top k < RedisSync.top_shards top.

(** More calls than any shard needs. *)
Definition enough `{Srv : ScanServer} (top : RedisSync.topology) (d : keyspace) (fuel : nat) : Prop :=
  ∀ i, i < RedisSync.top_shards top → scan_steps (size (dom (shard top d i))) < fuel.

(** The iterations over the shards repeat no key. *)
Definition no_repeats `{Srv : ScanServer} (top : RedisSync.topology) (d : keyspace) : Prop :=
  ∀ i, i < RedisSync.top_shards top → scans_once (dom (shard top d i)).

Section unit.
Context (md5 : bytes → Z) (formatFloat : Z → bytes).
Context {Srv : ScanServer} {Laws : ScanLaws Srv}.
Context (smembers : gset bytes → list bytes) (smembers_perm : ∀ s, smembers s ≡ₚ elements s).
Context (scanCount : Z) (sel : option selection).

Lemma shard_content top d i :
  content formatFloat sel (shard top d i) = filter (λ '(k, _), RedisSync.top_owner top k = i) (content formatFloat sel d).
Proof.
  apply map_eq. intros k. rewrite (lookup_filter_fst (λ k, RedisSync.top_owner top k = i)). unfold content, shard.
  rewrite !map_lookup_imap, (lookup_filter_fst (λ k, RedisSync.top_owner top k = i)). by case_decide.
Qed.

Lemma fingerprintUnit_fold fuel vs (Ls : list (list bytes)) :
  Forall2 (λ v L, fingerprint_shard md5 formatFloat smembers fuel v scanCount sel 0 0 0 0 =
    Some (inr (Z.of_nat (length L), digest Z.lxor 0 md5 L))) vs Ls →
  fingerprintUnit md5 formatFloat smembers fuel vs scanCount sel =
  Some (inr (Z.of_nat (length (mjoin Ls)), digest Z.lxor 0 md5 (mjoin Ls))).
Proof.
  induction 1 as [|v L vs Ls Hv _ IH]; [done|]. cbn [fingerprintUnit]. rewrite Hv, IH. cbn [mbind option_bind]. change (mjoin (L :: Ls)) with (L ++ mjoin Ls).
  rewrite length_app, (digest_app Z.lxor 0%Z md5). do 3 f_equal. lia.
Qed.

(** The pass ends with the number of the selected keys of readable types and the digest of
    their contents, however they are placed. *)
Lemma fingerprintUnit_exact top d fuel :
  placed top d → no_repeats top d → enough top d fuel →
  fingerprintUnit md5 formatFloat smembers fuel (views top d) scanCount sel =
  Some (inr (Z.of_nat (length (vals (content formatFloat sel d))), digest Z.lxor 0 md5 (vals (content formatFloat sel d)))).
Proof.
  intros Hp Ho Hf. rewrite (fingerprintUnit_fold fuel _ ((λ i, vals (content formatFloat sel (shard top d i))) <$> seq 0 (RedisSync.top_shards top))).
  - assert (mjoin ((λ i, vals (content formatFloat sel (shard top d i))) <$> seq 0 (RedisSync.top_shards top)) ≡ₚ vals (content formatFloat sel d)) as H.
    { rewrite (list_fmap_ext _ (λ i, vals (filter (λ '(k, _), RedisSync.top_owner top k = i) (content formatFloat sel d)))
        (seq 0 (RedisSync.top_shards top))) by (intros ? i _; by rewrite shard_content).
      rewrite <-vals_parts, map_filter_id; [done|]. intros k b Hk. apply Hp. unfold content in Hk.
      rewrite map_lookup_imap in Hk. apply bind_Some in Hk as (v & Hv & _). apply elem_of_dom. by eexists. }
    by rewrite (Permutation_length H), (digest_perm Z.lxor 0%Z md5 _ _ H).
  - unfold views. apply Forall2_fmap, Forall_Forall2_diag, Forall_forall. intros i [_ Hi]%elem_of_seq.
    apply (fingerprint_shard_exact md5 formatFloat smembers smembers_perm); [apply Ho|apply Hf]; lia.
Qed.
End unit.

(** ** The checksum as text *)

Definition hex_val (c : ascii) : Z :=
  Z.of_nat (fst (default (0, c) (list_find (c =.) (String.list_ascii_of_string "0123456789abcdef")))).

Lemma hex_val_digit n : (0 <= n < 16)%Z → hex_val (hex_digit n) = n.
Proof.
  intros Hn. rewrite <-(Z2Nat.id n) by lia. assert (Z.to_nat n < 16) as Hm by lia. generalize (Z.to_nat n) Hm.
  intros m H. do 16 (destruct m as [|m]; [reflexivity|]). lia.
Qed.

Fixpoint hex_number (n : nat) (s : string) : Z :=
  match n, s with
  | S n, String c s => (hex_val c * 16 ^ Z.of_nat n + hex_number n s)%Z
  | _, _ => 0%Z
  end.

Lemma hex_number_hex n z : hex_number n (hex n z) = (z mod 16 ^ Z.of_nat n)%Z.
Proof.
  induction n as [|n IH]; [by rewrite Z.mod_1_r|]. cbn [hex hex_number].
  rewrite IH, hex_val_digit by (apply Z.mod_pos_bound; lia).
  rewrite Nat2Z.inj_succ, Z.pow_succ_r by lia. rewrite (Z.mul_comm 16), Z.rem_mul_r by lia. lia.
Qed.

Lemma hex_inj a b : (0 <= a < 2 ^ 64)%Z → (0 <= b < 2 ^ 64)%Z → hex 16 a = hex 16 b → a = b.
Proof.
  intros Ha Hb E%(f_equal (hex_number 16)). rewrite !hex_number_hex in E.
  change (16 ^ Z.of_nat 16)%Z with (2 ^ 64)%Z in E. by rewrite !Z.mod_small in E.
Qed.

Lemma lxor_range a b n : (0 <= n)%Z → (0 <= a < 2 ^ n)%Z → (0 <= b < 2 ^ n)%Z → (0 <= Z.lxor a b < 2 ^ n)%Z.
Proof.
  intros Hn Ha Hb. split; [apply Z.lxor_nonneg; lia|].
  destruct (decide (Z.lxor a b = 0%Z)) as [->|Hx]; [lia|].
  assert (0 < Z.lxor a b)%Z as Hp by (pose proof (proj2 (Z.lxor_nonneg a b)); lia).
  apply Z.log2_lt_pow2; [done|]. pose proof (Z.log2_lxor a b ltac:(lia) ltac:(lia)) as Hl.
  assert (∀ c, (0 <= c < 2 ^ n)%Z → (Z.log2 c < n)%Z ∨ c = 0%Z) as Hc.
  { intros c Hc. destruct (decide (c = 0%Z)); [by right|left]. apply Z.log2_lt_pow2; lia. }
  destruct (Hc a Ha) as [?| ->], (Hc b Hb) as [?| ->]; [lia|by rewrite Z.lxor_0_r|by rewrite Z.lxor_0_l|done].
Qed.

Lemma digest_range (md5 : bytes → Z) l :
  (∀ b, 0 <= md5 b < 2 ^ 64)%Z → (0 <= digest Z.lxor 0 md5 l < 2 ^ 64)%Z.
Proof. intros Hm. induction l as [|b l IH]; simpl; [lia|]. apply lxor_range; [lia|apply Hm|exact IH]. Qed.

(** ** What fingerprints tell *)

(** C33: On keyspaces nobody writes to, when the SCAN iterations of source and target return no
    key twice, with a 64-bit hash and servers that list the members of a set in any order:
    the fingerprints of source and target are always taken, whatever the shards, the batches
    and the order of the scans. They count the selected keys of
    readable types; they are equal when source and target hold the same values under the
    selected keys; and when they differ in one key, missing, extra, or with another hash,
    the comparison reports drift. *)
Theorem fingerprint_tells (md5 : bytes → Z) (formatFloat : Z → bytes) (sel : option selection)
    {Srv : ScanServer} {Laws : ScanLaws Srv} {Srv' : ScanServer} {Laws' : ScanLaws Srv'}
    (smembers smembers' : gset bytes → list bytes)
    (count count' : Z) (top top' : RedisSync.topology) (d d' : keyspace) (fuel fuel' : nat) :
  (∀ b, (0 <= md5 b < 2 ^ 64)%Z) → (∀ s, smembers s ≡ₚ elements s) → (∀ s, smembers' s ≡ₚ elements s) →
  no_repeats (Srv := Srv) top d → no_repeats (Srv := Srv') top' d' →
  placed top d → placed top' d' → enough (Srv := Srv) top d fuel → enough (Srv := Srv') top' d' fuel' →
  ∃ a b,
    fingerprint (Srv := Srv) md5 formatFloat smembers fuel (views top d) count sel = Some (inr a) ∧
    fingerprint (Srv := Srv') md5 formatFloat smembers' fuel' (views top' d') count' sel = Some (inr b) ∧
    fp_Rows a = Z.of_nat (size (filter (λ '(k, v), selected sel k = true ∧ is_Some (canon formatFloat v)) d)) ∧
    ((∀ k, selected sel k = true → d !! k = d' !! k) → a = b ∧ classify a b = ("ok", true)) ∧
    (∀ k, selected sel k = true → (∀ k', k' ≠ k → selected sel k' = true → d !! k' = d' !! k') →
       md5 <$> (d !! k ≫= item formatFloat k) ≠ md5 <$> (d' !! k ≫= item formatFloat k) → (classify a b).2 = false).
Proof.
  intros md5_range smembers_perm smembers_perm' Ho Ho' Hp Hp' Hf Hf'. unfold fingerprint.
  rewrite (fingerprintUnit_exact (Srv := Srv) md5 formatFloat smembers smembers_perm count sel top d fuel Hp Ho Hf).
  rewrite (fingerprintUnit_exact (Srv := Srv') md5 formatFloat smembers' smembers_perm' count' sel top' d' fuel' Hp' Ho' Hf').
  cbn [mbind option_bind]. do 2 eexists. split; [done|]. split; [done|]. cbn [fp_Rows].
  assert (∀ e k, content formatFloat sel e !! k = if selected sel k then e !! k ≫= item formatFloat k else None) as Hl.
  { intros e k. unfold content. rewrite map_lookup_imap. destruct (selected sel k); [done|]. by destruct (e !! k). }
  split_and!.
  - f_equal. unfold vals. rewrite length_fmap, length_map_to_list, <-!size_dom. f_equal. apply set_eq. intros k.
    rewrite !elem_of_dom, Hl. split.
    + intros [b Hb]. destruct (selected sel k) eqn:Hs; [|done]. apply bind_Some in Hb as (v & Hv & Hi). exists v.
      apply map_lookup_filter_Some. split_and!; [done..|]. unfold item in Hi. destruct (canon formatFloat v); [by eexists|done].
    + intros [v (Hv & Hs & [c Hc])%map_lookup_filter_Some]. rewrite Hs, Hv. simpl. unfold item. rewrite Hc. by eexists.
  - intros Hs. assert (content formatFloat sel d = content formatFloat sel d') as ->.
    { apply map_eq. intros k. rewrite !Hl. destruct (selected sel k) eqn:Hk; [|done]. by rewrite (Hs k Hk). }
    split; [done|]. unfold classify. cbn [fp_Rows fp_Checksum]. rewrite !bool_decide_eq_true_2 by done. simpl. by case_bool_decide.
  - intros k Hk Hs Hd. apply not_true_iff_false. rewrite classify_converged. cbn [fp_Rows fp_Checksum].
    intros [Hn [H|[H|H]]]; [done..|]. apply hex_inj in H; [|by apply digest_range..].
    apply (vals_drift Z.lxor 0%Z md5 (content formatFloat sel d) (content formatFloat sel d') k lxor_cancel); [| |lia|done].
    + intros k' Hne. rewrite !Hl. destruct (selected sel k') eqn:Hk'; [|done]. by rewrite (Hs k').
    + by rewrite !Hl, Hk.
Qed.

(** ** The canonical form tells the values of a type apart, streams excepted *)

Lemma pairs_inj {A} (l l' : list (A * A)) :
  (l ≫= λ '(a, b), [a; b]) = (l' ≫= λ '(a, b), [a; b]) → l = l'.
Proof.
  revert l'. induction l as [|[a b] l IH]; intros [|[a' b'] l'] E; [done..|]. simpl in E. injection E as -> -> E. by rewrite (IH l' E).
Qed.

Lemma sorted_fields_inj m m' : sorted_fields m = sorted_fields m' → m = m'.
Proof.
  assert (∀ m : gmap bytes bytes, sorted_fields m = ((λ f, (f, default [] (m !! f))) <$> sort_strings (elements (dom m))) ≫= λ '(a, b), [a; b]) as Hs.
  { clear. intros m. unfold sorted_fields. induction (sort_strings _) as [|f l IH]; [done|]. simpl. do 2 f_equal. exact IH. }
  rewrite !Hs. intros E%pairs_inj.
  assert (∀ (m : gmap bytes bytes) f b, m !! f = Some b ↔ (f, b) ∈ ((λ f, (f, default [] (m !! f))) <$> sort_strings (elements (dom m)))) as Hin.
  { clear. intros m f b. rewrite list_elem_of_fmap. unfold sort_strings. split.
    - intros Hf. exists f. rewrite Hf, elem_of_sort_by, elem_of_elements, elem_of_dom. split; [done|by eexists].
    - intros (f' & [= -> ->] & Hf). rewrite elem_of_sort_by, elem_of_elements, elem_of_dom in Hf. destruct Hf as [b ->]. done. }
  apply map_eq. intros f. apply option_eq. intros b. rewrite !Hin. by rewrite E.
Qed.

Definition parts (formatFloat : Z → bytes) (v : rvalue) : list bytes :=
  match v with
  | RString b => [b]
  | RList l => l
  | RSet s => sort_strings (elements s)
  | RZSet l => l ≫= λ '(m, s), [m; formatFloat s]
  | RHash m => sorted_fields m
  | RStream l => l ≫= λ '(id, fs), id :: sorted_fields (fields_map fs)
  | RModule _ => []
  end.

Lemma canon_tells formatFloat v v' :
  Inj (=) (=) formatFloat → Forall short (parts formatFloat v) → Forall short (parts formatFloat v') →
  type_name (Some v) = type_name (Some v') → type_name (Some v) ≠ "stream" → is_Some (canon formatFloat v) → is_Some (canon formatFloat v') →
  canon formatFloat v = canon formatFloat v' → v = v'.
Proof.
  intros Hf Hv Hv' Ht Hs [c Hc] [c' Hc'] E. destruct v as [b|l|s|l|m|l|n], v' as [b'|l'|s'|l'|m'|l'|n']; try done.
  - simpl in E. congruence.
  - injection E as E%joinFields_inj; [|done..]. congruence.
  - injection E as E%joinFields_inj; [|done..]. f_equal. apply set_eq. intros k. rewrite <-!elem_of_elements.
    rewrite <-(elem_of_sort_by Text.untxt k (elements s)), <-(elem_of_sort_by Text.untxt k (elements s')).
    unfold sort_strings in E. by rewrite E.
  - injection E as E%joinFields_inj; [|done..]. f_equal.
    assert (∀ l, (l ≫= λ '(m, s), [m; formatFloat s]) = (prod_map id formatFloat <$> l) ≫= λ '(a, b), [a; b]) as Hp.
    { clear. intros l. induction l as [|[m s] l IH]; [done|]. simpl. do 2 f_equal. exact IH. }
    rewrite !Hp in E. apply pairs_inj in E. clear -Hf E. revert l' E. induction l as [|[m s] l IH]; intros [|[m' s'] l'] E; simplify_eq/=; [done|].
    f_equal; by apply IH.
  - injection E as E%joinFields_inj; [|done..]. by apply sorted_fields_inj in E as ->.
Qed.

(** Two different streams with one form: entries are not delimited from their fields. *)
Definition stream_a : rvalue :=
  RStream [(Text.txt "1-0", [(Text.txt "1", Text.txt "b")]); (Text.txt "2-0", [(Text.txt "c", Text.txt "3-0"); (Text.txt "e", Text.txt "f")])].
Definition stream_b : rvalue :=
  RStream [(Text.txt "1-0", [(Text.txt "1", Text.txt "b"); (Text.txt "2-0", Text.txt "c")]); (Text.txt "3-0", [(Text.txt "e", Text.txt "f")])].

Lemma stream_collision formatFloat k : stream_a ≠ stream_b ∧ item formatFloat k stream_a = item formatFloat k stream_b.
Proof.
  split; [discriminate|]. unfold item.
  assert (canon formatFloat stream_a = canon formatFloat stream_b) as -> by (vm_compute; reflexivity). done.
Qed.

(** A list that is gone when its elements are read counts as an empty one; a string is skipped. *)
Lemma vanished_list_counted md5 formatFloat smembers k l b :
  hashBatch md5 formatFloat smembers (inr {[ k := RList l ]}) (inr ∅) [k] = inr (md5 (hash_input k "list" []), 1%Z) ∧
  hashBatch md5 formatFloat smembers (inr {[ k := RString b ]}) (inr ∅) [k] = inr (0, 0)%Z.
Proof. unfold hashBatch. cbn [hash_loop]. by rewrite !lookup_singleton_eq, !lookup_empty. Qed.

(** ** A server that returns every key twice, as SCAN may *)

Module Twice.
#[export] Instance server : ScanServer := {
  scan K c _ := (elements K, if decide (c = 0%Z) then 1%Z else 0%Z);
  server_glob _ _ := true;
  scan_steps _ := 2
}.

Lemma twice_scanning Ks ks c :
  scanning Ks ks c → (Ks = [] ∧ c = 0%Z) ∨ (∃ K, Ks = [K] ∧ c = 1%Z) ∨ (∃ K K', Ks = [K; K'] ∧ c = 0%Z ∧ ks = elements K ++ elements K').
Proof.
  induction 1 as [|Ks ks c K count Hs IH Hc]; [by left|]. right. simpl. destruct IH as [[-> ->]|[(K1 & -> & ->)|(K1 & K2 & -> & -> & _)]].
  - left. by exists K.
  - right. exists K1, K. split_and!; [done..|]. inversion Hs as [|Ks' ks' c' K' n Hs' _ E]. subst.
    destruct Ks' as [|? Ks']; [|by destruct Ks']. simplify_eq/=. inversion Hs'; subst; [done|]. by destruct Ks.
  - by destruct Hc as [Hc|Hc].
Qed.

#[export] Instance laws : ScanLaws server.
Proof.
  split.
  - intros Ks ks k Hs Hne Hk. destruct (twice_scanning Ks ks 0%Z Hs) as [[-> _]|[(K & _ & [=])|(K & K' & -> & _ & ->)]]; [done|].
    rewrite elem_of_app, elem_of_elements. left. apply Hk. by left.
  - intros N Ks ks c Hs Hc _. destruct (twice_scanning Ks ks c Hs) as [[-> ->]|[(K & -> & _)|(K & K' & -> & -> & _)]]; [done|simpl; lia|done].
Qed.
End Twice.

(** With it the key of a keyspace is counted twice and drops out of the checksum. *)
Lemma duplicate_hides_key md5 formatFloat smembers k b sel scanCount :
  selected sel k = true →
  fingerprint (Srv := Twice.server) md5 formatFloat smembers 3 [λ _, inr {[ k := RString b ]}] scanCount sel =
  Some (inr (mkFP 2 "0000000000000000")).
Proof.
  intros Hk. unfold fingerprint, fingerprintUnit. cbn [fingerprint_shard scan Twice.server].
  rewrite dom_singleton_L, elements_singleton.
  assert (filter (λ k, selected sel k) [k] = [k]) as -> by (rewrite filter_cons, decide_True by (by rewrite Hk); done).
  assert (hashBatch md5 formatFloat smembers (inr {[ k := RString b ]}) (inr {[ k := RString b ]}) [k] =
    inr (md5 (hash_input k "string" b), 1%Z)) as ->.
  { unfold hashBatch. cbn [hash_loop]. by rewrite lookup_singleton_eq. }
  simpl. by rewrite Z.lxor_nilpotent.
Qed.

(** ** Examples *)

Section example.
Lemma two_buckets_once K : scans_once (Srv := TwoBuckets.server) K.
Proof.
  intros Ks ks Hs Hne HK.
  destruct (TwoBuckets.scanning_inv Ks ks 0%Z Hs) as [[-> _]|[(K1 & _ & [=] & _)|(K1 & K2 & -> & _ & ->)]]; [done|].
  rewrite (HK K1), (HK K2) by set_solver. unfold TwoBuckets.bucket. split.
  - apply NoDup_app. split_and!; [apply NoDup_filter, NoDup_elements| |apply NoDup_filter, NoDup_elements].
    intros k [H1 _]%list_elem_of_filter [H2 _]%list_elem_of_filter. congruence.
  - intros k [[_ H]%list_elem_of_filter|[_ H]%list_elem_of_filter]%elem_of_app; by apply elem_of_elements.
Qed.

Definition ex_d : keyspace :=
  {[ Text.txt "a" := RString (Text.txt "x"); Text.txt "bb" := RSet {[ Text.txt "u"; Text.txt "v" ]}; Text.txt "ccc" := RModule "ReJSON-RL" ]}.
Definition ex_one : RedisSync.topology := RedisSync.mkTopology 1 (λ _, 0).
Definition ex_two : RedisSync.topology := RedisSync.mkTopology 2 (λ k, length k mod 2).
Definition ex_md5 (b : bytes) : Z := (be_value b mod 2 ^ 64)%Z.
Definition ex_fp (top : RedisSync.topology) (order : gset bytes → list bytes) (d : keyspace) : option (result Fingerprint) :=
  fingerprint (Srv := TwoBuckets.server) ex_md5 (λ _, []) order 3 (views top d) 10 None.

Lemma ex_enough top d : enough (Srv := TwoBuckets.server) top d 3.
Proof. intros i _. simpl. lia. Qed.

(** One shard and two, sets listed in opposite orders. *)
Lemma fingerprint_tells_witness :
  ∃ a b, ex_fp ex_one elements ex_d = Some (inr a) ∧ ex_fp ex_two (λ s, reverse (elements s)) ex_d = Some (inr b) ∧
    fp_Rows a = 2%Z ∧ classify a b = ("ok", true).
Proof.
  destruct (fingerprint_tells ex_md5 (λ _, []) None
    (Srv := TwoBuckets.server) (Laws := TwoBuckets.laws) (Srv' := TwoBuckets.server) (Laws' := TwoBuckets.laws)
    elements (λ s, reverse (elements s)) 10 10 ex_one ex_two ex_d ex_d 3 3) as (a & b & H1 & H2 & H3 & H4 & _).
  - intros b. apply Z.mod_pos_bound. reflexivity.
  - intros s. reflexivity.
  - intros s. apply reverse_Permutation.
  - intros i _. apply two_buckets_once.
  - intros i _. apply two_buckets_once.
  - intros k _. simpl. lia.
  - intros k _. apply Nat.mod_upper_bound. discriminate.
  - apply ex_enough.
  - apply ex_enough.
  - exists a, b. split; [exact H1|]. split; [exact H2|]. split; [rewrite H3; vm_compute; reflexivity|].
    apply H4. intros k _. reflexivity.
Defined.

(** A changed value is found. *)
Lemma ex_drift :
  match ex_fp ex_one elements ex_d, ex_fp ex_two elements (<[Text.txt "a" := RString (Text.txt "y")]> ex_d) with
  | Some (inr a), Some (inr b) => classify a b = ("drift-checksum", false)
  | _, _ => False
  end.
Proof. vm_compute. reflexivity. Qed.
End example.
End RedisVerify.
