(* ===== verification/MySession.v ===== *)
(** * A MySQL server as one session sees it

    What the MySQL engine ([internal/engine/mysql]) relies on: tables as lists of rows,
    comparisons that are three-valued and go through the collation of a column, the row-wise
    foreign-key checks of InnoDB (RESTRICT, the default action), and a session with an open
    transaction, the variables [FOREIGN_KEY_CHECKS] and [@replicare_apply] and TEMPORARY
    tables. Neither a session variable nor the existence of a TEMPORARY table is undone by a
    ROLLBACK; both end with the connection. Any statement can fail, with the connection or
    without it, before or after it took effect ([fault]).

    The second half is a state and error monad for the Go functions that run on such a
    session, with a Hoare logic for it. *)

From S2P Require Import Prelude Engine ApplyTx.
Import ApplyTx.

Module MySession.

(** ** Three-valued logic: [None] is unknown *)

Definition and3 (a b : option bool) : option bool :=
  match a, b with
  | Some false, _ | _, Some false => Some false
  | Some true, Some true => Some true
  | _, _ => None
  end.

Definition or3 (a b : option bool) : option bool :=
  match a, b with
  | Some true, _ | _, Some true => Some true
  | Some false, Some false => Some false
  | _, _ => None
  end.

Definition not3 (a : option bool) : option bool := negb <$> a.

Definition all3 : list (option bool) → option bool := foldr and3 (Some true).
Definition any3 : list (option bool) → option bool := foldr or3 (Some false).

(** A WHERE clause selects the rows it is true of. *)
Definition holds3 (a : option bool) : bool := bool_decide (a = Some true).

(** ** Tables *)

Abbreviation tables := (gmap TableRef (list Row)).

Definition rows_of (d : tables) (t : TableRef) : list Row := default [] (d !! t).

(** What the server brings: the weight a column's collation gives to a text, what a
    LOAD DATA LOCAL stores of a row in a staging table ([true]) or in the table itself
    (values that do not fit are converted with a warning), the column defaults, and the
    schema. *)
Class Server := {
  collate : TableRef → string → string → string;
  coerce : bool → TableRef → Row → Row;
  defaults : TableRef → Row;
  catalog : list Table
}.

Section server.
Context `{Srv : Server}.

Definition meta_lookup (t : TableRef) : option Table :=
  head (filter (λ tbl, tbl_Ref tbl = t) catalog).

(** The columns of the key a duplicate is found by. *)
Definition server_key (t : TableRef) : list string :=
  match meta_lookup t with
  | None => []
  | Some tbl =>
      match tbl_PrimaryKey tbl with
      | Some k => key_Columns k
      | None => match tbl_UniqueKeys tbl with k :: _ => key_Columns k | [] => [] end
      end
  end.

Definition all_fks : list ForeignKey := catalog ≫= tbl_ForeignKeys.

(** [a = b] on values of column [c] *)
Definition sql_eq (t : TableRef) (c : string) (a b : option string) : option bool :=
  match a, b with
  | Some x, Some y => Some (bool_decide (collate t c x = collate t c y))
  | _, _ => None
  end.

(** [(cols) = (cols)] on two rows, and on a row and a key *)
Definition row_eq (t : TableRef) (cols : list string) (r r' : Row) : option bool :=
  all3 ((λ c, sql_eq t c (r !! c) (r' !! c)) <$> cols).

Definition value_text (v : Value) : option string :=
  match v with VText s => Some s | VNull => None | VInt n => Some (pretty n) end.

Definition key_eq (t : TableRef) (cols : list string) (r : Row) (k : KeyValues) : option bool :=
  all3 (zip_with (λ c v, sql_eq t c (r !! c) (value_text v)) cols k).

(** ** Foreign keys (MATCH SIMPLE) *)

(** The join condition of child row [c] and parent row [p]. *)
Definition references (fk : ForeignKey) (c p : Row) : bool :=
  holds3 (all3 ((λ '(cc, pc), sql_eq (fk_Child fk) cc (c !! cc) (p !! pc))
                  <$> zip (fk_ChildCols fk) (fk_ParentCols fk))).

Definition refers (fk : ForeignKey) (c : Row) : bool :=
  forallb (λ cc, bool_decide (c !! cc ≠ None)) (fk_ChildCols fk).

Definition orphan (fk : ForeignKey) (d : tables) (c : Row) : bool :=
  refers fk c && negb (existsb (references fk c) (rows_of d (fk_Parent fk))).

Definition has_orphan (fk : ForeignKey) (d : tables) : bool :=
  existsb (orphan fk d) (rows_of d (fk_Child fk)).

Definition agree (cols : list string) (o r : Row) : bool :=
  forallb (λ c, bool_decide (o !! c = r !! c)) cols.

(** The write of row [old] to row [new] leads to [d']: a written child row needs its parent,
    unless its reference did not change; a parent row that goes away or changes its key must
    have no child. *)
Definition child_violates (d' : tables) (old new : option Row) (fk : ForeignKey) : bool :=
  match new with
  | None => false
  | Some r =>
      match old with Some o => negb (agree (fk_ChildCols fk) o r) | None => true end && orphan fk d' r
  end.

Definition parent_violates (d' : tables) (old new : option Row) (fk : ForeignKey) : bool :=
  match old with
  | None => false
  | Some o =>
      match new with Some r => negb (agree (fk_ParentCols fk) o r) | None => true end &&
      existsb (λ c, references fk c o) (rows_of d' (fk_Child fk))
  end.

Definition fk_check (t : TableRef) (d' : tables) (old new : option Row) : option error :=
  if existsb (λ fk, bool_decide (fk_Child fk = t) && child_violates d' old new fk) all_fks
  then Some (MyError 1452 "Cannot add or update a child row: a foreign key constraint fails")
  else if existsb (λ fk, bool_decide (fk_Parent fk = t) && parent_violates d' old new fk) all_fks
  then Some (MyError 1451 "Cannot delete or update a parent row: a foreign key constraint fails")
  else None.

(** A row write, checked when [FOREIGN_KEY_CHECKS] is on. *)
Definition checked (fk : bool) (t : TableRef) (d' : tables) (old new : option Row) : result tables :=
  if fk then match fk_check t d' old new with Some e => inl e | None => inr d' end else inr d'.

(** ** Statements *)

(** The columns of [ON DUPLICATE KEY UPDATE]: all but the key, or for a table of key columns
    only the first of them. *)
Definition update_cols (key cols : list string) : list string :=
  match filter (λ c, c ∉ key) cols with
  | [] => take 1 key
  | cs => cs
  end.

(** One row of [INSERT INTO t (cols) ... ON DUPLICATE KEY UPDATE]. *)
Definition upsert_row (fk : bool) (t : TableRef) (key cols : list string) (d : tables) (s : Row) : result tables :=
  let l := rows_of d t in
  match list_find (λ r, row_eq t key r s = Some true) l with
  | Some (i, o) =>
      let r := set_cols (update_cols key cols) s o in
      checked fk t (<[t := <[i := r]> l]> d) (Some o) (Some r)
  | None =>
      let r := set_cols cols s (defaults t) in
      checked fk t (<[t := l ++ [r]]> d) None (Some r)
  end.

Fixpoint upsert_all (fk : bool) (t : TableRef) (key cols : list string) (stg : list Row) (d : tables)
    : result tables :=
  match stg with
  | [] => inr d
  | s :: stg =>
      match upsert_row fk t key cols d s with
      | inl e => inl e
      | inr d => upsert_all fk t key cols stg d
      end
  end.

(** [DELETE FROM t WHERE P], row by row: [kept] has been scanned, [todo] has not. *)
Fixpoint delete_where (fk : bool) (t : TableRef) (P : Row → bool) (d : tables) (kept todo : list Row)
    : result tables :=
  match todo with
  | [] => inr (<[t := kept]> d)
  | r :: todo =>
      if P r then
        match checked fk t (<[t := kept ++ todo]> d) (Some r) None with
        | inl e => inl e
        | inr _ => delete_where fk t P d kept todo
        end
      else delete_where fk t P d (kept ++ [r]) todo
  end.

(** [(key) IN (keys) AND (key) NOT IN (SELECT key FROM stg)] *)
Definition absent_pred (t : TableRef) (key : list string) (keys : list KeyValues) (stg : list Row) (r : Row) : bool :=
  holds3 (and3 (any3 (key_eq t key r <$> keys)) (not3 (any3 (row_eq t key r <$> stg)))).

(** LOAD DATA LOCAL into a table: a row that breaks the key or a foreign key is skipped with a
    warning, as with IGNORE. The number of rows loaded comes first. *)
Fixpoint load_all (fk : bool) (t : TableRef) (cols : list string) (l : list Row) (d : tables) : Z * tables :=
  match l with
  | [] => (0%Z, d)
  | s :: l =>
      let r := coerce false t (set_cols cols s (defaults t)) in
      let dup := negb (bool_decide (server_key t = [])) &&
                 existsb (λ r', holds3 (row_eq t (server_key t) r' r)) (rows_of d t) in
      match dup, checked fk t (<[t := rows_of d t ++ [r]]> d) None (Some r) with
      | false, inr d => let '(n, d) := load_all fk t cols l d in ((n + 1)%Z, d)
      | _, _ => load_all fk t cols l d
      end
  end.

(** [UPDATE t JOIN stg ON the keys SET cols], row by row. *)
Fixpoint update_join (fk : bool) (t : TableRef) (key cols : list string) (stg : list Row) (n : nat) (d : tables)
    : result tables :=
  match n with
  | 0 => inr d
  | S n =>
      match update_join fk t key cols stg n d with
      | inl e => inl e
      | inr d =>
          match rows_of d t !! n with
          | None => inr d
          | Some o =>
              match list_find (λ s, row_eq t key o s = Some true) stg with
              | None => inr d
              | Some (_, s) =>
                  let r := set_cols cols s o in
                  checked fk t (<[t := <[n := r]> (rows_of d t)]> d) (Some o) (Some r)
              end
          end
      end
  end.
End server.

(** ** The session *)

(** What happens to the next statement: nothing, an error that leaves the connection usable,
    the loss of the connection before the statement, or after it. *)
Inductive fault := Fine | Fails (e : error) | Lost (e : error) | Unacked (e : error).

(** [s_temp]: the rows of a TEMPORARY table as committed and as seen; [s_pinned]: the one
    connection of the pool is in use; [s_cache]: the tables whose metadata is cached;
    [s_blocked]: a statement waits for the connection its own caller holds. *)
Record session := mkSess {
  s_db : tables;
  s_tx : option tables;
  s_fk : bool;
  s_marker : bool;
  s_temp : gmap string (list Row * list Row);
  s_ok : bool;
  s_pinned : bool;
  s_cache : gset TableRef;
  s_blocked : bool;
  s_net : list fault
}.

Definition set_db (s : session) (d : tables) : session :=
  mkSess d (s_tx s) (s_fk s) (s_marker s) (s_temp s) (s_ok s) (s_pinned s) (s_cache s) (s_blocked s) (s_net s).
Definition set_stx (s : session) (x : option tables) : session :=
  mkSess (s_db s) x (s_fk s) (s_marker s) (s_temp s) (s_ok s) (s_pinned s) (s_cache s) (s_blocked s) (s_net s).
Definition set_sfk (s : session) (b : bool) : session :=
  mkSess (s_db s) (s_tx s) b (s_marker s) (s_temp s) (s_ok s) (s_pinned s) (s_cache s) (s_blocked s) (s_net s).
Definition set_smarker (s : session) (b : bool) : session :=
  mkSess (s_db s) (s_tx s) (s_fk s) b (s_temp s) (s_ok s) (s_pinned s) (s_cache s) (s_blocked s) (s_net s).
Definition set_stemp (s : session) (x : gmap string (list Row * list Row)) : session :=
  mkSess (s_db s) (s_tx s) (s_fk s) (s_marker s) x (s_ok s) (s_pinned s) (s_cache s) (s_blocked s) (s_net s).
Definition set_sok (s : session) (b : bool) : session :=
  mkSess (s_db s) (s_tx s) (s_fk s) (s_marker s) (s_temp s) b (s_pinned s) (s_cache s) (s_blocked s) (s_net s).
Definition set_spinned (s : session) (b : bool) : session :=
  mkSess (s_db s) (s_tx s) (s_fk s) (s_marker s) (s_temp s) (s_ok s) b (s_cache s) (s_blocked s) (s_net s).
Definition set_scache (s : session) (x : gset TableRef) : session :=
  mkSess (s_db s) (s_tx s) (s_fk s) (s_marker s) (s_temp s) (s_ok s) (s_pinned s) x (s_blocked s) (s_net s).
Definition set_sblocked (s : session) : session :=
  mkSess (s_db s) (s_tx s) (s_fk s) (s_marker s) (s_temp s) (s_ok s) (s_pinned s) (s_cache s) true (s_net s).
Definition pop (s : session) : session :=
  mkSess (s_db s) (s_tx s) (s_fk s) (s_marker s) (s_temp s) (s_ok s) (s_pinned s) (s_cache s) (s_blocked s)
    (tail (s_net s)).

(** The connection is gone, and with it all but the committed rows. *)
Definition drop_conn (s : session) : session :=
  mkSess (s_db s) None true false ∅ false (s_pinned s) (s_cache s) (s_blocked s) (s_net s).

(** The rows the session reads, and a write to them: part of the open transaction, or
    committed at once. *)
Definition seen (s : session) : tables := default (s_db s) (s_tx s).

Definition write (s : session) (d : tables) : session :=
  match s_tx s with Some _ => set_stx s (Some d) | None => set_db s d end.

(** A session on a fresh connection. *)
Definition fresh (d : tables) (net : list fault) : session := mkSess d None true false ∅ true false ∅ false net.

(** ** The monad *)

Definition M (S A : Type) : Type := S → result A * S.

#[global] Instance M_ret S : MRet (M S) := λ A a s, (inr a, s).
#[global] Instance M_bind S : MBind (M S) := λ A B f m s,
  match m s with
  | (inl e, s) => (inl e, s)
  | (inr a, s) => f a s
  end.

Section monad.
Context {S : Type}.

Definition fail {A} (e : error) : M S A := λ s, (inl e, s).

(** [fmt.Errorf("msg: %w", err)] *)
Definition wrapf {A} (msg : string) (m : M S A) : M S A := λ s,
  match m s with (inl e, s) => (inl (Errorf msg e), s) | r => r end.

Definition map_err {A} (f : error → error) (m : M S A) : M S A := λ s,
  match m s with (inl e, s) => (inl (f e), s) | r => r end.

(** [_, _ = m] *)
Definition ignore {A} (m : M S A) : M S unit := λ s, (inr tt, (m s).2).

(** [if err := m; err != nil { cleanup; return err }] *)
Definition on_err {A} (cleanup : M S unit) (m : M S A) : M S A := λ s,
  match m s with (inl e, s) => (inl e, (cleanup s).2) | r => r end.

(** [defer cleanup()] *)
Definition deferred {A} (cleanup : M S unit) (m : M S A) : M S A := λ s,
  let '(r, s) := m s in (r, (cleanup s).2).

Fixpoint iterM {A} (f : A → M S unit) (l : list A) : M S unit :=
  match l with
  | [] => mret tt
  | x :: l => _ ← f x; iterM f l
  end.
End monad.

(** ** Running a statement *)

Definition ErrBadConn : error := Failure "driver: bad connection".

(** On the connection the caller holds. *)
Definition stmt {A} (f : M session A) : M session A := λ s,
  if s_ok s then
    match s_net s with
    | [] | Fine :: _ => f (pop s)
    | Fails e :: _ => (inl e, pop s)
    | Lost e :: _ => (inl e, drop_conn (pop s))
    | Unacked e :: _ => (inl e, drop_conn (f (pop s)).2)
    end
  else (inl ErrBadConn, s).

(** On the pool, whose only connection must be free; a dead one is replaced. *)
Definition pool {A} (f : M session A) : M session A := λ s,
  if s_pinned s then (inl (Failure "waiting for a connection"), set_sblocked s)
  else stmt f (set_sok s true).

(** Taking the connection out of the pool, and giving it back. *)
Definition acquire (f : M session unit) : M session unit := λ s,
  if s_pinned s then (inl (Failure "waiting for a connection"), set_sblocked s)
  else match stmt f (set_sok s true) with
       | (inl e, s) => (inl e, s)
       | (inr _, s) => (inr tt, set_spinned s true)
       end.

Definition unpin : M session unit := λ s, (inr tt, set_spinned s false).

(** [BEGIN] *)
Definition start : M session unit := λ s, (inr tt, set_stx s (Some (s_db s))).

(** [db.Conn], [conn.BeginTx] and [db.BeginTx] *)
Definition pin : M session unit := acquire (mret tt).
Definition begin_tx : M session unit := stmt start.
Definition db_begin : M session unit := acquire start.

(** [Commit], [Rollback]. A failed COMMIT has rolled back; a ROLLBACK fails only with its
    connection. *)

Definition end_tx (ok : bool) (s : session) : session :=
  match s_tx s with
  | None => s
  | Some d =>
      let temp := if ok then (λ x, (x.2, x.2)) <$> s_temp s else (λ x, (x.1, x.1)) <$> s_temp s in
      set_stemp (set_stx (if ok then set_db s d else s) None) temp
  end.

Definition commit_tx : M session unit := λ s,
  if s_ok s then
    match s_net s with
    | [] | Fine :: _ => (inr tt, end_tx true (pop s))
    | Fails e :: _ => (inl e, end_tx false (pop s))
    | Lost e :: _ => (inl e, drop_conn (pop s))
    | Unacked e :: _ => (inl e, drop_conn (end_tx true (pop s)))
    end
  else (inl ErrBadConn, s).

Definition rollback_tx : M session unit := λ s,
  if s_ok s then
    match s_net s with
    | [] | Fine :: _ => (inr tt, end_tx false (pop s))
    | (Fails e | Lost e | Unacked e) :: _ => (inl e, drop_conn (pop s))
    end
  else (inl ErrBadConn, s).

(** [SET FOREIGN_KEY_CHECKS], [SET @replicare_apply] *)
Definition set_fk_checks (b : bool) : M session unit := stmt (λ s, (inr tt, set_sfk s b)).
Definition set_marker (b : bool) : M session unit := stmt (λ s, (inr tt, set_smarker s b)).

(** [CREATE TEMPORARY TABLE], [DROP TEMPORARY TABLE IF EXISTS] *)
Definition create_temp (name : string) : M session unit := stmt (λ s,
  match s_temp s !! name with
  | Some _ => (inl (MyError 1050 ("Table '" +:+ name +:+ "' already exists")), s)
  | None => (inr tt, set_stemp s (<[name := ([], [])]> (s_temp s)))
  end).

Definition drop_temp (name : string) : M session unit := stmt (λ s,
  (inr tt, set_stemp s (delete name (s_temp s)))).

Definition temp_rows (name : string) (s : session) : result (list Row) :=
  match s_temp s !! name with
  | Some (_, l) => inr l
  | None => inl (MyError 1146 ("Table '" +:+ name +:+ "' doesn't exist"))
  end.

(** What the driver reads from the pipe: rows, and the error it may end with. On an error the
    driver ends the upload, and the rows sent so far are loaded. *)
Record upload := mkUpload { up_rows : list Row; up_err : option error }.

Definition uploaded {A} (u : upload) (a : A) : result A :=
  match up_err u with Some e => inl e | None => inr a end.

Section statements.
Context `{Srv : Server}.

(** [LOAD DATA LOCAL INFILE ... INTO TABLE stg], a staging table of [t]'s columns *)
Definition load_temp (name : string) (t : TableRef) (cols : list string) (u : upload) : M session Z := stmt (λ s,
  match s_temp s !! name with
  | None => (inl (MyError 1146 ("Table '" +:+ name +:+ "' doesn't exist")), s)
  | Some (old, l) =>
      let l' := l ++ ((λ r, coerce true t (proj cols r)) <$> up_rows u) in
      (uploaded u (Z.of_nat (length (up_rows u))),
       set_stemp s (<[name := (match s_tx s with Some _ => old | None => l' end, l')]> (s_temp s)))
  end).

(** [LOAD DATA LOCAL INFILE ... INTO TABLE t], on the pool or in a transaction *)
Definition load_table (t : TableRef) (cols : list string) (u : upload) : M session Z := λ s,
  let '(n, d) := load_all (s_fk s) t cols (proj cols <$> up_rows u) (seen s) in
  (uploaded u n, write s d).

(** A statement that reads a staging table and writes rows, as a whole or not at all. *)
Definition dml_from (name : string) (f : bool → list Row → tables → result tables) : M session unit := stmt (λ s,
  match temp_rows name s with
  | inl e => (inl e, s)
  | inr stg =>
      match f (s_fk s) stg (seen s) with
      | inl e => (inl e, s)
      | inr d => (inr tt, write s d)
      end
  end).

Definition upsert_from (t : TableRef) (key cols : list string) (name : string) : M session unit :=
  dml_from name (λ fk stg d, upsert_all fk t key cols stg d).

Definition delete_absent (t : TableRef) (key : list string) (keys : list KeyValues) (name : string) : M session unit :=
  dml_from name (λ fk stg d, delete_where fk t (absent_pred t key keys stg) d [] (rows_of d t)).

Definition update_from (t : TableRef) (key cols : list string) (name : string) : M session unit :=
  dml_from name (λ fk stg d, update_join fk t key cols stg (length (rows_of d t)) d).

(** A query, on the pool or in a transaction *)
Definition query {A} (f : tables → A) : M session A := λ s, (inr (f (seen s)), s).
End statements.

(** ** Hoare logic *)

Section logic.
Context {S : Type}.

Definition triple {A} (P : S → Prop) (m : M S A) (Q : result A → S → Prop) : Prop :=
  ∀ s, P s → Q (m s).1 (m s).2.

(** [J] is kept, whatever the result. *)
Definition keeps {A} (J : S → Prop) (m : M S A) : Prop := triple J m (λ _, J).

Lemma triple_bind {A B} P R Q (m : M S A) (f : A → M S B) :
  triple P m R → (∀ a, triple (R (inr a)) (f a) Q) → (∀ e s, R (inl e) s → Q (inl e) s) →
  triple P (m ≫= f) Q.
Proof.
  intros Hm Hf He s Hs. specialize (Hm s Hs). unfold mbind, M_bind.
  destruct (m s) as [[e|a] s1]; simpl in *; [by apply He|by apply Hf].
Qed.

Lemma triple_conseq {A} (P P' : S → Prop) (Q Q' : result A → S → Prop) (m : M S A) :
  triple P' m Q' → (∀ s, P s → P' s) → (∀ r s, Q' r s → Q r s) → triple P m Q.
Proof. intros Hm HP HQ s Hs. by apply HQ, Hm, HP. Qed.

Lemma keeps_ret {A} J (a : A) : keeps J (mret a).
Proof. by intros s. Qed.

Lemma keeps_fail {A} J e : keeps J (@fail S A e).
Proof. by intros s. Qed.

Lemma keeps_bind {A B} J (m : M S A) (f : A → M S B) :
  keeps J m → (∀ a, keeps J (f a)) → keeps J (m ≫= f).
Proof. intros Hm Hf. by apply (triple_bind _ (λ _, J)). Qed.

Lemma keeps_wrapf {A} J msg (m : M S A) : keeps J m → keeps J (wrapf msg m).
Proof. intros Hm s Hs. specialize (Hm s Hs). unfold wrapf. by destruct (m s) as [[e|a] s1]. Qed.

Lemma keeps_map_err {A} J f (m : M S A) : keeps J m → keeps J (map_err f m).
Proof. intros Hm s Hs. specialize (Hm s Hs). unfold map_err. by destruct (m s) as [[e|a] s1]. Qed.

Lemma keeps_ignore {A} J (m : M S A) : keeps J m → keeps J (ignore m).
Proof. intros Hm s Hs. apply (Hm s Hs). Qed.

Lemma keeps_on_err {A} J c (m : M S A) : keeps J c → keeps J m → keeps J (on_err c m).
Proof.
  intros Hc Hm s Hs. specialize (Hm s Hs). unfold on_err.
  destruct (m s) as [[e|a] s1]; [by apply Hc|done].
Qed.

Lemma keeps_deferred {A} J c (m : M S A) : keeps J c → keeps J m → keeps J (deferred c m).
Proof.
  intros Hc Hm s Hs. specialize (Hm s Hs). unfold deferred. destruct (m s) as [r s1]. by apply Hc.
Qed.

Lemma keeps_iterM {A} J (f : A → M S unit) l : (∀ x, x ∈ l → keeps J (f x)) → keeps J (iterM f l).
Proof.
  induction l as [|x l IH]; intros Hf; simpl; [apply keeps_ret|].
  apply keeps_bind; [apply Hf; by left|]. intros _. apply IH. intros y Hy. apply Hf. by right.
Qed.

(** A loop that ends without an error ran its body without one on every element. *)
Lemma iterM_inr {A} J (f : A → M S unit) l s a :
  (∀ x, x ∈ l → keeps J (f x)) → J s → (iterM f l s).1 = inr a →
  ∀ x, x ∈ l → ∃ s1, J s1 ∧ (f x s1).1 = inr tt.
Proof.
  revert s. induction l as [|y l IH]; intros s Hf Hs; simpl; [by intros _ x ?%not_elem_of_nil|].
  unfold mbind, M_bind. assert (keeps J (f y)) as Hy by (apply Hf; by left). specialize (Hy s Hs).
  destruct (f y s) as [[e|[]] s1] eqn:E; [done|]. simpl in *. intros Hr x [->|Hx]%elem_of_cons.
  - exists s. by rewrite E.
  - apply (IH s1); [|done..]. intros z Hz. apply Hf. by right.
Qed.

Lemma wrapf_inr {A} msg (m : M S A) s a : (wrapf msg m s).1 = inr a → (m s).1 = inr a.
Proof. unfold wrapf. by destruct (m s) as [[]]. Qed.

Lemma map_err_inr {A} f (m : M S A) s a : (map_err f m s).1 = inr a → (m s).1 = inr a.
Proof. unfold map_err. by destruct (m s) as [[]]. Qed.

Lemma on_err_inr {A} c (m : M S A) s a : (on_err c m s).1 = inr a → on_err c m s = m s.
Proof. unfold on_err. by destruct (m s) as [[]]. Qed.

Lemma bind_inr {A B} (m : M S A) (f : A → M S B) s b :
  ((m ≫= f) s).1 = inr b → ∃ a, (m s).1 = inr a ∧ (m ≫= f) s = f a (m s).2.
Proof. unfold mbind, M_bind. destruct (m s) as [[e|a] s1]; [done|]. by exists a. Qed.
End logic.

(** ** Steps inside a transaction *)

(** What holds after a step: nothing was committed, and [Q] when it succeeded. *)
Definition step_to {A} (d0 : tables) (Q : session → Prop) (r : result A) (s : session) : Prop :=
  s_db s = d0 ∧ ∀ a, r = inr a → Q s.

Lemma step_wrapf {A} P msg (m : M session A) d0 Q :
  triple P m (step_to d0 Q) → triple P (wrapf msg m) (step_to d0 Q).
Proof.
  intros Hm s Hs. destruct (Hm s Hs) as [H1 H2]. unfold wrapf.
  destruct (m s) as [[e|a] s1]; split; try done; by intros b [= <-].
Qed.

Lemma step_bind {A B} P (m : M session A) (k : A → M session B) d0 Q R :
  triple P m (step_to d0 Q) → (∀ a, triple Q (k a) (step_to d0 R)) → triple P (m ≫= k) (step_to d0 R).
Proof.
  intros Hm Hk. apply (triple_bind _ (step_to d0 Q)); [done| |].
  - intros a s [_ Hq]. by apply Hk, (Hq a).
  - intros e s [H1 _]. by split.
Qed.

Lemma step_fail {A} (P : session → Prop) e d0 Q :
  (∀ s, P s → s_db s = d0) → triple P (@fail session A e) (step_to d0 Q).
Proof. intros HP s Hs. split; [by apply HP|done]. Qed.

(** A statement, from [P] to [Q]. *)
Lemma stmt_step {A} (P Q : session → Prop) (f : M session A) d0 :
  (∀ s, P s → P (pop s)) → (∀ s, P s → s_db s = d0) →
  (∀ s, P s → step_to d0 Q (f s).1 (f s).2) → triple P (stmt f) (step_to d0 Q).
Proof.
  intros Hpop Hdb Hf s Hs. unfold stmt. destruct (s_ok s); [|split; [by apply Hdb|done]].
  destruct (Hf _ (Hpop _ Hs)) as [H1 H2].
  destruct (s_net s) as [|[|e|e|e] net]; simpl; split; simpl; try done; by apply Hdb.
Qed.

Create HintDb mysql.
#[export] Hint Resolve keeps_ret keeps_fail keeps_bind keeps_wrapf keeps_map_err keeps_ignore keeps_on_err
  keeps_deferred keeps_iterM : mysql.

(** ** Foreign keys under the checks of the server *)

Section consistency.
Context `{Srv : Server}.

(** No row of a child table of [E] lacks its parent. *)
Definition consistent (E : list ForeignKey) (d : tables) : Prop :=
  Forall (λ fk, has_orphan fk d = false) E.

Lemma rows_of_insert d t l t' : rows_of (<[t := l]> d) t' = if decide (t' = t) then l else rows_of d t'.
Proof.
  unfold rows_of. case_decide as Ht; [subst; by rewrite lookup_insert_eq|].
  by rewrite lookup_insert_ne by done.
Qed.

Lemma orphan_false fk d c :
  orphan fk d c = false ↔ (refers fk c = true → ∃ p, p ∈ rows_of d (fk_Parent fk) ∧ references fk c p = true).
Proof.
  unfold orphan. rewrite andb_false_iff, negb_false_iff, existsb_exists.
  split.
  - intros [Hr|(p & Hp & Href)] Hc; [congruence|]. exists p. by rewrite list_elem_of_In.
  - intros Hp. destruct (refers fk c); [right|by left]. destruct Hp as (p & Hp & Href); [done|].
    exists p. by rewrite <-list_elem_of_In.
Qed.

Lemma has_orphan_false fk d :
  has_orphan fk d = false ↔ ∀ c, c ∈ rows_of d (fk_Child fk) → orphan fk d c = false.
Proof.
  unfold has_orphan. rewrite <-not_true_iff_false, existsb_exists. split.
  - intros Hn c Hc. apply not_true_iff_false. intros Ho. apply Hn. exists c. by rewrite <-list_elem_of_In.
  - intros Hall (c & Hc & Ho). rewrite Hall in Ho; [done|]. by apply list_elem_of_In.
Qed.

Lemma agree_spec cols o r : agree cols o r = true ↔ ∀ c, c ∈ cols → o !! c = r !! c.
Proof.
  unfold agree. rewrite forallb_forall. split.
  - intros Ha c Hc. specialize (Ha c). rewrite bool_decide_eq_true in Ha. by apply Ha, list_elem_of_In.
  - intros Ha c Hc. apply bool_decide_eq_true, Ha. by apply list_elem_of_In.
Qed.

Lemma references_child fk c c' p :
  agree (fk_ChildCols fk) c c' = true → references fk c p = references fk c' p.
Proof.
  rewrite agree_spec. intros Ha. unfold references. do 2 f_equal. apply list_fmap_ext.
  intros i [cc pc] Hl. rewrite Ha; [done|]. apply list_elem_of_lookup_2 in Hl.
  by apply elem_of_zip_l in Hl.
Qed.

Lemma references_parent fk c p p' :
  agree (fk_ParentCols fk) p p' = true → references fk c p = references fk c p'.
Proof.
  rewrite agree_spec. intros Ha. unfold references. do 2 f_equal. apply list_fmap_ext.
  intros i [cc pc] Hl. rewrite Ha; [done|]. apply list_elem_of_lookup_2 in Hl.
  by apply elem_of_zip_r in Hl.
Qed.

Lemma refers_agree fk c c' : agree (fk_ChildCols fk) c c' = true → refers fk c' = true → refers fk c = true.
Proof.
  rewrite agree_spec. unfold refers. rewrite !forallb_forall. intros Ha Hr x Hx.
  rewrite Ha by by apply list_elem_of_In. by apply Hr.
Qed.

(** A write of [old] to [new] in table [t], which leads from the rows [l] to [l']. *)
Record row_write (l l' : list Row) (old new : option Row) : Prop := {
  rw_in r : r ∈ l' → r ∈ l ∨ new = Some r;
  rw_out r : r ∈ l → r ∈ l' ∨ old = Some r;
  rw_new r : new = Some r → r ∈ l';
  rw_old o : old = Some o → o ∈ l
}.

Lemma row_write_append l r : row_write l (l ++ [r]) None (Some r).
Proof. split; intros x; rewrite ?elem_of_app, ?list_elem_of_singleton; naive_solver. Qed.

Lemma row_write_insert l i o r : l !! i = Some o → row_write l (<[i := r]> l) (Some o) (Some r).
Proof.
  intros Hi. assert (i < length l) by by eapply lookup_lt_Some. split.
  - intros x [j Hj]%list_elem_of_lookup. destruct (decide (i = j)) as [<-|Hne].
    + rewrite list_lookup_insert_eq in Hj by done. by right.
    + rewrite list_lookup_insert_ne in Hj by done. left. by eapply list_elem_of_lookup_2.
  - intros x [j Hj]%list_elem_of_lookup. destruct (decide (i = j)) as [<-|Hne]; [right; congruence|].
    left. apply (list_elem_of_lookup_2 _ j). by rewrite list_lookup_insert_ne.
  - intros x [= <-]. apply (list_elem_of_lookup_2 _ i). by rewrite list_lookup_insert_eq.
  - intros x [= <-]. by eapply list_elem_of_lookup_2.
Qed.

Lemma row_write_delete kept r todo : row_write (kept ++ r :: todo) (kept ++ todo) (Some r) None.
Proof. split; intros x; rewrite ?elem_of_app, ?elem_of_cons; naive_solver. Qed.

Lemma fk_check_None t d' old new fk :
  fk_check t d' old new = None → fk ∈ all_fks →
  (fk_Child fk = t → child_violates d' old new fk = false) ∧
  (fk_Parent fk = t → parent_violates d' old new fk = false).
Proof.
  unfold fk_check. intros Hc Hfk. rewrite list_elem_of_In in Hfk.
  destruct (existsb _ all_fks) eqn:E1; [done|]. destruct (existsb _ all_fks) eqn:E2 in Hc; [done|].
  rewrite <-not_true_iff_false, existsb_exists in E1, E2.
  split; intros Ht; apply not_true_iff_false; intros Hv; [apply E1|apply E2]; exists fk;
    (split; [done|]); by rewrite Hv, bool_decide_true.
Qed.

(** The checks are enough: an allowed write leaves no reference dangling. *)
Lemma row_write_consistent fk t d l' old new :
  fk ∈ all_fks → row_write (rows_of d t) l' old new → fk_check t (<[t := l']> d) old new = None →
  has_orphan fk d = false → has_orphan fk (<[t := l']> d) = false.
Proof.
  intros Hfk Hw Hck%(λ H, fk_check_None _ _ _ _ fk H Hfk) Hd. destruct Hck as [Hch Hpa].
  rewrite has_orphan_false in Hd |- *. set (d' := <[t := l']> d) in *.
  assert (∀ c p, c ∈ rows_of d' (fk_Child fk) → p ∈ rows_of d (fk_Parent fk) → references fk c p = true →
    ∃ p', p' ∈ rows_of d' (fk_Parent fk) ∧ references fk c p' = true) as Hp.
  { intros c p Hc Hp Href. subst d'. rewrite (rows_of_insert _ _ _ (fk_Parent fk)).
    destruct (decide (fk_Parent fk = t)) as [Ht|]; [|by exists p]. rewrite Ht in Hp.
    destruct (rw_out _ _ _ _ Hw p Hp) as [|Ho]; [by exists p|]. specialize (Hpa Ht).
    unfold parent_violates in Hpa. rewrite Ho in Hpa. apply andb_false_iff in Hpa as [Ha|Ha].
    - destruct new as [r|]; [|done]. apply negb_false_iff in Ha. exists r.
      split; [by apply (rw_new _ _ _ _ Hw)|]. by rewrite <-(references_parent fk c p r).
    - rewrite <-not_true_iff_false, existsb_exists in Ha. destruct Ha. exists c.
      by rewrite <-list_elem_of_In. }
  intros c Hc. apply orphan_false. intros Hr.
  destruct (decide (c ∈ rows_of d (fk_Child fk))) as [Hin|Hin].
  - destruct (proj1 (orphan_false fk d c) (Hd c Hin) Hr) as (p & Hpp & Href). by apply (Hp c p).
  - assert (fk_Child fk = t) as Ht.
    { subst d'. rewrite rows_of_insert in Hc. by destruct (decide (fk_Child fk = t)). }
    assert (new = Some c) as ->.
    { subst d'. rewrite rows_of_insert, decide_True in Hc by done. rewrite Ht in Hin.
      by destruct (rw_in _ _ _ _ Hw c Hc). }
    specialize (Hch Ht). unfold child_violates in Hch. apply andb_false_iff in Hch as [Ha|Ho].
    + destruct old as [o|]; [|done]. apply negb_false_iff in Ha.
      assert (refers fk o = true) as Hro by by eapply refers_agree.
      assert (o ∈ rows_of d (fk_Child fk)) as Hino by (rewrite Ht; by apply (rw_old _ _ _ _ Hw)).
      destruct (proj1 (orphan_false fk d o) (Hd o Hino) Hro) as (p & Hpp & Href).
      apply (Hp c p); [done..|]. by rewrite <-(references_child fk o c).
    + by apply (proj1 (orphan_false fk d' c) Ho).
Qed.

Lemma checked_inr fk t d' old new d'' :
  checked fk t d' old new = inr d'' → d'' = d' ∧ (fk = true → fk_check t d' old new = None).
Proof. unfold checked. destruct fk; [|by intros [= ->]]. destruct (fk_check _ _ _ _); [done|]. by intros [= ->]. Qed.

Context (E : list ForeignKey) (HE : E ⊆ all_fks).

(** A statement [f] that is checked keeps [E]. *)
Definition guarded (f : bool → tables → result tables) : Prop :=
  ∀ d d', f true d = inr d' → consistent E d → consistent E d'.

Lemma checked_consistent t d l' old new d' :
  row_write (rows_of d t) l' old new → checked true t (<[t := l']> d) old new = inr d' →
  consistent E d → consistent E d'.
Proof.
  intros Hw [-> Hck]%checked_inr Hd. unfold consistent in *. rewrite Forall_forall in Hd |- *.
  intros fk Hfk. eapply row_write_consistent; [by apply HE|done|by apply Hck|by apply Hd].
Qed.

Lemma upsert_row_guarded t key cols s : guarded (λ fk d, upsert_row fk t key cols d s).
Proof.
  intros d d'. unfold upsert_row. destruct (list_find _ _) as [[i o]|] eqn:Hf; apply checked_consistent.
  - apply list_find_Some in Hf as (Hi & _). by apply row_write_insert.
  - apply row_write_append.
Qed.

Lemma upsert_all_guarded t key cols stg : guarded (λ fk d, upsert_all fk t key cols stg d).
Proof.
  induction stg as [|s stg IH]; intros d d'; simpl; [by intros [= ->]|].
  destruct (upsert_row _ _ _ _ _ _) as [e|d1] eqn:Hu; [done|]. intros Hr Hd. apply (IH _ _ Hr).
  by apply (upsert_row_guarded t key cols s d).
Qed.

Lemma insert_rows_of_same d t : consistent E d → consistent E (<[t := rows_of d t]> d).
Proof.
  unfold consistent. rewrite !Forall_forall. intros Hd fk Hfk. specialize (Hd fk Hfk).
  rewrite has_orphan_false in Hd |- *. intros c. rewrite rows_of_insert.
  intros Hc. assert (c ∈ rows_of d (fk_Child fk)) as Hc' by by destruct (decide (fk_Child fk = t)) as [->|].
  specialize (Hd c Hc'). revert Hd. unfold orphan. rewrite rows_of_insert.
  by destruct (decide (fk_Parent fk = t)) as [->|].
Qed.

Lemma delete_where_guarded t P d kept todo d' :
  delete_where true t P d kept todo = inr d' →
  consistent E (<[t := kept ++ todo]> d) → consistent E d'.
Proof.
  revert kept. induction todo as [|r todo IH]; intros kept; cbn [delete_where].
  { rewrite app_nil_r. by intros [= ->]. }
  destruct (P r).
  - destruct (checked _ _ _ _ _) as [e|d1] eqn:Hc; [done|]. intros Hr Hd. apply (IH kept Hr).
    apply checked_inr in Hc as Heq. destruct Heq as [-> _].
    rewrite <-(insert_insert_eq d t _ (kept ++ r :: todo)) in Hc |- *.
    eapply checked_consistent; [|exact Hc|done].
    rewrite rows_of_insert, decide_True by done. apply row_write_delete.
  - intros Hr Hd. apply (IH (kept ++ [r]) Hr). by rewrite <-app_assoc.
Qed.

Lemma update_join_guarded t key cols stg n : guarded (λ fk d, update_join fk t key cols stg n d).
Proof.
  induction n as [|n IH]; intros d d'; cbn [update_join]; [by intros [= ->]|].
  destruct (update_join _ _ _ _ _ _ _) as [e|d1] eqn:Hu; [done|]. intros Hr Hd.
  assert (consistent E d1) as Hd1 by by apply (IH d).
  destruct (rows_of d1 t !! n) as [o|] eqn:Ho; [|by injection Hr as <-].
  destruct (list_find _ _) as [[i s]|]; [|by injection Hr as <-].
  eapply checked_consistent; [|exact Hr|done]. by apply row_write_insert.
Qed.

Lemma load_all_guarded t cols l d : consistent E d → consistent E (load_all true t cols l d).2.
Proof.
  revert d. induction l as [|s l IH]; intros d Hd; cbn [load_all]; [done|]. cbv zeta.
  destruct (_ && _); [by apply IH|].
  destruct (checked _ _ _ _ _) as [e|d1] eqn:Hc; [by apply IH|].
  destruct (load_all _ _ _ _ d1) as [n d2] eqn:El. simpl. change d2 with (n, d2).2. rewrite <-El. apply IH.
  eapply checked_consistent; [|exact Hc|done]. apply row_write_append.
Qed.
End consistency.
End MySession.
