(* ===== verification/MyApply.v ===== *)
(** * The sink of the MySQL engine ([internal/engine/mysql])

    Apply ([apply_tx.go], [apply.go]), bulk load ([sink_load.go], [merge.go]) and the loaders
    of cyclic components ([cyclic.go]), as programs on the session of [MySession], for a sink
    of a one-way sync ([origin] off).

    A drain pass runs on the one connection of the sink's pool. A cyclic component is written
    with FOREIGN_KEY_CHECKS off and verified as a whole before the commit; an acyclic one
    relies on the checks of the server. *)

From S2P Require Import Prelude Text Engine ApplyTx MySession.
Import Text ApplyTx MySession.

Module MyApply.

(** ** Metadata ([meta.go], [capture.go], [preflight.go]) *)

Definition replicationKey (t : Table) : option Key :=
  match tbl_PrimaryKey t with
  | Some k => Some k
  | None => head (tbl_UniqueKeys t)
  end.

Definition by_name (cols : list Column) : gmap string Column :=
  foldl (λ m c, <[col_Name c := c]> m) ∅ cols.

(** [captureColsFor]: names and types of the key columns. *)
Definition captureColsFor (t : Table) : list (string * string) :=
  match replicationKey t with
  | None => []
  | Some key =>
      (λ name, (name, default "" (col_DataType <$> by_name (tbl_Columns t) !! name))) <$> key_Columns key
  end.

Definition transportCols (t : Table) : list string :=
  col_Name <$> filter (λ c, col_Generated c = false) (tbl_Columns t).

(** [bq] and [qualify] quote an identifier. *)
Definition bq (s : string) : string :=
  "`" +:+ untxt (ReplaceAll (txt "`") (txt "``") (txt s)) +:+ "`".

Definition qualify (t : TableRef) : string := bq (Schema t) +:+ "." +:+ bq (Name t).

(** [tempColumnDDL]: the columns of a staging table, typed as on the target. *)
Definition tempColumnDDL (tbl : Table) (cols : list string) : result (list string) :=
  foldr (λ name acc,
    match by_name (tbl_Columns tbl) !! name with
    | None => inl (Failure ("mysql: merge load: column " +:+ name +:+ " not found on target " +:+ ref_string (tbl_Ref tbl)))
    | Some c =>
        match acc with
        | inl e => inl e
        | inr parts =>
            inr ((bq name +:+ " " +:+ col_DataType c +:+
                  (if decide (col_Charset c = "") then "" else " CHARACTER SET " +:+ col_Charset c)) :: parts)
        end
    end) (inr []) cols.

(** [selfRefFKCols] *)
Definition selfRefFKCols (t : Table) : list string :=
  foldl (λ out fk,
    if decide (fk_Child fk = fk_Parent fk)
    then foldl (λ out c, if decide (c ∈ out) then out else out ++ [c]) out (fk_ChildCols fk)
    else out) [] (tbl_ForeignKeys t).

(** ** Errors *)

(** [errors.As(err, &myErr)] *)
Fixpoint asMySQLError (e : error) : option Z :=
  match e with
  | MyError n _ => Some n
  | TransientConstraintError e | Errorf _ e => asMySQLError e
  | Failure _ | Canceled | PgError _ _ => None
  end.

Definition classifyMySQLFK (cyclic : bool) (e : error) : error :=
  if cyclic then e
  else match asMySQLError e with
       | Some n => if decide (n = 1451%Z ∨ n = 1452%Z) then TransientConstraintError e else e
       | None => e
       end.

Definition errLocalInfileRequired : error :=
  Failure "mysql: target requires local_infile=ON for the LOAD DATA copy/apply transport".

Section sink.
Context `{Srv : Server} (localInfile : bool).

(** [Sink.tableMeta]: a miss asks the server, over the pool. *)
Definition tableMeta (ref : TableRef) : M session Table := λ s,
  if decide (ref ∈ s_cache s) then
    match meta_lookup ref with
    | Some t => (inr t, s)
    | None => (inl (Failure ("mysql: table " +:+ ref_string ref +:+ " not found")), s)
    end
  else
    pool (λ s,
      match meta_lookup ref with
      | Some t => (inr t, set_scache s ({[ref]} ∪ s_cache s))
      | None => (inl (Failure ("mysql: table " +:+ ref_string ref +:+ " not found")), s)
      end) s.

(** [runLoad] *)
Definition runLoad {A} (into : string) (load : M session A) : M session A :=
  if localInfile then wrapf ("mysql: load into " +:+ into) load else fail errLocalInfileRequired.

(** ** The apply transaction ([apply_tx.go]) *)

(** [mysqlApplyTx]; [mt_done] and [mt_closed] are the states of [tx] and [conn]. *)
Record mysqlApplyTx := mkMyTx {
  mt_cyclic : bool;
  mt_compTables : list TableRef;
  mt_staging : gmap TableRef (string * list string);
  mt_nextStg : nat;
  mt_committed : bool;
  mt_done : bool;
  mt_closed : bool
}.

Abbreviation txM := (M (session * mysqlApplyTx)).

Definition on_sess {A} (m : M session A) : txM A := λ '(s, h),
  let '(r, s) := m s in (r, (s, h)).

Definition get_tx : txM mysqlApplyTx := λ '(s, h), (inr h, (s, h)).

Definition put_tx (f : mysqlApplyTx → mysqlApplyTx) : txM unit := λ '(s, h), (inr tt, (s, f h)).

Definition set_next (h : mysqlApplyTx) : mysqlApplyTx :=
  mkMyTx (mt_cyclic h) (mt_compTables h) (mt_staging h) (S (mt_nextStg h)) (mt_committed h) (mt_done h) (mt_closed h).
Definition set_staging (x : gmap TableRef (string * list string)) (h : mysqlApplyTx) : mysqlApplyTx :=
  mkMyTx (mt_cyclic h) (mt_compTables h) x (mt_nextStg h) (mt_committed h) (mt_done h) (mt_closed h).
Definition set_committed (h : mysqlApplyTx) : mysqlApplyTx :=
  mkMyTx (mt_cyclic h) (mt_compTables h) (mt_staging h) (mt_nextStg h) true (mt_done h) (mt_closed h).
Definition set_done (h : mysqlApplyTx) : mysqlApplyTx :=
  mkMyTx (mt_cyclic h) (mt_compTables h) (mt_staging h) (mt_nextStg h) (mt_committed h) true (mt_closed h).
Definition set_closed (h : mysqlApplyTx) : mysqlApplyTx :=
  mkMyTx (mt_cyclic h) (mt_compTables h) (mt_staging h) (mt_nextStg h) (mt_committed h) (mt_done h) true.

Definition ErrTxDone : error := Failure "sql: transaction has already been committed or rolled back".
Definition isTxDone (e : error) : bool :=
  match e with Failure m => bool_decide (m = Error ErrTxDone) | _ => false end.

Definition ErrConnDone : error := Failure "sql: connection is already closed".

(** A statement of the transaction, and one of the pinned connection. *)
Definition on_tx {A} (m : M session A) : txM A :=
  h ← get_tx;
  if mt_done h then fail ErrTxDone else on_sess m.

Definition on_conn {A} (m : M session A) : txM A :=
  h ← get_tx;
  if mt_closed h then fail ErrConnDone else on_sess m.

(** [tx.Commit] and [tx.Rollback] end the transaction whatever they return. *)
Definition tx_end (m : M session unit) : txM unit :=
  h ← get_tx;
  if mt_done h then fail ErrTxDone
  else _ ← put_tx set_done; on_sess m.

Definition tx_commit : txM unit := tx_end commit_tx.
Definition tx_rollback : txM unit := tx_end rollback_tx.

Definition conn_close : txM unit :=
  h ← get_tx;
  if mt_closed h then fail ErrConnDone
  else _ ← put_tx set_closed; on_sess unpin.

(** [BeginApply] *)
Definition BeginApply (cyclic : bool) (componentTables : list TableRef) : M session mysqlApplyTx :=
  _ ← iterM (λ ref, _ ← tableMeta ref; mret tt) componentTables;
  _ ← wrapf "mysql: begin apply: pin connection" pin;
  _ ← on_err unpin (wrapf "mysql: begin apply: begin" begin_tx);
  _ ← (if cyclic
       then on_err (_ ← ignore rollback_tx; unpin)
              (wrapf "mysql: begin apply: disable fk checks" (set_fk_checks false))
       else mret tt);
  mret (mkMyTx cyclic componentTables ∅ 0 false false false).

(** [StageUpsert]: the staging table of this call, its load and the upsert from it. *)
Definition stage_rows (ref : TableRef) (tbl : Table) (key : Key) (cols : list string) (reread : upload) : txM unit :=
  h ← get_tx;
  let stg := "rc_apply_stg_" +:+ pretty (mt_nextStg h) in
  _ ← put_tx set_next;
  _ ← wrapf ("mysql: apply: staging " +:+ ref_string ref) (on_tx (create_temp stg));
  _ ← wrapf ("mysql: apply: stage re-read " +:+ ref_string ref)
        (on_tx (runLoad (bq stg) (load_temp stg ref cols reread)));
  _ ← wrapf ("mysql: apply: upsert " +:+ ref_string ref)
        (map_err (classifyMySQLFK (mt_cyclic h)) (on_tx (upsert_from ref (key_Columns key) cols stg)));
  put_tx (λ h, set_staging (<[ref := (stg, (captureColsFor tbl).*1)]> (mt_staging h)) h).

Definition StageUpsert (ref : TableRef) (cols : list string) (reread : upload) : txM unit :=
  tbl ← on_sess (tableMeta ref);
  match replicationKey tbl with
  | None => fail (Failure ("mysql: apply: target " +:+ ref_string ref +:+ " has no usable key"))
  | Some key =>
      match tempColumnDDL tbl cols with
      | inl e => fail e
      | inr _ => stage_rows ref tbl key cols reread
      end
  end.

(** [DeleteAbsent] *)
Definition DeleteAbsent (ref : TableRef) (dirtyKeys : list KeyValues) : txM unit :=
  h ← get_tx;
  match mt_staging h !! ref with
  | None => fail (Failure ("mysql: apply: DeleteAbsent before StageUpsert for " +:+ ref_string ref))
  | Some (stg, keyCols) =>
      match dirtyKeys with
      | [] => mret tt
      | _ =>
          wrapf ("mysql: apply: delete-absent " +:+ ref_string ref)
            (map_err (classifyMySQLFK (mt_cyclic h)) (on_tx (delete_absent ref keyCols dirtyKeys stg)))
      end
  end.

(** [SELECT 1 FROM child c LEFT JOIN parent p ON join WHERE (c NOT NULL) AND p.col IS NULL LIMIT 1] *)
Definition left_join (fk : ForeignKey) (d : tables) : list (Row * option Row) :=
  rows_of d (fk_Child fk) ≫= λ c,
    match filter (λ p, references fk c p = true) (rows_of d (fk_Parent fk)) with
    | [] => [(c, None)]
    | ps => (λ p, (c, Some p)) <$> ps
    end.

Definition anti_join (fk : ForeignKey) (d : tables) : bool :=
  existsb (λ '(c, p), refers fk c &&
    match p with
    | None => true
    | Some p => bool_decide (p !! default "" (head (fk_ParentCols fk)) = None)
    end) (left_join fk d).

(** [verifyNoOrphans] *)
Definition verify_fk (fk : ForeignKey) : txM unit :=
  found ← wrapf ("mysql: apply: verify FK " +:+ fk_Name fk) (on_tx (stmt (query (anti_join fk))));
  if (found : bool)
  then fail (Failure ("mysql: apply: FK " +:+ fk_Name fk +:+ " (" +:+ ref_string (fk_Child fk) +:+
                      ") has an orphan referencing a missing parent in " +:+ ref_string (fk_Parent fk)))
  else mret tt.

Definition verifyNoOrphans : txM unit :=
  h ← get_tx;
  iterM (λ ref, tbl ← on_sess (tableMeta ref); iterM verify_fk (tbl_ForeignKeys tbl)) (mt_compTables h).

(** [closeConn] *)
Definition closeConn : txM unit :=
  h ← get_tx;
  _ ← iterM (λ x, ignore (on_conn (drop_temp x.2.1))) (map_to_list (mt_staging h));
  _ ← (if mt_cyclic h then ignore (on_conn (set_fk_checks true)) else mret tt);
  conn_close.

(** [Commit]: the verification of a cyclic component, then the commit. *)
Definition abort : txM unit := _ ← ignore tx_rollback; ignore closeConn.

Definition verify_phase (cyclic : bool) : txM unit :=
  if cyclic then
    _ ← on_err abort (wrapf "mysql: apply: re-enable fk checks" (on_tx (set_fk_checks true)));
    on_err abort verifyNoOrphans
  else mret tt.

Definition publish (cyclic : bool) : txM unit :=
  _ ← on_err (ignore closeConn)
        (wrapf "mysql: apply: commit" (map_err (classifyMySQLFK cyclic) tx_commit));
  _ ← put_tx set_committed;
  closeConn.

Definition Commit : txM unit :=
  h ← get_tx;
  if mt_committed h then mret tt
  else _ ← verify_phase (mt_cyclic h); publish (mt_cyclic h).

(** [Rollback] *)
Definition Rollback : txM unit := λ w,
  if mt_committed w.2 then (inr tt, w)
  else
    let '(rb, w) := tx_rollback w in
    let '(cc, w) := closeConn w in
    (match rb with
     | inl e => if isTxDone e then cc else inl (Errorf "mysql: apply: rollback" e)
     | inr _ => cc
     end, w).

(** ** A drain pass

    The calls the drain makes on the transaction, a rollback after the first that fails, a
    commit otherwise. *)

Inductive pass_op :=
| PStage (ref : TableRef) (cols : list string) (reread : upload)
| PDelete (ref : TableRef) (dirtyKeys : list KeyValues).

Definition run_op (o : pass_op) : txM unit :=
  match o with
  | PStage ref cols u => StageUpsert ref cols u
  | PDelete ref keys => DeleteAbsent ref keys
  end.

Definition run_ops (ops : list pass_op) : txM unit :=
  on_err (ignore Rollback) (_ ← iterM run_op ops; Commit).

Definition pass (cyclic : bool) (tabs : list TableRef) (ops : list pass_op) : M session unit := λ s,
  match BeginApply cyclic tabs s with
  | (inl e, s) => (inl e, s)
  | (inr h, s) => let '(r, (s, _)) := run_ops ops (s, h) in (r, s)
  end.

(** ** The query of the verification *)

Lemma anti_join_sound fk d : anti_join fk d = false → has_orphan fk d = false.
Proof.
  unfold anti_join. intros Hj. apply has_orphan_false. intros c Hc.
  apply not_true_iff_false. unfold orphan. intros [Hr Hp]%andb_true_iff.
  rewrite <-not_true_iff_false, existsb_exists in Hj. destruct Hj. exists (c, None). split.
  - apply list_elem_of_In, list_elem_of_bind. exists c. split; [|done].
    destruct (filter _ _) as [|p ps] eqn:Ef; [by left|].
    assert (p ∈ filter (λ p, references fk c p = true) (rows_of d (fk_Parent fk))) as Hin
      by (rewrite Ef; by left).
    apply list_elem_of_filter in Hin as [Href Hin]. apply negb_true_iff in Hp.
    rewrite <-not_true_iff_false, existsb_exists in Hp. destruct Hp. exists p. by rewrite <-list_elem_of_In.
  - by rewrite Hr.
Qed.

(** ** The invariant of a pass *)

Definition comp_fks (tabs : list TableRef) : list ForeignKey :=
  tabs ≫= λ ref, match meta_lookup ref with Some t => tbl_ForeignKeys t | None => [] end.

Lemma meta_lookup_Some t tbl : meta_lookup t = Some tbl → tbl ∈ catalog ∧ tbl_Ref tbl = t.
Proof.
  unfold meta_lookup. intros Hh.
  assert (tbl ∈ filter (λ tbl, tbl_Ref tbl = t) catalog) as [? ?]%list_elem_of_filter; [|done].
  destruct (filter _ _); [done|]. injection Hh as ->. by left.
Qed.

Lemma comp_fks_all tabs : comp_fks tabs ⊆ all_fks.
Proof.
  intros fk (ref & Hfk & Href)%list_elem_of_bind. destruct (meta_lookup ref) as [tbl|] eqn:Hm.
  - apply meta_lookup_Some in Hm as [? _]. apply list_elem_of_bind. by exists tbl.
  - by apply not_elem_of_nil in Hfk.
Qed.

Section pass_inv.
Context (cyc : bool) (tabs : list TableRef).

Local Abbreviation E := (comp_fks tabs).

(** The session while the transaction is open, and once it is over. *)
Record open_inv (s : session) : Prop := {
  oi_db : consistent E (s_db s);
  oi_pin : s_pinned s = true;
  oi_dead : s_ok s = false → s_tx s = None;
  oi_live : s_ok s = true → is_Some (s_tx s);
  oi_acy : cyc = false → s_fk s = true ∧ ∀ d, s_tx s = Some d → consistent E d
}.

Record over_inv (s : session) : Prop := {
  ov_db : consistent E (s_db s);
  ov_tx : s_tx s = None;
  ov_acy : cyc = false → s_fk s = true
}.

(** What a statement may do inside the transaction, and to a session without one. *)
Definition tame {A} (f : M session A) : Prop := ∀ s d, s_tx s = Some d →
  s_db (f s).2 = s_db s ∧ s_ok (f s).2 = s_ok s ∧ s_pinned (f s).2 = s_pinned s ∧
  ∃ d', s_tx (f s).2 = Some d' ∧
    (s_fk s = true → s_fk (f s).2 = true ∧ (consistent E d → consistent E d')).

Definition inert {A} (f : M session A) : Prop := ∀ s,
  s_db (f s).2 = s_db s ∧ s_tx (f s).2 = s_tx s ∧ (s_fk s = true → s_fk (f s).2 = true).

Lemma stmt_open {A} (f : M session A) : tame f → keeps open_inv (stmt f).
Proof.
  intros Hf s Hs. unfold stmt. destruct (s_ok s) eqn:Hok; [|done].
  destruct Hs as [Hdb Hpin Hdead Hlive Hacy]. destruct (Hlive Hok) as [d Hd].
  destruct (Hf (pop s) d Hd) as (F1 & F2 & F3 & d' & F4 & F5). simpl in *.
  destruct (s_net s) as [|[|e|e|e] net]; simpl; split; simpl; try done; try congruence;
    try (intros Hc; destruct (Hacy Hc) as [Hfk Hcons]; destruct (F5 Hfk) as [Hfk' Hc']);
    try (split; [done|]; intros d0 Hd0; simplify_eq; by apply Hc', Hcons).
  all: by rewrite ?F4.
Qed.

Lemma stmt_over {A} (f : M session A) : inert f → keeps over_inv (stmt f).
Proof.
  intros Hf s Hs. unfold stmt. destruct (s_ok s) eqn:Hok; [|done]. destruct Hs as [Hdb Htx Hacy].
  destruct (Hf (pop s)) as (F1 & F2 & F3). simpl in *.
  destruct (s_net s) as [|[|e|e|e] net]; simpl; split; simpl; try done; try congruence; auto.
Qed.

Lemma pool_open {A} (f : M session A) : keeps open_inv (pool f).
Proof. intros s [H1 H2 H3 H4 H5]. unfold pool. by rewrite H2. Qed.

Lemma pool_over {A} (f : M session A) : inert f → keeps over_inv (pool f).
Proof.
  intros Hf s Hs. unfold pool. destruct (s_pinned s) eqn:Hp; [by destruct Hs; split|].
  apply stmt_over; [done|]. by destruct Hs; split.
Qed.

Lemma tableMeta_open ref : keeps open_inv (tableMeta ref).
Proof.
  intros s Hs. unfold tableMeta. destruct (decide (ref ∈ s_cache s)).
  - by destruct (meta_lookup ref).
  - by apply pool_open.
Qed.

Lemma tableMeta_over ref : keeps over_inv (tableMeta ref).
Proof.
  intros s Hs. unfold tableMeta. destruct (decide (ref ∈ s_cache s)).
  - by destruct (meta_lookup ref).
  - apply pool_over; [|done]. intros s1. by destruct (meta_lookup ref).
Qed.

(** *** The statements of a pass *)

Lemma dml_tame name (f : bool → list Row → tables → result tables) :
  (∀ stg, guarded E (λ fk d, f fk stg d)) →
  tame (λ s, match temp_rows name s with
             | inl e => (inl e, s)
             | inr stg => match f (s_fk s) stg (seen s) with
                          | inl e => (inl e, s)
                          | inr d => (inr tt, write s d)
                          end
             end).
Proof.
  intros Hf s d Hd. cbv beta. destruct (temp_rows name s) as [e|stg]; [by eauto 10|].
  assert (seen s = d) as -> by (unfold seen; by rewrite Hd).
  destruct (f (s_fk s) stg d) as [e|d1] eqn:Ef; [by eauto 10|]. simpl. unfold write. rewrite Hd. simpl.
  split_and!; [done..|]. exists d1. split; [done|]. intros Hfk. split; [done|].
  rewrite Hfk in Ef. by apply (Hf stg).
Qed.

Lemma dml_open name f : (∀ stg, guarded E (λ fk d, f fk stg d)) → keeps open_inv (dml_from name f).
Proof. intros Hf. by apply stmt_open, dml_tame. Qed.

Lemma upsert_from_open t key cols name : keeps open_inv (upsert_from t key cols name).
Proof. apply dml_open. intros stg. apply upsert_all_guarded, comp_fks_all. Qed.

Lemma delete_absent_open t key keys name : keeps open_inv (delete_absent t key keys name).
Proof.
  apply dml_open. intros stg d d' Hd Hc.
  apply (delete_where_guarded _ (comp_fks_all tabs) _ _ _ _ _ _ Hd). simpl. by apply insert_rows_of_same.
Qed.

Lemma create_temp_open name : keeps open_inv (create_temp name).
Proof. apply stmt_open. intros s d Hd. by destruct (s_temp s !! name); eauto 10. Qed.

Lemma load_temp_open name t cols u : keeps open_inv (load_temp name t cols u).
Proof. apply stmt_open. intros s d Hd. by destruct (s_temp s !! name) as [[]|]; eauto 10. Qed.

Lemma query_open {A} (f : tables → A) : keeps open_inv (stmt (query f)).
Proof. apply stmt_open. intros s d Hd. by eauto 10. Qed.

Lemma set_fk_open : keeps open_inv (set_fk_checks true).
Proof. apply stmt_open. intros s d Hd. simpl. by eauto 10. Qed.

Lemma set_fk_over : keeps over_inv (set_fk_checks true).
Proof. apply stmt_over. by intros s. Qed.

Lemma drop_temp_over name : keeps over_inv (drop_temp name).
Proof. apply stmt_over. by intros s. Qed.

(** *** The transaction object *)

Record tx_inv (w : session * mysqlApplyTx) : Prop := {
  ti_cyc : mt_cyclic w.2 = cyc;
  ti_tabs : mt_compTables w.2 = tabs;
  ti_com : mt_committed w.2 = true → mt_done w.2 = true;
  ti_sess : if mt_done w.2 then over_inv w.1 else open_inv w.1
}.

Definition done_inv (w : session * mysqlApplyTx) : Prop := tx_inv w ∧ mt_done w.2 = true.

Lemma on_sess_inv {A} (m : M session A) :
  keeps open_inv m → keeps over_inv m → keeps tx_inv (on_sess m).
Proof.
  intros Ho Hd [s h] [H1 H2 H3 H4]. simpl in *. unfold on_sess. specialize (Ho s). specialize (Hd s).
  destruct (m s) as [r s']. simpl in *. split; simpl; [done..|]. destruct (mt_done h); auto.
Qed.

Lemma on_tx_inv {A} (m : M session A) : keeps open_inv m → keeps tx_inv (on_tx m).
Proof.
  intros Ho [s h] Hw. unfold on_tx, mbind, M_bind, get_tx. destruct (mt_done h) eqn:Hdone; [done|].
  destruct Hw as [H1 H2 H3 H4]. simpl in *. rewrite Hdone in H4. unfold on_sess. specialize (Ho s H4).
  destruct (m s) as [r s']. split; simpl; [done..|]. by rewrite Hdone.
Qed.

Lemma on_sess_done {A} (m : M session A) : keeps over_inv m → keeps done_inv (on_sess m).
Proof.
  intros Ho [s h] [[H1 H2 H3 H4] Hd]. simpl in *. rewrite Hd in H4. specialize (Ho s H4).
  unfold on_sess. destruct (m s) as [r s']. split; [|done]. split; simpl; [done..|]. by rewrite Hd.
Qed.

Lemma on_conn_done {A} (m : M session A) : keeps over_inv m → keeps done_inv (on_conn m).
Proof.
  intros Ho [s h] Hw. unfold on_conn, mbind, M_bind, get_tx. destruct (mt_closed h); [done|].
  by apply on_sess_done.
Qed.

Lemma get_tx_keeps J : keeps J get_tx.
Proof. by intros [s h]. Qed.

Lemma put_tx_inv f :
  (∀ h, mt_cyclic (f h) = mt_cyclic h ∧ mt_compTables (f h) = mt_compTables h ∧
    mt_committed (f h) = mt_committed h ∧ mt_done (f h) = mt_done h) → keeps tx_inv (put_tx f).
Proof.
  intros Hf [s h] [H1 H2 H3 H4]. destruct (Hf h) as (F1 & F2 & F3 & F4). unfold put_tx.
  split; simpl in *; congruence || (rewrite ?F4, ?F3; done).
Qed.

Lemma tableMeta_inv ref : keeps tx_inv (on_sess (tableMeta ref)).
Proof. apply on_sess_inv; [apply tableMeta_open|apply tableMeta_over]. Qed.

Lemma runLoad_open {A} into (m : M session A) : keeps open_inv m → keeps open_inv (runLoad into m).
Proof. intros Hm. unfold runLoad. destruct localInfile; [by apply keeps_wrapf|apply keeps_fail]. Qed.

Hint Resolve get_tx_keeps tableMeta_inv on_tx_inv create_temp_open load_temp_open upsert_from_open
  delete_absent_open query_open set_fk_open runLoad_open set_fk_over drop_temp_over on_conn_done : mysql.

Lemma StageUpsert_inv ref cols u : keeps tx_inv (StageUpsert ref cols u).
Proof.
  unfold StageUpsert. apply keeps_bind; [auto with mysql|]. intros tbl.
  destruct (replicationKey tbl) as [key|]; [|auto with mysql].
  destruct (tempColumnDDL tbl cols); [auto with mysql|]. unfold stage_rows.
  apply keeps_bind; [auto with mysql|]. intros h. cbv zeta.
  repeat (apply keeps_bind; [|intros _]); auto with mysql; by apply put_tx_inv.
Qed.

Lemma DeleteAbsent_inv ref keys : keeps tx_inv (DeleteAbsent ref keys).
Proof.
  unfold DeleteAbsent. apply keeps_bind; [auto with mysql|]. intros h.
  destruct (mt_staging h !! ref) as [[stg kc]|]; [|auto with mysql].
  destruct keys; auto with mysql.
Qed.

Lemma verify_fk_inv fk : keeps tx_inv (verify_fk fk).
Proof.
  unfold verify_fk. apply keeps_bind; [auto with mysql|]. intros []; auto with mysql.
Qed.

Lemma verifyNoOrphans_inv : keeps tx_inv verifyNoOrphans.
Proof.
  unfold verifyNoOrphans. apply keeps_bind; [auto with mysql|]. intros h. apply keeps_iterM.
  intros ref _. apply keeps_bind; [auto with mysql|]. intros tbl. apply keeps_iterM.
  intros fk _. apply verify_fk_inv.
Qed.

(** *** The end of the transaction *)

Lemma rollback_over s : open_inv s → over_inv (rollback_tx s).2.
Proof.
  intros [H1 H2 H3 H4 H5]. unfold rollback_tx. destruct (s_ok s) eqn:Hok.
  - destruct (H4 eq_refl) as [d Hd].
    destruct (s_net s) as [|[|e|e|e] net]; simpl; unfold end_tx; simpl; rewrite ?Hd;
      split; simpl; try done; intros Hc; by apply H5.
  - split; simpl; [done|by apply H3|]. intros Hc. by apply H5.
Qed.

Lemma commit_over s :
  open_inv s → (∀ d, s_tx s = Some d → consistent E d) → over_inv (commit_tx s).2.
Proof.
  intros [H1 H2 H3 H4 H5] Hd. unfold commit_tx. destruct (s_ok s) eqn:Hok.
  - destruct (H4 eq_refl) as [d Htx]. specialize (Hd d Htx).
    destruct (s_net s) as [|[|e|e|e] net]; simpl; unfold end_tx; simpl; rewrite ?Htx;
      split; simpl; try done; intros Hc; by apply H5.
  - split; simpl; [done|by apply H3|]. intros Hc. by apply H5.
Qed.

Lemma tx_rollback_done : triple tx_inv tx_rollback (λ _, done_inv).
Proof.
  intros [s h] Hw. unfold tx_rollback, tx_end, mbind, M_bind, get_tx.
  destruct (mt_done h) eqn:Hd; [done|]. destruct Hw as [H1 H2 H3 H4]. simpl in *. rewrite Hd in H4.
  apply rollback_over in H4. destruct (rollback_tx s) as [r s']. split; [|done]. by split.
Qed.

Lemma tx_commit_done :
  triple (λ w, tx_inv w ∧ (∀ d, s_tx w.1 = Some d → consistent E d)) tx_commit (λ _, done_inv).
Proof.
  intros [s h] [Hw Hc]. unfold tx_commit, tx_end, mbind, M_bind, get_tx.
  destruct (mt_done h) eqn:Hd; [done|]. destruct Hw as [H1 H2 H3 H4]. simpl in *. rewrite Hd in H4.
  apply commit_over in H4; [|done]. destruct (commit_tx s) as [r s']. split; [|done]. by split.
Qed.

Lemma closeConn_done : keeps done_inv closeConn.
Proof.
  unfold closeConn. apply keeps_bind; [auto with mysql|]. intros h.
  apply keeps_bind; [apply keeps_iterM; intros [ref x] _; auto with mysql|]. intros _.
  apply keeps_bind; [destruct (mt_cyclic h); auto with mysql|]. intros _.
  intros [s h'] Hw. unfold conn_close, mbind, M_bind, get_tx. destruct (mt_closed h'); [done|].
  simpl. destruct Hw as [[H1 H2 H3 H4] Hd]. simpl in *. rewrite Hd in H4. destruct H4 as [F1 F2 F3].
  split; [|done]. split; simpl; [done..|]. by rewrite Hd.
Qed.

(** *** The verification reads the rows the commit publishes *)

Definition reads {A} (m : M session A) : Prop :=
  ∀ s, s_tx (m s).2 = s_tx s ∨ s_tx (m s).2 = None.

Lemma stmt_reads {A} (f : M session A) : (∀ s, s_tx (f s).2 = s_tx s) → reads (stmt f).
Proof.
  intros Hf s. unfold stmt. destruct (s_ok s); [|by left].
  destruct (s_net s) as [|[|e|e|e] net]; simpl; rewrite ?Hf; auto.
Qed.

Lemma tableMeta_reads ref : reads (tableMeta ref).
Proof.
  intros s. unfold tableMeta. destruct (decide (ref ∈ s_cache s)); [left; by destruct (meta_lookup ref)|].
  unfold pool. destruct (s_pinned s); [by left|].
  eapply (stmt_reads _ _ (set_sok s true)). Unshelve. intros s1. by destruct (meta_lookup ref).
Qed.

Lemma tableMeta_inr ref s tbl : (tableMeta ref s).1 = inr tbl → meta_lookup ref = Some tbl.
Proof.
  unfold tableMeta. destruct (decide (ref ∈ s_cache s)).
  - destruct (meta_lookup ref); simpl; congruence.
  - unfold pool, stmt. destruct (s_pinned s); [done|]. simpl.
    destruct (s_net s) as [|[|e|e|e] net]; simpl; destruct (meta_lookup ref); simpl; congruence.
Qed.

(** The states of the verification of [w]. *)
Definition verifying (w0 w : session * mysqlApplyTx) : Prop :=
  tx_inv w ∧ w.2 = w0.2 ∧ (s_tx w.1 = s_tx w0.1 ∨ s_tx w.1 = None).

Lemma on_sess_verifying {A} (m : M session A) w0 :
  keeps tx_inv (on_sess m) → reads m → keeps (verifying w0) (on_sess m).
Proof.
  intros Hk Hr [s h] (Hw & Hh & Ht). specialize (Hk (s, h) Hw). unfold on_sess in *. specialize (Hr s).
  destruct (m s) as [r s']. split_and!; [done..|]. simpl in *. destruct Hr as [->| ->]; auto.
Qed.

Lemma on_tx_verifying {A} (m : M session A) w0 :
  keeps tx_inv (on_tx m) → reads m → keeps (verifying w0) (on_tx m).
Proof.
  intros Hk Hr [s h] (Hw & Hh & Ht). specialize (Hk (s, h) Hw). revert Hk.
  unfold on_tx, mbind, M_bind, get_tx. destruct (mt_done h); [done|]. unfold on_sess. specialize (Hr s).
  destruct (m s) as [r s']. intros Hk. split_and!; [done..|]. simpl in *. destruct Hr as [->| ->]; auto.
Qed.

Lemma query_reads {A} (f : tables → A) : reads (stmt (query f)).
Proof. by apply stmt_reads. Qed.

Lemma verify_fk_verifying w0 fk : keeps (verifying w0) (verify_fk fk).
Proof.
  unfold verify_fk. apply keeps_bind.
  - apply keeps_wrapf, on_tx_verifying; [auto with mysql|apply query_reads].
  - intros []; auto with mysql.
Qed.

Lemma verify_fk_inr w0 w fk d :
  verifying w0 w → s_tx w0.1 = Some d → (verify_fk fk w).1 = inr tt → anti_join fk d = false.
Proof.
  intros (Hw & Hh & Ht) Hd. unfold verify_fk. intros Hr.
  apply bind_inr in Hr as Hb. destruct Hb as (found & Hf & Heq). rewrite Heq in Hr. apply wrapf_inr in Hf. destruct w as [s h]. destruct w0 as [s0 h0]. simpl in *.
  destruct found; [done|]. unfold on_tx, mbind, M_bind, get_tx in Hf.
  destruct (mt_done h) eqn:Hdone; [done|]. destruct Hw as [_ _ _ H4]. simpl in H4. rewrite Hdone in H4.
  unfold on_sess, stmt in Hf. destruct (s_ok s) eqn:Hok; [|done].
  destruct (oi_live _ H4 Hok) as [d' Hd']. destruct Ht as [Ht|Ht]; [|congruence].
  assert (seen (pop s) = d) as Hseen by (unfold seen; simpl; by rewrite Ht, Hd).
  destruct (s_net s) as [|[|e|e|e] net]; simpl in Hf; try done; rewrite Hseen in Hf; congruence.
Qed.

Lemma verifyNoOrphans_spec :
  triple tx_inv verifyNoOrphans
    (λ r w, tx_inv w ∧ (r = inr tt → ∀ d, s_tx w.1 = Some d → consistent E d)).
Proof.
  intros w0 Hw0. set (w1 := (verifyNoOrphans w0).2). split; [by apply verifyNoOrphans_inv|].
  assert (verifying w0 w0) as Hv by (split_and!; [done..|by left]).
  assert (∀ ref, keeps (verifying w0) (tbl ← on_sess (tableMeta ref); iterM verify_fk (tbl_ForeignKeys tbl))) as Hbody.
  { intros ref. apply keeps_bind.
    - apply on_sess_verifying; [auto with mysql|apply tableMeta_reads].
    - intros tbl. apply keeps_iterM. intros fk _. apply verify_fk_verifying. }
  intros Hr d Hd. assert (verifying w0 w1) as Hv1.
  { subst w1. unfold verifyNoOrphans. apply keeps_bind; [by intros [s h]| |done]. intros h.
    apply keeps_iterM. intros ref _. apply Hbody. }
  destruct Hv1 as (_ & _ & [Heq|Heq]); [|congruence]. rewrite Heq in Hd.
  unfold verifyNoOrphans in Hr. apply bind_inr in Hr as Hb. destruct Hb as (h & Hh & Hb).
  rewrite Hb in Hr. destruct w0 as [s0 h0]. simpl in Hh. injection Hh as <-. simpl in Hr.
  pose proof (ti_tabs _ Hw0) as Htabs. simpl in Htabs. rewrite Htabs in Hr. apply Forall_forall. intros fk (ref & Hfk & Href)%list_elem_of_bind.
  destruct (iterM_inr (verifying (s0, h0)) _ tabs (s0, h0) tt (λ ref _, Hbody ref) Hv Hr ref Href) as (w2 & Hv2 & Hr2).
  apply bind_inr in Hr2 as Hb2. destruct Hb2 as (tbl & Ht & Hb2). rewrite Hb2 in Hr2.
  destruct w2 as [s2 h2]. assert (meta_lookup ref = Some tbl) as Hm.
  { unfold on_sess in Ht. apply (tableMeta_inr ref s2). by destruct (tableMeta ref s2). }
  rewrite Hm in Hfk. assert (verifying (s0, h0) (on_sess (tableMeta ref) (s2, h2)).2) as Hv3.
  { apply on_sess_verifying; [auto with mysql|apply tableMeta_reads|done]. }
  destruct (iterM_inr (verifying (s0, h0)) _ _ _ tt (λ fk _, verify_fk_verifying _ fk) Hv3 Hr2 fk Hfk) as (w4 & Hv4 & Hr4).
  apply anti_join_sound. by apply (verify_fk_inr (s0, h0) w4).
Qed.

(** *** Commit, rollback, and the whole pass *)

Lemma abort_done : triple tx_inv abort (λ _, done_inv).
Proof.
  apply (triple_bind _ (λ _, done_inv)); [|intros _; apply keeps_ignore, closeConn_done|done].
  intros w Hw. by apply tx_rollback_done.
Qed.

Lemma verify_phase_spec :
  triple tx_inv (verify_phase cyc)
    (λ r w, tx_inv w ∧ (r = inr tt → ∀ d, s_tx w.1 = Some d → consistent E d)).
Proof.
  unfold verify_phase. destruct cyc eqn:Hcyc.
  - apply (triple_bind _ (λ _, tx_inv)).
    + intros w Hw. unfold on_err. pose proof (on_tx_inv _ set_fk_open w) as Hk. specialize (Hk Hw).
      unfold wrapf. destruct (on_tx (set_fk_checks true) w) as [[e|[]] w1]; [by apply abort_done|done].
    + intros [] w Hw. destruct (verifyNoOrphans_spec w Hw) as [Hk Hs]. unfold on_err.
      destruct (verifyNoOrphans w) as [[e|[]] w1]; [|done]. split; [by apply abort_done|done].
    + by intros e w Hw.
  - intros [s1 h1] Hw. split; [done|]. simpl. intros _ d Hd. destruct Hw as [_ _ _ H4]. simpl in H4.
    destruct (mt_done h1); [by rewrite (ov_tx _ H4) in Hd|]. by apply (oi_acy _ H4).
Qed.

Lemma publish_done :
  triple (λ w, tx_inv w ∧ (∀ d, s_tx w.1 = Some d → consistent E d)) (publish cyc) (λ _, done_inv).
Proof.
  apply (triple_bind _ (λ _, done_inv)).
  - intros w Hw. pose proof (tx_commit_done w Hw) as Hk. unfold on_err, wrapf, map_err.
    destruct (tx_commit w) as [[e|[]] w1]; [|done]. by apply (keeps_ignore _ _ closeConn_done).
  - intros []. apply keeps_bind; [|intros _; apply closeConn_done].
    intros [s1 h1] [[H1 H2 H3 H4] Hd]. simpl in *. split; [|done]. by split.
  - done.
Qed.

Lemma Commit_spec :
  triple tx_inv Commit (λ r w, tx_inv w ∧ (r = inr tt → mt_done w.2 = true)).
Proof.
  apply (triple_bind _ (λ r w, tx_inv w ∧ r = inr w.2)); [by intros [s h]| |by intros e w []].
  intros h. destruct (mt_committed h) eqn:Hcom.
  { intros w [Hw [= Hh]]. subst. split; [done|]. intros _. by apply (ti_com _ Hw). }
  intros w [Hw [= Hh]]. assert (mt_cyclic h = cyc) as -> by (subst; apply (ti_cyc _ Hw)).
  refine (triple_bind tx_inv (λ r w, tx_inv w ∧ (r = inr tt → ∀ d, s_tx w.1 = Some d → consistent E d))
    (λ r w, tx_inv w ∧ (r = inr tt → mt_done w.2 = true)) (verify_phase cyc) (λ _, publish cyc) _ _ _ w Hw); clear.
  - apply verify_phase_spec.
  - intros [] w [Hw Hc]. destruct (publish_done w (conj Hw (Hc eq_refl))) as [Hk Hd]. by split.
  - intros e w [Hw _]. by split.
Qed.

Lemma Rollback_done : triple tx_inv Rollback (λ _, done_inv).
Proof.
  intros [s h] Hw. unfold Rollback. simpl. destruct (mt_committed h) eqn:Hcom.
  { split; [done|]. by apply (ti_com _ Hw). }
  pose proof (tx_rollback_done (s, h) Hw) as Hk. destruct (tx_rollback (s, h)) as [rb w1]. simpl in Hk.
  pose proof (closeConn_done w1 Hk) as Hc. by destruct (closeConn w1) as [cc w2].
Qed.

Lemma run_op_inv o : keeps tx_inv (run_op o).
Proof. destruct o; [apply StageUpsert_inv|apply DeleteAbsent_inv]. Qed.

Lemma run_ops_done ops : triple tx_inv (run_ops ops) (λ _, done_inv).
Proof.
  assert (triple tx_inv (_ ← iterM run_op ops; Commit)
    (λ r w, tx_inv w ∧ (r = inr tt → mt_done w.2 = true))) as Hc.
  { apply (triple_bind _ (λ _, tx_inv)).
    - apply keeps_iterM. intros o _. apply run_op_inv.
    - intros []. apply Commit_spec.
    - by intros e w Hw. }
  intros w Hw. destruct (Hc w Hw) as [Hk Hd]. unfold run_ops, on_err.
  destruct ((_ ← iterM run_op ops; Commit) w) as [[e|[]] w1]; simpl in *.
  - by apply Rollback_done.
  - split; [done|]. by apply Hd.
Qed.

(** *** [BeginApply] *)

Lemma unpin_over : keeps over_inv unpin.
Proof. intros s [H1 H2 H3]. by split. Qed.

Lemma pin_spec : triple over_inv pin (λ r s, over_inv s ∧ (r = inr tt → s_pinned s = true ∧ s_ok s = true)).
Proof.
  intros s Hs. unfold pin, acquire. destruct (s_pinned s) eqn:Hp; [by destruct Hs; split|].
  assert (over_inv (set_sok s true)) as Hs' by by destruct Hs; split.
  assert (inert (mret tt : M session unit)) as Hin by done.
  pose proof (stmt_over _ Hin _ Hs') as Hk.
  unfold stmt in *. simpl in *.
  destruct (s_net s) as [|[|e|e|e] net]; simpl in *; (split; [|done]); by destruct Hk; split.
Qed.

Lemma begin_spec :
  triple (λ s, over_inv s ∧ s_pinned s = true ∧ s_ok s = true) begin_tx
    (λ r s, match r with inr _ => open_inv s | inl _ => over_inv s end).
Proof.
  intros s ([H1 H2 H3] & Hp & Hok). unfold begin_tx, stmt. rewrite Hok.
  destruct (s_net s) as [|[|e|e|e] net]; simpl; split; simpl; try done; try congruence.
  all: intros Hc; split; [by apply H3|]; by intros d [= <-].
Qed.

Lemma disable_spec :
  cyc = true →
  triple open_inv (set_fk_checks false) (λ _, open_inv).
Proof.
  intros Hc s Hs. unfold set_fk_checks, stmt. destruct (s_ok s) eqn:Hok; [|done].
  destruct Hs as [H1 H2 H3 H4 H5]. destruct (s_net s) as [|[|e|e|e] net]; simpl; split; simpl; try done; try congruence; by intros _; apply H4.
Qed.

Lemma BeginApply_spec :
  triple over_inv (BeginApply cyc tabs)
    (λ r s, match r with inr h => tx_inv (s, h) | inl _ => over_inv s end).
Proof.
  apply (triple_bind _ (λ _, over_inv)); [|intros _|done].
  { apply keeps_iterM. intros ref _. apply keeps_bind; [apply tableMeta_over|auto with mysql]. }
  apply (triple_bind _ (λ r s, over_inv s ∧ (r = inr tt → s_pinned s = true ∧ s_ok s = true))).
  { intros s Hs. destruct (pin_spec s Hs) as [Hk Hr]. unfold wrapf. by destruct (pin s) as [[e|[]] s1]. }
  2:{ by intros e s []. }
  intros []. apply (triple_bind _ (λ r s, match r with inr _ => open_inv s | inl _ => over_inv s end)).
  { intros s [Hs Hr]. pose proof (begin_spec s (conj Hs (Hr eq_refl))) as Hb. unfold on_err, wrapf.
    destruct (begin_tx s) as [[e|[]] s1]; [by apply unpin_over|done]. }
  2:{ done. }
  intros []. apply (triple_bind _ (λ r s, match r with inr _ => open_inv s | inl _ => over_inv s end)).
  - destruct cyc eqn:Hc; [|by intros s Hs].
    intros s Hs. pose proof (disable_spec Hc s Hs) as Hd. unfold on_err, wrapf.
    destruct (set_fk_checks false s) as [[e|[]] s1]; [|done]. simpl in *.
    apply rollback_over in Hd. unfold ignore, mbind, M_bind. by apply unpin_over.
  - intros [] s Hs. by split.
  - done.
Qed.
End pass_inv.

(** ** The checks are on again after a commit *)

(** A fact about the session, or about the transaction object, through the lifts. *)
Lemma on_sess_fst {A} (J : session → Prop) (m : M session A) : keeps J m → keeps (λ w, J w.1) (on_sess m).
Proof. intros Hm [s h] Hs. unfold on_sess. specialize (Hm s Hs). by destruct (m s). Qed.

Lemma on_tx_fst {A} (J : session → Prop) (m : M session A) : keeps J m → keeps (λ w, J w.1) (on_tx m).
Proof.
  intros Hm. apply keeps_bind; [apply get_tx_keeps|]. intros h.
  destruct (mt_done h); [apply keeps_fail|by apply on_sess_fst].
Qed.

Lemma on_conn_fst {A} (J : session → Prop) (m : M session A) : keeps J m → keeps (λ w, J w.1) (on_conn m).
Proof.
  intros Hm. apply keeps_bind; [apply get_tx_keeps|]. intros h.
  destruct (mt_closed h); [apply keeps_fail|by apply on_sess_fst].
Qed.

Lemma put_tx_fst (J : session → Prop) f : keeps (λ w, J w.1) (put_tx f).
Proof. by intros [s h]. Qed.

Lemma on_sess_snd {A} (J : mysqlApplyTx → Prop) (m : M session A) : keeps (λ w, J w.2) (on_sess m).
Proof. intros [s h] Hs. unfold on_sess. by destruct (m s). Qed.

Lemma on_tx_snd {A} (J : mysqlApplyTx → Prop) (m : M session A) : keeps (λ w, J w.2) (on_tx m).
Proof.
  apply keeps_bind; [apply get_tx_keeps|]. intros h. destruct (mt_done h); [apply keeps_fail|apply on_sess_snd].
Qed.

Hint Resolve get_tx_keeps on_sess_fst on_tx_fst on_conn_fst put_tx_fst on_sess_snd on_tx_snd : mysql.

Definition fk_on (s : session) : Prop := s_fk s = true.

Lemma stmt_fk {A} (f : M session A) : keeps fk_on f → keeps fk_on (stmt f).
Proof.
  intros Hf s Hs. unfold stmt. destruct (s_ok s); [|done]. destruct (s_net s) as [|[|e|e|e] net]; try done; by apply Hf.
Qed.

Lemma tableMeta_fk ref : keeps fk_on (tableMeta ref).
Proof.
  intros s Hs. unfold tableMeta. destruct (decide _); [by destruct (meta_lookup ref)|].
  unfold pool. destruct (s_pinned s); [done|]. apply stmt_fk; [|done]. intros s1 H1. by destruct (meta_lookup ref).
Qed.

Lemma end_tx_fk ok s : s_fk (end_tx ok s) = s_fk s.
Proof. unfold end_tx. destruct (s_tx s); [|done]. by destruct ok. Qed.

Lemma commit_tx_fk : keeps fk_on commit_tx.
Proof.
  intros s Hs. unfold commit_tx. destruct (s_ok s); [|done]. unfold fk_on.
  destruct (s_net s) as [|[|e|e|e] net]; simpl; rewrite ?end_tx_fk; done.
Qed.

Lemma closeConn_fk : keeps (λ w, fk_on w.1) closeConn.
Proof.
  unfold closeConn. apply keeps_bind; [auto with mysql|]. intros h.
  apply keeps_bind.
  { apply keeps_iterM. intros x _. apply keeps_ignore, on_conn_fst, stmt_fk. by intros s Hs. }
  intros _. apply keeps_bind.
  { destruct (mt_cyclic h); [|auto with mysql]. apply keeps_ignore, on_conn_fst, stmt_fk. by intros s Hs. }
  intros _. apply keeps_bind; [auto with mysql|]. intros h'. destruct (mt_closed h'); [auto with mysql|].
  apply keeps_bind; [auto with mysql|]. intros _. apply on_sess_fst. by intros s Hs.
Qed.

Lemma verify_fk_on : keeps (λ w, fk_on w.1) verifyNoOrphans.
Proof.
  unfold verifyNoOrphans. apply keeps_bind; [auto with mysql|]. intros h. apply keeps_iterM. intros ref _.
  apply keeps_bind; [apply on_sess_fst, tableMeta_fk|]. intros tbl. apply keeps_iterM. intros fk _.
  apply keeps_bind; [|intros []; auto with mysql]. apply keeps_wrapf, on_tx_fst, stmt_fk. by intros s Hs.
Qed.

Lemma publish_fk cyclic : keeps (λ w, fk_on w.1) (publish cyclic).
Proof.
  unfold publish, tx_commit, tx_end.
  apply keeps_bind; [|intros _; apply keeps_bind; [auto with mysql|intros _; apply closeConn_fk]].
  apply keeps_on_err; [apply keeps_ignore, closeConn_fk|]. apply keeps_wrapf, keeps_map_err.
  apply keeps_bind; [auto with mysql|]. intros h. destruct (mt_done h); [auto with mysql|].
  apply keeps_bind; [auto with mysql|]. intros _. apply on_sess_fst, commit_tx_fk.
Qed.

Lemma verify_phase_fk w : (verify_phase true w).1 = inr tt → fk_on (verify_phase true w).2.1.
Proof.
  unfold verify_phase. intros Hr. apply bind_inr in Hr as Hb. destruct Hb as ([] & H1 & Hb). rewrite Hb in Hr |- *.
  clear Hb. pose proof (on_err_inr _ _ _ _ H1) as Ho. rewrite Ho in H1, Hr |- *. rewrite (on_err_inr _ _ _ _ Hr).
  apply verify_fk_on. clear Hr Ho. unfold wrapf, on_tx, mbind, M_bind, get_tx in *. destruct w as [s h]. destruct (mt_done h); [done|].
  unfold on_sess, set_fk_checks, stmt in *. destruct (s_ok s); [|done].
  by destruct (s_net s) as [|[|e|e|e] net].
Qed.

Lemma Commit_fk w :
  mt_committed w.2 = false → mt_cyclic w.2 = true → (Commit w).1 = inr tt → fk_on (Commit w).2.1.
Proof.
  intros Hc Hcy Hr. unfold Commit in *. apply bind_inr in Hr as Hb. destruct Hb as (h & Hh & Hb).
  destruct w as [s h']. simpl in *. injection Hh as <-. rewrite Hb in Hr |- *. rewrite Hc, Hcy in *. simpl in *.
  apply bind_inr in Hr as Hb'. destruct Hb' as ([] & H1 & Hb'). rewrite Hb'.
  apply publish_fk. by apply verify_phase_fk.
Qed.

Definition handle_ok (c d : bool) (h : mysqlApplyTx) : Prop :=
  mt_committed h = false ∧ mt_cyclic h = c ∧ mt_done h = d ∧ mt_closed h = false.

Lemma run_op_handle o c d : keeps (λ w, handle_ok c d w.2) (run_op o).
Proof.
  destruct o; simpl.
  - unfold StageUpsert. apply keeps_bind; [auto with mysql|]. intros tbl.
    destruct (replicationKey tbl) as [key|]; [|auto with mysql].
    destruct (tempColumnDDL tbl cols); [auto with mysql|]. unfold stage_rows.
    apply keeps_bind; [auto with mysql|]. intros h. cbv zeta.
    repeat (apply keeps_bind; [|intros _]); auto with mysql; by intros [s h'].
  - unfold DeleteAbsent. apply keeps_bind; [auto with mysql|]. intros h.
    destruct (mt_staging h !! ref) as [[stg kc]|]; [|auto with mysql].
    destruct dirtyKeys; auto with mysql.
Qed.

Lemma run_ops_fk ops w :
  handle_ok true false w.2 → (run_ops ops w).1 = inr tt → fk_on (run_ops ops w).2.1.
Proof.
  intros Hh Hr. unfold run_ops in *. pose proof (on_err_inr _ _ _ _ Hr) as Ho. rewrite Ho in Hr |- *.
  apply bind_inr in Hr as Hb. destruct Hb as ([] & _ & Hb). rewrite Hb in Hr |- *.
  assert (keeps (λ w, handle_ok true false w.2) (iterM run_op ops)) as Hk
    by (apply keeps_iterM; intros o _; apply run_op_handle).
  destruct (Hk w Hh) as (? & ? & _). by apply Commit_fk.
Qed.

Lemma BeginApply_handle cyclic tabs s h :
  (BeginApply cyclic tabs s).1 = inr h → handle_ok cyclic false h.
Proof.
  unfold BeginApply. intros Hr.
  do 4 (apply bind_inr in Hr as Hb; destruct Hb as ([] & _ & Hb); rewrite Hb in Hr; clear Hb).
  by injection Hr as <-.
Qed.

(** C10: A drain pass never publishes a dangling reference. From a target whose component has
    none, whatever the pass stages and deletes, whichever statement fails and with whatever
    loss of the connection, no foreign key of the component dangles in what is committed
    afterwards, and no transaction stays open. For an acyclic component, and for every pass
    that succeeds, FOREIGN_KEY_CHECKS is on again. *)
Theorem pass_consistent cyclic tabs ops s :
  s_tx s = None → (cyclic = false → s_fk s = true) → consistent (comp_fks tabs) (s_db s) →
  let '(r, s') := pass cyclic tabs ops s in
  s_tx s' = None ∧ consistent (comp_fks tabs) (s_db s') ∧
  (cyclic = false ∨ r = inr tt → s_fk s' = true).
Proof.
  intros Htx Hfk Hdb. unfold pass.
  pose proof (BeginApply_spec cyclic tabs s (Build_over_inv _ _ s Hdb Htx Hfk)) as Hb.
  pose proof (BeginApply_handle cyclic tabs s) as Hh.
  destruct (BeginApply cyclic tabs s) as [[e|h] s1]; simpl in *.
  { destruct Hb as [F1 F2 F3]. split_and!; [done..|]. intros [Hc|Hc]; [by apply F3|done]. }
  specialize (Hh h eq_refl).
  pose proof (run_ops_done cyclic tabs ops (s1, h) Hb) as [[_ _ _ H4] Hd].
  pose proof (run_ops_fk ops (s1, h)) as Hf.
  destruct (run_ops ops (s1, h)) as [r [s2 h2]]. simpl in *. rewrite Hd in H4. destruct H4 as [F1 F2 F3].
  split_and!; [done..|]. intros Hc. destruct cyclic; [|by apply F3].
  destruct Hc as [Hc| ->]; [done|by apply Hf].
Qed.

(** ** Staging tables outlive a failed pass *)

(** Nothing fails by itself: the session with the TEMPORARY tables [T], between passes and
    inside one. *)
Record between (T : gmap string (list Row * list Row)) (s : session) : Prop := {
  bt_net : s_net s = [];
  bt_pin : s_pinned s = false;
  bt_tx : s_tx s = None;
  bt_temp : s_temp s = T
}.

Record inside (T : gmap string (list Row * list Row)) (s : session) : Prop := {
  in_net : s_net s = [];
  in_ok : s_ok s = true;
  in_pin : s_pinned s = true;
  in_tx : is_Some (s_tx s);
  in_temp : s_temp s = T
}.

Lemma pop_nil s : s_net s = [] → pop s = s.
Proof. destruct s. unfold pop. simpl. by intros ->. Qed.

Lemma stmt_calm {A} (f : M session A) s : s_net s = [] → s_ok s = true → stmt f s = f s.
Proof. intros Hn Ho. unfold stmt. by rewrite Ho, Hn, pop_nil. Qed.

Definition not_transient {A} (r : result A) : Prop :=
  match r with inl e => IsTransientConstraint e = false | inr _ => True end.

Lemma tableMeta_between T ref :
  triple (between T) (tableMeta ref) (λ r s, between T s ∧ not_transient r).
Proof.
  intros s [H1 H2 H3 H4]. unfold tableMeta. destruct (decide _).
  - destruct (meta_lookup ref); by split.
  - unfold pool. rewrite H2, stmt_calm by done. destruct (meta_lookup ref); split; by try split.
Qed.

Lemma tableMeta_inside T ref :
  triple (inside T) (tableMeta ref) (λ r s, inside T s ∧ not_transient r).
Proof.
  intros s [H1 H2 H3 H4 H5]. unfold tableMeta. destruct (decide _).
  - destruct (meta_lookup ref); by split.
  - unfold pool. rewrite H3. split; by try split.
Qed.

Lemma BeginApply_between T tabs :
  triple (between T) (BeginApply false tabs)
    (λ r s, match r with
            | inl e => IsTransientConstraint e = false
            | inr h => inside T s ∧ h = mkMyTx false tabs ∅ 0 false false false
            end).
Proof.
  apply (triple_bind _ (λ r s, between T s ∧ not_transient r)).
  { generalize tabs. induction tabs0 as [|ref l IH]; [by split|]. cbn [iterM].
    apply (triple_bind _ (λ r s, between T s ∧ not_transient r)).
    - apply (triple_bind _ (λ r s, between T s ∧ not_transient r)); [apply tableMeta_between| |by intros e s []].
      intros tbl s [Hs _]. by split.
    - intros [] s [Hs _]. by apply IH.
    - by intros e s []. }
  2:{ by intros e s []. }
  intros [] s [[H1 H2 H3 H4] _]. unfold pin, acquire, wrapf, on_err, begin_tx, mbind, M_bind.
  rewrite H2, stmt_calm by done. simpl. rewrite stmt_calm by done. simpl.
  split; [|done]. by split.
Qed.

Definition stg_name (n : nat) : string := "rc_apply_stg_" +:+ pretty n.

Lemma on_tx_live {A} (m : M session A) s h :
  mt_done h = false → on_tx m (s, h) = let '(r, s') := m s in (r, (s', h)).
Proof. intros Hd. unfold on_tx, mbind, M_bind, get_tx, on_sess. by rewrite Hd. Qed.

Lemma stmt_inside T {A} (f : M session A) s : inside T s → stmt f s = f s.
Proof. intros [H1 H2 _ _ _]. by apply stmt_calm. Qed.

(** [StageUpsert] leaves its staging table behind, on every path; when the table is already
    there it fails. *)
Lemma stage_rows_inside T ref tbl key cols u s h r w :
  inside T s → mt_done h = false → stage_rows ref tbl key cols u (s, h) = (r, w) →
  (∃ T', inside T' w.1 ∧ is_Some (T' !! stg_name (mt_nextStg h))) ∧
  (∀ e, r = inl e → w.2 = set_next h) ∧
  (is_Some (T !! stg_name (mt_nextStg h)) → ∃ e, r = inl e ∧ IsTransientConstraint e = false).
Proof.
  intros Hs Hd. unfold stage_rows. cbv zeta. fold (stg_name (mt_nextStg h)).
  unfold mbind, M_bind, get_tx, put_tx. set (h1 := set_next h). assert (mt_done h1 = false) as Hd1 by done.
  change ("rc_apply_stg_" +:+ pretty (mt_nextStg h)) with (stg_name (mt_nextStg h)). set (stg := stg_name (mt_nextStg h)).
  unfold wrapf at 1. rewrite on_tx_live by done. unfold create_temp. rewrite (stmt_inside T) by done.
  rewrite (in_temp _ _ Hs). destruct (T !! stg) as [x|] eqn:Ht.
  { intros [= <- <-]. split_and!; [exists T; by rewrite Ht|done|]. intros _. by eexists. }
  set (T1 := <[stg := ([], [])]> T). set (s1 := set_stemp s T1).
  assert (inside T1 s1) as Hs1 by by destruct Hs; split. assert (T1 !! stg = Some ([], [])) as Hl by by apply lookup_insert_eq.
  unfold wrapf at 1. rewrite on_tx_live by done. unfold runLoad. destruct localInfile.
  2:{ intros [= <- <-]. split_and!; [exists T1; by rewrite Hl|done|by intros []]. }
  unfold wrapf at 1, load_temp. rewrite (stmt_inside T1), (in_temp _ _ Hs1), Hl by done.
  match goal with |- context [set_stemp s1 ?x] => set (T2 := x) end. set (s2 := set_stemp s1 T2).
  assert (inside T2 s2) as Hs2 by by destruct Hs1; split.
  assert (is_Some (T2 !! stg)) as [x2 Hl2] by (subst T2; rewrite lookup_insert_eq; eauto).
  destruct (uploaded _ _) as [e|n].
  { intros [= <- <-]. split_and!; [exists T2; by rewrite Hl2|done|by intros []]. }
  unfold wrapf at 1, map_err. rewrite on_tx_live by done. unfold upsert_from, dml_from.
  rewrite (stmt_inside T2) by done. unfold temp_rows. rewrite (in_temp _ _ Hs2), Hl2. destruct x2 as [y z].
  destruct (upsert_all _ _ _ _ _ _) as [e|d].
  { intros [= <- <-]. split_and!; [exists T2; by rewrite Hl2|done|by intros []]. }
  intros [= <- <-]. split_and!; [|done|by intros []]. exists T2. split; [|by rewrite Hl2].
  destruct Hs2 as [F1 F2 F3 [d0 F4] F5]. unfold write. rewrite F4. split; simpl; by eauto.
Qed.

Lemma tempColumnDDL_inl tbl cols e : tempColumnDDL tbl cols = inl e → IsTransientConstraint e = false.
Proof.
  induction cols as [|c cols IH]; [done|]. unfold tempColumnDDL in *. cbn [foldr].
  destruct (by_name _ !! c); [|by intros [= <-]]. destruct (foldr _ _ cols); [by intros [= <-]; apply IH|done].
Qed.

Lemma StageUpsert_inside T ref cols u s h r w :
  inside T s → mt_done h = false → StageUpsert ref cols u (s, h) = (r, w) →
  (∃ T', inside T' w.1 ∧ (not_transient r ∨ is_Some (T' !! stg_name (mt_nextStg h)))) ∧
  (∀ e, r = inl e → w.2 = h ∨ w.2 = set_next h) ∧
  (is_Some (T !! stg_name (mt_nextStg h)) → ∃ e, r = inl e ∧ IsTransientConstraint e = false).
Proof.
  intros Hs Hd. unfold StageUpsert, mbind, M_bind. unfold on_sess at 1.
  destruct (tableMeta_inside T ref s Hs) as [Hs1 Hnt]. destruct (tableMeta ref s) as [[e|tbl] s1]; simpl in *.
  { intros [= <- <-]. split_and!; [exists T; split; [done|by left]|by auto|intros _; by eexists]. }
  destruct (replicationKey tbl) as [key|].
  2:{ intros [= <- <-]. split_and!; [exists T; split; [done|by left]|by auto|intros _; by eexists]. }
  destruct (tempColumnDDL tbl cols) as [e|ddl] eqn:Eddl.
  { apply tempColumnDDL_inl in Eddl. intros [= <- <-]. split_and!; [exists T; split; [done|by left]|by auto|intros _; by eexists]. }
  intros Hr. destruct (stage_rows_inside T _ _ _ _ _ _ _ _ _ Hs1 Hd Hr) as ((T' & Hi & Hl) & Hh & Hx).
  split_and!; [exists T'; split; [done|by right]|intros e He; right; by apply (Hh e)|done].
Qed.

Lemma closeConn_inr w : mt_closed w.2 = false → (closeConn w).1 = inr tt.
Proof.
  intros Hc. unfold closeConn, mbind at 1, M_bind at 1, get_tx. destruct w as [s h]. simpl in Hc.
  assert (∀ l w, mt_closed w.2 = false →
    ∃ w', iterM (λ x : TableRef * (string * list string), ignore (on_conn (drop_temp x.2.1))) l w = (inr tt, w') ∧
      mt_closed w'.2 = false) as Hit.
  { induction l as [|x l IH]; intros w' Hw'; cbn [iterM]; [by exists w'|].
    unfold mbind at 1, M_bind at 1, ignore at 1. apply IH.
    refine (keeps_bind (λ w, mt_closed w.2 = false) get_tx _ (get_tx_keeps _) _ w' Hw'). intros h'.
    destruct (mt_closed h'); [apply keeps_fail|apply (on_sess_snd (λ h, mt_closed h = false))]. }
  destruct (Hit (map_to_list (mt_staging h)) (s, h) Hc) as (w' & Hw & Hc'). unfold mbind, M_bind. rewrite Hw.
  assert (∃ w2, (if mt_cyclic h then ignore (on_conn (set_fk_checks true)) else mret tt) w' = (inr tt, w2) ∧
    mt_closed w2.2 = false) as (w2 & -> & Hc2).
  { destruct (mt_cyclic h); [|by exists w']. unfold ignore. eexists. split; [done|].
    refine (keeps_bind (λ w, mt_closed w.2 = false) get_tx _ (get_tx_keeps _) _ w' Hc'). intros h'.
    destruct (mt_closed h'); [apply keeps_fail|apply (on_sess_snd (λ h, mt_closed h = false))]. }
  unfold conn_close, mbind, M_bind, get_tx. destruct w2 as [s2 h2]. simpl in Hc2. by rewrite Hc2.
Qed.

Lemma Commit_calm T s h :
  inside T s → mt_cyclic h = false → mt_committed h = false → mt_done h = false → mt_closed h = false →
  (Commit (s, h)).1 = inr tt.
Proof.
  intros [H1 H2 H3 [d H4] H5] Hc Hcom Hd Hcl. unfold Commit, mbind, M_bind, get_tx.
  rewrite Hcom, Hc. unfold verify_phase, publish, mbind, M_bind, mret, M_ret.
  unfold on_err, wrapf, map_err, tx_commit, tx_end, mbind, M_bind, get_tx. rewrite Hd. simpl.
  unfold commit_tx. rewrite H2, H1. simpl. by apply closeConn_inr.
Qed.

Lemma Rollback_inside T s h :
  inside T s → mt_committed h = false → mt_done h = false → mt_closed h = false → mt_cyclic h = false →
  mt_staging h = ∅ →
  between ((λ x, (x.1, x.1)) <$> T) (Rollback (s, h)).2.1.
Proof.
  intros [H1 H2 H3 [d H4] H5] Hcom Hd Hcl Hcy Hst. unfold Rollback. simpl. rewrite Hcom.
  unfold tx_rollback, tx_end, mbind, M_bind, get_tx. rewrite Hd. simpl. unfold rollback_tx.
  rewrite H2, H1. unfold end_tx. rewrite pop_nil, H4 by done. simpl.
  unfold closeConn, mbind, M_bind, get_tx. simpl. rewrite Hst, map_to_list_empty. simpl. rewrite Hcy. simpl.
  unfold conn_close, mbind, M_bind, get_tx. simpl. rewrite Hcl. simpl. split; simpl; by rewrite ?H5.
Qed.

(** The retry after a foreign-key failure cannot succeed. When a pass over an acyclic
    component fails with the error the drain retries on, its staging table outlives the
    rollback, so that every later pass on that connection that stages a table fails with an
    error that is not retried. *)
Theorem failed_stage_blocks_retry tabs ref cols u ref' cols' u' ops e s :
  s_net s = [] → s_pinned s = false → s_tx s = None →
  (pass false tabs [PStage ref cols u] s).1 = inl e → IsTransientConstraint e = true →
  ∃ e', (pass false tabs (PStage ref' cols' u' :: ops) (pass false tabs [PStage ref cols u] s).2).1 = inl e' ∧
    IsTransientConstraint e' = false.
Proof.
  intros Hn Hp Ht He Htr. pose proof (BeginApply_between (s_temp s) tabs s (Build_between _ s Hn Hp Ht eq_refl)) as Hb.
  assert (∃ T s1, between T s1 ∧ is_Some (T !! stg_name 0) ∧ (pass false tabs [PStage ref cols u] s).2 = s1) as Hleak.
  { unfold pass in *. destruct (BeginApply false tabs s) as [[e0|h] s1]; simpl in Hb; [simpl in He; congruence|].
    destruct Hb as [Hs1 ->]. set (h0 := mkMyTx false tabs ∅ 0 false false false) in *.
    unfold run_ops, on_err, mbind, M_bind in *. cbn [iterM run_op] in *. unfold mbind, M_bind in *.
    destruct (StageUpsert ref cols u (s1, h0)) as [[e1|[]] w] eqn:Hst; simpl in *;
      destruct (StageUpsert_inside _ _ _ _ _ h0 _ _ Hs1 eq_refl Hst) as ((T' & Hi & Hl) & Hh & _).
    - destruct w as [s2 h2]. destruct (Rollback (s2, h2)) as [r [s3 h3]] eqn:Hrb. simpl in *.
      exists ((λ x, (x.1, x.1)) <$> T'), s3. split_and!; [|rewrite lookup_fmap; destruct Hl as [Hl|[x Hl]];
        [simpl in Hl; congruence|by rewrite Hl; eexists]|done].
      change s3 with (r, (s3, h3)).2.1. rewrite <-Hrb.
      destruct (Hh e1 eq_refl) as [-> | ->]; by apply Rollback_inside.
    - exfalso. destruct w as [s2 h2].
      pose proof (run_op_handle (PStage ref cols u) false false (s1, h0)) as Hk. simpl in Hk. rewrite Hst in Hk.
      destruct Hk as (K1 & K2 & K3 & K4); [done|]. simpl in *. pose proof (Commit_calm T' s2 h2 Hi K2 K1 K3 K4) as Hcc.
      destruct (Commit (s2, h2)) as [[e1|[]] [s3 h3]]; done. }
  destruct Hleak as (T & s1 & Hs1 & Hstg & ->). clear He Htr Hb. unfold pass.
  pose proof (BeginApply_between T tabs s1 Hs1) as Hb.
  destruct (BeginApply false tabs s1) as [[e0|h] s2]; simpl in Hb; [by exists e0|]. destruct Hb as [Hs2 ->].
  unfold run_ops, on_err, mbind, M_bind. cbn [iterM run_op]. unfold mbind, M_bind.
  destruct (StageUpsert ref' cols' u' _) as [r w] eqn:Hst.
  destruct (StageUpsert_inside _ _ _ _ _ (mkMyTx false tabs ∅ 0 false false false) _ _ Hs2 eq_refl Hst) as (_ & _ & Hx).
  destruct (Hx Hstg) as (e' & -> & Hnt). exists e'. split; [|done].
  destruct (ignore Rollback w) as [? [? ?]]. done.
Qed.
End sink.
End MyApply.
