(* ===== verification/MyPreflight.v ===== *)
(** * Pre-flight of the MySQL engine ([internal/engine/mysql/preflight.go])

    The report on the introspected schemas of source and target: keyless tables are
    skipped, storage engines, secondary unique keys, missing tables and columns and
    incompatible types block. The quoting of a name ([%q]) and the rounding of a percentage
    ([%.0f%%]) in a message are parameters. *)

From S2P Require Import Prelude Text Engine FkGraph CyclicFk PgPreflight MyTypes MyApply.
Import Text FkGraph MyTypes.

Module MyPreflight.
Import PgPreflight (PreflightReport, mkReport, rp_Sync, rp_SourceVersion, rp_TargetVersion, rp_Replicable, rp_Skipped,
  rp_Components, rp_Findings).

(** [strings.EqualFold] on ASCII *)
Definition EqualFold (a b : string) : bool := bool_decide (ToLower (txt a) = ToLower (txt b)).

Definition finding (sev : Severity) (ref : TableRef) (category msg : string) : Finding := mkFinding sev ref category msg.

(** [append] to the findings of a report *)
Definition add_findings (r : PreflightReport) (fs : list Finding) : PreflightReport :=
  mkReport (rp_Sync r) (rp_SourceVersion r) (rp_TargetVersion r) (rp_Replicable r) (rp_Skipped r) (rp_Components r)
    (rp_Findings r ++ fs).

(** The helpers below give the findings they append to the report. *)

Definition sameCols (a b : list string) : bool := bool_decide (a = b).

Definition allNotNull (t : Table) (cols : list string) : bool :=
  forallb (λ name, negb (from_option col_Nullable false (MyApply.by_name (tbl_Columns t) !! name))) cols.

(** A table missing from the map is the zero table, which has no foreign keys. *)
Definition cyclicHasNotNullFK (c : Component) (byRef : gmap TableRef Table) : bool :=
  existsb (λ ref,
    match byRef !! ref with
    | None => false
    | Some t =>
        existsb (λ fk, bool_decide (fk_Parent fk ∈ comp_Cyclic c ∨ fk_Parent fk = ref) && allNotNull t (fk_ChildCols fk))
          (tbl_ForeignKeys t)
    end) (comp_Cyclic c).

Definition nullfill_note : string := "NULL-then-fill (nullable cyclic FK)".
Definition fkchecks_note : string :=
  "scoped FOREIGN_KEY_CHECKS=0 + pre-commit orphan-verification (NOT NULL cyclic FK, mysql-plan §0.2)".

Definition noteCyclicStrategy (comps : list Component) (tables : list Table) : list Finding :=
  mjoin ((λ c,
    if HasCycle c then
      let strategy := if cyclicHasNotNullFK c (CyclicFk.byRefOf tables) then fkchecks_note else nullfill_note in
      (λ ref, finding SevInfo ref "cyclic-fk"
                ("member of an FK cycle/self-reference; initial load strategy: " +:+ strategy)) <$> comp_Cyclic c
    else []) <$> comps).

Section preflight.
Context (quote : string → string) (percent : nat → nat → string).

Definition blockNonInnoDB (t : Table) (role : string) : list Finding :=
  if bool_decide (tbl_StorageEngine t = "") || EqualFold (tbl_StorageEngine t) "InnoDB" then []
  else [finding SevBlock (tbl_Ref t) "non-innodb"
         (role +:+ " table uses storage engine " +:+ quote (tbl_StorageEngine t) +:+
          "; only InnoDB is supported (non-transactional engines break atomic apply/capture, mysql-plan §0.5)")].

(** The loop returns at the first unique key beyond the replication key. *)
Definition blockSecondaryUnique (t : Table) : list Finding :=
  let rk := MyApply.replicationKey t in
  let is_rk u := match rk with Some k => sameCols (key_Columns u) (key_Columns k) | None => false end in
  match List.find (λ u, negb (is_rk u)) (tbl_UniqueKeys t) with
  | None => []
  | Some u =>
      [finding SevBlock (tbl_Ref t) "secondary-unique"
        ("target table has a secondary UNIQUE key " +:+ quote (key_Name u) +:+
         " beyond the replication key; ON DUPLICATE KEY UPDATE cannot preserve faithful halt-loud semantics for it (mysql-plan §0.4)")]
  end.

(** One source column of [compareColumns]. *)
Definition compare_column (ref : TableRef) (tgtCols : gmap string Column) (sc : Column) : list Finding :=
  if col_Generated sc then []
  else
    match tgtCols !! col_Name sc with
    | None =>
        [finding SevBlock ref "missing-column"
          ("column " +:+ quote (col_Name sc) +:+ " exists on the source but not the target")]
    | Some tc =>
        let '(lvl, reason) := classifyColumn sc tc in
        if blocks lvl then
          [finding SevBlock ref "type-incompatible"
            ("column " +:+ quote (col_Name sc) +:+ ": " +:+ reason +:+ " (" +:+ col_DataType sc +:+ " -> " +:+
             col_DataType tc +:+ ")")]
        else if decide (lvl = compatRisky) then
          [finding SevWarn ref "type-risky" ("column " +:+ quote (col_Name sc) +:+ ": " +:+ reason)]
        else []
    end.

Definition compareColumns (src tgt : Table) : list Finding :=
  mjoin (compare_column (tbl_Ref src) (MyApply.by_name (tbl_Columns tgt)) <$> tbl_Columns src).

(** One source table of the loop: the replicable tables so far and the report. *)
Definition visit_table (tgtByRef : gmap TableRef Table) (acc : list Table * PreflightReport) (st : Table)
    : list Table * PreflightReport :=
  let '(replicable, r) := acc in
  if HasUsableKey st then
    let r := mkReport (rp_Sync r) (rp_SourceVersion r) (rp_TargetVersion r) (rp_Replicable r ++ [tbl_Ref st])
               (rp_Skipped r) (rp_Components r) (rp_Findings r) in
    let r := add_findings r (blockNonInnoDB st "source") in
    match tgtByRef !! tbl_Ref st with
    | None =>
        (replicable ++ [st],
         add_findings r [finding SevBlock (tbl_Ref st) "missing-target"
           "table is selected on the source but does not exist on the target (target schema is data-only, CLAUDE.md §7)"])
    | Some tgt =>
        let r := add_findings r (blockNonInnoDB tgt "target") in
        let r := add_findings r (blockSecondaryUnique tgt) in
        (replicable ++ [st], add_findings r (compareColumns st tgt))
    end
  else
    let r := mkReport (rp_Sync r) (rp_SourceVersion r) (rp_TargetVersion r) (rp_Replicable r)
               (rp_Skipped r ++ [(tbl_Ref st, "no primary key or unique key")]) (rp_Components r) (rp_Findings r) in
    (replicable,
     add_findings r [finding SevWarn (tbl_Ref st) "no-key" "table has no primary key or unique key; skipped (CLAUDE.md §3.1)"]).

Definition giant_findings (g : Giant) (total : nat) : list Finding :=
  match giant_Component g with
  | Some c =>
      if giant_Present g then
        [finding SevWarn zeroRef "giant-component"
           ("one FK component covers " +:+ percent (length (comp_Tables c)) total +:+
            "% of the selection, collapsing parallelism (CLAUDE.md §8.1)")]
      else []
  | None => []
  end.

Definition dangling_finding (fk : ForeignKey) : Finding :=
  finding SevWarn (fk_Child fk) "dangling-fk"
    ("FK " +:+ fk_Name fk +:+ " references " +:+ ref_string (fk_Parent fk) +:+
     " which is not in the selection; the target must already satisfy it").

(** [buildPreflight]; a nil source gives the empty report, [None] only if a graph routine ran
    out of fuel. *)
Definition buildPreflight (syncName : string) (srcVersion tgtVersion : Z) (source target : option (list Table))
    : option PreflightReport :=
  let r := mkReport syncName srcVersion tgtVersion [] [] [] [] in
  match source with
  | None => Some r
  | Some tables =>
      let tgtByRef := CyclicFk.byRefOf (default [] target) in
      let '(replicable, r) := foldl (visit_table tgtByRef) ([], r) tables in
      comps ← Components replicable;
      let r := mkReport (rp_Sync r) (rp_SourceVersion r) (rp_TargetVersion r) (rp_Replicable r) (rp_Skipped r) comps
                 (rp_Findings r) in
      let r := add_findings r (giant_findings (DetectGiant comps (length replicable)) (length replicable)) in
      let r := add_findings r (dangling_finding <$> DanglingEdges replicable) in
      Some (add_findings r (noteCyclicStrategy comps replicable))
  end.

(** ** What the report says *)

Definition replicable_tables (source : list Table) : list Table := filter (λ t, HasUsableKey t = true) source.

(** The findings of one source table. *)
Definition table_findings (tgtByRef : gmap TableRef Table) (st : Table) : list Finding :=
  rp_Findings (visit_table tgtByRef ([], mkReport "" 0 0 [] [] [] []) st).2.

Lemma visit_all (tgtByRef : gmap TableRef Table) (l reps : list Table) (r : PreflightReport) :
  let '(reps', r') := foldl (visit_table tgtByRef) (reps, r) l in
  reps' = reps ++ replicable_tables l ∧
  rp_Replicable r' = rp_Replicable r ++ (tbl_Ref <$> replicable_tables l) ∧
  rp_Skipped r' = rp_Skipped r ++
    ((λ t, (tbl_Ref t, "no primary key or unique key")) <$> filter (λ t, HasUsableKey t = false) l) ∧
  rp_Findings r' = rp_Findings r ++ mjoin (table_findings tgtByRef <$> l).
Proof.
  revert reps r. induction l as [|st l IH]; intros reps r; [by simpl; rewrite !app_nil_r|]; cbn [foldl].
  assert (∃ reps1 r1, visit_table tgtByRef (reps, r) st = (reps1, r1) ∧
    reps1 = reps ++ replicable_tables [st] ∧
    rp_Replicable r1 = rp_Replicable r ++ (tbl_Ref <$> replicable_tables [st]) ∧
    rp_Skipped r1 = rp_Skipped r ++
      ((λ t, (tbl_Ref t, "no primary key or unique key")) <$> filter (λ t, HasUsableKey t = false) [st]) ∧
    rp_Findings r1 = rp_Findings r ++ table_findings tgtByRef st) as (reps1 & r1 & -> & -> & H1 & H2 & H3).
  { unfold table_findings, replicable_tables, visit_table, filter. cbn [list_filter].
    destruct (HasUsableKey st) eqn:Hk; [destruct (tgtByRef !! tbl_Ref st)|]; cbn;
      do 2 eexists; split_and!; try reflexivity; cbn; by rewrite ?app_nil_r, <-?app_assoc. }
  specialize (IH (reps ++ replicable_tables [st]) r1).
  destruct (foldl _ _ l) as [reps' r']. destruct IH as (-> & -> & -> & ->).
  change (st :: l) with ([st] ++ l). unfold replicable_tables in *. rewrite H1, H2, H3, !filter_app, !fmap_app, <-!app_assoc.
  done.
Qed.

Definition no_block (fs : list Finding) : Prop := Forall (λ f, fnd_Severity f ≠ SevBlock) fs.

Lemma Blocked_false (fs : list Finding) : Blocked fs = false ↔ no_block fs.
Proof.
  rewrite <-not_true_iff_false, Blocked_Exists. unfold no_block. split.
  - intros Hn. apply Forall_forall. intros f Hf Hs. apply Hn, Exists_exists. by exists f.
  - intros Hn (f & Hf & Hs)%Exists_exists. rewrite Forall_forall in Hn. by apply (Hn f).
Qed.

Lemma no_block_app (a b : list Finding) : no_block (a ++ b) ↔ no_block a ∧ no_block b.
Proof. apply Forall_app. Qed.

Lemma no_block_join {A} (f : A → list Finding) (l : list A) :
  no_block (mjoin (f <$> l)) ↔ ∀ x, x ∈ l → no_block (f x).
Proof.
  induction l as [|a l IH]; simpl.
  - split; [by intros _ x ?%elem_of_nil|]. intros _. constructor.
  - rewrite no_block_app, IH. setoid_rewrite elem_of_cons. naive_solver.
Qed.

(** InnoDB, or an engine that does not name its storage. *)
Definition innodb (t : Table) : Prop := tbl_StorageEngine t = "" ∨ EqualFold (tbl_StorageEngine t) "InnoDB" = true.

Lemma nonInnoDB_block (t : Table) (role : string) : no_block (blockNonInnoDB t role) ↔ innodb t.
Proof.
  unfold blockNonInnoDB, innodb. destruct (bool_decide_reflect (tbl_StorageEngine t = "")) as [->|Hne]; simpl.
  - split; [by left|constructor].
  - destruct (EqualFold _ _); split; [by right|intros _; constructor|by intros [Hb _]%Forall_cons|by intros [?|[=]]].
Qed.

(** Every unique key of the table is on the columns of its replication key. *)
Definition one_key (t : Table) : Prop :=
  ∀ u, u ∈ tbl_UniqueKeys t → ∃ k, MyApply.replicationKey t = Some k ∧ key_Columns u = key_Columns k.

Lemma secondaryUnique_block (t : Table) : no_block (blockSecondaryUnique t) ↔ one_key t.
Proof.
  unfold blockSecondaryUnique, one_key. cbv zeta. destruct (List.find _ _) as [u|] eqn:Hf.
  - apply List.find_some in Hf as [Hu Hn]. split; [by intros [Hb _]%Forall_cons|]. intros H1.
    apply list_elem_of_In in Hu. destruct (H1 u Hu) as (k & Hk & Hc). rewrite Hk in Hn.
    unfold sameCols in Hn. by rewrite bool_decide_true in Hn.
  - split; [|constructor]. intros _ u Hu%list_elem_of_In. apply (List.find_none _ _ Hf), negb_false_iff in Hu.
    destruct (MyApply.replicationKey t) as [k|]; [|done]. exists k. split; [done|]. by apply bool_decide_eq_true in Hu.
Qed.

(** Every transported column has a counterpart of a type that is not incompatible. *)
Definition columns_match (t tt : Table) : Prop :=
  ∀ sc, sc ∈ tbl_Columns t → col_Generated sc = false →
    ∃ tc, MyApply.by_name (tbl_Columns tt) !! col_Name sc = Some tc ∧ (classifyColumn sc tc).1 ≠ compatIncompatible.

Lemma compareColumns_block (t tt : Table) : no_block (compareColumns t tt) ↔ columns_match t tt.
Proof.
  unfold compareColumns, columns_match. rewrite no_block_join. apply forall_proper; intros sc.
  apply forall_proper; intros _. unfold compare_column. destruct (col_Generated sc).
  { split; [done|]. constructor. }
  destruct (_ !! col_Name sc) as [tc|].
  2: { split; [by intros [Hb _]%Forall_cons|]. intros H1. by destruct (H1 eq_refl) as (? & [=] & _). }
  destruct (classifyColumn sc tc) as [lvl reason] eqn:Hc. split.
  - intros Hn _. exists tc. split; [done|]. rewrite Hc. intros Hl. simpl in Hl. subst lvl.
    by apply Forall_cons in Hn as [Hn _].
  - intros H1. destruct (H1 eq_refl) as (? & [= <-] & Hl). rewrite Hc in Hl. unfold blocks.
    rewrite bool_decide_false by done. destruct (decide _); repeat constructor. done.
Qed.

(** A keyed table is admitted. *)
Definition admitted (tgtByRef : gmap TableRef Table) (t : Table) : Prop :=
  innodb t ∧ ∃ tt, tgtByRef !! tbl_Ref t = Some tt ∧ innodb tt ∧ one_key tt ∧ columns_match t tt.

Lemma table_block (m : gmap TableRef Table) (t : Table) :
  no_block (table_findings m t) ↔ (HasUsableKey t = true → admitted m t).
Proof.
  unfold table_findings, visit_table, admitted. destruct (HasUsableKey t); simpl.
  2: { split; [done|]. intros _. by repeat constructor. }
  destruct (m !! tbl_Ref t) as [tt|]; simpl; rewrite !no_block_app, ?nonInnoDB_block.
  - rewrite secondaryUnique_block, compareColumns_block. naive_solver.
  - split; [by intros [_ [Hb _]%Forall_cons]|]. intros H1. by destruct (H1 eq_refl) as (_ & ? & [=] & _).
Qed.

(** A risky pair of columns is a warning of its table. *)
Lemma compareColumns_risky (t tt : Table) (sc tc : Column) :
  sc ∈ tbl_Columns t → col_Generated sc = false → MyApply.by_name (tbl_Columns tt) !! col_Name sc = Some tc →
  (classifyColumn sc tc).1 = compatRisky →
  ∃ f, f ∈ compareColumns t tt ∧ fnd_Severity f = SevWarn ∧ fnd_Table f = tbl_Ref t ∧ fnd_Category f = "type-risky".
Proof.
  intros Hsc Hg Htc Hl. destruct (classifyColumn sc tc) as [lvl reason] eqn:Hc. simpl in Hl. subst lvl.
  exists (finding SevWarn (tbl_Ref t) "type-risky" ("column " +:+ quote (col_Name sc) +:+ ": " +:+ reason)).
  split_and!; [|done..].
  apply list_elem_of_join. eexists. split; [|apply list_elem_of_fmap; exists sc; split; [reflexivity|done]].
  unfold compare_column. rewrite Hg, Htc, Hc. by left.
Qed.

Lemma Components_total (selected : list Table) : own_fks selected → ∃ comps, Components selected = Some comps.
Proof.
  intros Hown. unfold Components.
  destruct (grouped_connected (λ ms, buildComponent ms (inSelOf selected)) selected)
    as (u & u' & groups & -> & Hg & _); [intros ms; apply comp_Tables_build|done|].
  simpl. rewrite Hg. by eexists.
Qed.

(** The report of a source schema and where its findings come from. *)
Lemma buildPreflight_report (name : string) (sv tv : Z) (source : list Table) (target : option (list Table)) :
  own_fks (replicable_tables source) →
  let m := CyclicFk.byRefOf (default [] target) in
  let reps := replicable_tables source in
  ∃ r, buildPreflight name sv tv (Some source) target = Some r ∧
    rp_Replicable r = tbl_Ref <$> reps ∧
    rp_Skipped r = (λ t, (tbl_Ref t, "no primary key or unique key")) <$> filter (λ t, HasUsableKey t = false) source ∧
    Components reps = Some (rp_Components r) ∧
    rp_Findings r =
      mjoin (table_findings m <$> source) ++
      giant_findings (DetectGiant (rp_Components r) (length reps)) (length reps) ++
      (dangling_finding <$> DanglingEdges reps) ++ noteCyclicStrategy (rp_Components r) reps.
Proof.
  intros Hown m reps. destruct (Components_total _ Hown) as [comps Hc]. unfold buildPreflight. fold m.
  pose proof (visit_all m source [] (mkReport name sv tv [] [] [] [])) as Hv.
  destruct (foldl _ _ source) as [reps' r]. destruct Hv as (-> & Hr & Hs & Hf). simpl in *.
  fold reps in Hc, Hr |- *. rewrite Hc. cbn [mbind option_bind].
  eexists. split; [reflexivity|]. cbn. rewrite Hr, Hs, Hf. split_and!; [done|done|done|].
  by rewrite <-!app_assoc.
Qed.

Lemma no_block_fmap {A} (f : A → Finding) (l : list A) :
  (∀ x, fnd_Severity (f x) ≠ SevBlock) → no_block (f <$> l).
Proof. intros Hf. apply Forall_fmap, Forall_true. exact Hf. Qed.

(** The findings on the foreign-key graph never block. *)
Lemma graph_findings_admit (g : Giant) (total : nat) (fks : list ForeignKey) (comps : list Component) (ts : list Table) :
  no_block (giant_findings g total ++ (dangling_finding <$> fks) ++ noteCyclicStrategy comps ts).
Proof.
  rewrite !no_block_app. split_and!.
  - unfold giant_findings. destruct (giant_Component g); [destruct (giant_Present g)|]; by repeat constructor.
  - by apply no_block_fmap.
  - unfold noteCyclicStrategy. apply no_block_join. intros c _. destruct (HasCycle c); [by apply no_block_fmap|constructor].
Qed.

(** What a column may contain, [None] being NULL, and what can be written to it and stays. *)
Definition contains `{Charsets} (c : Column) (v : option value) : Prop :=
  match v with Some v => holds c v | None => col_Nullable c = true end.
Definition stores `{Charsets} (c : Column) (v : option value) : Prop := col_Generated c = false ∧ contains c v.

(** The pairs of columns whose losses the comparison does not report: the overlooked pairs of
    types and character sets, a target column that is computed by the server, and a target
    column that refuses the NULLs of the source column. *)
Definition overlooked_column `{Charsets} (sc tc : Column) : bool :=
  overlooked sc tc || col_Generated tc || (col_Nullable sc && negb (col_Nullable tc)).

(** C37: pre-flight of the MySQL engine. It always produces a report, which lists the keyed tables
    as replicable and the others as skipped; the start is refused exactly when a keyed table
    or its target table has another storage engine than InnoDB, the target table is
    missing or has a unique key on other columns than its replication key, or a transported column has
    no counterpart or one of an incompatible type. When the report does not block and has
    no type warning for a table, every target column stores every value of its source
    column, NULL included, without loss, for all pairs but the overlooked ones: certain pairs of
    types and character sets, computed target columns, and NULLs into NOT NULL columns
    ([overlooked_column]). *)
Theorem my_preflight_admits `{CharsetLaws} (name : string) (sv tv : Z) (source : list Table)
    (target : option (list Table)) :
  own_fks (replicable_tables source) →
  let m := CyclicFk.byRefOf (default [] target) in
  ∃ r, buildPreflight name sv tv (Some source) target = Some r ∧
    rp_Replicable r = tbl_Ref <$> replicable_tables source ∧
    (rp_Skipped r).*1 = tbl_Ref <$> filter (λ t, HasUsableKey t = false) source ∧
    (Blocked (rp_Findings r) = false ↔ ∀ t, t ∈ source → HasUsableKey t = true → admitted m t) ∧
    (∀ t tt sc, t ∈ source → HasUsableKey t = true → m !! tbl_Ref t = Some tt →
       sc ∈ tbl_Columns t → col_Generated sc = false → Blocked (rp_Findings r) = false →
       Forall (λ f, ¬ (fnd_Severity f = SevWarn ∧ fnd_Table f = tbl_Ref t ∧ fnd_Category f = "type-risky"))
         (rp_Findings r) →
       ∃ tc, tc ∈ tbl_Columns tt ∧ col_Name tc = col_Name sc ∧
         (overlooked_column sc tc = false → ∀ v, contains sc v → stores tc v)).
Proof.
  intros Hown m. destruct (buildPreflight_report name sv tv source target Hown) as (r & Hr & Hrep & Hsk & _ & Hf).
  fold m in Hf. exists r.
  assert (Blocked (rp_Findings r) = false ↔ ∀ t, t ∈ source → HasUsableKey t = true → admitted m t) as Hb.
  { rewrite Blocked_false, Hf, no_block_app, no_block_join. setoid_rewrite table_block.
    pose proof (graph_findings_admit (DetectGiant (rp_Components r) (length (replicable_tables source)))
      (length (replicable_tables source)) (DanglingEdges (replicable_tables source)) (rp_Components r)
      (replicable_tables source)). tauto. }
  split_and!; [done|done| |done|].
  { rewrite Hsk, <-list_fmap_compose. by apply list_fmap_ext. }
  intros t tt sc Ht Hk Htt Hsc Hg Hnb Hw. destruct (proj1 Hb Hnb t Ht Hk) as (_ & tt' & Htt' & _ & _ & Hcols).
  rewrite Htt in Htt'. injection Htt' as <-. destruct (Hcols sc Hsc Hg) as (tc & Htc & Hinc). exists tc.
  apply (PgPreflight.insert_all_lookup col_Name) in Htc as Hin. destruct Hin as [[Hin Hn]|[=]].
  split_and!; [done|done|]. intros [[Ho Hgen]%orb_false_iff Hnull]%orb_false_iff v Hv. split; [done|].
  destruct v as [v|]; [|unfold contains in *; rewrite Hv in Hnull; by destruct (col_Nullable tc)].
  simpl in Hv |- *. revert Hv. apply classifyColumn_sound; [|done].
  destruct (classifyColumn sc tc) as [lvl reason] eqn:Hcl. destruct lvl; try done. exfalso.
  destruct (compareColumns_risky t tt sc tc Hsc Hg Htc) as (f & Hin' & Hs); [by rewrite Hcl|].
  rewrite Forall_forall in Hw. apply (Hw f); [|done]. rewrite Hf. apply elem_of_app. left.
  apply list_elem_of_join. exists (table_findings m t). split; [|by apply list_elem_of_fmap_2].
  unfold table_findings, visit_table. rewrite Hk, Htt. simpl. rewrite !elem_of_app. by right.
Qed.

End preflight.
(** ** Reports on sample schemas *)

Definition sample_column (name type charset : string) : Column := mkColumn name type false false false false false charset.

Definition sample_users (id_type : string) (key : list string) (engine : string) : Table :=
  mkTable (mkRef "app" "users") [sample_column "id" id_type ""; sample_column "email" "varchar(80)" "utf8mb4"]
    (Some (mkKey "PRIMARY" key true)) [] [] false engine.

Definition sample_log : Table :=
  mkTable (mkRef "app" "log") [sample_column "line" "text" "utf8mb4"] None [] [] false "InnoDB".

(** The categories of the findings of a report, and whether it blocks. *)
Definition outcome (r : option PreflightReport) : list string * bool :=
  match r with Some r => (fnd_Category <$> rp_Findings r, Blocked (rp_Findings r)) | None => ([], true) end.

Example sample_reports (quote : string → string) (percent : nat → nat → string) :
  let report src tgt := outcome (buildPreflight quote percent "s" 8 8 (Some [src; sample_log]) tgt) in
  report (sample_users "int unsigned" ["id"] "InnoDB") (Some [sample_users "bigint unsigned" ["id"] "innodb"])
    = (["no-key"], false) ∧
  report (sample_users "bigint" ["id"] "InnoDB") (Some [sample_users "int" ["id"] "InnoDB"])
    = (["type-risky"; "no-key"], false) ∧
  report (sample_users "json" ["id"] "MyISAM") (Some [sample_users "int" ["id"] "InnoDB"])
    = (["non-innodb"; "type-incompatible"; "no-key"], true) ∧
  report (sample_users "int" ["id"] "InnoDB") None = (["missing-target"; "no-key"], true).
Proof. vm_compute. done. Qed.

(** The keys of the two tables are not compared: a target whose primary key is the e-mail
    address is admitted for a source keyed by id, without a finding. The apply upserts on
    the target's keys, so two source rows with one address become one target row. *)
Theorem target_key_unchecked (quote : string → string) (percent : nat → nat → string) :
  let src := sample_users "int" ["id"] "InnoDB" in
  let tgt := sample_users "int" ["email"] "InnoDB" in
  outcome (buildPreflight quote percent "s" 8 8 (Some [src]) (Some [tgt])) = ([], false) ∧
  option_map key_Columns (MyApply.replicationKey src) ≠ option_map key_Columns (MyApply.replicationKey tgt).
Proof. split; [vm_compute; reflexivity|discriminate]. Qed.

Lemma my_preflight_admits_witness :
  let src := sample_users "int unsigned" ["id"] "InnoDB" in
  let tgt := sample_users "bigint unsigned" ["id"] "InnoDB" in
  ∃ r, buildPreflight id (λ _ _, "") "s" 8 8 (Some [src; sample_log]) (Some [tgt]) = Some r ∧
    ∀ v, @contains utf8_charsets (sample_column "id" "int unsigned" "") v →
         @stores utf8_charsets (sample_column "id" "bigint unsigned" "") v.
Proof.
  intros src tgt.
  destruct (@my_preflight_admits id (λ _ _, "") utf8_charsets utf8_laws "s" 8 8 [src; sample_log] (Some [tgt]))
    as (r & Hr & _ & _ & _ & H).
  { intros t fk Ht Hfk. cbn in Ht. apply list_elem_of_singleton in Ht as ->. by apply elem_of_nil in Hfk. }
  exists r. split; [exact Hr|].
  assert (Blocked (rp_Findings r) = false ∧ Forall (λ f, fnd_Category f ≠ "type-risky") (rp_Findings r)) as [Hb Hf].
  { vm_compute in Hr. injection Hr as <-. split; [reflexivity|]. repeat constructor. discriminate. }
  destruct (H src tgt (sample_column "id" "int unsigned" "")) as (tc & Htc & Hn & Hv);
    [by left|reflexivity|vm_compute; reflexivity|by left|reflexivity|exact Hb| |].
  { apply (Forall_impl _ _ _ Hf). intros f Hc (_ & _ & Ht). by apply Hc. }
  apply elem_of_cons in Htc as [->|Htc]; [|apply list_elem_of_singleton in Htc as ->; discriminate Hn].
  apply Hv. vm_compute. reflexivity.
Defined.

(** A nullable source column and a NOT NULL target column, or a target column the server
    computes: no finding, and values of the source cannot be stored. *)
Definition users_with (email : Column) : Table :=
  mkTable (mkRef "app" "users") [sample_column "id" "int" ""; email] (Some (mkKey "PRIMARY" ["id"] true)) [] [] false "InnoDB".

Theorem my_nullability_unchecked (quote : string → string) (percent : nat → nat → string) :
  let src := mkColumn "email" "varchar(80)" true false false false false "utf8mb4" in
  Forall (λ tgt, outcome (buildPreflight quote percent "s" 8 8 (Some [users_with src]) (Some [users_with tgt])) = ([], false) ∧
                 @overlooked_column utf8_charsets src tgt = true ∧ ∃ v, @contains utf8_charsets src v ∧ ¬ @stores utf8_charsets tgt v)
    [sample_column "email" "varchar(80)" "utf8mb4"; mkColumn "email" "varchar(80)" true true false false false "utf8mb4"].
Proof.
  repeat (apply Forall_cons; split); [..|by apply Forall_nil]; (split; [vm_compute; reflexivity|]); (split; [vm_compute; reflexivity|]); exists None.
  - split; [done|]. by intros [_ ?].
  - split; [done|]. by intros [? _].
Qed.
End MyPreflight.
