(* ===== verification/Introspect.v ===== *)
(** * Introspection ([introspect.go] and [selection.go] of the Postgres and the MySQL engine)

    The schema the planners and the pre-flight work on, from the rows the catalog queries return, and the
    selection of its tables by patterns, which is the same code in both engines. A query is given
    by its rows in the order of its ORDER BY, or an error. *)

From S2P Require Import Prelude Text Engine FkGraph CyclicFk PgTypes PgPreflight MyTypes MyApply MyPreflight.
Import Text.

Module Introspect.

(** ** Selection by patterns ([selection.go]) *)

(** A pattern as the anchored expression it becomes: [.*], [.] and quoted characters. *)
Inductive item := AnyRun | AnyOne | Lit (a : ascii).

Definition globToRegexp (pat : string) : list item :=
  (λ a, if Ascii.eqb a "*" then AnyRun else if Ascii.eqb a "?" then AnyOne else Lit a) <$> txt pat.

(** The dot does not match a newline. *)
Definition dot (a : ascii) : bool := negb (Ascii.eqb a "010").

(** [MatchString] of the anchored expression. *)
Fixpoint MatchString (re : list item) : text → bool :=
  match re with
  | [] => λ s, match s with [] => true | _ :: _ => false end
  | Lit a :: re => λ s, match s with b :: s => Ascii.eqb a b && MatchString re s | [] => false end
  | AnyOne :: re => λ s, match s with b :: s => dot b && MatchString re s | [] => false end
  | AnyRun :: re =>
      fix run s := MatchString re s || match s with b :: s => dot b && run s | [] => false end
  end.

(** [compileGlobs]; the expressions it builds always compile. *)
Fixpoint compileGlobs (patterns : list string) (kind : string) : result (list (list item)) :=
  match patterns with
  | [] => inr []
  | p :: patterns =>
      if decide (TrimSpace (txt p) = []) then inl (Failure ("empty " +:+ kind +:+ " selection pattern"))
      else match compileGlobs patterns kind with
           | inl e => inl e
           | inr res => inr (globToRegexp p :: res)
           end
  end.

Definition isSelected (name : string) (include exclude : list (list item)) : bool :=
  (bool_decide (include = []) || existsb (λ re, MatchString re (txt name)) include) &&
  negb (existsb (λ re, MatchString re (txt name)) exclude).

Definition selectTables (all : list TableRef) (sel : Selection) : result (list TableRef) :=
  match compileGlobs (sel_Include sel) "include" with
  | inl e => inl e
  | inr inc =>
      match compileGlobs (sel_Exclude sel) "exclude" with
      | inl e => inl e
      | inr exc => inr (filter (λ t, isSelected (ref_string t) inc exc = true) all)
      end
  end.

(** The names a pattern stands for: a star for any run of characters, a question mark for
    one, everything else for itself. *)
Inductive in_glob : text → text → Prop :=
| glob_nil : in_glob [] []
| glob_star w p s : Forall (λ a, a ≠ "010"%char) w → in_glob p s → in_glob ("*"%char :: p) (w ++ s)
| glob_one a p s : a ≠ "010"%char → in_glob p s → in_glob ("?"%char :: p) (a :: s)
| glob_lit a p s : a ≠ "*"%char → a ≠ "?"%char → in_glob p s → in_glob (a :: p) (a :: s).

Lemma dot_spec (a : ascii) : dot a = true ↔ a ≠ "010"%char.
Proof. unfold dot. destruct (Ascii.eqb_spec a "010"); naive_solver. Qed.

Lemma MatchString_run (re : list item) (s : text) :
  MatchString (AnyRun :: re) s = true ↔
  ∃ w r, s = w ++ r ∧ Forall (λ a, a ≠ "010"%char) w ∧ MatchString re r = true.
Proof.
  change (MatchString (AnyRun :: re)) with
    (fix run s := MatchString re s || match s with b :: s => dot b && run s | [] => false end).
  induction s as [|b s IH]; simpl.
  - rewrite orb_false_r. split; [intros Hm; exists [], []; by split_and!|].
    intros (w & r & Hs & _ & Hm). symmetry in Hs. apply app_eq_nil in Hs as [_ ->]. done.
  - rewrite orb_true_iff, andb_true_iff, dot_spec, IH. split.
    + intros [Hm|(Hb & w & r & -> & Hw & Hm)]; [exists [], (b :: s); by split_and!|].
      exists (b :: w), r. split_and!; [done|by constructor|done].
    + intros (w & r & Hs & Hw & Hm). destruct w as [|a w]; simpl in Hs; [left; by rewrite Hs|].
      injection Hs as -> ->. apply Forall_cons in Hw as [Ha Hw]. right. split; [done|]. by exists w, r.
Qed.

(** The expression of a pattern matches the names the pattern stands for. *)
Lemma glob_exact (pat : text) (s : text) :
  MatchString ((λ a, if Ascii.eqb a "*" then AnyRun else if Ascii.eqb a "?" then AnyOne else Lit a) <$> pat) s = true ↔
  in_glob pat s.
Proof.
  revert s. induction pat as [|a pat IH]; intros s; cbn [fmap list_fmap].
  { destruct s; simpl; split; [constructor|done|done|by inversion 1]. }
  destruct (Ascii.eqb_spec a "*") as [->|Hstar].
  { rewrite MatchString_run. split.
    - intros (w & r & -> & Hw & Hm). constructor; [done|by apply IH].
    - inversion 1; subst; [|done]. do 2 eexists. split_and!; [done|done|by apply IH]. }
  destruct (Ascii.eqb_spec a "?") as [->|Hone].
  { destruct s as [|b s]; simpl; [split; [done|by inversion 1]|]. rewrite andb_true_iff, dot_spec. split.
    - intros [Hb Hm]. constructor; [done|by apply IH].
    - inversion 1; subst; [|done]. by rewrite IH. }
  destruct s as [|b s]; simpl; [split; [done|by inversion 1; subst]|]. rewrite andb_true_iff. split.
  - intros [->%Ascii.eqb_eq Hm]. by constructor; [..|apply IH].
  - inversion 1; subst; [done|done|]. by rewrite Ascii.eqb_refl, IH.
Qed.

(** A name is selected by patterns. *)
Definition selected (sel : Selection) (t : TableRef) : Prop :=
  (sel_Include sel = [] ∨ Exists (λ p, in_glob (txt p) (txt (ref_string t))) (sel_Include sel)) ∧
  Forall (λ p, ¬ in_glob (txt p) (txt (ref_string t))) (sel_Exclude sel).

Definition blank (p : string) : Prop := TrimSpace (txt p) = [].

Lemma compileGlobs_ok (ps : list string) (kind : string) :
  match compileGlobs ps kind with
  | inl _ => Exists blank ps
  | inr res => Forall (λ p, ¬ blank p) ps ∧ res = globToRegexp <$> ps
  end.
Proof.
  induction ps as [|p ps IH]; simpl; [by split|]. destruct (decide (TrimSpace (txt p) = [])) as [Hb|Hb]; [by left|].
  destruct (compileGlobs ps kind) as [e|res]; [by right|]. destruct IH as [HF ->]. by split; [constructor|].
Qed.

Lemma existsb_glob (ps : list string) (s : text) :
  existsb (λ re, MatchString re s) (globToRegexp <$> ps) = true ↔ Exists (λ p, in_glob (txt p) s) ps.
Proof.
  induction ps as [|p ps IH]; simpl; [split; [done|by intros ?%Exists_nil]|].
  rewrite orb_true_iff, Exists_cons, IH. unfold globToRegexp. by rewrite glob_exact.
Qed.

(** The selection keeps the tables that match an include pattern, all of them without
    one, and no exclude pattern, in their order; only a blank pattern is an error. *)
Lemma selectTables_exact (all : list TableRef) (sel : Selection) :
  match selectTables all sel with
  | inl _ => Exists blank (sel_Include sel ++ sel_Exclude sel)
  | inr out => Forall (λ p, ¬ blank p) (sel_Include sel ++ sel_Exclude sel) ∧ out `sublist_of` all ∧
      ∀ t, t ∈ out ↔ t ∈ all ∧ selected sel t
  end.
Proof.
  unfold selectTables. pose proof (compileGlobs_ok (sel_Include sel) "include") as Hi.
  destruct (compileGlobs (sel_Include sel) "include") as [e|inc]; [apply Exists_app; by left|].
  pose proof (compileGlobs_ok (sel_Exclude sel) "exclude") as He.
  destruct (compileGlobs (sel_Exclude sel) "exclude") as [e|exc]; [apply Exists_app; by right|].
  destruct Hi as [Hi ->], He as [He ->]. split_and!; [by apply Forall_app|apply sublist_filter|].
  intros t. rewrite list_elem_of_filter, Logic.and_comm. apply and_iff_compat_l. unfold isSelected, selected.
  rewrite andb_true_iff, orb_true_iff, bool_decide_eq_true, existsb_glob, negb_true_iff, <-not_true_iff_false, existsb_glob.
  rewrite <-Forall_Exists_neg. apply and_iff_compat_r. destruct (sel_Include sel); simpl; naive_solver.
Qed.
(** ** MySQL ([mysql/introspect.go]) *)

Definition systemSchemas : gset string := {["mysql"; "information_schema"; "performance_schema"; "sys"]}.

(** The answers of the catalog: the rows of TABLES, COLUMNS, STATISTICS and KEY_COLUMN_USAGE.
    A key part that is an expression has no column name. *)
Record my_catalog := mkMyCatalog {
  mc_tables : result (list (string * string * string * string));
  mc_columns : TableRef → result (list (string * string * string * string * string));
  mc_statistics : TableRef → result (list (string * Z * option string));
  mc_key_usage : TableRef → result (list (string * string * string * string * string))
}.

Definition contains (s sub : string) : bool := bool_decide (is_Some (cut (txt sub) (ToLower (txt s)))).

(** [listTables]: the references with engine and partitioned flag by reference. *)
Definition listTables (rows : list (string * string * string * string))
    : list TableRef * gmap TableRef string * gmap TableRef bool :=
  foldl (λ '(refs, engines, parts) '(schema, name, eng, opts),
    if decide (schema ∈ systemSchemas) then (refs, engines, parts)
    else let ref := mkRef schema name in
         (refs ++ [ref], <[ref := eng]> engines, <[ref := contains opts "partitioned"]> parts)) ([], ∅, ∅) rows.

Definition my_column (row : string * string * string * string * string) : Column :=
  let '(name, colType, nullable, extra, charset) := row in
  mkColumn name colType (bool_decide (nullable = "YES")) (contains extra "generated") (contains extra "auto_increment")
    false (contains extra "on update current_timestamp") charset.

Definition introspectColumns (t : TableRef) (rows : list (string * string * string * string * string))
    : result (list Column) :=
  match rows with
  | [] => inl (Failure ("mysql: table " +:+ ref_string t +:+ " not found or has no columns"))
  | _ => inr (my_column <$> rows)
  end.

(** [byName] and [order] of a grouping loop. *)
Definition groups (A : Type) := (gmap string A * list string)%type.

Definition group_row {A} (new : A) (f : A → A) (name : string) (g : groups A) : groups A :=
  match g.1 !! name with
  | Some a => (<[name := f a]> g.1, g.2)
  | None => (<[name := f new]> g.1, g.2 ++ [name])
  end.

(** The loop over STATISTICS: the columns of every unique index; a NULL column does not scan. *)
Fixpoint scan_keys (t : TableRef) (rows : list (string * Z * option string)) (g : groups (list string))
    : result (groups (list string)) :=
  match rows with
  | [] => inr g
  | (_, _, None) :: _ =>
      inl (Errorf ("mysql: scan key " +:+ ref_string t) (Failure "converting NULL to string is unsupported"))
  | (idx, nonUnique, Some col) :: rows =>
      scan_keys t rows (if decide (nonUnique ≠ 0%Z) then g else group_row [] (λ cols, cols ++ [col]) idx g)
  end.

(** One name of [order]: the key of that name. *)
Definition key_step (byName : gmap string (list string)) (acc : option Key * list Key) (name : string)
    : option Key * list Key :=
  let k := mkKey name (default [] (byName !! name)) (bool_decide (name = "PRIMARY")) in
  if decide (name = "PRIMARY") then (Some k, acc.2) else (acc.1, acc.2 ++ [k]).

Definition introspectKeys (t : TableRef) (rows : list (string * Z * option string)) : result (option Key * list Key) :=
  match scan_keys t rows (∅, []) with
  | inl e => inl e
  | inr (byName, order) =>
      inr (foldl (key_step byName) (None, []) order)
  end.

Definition introspectForeignKeys (t : TableRef) (rows : list (string * string * string * string * string)) : list ForeignKey :=
  let '(byName, order) :=
    foldl (λ g '(name, childCol, parentSchema, parentName, parentCol),
      group_row (mkFK name t [] (mkRef parentSchema parentName) [] false)
        (λ fk, mkFK (fk_Name fk) (fk_Child fk) (fk_ChildCols fk ++ [childCol]) (fk_Parent fk)
                 (fk_ParentCols fk ++ [parentCol]) (fk_Deferrable fk)) name g) (∅, []) rows in
  omap (λ name, byName !! name) order.

Section mysql.
Context (cat : my_catalog).

Definition introspect_table (engines : gmap TableRef string) (parts : gmap TableRef bool) (ref : TableRef) : result Table :=
  match mc_columns cat ref with
  | inl e => inl (Errorf ("mysql: columns " +:+ ref_string ref) e)
  | inr rows =>
      match introspectColumns ref rows with
      | inl e => inl e
      | inr cols =>
          match mc_statistics cat ref with
          | inl e => inl (Errorf ("mysql: keys " +:+ ref_string ref) e)
          | inr rows =>
              match introspectKeys ref rows with
              | inl e => inl e
              | inr (pk, uniques) =>
                  match mc_key_usage cat ref with
                  | inl e => inl (Errorf ("mysql: foreign keys " +:+ ref_string ref) e)
                  | inr rows =>
                      inr (mkTable ref cols pk uniques (introspectForeignKeys ref rows) (default false (parts !! ref))
                             (default "" (engines !! ref)))
                  end
              end
          end
      end
  end.

(** The loop over the selected tables ends at the first error. *)
Fixpoint introspect_tables (engines : gmap TableRef string) (parts : gmap TableRef bool) (refs : list TableRef)
    : result (list Table) :=
  match refs with
  | [] => inr []
  | ref :: refs =>
      match introspect_table engines parts ref with
      | inl e => inl e
      | inr t => match introspect_tables engines parts refs with inl e => inl e | inr ts => inr (t :: ts) end
      end
  end.

Definition introspectDB (sel : Selection) : result (list Table) :=
  match mc_tables cat with
  | inl e => inl (Errorf "mysql: list tables" e)
  | inr rows =>
      let '(candidates, engines, parts) := listTables rows in
      match selectTables candidates sel with
      | inl e => inl e
      | inr refs => introspect_tables engines parts refs
      end
  end.
End mysql.

(** *** What it returns *)

(** The columns of a unique index, in their order. *)
Definition index_cols (rows : list (string * Z * option string)) (name : string) : list string :=
  omap (λ '(idx, nonUnique, col), if decide (idx = name ∧ nonUnique = 0%Z) then col else None) rows.

(** Columns found earlier followed by further ones. *)
Definition extend (o : option (list string)) (l : list string) : option (list string) :=
  match o, l with None, [] => None | None, _ => Some l | Some k, _ => Some (k ++ l) end.

Definition grouped {A} (g : groups A) : Prop := NoDup g.2 ∧ ∀ name, name ∈ g.2 ↔ is_Some (g.1 !! name).

Lemma group_row_ok {A} (new : A) (f : A → A) (name : string) (g : groups A) :
  grouped g → grouped (group_row new f name g).
Proof.
  intros [Hnd Ho]. unfold group_row, grouped. destruct (g.1 !! name) as [a|] eqn:Hn; simpl.
  - split; [done|]. intros n. rewrite lookup_insert_is_Some', Ho. split; [by right|].
    intros [<-|?]; [rewrite Hn; by eexists|done].
  - split.
    + apply NoDup_app. split_and!; [done| |apply NoDup_singleton]. intros n Hin ->%list_elem_of_singleton.
      apply Ho in Hin. rewrite Hn in Hin. by destruct Hin.
    + intros n. rewrite elem_of_app, list_elem_of_singleton, lookup_insert_is_Some', Ho. naive_solver.
Qed.

Lemma scan_keys_exact (t : TableRef) (rows : list (string * Z * option string)) (g g' : groups (list string)) :
  scan_keys t rows g = inr g' → grouped g →
  grouped g' ∧ ∀ name, g'.1 !! name = extend (g.1 !! name) (index_cols rows name).
Proof.
  revert g. induction rows as [|[[idx nu] [col|]] rows IH]; intros g; cbn [scan_keys]; [|intros Hs Hg|done].
  { intros [= <-] Hg. split; [done|]. intros name. unfold extend. simpl. destruct (g.1 !! name); by rewrite ?app_nil_r. }
  destruct (IH _ Hs) as [Hg' Hm].
  { destruct (decide (nu ≠ 0%Z)); [done|by apply group_row_ok]. }
  split; [done|]. intros name. rewrite Hm. unfold index_cols. cbn [omap list_omap].
  fold (index_cols rows name). destruct (decide (nu ≠ 0%Z)) as [Hnu|Hnu%dec_stable].
  { rewrite (decide_False (P := idx = name ∧ nu = 0%Z)) by tauto. done. }
  subst nu. unfold group_row. destruct (decide (idx = name ∧ 0%Z = 0%Z)) as [[-> _]|Hne].
  - destruct (g.1 !! name) as [k|]; simpl; rewrite lookup_insert_eq; simpl; [by rewrite <-app_assoc|done].
  - assert (idx ≠ name) as Hin by tauto.
    destruct (g.1 !! idx); simpl; by rewrite lookup_insert_ne by done.
Qed.

Definition index_key (rows : list (string * Z * option string)) (name : string) : Key :=
  mkKey name (index_cols rows name) (bool_decide (name = "PRIMARY")).

Lemma key_steps (rows : list (string * Z * option string)) (m : gmap string (list string)) (l : list string)
    (acc : option Key * list Key) :
  (∀ name, name ∈ l → default [] (m !! name) = index_cols rows name) →
  (foldl (key_step m) acc l).1 = (if decide ("PRIMARY" ∈ l) then Some (index_key rows "PRIMARY") else acc.1) ∧
  ∀ k, k ∈ (foldl (key_step m) acc l).2 ↔ k ∈ acc.2 ∨ ∃ name, name ∈ l ∧ name ≠ "PRIMARY" ∧ k = index_key rows name.
Proof.
  revert acc. induction l as [|n l IH]; intros [p u] Hl; cbn [foldl].
  { split; [done|]. intros k. simpl. split; [by left|]. intros [?|(? & []%elem_of_nil & _)]. done. }
  assert (key_step m (p, u) n = if decide (n = "PRIMARY") then (Some (index_key rows n), u) else (p, u ++ [index_key rows n]))
    as -> by (unfold key_step, index_key; by rewrite (Hl n) by by left).
  destruct (decide (n = "PRIMARY")) as [->|Hn];
    (edestruct IH as [IH1 IH2]; [intros name Hname; apply Hl; by right|]; rewrite IH1; split;
     [|intros k; rewrite IH2; cbn [snd]; rewrite ?elem_of_app, ?list_elem_of_singleton; setoid_rewrite elem_of_cons;
       naive_solver]); cbn [fst]; clear IH1 IH2.
  - rewrite (decide_True (P := "PRIMARY" ∈ "PRIMARY" :: l)) by by left. by destruct (decide _).
  - destruct (decide ("PRIMARY" ∈ l)), (decide ("PRIMARY" ∈ n :: l)) as [Hd|Hd]; try done.
    + exfalso. apply Hd. by right.
    + apply elem_of_cons in Hd as [<-|?]; done.
Qed.

(** The primary key is the index PRIMARY, the unique keys the other unique indexes. *)
Lemma introspectKeys_exact (t : TableRef) (rows : list (string * Z * option string)) (pk : option Key) (uniques : list Key) :
  introspectKeys t rows = inr (pk, uniques) →
  pk = (if decide (index_cols rows "PRIMARY" = []) then None else Some (index_key rows "PRIMARY")) ∧
  ∀ k, k ∈ uniques ↔ ∃ name, name ≠ "PRIMARY" ∧ index_cols rows name ≠ [] ∧ k = index_key rows name.
Proof.
  unfold introspectKeys. destruct (scan_keys t rows (∅, [])) as [e|[m order]] eqn:Hs; [done|]. intros [= Hf].
  apply scan_keys_exact in Hs as [[_ Ho] Hm]; [|split; [constructor|]; intros n; simpl; rewrite lookup_empty, elem_of_nil;
    by split; [|intros []]]. simpl in *.
  assert (∀ name, name ∈ order ↔ index_cols rows name ≠ []) as Hin.
  { intros name. rewrite Ho, Hm, lookup_empty. simpl. destruct (index_cols rows name); [|naive_solver].
    split; [by intros []|done]. }
  destruct (key_steps rows m order (None, [])) as [H1 H2].
  { intros name. rewrite Hin, Hm, lookup_empty. simpl. by destruct (index_cols rows name). }
  rewrite Hf in H1, H2. simpl in *. split.
  - rewrite H1. destruct (decide ("PRIMARY" ∈ order)) as [Hp%Hin|Hp], (decide (index_cols rows "PRIMARY" = [])); try done.
    exfalso. by apply Hp, Hin.
  - intros k. rewrite H2. setoid_rewrite Hin. rewrite elem_of_nil. naive_solver.
Qed.

(** Every foreign key of a table has it as its child. *)
Lemma introspectForeignKeys_own (t : TableRef) (rows : list (string * string * string * string * string)) (fk : ForeignKey) :
  fk ∈ introspectForeignKeys t rows → fk_Child fk = t.
Proof.
  unfold introspectForeignKeys. set (step := λ g '(name, childCol, ps, pn, pc), _).
  assert (∀ g, map_Forall (λ _ fk, fk_Child fk = t) g.1 → map_Forall (λ _ fk, fk_Child fk = t) (foldl step g rows).1) as Hall.
  { induction rows as [|[[[[n c] ps] pn] pc] rows IH]; intros g Hg; [done|]. apply IH. unfold step, group_row.
    destruct (g.1 !! n) as [f|] eqn:Hn; simpl; (apply map_Forall_insert_2; [|done]); [|done].
    exact (Hg n f Hn). }
  specialize (Hall (∅, []) (map_Forall_empty _)). destruct (foldl step (∅, []) rows) as [m order]. simpl in Hall.
  intros (name & _ & Hn)%list_elem_of_omap. by apply (Hall name).
Qed.

(** The candidates are the tables outside the system schemas, in their order. *)
Lemma listTables_refs (rows : list (string * string * string * string)) :
  (listTables rows).1.1 =
    (λ '(s, n, _, _), mkRef s n) <$> filter (λ r : string * string * string * string, r.1.1.1 ∉ systemSchemas) rows.
Proof.
  unfold listTables. set (step := λ '(refs, engines, parts) '(schema, name, eng, opts), _).
  assert (∀ acc, (foldl step acc rows).1.1 = acc.1.1 ++
    ((λ '(s, n, _, _), mkRef s n) <$> filter (λ r : string * string * string * string, r.1.1.1 ∉ systemSchemas) rows)) as Hf;
    [|apply (Hf ([], ∅, ∅))].
  induction rows as [|[[[s n] e] o] rows IH]; intros [[refs es] ps]; [by rewrite app_nil_r|].
  cbn [foldl]. rewrite IH, filter_cons. unfold step. destruct (decide (s ∈ systemSchemas)) as [Hs|Hs].
  - rewrite decide_False by (simpl; tauto). done.
  - rewrite decide_True by done. simpl. by rewrite <-app_assoc.
Qed.

Lemma introspect_tables_refs (cat : my_catalog) (es : gmap TableRef string) (ps : gmap TableRef bool) (refs : list TableRef)
    (ts : list Table) :
  introspect_tables cat es ps refs = inr ts →
  Forall2 (λ ref t, introspect_table cat es ps ref = inr t) refs ts.
Proof.
  revert ts. induction refs as [|ref refs IH]; intros ts; simpl; [intros [= <-]; constructor|].
  destruct (introspect_table cat es ps ref) as [e|t] eqn:Ht; [done|].
  destruct (introspect_tables cat es ps refs) as [e|ts']; [done|]. intros [= <-]. constructor; [done|]. by apply IH.
Qed.

(** A table as its catalog rows describe it. *)
Definition described (cat : my_catalog) (t : Table) : Prop :=
  ∃ cols stats usage, mc_columns cat (tbl_Ref t) = inr cols ∧ mc_statistics cat (tbl_Ref t) = inr stats ∧
    mc_key_usage cat (tbl_Ref t) = inr usage ∧
    tbl_Columns t = my_column <$> cols ∧ tbl_Columns t ≠ [] ∧
    tbl_PrimaryKey t = (if decide (index_cols stats "PRIMARY" = []) then None else Some (index_key stats "PRIMARY")) ∧
    (∀ k, k ∈ tbl_UniqueKeys t ↔ ∃ name, name ≠ "PRIMARY" ∧ index_cols stats name ≠ [] ∧ k = index_key stats name) ∧
    ∀ fk, fk ∈ tbl_ForeignKeys t → fk_Child fk = tbl_Ref t.

Lemma introspect_table_described (cat : my_catalog) (es : gmap TableRef string) (ps : gmap TableRef bool) (ref : TableRef)
    (t : Table) :
  introspect_table cat es ps ref = inr t → tbl_Ref t = ref ∧ described cat t.
Proof.
  unfold introspect_table, introspectColumns, described. destruct (mc_columns cat ref) as [e|cols] eqn:Hc; [done|].
  destruct cols as [|c cols]; [done|]. destruct (mc_statistics cat ref) as [e|stats] eqn:Hs; [done|].
  destruct (introspectKeys ref stats) as [e|[pk us]] eqn:Hk; [done|].
  destruct (mc_key_usage cat ref) as [e|usage] eqn:Hu; [done|]. intros [= <-]. split; [done|].
  apply introspectKeys_exact in Hk as [Hpk Hus]. exists (c :: cols), stats, usage.
  split_and!; [done|done|done|done|done|done|done|]. simpl. intros fk. apply introspectForeignKeys_own.
Qed.

(** The schema of a MySQL database: exactly the selected tables outside the system schemas, in
    the order of their names, each as its catalog rows describe it. *)
Lemma introspectDB_exact (cat : my_catalog) (sel : Selection) (rows : list (string * string * string * string)) (ts : list Table) :
  mc_tables cat = inr rows → introspectDB cat sel = inr ts →
  let refs := (λ '(s, n, _, _), mkRef s n) <$> filter (λ r : string * string * string * string, r.1.1.1 ∉ systemSchemas) rows in
  tbl_Ref <$> ts `sublist_of` refs ∧ (∀ r, r ∈ tbl_Ref <$> ts ↔ r ∈ refs ∧ selected sel r) ∧
  Forall (described cat) ts ∧ FkGraph.own_fks ts.
Proof.
  intros Hr. unfold introspectDB. rewrite Hr. pose proof (listTables_refs rows) as Hrefs.
  destruct (listTables rows) as [[cands es] ps]. simpl in Hrefs. subst cands.
  set (refs := _ <$> filter _ rows). pose proof (selectTables_exact refs sel) as Hsel.
  destruct (selectTables refs sel) as [e|out]; [done|]. destruct Hsel as (_ & Hsub & Hin).
  intros Hts%introspect_tables_refs.
  assert (tbl_Ref <$> ts = out ∧ Forall (described cat) ts) as [-> HF].
  { clear Hsub Hin. induction Hts as [|ref t out ts Ht _ [IH1 IH2]]; [by split; [|constructor]|].
    apply introspect_table_described in Ht as [<- Ht]. split; [by rewrite fmap_cons, IH1|by constructor]. }
  split_and!; [done|done|done|]. intros t fk Ht Hfk. rewrite Forall_forall in HF.
  destruct (HF t Ht) as (? & ? & ? & _ & _ & _ & _ & _ & _ & _ & Hown). by apply Hown.
Qed.

(** The pre-flight check of an introspected schema always gives a report. *)
Lemma introspected_preflight (quote : string → string) (percent : nat → nat → string) (cat : my_catalog) (sel : Selection)
    (ts : list Table) (name : string) (sv tv : Z) (target : option (list Table)) :
  introspectDB cat sel = inr ts → is_Some (MyPreflight.buildPreflight quote percent name sv tv (Some ts) target).
Proof.
  intros Hts. destruct (mc_tables cat) as [e|rows] eqn:Hr; [unfold introspectDB in Hts; by rewrite Hr in Hts|].
  destruct (introspectDB_exact cat sel rows ts Hr Hts) as (_ & _ & _ & Hown).
  destruct (MyPreflight.buildPreflight_report quote percent name sv tv ts target) as (r & -> & _); [|done].
  intros t fk [_ Ht]%list_elem_of_filter. by apply Hown.
Qed.

(** *** Sample catalogs *)

Definition sample_catalog (nullable : string) (stats : list (string * Z * option string)) : my_catalog :=
  mkMyCatalog (inr [("app", "users", "InnoDB", ""); ("mysql", "user", "InnoDB", "")])
    (λ _, inr [("email", "varchar(80)", nullable, "", "utf8mb4")]) (λ _, inr stats) (λ _, inr []).

(** An index on an expression, unique or not, makes the introspection fail. *)
Theorem expression_index_fails :
  ∃ e, introspectDB (sample_catalog "NO" [("PRIMARY", 0%Z, Some "email"); ("by_lower", 1%Z, None)]) (mkSelection [] []) = inl e.
Proof. eexists. vm_compute. reflexivity. Qed.

(** A unique key of a column that may be NULL counts as a replication identity: the pre-flight
    check has no finding, although the rows with a NULL have no key in common with anything the
    re-read selects (IN never holds for NULL). *)
Theorem nullable_key_admitted (quote : string → string) (percent : nat → nat → string) :
  match introspectDB (sample_catalog "YES" [("by_email", 0%Z, Some "email")]) (mkSelection [] []) with
  | inl _ => False
  | inr ts =>
      option_map key_Columns (head ts ≫= MyApply.replicationKey) = Some ["email"] ∧
      (col_Nullable <$> (head ts ≫= λ t, MyApply.by_name (tbl_Columns t) !! "email")) = Some true ∧
      match MyPreflight.buildPreflight quote percent "s" 8 8 (Some ts) (Some ts) with
      | Some r => PgPreflight.rp_Findings r = [] ∧ PgPreflight.rp_Replicable r = [mkRef "app" "users"]
      | None => False
      end
  end.
Proof. vm_compute. done. Qed.

(** ** Postgres ([postgres/introspect.go]) *)

Record candidate := mkCandidate { cd_ref : TableRef; cd_oid : Z; cd_partitioned : bool }.

(** The answers of the queries: the candidates, and the columns, keys and foreign keys of a set
    of relations, each row with the relation it belongs to. *)
Record pg_catalog := mkPgCatalog {
  pc_tables : result (list candidate);
  pc_columns : list Z → result (list (Z * Column));
  pc_keys : list Z → result (list (Z * Key));
  pc_foreign_keys : list Z → result (list (Z * ForeignKey))
}.

(** The three loops over rows: a row changes the table its relation is, if it is selected. *)
Definition load_rows {A} (f : A → Table → Table) (byOID : gmap Z nat) (tables : list Table) (rows : list (Z * A)) : list Table :=
  foldl (λ ts '(oid, a), match byOID !! oid with Some i => alter (f a) i ts | None => ts end) tables rows.

Definition add_column (c : Column) (t : Table) : Table :=
  mkTable (tbl_Ref t) (tbl_Columns t ++ [c]) (tbl_PrimaryKey t) (tbl_UniqueKeys t) (tbl_ForeignKeys t) (tbl_Partitioned t)
    (tbl_StorageEngine t).
Definition add_key (k : Key) (t : Table) : Table :=
  if key_IsPrimary k
  then mkTable (tbl_Ref t) (tbl_Columns t) (Some k) (tbl_UniqueKeys t) (tbl_ForeignKeys t) (tbl_Partitioned t)
         (tbl_StorageEngine t)
  else mkTable (tbl_Ref t) (tbl_Columns t) (tbl_PrimaryKey t) (tbl_UniqueKeys t ++ [k]) (tbl_ForeignKeys t)
         (tbl_Partitioned t) (tbl_StorageEngine t).
Definition add_foreign_key (fk : ForeignKey) (t : Table) : Table :=
  mkTable (tbl_Ref t) (tbl_Columns t) (tbl_PrimaryKey t) (tbl_UniqueKeys t) (tbl_ForeignKeys t ++ [fk]) (tbl_Partitioned t)
    (tbl_StorageEngine t).

(** [metaByRef] and [byOID], the latter by position. *)
Definition metaByRef (cands : list candidate) : gmap TableRef candidate := foldl (λ m c, <[cd_ref c := c]> m) ∅ cands.
Definition oid_of (meta : gmap TableRef candidate) (r : TableRef) : Z := from_option cd_oid 0%Z (meta !! r).
Definition byOIDOf (meta : gmap TableRef candidate) (refs : list TableRef) : gmap Z nat :=
  foldl (λ m '(i, r), <[oid_of meta r := i]> m) ∅ (imap pair refs).

Section postgres.
Context (cat : pg_catalog).

Definition introspectConn (sel : Selection) : result (list Table) :=
  match pc_tables cat with
  | inl e => inl (Errorf "postgres: list tables" e)
  | inr cands =>
      match selectTables (cd_ref <$> cands) sel with
      | inl e => inl e
      | inr refs =>
          let meta := metaByRef cands in
          let oids := oid_of meta <$> refs in
          let tables := (λ r, mkTable r [] None [] [] (from_option cd_partitioned false (meta !! r)) "") <$> refs in
          let byOID := byOIDOf meta refs in
          if decide (oids = []) then inr []
          else
            match pc_columns cat oids with
            | inl e => inl (Errorf "postgres: introspect columns" e)
            | inr cols =>
                match pc_keys cat oids with
                | inl e => inl (Errorf "postgres: introspect keys" e)
                | inr keys =>
                    match pc_foreign_keys cat oids with
                    | inl e => inl (Errorf "postgres: introspect foreign keys" e)
                    | inr fks =>
                        inr (load_rows add_foreign_key byOID
                               (load_rows add_key byOID (load_rows add_column byOID tables cols) keys) fks)
                    end
                end
            end
      end
  end.
End postgres.

(** *** What it returns *)

(** The rows of one relation. *)
Definition rows_of {A} (oid : Z) (rows : list (Z * A)) : list A := omap (λ '(o, a), if decide (o = oid) then Some a else None) rows.

Lemma load_rows_lookup {A} (f : A → Table → Table) (byOID : gmap Z nat) (rows : list (Z * A)) (ts : list Table) (i : nat) :
  load_rows f byOID ts rows !! i =
  (λ t, foldl (λ t a, f a t) t (omap (λ '(o, a), if decide (byOID !! o = Some i) then Some a else None) rows)) <$> ts !! i.
Proof.
  unfold load_rows. revert ts. induction rows as [|[o a] rows IH]; intros ts; [by simpl; destruct (ts !! i)|].
  cbn [foldl omap list_omap]. rewrite IH. clear IH. destruct (byOID !! o) as [j|]; [|by rewrite decide_False by done].
  destruct (decide (j = i)) as [->|Hne].
  - rewrite list_lookup_alter_eq, (decide_True (P := Some i = Some i)) by done. by destruct (ts !! i).
  - rewrite list_lookup_alter_ne, (decide_False (P := Some j = Some i)) by (done || congruence). done.
Qed.

Lemma length_load_rows {A} (f : A → Table → Table) (m : gmap Z nat) (rows : list (Z * A)) (ts : list Table) :
  length (load_rows f m ts rows) = length ts.
Proof.
  unfold load_rows. revert ts. induction rows as [|[o a] rows IH]; intros ts; [done|]. cbn [foldl]. rewrite IH.
  destruct (m !! o); [apply length_alter|done].
Qed.

Lemma byOIDOf_lookup (meta : gmap TableRef candidate) (refs : list TableRef) (o : Z) (i : nat) :
  NoDup (oid_of meta <$> refs) → byOIDOf meta refs !! o = Some i ↔ ∃ r, refs !! i = Some r ∧ oid_of meta r = o.
Proof.
  unfold byOIDOf. induction refs as [|r refs IH] using rev_ind; intros Hnd.
  { simpl. rewrite lookup_empty. split; [done|]. by intros (? & ? & _). }
  rewrite fmap_app in Hnd. apply NoDup_app in Hnd as (Hnd & Hdisj & _). specialize (IH Hnd).
  rewrite imap_app, foldl_app. simpl. rewrite Nat.add_0_r. rewrite lookup_insert_Some, IH. split.
  - intros [[<- <-]|(Hne & r' & Hr' & <-)]; [exists r|exists r'].
    + split; [|done]. by rewrite lookup_app_r, Nat.sub_diag by done.
    + split; [|done]. by apply lookup_app_l_Some.
  - intros (r' & Hr' & <-). apply lookup_app_Some in Hr' as [Hr'|[Hle Hr']].
    + right. split; [|by exists r']. intros Heq. apply (Hdisj (oid_of meta r')); [|rewrite <-Heq; by left].
      apply list_elem_of_fmap_2. by eapply list_elem_of_lookup_2.
    + left. destruct (i - length refs) eqn:Hd; [|done]. injection Hr' as ->. split; [done|lia].
Qed.

(** The catalog names a relation once, and the rows of its foreign keys give its own name as
    the child. *)
Definition catalog_ok (cands : list candidate) (fks : list (Z * ForeignKey)) : Prop :=
  NoDup (cd_ref <$> cands) ∧ NoDup (cd_oid <$> cands) ∧
  ∀ c fk, c ∈ cands → (cd_oid c, fk) ∈ fks → fk_Child fk = cd_ref c.

Lemma metaByRef_lookup (cands : list candidate) (c : candidate) :
  NoDup (cd_ref <$> cands) → c ∈ cands → metaByRef cands !! cd_ref c = Some c.
Proof.
  unfold metaByRef. induction cands as [|d l IH] using rev_ind; [by intros _ ?%elem_of_nil|].
  rewrite fmap_app. intros (Hnd & Hdisj & _)%NoDup_app. rewrite foldl_app. simpl.
  intros [Hc|Hc%list_elem_of_singleton]%elem_of_app; [|by rewrite Hc, lookup_insert_eq].
  rewrite lookup_insert_ne; [by apply IH|]. intros Heq. apply (Hdisj (cd_ref c)); [by apply list_elem_of_fmap_2|].
  rewrite <-Heq. by left.
Qed.

(** A table as the rows of its relation describe it. *)
Definition pg_described (c : candidate) (cols : list (Z * Column)) (keys : list (Z * Key)) (fks : list (Z * ForeignKey))
    (t : Table) : Prop :=
  let ks := rows_of (cd_oid c) keys in
  tbl_Ref t = cd_ref c ∧ tbl_Partitioned t = cd_partitioned c ∧ tbl_Columns t = rows_of (cd_oid c) cols ∧
  tbl_PrimaryKey t = last (filter (λ k, key_IsPrimary k = true) ks) ∧
  tbl_UniqueKeys t = filter (λ k, key_IsPrimary k = false) ks ∧ tbl_ForeignKeys t = rows_of (cd_oid c) fks.

Lemma load_columns (t : Table) (l : list Column) :
  foldl (λ t a, add_column a t) t l =
  mkTable (tbl_Ref t) (tbl_Columns t ++ l) (tbl_PrimaryKey t) (tbl_UniqueKeys t) (tbl_ForeignKeys t) (tbl_Partitioned t)
    (tbl_StorageEngine t).
Proof. revert t. induction l as [|c l IH]; intros []; simpl; [by rewrite app_nil_r|]. rewrite IH. simpl. by rewrite <-app_assoc. Qed.

Lemma load_fks (t : Table) (l : list ForeignKey) :
  foldl (λ t a, add_foreign_key a t) t l =
  mkTable (tbl_Ref t) (tbl_Columns t) (tbl_PrimaryKey t) (tbl_UniqueKeys t) (tbl_ForeignKeys t ++ l) (tbl_Partitioned t)
    (tbl_StorageEngine t).
Proof. revert t. induction l as [|c l IH]; intros []; simpl; [by rewrite app_nil_r|]. rewrite IH. simpl. by rewrite <-app_assoc. Qed.

Lemma load_keys (t : Table) (l : list Key) :
  foldl (λ t a, add_key a t) t l =
  mkTable (tbl_Ref t) (tbl_Columns t)
    (match last (filter (λ k, key_IsPrimary k = true) l) with Some k => Some k | None => tbl_PrimaryKey t end)
    (tbl_UniqueKeys t ++ filter (λ k, key_IsPrimary k = false) l) (tbl_ForeignKeys t) (tbl_Partitioned t)
    (tbl_StorageEngine t).
Proof.
  revert t. induction l as [|k l IH]; intros t; [destruct t; simpl; by rewrite app_nil_r|].
  cbn [foldl]. rewrite IH, !filter_cons. unfold add_key. destruct (key_IsPrimary k) eqn:Hk.
  - rewrite (decide_True (P := true = true)), (decide_False (P := true = false)) by done. cbn.
    f_equal. rewrite last_cons. by destruct (last _).
  - rewrite (decide_False (P := false = true)), (decide_True (P := false = false)) by done. cbn.
    by rewrite <-app_assoc.
Qed.

(** The relations of the selected tables are distinct. *)
Lemma oids_distinct (cands : list candidate) (refs : list TableRef) :
  NoDup (cd_ref <$> cands) → NoDup (cd_oid <$> cands) → refs `sublist_of` (cd_ref <$> cands) →
  NoDup (oid_of (metaByRef cands) <$> refs).
Proof.
  intros Hr Ho Hsub. apply (sublist_NoDup _ (oid_of (metaByRef cands) <$> (cd_ref <$> cands))); [|by apply fmap_sublist].
  rewrite <-list_fmap_compose. replace ((oid_of (metaByRef cands) ∘ cd_ref) <$> cands) with (cd_oid <$> cands); [done|].
  apply list_fmap_ext. intros i c Hc. unfold compose, oid_of. rewrite (metaByRef_lookup cands c); [done|done|].
  by eapply list_elem_of_lookup_2.
Qed.

(** The queries answer from the whole catalog with the rows of the relations they are given. *)
Definition rows_in {A} (oids : list Z) (rows : list (Z * A)) : list (Z * A) := filter (λ r, r.1 ∈ oids) rows.

Definition answers (cat : pg_catalog) (cands : list candidate) (cols : list (Z * Column)) (keys : list (Z * Key))
    (fks : list (Z * ForeignKey)) : Prop :=
  pc_tables cat = inr cands ∧ ∀ oids, pc_columns cat oids = inr (rows_in oids cols) ∧
    pc_keys cat oids = inr (rows_in oids keys) ∧ pc_foreign_keys cat oids = inr (rows_in oids fks).

Lemma rows_of_in {A} (oids : list Z) (oid : Z) (rows : list (Z * A)) :
  oid ∈ oids → rows_of oid (rows_in oids rows) = rows_of oid rows.
Proof.
  intros Hin. unfold rows_of, rows_in. induction rows as [|[o a] rows IH]; [done|]. rewrite filter_cons. cbn [fst].
  destruct (decide (o ∈ oids)); cbn [omap list_omap]; (destruct (decide (o = oid)) as [->|]; [try done|exact IH]).
  by f_equal.
Qed.

(** The table at a position after the three loops. *)
Lemma loaded_described (cands : list candidate) (refs : list TableRef) (cols : list (Z * Column)) (keys : list (Z * Key))
    (fks : list (Z * ForeignKey)) (i : nat) (c : candidate) :
  NoDup (cd_ref <$> cands) → NoDup (oid_of (metaByRef cands) <$> refs) → c ∈ cands → refs !! i = Some (cd_ref c) →
  let meta := metaByRef cands in
  let oids := oid_of meta <$> refs in
  let tables := (λ r, mkTable r [] None [] [] (from_option cd_partitioned false (meta !! r)) "") <$> refs in
  let m := byOIDOf meta refs in
  ∃ t, load_rows add_foreign_key m
         (load_rows add_key m (load_rows add_column m tables (rows_in oids cols)) (rows_in oids keys)) (rows_in oids fks) !! i
         = Some t ∧
    pg_described c cols keys fks t.
Proof.
  intros Hr Ho Hc Hi meta oids tables m. pose proof (metaByRef_lookup cands c Hr Hc) as Hm. fold meta in Hm.
  assert (∀ A (rows : list (Z * A)), omap (λ '(o, a), if decide (m !! o = Some i) then Some a else None) rows =
    rows_of (cd_oid c) rows) as Hrows.
  { intros A rows. apply list_omap_ext, Forall_Forall2_diag, Forall_true. intros [o a].
    assert (m !! o = Some i ↔ o = cd_oid c) as Hiff.
    { unfold m. rewrite byOIDOf_lookup by done. unfold oid_of. fold meta. split.
      - intros (r & Hr' & <-). rewrite Hi in Hr'. injection Hr' as <-. by rewrite Hm.
      - intros ->. exists (cd_ref c). by rewrite Hm. }
    destruct (decide (m !! o = Some i)), (decide (o = cd_oid c)); tauto. }
  assert (cd_oid c ∈ oids) as Hoid.
  { unfold oids. apply list_elem_of_fmap. exists (cd_ref c). split; [|by eapply list_elem_of_lookup_2].
    unfold oid_of. by rewrite Hm. }
  rewrite !load_rows_lookup, !Hrows, !(rows_of_in oids) by done. unfold tables. rewrite list_lookup_fmap, Hi. cbn [fmap option_fmap option_map].
  rewrite Hm, load_fks, load_keys, load_columns. eexists. split; [reflexivity|]. unfold pg_described. cbn.
  split_and!; try done. by destruct (last _).
Qed.

(** Introspection of a Postgres database. On a catalog that names every relation once, the
    schema has exactly the tables the patterns select, in the order of the catalog, each with
    the columns, the primary key, the unique keys and the foreign keys of its own relation in the
    order of their rows. So its foreign keys are its own, and the pre-flight check of the schema always
    gives a report. *)
Theorem introspectConn_exact (cat : pg_catalog) (sel : Selection) (cands : list candidate) (cols : list (Z * Column))
    (keys : list (Z * Key)) (fks : list (Z * ForeignKey)) :
  answers cat cands cols keys fks → catalog_ok cands fks →
  match introspectConn cat sel with
  | inl _ => Exists blank (sel_Include sel ++ sel_Exclude sel)
  | inr ts =>
      tbl_Ref <$> ts `sublist_of` (cd_ref <$> cands) ∧
      (∀ r, r ∈ tbl_Ref <$> ts ↔ r ∈ cd_ref <$> cands ∧ selected sel r) ∧
      Forall (λ t, ∃ c, c ∈ cands ∧ pg_described c cols keys fks t) ts ∧
      FkGraph.own_fks ts ∧
      ∀ quote percent name sv tv target, is_Some (PgPreflight.buildPreflight quote percent name sv tv ts target)
  end.
Proof.
  intros [Hc Hq] (Hr & Ho & Hown). unfold introspectConn. rewrite Hc.
  pose proof (selectTables_exact (cd_ref <$> cands) sel) as Hsel.
  destruct (selectTables (cd_ref <$> cands) sel) as [e|refs]; [done|]. destruct Hsel as (_ & Hsub & Hin).
  pose proof (oids_distinct cands refs Hr Ho Hsub) as Hoids. cbv zeta.
  destruct (Hq (oid_of (metaByRef cands) <$> refs)) as (-> & -> & ->).
  assert (∀ ts, tbl_Ref <$> ts = refs → Forall (λ t, ∃ c, c ∈ cands ∧ pg_described c cols keys fks t) ts →
    (tbl_Ref <$> ts `sublist_of` (cd_ref <$> cands)) ∧ (∀ r, r ∈ tbl_Ref <$> ts ↔ r ∈ cd_ref <$> cands ∧ selected sel r) ∧
    Forall (λ t, ∃ c, c ∈ cands ∧ pg_described c cols keys fks t) ts ∧ FkGraph.own_fks ts ∧
    ∀ quote percent name sv tv target, is_Some (PgPreflight.buildPreflight quote percent name sv tv ts target)) as Hend.
  { intros ts -> HF. assert (FkGraph.own_fks ts) as Hts.
    { intros t fk Ht Hfk. rewrite Forall_forall in HF. destruct (HF t Ht) as (c & Hcc & -> & _ & _ & _ & _ & Hf).
      rewrite Hf in Hfk. apply list_elem_of_omap in Hfk as ([o fk'] & Hfk & Hd). destruct (decide (o = cd_oid c)) as [->|]; [|done].
      injection Hd as ->. by apply Hown. }
    split_and!; [done|done|done|done|]. intros quote percent name sv tv target. unfold PgPreflight.buildPreflight.
    destruct (CyclicFk.computeComponents_total (PgPreflight.replicable_tables ts)) as [comps ->]; [|by eexists].
    intros t fk [_ Ht]%list_elem_of_filter. by apply Hts. }
  destruct (decide (oid_of (metaByRef cands) <$> refs = [])) as [Hnil|_].
  { apply Hend; [|constructor]. by apply fmap_nil_inv in Hnil as ->. }
  pose proof (loaded_described cands refs cols keys fks) as Hload. cbv zeta in Hload.
  match goal with |- context [load_rows add_foreign_key ?m ?l ?r] => set (ts := load_rows add_foreign_key m l r) in * end.
  assert (∀ i r, refs !! i = Some r → ∃ t c, ts !! i = Some t ∧ c ∈ cands ∧ cd_ref c = r ∧ pg_described c cols keys fks t) as Hts.
  { intros i r Hi. assert (r ∈ cd_ref <$> cands) as (c & -> & Hcc)%list_elem_of_fmap.
    { apply Hin. by eapply list_elem_of_lookup_2. }
    destruct (Hload i c Hr Hoids Hcc Hi) as (t & Ht & Hd). by exists t, c. }
  assert (length ts = length refs) as Hlen.
  { unfold ts. by rewrite !length_load_rows, length_fmap. }
  apply Hend.
  - apply list_eq. intros i. rewrite list_lookup_fmap. destruct (refs !! i) as [r|] eqn:Hi.
    + destruct (Hts i r Hi) as (t & c & -> & _ & <- & Hd & _). simpl. by rewrite Hd.
    + rewrite (lookup_ge_None_2 ts); [done|]. apply lookup_ge_None_1 in Hi. lia.
  - apply Forall_lookup. intros i t Ht. destruct (lookup_lt_is_Some_2 refs i) as [r Hi].
    { rewrite <-Hlen. by eapply lookup_lt_Some. }
    destruct (Hts i r Hi) as (t' & c & Ht' & Hcc & _ & Hd). rewrite Ht in Ht'. injection Ht' as <-. by exists c.
Qed.

(** *** A sample catalog *)

Definition sample_columns : list (Z * Column) :=
  [(10%Z, mkColumn "id" "uuid" false false false false false ""); (11%Z, mkColumn "id" "integer" false false true false false "");
   (11%Z, mkColumn "user" "uuid" true false false false false "")].

Definition sample_pg : pg_catalog :=
  mkPgCatalog (inr [mkCandidate (mkRef "app" "orders") 11 false; mkCandidate (mkRef "app" "users") 10 true])
    (λ oids, inr (rows_in oids sample_columns))
    (λ oids, inr (rows_in oids [(10%Z, mkKey "users_pkey" ["id"] true); (11%Z, mkKey "orders_pkey" ["id"] true);
                                (11%Z, mkKey "orders_user_key" ["user"] false)]))
    (λ oids, inr (rows_in oids [(11%Z, mkFK "fk" (mkRef "app" "orders") ["user"] (mkRef "app" "users") ["id"] false)])).

Example sample_introspections :
  (introspectConn sample_pg (mkSelection ["app.*"] ["*.orders"]) =
     inr [mkTable (mkRef "app" "users") [mkColumn "id" "uuid" false false false false false ""]
            (Some (mkKey "users_pkey" ["id"] true)) [] [] true ""]) ∧
  (introspectConn sample_pg (mkSelection ["*.order?"] []) =
     inr [mkTable (mkRef "app" "orders") [mkColumn "id" "integer" false false true false false "";
              mkColumn "user" "uuid" true false false false false ""]
            (Some (mkKey "orders_pkey" ["id"] true)) [mkKey "orders_user_key" ["user"] false]
            [mkFK "fk" (mkRef "app" "orders") ["user"] (mkRef "app" "users") ["id"] false] false ""]) ∧
  (introspectConn sample_pg (mkSelection ["nothing"] []) = inr []) ∧
  match introspectConn sample_pg (mkSelection [" "] []) with inl _ => True | inr _ => False end.
Proof. vm_compute. done. Qed.
End Introspect.
