(* ===== verification/MyMesh.v ===== *)
(** * The mesh of the MySQL engine ([internal/engine/mysql/mesh.go], [apply_mesh.go],
    [reread.go], [mesh_gc.go])

    MySQL has no trigger functions for the hybrid logical clock and refuses to read the
    register in a statement that writes it, so its mesh is written differently from the
    Postgres one: the clock is two assignments of an UPDATE, evaluated from left to right;
    the trigger bodies are guarded by a session variable; the winners of a staging are
    marked once in a column, and every later statement reads the mark. This file models
    those statements on the state of [Mesh] and shows that the cluster behaves like the
    Postgres one, hence converges. *)

From S2P Require Import Prelude Engine Mesh MyApply.
Import Mesh.

Module MyMesh.

(** ** The clock, as its UPDATE statements assign it *)

(** The row of [hlc_state]: physical and logical. *)
Abbreviation hlc := (Z * Z)%type.

Definition set_logical (f : hlc → Z) (s : hlc) : hlc := (s.1, f s).
Definition set_physical (f : hlc → Z) (s : hlc) : hlc := (f s, s.2).

(** [hlcTickBody]: SET logical = IF(rc_ts > physical, 0, logical + 1), physical = IF(...). *)
Definition hlcTickBody (ts : Z) (s : hlc) : hlc :=
  set_physical (λ s, if decide (s.1 < ts)%Z then ts else s.1)
    (set_logical (λ s, if decide (s.1 < ts)%Z then 0%Z else (s.2 + 1)%Z) s).

(** [hlcObserveSQL] *)
Definition hlcObserveSQL (now : Z) (phys log : Z) (s : hlc) : hlc :=
  let g (s : hlc) := Z.max (Z.max now s.1) phys in
  set_physical g
    (set_logical (λ s, if decide (g s = s.1 ∧ s.1 = phys) then (Z.max s.2 log + 1)%Z
                       else if decide (g s = s.1) then (s.2 + 1)%Z
                       else if decide (g s = phys) then (log + 1)%Z
                       else 0%Z) s).

Lemma hlcTickBody_eq ts s : hlcTickBody ts s = hlc_tick ts s.
Proof. unfold hlcTickBody, hlc_tick, set_physical, set_logical. simpl. by destruct (decide (s.1 < ts)%Z). Qed.

Lemma hlcObserveSQL_eq now v s : hlcObserveSQL now v.1 v.2 s = hlc_observe now v s.
Proof.
  unfold hlcObserveSQL, hlc_observe, set_physical, set_logical. cbn [fst snd]. replace (Z.max (Z.max now s.1) v.1) with (Z.max now (Z.max v.1 s.1)) by lia.
  f_equal. repeat case_decide; lia.
Qed.

(** ** The triggers *)

Section engine.
(** NOT (NEW.k <=> OLD.k), under the collations of the key columns; and the comparison of
    rc_node under its collation. *)
Context (same_key : KeyValues → KeyValues → bool) (node_gt : string → string → bool).

Definition stamp (k : KeyValues) (v : version) (deleted : bool) (reg : gmap KeyValues (version * bool)) :=
  <[k := (v, deleted)]> reg.

(** [meshTriggerDDL]: with @replicare_apply set the body is skipped; otherwise one tick, the
    deltas, the register stamps. *)
Definition mesh_trigger (marked : bool) (nid : string) (ts : Z) (ch : change) (nd : node) : node :=
  if marked then nd
  else
    let c := hlcTickBody ts (n_clock nd) in
    let v : version := (c, nid) in
    let '(ks, reg) :=
      match ch with
      | MInsert k _ => ([k], stamp k v false (n_reg nd))
      | MDelete k => ([k], stamp k v true (n_reg nd))
      | MUpdate k k' _ =>
          if negb (same_key k' k) then ([k; k'], stamp k' v false (stamp k v true (n_reg nd)))
          else ([k'], stamp k' v false (n_reg nd))
      end in
    mkNode (n_rows nd) reg c (n_next nd + Z.of_nat (length ks)) (enqueue (n_next nd) ks (n_delta nd)) (n_track nd).

Definition set_rows (R : gmap KeyValues Row) (nd : node) : node :=
  mkNode R (n_reg nd) (n_clock nd) (n_next nd) (n_delta nd) (n_track nd).
Definition set_reg (R : gmap KeyValues (version * bool)) (nd : node) : node :=
  mkNode (n_rows nd) R (n_clock nd) (n_next nd) (n_delta nd) (n_track nd).
Definition set_clock (c : hlc) (nd : node) : node :=
  mkNode (n_rows nd) (n_reg nd) c (n_next nd) (n_delta nd) (n_track nd).

(** A row write of a session, with its trigger. *)
Definition write_row (marked : bool) (nid : string) (ts : Z) (ch : change) (nd : node) : node :=
  mesh_trigger marked nid ts ch
    (set_rows (match ch with
               | MInsert k r => <[k := r]> (n_rows nd)
               | MUpdate k k' r => <[k' := r]> (delete k (n_rows nd))
               | MDelete k => delete k (n_rows nd)
               end) nd).

(** ** The re-read ([versionedRereadQuery]) *)

(** A row of the staging: key, values, rc_hlc_phys, rc_hlc_log, rc_node, rc_deleted, and the
    computed rc_win. *)
Record stg_row := mkStg { sg_key : KeyValues; sg_row : Row; sg_ver : version; sg_deleted : bool; sg_win : bool }.

(** FROM register LEFT JOIN user table WHERE key IN (keys) *)
Definition versionedReread (keys : list KeyValues) (nd : node) : list stg_row :=
  (λ '(k, (v, d)), mkStg k (default ∅ (n_rows nd !! k)) v d false) <$>
    filter (λ '(k, _), k ∈ keys) (map_to_list (n_reg nd)).

(** ** The apply *)

(** [meshVersionGreater], a row comparison; a register without the key loses. *)
Definition meshVersionGreater (s : version) (r : option (version * bool)) : bool :=
  match r with
  | None => true
  | Some (t, _) =>
      bool_decide (t.1.1 < s.1.1)%Z ||
      bool_decide (t.1.1 = s.1.1) && (bool_decide (t.1.2 < s.1.2)%Z || bool_decide (t.1.2 = s.1.2) && node_gt s.2 t.2)
  end.

(** [clusterMarkWinnersSQL] *)
Definition clusterMarkWinners (reg : gmap KeyValues (version * bool)) (stg : list stg_row) : list stg_row :=
  (λ s, mkStg (sg_key s) (sg_row s) (sg_ver s) (sg_deleted s) (meshVersionGreater (sg_ver s) (reg !! sg_key s))) <$> stg.

Definition won (deleted : bool) (stg : list stg_row) : list stg_row :=
  filter (λ s, sg_deleted s = deleted ∧ sg_win s = true) stg.

(** [clusterAliveUpsertSQL]: INSERT ... ON DUPLICATE KEY UPDATE fires the trigger of an
    insert or of an update, on a session that is marked. *)
Definition clusterAliveUpsert (nid : string) (ts : Z) (stg : list stg_row) (nd : node) : node :=
  foldl (λ nd s,
    write_row true nid ts
      (if decide (is_Some (n_rows nd !! sg_key s)) then MUpdate (sg_key s) (sg_key s) (sg_row s) else MInsert (sg_key s) (sg_row s)) nd)
    nd (won false stg).

(** [clusterTombstoneDeleteSQL] *)
Definition clusterTombstoneDelete (nid : string) (ts : Z) (stg : list stg_row) (nd : node) : node :=
  foldl (λ nd s, write_row true nid ts (MDelete (sg_key s)) nd) nd (won true stg).

(** [clusterRegUpsertSQL] *)
Definition clusterRegUpsert (deleted : bool) (stg : list stg_row) (nd : node) : node :=
  foldl (λ nd s, set_reg (stamp (sg_key s) (sg_ver s) deleted (n_reg nd)) nd) nd (won deleted stg).

(** [observeFromStaging]: ORDER BY rc_hlc_phys DESC, rc_hlc_log DESC LIMIT 1, and the clock. *)
Definition staged_max (stg : list stg_row) : option (Z * Z) :=
  foldr (λ s acc, match acc with
                  | None => Some (sg_ver s).1
                  | Some c => Some (if decide (clock_lt c (sg_ver s).1) then (sg_ver s).1 else c)
                  end) None stg.

Definition observeFromStaging (now : Z) (stg : list stg_row) (nd : node) : node :=
  match staged_max stg with
  | None => nd
  | Some v => set_clock (hlcObserveSQL now v.1 v.2 (n_clock nd)) nd
  end.

(** [classifyMeshNotReady] *)
Definition classifyMeshNotReady (e : error) : error :=
  match MyApply.asMySQLError e with
  | Some n => if decide (n = 1049%Z ∨ n = 1146%Z) then TransientConstraintError e else e
  | None => e
  end.

(** The statements of a phase, each of which may fail; an error ends the phase, and the
    transaction is rolled back. *)
Definition tx_step {A} (err : option error) (wrap : error → error) (k : A) (next : A → result (node * list stg_row))
    : result (node * list stg_row) :=
  match err with Some e => inl (wrap e) | None => next k end.

(** [stageUpsertCluster], after the staging has been loaded with the re-read. *)
Definition my_stageUpsertCluster (errs : nat → option error) (cyclic : bool) (ref : TableRef) (nid : string) (ts now : Z)
    (stg : list stg_row) (nd : node) : result (node * list stg_row) :=
  let at_ what e := Errorf ("mysql: cluster apply: " +:+ what +:+ " " +:+ ref_string ref) e in
  tx_step (errs 0) (λ e, at_ "mark winners" (classifyMeshNotReady e)) (clusterMarkWinners (n_reg nd) stg) (λ stg,
  tx_step (errs 1) (λ e, at_ "upsert" (MyApply.classifyMySQLFK cyclic e)) (clusterAliveUpsert nid ts stg nd) (λ nd,
  tx_step (errs 2) (at_ "register") (clusterRegUpsert false stg nd) (λ nd,
  tx_step (errs 3) (Errorf "mysql: cluster apply: advance clock") (observeFromStaging now stg nd) (λ nd,
  inr (nd, stg))))).

(** [deleteTombstonesCluster] on a staging an earlier phase of the transaction marked. *)
Definition my_deleteTombstonesCluster (errs : nat → option error) (cyclic : bool) (ref : TableRef) (nid : string) (ts now : Z)
    (staging : option (list stg_row)) (nd : node) : result (node * list stg_row) :=
  match staging with
  | None => inl (Failure ("mysql: cluster apply: DeleteAbsent before StageUpsert for " +:+ ref_string ref))
  | Some stg =>
      let at_ what e := Errorf ("mysql: cluster apply: " +:+ what +:+ " " +:+ ref_string ref) e in
      tx_step (errs 4) (λ e, at_ "delete" (MyApply.classifyMySQLFK cyclic e)) (clusterTombstoneDelete nid ts stg nd) (λ nd,
      tx_step (errs 5) (at_ "tombstone register") (clusterRegUpsert true stg nd) (λ nd,
      tx_step (errs 6) (Errorf "mysql: cluster apply: advance clock") (observeFromStaging now stg nd) (λ nd,
      inr (nd, stg))))
  end.

(** [Source.GCTombstones] *)
Definition my_GCTombstones (cluster : bool) (nd : node) : node :=
  if cluster then
    set_reg (filter (λ '(k, vd), ¬ (vd.2 = true ∧ Forall (λ x, x.2 ≠ k) (map_to_list (n_delta nd)))) (n_reg nd)) nd
  else nd.
End engine.

(** ** The cluster *)

Record my_pass := mkMyPass { mp_ids : list DeltaID; mp_stg : option (list stg_row); mp_applied : bool }.
Record my_mesh := mkMyMesh { mm_nodes : gmap string node; mm_pass : gmap (string * string) my_pass }.

Definition set_member (n : string) (nd : node) (m : my_mesh) : my_mesh := mkMyMesh (<[n := nd]> (mm_nodes m)) (mm_pass m).
Definition set_edge (e : string * string) (p : my_pass) (m : my_mesh) : my_mesh := mkMyMesh (mm_nodes m) (<[e := p]> (mm_pass m)).

Section cluster.
Context (same_key : KeyValues → KeyValues → bool) (node_gt : string → string → bool) (ref : TableRef).

(** Application writes, the clock, the steps of an edge's pass (read the dirty keys,
    re-read them in any order, apply the upsert phase or both phases in one transaction,
    with any statement failing, confirm), and the collector. A failed phase changes nothing.

    A phase is one step: at InnoDB's default REPEATABLE READ the UPDATE that marks the winners
    takes shared locks on the register rows and gaps it reads, so no local write stamps one of
    these keys before the transaction ends. *)
Inductive my_step : kind → my_mesh → my_mesh → Prop :=
| y_write m n nd ts ch :
    mm_nodes m !! n = Some nd → my_step Undisturbed m (set_member n (write_row same_key false n ts ch nd) m)
| y_tick m n nd ts :
    mm_nodes m !! n = Some nd → my_step Undisturbed m (set_member n (set_clock (hlcTickBody ts (n_clock nd)) nd) m)
| y_read m a b nd ids :
    mm_nodes m !! a = Some nd → a ≠ b → is_Some (mm_nodes m !! b) → ids ⊆ unconsumed nd b →
    my_step Undisturbed m (set_edge (a, b) (mkMyPass ids None false) m)
| y_stage m a b nd p stg :
    mm_nodes m !! a = Some nd → mm_pass m !! (a, b) = Some p →
    stg ≡ₚ versionedReread (omap (λ i, n_delta nd !! i) (mp_ids p)) nd →
    my_step Undisturbed m (set_edge (a, b) (mkMyPass (mp_ids p) (Some stg) false) m)
| y_upsert m a b nd p stg errs cyclic ts now nd' stg' :
    mm_nodes m !! b = Some nd → mm_pass m !! (a, b) = Some p → mp_stg p = Some stg →
    my_stageUpsertCluster same_key node_gt errs cyclic ref b ts now stg nd = inr (nd', stg') →
    my_step Undisturbed m (set_member b nd' m)
| y_apply m a b nd p stg errs cyclic ts now ts' now' nd1 stg1 nd2 stg2 :
    mm_nodes m !! b = Some nd → mm_pass m !! (a, b) = Some p → mp_stg p = Some stg →
    my_stageUpsertCluster same_key node_gt errs cyclic ref b ts now stg nd = inr (nd1, stg1) →
    my_deleteTombstonesCluster same_key errs cyclic ref b ts' now' (Some stg1) nd1 = inr (nd2, stg2) →
    my_step Undisturbed m (set_edge (a, b) (mkMyPass (mp_ids p) (Some stg) true) (set_member b nd2 m))
| y_confirm m a b nd p :
    mm_nodes m !! a = Some nd → mm_pass m !! (a, b) = Some p → mp_applied p = true →
    my_step Undisturbed m (set_member a (confirm b (mp_ids p) nd) m)
| y_gc m n nd :
    mm_nodes m !! n = Some nd →
    my_step (gc_kind nd) m (set_member n (my_GCTombstones true nd) m).
End cluster.
(** ** The statements do what the Postgres ones do *)

Definition to_entry (s : stg_row) : KeyValues * entry := (sg_key s, mkEntry (sg_ver s) (sg_deleted s) (sg_row s)).
Definition staged (l : list stg_row) : gmap KeyValues entry := list_to_map (to_entry <$> l).

(** A staging has one row per key. *)
Abbreviation one_per_key l := (NoDup (sg_key <$> l)).

Lemma entry_keys l : (to_entry <$> l).*1 = sg_key <$> l.
Proof. rewrite <-list_fmap_compose. by apply list_fmap_ext. Qed.

Lemma staged_Some l k e : one_per_key l → staged l !! k = Some e ↔ ∃ s, s ∈ l ∧ to_entry s = (k, e).
Proof.
  intros Hnd. unfold staged. rewrite <-elem_of_list_to_map by (by rewrite entry_keys). rewrite list_elem_of_fmap. naive_solver.
Qed.

Lemma staged_fresh s l : one_per_key (s :: l) → staged l !! sg_key s = None.
Proof.
  intros [Hn _]%NoDup_cons. unfold staged. apply not_elem_of_list_to_map_1. by rewrite entry_keys.
Qed.

Lemma one_per_key_filter (P : stg_row → Prop) `{!∀ s, Decision (P s)} l : one_per_key l → one_per_key (filter P l).
Proof. intros Hl. apply (sublist_NoDup _ _ Hl). apply fmap_sublist, sublist_filter. Qed.

(** *** The greatest clock of a staging *)

Definition maxc (vs : list (Z * Z)) : option (Z * Z) :=
  foldr (λ v acc, match acc with None => Some v | Some c => Some (if decide (clock_lt c v) then v else c) end) None vs.

Lemma maxc_spec vs c : maxc vs = Some c → c ∈ vs ∧ ∀ v, v ∈ vs → clock_le v c.
Proof.
  revert c. induction vs as [|v vs IH]; intros c; [done|]. simpl. fold (maxc vs). destruct (maxc vs) as [c'|] eqn:E.
  - destruct (IH c' eq_refl) as [Hin Hle]. intros [= <-]. case_decide as Hd; (split; [set_solver|]);
      intros u [->|Hu]%elem_of_cons; [apply clock_le_refl| | |by apply Hle].
    + eapply clock_le_trans; [by apply Hle|by apply clock_lt_le].
    + destruct (clock_cases v c') as [?|[->|?]]; [by apply clock_lt_le|apply clock_le_refl|done].
  - intros [= <-]. assert (vs = []) as ->.
    { destruct vs as [|u vs]; [done|]. simpl in E. by destruct (maxc vs). }
    split; [by left|]. intros u ->%list_elem_of_singleton. apply clock_le_refl.
Qed.

Lemma maxc_None vs : maxc vs = None → vs = [].
Proof. destruct vs as [|v vs]; [done|]. simpl. fold (maxc vs). by destruct (maxc vs). Qed.

Lemma clock_le_antisym a b : clock_le a b → clock_le b a → a = b.
Proof. destruct a as [a1 a2], b as [b1 b2]. unfold clock_le. simpl. intros H1 H2. f_equal; lia. Qed.

Lemma maxc_perm vs vs' : vs ≡ₚ vs' → maxc vs = maxc vs'.
Proof.
  intros Hp. destruct (maxc vs) as [c|] eqn:E, (maxc vs') as [c'|] eqn:E'; [| | |done].
  - destruct (maxc_spec vs c E) as [H1 H2], (maxc_spec vs' c' E') as [H3 H4]. f_equal.
    apply clock_le_antisym; [apply H4; by rewrite <-Hp|apply H2; by rewrite Hp].
  - apply maxc_None in E'. subst. by apply Permutation_nil_r in Hp as ->.
  - apply maxc_None in E. subst. symmetry in Hp. by apply Permutation_nil_r in Hp as ->.
Qed.

Lemma staged_max_eq l : one_per_key l → staged_max l = max_clock (staged l).
Proof.
  intros Hnd. assert (staged_max l = maxc ((λ s, (sg_ver s).1) <$> l)) as ->.
  { clear Hnd. unfold staged_max, maxc. induction l as [|s l IH]; [done|]. simpl. by rewrite IH. }
  assert (max_clock (staged l) = maxc ((λ x, (en_ver x.2).1) <$> map_to_list (staged l))) as ->.
  { unfold max_clock, maxc. induction (map_to_list (staged l)) as [|x xs IH]; [done|]. simpl. by rewrite IH. }
  apply maxc_perm. unfold staged. rewrite map_to_list_to_map by (by rewrite entry_keys).
  rewrite <-list_fmap_compose. done.
Qed.

(** ** The order of the members

    A collation need not tell all strings apart; what matters is that it tells apart and
    orders the ids of the members. *)

Record orders (node_gt : string → string → bool) (M : gset string) : Prop := {
  or_irrefl a : a ∈ M → node_gt a a = false;
  or_trans a b c : a ∈ M → b ∈ M → c ∈ M → node_gt a b = true → node_gt b c = true → node_gt a c = true;
  or_total a b : a ∈ M → b ∈ M → a ≠ b → node_gt a b = true ∨ node_gt b a = true
}.

(** The members by the collation, any other string after them. *)
Definition members_lt (node_gt : string → string → bool) (M : gset string) (a b : string) : Prop :=
  if decide (a ∈ M) then if decide (b ∈ M) then node_gt b a = true else True
  else if decide (b ∈ M) then False else str_lt a b.

Definition members_order (node_gt : string → string → bool) (M : gset string) (HO : orders node_gt M) : NodeOrder.
Proof.
  refine {| node_lt := members_lt node_gt M |}.
  - intros a b. unfold members_lt. destruct (decide (a ∈ M)), (decide (b ∈ M)); apply _.
  - destruct HO as [H1 H2 _]. split.
    + intros a. unfold complement, members_lt. destruct (decide (a ∈ M)) as [Ha|Ha].
      * intros E. by rewrite (H1 a Ha) in E.
      * apply (irreflexivity (@node_lt bytewise)).
    + intros a b c. unfold members_lt. destruct (decide (a ∈ M)) as [Ha|Ha], (decide (b ∈ M)) as [Hb|Hb],
        (decide (c ∈ M)) as [Hc|Hc]; try done; [intros E1 E2; by apply (H2 c b a)|].
      apply (transitivity (R := @node_lt bytewise)).
  - destruct HO as [_ _ H3]. intros a b. unfold members_lt.
    destruct (decide (a = b)) as [->|Hne]; [by right; left|].
    destruct (decide (a ∈ M)) as [Ha|Ha], (decide (b ∈ M)) as [Hb|Hb]; [|by left|by right; right|].
    + destruct (H3 a b Ha Hb Hne); auto.
    + apply (@node_lt_total bytewise).
Defined.

Section marks.
Context (node_gt : string → string → bool) (M : gset string) (HO : orders node_gt M).
#[local] Instance by_collation : NodeOrder := members_order node_gt M HO.

(** All versions carry the id of a member. *)
Definition signed (reg : gmap KeyValues (version * bool)) (l : list stg_row) : Prop :=
  (∀ k v d, reg !! k = Some (v, d) → v.2 ∈ M) ∧ (∀ s, s ∈ l → (sg_ver s).2 ∈ M).

Lemma meshVersionGreater_beats v r :
  v.2 ∈ M → (∀ w d, r = Some (w, d) → w.2 ∈ M) → meshVersionGreater node_gt v r = true ↔ beats v r.
Proof.
  destruct r as [[w d]|]; [|done]. intros Hv Hr. specialize (Hr w d eq_refl). simpl. unfold vlt, clock_lt.
  assert (node_lt w.2 v.2 ↔ node_gt v.2 w.2 = true) as Hl.
  { change (node_lt w.2 v.2) with (members_lt node_gt M w.2 v.2). unfold members_lt. by rewrite !decide_True. }
  rewrite Hl. destruct v as [[p l] n], w as [[p' l'] n']. simpl in *.
  rewrite orb_true_iff, !andb_true_iff, orb_true_iff, andb_true_iff, !bool_decide_eq_true.
  split; [|naive_solver]. intros [?|[-> [?|[-> ?]]]]; auto.
Qed.

Lemma won_keys d reg l : one_per_key l → one_per_key (won d (clusterMarkWinners node_gt reg l)).
Proof.
  intros Hnd. apply one_per_key_filter. unfold clusterMarkWinners. by rewrite <-list_fmap_compose.
Qed.

Lemma staged_won d reg l :
  one_per_key l → signed reg l → staged (won d (clusterMarkWinners node_gt reg l)) = winners d (staged l) reg.
Proof.
  intros Hnd [Hreg Hl]. apply map_eq. intros k. apply option_eq. intros e. rewrite staged_Some by by apply won_keys.
  unfold winners. rewrite map_lookup_filter_Some, staged_Some by done. unfold won, clusterMarkWinners. split.
  - intros (s & [[Hd Hw] (s0 & -> & Hin)%list_elem_of_fmap]%list_elem_of_filter & Ht).
    injection Ht as <- <-. simpl in *. apply meshVersionGreater_beats in Hw; [|by apply Hl|intros w d'; apply Hreg]. split; [by exists s0|done].
  - intros [(s & Hin & Ht) [Hd Hb]]. injection Ht as <- <-. simpl in *.
    exists (mkStg (sg_key s) (sg_row s) (sg_ver s) (sg_deleted s) (meshVersionGreater node_gt (sg_ver s) (reg !! sg_key s))).
    split; [|done]. apply list_elem_of_filter. split; [|apply list_elem_of_fmap; by exists s].
    simpl. split; [done|]. apply meshVersionGreater_beats; [by apply Hl|intros w d'; apply Hreg|done].
Qed.

Lemma staged_marked reg l : staged (clusterMarkWinners node_gt reg l) = staged l.
Proof. unfold staged, clusterMarkWinners. by rewrite <-list_fmap_compose. Qed.

End marks.

Section refine.
Context (same_key : KeyValues → KeyValues → bool) (same_key_eq : ∀ k k', same_key k k' = true ↔ k = k').

Lemma write_row_local n ts ch nd : write_row same_key false n ts ch nd = local_write n ts ch nd.
Proof.
  unfold write_row, mesh_trigger, local_write, delta_keys. cbn [set_rows n_clock n_reg n_next n_delta n_track n_rows].
  rewrite hlcTickBody_eq. destruct ch as [k r|k k' r|k]; [done| |done].
  destruct (same_key k' k) eqn:E; simpl.
  - apply same_key_eq in E as ->. rewrite !decide_True by done. by rewrite insert_delete_eq.
  - assert (k ≠ k') as Hne by (intros ->; by rewrite (proj2 (same_key_eq k' k') eq_refl) in E).
    by rewrite !decide_False by done.
Qed.

(** *** The writes *)

Lemma upsert_fold nid ts W nd :
  one_per_key W →
  foldl (λ nd s,
    write_row same_key true nid ts
      (if decide (is_Some (n_rows nd !! sg_key s)) then MUpdate (sg_key s) (sg_key s) (sg_row s) else MInsert (sg_key s) (sg_row s)) nd)
    nd W = set_rows ((en_row <$> staged W) ∪ n_rows nd) nd.
Proof.
  revert nd. induction W as [|s W IH]; intros nd Hnd.
  { simpl. unfold staged. simpl. rewrite fmap_empty, (left_id_L ∅ (∪)). by destruct nd. }
  pose proof (staged_fresh s W Hnd) as Hf. cbn [foldl]. apply NoDup_cons in Hnd as [_ Hnd]. rewrite IH by done.
  assert (write_row same_key true nid ts
      (if decide (is_Some (n_rows nd !! sg_key s)) then MUpdate (sg_key s) (sg_key s) (sg_row s) else MInsert (sg_key s) (sg_row s)) nd =
    set_rows (<[sg_key s := sg_row s]> (n_rows nd)) nd) as ->.
  { unfold write_row. simpl. case_decide; [by rewrite insert_delete_eq|done]. }
  unfold set_rows. simpl. f_equal. rewrite <-insert_union_r by (by rewrite lookup_fmap, Hf).
  unfold staged. simpl. rewrite fmap_insert. simpl. by rewrite insert_union_l.
Qed.

Lemma register_fold d W nd :
  one_per_key W →
  foldl (λ nd s, set_reg (stamp (sg_key s) (sg_ver s) d (n_reg nd)) nd) nd W =
  set_reg (((λ e, (en_ver e, d)) <$> staged W) ∪ n_reg nd) nd.
Proof.
  revert nd. induction W as [|s W IH]; intros nd Hnd.
  { simpl. unfold staged. simpl. rewrite fmap_empty, (left_id_L ∅ (∪)). by destruct nd. }
  pose proof (staged_fresh s W Hnd) as Hf. cbn [foldl]. apply NoDup_cons in Hnd as [_ Hnd]. rewrite IH by done.
  unfold set_reg, stamp. simpl. f_equal. rewrite <-insert_union_r by (by rewrite lookup_fmap, Hf).
  unfold staged. simpl. rewrite fmap_insert. simpl. by rewrite insert_union_l.
Qed.

Lemma delete_fold nid ts W nd :
  one_per_key W →
  foldl (λ nd s, write_row same_key true nid ts (MDelete (sg_key s)) nd) nd W = set_rows (n_rows nd ∖ (en_row <$> staged W)) nd.
Proof.
  revert nd. induction W as [|s W IH]; intros nd Hnd.
  { simpl. unfold staged. simpl. rewrite fmap_empty, map_difference_empty. by destruct nd. }
  cbn [foldl]. apply NoDup_cons in Hnd as [_ Hnd]. rewrite IH by done. unfold write_row, set_rows. simpl. f_equal.
  apply map_eq. intros k. rewrite !lookup_difference. unfold staged. simpl. rewrite !lookup_fmap.
  destruct (decide (k = sg_key s)) as [->|Hne].
  - rewrite lookup_insert_eq, lookup_delete_eq. simpl. by destruct (list_to_map _ !! _).
  - by rewrite lookup_insert_ne, lookup_delete_ne by done.
Qed.

Lemma observe_eq now l nd : one_per_key l → observeFromStaging now l nd = set_clock (observe_all now (staged l) (n_clock nd)) nd.
Proof.
  intros Hnd. unfold observeFromStaging, observe_all. rewrite staged_max_eq by done.
  destruct (max_clock (staged l)) as [v|]; [by rewrite hlcObserveSQL_eq|by destruct nd].
Qed.
End refine.
Section converge.
Context (same_key : KeyValues → KeyValues → bool) (same_key_eq : ∀ k k', same_key k k' = true ↔ k = k').
Context (node_gt : string → string → bool) (M : gset string) (HO : orders node_gt M) (ref : TableRef).
#[local] Instance members_by_collation : NodeOrder := members_order node_gt M HO.

Lemma my_stage_eq errs cyclic nid ts now l nd nd' l' :
  one_per_key l → signed M (n_reg nd) l →
  my_stageUpsertCluster same_key node_gt errs cyclic ref nid ts now l nd = inr (nd', l') →
  nd' = upsert_phase now (staged l) nd ∧ l' = clusterMarkWinners node_gt (n_reg nd) l.
Proof.
  intros Hnd Hsig. unfold my_stageUpsertCluster, tx_step. destruct (errs 0), (errs 1), (errs 2), (errs 3); try done.
  intros [= <- <-]. split; [|done]. unfold clusterAliveUpsert, clusterRegUpsert.
  rewrite upsert_fold by by apply won_keys. rewrite register_fold by by apply won_keys.
  rewrite observe_eq by (unfold clusterMarkWinners; by rewrite <-list_fmap_compose).
  rewrite !(staged_won node_gt M HO) by done. by rewrite staged_marked.
Qed.

Lemma my_delete_eq errs cyclic nid ts now now0 l nd nd' l' :
  one_per_key l → signed M (n_reg nd) l →
  my_deleteTombstonesCluster same_key errs cyclic ref nid ts now (Some (clusterMarkWinners node_gt (n_reg nd) l))
    (upsert_phase now0 (staged l) nd) = inr (nd', l') →
  nd' = delete_phase now (staged l) (upsert_phase now0 (staged l) nd).
Proof.
  intros Hnd Hsig. unfold my_deleteTombstonesCluster, tx_step. destruct (errs 4), (errs 5), (errs 6); try done.
  intros [= <- _]. unfold clusterTombstoneDelete, clusterRegUpsert.
  rewrite delete_fold by by apply won_keys. rewrite register_fold by by apply won_keys.
  rewrite observe_eq by (unfold clusterMarkWinners; by rewrite <-list_fmap_compose).
  rewrite !(staged_won node_gt M HO) by done. rewrite staged_marked, <-(winners_later now0). done.
Qed.

Lemma reread_eq keys nd stg :
  stg ≡ₚ versionedReread keys nd → one_per_key stg ∧ staged stg = rereadVersioned keys nd.
Proof.
  intros Hp. assert (one_per_key stg) as Hnd.
  { rewrite Hp. unfold versionedReread. rewrite <-list_fmap_compose.
    rewrite (list_fmap_ext _ fst) by (by intros ? [k [v d]]).
    apply (sublist_NoDup _ _ (NoDup_fst_map_to_list (n_reg nd))). apply fmap_sublist, sublist_filter. }
  split; [done|]. apply map_eq. intros k. apply option_eq. intros e. rewrite staged_Some by done.
  unfold rereadVersioned. rewrite map_lookup_imap. setoid_rewrite Hp. unfold versionedReread. split.
  - intros (s & ([k' [v d]] & -> & [Hk Hin%elem_of_map_to_list]%list_elem_of_filter)%list_elem_of_fmap & [= <- <-]).
    rewrite Hin. simpl. by rewrite decide_True.
  - intros ([v d] & Hr & He)%bind_Some. case_decide as Hk; [|done]. injection He as <-.
    eexists. split; [apply list_elem_of_fmap; exists (k, (v, d)); split; [done|]|done].
    apply list_elem_of_filter. split; [done|]. by apply elem_of_map_to_list.
Qed.

(** ** Simulation *)

Definition stg_sim (o : option (list stg_row)) (o' : option (gmap KeyValues entry)) : Prop :=
  match o, o' with
  | None, None => True
  | Some l, Some g => one_per_key l ∧ staged l = g
  | _, _ => False
  end.

Definition pass_sim (o : option my_pass) (o' : option pass) : Prop :=
  match o, o' with
  | None, None => True
  | Some p, Some q => mp_ids p = p_ids q ∧ mp_applied p = p_applied q ∧ stg_sim (mp_stg p) (p_stg q)
  | _, _ => False
  end.

Record mesh_sim (m : my_mesh) (w : mesh) : Prop := {
  ms_nodes : mm_nodes m = m_nodes w;
  ms_pass e : pass_sim (mm_pass m !! e) (m_pass w !! e)
}.

Lemma sim_node n nd m w : mesh_sim m w → mesh_sim (set_member n nd m) (set_node n nd w).
Proof. intros [H1 H2]. split; simpl; [by rewrite H1|done]. Qed.

Lemma sim_edge e p q m w :
  mesh_sim m w → pass_sim (Some p) (Some q) → mesh_sim (set_edge e p m) (set_pass e q w).
Proof.
  intros [H1 H2] Hp. split; simpl; [done|]. intros e'. destruct (decide (e' = e)) as [->|Hne].
  - by rewrite !lookup_insert_eq.
  - rewrite !lookup_insert_ne by done. apply H2.
Qed.

Lemma sim_pass_inv m w e p : mesh_sim m w → mm_pass m !! e = Some p →
  ∃ q, m_pass w !! e = Some q ∧ mp_ids p = p_ids q ∧ mp_applied p = p_applied q ∧ stg_sim (mp_stg p) (p_stg q).
Proof. intros [_ H] Hp. specialize (H e). rewrite Hp in H. destruct (m_pass w !! e) as [q|]; [|done]. by exists q. Qed.

(** What the invariant of the mesh says of the versions: they carry ids of members. *)
Lemma MInv_signed R0 H m w a b p stg nd :
  mesh_sim m w → MInv R0 H w → dom (mm_nodes m) = M →
  mm_nodes m !! b = Some nd → mm_pass m !! (a, b) = Some p → mp_stg p = Some stg → signed M (n_reg nd) stg.
Proof.
  intros Hw HI HM Hnd Hp Hstg. pose proof (ms_nodes _ _ Hw) as Hn.
  assert (∀ k (v : version), is_Some (H !! (k, v)) → v.2 ∈ M) as Hin.
  { intros k v Hh. destruct (mi_fresh _ _ _ HI k v Hh) as (nd' & Hv & _). rewrite <-HM, Hn. by eapply elem_of_dom_2. }
  split.
  - intros k v d Hr. apply (Hin k). rewrite Hn in Hnd. rewrite (nk_hist _ _ _ (mi_node _ _ _ HI _ _ Hnd) _ _ _ Hr). by eexists.
  - intros s Hs. destruct (sim_pass_inv m w (a, b) p Hw Hp) as (q & Hq & _ & _ & E3). rewrite Hstg in E3.
    destruct (p_stg q) as [g|] eqn:Hg; [|done]. destruct E3 as [Hk E3].
    destruct (mi_pass _ _ _ HI _ _ _ Hq) as (_ & ndx & ndy & _ & _ & Hpo).
    pose proof (ps_stg _ _ _ _ _ _ Hpo _ Hg) as Hok.
    apply (Hin (sg_key s)). eexists. apply (Hok (sg_key s) (mkEntry (sg_ver s) (sg_deleted s) (sg_row s))).
    rewrite <-E3. apply staged_Some; [done|]. by exists s.
Qed.

(** Every step of the MySQL cluster that collects no tombstone is a step of the mesh or none. *)
Lemma my_step_sim R0 H kd m m' w :
  my_step same_key node_gt ref kd m m' → kd = Undisturbed → mesh_sim m w → MInv R0 H w → dom (mm_nodes m) = M →
  ∃ w', rtc atomic_step w w' ∧ mesh_sim m' w'.
Proof.
  intros Hs Hkd Hw HI HM. pose proof (ms_nodes _ _ Hw) as Hn. pose proof (MInv_signed R0 H m w) as Hsig. destruct Hs as
    [m n nd ts ch Hm|m n nd ts Hm|m a b nd ids Hm Hab Hb Hids|m a b nd p stg Hm Hp Hstg|m a b nd p stg errs cyclic ts now nd' stg' Hm Hp Hstg Hr
    |m a b nd p stg errs cyclic ts now ts' now' nd1 stg1 nd2 stg2 Hm Hp Hstg Hr Hd|m a b nd p Hm Hp Ha|m n nd Hm];
    pose proof Hm as Hm'; rewrite Hn in Hm'.
  - eexists. split; [apply rtc_once; by apply (a_write _ n nd ts ch)|]. rewrite write_row_local by done. by apply sim_node.
  - eexists. split; [apply rtc_once; by apply (a_tick _ n nd ts)|]. rewrite hlcTickBody_eq. by apply sim_node.
  - rewrite Hn in Hb. eexists. split; [apply rtc_once; by apply (a_read _ a b nd ids)|]. by apply sim_edge.
  - destruct (sim_pass_inv m w (a, b) p Hw Hp) as (q & Hq & E1 & _ & _).
    eexists. split; [apply rtc_once; by apply (a_stage _ a b nd q)|]. apply sim_edge; [done|]. rewrite E1 in Hstg. simpl. rewrite E1.
    split; [done|]. split; [done|]. by apply reread_eq.
  - specialize (Hsig a b p stg nd Hw HI HM Hm Hp Hstg).
    destruct (sim_pass_inv m w (a, b) p Hw Hp) as (q & Hq & _ & _ & E3). rewrite Hstg in E3.
    destruct (p_stg q) as [g|] eqn:Hg; [|done]. destruct E3 as [Hnd <-]. apply my_stage_eq in Hr as [-> _]; [|done..].
    eexists. split; [apply rtc_once; by apply (a_upsert _ a b nd q (staged stg) now)|]. by apply sim_node.
  - specialize (Hsig a b p stg nd Hw HI HM Hm Hp Hstg).
    destruct (sim_pass_inv m w (a, b) p Hw Hp) as (q & Hq & E1 & _ & E3). rewrite Hstg in E3.
    destruct (p_stg q) as [g|] eqn:Hg; [|done]. destruct E3 as [Hnd <-]. apply my_stage_eq in Hr as [-> ->]; [|done..].
    apply my_delete_eq in Hd as ->; [|done..].
    eexists. split; [apply rtc_once; by apply (a_apply _ a b nd q (staged stg) now now')|]. apply sim_edge; [by apply sim_node|].
    simpl. by rewrite E1.
  - destruct (sim_pass_inv m w (a, b) p Hw Hp) as (q & Hq & E1 & E2 & _).
    eexists. split; [apply rtc_once; apply (a_confirm _ a b nd q); [done|done|by rewrite <-E2]|]. rewrite E1. by apply sim_node.
  - exists w. split; [done|]. unfold gc_kind in Hkd. destruct (decide (n_reg (GCTombstones nd) = n_reg nd)) as [Hg|]; [|done].
    assert (my_GCTombstones true nd = nd) as ->.
    { unfold my_GCTombstones, set_reg. destruct nd. unfold GCTombstones in Hg. simpl in *. by rewrite Hg. }
    destruct Hw as [H1 H2]. split; simpl; [by rewrite insert_id|done].
Qed.

Lemma my_step_members kd m m' : my_step same_key node_gt ref kd m m' → dom (mm_nodes m') = dom (mm_nodes m).
Proof.
  assert (∀ (m : my_mesh) n nd nd', mm_nodes m !! n = Some nd → dom (<[n := nd']> (mm_nodes m)) = dom (mm_nodes m)) as Hd.
  { intros m0 n nd nd' Hn. rewrite dom_insert_lookup_L; [done|by eexists]. }
  by destruct 1; simpl; try eapply Hd.
Qed.

Lemma my_steps_sim R0 H m m' w :
  rtc (my_step same_key node_gt ref Undisturbed) m m' → mesh_sim m w → MInv R0 H w → dom (mm_nodes m) = M →
  ∃ w' H', mesh_sim m' w' ∧ MInv R0 H' w'.
Proof.
  intros Hr. revert w H. induction Hr as [m|m1 m2 m3 Hs _ IH]; intros w H Hw HI HM; [by exists w, H|].
  destruct (my_step_sim R0 H Undisturbed m1 m2 w Hs eq_refl Hw HI HM) as (w1 & Hs1 & Hw1).
  destruct (atomic_steps_inv R0 H w w1 Hs1 HI) as [H1 HI1]. apply (IH w1 H1); [done..|].
  by rewrite (my_step_members _ _ _ Hs).
Qed.
End converge.

(** C19: Convergence of a MySQL cluster in runs that collect no tombstone. The key columns are
    compared exactly, and the collation of rc_node tells apart and orders the ids of the
    members. From members with equal rows, under application
    writes, re-reads in any order, phases that fail at any statement, abandoned, late and
    repeated passes and any wall clocks: as soon as every edge has consumed its deltas, all
    members hold the same rows and versions. *)
Theorem my_mesh_converges (same_key : KeyValues → KeyValues → bool) (node_gt : string → string → bool) (ref : TableRef)
    (R0 : gmap KeyValues Row) (m m' : my_mesh) (a b : string) (nda ndb : node) :
  (∀ k k', same_key k k' = true ↔ k = k') →
  orders node_gt (dom (mm_nodes m)) →
  mm_pass m = ∅ →
  (∀ n nd, mm_nodes m !! n = Some nd → n_rows nd = R0 ∧ n_reg nd = ∅ ∧ n_delta nd = ∅ ∧ n_track nd = ∅) →
  rtc (my_step same_key node_gt ref Undisturbed) m m' →
  (∀ x y ndx, x ≠ y → mm_nodes m' !! x = Some ndx → is_Some (mm_nodes m' !! y) → unconsumed ndx y = []) →
  mm_nodes m' !! a = Some nda → mm_nodes m' !! b = Some ndb →
  n_rows nda = n_rows ndb ∧ n_reg nda = n_reg ndb.
Proof.
  intros Hk HO Hp Hn Hr Hq Ha Hb. pose (w := mkMesh (mm_nodes m) ∅). pose (NO := members_order node_gt _ HO).
  assert (mesh_sim m w) as Hw by (split; [done|]; intros e; by rewrite Hp, !lookup_empty).
  destruct (my_steps_sim same_key Hk node_gt _ HO ref R0 ∅ m m' w Hr Hw) as (w' & H & [E _] & HI);
    [by apply start_inv; split|done|].
  rewrite E in Ha, Hb. apply (quiescent_agree R0 H w' a b nda ndb); [exact HI| |done..].
  intros x y ndx. rewrite <-E. apply Hq.
Qed.

(** ** Node ids that differ in case only

    The register's rc_node has the default collation of the database, which on a stock
    server ignores case. *)

Definition lower (c : ascii) : ascii :=
  let n := nat_of_ascii c in if (65 <=? n) && (n <=? 90) then ascii_of_nat (n + 32) else c.
Fixpoint lower_string (s : string) : string :=
  match s with EmptyString => EmptyString | String c s => String (lower c) (lower_string s) end.
Definition ci_gt (a b : string) : bool := bool_decide (str_lt (lower_string b) (lower_string a)).

(** Two members stamp different values with one clock reading: neither replaces the other. *)
Lemma case_insensitive_nodes_diverge (k : KeyValues) (c : Z * Z) (ra rb : Row) :
  let stg nid r := [mkStg k r (c, nid) false false] in
  (∀ errs cyclic ref ts now nd nd' l, n_reg nd !! k = Some ((c, "a"), false) →
     my_stageUpsertCluster (λ x y, bool_decide (x = y)) ci_gt errs cyclic ref "a" ts now (stg "A" ra) nd = inr (nd', l) → n_rows nd' = n_rows nd) ∧
  (∀ errs cyclic ref ts now nd nd' l, n_reg nd !! k = Some ((c, "A"), false) →
     my_stageUpsertCluster (λ x y, bool_decide (x = y)) ci_gt errs cyclic ref "A" ts now (stg "a" rb) nd = inr (nd', l) → n_rows nd' = n_rows nd).
Proof.
  assert (∀ x y, lower_string x = lower_string y → ci_gt x y = false) as Hci.
  { intros x y E. unfold ci_gt. rewrite E. apply bool_decide_eq_false. rewrite str_lt_le_ne. naive_solver. }
  assert (∀ x y nid r errs cyclic ref ts now nd nd' l, lower_string x = lower_string y → n_reg nd !! k = Some ((c, y), false) →
    my_stageUpsertCluster (λ x y, bool_decide (x = y)) ci_gt errs cyclic ref nid ts now [mkStg k r (c, x) false false] nd = inr (nd', l) →
    n_rows nd' = n_rows nd) as H.
  2: { split; intros errs cyclic ref ts now nd nd' l Hk Hr;
       [by apply (H "A" "a" "a" ra errs cyclic ref ts now nd nd' l)|by apply (H "a" "A" "A" rb errs cyclic ref ts now nd nd' l)]. }
  intros x y nid r errs cyclic ref ts now nd nd' l E Hk. unfold my_stageUpsertCluster, tx_step.
  assert (clusterMarkWinners ci_gt (n_reg nd) [mkStg k r (c, x) false false] = [mkStg k r (c, x) false false]) as ->.
  { unfold clusterMarkWinners. simpl. rewrite Hk. simpl. rewrite (Hci x y E), !andb_false_r.
    rewrite (bool_decide_eq_false_2 (c.1 < c.1)%Z), (bool_decide_eq_false_2 (c.2 < c.2)%Z) by lia. simpl. by rewrite andb_false_r. }
  destruct (errs 0), (errs 1), (errs 2), (errs 3); try done. intros [= <- _]. done.
Qed.
(** ** Examples *)

Section example.
Definition eq_key (x y : KeyValues) : bool := bool_decide (x = y).
Definition ex_ref : TableRef := mkRef "shop" "users".
Abbreviation ex_step := (my_step eq_key ci_gt ex_ref Undisturbed).

(** A pass of the edge from [a] to [b] without failures. *)
Definition my_run_pass (a b : string) (ts now : Z) (m : my_mesh) : my_mesh :=
  match mm_nodes m !! a, mm_nodes m !! b with
  | Some nda, Some ndb =>
      let ids := unconsumed nda b in
      let stg := versionedReread (omap (λ i, n_delta nda !! i) ids) nda in
      match my_stageUpsertCluster eq_key ci_gt (λ _, None) false ex_ref b ts now stg ndb with
      | inr (nd1, stg1) =>
          match my_deleteTombstonesCluster eq_key (λ _, None) false ex_ref b ts now (Some stg1) nd1 with
          | inr (nd2, _) =>
              set_member a (confirm b ids nda)
                (set_edge (a, b) (mkMyPass ids (Some stg) true)
                  (set_member b nd2 (set_edge (a, b) (mkMyPass ids (Some stg) false) (set_edge (a, b) (mkMyPass ids None false) m))))
          | inl _ => m
          end
      | inl _ => m
      end
  | _, _ => m
  end.

Lemma my_run_pass_steps a b ts now m : a ≠ b → rtc ex_step m (my_run_pass a b ts now m).
Proof.
  intros Hab. unfold my_run_pass. destruct (mm_nodes m !! a) as [nda|] eqn:Ha; [|done].
  destruct (mm_nodes m !! b) as [ndb|] eqn:Hb; [|done].
  destruct (my_stageUpsertCluster _ _ _ _ _ _ _ _ _ ndb) as [e|[nd1 stg1]] eqn:Hs; [done|].
  destruct (my_deleteTombstonesCluster _ _ _ _ _ _ _ _ nd1) as [e|[nd2 stg2]] eqn:Hd; [done|].
  eapply rtc_l; [by apply (y_read _ _ _ m a b nda (unconsumed nda b))|].
  eapply rtc_l; [eapply (y_stage _ _ _ _ a b nda); [done|by apply lookup_insert_eq|reflexivity]|]. cbn [mp_ids].
  eapply rtc_l; [eapply (y_apply _ _ _ _ a b ndb); [done|by apply lookup_insert_eq|reflexivity|exact Hs|exact Hd]|]. cbn [mp_ids].
  apply rtc_once. eapply (y_confirm _ _ _ _ a b nda (mkMyPass (unconsumed nda b) _ true)); [|by apply lookup_insert_eq|done].
  simpl. by rewrite lookup_insert_ne.
Qed.

Definition my_run_write (n : string) (ts : Z) (ch : change) (m : my_mesh) : my_mesh :=
  match mm_nodes m !! n with Some nd => set_member n (write_row eq_key false n ts ch nd) m | None => m end.

Lemma my_run_write_step n ts ch m : rtc ex_step m (my_run_write n ts ch m).
Proof. unfold my_run_write. destruct (mm_nodes m !! n) as [nd|] eqn:Hn; [|done]. apply rtc_once. by apply y_write. Qed.

Definition ex_three : my_mesh := mkMyMesh {[ "a" := Mesh.member; "b" := Mesh.member; "c" := Mesh.member ]} ∅.

(** A collation that ignores case orders these members. *)
Lemma ex_orders : orders ci_gt (dom (mm_nodes ex_three)).
Proof.
  assert (dom (mm_nodes ex_three) = {[ "a"; "b"; "c" ]}) as -> by (unfold ex_three; simpl; set_solver).
  assert (∀ x, x ∈ ({[ "a"; "b"; "c" ]} : gset string) → x = "a" ∨ x = "b" ∨ x = "c") as Hx by set_solver.
  split.
  - by intros x [->|[->| ->]]%Hx.
  - intros x y z Hx1 Hx2 Hx3. revert Hx1 Hx2 Hx3. intros [->|[->| ->]]%Hx [->|[->| ->]]%Hx [->|[->| ->]]%Hx; vm_compute; done.
  - intros x y. intros [->|[->| ->]]%Hx [->|[->| ->]]%Hx Hne; vm_compute; auto; done.
Qed.

(** [c] updates the row, [a] deletes it later; every edge with deltas is drained. *)
Definition ex_drained : my_mesh :=
  my_run_pass "c" "a" 7 7 (my_run_pass "a" "c" 6 6 (my_run_pass "c" "b" 5 5 (my_run_pass "a" "b" 3 3
    (my_run_write "a" 2 (MDelete key1) (my_run_write "c" 1 (MUpdate key1 key1 new_row) ex_three))))).

Lemma my_mesh_converges_witness :
  ∃ nda ndb, mm_nodes ex_drained !! "a" = Some nda ∧ mm_nodes ex_drained !! "b" = Some ndb ∧
    n_rows nda = n_rows ndb ∧ n_reg nda = n_reg ndb.
Proof.
  destruct (mm_nodes ex_drained !! "a") as [nda|] eqn:Ea.
  2: { exfalso. revert Ea. vm_compute. discriminate. }
  destruct (mm_nodes ex_drained !! "b") as [ndb|] eqn:Eb.
  2: { exfalso. revert Eb. vm_compute. discriminate. }
  exists nda, ndb. split; [reflexivity|]. split; [reflexivity|].
  apply (my_mesh_converges eq_key ci_gt ex_ref {[ key1 := old_row ]} ex_three ex_drained "a" "b" nda ndb).
  - intros k k'. apply bool_decide_eq_true.
  - exact ex_orders.
  - reflexivity.
  - intros n nd. simpl. intros [[_ <-]|[_ [[_ <-]|[_ [_ <-]%lookup_singleton_Some]]%lookup_insert_Some]]%lookup_insert_Some; repeat split.
  - unfold ex_drained.
    etransitivity; [apply my_run_write_step|]. etransitivity; [apply my_run_write_step|].
    etransitivity; [apply (my_run_pass_steps "a" "b"); discriminate|]. etransitivity; [apply (my_run_pass_steps "c" "b"); discriminate|].
    etransitivity; [apply (my_run_pass_steps "a" "c"); discriminate|]. apply (my_run_pass_steps "c" "a"). discriminate.
  - apply (decide_quiescent (mkMesh (mm_nodes ex_drained) ∅)). apply (bool_decide_unpack _). vm_compute. exact I.
  - exact Ea.
  - exact Eb.
Defined.
End example.
End MyMesh.
