(* ===== verification/MyPlan.v ===== *)
(** * Chunk planning of the MySQL engine ([internal/engine/mysql/chunk.go])

    Where Postgres numbers the rows of a table in one query, MySQL walks the key: each query
    skips [n] rows from the last boundary and returns the next. Queries see different states of
    a table that is written to, and may fail; the walk gives up after [maxChunks] boundaries.
    As in [Plan], the order of keys is the server's. *)

From S2P Require Import Prelude Engine Calls ApplyTx Plan MySession MyApply.
Import ApplyTx Plan MyApply.

Module MyPlan.

Definition maxChunks : Z := 1000000.

(** [buildKeysetRanges]: chunk [i] runs from bound [i] to bound [i + 1], the last has no end. *)
Definition buildKeysetRanges (t : TableRef) (lo : option KeyValues) (boundaries : list KeyValues) : list Chunk :=
  let bounds := lo :: (Some <$> boundaries) in
  imap (λ i b, mkChunk t ChunkKeyset b (default None (bounds !! S i))) bounds.

Section plan.
Context (klt : KeyValues → KeyValues → Prop) `{!RelDecision klt}.

(** [SELECT key FROM t WHERE key >= cur ORDER BY key LIMIT 1 OFFSET n] on the ordered keys. *)
Definition next_boundary (n : nat) (cur : option KeyValues) (keys : list KeyValues) : option KeyValues :=
  filter (in_range klt cur None) keys !! n.

(** [keysetBoundaries]. [view i]: what query [i] finds, the keys in order or an error. *)
Fixpoint boundary_walk (fuel : nat) (t : TableRef) (view : nat → result (list KeyValues)) (n : nat)
    (cur : option KeyValues) (boundaries : list KeyValues) : option (result (list KeyValues)) :=
  match fuel with
  | 0 => None
  | S fuel =>
      match view (length boundaries) with
      | inl e => Some (inl (Errorf ("mysql: discover keyset boundaries for " +:+ ref_string t) e))
      | inr keys =>
          match next_boundary n cur keys with
          | None => Some (inr boundaries)
          | Some next =>
              let boundaries := boundaries ++ [next] in
              if decide (maxChunks < Z.of_nat (length boundaries))%Z
              then Some (inl (Failure ("mysql: table " +:+ ref_string t +:+ " produced more than " +:+
                                       pretty maxChunks +:+ " chunks; raise chunk size")))
              else boundary_walk fuel t view n (Some next) boundaries
          end
      end
  end.

(** [PlanChunks], with the table's metadata or the error of reading it. *)
Definition PlanChunks (fuel : nat) (meta : result Table) (view : nat → result (list KeyValues)) (t : TableRef)
    (opts : ChunkOptions) : option (result (list Chunk)) :=
  match meta with
  | inl e => Some (inl e)
  | inr tbl =>
      match captureColsFor tbl with
      | [] => Some (inl (Failure ("mysql: plan chunks: table " +:+ ref_string t +:+ " has no usable key")))
      | _ =>
          let n := if decide (opt_TargetRows opts <= 0)%Z then defaultChunkRows else opt_TargetRows opts in
          match boundary_walk fuel t view (Z.to_nat n) (opt_Lo opts) [] with
          | None => None
          | Some (inl e) => Some (inl e)
          | Some (inr boundaries) => Some (inr (buildKeysetRanges t (opt_Lo opts) boundaries))
          end
      end
  end.

(** ** The ranges *)

Lemma buildKeysetRanges_from t lo bs : buildKeysetRanges t lo bs = buildKeysetRangesFrom t lo bs.
Proof.
  unfold buildKeysetRanges. revert lo. induction bs as [|b bs IH]; intros lo; [done|].
  cbn [fmap list_fmap imap buildKeysetRangesFrom]. f_equal. rewrite <-IH. simpl. f_equal.
Qed.

(** ** Termination *)

(** The bound on the number of chunks bounds the walk, whatever the queries find. *)
Lemma boundary_walk_total fuel t view n cur bs :
  (Z.of_nat (length bs) <= maxChunks)%Z → Z.to_nat maxChunks + 1 < fuel + length bs →
  is_Some (boundary_walk fuel t view n cur bs).
Proof.
  revert cur bs. induction fuel as [|fuel IH]; intros cur bs Hb Hf; [unfold maxChunks in *; lia|].
  cbn [boundary_walk]. destruct (view (length bs)) as [e|keys]; [by eexists|].
  destruct (next_boundary n cur keys) as [next|]; [|by eexists].
  cbv zeta. rewrite length_app. cbn [length]. case_decide; [by eexists|].
  apply IH; rewrite length_app; cbn [length]; lia.
Qed.

(** ** Boundaries increase *)

Context (klt_asym : ∀ a b, klt a b → ¬ klt b a).
Context (klt_cotrans : ∀ a b c, klt a b → klt a c ∨ klt c b).

Lemma sorted_filter {A} (R : relation A) (P : A → Prop) `{!∀ x, Decision (P x)} (l : list A) :
  StronglySorted R l → StronglySorted R (filter P l).
Proof.
  induction 1 as [|x l Hs IH Hx]; [constructor|]. rewrite filter_cons. case_decide; [|done].
  constructor; [done|]. apply Forall_forall. intros y [_ Hy]%list_elem_of_filter.
  rewrite Forall_forall in Hx. by apply Hx.
Qed.

(** The next boundary is past the last one. *)
Lemma next_boundary_gt n cur keys b :
  0 < n → StronglySorted klt keys → next_boundary n cur keys = Some b →
  b ∈ keys ∧ match cur with None => True | Some c => klt c b end.
Proof.
  intros Hn Hs Hb. unfold next_boundary in Hb.
  pose proof (sorted_filter klt (in_range klt cur None) keys Hs) as Hsf.
  pose proof (list_elem_of_lookup_2 _ _ _ Hb) as [_ Hin]%list_elem_of_filter. split; [done|].
  destruct cur as [c|]; [|done]. set (l := filter (in_range klt (Some c) None) keys) in *.
  assert (∀ a, a ∈ l → ¬ klt a c) as Hge by by intros a [[Ha _] _]%list_elem_of_filter.
  destruct Hsf as [|a l' Hl Ha]; [done|]. destruct n as [|n]; [lia|]. simpl in Hb.
  rewrite Forall_forall in Ha. specialize (Ha b (list_elem_of_lookup_2 _ _ _ Hb)).
  destruct (klt_cotrans a b c Ha) as [H|H]; [|done]. by destruct (Hge a (list_elem_of_here _ _)).
Qed.

(** The boundaries found so far: in strict order, from [lo] on, [cur] the last of them. *)
Record walked (lo cur : option KeyValues) (bs : list KeyValues) : Prop := {
  wk_sorted : StronglySorted klt bs;
  wk_above : ∀ b, b ∈ bs → in_range klt lo None b;
  wk_last : match last bs with None => cur = lo | Some b => cur = Some b end
}.

Lemma walked_below lo cur bs b :
  walked lo cur bs → b ∈ bs → ∃ c, cur = Some c ∧ ¬ klt c b.
Proof.
  intros [Hs _ Hl] Hb. destruct (last bs) as [c|] eqn:E; [|by apply last_None in E as ->; apply elem_of_nil in Hb].
  exists c. split; [done|]. apply last_Some in E as [bs' ->].
  intros Hcb. apply elem_of_app in Hb as [Hb|Hb%list_elem_of_singleton]; [|subst; by apply (klt_asym c c)].
  apply StronglySorted_app in Hs as (Hs & _ & _). apply (klt_asym c b Hcb), Hs; [done|by apply list_elem_of_singleton].
Qed.

Lemma walked_snoc lo cur bs b :
  walked lo cur bs → in_range klt lo None b → match cur with None => True | Some c => klt c b end →
  walked lo (Some b) (bs ++ [b]).
Proof.
  intros Hw Hlo Hb. split.
  - apply StronglySorted_app. split_and!; [|apply Hw|by repeat constructor].
    intros b' b'' Hb' ->%list_elem_of_singleton. destruct (walked_below _ _ _ _ Hw Hb') as (c & -> & Hc).
    destruct (klt_cotrans c b b' Hb) as [H|H]; [|done]. done.
  - intros b' [Hb'|Hb'%list_elem_of_singleton]%elem_of_app; [by apply Hw|by subst].
  - by rewrite last_snoc.
Qed.

Lemma boundary_walk_walked fuel t view n lo cur bs bs' :
  0 < n → (∀ i keys, view i = inr keys → StronglySorted klt keys) → walked lo cur bs →
  boundary_walk fuel t view n cur bs = Some (inr bs') → ∃ cur', walked lo cur' bs'.
Proof.
  intros Hn Hv. revert cur bs. induction fuel as [|fuel IH]; intros cur bs Hw; [done|].
  cbn [boundary_walk]. destruct (view (length bs)) as [e|keys] eqn:Ev; [done|].
  destruct (next_boundary n cur keys) as [b|] eqn:Eb; [|intros [= <-]; by exists cur].
  cbv zeta. case_decide; [done|]. apply IH.
  destruct (next_boundary_gt n cur keys b Hn (Hv _ _ Ev) Eb) as [_ Hgt].
  apply (walked_snoc lo cur); [done| |done].
  unfold next_boundary in Eb. apply list_elem_of_lookup_2, list_elem_of_filter in Eb as [Hin _].
  destruct Hw as [_ Hab Hl]. destruct (last bs) as [c|] eqn:E; [|by subst cur]. subst cur.
  apply last_Some in E as [bs0 ->]. destruct (Hab c ltac:(set_solver)) as [Hc _].
  split; [|done]. destruct lo as [l|]; [|done]. intros Hbl.
  destruct (klt_cotrans b l c Hbl) as [H1|H1]; [|done]. by destruct Hin.
Qed.

(** The number of rows per chunk is positive. *)
Lemma target_pos opts :
  0 < Z.to_nat (if decide (opt_TargetRows opts <= 0)%Z then defaultChunkRows else opt_TargetRows opts).
Proof. apply (rows_per_chunk_pos opts). Qed.

(** Planning terminates and partitions the key space whatever happens to the table in the
    meantime: [maxChunks + 2] queries suffice, and when they all succeed and the plan is not
    refused as too long, every key from the resume bound on falls in exactly one chunk and no
    chunk reaches below the bound, although each query saw another state of the table. *)
Theorem PlanChunks_partition (fuel : nat) (meta : result Table) (view : nat → result (list KeyValues)) (t : TableRef) (opts : ChunkOptions) :
  Z.to_nat maxChunks + 1 < fuel → (∀ i keys, view i = inr keys → StronglySorted klt keys) →
  ∃ r, PlanChunks fuel meta view t opts = Some r ∧ ∀ chs, r = inr chs →
    plan_ok t (opt_Lo opts) chs ∧
    (∀ k, in_range klt (opt_Lo opts) None k →
       ∃ i ch, chs !! i = Some ch ∧ in_range klt (chunk_Lo ch) (chunk_Hi ch) k ∧
         ∀ j ch', chs !! j = Some ch' → in_range klt (chunk_Lo ch') (chunk_Hi ch') k → j = i) ∧
    (∀ ch k, ch ∈ chs → in_range klt (chunk_Lo ch) (chunk_Hi ch) k → in_range klt (opt_Lo opts) None k).
Proof.
  intros Hf Hv. unfold PlanChunks. destruct meta as [e|tbl]; [by eexists|].
  destruct (captureColsFor tbl) as [|cc ccs]; [by eexists|]. cbv zeta.
  set (n := Z.to_nat _). pose proof (target_pos opts : 0 < n) as Hn.
  destruct (boundary_walk_total fuel t view n (opt_Lo opts) []) as [r Hr]; [cbn [length]; unfold maxChunks; lia|cbn [length]; lia|].
  rewrite Hr. destruct r as [e|bs]; [by eexists|]. eexists. split; [done|]. intros chs [= <-].
  rewrite buildKeysetRanges_from.
  destruct (boundary_walk_walked fuel t view n (opt_Lo opts) (opt_Lo opts) [] bs) as [cur [Hs Hab _]]; [done..| |done|].
  { split; [constructor|by intros b Hb%not_elem_of_nil|done]. }
  assert (StronglySorted (kle klt) bs) as Hs'.
  { clear -Hs klt_asym. induction Hs as [|x l Hs IH Hx]; constructor; [done|].
    eapply Forall_impl; [apply Hx|]. intros y. apply klt_asym. }
  split_and!; [apply buildKeysetRangesFrom_ok| |].
  - intros k Hk. destruct (build_start klt t (opt_Lo opts) bs k Hk) as (i & ch & Hi & Hin).
    exists i, ch. split_and!; [done..|]. intros j ch' Hj Hin'. destruct (lt_eq_lt_dec i j) as [[Hlt| ->]|Hlt]; [|done|]; exfalso.
    + by apply (build_disjoint klt klt_asym klt_cotrans t (opt_Lo opts) bs i j ch ch' k).
    + by apply (build_disjoint klt klt_asym klt_cotrans t (opt_Lo opts) bs j i ch' ch k).
  - intros ch k [j Hj]%list_elem_of_lookup Hin. by apply (build_above klt klt_asym klt_cotrans t (opt_Lo opts) bs j ch k).
Qed.

(** ** The walk finds the boundaries of [Plan] *)

Lemma every_nth_step n i l :
  every_nth n i l = match l !! i with None => [] | Some k => k :: every_nth n (n - 1) (drop (S i) l) end.
Proof.
  revert i. induction l as [|x l IH]; intros [|i]; try done. apply IH.
Qed.

Lemma keysetBoundaries_step n l :
  0 < n →
  keysetBoundaries n l = match l !! n with None => [] | Some k => k :: keysetBoundaries n (drop n l) end.
Proof.
  intros Hn. destruct n as [|n]; [lia|]. destruct l as [|x l]; [done|]. cbn [keysetBoundaries lookup list_lookup drop].
  rewrite every_nth_step. replace (S n - 1) with n by lia.
  destruct (l !! n) as [k|] eqn:E; [|done]. f_equal. rewrite (drop_S l k n) by done.
  cbn [keysetBoundaries]. by replace (S n - 1) with n by lia.
Qed.

(** In a strictly sorted list the keys from the [n]-th on are those at or above it. *)
Lemma filter_ge_drop l n b :
  StronglySorted klt l → l !! n = Some b → filter (in_range klt (Some b) None) l = drop n l.
Proof.
  intros Hs. revert n. induction Hs as [|x l Hs IH Hx]; intros n Hb; [done|]. rewrite Forall_forall in Hx.
  destruct n as [|n].
  - injection Hb as ->. cbn [drop]. rewrite filter_cons_True by (split; [intros H; by apply (klt_asym b b)|done]). f_equal.
    apply filter_all. intros y Hy. split; [|done]. by apply klt_asym, Hx.
  - cbn [lookup list_lookup] in Hb. cbn [drop]. rewrite filter_cons_False; [by apply IH|].
    intros [H _]. apply H, Hx. by eapply list_elem_of_lookup_2.
Qed.

Lemma filter_from lo b (keys : list KeyValues) :
  in_range klt lo None b →
  filter (in_range klt (Some b) None) (filter (in_range klt lo None) keys) = filter (in_range klt (Some b) None) keys.
Proof.
  intros [Hb _]. rewrite list_filter_filter. apply list_filter_iff. intros k. split; [tauto|].
  intros [Hk _]. split; [done|]. split; [|done]. destruct lo as [l|]; [|done]. by apply (kle_trans klt klt_cotrans l b k).
Qed.

Definition too_long {A} (t : TableRef) : result A :=
  inl (Failure ("mysql: table " +:+ ref_string t +:+ " produced more than " +:+
                pretty maxChunks +:+ " chunks; raise chunk size")).

(** Over a table that stays as it is: each boundary takes a query. *)
Lemma boundary_walk_stable fuel t keys n cur bs :
  0 < n → StronglySorted klt keys → (Z.of_nat (length bs) <= maxChunks)%Z →
  let rest := keysetBoundaries n (filter (in_range klt cur None) keys) in
  length rest < fuel →
  boundary_walk fuel t (λ _, inr keys) n cur bs =
  Some (if decide (Z.of_nat (length (bs ++ rest)) <= maxChunks)%Z then inr (bs ++ rest) else too_long t).
Proof.
  intros Hn Hs. revert cur bs. induction fuel as [|fuel IH]; intros cur bs Hb rest Hf; [lia|]. subst rest.
  cbn [boundary_walk]. unfold next_boundary. rewrite keysetBoundaries_step in * by done.
  set (l := filter (in_range klt cur None) keys) in *.
  destruct (l !! n) as [b|] eqn:E; [|by rewrite app_nil_r, decide_True by done].
  cbv zeta. assert (filter (in_range klt (Some b) None) keys = drop n l) as Hd.
  { rewrite <-(filter_ge_drop l n b) by (done || by apply sorted_filter). symmetry. apply filter_from.
    by apply list_elem_of_lookup_2, list_elem_of_filter in E as [? _]. }
  cbn [length] in Hf. case_decide as Hmax; rewrite length_app in Hmax; cbn [length] in Hmax.
  - rewrite decide_False; [done|]. rewrite length_app. cbn [length]. lia.
  - rewrite IH; rewrite ?Hd; [|rewrite length_app; cbn [length]; lia|lia]. by rewrite <-app_assoc.
Qed.

Lemma keys_from_filter src t lo :
  (∀ k1 k2, is_Some (src !! (t, k1)) → is_Some (src !! (t, k2)) → k1 ≠ k2 → klt k1 k2 ∨ klt k2 k1) →
  filter (in_range klt lo None) (keys_from klt src t None) = keys_from klt src t lo.
Proof.
  intros Hu. assert (AntiSymm (=) klt) as Ha by (intros a b H1 H2; by destruct (klt_asym a b)).
  apply (StronglySorted_unique klt); [apply sorted_filter|..].
  1,2: by apply (keys_from_strict klt klt_asym klt_cotrans).
  apply NoDup_Permutation; [apply NoDup_filter|..]; [apply NoDup_keys_from..|].
  intros k. rewrite list_elem_of_filter, !elem_of_keys_from. unfold in_range. tauto.
Qed.

(** C17: On a table that does not change, the walk plans exactly the chunks that numbering the
    rows gives (the plan of the Postgres engine), and refuses the plan exactly when it has more
    than [maxChunks] boundaries; one query per chunk is enough. *)
Theorem PlanChunks_agrees (fuel : nat) (tbl : Table) (src : rows) (t : TableRef) (opts : ChunkOptions) (relpages : Z) (blocks : Z → Z) (chs : list Chunk) :
  captureColsFor tbl ≠ [] → opt_Method opts ≠ Some ChunkCTID →
  (∀ k1 k2, is_Some (src !! (t, k1)) → is_Some (src !! (t, k2)) → k1 ≠ k2 → klt k1 k2 ∨ klt k2 k1) →
  planChunks true (keys_from klt src t (opt_Lo opts)) relpages blocks t opts = inr chs →
  length chs ≤ fuel →
  PlanChunks fuel (inr tbl) (λ _, inr (keys_from klt src t None)) t opts =
  Some (if decide (Z.of_nat (length chs) <= maxChunks + 1)%Z then inr chs else too_long t).
Proof.
  intros Hc Hm Hu Hplan Hf. rewrite planChunks_keyset in Hplan by done. injection Hplan as <-.
  assert (∀ start bs, length (buildKeysetRangesFrom t start bs) = S (length bs)) as Hlen.
  { intros start bs. revert start. induction bs as [|b bs IH]; intros start; [done|]. simpl. by rewrite IH. }
  rewrite Hlen in *. unfold PlanChunks. destruct (captureColsFor tbl) as [|cc ccs]; [done|]. cbv zeta.
  change (Z.to_nat _) with (rows_per_chunk opts).
  rewrite boundary_walk_stable; rewrite ?(keys_from_filter src t (opt_Lo opts) Hu).
  - cbn [app]. case_decide; [rewrite decide_True by lia; by rewrite buildKeysetRanges_from|by rewrite decide_False by lia].
  - apply rows_per_chunk_pos.
  - by apply (keys_from_strict klt klt_asym klt_cotrans).
  - cbn [length]. unfold maxChunks. lia.
  - lia.
Qed.
End plan.

(** ** Instances: a text key, rows arriving between the queries *)

Definition users_table : Table :=
  mkTable sample_users [mkColumn "id" "varchar(20)" false false false false false ""]
    (Some (mkKey "PRIMARY" ["id"] true)) [] [] false "InnoDB".

Definition growing (i : nat) : result (list KeyValues) :=
  inr ((λ s, [VText s]) <$> match i with 0 => ["a"; "b"; "c"] | 1 => ["a"; "b"; "c"; "d"; "e"] | _ => ["e"] end).

Lemma growing_sorted i keys : growing i = inr keys → StronglySorted text_lt keys.
Proof.
  intros [= <-]. destruct i as [|[|i]]; repeat (constructor; [|repeat constructor; apply (bool_decide_unpack _); vm_compute; exact I]);
    constructor.
Qed.

Example growing_plan :
  PlanChunks text_lt 9 (inr users_table) growing sample_users (mkChunkOptions None 2 None) =
  Some (inr [mkChunk sample_users ChunkKeyset None (Some [VText "c"]);
             mkChunk sample_users ChunkKeyset (Some [VText "c"]) (Some [VText "e"]);
             mkChunk sample_users ChunkKeyset (Some [VText "e"]) None]).
Proof. vm_compute. reflexivity. Qed.

Lemma PlanChunks_partition_witness :
  let opts := mkChunkOptions None 2 None in
  ∃ r, PlanChunks text_lt (Z.to_nat maxChunks + 2) (inr users_table) growing sample_users opts = Some r ∧
    ∀ chs, r = inr chs →
      plan_ok sample_users None chs ∧
      (∀ k, in_range text_lt None None k →
         ∃ i ch, chs !! i = Some ch ∧ in_range text_lt (chunk_Lo ch) (chunk_Hi ch) k ∧
           ∀ j ch', chs !! j = Some ch' → in_range text_lt (chunk_Lo ch') (chunk_Hi ch') k → j = i) ∧
      (∀ ch k, ch ∈ chs → in_range text_lt (chunk_Lo ch) (chunk_Hi ch) k → in_range text_lt None None k).
Proof.
  apply (PlanChunks_partition text_lt text_lt_asym text_lt_cotrans (Z.to_nat maxChunks + 2) (inr users_table) growing
    sample_users (mkChunkOptions None 2 None)); [lia|apply growing_sorted].
Defined.

Lemma PlanChunks_agrees_witness :
  PlanChunks text_lt 3 (inr users_table) (λ _, inr (keys_from text_lt sample_src sample_users None)) sample_users
    (mkChunkOptions None 2 None) =
  Some (if decide (Z.of_nat 3 <= maxChunks + 1)%Z
        then inr [mkChunk sample_users ChunkKeyset None (Some [VText "c"]);
                  mkChunk sample_users ChunkKeyset (Some [VText "c"]) (Some [VText "e"]);
                  mkChunk sample_users ChunkKeyset (Some [VText "e"]) None]
        else too_long sample_users).
Proof.
  refine (PlanChunks_agrees text_lt text_lt_asym text_lt_cotrans 3 users_table sample_src sample_users
    (mkChunkOptions None 2 None) 0 id _ _ _ _ sample_plan _); [done|done| |vm_compute; lia].
  apply sample_keys_total.
Defined.
End MyPlan.
