(* ===== verification/MyCapture.v ===== *)
(** * Capture on a MySQL source ([internal/engine/mysql/capture.go], [capture_ddl.go],
    [consume.go], [purge.go])

    A registry gives every captured table a [rel_id]; the delta table, the track table and the
    three triggers of a table are named by it. DDL commits statement by statement. Application
    transactions take delta ids when a trigger fires and show their rows and deltas at COMMIT.

    The Postgres source of [Postgres] and [Purge] keeps its capture by table. [source_refines]
    shows that the MySQL source behaves like it, so that what is proved of reading,
    confirming and purging holds for both. *)

From S2P Require Import Prelude Text Engine Calls ApplyTx Contract Postgres Purge MyApply.
Import ApplyTx Contract Postgres Purge.

Module MyCapture.

#[global] Instance Op_countable : Countable Op.
Proof.
  refine (inj_countable' (λ op, match op with OpInsert => 0 | OpUpdate => 1 | OpDelete => 2 end)
            (λ n, match n with 0 => OpInsert | 1 => OpUpdate | _ => OpDelete end) _).
  by intros [].
Defined.

(** ** State *)

(** An open application transaction. *)
Record openTx := mkOpen { ox_writes : gmap tkey (option Row); ox_deltas : list ((Z * DeltaID) * deltaRow) }.

Record mysrc := mkSrc {
  sr_rows : gmap tkey Row;
  sr_open : gmap nat openTx;
  sr_captured : gmap TableRef (Z * list string);   (** rel_id and pk_cols by table *)
  sr_nextRel : Z;                                  (** AUTO_INCREMENT of the registry *)
  sr_auto : gmap Z Z;                              (** the delta tables, with their AUTO_INCREMENT *)
  sr_delta : gmap (Z * DeltaID) deltaRow;          (** committed delta rows *)
  sr_tracks : gset Z;                              (** the track tables *)
  sr_track : gset (Z * TargetID * DeltaID);
  sr_trig : gset (Z * Op)                          (** the triggers *)
}.

Definition set_data (s : mysrc) (r : gmap tkey Row) (o : gmap nat openTx) (a : gmap Z Z) (d : gmap (Z * DeltaID) deltaRow) : mysrc :=
  mkSrc r o (sr_captured s) (sr_nextRel s) a d (sr_tracks s) (sr_track s) (sr_trig s).
Definition set_track (s : mysrc) (d : gmap (Z * DeltaID) deltaRow) (tr : gset (Z * TargetID * DeltaID)) : mysrc :=
  mkSrc (sr_rows s) (sr_open s) (sr_captured s) (sr_nextRel s) (sr_auto s) d (sr_tracks s) tr (sr_trig s).

(** ** Capture DDL ([capture_ddl.go]) *)

Definition deltaTableName (relID : Z) : string := "delta_" +:+ pretty relID.
Definition trackTableName (relID : Z) : string := "track_" +:+ pretty relID.
Definition op_letter (op : Op) : string := match op with OpInsert => "i" | OpUpdate => "u" | OpDelete => "d" end.
Definition triggerName (relID : Z) (op : Op) : string := "rc_trg_" +:+ op_letter op +:+ "_" +:+ pretty relID.

Inductive ddl :=
| CreateDelta (relID : Z)              (** CREATE TABLE IF NOT EXISTS *)
| CreateTrack (relID : Z)
| CreateTrigger (relID : Z) (op : Op)
| DropTrigger (relID : Z) (op : Op)    (** DROP TRIGGER IF EXISTS *)
| DropDelta (relID : Z)
| DropTrack (relID : Z)
| Unregister (relID : Z).              (** DELETE FROM captured *)

Definition exec_ddl (q : ddl) (s : mysrc) : result unit * mysrc :=
  match q with
  | CreateDelta r =>
      (inr tt, match sr_auto s !! r with
               | Some _ => s
               | None => set_data s (sr_rows s) (sr_open s) (<[r := 1%Z]> (sr_auto s)) (sr_delta s)
               end)
  | CreateTrack r =>
      (inr tt, mkSrc (sr_rows s) (sr_open s) (sr_captured s) (sr_nextRel s) (sr_auto s) (sr_delta s)
                 ({[ r ]} ∪ sr_tracks s) (sr_track s) (sr_trig s))
  | CreateTrigger r op =>
      if decide ((r, op) ∈ sr_trig s) then (inl (Failure "Error 1359: Trigger already exists"), s)
      else (inr tt, mkSrc (sr_rows s) (sr_open s) (sr_captured s) (sr_nextRel s) (sr_auto s) (sr_delta s)
                      (sr_tracks s) (sr_track s) ({[ (r, op) ]} ∪ sr_trig s))
  | DropTrigger r op =>
      (inr tt, mkSrc (sr_rows s) (sr_open s) (sr_captured s) (sr_nextRel s) (sr_auto s) (sr_delta s)
                 (sr_tracks s) (sr_track s) (sr_trig s ∖ {[ (r, op) ]}))
  | DropDelta r =>
      (inr tt, set_data s (sr_rows s) (sr_open s) (delete r (sr_auto s)) (filter (λ x, x.1.1 ≠ r) (sr_delta s)))
  | DropTrack r =>
      (inr tt, mkSrc (sr_rows s) (sr_open s) (sr_captured s) (sr_nextRel s) (sr_auto s) (sr_delta s)
                 (sr_tracks s ∖ {[ r ]}) (filter (λ x, x.1.1 ≠ r) (sr_track s)) (sr_trig s))
  | Unregister r =>
      (inr tt, mkSrc (sr_rows s) (sr_open s) (filter (λ x, x.2.1 ≠ r) (sr_captured s)) (sr_nextRel s) (sr_auto s)
                 (sr_delta s) (sr_tracks s) (sr_track s) (sr_trig s))
  end.

(** ** Registry *)

Definition lookupRegistry (ref : TableRef) (s : mysrc) : option (Z * list string) := sr_captured s !! ref.

(** INSERT ... ON DUPLICATE KEY UPDATE pk_cols; the attempt takes an AUTO_INCREMENT value. *)
Definition upsertRegistry (ref : TableRef) (cols : list (string * string)) (s : mysrc) : Z * mysrc :=
  let rel := match lookupRegistry ref s with Some (rel, _) => rel | None => sr_nextRel s end in
  (rel, mkSrc (sr_rows s) (sr_open s) (<[ref := (rel, cols.*1)]> (sr_captured s)) (sr_nextRel s + 1)
          (sr_auto s) (sr_delta s) (sr_tracks s) (sr_track s) (sr_trig s)).

(** ** Installing ([installCapture])

    [fails n]: the [n]-th statement fails; the number of statements run is threaded through. *)
Section install.
Context (fails : nat → bool).

Definition run_ddl (n : nat) (q : ddl) (s : mysrc) : option error * mysrc :=
  if fails n then (Some (Failure "exec"), s)
  else match exec_ddl q s with (inl e, s) => (Some e, s) | (inr _, s) => (None, s) end.

Fixpoint run_all (n : nat) (qs : list ddl) (s : mysrc) : option error * nat * mysrc :=
  match qs with
  | [] => (None, n, s)
  | q :: qs =>
      match run_ddl n q s with
      | (Some e, s) => (Some e, S n, s)
      | (None, s) => run_all (S n) qs s
      end
  end.

Definition install_stmts (rel : Z) : list ddl :=
  [CreateDelta rel; CreateTrack rel] ++
  ([OpInsert; OpUpdate; OpDelete] ≫= λ op, [DropTrigger rel op; CreateTrigger rel op]).

Definition installOne (n : nat) (ref : TableRef) (cols : list (string * string)) (s : mysrc) : option error * nat * mysrc :=
  if fails n then (Some (Errorf ("mysql: register " +:+ ref_string ref) (Failure "exec")), S n, s)
  else let '(rel, s) := upsertRegistry ref cols s in run_all (S n) (install_stmts rel) s.

(** [blockConflictingTrigger]: the AFTER triggers of others on a table, by name and event. *)
Definition blockConflictingTrigger (serverVer : Z) (existing : list (string * string)) (ref : TableRef) : option error :=
  if decide (80000 <= serverVer)%Z then None
  else match filter (λ x, Text.strip_prefix (Text.txt "rc_trg_") (Text.txt x.1) = None) existing with
       | [] => None
       | (name, event) :: _ =>
           Some (Failure ("mysql: table " +:+ ref_string ref +:+ " already has an AFTER " +:+ event +:+ " trigger " +:+ name))
       end.

Fixpoint installCapture (n : nat) (serverVer : Z) (others : TableRef → list (string * string))
    (introspected : gmap TableRef Table) (tables : list TableRef) (s : mysrc) : option error * nat * mysrc :=
  match tables with
  | [] => (None, n, s)
  | ref :: tables =>
      match introspected !! ref with
      | None => (Some (Failure ("mysql: install capture: table " +:+ ref_string ref +:+ " not found on source")), n, s)
      | Some tbl =>
          let cols := MyApply.captureColsFor tbl in
          if Nat.eqb (length cols) 0 then installCapture n serverVer others introspected tables s
          else match blockConflictingTrigger serverVer (others ref) ref with
               | Some e => (Some e, n, s)
               | None =>
                   match installOne n ref cols s with
                   | (Some e, n, s) => (Some (Errorf ("mysql: install capture on " +:+ ref_string ref) e), n, s)
                   | (None, n, s) => installCapture n serverVer others introspected tables s
                   end
               end
      end
  end.

(** ** Removing ([RemoveCapture]) *)

Definition remove_stmts (rel : Z) : list ddl :=
  [DropTrigger rel OpInsert; DropTrigger rel OpUpdate; DropTrigger rel OpDelete; DropDelta rel; DropTrack rel; Unregister rel].

Fixpoint RemoveCapture (n : nat) (tables : list TableRef) (s : mysrc) : option error * nat * mysrc :=
  match tables with
  | [] => (None, n, s)
  | ref :: tables =>
      match lookupRegistry ref s with
      | None => RemoveCapture n tables s
      | Some (rel, _) =>
          match run_all n (remove_stmts rel) s with
          | (Some e, n, s) => (Some (Errorf ("mysql: remove capture on " +:+ ref_string ref) e), n, s)
          | (None, n, s) => RemoveCapture n tables s
          end
      end
  end.
End install.

(** ** Application transactions *)

Section source.
(** [same_key]: the NULL-safe comparison of the key columns under their collations. *)
Context (same_key : KeyValues → KeyValues → bool).

Definition change_op (ch : change) : Op :=
  match ch with CInsert _ _ _ => OpInsert | CUpdate _ _ _ _ => OpUpdate | CDelete _ _ => OpDelete end.

(** [triggerDDL]: the rows the trigger of the change's event inserts. *)
Definition my_trigger (ch : change) : list (Op * KeyValues) :=
  match ch with
  | CInsert _ k _ => [(OpInsert, k)]
  | CDelete _ k => [(OpDelete, k)]
  | CUpdate _ k k' _ => if negb (same_key k' k) then [(OpDelete, k); (OpUpdate, k')] else [(OpUpdate, k')]
  end.

Fixpoint my_enqueue (rel : Z) (next : Z) (ops : list (Op * KeyValues)) : list ((Z * DeltaID) * deltaRow) :=
  match ops with
  | [] => []
  | (op, k) :: ops => ((rel, next), mkDelta op k) :: my_enqueue rel (next + 1) ops
  end.

Definition auto_of (s : mysrc) (rel : Z) : Z := default 1%Z (sr_auto s !! rel).
Definition rel_of (s : mysrc) (t : TableRef) : option Z := fst <$> lookupRegistry t s.

(** The trigger of the event, if it is there, fires; the statement fails when the trigger's
    delta table does not exist. *)
Definition fire (ch : change) (s : mysrc) : option (list ((Z * DeltaID) * deltaRow) * gmap Z Z) :=
  match rel_of s (change_table ch) with
  | Some rel =>
      if decide ((rel, change_op ch) ∈ sr_trig s) then
        next ← sr_auto s !! rel;
        let new := my_enqueue rel next (my_trigger ch) in
        Some (new, <[rel := (next + Z.of_nat (length new))%Z]> (sr_auto s))
      else Some ([], sr_auto s)
  | None => Some ([], sr_auto s)
  end.

Definition app_begin (n : nat) (s : mysrc) : mysrc :=
  if decide (sr_open s !! n = None)
  then set_data s (sr_rows s) (<[n := mkOpen ∅ []]> (sr_open s)) (sr_auto s) (sr_delta s) else s.

Definition app_write (n : nat) (ch : change) (s : mysrc) : mysrc :=
  match sr_open s !! n with
  | None => s
  | Some ox =>
      match fire ch s with
      | None => s
      | Some (new, auto) =>
          set_data s (sr_rows s) (<[n := mkOpen (change_writes ch ∪ ox_writes ox) (ox_deltas ox ++ new)]> (sr_open s))
            auto (sr_delta s)
      end
  end.

Definition app_commit (n : nat) (s : mysrc) : mysrc :=
  match sr_open s !! n with
  | None => s
  | Some ox => set_data s (apply_writes (ox_writes ox) (sr_rows s)) (delete n (sr_open s)) (sr_auto s)
                 (list_to_map (ox_deltas ox) ∪ sr_delta s)
  end.

Definition app_abort (n : nat) (s : mysrc) : mysrc :=
  set_data s (sr_rows s) (delete n (sr_open s)) (sr_auto s) (sr_delta s).

(** ** Consumption ([consume.go]) *)

Definition my_unconsumed (s : mysrc) (rel : Z) (target : TargetID) : list ((Z * DeltaID) * deltaRow) :=
  filter (λ x, x.1.1 = rel ∧ (rel, target, x.1.2) ∉ sr_track s) (map_to_list (sr_delta s)).

Definition ReadDirtyKeys (t : TableRef) (target : TargetID) (max : Z) (s : mysrc) : result (list DirtyKey) :=
  match rel_of s t with
  | None => inl (Failure ("mysql: read dirty keys: table " +:+ ref_string t +:+ " is not captured"))
  | Some rel =>
      let all := merge_sort id_le
        ((λ x, mkDirty x.1.2 (dr_Op x.2) (dr_Key x.2)) <$> my_unconsumed s rel target) in
      inr (if decide (0 < max)%Z then take (Z.to_nat max) all else all)
  end.

Definition ConfirmConsumed (t : TableRef) (target : TargetID) (ids : list DeltaID) (s : mysrc) : result unit * mysrc :=
  if Nat.eqb (length ids) 0 then (inr tt, s)
  else match rel_of s t with
       | None => (inl (Failure ("mysql: confirm consumed: table " +:+ ref_string t +:+ " is not captured")), s)
       | Some rel => (inr tt, set_track s (sr_delta s) (list_to_set ((λ i, (rel, target, i)) <$> ids) ∪ sr_track s))
       end.

(** ** Purge ([purge.go]) *)

(** What the queries read besides the delta and track rows; times in microseconds. *)
Record myInfo := mkInfo { mi_now : Z; mi_at : DeltaID → Z; mi_totalBytes : Z }.

Definition my_ids (s : mysrc) (rel : Z) : list DeltaID :=
  (λ x, x.1.2) <$> filter (λ x, x.1.1 = rel) (map_to_list (sr_delta s)).

(** [deltaBacklogByRel] *)
Definition my_backlog (info : myInfo) (s : mysrc) (rel : Z) (target : TargetID) : DeltaBacklog :=
  let un := filter (λ i, (rel, target, i) ∉ sr_track s) (my_ids s rel) in
  let backlogRows := Z.of_nat (length un) in
  let totalRows := Z.of_nat (length (my_ids s rel)) in
  let micro := match min_at (mi_at info) un with None => 0%Z | Some m => (mi_now info - m)%Z end in
  let bytes := if decide (0 < totalRows)%Z
               then Z.quot (wrap64 (mi_totalBytes info * backlogRows)) totalRows else 0%Z in
  mkBacklog backlogRows bytes (wrap64 ((if decide (micro < 0)%Z then 0 else micro) * 1000))
    (bool_decide (0 < backlogRows)%Z).

Definition my_overCap (info : myInfo) (s : mysrc) (rel : Z) (targets : list TargetID) (ret : RetentionPolicy) : list TargetID :=
  overCapTargets (my_backlog info s rel) (mi_totalBytes info) targets ret.

(** (SELECT COUNT(star) FROM track WHERE target IN (targets)) = the number of targets *)
Definition my_consumed (s : mysrc) (rel : Z) (targets : list TargetID) (i : DeltaID) : Prop :=
  length (filter (λ tg, (rel, tg, i) ∈ sr_track s) (remove_dups targets)) = length targets.

#[global] Instance my_consumed_dec s rel targets i : Decision (my_consumed s rel targets i).
Proof. unfold my_consumed. apply _. Defined.

(** One DELETE ... ORDER BY delta_id LIMIT batch. *)
Definition my_purge_pass (rel : Z) (targets : list TargetID) (batch : nat) (s : mysrc) : nat * mysrc :=
  let ids := take batch (filter (λ i, targets = [] ∨ my_consumed s rel targets i) (merge_sort Z.le (my_ids s rel))) in
  (length ids, set_track s (filter (λ '(ri, _), ¬ (ri.1 = rel ∧ ri.2 ∈ ids)) (sr_delta s)) (sr_track s)).

Fixpoint my_purgeConsumedBy (fuel : nat) (rel : Z) (targets : list TargetID) (batch : nat) (total : nat) (s : mysrc)
    : option (nat * mysrc) :=
  match fuel with
  | 0 => None
  | S fuel =>
      let '(n, s) := my_purge_pass rel targets batch s in
      if decide (n < batch) then Some (total + n, s) else my_purgeConsumedBy fuel rel targets batch (total + n) s
  end.

(** [Source.Purge] on a captured table, when its statements succeed. *)
Definition my_purge (info : myInfo) (batch : nat) (rel : Z) (targets : list TargetID) (ret : RetentionPolicy) (s : mysrc)
    : option (PurgeStats * mysrc) :=
  let reseed := my_overCap info s rel targets ret in
  let fuel := S (length (my_ids s rel)) in
  if decide (reseed = []) then
    '(n, s) ← my_purgeConsumedBy fuel rel targets batch 0 s;
    Some (mkPurgeStats (Z.of_nat n) [], s)
  else
    let s := set_track s (sr_delta s) (filter (λ x, ¬ (x.1.1 = rel ∧ x.1.2 ∈ reseed)) (sr_track s)) in
    '(n, s) ← my_purgeConsumedBy fuel rel (subtractTargets targets reseed) batch 0 s;
    Some (mkPurgeStats (Z.of_nat n) reseed, s).
End source.

(** ** The MySQL source refines the Postgres source *)

(** The same operations on both. *)
Inductive source_op :=
| SBegin (n : nat)
| SWrite (n : nat) (ch : change)
| SCommit (n : nat)
| SAbort (n : nat)
| SRead (t : TableRef) (target : TargetID) (max : Z)
| SConfirm (t : TableRef) (target : TargetID) (ids : list DeltaID)
| SPurge (info : myInfo) (t : TableRef) (targets : list TargetID) (ret : RetentionPolicy).

Inductive source_out :=
| ODone
| OKeys (r : result (list DirtyKey))
| OStats (r : result PurgeStats).

Section refine.
Context (same_key : KeyValues → KeyValues → bool) (batch : nat) (batch_pos : 0 < batch).

Definition run_my (o : source_op) (s : mysrc) : option (source_out * mysrc) :=
  match o with
  | SBegin n => Some (ODone, app_begin n s)
  | SWrite n ch => Some (ODone, app_write same_key n ch s)
  | SCommit n => Some (ODone, app_commit n s)
  | SAbort n => Some (ODone, app_abort n s)
  | SRead t target max => Some (OKeys (ReadDirtyKeys t target max s), s)
  | SConfirm t target ids => Some (ODone, (ConfirmConsumed t target ids s).2)
  | SPurge info t targets ret =>
      match rel_of s t with
      | None => Some (OStats (inl (Failure "not captured")), s)
      | Some rel => '(stats, s) ← my_purge info batch rel targets ret s; Some (OStats (inr stats), s)
      end
  end.

Definition pg_info (info : myInfo) : relInfo :=
  mkRel (mi_now info * 1000) (λ i, mi_at info i * 1000)%Z (mi_totalBytes info).

Definition run_pg (o : source_op) (w : pgworld) : option (source_out * pgworld) :=
  match o with
  | SBegin n => Some (ODone, run_event (AppBegin n) w)
  | SWrite n ch => Some (ODone, run_event (AppWrite n ch) w)
  | SCommit n => Some (ODone, run_event (AppCommit n) w)
  | SAbort n => Some (ODone, run_event (AppAbort n) w)
  | SRead t target max => Some (OKeys (inr (read_dirty w t target max)), w)
  | SConfirm t target ids => Some (ODone, confirm t target ids w)
  | SPurge info t targets ret =>
      '(stats, w) ← purge (pg_info info) batch t targets ret w; Some (OStats (inr stats), w)
  end.

(** A table whose capture is installed: it is registered, and its delta table, its track table
    and its three triggers exist. *)
Definition captured (s : mysrc) (t : TableRef) : Prop :=
  ∃ rel, rel_of s t = Some rel ∧ is_Some (sr_auto s !! rel) ∧ rel ∈ sr_tracks s ∧ ∀ op, (rel, op) ∈ sr_trig s.

(** An update that keeps the key or changes it to one the collation tells apart from it. *)
Definition tells (ch : change) : Prop :=
  match ch with CUpdate _ k k' _ => same_key k' k = true ↔ k' = k | _ => True end.

Definition op_ok (s : mysrc) (o : source_op) : Prop :=
  match o with
  | SWrite _ ch => captured s (change_table ch) ∧ tells ch
  | SRead t _ _ | SConfirm t _ _ => captured s t
  | SPurge info t _ _ =>
      captured s t ∧ ∀ i, (mi_at info i <= mi_now info)%Z ∧ ((mi_now info - mi_at info i) * 1000 < 2 ^ 63)%Z
  | _ => True
  end.

(** The deltas of a table are those of its [rel_id]. *)
Definition same_delta (s : mysrc) (x : (Z * DeltaID) * deltaRow) (y : (TableRef * DeltaID) * deltaRow) : Prop :=
  rel_of s y.1.1 = Some x.1.1 ∧ x.1.2 = y.1.2 ∧ x.2 = y.2.

Record sim (s : mysrc) (w : pgworld) : Prop := {
  sm_rows : w_src w = sr_rows s;
  sm_inj t t' rel : rel_of s t = Some rel → rel_of s t' = Some rel → t = t';
  sm_delta t i : w_delta w !! (t, i) = rel_of s t ≫= λ rel, sr_delta s !! (rel, i);
  sm_track t tg i : (t, tg, i) ∈ w_track w ↔ ∃ rel, rel_of s t = Some rel ∧ (rel, tg, i) ∈ sr_track s;
  sm_next t rel : rel_of s t = Some rel → next_of w t = auto_of s rel;
  sm_open n :
    match sr_open s !! n, w_open w !! n with
    | Some ox, Some ax => ax_writes ax = ox_writes ox ∧ Forall2 (same_delta s) (ox_deltas ox) (ax_deltas ax)
    | None, None => True
    | _, _ => False
    end
}.

(** What stays while operations run: the registry, the triggers and the tables. *)
Definition same_capture (s s' : mysrc) : Prop :=
  sr_captured s' = sr_captured s ∧ sr_trig s' = sr_trig s ∧ sr_tracks s' = sr_tracks s ∧
  ∀ r, is_Some (sr_auto s !! r) → is_Some (sr_auto s' !! r).

Lemma same_capture_trans s1 s2 s3 : same_capture s1 s2 → same_capture s2 s3 → same_capture s1 s3.
Proof. intros (A1 & A2 & A3 & A4) (B1 & B2 & B3 & B4). split_and!; [congruence..|]. by auto. Qed.

Lemma rel_of_same s s' t : same_capture s s' → rel_of s' t = rel_of s t.
Proof. intros [H _]. unfold rel_of, lookupRegistry. by rewrite H. Qed.

Lemma same_delta_mono s s' x y : same_capture s s' → same_delta s x y → same_delta s' x y.
Proof. intros Hc. unfold same_delta. by rewrite (rel_of_same s s'). Qed.

(** *** The transactions *)

Lemma my_trigger_eq ch : tells ch → my_trigger same_key ch = trigger ch.
Proof.
  destruct ch as [t k r|t k k' r|t k]; simpl; [done| |done]. intros Hk. destruct (same_key k' k) eqn:E; simpl.
  - rewrite decide_False; [done|]. naive_solver.
  - rewrite decide_True; [done|]. naive_solver.
Qed.

Lemma enqueue_same s t rel next ops :
  rel_of s t = Some rel → Forall2 (same_delta s) (my_enqueue rel next ops) (enqueue t next ops).
Proof.
  intros Hr. revert next. induction ops as [|[op k] ops IH]; intros next; simpl; constructor; [|apply IH]. done.
Qed.

Lemma enqueue_length rel t next ops : length (my_enqueue rel next ops) = length (enqueue t next ops).
Proof. revert next. induction ops as [|[op k] ops IH]; intros next; simpl; [done|]. by rewrite (IH (next + 1)%Z). Qed.

Lemma commit_lookup s ox ax t i :
  (∀ t t' rel, rel_of s t = Some rel → rel_of s t' = Some rel → t = t') → Forall2 (same_delta s) ox ax →
  (list_to_map ax : gmap (TableRef * DeltaID) deltaRow) !! (t, i) =
    rel_of s t ≫= λ rel, (list_to_map ox : gmap (Z * DeltaID) deltaRow) !! (rel, i).
Proof.
  intros Hinj. induction 1 as [|[[r i1] d] [[t1 i2] d2] ox ax (Hr & Hi & Hd) _ IH]; simpl in *.
  { destruct (rel_of s t); simpl; by rewrite ?lookup_empty. }
  subst i2 d2. destruct (decide ((t1, i1) = (t, i))) as [[= -> ->]|Hne].
  - rewrite Hr, !lookup_insert_eq. simpl. by rewrite lookup_insert_eq.
  - rewrite lookup_insert_ne by done. rewrite IH. destruct (rel_of s t) as [rel|] eqn:Ht; simpl; [|done].
    rewrite lookup_insert_ne; [done|]. intros [= -> ->]. apply Hne. f_equal. by eapply Hinj.
Qed.

Lemma sim_open_insert s w n ox ax :
  sim s w → ax_writes ax = ox_writes ox → Forall2 (same_delta s) (ox_deltas ox) (ax_deltas ax) →
  ∀ m, match <[n := ox]> (sr_open s) !! m, <[n := ax]> (w_open w) !! m with
       | Some ox, Some ax => ax_writes ax = ox_writes ox ∧ Forall2 (same_delta s) (ox_deltas ox) (ax_deltas ax)
       | None, None => True
       | _, _ => False
       end.
Proof.
  intros Hs H1 H2 m. destruct (decide (n = m)) as [->|Hm]; [by rewrite !lookup_insert_eq|].
  rewrite !lookup_insert_ne by done. apply (sm_open _ _ Hs).
Qed.

Lemma sim_open_delete s w n :
  sim s w → ∀ m, match delete n (sr_open s) !! m, delete n (w_open w) !! m with
       | Some ox, Some ax => ax_writes ax = ox_writes ox ∧ Forall2 (same_delta s) (ox_deltas ox) (ax_deltas ax)
       | None, None => True
       | _, _ => False
       end.
Proof.
  intros Hs m. destruct (decide (n = m)) as [->|Hm]; [by rewrite !lookup_delete_eq|].
  rewrite !lookup_delete_ne by done. apply (sm_open _ _ Hs).
Qed.

Lemma sim_begin s w n : sim s w → sim (app_begin n s) (run_event (AppBegin n) w).
Proof.
  intros Hs. pose proof Hs as [H1 H2 H3 H4 H5 H6]. simpl. unfold app_begin.
  pose proof (H6 n) as Hn. destruct (sr_open s !! n) eqn:E1, (w_open w !! n) eqn:E2; [|done..|].
  { by rewrite !decide_False. }
  rewrite !decide_True by done. split; try done. by apply (sim_open_insert s w n); [..|constructor].
Qed.

Lemma sim_abort s w n : sim s w → sim (app_abort n s) (run_event (AppAbort n) w).
Proof. intros Hs. pose proof Hs as [H1 H2 H3 H4 H5 H6]. split; try done. by apply (sim_open_delete s w n). Qed.

Lemma sim_write s w n ch :
  sim s w → captured s (change_table ch) → tells ch → sim (app_write same_key n ch s) (run_event (AppWrite n ch) w).
Proof.
  intros Hs (rel & Hrel & [next Hnext] & _ & Htrig) Htell. pose proof Hs as [H1 H2 H3 H4 H5 H6]. simpl. unfold app_write, fire.
  pose proof (H6 n) as Hn. destruct (sr_open s !! n) as [ox|] eqn:E1, (w_open w !! n) as [ax|] eqn:E2; try done.
  destruct Hn as [Hw Hd]. rewrite Hrel, decide_True by done. rewrite Hnext. simpl. rewrite my_trigger_eq by done.
  assert (next = next_of w (change_table ch)) as -> by (rewrite (H5 _ _ Hrel); unfold auto_of; by rewrite Hnext).
  set (t := change_table ch) in *. split; try done.
  - intros t' rel' Hr'. change (rel_of s t' = Some rel') in Hr'. unfold next_of, auto_of. simpl. destruct (decide (t = t')) as [<-|Ht].
    + assert (rel' = rel) as -> by congruence.
      rewrite !lookup_insert_eq. simpl. by rewrite (enqueue_length rel t).
    + rewrite !lookup_insert_ne; [by apply H5| |done]. intros <-. by apply Ht, (H2 _ _ rel).
  - intros m. apply (sim_open_insert s w n); [done| |]; simpl; [by rewrite Hw|].
    apply Forall2_app; [done|]. by apply enqueue_same.
Qed.

Lemma sim_commit s w n : sim s w → sim (app_commit n s) (run_event (AppCommit n) w).
Proof.
  intros Hs. pose proof Hs as [H1 H2 H3 H4 H5 H6]. simpl. unfold app_commit.
  pose proof (H6 n) as Hn. destruct (sr_open s !! n) as [ox|] eqn:E1, (w_open w !! n) as [ax|] eqn:E2; try done.
  destruct Hn as [Hw Hd]. split; try done.
  - simpl. by rewrite Hw, H1.
  - intros t i. simpl. rewrite !lookup_union, (commit_lookup s (ox_deltas ox)) by done. rewrite H3.
    change (rel_of _ t) with (rel_of s t) at 3. destruct (rel_of s t) as [rel|]; simpl; [|done].
    by rewrite lookup_union.
  - by apply (sim_open_delete s w n).
Qed.

Lemma sim_confirm s w t target ids :
  sim s w → captured s t → sim (ConfirmConsumed t target ids s).2 (confirm t target ids w).
Proof.
  intros Hs (rel & Hrel & _). pose proof Hs as [H1 H2 H3 H4 H5 H6]. unfold ConfirmConsumed.
  destruct (Nat.eqb_spec (length ids) 0) as [E|E].
  { destruct ids; [|done]. split; try done. intros t' tg i. simpl. rewrite <-H4. set_solver. }
  rewrite Hrel. split; try done. intros t' tg i. simpl. rewrite elem_of_union, H4, elem_of_list_to_set, list_elem_of_fmap.
  split.
  - intros [(j & [= -> -> ->] & Hj)|(r & Hr & Ht)].
    + exists rel. split; [done|]. apply elem_of_union_l, elem_of_list_to_set, list_elem_of_fmap. by exists j.
    + exists r. split; [done|]. by apply elem_of_union_r.
  - intros (r & Hr & [Ht|Ht]%elem_of_union); [|right; by exists r]. left.
    apply elem_of_list_to_set, list_elem_of_fmap in Ht as (j & [= -> -> ->] & Hj).
    exists j. split; [|done]. by rewrite (H2 t' t rel).
Qed.

(** *** Reading *)

#[local] Instance id_le_trans : Transitive id_le.
Proof. intros x y z. unfold id_le. lia. Qed.
#[local] Instance id_le_total : Total id_le.
Proof. intros x y. unfold id_le. lia. Qed.

Lemma sim_unconsumed s w t rel target x :
  sim s w → rel_of s t = Some rel →
  (x ∈ ((λ x, mkDirty x.1.2 (dr_Op x.2) (dr_Key x.2)) <$> my_unconsumed s rel target)) ↔
  ∃ d, sr_delta s !! (rel, dk_DeltaID x) = Some d ∧ ((rel, target, dk_DeltaID x) ∉ sr_track s) ∧
    dk_Op x = dr_Op d ∧ dk_Key x = dr_Key d.
Proof.
  intros Hs Hrel. unfold my_unconsumed. rewrite list_elem_of_fmap. split.
  - intros ([[r i] d] & -> & [[Hr Ht] Hin%elem_of_map_to_list]%list_elem_of_filter). simpl in *. subst r. by exists d.
  - intros (d & Hd & Ht & Ho & Hk). exists ((rel, dk_DeltaID x), d). split; [destruct x; simpl in *; by subst|].
    apply list_elem_of_filter. split; [done|]. by apply elem_of_map_to_list.
Qed.

Lemma pg_unconsumed s w t rel target x :
  sim s w → rel_of s t = Some rel →
  (x ∈ ((λ '(ti, d), mkDirty ti.2 (dr_Op d) (dr_Key d)) <$> unconsumed w t target)) ↔
  ∃ d, sr_delta s !! (rel, dk_DeltaID x) = Some d ∧ ((rel, target, dk_DeltaID x) ∉ sr_track s) ∧
    dk_Op x = dr_Op d ∧ dk_Key x = dr_Key d.
Proof.
  intros Hs Hrel.
  assert (∀ i, (t, target, i) ∈ w_track w ↔ (rel, target, i) ∈ sr_track s) as Htr.
  { intros i. rewrite (sm_track _ _ Hs). split; [intros (r & Hr & ?); congruence|]. intros ?. by exists rel. }
  assert (∀ i, w_delta w !! (t, i) = sr_delta s !! (rel, i)) as Hde by (intros i; by rewrite (sm_delta _ _ Hs), Hrel).
  unfold unconsumed. rewrite list_elem_of_fmap. split.
  - intros ([[r i] d] & -> & [[Hr Ht] Hin%elem_of_map_to_list]%list_elem_of_filter). simpl in *. subst r.
    exists d. rewrite <-Hde, <-Htr. done.
  - intros (d & Hd & Ht & Ho & Hk). exists ((t, dk_DeltaID x), d). split; [destruct x; simpl in *; by subst|].
    apply list_elem_of_filter. rewrite Htr. split; [done|]. apply elem_of_map_to_list. by rewrite Hde.
Qed.

Lemma fst_NoDup {A} (f : A → DirtyKey) (l : list A) :
  NoDup l → (∀ x y, x ∈ l → y ∈ l → f x = f y → x = y) → NoDup (f <$> l).
Proof. intros Hnd Hf. by apply NoDup_fmap_2_strong. Qed.

Lemma sim_read s w t target max :
  sim s w → captured s t → ReadDirtyKeys t target max s = inr (read_dirty w t target max).
Proof.
  intros Hs (rel & Hrel & _). unfold ReadDirtyKeys, read_dirty. rewrite Hrel. cbv zeta.
  set (A := _ <$> my_unconsumed s rel target). set (B := _ <$> unconsumed w t target).
  assert (merge_sort id_le A = merge_sort id_le B) as ->; [|done].
  assert (NoDup A) as HA.
  { apply fst_NoDup; [apply NoDup_filter, NoDup_map_to_list|].
    intros [[r i] d] [[r' i'] d'] [[Hr _] _]%list_elem_of_filter [[Hr' _] _]%list_elem_of_filter. simpl in *. subst.
    destruct d, d'. simpl. by intros [= -> -> ->]. }
  assert (NoDup B) as HB.
  { apply fst_NoDup; [apply NoDup_filter, NoDup_map_to_list|].
    intros [[r i] d] [[r' i'] d'] [[Hr _] _]%list_elem_of_filter [[Hr' _] _]%list_elem_of_filter. simpl in *. subst.
    destruct d, d'. simpl. by intros [= -> -> ->]. }
  assert (A ≡ₚ B) as HAB.
  { apply NoDup_Permutation; [done..|]. intros x. unfold A, B. by rewrite (sim_unconsumed s w t), (pg_unconsumed s w t). }
  apply (StronglySorted_unique_strong id_le).
  - intros x y Hx Hy H1 H2. rewrite merge_sort_Permutation in Hx, Hy. rewrite <-HAB in Hy. unfold A in Hx, Hy.
    rewrite (sim_unconsumed s w t) in Hx, Hy by done. destruct Hx as (d & Hd & _ & Ho & Hk), Hy as (d' & Hd' & _ & Ho' & Hk').
    unfold id_le in *. assert (dk_DeltaID x = dk_DeltaID y) as Hid by lia. rewrite <-Hid, Hd in Hd'. injection Hd' as <-.
    destruct x, y. simpl in *. congruence.
  - apply (StronglySorted_merge_sort id_le).
  - apply (StronglySorted_merge_sort id_le).
  - by rewrite !merge_sort_Permutation.
Qed.

(** *** Purging *)

Section purge.
Context (s : mysrc) (w : pgworld) (t : TableRef) (rel : Z) (Hs : sim s w) (Hrel : rel_of s t = Some rel).

Lemma sim_track_at tg i : (t, tg, i) ∈ w_track w ↔ (rel, tg, i) ∈ sr_track s.
Proof. rewrite (sm_track _ _ Hs). split; [intros (r & Hr & ?); congruence|]. intros ?. by exists rel. Qed.

Lemma sim_delta_at i : w_delta w !! (t, i) = sr_delta s !! (rel, i).
Proof. by rewrite (sm_delta _ _ Hs), Hrel. Qed.

Lemma elem_of_my_ids i : i ∈ my_ids s rel ↔ is_Some (sr_delta s !! (rel, i)).
Proof.
  unfold my_ids. rewrite list_elem_of_fmap. split.
  - intros ([[r j] d] & -> & [Hr Hin%elem_of_map_to_list]%list_elem_of_filter). simpl in *. subst. by eexists.
  - intros [d Hd]. exists ((rel, i), d). split; [done|]. apply list_elem_of_filter. split; [done|]. by apply elem_of_map_to_list.
Qed.

Lemma sim_ids : my_ids s rel ≡ₚ ids_of w t.
Proof.
  apply NoDup_Permutation; [|apply NoDup_ids|].
  - unfold my_ids. apply NoDup_fmap_2_strong; [|apply NoDup_filter, NoDup_map_to_list].
    intros [[r i] d] [[r' i'] d'] [Hr Hx%elem_of_map_to_list]%list_elem_of_filter [Hr' Hy%elem_of_map_to_list]%list_elem_of_filter Hi.
    simpl in *. subst. rewrite Hx in Hy. by injection Hy as ->.
  - intros i. by rewrite elem_of_my_ids, elem_of_ids, sim_delta_at.
Qed.

Lemma sim_sorted_ids : merge_sort Z.le (my_ids s rel) = merge_sort Z.le (ids_of w t).
Proof.
  apply (StronglySorted_unique Z.le); [by apply (StronglySorted_merge_sort Z.le)..|].
  rewrite !merge_sort_Permutation. apply sim_ids.
Qed.

Lemma sim_consumed targets i : my_consumed s rel targets i ↔ consumed_by w t targets i.
Proof.
  unfold my_consumed, consumed_by.
  by rewrite (list_filter_iff (λ tg, (rel, tg, i) ∈ sr_track s) (λ tg, (t, tg, i) ∈ w_track w)) by (intros tg; by rewrite sim_track_at).
Qed.
End purge.

Lemma sim_set_deltas s w t rel (ids : list DeltaID) :
  sim s w → rel_of s t = Some rel →
  sim (set_track s (filter (λ '(ri, _), ¬ (ri.1 = rel ∧ ri.2 ∈ ids)) (sr_delta s)) (sr_track s))
    (drop_deltas (λ ti, ti.1 = t ∧ ti.2 ∈ ids) w).
Proof.
  intros Hs Hrel. pose proof Hs as [H1 H2 H3 H4 H5 H6]. split; try done. intros t' i. rewrite lookup_drop_deltas.
  change (rel_of _ t') with (rel_of s t'). cbn [set_track sr_delta].
  destruct (rel_of s t') as [r|] eqn:Hr; simpl; rewrite H3, Hr; simpl; [|by case_decide].
  rewrite (lookup_filter_fst (λ ri : Z * DeltaID, ¬ (ri.1 = rel ∧ ri.2 ∈ ids))). simpl.
  destruct (decide (t' = t ∧ i ∈ ids)) as [[-> Hi]|Hn].
  - assert (r = rel) as -> by congruence. by rewrite decide_False by tauto.
  - rewrite decide_True; [done|]. intros [-> Hi]. apply Hn. split; [by apply (H2 t' t rel)|done].
Qed.

Lemma sim_purge_pass s w t rel targets :
  sim s w → rel_of s t = Some rel →
  ∃ n s' w', my_purge_pass rel targets batch s = (n, s') ∧ purge_pass t targets batch w = (n, w') ∧
    sim s' w' ∧ rel_of s' t = Some rel ∧ same_capture s s'.
Proof.
  intros Hs Hrel. unfold my_purge_pass, purge_pass, purgeable.
  rewrite (sim_sorted_ids s w t rel Hs Hrel).
  rewrite (list_filter_iff (λ i, targets = [] ∨ my_consumed s rel targets i) (λ i, targets = [] ∨ consumed_by w t targets i))
    by (intros i; by rewrite (sim_consumed s w t rel Hs Hrel)).
  eexists _, _, _. split; [done|]. split; [done|]. split; [by apply sim_set_deltas|]. done.
Qed.

Lemma sim_purgeConsumedBy fuel s w t rel targets total :
  sim s w → rel_of s t = Some rel →
  match my_purgeConsumedBy fuel rel targets batch total s, purgeConsumedBy fuel t targets batch total w with
  | Some (n, s'), Some (n', w') => n = n' ∧ sim s' w' ∧ same_capture s s'
  | None, None => True
  | _, _ => False
  end.
Proof.
  revert s w total. induction fuel as [|fuel IH]; intros s w total Hs Hrel; [done|].
  cbn [my_purgeConsumedBy purgeConsumedBy].
  destruct (sim_purge_pass s w t rel targets Hs Hrel) as (n & s' & w' & -> & -> & Hs' & Hrel' & Hc). case_decide; [done|].
  specialize (IH s' w' (total + n) Hs' Hrel').
  destruct (my_purgeConsumedBy _ _ _ _ _ _) as [[m s2]|], (purgeConsumedBy _ _ _ _ _ _) as [[m' w2]|]; try done.
  destruct IH as (? & ? & Hc'). split_and!; [done..|]. by eapply same_capture_trans.
Qed.

Lemma min_at_perm f l l' : l ≡ₚ l' → min_at f l = min_at f l'.
Proof.
  unfold min_at. induction 1 as [|x l l' _ IH|x y l|l l' l'' _ IH1 _ IH2]; simpl; [done|by rewrite IH| |congruence].
  destruct (foldr _ _ l); f_equal; lia.
Qed.

Lemma min_at_cons f x l :
  min_at f (x :: l) = Some (match min_at f l with None => f x | Some m => Z.min (f x) m end).
Proof. done. Qed.

Lemma min_at_scale f l : min_at (λ i, (f i * 1000)%Z) l = (λ m, (m * 1000)%Z) <$> min_at f l.
Proof.
  induction l as [|x l IH]; [done|]. rewrite !min_at_cons, IH. destruct (min_at f l); simpl; [|done].
  by rewrite Z.mul_min_distr_nonneg_r.
Qed.

Lemma min_at_elem f l m : min_at f l = Some m → ∃ i, i ∈ l ∧ m = f i.
Proof.
  revert m. unfold min_at. induction l as [|x l IH]; intros m; [done|]. simpl. destruct (foldr _ _ l) as [m'|] eqn:E.
  - intros [= <-]. destruct (Z.min_spec (f x) m') as [[_ ->]|[_ ->]]; [exists x; split; [by left|done]|].
    destruct (IH m' eq_refl) as (i & ? & ?). exists i. split; [by right|done].
  - intros [= <-]. exists x. split; [by left|done].
Qed.

Lemma sim_backlog info s w t rel tg :
  sim s w → rel_of s t = Some rel →
  (∀ i, (mi_at info i <= mi_now info)%Z ∧ ((mi_now info - mi_at info i) * 1000 < 2 ^ 63)%Z) →
  my_backlog info s rel tg = deltaBacklogByRel (pg_info info) w t tg.
Proof.
  intros Hs Hrel Hage. unfold my_backlog, deltaBacklogByRel, unconsumed_ids. cbv zeta.
  rewrite <-(Permutation_length (sim_ids s w t rel Hs Hrel)).
  set (un := filter _ (my_ids s rel)). set (un' := filter _ (ids_of w t)).
  assert (un ≡ₚ un') as Hun.
  { unfold un, un'. rewrite (list_filter_iff (λ i, (rel, tg, i) ∉ sr_track s) (λ i, (t, tg, i) ∉ w_track w))
      by (intros i; by rewrite (sim_track_at s w t rel Hs Hrel)).
    by rewrite (sim_ids s w t rel Hs Hrel). }
  rewrite (Permutation_length Hun). cbn [pg_info rel_totalBytes rel_at rel_now].
  rewrite <-(min_at_perm _ un un' Hun), min_at_scale. f_equal.
  destruct (min_at (mi_at info) un) as [m|] eqn:Hm; simpl; [|done].
  destruct (min_at_elem _ _ _ Hm) as (i & _ & ->). destruct (Hage i). rewrite decide_False by lia.
  rewrite wrap64_id by lia. lia.
Qed.

Lemma overCap_ext f g bytes targets ret :
  (∀ tg, f tg = g tg) → overCapTargets f bytes targets ret = overCapTargets g bytes targets ret.
Proof.
  intros Hfg. unfold overCapTargets.
  rewrite (list_fmap_ext (λ tg, (tg, f tg)) (λ tg, (tg, g tg)) targets) by (intros ? tg _; by rewrite Hfg). done.
Qed.

Lemma sim_reset s w t rel (reseed : list TargetID) :
  sim s w → rel_of s t = Some rel →
  sim (set_track s (sr_delta s) (filter (λ x, ¬ (x.1.1 = rel ∧ x.1.2 ∈ reseed)) (sr_track s))) (reset_track t reseed w).
Proof.
  intros Hs Hrel. pose proof Hs as [H1 H2 H3 H4 H5 H6]. split; try done. intros t' tg i. simpl.
  rewrite elem_of_filter, H4. simpl. split.
  - intros [Hn (r & Hr & Ht)]. exists r. split; [done|]. apply elem_of_filter. split; [|done]. simpl.
    intros [-> Htg]. apply Hn. split; [by apply (H2 t' t rel)|done].
  - intros (r & Hr & [Hn Ht]%elem_of_filter). simpl in Hn. split; [|by exists r]. intros [-> Htg]. apply Hn.
    split; [|done]. change (rel_of s t = Some r) in Hr. congruence.
Qed.

Lemma sim_purge s w t info targets ret :
  sim s w → op_ok s (SPurge info t targets ret) →
  ∃ stats s' w', run_my (SPurge info t targets ret) s = Some (OStats (inr stats), s') ∧
    run_pg (SPurge info t targets ret) w = Some (OStats (inr stats), w') ∧ sim s' w' ∧ same_capture s s'.
Proof.
  intros Hs [(rel & Hrel & _) Hage]. cbn [run_my run_pg]. rewrite Hrel. unfold my_purge, purge, my_overCap.
  rewrite (overCap_ext (my_backlog info s rel) (deltaBacklogByRel (pg_info info) w t)) by (intros tg; by apply sim_backlog).
  cbn [pg_info rel_totalBytes]. fold (pg_info info). set (reseed := overCapTargets _ _ _ _).
  assert (∀ s1 w1 targets, sim s1 w1 → rel_of s1 t = Some rel → length (my_ids s rel) = length (ids_of w1 t) →
    ∃ n s' w', my_purgeConsumedBy (S (length (my_ids s rel))) rel targets batch 0 s1 = Some (n, s') ∧
      purgeConsumedBy (purge_fuel w1 t) t targets batch 0 w1 = Some (n, w') ∧ sim s' w' ∧ same_capture s1 s') as Hloop.
  { intros s1 w1 tgs Hs1 Hr1 Hl. unfold purge_fuel. rewrite <-Hl.
    destruct (purgeConsumedBy_total (S (length (my_ids s rel))) t tgs batch 0 w1 batch_pos) as (w' & Hp & _).
    { rewrite Hl. apply (purge_fuel_enough w1 t tgs). }
    pose proof (sim_purgeConsumedBy (S (length (my_ids s rel))) s1 w1 t rel tgs 0 Hs1 Hr1) as Hsim.
    rewrite Hp in Hsim |- *. destruct (my_purgeConsumedBy _ _ _ _ _ _) as [[n s']|]; [|done].
    destruct Hsim as (-> & ? & ?). by eexists _, _, _. }
  pose proof (Permutation_length (sim_ids s w t rel Hs Hrel)) as Hlen. case_decide.
  - destruct (Hloop s w targets Hs Hrel Hlen) as (n & s' & w' & -> & -> & ? & ?). by eexists _, _, _.
  - destruct (Hloop _ _ (subtractTargets targets reseed) (sim_reset s w t rel reseed Hs Hrel) Hrel Hlen)
      as (n & s' & w' & He & -> & ? & ?). rewrite He. by eexists _, _, _.
Qed.

(** *** Runs *)

Lemma captured_same s s' t : same_capture s s' → captured s t → captured s' t.
Proof.
  intros Hc (rel & Hr & Ha & Hk & Ht). exists rel. rewrite (rel_of_same s s') by done. destruct Hc as (_ & -> & -> & Hauto). by auto.
Qed.

Lemma op_ok_same s s' o : same_capture s s' → op_ok s o → op_ok s' o.
Proof.
  intros Hc. destruct o; simpl; try done; try by apply captured_same. all: intros [H1 H2]; split; [by eapply captured_same|done].
Qed.

Lemma app_write_capture n ch s : same_capture s (app_write same_key n ch s).
Proof.
  unfold app_write, fire. destruct (sr_open s !! n); [|done]. destruct (rel_of s _) as [rel|]; [|done].
  case_decide; [|done]. destruct (sr_auto s !! rel) eqn:E; [|done]. simpl. split_and!; [done..|].
  intros r Hr. apply lookup_insert_is_Some'. by right.
Qed.

Lemma sim_step s w o :
  sim s w → op_ok s o →
  ∃ out s' w', run_my o s = Some (out, s') ∧ run_pg o w = Some (out, w') ∧ sim s' w' ∧ same_capture s s'.
Proof.
  intros Hs Hok. destruct o as [n|n ch|n|n|t target max|t target ids|info t targets ret].
  - eexists _, _, _. split; [done|]. split; [done|]. split; [by apply sim_begin|]. unfold app_begin. by case_decide.
  - eexists _, _, _. split; [done|]. split; [done|]. destruct Hok. split; [by apply sim_write|]. by apply app_write_capture.
  - eexists _, _, _. split; [done|]. split; [done|]. split; [by apply sim_commit|]. unfold app_commit. by destruct (sr_open s !! n).
  - eexists _, _, _. split; [done|]. split; [done|]. split; [by apply sim_abort|]. done.
  - eexists _, _, _. cbn [run_my]. rewrite (sim_read s w) by done. done.
  - eexists _, _, _. split; [done|]. split; [done|]. split; [by apply sim_confirm|].
    unfold ConfirmConsumed. destruct (Nat.eqb _ _); [done|]. by destruct (rel_of s t).
  - destruct (sim_purge s w t info targets ret Hs Hok) as (stats & s' & w' & ? & ? & ? & ?). by eexists _, _, _.
Qed.

Fixpoint run_ops {S} (run : source_op → S → option (source_out * S)) (ops : list source_op) (s : S)
    : option (list source_out * S) :=
  match ops with
  | [] => Some ([], s)
  | o :: ops => '(out, s) ← run o s; '(outs, s) ← run_ops run ops s; Some (out :: outs, s)
  end.

End refine.

(** C13: The MySQL source refines the Postgres source: on captured tables, whatever
    transactions begin, write, commit and abort, and whatever is read, confirmed and purged
    in between, both give the same answers in every step and end in corresponding states; in
    particular every purge ends. [op_ok]: the operations are on captured tables; no update
    changes a key to a different one that its collation takes for the same ([tells]: where one
    does, [collation_hides_delete], MySQL queues one delta and Postgres two); and no delta is
    dated after the purge that looks at it, or centuries before. *)
Theorem source_refines (same_key : KeyValues → KeyValues → bool) (batch : nat) (ops : list source_op)
    (s : mysrc) (w : pgworld) :
  0 < batch → sim s w → Forall (op_ok same_key s) ops →
  ∃ outs s' w', run_ops (run_my same_key batch) ops s = Some (outs, s') ∧
    run_ops (run_pg batch) ops w = Some (outs, w') ∧ sim s' w'.
Proof.
  intros Hb Hs Hok. revert s w Hs Hok. induction ops as [|o ops IH]; intros s w Hs Hok; [by exists [], s, w|].
  apply Forall_cons in Hok as [Ho Hok].
  destruct (sim_step same_key batch Hb s w o Hs Ho) as (out & s1 & w1 & H1 & H2 & Hs1 & Hc).
  destruct (IH s1 w1 Hs1) as (outs & s' & w' & H3 & H4 & Hs').
  { eapply Forall_impl; [done|]. intros o'. by apply op_ok_same. }
  exists (out :: outs), s', w'. cbn [run_ops]. rewrite H1, H2. cbn [mbind option_bind]. by rewrite H3, H4.
Qed.

(** An update within the collation class of a key. *)
Lemma collation_hides_delete (same_key : KeyValues → KeyValues → bool) t k k' r :
  same_key k' k = true → k' ≠ k →
  my_trigger same_key (CUpdate t k k' r) = [(OpUpdate, k')] ∧
  trigger (CUpdate t k k' r) = [(OpDelete, k); (OpUpdate, k')].
Proof. intros Hs Hne. simpl. rewrite Hs. by rewrite decide_True. Qed.

(** ** Installing capture *)

Record registry_ok (s : mysrc) : Prop := {
  ro_inj t t' rel : rel_of s t = Some rel → rel_of s t' = Some rel → t = t';
  ro_below t rel : rel_of s t = Some rel → (rel < sr_nextRel s)%Z
}.

(** What an installation leaves alone: the data, the queued deltas and what was consumed, the
    ids given out, and the capture of the tables for which [other] holds. *)
Record kept (other : TableRef → Prop) (s s' : mysrc) : Prop := {
  kp_data : sr_rows s' = sr_rows s ∧ sr_open s' = sr_open s ∧ sr_delta s' = sr_delta s ∧ sr_track s' = sr_track s;
  kp_auto r v : sr_auto s !! r = Some v → sr_auto s' !! r = Some v;
  kp_rel t rel : rel_of s t = Some rel → rel_of s' t = Some rel;
  kp_captured t : other t → captured s t → captured s' t
}.

Lemma kept_refl P s : kept P s s.
Proof. by split. Qed.

Lemma kept_trans P Q s1 s2 s3 : kept P s1 s2 → kept Q s2 s3 → kept (λ t, P t ∧ Q t) s1 s3.
Proof.
  intros [(?&?&?&?) A2 A3 A4] [(?&?&?&?) B2 B3 B4]. split.
  - split_and!; congruence.
  - intros r v ?. by apply B2, A2.
  - intros t rel ?. by apply B3, A3.
  - intros t [Hp Hq] ?. by apply B4, A4.
Qed.

(** The statements of one [rel_id] touch its triggers only. *)
Definition about (rel : Z) (q : ddl) : Prop :=
  match q with
  | CreateDelta r | CreateTrack r => r = rel
  | CreateTrigger r _ | DropTrigger r _ => r = rel
  | _ => False
  end.

Lemma exec_ddl_kept rel q s r s' :
  about rel q → exec_ddl q s = (r, s') →
  kept (λ t, rel_of s t ≠ Some rel) s s' ∧ sr_captured s' = sr_captured s ∧ sr_nextRel s' = sr_nextRel s.
Proof.
  intros Ha. destruct q as [r0|r0|r0 op|r0 op|r0|r0|r0]; simpl in *; try done; subst r0.
  - intros [= <- <-]. destruct (sr_auto s !! rel) eqn:E; [split; [by split|done]|]. split; [|done]. split; try done.
    + intros r' v Hv. simpl. rewrite lookup_insert_ne; [done|]. intros ->. congruence.
    + intros t _ (r' & Hr & Hau & Htk & Ht). exists r'. split_and!; [done| |done..]. simpl. apply lookup_insert_is_Some'. by right.
  - intros [= <- <-]. split; [split; try done|done].
    intros t _ (r' & Hr & Hau & Htk & Ht). exists r'. split_and!; [done..| |done]. simpl. set_solver.
  - case_decide; intros [= <- <-]; (split; [split; try done|done]).
    intros t _ (r' & Hr & Hau & Htk & Ht). exists r'. split_and!; [done..|]. intros o. simpl. set_solver.
  - intros [= <- <-]. split; [split; try done|done].
    intros t Hne (r' & Hr & Hau & Htk & Ht). exists r'. split_and!; [done..|]. intros o. simpl.
    assert (r' ≠ rel) by congruence. set_solver.
Qed.

Lemma run_all_kept fails rel n qs s err n' s' :
  Forall (about rel) qs → run_all fails n qs s = (err, n', s') →
  kept (λ t, rel_of s t ≠ Some rel) s s' ∧ sr_captured s' = sr_captured s ∧ sr_nextRel s' = sr_nextRel s.
Proof.
  intros Hq. revert n s. induction Hq as [|q qs Ha _ IH]; intros n s; simpl; [intros [= <- <- <-]; split; [apply kept_refl|done]|].
  unfold run_ddl. destruct (fails n); [intros [= <- <- <-]; split; [apply kept_refl|done]|].
  destruct (exec_ddl q s) as [[e|[]] s1] eqn:He; destruct (exec_ddl_kept rel q s _ s1 Ha He) as (K1 & C1 & N1).
  - intros [= <- <- <-]. done.
  - intros Hr. destruct (IH _ _ Hr) as (K2 & C2 & N2). split; [|split; congruence].
    assert (∀ t, rel_of s1 t = rel_of s t) as Hrel by (intros t; unfold rel_of, lookupRegistry; by rewrite C1).
    destruct (kept_trans _ _ _ _ _ K1 K2) as [K3 K4 K5 K6]. split; try done.
    intros t Ht. apply K6. by rewrite Hrel.
Qed.

Lemma run_all_cons fails n q qs s s1 err n' s' :
  run_all fails n (q :: qs) s = (err, n', s') → err = None ∨ (∀ k, fails k = false) →
  exec_ddl q s = (inr tt, s1) → run_all fails (S n) qs s1 = (err, n', s').
Proof.
  intros Hr Hok He. cbn [run_all] in Hr. unfold run_ddl in Hr. rewrite He in Hr.
  destruct (fails n) eqn:F; [|done]. injection Hr as <- _ _. destruct Hok as [?|Hok]; [done|by rewrite Hok in F].
Qed.

(** A run of the statements without a failure installs the tables and the triggers, whatever
    was there. *)
Lemma run_all_install fails rel n s err n' s' :
  run_all fails n (install_stmts rel) s = (err, n', s') → err = None ∨ (∀ k, fails k = false) →
  err = None ∧ is_Some (sr_auto s' !! rel) ∧ rel ∈ sr_tracks s' ∧ ∀ op, (rel, op) ∈ sr_trig s'.
Proof.
  intros Hr Hok.
  assert (∀ n op qs s, run_all fails n (DropTrigger rel op :: CreateTrigger rel op :: qs) s = (err, n', s') →
    ∃ n1 s1, run_all fails n1 qs s1 = (err, n', s') ∧ sr_auto s1 = sr_auto s ∧ sr_tracks s1 = sr_tracks s ∧
      (rel, op) ∈ sr_trig s1 ∧ ∀ o, o ≠ op → (rel, o) ∈ sr_trig s → (rel, o) ∈ sr_trig s1) as Hpair.
  { clear Hr. intros m op qs s0 Hr. eapply run_all_cons in Hr; [|done|done].
    eapply run_all_cons in Hr; [|done|cbn [exec_ddl sr_trig]; rewrite decide_False by set_solver; done].
    eexists _, _. split; [exact Hr|]. cbn [sr_trig sr_auto sr_tracks]. split_and!; [done..|set_solver|].
    intros o Ho Hin. set_solver. }
  change (install_stmts rel) with
    [CreateDelta rel; CreateTrack rel; DropTrigger rel OpInsert; CreateTrigger rel OpInsert; DropTrigger rel OpUpdate;
     CreateTrigger rel OpUpdate; DropTrigger rel OpDelete; CreateTrigger rel OpDelete] in Hr.
  eapply run_all_cons in Hr; [|done|done]. eapply run_all_cons in Hr; [|done|done].
  destruct (Hpair _ _ _ _ Hr) as (n1 & s1 & Hr1 & A1 & T1 & I1 & _).
  destruct (Hpair _ _ _ _ Hr1) as (n2 & s2 & Hr2 & A2 & T2 & I2 & K2).
  destruct (Hpair _ _ _ _ Hr2) as (n3 & s3 & Hr3 & A3 & T3 & I3 & K3).
  cbn [run_all] in Hr3. injection Hr3 as <- _ <-. rewrite A3, A2, A1, T3, T2, T1. cbn [sr_auto sr_tracks].
  split_and!; [done| |set_solver|intros []; [by apply K3, K2|by apply K3|done]].
  destruct (sr_auto s !! rel) eqn:E; [by rewrite E|]. simpl. by rewrite lookup_insert_eq.
Qed.

Lemma upsert_registry ref cols s rel s1 :
  registry_ok s → upsertRegistry ref cols s = (rel, s1) →
  registry_ok s1 ∧ kept (λ _, True) s s1 ∧ rel_of s1 ref = Some rel ∧ (∀ t, t ≠ ref → rel_of s1 t ≠ Some rel).
Proof.
  intros [R1 R2] Hu. injection Hu as <- <-.
  set (rel := match lookupRegistry ref s with Some (r, _) => r | None => sr_nextRel s end).
  set (s1 := mkSrc _ _ _ _ _ _ _ _ _).
  assert (∀ t, rel_of s1 t = if decide (t = ref) then Some rel else rel_of s t) as Hrel.
  { intros t. unfold rel_of, lookupRegistry, s1. simpl. case_decide as Ht; [subst; by rewrite lookup_insert_eq|].
    by rewrite lookup_insert_ne. }
  assert (∀ t, t ≠ ref → rel_of s t ≠ Some rel) as Hnew.
  { intros t Ht Hr. unfold rel in Hr. destruct (lookupRegistry ref s) as [[r c]|] eqn:El.
    - apply Ht, (R1 _ _ r); [done|]. unfold rel_of. by rewrite El.
    - specialize (R2 _ _ Hr). lia. }
  assert (rel < sr_nextRel s + 1)%Z as Hlt.
  { unfold rel. destruct (lookupRegistry ref s) as [[r c]|] eqn:El; [|lia].
    assert (r < sr_nextRel s)%Z; [apply (R2 ref); unfold rel_of; by rewrite El|lia]. }
  split; [|split; [|split]].
  - split.
    + intros t t' r. rewrite !Hrel. repeat case_decide; intros H1 H2; subst; try done.
      * injection H1 as <-. by destruct (Hnew t').
      * injection H2 as <-. by destruct (Hnew t).
      * by apply (R1 _ _ r).
    + intros t r. rewrite Hrel. unfold s1. simpl. case_decide; [by intros [= <-]|]. intros Hr. specialize (R2 _ _ Hr). lia.
  - assert (∀ t r, rel_of s t = Some r → rel_of s1 t = Some r) as Hkeep.
    { intros t r Hr. rewrite Hrel. case_decide as Ht; [subst|done]. unfold rel, rel_of in *.
      destruct (lookupRegistry ref s) as [[r' c]|]; [|done]. by simpl in *. }
    split; try done. intros t _ (r & Hr & Htr). exists r. split; [by apply Hkeep|done].
  - by rewrite Hrel, decide_True.
  - intros t Ht. rewrite Hrel, decide_False by done. by apply Hnew.
Qed.

Lemma installOne_spec fails n ref cols s err n' s' :
  registry_ok s → installOne fails n ref cols s = (err, n', s') →
  registry_ok s' ∧ kept (λ t, t ≠ ref) s s' ∧
  (err = None ∨ (∀ k, fails k = false) → err = None ∧ captured s' ref).
Proof.
  intros Hok. unfold installOne. destruct (fails n) eqn:F.
  { intros [= <- <- <-]. split; [done|]. split; [by split|]. intros [?|Hf]; [done|]. by rewrite Hf in F. }
  destruct (upsertRegistry ref cols s) as [rel s1] eqn:Hu.
  destruct (upsert_registry ref cols s rel s1 Hok Hu) as (Hok1 & K1 & Hr1 & Hother). intros Hrun.
  destruct (run_all_kept fails rel (S n) (install_stmts rel) s1 err n' s') as (K2 & C2 & N2); [by repeat constructor|done|].
  assert (∀ t, rel_of s' t = rel_of s1 t) as Hrel by (intros t; unfold rel_of, lookupRegistry; by rewrite C2).
  split; [|split].
  - destruct Hok1 as [R1 R2]. split; [intros t t' r; rewrite !Hrel; apply R1|intros t r; rewrite Hrel, N2; apply R2].
  - destruct (kept_trans _ _ _ _ _ K1 K2) as [K3 K4 K5 K6]. split; try done. intros t Ht. apply K6. split; [done|by apply Hother].
  - intros Hcase. destruct (run_all_install fails rel (S n) s1 err n' s' Hrun Hcase) as [? Htr]. split; [done|].
    exists rel. by rewrite Hrel.
Qed.

(** C14: Installing capture on MySQL, where every statement commits on its own, is
    crash-safe: from any registry, also one an earlier attempt left half-way, and whichever
    statement fails, the data, the queued deltas, what was consumed and the ids of the tables
    are kept; when it returns without an error every table with a key is captured, with its
    registry row, delta table, track table and three triggers; and it does return so when no
    statement fails and nothing blocks. *)
Theorem installCapture_installs (fails : nat → bool) (n : nat) (ver : Z) (others : TableRef → list (string * string))
    (introspected : gmap TableRef Table) (tables : list TableRef) (s : mysrc) err n' s' :
  registry_ok s → installCapture fails n ver others introspected tables s = (err, n', s') →
  registry_ok s' ∧ kept (λ t, t ∉ tables) s s' ∧
  (err = None → ∀ t tbl, t ∈ tables → introspected !! t = Some tbl → MyApply.captureColsFor tbl ≠ [] → captured s' t) ∧
  ((∀ k, fails k = false) →
   (∀ t, t ∈ tables → is_Some (introspected !! t) ∧ blockConflictingTrigger ver (others t) t = None) → err = None).
Proof.
  revert n s. induction tables as [|ref tables IH]; intros n s Hok; cbn [installCapture].
  { intros [= <- <- <-]. split_and!; [done|apply kept_refl|by intros _ t tbl ?%not_elem_of_nil|done]. }
  destruct (introspected !! ref) as [tbl|] eqn:Htbl.
  2: { intros [= <- <- <-]. split_and!; [done|apply kept_refl|done|].
       intros _ Hall. destruct (Hall ref ltac:(by left)) as [[? Hx] _]. congruence. }
  destruct (Nat.eqb_spec (length (MyApply.captureColsFor tbl)) 0) as [Hc|Hc].
  { intros Hr. destruct (IH n s Hok Hr) as (I1 & [K1 K2 K3 K4] & I3 & I4). split_and!; [done| | |].
    - split; try done. intros t Ht. apply K4. by intros ?; apply Ht; right.
    - intros He t tbl' [->|Hin]%elem_of_cons Ht Hcols; [|by apply (I3 He t tbl')].
      rewrite Htbl in Ht. injection Ht as <-. destruct Hcols. by apply nil_length_inv.
    - intros Hf Hall. apply I4; [done|]. intros t Ht. apply Hall. by right. }
  destruct (blockConflictingTrigger ver (others ref) ref) as [e|] eqn:Hb.
  { intros [= <- <- <-]. split_and!; [done|apply kept_refl|done|].
    intros _ Hall. destruct (Hall ref ltac:(by left)) as [_ ?]. congruence. }
  destruct (installOne fails n ref (MyApply.captureColsFor tbl) s) as [[err1 n1] s1] eqn:Hone.
  destruct (installOne_spec _ _ _ _ _ _ _ _ Hok Hone) as (Hok1 & K1 & Hcap). destruct err1 as [e|].
  { intros [= <- <- <-]. split_and!; [done| |done|].
    - destruct K1 as [A1 A2 A3 A4]. split; try done. intros t Ht. apply A4. intros ->. apply Ht. by left.
    - intros Hf _. destruct (Hcap (or_intror Hf)). done. }
  intros Hr. destruct (IH n1 s1 Hok1 Hr) as (I1 & K2 & I3 & I4). split_and!; [done| | |].
  - destruct (kept_trans _ _ _ _ _ K1 K2) as [A1 A2 A3 A4]. split; try done.
    intros t Ht%not_elem_of_cons. by apply A4.
  - intros He t tbl' Hin Ht Hcols. destruct (decide (t ∈ tables)) as [Hin'|Hout]; [by apply (I3 He t tbl')|].
    apply elem_of_cons in Hin as [->|?]; [|done]. apply (kp_captured _ _ _ K2); [done|]. by apply Hcap; left.
  - intros Hf Hall. apply I4; [done|]. intros t Ht. apply Hall. by right.
Qed.

(** A re-install misses writes: a transaction that begins after the trigger of its
    statement was dropped and commits before the trigger is created again is in the data,
    capture is installed afterwards, and no delta was written for it. *)
Theorem reinstall_misses_write (same_key : KeyValues → KeyValues → bool) (s : mysrc) (ch : change) (rel : Z) (n : nat) :
  captured s (change_table ch) → rel_of s (change_table ch) = Some rel → sr_open s !! n = None →
  let s1 := (exec_ddl (DropTrigger rel (change_op ch)) s).2 in
  let s2 := app_commit n (app_write same_key n ch (app_begin n s1)) in
  let s3 := (exec_ddl (CreateTrigger rel (change_op ch)) s2).2 in
  captured s3 (change_table ch) ∧ sr_rows s3 = apply_writes (change_writes ch) (sr_rows s) ∧ sr_delta s3 = sr_delta s.
Proof.
  intros (rel' & Hr' & Hau & Htk & Htrig) Hrel Hn. assert (rel' = rel) as -> by congruence. cbv zeta.
  set (s1 := (exec_ddl _ s).2).
  assert (app_begin n s1 = set_data s1 (sr_rows s) (<[n := mkOpen ∅ []]> (sr_open s)) (sr_auto s) (sr_delta s)) as ->
    by (unfold app_begin; by rewrite decide_True).
  set (s2 := set_data s1 _ _ _ _). unfold app_write. cbn [s2 set_data sr_open]. rewrite lookup_insert_eq.
  assert (fire same_key ch s2 = Some ([], sr_auto s)) as Hfire.
  { unfold fire. change (rel_of s2 (change_table ch)) with (rel_of s (change_table ch)). rewrite Hrel, decide_False; [done|].
    simpl. set_solver. }
  fold s2. rewrite Hfire. unfold app_commit. cbn [set_data sr_open]. rewrite lookup_insert_eq.
  cbn [ox_writes ox_deltas app list_to_map exec_ddl set_data sr_trig s1 snd].
  rewrite decide_False by set_solver. split_and!.
  - exists rel. split_and!; [done..|]. intros op. cbn [snd sr_trig]. destruct (decide (op = change_op ch)) as [->|Hop]; [set_solver|].
    specialize (Htrig op). set_solver.
  - cbn [snd sr_rows s2 set_data]. by rewrite (right_id_L ∅ (∪)).
  - change (∅ ∪ sr_delta s = sr_delta s). by rewrite (left_id_L ∅ (∪)).
Qed.

(** The size cap looks at the size of the table's file, which InnoDB does not shrink when rows
    are deleted: while it is over the cap every purge that finds a delta sacrifices the
    target again. *)
Lemma size_cap_sacrifices info s rel tg ret i d :
  (0 < MaxBytes ret < mi_totalBytes info)%Z → sr_delta s !! (rel, i) = Some d → (rel, tg, i) ∉ sr_track s →
  my_overCap info s rel [tg] ret = [tg].
Proof.
  intros [H1 H2] Hd Ht. unfold my_overCap, overCapTargets. rewrite decide_False by lia. cbv zeta.
  assert (bl_HasBacklog (my_backlog info s rel tg) = true) as Hb.
  { simpl. apply bool_decide_eq_true. assert (i ∈ filter (λ i, (rel, tg, i) ∉ sr_track s) (my_ids s rel)) as Hi.
    { apply list_elem_of_filter. split; [done|]. apply elem_of_my_ids. by eexists. }
    destruct (filter _ _); [by apply not_elem_of_nil in Hi|]. simpl. lia. }
  rewrite (decide_True (P := (0 < MaxBytes ret ∧ MaxBytes ret < mi_totalBytes info)%Z)) by done.
  cbn [fmap list_fmap laggard]. rewrite Hb. cbn [andb].
  assert (∀ l, l = [] ∨ l = [tg] → sort_by id (remove_dups (l ++ [tg])) = [tg]) as Hl.
  { intros l [->| ->]; simpl; [done|]. destruct (decide_rel _ tg [tg]); [done|set_solver]. }
  apply Hl. case_decide; [|by left]. rewrite filter_cons. case_decide; [by right|by left].
Qed.

(** ** Examples *)

Section example.
Definition ex_users : TableRef := mkRef "shop" "users".
Definition ex_table : Table :=
  mkTable ex_users [mkColumn "id" "int" false false false false false ""] (Some (mkKey "PRIMARY" ["id"] true)) [] [] false "InnoDB".
Definition ex_key : KeyValues := [VText "7"].
Definition ex_src : mysrc :=
  mkSrc ∅ ∅ {[ ex_users := (1%Z, ["id"]) ]} 2 {[ 1%Z := 1%Z ]} ∅ {[ 1%Z ]} ∅
    {[ (1%Z, OpInsert); (1%Z, OpUpdate); (1%Z, OpDelete) ]}.
Definition ex_pg : pgworld := mkW ∅ ∅ ∅ ∅ ∅ ∅ ∅.
Definition eq_key (k k' : KeyValues) : bool := bool_decide (k = k').
Definition ex_ret : RetentionPolicy := mkRetention 0 100.
Definition ex_info : myInfo := mkInfo 5 (λ _, 3%Z) 50.
Definition ex_ops : list source_op :=
  [SBegin 0; SWrite 0 (CInsert ex_users ex_key ∅); SCommit 0; SRead ex_users "t" 10; SConfirm ex_users "t" [1%Z];
   SPurge ex_info ex_users ["t"] ex_ret; SRead ex_users "t" 10].

Lemma ex_rel t rel : rel_of ex_src t = Some rel → t = ex_users ∧ rel = 1%Z.
Proof.
  unfold rel_of, lookupRegistry, ex_src. simpl. intros ([r c] & Hx & Hr)%fmap_Some.
  apply lookup_singleton_Some in Hx as [<- [= <- <-]]. by simpl in Hr.
Qed.

Lemma ex_captured : captured ex_src ex_users.
Proof. exists 1%Z. split_and!; [done|by eexists|simpl; set_solver|]. intros []; simpl; set_solver. Qed.

Lemma ex_sim : sim ex_src ex_pg.
Proof.
  split; try done.
  - by intros t t' rel [-> _]%ex_rel [-> _]%ex_rel.
  - intros t i. simpl. rewrite lookup_empty. destruct (rel_of ex_src t); [simpl; by rewrite lookup_empty|done].
  - intros t tg i. simpl. set_solver.
  - by intros t rel [-> ->]%ex_rel.
Qed.

Lemma source_refines_witness :
  ∃ outs s' w', run_ops (run_my eq_key 10) ex_ops ex_src = Some (outs, s') ∧
    run_ops (run_pg 10) ex_ops ex_pg = Some (outs, w') ∧ sim s' w'.
Proof.
  apply (source_refines eq_key 10 ex_ops ex_src ex_pg ltac:(lia) ex_sim).
  unfold ex_ops. repeat (apply Forall_cons; split); try apply ex_captured; try done.
  { split; [apply ex_captured|exact I]. }
  split; [apply ex_captured|]. intros i. simpl. lia.
Defined.

(** The delta is read, confirmed and purged. *)
Lemma ex_run :
  fst <$> run_ops (run_my eq_key 10) ex_ops ex_src =
  Some [ODone; ODone; ODone; OKeys (inr [mkDirty 1%Z OpInsert ex_key]); ODone; OStats (inr (mkPurgeStats 1%Z [])); OKeys (inr [])].
Proof. vm_compute. reflexivity. Qed.

(** An installation that stopped after the first trigger, run again. *)
Definition ex_empty : mysrc := mkSrc ∅ ∅ ∅ 1 ∅ ∅ ∅ ∅ ∅.
Definition ex_half : mysrc :=
  (installCapture (λ n, bool_decide (n = 5)) 0 80000 (λ _, []) {[ ex_users := ex_table ]} [ex_users] ex_empty).2.

Lemma ex_half_ok : registry_ok ex_half.
Proof.
  assert (∀ t rel, rel_of ex_half t = Some rel → t = ex_users ∧ rel = 1%Z) as Hrel.
  { intros t rel. unfold rel_of, lookupRegistry. change (sr_captured ex_half) with ({[ ex_users := (1%Z, ["id"]) ]} : gmap TableRef (Z * list string)).
    intros ([r c] & Hx & Hr)%fmap_Some. apply lookup_singleton_Some in Hx as [<- [= <- <-]]. by simpl in Hr. }
  split; [by intros t t' rel [-> _]%Hrel [-> _]%Hrel|]. intros t rel [_ ->]%Hrel. done.
Qed.

Lemma installCapture_installs_witness :
  ∃ n' s', installCapture (λ _, false) 0 80000 (λ _, []) {[ ex_users := ex_table ]} [ex_users] ex_half = (None, n', s') ∧
    registry_ok s' ∧ captured s' ex_users.
Proof.
  destruct (installCapture (λ _, false) 0 80000 (λ _, []) {[ ex_users := ex_table ]} [ex_users] ex_half)
    as [[err n'] s'] eqn:He.
  destruct (installCapture_installs (λ _, false) 0 80000 (λ _, []) {[ ex_users := ex_table ]} [ex_users] ex_half err n' s'
    ex_half_ok He) as (H1 & _ & H3 & H4).
  assert (err = None) as ->.
  { clear He. apply H4; [reflexivity|]. intros t ->%list_elem_of_singleton. split; [eexists|]; vm_compute; reflexivity. }
  clear He. exists n', s'. split; [reflexivity|]. split; [exact H1|].
  apply (H3 eq_refl ex_users ex_table); [left; reflexivity|vm_compute; reflexivity|discriminate].
Defined.

Lemma reinstall_misses_write_witness :
  let s1 := (exec_ddl (DropTrigger 1 OpInsert) ex_src).2 in
  let s2 := app_commit 0 (app_write eq_key 0 (CInsert ex_users ex_key ∅) (app_begin 0 s1)) in
  let s3 := (exec_ddl (CreateTrigger 1 OpInsert) s2).2 in
  captured s3 ex_users ∧ sr_rows s3 = apply_writes (change_writes (CInsert ex_users ex_key ∅)) ∅ ∧ sr_delta s3 = ∅.
Proof. apply (reinstall_misses_write eq_key ex_src (CInsert ex_users ex_key ∅) 1 0); [apply ex_captured|done|done]. Defined.
End example.
End MyCapture.
