(* ===== verification/MyLoad.v ===== *)
(** * The one-table apply and the loaders of the MySQL engine

    [Sink.ApplyPass] ([apply.go]), [BulkLoad], [DeleteRange] ([sink_load.go]), [mergeLoad]
    ([merge.go]) and the two loaders of cyclic components ([cyclic.go]), on the session of
    [MySession]. What the source sends is given as an [upload] per table and column list. *)

From S2P Require Import Prelude Text Engine ApplyTx Plan MySession MyApply.
Import Text ApplyTx Plan MySession MyApply.

Module MyLoad.

Section load.
Context `{Srv : Server} (localInfile : bool).

(** [db.BeginTx], a body, [tx.Commit], and the deferred [tx.Rollback] of what did not commit. *)
Definition db_tx {A} (msg : string) (body : M session A) : M session A :=
  _ ← wrapf (msg +:+ ": begin") db_begin;
  x ← on_err (_ ← ignore rollback_tx; unpin) body;
  _ ← deferred unpin (wrapf (msg +:+ ": commit") commit_tx);
  mret x.

(** A staging table that is dropped first and made. *)
Definition restage (msg make : string) (stg : string) : M session unit :=
  _ ← wrapf (msg +:+ ": drop stale staging") (drop_temp stg);
  wrapf (msg +:+ ": " +:+ make) (create_temp stg).

(** [Sink.ApplyPass], and the statements of its transaction. *)
Definition apply_statements (t : TableRef) (key keyCols cols : list string) (dirtyKeys : list KeyValues)
    (reread : upload) : M session unit :=
  let stg := "rc_apply_stg" in
  _ ← restage "mysql: apply" "staging" stg;
  _ ← wrapf ("mysql: apply: stage re-read " +:+ ref_string t)
        (runLoad localInfile (bq stg) (load_temp stg t cols reread));
  _ ← wrapf ("mysql: apply: upsert " +:+ ref_string t) (upsert_from t key cols stg);
  wrapf ("mysql: apply: delete-absent " +:+ ref_string t) (delete_absent t keyCols dirtyKeys stg).

Definition ApplyPass (t : TableRef) (cols : list string) (dirtyKeys : list KeyValues) (reread : upload)
    : M session unit :=
  tbl ← tableMeta t;
  match replicationKey tbl with
  | None => fail (Failure ("mysql: apply: target " +:+ ref_string t +:+ " has no usable key"))
  | Some key =>
      match tempColumnDDL tbl cols with
      | inl e => fail e
      | inr _ =>
          db_tx "mysql: apply"
            (apply_statements t (key_Columns key) (captureColsFor tbl).*1 cols dirtyKeys reread)
      end
  end.

(** [mergeLoad] *)
Definition mergeLoad (t : TableRef) (cols : list string) (r : upload) : M session Z :=
  tbl ← tableMeta t;
  match replicationKey tbl with
  | None =>
      fail (Failure ("mysql: merge load: target " +:+ ref_string t +:+ " has no usable key for ON DUPLICATE KEY"))
  | Some key =>
      match tempColumnDDL tbl cols with
      | inl e => fail e
      | inr _ =>
          let stg := "rc_merge_stg" in
          db_tx "mysql: merge load"
            (_ ← restage "mysql: merge load" "create staging" stg;
             n ← wrapf "mysql: merge load: stage" (runLoad localInfile (bq stg) (load_temp stg t cols r));
             _ ← wrapf ("mysql: merge load: upsert " +:+ ref_string t) (upsert_from t (key_Columns key) cols stg);
             mret n)
      end
  end.

(** [BulkLoad] *)
Definition BulkLoad (t : TableRef) (cols : list string) (r : upload) (mode : LoadMode) : M session Z :=
  match cols with
  | [] => fail (Failure ("mysql: bulk load: no columns for " +:+ ref_string t))
  | _ =>
      match mode with
      | LoadMerge => mergeLoad t cols r
      | LoadDirect => runLoad localInfile (qualify t) (pool (load_table t cols r))
      end
  end.

(** [DeleteRange]; [klt]: the order of the key values, as the columns' collation has it. *)
Definition key_values (key : list string) (r : Row) : KeyValues :=
  (λ c, match r !! c with Some v => VText v | None => VNull end) <$> key.

Definition range_pred (klt : KeyValues → KeyValues → Prop) `{!RelDecision klt} (key : list string)
    (lo hi : option KeyValues) (r : Row) : bool :=
  match lo, hi with
  | None, None => true
  | _, _ =>
      forallb (λ c, bool_decide (r !! c ≠ None)) key && bool_decide (in_range klt lo hi (key_values key r))
  end.

Definition DeleteRange (klt : KeyValues → KeyValues → Prop) `{!RelDecision klt} (t : TableRef)
    (lo hi : option KeyValues) : M session unit :=
  tbl ← tableMeta t;
  match captureColsFor tbl with
  | [] => fail (Failure ("mysql: delete range: table " +:+ ref_string t +:+ " has no usable key"))
  | keyCols =>
      wrapf ("mysql: delete range " +:+ ref_string t)
        (pool (λ s, match delete_where (s_fk s) t (range_pred klt keyCols.*1 lo hi) (seen s) [] (rows_of (seen s) t) with
                    | inl e => (inl e, s)
                    | inr d => (inr tt, write s d)
                    end))
  end.

(** ** Cyclic components *)

(** What the source offers: its metadata, and a stream of the columns of a table. *)
Context (src_meta : TableRef → result Table) (stream : TableRef → list string → upload).

(** [pipeLoad]: the read error wins. *)
Definition pipe_err {A} (u : upload) (m : M session A) : M session unit := λ s,
  match m s with
  | (inl e, s) => (inl (default e (up_err u)), s)
  | (inr _, s) => (inr tt, s)
  end.

Definition pipeLoad_temp (ref : TableRef) (cols : list string) (stg : string) : M session unit :=
  let u := stream ref cols in pipe_err u (runLoad localInfile (bq stg) (load_temp stg ref cols u)).

Definition pipeLoad_table (on : M session Z → M session Z) (ref : TableRef) (cols : list string) : M session unit :=
  let u := stream ref cols in pipe_err u (runLoad localInfile (qualify ref) (on (load_table ref cols u))).

(** [targetEmptyMy] *)
Definition targetEmptyMy (ref : TableRef) : M session bool :=
  wrapf ("mysql: probe target emptiness " +:+ ref_string ref)
    (pool (query (λ d, bool_decide (rows_of d ref = [])))).

(** [idempotentStageLoad] *)
Definition idempotentStageLoad (ref : TableRef) (cols : list string) (tgt : Table) (stg : string) : M session unit :=
  match replicationKey tgt with
  | None =>
      fail (Failure ("mysql: staged load: target " +:+ ref_string ref +:+ " has no usable key for ON DUPLICATE KEY"))
  | Some key =>
      match tempColumnDDL tgt cols with
      | inl e => fail e
      | inr _ =>
          _ ← restage "mysql: staged load" "create staging" stg;
          _ ← wrapf ("mysql: staged load: stage " +:+ ref_string ref) (pipeLoad_temp ref cols stg);
          _ ← wrapf ("mysql: staged load: upsert " +:+ ref_string ref) (upsert_from ref (key_Columns key) cols stg);
          wrapf "mysql: staged load: drop staging" (drop_temp stg)
      end
  end.

Definition of_result {A} (r : result A) : M session A := λ s, (r, s).

(** [LoadCyclicNullFill] *)
Definition LoadCyclicNullFill (ref : TableRef) : M session unit :=
  table ← of_result (src_meta ref);
  let fkCols := selfRefFKCols table in
  let pk := (captureColsFor table).*1 in
  match fkCols, pk with
  | [], _ => fail (Failure ("mysql: null-fill: " +:+ ref_string ref +:+ " has no self-referential FK columns"))
  | _, [] => fail (Failure ("mysql: null-fill: " +:+ ref_string ref +:+ " has no usable key"))
  | _, _ =>
      tgt ← tableMeta ref;
      let pass1 := subtractCols (transportCols table) fkCols in
      empty ← targetEmptyMy ref;
      _ ← (if (empty : bool)
           then wrapf ("mysql: null-fill pass 1 (" +:+ ref_string ref +:+ ")") (pipeLoad_table pool ref pass1)
           else db_tx "mysql: null-fill pass 1"
                  (wrapf ("mysql: null-fill pass 1 (" +:+ ref_string ref +:+ ")")
                     (idempotentStageLoad ref pass1 tgt "rc_nf1_stg")));
      match tempColumnDDL tgt (pk ++ fkCols) with
      | inl e => fail e
      | inr _ =>
          let stg := "rc_fill_stg" in
          db_tx "mysql: null-fill pass 2"
            (_ ← restage "mysql: null-fill pass 2" "staging" stg;
             _ ← wrapf "mysql: null-fill pass 2: stage" (pipeLoad_temp ref (pk ++ fkCols) stg);
             wrapf "mysql: null-fill pass 2: update" (update_from ref pk fkCols stg))
      end
  end.

(** The tables of [LoadCyclicFKChecks], with what is read before the connection is pinned. *)
Record tinfo := mkInfo { ti_ref : TableRef; ti_cols : list string; ti_tgt : Table; ti_empty : bool }.

Fixpoint prefetch (tables : list TableRef) : M session (list tinfo) :=
  match tables with
  | [] => mret []
  | ref :: tables =>
      tbl ← of_result (src_meta ref);
      tgt ← tableMeta ref;
      empty ← targetEmptyMy ref;
      infos ← prefetch tables;
      mret (mkInfo ref (transportCols tbl) tgt empty :: infos)
  end.

Fixpoint load_tables (i : nat) (infos : list tinfo) : M session unit :=
  match infos with
  | [] => mret tt
  | info :: infos =>
      let msg := "mysql: cyclic load " +:+ ref_string (ti_ref info) in
      _ ← wrapf msg
            (if ti_empty info then pipeLoad_table stmt (ti_ref info) (ti_cols info)
             else idempotentStageLoad (ti_ref info) (ti_cols info) (ti_tgt info) ("rc_fk_stg_" +:+ pretty i));
      load_tables (S i) infos
  end.

(** [verifyNoOrphans] of [cyclic.go]: the foreign keys are the source's. *)
Definition verify_src_fk (fk : ForeignKey) : M session unit :=
  found ← wrapf ("mysql: cyclic load: verify FK " +:+ fk_Name fk) (stmt (query (anti_join fk)));
  if (found : bool)
  then fail (Failure ("mysql: cyclic load: FK " +:+ fk_Name fk +:+ " (" +:+ ref_string (fk_Child fk) +:+
                      ") has an orphan referencing a missing parent in " +:+ ref_string (fk_Parent fk)))
  else mret tt.

Definition verifySource (tables : list TableRef) : M session unit :=
  iterM (λ ref, tbl ← of_result (src_meta ref); iterM verify_src_fk (tbl_ForeignKeys tbl)) tables.

(** [LoadCyclicFKChecks] *)
Definition checks_off (infos : list tinfo) (tables : list TableRef) : M session unit :=
  _ ← wrapf "mysql: cyclic load: disable fk checks" (set_fk_checks false);
  _ ← load_tables 0 infos;
  _ ← wrapf "mysql: cyclic load: re-enable fk checks" (set_fk_checks true);
  verifySource tables.

Definition LoadCyclicFKChecks (tables : list TableRef) : M session unit :=
  infos ← prefetch tables;
  _ ← wrapf "mysql: cyclic load: pin connection" pin;
  deferred unpin
    (_ ← wrapf "mysql: cyclic load: begin" begin_tx;
     _ ← on_err (ignore rollback_tx) (checks_off infos tables);
     wrapf "mysql: cyclic load: commit" commit_tx).

(** ** Nothing unverified is published *)

Definition src_fks (tables : list TableRef) : list ForeignKey :=
  tables ≫= λ ref, match src_meta ref with inr t => tbl_ForeignKeys t | inl _ => [] end.

(** Inside the transaction, over the committed rows [d0]. *)
Definition in_load (d0 : tables) (s : session) : Prop := s_db s = d0 ∧ is_Some (s_tx s).

Lemma stmt_load {A} (f : M session A) d0 :
  (∀ s, in_load d0 s → in_load d0 (f s).2) → triple (in_load d0) (stmt f) (step_to d0 (in_load d0)).
Proof.
  intros Hf. apply stmt_step; [done|by intros s []|]. intros s Hs. destruct (Hf s Hs) as [H1 H2]. by split.
Qed.

Lemma write_load s d d0 : in_load d0 s → in_load d0 (write s d).
Proof. intros [H1 [d1 H2]]. unfold write. rewrite H2. split; simpl; by eauto. Qed.

Lemma dml_load name f d0 : triple (in_load d0) (dml_from name f) (step_to d0 (in_load d0)).
Proof.
  apply stmt_load. intros s Hs. destruct (temp_rows name s); [done|]. destruct (f _ _ _); [done|].
  by apply write_load.
Qed.

Lemma restage_load msg make stg d0 : triple (in_load d0) (restage msg make stg) (step_to d0 (in_load d0)).
Proof.
  unfold restage. eapply step_bind; [apply step_wrapf, stmt_load; by intros s []|intros _].
  apply step_wrapf, stmt_load. intros s Hs. by destruct (s_temp s !! stg).
Qed.

Lemma pipe_load {A} u into (m : M session A) d0 :
  triple (in_load d0) m (step_to d0 (in_load d0)) →
  triple (in_load d0) (pipe_err u (runLoad localInfile into m)) (step_to d0 (in_load d0)).
Proof.
  intros Hm s Hs. unfold pipe_err, runLoad. destruct localInfile; [|split; [by destruct Hs|done]].
  destruct (step_wrapf _ ("mysql: load into " +:+ into) _ _ _ Hm s Hs) as [H1 H2].
  destruct (wrapf _ m s) as [[e|a] s1]; split; try done. intros _ _. by apply (H2 a).
Qed.

Lemma stageLoad_load ref cols tgt stg d0 :
  triple (in_load d0) (idempotentStageLoad ref cols tgt stg) (step_to d0 (in_load d0)).
Proof.
  unfold idempotentStageLoad. destruct (replicationKey tgt); [|by apply step_fail; intros s []].
  destruct (tempColumnDDL tgt cols); [by apply step_fail; intros s []|].
  eapply step_bind; [apply restage_load|intros _].
  eapply step_bind; [|intros _; eapply step_bind; [apply step_wrapf, dml_load|intros _]].
  - apply step_wrapf, pipe_load, stmt_load. intros s Hs. by destruct (s_temp s !! stg) as [[]|].
  - apply step_wrapf, stmt_load. by intros s [].
Qed.

Lemma load_tables_load i infos d0 :
  triple (in_load d0) (load_tables i infos) (step_to d0 (in_load d0)).
Proof.
  revert i. induction infos as [|info infos IH]; intros i; [by intros s Hs; split; [destruct Hs|]|].
  cbn [load_tables]. cbv zeta. eapply step_bind; [|intros _; apply IH]. apply step_wrapf.
  destruct (ti_empty info); [|apply stageLoad_load]. unfold pipeLoad_table. cbv zeta.
  apply pipe_load, stmt_load. intros s Hs. unfold load_table. destruct (load_all _ _ _ _ _). by apply write_load.
Qed.

(** The verification reads the rows the commit publishes. *)
Definition loaded (d0 d : tables) (s : session) : Prop := s_db s = d0 ∧ s_tx s = Some d.

Lemma verify_src_fk_spec fk d0 d :
  triple (loaded d0 d) (verify_src_fk fk) (step_to d0 (λ s, loaded d0 d s ∧ anti_join fk d = false)).
Proof.
  unfold verify_src_fk.
  apply (triple_bind _ (λ r s, s_db s = d0 ∧ ∀ b, r = inr b → loaded d0 d s ∧ b = anti_join fk d)).
  - intros s [H1 H2]. unfold wrapf, stmt, query. destruct (s_ok s); [|by split].
    destruct (s_net s) as [|[|e|e|e] net]; simpl; (split; [done|]); try done; intros b [= <-];
      (split; [done|]); unfold seen; simpl; by rewrite H2.
  - intros b s [H1 H2]. destruct (H2 b eq_refl) as [Hl Hb]. destruct b; [by split|]. by split.
  - intros e s [H1 _]. by split.
Qed.

Lemma verify_list_spec {X} (f : X → M session unit) (P : X → Prop) l d0 d :
  (∀ x, triple (loaded d0 d) (f x) (step_to d0 (λ s, loaded d0 d s ∧ P x))) →
  triple (loaded d0 d) (iterM f l) (step_to d0 (λ s, loaded d0 d s ∧ Forall P l)).
Proof.
  intros Hf. induction l as [|x l IH]; [by intros s Hs; split; [destruct Hs|]|]. cbn [iterM].
  eapply step_bind; [apply Hf|]. intros _ s [Hs Hx]. destruct (IH s Hs) as [H1 H2]. split; [done|].
  intros a Ha. destruct (H2 a Ha). split; [done|]. by constructor.
Qed.

Lemma verifySource_spec tables d0 d :
  triple (loaded d0 d) (verifySource tables) (step_to d0 (λ s, loaded d0 d s ∧ consistent (src_fks tables) d)).
Proof.
  unfold verifySource. eapply triple_conseq; [|done|].
  - apply (verify_list_spec _ (λ ref, ∀ tbl, src_meta ref = inr tbl →
      Forall (λ fk, anti_join fk d = false) (tbl_ForeignKeys tbl))).
    intros ref. unfold of_result. destruct (src_meta ref) as [e|tbl].
    { intros s [H1 H2]. by split. }
    intros s Hs. unfold mbind, M_bind.
    destruct (verify_list_spec verify_src_fk (λ fk, anti_join fk d = false) (tbl_ForeignKeys tbl) d0 d
      (λ fk, verify_src_fk_spec fk d0 d) s Hs) as [H1 H2].
    split; [done|]. intros a Ha. destruct (H2 a Ha). split; [done|]. by intros tbl' [= <-].
  - intros r s [H1 H2]. split; [done|]. intros a Ha. destruct (H2 a Ha) as [Hs Hall]. split; [done|].
    apply Forall_forall. intros fk (ref & Hfk & Href)%list_elem_of_bind.
    rewrite Forall_forall in Hall. specialize (Hall ref Href). destruct (src_meta ref) as [e|tbl]; [by apply not_elem_of_nil in Hfk|].
    specialize (Hall tbl eq_refl). rewrite Forall_forall in Hall. by apply anti_join_sound, Hall.
Qed.

Lemma checks_off_spec infos tables d0 :
  triple (in_load d0) (checks_off infos tables)
    (step_to d0 (λ s, ∃ d, loaded d0 d s ∧ consistent (src_fks tables) d)).
Proof.
  unfold checks_off. eapply step_bind; [apply step_wrapf, stmt_load; by intros s []|intros _].
  eapply step_bind; [apply load_tables_load|intros _].
  eapply step_bind; [apply step_wrapf, stmt_load; by intros s []|intros _].
  intros s [H1 [d H2]]. destruct (verifySource_spec tables d0 d s) as [F1 F2]; [done|].
  split; [done|]. intros a Ha. exists d. by apply (F2 a).
Qed.

Lemma commit_db s d0 d2 :
  s_db s = d0 → s_tx s = Some d2 →
  (s_db (commit_tx s).2 = d0 ∨ s_db (commit_tx s).2 = d2) ∧ ((commit_tx s).1 = inr tt → s_db (commit_tx s).2 = d2).
Proof.
  intros Hd Ht. unfold commit_tx. destruct (s_ok s); [|by split; [left|]].
  unfold end_tx. destruct (s_net s) as [|[|e|e|e] net]; simpl; rewrite ?Ht; simpl; auto; (split; [by left|done]).
Qed.

Lemma rollback_db s : s_db (rollback_tx s).2 = s_db s.
Proof.
  unfold rollback_tx. destruct (s_ok s); [|done]. unfold end_tx.
  destruct (s_net s) as [|[|e|e|e] net]; simpl; try done; by destruct (s_tx s).
Qed.

(** Before the transaction. *)
Definition idle (d0 : tables) (s : session) : Prop := s_db s = d0 ∧ s_tx s = None.

Lemma pool_idle {A} (f : M session A) d0 :
  (∀ s, s_db (f s).2 = s_db s ∧ s_tx (f s).2 = s_tx s) → keeps (idle d0) (pool f).
Proof.
  intros Hf s [H1 H2]. unfold pool. destruct (s_pinned s); [done|]. unfold stmt. simpl.
  destruct (Hf (pop (set_sok s true))) as [F1 F2]. simpl in *.
  destruct (s_net s) as [|[|e|e|e] net]; simpl; split; simpl; congruence.
Qed.

Lemma tableMeta_idle ref d0 : keeps (idle d0) (tableMeta ref).
Proof.
  intros s Hs. unfold tableMeta. destruct (decide _); [by destruct (meta_lookup ref)|].
  apply pool_idle; [|done]. intros s1. by destruct (meta_lookup ref).
Qed.

Lemma prefetch_idle tables d0 : keeps (idle d0) (prefetch tables).
Proof.
  induction tables as [|ref tables IH]; [apply keeps_ret|]. cbn [prefetch].
  apply keeps_bind; [by intros s Hs|]. intros tbl. apply keeps_bind; [apply tableMeta_idle|]. intros tgt.
  apply keeps_bind; [by apply keeps_wrapf, pool_idle|]. intros b. apply keeps_bind; [done|]. intros infos.
  apply keeps_ret.
Qed.

(** C12: The loader that switches the foreign-key checks off publishes a verified load or
    nothing: whichever statement fails, the committed rows are those of before or satisfy
    every foreign key the source has on the tables, and after a success they satisfy them. *)
Theorem LoadCyclicFKChecks_verified tables s :
  s_tx s = None →
  let '(r, s') := LoadCyclicFKChecks tables s in
  (r = inr tt → consistent (src_fks tables) (s_db s')) ∧
  (s_db s' = s_db s ∨ consistent (src_fks tables) (s_db s')).
Proof.
  intros Htx. set (d0 := s_db s). unfold LoadCyclicFKChecks, mbind, M_bind.
  pose proof (prefetch_idle tables d0 s (conj eq_refl Htx)) as Hp.
  destruct (prefetch tables s) as [[e|infos] s1]; simpl in Hp; [split; [done|left; apply Hp]|].
  destruct Hp as [Hd1 Ht1]. unfold wrapf at 1.
  assert (match pin s1 with (_, s2) => idle d0 s2 end) as Hpin.
  { unfold pin, acquire, stmt. destruct (s_pinned s1); [done|]. simpl.
    by destruct (s_net s1) as [|[|e|e|e] net]. }
  destruct (pin s1) as [[e|[]] s2]; [split; [done|left; apply Hpin]|]. destruct Hpin as [Hd2 Ht2].
  unfold deferred. unfold wrapf at 1.
  assert (match begin_tx s2 with (inl _, s3) => s_db s3 = d0 | (inr _, s3) => loaded d0 d0 s3 end) as Hb.
  { unfold begin_tx, stmt, start, loaded. destruct (s_ok s2); [|done]. rewrite <-Hd2.
    by destruct (s_net s2) as [|[|e|e|e] net]. }
  destruct (begin_tx s2) as [[e|[]] s3]; [split; [done|by left]|].
  destruct (checks_off_spec infos tables d0 s3) as [F1 F2]; [destruct Hb as [H1 H2]; split; by eauto|].
  unfold on_err. destruct (checks_off infos tables s3) as [[e|[]] s4]; simpl in F1, F2.
  { split; [done|]. left. simpl. by rewrite rollback_db. }
  destruct (F2 tt eq_refl) as (d & [Hd4 Ht4] & Hc). destruct (commit_db s4 d0 d Hd4 Ht4) as [Hcm Hcm'].
  unfold wrapf. destruct (commit_tx s4) as [[e|[]] s5]; simpl in *.
  - split; [done|]. destruct Hcm as [->| ->]; auto.
  - rewrite Hcm' by done. auto.
Qed.

(** ** The checks after a failed load *)

(** Inside the load, on a connection that works, with the checks off. *)
Record off (s : session) : Prop := {
  off_net : s_net s = [];
  off_ok : s_ok s = true;
  off_fk : s_fk s = false;
  off_tx : is_Some (s_tx s)
}.

Lemma stmt_off {A} (f : M session A) : (∀ s, off s → off (f s).2) → keeps off (stmt f).
Proof. intros Hf s Hs. rewrite stmt_calm; [by apply Hf|by apply off_net|by apply off_ok]. Qed.

Lemma write_off s d : off s → off (write s d).
Proof. intros [H1 H2 H3 [d1 H4]]. unfold write. rewrite H4. split; simpl; by eauto. Qed.

Lemma load_temp_off stg t cols u : keeps off (load_temp stg t cols u).
Proof. apply stmt_off. intros s Hs. destruct (s_temp s !! stg) as [[]|]; [|done]. by destruct Hs; split. Qed.

Lemma pipe_off {A} u into (m : M session A) : keeps off m → keeps off (pipe_err u (runLoad localInfile into m)).
Proof.
  intros Hm s Hs. unfold pipe_err, runLoad. destruct localInfile; [|done]. unfold wrapf.
  specialize (Hm s Hs). by destruct (m s) as [[]].
Qed.

(** An upload that ends in an error fails the load. *)
Lemma pipe_fails {A} u into (m : M session A) s e :
  (∃ e', (m s).1 = inl e') → up_err u = Some e → ∃ e', (pipe_err u (runLoad localInfile into m) s).1 = inl e'.
Proof.
  intros [e' Hm] Hu. unfold pipe_err, runLoad. destruct localInfile; [|by eexists]. unfold wrapf.
  destruct (m s) as [[]]; [by eexists|done].
Qed.

Lemma load_table_fails t cols u s e :
  off s → up_err u = Some e → ∃ e', (stmt (load_table t cols u) s).1 = inl e'.
Proof.
  intros [H1 H2 _ _] Hu. rewrite stmt_calm by done. unfold load_table. destruct (load_all _ _ _ _ _).
  exists e. unfold uploaded. by rewrite Hu.
Qed.

Lemma load_temp_fails stg t cols u s e :
  off s → up_err u = Some e → ∃ e', (load_temp stg t cols u s).1 = inl e'.
Proof.
  intros [H1 H2 _ _] Hu. unfold load_temp. rewrite stmt_calm by done.
  destruct (s_temp s !! stg) as [[]|]; simpl; [|by eexists]. exists e. unfold uploaded. by rewrite Hu.
Qed.

Lemma bind_fails {S A B} (J : S → Prop) (m : M S A) (f : A → M S B) s :
  keeps J m → J s → (∀ a s1, J s1 → ∃ e, (f a s1).1 = inl e) → ∃ e, ((m ≫= f) s).1 = inl e.
Proof.
  intros Hm Hs Hf. specialize (Hm s Hs). unfold mbind, M_bind. destruct (m s) as [[e|a] s1]; [by eexists|].
  by apply Hf.
Qed.

Lemma wrapf_fails {S A} msg (m : M S A) s : (∃ e, (m s).1 = inl e) → ∃ e, (wrapf msg m s).1 = inl e.
Proof. intros [e He]. unfold wrapf. destruct (m s) as [[]]; simpl in *; [by eexists|done]. Qed.

Lemma restage_off msg make stg : keeps off (restage msg make stg).
Proof.
  unfold restage. apply keeps_bind; [apply keeps_wrapf, stmt_off; intros s []; by split|intros _].
  apply keeps_wrapf, stmt_off. intros s Hs. destruct (s_temp s !! stg); [done|]. by destruct Hs; split.
Qed.

Lemma stageLoad_off ref cols tgt stg : keeps off (idempotentStageLoad ref cols tgt stg).
Proof.
  unfold idempotentStageLoad. destruct (replicationKey tgt); [|apply keeps_fail].
  destruct (tempColumnDDL tgt cols); [apply keeps_fail|]. apply keeps_bind; [apply restage_off|intros _].
  apply keeps_bind; [apply keeps_wrapf, pipe_off, load_temp_off|intros _].
  apply keeps_bind; [|intros _; apply keeps_wrapf, stmt_off; intros s []; by split].
  apply keeps_wrapf, stmt_off. intros s Hs. destruct (temp_rows stg s); [done|].
  destruct (upsert_all _ _ _ _ _ _); [done|]. by apply write_off.
Qed.

Lemma stageLoad_fails ref cols tgt stg s e :
  off s → up_err (stream ref cols) = Some e → ∃ e', (idempotentStageLoad ref cols tgt stg s).1 = inl e'.
Proof.
  intros Hs Hu. unfold idempotentStageLoad. destruct (replicationKey tgt); [|by eexists].
  destruct (tempColumnDDL tgt cols); [by eexists|].
  apply (bind_fails off); [apply restage_off|done|]. intros _ s1 Hs1.
  assert (∃ e', (wrapf ("mysql: staged load: stage " +:+ ref_string ref) (pipeLoad_temp ref cols stg) s1).1 = inl e') as [e1 He1].
  { apply wrapf_fails. unfold pipeLoad_temp. cbv zeta. eapply pipe_fails; [by eapply load_temp_fails|done]. }
  unfold mbind, M_bind. destruct (wrapf _ (pipeLoad_temp ref cols stg) s1) as [[]]; [by eexists|done].
Qed.

Lemma load_one_off info i :
  keeps off (if ti_empty info then pipeLoad_table stmt (ti_ref info) (ti_cols info)
             else idempotentStageLoad (ti_ref info) (ti_cols info) (ti_tgt info) ("rc_fk_stg_" +:+ pretty (i : nat))).
Proof.
  destruct (ti_empty info); [|apply stageLoad_off]. apply pipe_off, stmt_off. intros s Hs. unfold load_table.
  destruct (load_all _ _ _ _ _). by apply write_off.
Qed.

Lemma load_tables_fails info infos s e :
  off s → up_err (stream (ti_ref info) (ti_cols info)) = Some e →
  ∃ e' s', load_tables 0 (info :: infos) s = (inl e', s') ∧ off s'.
Proof.
  intros Hs Hu. cbn [load_tables]. cbv zeta. unfold mbind, M_bind.
  pose proof (keeps_wrapf off ("mysql: cyclic load " +:+ ref_string (ti_ref info)) _ (load_one_off info 0) s Hs) as Hk.
  assert (∃ e', (wrapf ("mysql: cyclic load " +:+ ref_string (ti_ref info))
    (if ti_empty info then pipeLoad_table stmt (ti_ref info) (ti_cols info)
     else idempotentStageLoad (ti_ref info) (ti_cols info) (ti_tgt info) ("rc_fk_stg_" +:+ pretty 0)) s).1 = inl e')
    as [e' He'].
  { apply wrapf_fails. destruct (ti_empty info); [|by eapply stageLoad_fails].
    unfold pipeLoad_table. cbv zeta. eapply pipe_fails; [by eapply load_table_fails|done]. }
  destruct (wrapf _ _ s) as [[e1|a] s']; simpl in *; [|done]. by exists e1, s'.
Qed.

(** When the stream of the first table breaks, the loader hands the connection back to
    the pool with the foreign-key checks of the session still off. *)
Theorem LoadCyclicFKChecks_leaks tables info infos e s s1 :
  s_net s = [] → s_pinned s = false → s_tx s = None →
  prefetch tables s = (inr (info :: infos), s1) → up_err (stream (ti_ref info) (ti_cols info)) = Some e →
  ∃ e' s', LoadCyclicFKChecks tables s = (inl e', s') ∧
    s_fk s' = false ∧ s_ok s' = true ∧ s_pinned s' = false.
Proof.
  intros Hn Hp Ht Hpre Hu.
  assert (s_net s1 = [] ∧ s_pinned s1 = false) as [Hn1 Hp1].
  { assert (keeps (λ s, s_net s = [] ∧ s_pinned s = false) (prefetch tables)) as Hk; [|specialize (Hk s (conj Hn Hp)); by rewrite Hpre in Hk].
    clear. induction tables as [|ref tables IH]; [apply keeps_ret|]. cbn [prefetch].
    assert (∀ {A} (f : M session A), (∀ s, s_net (f s).2 = s_net s ∧ s_pinned (f s).2 = s_pinned s) →
      keeps (λ s, s_net s = [] ∧ s_pinned s = false) (pool f)) as Hpool.
    { intros A f Hf s [H1 H2]. unfold pool. rewrite H2, stmt_calm by done. destruct (Hf (set_sok s true)) as [-> ->]. done. }
    apply keeps_bind; [by intros s Hs|]. intros tbl. apply keeps_bind.
    { intros s Hs. unfold tableMeta. destruct (decide _); [by destruct (meta_lookup ref)|].
      apply Hpool; [|done]. intros s1. by destruct (meta_lookup ref). }
    intros tgt. apply keeps_bind; [by apply keeps_wrapf, Hpool|]. intros b. apply keeps_bind; [done|]. intros infos.
    apply keeps_ret. }
  unfold LoadCyclicFKChecks, mbind, M_bind. rewrite Hpre. unfold wrapf at 1, pin, acquire. rewrite Hp1, stmt_calm by done.
  simpl. unfold deferred. unfold wrapf at 1, begin_tx. rewrite stmt_calm by done. simpl.
  set (s3 := set_stx _ _). unfold on_err, checks_off, mbind, M_bind. unfold wrapf at 1, set_fk_checks at 1.
  rewrite stmt_calm by done. set (s4 := set_sfk s3 false).
  assert (off s4) as Hs4 by (split; simpl; by eauto).
  destruct (load_tables_fails info infos s4 e Hs4 Hu) as (e' & s5 & Hl & [G1 G2 G3 [d G4]]).
  cbn [start]. rewrite Hl. eexists _, _. split; [done|]. unfold ignore, rollback_tx, end_tx. simpl.
  rewrite G2, G1. simpl. rewrite G4. simpl. done.
Qed.
End load.
End MyLoad.
