(* ===== verification/MyRefine.v ===== *)
(** * The MySQL apply refines the apply of the contract

    [ApplyTx.applyPass] says what one apply of a table does to the target, as a map from keys
    to rows; the Postgres engine is modelled by it and the drain is proved against it. Here
    the MySQL [ApplyPass], with its staging table, its ON DUPLICATE KEY UPDATE and its
    NOT IN, is related to the same function, for tables whose key columns have a collation
    that tells different texts apart. *)

From S2P Require Import Prelude Engine ApplyTx MySession MyApply MyLoad.
Import ApplyTx MySession MyApply MyLoad.

Module MyRefine.

Section refine.
Context `{Srv : Server} (t : TableRef) (key : list string).

(** ** Rows by key *)

Definition keyed (r : Row) : Prop := ∀ c, c ∈ key → is_Some (r !! c).

(** The list [l] has the rows that [f] gives by their keys, each once. *)
Record holds (l : list Row) (f : KeyValues → option Row) : Prop := {
  h_nodup : NoDup l;
  h_keyed r : r ∈ l → keyed r;
  h_rows k r : f k = Some r ↔ r ∈ l ∧ key_values key r = k
}.

(** The collation of the key columns tells different texts apart. *)
Context (Hcol : ∀ c, c ∈ key → Inj (=) (=) (collate t c)).

Lemma any3_Some {A} (f : A → option bool) (g : A → bool) l :
  (∀ x, x ∈ l → f x = Some (g x)) → any3 (f <$> l) = Some (existsb g l).
Proof.
  induction l as [|x l IH]; intros Hf; [done|]. rewrite fmap_cons. cbn [any3 foldr existsb].
  fold (any3 (f <$> l)). rewrite Hf by (by left). rewrite IH by (intros y Hy; apply Hf; by right).
  by destruct (g x), (existsb g l).
Qed.

Lemma and3_Some a b : and3 (Some a) (Some b) = Some (a && b).
Proof. by destruct a, b. Qed.

Lemma row_eq_cols ks r s :
  ks ⊆ key → keyed r → keyed s → row_eq t ks r s = Some (bool_decide (key_values ks r = key_values ks s)).
Proof.
  intros Hin Hr Hs. induction ks as [|c ks IH]; [done|].
  unfold row_eq, key_values in *. rewrite !fmap_cons. cbn [all3 foldr].
  fold (all3 ((λ c, sql_eq t c (r !! c) (s !! c)) <$> ks)).
  rewrite IH by (intros c' Hc'; apply Hin; by right).
  destruct (Hr c) as [x Hx]; [apply Hin; by left|]. destruct (Hs c) as [y Hy]; [apply Hin; by left|].
  rewrite Hx, Hy. cbn [sql_eq]. rewrite and3_Some. f_equal. apply eq_true_iff_eq.
  rewrite andb_true_iff, !bool_decide_eq_true.
  assert (Inj (=) (=) (collate t c)) as Hinj by (apply Hcol, Hin; by left). split.
  - intros [He Hk]. apply (inj (collate t c)) in He. congruence.
  - intros He. simplify_eq. done.
Qed.

Lemma row_eq_keyed r s :
  keyed r → keyed s → row_eq t key r s = Some (bool_decide (key_values key r = key_values key s)).
Proof. by apply row_eq_cols. Qed.

(** A dirty key in text form. *)
Definition text_key (k : KeyValues) : Prop :=
  length k = length key ∧ Forall (λ v, ∃ x, v = VText x) k.

Lemma key_eq_cols ks r k :
  ks ⊆ key → keyed r → length k = length ks → Forall (λ v, ∃ x, v = VText x) k →
  key_eq t ks r k = Some (bool_decide (key_values ks r = k)).
Proof.
  intros Hin Hr. revert k. induction ks as [|c ks IH]; intros [|v k] Hlen Hk; try done.
  apply Forall_cons in Hk as [[y ->] Hk]. unfold key_eq, key_values in *. cbn [zip_with all3 foldr].
  fold (all3 (zip_with (λ c v, sql_eq t c (r !! c) (value_text v)) ks k)).
  rewrite IH; [|intros c' Hc'; apply Hin; by right|by injection Hlen|done].
  destruct (Hr c) as [x Hx]; [apply Hin; by left|].
  rewrite fmap_cons, Hx. cbn [sql_eq value_text]. rewrite and3_Some. f_equal. apply eq_true_iff_eq.
  rewrite andb_true_iff, !bool_decide_eq_true.
  assert (Inj (=) (=) (collate t c)) as Hinj by (apply Hcol, Hin; by left). split.
  - intros [He Hkk]. apply (inj (collate t c)) in He. congruence.
  - intros He. simplify_eq. done.
Qed.

Lemma key_eq_keyed r k :
  keyed r → text_key k → key_eq t key r k = Some (bool_decide (key_values key r = k)).
Proof. intros Hr []. by apply key_eq_cols. Qed.

Lemma holds_unique l f r r' :
  holds l f → r ∈ l → r' ∈ l → key_values key r = key_values key r' → r = r'.
Proof.
  intros Hl Hr Hr' He. assert (f (key_values key r) = Some r) as H1 by by apply (h_rows _ _ Hl).
  assert (f (key_values key r) = Some r') as H2 by by apply (h_rows _ _ Hl). congruence.
Qed.

(** The duplicate a row of the staging table meets. *)
Lemma find_holds l f s :
  holds l f → keyed s →
  match f (key_values key s) with
  | Some o => ∃ i, list_find (λ r, row_eq t key r s = Some true) l = Some (i, o) ∧ l !! i = Some o
  | None => list_find (λ r, row_eq t key r s = Some true) l = None
  end.
Proof.
  intros Hl Hs. assert (∀ r, r ∈ l → row_eq t key r s = Some true → key_values key r = key_values key s) as Heq.
  { intros r Hr. rewrite row_eq_keyed; [|by apply (h_keyed _ _ Hl)|done]. intros [= He]. by apply bool_decide_eq_true in He. }
  destruct (f (key_values key s)) as [o|] eqn:Hf.
  - apply (h_rows _ _ Hl) in Hf as [Ho Hk].
    destruct (list_find (λ r, row_eq t key r s = Some true) l) as [[i o']|] eqn:Hfind.
    + apply list_find_Some in Hfind as (Hi & He & _). apply list_elem_of_lookup_2 in Hi as Hin.
      exists i. assert (o' = o) as ->; [|done]. apply (holds_unique l f); [done..|]. rewrite Hk. by apply Heq.
    + exfalso. rewrite list_find_None, Forall_forall in Hfind. apply (Hfind o Ho).
      rewrite row_eq_keyed; [|by apply (h_keyed _ _ Hl)|done]. f_equal. by apply bool_decide_eq_true.
  - apply list_find_None, Forall_forall. intros r Hr He. apply Heq in He; [|done].
    assert (f (key_values key s) = Some r) by by apply (h_rows _ _ Hl). congruence.
Qed.

Lemma key_values_agree r s : (∀ c, c ∈ key → r !! c = s !! c) → key_values key r = key_values key s.
Proof. intros Ha. unfold key_values. apply list_fmap_ext. intros i c Hc. rewrite Ha; [done|]. by eapply list_elem_of_lookup_2. Qed.

Lemma agree_key_values r s : keyed r → keyed s → key_values key r = key_values key s → ∀ c, c ∈ key → r !! c = s !! c.
Proof.
  unfold key_values. intros Hr Hs He c Hc. apply list_elem_of_lookup in Hc as [i Hi].
  assert ((match r !! c with Some v => VText v | None => VNull end) = (match s !! c with Some v => VText v | None => VNull end)) as Hv.
  { apply (f_equal (λ l : list Value, l !! i)) in He. cbv beta in He. rewrite !list_lookup_fmap, Hi in He. by injection He. }
  by destruct (r !! c), (s !! c); simplify_eq.
Qed.

Context (cols : list string) (Hkc : key ⊆ cols).

Lemma update_cols_same s o :
  (∀ c, c ∈ key → s !! c = o !! c) → set_cols (update_cols key cols) s o = set_cols cols s o.
Proof.
  intros Ha. apply map_eq. intros c. rewrite !lookup_set_cols.
  assert (c ∈ update_cols key cols → c ∈ cols) as Hin.
  { unfold update_cols. destruct (filter (λ c, c ∉ key) cols) as [|x l] eqn:Ef.
    - intros Hc. apply Hkc. destruct key as [|k0 ks]; simpl in Hc; [by apply not_elem_of_nil in Hc|].
      apply list_elem_of_singleton in Hc as ->. by left.
    - rewrite <-Ef. by intros [_ ?]%list_elem_of_filter. }
  destruct (decide (c ∈ cols)) as [Hc|Hc].
  - destruct (decide (c ∈ key)) as [Hk|Hk]; [rewrite (Ha c Hk); by case_decide|]. rewrite decide_True; [done|].
    assert (c ∈ filter (λ c, c ∉ key) cols) as Hf by by apply list_elem_of_filter.
    unfold update_cols. by destruct (filter (λ c, c ∉ key) cols); [apply not_elem_of_nil in Hf|].
  - rewrite decide_False; [done|]. tauto.
Qed.

Definition fput (k : KeyValues) (r : Row) (f : KeyValues → option Row) (k' : KeyValues) : option Row :=
  if decide (k' = k) then Some r else f k'.

(** One row of the upsert. *)
Lemma upsert_row_holds fk d s d' f :
  holds (rows_of d t) f → keyed s → upsert_row fk t key cols d s = inr d' →
  holds (rows_of d' t) (fput (key_values key s) (set_cols cols s (default (defaults t) (f (key_values key s)))) f) ∧
  ∀ t', t' ≠ t → rows_of d' t' = rows_of d t'.
Proof.
  intros Hl Hs. set (k := key_values key s). set (r' := set_cols cols s (default (defaults t) (f k))).
  assert (∀ c, c ∈ key → r' !! c = s !! c) as Hr's by (intros c Hc; unfold r'; by rewrite lookup_set_cols, decide_True by by apply Hkc).
  assert (keyed r') as Hkr by (intros c Hc; rewrite Hr's by done; by apply Hs).
  assert (key_values key r' = k) as Hkv by by apply key_values_agree.
  unfold upsert_row. pose proof (find_holds _ _ _ Hl Hs) as Hfind. fold k in Hfind.
  destruct (f k) as [o|] eqn:Hf.
  - destruct Hfind as (i & Hfind & Hi). rewrite Hfind. apply (h_rows _ _ Hl) in Hf as [Ho Hko].
    rewrite update_cols_same.
    2:{ intros c Hc. symmetry. apply (agree_key_values o s); [by apply (h_keyed _ _ Hl)|done|by rewrite Hko|done]. }
    intros [-> _]%checked_inr. split; [|intros t' Ht; by rewrite rows_of_insert, decide_False by done].
    rewrite rows_of_insert, decide_True by done. fold r'.
    assert (row_write (rows_of d t) (<[i := r']> (rows_of d t)) (Some o) (Some r')) as Hw by by apply row_write_insert.
    assert (i < length (rows_of d t)) as Hlt by by eapply lookup_lt_Some.
    assert (∀ r, r ∈ <[i := r']> (rows_of d t) → r ≠ r' → r ∈ rows_of d t ∧ r ≠ o) as Hold.
    { intros r [j Hj]%list_elem_of_lookup Hne. destruct (decide (i = j)) as [<-|Hij];
        [rewrite list_lookup_insert_eq in Hj by done; congruence|].
      rewrite list_lookup_insert_ne in Hj by done. split; [by eapply list_elem_of_lookup_2|].
      intros ->. apply Hij. by eapply (NoDup_lookup _ i j o (h_nodup _ _ Hl)). }
    split.
    + apply NoDup_alt. intros j1 j2 r H1 H2. destruct (decide (i = j1)) as [<-|Hj1], (decide (i = j2)) as [<-|Hj2]; [done|..].
      * rewrite list_lookup_insert_eq in H1 by done. rewrite list_lookup_insert_ne in H2 by done. injection H1 as <-.
        exfalso. apply Hj2. apply (NoDup_lookup _ i j2 o (h_nodup _ _ Hl)); [done|]. rewrite H2. f_equal.
        apply (holds_unique _ _ _ _ Hl); [by eapply list_elem_of_lookup_2|done|by rewrite Hko].
      * rewrite list_lookup_insert_eq in H2 by done. rewrite list_lookup_insert_ne in H1 by done. injection H2 as <-.
        exfalso. apply Hj1. apply (NoDup_lookup _ i j1 o (h_nodup _ _ Hl)); [done|]. rewrite H1. f_equal.
        apply (holds_unique _ _ _ _ Hl); [by eapply list_elem_of_lookup_2|done|by rewrite Hko].
      * rewrite list_lookup_insert_ne in H1, H2 by done. by apply (NoDup_lookup _ j1 j2 r (h_nodup _ _ Hl)).
    + intros r Hr. destruct (rw_in _ _ _ _ Hw r Hr) as [?|[= <-]]; [by apply (h_keyed _ _ Hl)|done].
    + intros k' r. unfold fput. destruct (decide (k' = k)) as [->|Hk'].
      * split; [intros [= <-]; split; [by apply (rw_new _ _ _ _ Hw)|done]|]. intros [Hr Hkr'].
        destruct (decide (r = r')) as [->|Hne]; [done|]. destruct (Hold r Hr Hne) as [Hin Hno].
        destruct Hno. apply (holds_unique _ _ _ _ Hl); [done..|congruence].
      * rewrite (h_rows _ _ Hl). split; intros [Hr Hkr'].
        -- split; [|done]. destruct (rw_out _ _ _ _ Hw r Hr) as [|[= <-]]; [done|congruence].
        -- split; [|done]. destruct (decide (r = r')) as [->|Hne]; [congruence|]. by apply Hold.
  - rewrite Hfind. intros [-> _]%checked_inr. split; [|intros t' Ht; by rewrite rows_of_insert, decide_False by done].
    rewrite rows_of_insert, decide_True by done. fold r'. change (default (defaults t) None) with (defaults t). fold r'.
    assert (∀ r, r ∈ rows_of d t → key_values key r ≠ k) as Hnk.
    { intros r Hr He. assert (f k = Some r) by by apply (h_rows _ _ Hl). congruence. }
    split.
    + apply NoDup_app. split_and!; [apply (h_nodup _ _ Hl)| |apply NoDup_singleton].
      intros r Hr Hr'%list_elem_of_singleton. apply (Hnk r Hr). by subst.
    + intros r [Hr|Hr%list_elem_of_singleton]%elem_of_app; [by apply (h_keyed _ _ Hl)|]. by subst.
    + intros k' r. rewrite elem_of_app, list_elem_of_singleton. unfold fput. destruct (decide (k' = k)) as [->|Hk'].
      * split; [intros [= <-]; split; [by right|done]|]. intros [[Hr| ->] Hkr']; [by destruct (Hnk r Hr)|done].
      * rewrite (h_rows _ _ Hl). split; [intros []; auto|]. intros [[Hr| ->] Hkr']; [done|].
        destruct Hk'. by rewrite <-Hkr'.
Qed.

(** ** The whole statements *)

Definition staged_at (stg : list Row) (k : KeyValues) : option Row :=
  head (filter (λ s, key_values key s = k) stg).

Lemma staged_at_cons s stg k :
  staged_at (s :: stg) k = if decide (key_values key s = k) then Some s else staged_at stg k.
Proof. unfold staged_at. rewrite filter_cons. by destruct (decide (key_values key s = k)). Qed.

Lemma staged_at_None stg k : k ∉ key_values key <$> stg → staged_at stg k = None.
Proof.
  intros Hk. unfold staged_at. destruct (filter _ stg) as [|s l] eqn:Ef; [done|]. exfalso. apply Hk.
  assert (s ∈ filter (λ s, key_values key s = k) stg) as [<- Hs]%list_elem_of_filter by (rewrite Ef; by left).
  apply list_elem_of_fmap. by exists s.
Qed.

(** What the upsert makes of the row of key [k]. *)
Definition upserted (stg : list Row) (f : KeyValues → option Row) (k : KeyValues) : option Row :=
  match staged_at stg k with
  | Some s => Some (set_cols cols s (default (defaults t) (f k)))
  | None => f k
  end.

Lemma holds_ext l f g : (∀ k, f k = g k) → holds l f → holds l g.
Proof. intros He [H1 H2 H3]. split; [done..|]. intros k r. by rewrite <-He. Qed.

Lemma upsert_all_holds fk stg d d' f :
  holds (rows_of d t) f → Forall keyed stg → NoDup (key_values key <$> stg) →
  upsert_all fk t key cols stg d = inr d' →
  holds (rows_of d' t) (upserted stg f) ∧ ∀ t', t' ≠ t → rows_of d' t' = rows_of d t'.
Proof.
  revert d f. induction stg as [|s stg IH]; intros d f Hl Hk Hnd; simpl.
  { intros [= ->]. split; [|done]. by apply (holds_ext _ f). }
  apply Forall_cons in Hk as [Hs Hk]. rewrite fmap_cons in Hnd. apply NoDup_cons in Hnd as [Hns Hnd].
  destruct (upsert_row fk t key cols d s) as [e|d1] eqn:Hu; [done|]. intros Hr.
  destruct (upsert_row_holds _ _ _ _ _ Hl Hs Hu) as [Hl1 Ho1].
  destruct (IH d1 _ Hl1 Hk Hnd Hr) as [Hl' Ho']. split; [|intros t' Ht; rewrite Ho', Ho1; done].
  eapply holds_ext; [|exact Hl']. intros k. unfold upserted. rewrite staged_at_cons.
  destruct (decide (key_values key s = k)) as [<-|Hne].
  - rewrite staged_at_None by done. unfold fput. by rewrite decide_True.
  - unfold fput. rewrite decide_False by done. done.
Qed.

Lemma delete_where_inr fk P d kept todo d' :
  delete_where fk t P d kept todo = inr d' → d' = <[t := kept ++ filter (λ r, P r = false) todo]> d.
Proof.
  revert kept. induction todo as [|r todo IH]; intros kept; cbn [delete_where].
  { intros [= <-]. by rewrite filter_nil, app_nil_r. }
  rewrite filter_cons. destruct (P r).
  - destruct (checked _ _ _ _ _); [done|]. intros ->%IH. by rewrite decide_False.
  - intros ->%IH. rewrite decide_True by done. by rewrite <-app_assoc.
Qed.

Lemma existsb_key_in r keys : existsb (λ k, bool_decide (key_values key r = k)) keys = bool_decide (key_values key r ∈ keys).
Proof.
  apply eq_true_iff_eq. rewrite existsb_exists, bool_decide_eq_true. split.
  - intros (k & Hk & He%bool_decide_eq_true). rewrite He. by apply list_elem_of_In.
  - intros Hk. exists (key_values key r). rewrite bool_decide_eq_true. by rewrite <-list_elem_of_In.
Qed.

Lemma existsb_staged r stg :
  existsb (λ s, bool_decide (key_values key r = key_values key s)) stg
  = bool_decide (staged_at stg (key_values key r) ≠ None).
Proof.
  induction stg as [|s stg IH]; [done|]. rewrite staged_at_cons. cbn [existsb]. rewrite IH.
  destruct (decide (key_values key s = key_values key r)) as [He|Hne].
  - by rewrite (bool_decide_true _ (eq_sym He)).
  - by rewrite bool_decide_false by done.
Qed.

(** The row goes when its key is dirty and was not staged. *)
Lemma absent_pred_keyed r keys stg :
  keyed r → Forall text_key keys → Forall keyed stg →
  absent_pred t key keys stg r =
  bool_decide (key_values key r ∈ keys) && negb (bool_decide (staged_at stg (key_values key r) ≠ None)).
Proof.
  intros Hr Hk Hs. rewrite Forall_forall in Hk. rewrite Forall_forall in Hs. unfold absent_pred.
  rewrite (any3_Some _ (λ k, bool_decide (key_values key r = k))) by (intros k Hin; by apply key_eq_keyed; [|apply Hk]).
  rewrite (any3_Some _ (λ s, bool_decide (key_values key r = key_values key s)))
    by (intros s Hin; by apply row_eq_keyed; [|apply Hs]).
  rewrite existsb_key_in, existsb_staged. cbn [not3 fmap option_fmap option_map]. rewrite and3_Some.
  unfold holds3. by destruct (_ && _).
Qed.

Definition deleted (keys : list KeyValues) (stg : list Row) (f : KeyValues → option Row) (k : KeyValues) : option Row :=
  if decide (k ∈ keys ∧ staged_at stg k = None) then None else f k.

Lemma delete_absent_holds fk d d' f keys stg :
  holds (rows_of d t) f → Forall text_key keys → Forall keyed stg →
  delete_where fk t (absent_pred t key keys stg) d [] (rows_of d t) = inr d' →
  holds (rows_of d' t) (deleted keys stg f) ∧ ∀ t', t' ≠ t → rows_of d' t' = rows_of d t'.
Proof.
  intros Hl Hk Hs ->%delete_where_inr. split; [|intros t' Ht; by rewrite rows_of_insert, decide_False by done].
  rewrite rows_of_insert, decide_True by done. simpl.
  assert (∀ r, r ∈ filter (λ r, absent_pred t key keys stg r = false) (rows_of d t) ↔
    r ∈ rows_of d t ∧ ¬ (key_values key r ∈ keys ∧ staged_at stg (key_values key r) = None)) as Hin.
  { intros r. rewrite list_elem_of_filter. split; intros [H1 H2].
    - split; [done|]. rewrite absent_pred_keyed in H1; [|by apply (h_keyed _ _ Hl)|done..].
      intros [Ha Hb]. by rewrite bool_decide_true, Hb in H1 by done.
    - split; [|done]. rewrite absent_pred_keyed; [|by apply (h_keyed _ _ Hl)|done..].
      destruct (decide (key_values key r ∈ keys)) as [Hd|Hd]; [|by rewrite (bool_decide_false _ Hd)].
      rewrite (bool_decide_true _ Hd). simpl. apply negb_false_iff, bool_decide_eq_true. tauto. }
  split.
  - apply NoDup_filter, (h_nodup _ _ Hl).
  - intros r [Hr _]%Hin. by apply (h_keyed _ _ Hl).
  - intros k r. rewrite Hin. unfold deleted. split.
    + case_decide as Hd; [done|]. intros Hf. apply (h_rows _ _ Hl) in Hf as [Hr <-]. done.
    + intros [[Hr Hn] <-]. rewrite decide_False by done. by apply (h_rows _ _ Hl).
Qed.

(** The staged rows as a map. *)
Lemma staged_at_holds (stg : list Row) (m : gmap KeyValues Row) (k : KeyValues) :
  holds stg (λ k, m !! k) → staged_at stg k = m !! k.
Proof.
  intros Hm. destruct (m !! k) as [r|] eqn:Hk.
  - apply (h_rows _ _ Hm k r) in Hk as [Hr <-]. unfold staged_at.
    assert (r ∈ filter (λ s, key_values key s = key_values key r) stg) as Hin by by apply list_elem_of_filter.
    destruct (filter _ stg) as [|r' l] eqn:Ef; [by apply not_elem_of_nil in Hin|]. simpl. f_equal.
    assert (r' ∈ filter (λ s, key_values key s = key_values key r) stg) as [He Hr']%list_elem_of_filter
      by (rewrite Ef; by left).
    by apply (holds_unique _ _ _ _ Hm).
  - apply staged_at_None. intros (r & -> & Hr)%list_elem_of_fmap.
    assert (m !! key_values key r = Some r) by by apply (h_rows _ _ Hm). congruence.
Qed.

Lemma holds_NoDup_keys (stg : list Row) f : holds stg f → NoDup (key_values key <$> stg).
Proof.
  intros Hm. apply NoDup_fmap_2_strong; [|apply (h_nodup _ _ Hm)].
  intros r r' Hr Hr' He. by apply (holds_unique _ _ _ _ Hm).
Qed.

(** The two statements together are the apply of the contract. *)
Lemma statements_refine (fk1 fk2 : bool) (m : gmap KeyValues Row) (stg : list Row) (keys : list KeyValues) (tgt : rows)
    (d d1 d2 : tables) :
  holds (rows_of d t) (λ k, tgt !! (t, k)) → holds stg (λ k, m !! k) →
  Forall text_key keys → keys ≠ [] →
  upsert_all fk1 t key cols stg d = inr d1 →
  delete_where fk2 t (absent_pred t key keys stg) d1 [] (rows_of d1 t) = inr d2 →
  ∃ tgt', applyPass defaults tgt t cols keys m = Some tgt' ∧
    holds (rows_of d2 t) (λ k, tgt' !! (t, k)) ∧ ∀ t', t' ≠ t → rows_of d2 t' = rows_of d t'.
Proof.
  intros Hl Hm Hk Hne Hu Hd.
  assert (Forall keyed stg) as Hks by (apply Forall_forall; apply (h_keyed _ _ Hm)).
  destruct (upsert_all_holds _ _ _ _ _ Hl Hks (holds_NoDup_keys _ _ Hm) Hu) as [Hl1 Ho1].
  destruct (delete_absent_holds _ _ _ _ _ _ Hl1 Hk Hks Hd) as [Hl2 Ho2].
  unfold applyPass. rewrite decide_False by done.
  destruct (deleteAbsent_staged t keys (stageUpsert defaults tgt t cols m (ApplyTx.begin_tx ∅))) as [tx Htx].
  { simpl. rewrite lookup_insert_eq. eauto. }
  rewrite Htx. eexists. split; [done|]. split; [|intros t' Ht; by rewrite Ho2, Ho1].
  eapply holds_ext; [|exact Hl2]. intros k. rewrite (stage_delete_commit _ _ _ _ _ _ _ _ _ _ Htx), decide_True by done.
  rewrite upsert_cols_begin by done. unfold deleted, upserted. rewrite (staged_at_holds stg m k Hm).
  destruct (m !! k) as [r|]; [by rewrite decide_False by naive_solver|]. apply decide_ext. tauto.
Qed.

(** ** The transaction around them *)

(** Inside the transaction: nothing is committed, the rows are [d], the staging table is [x]. *)
Record at_tx (d0 d : tables) (stg : string) (x : option (list Row)) (s : session) : Prop := {
  at_db : s_db s = d0;
  at_open : s_tx s = Some d;
  at_temp : snd <$> s_temp s !! stg = x
}.

Lemma at_step {A} (f : M session A) d0 d stg x Q :
  (∀ s, at_tx d0 d stg x s → step_to d0 Q (f s).1 (f s).2) →
  triple (at_tx d0 d stg x) (stmt f) (step_to d0 Q).
Proof. apply stmt_step; [by intros s []; split|by intros s []]. Qed.

Lemma drop_step d0 d stg x :
  triple (at_tx d0 d stg x) (drop_temp stg) (step_to d0 (at_tx d0 d stg None)).
Proof. apply at_step. intros s [H1 H2 H3]. split; [done|]. intros _ _. split; [done..|]. simpl. by rewrite lookup_delete_eq. Qed.

Lemma create_step d0 d stg :
  triple (at_tx d0 d stg None) (create_temp stg) (step_to d0 (at_tx d0 d stg (Some []))).
Proof.
  apply at_step. intros s [H1 H2 H3]. destruct (s_temp s !! stg) as [y|]; [done|]. split; [done|].
  intros _ _. split; [done..|]. simpl. by rewrite lookup_insert_eq.
Qed.

Lemma load_step d0 d stg u :
  triple (at_tx d0 d stg (Some [])) (load_temp stg t cols u)
    (step_to d0 (at_tx d0 d stg (Some ((λ r, coerce true t (proj cols r)) <$> up_rows u)))).
Proof.
  apply at_step. intros s [H1 H2 H3]. destruct (s_temp s !! stg) as [[old l]|] eqn:Ht; [|done].
  injection H3 as ->. split; [done|]. intros _ _. split; [done..|]. simpl. by rewrite lookup_insert_eq.
Qed.

Lemma dml_step d0 d stg l (f : bool → list Row → tables → result tables) (Q : session → Prop) :
  (∀ fk d' s, f fk l d = inr d' → at_tx d0 d' stg (Some l) s → Q s) →
  triple (at_tx d0 d stg (Some l)) (dml_from stg f) (step_to d0 Q).
Proof.
  intros HQ. apply at_step. intros s [H1 H2 H3]. unfold temp_rows.
  destruct (s_temp s !! stg) as [[old l']|] eqn:Ht; [|done]. injection H3 as ->.
  assert (seen s = d) as -> by (unfold seen; by rewrite H2).
  destruct (f (s_fk s) l d) as [e|d'] eqn:Hf; [done|]. simpl. unfold write. rewrite H2.
  split; [done|]. intros _ _. apply (HQ _ _ _ Hf). split; simpl; [done..|]. by rewrite Ht.
Qed.

Context (localInfile : bool) (tbl : Table) (k0 : Key).
Context (Hmeta : meta_lookup t = Some tbl) (Hrk : replicationKey tbl = Some k0) (Hk0 : key_Columns k0 = key).

Lemma captureCols_key : (captureColsFor tbl).*1 = key.
Proof. unfold captureColsFor. rewrite Hrk, <-list_fmap_compose, <-Hk0. apply list_fmap_id. Qed.

Lemma runLoad_step {A} P into (m : M session A) d0 Q :
  (∀ s, P s → s_db s = d0) → triple P m (step_to d0 Q) → triple P (runLoad localInfile into m) (step_to d0 Q).
Proof.
  intros HP Hm. unfold runLoad. destruct localInfile; [by apply step_wrapf|]. intros s Hs. split; [by apply HP|done].
Qed.

(** The rows the statements of [ApplyPass] lead to. *)
Definition pass_rows (keys : list KeyValues) (l : list Row) (d d2 : tables) : Prop :=
  ∃ fk1 fk2 d1, upsert_all fk1 t key cols l d = inr d1 ∧
    delete_where fk2 t (absent_pred t key keys l) d1 [] (rows_of d1 t) = inr d2.

Lemma apply_statements_spec keys u d0 x :
  let l := (λ r, coerce true t (proj cols r)) <$> up_rows u in
  triple (at_tx d0 d0 "rc_apply_stg" x) (apply_statements localInfile t key key cols keys u)
    (step_to d0 (λ s, ∃ d2, pass_rows keys l d0 d2 ∧ at_tx d0 d2 "rc_apply_stg" (Some l) s)).
Proof.
  intros l. unfold apply_statements, restage. cbv zeta.
  eapply step_bind; [eapply step_bind; [apply step_wrapf, drop_step|intros _; apply step_wrapf, create_step]|intros _].
  eapply step_bind; [apply step_wrapf, runLoad_step; [by intros s []|apply load_step]|intros _].
  eapply (step_bind _ _ _ _ (λ s, ∃ fk d1, upsert_all fk t key cols l d0 = inr d1 ∧ at_tx d0 d1 "rc_apply_stg" (Some l) s)).
  { apply step_wrapf, dml_step. intros fk d' s Hu Hs. by exists fk, d'. }
  intros _ s (fk & d1 & Hu & Hs). revert s Hs. apply step_wrapf, dml_step. intros fk2 d2 s Hd Hs. exists d2.
  split; [|done]. by exists fk, fk2, d1.
Qed.

(** [BEGIN], statements, [COMMIT]: the rows of the statements are published, or nothing is. *)
Lemma db_tx_spec {A} msg (body : M session A) s (R : tables → Prop) :
  s_tx s = None →
  triple (λ s1, s_db s1 = s_db s ∧ s_tx s1 = Some (s_db s)) body
    (step_to (s_db s) (λ s1, ∃ d2, R d2 ∧ s_db s1 = s_db s ∧ s_tx s1 = Some d2)) →
  let r := db_tx msg body s in
  (s_db r.2 = s_db s ∨ R (s_db r.2)) ∧ (∀ a, r.1 = inr a → R (s_db r.2)).
Proof.
  intros Htx Hbody. unfold db_tx, mbind, M_bind.
  assert (match db_begin s with
          | (inl _, s1) => s_db s1 = s_db s
          | (inr _, s1) => s_db s1 = s_db s ∧ s_tx s1 = Some (s_db s)
          end) as Hb.
  { unfold db_begin, acquire, stmt. destruct (s_pinned s); [done|]. simpl.
    by destruct (s_net s) as [|[|e|e|e] net]. }
  unfold wrapf. destruct (db_begin s) as [[e|[]] s1]; [simpl; split; [by left|done]|].
  specialize (Hbody s1 Hb). unfold on_err. destruct (body s1) as [[e|a] s2]; simpl in Hbody; destruct Hbody as [Hdb Hq].
  - unfold ignore, mbind, M_bind. simpl. rewrite rollback_db. split; [by left|done].
  - destruct (Hq a eq_refl) as (d2 & HR & H1 & H2). destruct (commit_db s2 (s_db s) d2 H1 H2) as [Hc Hc'].
    unfold deferred. destruct (commit_tx s2) as [[e|[]] s3]; simpl in *.
    + split; [|done]. destruct Hc as [->| ->]; auto.
    + rewrite Hc' by done. auto.
Qed.

Lemma tableMeta_db s : s_db (tableMeta t s).2 = s_db s ∧ (s_tx s = None → s_tx (tableMeta t s).2 = None).
Proof.
  unfold tableMeta. rewrite Hmeta. destruct (decide (t ∈ s_cache s)); [done|].
  unfold pool, stmt. destruct (s_pinned s); [done|]. simpl. by destruct (s_net s) as [|[|e|e|e] net].
Qed.

(** *** Without faults and without a refusal the pass succeeds *)

Definition unchecked (s : session) : Prop := s_fk s = false ∨ all_fks = [].

Lemma checked_ok s d old new : unchecked s → checked (s_fk s) t d old new = inr d.
Proof. unfold checked, fk_check. intros [->| ->]; [done|]. by destruct (s_fk s). Qed.

Lemma upsert_all_ok s l d : unchecked s → ∃ d', upsert_all (s_fk s) t key cols l d = inr d'.
Proof.
  intros Hs. revert d. induction l as [|r l IH]; intros d; cbn [upsert_all]; [by eexists|].
  unfold upsert_row. destruct (list_find _ _) as [[i o]|]; rewrite checked_ok by done; apply IH.
Qed.

Lemma delete_where_ok s P d kept todo : unchecked s → ∃ d', delete_where (s_fk s) t P d kept todo = inr d'.
Proof.
  intros Hs. revert kept. induction todo as [|r l IH]; intros kept; cbn [delete_where]; [by eexists|].
  destruct (P r); [|apply IH]. rewrite checked_ok by done. apply IH.
Qed.

Lemma apply_statements_ok keys u s :
  inside (s_temp s) s → localInfile = true → up_err u = None → unchecked s →
  ∃ s', apply_statements localInfile t key key cols keys u s = (inr tt, s') ∧ inside (s_temp s') s'.
Proof.
  intros Hs Hli Hu Hun. unfold apply_statements, restage, mbind, M_bind, wrapf, drop_temp. cbv zeta.
  rewrite (stmt_inside _ _ _ Hs). unfold create_temp. set (T1 := delete "rc_apply_stg" (s_temp s)).
  set (s1 := set_stemp s T1). assert (inside T1 s1) as Hs1 by by destruct Hs; split.
  rewrite (stmt_inside _ _ _ Hs1), (in_temp _ _ Hs1). unfold T1 at 1. rewrite lookup_delete_eq.
  set (T2 := <["rc_apply_stg" := ([], [])]> T1). set (s2 := set_stemp s1 T2).
  assert (inside T2 s2) as Hs2 by by destruct Hs1; split.
  unfold runLoad. rewrite Hli. unfold wrapf, load_temp. rewrite (stmt_inside _ _ _ Hs2), (in_temp _ _ Hs2).
  unfold T2 at 1. rewrite lookup_insert_eq. unfold uploaded. rewrite Hu.
  match goal with |- context [set_stemp s2 ?x] => set (T3 := x) end. set (s3 := set_stemp s2 T3).
  assert (inside T3 s3) as Hs3 by by destruct Hs2; split.
  unfold upsert_from, dml_from. rewrite (stmt_inside _ _ _ Hs3). unfold temp_rows. rewrite (in_temp _ _ Hs3).
  unfold T3 at 1. rewrite lookup_insert_eq. destruct (in_tx _ _ Hs) as [d Hd].
  destruct (upsert_all_ok s3 (([] : list Row) ++ ((λ r, coerce true t (proj cols r)) <$> up_rows u)) (seen s3)) as [d1 Hd1]; [done|].
  rewrite Hd1. unfold write. change (s_tx s3) with (s_tx s). rewrite Hd. set (s4 := set_stx s3 (Some d1)).
  assert (inside T3 s4) as Hs4 by (destruct Hs3; split; by eauto).
  unfold delete_absent, dml_from. rewrite (stmt_inside _ _ _ Hs4). unfold temp_rows. rewrite (in_temp _ _ Hs4).
  unfold T3 at 1. rewrite lookup_insert_eq.
  match goal with |- context [delete_where _ _ ?P ?d0 [] ?l] =>
    destruct (delete_where_ok s4 P d0 [] l) as [d2 Hd2]; [done|] end.
  rewrite Hd2. eexists. split; [done|]. destruct Hs4. split; simpl; by eauto.
Qed.

Lemma ApplyPass_succeeds keys u s :
  s_net s = [] → s_pinned s = false → s_tx s = None → localInfile = true → up_err u = None → unchecked s →
  (∃ ddl, tempColumnDDL tbl cols = inr ddl) → (ApplyPass localInfile t cols keys u s).1 = inr tt.
Proof.
  intros Hn Hp Htx Hli Hu Hun [ddl Hddl]. unfold ApplyPass, mbind, M_bind.
  assert (∃ s1, tableMeta t s = (inr tbl, s1) ∧ s_net s1 = [] ∧ s_pinned s1 = false ∧ s_tx s1 = None ∧ s_fk s1 = s_fk s)
    as (s1 & -> & F1 & F2 & F3 & F4).
  { unfold tableMeta. rewrite Hmeta. destruct (decide _); [by exists s|]. unfold pool. rewrite Hp, stmt_calm by done.
    by eexists. }
  rewrite Hrk, Hddl, captureCols_key, Hk0. unfold db_tx, mbind, M_bind, wrapf, db_begin, acquire.
  rewrite F2, stmt_calm by done. cbn [start]. unfold start.
  set (s2 := set_spinned _ true).
  assert (inside (s_temp s2) s2) as Hs2 by (split; simpl; eauto).
  destruct (apply_statements_ok keys u s2) as (s3 & Hs3 & Hi); [done..| |].
  { unfold unchecked in *. simpl. by rewrite F4. }
  unfold on_err. rewrite Hs3. unfold deferred, commit_tx. destruct Hi as [G1 G2 _ _ _]. by rewrite G2, G1.
Qed.

(** The pass with what is assumed of the table and the values spelled out below. *)
Lemma ApplyPass_pass (m : gmap KeyValues Row) (tgt : rows) (keys : list KeyValues) (u : upload) (s : session) :
  s_tx s = None → keys ≠ [] → Forall text_key keys →
  holds (rows_of (s_db s) t) (λ k, tgt !! (t, k)) →
  holds (proj cols <$> up_rows u) (λ k, m !! k) →
  (∀ r, r ∈ up_rows u → coerce true t (proj cols r) = proj cols r) →
  let '(r, s') := ApplyPass localInfile t cols keys u s in
  let applied := ∃ tgt', applyPass defaults tgt t cols keys m = Some tgt' ∧
    holds (rows_of (s_db s') t) (λ k, tgt' !! (t, k)) ∧ ∀ t', t' ≠ t → rows_of (s_db s') t' = rows_of (s_db s) t' in
  (r = inr tt → applied) ∧ (s_db s' = s_db s ∨ applied) ∧
  (s_net s = [] → s_pinned s = false → localInfile = true → up_err u = None → unchecked s →
   (∃ ddl, tempColumnDDL tbl cols = inr ddl) → r = inr tt).
Proof.
  intros Htx Hne Hkeys Hl Hm Hco. pose proof (ApplyPass_succeeds keys u s) as Hok. set (res := ApplyPass localInfile t cols keys u s).
  rewrite (surjective_pairing res). cbv zeta.
  set (R := λ d, ∃ tgt', applyPass defaults tgt t cols keys m = Some tgt' ∧
    holds (rows_of d t) (λ k, tgt' !! (t, k)) ∧ ∀ t', t' ≠ t → rows_of d t' = rows_of (s_db s) t').
  assert ((s_db res.2 = s_db s ∨ R (s_db res.2)) ∧ (∀ a, res.1 = inr a → R (s_db res.2))) as [H1 H2];
    [|split_and!; [by apply H2|done|auto]].
  clear Hok. subst res. unfold ApplyPass, mbind, M_bind. destruct (tableMeta_db s) as [Hdb Htx'].
  pose proof (tableMeta_inr t s) as Hti. destruct (tableMeta t s) as [[e|tb] s1]; simpl in *; [by split; [left|]|].
  assert (tb = tbl) as -> by (specialize (Hti tb eq_refl); congruence). rewrite Hrk.
  destruct (tempColumnDDL tbl cols) as [e|ddl]; [by split; [left|]|].
  rewrite captureCols_key, Hk0. rewrite <-Hdb. apply db_tx_spec; [by apply Htx'|].
  intros s2 [F1 F2].
  destruct (apply_statements_spec keys u (s_db s1) (snd <$> s_temp s2 !! "rc_apply_stg") s2) as [G1 G2]; [by split|].
  split; [done|]. intros a Ha. destruct (G2 a Ha) as (d2 & (fk1 & fk2 & d1 & Hu & Hd) & [K1 K2 K3]).
  exists d2. split; [|done]. unfold R.
  assert ((λ r, coerce true t (proj cols r)) <$> up_rows u = proj cols <$> up_rows u) as Heq.
  { apply list_fmap_ext. intros i r Hr. by apply Hco, (list_elem_of_lookup_2 _ i). }
  rewrite Heq in *. rewrite Hdb in *.
  by apply (statements_refine fk1 fk2 m (proj cols <$> up_rows u) keys tgt (s_db s) d1 d2).
Qed.
End refine.

(** What a lossless apply needs of a table, its key, the columns and the uploaded rows: the key
    is the replication key and among the columns, the collation of a key column tells different
    texts apart, and the columns take the values as they are. [MyCases.apply_lossy] shows what
    happens otherwise. *)
Record lossless `{Server} (t : TableRef) (tbl : Table) (key cols : list string) (u : upload) : Prop := {
  ls_table : meta_lookup t = Some tbl;
  ls_key : ∃ k0, replicationKey tbl = Some k0 ∧ key_Columns k0 = key;
  ls_cols : key ⊆ cols;
  ls_collation c : c ∈ key → Inj (=) (=) (collate t c);
  ls_values r : r ∈ up_rows u → coerce true t (proj cols r) = proj cols r
}.

(** C11: The MySQL apply of one table refines the apply pass of the engine contract, for a table
    whose key columns are compared exactly and an upload whose values the columns take as they
    are ([lossless]): on rows that represent a target map, under any failures, the committed
    rows are those of before or represent the result of the abstract pass with every other
    table untouched; a success means the latter; and the pass succeeds when nothing fails, the
    connection is not pinned, LOAD DATA LOCAL is allowed, every column has a type for the
    staging table, and no foreign keys are checked ([unchecked]). *)
Theorem ApplyPass_refines `{Srv : Server} (t : TableRef) (tbl : Table) (key cols : list string) (localInfile : bool)
    (m : gmap KeyValues Row) (tgt : rows) (keys : list KeyValues) (u : upload) (s : session) :
  lossless t tbl key cols u →
  s_tx s = None → keys ≠ [] → Forall (text_key key) keys →
  holds key (rows_of (s_db s) t) (λ k, tgt !! (t, k)) →
  holds key (proj cols <$> up_rows u) (λ k, m !! k) →
  let '(r, s') := ApplyPass localInfile t cols keys u s in
  let applied := ∃ tgt', applyPass defaults tgt t cols keys m = Some tgt' ∧
    holds key (rows_of (s_db s') t) (λ k, tgt' !! (t, k)) ∧ ∀ t', t' ≠ t → rows_of (s_db s') t' = rows_of (s_db s) t' in
  (r = inr tt → applied) ∧ (s_db s' = s_db s ∨ applied) ∧
  (s_net s = [] → s_pinned s = false → localInfile = true → up_err u = None → unchecked s →
   (∃ ddl, tempColumnDDL tbl cols = inr ddl) → r = inr tt).
Proof.
  intros [L1 (k0 & L2 & L3) L4 L5 L6] Htx Hne Hkeys Hl Hm. by eapply ApplyPass_pass.
Qed.
End MyRefine.
