(* ===== verification/MyCases.v ===== *)
(** * Runs of the MySQL sink

    A small schema, the instances of the theorems of [MyApply], [MyLoad] and [MyRefine] on it,
    and the runs on which the sink does less than its comments say. *)

From S2P Require Import Prelude Text Engine ApplyTx MySession MyApply MyLoad MyRefine.
Import Text ApplyTx MySession MyApply MyLoad MyRefine.

Module MyCases.

(** [staff.boss] references [staff], [badges.staff] references [staff], [notes] stands alone. *)
Definition staff : TableRef := mkRef "shop" "staff".
Definition badges : TableRef := mkRef "shop" "badges".
Definition notes : TableRef := mkRef "shop" "notes".

Definition plain_col (name : string) : Column := mkColumn name "varchar(20)" true false false false false "".

Definition table (t : TableRef) (cols : list string) (fks : list ForeignKey) : Table :=
  mkTable t (plain_col <$> cols) (Some (mkKey "PRIMARY" ["id"] true)) [] fks false "InnoDB".

Definition boss_fk : ForeignKey := mkFK "boss_fk" staff ["boss"] staff ["id"] false.
Definition badge_fk : ForeignKey := mkFK "badge_fk" badges ["staff"] staff ["id"] false.

Definition shop : list Table :=
  [table staff ["id"; "boss"] [boss_fk]; table badges ["id"; "staff"] [badge_fk]; table notes ["id"; "body"] []].

(** A server that tells all texts apart and stores every value, one with a collation that
    ignores case, one whose columns hold three characters. *)
#[local] Instance plain : Server := {|
  collate := λ _ _ x, x; coerce := λ _ _ r, r; defaults := λ _, ∅; catalog := shop |}.

Definition nocase : Server := {|
  collate := λ _ _ x, untxt (ToLower (txt x)); coerce := λ _ _ r, r; defaults := λ _, ∅; catalog := shop |}.

Definition narrow : Server := {|
  collate := λ _ _ x, x; coerce := λ _ _ r, (λ x, untxt (take 3 (txt x))) <$> r; defaults := λ _, ∅; catalog := shop |}.

Definition row (id col v : string) : Row := <[col := v]> {[ "id" := id ]}.

Definition sent (rows : list Row) : upload := mkUpload rows None.

(** ** Instances *)

Definition two_staff : tables := {[ staff := [row "1" "boss" "1"; row "2" "boss" "1"] ]}.

(** A pass over [staff] that makes 2 the boss of everyone and drops 1. *)
Definition swap_boss : list pass_op :=
  [PStage staff ["id"; "boss"] (sent [row "2" "boss" "2"; row "3" "boss" "2"]);
   PDelete staff [[VText "1"]; [VText "2"]; [VText "3"]]].

Lemma pass_consistent_witness :
  s_db (pass true true [staff] swap_boss (fresh two_staff [])).2 = {[ staff := [row "2" "boss" "2"; row "3" "boss" "2"] ]} ∧
  let '(r, s') := pass true true [staff] swap_boss (fresh two_staff []) in
  s_tx s' = None ∧ consistent (comp_fks [staff]) (s_db s') ∧ (true = false ∨ r = inr tt → s_fk s' = true).
Proof.
  split; [vm_compute; reflexivity|].
  apply (pass_consistent true true [staff] swap_boss (fresh two_staff [])); [reflexivity|done|].
  apply (bool_decide_unpack _). vm_compute. exact I.
Defined.

(** A badge whose owner has not arrived; then the owner and the badge. *)
Definition badge_first : pass_op := PStage badges ["id"; "staff"] (sent [row "7" "staff" "1"]).
Definition owner : pass_op := PStage staff ["id"; "boss"] (sent [row "1" "boss" "1"]).

Lemma failed_stage_blocks_retry_witness :
  let s := fresh ∅ [] in
  (∃ e, (pass true false [staff; badges] [badge_first] s).1 = inl e ∧ IsTransientConstraint e = true) ∧
  (∃ e', (pass true false [staff; badges] [owner; badge_first] (pass true false [staff; badges] [badge_first] s).2).1 = inl e'
     ∧ IsTransientConstraint e' = false) ∧
  (pass true false [staff; badges] [owner; badge_first] s).1 = inr tt.
Proof.
  cbv zeta. split_and!.
  - eexists. split; vm_compute; reflexivity.
  - eapply (failed_stage_blocks_retry true [staff; badges] badges ["id"; "staff"] (sent [row "7" "staff" "1"]));
      vm_compute; reflexivity.
  - vm_compute. reflexivity.
Defined.

(** The source of [staff]: two rows, then its connection breaks. *)
Definition staff_meta (ref : TableRef) : result Table :=
  match meta_lookup ref with Some t => inr t | None => inl (Failure "not found") end.
Definition broken (ref : TableRef) (cols : list string) : upload :=
  mkUpload [row "1" "boss" "1"; row "2" "boss" "1"] (Some (Failure "unexpected EOF")).

Lemma LoadCyclicFKChecks_verified_witness :
  let load := LoadCyclicFKChecks true staff_meta (λ _ _, sent [row "1" "boss" "2"; row "2" "boss" "1"]) [staff] (fresh ∅ []) in
  load.1 = inr tt ∧ length (rows_of (s_db load.2) staff) = 2 ∧
  let '(r, s') := load in
  (r = inr tt → consistent (src_fks staff_meta [staff]) (s_db s')) ∧
  (s_db s' = s_db (fresh ∅ []) ∨ consistent (src_fks staff_meta [staff]) (s_db s')).
Proof.
  cbv zeta. split; [vm_compute; reflexivity|]. split; [vm_compute; reflexivity|].
  apply (LoadCyclicFKChecks_verified true staff_meta). reflexivity.
Defined.

(** The load fails; the next pass of another component then commits a badge of nobody. *)
Lemma LoadCyclicFKChecks_leaks_witness :
  (∃ e' s', LoadCyclicFKChecks true staff_meta broken [staff] (fresh ∅ []) = (inl e', s') ∧
     s_fk s' = false ∧ s_ok s' = true ∧ s_pinned s' = false) ∧
  let s' := (LoadCyclicFKChecks true staff_meta broken [staff] (fresh ∅ [])).2 in
  (pass true false [badges] [badge_first] s').1 = inr tt ∧
  has_orphan badge_fk (s_db (pass true false [badges] [badge_first] s').2) = true.
Proof.
  split; [|vm_compute; auto].
  eapply (LoadCyclicFKChecks_leaks true staff_meta broken [staff]); [reflexivity..|vm_compute; reflexivity|].
  vm_compute. reflexivity.
Defined.

(** The apply of a note that changed and of one that is gone. *)
Definition two_notes : tables := {[ notes := [row "1" "body" "old"; row "2" "body" "bye"] ]}.
Definition notes_map : rows :=
  {[ (notes, [VText "1"]) := row "1" "body" "old"; (notes, [VText "2"]) := row "2" "body" "bye" ]}.
Definition reread_map : gmap KeyValues Row := {[ [VText "1"] := row "1" "body" "new" ]}.

Lemma row_key id v : key_values ["id"] (row id "body" v) = [VText id].
Proof. unfold key_values, row. simpl. by rewrite lookup_insert_ne, lookup_singleton_eq. Qed.

Lemma row_keyed id v : keyed ["id"] (row id "body" v).
Proof. intros c ->%list_elem_of_singleton. unfold row. rewrite lookup_insert_ne, lookup_singleton_eq by done. eauto. Qed.

Lemma holds_notes : holds ["id"] (rows_of two_notes notes) (λ k, notes_map !! (notes, k)).
Proof.
  change (rows_of two_notes notes) with [row "1" "body" "old"; row "2" "body" "bye"]. split.
  - apply (bool_decide_unpack _). vm_compute. exact I.
  - intros r Hr. rewrite !elem_of_cons in Hr. destruct Hr as [->|[->|Hr]]; [apply row_keyed..|by apply not_elem_of_nil in Hr].
  - intros k r. unfold notes_map. rewrite lookup_insert. split.
    + case_decide as Hd; [intros [= <-]; injection Hd as <-; split; [by left|apply row_key]|].
      intros [[= <-] <-]%lookup_singleton_Some. split; [by right; left|apply row_key].
    + intros [Hr <-]. rewrite !elem_of_cons in Hr.
      destruct Hr as [->|[->|Hr]]; [..|by apply not_elem_of_nil in Hr]; rewrite row_key.
      * by rewrite decide_True.
      * rewrite decide_False by done. by rewrite lookup_singleton_eq.
Qed.

Lemma holds_reread : holds ["id"] (proj ["id"; "body"] <$> [row "1" "body" "new"]) (λ k, reread_map !! k).
Proof.
  change (proj ["id"; "body"] <$> [row "1" "body" "new"]) with [proj ["id"; "body"] (row "1" "body" "new")].
  assert (proj ["id"; "body"] (row "1" "body" "new") = row "1" "body" "new") as ->.
  { apply (bool_decide_unpack _). vm_compute. exact I. }
  split.
  - apply NoDup_singleton.
  - intros r ->%list_elem_of_singleton. apply row_keyed.
  - intros k r. unfold reread_map. rewrite lookup_singleton_Some, list_elem_of_singleton. split.
    + intros [<- <-]. split; [done|apply row_key].
    + intros [-> <-]. by rewrite row_key.
Qed.

Lemma ApplyPass_refines_witness :
  let s := fresh two_notes [] in
  let keys := [[VText "1"]; [VText "2"]] in
  let u := sent [row "1" "body" "new"] in
  let '(r, s') := ApplyPass true notes ["id"; "body"] keys u s in
  r = inr tt ∧
  ∃ tgt', applyPass defaults notes_map notes ["id"; "body"] keys reread_map = Some tgt' ∧
    holds ["id"] (rows_of (s_db s') notes) (λ k, tgt' !! (notes, k)) ∧
    ∀ t', t' ≠ notes → rows_of (s_db s') t' = rows_of (s_db s) t'.
Proof.
  cbv zeta.
  assert ((ApplyPass true notes ["id"; "body"] [[VText "1"]; [VText "2"]] (sent [row "1" "body" "new"])
             (fresh two_notes [])).1 = inr tt) as Hr by (vm_compute; reflexivity).
  assert (Forall (text_key ["id"]) [[VText "1"]; [VText "2"]]) as Ht by (repeat constructor; by eexists).
  assert (lossless notes (table notes ["id"; "body"] []) ["id"] ["id"; "body"] (sent [row "1" "body" "new"])) as Hls.
  { split; [exact eq_refl|exists (mkKey "PRIMARY" ["id"] true); split; exact eq_refl|
      exact (bool_decide_unpack (["id"] ⊆ ["id"; "body"]) I)|exact (λ c _ x y H, H)|exact (λ r _, eq_refl)]. }
  pose proof (ApplyPass_refines notes (table notes ["id"; "body"] []) ["id"] ["id"; "body"] true
    reread_map notes_map [[VText "1"]; [VText "2"]] (sent [row "1" "body" "new"]) (fresh two_notes [])
    Hls eq_refl (not_eq_sym (@nil_cons _ _ _)) Ht holds_notes holds_reread) as H.
  destruct (ApplyPass true notes ["id"; "body"] _ _ _) as [r s'].
  split; [exact Hr|exact (proj1 H Hr)].
Defined.

(** ** Less than promised *)

(** A pass over a cyclic component succeeds and commits although it deletes the parent of
    a row of a table outside the component: before the pass no foreign key of the target
    dangled, after it one does. *)
Theorem pass_strands_outsider :
  let d : tables := <[badges := [row "7" "staff" "2"]]> two_staff in
  let run := pass true true [staff] [PStage staff ["id"; "boss"] (sent []); PDelete staff [[VText "2"]]] (fresh d []) in
  consistent all_fks d ∧ run.1 = inr tt ∧ consistent (comp_fks [staff]) (s_db run.2) ∧
  has_orphan badge_fk (s_db run.2) = true.
Proof.
  cbv zeta. split_and!; [|vm_compute; reflexivity| |vm_compute; reflexivity];
    apply (bool_decide_unpack _); vm_compute; exact I.
Qed.

(** A pass can report success without the target having the source's rows: a key that
    changed only in case under a collation that ignores case keeps its old text, a value that
    does not fit its column is cut, and a direct load onto an existing row is dropped. *)
Theorem apply_lossy :
  (* a key that changed only in case, under a collation that ignores case *)
  (let '(r, s') := ApplyPass (Srv := nocase) true notes ["id"; "body"] [[VText "A"]] (sent [row "A" "body" "x"])
                     (fresh {[ notes := [row "a" "body" "x"] ]} []) in
   r = inr tt ∧ rows_of (s_db s') notes = [row "a" "body" "x"]) ∧
  (* a value that does not fit its column *)
  (let '(r, s') := ApplyPass (Srv := narrow) true notes ["id"; "body"] [[VText "1"]] (sent [row "1" "body" "oversize"])
                     (fresh ∅ []) in
   r = inr tt ∧ rows_of (s_db s') notes = [row "1" "body" "ove"]) ∧
  (* a direct load onto a row that is there *)
  (let '(r, s') := BulkLoad true notes ["id"; "body"] (sent [row "1" "body" "new"]) LoadDirect
                     (fresh {[ notes := [row "1" "body" "old"] ]} []) in
   r = inr 0%Z ∧ rows_of (s_db s') notes = [row "1" "body" "old"]).
Proof. vm_compute. auto. Qed.
End MyCases.
